(* ===== verification/_CoqProject ===== *)
-Q . S2P
Prelude.v
SortedMap.v
CString.v
Bytes.v
Signature.v
SignatureGrammar.v
SignatureProperties.v
Float32.v
SignatureConvert.v
ConvertScore.v
Version.v
Url.v
Buffer.v
BufferProperties.v
Message.v
Send.v
SendProperties.v
Receive.v
ReceiveProperties.v
TypeInterface.v
BinaryCodec.v
BinaryCodecProperties.v
BinaryRoundtrip.v
BinarySafety.v
ServiceDirectory.v
ServiceDirectoryProperties.v
Strand.v
StrandInvariants.v
StrandProperties.v
JsonDecoder.v
JsonEncoder.v
JsonProperties.v
JsonText.v
JsonRoundtrip.v
Parse.v
UriGrammar.v
Uri.v
ParseProperties.v
UriText.v
UriHost.v
UriPath.v
UriProperties.v
UriRoundtrip.v
UriEndpoints.v
PeriodicTask.v
PeriodicTaskProperties.v
TransportSocketCache.v
SocketCacheInvariant.v
SocketCacheProperties.v
SocketCacheLiveness.v
Future.v
FutureEffects.v
FutureCallbacks.v
FutureDrain.v
FutureThen.v
MessageDispatcher.v
MessageDispatcherProperties.v
StreamContext.v
MetaMethod.v
MetaObject.v
MetaObjectCache.v
MetaObjectLookup.v
MetaObjectNames.v
MetaObjectInvariant.v
MetaObjectTheorems.v
TcpMessageSocket.v
TcpSocketInvariant.v
TcpSocketSteps.v
TcpSocketSettle.v
TcpSocketFutures.v
TcpSocketSignals.v
TcpSocketProperties.v
BoundCalls.v
Authentication.v
Server.v
SessionService.v
RemoteObject.v
ObjectHost.v
Signal.v
ServiceDirectoryClient.v
