(* ===== verification/Prelude.v ===== *)
(** * A verification development of the core of libqi

    libqi is the middleware of the robots of Aldebaran: processes publish
    services, call their methods and subscribe to their signals over sockets.
    This development models the parts of its C++ sources that decide what is
    exchanged and how it is interpreted, and proves that they are correct.

    ** How the parts of the program interact

    A call is a [Message] ([src/messaging/message.hpp]): a header and a payload.
    The payload is a [Buffer] ([src/buffer.cpp]), which the binary codec
    ([src/type/binarycodec.cpp]) has filled with the arguments; their types are
    described by a [Signature] ([src/type/signature.cpp],
    [src/type/typeinterface.cpp]), which the receiver parses back into types. The
    method that a call names is found in a meta object
    ([src/type/metaobject.cpp]) by the scores of the conversions of signatures.
    A socket sends its messages through a queue
    ([src/messaging/sock/send.hpp]), receives the ones of its peer through a
    loop that checks their headers ([src/messaging/sock/receive.hpp]), and hands
    them to the handlers of its dispatcher
    ([src/messaging/messagedispatcher.cpp]); its context
    ([src/messaging/streamcontext.cpp]) remembers the capabilities of both ends
    and the meta objects that were sent. The peers are found by their addresses
    ([src/messaging/url.cpp]) and endpoints ([ka/uri]) in the directory of the
    services ([src/messaging/servicedirectory.cpp]), and the cache of sockets
    ([src/messaging/transportsocketcache.cpp]) connects to the endpoints that the
    directory gives. A server ([src/messaging/server.cpp]) authenticates the sockets
    of its clients and binds the objects of services to them; a bound object
    ([src/messaging/boundobject.cpp]) answers the calls of its clients and hosts the objects
    that it gave them ([src/messaging/objecthost.cpp]). On the side of the client,
    which connects to the directory ([src/messaging/servicedirectoryclient.cpp]),
    the services of a session ([src/messaging/sessionservice.cpp]) give remote objects
    ([src/messaging/remoteobject.cpp]), which match answers with calls. What happens is told by signals
    ([src/type/signal.cpp]), to which handlers and objects subscribe. Results come as futures ([src/future.cpp],
    [qi/detail/future.hxx]); tasks run in strands ([src/strand.cpp]) and
    periodically ([src/periodictask.cpp]). Values are also written as JSON
    ([src/type/jsonencoder.cpp], [src/type/jsondecoder.cpp]), and versions are
    compared by [src/version.cpp].

    ** The files

    Foundations.
    - [Prelude]: exceptions as the monad [result], lists and lists of tasks, automation.
    - [SortedMap]: total comparisons and [std::map] as sorted lists.
    - [CString]: the operations of [std::string] and of the C character
      functions; [Bytes]: machine integers with their wrap-around, memory blocks
      with [memcpy], little-endian integers, the tactic [zlen_lia].

    Signatures and versions.
    - [Signature] models [signature.cpp] (parser, printer, builders,
      [signatureSplit]); [SignatureGrammar] relates the parser, whose mutual
      recursion runs on fuel, to a grammar; [SignatureProperties] has the
      theorems. [Float32] and [SignatureConvert] model [isConvertibleTo] with
      its binary32 score, and [signatureconvertor.cpp]; [ConvertScore] bounds the
      score through the roundings.
    - [Version] and [Url]: model and theorems of [version.cpp] and [url.cpp].

    Messages and their bytes.
    - [Buffer] models [buffer.cpp], [buffer_p.hpp] and [bufferreader.cpp];
      with [detail::printBuffer]; [BufferProperties] refines it by trees of byte
      strings.
    - [Message]: [message.hpp] and [message.cpp] with their laws.
    - [Send] and [SendProperties]: [makeBuffers], and the queue of
      [SendMessageEnqueue] as a transition system.
    - [Receive] and [ReceiveProperties]: [ReceiveMessageContinuous] as a machine
      driven by the completions of the socket.
    - [MessageDispatcher] and [MessageDispatcherProperties]: the handlers of a
      socket, refining a table of connections, and the dispatches in progress.
    - [StreamContext]: capabilities and the cache of meta objects of the two ends of
      a stream.
    - [TcpMessageSocket] models the states of a socket ([tcpmessagesocket.hpp],
      [sock/connectingstate.hpp], [connectedstate.hpp], [disconnectingstate.hpp])
      as a machine whose steps are calls, the ends of network operations and
      continuations. [TcpSocketInvariant] says which task makes the state change
      and which tasks own the promises, [TcpSocketSteps] that the steps of a
      client keep this, [TcpSocketSettle] what operations only add to,
      [TcpSocketFutures] that promises are handed over and tasks end,
      [TcpSocketSignals] counts the signals, [TcpSocketProperties] has the
      theorems and the runs that show what the code does not promise.

    Values and their types.
    - [TypeInterface]: types and their signatures.
    - [BinaryCodec] models the encoder and the decoder with their visitors;
      [BinaryCodecProperties] describes what the encoder appends as a list of
      items; [BinaryRoundtrip] proves the decoder against the interface
      [ItemReader], which has two instances, the buffer that was filled and the
      flat buffer that is received; [BinarySafety] is about arbitrary bytes.
    - [JsonDecoder] and [JsonEncoder] model the two directions of the JSON codec;
      [JsonProperties] is about arbitrary texts, [JsonText] and [JsonRoundtrip]
      about the texts of values.
    - [MetaMethod] has the data of meta objects and the store they live in, with
      the addresses that methods share and the pointers of the chains of
      overloads; [MetaObject] the operations of [metaobject.cpp], in a monad over
      the store. [MetaObjectCache] shows that a chain represents a list,
      [MetaObjectLookup] that the loops of [findMethod] along it meet a
      specification, [MetaObjectNames] what the table of names holds,
      with [findMethod] on one object, [MetaObjectInvariant] the invariant of an
      object, [MetaObjectTheorems] the invariant of all objects under all
      operations, the theorems and the runs.

    Peers.
    - [Parse] models the combinators of [ka/parse.hpp], [UriGrammar] and [Uri] the
      grammar of [ka/uri/parsing.hpp] and its results; [ParseProperties],
      [UriText], [UriHost], [UriPath], [UriProperties] and [UriRoundtrip] relate
      them to texts; [UriEndpoints] is the order of the endpoints of a service.
    - [ServiceDirectory] and [ServiceDirectoryProperties]: the tables of the
      directory and the operations on them.
    - [TransportSocketCache] models the cache of sockets as a machine whose steps
      are the calls, the results of connections and the signals of sockets;
      [SocketCacheInvariant], [SocketCacheProperties] and [SocketCacheLiveness] have
      its laws.

    Objects and sessions.
    - [BoundCalls] models the calls of a bound object, from the message to the answer,
      with the table of the calls that can be cancelled, as a transition system; [ObjectHost]
      the objects and the sockets they are bound to, with the links of signals, and what is
      removed when a socket is unbound.
    - [Authentication] models the authentication data of [authprovider.cpp] and
      [clientauthenticator.cpp], [Server] the binder of objects and sockets and the
      operations of [server.cpp], which run on the strand of the server.
    - [ServiceDirectoryClient] models the connection of a session to the directory: the
      socket, the authentication and the registrations, with every closing in between.
    - [SessionService] models the requests of services, with a function for each
      continuation; [RemoteObject] the calls of a remote object and, in its
      module [Links], the links of its signals.

    Asynchronous execution.
    - [Signal] models a signal: subscribers, connections, disconnections and emissions, as
      threads of instructions that run in any order.
    - [Strand], [StrandInvariants], [StrandProperties]: the queue of a strand, the
      calls of [process] and the threads that join.
    - [PeriodicTask] and [PeriodicTaskProperties]: the state machine of a task, with
      its callers and the call of the event loop.
    - [Future] models futures, promises, continuations and barriers as operations
      on a table of shared states and on the work that threads have to do;
      [FutureEffects] says what one operation can change, with the results that
      stay; [FutureCallbacks], [FutureDrain] and [FutureThen] have the theorems.

    A Rocq definition has the name of the C++ function or member it translates
    wherever Rocq allows it; suffixes tell overloads apart.

    ** The conventions

    A C++ function that may throw gives [Ok] or [Err]. Undefined behaviour, an
    access outside of a block or through a pointer to what is gone, is [None] (or
    [Undefined] in the codec and in the store of meta objects), so that memory
    safety is a theorem. A [size_t] is a [Z] and its operations wrap at 2^64; a
    pointer is an offset, or a container and a key. The allocator is a parameter
    [malloc]: the block it gives for a size, or nothing; its hypotheses are that a
    block has the size that was asked for and, where an operation must succeed,
    that it does not fail under a limit. [bounded_malloc] shows that they can
    hold. Asynchronous code is a state with one function per handler, which runs
    under the mutex of the code; the interleavings are the paths of an inductive
    reachability relation. Where a handler leaves its mutex, it is cut into steps
    there.

    ** The theorems

    - Communication: the bytes that [makeBuffers] gives for messages, in any
      number, are received as the same messages ([receive_roundtrip]); the loop
      is safe on arbitrary bytes ([receive_safe]); the queue sends every message
      once and in order, one write at a time ([send_queue_fifo]). The dispatcher
      is a table of connections ([dispatcher_refines]) and calls the handlers that
      are connected when a dispatch begins ([dispatch_correct]); meta objects are
      received as they were sent ([meta_objects_transmitted]).
    - Codec: decoding is the inverse of encoding, in a buffer and across the
      network ([codec_roundtrip], [codec_wire_roundtrip]), and is safe, bounded
      and well typed on arbitrary bytes ([decode_safe]). For JSON:
      [json_roundtrip], [json_safe], [json_typed].
    - Buffers: refinement by an abstract value, reading what was written, copies,
      allocation failures, bounds.
    - Meta objects: every sequence of operations is safe and keeps identifiers and
      texts unique ([meta_objects_safe]); calls are resolved as the documentation
      says ([built_overloads_found]).
    - Directory: the tables agree in every reachable state
      ([sd_tables_consistent]); a disconnection removes exactly the services of
      the client ([sd_disconnect]).
    - Addresses: a text is accepted exactly when the grammar allows it
      ([uri_exact]); printing and parsing ([uri_roundtrip]); the
      endpoints of a service are sorted ([finalize_correct]).
    - The socket of a client follows the documented cycle and breaks no promise
      ([socket_safe]), its tasks end ([socket_settles]), its futures are finished
      ([socket_futures_settle]) and its signals are paired
      ([socket_signals_paired]).
    - Objects: a call is answered once ([calls_answered_once]) and a cancellation reaches
      what the call returned ([cancel_honoured]); every object is bound to a socket
      by one binding ([host_bindings]), and to unbind a socket removes exactly what is under
      it ([host_unbind]). A remote object that is closed leaves no call without an
      answer ([remote_close_finishes]), and its registrations to signals follow its
      links ([remote_links_registered]).
    - Signals: an emission calls the enabled subscribers in order ([signal_emits]), none of which
      is called once it is disconnected ([signal_disconnect_silences]); the callback for
      the number of subscribers is told of beginnings and ends in balance
      ([signal_on_subscribers]); [disconnectAll] ends ([signal_disconnect_all]).
    - The client of the directory: its connections end ([client_connect_settles]) and succeed
      only when the server has authenticated them ([client_authenticates]).
    - The server: its objects are bound to the sockets that are validated
      ([server_bindings]), which are those that were authenticated
      ([server_authenticates]). The requests of services are consistent in every interleaving
      ([service_consistent]) and end ([service_settles]).
    - The cache of sockets: no promise is set twice ([cache_no_throw]), every future
      is set ([cache_settles]), the calls ([socket_correct]) and the end
      ([close_correct]).
    - Execution: strands run one task at a time, in order, and to the end
      ([strand_exclusive], [strand_drains]); a periodic task is quiet after [stop]
      ([stop_quiescent], [periodic_safe]); a finished future does not change
      ([future_final]), its functions are called once ([callbacks_once]) and all
      ([callbacks_drain]), and a continuation gives its result
      ([continuation_result]).
    - Signatures: the parser accepts exactly a grammar, terminates and is
      inverted by the printer; conversions are sound for a relation on types
      ([isConvertibleTo_sound]) and their scores are numbers from 0 to 1
      ([isConvertibleTo_range]); equality is equality without annotations.
    - Versions are totally preordered and addresses round trip.
    - Where the code does not do what it means to, a theorem or a run says what it
      does: [copy_write_overflows], [makeBuffers_announced_size], [reader_bounds],
      [sd_renamed_service_stuck], [isConvertibleTo_underflow], [strand_join_stuck],
      [stop_stuck], [adapt_overwrites_value], [addFuture_invalid_stuck],
      [cache_overtaken], [advertise_keeps], [copy_breaks_overloads],
      [reused_builder_loops], [chosen_id_taken], [exact_overload_ambiguous],
      [disconnect_lost], [disconnect_early], [server_disconnect_ignored],
      [client_ensure_reading], [cancelled_twice_once], [pending_socket_bound],
      [two_steps_fail], [cancel_sets_twice], [closed_while_calling],
      [refused_link_stays], [link_in_error_terminates], [late_add_stays_bound],
      [on_subscribers_out_of_order], [reconnected_never_called],
      [close_while_authenticating], [late_failure_closes_next].

    ** Fuel

    The parser of signatures runs with the fuel 3 * length + 3, and
    [Signature_new_terminates] shows that this is always enough; [explode] runs
    with the length of the string. The receive loop and the send loop are
    functions of one event; their runs take a number of events, which the
    theorems give. The decoder recurses on the type, and a dynamic value brings
    its own type: the depth of the value is enough to decode what was encoded,
    the depth of the type plus the size of the buffer is enough for any bytes.
    The JSON parser runs with the length of the text plus one, the repetitions of
    the parser combinators with the length of the range, the normalization of a
    path with its length; their theorems say that this is enough. [findMethod]
    takes fuel for the chains, and the number of methods is enough for the objects
    that builders give.

    ** What is not modelled

    Objects inside of values need a socket and callbacks, so the codec stops with
    its own exception on them; iterators, pointers and registered C++ structures
    do not appear in [ty]. Time, threads, the event loop, TLS and the operating
    system are outside: the event loop of a periodic task and of futures runs what
    it is given, at any time; the sockets of the cache are events. The states of
    futures are never destroyed; what an operation on a future calls synchronously
    is run by its thread after the steps of the operation itself. The arguments of
    a call are, for [findMethod], their number and their signatures. Logs, texts of
    errors and the checks of debug builds are left out.

    Of the parts that [src] has besides, these have logic of their own and are left
    out: the conversions of values ([type/anyreference.cpp]) and the object types
    ([type/dynamicobject.cpp], [type/staticobjecttype.cpp]), which work
    on C++ types through virtual interfaces and templates; the proxy of the directory
    ([messaging/servicedirectoryproxy.cpp]), whose parts are modelled but not its composition;
    the event loop and the log, which are threads over boost; [session.cpp], which only
    wires services, server and client together; paths, the application, the
    acceptors of the transport server and the operating system, which are calls of
    libraries. *)

From stdpp Require Export base list strings gmap.
From Stdlib Require Export ZArith Lia.

#[export] Set Default Proof Using "Type".

(** ** Exceptions

    A C++ function that may throw is modelled by a function into
    [result E A]: [Ok a] is a normal return, [Err e] a thrown exception. *)
Inductive result (E A : Type) : Type :=
  | Ok (a : A)
  | Err (e : E).
Arguments Ok {E A} a.
Arguments Err {E A} e.

#[export] Instance result_ret {E} : MRet (result E) := fun A a => Ok a.
#[export] Instance result_bind {E} : MBind (result E) :=
  fun A B f m => match m with Ok a => f a | Err e => Err e end.
#[export] Instance result_fmap {E} : FMap (result E) :=
  fun A B f m => match m with Ok a => Ok (f a) | Err e => Err e end.

#[export] Instance result_eq_dec {E A} `{EqDecision E, EqDecision A} :
  EqDecision (result E A).
Proof. solve_decision. Defined.

(** Whether a computation returned normally. *)
Definition is_ok {E A} (r : result E A) : bool :=
  match r with Ok _ => true | Err _ => false end.

Section result_lemmas.
Context {E A B : Type}.
Implicit Types (m : result E A) (f : A -> result E B).

Lemma result_bind_ok m f b :
  m ≫= f = Ok b <-> exists a, m = Ok a /\ f a = Ok b.
Proof.
  destruct m as [a|e]; cbn; split; intros H; try done.
  - by exists a.
  - by destruct H as (a' & [= ->] & Hf).
  - by destruct H as (a' & [=] & Hf).
Qed.

Lemma result_fmap_ok m (g : A -> B) b :
  g <$> m = Ok b <-> exists a, m = Ok a /\ b = g a.
Proof.
  destruct m as [a|e]; cbn; split; intros H; try done.
  - injection H as <-. by exists a.
  - by destruct H as (a' & [= ->] & ->).
  - by destruct H as (a' & [=] & ->).
Qed.
End result_lemmas.

(** ** Automation *)

(** The rewriting base of the development: equations of the modelled
    operations that are safe to apply left to right. *)
Create HintDb qi discriminated.
Create Rewrite HintDb qi_len.

(** Case analysis on the scrutinee of a [match] or of an [if] in the goal or
    in a hypothesis, keeping the equation. *)
Ltac case_match_eq :=
  match goal with
  | |- context [ match ?x with _ => _ end ] => destruct x eqn:?
  | H : context [ match ?x with _ => _ end ] |- _ => destruct x eqn:?
  end.

(** Inverts the binds and maps of the [result] monad in the hypotheses. *)
Ltac inv_result :=
  repeat match goal with
  | H : Ok _ = Ok _ |- _ => injection H as H; subst
  | H : Err _ = Err _ |- _ => injection H as H; subst
  | H : Ok _ = Err _ |- _ => discriminate H
  | H : Err _ = Ok _ |- _ => discriminate H
  | H : _ ≫= _ = Ok _ |- _ => apply result_bind_ok in H as (? & ? & H)
  | H : _ <$> _ = Ok _ |- _ => apply result_fmap_ok in H as (? & ? & H)
  | H : mret _ = Ok _ |- _ => unfold mret, result_ret in H
  end.

(** ** Lists *)

Section list_lemmas.
Context {A : Type}.
Implicit Types (l k : list A) (x : A) (i n : nat).

(** Splitting a list at an index where an element is found. *)
Lemma drop_lookup_cons l i x :
  l !! i = Some x -> drop i l = x :: drop (S i) l.
Proof. exact (drop_S l x i). Qed.

Lemma drop_lookup_nil l i : l !! i = None -> drop i l = [].
Proof. intros H%lookup_ge_None. by apply drop_ge. Qed.

Lemma lookup_drop_head l i : drop i l !! 0 = l !! i.
Proof. rewrite lookup_drop. f_equal. lia. Qed.

Lemma drop_cons_lookup l i x k :
  drop i l = x :: k -> l !! i = Some x /\ drop (S i) l = k.
Proof.
  intros H. split.
  - rewrite <- lookup_drop_head, H. done.
  - replace (S i) with (i + 1) by lia. by rewrite <- drop_drop, H.
Qed.

(** The part of a list between two indices. *)
Definition slice (b e : nat) (l : list A) : list A := take (e - b) (drop b l).

Lemma length_slice l b e : e <= length l -> length (slice b e l) = e - b.
Proof. intros H. unfold slice. rewrite length_take, length_drop. lia. Qed.

Lemma drop_slice l b e :
  b <= e -> drop b l = slice b e l ++ drop e l.
Proof.
  intros H. unfold slice. rewrite <- (take_drop (e - b) (drop b l)) at 1.
  rewrite drop_drop. by replace (b + (e - b)) with e by lia.
Qed.

Lemma slice_app l b m e :
  b <= m -> m <= e -> slice b e l = slice b m l ++ slice m e l.
Proof.
  intros H1 H2. unfold slice.
  rewrite <- (take_drop (m - b) (take (e - b) (drop b l))).
  rewrite take_take, skipn_firstn_comm, drop_drop.
  replace (b + (m - b)) with m by lia.
  replace (e - b - (m - b)) with (e - m) by lia.
  by replace ((m - b) `min` (e - b)) with (m - b) by lia.
Qed.
End list_lemmas.

#[export] Hint Rewrite @length_app @length_take @length_drop : qi_len.

(** ** Lists of tasks *)

Lemma take_task {A} (l : list A) k t : l !! k = Some t -> l ≡ₚ t :: (take k l ++ drop (S k) l).
Proof. intros H. rewrite <- (take_drop_middle l k t H) at 1. symmetry. apply Permutation_middle. Qed.

Lemma sum_le {A} (f g : A -> nat) l : (forall x, f x <= g x) -> sum_list_with f l <= sum_list_with g l.
Proof. intros H. induction l as [|x l IH]; cbn; [done|]. specialize (H x). lia. Qed.

Lemma sum_eq {A} (f g : A -> nat) l : (forall x, x ∈ l -> f x = g x) -> sum_list_with f l = sum_list_with g l.
Proof.
  induction l as [|x l IH]; intros H; [done|]. cbn. rewrite (H x) by (by left). f_equal. apply IH. intros y Hy. apply H. by right.
Qed.
