(* ===== verification/SortedMap.v ===== *)
(** * SortedMap: [std::map] as sorted lists

    Total three-way comparisons, and the maps that [std::map] and its relatives are:
    lists that the insertions keep sorted by their keys. The order matters where a
    loop goes through the map. *)
From S2P Require Import Prelude.
From Stdlib Require Import Sorting.Sorted.

(** ** Definitions *)

(** A three-way comparison that is a total order. *)
Class Ordering {A} (f : A -> A -> comparison) : Prop := {
  cmp_eq x y : f x y = Eq <-> x = y;
  cmp_anti x y : f y x = CompOpp (f x y);
  cmp_trans x y z : f x y = Lt -> f y z = Lt -> f x z = Lt;
}.

(** [std::map], as a list that the insertions keep sorted by its keys. *)
Section ordered_map.
Context {K V : Type} (cmp : K -> K -> comparison).

Fixpoint map_find (k : K) (m : list (K * V)) : option V :=
  match m with
  | [] => None
  | (k', v) :: m' => match cmp k k' with Eq => Some v | _ => map_find k m' end
  end.

Fixpoint map_set (k : K) (v : V) (m : list (K * V)) : list (K * V) :=
  match m with
  | [] => [(k, v)]
  | (k', v') :: m' =>
      match cmp k k' with Eq => (k, v) :: m' | Lt => (k, v) :: m | Gt => (k', v') :: map_set k v m' end
  end.

Fixpoint map_erase (k : K) (m : list (K * V)) : list (K * V) :=
  match m with
  | [] => []
  | (k', v') :: m' => match cmp k k' with Eq => map_erase k m' | _ => (k', v') :: map_erase k m' end
  end.
End ordered_map.

Definition sorted_map {K V} (cmp : K -> K -> comparison) (m : list (K * V)) : Prop :=
  StronglySorted (fun p q => cmp (fst p) (fst q) = Lt) m.

(** ** Laws *)

#[export] Instance Z_ordering : Ordering Z.compare.
Proof.
  split.
  - apply Z.compare_eq_iff.
  - apply Z.compare_antisym.
  - intros x y z. rewrite !Z.compare_lt_iff. lia.
Qed.

Section ordered.
Context {K V : Type} (cmp : K -> K -> comparison) `{!Ordering cmp} `{!EqDecision K}.
Implicit Types m : list (K * V).
Set Default Proof Using "Type*".

Lemma ord_refl k : cmp k k = Eq.
Proof. by apply cmp_eq. Qed.

Lemma ord_ne k k' : k <> k' -> cmp k k' <> Eq.
Proof. intros H E. by apply H, cmp_eq. Qed.

Lemma map_find_set k v m k' : map_find cmp k' (map_set cmp k v m) = if decide (k' = k) then Some v else map_find cmp k' m.
Proof.
  destruct (decide (k' = k)) as [->|Hk].
  - induction m as [|[k0 v0] m IH]; cbn; [by rewrite ord_refl|].
    destruct (cmp k k0) eqn:E; cbn; rewrite ?ord_refl, ?E; done.
  - pose proof (ord_ne k' k Hk) as Hne. induction m as [|[k0 v0] m IH]; cbn; [by destruct (cmp k' k)|].
    destruct (cmp k k0) eqn:E; cbn.
    + apply cmp_eq in E as ->. by destruct (cmp k' k0).
    + by destruct (cmp k' k).
    + by rewrite IH.
Qed.

Lemma map_find_erase k m k' : map_find cmp k' (map_erase cmp k m) = if decide (k' = k) then None else map_find cmp k' m.
Proof.
  destruct (decide (k' = k)) as [->|Hk].
  - induction m as [|[k0 v0] m IH]; cbn; [done|]. destruct (cmp k k0) eqn:E; cbn; rewrite ?E; done.
  - pose proof (ord_ne k' k Hk) as Hne. induction m as [|[k0 v0] m IH]; cbn; [done|].
    destruct (cmp k k0) eqn:E; cbn; rewrite IH; [|done..]. apply cmp_eq in E as ->. by destruct (cmp k' k0).
Qed.

Lemma map_find_In k v m : map_find cmp k m = Some v -> (k, v) ∈ m.
Proof.
  induction m as [|[k0 v0] m IH]; cbn; [done|]. destruct (cmp k k0) eqn:E.
  - apply cmp_eq in E as ->. intros [= ->]. by left.
  - intros H. right. auto.
  - intros H. right. auto.
Qed.

Lemma map_set_In k v m p : p ∈ map_set cmp k v m -> p = (k, v) \/ p ∈ m.
Proof.
  induction m as [|[k0 v0] m IH]; cbn; [rewrite list_elem_of_singleton; auto|].
  destruct (cmp k k0); rewrite !elem_of_cons; [|tauto|]; intros [->|H]; auto.
  destruct (IH H); auto.
Qed.

Lemma map_erase_In k m p : p ∈ map_erase cmp k m -> p ∈ m.
Proof.
  induction m as [|[k0 v0] m IH]; cbn; [done|].
  destruct (cmp k k0); rewrite ?elem_of_cons; intros H; [right; auto|..]; destruct H as [->|H]; auto.
Qed.

Lemma map_set_sorted k v m : sorted_map cmp m -> sorted_map cmp (map_set cmp k v m).
Proof.
  unfold sorted_map. induction 1 as [|[k0 v0] m H IH Hf]; cbn; [repeat constructor|].
  rewrite List.Forall_forall in Hf. destruct (cmp k k0) eqn:E.
  - apply cmp_eq in E as ->. constructor; [done|]. by apply List.Forall_forall.
  - repeat constructor; [done|by apply List.Forall_forall|done|]. apply List.Forall_forall. intros q Hq.
    by apply (cmp_trans (f := cmp) k k0), Hf.
  - constructor; [done|]. apply List.Forall_forall. intros q Hq%list_elem_of_In%map_set_In. destruct Hq as [->|Hq].
    + cbn. rewrite (cmp_anti (f := cmp)). by rewrite E.
    + by apply Hf, list_elem_of_In.
Qed.

Lemma map_erase_sorted k m : sorted_map cmp m -> sorted_map cmp (map_erase cmp k m).
Proof.
  unfold sorted_map. induction 1 as [|[k0 v0] m H IH Hf]; cbn; [constructor|].
  rewrite List.Forall_forall in Hf.
  destruct (cmp k k0); [done|..]; constructor; [done| |done|];
    apply List.Forall_forall; intros q Hq%list_elem_of_In%map_erase_In; by apply Hf, list_elem_of_In.
Qed.

Lemma sorted_find k v m : sorted_map cmp m -> (k, v) ∈ m -> map_find cmp k m = Some v.
Proof.
  unfold sorted_map. induction 1 as [|[k0 v0] m H IH Hf]; [by intros ?%elem_of_nil|].
  rewrite List.Forall_forall in Hf. intros [[= <- <-]|Hin]%elem_of_cons; cbn; [by rewrite ord_refl|].
  pose proof (Hf (k, v) (proj1 (list_elem_of_In _ _) Hin)) as Hlt. cbn in Hlt.
  rewrite (cmp_anti (f := cmp) k0 k), Hlt. cbn. auto.
Qed.

Lemma map_find_erase_all l m k :
  map_find cmp k (foldl (fun m k => map_erase cmp k m) m l) = if decide (k ∈ l) then None else map_find cmp k m.
Proof.
  revert m. induction l as [|k0 l IH]; intros m; cbn [foldl]; [by destruct (decide (k ∈ [])) as [?%elem_of_nil|]|].
  rewrite IH, map_find_erase. destruct (decide (k ∈ l)), (decide (k = k0)), (decide (k ∈ k0 :: l)) as [H|H]; try done;
    rewrite elem_of_cons in H; naive_solver.
Qed.

Lemma erase_all_sorted l m : sorted_map cmp m -> sorted_map cmp (foldl (fun m k => map_erase cmp k m) m l).
Proof. revert m. induction l as [|k0 l IH]; intros m Hm; cbn; [done|]. by apply IH, map_erase_sorted. Qed.

End ordered.
