(* ===== verification/CString.v ===== *)
(** * CString: the operations of [std::string] and of the C character
    library that libqi uses, on lists of 8-bit characters. *)
From S2P Require Import Prelude.
From Stdlib Require Export Ascii.
From Stdlib Require Import String.
From stdpp Require Export list.
#[export] Unset Printing Records.
#[local] Open Scope char_scope.
#[local] Open Scope list_scope.

(** ** Definitions *)

(** A [std::string] (and any range of bytes): a list of 8-bit characters,
    embedded zeros included. *)
Abbreviation bytes := (list ascii).

(** A string literal of the sources. *)
Definition lit (s : string) : bytes := list_ascii_of_string s.
Arguments lit !s.

(** A position returned by the [find] family: [None] is
    [std::string::npos], which is greater than every index. *)
Abbreviation pos := (option nat).
Abbreviation npos := (@None nat).

(** [a > b] on [size_t] positions. *)
Definition pos_gt (a b : pos) : bool :=
  match a, b with
  | None, Some _ => true
  | None, None => false
  | Some _, None => false
  | Some x, Some y => bool_decide (y < x)
  end.

(** [std::isdigit] and [std::isalpha] in the "C" locale. *)
Definition code (c : ascii) : Z := Z.of_N (N_of_ascii c).
Definition isdigit (c : ascii) : bool := (48 <=? code c)%Z && (code c <=? 57)%Z.
Definition isalpha (c : ascii) : bool :=
  ((65 <=? code c)%Z && (code c <=? 90)%Z) || ((97 <=? code c)%Z && (code c <=? 122)%Z).
Definition isspace (c : ascii) : bool :=
  (code c =? 32)%Z || ((9 <=? code c)%Z && (code c <=? 13)%Z).

Definition isxdigit (c : ascii) : bool :=
  isdigit c || ((65 <=? code c)%Z && (code c <=? 70)%Z) || ((97 <=? code c)%Z && (code c <=? 102)%Z).
Definition isalnum (c : ascii) : bool := isalpha c || isdigit c.

(** [std::tolower] and [std::toupper]. *)
Definition tolower (c : ascii) : ascii :=
  if (65 <=? code c)%Z && (code c <=? 90)%Z then ascii_of_N (Z.to_N (code c + 32)) else c.
Definition toupper (c : ascii) : ascii :=
  if (97 <=? code c)%Z && (code c <=? 122)%Z then ascii_of_N (Z.to_N (code c - 32)) else c.

(** [s.find(c)]: the first position of a character. *)
Fixpoint find_char (c : ascii) (s : bytes) : pos :=
  match s with
  | [] => npos
  | x :: s' => if decide (x = c) then Some 0 else S <$> find_char c s'
  end.

(** [s] starts with [p]. *)
Fixpoint starts_with (p s : bytes) : bool :=
  match p, s with
  | [], _ => true
  | x :: p', y :: s' => if decide (x = y) then starts_with p' s' else false
  | _ :: _, [] => false
  end.

(** [s.find(p)]: the first position of a substring. *)
Fixpoint find_sub (p s : bytes) : pos :=
  if starts_with p s then Some 0
  else match s with
       | [] => npos
       | _ :: s' => S <$> find_sub p s'
       end.

(** [s.substr(0, e)]: everything when [e] is [npos]. *)
Definition substr_to (s : bytes) (e : pos) : bytes :=
  match e with None => s | Some n => take n s end.

(** The three-way comparison of [std::string]: lexicographic on unsigned
    characters, a prefix being smaller. *)
Fixpoint str_compare (s t : bytes) : comparison :=
  match s, t with
  | [], [] => Eq
  | [], _ :: _ => Lt
  | _ :: _, [] => Gt
  | x :: s', y :: t' =>
      match (code x ?= code y)%Z with
      | Eq => str_compare s' t'
      | c => c
      end
  end.

(** The value of a run of decimal digits, and the digits of a number. *)
Definition digit_value (c : ascii) : Z := (code c - 48)%Z.
Definition decimal_value (s : bytes) : Z :=
  fold_left (fun acc c => acc * 10 + digit_value c)%Z s 0%Z.
Definition digit_char (d : Z) : ascii := ascii_of_N (Z.to_N (48 + d)).
Fixpoint decimal_digits (fuel : nat) (n : Z) (acc : bytes) : bytes :=
  match fuel with
  | O => acc
  | S f =>
      let acc' := digit_char (n mod 10) :: acc in
      if (n <? 10)%Z then acc' else decimal_digits f (n / 10)%Z acc'
  end.
(** [boost::lexical_cast<std::string>] of an unsigned integer below 10^20. *)
Definition to_decimal (n : Z) : bytes := decimal_digits 20 n [].

(** The longest prefix of characters satisfying [p], and the rest. *)
Fixpoint span (p : ascii -> bool) (s : bytes) : bytes * bytes :=
  match s with
  | [] => ([], [])
  | c :: s' => if p c then let '(a, b) := span p s' in (c :: a, b) else ([], s)
  end.

(** C integer ranges. *)
Definition long_max : Z := (2 ^ 63 - 1)%Z.
Definition long_min : Z := (- 2 ^ 63)%Z.

(** [std::strtol(s, &end, 10)] with [errno] cleared before: the value, the
    unread rest of the string ([end] points at its beginning) and whether
    [errno] was set to [ERANGE]. Without a digit nothing is read. *)
Definition strtol (s : bytes) : Z * bytes * bool :=
  let '(_, s1) := span isspace s in
  let '(neg, s2) :=
    match s1 with
    | c :: r => if decide (c = "-") then (true, r)
                else if decide (c = "+") then (false, r) else (false, s1)
    | [] => (false, s1)
    end in
  let '(ds, rest) := span isdigit s2 in
  match ds with
  | [] => (0%Z, s, false)
  | _ :: _ =>
      let v := if neg : bool then (- decimal_value ds)%Z else decimal_value ds in
      if (v >? long_max)%Z then (long_max, rest, true)
      else if (v <? long_min)%Z then (long_min, rest, true)
      else (v, rest, false)
  end.

(** ** Lemmas *)

Lemma find_char_None c s : c ∉ s -> find_char c s = npos.
Proof.
  induction s as [|x s IH]; cbn; [done|]. rewrite not_elem_of_cons. intros [? Hs].
  rewrite decide_False by done. by rewrite IH.
Qed.

Lemma find_char_Some c s : c ∈ s -> find_char c s <> npos.
Proof.
  induction s as [|x s IH]; cbn; [by rewrite elem_of_nil|]. rewrite elem_of_cons.
  case_decide; [done|]. intros [->|Hs]; [done|]. specialize (IH Hs). by destruct (find_char c s).
Qed.

Lemma find_char_first c x s : c ∉ x -> find_char c (x ++ c :: s) = Some (length x).
Proof.
  induction x as [|y x IH]; cbn; [by rewrite decide_True|]. rewrite not_elem_of_cons.
  intros [? Hx]. rewrite decide_False by done. by rewrite IH.
Qed.

Lemma find_char_take c s n :
  find_char c s = Some n -> s = take n s ++ c :: drop (S n) s /\ c ∉ take n s.
Proof.
  revert n. induction s as [|x s IH]; intros n; cbn; [done|]. case_decide as Hx.
  - intros [= <-]. subst. cbn. rewrite drop_0. split; [done|apply not_elem_of_nil].
  - intros (m & Hm & ->)%fmap_Some. destruct (IH m Hm) as [Hs Hn]. cbn. split.
    + f_equal. exact Hs.
    + rewrite not_elem_of_cons. auto.
Qed.

Lemma find_char_npos c s : find_char c s = npos -> c ∉ s.
Proof. intros H Hs. by apply find_char_Some in Hs. Qed.

Lemma starts_with_app p s : starts_with p (p ++ s) = true.
Proof. induction p as [|x p IH]; cbn; [done|]. by rewrite decide_True. Qed.

Lemma starts_with_app_l p s t : length p <= length s -> starts_with p (s ++ t) = starts_with p s.
Proof.
  revert s. induction p as [|x p IH]; intros [|y s] Hl; cbn in *; try done; [lia|].
  case_decide; [|done]. apply IH. lia.
Qed.

Lemma starts_with_take p s : starts_with p s = true -> s = p ++ drop (length p) s.
Proof.
  revert s. induction p as [|x p IH]; intros [|y s]; cbn; try done.
  case_decide; [|done]. subst. intros H. f_equal. by apply IH.
Qed.

Lemma find_sub_first p c x s :
  c ∉ x -> find_sub (c :: p) (x ++ (c :: p) ++ s) = Some (length x).
Proof.
  induction x as [|y x IH]; cbn [app]; intros Hc.
  - cbn [find_sub starts_with]. by rewrite decide_True, starts_with_app.
  - apply not_elem_of_cons in Hc as [Hy Hx]. cbn [find_sub starts_with].
    rewrite decide_False by done. fold (find_sub (c :: p)). cbn [app] in IH. by rewrite IH.
Qed.

Lemma find_sub_step p c s :
  find_sub p (c :: s) = if starts_with p (c :: s) then Some 0 else S <$> find_sub p s.
Proof. by destruct p. Qed.

(** Text after the first occurrence of [p] is irrelevant to it. *)
Lemma find_sub_extend p x y :
  find_sub p (x ++ p) = Some (length x) -> find_sub p (x ++ p ++ y) = Some (length x).
Proof.
  induction x as [|c x IH]; cbn [app].
  - intros _. pose proof (starts_with_app p y) as H. destruct (p ++ y); cbn; by rewrite H.
  - rewrite !find_sub_step.
    replace (starts_with p (c :: x ++ p ++ y)) with (starts_with p (c :: x ++ p)).
    + destruct (starts_with p _); [done|].
      intros (n & Hn & [= Hl])%fmap_Some. subst n. by rewrite (IH Hn).
    + rewrite (app_assoc x p y). symmetry. apply (starts_with_app_l p (c :: x ++ p) y).
      cbn. rewrite length_app. lia.
Qed.

Lemma find_sub_take p s n :
  find_sub p s = Some n -> p <> [] ->
  s = take n s ++ p ++ drop (n + length p) s /\ find_sub p (take n s ++ p) = Some n /\
  n <= length s.
Proof.
  intros H Hp. revert n H. induction s as [|c s IH]; intros n.
  - cbn. by destruct p.
  - rewrite find_sub_step. destruct (starts_with p (c :: s)) eqn:Hs.
    + intros [= <-]. apply starts_with_take in Hs as Hd. cbn [take app Nat.add length].
      split; [done|]. split; [|lia]. pose proof (starts_with_app p []) as H.
      rewrite app_nil_r in H. destruct p; [done|]. cbn [find_sub]. by rewrite H.
    + intros (m & Hm & ->)%fmap_Some. destruct (IH m Hm) as (Hd & Hf & Hl).
      cbn [take app Nat.add drop]. split; [by f_equal|]. split; [|cbn; lia].
      rewrite find_sub_step, Hf.
      assert (starts_with p (c :: take m s ++ p) = false) as ->; [|done].
      rewrite <- Hs. rewrite Hd at 2. rewrite app_assoc. symmetry.
      apply (starts_with_app_l p (c :: take m s ++ p)). cbn. rewrite length_app. lia.
Qed.

(** The first occurrence is not after any other. *)
Lemma find_sub_le p x y : exists k, find_sub p (x ++ p ++ y) = Some k /\ k <= length x.
Proof.
  induction x as [|c x (k & E & Hk)]; cbn [app].
  - exists 0. split; [|cbn; lia]. pose proof (starts_with_app p y) as H. destruct (p ++ y); cbn; by rewrite H.
  - rewrite find_sub_step, E. destruct (starts_with p _); [exists 0|exists (S k)]; split; try done; cbn; lia.
Qed.

Lemma find_sub_not_elem p c s : c ∉ s -> c ∈ p -> find_sub p s = npos.
Proof.
  intros Hs Hc. induction s as [|x s IH].
  - destruct p; [by apply elem_of_nil in Hc|done].
  - rewrite find_sub_step. destruct (starts_with p (x :: s)) eqn:H.
    + apply starts_with_take in H. rewrite H in Hs. apply not_elem_of_app in Hs. tauto.
    + apply not_elem_of_cons in Hs as [_ Hs]. by rewrite (IH Hs).
Qed.

(** ** Decimal numbers *)

Lemma isdigit_digit_char d : (0 <= d < 10)%Z -> isdigit (digit_char d) = true /\ digit_value (digit_char d) = d.
Proof.
  intros Hd. unfold isdigit, digit_value, code, digit_char.
  rewrite N_ascii_embedding by (apply N2Z.inj_lt; rewrite Z2N.id; lia).
  rewrite Z2N.id by lia. lia.
Qed.

Lemma decimal_value_snoc ds d :
  decimal_value (ds ++ [d]) = (decimal_value ds * 10 + digit_value d)%Z.
Proof. unfold decimal_value. by rewrite fold_left_app. Qed.

Lemma decimal_digits_spec fuel n acc :
  (0 <= n < 10 ^ Z.of_nat fuel)%Z -> 0 < fuel ->
  exists ds, decimal_digits fuel n acc = ds ++ acc /\ ds <> [] /\
    Forall (fun c => isdigit c = true) ds /\ decimal_value ds = n.
Proof.
  revert n acc. induction fuel as [|f IH]; intros n acc Hn Hf; [lia|]. cbn [decimal_digits].
  pose proof (Z.mod_pos_bound n 10 ltac:(lia)) as Hm.
  destruct (isdigit_digit_char (n mod 10) Hm) as [Hdig Hval].
  destruct (Z.ltb_spec n 10) as [Hlt|Hge].
  - exists [digit_char (n mod 10)]. repeat split; [done|by repeat constructor|].
    unfold decimal_value. cbn [fold_left]. rewrite Hval, Z.mod_small by lia. lia.
  - assert (0 < f) as Hf0.
    { destruct f; [|lia]. change (10 ^ Z.of_nat 1)%Z with 10%Z in Hn. lia. }
    rewrite Nat2Z.inj_succ, Z.pow_succ_r in Hn by lia.
    destruct (IH (n / 10)%Z (digit_char (n mod 10) :: acc)) as (ds & -> & _ & Hds & Hv).
    { split; [apply Z.div_pos; lia|apply Z.div_lt_upper_bound; lia]. }
    { done. }
    exists (ds ++ [digit_char (n mod 10)]). rewrite <- app_assoc. repeat split.
    + by destruct ds.
    + apply Forall_app. split; [done|by repeat constructor].
    + rewrite decimal_value_snoc, Hv, Hval. pose proof (Z.div_mod n 10). lia.
Qed.

Lemma to_decimal_spec n :
  (0 <= n < 10 ^ 20)%Z ->
  to_decimal n <> [] /\ Forall (fun c => isdigit c = true) (to_decimal n) /\
  decimal_value (to_decimal n) = n.
Proof.
  intros Hn. destruct (decimal_digits_spec 20 n []) as (ds & Hds & ?); [done|lia|].
  unfold to_decimal. rewrite Hds, app_nil_r. tauto.
Qed.

Lemma span_all p s : Forall (fun c => p c = true) s -> span p s = (s, []).
Proof. induction 1 as [|c s Hc _ IH]; cbn; [done|]. by rewrite Hc, IH. Qed.

Lemma span_none p c s : p c = false -> span p (c :: s) = ([], c :: s).
Proof. cbn. by intros ->. Qed.

(** [strtol] reads back what [lexical_cast] printed. *)
Lemma strtol_to_decimal n : (0 <= n <= long_max)%Z -> strtol (to_decimal n) = (n, [], false).
Proof.
  intros Hn. destruct (to_decimal_spec n) as (Hne & Hds & Hv); [unfold long_max in *; lia|].
  destruct (to_decimal n) as [|c ds] eqn:Hd; [done|]. inversion Hds as [|? ? Hc Hds']; subst.
  assert (48 <= code c <= 57)%Z as Hcode by (unfold isdigit in Hc; lia).
  unfold strtol. rewrite span_none by (unfold isspace; lia).
  rewrite !decide_False by (intros ->; destruct Hcode as [Hx _]; by apply Hx).
  rewrite (span_all isdigit) by done.
  destruct (Z.gtb_spec (decimal_value (c :: ds)) long_max); [lia|].
  destruct (Z.ltb_spec (decimal_value (c :: ds)) long_min); [unfold long_min in *; lia|]. done.
Qed.
