(* ===== verification/Bytes.v ===== *)
(** * Bytes: machine integers, memory blocks and the little-endian layout

    What the buffers, the message header and the socket layer share: [size_t]
    arithmetic with its wrap-around, [memcpy] into a block of memory with its
    bounds, and the in-memory representation of the fixed-width unsigned
    integers (the code copies them with [memcpy] and is only run on
    little-endian machines). *)
From S2P Require Import Prelude CString.
From Stdlib Require Import Ascii.
Open Scope Z_scope.

(** ** Machine integers *)

(** The value of an unsigned [w]-bit integer computed from [z]. *)
Definition wrap (w z : Z) : Z := z mod 2 ^ w.

(** [size_t]. *)
Definition wrap64 (z : Z) : Z := z mod 2 ^ 64.

Lemma wrap64_small z : 0 <= z < 2 ^ 64 -> wrap64 z = z.
Proof. intros H. by apply Z.mod_small. Qed.

Lemma wrap_small w z : 0 <= z < 2 ^ w -> wrap w z = z.
Proof. intros H. by apply Z.mod_small. Qed.

Lemma wrap_range w z : 0 <= w -> 0 <= wrap w z < 2 ^ w.
Proof. intros H. apply Z.mod_pos_bound. lia. Qed.

Lemma wrap64_range z : 0 <= wrap64 z < 2 ^ 64.
Proof. apply Z.mod_pos_bound. lia. Qed.

Lemma wrap64_add_l a b : wrap64 (wrap64 a + b) = wrap64 (a + b).
Proof. unfold wrap64. by rewrite Zplus_mod_idemp_l. Qed.

Lemma wrap64_add_r a b : wrap64 (a + wrap64 b) = wrap64 (a + b).
Proof. unfold wrap64. by rewrite Zplus_mod_idemp_r. Qed.

(** A bitwise or stays in the range of its operands. *)
Lemma lor_range w a b :
  0 < w -> 0 <= a < 2 ^ w -> 0 <= b < 2 ^ w -> 0 <= Z.lor a b < 2 ^ w.
Proof.
  intros Hw Ha Hb. assert (0 <= Z.lor a b) by (apply Z.lor_nonneg; lia). split; [done|].
  destruct (Z.eq_dec (Z.lor a b) 0) as [->|Hne]; [lia|].
  assert (Hlog : forall x, 0 <= x < 2 ^ w -> Z.log2 x < w).
  { intros x Hx. destruct (Z.eq_dec x 0) as [->|]; [done|]. apply Z.log2_lt_pow2; lia. }
  apply Z.log2_lt_pow2; [lia|]. rewrite Z.log2_lor by lia. apply Z.max_lub_lt; auto.
Qed.

(** The length of a list as a [size_t]. *)
Definition zlen {A} (l : list A) : Z := Z.of_nat (length l).

Lemma zlen_app {A} (l k : list A) : zlen (l ++ k) = zlen l + zlen k.
Proof. unfold zlen. rewrite length_app. lia. Qed.

Lemma zlen_nonneg {A} (l : list A) : 0 <= zlen l.
Proof. unfold zlen. lia. Qed.

Lemma zlen_cons {A} (x : A) l : zlen (x :: l) = 1 + zlen l.
Proof. unfold zlen. cbn [length]. lia. Qed.

Lemma zlen_take {A} n (l : list A) : 0 <= n <= zlen l -> zlen (take (Z.to_nat n) l) = n.
Proof. unfold zlen. intros H. rewrite length_take. lia. Qed.

(** ** Blocks of memory *)

(** [memcpy(dst + off, src, n)], where [dst] and [src] are the whole blocks
    that hold the destination and the source: [None] is undefined behaviour
    (an access outside of one of the blocks). *)
Definition memcpy (dst : bytes) (off : Z) (src : bytes) (n : Z) : option bytes :=
  if decide (0 <= n <= zlen src /\ 0 <= off /\ off + n <= zlen dst)
  then Some (take (Z.to_nat off) dst ++ take (Z.to_nat n) src
             ++ drop (Z.to_nat (off + n)) dst)
  else None.

(** The [n] bytes at offset [off] of a block. *)
Definition mem_read (blk : bytes) (off n : Z) : option bytes :=
  if decide (0 <= n /\ 0 <= off /\ off + n <= zlen blk)
  then Some (take (Z.to_nat n) (drop (Z.to_nat off) blk))
  else None.

Lemma memcpy_length dst off src n dst' :
  memcpy dst off src n = Some dst' -> zlen dst' = zlen dst.
Proof.
  unfold memcpy, zlen. case_decide as H; [|done]. unfold zlen in H. intros [= <-].
  rewrite !length_app, !length_take, length_drop. lia.
Qed.

Lemma memcpy_whole dst off src :
  0 <= off -> off + zlen src <= zlen dst ->
  memcpy dst off src (zlen src)
  = Some (take (Z.to_nat off) dst ++ src ++ drop (Z.to_nat (off + zlen src)) dst).
Proof.
  intros H1 H2. unfold memcpy. rewrite decide_True by (unfold zlen in *; lia).
  rewrite (take_ge src) by (unfold zlen; lia). done.
Qed.

(** What is before the destination of a [memcpy] is unchanged, and is followed
    by the copied bytes. *)
Lemma memcpy_prefix dst off src n dst' :
  memcpy dst off src n = Some dst' ->
  take (Z.to_nat (off + n)) dst' = take (Z.to_nat off) dst ++ take (Z.to_nat n) src.
Proof.
  unfold memcpy. case_decide as H; [|done]. intros [= <-]. unfold zlen in H.
  rewrite app_assoc, take_app_le.
  - apply take_ge. rewrite length_app, !length_take. lia.
  - rewrite length_app, !length_take. lia.
Qed.

(** ** Little-endian integers *)

Definition Z_of_byte (c : ascii) : Z := Z.of_N (N_of_ascii c).
Definition byte_of_Z (z : Z) : ascii := ascii_of_N (Z.to_N (z mod 256)).

(** The [n] bytes of an [8 * n]-bit unsigned integer. *)
Fixpoint le_encode (n : nat) (z : Z) : bytes :=
  match n with
  | O => []
  | S n' => byte_of_Z z :: le_encode n' (z / 256)
  end.

Fixpoint le_decode (l : bytes) : Z :=
  match l with
  | [] => 0
  | c :: l' => Z_of_byte c + 256 * le_decode l'
  end.

Lemma Z_of_byte_range c : 0 <= Z_of_byte c < 256.
Proof. unfold Z_of_byte. pose proof (N_ascii_bounded c). lia. Qed.

Lemma Z_of_byte_of_Z z : Z_of_byte (byte_of_Z z) = z mod 256.
Proof.
  unfold Z_of_byte, byte_of_Z. pose proof (Z.mod_pos_bound z 256 ltac:(lia)).
  rewrite N_ascii_embedding; lia.
Qed.

Lemma byte_of_Z_of_byte c : byte_of_Z (Z_of_byte c) = c.
Proof.
  unfold byte_of_Z. rewrite Z.mod_small by apply Z_of_byte_range.
  unfold Z_of_byte. by rewrite N2Z.id, ascii_N_embedding.
Qed.

Lemma length_le_encode n z : length (le_encode n z) = n.
Proof. revert z. induction n as [|n IH]; intros z; cbn; [done|]. by rewrite IH. Qed.

Lemma zlen_le_encode n z : zlen (le_encode n z) = Z.of_nat n.
Proof. unfold zlen. by rewrite length_le_encode. Qed.

Lemma le_decode_encode n z : le_decode (le_encode n z) = z mod 2 ^ (8 * Z.of_nat n).
Proof.
  revert z. induction n as [|n IH]; intros z; cbn [le_encode le_decode].
  { by rewrite Z.mod_1_r. }
  rewrite IH, Z_of_byte_of_Z.
  replace (8 * Z.of_nat (S n)) with (8 + 8 * Z.of_nat n) by lia.
  rewrite Z.pow_add_r by lia. change (2 ^ 8) with 256.
  rewrite Z.rem_mul_r by lia. lia.
Qed.

Lemma le_decode_range l : 0 <= le_decode l < 2 ^ (8 * zlen l).
Proof.
  induction l as [|c l IH]; cbn [le_decode]; [done|].
  rewrite zlen_cons. replace (8 * (1 + zlen l)) with (8 + 8 * zlen l) by lia.
  rewrite Z.pow_add_r by (pose proof (zlen_nonneg l); lia). change (2 ^ 8) with 256.
  pose proof (Z_of_byte_range c). lia.
Qed.

Lemma le_encode_decode l : le_encode (length l) (le_decode l) = l.
Proof.
  induction l as [|c l IH]; cbn [length le_encode le_decode]; [done|].
  pose proof (Z_of_byte_range c). f_equal.
  - unfold byte_of_Z. replace (Z_of_byte c + 256 * le_decode l) with
      (Z_of_byte c + le_decode l * 256) by lia.
    rewrite Z_mod_plus_full. apply byte_of_Z_of_byte.
  - replace (Z_of_byte c + 256 * le_decode l) with
      (Z_of_byte c + le_decode l * 256) by lia.
    rewrite Z.div_add, Z.div_small by lia. by rewrite Z.add_0_l.
Qed.

#[export] Hint Rewrite @zlen_app @zlen_cons zlen_le_encode length_le_encode : qi_len.

(** Linear arithmetic on the lengths of byte strings: the lengths of the
    constructed lists are computed and every length is nonnegative. *)
Ltac zlen_facts :=
  repeat match goal with
  | |- context [zlen ?l] =>
      lazymatch goal with _ : 0 <= zlen l |- _ => fail | _ => pose proof (zlen_nonneg l) end
  | _ : context [zlen ?l] |- _ =>
      lazymatch goal with _ : 0 <= zlen l |- _ => fail | _ => pose proof (zlen_nonneg l) end
  end.
Ltac zlen_lia := autorewrite with qi_len in *; zlen_facts; lia.
