(* ===== verification/Signature.v ===== *)
(** * Signature: the textual type descriptions of libqi
    ([qi/signature.hpp], [src/type/signature.cpp]).

    A signature is a string in a small grammar ("(is[m])<Point,x,y,z>").  The
    constructor parses it into a tree of child signatures and throws on a
    malformed string; [findNext] and the two bracket scanners are the
    recogniser the parser is built on. *)
From S2P Require Import Prelude CString.
#[local] Open Scope char_scope.
#[local] Open Scope list_scope.

(** ** The type characters *)

(** [Signature::Type]: an enumeration whose values are characters. *)
Definition Type_None : ascii := "_".
Definition Type_Bool : ascii := "b".
Definition Type_Int8 : ascii := "c".
Definition Type_UInt8 : ascii := "C".
Definition Type_Void : ascii := "v".
Definition Type_Int16 : ascii := "w".
Definition Type_UInt16 : ascii := "W".
Definition Type_Int32 : ascii := "i".
Definition Type_UInt32 : ascii := "I".
Definition Type_Int64 : ascii := "l".
Definition Type_UInt64 : ascii := "L".
Definition Type_Float : ascii := "f".
Definition Type_Double : ascii := "d".
Definition Type_String : ascii := "s".
Definition Type_List : ascii := "[".
Definition Type_List_End : ascii := "]".
Definition Type_Map : ascii := "{".
Definition Type_Map_End : ascii := "}".
Definition Type_Tuple : ascii := "(".
Definition Type_Tuple_End : ascii := ")".
Definition Type_Dynamic : ascii := "m".
Definition Type_Raw : ascii := "r".
Definition Type_Pointer : ascii := "*".
Definition Type_Object : ascii := "o".
Definition Type_VarArgs : ascii := "#".
Definition Type_KwArgs : ascii := "~".
Definition Type_Optional : ascii := "+".
Definition Type_Unknown : ascii := "X".

(** The case labels that end with [break] after one character in
    [findNext], and with [return] in [parseChildren]. *)
Definition elementary_types : bytes :=
  [Type_Void; Type_Bool; Type_Int8; Type_UInt8; Type_Int16; Type_UInt16;
   Type_Int32; Type_UInt32; Type_Int64; Type_UInt64; Type_Float; Type_Double;
   Type_String; Type_Dynamic; Type_Raw; Type_Object; Type_Unknown; Type_None].

(** How the [switch] statements of [findNext] and [parseChildren] group the
    type characters. *)
Inductive bracket := BList | BMap | BTuple.
Inductive type_case :=
  | CaseElementary
  | CasePrefix
  | CaseBracket (k : bracket)
  | CaseDefault.

#[export] Instance bracket_eq_dec : EqDecision bracket.
Proof. solve_decision. Defined.
#[export] Instance type_case_eq_dec : EqDecision type_case.
Proof. solve_decision. Defined.

Definition type_switch (c : ascii) : type_case :=
  if decide (c ∈ elementary_types) then CaseElementary
  else if decide (c = Type_List) then CaseBracket BList
  else if decide (c ∈ [Type_VarArgs; Type_KwArgs; Type_Optional]) then CasePrefix
  else if decide (c = Type_Map) then CaseBracket BMap
  else if decide (c = Type_Tuple) then CaseBracket BTuple
  else CaseDefault.

(** The brackets passed to [_find_end] and the [elementCount] passed to
    [eatChildren] for each bracketed type. *)
Definition bracket_open (k : bracket) : ascii :=
  match k with BList => Type_List | BMap => Type_Map | BTuple => Type_Tuple end.
Definition bracket_close (k : bracket) : ascii :=
  match k with BList => Type_List_End | BMap => Type_Map_End | BTuple => Type_Tuple_End end.
Definition bracket_count (k : bracket) : Z :=
  match k with BList => 1 | BMap => 2 | BTuple => -1 end.

(** ** The bracket scanners *)

(** The loop of [_find_end]: [rest] is the string from [index] on. *)
Fixpoint find_end_loop (copen close : ascii) (rest : bytes) (index : nat) (count : Z) : pos :=
  match rest with
  | [] => npos
  | c :: rest' =>
      let count := if decide (c = copen) then (count + 1)%Z else count in
      let count := if decide (c = close) then (count - 1)%Z else count in
      if decide (count = 0%Z) then Some index
      else find_end_loop copen close rest' (S index) count
  end.

Definition _find_end (str : bytes) (index : nat) (copen close : ascii) : pos :=
  match str !! index with
  | None => npos
  | Some c =>
      if decide (c <> copen) then npos
      else find_end_loop copen close (drop index str) index 0
  end.

(** The loop of [_find_begin], going down from [i]. *)
Fixpoint find_begin_loop (str : bytes) (start : nat) (copen close : ascii)
    (i : nat) (count : Z) : pos :=
  match i with
  | O => npos
  | S i' =>
      if decide (start < i) then
        let count :=
          if decide (str !! i = Some close) then (count + 1)%Z
          else if decide (str !! i = Some copen) then (count - 1)%Z else count in
        if decide (count = 0%Z) then Some i
        else find_begin_loop str start copen close i' count
      else npos
  end.

Definition _find_begin (str : bytes) (start : nat) (copen close : ascii) : pos :=
  if decide (length str = 0) then npos
  else
    let i := length str - 1 in
    if decide (str !! i <> Some close) then npos
    else find_begin_loop str start copen close i 0.

(** ** [findNext]: the end of the element that starts at an index *)

(** The annotation that may follow an element. *)
Definition skip_annotation (signature : bytes) (index : nat) : pos :=
  if decide (signature !! index = Some "<")
  then S <$> _find_end signature index "<" ">"
  else Some index.

(** [rest] is the string from [index] on, on which the recursive call of the
    prefix types is structural. *)
Fixpoint findNext_from (signature rest : bytes) (index : nat) : pos :=
  match rest with
  | [] => npos
  | c :: rest' =>
      match type_switch c with
      | CaseElementary => skip_annotation signature (S index)
      | CasePrefix =>
          findNext_from signature rest' (S index) ≫= skip_annotation signature
      | CaseBracket k =>
          _find_end signature index (bracket_open k) (bracket_close k) ≫=
            fun i => skip_annotation signature (S i)
      | CaseDefault => npos
      end
  end.

Definition findNext (signature : bytes) (index : pos) : pos :=
  match index with
  | None => npos
  | Some i => findNext_from signature (drop i signature) i
  end.

(** ** The parser *)

(** [SignaturePrivate]: the text and the child signatures. *)
Inductive Signature := Sig (_signature : bytes) (_children : list Signature).

Definition toString (s : Signature) : bytes := let 'Sig t _ := s in t.
Definition children (s : Signature) : list Signature := let 'Sig _ c := s in c.

(** The exceptions of the parser and of [signatureSplit]; [OutOfFuel] is not
    one of them, and never arises. *)
Inductive sig_error :=
  | InvalidIndex | InvalidElement | InvalidSignature
  | GoneTooFar | BadElement | InfiniteLoop
  | SignatureNotValid
  | OutOfFuel.

(** [_signature.assign(signature, begin, end - begin)] *)
Definition assign_range (signature : bytes) (begin end_ : pos) : bytes :=
  match begin, end_ with
  | Some b, Some e => slice b e signature
  | Some b, None => drop b signature
  | None, _ => []
  end.

(** [SignaturePrivate::init], [parseChildren] and the loop of [eatChildren],
    mutually recursive through the constructor of the child signatures. *)
Fixpoint sig_init (fuel : nat) (signature : bytes) (begin end_ : pos)
    {struct fuel} : result sig_error Signature :=
  match fuel with
  | O => Err OutOfFuel
  | S f =>
      if decide (findNext signature begin <> end_) then Err InvalidSignature
      else
        cs ← parseChildren f signature begin;
        mret (Sig (assign_range signature begin end_) cs)
  end
with parseChildren (fuel : nat) (signature : bytes) (index : pos)
    {struct fuel} : result sig_error (list Signature) :=
  match fuel with
  | O => Err OutOfFuel
  | S f =>
      match index ≫= fun i => (i,.) <$> signature !! i with
      | None => Err InvalidIndex
      | Some (i, c) =>
          match type_switch c with
          | CaseElementary => mret []
          | CasePrefix =>
              eatChildren_loop f signature (Some (S i)) (findNext signature index) 1 0 []
          | CaseBracket k =>
              let stop := _find_end signature i (bracket_open k) (bracket_close k) in
              (* empty tuple, move on *)
              if decide (bracket_count k = -1 /\ Some (S i) = stop)%Z then mret []
              else eatChildren_loop f signature (Some (S i)) stop (bracket_count k) 0 []
          | CaseDefault => Err InvalidElement
          end
      end
  end
with eatChildren_loop (fuel : nat) (signature : bytes) (idxStart expectedEnd : pos)
    (elementCount i : Z) (_children : list Signature)
    {struct fuel} : result sig_error (list Signature) :=
  match fuel with
  | O => Err OutOfFuel
  | S f =>
      let idxStop := findNext signature idxStart in
      child ← sig_init f signature idxStart idxStop;
      let _children := _children ++ [child] in
      let i := (i + 1)%Z in
      if pos_gt idxStop expectedEnd then Err GoneTooFar
      else if decide (elementCount = -1 /\ idxStop = expectedEnd)%Z then mret _children
      else if decide (elementCount <> -1 /\ elementCount = i)%Z then
        if decide (idxStop <> expectedEnd) then Err BadElement else mret _children
      else if decide (idxStart = idxStop) then Err InfiniteLoop
      else eatChildren_loop f signature idxStop expectedEnd elementCount i _children
  end.

(** [Signature::Signature(const std::string&)] *)
Definition Signature_new (signature : bytes) : result sig_error Signature :=
  sig_init (3 * length signature + 3) signature (Some 0) (Some (length signature)).

(** [Signature::Signature()]: no text, no child. *)
Definition Signature_empty : Signature := Sig [] [].

(** ** Observers *)

Definition type (s : Signature) : ascii :=
  match toString s with [] => Type_None | c :: _ => c end.
Definition isValid (s : Signature) : bool := bool_decide (type s <> Type_None).
Definition hasChildren (s : Signature) : bool := bool_decide (length (children s) <> 0).

Definition annotation (s : Signature) : bytes :=
  match last (toString s) with
  | None => []
  | Some c =>
      if decide (c <> ">") then []
      else match _find_begin (toString s) 0 "<" ">" with
           | Some begin => take (length (toString s) - begin - 2) (drop (S begin) (toString s))
           | None => []
           end
  end.

(** [operator==], which ignores the annotations. The source compares the
    children with the two sides exchanged; [sig_eq_unfold] has the equation
    in that form. *)
Fixpoint sig_eq (lhs rhs : Signature) {struct lhs} : bool :=
  let 'Sig _ lc := lhs in
  bool_decide (type lhs = type rhs) &&
  bool_decide (length lc = length (children rhs)) &&
  (fix loop (ls rs : list Signature) {struct ls} : bool :=
     match ls, rs with
     | _, [] => true
     | [], _ :: _ => false
     | l :: ls', r :: rs' =>
         bool_decide (type r = type l) && sig_eq l r && loop ls' rs'
     end) lc (children rhs).

(** ** Constructors of composite signatures *)

Definition makeListSignature (element : Signature) :=
  Signature_new (Type_List :: toString element ++ [Type_List_End]).
Definition makeVarArgsSignature (element : Signature) :=
  Signature_new (Type_VarArgs :: toString element).
Definition makeKwArgsSignature (element : Signature) :=
  Signature_new (Type_KwArgs :: toString element).
(** [makeTupleSignature(const Signature&)] *)
Definition makeTupleSignature1 (element : Signature) :=
  Signature_new (Type_Tuple :: toString element ++ [Type_Tuple_End]).
Definition makeMapSignature (key value : Signature) :=
  Signature_new (Type_Map :: toString key ++ toString value ++ [Type_Map_End]).
Definition makeOptionalSignature (value : Signature) :=
  Signature_new (Type_Optional :: toString value).

Definition makeTupleAnnotation (name : bytes) (annotations : list bytes) : bytes :=
  if decide (name = [] /\ annotations = []) then []
  else "<" :: name ++ concat (map (fun a => "," :: a) annotations) ++ [">"].

(** [makeTupleSignature(const std::vector<TypeInterface*>&, name, names)],
    from the signatures of the member types; the overload on references
    differs only in where it takes them from. *)
Definition makeTupleSignature (vt : list Signature) (name : bytes) (names : list bytes) :=
  Signature_new
    (Type_Tuple :: concat (map toString vt) ++ [Type_Tuple_End] ++
     (if decide (length names = length vt) then makeTupleAnnotation name names else [])).

Definition fromType (t : ascii) := Signature_new [t].

(** ** [signatureSplit] *)

(** "name::(parameters)" or "name::return(parameters)" into the return
    signature, the name and the parameters. *)
Definition signatureSplit (fullSignature : bytes) : result sig_error (bytes * bytes * bytes) :=
  match find_sub (lit "::") fullSignature with
  | None => mret ([], fullSignature, [])
  | Some idx1 =>
      if decide (find_char "(" fullSignature = npos \/ find_char ")" fullSignature = npos)
      then Err SignatureNotValid
      else
        let funcName := take idx1 fullSignature in
        let tail := drop (idx1 + 2) fullSignature in
        parent ← Signature_new ("(" :: tail ++ [")"]);
        if decide (tail = [] \/ isValid parent = false) then Err SignatureNotValid
        else match children parent with
             | [r; p] => mret (toString r, funcName, toString p)
             | [p] => mret ([], funcName, toString p)
             | _ => mret ([], funcName, [])
             end
  end.
