(* ===== verification/SignatureGrammar.v ===== *)
(** * SignatureGrammar: the language [Signature_new] accepts

    An abstract syntax of signatures with its printer, the proof that the
    parser of [Signature.v] accepts exactly the printed well-formed terms and
    returns their tree, and that it always terminates. *)
From S2P Require Import Prelude CString Signature.
#[local] Open Scope char_scope.
#[local] Open Scope list_scope.

(** ** Abstract syntax and printer *)

Inductive elt :=
  | Elem (c : ascii) (a : option bytes)
  | Bracket (k : bracket) (ts : list elt) (a : option bytes)
  | Prefixed (c : ascii) (t : elt).

Definition print_ann (a : option bytes) : bytes :=
  match a with None => [] | Some x => "<" :: x ++ [">"] end.

Fixpoint print (t : elt) : bytes :=
  match t with
  | Elem c a => c :: print_ann a
  | Bracket k ts a =>
      bracket_open k :: concat (map print ts) ++ bracket_close k :: print_ann a
  | Prefixed c t => c :: print t
  end.

(** The tree that the parser builds for a term. *)
Fixpoint sig_of (t : elt) : Signature :=
  Sig (print t)
    match t with
    | Elem _ _ => []
    | Bracket _ ts _ => map sig_of ts
    | Prefixed _ t => [sig_of t]
    end.

(** One character of a scanner that counts [o] and [c]. *)
Definition depth_step (o c ch : ascii) (d : Z) : Z :=
  let d := if decide (ch = o) then (d + 1)%Z else d in
  if decide (ch = c) then (d - 1)%Z else d.

(** [x] can stand between an [o] and its matching [c], the scanner being at
    depth [d] before [x]. *)
Fixpoint enclosed (o c : ascii) (x : bytes) (d : Z) : bool :=
  match x with
  | [] => bool_decide (d = 1%Z)
  | ch :: x' =>
      let d' := depth_step o c ch d in
      bool_decide (d' <> 0%Z) && enclosed o c x' d'
  end.

Definition ann_ok (a : option bytes) : bool :=
  match a with None => true | Some x => enclosed "<" ">" x 1 end.

Definition arity_ok (k : bracket) (n : nat) : bool :=
  bool_decide (bracket_count k = -1 \/ bracket_count k = Z.of_nat n)%Z.

Fixpoint wf (t : elt) : bool :=
  match t with
  | Elem c a => bool_decide (type_switch c = CaseElementary) && ann_ok a
  | Bracket k ts a =>
      forallb wf ts && arity_ok k (length ts) &&
      enclosed (bracket_open k) (bracket_close k) (concat (map print ts)) 1 && ann_ok a
  | Prefixed c t => bool_decide (type_switch c = CasePrefix) && wf t
  end.

(** Induction on terms, with the hypothesis for every member of a bracket. *)
Section elt_ind.
Variable P : elt -> Prop.
Hypothesis HElem : forall c a, P (Elem c a).
Hypothesis HBracket : forall k ts a, Forall P ts -> P (Bracket k ts a).
Hypothesis HPrefixed : forall c t, P t -> P (Prefixed c t).

Fixpoint elt_nested_ind (t : elt) : P t :=
  match t with
  | Elem c a => HElem c a
  | Bracket k ts a =>
      HBracket k ts a
        ((fix go ts : Forall P ts :=
            match ts with
            | [] => Forall_nil_2 P
            | t :: ts' => Forall_cons_2 P t ts' (elt_nested_ind t) (go ts')
            end) ts)
  | Prefixed c t => HPrefixed c t (elt_nested_ind t)
  end.
End elt_ind.

(** ** The scanners *)

Section scanner.
Context (o c : ascii) (Hoc : o <> c).

Lemma find_end_loop_cons ch rest i d :
  find_end_loop o c (ch :: rest) i d =
  if decide (depth_step o c ch d = 0%Z) then Some i
  else find_end_loop o c rest (S i) (depth_step o c ch d).
Proof using Type. done. Qed.

Lemma depth_step_close d : depth_step o c c d = (d - 1)%Z.
Proof using Hoc. unfold depth_step. repeat case_decide; congruence. Qed.

Lemma depth_step_open d : depth_step o c o d = (d + 1)%Z.
Proof using Hoc. unfold depth_step. repeat case_decide; congruence. Qed.

Lemma find_end_loop_enclosed x post i d :
  enclosed o c x d -> find_end_loop o c (x ++ c :: post) i d = Some (i + length x).
Proof using Hoc.
  revert i d. induction x as [|ch x IH]; intros i d; cbn [app enclosed length].
  - intros ->%bool_decide_unpack. rewrite find_end_loop_cons, depth_step_close.
    cbn. f_equal. lia.
  - intros [Hd%bool_decide_unpack Hx]%andb_prop_elim.
    rewrite find_end_loop_cons, decide_False by done.
    rewrite IH by done. f_equal. lia.
Qed.

Lemma find_end_loop_inv rest i d j :
  (0 < d)%Z -> find_end_loop o c rest i d = Some j ->
  exists x post, rest = x ++ c :: post /\ j = i + length x /\ enclosed o c x d.
Proof using Hoc.
  revert i d. induction rest as [|ch rest IH]; intros i d Hd; [done|].
  rewrite find_end_loop_cons. case_decide as H0; intros H.
  - injection H as <-.
    assert (ch = c /\ d = 1%Z) as [-> ->].
    { unfold depth_step in H0. repeat case_decide; subst; split; try done; lia. }
    exists [], rest. cbn. repeat split; lia.
  - assert (0 < depth_step o c ch d)%Z as Hd'.
    { unfold depth_step in *. repeat case_decide; lia. }
    destruct (IH _ _ Hd' H) as (x & post & -> & -> & Hx).
    exists (ch :: x), post. cbn. repeat split; [lia|].
    apply andb_prop_intro. split; [by apply bool_decide_pack | done].
Qed.

Lemma find_end_enclosed s i x post :
  drop i s = o :: x ++ c :: post -> enclosed o c x 1 ->
  _find_end s i o c = Some (S i + length x).
Proof using Hoc.
  intros Hs Hx. destruct (drop_cons_lookup _ _ _ _ Hs) as [Hi _].
  unfold _find_end. rewrite Hi, decide_False by tauto.
  rewrite Hs, find_end_loop_cons, depth_step_open. cbn [decide].
  by apply find_end_loop_enclosed.
Qed.

Lemma find_end_inv s i j :
  _find_end s i o c = Some j ->
  exists x, drop i s = o :: x ++ c :: drop (S j) s /\ j = S i + length x /\ enclosed o c x 1.
Proof using Hoc.
  unfold _find_end. destruct (s !! i) as [ch|] eqn:Hi; [|done].
  case_decide as Ho; [done|]. subst ch.
  pose proof (drop_lookup_cons _ _ _ Hi) as Hs. rewrite Hs, find_end_loop_cons, depth_step_open.
  cbn [decide]. intros H. apply find_end_loop_inv in H as (x & post & Hr & -> & Hx); [|lia].
  exists x. repeat split; [|done]. rewrite Hr. do 3 f_equal.
  replace (S (S i + length x)) with (S i + (length x + 1)) by lia.
  rewrite <- drop_drop, Hr, drop_app. rewrite drop_ge by lia.
  by replace (length x + 1 - length x) with 1 by lia.
Qed.
End scanner.

Lemma bracket_neq k : bracket_open k <> bracket_close k.
Proof. by destruct k. Qed.

(** ** [skip_annotation] and [findNext] *)

Lemma skip_annotation_print s i a post :
  drop i s = print_ann a ++ post -> ann_ok a -> head post <> Some "<" ->
  skip_annotation s i = Some (i + length (print_ann a)).
Proof.
  unfold skip_annotation. destruct a as [x|]; cbn [print_ann app]; intros Hs Ha Hp.
  - destruct (drop_cons_lookup _ _ _ _ Hs) as [Hi _]. rewrite decide_True by done.
    rewrite <- app_assoc in Hs. cbn [app] in Hs.
    rewrite (find_end_enclosed "<" ">" ltac:(done) s i x post Hs Ha).
    cbn. rewrite length_app. cbn. f_equal. lia.
  - rewrite decide_False; [cbn; f_equal; lia|].
    rewrite <- lookup_drop_head, Hs. destruct post; cbn in *; congruence.
Qed.

Lemma skip_annotation_inv s i e :
  skip_annotation s i = Some e ->
  exists a, ann_ok a /\ drop i s = print_ann a ++ drop e s /\ e = i + length (print_ann a).
Proof.
  unfold skip_annotation. case_decide as Hi.
  - intros (j & Hj & ->)%fmap_Some. apply find_end_inv in Hj as (x & Hs & Hj & Hx); [|done].
    exists (Some x). cbn. rewrite Hs. cbn. rewrite <- app_assoc, length_app. cbn.
    repeat split; [done|lia].
  - intros [= ->]. exists None. cbn. repeat split; lia.
Qed.

Lemma findNext_cons s i c rest :
  drop i s = c :: rest ->
  findNext s (Some i) =
  match type_switch c with
  | CaseElementary => skip_annotation s (S i)
  | CasePrefix => findNext s (Some (S i)) ≫= skip_annotation s
  | CaseBracket k =>
      _find_end s i (bracket_open k) (bracket_close k) ≫= fun j => skip_annotation s (S j)
  | CaseDefault => npos
  end.
Proof.
  intros Hs. cbn [findNext]. rewrite Hs. cbn.
  by destruct (drop_cons_lookup _ _ _ _ Hs) as [_ ->].
Qed.

Lemma findNext_nil s i : drop i s = [] -> findNext s (Some i) = npos.
Proof. cbn. by intros ->. Qed.

Lemma drop_app_exact {A} (x y s : list A) i :
  drop i s = x ++ y -> drop (i + length x) s = y.
Proof. intros H. by rewrite <- drop_drop, H, drop_app_length. Qed.

Lemma drop_app_S {A} (o : A) (x y s : list A) i :
  drop i s = o :: x ++ y -> drop (S i + length x) s = y.
Proof. intros [_ H]%drop_cons_lookup. by apply drop_app_exact. Qed.

Lemma type_switch_open k : type_switch (bracket_open k) = CaseBracket k.
Proof. by destruct k. Qed.

Lemma type_switch_bracket c k : type_switch c = CaseBracket k -> c = bracket_open k.
Proof. unfold type_switch. repeat case_decide; intros [= <-]; done. Qed.

Lemma findNext_print t s i post :
  wf t -> drop i s = print t ++ post -> head post <> Some "<" ->
  findNext s (Some i) = Some (i + length (print t)).
Proof.
  revert i. induction t as [c a|k ts a _|c t IH] using elt_nested_ind; intros i Hwf Hs Hp.
  - apply andb_prop_elim in Hwf as [Hc%bool_decide_unpack Ha].
    rewrite (findNext_cons _ _ _ _ Hs), Hc.
    apply drop_cons_lookup in Hs as [_ Hs].
    rewrite (skip_annotation_print _ _ _ _ Hs) by done. cbn. f_equal. lia.
  - cbn [wf] in Hwf. apply andb_prop_elim in Hwf as [[[_ _]%andb_prop_elim He]%andb_prop_elim Ha].
    cbn [print] in Hs. cbn [app] in Hs. rewrite <- app_assoc in Hs. cbn [app] in Hs.
    rewrite (findNext_cons _ _ _ _ Hs), type_switch_open.
    rewrite (find_end_enclosed _ _ (bracket_neq k) _ _ _ _ Hs He). cbn [mbind option_bind].
    apply drop_app_S in Hs. apply drop_cons_lookup in Hs as [_ Hs].
    rewrite (skip_annotation_print _ _ _ _ Hs) by done.
    cbn [print length]. rewrite length_app. cbn [length]. f_equal. lia.
  - cbn [wf] in Hwf. apply andb_prop_elim in Hwf as [Hc%bool_decide_unpack Ht].
    rewrite (findNext_cons _ _ _ _ Hs), Hc.
    apply drop_cons_lookup in Hs as [_ Hs].
    rewrite (IH _ Ht Hs Hp). cbn [mbind option_bind].
    rewrite (skip_annotation_print _ _ None post); [cbn; f_equal; lia| |done|done].
    by apply drop_app_exact in Hs.
Qed.

Lemma findNext_bounds s i e :
  findNext s (Some i) = Some e -> i < e <= length s.
Proof.
  remember (length s - i) as n eqn:Hn. revert i e Hn.
  induction n as [n IH] using lt_wf_ind; intros i e -> H.
  destruct (drop i s) as [|c rest] eqn:Hs; [by rewrite findNext_nil in H|].
  assert (i < length s) as Hi.
  { apply drop_cons_lookup in Hs as [Hs _]. by apply lookup_lt_Some in Hs. }
  assert (forall j e, skip_annotation s j = Some e -> j <= length s -> j <= e <= length s) as Hsk.
  { intros j e' (a & _ & Hd & ->)%skip_annotation_inv Hj. apply (f_equal length) in Hd.
    rewrite length_drop, length_app, length_drop in Hd. lia. }
  rewrite (findNext_cons _ _ _ _ Hs) in H. destruct (type_switch c) as [| |k|]; [| | |done].
  - apply Hsk in H; lia.
  - apply bind_Some in H as (j & Hj & H). apply (IH (length s - S i)) in Hj; [|lia|done]. apply Hsk in H; lia.
  - apply bind_Some in H as (j & Hj & H).
    apply find_end_inv in Hj as (x & Hd & -> & _); [|apply bracket_neq].
    apply (f_equal length) in Hd. rewrite length_drop in Hd. cbn in Hd.
    rewrite length_app in Hd. cbn in Hd. apply Hsk in H; lia.
Qed.

(** ** The parser accepts the printed terms *)

Lemma sig_init_S f s b e :
  sig_init (S f) s b e =
  if decide (findNext s b <> e) then Err InvalidSignature
  else cs ← parseChildren f s b; mret (Sig (assign_range s b e) cs).
Proof. done. Qed.

Lemma parseChildren_S f s i c rest :
  drop i s = c :: rest ->
  parseChildren (S f) s (Some i) =
  match type_switch c with
  | CaseElementary => mret []
  | CasePrefix => eatChildren_loop f s (Some (S i)) (findNext s (Some i)) 1 0 []
  | CaseBracket k =>
      let stop := _find_end s i (bracket_open k) (bracket_close k) in
      if decide (bracket_count k = -1 /\ Some (S i) = stop)%Z then mret []
      else eatChildren_loop f s (Some (S i)) stop (bracket_count k) 0 []
  | CaseDefault => Err InvalidElement
  end.
Proof. intros [Hi _]%drop_cons_lookup. cbn. by rewrite Hi. Qed.

Lemma eatChildren_loop_S f s b m n i acc :
  eatChildren_loop (S f) s b m n i acc =
  (child ← sig_init f s b (findNext s b);
   let acc' := acc ++ [child] in
   let i' := (i + 1)%Z in
   if pos_gt (findNext s b) m then Err GoneTooFar
   else if decide (n = -1 /\ findNext s b = m)%Z then mret acc'
   else if decide (n <> -1 /\ n = i')%Z then
     if decide (findNext s b <> m) then Err BadElement else mret acc'
   else if decide (b = findNext s b) then Err InfiniteLoop
   else eatChildren_loop f s (findNext s b) m n i' acc').
Proof. done. Qed.

Lemma print_cons t : exists c rest, print t = c :: rest.
Proof. destruct t; cbn; eauto. Qed.

Lemma print_length t : 1 <= length (print t).
Proof. destruct (print_cons t) as (c & rest & ->). cbn. lia. Qed.

Lemma wf_head t c rest : wf t -> print t = c :: rest -> type_switch c <> CaseDefault.
Proof.
  destruct t; cbn; intros Hwf [= <- _].
  - apply andb_prop_elim in Hwf as [->%bool_decide_unpack _]. done.
  - by rewrite type_switch_open.
  - apply andb_prop_elim in Hwf as [->%bool_decide_unpack _]. done.
Qed.

(** What follows a member of a bracket is never an annotation. *)
Lemma members_no_annotation ts post :
  forallb wf ts -> head post <> Some "<" -> head (concat (map print ts) ++ post) <> Some "<".
Proof.
  destruct ts as [|t ts]; cbn; [done|].
  intros [Ht _]%andb_prop_elim _. destruct (print_cons t) as (c & rest & Hc).
  pose proof (wf_head _ _ _ Ht Hc). rewrite Hc. cbn. intros [= ->]. done.
Qed.

(** The parser builds the tree of [t] from an occurrence of [print t]. *)
Definition parses (t : elt) : Prop :=
  forall f s i post,
    wf t -> drop i s = print t ++ post -> head post <> Some "<" ->
    3 * length (print t) <= f ->
    sig_init f s (Some i) (Some (i + length (print t))) = Ok (sig_of t).

Lemma slice_print (s x post : bytes) i :
  drop i s = x ++ post -> slice i (i + length x) s = x.
Proof.
  intros H. unfold slice. rewrite H. replace (i + length x - i) with (length x) by lia.
  by rewrite take_app_length.
Qed.

Lemma eatChildren_members ts :
  Forall parses ts -> ts <> [] -> forallb wf ts ->
  forall f s i post n n0 acc,
    drop i s = concat (map print ts) ++ post -> head post <> Some "<" ->
    3 * length (concat (map print ts)) + 1 <= f ->
    (n = -1 \/ n = n0 + Z.of_nat (length ts))%Z ->
    eatChildren_loop f s (Some i) (Some (i + length (concat (map print ts)))) n n0 acc
    = Ok (acc ++ map sig_of ts).
Proof.
  induction 1 as [|t ts Ht _ IH]; [done|]. intros _ Hwf f s i post n n0 acc Hs Hp Hf Hn.
  cbn in Hwf. apply andb_prop_elim in Hwf as [Hwt Hwts].
  cbn [map concat] in *. rewrite <- app_assoc in Hs. rewrite length_app in *.
  pose proof (members_no_annotation ts post Hwts Hp) as Hh.
  pose proof (findNext_print _ _ _ _ Hwt Hs Hh) as Hnext.
  pose proof (print_length t) as Hlen.
  destruct f as [|f]; [lia|]. rewrite eatChildren_loop_S, Hnext.
  rewrite (Ht f s i _ Hwt Hs Hh) by lia. cbn [mbind result_bind pos_gt].
  rewrite bool_decide_eq_false_2 by lia.
  destruct ts as [|t' ts].
  - cbn [map concat length] in *. rewrite Nat.add_0_r.
    case_decide as H1; [done|].
    assert (n <> -1)%Z by (intros ->; by apply H1).
    rewrite decide_True by lia.
    by rewrite decide_False by tauto.
  - assert (1 <= length (concat (map print (t' :: ts)))) as Hl'.
    { cbn. rewrite length_app. pose proof (print_length t'). lia. }
    rewrite decide_False by (intros [_ Heq%Some_inj]; lia).
    rewrite decide_False by (cbn [length] in Hn; lia).
    rewrite decide_False by (intros Heq%Some_inj; lia).
    apply drop_app_exact in Hs.
    pose proof (IH ltac:(done) Hwts f s (i + length (print t)) post n (n0 + 1)%Z
      (acc ++ [sig_of t]) Hs Hp ltac:(lia) ltac:(cbn [length] in *; lia)) as IH'.
    rewrite <- Nat.add_assoc in IH'. rewrite IH'. cbn [map]. by rewrite <- app_assoc.
Qed.

Lemma sig_init_result f s i t post cs :
  drop i s = print t ++ post -> wf t -> head post <> Some "<" ->
  parseChildren f s (Some i) = Ok cs ->
  sig_init (S f) s (Some i) (Some (i + length (print t))) = Ok (Sig (print t) cs).
Proof.
  intros Hs Hwf Hp Hc. rewrite sig_init_S, (findNext_print _ _ _ _ Hwf Hs Hp).
  rewrite decide_False by tauto. rewrite Hc. cbn. do 2 f_equal.
  by apply slice_print in Hs.
Qed.

Lemma sig_init_print t : parses t.
Proof.
  induction t as [c a|k ts a IH|c t IH] using elt_nested_ind;
    intros f s i post Hwf Hs Hp Hf; pose proof (print_length) as Hlen;
    destruct f as [|[|f]]; try (cbn in Hf; lia);
    eapply sig_init_result; try eassumption; cbn [wf] in Hwf.
  - rewrite (parseChildren_S _ _ _ _ _ Hs).
    by apply andb_prop_elim in Hwf as [->%bool_decide_unpack _].
  - apply andb_prop_elim in Hwf as [[[Hts Hk%bool_decide_unpack]%andb_prop_elim He]%andb_prop_elim _].
    cbn [print app] in Hs. rewrite <- app_assoc in Hs. cbn [app] in Hs.
    rewrite (parseChildren_S _ _ _ _ _ Hs), type_switch_open.
    rewrite (find_end_enclosed _ _ (bracket_neq k) _ _ _ _ Hs He). cbv zeta.
    destruct (drop_cons_lookup _ _ _ _ Hs) as [_ Hs'].
    cbn [print length] in Hf. rewrite length_app in Hf. cbn [length] in Hf.
    destruct ts as [|t ts].
    + cbn. rewrite Nat.add_0_r. rewrite decide_True; [done|]. split; [|done].
      destruct Hk as [Hk|Hk]; [done|]. by destruct k.
    + assert (1 <= length (concat (map print (t :: ts)))) as Hl'.
      { cbn. rewrite length_app. specialize (Hlen t). lia. }
      rewrite decide_False by (intros [_ Heq%Some_inj]; lia).
      rewrite (eatChildren_members (t :: ts) IH ltac:(done) Hts f s (S i) _ _ 0%Z [] Hs');
        [done|by destruct k|lia|lia].
  - apply andb_prop_elim in Hwf as [Hc%bool_decide_unpack Ht].
    assert (wf (Prefixed c t)) as Hwf by (cbn; rewrite Hc; by apply andb_prop_intro).
    pose proof (findNext_print _ _ _ _ Hwf Hs Hp) as Hnext.
    cbn [print app length] in *. rewrite (parseChildren_S _ _ _ _ _ Hs), Hc, Hnext.
    destruct (drop_cons_lookup _ _ _ _ Hs) as [_ Hs'].
    pose proof (eatChildren_members [t] ltac:(by constructor) ltac:(done)
      ltac:(cbn; by rewrite andb_true_r) f s (S i) post 1%Z 0%Z []) as IH'.
    cbn [map concat] in IH'. rewrite app_nil_r, Nat.add_succ_comm in IH'.
    rewrite IH'; [done|done|done|lia|right; done].
Qed.

(** ** The parser accepts nothing else *)

(** What a successful [init] between two real positions returned. *)
Definition parsed (s : bytes) (b e : nat) (sg : Signature) : Prop :=
  exists t, wf t /\ drop b s = print t ++ drop e s /\ e = b + length (print t) /\ sg = sig_of t.

(** What a successful loop of [eatChildren] returned. *)
Definition parsed_members (s : bytes) (b m : nat) (n n0 : Z) (acc cs : list Signature) : Prop :=
  exists ts, forallb wf ts /\ drop b s = concat (map print ts) ++ drop m s /\
    m = b + length (concat (map print ts)) /\ cs = acc ++ map sig_of ts /\
    (n = -1 \/ n = n0 + Z.of_nat (length ts))%Z.

Lemma eatChildren_inv f s b m n n0 acc cs :
  (forall b e sg, sig_init f s (Some b) (Some e) = Ok sg -> parsed s b e sg) ->
  (forall b n0 acc cs, eatChildren_loop f s (Some b) (Some m) n n0 acc = Ok cs ->
     parsed_members s b m n n0 acc cs) ->
  eatChildren_loop (S f) s (Some b) (Some m) n n0 acc = Ok cs ->
  parsed_members s b m n n0 acc cs.
Proof.
  intros IHi IHl. rewrite eatChildren_loop_S. intros (sg & Hsg & H)%result_bind_ok.
  destruct (findNext s (Some b)) as [e|] eqn:Hnext; [|done]. cbn [pos_gt] in H.
  apply IHi in Hsg as (t & Hwf & Hs & He & ->). case_bool_decide as Hme; [done|].
  assert (parsed_members s b e n n0 acc (acc ++ [sig_of t]) \/ (n <> -1 /\ n <> n0 + 1)%Z) as Hone.
  { destruct (decide (n = -1 \/ n = n0 + 1)%Z) as [Hn|Hn]; [left|right; lia].
    exists [t]. cbn. rewrite andb_true_r, app_nil_r. repeat split; [done..|lia]. }
  case_decide as H1.
  { destruct H1 as [Hn [= ->]]. injection H as <-. destruct Hone; [done|lia]. }
  case_decide as H2.
  { case_decide as H3; [done|]. injection H3 as ->. injection H as <-.
    destruct Hone; [done|lia]. }
  case_decide; [done|]. apply IHl in H as (ts & Hts & Hs' & -> & -> & Hn).
  exists (t :: ts). cbn. rewrite length_app, Hs, Hs', <- !app_assoc.
  repeat split; [by apply andb_prop_intro|lia..].
Qed.

(** The three ways in which [init] can succeed on a [c :: rest] at [b]. *)
Section init_inv.
Context (f : nat) (s : bytes) (b e : nat) (c : ascii) (rest : bytes) (cs : list Signature).
Hypothesis Hs : drop b s = c :: rest.
Hypothesis IHl : forall b m n n0 acc cs,
  eatChildren_loop f s (Some b) (Some m) n n0 acc = Ok cs ->
  parsed_members s b m n n0 acc cs.

Let Hrest : drop (S b) s = rest := proj2 (drop_cons_lookup _ _ _ _ Hs).

Lemma init_inv_elementary :
  type_switch c = CaseElementary -> skip_annotation s (S b) = Some e ->
  exists t, wf t /\ drop b s = print t ++ drop e s /\ e = b + length (print t) /\
            children (sig_of t) = [].
Proof using Hs.
  intros Hc (a & Ha & Hd & He)%skip_annotation_inv. exists (Elem c a).
  cbn. rewrite Hs, <- Hrest, Hd. repeat split; [|lia].
  apply andb_prop_intro. split; [by apply bool_decide_pack|done].
Qed.

Lemma init_inv_prefix :
  type_switch c = CasePrefix ->
  eatChildren_loop f s (Some (S b)) (Some e) 1 0 [] = Ok cs ->
  exists t, wf t /\ drop b s = print t ++ drop e s /\ e = b + length (print t) /\
            children (sig_of t) = cs.
Proof using Hs IHl.
  intros Hc (ts & Hts & Hd & He & -> & Hn)%IHl.
  destruct ts as [|t [|??]]; cbn [length] in Hn; try lia.
  cbn in *. rewrite app_nil_r in *. rewrite andb_true_r in Hts.
  exists (Prefixed c t). cbn. rewrite Hs, <- Hrest, Hd. repeat split; [|lia].
  apply andb_prop_intro. split; [by apply bool_decide_pack|done].
Qed.

Lemma init_inv_bracket k j :
  type_switch c = CaseBracket k ->
  _find_end s b (bracket_open k) (bracket_close k) = Some j ->
  skip_annotation s (S j) = Some e ->
  (bracket_count k = (-1)%Z /\ S b = j /\ cs = [] \/
   eatChildren_loop f s (Some (S b)) (Some j) (bracket_count k) 0 [] = Ok cs) ->
  exists t, wf t /\ drop b s = print t ++ drop e s /\ e = b + length (print t) /\
            children (sig_of t) = cs.
Proof using Hs IHl.
  intros Hc Hj (a & Ha & Hd & He)%skip_annotation_inv Hcs.
  apply find_end_inv in Hj as (x & Hx & Hj & Hxe); [|apply bracket_neq].
  apply type_switch_bracket in Hc as ->.
  assert (exists ts, forallb wf ts /\ cs = map sig_of ts /\ arity_ok k (length ts) /\
            x = concat (map print ts)) as (ts & Hts & -> & Hk & ->).
  { destruct Hcs as [(Hk & <- & ->)|(ts & Hts & Hm & Hm' & -> & Hk)%IHl].
    - exists []. cbn. repeat split; [apply bool_decide_pack; by left|].
      by apply nil_length_inv; lia.
    - exists ts. repeat split; [done|apply bool_decide_pack; lia|].
      apply drop_cons_lookup in Hx as [_ Hx]. rewrite Hm in Hx.
      apply app_inj_1 in Hx as [Hx _]; [done|lia]. }
  exists (Bracket k ts a). cbn [print wf sig_of children length]. rewrite length_app.
  rewrite Hx, Hd. cbn [app length]. rewrite <- app_assoc. repeat split; [|lia].
  repeat (apply andb_prop_intro; split); done.
Qed.
End init_inv.

Lemma parse_inv f s :
  (forall b e sg, sig_init f s (Some b) (Some e) = Ok sg -> parsed s b e sg) /\
  (forall b m n n0 acc cs, eatChildren_loop f s (Some b) (Some m) n n0 acc = Ok cs ->
     parsed_members s b m n n0 acc cs).
Proof.
  induction f as [f IH] using lt_wf_ind.
  destruct f as [|f]; [done|]. split; last first.
  { destruct (IH f ltac:(lia)) as [IHi IHl]. intros b m n n0 acc cs.
    apply eatChildren_inv; eauto. }
  intros b e sg. rewrite sig_init_S. case_decide as Hnext; [done|].
  intros (cs & Hcs & [= <-])%result_bind_ok.
  destruct f as [|f]; [done|]. destruct (IH f ltac:(lia)) as [_ IHl]. clear IH.
  assert (exists t, wf t /\ drop b s = print t ++ drop e s /\ e = b + length (print t) /\
            children (sig_of t) = cs) as (t & Hwf & Hd & He & <-).
  { destruct (drop b s) as [|c rest] eqn:Hs; [by rewrite findNext_nil in Hnext|].
    rewrite <- Hs. rewrite (parseChildren_S _ _ _ _ _ Hs), Hnext in Hcs.
    rewrite (findNext_cons _ _ _ _ Hs) in Hnext.
    destruct (type_switch c) as [| |k|] eqn:Hc; [..|done].
    - injection Hcs as <-. by eapply init_inv_elementary.
    - by eapply init_inv_prefix.
    - apply bind_Some in Hnext as (j & Hj & Hnext). rewrite Hj in Hcs. cbv zeta in Hcs.
      eapply init_inv_bracket; [done..|]. case_decide as Hk.
      + injection Hcs as <-. left. destruct Hk as [? [= ?]]. done.
      + by right. }
  exists t. repeat split; try done. cbn. rewrite He at 1. rewrite (slice_print _ _ _ _ Hd).
  by destruct t.
Qed.

(** ** Termination: the fuel of [Signature_new] is never exhausted *)

(** What is left of the string from a position on. *)
Definition remaining (s : bytes) (p : pos) : nat :=
  match p with None => 0 | Some i => length s - i end.

Lemma parseChildren_past_end f s p :
  remaining s p = 0 -> parseChildren (S f) s p = Err InvalidIndex.
Proof.
  destruct p as [i|]; cbn; [|done]. intros H. by rewrite lookup_ge_None_2 by lia.
Qed.

Lemma fuel_enough f s :
  (forall b e, 3 * remaining s b + 2 <= f -> sig_init f s b e <> Err OutOfFuel) /\
  (forall b, 3 * remaining s b + 1 <= f -> parseChildren f s b <> Err OutOfFuel) /\
  (forall b m n n0 acc, 3 * remaining s b + 3 <= f ->
     eatChildren_loop f s b m n n0 acc <> Err OutOfFuel).
Proof.
  induction f as [|f (IHi & IHp & IHl)]; [repeat split; intros; lia|].
  repeat split.
  - intros b e Hf. rewrite sig_init_S. case_decide; [done|].
    specialize (IHp b ltac:(lia)). by destruct (parseChildren f s b); cbn; [|intros [= ->]].
  - intros b Hf. destruct (decide (remaining s b = 0)) as [H0|H0].
    { by rewrite parseChildren_past_end. }
    destruct b as [i|]; [|done]. cbn [remaining] in *.
    destruct (drop i s) as [|c rest] eqn:Hs.
    { apply (f_equal length) in Hs. rewrite length_drop in Hs. cbn in Hs. lia. }
    rewrite (parseChildren_S _ _ _ _ _ Hs).
    destruct (type_switch c); [done| | |done]; cbv zeta; try case_decide; try done;
      apply IHl; cbn; lia.
  - intros b m n n0 acc Hf. rewrite eatChildren_loop_S.
    specialize (IHi b (findNext s b) ltac:(lia)).
    destruct (sig_init f s b (findNext s b)) as [sg|err] eqn:Hsg; cbn; [|congruence].
    repeat case_match; try done. apply IHl.
    destruct (decide (remaining s b = 0)) as [Hr|Hr].
    { destruct f as [|[|f]]; [lia..|]. rewrite sig_init_S, parseChildren_past_end in Hsg by done.
      rewrite decide_False in Hsg by tauto. done. }
    destruct b as [i|]; [|done]. destruct (findNext s (Some i)) as [e|] eqn:Hnext; cbn in *; [|lia].
    apply findNext_bounds in Hnext. lia.
Qed.
