(* ===== verification/SignatureProperties.v ===== *)
(** * SignatureProperties: the correctness theorems of [Signature.v] *)
From S2P Require Import Prelude CString Signature SignatureGrammar.
#[local] Open Scope char_scope.
#[local] Open Scope list_scope.

(** ** Definitions *)

(** The rule that [qi/signature.hpp] documents for annotations: they balance
    all of [()], [{}], [[]] and [<>]. *)
Definition balanced_annotation (x : bytes) : bool :=
  enclosed "<" ">" x 1 && enclosed "(" ")" x 1 &&
  enclosed "[" "]" x 1 && enclosed "{" "}" x 1.

Definition doc_annotation (a : option bytes) : bool :=
  match a with None => true | Some x => balanced_annotation x end.

(** The documented grammar. *)
Fixpoint doc_wf (t : elt) : bool :=
  match t with
  | Elem c a => bool_decide (type_switch c = CaseElementary) && doc_annotation a
  | Bracket k ts a => forallb doc_wf ts && arity_ok k (length ts) && doc_annotation a
  | Prefixed c t => bool_decide (type_switch c = CasePrefix) && doc_wf t
  end.

(** The depth a scanner reaches after [x], if it never reaches zero. *)
Fixpoint walk (o c : ascii) (x : bytes) (d : Z) : option Z :=
  match x with
  | [] => Some d
  | ch :: x' =>
      let d' := depth_step o c ch d in
      if decide (d' = 0%Z) then None else walk o c x' d'
  end.

(** The annotation at the end of a printed term, and a term without its
    annotations. *)
Fixpoint last_annotation (t : elt) : bytes :=
  match t with
  | Elem _ a | Bracket _ _ a => default [] a
  | Prefixed _ t => last_annotation t
  end.
Fixpoint erase (t : elt) : elt :=
  match t with
  | Elem c _ => Elem c None
  | Bracket k ts _ => Bracket k (map erase ts) None
  | Prefixed c t => Prefixed c (erase t)
  end.

(** ** Acceptance and termination *)

(** The strings that the constructor accepts. *)
Lemma Signature_new_spec s sg :
  Signature_new s = Ok sg <-> exists t, wf t /\ print t = s /\ sg = sig_of t.
Proof.
  unfold Signature_new. split.
  - intros H. apply (proj1 (parse_inv _ _)) in H as (t & Hwf & Hs & _ & ->).
    exists t. rewrite drop_all, app_nil_r, drop_0 in Hs. done.
  - intros (t & Hwf & <- & ->).
    apply (sig_init_print t _ _ 0 []); [done|by rewrite app_nil_r|done|lia].
Qed.


(** Parsing terminates on every string: the recursion between the
    constructor, [parseChildren] and [eatChildren] always ends within the
    fuel of [Signature_new], by a result or by one of the exceptions. *)
Theorem Signature_new_terminates s : Signature_new s <> Err OutOfFuel.
Proof. apply fuel_enough. cbn. lia. Qed.

Lemma Signature_new_print t : wf t -> Signature_new (print t) = Ok (sig_of t).
Proof. intros H. apply Signature_new_spec. eauto. Qed.

Lemma toString_sig_of t : toString (sig_of t) = print t.
Proof. by destruct t. Qed.

(** The text of a signature is the string it was built from, and every
    child is what the constructor returns on the child's own text. *)
Theorem Signature_new_roundtrip s sg :
  Signature_new s = Ok sg ->
  toString sg = s /\ Forall (fun c => Signature_new (toString c) = Ok c) (children sg).
Proof.
  intros (t & Hwf & <- & ->)%Signature_new_spec. split; [apply toString_sig_of|].
  assert (forall t, wf t -> Signature_new (toString (sig_of t)) = Ok (sig_of t)) as Hself.
  { intros t' H. rewrite toString_sig_of. by apply Signature_new_print. }
  destruct t as [c a|k ts a|c t]; cbn [sig_of children].
  - constructor.
  - cbn [wf] in Hwf. apply andb_prop_elim in Hwf as [[[Hts _]%andb_prop_elim _]%andb_prop_elim _].
    apply List.Forall_map, Forall_forall. intros t Ht%list_elem_of_In.
    apply Is_true_true, forallb_forall with (x := t) in Hts; [|done]. by apply Hself, Is_true_true.
  - cbn [wf] in Hwf. apply andb_prop_elim in Hwf as [_ Ht]. constructor; [by apply Hself|done].
Qed.

Lemma Signature_new_roundtrip_witness :
  exists sg, Signature_new (lit "(i[s]<a>)<P,x,y>") = Ok sg /\
    toString sg = lit "(i[s]<a>)<P,x,y>" /\
    Forall (fun c => Signature_new (toString c) = Ok c) (children sg).
Proof.
  eexists. split; [vm_compute; reflexivity|].
  apply (Signature_new_roundtrip (lit "(i[s]<a>)<P,x,y>")). vm_compute. reflexivity.
Defined.

(** ** The documented grammar *)

Section walk.
Context (o c : ascii).

Lemma walk_app x y d : walk o c (x ++ y) d = walk o c x d ≫= walk o c y.
Proof. revert d. induction x as [|ch x IH]; intros d; cbn; [done|]. by case_decide. Qed.

Lemma enclosed_walk x d : enclosed o c x d <-> walk o c x d = Some 1%Z.
Proof.
  revert d. induction x as [|ch x IH]; intros d; cbn.
  - rewrite bool_decide_spec. split; congruence.
  - case_decide as H.
    + split; [|done]. intros [Hd%bool_decide_unpack _]%andb_prop_elim. done.
    + rewrite <- IH, andb_True. rewrite bool_decide_spec. tauto.
Qed.

Lemma walk_pos x d d' : (0 < d)%Z -> walk o c x d = Some d' -> (0 < d')%Z.
Proof.
  revert d. induction x as [|ch x IH]; intros d Hd; cbn; [by intros [= <-]|].
  case_decide as H; [done|]. apply IH. unfold depth_step in *. repeat case_decide; lia.
Qed.

(** Starting deeper does not hurt. *)
Lemma walk_shift x d d' e :
  (0 < d)%Z -> (0 <= e)%Z -> walk o c x d = Some d' -> walk o c x (d + e) = Some (d' + e)%Z.
Proof.
  revert d. induction x as [|ch x IH]; intros d Hd He; cbn; [by intros [= <-]|].
  case_decide as H; [done|]. intros Hx.
  assert (depth_step o c ch (d + e) = depth_step o c ch d + e)%Z as ->.
  { unfold depth_step. repeat case_decide; lia. }
  rewrite decide_False.
  - apply IH; [|done..]. unfold depth_step in *. repeat case_decide; lia.
  - unfold depth_step in *. repeat case_decide; lia.
Qed.

(** [x] leaves the depth unchanged. *)
Definition neutral (x : bytes) : Prop := enclosed o c x 1.

Lemma neutral_app x y : neutral x -> neutral y -> neutral (x ++ y).
Proof. unfold neutral. rewrite !enclosed_walk, walk_app. intros -> Hy. done. Qed.

Lemma neutral_concat l : Forall neutral l -> neutral (concat l).
Proof. induction 1; cbn; [done|by apply neutral_app]. Qed.

Lemma neutral_char ch : ch <> o -> ch <> c -> neutral [ch].
Proof.
  intros. unfold neutral. rewrite enclosed_walk. cbn. unfold depth_step.
  repeat case_decide; done.
Qed.

Lemma neutral_bracketed x : o <> c -> neutral x -> neutral (o :: x ++ [c]).
Proof.
  intros Hoc. unfold neutral. rewrite !enclosed_walk. intros Hx. cbn.
  rewrite depth_step_open, decide_False by done. rewrite walk_app.
  rewrite (walk_shift x 1 1 1 ltac:(lia) ltac:(lia) Hx). cbn.
  by rewrite depth_step_close.
Qed.
End walk.

Lemma neutral_cons o c ch x :
  ch <> o -> ch <> c -> neutral o c x -> neutral o c (ch :: x).
Proof. intros. apply (neutral_app _ _ [ch] x); [by apply neutral_char|done]. Qed.

(** A character that starts a term of [kind] is not one of the brackets. *)
Lemma elementary_not_bracket k c :
  type_switch c = CaseElementary \/ type_switch c = CasePrefix ->
  c <> bracket_open k /\ c <> bracket_close k.
Proof. intros H. split; intros ->; destruct k, H; done. Qed.

Lemma neutral_print_ann k a :
  doc_annotation a -> neutral (bracket_open k) (bracket_close k) (print_ann a).
Proof.
  destruct a as [x|]; [|done]. cbn. unfold balanced_annotation. rewrite !andb_True.
  intros (((_ & Ht) & Hl) & Hm). cbn. apply neutral_cons; [by destruct k..|].
  apply neutral_app; [by destruct k|by destruct k].
Qed.

Lemma doc_wf_neutral k t :
  doc_wf t -> neutral (bracket_open k) (bracket_close k) (print t).
Proof.
  induction t as [c a|k' ts a IH|c t IH] using elt_nested_ind; cbn [doc_wf print].
  - intros [Hc%bool_decide_unpack Ha]%andb_prop_elim.
    destruct (elementary_not_bracket k c (or_introl Hc)).
    apply neutral_cons; [done..|]. by apply neutral_print_ann.
  - intros [[Hts _]%andb_prop_elim Ha]%andb_prop_elim.
    assert (neutral (bracket_open k) (bracket_close k) (concat (map print ts))) as Hi.
    { apply neutral_concat, List.Forall_map.
      induction IH as [|t ts Ht _ IH]; cbn in *; [constructor|].
      apply andb_prop_elim in Hts as [? ?]. constructor; auto. }
    apply (neutral_print_ann k) in Ha.
    rewrite cons_middle, app_assoc, app_comm_cons. apply neutral_app; [|done].
    destruct (decide (k' = k)) as [->|Hk].
    + apply neutral_bracketed; [apply bracket_neq|done].
    + apply neutral_cons; [by destruct k, k'..|].
      apply neutral_app; [done|]. apply neutral_char; by destruct k, k'.
  - intros [Hc%bool_decide_unpack Ht]%andb_prop_elim.
    destruct (elementary_not_bracket k c (or_intror Hc)).
    apply neutral_cons; auto.
Qed.

Lemma doc_ann_ok a : doc_annotation a -> ann_ok a.
Proof.
  destruct a as [x|]; [|done]. cbn. unfold balanced_annotation. rewrite !andb_True. cbn. tauto.
Qed.

Lemma doc_wf_members_neutral k ts :
  forallb doc_wf ts -> neutral (bracket_open k) (bracket_close k) (concat (map print ts)).
Proof.
  intros H. apply neutral_concat, List.Forall_map.
  induction ts as [|t ts IH]; cbn in *; [constructor|].
  apply andb_prop_elim in H as [? ?]. constructor; [by apply doc_wf_neutral|auto].
Qed.

Lemma doc_wf_wf t : doc_wf t -> wf t.
Proof.
  induction t as [c a|k ts a IH|c t IH] using elt_nested_ind; cbn [doc_wf wf].
  - rewrite !andb_True. intros [? ?]. split; [done|by apply doc_ann_ok].
  - rewrite !andb_True. intros [[Hts ?] ?]. repeat split; [|done| |by apply doc_ann_ok].
    + clear -Hts IH. induction IH as [|t ts Ht _ IH]; cbn in *; [done|].
      rewrite andb_True in *. naive_solver.
    + by apply doc_wf_members_neutral.
  - rewrite !andb_True. naive_solver.
Qed.

(** The documented grammar is accepted, and the [make...Signature]
    functions build from accepted documented signatures the signature of the
    composite, with exactly the given signatures as children. *)
Theorem make_signatures_closed t u ts :
  doc_wf t -> doc_wf u -> forallb doc_wf ts ->
  Signature_new (print t) = Ok (sig_of t) /\
  makeListSignature (sig_of t) = Ok (sig_of (Bracket BList [t] None)) /\
  makeTupleSignature1 (sig_of t) = Ok (sig_of (Bracket BTuple [t] None)) /\
  makeMapSignature (sig_of t) (sig_of u) = Ok (sig_of (Bracket BMap [t; u] None)) /\
  makeVarArgsSignature (sig_of t) = Ok (sig_of (Prefixed Type_VarArgs t)) /\
  makeKwArgsSignature (sig_of t) = Ok (sig_of (Prefixed Type_KwArgs t)) /\
  makeOptionalSignature (sig_of t) = Ok (sig_of (Prefixed Type_Optional t)) /\
  makeTupleSignature (map sig_of ts) [] [] = Ok (sig_of (Bracket BTuple ts None)).
Proof.
  intros Ht Hu Hts.
  assert (forall t s, doc_wf t -> print t = s -> Signature_new s = Ok (sig_of t)) as Hnew.
  { intros t' s H <-. by apply Signature_new_print, doc_wf_wf. }
  unfold makeListSignature, makeTupleSignature1, makeMapSignature, makeVarArgsSignature,
    makeKwArgsSignature, makeOptionalSignature, makeTupleSignature.
  rewrite !toString_sig_of.
  apply Is_true_true in Ht, Hu, Hts.
  assert (concat (map print ts) = concat (map toString (map sig_of ts))) as Hcat.
  { rewrite map_map. f_equal. apply map_ext. intros. symmetry. apply toString_sig_of. }
  repeat split; apply Hnew; cbn; rewrite ?Ht, ?Hu, ?Hts, ?app_nil_r, <- ?app_assoc, ?Hcat; try done.
  by case_decide.
Qed.

Lemma make_signatures_closed_witness :
  let t := Elem Type_Int32 (Some (lit "(a,[b])")) in
  makeListSignature (sig_of t) = Ok (sig_of (Bracket BList [t] None)) /\
  makeMapSignature (sig_of t) (sig_of t) = Ok (sig_of (Bracket BMap [t; t] None)).
Proof.
  intros t. destruct (make_signatures_closed t t [] I I I) as (_ & Hl & _ & Hm & _).
  exact (conj Hl Hm).
Defined.

(** ** [annotation] *)

Definition back_step (o c ch : ascii) (d : Z) : Z :=
  if decide (ch = c) then (d + 1)%Z else if decide (ch = o) then (d - 1)%Z else d.

Lemma find_begin_loop_step str o c i ch d :
  str !! S i = Some ch ->
  find_begin_loop str 0 o c (S i) d =
  if decide (back_step o c ch d = 0%Z) then Some (S i)
  else find_begin_loop str 0 o c i (back_step o c ch d).
Proof.
  intros Hch. cbn [find_begin_loop]. rewrite decide_True by lia. rewrite Hch.
  replace (if decide (Some ch = Some c) then (d + 1)%Z
           else if decide (Some ch = Some o) then (d - 1)%Z else d)
    with (back_step o c ch d); [done|].
  unfold back_step. repeat case_decide; congruence.
Qed.

(** The loop of [_find_begin] retraces the depths of the forward scanner. *)
Lemma find_begin_walk pre u post d :
  walk "<" ">" u 1 = Some d -> 0 < length pre ->
  find_begin_loop (pre ++ "<" :: u ++ post) 0 "<" ">" (length pre + length u) d
  = Some (length pre).
Proof.
  intros Hw Hpre. destruct (length pre) as [|n] eqn:Hn; [lia|].
  revert d post Hw. induction u as [|ch u IH] using rev_ind; intros d post Hw.
  - injection Hw as <-. cbn [length]. rewrite Nat.add_0_r.
    rewrite (find_begin_loop_step _ _ _ _ "<"); [done|].
    rewrite lookup_app_r by lia. by replace (S n - length pre) with 0 by lia.
  - rewrite walk_app in Hw. apply bind_Some in Hw as (du & Hu & Hd). cbn in Hd.
    case_decide as H0; [done|]. injection Hd as Hd.
    rewrite length_app. cbn [length]. replace (S n + (length u + 1)) with (S (S n + length u)) by lia.
    rewrite (find_begin_loop_step _ _ _ _ ch).
    + assert (back_step "<" ">" ch d = du) as ->.
      { subst d. unfold back_step, depth_step in *. repeat case_decide; subst; try done; lia. }
      pose proof (walk_pos "<" ">" u 1 du ltac:(lia) Hu). rewrite decide_False by lia.
      rewrite <- app_assoc. cbn [app]. by apply IH.
    + rewrite <- app_assoc. cbn [app]. rewrite app_comm_cons, app_assoc.
      apply list_lookup_middle. rewrite length_app. cbn [length]. lia.
Qed.

Lemma print_annotated t :
  wf t ->
  (exists body x, print t = body ++ "<" :: x ++ [">"] /\ 0 < length body /\
     enclosed "<" ">" x 1 /\ last_annotation t = x) \/
  (last (print t) <> Some ">" /\ last_annotation t = []).
Proof.
  induction t as [c a|k ts a _|c t IH] using elt_nested_ind; cbn [wf print last_annotation].
  - intros [Hc%bool_decide_unpack Ha]%andb_prop_elim. destruct a as [x|]; cbn.
    + left. exists [c], x. cbn. eauto with lia.
    + right. split; [|done]. intros [= ->]. done.
  - intros [_ Ha]%andb_prop_elim. destruct a as [x|]; cbn.
    + left. exists (bracket_open k :: concat (map print ts) ++ [bracket_close k]), x.
      cbn. rewrite <- app_assoc. cbn. eauto with lia.
    + right. split; [|done]. rewrite app_comm_cons, last_snoc. by destruct k.
  - intros [_ Ht]%andb_prop_elim. destruct (IH Ht) as [(body & x & -> & Hb & Hx & Hl)|[Hl1 Hl2]].
    + left. exists (c :: body), x. cbn. eauto with lia.
    + right. split; [|done]. destruct (print_cons t) as (c' & rest & Hp). by rewrite Hp in *.
Qed.

(** What [annotation] returns for a term of the grammar. *)
Lemma annotation_sig_of t : wf t -> annotation (sig_of t) = last_annotation t.
Proof.
  intros Hwf. unfold annotation. rewrite toString_sig_of.
  destruct (print_annotated t Hwf) as [(body & x & -> & Hb & Hx & <-)|[Hl ->]].
  - set (x := last_annotation t) in *.
    rewrite app_comm_cons, app_assoc, last_snoc, decide_False by tauto.
    rewrite <- app_assoc. cbn [app].
    assert (length (body ++ "<" :: x ++ [">"]) = S (length body + S (length x))) as Hlen.
    { rewrite length_app. cbn [length]. rewrite length_app. cbn [length]. lia. }
    unfold _find_begin. rewrite Hlen, decide_False by lia. cbv zeta.
    replace (S (length body + S (length x)) - 1) with (S (length body + length x)) by lia.
    assert ((body ++ "<" :: x ++ [">"]) !! S (length body + length x) = Some ">") as Hlast.
    { rewrite app_comm_cons, app_assoc. apply list_lookup_middle.
      rewrite length_app. cbn [length]. lia. }
    rewrite decide_False by tauto. rewrite (find_begin_loop_step _ _ _ _ ">") by done.
    apply enclosed_walk in Hx.
    change (back_step "<" ">" ">" 0) with 1%Z. rewrite decide_False by done.
    rewrite find_begin_walk by done.
    replace (S (length body)) with (length body + 1) by lia.
    rewrite <- drop_drop, drop_app_length. cbn [skipn]. rewrite drop_0.
    replace (S (length body + S (length x)) - length body - 2) with (length x) by lia.
    by rewrite take_app_length.
  - destruct (last (print t)) as [ch|]; [|done]. rewrite decide_True; [done|]. congruence.
Qed.

(** [annotation] returns the annotation of the last annotated element of
    a signature: the scan from the end of the string that [_find_begin] makes
    finds the opening character that the forward scan of the parser
    matched. *)
Theorem annotation_correct t : wf t -> annotation (sig_of t) = last_annotation t.
Proof. apply annotation_sig_of. Qed.

Lemma annotation_correct_witness :
  let t := Bracket BTuple [Elem Type_Int32 (Some (lit "<u>"))] (Some (lit "P<q>,x")) in
  wf t /\ annotation (sig_of t) = lit "P<q>,x".
Proof. intros t. split; [exact I|]. exact (annotation_correct t I). Defined.

(** ** Equality *)

Fixpoint sig_eq_children (ls rs : list Signature) {struct ls} : bool :=
  match ls, rs with
  | _, [] => true
  | [], _ :: _ => false
  | l :: ls', r :: rs' =>
      bool_decide (type r = type l) && sig_eq l r && sig_eq_children ls' rs'
  end.

Lemma sig_eq_step a b :
  sig_eq a b = bool_decide (type a = type b) &&
    bool_decide (length (children a) = length (children b)) &&
    sig_eq_children (children a) (children b).
Proof. destruct a as [ta ca]. reflexivity. Qed.

Lemma type_sig_of t c rest : print t = c :: rest -> type (sig_of t) = c.
Proof. unfold type. rewrite toString_sig_of. by intros ->. Qed.

Definition head_char (t : elt) : ascii :=
  match t with Elem c _ | Prefixed c _ => c | Bracket k _ _ => bracket_open k end.

Lemma type_head_char t : type (sig_of t) = head_char t.
Proof. destruct t; eapply type_sig_of; done. Qed.

Lemma erase_type t u : erase t = erase u -> type (sig_of t) = type (sig_of u).
Proof.
  assert (forall t, head_char (erase t) = head_char t) as Hh by (by intros []).
  intros He. by rewrite !type_head_char, <- Hh, He, Hh.
Qed.

Lemma wf_head_char t :
  wf t -> type_switch (head_char t) =
    match t with Elem _ _ => CaseElementary | Prefixed _ _ => CasePrefix
               | Bracket k _ _ => CaseBracket k end.
Proof.
  destruct t; cbn; intros H.
  - by apply andb_prop_elim in H as [->%bool_decide_unpack _].
  - by apply type_switch_open.
  - by apply andb_prop_elim in H as [->%bool_decide_unpack _].
Qed.

(** [operator==] holds exactly when two signatures differ at most by
    their annotations; in particular it is an equivalence relation on parsed
    signatures. *)
Theorem sig_eq_erase t u :
  wf t -> wf u -> sig_eq (sig_of t) (sig_of u) = true <-> erase t = erase u.
Proof.
  revert u. induction t as [c a|k ts a IH|c t IH] using elt_nested_ind; intros u Ht Hu;
    pose proof (wf_head_char _ Ht) as Hht; pose proof (wf_head_char _ Hu) as Hhu;
    rewrite sig_eq_step, !andb_true_iff, !bool_decide_eq_true, !type_head_char.
  - destruct u as [c' a'|k' ts' a'|c' u]; cbn in *; split; try (intros [[-> ?] ?]; congruence);
      try (intros [= ->]; done).
  - destruct u as [c' a'|k' ts' a'|c' u]; cbn in *; try (split; [intros [[Hc ?] ?]; congruence|done]).
    rewrite !length_map. cbn [wf] in Ht, Hu.
    assert (forallb wf ts /\ forallb wf ts') as [Hts Hts'].
    { rewrite !andb_True in Ht, Hu. tauto. }
    assert (length ts = length ts' -> sig_eq_children (map sig_of ts) (map sig_of ts') = true
              <-> map erase ts = map erase ts') as Hch.
    { clear -IH Hts Hts'. revert ts' Hts'.
      induction IH as [|t ts Ht _ IHts]; intros [|t' ts'] Hts'; try done.
      cbn in *. rewrite andb_True in Hts, Hts'. intros [= Hlen].
      rewrite !andb_true_iff, bool_decide_eq_true, (IHts (proj2 Hts)), (Ht t') by tauto.
      split; [intros [[_ ->] ->]; done|]. intros [= He ->]. repeat split; [|done].
      by apply erase_type. }
    split.
    + intros [[Hk Hlen] Hall]. apply Hch in Hall; [|done]. rewrite Hall.
      destruct k, k'; done.
    + intros [= -> He]. pose proof (f_equal length He) as Hlen. rewrite !length_map in Hlen.
      repeat split; [done|]. by apply Hch.
  - destruct u as [c' a'|k' ts' a'|c' u]; cbn in *; try (split; [intros [[Hc ?] ?]; congruence|done]).
    rewrite andb_True in Ht, Hu. rewrite !andb_true_r, andb_true_iff, bool_decide_eq_true, IH by tauto.
    split; [intros [[-> _] [_ ->]]; done|]. intros [= -> He]. repeat split; [|done].
    by apply erase_type.
Qed.

Lemma sig_eq_erase_witness :
  let t := Bracket BTuple [Elem "i" None] (Some (lit "P,x")) in
  let u := Bracket BTuple [Elem "i" (Some (lit "k"))] None in
  wf t /\ wf u /\ sig_eq (sig_of t) (sig_of u) = true.
Proof.
  intros t u. split; [exact I|]. split; [exact I|].
  apply (sig_eq_erase t u I I). reflexivity.
Defined.

Lemma sig_eq_children_sym ls rs :
  Forall (fun l => forall r, sig_eq l r = sig_eq r l) ls -> length ls = length rs ->
  sig_eq_children ls rs = sig_eq_children rs ls.
Proof.
  intros H. revert rs. induction H as [|l ls Hl _ IH]; intros [|r rs] Hlen; try done.
  cbn. rewrite Hl, IH by (cbn in Hlen; lia). do 2 f_equal. by apply bool_decide_ext.
Qed.

Lemma Signature_nested_ind (P : Signature -> Prop) :
  (forall t cs, Forall P cs -> P (Sig t cs)) -> forall s, P s.
Proof.
  intros H. fix IH 1. intros [t cs]. apply H. induction cs as [|c cs IHcs]; constructor; auto.
Qed.

Lemma sig_eq_sym a b : sig_eq a b = sig_eq b a.
Proof.
  revert b. induction a as [t cs IH] using Signature_nested_ind. intros b. rewrite !sig_eq_step.
  cbn [children]. destruct (decide (length cs = length (children b))) as [Hl|Hl].
  - rewrite (sig_eq_children_sym cs (children b) IH Hl). do 2 f_equal; by apply bool_decide_ext.
  - rewrite !(bool_decide_eq_false_2 (length _ = length _)) by done.
    by rewrite !andb_false_r.
Qed.

(** The equation of [operator==] as the source writes it: the recursive call
    is on the child of [rhs] first. *)
Lemma sig_eq_unfold lhs rhs :
  sig_eq lhs rhs = bool_decide (type lhs = type rhs) &&
    bool_decide (length (children lhs) = length (children rhs)) &&
    sig_eq_children (children rhs) (children lhs).
Proof.
  rewrite sig_eq_step. destruct (decide (length (children lhs) = length (children rhs))) as [Hl|Hl].
  - rewrite (sig_eq_children_sym (children lhs)); [done| |done].
    apply Forall_true. intros. apply sig_eq_sym.
  - by rewrite (bool_decide_eq_false_2 (length _ = length _)), !andb_false_r by done.
Qed.

(** ** [signatureSplit] *)

(** [signatureSplit] inverts the concatenation that builds a full method
    signature: from "name::" followed by a return signature and a tuple of
    parameters it gives back the three parts, and a string without "::" is a
    bare name. *)
Theorem signatureSplit_roundtrip name r ps :
  ":" ∉ name -> doc_wf r -> forallb doc_wf ps ->
  let p := Bracket BTuple ps None in
  signatureSplit (name ++ lit "::" ++ print r ++ print p) = Ok (print r, name, print p) /\
  signatureSplit (name ++ lit "::" ++ print p) = Ok ([], name, print p) /\
  signatureSplit name = Ok ([], name, []).
Proof.
  intros Hname Hr Hps p.
  assert (doc_wf p) as Hp by (unfold p; cbn; rewrite !andb_True; by destruct ps).
  assert (forall body, "(" ∈ body -> ")" ∈ body -> body <> [] ->
    signatureSplit (name ++ lit "::" ++ body) =
      parent ← Signature_new ("(" :: body ++ [")"]);
      if decide (body = [] \/ isValid parent = false) then Err SignatureNotValid
      else match children parent with
           | [r; p] => mret (toString r, name, toString p)
           | [p] => mret ([], name, toString p)
           | _ => mret ([], name, [])
           end) as Hsplit.
  { intros body Ho Hc _. unfold signatureSplit. change (lit "::") with (":" :: [":"]).
    rewrite find_sub_first by done. rewrite decide_False.
    - rewrite take_app_length, <- drop_drop, drop_app_length. done.
    - intros [H|H]; revert H; apply find_char_Some; rewrite !elem_of_app; tauto. }
  assert ("(" ∈ print p /\ ")" ∈ print p) as [Ho Hc].
  { unfold p. cbn. split; [apply list_elem_of_here|].
    apply list_elem_of_further, elem_of_app. right. apply list_elem_of_here. }
  assert (forall ts, forallb doc_wf ts ->
    Signature_new ("(" :: concat (map print ts) ++ [")"]) = Ok (sig_of (Bracket BTuple ts None))) as Hnew.
  { intros ts H. apply (Signature_new_print (Bracket BTuple ts None)), doc_wf_wf.
    cbn. rewrite !andb_True. by destruct ts. }
  repeat split.
  - rewrite Hsplit by (rewrite ?elem_of_app; try tauto; by destruct (print_cons r) as (?&?&->)).
    pose proof (Hnew [r; p]) as H. cbn [map concat forallb] in H. rewrite app_nil_r in H.
    rewrite H by (rewrite !andb_True; repeat split; done). cbn [mbind result_bind].
    rewrite decide_False; [|by destruct (print_cons r) as (?&?&->); intros [?|?]].
    cbn [sig_of map children]. by rewrite !toString_sig_of.
  - rewrite Hsplit by done.
    pose proof (Hnew [p]) as H. cbn [map concat forallb] in H. rewrite app_nil_r in H.
    rewrite H by (rewrite !andb_True; repeat split; done). cbn [mbind result_bind].
    rewrite decide_False by (intros [?|?]; done). done.
  - unfold signatureSplit. replace (find_sub (lit "::") name) with npos; [done|].
    clear -Hname. induction name as [|x s IH]; [done|].
    apply not_elem_of_cons in Hname as [? Hs]. cbn. rewrite decide_False by done.
    change (find_sub (lit "::") s) with (find_sub [":"; ":"] s) in IH. by rewrite <- IH.
Qed.

Lemma signatureSplit_roundtrip_witness :
  signatureSplit (lit "foo::[i](sd)") = Ok (lit "[i]", lit "foo", lit "(sd)").
Proof.
  apply (signatureSplit_roundtrip (lit "foo") (Bracket BList [Elem "i" None] None)
    [Elem "s" None; Elem "d" None]); [|exact I|exact I].
  apply (bool_decide_unpack (":" ∉ lit "foo")). vm_compute. exact I.
Defined.
