(* ===== verification/Float32.v ===== *)
(** * Float32: IEEE binary32 arithmetic with rounding to nearest even

    C++ [float] computations, on the executable specification of IEEE 754
    floating point numbers ([SpecFloat]) at precision 24. *)
From Corelib Require Import SpecFloat.
From S2P Require Import Prelude.

Abbreviation f32 := spec_float.

Definition f32_prec : Z := 24.
Definition f32_emax : Z := 128.

Definition f32_add : f32 -> f32 -> f32 := SFadd f32_prec f32_emax.
Definition f32_sub : f32 -> f32 -> f32 := SFsub f32_prec f32_emax.
Definition f32_mul : f32 -> f32 -> f32 := SFmul f32_prec f32_emax.
Definition f32_div : f32 -> f32 -> f32 := SFdiv f32_prec f32_emax.
Definition f32_eqb : f32 -> f32 -> bool := SFeqb.
Definition f32_ltb : f32 -> f32 -> bool := SFltb.

(** The float nearest to [m * 2^e]. *)
Definition f32_of (m e : Z) : f32 := binary_normalize f32_prec f32_emax m e false.
Definition f32_of_Z (n : Z) : f32 := f32_of n 0.

Definition f32_zero : f32 := f32_of_Z 0.
Definition f32_one : f32 := f32_of_Z 1.
(** The literals [0.95f] and [0.1f]: the nearest binary32 values. *)
Definition f32_0_95 : f32 := f32_of 15938355 (-24).
Definition f32_0_1 : f32 := f32_of 13421773 (-27).

#[export] Instance f32_eq_dec : EqDecision f32.
Proof. solve_decision. Defined.

(** ** The order

    The numbers, without NaN, are ordered as triples of integers. *)

Definition f32_key (x : f32) : Z * Z * Z :=
  match x with
  | S754_zero _ => (0, 0, 0)
  | S754_infinity true => (-2, 0, 0)
  | S754_infinity false => (2, 0, 0)
  | S754_nan => (0, 0, 0)
  | S754_finite true m e => (-1, - e, - Z.pos m)
  | S754_finite false m e => (1, e, Z.pos m)
  end%Z.

Definition key_lt (x y : Z * Z * Z) : Prop :=
  let '(a, b, c) := x in let '(a', b', c') := y in (a < a' \/ a = a' /\ (b < b' \/ b = b' /\ c < c'))%Z.

Lemma f32_compare_key x y : x <> S754_nan -> y <> S754_nan ->
  match SFcompare x y with
  | Some Lt => key_lt (f32_key x) (f32_key y)
  | Some Eq => f32_key x = f32_key y
  | Some Gt => key_lt (f32_key y) (f32_key x)
  | None => False
  end.
Proof.
  intros Hx Hy. destruct x as [[]|[]| |[] m e], y as [[]|[]| |[] m' e']; cbn; try done; try lia; try (f_equal; lia).
  all: destruct (Z.compare_spec e e') as [->|?|?]; cbn; try lia.
  all: change (Pos.compare_cont Eq m m') with (Pos.compare m m'); destruct (Pos.compare_spec m m') as [->|?|?]; cbn; lia || done.
Qed.

Lemma f32_ltb_key x y : x <> S754_nan -> y <> S754_nan -> f32_ltb x y = true <-> key_lt (f32_key x) (f32_key y).
Proof.
  intros Hx Hy. pose proof (f32_compare_key x y Hx Hy) as H. unfold f32_ltb, SFltb. destruct (SFcompare x y) as [[]|]; [| | |done].
  all: destruct (f32_key x) as [[a b] c], (f32_key y) as [[a' b'] c']; unfold key_lt in *; simplify_eq; split; intros; try done; lia.
Qed.

Lemma f32_eqb_key x y : x <> S754_nan -> y <> S754_nan -> f32_eqb x y = true <-> f32_key x = f32_key y.
Proof.
  intros Hx Hy. pose proof (f32_compare_key x y Hx Hy) as H. unfold f32_eqb, SFeqb. destruct (SFcompare x y) as [[]|]; [| | |done].
  all: destruct (f32_key x) as [[a b] c], (f32_key y) as [[a' b'] c']; unfold key_lt in *; simplify_eq; split; intros; try done; simplify_eq; lia.
Qed.
