(* ===== verification/SignatureConvert.v ===== *)
(** * SignatureConvert: the conversion heuristic and the pretty printer of
    signatures ([Signature::isConvertibleTo] of [src/type/signature.cpp] and
    [src/type/signatureconvertor.cpp]). *)
From S2P Require Import Prelude CString Float32 Signature SignatureGrammar SignatureProperties.
#[local] Open Scope char_scope.
#[local] Open Scope list_scope.

(** ** [isConvertibleTo] *)

Definition numeric : bytes := lit "bcCwWiIlLfd".
Definition integral : bytes := lit "bcCwWiIlL".
Definition floating : bytes := lit "fd".
Definition container : bytes := lit "[{(".

(** [strchr(set, c)] on a literal, as a boolean: the terminating zero of the
    literal is found too. *)
Definition strchr (set : bytes) (c : ascii) : bool :=
  bool_decide (c ∈ set) || bool_decide (c = "000").

(** [calculateFactor] *)
Definition calculateFactor (error childErr : f32) : f32 :=
  f32_mul childErr (f32_sub f32_one (f32_div error (f32_of_Z 100))).

(** The malus of a numeric conversion. *)
Definition numeric_error (s d : ascii) : f32 :=
  let error := f32_zero in
  let error := if strchr integral s && strchr floating d
               then f32_add error (f32_of_Z 2) else error in
  let error := if strchr floating s && strchr integral d
               then f32_add error (f32_of_Z 3) else error in
  if bool_decide (s <> "b") && bool_decide (d = "b")
  then f32_add error (f32_of_Z 4) else error.

(** The score of two tuples of different sizes, from their annotations.
    [requireSameName] is false when the environment variable
    [QI_IGNORE_STRUCT_NAME] is set. *)
Definition tuple_mismatch_score (requireSameName : bool) (aSrc aDst : bytes) : f32 :=
  if negb requireSameName then
    if bool_decide (aSrc = []) || bool_decide (aDst = []) then f32_zero else f32_0_1
  else
    let pSrc := find_char "," aSrc in
    let pDst := find_char "," aDst in
    match pSrc with
    | Some p => if decide (pSrc = pDst /\ take p aSrc = take p aDst) then f32_0_1 else f32_zero
    | None => f32_zero
    end.

(** VarArgs are lists. *)
Definition varargs_as_list (c : ascii) : ascii :=
  if decide (c = Type_VarArgs) then Type_List else c.

(** [childErr *= 1.0f - (1.0f - childRes) * 0.95f] *)
Definition lower_child_error (childErr childRes : f32) : f32 :=
  f32_mul childErr
    (f32_sub f32_one (f32_mul (f32_sub f32_one childRes) f32_0_95)).

(** [Signature::isConvertibleTo]. [None] is an access past the end of a
    vector of children; it cannot happen for parsed signatures. *)
Fixpoint isConvertibleTo (requireSameName : bool) (a b : Signature) {struct b} : option f32 :=
  let 'Sig _ cb := b in
  let s := varargs_as_list (type a) in
  let d := varargs_as_list (type b) in
  if decide (d = Type_Void) then Some (calculateFactor f32_zero f32_one)
  else if decide (d = Type_Unknown) then
    Some (calculateFactor
      (if decide (s <> Type_Unknown) then f32_add f32_zero (f32_of_Z 10) else f32_zero) f32_one)
  else if decide (d = Type_Dynamic \/ s = Type_None) then
    Some (calculateFactor (f32_add f32_zero (f32_of_Z 5)) f32_one)
  else if decide (d = Type_Optional) then
    if decide (s = Type_Optional) then
      match children a, cb with
      | va :: _, vb :: _ => isConvertibleTo requireSameName va vb
      | _, _ => None
      end
    else if decide (s = Type_Void) then Some (calculateFactor f32_zero f32_one)
    else match cb with
         | vb :: _ => isConvertibleTo requireSameName a vb
         | [] => None
         end
  else if decide (s = Type_Optional) then Some f32_zero
  else if strchr numeric s then
    if negb (strchr numeric d) then Some f32_zero
    else Some (calculateFactor (numeric_error s d) f32_one)
  else if strchr container s then
    if decide (d <> s) then Some f32_zero
    else if decide (length (children a) <> length cb) then
      if decide (s <> Type_Tuple) then Some f32_zero
      else Some (tuple_mismatch_score requireSameName (annotation a) (annotation b))
    else
      (fix loop (its itd : list Signature) (childErr : f32) {struct itd} : option f32 :=
         match itd, its with
         | y :: itd', x :: its' =>
             childRes ← isConvertibleTo requireSameName x y;
             if f32_eqb childRes f32_zero then Some f32_zero
             else loop its' itd' (lower_child_error childErr childRes)
         | _, _ => Some (calculateFactor f32_zero childErr)
         end) (children a) cb f32_one
  else if decide (d <> s) then Some f32_zero
  else Some (calculateFactor f32_zero f32_one).

(** ** [SignatureConvertor] *)

Inductive convert_error := OutOfRange.

(** [boost::algorithm::split] on one separator. *)
Fixpoint split_on (sep : ascii) (s : bytes) : list bytes :=
  match s with
  | [] => [[]]
  | c :: s' =>
      if decide (c = sep) then [] :: split_on sep s'
      else match split_on sep s' with
           | w :: ws => (c :: w) :: ws
           | [] => [[c]]
           end
  end.

(** The text that [visitSimple] appends to the result. *)
Definition visitSimple (c : ascii) : bytes :=
  lit (if decide (c = Type_Bool) then "Bool" else
       if decide (c = Type_Int8) then "Int8" else
       if decide (c = Type_UInt8) then "UInt8" else
       if decide (c = Type_Int16) then "Int16" else
       if decide (c = Type_UInt16) then "UInt16" else
       if decide (c = Type_Int32) then "Int32" else
       if decide (c = Type_UInt32) then "UInt32" else
       if decide (c = Type_Int64) then "Int64" else
       if decide (c = Type_UInt64) then "UInt64" else
       if decide (c = Type_Float) then "Float" else
       if decide (c = Type_Double) then "Double" else
       if decide (c = Type_Void) then "Void" else
       if decide (c = Type_String) then "String" else
       if decide (c = Type_Dynamic) then "Value" else
       if decide (c = Type_Object) then "Object" else
       if decide (c = Type_Unknown) then "Unknown" else
       if decide (c = Type_Raw) then "RawBuffer" else "BUG")%string.

(** The separators that [visitTuple] puts between the members. *)
Fixpoint join_members (l : list (result convert_error bytes)) : result convert_error bytes :=
  match l with
  | [] => mret []
  | [r] => r
  | r :: l' => x ← r; y ← join_members l'; mret (x ++ "," :: y)
  end.

(** [SignatureConvertor::visit] and the visitors: the text appended to
    [_result]. [Err OutOfRange] is the exception of [children().at(n)]. *)
Fixpoint visit (sig : Signature) : result convert_error bytes :=
  let 'Sig _ cs := sig in
  let visited := map visit cs in
  let at_ n := match visited !! n with Some r => r | None => Err OutOfRange end in
  let c := type sig in
  let one name := x ← at_ 0; mret (lit name ++ x ++ lit ">") in
  if decide (c = Type_List) then one "List<"%string
  else if decide (c = Type_Map) then
    x ← at_ 0; y ← at_ 1; mret (lit "Map<" ++ x ++ lit "," ++ y ++ lit ">")
  else if decide (c = Type_Tuple) then
    match annotation sig, split_on "," (annotation sig) with
    | _ :: _, name :: _ => mret name
    | _, _ => x ← join_members visited; mret (lit "(" ++ x ++ lit ")")
    end
  else if decide (c = Type_VarArgs) then one "VarArgs<"%string
  else if decide (c = Type_Optional) then one "Optional<"%string
  else mret (visitSimple c).

(** [Signature::toPrettySignature] *)
Definition toPrettySignature (s : Signature) : result convert_error bytes :=
  if isValid s then visit s else mret (lit "Invalid").

(** ** Which conversions are possible, scores apart *)

Inductive convertible (requireSameName : bool) : Signature -> Signature -> Prop :=
  | conv_void a b : varargs_as_list (type b) = Type_Void -> convertible requireSameName a b
  | conv_unknown a b : varargs_as_list (type b) = Type_Unknown -> convertible requireSameName a b
  | conv_dynamic a b : varargs_as_list (type b) = Type_Dynamic -> convertible requireSameName a b
  | conv_none a b : type a = Type_None -> convertible requireSameName a b
  | conv_void_optional a b :
      type b = Type_Optional -> type a = Type_Void -> convertible requireSameName a b
  | conv_optional a b va vb ra rb :
      type a = Type_Optional -> type b = Type_Optional ->
      children a = va :: ra -> children b = vb :: rb ->
      convertible requireSameName va vb -> convertible requireSameName a b
  | conv_to_optional a b vb rb :
      type b = Type_Optional -> children b = vb :: rb ->
      convertible requireSameName a vb -> convertible requireSameName a b
  | conv_numeric a b :
      strchr numeric (type a) -> strchr numeric (type b) -> convertible requireSameName a b
  | conv_container a b :
      varargs_as_list (type a) = varargs_as_list (type b) ->
      Forall2 (convertible requireSameName) (children a) (children b) ->
      convertible requireSameName a b
  | conv_struct_versions a b :
      type a = Type_Tuple -> type b = Type_Tuple ->
      tuple_mismatch_score requireSameName (annotation a) (annotation b) = f32_0_1 ->
      convertible requireSameName a b
  | conv_same a b :
      varargs_as_list (type a) = varargs_as_list (type b) ->
      strchr container (varargs_as_list (type a)) = false ->
      convertible requireSameName a b.

(** Terms without a dynamic or a none element: converting one to itself is an
    identity. *)
Fixpoint concrete (t : elt) : bool :=
  match t with
  | Elem c _ => bool_decide (c <> Type_Dynamic) && bool_decide (c <> Type_None)
  | Bracket _ ts _ => forallb concrete ts
  | Prefixed _ t => concrete t
  end.

(** Two versions of a record of [n] fields, each of them a structure [P] that
    got a second member. *)
Definition record_v1 (n : nat) : bytes :=
  "(" :: concat (repeat (lit "(i)<P,a>") n) ++ [")"].
Definition record_v2 (n : nat) : bytes :=
  "(" :: concat (repeat (lit "(ii)<P,a,b>") n) ++ [")"].

(** What [toPrettySignature] prints for a term. *)
Fixpoint pretty (t : elt) : bytes :=
  match t with
  | Elem c _ => visitSimple c
  | Bracket BList ts _ => lit "List<" ++ concat (map pretty ts) ++ lit ">"
  | Bracket BMap ts _ =>
      lit "Map<" ++ concat (List.removelast (flat_map (fun t => [pretty t; lit ","]) ts)) ++ lit ">"
  | Bracket BTuple ts a =>
      match a with
      | Some (c :: x) => hd [] (split_on "," (c :: x))
      | _ => lit "(" ++ concat (List.removelast (flat_map (fun t => [pretty t; lit ","]) ts)) ++ lit ")"
      end
  | Prefixed c t =>
      if decide (c = Type_VarArgs) then lit "VarArgs<" ++ pretty t ++ lit ">"
      else if decide (c = Type_Optional) then lit "Optional<" ++ pretty t ++ lit ">"
      else lit "BUG"
  end.

(** ** Lemmas *)

Section convert.
Context (rsn : bool).

Fixpoint convert_children (its itd : list Signature) (childErr : f32) {struct itd} : option f32 :=
  match itd, its with
  | y :: itd', x :: its' =>
      childRes ← isConvertibleTo rsn x y;
      if f32_eqb childRes f32_zero then Some f32_zero
      else convert_children its' itd' (lower_child_error childErr childRes)
  | _, _ => Some (calculateFactor f32_zero childErr)
  end.

Lemma isConvertibleTo_step a b :
  isConvertibleTo rsn a b =
  let s := varargs_as_list (type a) in
  let d := varargs_as_list (type b) in
  if decide (d = Type_Void) then Some (calculateFactor f32_zero f32_one)
  else if decide (d = Type_Unknown) then
    Some (calculateFactor
      (if decide (s <> Type_Unknown) then f32_add f32_zero (f32_of_Z 10) else f32_zero) f32_one)
  else if decide (d = Type_Dynamic \/ s = Type_None) then
    Some (calculateFactor (f32_add f32_zero (f32_of_Z 5)) f32_one)
  else if decide (d = Type_Optional) then
    if decide (s = Type_Optional) then
      match children a, children b with
      | va :: _, vb :: _ => isConvertibleTo rsn va vb
      | _, _ => None
      end
    else if decide (s = Type_Void) then Some (calculateFactor f32_zero f32_one)
    else match children b with
         | vb :: _ => isConvertibleTo rsn a vb
         | [] => None
         end
  else if decide (s = Type_Optional) then Some f32_zero
  else if strchr numeric s then
    if negb (strchr numeric d) then Some f32_zero
    else Some (calculateFactor (numeric_error s d) f32_one)
  else if strchr container s then
    if decide (d <> s) then Some f32_zero
    else if decide (length (children a) <> length (children b)) then
      if decide (s <> Type_Tuple) then Some f32_zero
      else Some (tuple_mismatch_score rsn (annotation a) (annotation b))
    else convert_children (children a) (children b) f32_one
  else if decide (d <> s) then Some f32_zero
  else Some (calculateFactor f32_zero f32_one).
Proof using Type. destruct b. reflexivity. Qed.

Lemma varargs_as_list_char c x : varargs_as_list c = x -> x <> Type_List -> c = x.
Proof using Type. unfold varargs_as_list. case_decide; congruence. Qed.

Lemma convert_children_spec its itd childErr r :
  Forall (fun y => forall x r, isConvertibleTo rsn x y = Some r ->
    f32_eqb r f32_zero = false -> convertible rsn x y) itd ->
  length its = length itd ->
  convert_children its itd childErr = Some r -> f32_eqb r f32_zero = false ->
  Forall2 (convertible rsn) its itd.
Proof using Type.
  intros H. revert its childErr. induction H as [|y itd Hy _ IH];
    intros [|x its] childErr Hlen Hr Hz; try done.
  cbn [convert_children] in Hr. apply bind_Some in Hr as (cr & Hcr & Hr).
  destruct (f32_eqb cr f32_zero) eqn:Hcz.
  { injection Hr as <-. done. }
  constructor; [by eapply Hy|]. eapply IH; [|done..]. by injection Hlen.
Qed.
End convert.

(** A non-zero score of [isConvertibleTo] is always justified: the source
    then converts to the destination by the rules of [convertible]. *)
Theorem isConvertibleTo_sound rsn a b r :
  isConvertibleTo rsn a b = Some r -> f32_eqb r f32_zero = false -> convertible rsn a b.
Proof.
  revert a r. induction b as [t cs IH] using Signature_nested_ind. intros a r.
  rewrite isConvertibleTo_step. cbn [children] in *. set (b := Sig t cs) in *. cbv zeta.
  assert (forall x, x = f32_zero -> f32_eqb x f32_zero = false -> False) as Hz by (by intros x ->).
  case_decide as H1; [intros _ _; by apply conv_void|].
  case_decide as H2; [intros _ _; by apply conv_unknown|].
  case_decide as H3.
  { intros _ _. destruct H3 as [H3|H3]; [by apply conv_dynamic|].
    apply conv_none. by eapply varargs_as_list_char. }
  case_decide as H4.
  { apply varargs_as_list_char in H4; [|done]. case_decide as H5.
    - destruct (children a) as [|va ra] eqn:Ha; [done|]. destruct cs as [|vb rb]; [done|].
      inversion IH; subst. intros. eapply (conv_optional _ a b); eauto.
      by eapply varargs_as_list_char.
    - case_decide as H6.
      + intros _ _. apply conv_void_optional; [done|]. by eapply varargs_as_list_char.
      + destruct cs as [|vb rb]; [done|]. inversion IH; subst. intros.
        eapply (conv_to_optional _ a b); eauto. }
  case_decide as H5; [intros [= <-]; by intros ?%Hz|].
  destruct (strchr numeric _) eqn:H6 in |- *.
  { destruct (strchr numeric (varargs_as_list (type b))) eqn:H7; cbn; [|intros [= <-]; by intros ?%Hz].
    intros _ _. unfold varargs_as_list in *.
    apply conv_numeric; repeat case_decide; subst; try done; by apply Is_true_true. }
  destruct (strchr container _) eqn:H7 in |- *.
  - case_decide as H8; [intros [= <-]; by intros ?%Hz|].
    case_decide as H9.
    + case_decide as H10; [intros [= <-]; by intros ?%Hz|].
      intros [= <-] Hr. apply varargs_as_list_char in H10; [|done].
      rewrite H10 in H8. apply varargs_as_list_char in H8; [|done].
      apply conv_struct_versions; [done..|]. clear -Hr Hz. revert Hr.
      unfold tuple_mismatch_score. repeat case_match; try done; intros ?%Hz; done.
    + intros Hr Hrz. apply conv_container; [done|].
      eapply convert_children_spec; [|done..]. done.
  - case_decide as H8; [intros [= <-]; by intros ?%Hz|].
    intros _ _. by apply conv_same.
Qed.

Lemma isConvertibleTo_sound_witness :
  let a := sig_of (Bracket BTuple [Elem "i" None] None) in
  let b := sig_of (Bracket BTuple [Prefixed "+" (Elem "f" None)] None) in
  convertible true a b.
Proof.
  intros a b. apply (isConvertibleTo_sound true a b (SpecFloat.S754_finite false 16458449 (-24)));
    vm_compute; reflexivity.
Defined.

(** Every optional has a child, hereditarily. *)
Inductive optional_children : Signature -> Prop :=
  | optional_children_intro s :
      (type s = Type_Optional -> children s <> []) ->
      Forall optional_children (children s) -> optional_children s.

Lemma optional_children_sig_of t : wf t -> optional_children (sig_of t).
Proof.
  induction t as [c a|k ts a IH|c t IH] using elt_nested_ind; intros Hwf;
    pose proof (wf_head_char _ Hwf) as Hh; constructor; rewrite ?type_head_char; cbn in *.
  - by intros ->.
  - constructor.
  - destruct k; done.
  - rewrite !andb_True in Hwf. destruct Hwf as [[[Hts _] _] _].
    apply List.Forall_map. induction IH as [|t ts Ht _ IH]; cbn in *; constructor;
      rewrite andb_True in Hts; [apply Ht|apply IH]; tauto.
  - done.
  - rewrite andb_True in Hwf. constructor; [tauto|constructor].
Qed.

Lemma convert_children_defined rsn its itd childErr :
  Forall (fun y => forall x, optional_children x -> is_Some (isConvertibleTo rsn x y)) itd ->
  Forall optional_children its -> is_Some (convert_children rsn its itd childErr).
Proof.
  intros H. revert its childErr. induction H as [|y itd Hy _ IH]; intros its childErr Hi; [done|].
  destruct Hi as [|x its Hx Hi]; [done|]. cbn [convert_children].
  destruct (Hy x Hx) as [r ->]. cbn [mbind option_bind]. case_match; [done|]. by apply IH.
Qed.

Lemma isConvertibleTo_total rsn a b :
  optional_children a -> optional_children b -> is_Some (isConvertibleTo rsn a b).
Proof.
  revert a. induction b as [t cs IH] using Signature_nested_ind. intros a Ha Hb.
  inversion Ha as [? Ha1 Ha2]; subst. inversion Hb as [? Hb1 Hb2]; subst.
  cbn [children] in *. rewrite isConvertibleTo_step. cbn [children]. cbv zeta.
  assert (Forall (fun y => forall x, optional_children x -> is_Some (isConvertibleTo rsn x y)) cs) as IH'.
  { rewrite Forall_forall in *. auto. }
  case_decide; [done|]. case_decide; [done|]. case_decide; [done|]. case_decide as Hd.
  - apply varargs_as_list_char in Hd; [|done]. specialize (Hb1 Hd).
    destruct cs as [|vb rb]; [done|]. inversion IH'; subst. case_decide as Hs.
    + apply varargs_as_list_char in Hs; [|done]. specialize (Ha1 Hs).
      destruct (children a) as [|va ra]; [done|]. inversion Ha2; subst. auto.
    + case_decide; auto.
  - repeat case_match; try done. by apply convert_children_defined.
Qed.

(** [isConvertibleTo] never reads past the children of a parsed
    signature: between two accepted signatures it always returns a score. *)
Theorem isConvertibleTo_defined rsn s1 s2 a b :
  Signature_new s1 = Ok a -> Signature_new s2 = Ok b -> is_Some (isConvertibleTo rsn a b).
Proof.
  intros (t & Ht & _ & ->)%Signature_new_spec (u & Hu & _ & ->)%Signature_new_spec.
  apply isConvertibleTo_total; by apply optional_children_sig_of.
Qed.

Lemma isConvertibleTo_defined_witness :
  is_Some (isConvertibleTo true (sig_of (Elem "i" None)) (sig_of (Prefixed "+" (Elem "m" None)))).
Proof.
  apply (isConvertibleTo_defined true (lit "i") (lit "+m")); vm_compute; reflexivity.
Defined.

(** Converting a concrete signature to itself is an identity: its score
    is exactly 1, whatever its nesting. *)
Theorem isConvertibleTo_refl rsn t :
  wf t -> concrete t -> isConvertibleTo rsn (sig_of t) (sig_of t) = Some f32_one.
Proof.
  assert (calculateFactor f32_zero f32_one = f32_one) as Hone by reflexivity.
  assert (lower_child_error f32_one f32_one = f32_one) as Hlow by reflexivity.
  assert (forall cs, Forall (fun s => isConvertibleTo rsn s s = Some f32_one) cs ->
    convert_children rsn cs cs f32_one = Some f32_one) as Hcs.
  { induction 1 as [|c cs Hc _ IH]; cbn [convert_children]; [by rewrite Hone|].
    rewrite Hc. cbn [mbind option_bind]. change (f32_eqb f32_one f32_zero) with false.
    by rewrite Hlow. }
  induction t as [c a|k ts a IH|c t IH] using elt_nested_ind; intros Hwf Hc;
    rewrite isConvertibleTo_step; cbv zeta; rewrite !type_head_char; cbn [head_char].
  - cbn [concrete wf] in *. rewrite andb_True in *. destruct Hc as [H1%bool_decide_unpack H2%bool_decide_unpack].
    destruct Hwf as [Hwf%bool_decide_unpack _].
    assert (c ∈ elementary_types) as Hin by (unfold type_switch in Hwf; repeat case_decide; done).
    apply list_elem_of_In in Hin. cbn in Hin.
    repeat (destruct Hin as [<-|Hin]; [done|]). done.
  - assert (Forall (fun s => isConvertibleTo rsn s s = Some f32_one) (children (sig_of (Bracket k ts a)))) as Hall.
    { cbn [concrete wf sig_of children] in *. rewrite !andb_True in Hwf. destruct Hwf as [[[Hts _] _] _].
      apply List.Forall_map. induction IH as [|t ts Ht _ IH]; cbn in *; constructor;
        rewrite andb_True in *; [apply Ht|apply IH]; tauto. }
    rewrite (Hcs _ Hall).
    replace (varargs_as_list (bracket_open k)) with (bracket_open k) by (by destruct k).
    replace (strchr numeric (bracket_open k)) with false by (by destruct k).
    replace (strchr container (bracket_open k)) with true by (by destruct k).
    rewrite !decide_False by (destruct k; intuition discriminate).
    done.
  - cbn [wf concrete sig_of children] in *. rewrite andb_True in Hwf.
    destruct Hwf as [Hp%bool_decide_unpack Ht]. specialize (IH Ht Hc).
    specialize (Hcs [sig_of t] ltac:(by repeat constructor)). rewrite Hcs, IH.
    assert (c = "#" \/ c = "~" \/ c = "+") as [-> | [-> | ->]]; [|done..].
    assert (c ∈ [Type_VarArgs; Type_KwArgs; Type_Optional]) as Hin
      by (unfold type_switch in Hp; repeat case_decide; done).
    apply list_elem_of_In in Hin. cbn in Hin. intuition.
Qed.

Lemma isConvertibleTo_refl_witness :
  let t := Bracket BTuple [Elem "i" None; Prefixed "+" (Bracket BList [Elem "s" None] None)] None in
  isConvertibleTo true (sig_of t) (sig_of t) = Some f32_one.
Proof. intros t. exact (isConvertibleTo_refl true t I I). Defined.

(** A score of zero does not mean that the conversion is impossible, as
    [qi/signature.hpp] documents: the product of the scores of the children
    underflows. Every field of [record_v1 54] converts to the corresponding
    field of [record_v2 54] with the score 0.1 of two versions of a structure,
    the records are of the same arity, and the score is zero, whereas it is
    not for records of 53 fields. *)
Theorem isConvertibleTo_underflow :
  exists a b, Signature_new (record_v1 54) = Ok a /\ Signature_new (record_v2 54) = Ok b /\
    convertible true a b /\ isConvertibleTo true a b = Some f32_zero /\
    (exists a' b' r, Signature_new (record_v1 53) = Ok a' /\ Signature_new (record_v2 53) = Ok b' /\
       isConvertibleTo true a' b' = Some r /\ f32_eqb r f32_zero = false).
Proof.
  set (f1 := Sig (lit "(i)<P,a>") [Sig (lit "i") []]).
  set (f2 := Sig (lit "(ii)<P,a,b>") [Sig (lit "i") []; Sig (lit "i") []]).
  exists (Sig (record_v1 54) (repeat f1 54)), (Sig (record_v2 54) (repeat f2 54)).
  split; [vm_compute; reflexivity|]. split; [vm_compute; reflexivity|]. split.
  - apply conv_container; [vm_compute; reflexivity|]. cbn [children].
    apply Forall2_replicate || (generalize 54; intros n; induction n; cbn; constructor; [|done]).
    all: apply conv_struct_versions; vm_compute; reflexivity.
  - split; [vm_compute; reflexivity|].
    exists (Sig (record_v1 53) (repeat f1 53)), (Sig (record_v2 53) (repeat f2 53)).
    eexists. repeat (split; [vm_compute; reflexivity|]). vm_compute. reflexivity.
Qed.

(** ** The pretty printer *)

Lemma join_members_pretty ts :
  Forall (fun t => visit (sig_of t) = Ok (pretty t)) ts ->
  join_members (map visit (map sig_of ts))
  = Ok (concat (List.removelast (flat_map (fun t => [pretty t; lit ","]) ts))).
Proof.
  induction 1 as [|t ts Ht _ IH]; [done|]. cbn [map join_members]. rewrite Ht.
  destruct ts as [|t' ts]; [cbn; by rewrite app_nil_r|]. cbn [map] in *. rewrite IH.
  cbn [mbind result_bind]. unfold mret, result_ret. f_equal.
Qed.

Lemma visit_step sig :
  visit sig =
  let visited := map visit (children sig) in
  let at_ n := match visited !! n with Some r => r | None => Err OutOfRange end in
  let c := type sig in
  let one name := x ← at_ 0; mret (lit name ++ x ++ lit ">") in
  if decide (c = Type_List) then one "List<"%string
  else if decide (c = Type_Map) then
    x ← at_ 0; y ← at_ 1; mret (lit "Map<" ++ x ++ lit "," ++ y ++ lit ">")
  else if decide (c = Type_Tuple) then
    match annotation sig, split_on "," (annotation sig) with
    | _ :: _, name :: _ => mret name
    | _, _ => x ← join_members visited; mret (lit "(" ++ x ++ lit ")")
    end
  else if decide (c = Type_VarArgs) then one "VarArgs<"%string
  else if decide (c = Type_Optional) then one "Optional<"%string
  else mret (visitSimple c).
Proof. by destruct sig. Qed.

Lemma split_on_cons sep s : exists w ws, split_on sep s = w :: ws.
Proof.
  induction s as [|c s (w & ws & IH)]; cbn; [eauto|]. case_decide; [eauto|]. rewrite IH. eauto.
Qed.

Lemma visit_bracket k ts a :
  wf (Bracket k ts a) -> Forall (fun t => visit (sig_of t) = Ok (pretty t)) ts ->
  visit (sig_of (Bracket k ts a)) = Ok (pretty (Bracket k ts a)).
Proof.
  intros Hwf Hts. rewrite visit_step. cbv zeta. rewrite annotation_sig_of by done.
  rewrite type_head_char. cbn [head_char sig_of children last_annotation].
  pose proof (join_members_pretty _ Hts) as Hjoin.
  cbn [wf] in Hwf. rewrite !andb_True in Hwf. destruct Hwf as [[[_ Hk%bool_decide_unpack] _] _].
  destruct k; cbn [bracket_open pretty].
  - rewrite decide_True by done. destruct Hts as [|t ts Ht Hts]; [cbn in Hk; lia|].
    destruct Hts; [|cbn in Hk; lia]. cbn [map lookup list_lookup]. rewrite Ht.
    cbn. by rewrite app_nil_r.
  - rewrite decide_False, decide_True by done.
    destruct Hts as [|t ts Ht Hts]; [cbn in Hk; lia|].
    destruct Hts as [|u ts Hu Hts]; [cbn in Hk; lia|]. destruct Hts; [|cbn in Hk; lia].
    cbn [map lookup list_lookup]. rewrite Ht, Hu. cbn. by rewrite app_nil_r, <- app_assoc.
  - rewrite decide_False, decide_False, decide_True by done.
    destruct a as [[|c x]|]; cbn [default from_option id]; [by rewrite Hjoin| |by rewrite Hjoin]; unfold id.
    by destruct (split_on_cons "," (c :: x)) as (w & ws & ->).
Qed.

Lemma visit_pretty t : wf t -> visit (sig_of t) = Ok (pretty t).
Proof.
  induction t as [c a|k ts a IH|c t IH] using elt_nested_ind; intros Hwf;
    pose proof (wf_head_char _ Hwf) as Hh.
  - rewrite visit_step. cbv zeta. rewrite type_head_char. cbn [head_char] in *.
    rewrite !(decide_False (P := c = _)) by (intros ->; done). done.
  - apply visit_bracket; [done|]. cbn [wf] in Hwf. rewrite !andb_True in Hwf.
    destruct Hwf as [[[Hts _] _] _].
    induction IH as [|t ts Ht _ IH]; cbn in *; constructor; rewrite andb_True in Hts;
      [apply Ht|apply IH]; tauto.
  - rewrite visit_step. cbv zeta. rewrite type_head_char. cbn [wf head_char] in *.
    rewrite andb_True in Hwf. destruct Hwf as [_ Ht].
    rewrite 3!(decide_False (P := c = _)) by (intros ->; done). cbn [pretty].
    cbn [sig_of children map lookup list_lookup]. rewrite (IH Ht). cbn [mbind result_bind].
    case_decide; [done|]. case_decide; [done|]. unfold mret, result_ret. f_equal.
    unfold type_switch in Hh. unfold visitSimple.
    rewrite !(decide_False (P := c = _)) by (intros ->; done). done.
Qed.

(** [toPrettySignature] raises no exception on a parsed signature, and
    prints the term: "Invalid" for the none type, the name of a named tuple,
    and otherwise its structure. *)
Theorem toPrettySignature_correct t :
  wf t -> toPrettySignature (sig_of t) =
    Ok (if decide (head_char t = Type_None) then lit "Invalid" else pretty t).
Proof.
  intros Hwf. unfold toPrettySignature, isValid. rewrite type_head_char.
  case_decide as Hn; [by rewrite bool_decide_eq_false_2 by tauto|].
  rewrite bool_decide_eq_true_2 by done. by apply visit_pretty.
Qed.

Lemma toPrettySignature_correct_witness :
  toPrettySignature (sig_of (Bracket BMap [Elem "s" None; Prefixed "~" (Elem "m" None)] None))
  = Ok (lit "Map<String,BUG>").
Proof.
  exact (toPrettySignature_correct
    (Bracket BMap [Elem "s" None; Prefixed "~" (Elem "m" None)] None) I).
Defined.
