(* ===== verification/ConvertScore.v ===== *)
(** * ConvertScore: the scores of conversions

    The score that [isConvertibleTo] gives is a number from 0 to 1: roundings included, a
    product of such numbers is one, and so is the difference to 1. *)
From Corelib Require Import SpecFloat.
From S2P Require Import Prelude CString Signature SignatureGrammar SignatureProperties Float32 SignatureConvert.
Open Scope Z_scope.

(** ** Definitions *)

(** From 0 to 1. *)
Definition in_unit (f : f32) : bool :=
  match f with
  | S754_zero false => true
  | S754_finite false m e => (e <=? 0) && (Z.pos m <=? 2 ^ (- e))
  | _ => false
  end.

(** A mantissa with its exponent is not above 1. *)
Definition below_one (m e : Z) : Prop := 0 <= m <= 2 ^ (- e) /\ e <= 0.

(** What [shr_1] has done to a mantissa, [k] times: the bits that were dropped are in the
    flags. *)
Definition shifted (m : Z) (k : Z) (r : shr_record) : Prop :=
  0 <= shr_m r /\ shr_m r * 2 ^ k <= m /\ (shr_r r || shr_s r = true <-> shr_m r * 2 ^ k < m).

(** ** Rounding *)

Lemma shr_1_shifted m k r : 0 <= k -> shifted m k r -> shifted m (k + 1) (shr_1 r).
Proof.
  intros Hk (Hq & Hl & Hf). unfold shifted. rewrite Z.pow_add_r by lia. change (2 ^ 1) with 2.
  assert (0 < 2 ^ k) as Hp by lia. set (w := 2 ^ k) in *. destruct r as [q a b]. cbn [shr_m shr_r shr_s] in *.
  assert (exists h c, shr_1 (Build_shr_record q a b) = Build_shr_record h c (a || b) /\ 0 <= h /\ q = 2 * h + Z.b2z c) as (h & c & -> & Hh & ->).
  { destruct q as [|[q|q|]|q]; [| | | |lia]; cbn [shr_1]; eexists _, _; (split; [reflexivity|]); cbn; lia. }
  cbn [shr_m shr_r shr_s]. replace (h * (w * 2)) with (2 * (h * w)) by lia. replace ((2 * h + Z.b2z c) * w) with (2 * (h * w) + Z.b2z c * w) in * by lia.
  split; [done|]. destruct c; cbn [Z.b2z orb] in *; (split; [lia|]).
  - split; [lia|done].
  - rewrite Hf. lia.
Qed.

Lemma iter_shifted p m k r : 0 <= k -> shifted m k r -> shifted m (k + Z.pos p) (SpecFloat.iter_pos shr_1 p r).
Proof.
  revert k r. induction p as [p IH|p IH|]; intros k r Hk H; cbn [SpecFloat.iter_pos].
  - replace (k + Z.pos p~1) with (k + 1 + Z.pos p + Z.pos p) by lia. apply IH; [lia|]. apply IH; [lia|]. by apply shr_1_shifted.
  - replace (k + Z.pos p~0) with (k + Z.pos p + Z.pos p) by lia. apply IH; [lia|]. by apply IH.
  - by apply shr_1_shifted.
Qed.

Lemma digits_bound p : 2 ^ (Z.pos (digits2_pos p) - 1) <= Z.pos p.
Proof.
  assert (forall d, Z.pos (Pos.succ d) - 1 = Z.succ (Z.pos d - 1)) as Hs by lia.
  induction p as [p IH|p IH|]; cbn [digits2_pos]; [| |done]; rewrite Hs, Z.pow_succ_r by lia; lia.
Qed.

(** The exponent after the shift: it is not above -23 when bits are dropped. *)
Lemma fexp_bound m e : below_one m e -> fexp f32_prec f32_emax (Zdigits2 m + e) <= - 23 \/ fexp f32_prec f32_emax (Zdigits2 m + e) <= e.
Proof.
  intros [[Hm Hu] He]. unfold fexp, emin, f32_prec, f32_emax. destruct m as [|p|p]; cbn [Zdigits2]; [lia| |lia].
  pose proof (digits_bound p). assert (Z.pos (digits2_pos p) - 1 <= - e); [|lia]. apply (Z.pow_le_mono_r_iff 2); lia.
Qed.

Lemma shr_fexp_below m e : below_one m e ->
  exists r e', shr_fexp f32_prec f32_emax m e loc_Exact = (r, e') /\ below_one (shr_m r) e' /\
    (shr_r r || shr_s r = true -> below_one (shr_m r + 1) e').
Proof.
  intros H. pose proof (fexp_bound m e H) as Hx. destruct H as [[Hm Hu] He]. unfold shr_fexp, shr_record_of_loc.
  set (x := fexp _ _ _) in *. destruct (x - e) as [|p|p] eqn:Ep; cbn [shr].
  - eexists _, _. split; [done|]. split; [done|]. done.
  - assert (x = e + Z.pos p) as Ex by lia. assert (x <= -23) by lia.
    assert (shifted m 0 (Build_shr_record m false false)) as H0 by (repeat split; cbn; [lia|lia|done|lia]).
    pose proof (iter_shifted p m 0 _ ltac:(lia) H0) as (H1 & H2 & H3). rewrite Z.add_0_l in H2, H3. eexists _, _. split; [done|].
    set (r := SpecFloat.iter_pos _ _ _) in *. assert (2 ^ (- e) = 2 ^ (- (e + Z.pos p)) * 2 ^ Z.pos p) as Eu by (rewrite <- Z.pow_add_r by lia; f_equal; lia).
    assert (0 < 2 ^ Z.pos p) by lia. split; [split; [nia|lia]|]. intros Hr%H3. split; [|lia]. split; [lia|].
    assert (shr_m r < 2 ^ (- (e + Z.pos p))) by nia. lia.
  - eexists _, _. split; [done|]. split; [done|]. done.
Qed.

Lemma round_unit m e : below_one m e -> in_unit (binary_round_aux f32_prec f32_emax false m e loc_Exact) = true.
Proof.
  intros H. unfold binary_round_aux. destruct (shr_fexp_below m e H) as (r & e1 & -> & H1 & H2).
  assert (below_one (round_nearest_even (shr_m r) (loc_of_shr_record r)) e1) as H3.
  { destruct r as [q [] []]; cbn in *; auto. destruct (Z.even q); auto. }
  destruct (shr_fexp_below _ _ H3) as (r2 & e2 & -> & [[Hm Hu] He] & _). destruct (shr_m r2) as [|p|p]; [done| |lia].
  destruct (Z.leb_spec e2 (f32_emax - f32_prec)) as [_|Hx]; [|unfold f32_emax, f32_prec in Hx; lia]. cbn.
  apply andb_true_intro. split; by apply Z.leb_le.
Qed.

(** ** Arithmetic *)

Lemma in_unit_cases f : in_unit f = true -> f = S754_zero false \/ exists m e, f = S754_finite false m e /\ below_one (Z.pos m) e.
Proof.
  destruct f as [[]|[]| |[] m e]; cbn; try done; [by left|]. intros H. apply andb_prop in H as [H1 H2].
  right. exists m, e. apply Z.leb_le in H1, H2. split; [done|]. split; lia.
Qed.

Lemma mul_unit x y : in_unit x = true -> in_unit y = true -> in_unit (f32_mul x y) = true.
Proof.
  intros [->|(m & e & -> & [[H1 H2] H3])]%in_unit_cases [->|(m' & e' & -> & [[H1' H2'] H3'])]%in_unit_cases; try done.
  unfold f32_mul, SFmul. cbn [xorb]. apply round_unit. split; [|lia]. rewrite Z.opp_add_distr, Z.pow_add_r by lia. nia.
Qed.

Lemma shl_align_value m e e' : e' <= e -> shl_align m e e' = (fst (shl_align m e e'), e') /\ Z.pos (fst (shl_align m e e')) = Z.pos m * 2 ^ (e - e').
Proof.
  intros H. unfold shl_align. destruct (e' - e) as [|d|d] eqn:E; [|lia|].
  - assert (e = e') as -> by lia. cbn. rewrite Z.sub_diag. split; [done|lia].
  - cbn. split; [done|]. replace (e - e') with (Z.pos d) by lia. clear. induction d as [|d IH] using Pos.peano_ind; [cbn; lia|].
    rewrite Pos.iter_succ, Pos2Z.inj_succ, Z.pow_succ_r by lia. rewrite Pos2Z.inj_xO, IH. lia.
Qed.

Lemma binary_round_unit m e : below_one (Z.pos m) e -> in_unit (binary_round f32_prec f32_emax false m e) = true.
Proof.
  intros H. unfold binary_round. set (e' := fexp _ _ _). destruct (Z.le_gt_cases e' e) as [He|He].
  - destruct (shl_align_value m e e' He) as [Ev Hv]. rewrite Ev. apply round_unit. destruct H as [[H1 H2] H3]. rewrite Hv. split; [|lia].
    replace (- e') with (- e + (e - e')) by lia. rewrite Z.pow_add_r by lia. nia.
  - unfold shl_align. destruct (e' - e) eqn:E; [lia| |lia]. by apply round_unit.
Qed.

Lemma one_minus_unit x : in_unit x = true -> in_unit (f32_sub f32_one x) = true.
Proof.
  intros [->|(m & e & -> & [[H1 H2] H3])]%in_unit_cases; [done|].
  change f32_one with (S754_finite false 8388608 (-23)). unfold f32_sub, SFsub. cbn [cond_Zopp]. set (ez := Z.min (-23) e).
  destruct (shl_align_value 8388608 (-23) ez ltac:(lia)) as [_ ->]. destruct (shl_align_value m e ez ltac:(lia)) as [_ ->].
  assert (8388608 * 2 ^ (-23 - ez) = 2 ^ (- ez)) as ->.
  { change 8388608 with (2 ^ 23). rewrite <- Z.pow_add_r by lia. f_equal. lia. }
  assert (Z.pos m * 2 ^ (e - ez) <= 2 ^ (- ez)) as Hb.
  { replace (- ez) with (- e + (e - ez)) by lia. rewrite (Z.pow_add_r 2 (- e)) by lia. nia. }
  assert (0 < Z.pos m * 2 ^ (e - ez)) by nia. destruct (2 ^ (- ez) - Z.pos m * 2 ^ (e - ez)) as [|d|d] eqn:Ed; [done| |lia].
  cbn [binary_normalize]. apply binary_round_unit. split; [lia|lia].
Qed.

(** ** The score *)

Lemma factor_unit c : in_unit c = true -> in_unit (calculateFactor f32_zero c) = true.
Proof. intros H. apply mul_unit; [done|]. by vm_compute. Qed.

Lemma lower_unit c r : in_unit c = true -> in_unit r = true -> in_unit (lower_child_error c r) = true.
Proof. intros Hc Hr. apply mul_unit; [done|]. apply one_minus_unit, mul_unit; [by apply one_minus_unit|by vm_compute]. Qed.

Lemma numeric_unit s d : in_unit (calculateFactor (numeric_error s d) f32_one) = true.
Proof.
  unfold numeric_error. destruct (strchr integral s && strchr floating d), (strchr floating s && strchr integral d),
    (bool_decide (s <> "b"%char) && bool_decide (d = "b"%char)); by vm_compute.
Qed.

Lemma children_unit rsn its itd c r :
  Forall (fun y => forall x r, isConvertibleTo rsn x y = Some r -> in_unit r = true) itd -> in_unit c = true ->
  convert_children rsn its itd c = Some r -> in_unit r = true.
Proof.
  intros H. revert its c. induction H as [|y itd Hy _ IH]; intros its c Hc; cbn [convert_children]; [intros [= <-]; by apply factor_unit|].
  destruct its as [|x its]; [intros [= <-]; by apply factor_unit|]. intros (cr & Hcr & Hr)%bind_Some.
  destruct (f32_eqb cr f32_zero); [by injection Hr as <-|]. apply (IH its (lower_child_error c cr)); [|done]. apply lower_unit; [done|by eapply Hy].
Qed.

(** The score of a conversion is a number from 0 to 1. *)
Lemma score_unit rsn a b r : isConvertibleTo rsn a b = Some r -> in_unit r = true.
Proof.
  revert a r. induction b as [t cs IH] using Signature_nested_ind. intros a r. rewrite isConvertibleTo_step. cbn [children] in *. cbv zeta.
  set (s := varargs_as_list (type a)). set (d := varargs_as_list (type (Sig t cs))).
  case_decide; [intros [= <-]; by vm_compute|]. case_decide; [intros [= <-]; case_decide; by vm_compute|]. case_decide; [intros [= <-]; by vm_compute|].
  case_decide.
  { destruct cs as [|vb rb]; [repeat case_match; try done; intros [= <-]; by vm_compute|]. apply Forall_cons in IH as [Hb _].
    case_decide; [destruct (children a) as [|va ra]; [done|apply Hb]|]. case_decide; [intros [= <-]; by vm_compute|apply Hb]. }
  case_decide; [intros [= <-]; done|].
  destruct (strchr numeric s); [destruct (negb _); intros [= <-]; [done|apply numeric_unit]|].
  destruct (strchr container s); [|case_decide; intros [= <-]; by vm_compute].
  case_decide; [intros [= <-]; done|]. case_decide; [|by apply children_unit].
  case_decide; intros [= <-]; [done|]. unfold tuple_mismatch_score. repeat case_match; by vm_compute.
Qed.

Lemma unit_not_nan f : in_unit f = true -> f <> S754_nan.
Proof. by intros H ->. Qed.

(** C21. For any two texts that the constructor of signatures accepts the
    conversion score is computed, whatever the texts, and it is between 0 and 1:
    never NaN, infinite or negative. *)
Theorem isConvertibleTo_range rsn s1 s2 a b : Signature_new s1 = Ok a -> Signature_new s2 = Ok b ->
  exists r, isConvertibleTo rsn a b = Some r /\ in_unit r = true.
Proof.
  intros (t & Ht & _ & ->)%Signature_new_spec (u & Hu & _ & ->)%Signature_new_spec.
  destruct (isConvertibleTo_total rsn (sig_of t) (sig_of u)) as [r E]; [by apply optional_children_sig_of..|].
  exists r. split; [done|by eapply score_unit].
Qed.

Lemma isConvertibleTo_range_witness :
  let a := sig_of (Bracket BTuple [Elem "i" None; Prefixed "+" (Elem "s" None)] None) in
  let b := sig_of (Bracket BTuple [Elem "f" None; Prefixed "+" (Elem "m" None)] None) in
  exists r, isConvertibleTo true a b = Some r /\ in_unit r = true.
Proof. intros a b. apply (isConvertibleTo_range true (lit "(i+s)") (lit "(f+m)")); vm_compute; reflexivity. Defined.
