(* ===== verification/Version.v ===== *)
(** * Version: the comparison of version strings ([src/version.cpp]) *)
From S2P Require Import Prelude CString.
#[local] Open Scope char_scope.
#[local] Open Scope list_scope.
#[local] Open Scope Z_scope.

(** ** Definitions *)

(** [eat_number] and [eat_alpha]: the run of digits, or of letters, at the
    start of a string, and what follows. *)
Definition eat_number (s : bytes) : bytes * bytes := span isdigit s.
Definition eat_alpha (s : bytes) : bytes * bytes := span isalpha s.

Fixpoint explode_loop (fuel : nat) (s : bytes) : list bytes :=
  match fuel, s with
  | O, _ | _, [] => []
  | S f, c :: s' =>
      if isdigit c then let '(w, r) := eat_number s in w :: explode_loop f r
      else if isalpha c then let '(w, r) := eat_alpha s in w :: explode_loop f r
      else [c] :: explode_loop f s'
  end.

(** [explode]: a version string cut into numbers, words and single other
    characters. *)
Definition explode (version : bytes) : list bytes :=
  explode_loop (length version) version.

(** [atoi], as the C library computes it: [strtol] converted to [int]. *)
Definition wrap_int (n : Z) : Z := (n + 2 ^ 31) mod 2 ^ 32 - 2 ^ 31.
Definition atoi (s : bytes) : Z := wrap_int (strtol s).1.1.

Definition starts_digit (s : bytes) : bool :=
  match s with c :: _ => isdigit c | [] => false end.

Definition compare_sub (subA subB : bytes) : Z :=
  let digitA := starts_digit subA in
  let digitB := starts_digit subB in
  if digitA && negb digitB then -1
  else if negb digitA && digitB then 1
  else if digitA && digitB then
    if decide (atoi subA > atoi subB) then 1
    else if decide (atoi subA < atoi subB) then -1 else 0
  else match str_compare subA subB with Gt => 1 | Lt => -1 | Eq => 0 end.

(** Whether a component is a separator; the flags [sepA] and [sepB] of the
    loop are only assigned for components that are not numbers. *)
Definition is_separator (c : bytes) : bool :=
  bool_decide (c = lit ".") || bool_decide (c = lit "-").
Definition update_sep (c : bytes) (sep : bool) : bool :=
  if starts_digit c then sep else is_separator c.

Fixpoint compare_loop (vA vB : list bytes) (sepA sepB : bool) {struct vA} : Z :=
  let cA := hd [] vA in
  let cB := hd [] vB in
  if decide (cA = [] /\ cB = []) then 0
  else if decide (cA = []) then -1
  else if decide (cB = []) then 1
  else
    let sepA := update_sep cA sepA in
    let sepB := update_sep cB sepB in
    if sepA && negb sepB then -1
    else if negb sepA && sepB then 1
    else
      let ret := compare_sub cA cB in
      if decide (ret <> 0) then ret
      else match vA with
           | [] => 0
           | _ :: vA' => compare_loop vA' (tl vB) sepA sepB
           end.

(** [qi::version::compare] *)
Definition compare (versionA versionB : bytes) : Z :=
  compare_loop (explode versionA) (explode versionB) false false.

(** The operators of the class [Version]. *)
Definition version_lt (a b : bytes) : bool := bool_decide (compare a b < 0).
Definition version_eq (a b : bytes) : bool := bool_decide (compare a b = 0).
Definition version_ne (a b : bytes) : bool := negb (version_eq a b).
Definition version_gt (a b : bytes) : bool := version_ne a b && negb (version_lt a b).
Definition version_le (a b : bytes) : bool := negb (version_gt a b).
Definition version_ge (a b : bytes) : bool := negb (version_lt a b).

(** ** Comparators *)

(** A three-way comparator that is a total preorder. *)
Class Comparator {A} (cmp : A -> A -> Z) : Prop := {
  cmp_refl x : cmp x x = 0;
  cmp_anti x y : cmp y x = - cmp x y;
  cmp_trans x y z : cmp x y <= 0 -> cmp y z <= 0 -> cmp x z <= 0;
}.

(** The comparison of two components after a common prefix that left the
    separator flag [sep] on both sides. *)
Definition component_compare (sep : bool) (x y : bytes) : Z :=
  if update_sep x sep && negb (update_sep y sep) then -1
  else if negb (update_sep x sep) && update_sep y sep then 1
  else compare_sub x y.

(** The loop on components that are not empty. *)
Fixpoint components_compare (sep : bool) (vA vB : list bytes) : Z :=
  match vA, vB with
  | [], [] => 0
  | [], _ :: _ => -1
  | _ :: _, [] => 1
  | x :: vA', y :: vB' =>
      let ret := component_compare sep x y in
      if decide (ret <> 0) then ret
      else components_compare (update_sep x sep) vA' vB'
  end.

(** ** Lemmas *)

Section comparator.
Context {A : Type} (cmp : A -> A -> Z) `{!Comparator cmp}.

Lemma cmp_eq_l x y z : cmp x y = 0 -> cmp x z <= 0 <-> cmp y z <= 0.
Proof using All.
  intros H. split; intros Hz.
  - eapply cmp_trans; [|exact Hz]. rewrite cmp_anti. lia.
  - eapply cmp_trans; [|exact Hz]. lia.
Qed.

Lemma cmp_lt_le x y z : cmp x y < 0 -> cmp y z <= 0 -> cmp x z < 0.
Proof using All.
  intros H1 H2. pose proof (cmp_trans (cmp := cmp) x y z). pose proof (cmp_trans (cmp := cmp) y z x).
  pose proof (cmp_anti (cmp := cmp) x z). pose proof (cmp_anti (cmp := cmp) x y). lia.
Qed.

Lemma cmp_le_lt x y z : cmp x y <= 0 -> cmp y z < 0 -> cmp x z < 0.
Proof using All.
  intros H1 H2. pose proof (cmp_trans (cmp := cmp) x y z). pose proof (cmp_trans (cmp := cmp) z x y).
  pose proof (cmp_anti (cmp := cmp) x z). pose proof (cmp_anti (cmp := cmp) y z). lia.
Qed.
End comparator.

(** [str_compare] is a total order. *)
Definition str_cmp (x y : bytes) : Z :=
  match str_compare x y with Gt => 1 | Lt => -1 | Eq => 0 end.

Lemma str_cmp_cons c x d y :
  str_cmp (c :: x) (d :: y) =
  if decide (code c < code d) then -1
  else if decide (code d < code c) then 1 else str_cmp x y.
Proof.
  unfold str_cmp. cbn. destruct (Z.compare_spec (code c) (code d)); repeat case_decide; try lia; done.
Qed.

#[export] Instance str_cmp_comparator : Comparator str_cmp.
Proof.
  split.
  - induction x as [|c x IH]; [done|]. rewrite str_cmp_cons. repeat case_decide; lia.
  - induction x as [|c x IH]; intros [|d y]; try done.
    rewrite !str_cmp_cons. specialize (IH y). repeat case_decide; lia.
  - induction x as [|c x IH]; intros [|d y] [|e z]; try done.
    rewrite !str_cmp_cons. specialize (IH y z). repeat case_decide; lia.
Qed.

Lemma str_cmp_eq x y : str_cmp x y = 0 <-> x = y.
Proof.
  split; [|intros ->; apply cmp_refl].
  revert y. induction x as [|c x IH]; intros [|d y]; try done.
  rewrite str_cmp_cons. repeat case_decide; try lia. intros ->%IH. f_equal.
  assert (N_of_ascii c = N_of_ascii d) as H1 by (unfold code in *; lia).
  by rewrite <- (ascii_N_embedding c), H1, ascii_N_embedding.
Qed.

Lemma compare_sub_str x y :
  compare_sub x y =
  if starts_digit x && negb (starts_digit y) then -1
  else if negb (starts_digit x) && starts_digit y then 1
  else if starts_digit x && starts_digit y then
    if decide (atoi x > atoi y) then 1 else if decide (atoi x < atoi y) then -1 else 0
  else str_cmp x y.
Proof. done. Qed.

#[export] Instance component_comparator sep : Comparator (component_compare sep).
Proof.
  split; intros; unfold component_compare in *; rewrite !compare_sub_str in *.
  - rewrite (cmp_refl (cmp := str_cmp)).
    destruct (update_sep x sep), (starts_digit x); cbn; repeat case_decide; lia.
  - rewrite (cmp_anti (cmp := str_cmp) x y).
    destruct (update_sep x sep), (update_sep y sep), (starts_digit x), (starts_digit y); cbn;
      repeat case_decide; lia.
  - pose proof (cmp_trans (cmp := str_cmp) x y z).
    destruct (update_sep x sep), (update_sep y sep), (update_sep z sep),
      (starts_digit x), (starts_digit y), (starts_digit z); cbn in *;
      repeat case_decide; lia.
Qed.

(** Components that compare equal leave the same flag. *)
Lemma component_compare_eq sep x y :
  component_compare sep x y = 0 -> update_sep x sep = update_sep y sep.
Proof.
  unfold component_compare. destruct (update_sep x sep), (update_sep y sep); done.
Qed.

Lemma components_cons sep x vA y vB :
  components_compare sep (x :: vA) (y :: vB) =
  if decide (component_compare sep x y <> 0) then component_compare sep x y
  else components_compare (update_sep x sep) vA vB.
Proof. done. Qed.

#[export] Instance components_comparator sep : Comparator (components_compare sep).
Proof.
  split.
  - intros v. revert sep. induction v as [|x v IH]; intros sep; [done|].
    rewrite components_cons, cmp_refl, decide_False by tauto. apply IH.
  - intros v. revert sep. induction v as [|x v IH]; intros sep [|y w]; try done.
    rewrite !components_cons, (cmp_anti (cmp := component_compare sep) x y).
    repeat case_decide; try lia.
    rewrite (component_compare_eq sep x y) by lia. apply IH.
  - intros v. revert sep. induction v as [|x v IH]; intros sep [|y w] [|z u]; try done.
    rewrite !components_cons.
    pose proof (cmp_trans (cmp := component_compare sep) x y z) as Ht.
    pose proof (cmp_lt_le (component_compare sep) x y z) as H1.
    pose proof (cmp_le_lt (component_compare sep) x y z) as H2.
    specialize (IH (update_sep x sep) w u).
    destruct (decide (component_compare sep x y = 0)) as [Hxy|Hxy],
      (decide (component_compare sep y z = 0)) as [Hyz|Hyz].
    + assert (component_compare sep x z = 0) as Hxz.
      { pose proof (cmp_eq_l (component_compare sep) x y z Hxy).
        pose proof (cmp_trans (cmp := component_compare sep) z y x) as Hzy.
        pose proof (cmp_anti (cmp := component_compare sep)) as Ha.
        rewrite (Ha x y), (Ha y z), (Ha x z) in Hzy. lia. }
      rewrite Hxy, Hyz, Hxz, !decide_False by tauto.
      rewrite <- (component_compare_eq _ _ _ Hxy). done.
    + rewrite Hxy. rewrite (decide_False (P := 0 <> 0)) by tauto.
      rewrite (decide_True (P := component_compare sep y z <> 0)) by done. intros _ Hle.
      assert (component_compare sep x z < 0) by lia. rewrite decide_True by lia. lia.
    + rewrite Hyz. rewrite (decide_False (P := 0 <> 0)) by tauto.
      rewrite (decide_True (P := component_compare sep x y <> 0)) by done. intros Hle _.
      assert (component_compare sep x z < 0) by lia. rewrite decide_True by lia. lia.
    + rewrite (decide_True (P := component_compare sep x y <> 0)) by done.
      rewrite (decide_True (P := component_compare sep y z <> 0)) by done. intros Hle1 Hle2.
      assert (component_compare sep x z < 0) by lia. rewrite decide_True by lia. lia.
Qed.

Lemma compare_loop_components vA vB sep :
  Forall (.≠ []) vA -> Forall (.≠ []) vB ->
  compare_loop vA vB sep sep = components_compare sep vA vB.
Proof.
  intros HA. revert vB sep.
  induction HA as [|x vA Hx _ IH]; intros vB sep HB; destruct HB as [|y vB Hy HB].
  - done.
  - cbn. rewrite decide_False by tauto. done.
  - cbn. rewrite decide_False by tauto. by rewrite decide_False.
  - rewrite components_cons. cbn [compare_loop hd tl].
    rewrite decide_False by tauto. rewrite !decide_False by done.
    pose proof (component_compare_eq sep x y) as Heq. unfold component_compare in *.
    destruct (update_sep x sep) eqn:Hux, (update_sep y sep) eqn:Huy; cbn in *; try done;
      case_decide; try done; by apply IH.
Qed.

Lemma span_app p s : (span p s).1 ++ (span p s).2 = s.
Proof. induction s as [|c s IH]; cbn; [done|]. destruct (p c); [|done]. destruct (span p s). cbn in *. by rewrite IH. Qed.

Lemma span_forall p s : Forall (fun c => p c = true) (span p s).1.
Proof.
  induction s as [|c s IH]; cbn; [done|]. destruct (p c) eqn:Hc; [|done].
  destruct (span p s). cbn in *. by constructor.
Qed.

Lemma span_head p c s : p c = true -> exists w r, span p (c :: s) = (c :: w, r) /\ w ++ r = s.
Proof.
  intros Hc. cbn. rewrite Hc. pose proof (span_app p s). destruct (span p s). eauto.
Qed.

(** A component: digits, letters, or one other character. *)
Definition component_ok (w : bytes) : Prop :=
  w <> [] /\
  (Forall (fun c => isdigit c = true) w \/ Forall (fun c => isalpha c = true) w \/
   exists c, w = [c] /\ isdigit c = false /\ isalpha c = false).

Lemma explode_loop_spec fuel s :
  (length s <= fuel)%nat ->
  concat (explode_loop fuel s) = s /\ Forall component_ok (explode_loop fuel s).
Proof.
  revert s. induction fuel as [|f IH]; intros [|c s] Hf; cbn [length] in Hf; try done; [lia|].
  assert (forall p, p c = true ->
    exists w r, span p (c :: s) = (c :: w, r) /\ c :: s = (c :: w) ++ r /\ (length r <= f)%nat /\
      Forall (fun c => p c = true) (c :: w)) as Hspan.
  { intros p Hc. destruct (span_head p c s Hc) as (w & r & Hw & Hr). exists w, r.
    repeat split; [done|cbn; by rewrite Hr| |].
    - subst s. rewrite length_app in Hf. lia.
    - pose proof (span_forall p (c :: s)) as H. by rewrite Hw in H. }
  cbn [explode_loop]. destruct (isdigit c) eqn:Hd; [|destruct (isalpha c) eqn:Ha].
  - destruct (Hspan isdigit Hd) as (w & r & Hw & Hs & Hr & Hall). unfold eat_number. rewrite Hw.
    destruct (IH r Hr) as [Hc Hok]. rewrite Hs. cbn [concat app]. rewrite Hc. split; [done|].
    constructor; [|done]. split; [done|by left].
  - destruct (Hspan isalpha Ha) as (w & r & Hw & Hs & Hr & Hall). unfold eat_alpha. rewrite Hw.
    destruct (IH r Hr) as [Hc Hok]. rewrite Hs. cbn [concat app]. rewrite Hc. split; [done|].
    constructor; [|done]. split; [done|right; by left].
  - destruct (IH s ltac:(lia)) as [Hc Hok]. cbn. rewrite Hc. split; [done|].
    constructor; [|done]. split; [done|]. right. right. eauto.
Qed.

Lemma explode_not_empty s : Forall (.≠ []) (explode s).
Proof.
  eapply Forall_impl; [apply explode_loop_spec; done|]. by intros w [? _].
Qed.

Lemma compare_components a b :
  compare a b = components_compare false (explode a) (explode b).
Proof. apply compare_loop_components; apply explode_not_empty. Qed.

(** ** Theorems *)

(** [compare] is a total preorder on version strings, although the flags
    that remember separators survive from one component to the next: it is
    reflexive, exchanging its arguments negates the result, and it is
    transitive. *)
Theorem compare_total_preorder a b c :
  compare a a = 0 /\ compare b a = - compare a b /\
  (compare a b <= 0 -> compare b c <= 0 -> compare a c <= 0).
Proof.
  rewrite !compare_components. repeat split.
  - apply cmp_refl.
  - apply cmp_anti.
  - apply cmp_trans.
Qed.

(** [explode] loses nothing: its components put together are the version
    string, and each is a run of digits, a run of letters or one other
    character. *)
Theorem explode_lossless s :
  concat (explode s) = s /\ Forall component_ok (explode s).
Proof. by apply explode_loop_spec. Qed.

(** The six comparison operators of [Version] are those of the preorder:
    exactly one of [<], [==] and [>] holds, and the others are their
    complements. *)
Theorem version_operators a b :
  version_lt a b = bool_decide (compare a b < 0) /\
  version_eq a b = bool_decide (compare a b = 0) /\
  version_gt a b = version_lt b a /\ version_ge a b = version_le b a /\
  version_le a b = version_lt a b || version_eq a b /\
  version_eq a b = version_eq b a.
Proof.
  assert (Ha : compare b a = - compare a b) by (rewrite !compare_components; apply cmp_anti).
  unfold version_ge, version_le, version_gt, version_ne, version_lt, version_eq. rewrite Ha.
  repeat split; repeat case_bool_decide; try done; lia.
Qed.

(** Numbers of versions are compared modulo 2^32: a component larger than
    an [int] can compare equal to, or below, a smaller one. *)
Theorem compare_number_overflow :
  compare (lit "4294967297") (lit "1") = 0 /\ version_lt (lit "1.3000000000") (lit "1.2") = true.
Proof. vm_compute. done. Qed.
