(* ===== verification/Url.v ===== *)
(** * Url: addresses "protocol://host:port" ([src/messaging/url.cpp]) *)
From S2P Require Import Prelude CString.
#[local] Open Scope char_scope.
#[local] Open Scope list_scope.
#[local] Open Scope Z_scope.

(** ** Definitions *)

(** [UrlPrivate], with the bits of [UrlComponents]. *)
Record UrlPrivate := mkUrl {
  url : bytes;
  protocol : bytes;
  host : bytes;
  port : Z;
  components : Z;
}.

Definition SCHEME : Z := 2.
Definition HOST : Z := 4.
Definition PORT : Z := 1.

Definition UrlPrivate_default : UrlPrivate := mkUrl [] [] [] 0 0.

Definition has (components bit : Z) : bool := negb (Z.land components bit =? 0).

(** [UrlPrivate::updateUrl] *)
Definition updateUrl (u : UrlPrivate) : UrlPrivate :=
  let text := [] in
  let text := if has (components u) SCHEME then text ++ protocol u ++ lit "://" else text in
  let text := if has (components u) HOST then text ++ host u else text in
  let text := if has (components u) PORT then text ++ ":" :: to_decimal (port u) else text in
  mkUrl text (protocol u) (host u) (port u) (components u).

Definition isValid (u : UrlPrivate) : bool :=
  components u =? Z.lor SCHEME (Z.lor HOST PORT).

(** The port after the colon, if [strtol] reads the whole string as a 16-bit
    number. *)
Definition parse_port (strPort : bytes) : option Z :=
  let '(longPort, rest, range_error) := strtol strPort in
  if negb range_error && bool_decide (rest = []) && (0 <=? longPort) && (longPort <=? 65535)
  then Some longPort else None.

(** [UrlPrivate::split_me]: sets every field but [url]; the bitmask it
    returns is the new value of [components]. *)
Definition split_me (u : UrlPrivate) (s : bytes) : UrlPrivate :=
  let '(_scheme, components, place) :=
    match find_sub (lit "://") s with
    | Some place => (take place s, Z.lor 0 SCHEME, (place + 3)%nat)
    | None => ([], 0, 0%nat)
    end in
  let _url := drop place s in
  let place := find_char ":" _url in
  let _host := substr_to _url place in
  let components := if decide (_host = []) then components else Z.lor components HOST in
  let '(_port, components) :=
    match place with
    | None => (0, components)
    | Some place =>
        match parse_port (drop (place + 1) _url) with
        | Some p => (p, Z.lor components PORT)
        | None => (0, components)
        end
    end in
  mkUrl (url u) _scheme _host _port components.

(** The constructors: [s] alone, and with a default protocol, a default port
    or both. *)
Definition setProtocolField (u : UrlPrivate) (p : bytes) : UrlPrivate :=
  mkUrl (url u) p (host u) (port u) (Z.lor (components u) SCHEME).
Definition setHostField (u : UrlPrivate) (h : bytes) : UrlPrivate :=
  mkUrl (url u) (protocol u) h (port u) (Z.lor (components u) HOST).
Definition setPortField (u : UrlPrivate) (p : Z) : UrlPrivate :=
  mkUrl (url u) (protocol u) (host u) p (Z.lor (components u) PORT).

Definition Url_new (s : bytes) : UrlPrivate :=
  updateUrl (split_me (mkUrl s [] [] 0 0) s).
Definition Url_new_port (s : bytes) (defaultPort : Z) : UrlPrivate :=
  let u := split_me (mkUrl s [] [] defaultPort 0) s in
  updateUrl (if has (components u) PORT then u else setPortField u defaultPort).
Definition Url_new_protocol (s defaultProtocol : bytes) : UrlPrivate :=
  let u := split_me (mkUrl s [] [] 0 0) s in
  updateUrl (if has (components u) SCHEME then u else setProtocolField u defaultProtocol).
Definition Url_new_protocol_port (s defaultProtocol : bytes) (defaultPort : Z) : UrlPrivate :=
  let u := split_me (mkUrl s [] [] 0 0) s in
  let result := components u in
  let u := if has result SCHEME then u else setProtocolField u defaultProtocol in
  let u := if has result PORT then u else setPortField u defaultPort in
  updateUrl u.

(** The setters and the observers of [Url]. *)
Definition setProtocol (u : UrlPrivate) (p : bytes) : UrlPrivate := updateUrl (setProtocolField u p).
Definition setHost (u : UrlPrivate) (h : bytes) : UrlPrivate := updateUrl (setHostField u h).
Definition setPort (u : UrlPrivate) (p : Z) : UrlPrivate := updateUrl (setPortField u p).
Definition hasProtocol (u : UrlPrivate) : bool := has (components u) SCHEME.
Definition hasHost (u : UrlPrivate) : bool := has (components u) HOST.
Definition hasPort (u : UrlPrivate) : bool := has (components u) PORT.
Definition str (u : UrlPrivate) : bytes := url u.
Definition url_lt (a b : UrlPrivate) : bool := bool_decide (str_compare (str a) (str b) = Lt).
Definition url_eqb (a b : UrlPrivate) : bool := bool_decide (str a = str b).

Definition specifyUrl (specification baseUrl : UrlPrivate) : UrlPrivate :=
  let u := UrlPrivate_default in
  let u := if hasProtocol specification then setProtocol u (protocol specification)
           else if hasProtocol baseUrl then setProtocol u (protocol baseUrl) else u in
  let u := if hasHost specification then setHost u (host specification)
           else if hasHost baseUrl then setHost u (host baseUrl) else u in
  if hasPort specification then setPort u (port specification)
  else if hasPort baseUrl then setPort u (port baseUrl) else u.

(** ** Specification *)

(** An address, abstractly: each part may be missing. *)
Record address := mkAddress {
  a_protocol : option bytes;
  a_host : option bytes;
  a_port : option Z;
}.

Definition print_address (a : address) : bytes :=
  match a_protocol a with Some p => p ++ lit "://" | None => [] end ++
  default [] (a_host a) ++
  match a_port a with Some p => ":" :: to_decimal p | None => [] end.

(** The addresses that can be read back from their text: "://" does not occur
    earlier than where it was printed, the host is not empty and has no colon,
    and the port is a 16-bit number. *)
Definition address_ok (a : address) : Prop :=
  match a_protocol a with
  | Some p => find_sub (lit "://") (p ++ lit "://") = Some (length p)
  | None => True
  end /\
  match a_host a with Some h => h <> [] /\ ":" ∉ h | None => True end /\
  match a_port a with Some p => 0 <= p <= 65535 | None => True end.

(** The representation of an address by a [UrlPrivate]. *)
Definition components_of (a : address) : Z :=
  (if a_protocol a is Some _ then SCHEME else 0) + (if a_host a is Some _ then HOST else 0) +
  (if a_port a is Some _ then PORT else 0).
Definition url_of (a : address) : UrlPrivate :=
  mkUrl (print_address a) (default [] (a_protocol a)) (default [] (a_host a))
    (default 0 (a_port a)) (components_of a).

(** The address of a [UrlPrivate]. *)
Definition address_of (u : UrlPrivate) : address :=
  mkAddress (if hasProtocol u then Some (protocol u) else None)
    (if hasHost u then Some (host u) else None)
    (if hasPort u then Some (port u) else None).

(** ** Lemmas *)

Lemma has_components_of a :
  has (components_of a) SCHEME = bool_decide (is_Some (a_protocol a)) /\
  has (components_of a) HOST = bool_decide (is_Some (a_host a)) /\
  has (components_of a) PORT = bool_decide (is_Some (a_port a)).
Proof. destruct a as [[?|] [?|] [?|]]; done. Qed.

Lemma address_of_url_of a : address_of (url_of a) = a.
Proof. destruct a as [[?|] [?|] [?|]]; done. Qed.

(** [updateUrl] prints the address of the fields. *)
Lemma updateUrl_print a t :
  updateUrl (mkUrl t (default [] (a_protocol a)) (default [] (a_host a))
    (default 0 (a_port a)) (components_of a)) = url_of a.
Proof.
  unfold url_of, updateUrl, print_address. cbn [components protocol host port].
  destruct (has_components_of a) as (-> & -> & ->).
  destruct a as [[p|] [h|] [n|]]; cbn; by rewrite ?app_nil_r, <- ?app_assoc.
Qed.

Lemma parse_port_range s n : parse_port s = Some n -> 0 <= n <= 65535.
Proof.
  unfold parse_port. destruct (strtol s) as [[v r] e].
  destruct (negb e && _ && (0 <=? v) && (v <=? 65535)) eqn:H; [|done]. intros [= <-]. lia.
Qed.

Lemma parse_port_to_decimal n : 0 <= n <= 65535 -> parse_port (to_decimal n) = Some n.
Proof.
  intros H. unfold parse_port. rewrite strtol_to_decimal by (unfold long_max; lia).
  rewrite bool_decide_eq_true_2 by done.
  destruct (Z.leb_spec 0 n), (Z.leb_spec n 65535); try lia. done.
Qed.

(** The part of [split_me] after the scheme. *)
Definition split_authority (_url : bytes) : option bytes * option Z :=
  let place := find_char ":" _url in
  let _host := substr_to _url place in
  (if decide (_host = []) then None else Some _host,
   place ≫= fun n => parse_port (drop (n + 1) _url)).

Definition split_address (s : bytes) : address :=
  let '(scheme, rest) :=
    match find_sub (lit "://") s with
    | Some n => (Some (take n s), drop (n + 3) s)
    | None => (None, s)
    end in
  let '(h, p) := split_authority rest in mkAddress scheme h p.

(** [split_me] fills the fields with the parts of [split_address]. *)
Lemma split_me_address u s :
  let a := split_address s in
  split_me u s = mkUrl (url u) (default [] (a_protocol a)) (default [] (a_host a))
    (default 0 (a_port a)) (components_of a).
Proof.
  cbv zeta. unfold split_me, split_address, split_authority.
  destruct (find_sub (lit "://") s) as [n|]; rewrite ?drop_0.
  - destruct (find_char ":" (drop (n + 3) s)) as [m|]; cbn [mbind option_bind].
    + destruct (parse_port _) as [p|]; case_decide as Hh; cbn in *; rewrite ?Hh; done.
    + case_decide as Hh; cbn in *; rewrite ?Hh; done.
  - destruct (find_char ":" s) as [m|]; cbn [mbind option_bind].
    + destruct (parse_port _) as [p|]; case_decide as Hh; cbn in *; rewrite ?Hh; done.
    + case_decide as Hh; cbn in *; rewrite ?Hh; done.
Qed.

Lemma Url_new_address s : Url_new s = url_of (split_address s).
Proof. unfold Url_new. rewrite split_me_address. apply updateUrl_print. Qed.

Lemma split_address_ok s : address_ok (split_address s).
Proof.
  unfold split_address, address_ok.
  assert (forall r, match (split_authority r).1 with Some h => h <> [] /\ ":" ∉ h | None => True end /\
    match (split_authority r).2 with Some p => 0 <= p <= 65535 | None => True end) as Hr.
  { intros r. unfold split_authority. cbn. split.
    - case_decide as Hh; [done|]. split; [done|].
      destruct (find_char ":" r) as [n|] eqn:Hc; cbn in *.
      + by apply find_char_take in Hc as [_ ?].
      + by apply find_char_npos.
    - destruct (find_char ":" r) as [n|]; cbn; [|done].
      destruct (parse_port _) eqn:Hp; [|done]. by eapply parse_port_range. }
  destruct (find_sub (lit "://") s) as [n|] eqn:Hn.
  - destruct (split_authority (drop (n + 3) s)) as [h p] eqn:Hs. cbn [a_protocol a_host a_port].
    split; [|specialize (Hr (drop (n + 3) s)); by rewrite Hs in Hr].
    apply find_sub_take in Hn as (_ & Hf & Hl); [|done]. rewrite Hf. f_equal.
    rewrite length_take. lia.
  - destruct (split_authority s) as [h p] eqn:Hs. cbn [a_protocol a_host a_port].
    split; [done|specialize (Hr s); by rewrite Hs in Hr].
Qed.

Lemma split_authority_print h p :
  match h with Some h => h <> [] /\ ":" ∉ h | None => True end ->
  match p with Some p => 0 <= p <= 65535 | None => True end ->
  split_authority (default [] h ++ (match p with Some n => ":" :: to_decimal n | None => [] end)) = (h, p).
Proof.
  intros Hh Hp. unfold split_authority.
  assert (":" ∉ default [] h) as Hc by (destruct h; [by destruct Hh|apply not_elem_of_nil]).
  destruct p as [n|].
  - rewrite find_char_first by done. cbn [substr_to mbind option_bind]. rewrite take_app_length.
    rewrite <- drop_drop, drop_app_length. cbn [skipn]. rewrite drop_0, parse_port_to_decimal by done.
    destruct h as [h|]; cbn; [|done]. by rewrite decide_False by (by destruct Hh).
  - rewrite app_nil_r, find_char_None by done. cbn.
    destruct h as [h|]; cbn; [|done]. by rewrite decide_False by (by destruct Hh).
Qed.

Lemma digits_no_colon n : 0 <= n <= 65535 -> (":" ∉ to_decimal n) /\ ("/" ∉ to_decimal n).
Proof.
  intros Hn. destruct (to_decimal_spec n) as (_ & H & _); [lia|].
  rewrite Forall_forall in H. split; by intros ?%H.
Qed.

Lemma split_address_print a : address_ok a -> split_address (print_address a) = a.
Proof.
  destruct a as [sch h p]. intros (Hsch & Hh & Hp). cbn [a_protocol a_host a_port] in *.
  pose proof (split_authority_print h p Hh Hp) as Hauth.
  unfold split_address, print_address. cbn [a_protocol a_host a_port].
  destruct sch as [sch|].
  - rewrite <- app_assoc, find_sub_extend by done.
    rewrite take_app_length, <- drop_drop, drop_app_length.
    change (drop 3 (lit "://" ++ ?x)) with (drop 0 x). rewrite drop_0. by rewrite Hauth.
  - cbn [app]. replace (find_sub (lit "://") _) with npos; [by rewrite Hauth|].
    symmetry. assert (":" ∉ default [] h) as Hc by (destruct h; [by destruct Hh|apply not_elem_of_nil]).
    destruct p as [n|].
    + destruct (digits_no_colon n Hp) as [Hn1 Hn2].
      revert Hc. clear -Hn1 Hn2. generalize (default [] h) as x.
      intros x. induction x as [|c x IH]; intros Hc; cbn [app].
      * rewrite find_sub_step. destruct (to_decimal n) as [|d ds]; [done|].
        change (lit "://") with [":"; "/"; "/"]. cbn [starts_with]. rewrite decide_True by done.
        rewrite decide_False by (intros <-; apply Hn2, list_elem_of_here).
        rewrite (find_sub_not_elem _ ":"); [done|done|apply list_elem_of_here].
      * apply not_elem_of_cons in Hc as [Hc Hx]. rewrite find_sub_step.
        replace (starts_with _ _) with false; [by rewrite IH|].
        change (lit "://") with [":"; "/"; "/"]. cbn [starts_with]. by rewrite decide_False.
    + rewrite app_nil_r. apply (find_sub_not_elem _ ":"); [done|apply list_elem_of_here].
Qed.

(** The setters, on represented addresses. *)
Lemma setters_url_of a p h n :
  setProtocol (url_of a) p = url_of (mkAddress (Some p) (a_host a) (a_port a)) /\
  setHost (url_of a) h = url_of (mkAddress (a_protocol a) (Some h) (a_port a)) /\
  setPort (url_of a) n = url_of (mkAddress (a_protocol a) (a_host a) (Some n)).
Proof.
  destruct a as [sc ho po]. repeat split.
  - refine (eq_trans _ (updateUrl_print (mkAddress (Some p) ho po) (print_address (mkAddress sc ho po)))).
    by destruct sc, ho, po.
  - refine (eq_trans _ (updateUrl_print (mkAddress sc (Some h) po) (print_address (mkAddress sc ho po)))).
    by destruct sc, ho, po.
  - refine (eq_trans _ (updateUrl_print (mkAddress sc ho (Some n)) (print_address (mkAddress sc ho po)))).
    by destruct sc, ho, po.
Qed.

(** ** Theorems *)

(** Every string parses to the representation of a well-formed address,
    and parsing is a normalisation: the text of a parsed URL parses to the
    same URL. *)
Theorem Url_new_normal s :
  exists a, address_ok a /\ Url_new s = url_of a /\ Url_new (str (Url_new s)) = Url_new s.
Proof.
  exists (split_address s). pose proof (split_address_ok s) as Hok.
  split; [done|]. rewrite Url_new_address. split; [done|].
  cbn [str url_of url]. by rewrite Url_new_address, split_address_print.
Qed.

(** Printing then parsing gives back every well-formed address, whichever
    of its parts are present. *)
Theorem Url_roundtrip a :
  address_ok a -> Url_new (print_address a) = url_of a /\ address_of (Url_new (print_address a)) = a.
Proof.
  intros Ha. rewrite Url_new_address, split_address_print by done.
  split; [done|apply address_of_url_of].
Qed.

Lemma Url_roundtrip_witness :
  str (Url_new (lit "tcp://example.com:9559")) = lit "tcp://example.com:9559" /\
  address_of (Url_new (lit "tcp://example.com:9559")) =
    mkAddress (Some (lit "tcp")) (Some (lit "example.com")) (Some 9559).
Proof.
  destruct (Url_roundtrip (mkAddress (Some (lit "tcp")) (Some (lit "example.com")) (Some 9559))) as [H1 H2].
  - split; [reflexivity|]. split; [|cbn; lia]. split; [discriminate|].
    apply (bool_decide_unpack (":" ∉ lit "example.com")). vm_compute. exact I.
  - split; [|exact H2]. exact (f_equal str H1).
Defined.

(** [specifyUrl] takes each part from the specification when it has it,
    and from the base URL otherwise; its text prints that address. *)
Theorem specifyUrl_correct spec base :
  let a := address_of spec in let b := address_of base in
  let r := mkAddress (a_protocol a ∪ a_protocol b) (a_host a ∪ a_host b) (a_port a ∪ a_port b) in
  address_of (specifyUrl spec base) = r /\ str (specifyUrl spec base) = print_address r.
Proof.
  cbv zeta. set (r := mkAddress _ _ _).
  assert (specifyUrl spec base = url_of r) as ->; [|split; [apply address_of_url_of|done]].
  unfold specifyUrl. change UrlPrivate_default with (url_of (mkAddress None None None)). subst r.
  unfold address_of. cbn [a_protocol a_host a_port].
  destruct (hasProtocol spec), (hasProtocol base), (hasHost spec), (hasHost base),
    (hasPort spec), (hasPort base);
    rewrite ?(proj1 (setters_url_of _ _ [] 0)), ?(proj1 (proj2 (setters_url_of _ [] _ 0))),
      ?(proj2 (proj2 (setters_url_of _ [] [] _))); done.
Qed.

(** A URL is valid exactly when its three parts were found, and the
    defaults of the constructors fill in exactly what was missing: with a
    default protocol and a default port, it is valid as soon as it has a
    host. *)
Theorem Url_validity s p n :
  let a := split_address s in
  isValid (Url_new s) = bool_decide (is_Some (a_protocol a) /\ is_Some (a_host a) /\ is_Some (a_port a)) /\
  Url_new_protocol s p = url_of (mkAddress (a_protocol a ∪ Some p) (a_host a) (a_port a)) /\
  Url_new_port s n = url_of (mkAddress (a_protocol a) (a_host a) (a_port a ∪ Some n)) /\
  Url_new_protocol_port s p n =
    url_of (mkAddress (a_protocol a ∪ Some p) (a_host a) (a_port a ∪ Some n)) /\
  isValid (Url_new_protocol_port s p n) = hasHost (Url_new s).
Proof.
  cbv zeta. rewrite Url_new_address. unfold Url_new_protocol, Url_new_port, Url_new_protocol_port.
  rewrite !split_me_address. cbn [components].
  destruct (has_components_of (split_address s)) as (-> & _ & ->).
  destruct (split_address s) as [[sc|] [h|] [q|]]; cbn [a_protocol a_host a_port];
    rewrite <- ?updateUrl_print with (t := s); repeat split; reflexivity.
Qed.

(** A colon with no port after it is read as the port 0, so that a URL
    none of whose documented formats has an empty port is valid. *)
Theorem Url_empty_port :
  isValid (Url_new (lit "tcp://example.com:")) = true /\
  str (Url_new (lit "tcp://example.com:")) = lit "tcp://example.com:0".
Proof. vm_compute. done. Qed.
