(* ===== verification/Buffer.v ===== *)
(** * Buffer: the growable byte buffers and their readers

    Model of [src/buffer.cpp], [src/buffer_p.hpp] and [src/bufferreader.cpp].

    A [BufferPrivate] keeps its bytes in the array [_data] of [STATIC_BLOCK]
    bytes until they no longer fit, then in a heap block [_bigdata] that it
    grows with [realloc]. [available] is the code's own count of the bytes it
    owns; in the model the real size of the block is the length of the list
    that models it, so an access outside of the block is visible: such an
    access is undefined behaviour and the operation gives [None].
    [malloc] is the allocator: the block it returns for a size, [None] when it
    returns a null pointer. A pointer into a buffer is the offset from [data()].

    A [Buffer] holds its [BufferPrivate] by a pointer that it never shares (the
    copies duplicate the pointee, the moves leave a fresh one behind), so a
    buffer is modelled by the value of its [BufferPrivate]. *)
From S2P Require Import Prelude CString Bytes.
From Stdlib Require Import Ascii.
Open Scope Z_scope.

Definition STATIC_BLOCK : Z := 768.
Definition BLOCK : Z := 4096.

(** [sizeof(Buffer::size_type)]. *)
Definition sizeof_size_type : Z := 4.

Inductive BufferPrivate : Type := mkBufferPrivate {
  _bigdata : option bytes;
  _data : bytes;
  _cachedSubBufferTotalSize : Z;
  used : Z;
  available : Z;
  _subBuffers : list (Z * BufferPrivate);
}.

Definition set_used (n : Z) (b : BufferPrivate) : BufferPrivate :=
  mkBufferPrivate (_bigdata b) (_data b) (_cachedSubBufferTotalSize b) n
    (available b) (_subBuffers b).

(** [BufferPrivate()]: the default member initializers. *)
Definition zeros (n : Z) : bytes := replicate (Z.to_nat n) Ascii.zero.

Definition BufferPrivate_new : BufferPrivate :=
  mkBufferPrivate None (zeros STATIC_BLOCK) 0 0 STATIC_BLOCK [].

(** [data()]: the block in use. *)
Definition data (b : BufferPrivate) : bytes :=
  match _bigdata b with Some big => big | None => _data b end.

(** Writes in the block in use. *)
Definition set_data (d : bytes) (b : BufferPrivate) : BufferPrivate :=
  match _bigdata b with
  | Some _ => mkBufferPrivate (Some d) (_data b) (_cachedSubBufferTotalSize b)
                (used b) (available b) (_subBuffers b)
  | None => mkBufferPrivate None d (_cachedSubBufferTotalSize b)
                (used b) (available b) (_subBuffers b)
  end.

(** The bytes of the buffer: the part of the block that is in use. *)
Definition content (b : BufferPrivate) : bytes := take (Z.to_nat (used b)) (data b).

(** [Buffer::size], [Buffer::totalSize], [Buffer::subBuffers]. *)
Definition size (b : BufferPrivate) : Z := used b.
Definition totalSize (b : BufferPrivate) : Z :=
  wrap64 (size b + _cachedSubBufferTotalSize b).
Definition subBuffers (b : BufferPrivate) : list (Z * BufferPrivate) := _subBuffers b.

(** [dataEqual]: neither pointer is null. *)
Definition dataEqual (a_data : bytes) (a_size : Z) (b_data : bytes) (b_size : Z) : bool :=
  if negb (a_size =? b_size) then false
  else bool_decide (take (Z.to_nat a_size) a_data = take (Z.to_nat a_size) b_data).

(** [operator==]: on the bytes in use and on the vector of sub-buffers. *)
Fixpoint buffer_eq (a b : BufferPrivate) {struct a} : bool :=
  dataEqual (data a) (used a) (data b) (used b)
  && (fix subs_eq (l k : list (Z * BufferPrivate)) : bool :=
        match l, k with
        | [], [] => true
        | (o, s) :: l', (o', s') :: k' => (o =? o') && buffer_eq s s' && subs_eq l' k'
        | _, _ => false
        end) (_subBuffers a) (_subBuffers b).

(** [indexOfSubBuffer] scans the vector from its start. *)
Fixpoint indexOfSubBuffer_loop (i : nat) (l : list (Z * BufferPrivate)) (offset : Z) : option nat :=
  match l with
  | [] => None
  | (o, _) :: l' => if o =? offset then Some i else indexOfSubBuffer_loop (S i) l' offset
  end.

Definition indexOfSubBuffer (b : BufferPrivate) (offset : Z) : option nat :=
  indexOfSubBuffer_loop 0 (_subBuffers b) offset.

Definition hasSubBuffer (b : BufferPrivate) (offset : Z) : bool :=
  match indexOfSubBuffer b offset with Some _ => true | None => false end.

(** The exceptions thrown by the buffers and their readers. *)
Inductive buffer_error :=
  | no_sub_buffer_at_offset
  | no_sub_buffer_at_actual_offset.

Definition subBuffer (b : BufferPrivate) (offset : Z) : result buffer_error BufferPrivate :=
  match indexOfSubBuffer b offset with
  | Some i =>
      match _subBuffers b !! i with
      | Some (_, s) => Ok s
      | None => Err no_sub_buffer_at_offset
      end
  | None => Err no_sub_buffer_at_offset
  end.

(** [clear] keeps the block and its capacity. *)
Definition clear (b : BufferPrivate) : BufferPrivate :=
  mkBufferPrivate (_bigdata b) (_data b) 0 0 (available b) [].

(** The move operations steal the pointee. *)
Definition Buffer_move (b : BufferPrivate) : BufferPrivate * BufferPrivate :=
  (b, BufferPrivate_new).

(** [read(offset, length)]: a pointer or null. *)
Definition read_at (b : BufferPrivate) (offset length : Z) : option Z :=
  if used b <? wrap64 (offset + length) then None else Some offset.

(** [read(buffer, offset, length)]: the bytes copied, or the value -1 of
    [size_t]. The outer option is undefined behaviour. *)
Definition read_into (b : BufferPrivate) (offset length : Z) : option (Z * bytes) :=
  if used b <? offset then Some (2 ^ 64 - 1, [])
  else
    let copy := Z.min length (wrap64 (used b - offset)) in
    l ← mem_read (data b) offset copy;
    Some (copy, l).

(** ** The operations that allocate *)

Section allocation.
Context (malloc : Z -> option bytes).

(** [realloc(ptr, n)] keeps the contents up to the smaller of the sizes. The
    behaviour for a size of zero is not defined. *)
Definition realloc (ptr : option bytes) (n : Z) : option (option bytes) :=
  if n =? 0 then None
  else match malloc n with
       | None => Some None
       | Some fresh =>
           let old := default [] ptr in
           let keep := Nat.min (length old) (Z.to_nat n) in
           Some (Some (take keep old ++ drop keep fresh))
       end.

(** The copy constructor, recursively on the vector of sub-buffers. *)
Fixpoint BufferPrivate_copy (b : BufferPrivate) : option BufferPrivate :=
  subs ← (fix copies (l : list (Z * BufferPrivate)) : option (list (Z * BufferPrivate)) :=
            match l with
            | [] => Some []
            | (o, s) :: l' =>
                s' ← BufferPrivate_copy s;
                r ← copies l';
                Some ((o, s') :: r)
            end) (_subBuffers b);
  match _bigdata b with
  | Some big =>
      match malloc (used b) with
      | Some blk =>
          blk' ← memcpy blk 0 big (used b);
          Some (mkBufferPrivate (Some blk') (zeros STATIC_BLOCK)
                  (_cachedSubBufferTotalSize b) (used b) (available b) subs)
      | None => None
      end
  | None =>
      d ← memcpy (zeros STATIC_BLOCK) 0 (_data b) (used b);
      Some (mkBufferPrivate None d
              (_cachedSubBufferTotalSize b) (used b) (available b) subs)
  end.

(** [BufferPrivate::operator=] from another object: as the copy, except that
    the rest of the static array keeps its bytes. *)
Definition BufferPrivate_assign (a b : BufferPrivate) : option BufferPrivate :=
  c ← BufferPrivate_copy b;
  match _bigdata b with
  | Some _ =>
      Some (mkBufferPrivate (_bigdata c) (_data a) (_cachedSubBufferTotalSize b)
              (used b) (available b) (_subBuffers c))
  | None =>
      d ← memcpy (_data a) 0 (_data b) (used b);
      Some (mkBufferPrivate None d (_cachedSubBufferTotalSize b)
              (used b) (available b) (_subBuffers c))
  end.

(** [BufferPrivate::resize]. *)
Definition resize (b : BufferPrivate) (neededSize : Z) : option (bool * BufferPrivate) :=
  let neededSize := wrap64 (neededSize + BLOCK) in
  newBigdata ← realloc (_bigdata b) neededSize;
  match newBigdata with
  | None => Some (false, b)
  | Some blk =>
      blk' ← match _bigdata b with
             | Some _ => Some blk
             | None => if 0 <? used b then memcpy blk 0 (_data b) (used b) else Some blk
             end;
      Some (true, mkBufferPrivate (Some blk') (_data b) (_cachedSubBufferTotalSize b)
                    (used b) neededSize (_subBuffers b))
  end.

(** [Buffer::reserve]: the offset of the reserved bytes, or null. *)
Definition reserve (b : BufferPrivate) (n : Z) : option (option Z * BufferPrivate) :=
  r ← (if available b <? wrap64 (used b + n)
       then resize b (wrap64 (used b + n))
       else Some (true, b));
  let '(ret, b) := r in
  if negb ret then Some (None, b)
  else Some (Some (used b), set_used (wrap64 (used b + n)) b).

(** [Buffer::write(src, n)]. *)
Definition write_n (b : BufferPrivate) (src : bytes) (n : Z) : option (bool * BufferPrivate) :=
  r ← (if available b <? wrap64 (used b + n)
       then resize b (wrap64 (used b + n))
       else Some (true, b));
  let '(ret, b) := r in
  if negb ret then Some (false, b)
  else
    d ← memcpy (data b) (used b) src n;
    Some (true, set_used (wrap64 (used b + n)) (set_data d b)).

Definition write (b : BufferPrivate) (src : bytes) : option (bool * BufferPrivate) :=
  write_n b src (zlen src).

(** [Buffer::addSubBuffer]: the four low bytes of the size, the result of the
    write is not tested, and a copy of the sub-buffer is recorded. *)
Definition addSubBuffer (b buffer : BufferPrivate) : option (Z * BufferPrivate) :=
  let subBufferSize := size buffer in
  let actualUsed := used b in
  r ← write_n b (le_encode 8 subBufferSize) sizeof_size_type;
  let '(_, b) := r in
  c ← BufferPrivate_copy buffer;
  Some (actualUsed,
        mkBufferPrivate (_bigdata b) (_data b)
          (wrap64 (_cachedSubBufferTotalSize b + totalSize buffer))
          (used b) (available b) (_subBuffers b ++ [(actualUsed, c)])).
End allocation.

(** ** Readers *)

Record BufferReader := mkBufferReader {
  _cursor : Z;
  _subCursor : Z;
}.

Definition BufferReader_new : BufferReader := mkBufferReader 0 0.

Section reader.
Context (buffer : BufferPrivate).

Definition seek (r : BufferReader) (offset : Z) : bool * BufferReader :=
  if wrap64 (_cursor r + offset) <=? size buffer
  then (true, mkBufferReader (wrap64 (_cursor r + offset)) (_subCursor r))
  else (false, r).

Definition peek (r : BufferReader) (offset : Z) : option Z :=
  if wrap64 (_cursor r + offset) <=? size buffer then Some (_cursor r) else None.

(** [read(offset)]: a pointer to the bytes, or null. *)
Definition reader_read (r : BufferReader) (offset : Z) : option Z * BufferReader :=
  match peek r offset with
  | Some p => (Some p, snd (seek r offset))
  | None => (None, r)
  end.

(** [read(data, size)]: at most the bytes that remain; [None] is undefined
    behaviour. *)
Definition reader_read_into (r : BufferReader) (n : Z) : option (bytes * BufferReader) :=
  let n := if wrap64 (size buffer - _cursor r) <? n
           then wrap64 (size buffer - _cursor r) else n in
  l ← mem_read (data buffer) (_cursor r) n;
  Some (l, mkBufferReader (wrap64 (_cursor r + n)) (_subCursor r)).

Definition reader_hasSubBuffer (r : BufferReader) : bool :=
  if zlen (subBuffers buffer) <=? _subCursor r then false
  else match subBuffers buffer !! Z.to_nat (_subCursor r) with
       | Some (o, _) => o =? _cursor r
       | None => false
       end.

Definition reader_subBuffer (r : BufferReader) : result buffer_error BufferPrivate * BufferReader :=
  if negb (reader_hasSubBuffer r) then (Err no_sub_buffer_at_actual_offset, r)
  else match subBuffers buffer !! Z.to_nat (_subCursor r) with
       | Some (_, s) =>
           (Ok s, mkBufferReader (wrap64 (_cursor r + sizeof_size_type))
                    (wrap64 (_subCursor r + 1)))
       | None => (Err no_sub_buffer_at_actual_offset, r)
       end.

Definition position (r : BufferReader) : Z := _cursor r.
End reader.

(** * The hexadecimal dump of a buffer

    Model of [detail::printBuffer] of [src/buffer.cpp]. *)
From Stdlib Require Import Ascii.
Open Scope Z_scope.

(** [stream << std::hex << n], without padding. *)
Definition hex_digit (n : Z) : ascii :=
  if n <? 10 then ascii_of_N (Z.to_N (48 + n)) else ascii_of_N (Z.to_N (87 + n)).

Fixpoint hex_loop (fuel : nat) (n : Z) (acc : bytes) : bytes :=
  match fuel with
  | O => acc
  | S f =>
      let acc' := hex_digit (n mod 16) :: acc in
      if n <? 16 then acc' else hex_loop f (n / 16) acc'
  end.

(** Enough for a 64-bit integer. *)
Definition to_hex (n : Z) : bytes := hex_loop 16 n [].

(** [std::setw(w)] with the fill character ['0']. *)
Definition setw (w : nat) (s : bytes) : bytes := replicate (w - length s) "0"%char ++ s.

(** [isgraph] in the "C" locale. *)
Definition isgraph (c : ascii) : bool := (33 <=? code c) && (code c <=? 126).

(** [stream << (isgraph(c) ? c : '.')]. The operands are an [unsigned char] and
    a [char], so the expression is an [int], which the stream, in hexadecimal
    mode, prints as a number. *)
Definition print_column_char (c : ascii) : bytes :=
  to_hex (if isgraph c then Z_of_byte c else 46).

(** The loops [for (unsigned int j = i - 16; j < stop; j++)]. *)
Fixpoint print_column (fuel : nat) (data : bytes) (j stop : Z) : bytes :=
  match fuel with
  | O => []
  | S f =>
      if j <? stop then
        match data !! Z.to_nat j with
        | Some c => print_column_char c ++ print_column f data (wrap 32 (j + 1)) stop
        | None => []
        end
      else []
  end.

(** The main loop: the output and the final value of [i], an [unsigned int]. *)
Fixpoint print_rows (fuel : nat) (data : bytes) (i : Z) : bytes * Z :=
  match fuel with
  | O => ([], i)
  | S f =>
      if i <? zlen data then
        let head := if i mod 16 =? 0 then setw 8 (to_hex i) ++ lit ": " else [] in
        let byte := match data !! Z.to_nat i with
                    | Some c => setw 2 (to_hex (Z_of_byte c))
                    | None => []
                    end in
        let i := wrap 32 (i + 1) in
        let space := if i mod 2 =? 0 then lit " " else [] in
        let column := if i mod 16 =? 0
                      then print_column 16 data (i - 16) i ++ [ascii_of_nat 10] else [] in
        let '(rest, i) := print_rows f data i in
        (head ++ byte ++ space ++ column ++ rest, i)
      else ([], i)
  end.

(** The padding loop, at most fifteen iterations. *)
Fixpoint print_padding (fuel : nat) (i : Z) : bytes * Z :=
  match fuel with
  | O => ([], i)
  | S f =>
      if i mod 16 =? 0 then ([], i)
      else
        let space := if i mod 2 =? 0 then lit " " else [] in
        let '(rest, i) := print_padding f (wrap 32 (i + 1)) in
        (lit "  " ++ space ++ rest, i)
  end.

Definition printBuffer (b : BufferPrivate) : bytes :=
  if size b =? 0 then []
  else
    let data := content b in
    let '(rows, i) := print_rows (S (length data)) data 0 in
    let '(pad, i) := print_padding 16 i in
    rows ++ pad ++ lit " " ++ print_column 16 data (wrap 32 (i - 16)) (size b).

(** On a buffer of sixteen bytes the text column is printed as numbers, and a
    second time after the end of the row. *)
Example printBuffer_full_row :
  printBuffer (mkBufferPrivate None (lit "ABCDEFGHIJKLMNOP" ++ zeros 752) 0 16 768 [])
  = lit "00000000: 4142 4344 4546 4748 494a 4b4c 4d4e 4f50 4142434445464748494a4b4c4d4e4f50"
    ++ [ascii_of_nat 10] ++ lit " 4142434445464748494a4b4c4d4e4f50".
Proof. reflexivity. Qed.
