(* ===== verification/BufferProperties.v ===== *)
(** * BufferProperties: memory safety and functional behaviour of the buffers

    The abstract value of a buffer is a tree of byte strings. The operations
    refine operations on trees, never access memory outside of their block, and
    what a writer appends a reader gets back. The last part shows what the copy
    constructor breaks. *)
From S2P Require Import Prelude CString Bytes Buffer.
From Stdlib Require Import Ascii.
Open Scope Z_scope.

(** ** The abstract value of a buffer *)

(** The bytes of the buffer, and its sub-buffers with their offsets. *)
Inductive tree : Type := Tree {
  t_bytes : bytes;
  t_subs : list (Z * tree);
}.

Fixpoint abs (b : BufferPrivate) : tree :=
  Tree (content b) (map (fun p => (fst p, abs (snd p))) (_subBuffers b)).

Definition t_empty : tree := Tree [] [].
Definition t_append (t : tree) (src : bytes) : tree := Tree (t_bytes t ++ src) (t_subs t).
Definition t_add (t s : tree) : tree :=
  Tree (t_bytes t ++ le_encode 4 (zlen (t_bytes s)))
       (t_subs t ++ [(zlen (t_bytes t), s)]).

(** The number of bytes of a tree, those of its sub-buffers included. *)
Fixpoint tree_size (t : tree) : Z :=
  zlen (t_bytes t) + foldr (fun p acc => tree_size (snd p) + acc) 0 (t_subs t).
Definition subs_size (l : list (Z * tree)) : Z :=
  foldr (fun p acc => tree_size (snd p) + acc) 0 l.

(** The sub-buffers are in increasing order of offset, and the four bytes of
    the buffer at the offset of a sub-buffer hold its size. *)
Fixpoint placed (pos : Z) (l : list (Z * tree)) (c : bytes) : Prop :=
  match l with
  | [] => pos <= zlen c
  | (o, s) :: l' =>
      pos <= o
      /\ mem_read c o sizeof_size_type = Some (le_encode 4 (zlen (t_bytes s)))
      /\ placed (o + sizeof_size_type) l' c
  end.

(** ** The invariant *)

(** What every buffer, a copy included, satisfies: the bytes in use are inside
    of the block and the cached size is the size of the sub-buffers. *)
Inductive readable : BufferPrivate -> Prop :=
  | readable_intro b :
      zlen (_data b) = STATIC_BLOCK ->
      0 <= used b <= zlen (data b) ->
      used b < 2 ^ 64 ->
      _cachedSubBufferTotalSize b = wrap64 (subs_size (t_subs (abs b))) ->
      placed 0 (t_subs (abs b)) (content b) ->
      Forall (fun p => readable (snd p)) (_subBuffers b) ->
      readable b.

(** A buffer that may be written to: [available] is the size of its block. *)
Definition owner (b : BufferPrivate) : Prop :=
  readable b /\ available b = zlen (data b).

Lemma BufferPrivate_ind_nested (P : BufferPrivate -> Prop) :
  (forall b, Forall (fun p => P (snd p)) (_subBuffers b) -> P b) -> forall b, P b.
Proof.
  intros H. fix IH 1. intros b. apply H.
  destruct b as [? ? ? ? ? subs]; cbn [_subBuffers].
  induction subs as [|[o s] subs IHsubs]; constructor; [apply IH | exact IHsubs].
Qed.

Lemma abs_unfold b :
  abs b = Tree (content b) (map (fun p => (fst p, abs (snd p))) (_subBuffers b)).
Proof. by destruct b. Qed.

Lemma tree_size_unfold t : tree_size t = zlen (t_bytes t) + subs_size (t_subs t).
Proof. by destruct t. Qed.

Lemma subs_size_app l k : subs_size (l ++ k) = subs_size l + subs_size k.
Proof.
  unfold subs_size. induction l as [|p l IH]; cbn [app foldr]; [done|]. rewrite IH. lia.
Qed.

Lemma readable_used b : readable b -> 0 <= used b <= zlen (data b) /\ used b < 2 ^ 64.
Proof. intros H. by inversion H. Qed.

Lemma zlen_content b : readable b -> zlen (content b) = used b.
Proof. intros H%readable_used. apply zlen_take. lia. Qed.

Lemma t_bytes_abs b : t_bytes (abs b) = content b.
Proof. by rewrite abs_unfold. Qed.

Lemma totalSize_correct b :
  readable b -> totalSize b = wrap64 (tree_size (abs b)).
Proof.
  intros H. unfold totalSize, size. inversion H as [? ? ? ? Hc]; subst.
  by rewrite Hc, wrap64_add_r, tree_size_unfold, t_bytes_abs, zlen_content.
Qed.

Lemma placed_weaken pos pos' l c : pos' <= pos -> placed pos l c -> placed pos' l c.
Proof.
  intros H. destruct l as [|[o s] l]; cbn [placed]; [lia|]. intros (? & ? & ?).
  repeat split; try done. lia.
Qed.

Lemma mem_read_app c o n l d :
  mem_read c o n = Some l -> mem_read (c ++ d) o n = Some l.
Proof.
  unfold mem_read. case_decide as H; [|done]. intros [= <-].
  rewrite decide_True by (rewrite zlen_app; zlen_lia).
  unfold zlen in H. rewrite drop_app_le, take_app_le; [done| |zlen_lia].
  rewrite length_drop. zlen_lia.
Qed.

Lemma placed_app pos l c d : placed pos l c -> placed pos l (c ++ d).
Proof.
  revert pos. induction l as [|[o s] l IH]; intros pos; cbn [placed].
  - rewrite zlen_app. zlen_lia.
  - intros (? & ? & ?). repeat split; [done| by apply mem_read_app | by apply IH].
Qed.

Lemma mem_read_middle a m d :
  mem_read (a ++ m ++ d) (zlen a) (zlen m) = Some m.
Proof.
  unfold mem_read.
  rewrite decide_True by
    (rewrite !zlen_app; 
     zlen_lia).
  unfold zlen. by rewrite !Nat2Z.id, drop_app_length, take_app_length.
Qed.

(** Recording a sub-buffer at the end keeps the layout. *)
Lemma placed_snoc pos l c s :
  placed pos l c ->
  placed pos (l ++ [(zlen c, s)]) (c ++ le_encode 4 (zlen (t_bytes s))).
Proof.
  revert pos. induction l as [|[o s'] l IH]; intros pos; cbn [placed app].
  - intros H. split_and!; [done| |].
    + rewrite <- (app_nil_r (le_encode _ _)). apply (mem_read_middle c).
    + rewrite zlen_app, zlen_le_encode. unfold sizeof_size_type. lia.
  - intros (? & ? & ?). split_and!; [done| by apply mem_read_app | by apply IH].
Qed.

(** ** The writers *)

Section writers.
#[local] Set Default Proof Using "Type*".
Context (malloc : Z -> option bytes).
Context (malloc_length : forall n blk, malloc n = Some blk -> zlen blk = n).

(** The block that [realloc] returns starts with the bytes it keeps. *)
Lemma realloc_correct ptr n :
  0 < n -> zlen (default [] ptr) <= n ->
  (malloc n = None /\ realloc malloc ptr n = Some None)
  \/ exists blk, realloc malloc ptr n = Some (Some blk) /\ zlen blk = n
       /\ take (length (default [] ptr)) blk = default [] ptr.
Proof.
  intros Hn Hp. unfold realloc. rewrite (proj2 (Z.eqb_neq _ _)) by lia.
  destruct (malloc n) as [fresh|] eqn:Hm; [right | by left].
  pose proof (malloc_length _ _ Hm) as Hl. unfold zlen in *.
  eexists. split; [done|].
  replace (length (default [] ptr) `min` Z.to_nat n)%nat
    with (length (default [] ptr)) by lia.
  rewrite take_ge by done. split.
  - rewrite length_app, length_drop. lia.
  - by rewrite take_app_length.
Qed.

(** The effect of the growth shared by [write] and [reserve]: nothing but
    the block and the capacity change, and the block has the room. *)
Lemma grow_correct b n :
  owner b -> 0 <= n -> used b + n + BLOCK < 2 ^ 64 ->
  let grown := if available b <? wrap64 (used b + n)
               then resize malloc b (wrap64 (used b + n)) else Some (true, b) in
  (grown = Some (false, b) /\ malloc (used b + n + BLOCK) = None)
  \/ exists b', grown = Some (true, b')
       /\ zlen (_data b') = STATIC_BLOCK
       /\ available b' = zlen (data b')
       /\ used b + n <= zlen (data b')
       /\ content b' = content b /\ used b' = used b
       /\ _subBuffers b' = _subBuffers b
       /\ _cachedSubBufferTotalSize b' = _cachedSubBufferTotalSize b.
Proof.
  intros [Hr Ha] Hn Hs. pose proof (readable_used b Hr) as [Hu _].
  assert (Hd : zlen (_data b) = STATIC_BLOCK) by by inversion Hr.
  unfold BLOCK in *. rewrite wrap64_small by lia. cbv zeta.
  destruct (Z.ltb_spec (available b) (used b + n)) as [Hlt|Hge].
  2: { right. exists b. split_and!; try done. lia. }
  unfold resize, BLOCK. rewrite wrap64_small by lia.
  destruct (realloc_correct (_bigdata b) (used b + n + 4096))
    as [[Hm ->] | (blk & -> & Hl & Ht)]; [lia| | |].
  { rewrite Ha in Hlt. unfold data in Hlt, Hu.
    destruct (_bigdata b); unfold zlen in *; cbn [default from_option id length] in *; lia. }
  { left. by rewrite Hm. }
  right. cbn [mbind option_bind]. unfold content, data in *.
  destruct (_bigdata b) as [big|]; cbn [default from_option id] in *.
  - cbn [mbind option_bind]. eexists. split; [done|]. cbn -[zlen].
    rewrite Hl. split_and!; try done; [lia|].
    rewrite <- Ht at 1. rewrite take_take. f_equal. unfold zlen in *. lia.
  - destruct (Z.ltb_spec 0 (used b)) as [Hpos|Hz].
    + assert (Hm : exists blk', memcpy blk 0 (_data b) (used b) = Some blk').
      { unfold memcpy. rewrite decide_True by lia. by eexists. }
      destruct Hm as [blk' Hm]. rewrite Hm. cbn [mbind option_bind].
      pose proof (memcpy_length _ _ _ _ _ Hm) as Hl'.
      apply memcpy_prefix in Hm. rewrite Z.add_0_l in Hm.
      eexists. split; [done|]. cbn -[zlen]. rewrite Hl', Hl.
      split_and!; try done. lia.
    + cbn [mbind option_bind]. eexists. split; [done|]. cbn -[zlen].
      replace (used b) with 0 by lia. rewrite Hl. split_and!; try done; lia.
Qed.

(** A buffer with the memory of [b'] and the value of [b] with bytes added. *)
Lemma owner_extend b b' src :
  readable b -> zlen (_data b') = STATIC_BLOCK -> available b' = zlen (data b') ->
  used b' = used b + zlen src -> used b' <= zlen (data b') -> used b' < 2 ^ 64 ->
  content b' = content b ++ src -> _subBuffers b' = _subBuffers b ->
  _cachedSubBufferTotalSize b' = _cachedSubBufferTotalSize b ->
  owner b' /\ abs b' = t_append (abs b) src.
Proof.
  intros Hr Hd Ha Hu Hle Hlt Hc Hs Hcs.
  inversion Hr as [? ? ? ? Hcache Hp Hf]; subst. rewrite abs_unfold in Hcache, Hp.
  split; [split; [constructor|done]|]; try done.
  - zlen_lia.
  - by rewrite abs_unfold, Hs, Hcs, Hcache.
  - rewrite abs_unfold, Hs, Hc. by apply placed_app.
  - by rewrite Hs.
  - unfold t_append. by rewrite !abs_unfold, Hc, Hs.
Qed.

Lemma data_set_data d b : data (set_data d b) = d.
Proof. unfold data, set_data. by destruct (_bigdata b) eqn:E. Qed.

Lemma set_data_fields d b :
  zlen d = zlen (data b) -> zlen (_data b) = STATIC_BLOCK ->
  zlen (_data (set_data d b)) = STATIC_BLOCK
  /\ used (set_data d b) = used b /\ available (set_data d b) = available b
  /\ _subBuffers (set_data d b) = _subBuffers b
  /\ _cachedSubBufferTotalSize (set_data d b) = _cachedSubBufferTotalSize b.
Proof.
  unfold set_data, data. intros H1 H2. destruct (_bigdata b); split_and!; try done.
  cbn. by rewrite H1.
Qed.

(** The code shared by [write] and the size written by [addSubBuffer]. *)
Lemma write_n_correct b src n :
  owner b -> 0 <= n <= zlen src -> used b + n + BLOCK < 2 ^ 64 ->
  (write_n malloc b src n = Some (false, b) /\ malloc (used b + n + BLOCK) = None)
  \/ exists b', write_n malloc b src n = Some (true, b') /\ owner b'
       /\ abs b' = t_append (abs b) (take (Z.to_nat n) src).
Proof.
  intros Ho Hn Hs. pose proof Ho as [Hr _]. unfold write_n.
  pose proof (readable_used b Hr) as [Hu _].
  destruct (grow_correct b n Ho) as [[-> Hm] | (b1 & -> & Hd & Ha & Hroom & Hc & Hu1 & Hsb & Hcs)];
    [lia | lia | left; by cbn | right].
  unfold BLOCK in Hs. cbn [mbind option_bind negb].
  assert (Hcpy : exists d, memcpy (data b1) (used b1) src n = Some d).
  { unfold memcpy. rewrite decide_True by lia. by eexists. }
  destruct Hcpy as [d Hcpy]. rewrite Hcpy. cbn [mbind option_bind].
  pose proof (memcpy_length _ _ _ _ _ Hcpy) as Hl.
  apply memcpy_prefix in Hcpy. rewrite Hu1, wrap64_small by lia.
  destruct (set_data_fields d b1 Hl Hd) as (Hf1 & Hf2 & Hf3 & Hf4 & Hf5).
  assert (Hdd : data (set_used (used b + n) (set_data d b1)) = d).
  { unfold set_used, data. cbn. apply data_set_data. }
  eexists. split; [done|]. apply owner_extend; cbn [set_used _data used
    available _subBuffers _cachedSubBufferTotalSize]; try done; try congruence.
  - rewrite zlen_take; lia.
  - lia.
  - unfold content at 1. rewrite Hdd. cbn [used set_used].
    rewrite <- Hu1. rewrite Hcpy. fold (content b1). by rewrite Hc.
Qed.

Lemma write_cases b src :
  owner b -> used b + zlen src + BLOCK < 2 ^ 64 ->
  (write malloc b src = Some (false, b) /\ malloc (used b + zlen src + BLOCK) = None)
  \/ exists b', write malloc b src = Some (true, b') /\ owner b'
       /\ abs b' = t_append (abs b) src.
Proof.
  intros Ho Hs.
  destruct (write_n_correct b src (zlen src) Ho) as [? | (b' & H1 & H2 & H3)];
    [zlen_lia | zlen_lia | by left | right].
  exists b'. split_and!; [done | done |]. rewrite H3. f_equal.
  apply take_ge. unfold zlen. zlen_lia.
Qed.

Lemma reserve_cases b n :
  owner b -> 0 <= n -> used b + n + BLOCK < 2 ^ 64 ->
  (reserve malloc b n = Some (None, b) /\ malloc (used b + n + BLOCK) = None)
  \/ exists b' fill, reserve malloc b n = Some (Some (used b), b') /\ owner b'
       /\ zlen fill = n /\ abs b' = t_append (abs b) fill.
Proof.
  intros Ho Hn Hs. pose proof Ho as [Hr _]. unfold reserve.
  pose proof (readable_used b Hr) as [Hu _].
  destruct (grow_correct b n Ho) as [[-> Hm] | (b1 & -> & Hd & Ha & Hroom & Hc & Hu1 & Hsb & Hcs)];
    [lia | lia | left; by cbn | right].
  unfold BLOCK in Hs. cbn [mbind option_bind negb].
  rewrite Hu1, wrap64_small by lia.
  assert (Hdd : data (set_used (used b + n) b1) = data b1) by done.
  set (fill := take (Z.to_nat n) (drop (Z.to_nat (used b)) (data b1))).
  assert (Hfill : zlen fill = n).
  { unfold fill, zlen in *. rewrite length_take, length_drop. lia. }
  exists (set_used (used b + n) b1), fill. split; [done|].
  destruct (owner_extend b (set_used (used b + n) b1) fill) as [Hown Habs];
    cbn [set_used _data used available _subBuffers _cachedSubBufferTotalSize];
    try done; try congruence; try lia.
  unfold content at 1. rewrite Hdd. cbn [used set_used]. rewrite <- Hc.
  unfold content. rewrite Hu1. unfold fill.
  rewrite Z2Nat.inj_add by lia.
  rewrite <- (take_drop (Z.to_nat (used b)) (take _ (data b1))).
  rewrite take_take, skipn_firstn_comm. f_equal; f_equal; lia.
Qed.
End writers.

(** ** The copies and the comparison *)

Lemma tree_size_nonneg t : 0 <= tree_size t.
Proof.
  revert t. fix IH 1. intros [l subs]. rewrite tree_size_unfold. cbn [t_bytes t_subs].
  assert (0 <= subs_size subs).
  { induction subs as [|[o s] subs IHs]; cbn; [done|]. pose proof (IH s). unfold subs_size in *. zlen_lia. }
  zlen_lia.
Qed.

Lemma subs_size_nonneg l : 0 <= subs_size l.
Proof.
  induction l as [|[o s] l IH]; [done|]. pose proof (tree_size_nonneg s).
  unfold subs_size in *. cbn. lia.
Qed.

Lemma used_le_tree_size b : readable b -> used b <= tree_size (abs b).
Proof.
  intros H. rewrite tree_size_unfold, t_bytes_abs, zlen_content by done.
  pose proof (subs_size_nonneg (t_subs (abs b))). lia.
Qed.

Definition copy_subs (malloc : Z -> option bytes) :
    list (Z * BufferPrivate) -> option (list (Z * BufferPrivate)) :=
  fix copies l :=
    match l with
    | [] => Some []
    | (o, s) :: l' =>
        s' ← BufferPrivate_copy malloc s;
        r ← copies l';
        Some ((o, s') :: r)
    end.

Lemma copy_unfold malloc b :
  BufferPrivate_copy malloc b =
    (subs ← copy_subs malloc (_subBuffers b);
     match _bigdata b with
     | Some big =>
         match malloc (used b) with
         | Some blk =>
             blk' ← memcpy blk 0 big (used b);
             Some (mkBufferPrivate (Some blk') (zeros STATIC_BLOCK)
                     (_cachedSubBufferTotalSize b) (used b) (available b) subs)
         | None => None
         end
     | None =>
         d ← memcpy (zeros STATIC_BLOCK) 0 (_data b) (used b);
         Some (mkBufferPrivate None d
                 (_cachedSubBufferTotalSize b) (used b) (available b) subs)
     end).
Proof. by destruct b. Qed.

(** What the copy constructor establishes: the same value in a block that,
    when it is on the heap, has exactly the bytes in use. *)
Definition copied (b c : BufferPrivate) : Prop :=
  readable c /\ abs c = abs b /\ used c = used b /\ available c = available b
  /\ _bigdata c = match _bigdata b with Some _ => Some (content b) | None => None end.

Lemma memcpy_block blk src n :
  0 <= n <= zlen src -> n <= zlen blk ->
  exists d, memcpy blk 0 src n = Some d /\ zlen d = zlen blk
    /\ take (Z.to_nat n) d = take (Z.to_nat n) src.
Proof.
  intros Hn Hb. destruct (memcpy blk 0 src n) as [d|] eqn:Hm.
  - exists d. split_and!; [done | by eapply memcpy_length |].
    apply memcpy_prefix in Hm. by rewrite Z.add_0_l in Hm.
  - unfold memcpy in Hm. by rewrite decide_True in Hm by lia.
Qed.

Lemma zlen_zeros : zlen (zeros STATIC_BLOCK) = STATIC_BLOCK.
Proof. unfold zlen, zeros. rewrite length_replicate. done. Qed.

(** Rebuilding [readable] for a buffer with another block and equal copies of
    the sub-buffers. *)
Lemma readable_transfer b c :
  readable b -> zlen (_data c) = STATIC_BLOCK -> used c = used b ->
  used b <= zlen (data c) -> content c = content b ->
  map (fun p => (fst p, abs (snd p))) (_subBuffers c)
    = map (fun p => (fst p, abs (snd p))) (_subBuffers b) ->
  _cachedSubBufferTotalSize c = _cachedSubBufferTotalSize b ->
  Forall (fun p => readable (snd p)) (_subBuffers c) ->
  readable c /\ abs c = abs b.
Proof.
  intros Hr Hd Hu Hl Hc Hs Hcs Hf. pose proof (readable_used b Hr).
  assert (Ha : abs c = abs b) by (by rewrite !abs_unfold, Hc, Hs).
  split; [|done]. inversion Hr as [? ? ? ? Hcache Hp ?]; subst.
  constructor; try done; try lia.
  - by rewrite Hcs, Ha.
  - by rewrite Ha, Hc.
Qed.

Section copies.
#[local] Set Default Proof Using "Type*".
Context (malloc : Z -> option bytes) (limit : Z).
Context (malloc_length : forall n blk, malloc n = Some blk -> zlen blk = n).
Context (malloc_ok : forall n, 0 <= n <= limit -> malloc n <> None).

Lemma malloc_some n : 0 <= n <= limit -> exists blk, malloc n = Some blk /\ zlen blk = n.
Proof.
  intros H%malloc_ok. destruct (malloc n) as [blk|] eqn:E; [|done].
  exists blk. by split; [|apply malloc_length].
Qed.

Lemma copy_subs_correct l :
  Forall (fun p => tree_size (abs (snd p)) <= limit ->
            exists c, BufferPrivate_copy malloc (snd p) = Some c /\ copied (snd p) c) l ->
  subs_size (map (fun p => (fst p, abs (snd p))) l) <= limit ->
  exists l', copy_subs malloc l = Some l'
    /\ map (fun p => (fst p, abs (snd p))) l' = map (fun p => (fst p, abs (snd p))) l
    /\ Forall (fun p => readable (snd p)) l'.
Proof.
  induction 1 as [|[o s] l Hs _ IH]; [intros; by exists []|]. cbn [map fst snd] in *.
  intros Hsz. change (tree_size (abs s) + subs_size (map (λ p, (p.1, abs p.2)) l) <= limit) in Hsz.
  pose proof (tree_size_nonneg (abs s)).
  pose proof (subs_size_nonneg (map (λ p, (p.1, abs p.2)) l)).
  destruct Hs as (c & Hc & Hr & Ha & _); [lia|].
  destruct IH as (l' & Hl & Hm & Hf); [lia|].
  exists ((o, c) :: l'). cbn [copy_subs]. rewrite Hc. cbn [mbind option_bind].
  fold (copy_subs malloc). rewrite Hl. cbn [mbind option_bind map fst snd].
  rewrite Ha, Hm. split_and!; [done | done | by constructor].
Qed.

Lemma copy_total b :
  readable b -> tree_size (abs b) <= limit ->
  exists c, BufferPrivate_copy malloc b = Some c /\ copied b c.
Proof.
  induction b as [b IH] using BufferPrivate_ind_nested. intros Hr Hsz.
  pose proof (used_le_tree_size b Hr) as Hu. pose proof (readable_used b Hr) as [Hu' _].
  inversion Hr as [? Hd _ _ _ _ Hf]; subst.
  destruct (copy_subs_correct (_subBuffers b)) as (subs & Hc & Hm & Hfs).
  { apply Forall_forall. intros p Hp ?. rewrite Forall_forall in IH, Hf. apply IH; [done | by apply Hf | done]. }
  { rewrite tree_size_unfold, (abs_unfold b) in Hsz. cbn [t_bytes t_subs] in Hsz.
    zlen_lia. }
  rewrite copy_unfold, Hc. cbn [mbind option_bind]. unfold copied.
  unfold data in Hu'. destruct (_bigdata b) as [big|] eqn:Hbig.
  - destruct (malloc_some (used b)) as (blk & -> & Hlen); [zlen_lia|].
    destruct (memcpy_block blk big (used b)) as (d & -> & Hl & Ht); [zlen_lia | zlen_lia |].
    cbn [mbind option_bind]. eexists. split; [done|].
    assert (Hcont : d = content b).
    { unfold content, data. rewrite Hbig, <- Ht. symmetry. apply take_ge.
      unfold zlen in *. zlen_lia. }
    apply and_assoc. split; [|by subst d].
    apply readable_transfer; cbn; try done; [zlen_lia|].
    unfold content, data. cbn. by rewrite Hbig.
  - destruct (memcpy_block (zeros STATIC_BLOCK) (_data b) (used b)) as (d & -> & Hl & Ht);
      [zlen_lia | rewrite zlen_zeros; zlen_lia |].
    cbn [mbind option_bind]. eexists. split; [done|].
    rewrite zlen_zeros in Hl. apply and_assoc. split; [|done].
    apply readable_transfer; cbn; try done; [zlen_lia|].
    unfold content, data. cbn. by rewrite Hbig.
Qed.

(** Recording a copy of a sub-buffer after its size has been written. *)
Lemma record_sub b b1 s c :
  readable b -> owner b1 -> readable s -> readable c -> abs c = abs s ->
  abs b1 = t_append (abs b) (le_encode 4 (zlen (t_bytes (abs s)))) ->
  let b' := mkBufferPrivate (_bigdata b1) (_data b1)
              (wrap64 (_cachedSubBufferTotalSize b1 + totalSize s))
              (used b1) (available b1) (_subBuffers b1 ++ [(used b, c)]) in
  owner b' /\ abs b' = t_add (abs b) (abs s).
Proof.
  intros Hb [H1 Ha1] Hs Hrc Hac Habs b'.
  assert (Hcont : content b1 = t_bytes (abs b) ++ le_encode 4 (zlen (t_bytes (abs s))))
    by (by rewrite <- t_bytes_abs, Habs).
  assert (Hsubs : t_subs (abs b1) = t_subs (abs b)) by by rewrite Habs.
  assert (Hc' : content b' = content b1) by done.
  assert (Habs' : abs b' = t_add (abs b) (abs s)).
  { rewrite abs_unfold, Hc', Hcont. unfold t_add. cbn [_subBuffers b'].
    rewrite map_app. rewrite (abs_unfold b1) in Hsubs. cbn [t_subs] in Hsubs.
    cbn [map fst snd]. rewrite Hsubs, Hac, (t_bytes_abs b), zlen_content; done. }
  split; [|done]. inversion H1 as [? ? ? ? Hcache1 Hp1 Hf1]; subst.
  inversion Hb as [? ? ? ? _ Hp _]; subst.
  split; [|done]. constructor; try done.
  - rewrite Habs'. cbn [b' _cachedSubBufferTotalSize t_subs t_add].
    rewrite subs_size_app, Hcache1, totalSize_correct, wrap64_add_l, wrap64_add_r, Hsubs by done.
    f_equal. cbn. lia.
  - rewrite Habs', Hc', Hcont. cbn [t_subs t_add]. apply placed_snoc.
    by rewrite t_bytes_abs.
  - cbn [b' _subBuffers]. apply Forall_app. split; [done|]. constructor; [done | constructor].
Qed.

Lemma addSubBuffer_cases b s :
  owner b -> readable s -> tree_size (abs s) <= limit ->
  used b + sizeof_size_type + BLOCK <= limit -> limit < 2 ^ 64 ->
  exists b', addSubBuffer malloc b s = Some (used b, b') /\ owner b'
    /\ abs b' = t_add (abs b) (abs s).
Proof.
  intros Ho Hs Hsz Hroom Hlim. unfold addSubBuffer, sizeof_size_type, BLOCK in *.
  pose proof (readable_used s Hs) as [Hus _].
  pose proof (readable_used b (proj1 Ho)) as [Hub _].
  destruct (write_n_correct malloc malloc_length b (le_encode 8 (size s)) 4 Ho)
    as [[_ Hm] | (b1 & -> & Hb1 & Habs)]; unfold BLOCK in *.
  { rewrite zlen_le_encode. lia. } { lia. }
  { by apply malloc_ok in Hm; [|lia]. }
  destruct (copy_total s Hs Hsz) as (c & Hc & Hrc & Hac & _).
  cbn [mbind option_bind]. rewrite Hc. cbn [mbind option_bind].
  eexists. split; [done|].
  apply record_sub; try done; [apply Ho|]. rewrite Habs. f_equal.
  unfold size. by rewrite t_bytes_abs, zlen_content.
Qed.
End copies.

(** ** Sequences of operations *)

Inductive buffer_op :=
  | OpWrite (src : bytes)
  | OpReserve (n : Z)
  | OpAddSubBuffer (s : BufferPrivate)
  | OpClear.

Definition exec_op (malloc : Z -> option bytes) (b : BufferPrivate) (op : buffer_op) :
    option BufferPrivate :=
  match op with
  | OpWrite src => r ← write malloc b src; Some (snd r)
  | OpReserve n => r ← reserve malloc b n; Some (snd r)
  | OpAddSubBuffer s => r ← addSubBuffer malloc b s; Some (snd r)
  | OpClear => Some (clear b)
  end.

Fixpoint exec_ops (malloc : Z -> option bytes) (b : BufferPrivate) (ops : list buffer_op) :
    option BufferPrivate :=
  match ops with
  | [] => Some b
  | op :: ops' => b' ← exec_op malloc b op; exec_ops malloc b' ops'
  end.

(** The abstract operations. The bytes of a reservation are unspecified. *)
Inductive spec_op : tree -> buffer_op -> tree -> Prop :=
  | spec_write t src : spec_op t (OpWrite src) (t_append t src)
  | spec_reserve t n fill : zlen fill = n -> spec_op t (OpReserve n) (t_append t fill)
  | spec_add t s : spec_op t (OpAddSubBuffer s) (t_add t (abs s))
  | spec_clear t : spec_op t OpClear t_empty.

Inductive spec_ops : tree -> list buffer_op -> tree -> Prop :=
  | spec_ops_nil t : spec_ops t [] t
  | spec_ops_cons t t' t'' op ops :
      spec_op t op t' -> spec_ops t' ops t'' -> spec_ops t (op :: ops) t''.

(** The bytes an operation adds to the buffer, and what it asks of its
    arguments. *)
Definition op_size (op : buffer_op) : Z :=
  match op with
  | OpWrite src => zlen src
  | OpReserve n => n
  | OpAddSubBuffer _ => sizeof_size_type
  | OpClear => 0
  end.

Definition ops_size (ops : list buffer_op) : Z := foldr (fun op acc => op_size op + acc) 0 ops.

Definition op_ok (limit : Z) (op : buffer_op) : Prop :=
  match op with
  | OpReserve n => 0 <= n
  | OpAddSubBuffer s => readable s /\ tree_size (abs s) <= limit
  | _ => True
  end.

Lemma op_size_nonneg limit op : op_ok limit op -> 0 <= op_size op.
Proof.
  destruct op; cbn [op_ok op_size]; intros; try done; apply zlen_nonneg.
Qed.

Lemma ops_size_nonneg limit ops : Forall (op_ok limit) ops -> 0 <= ops_size ops.
Proof.
  induction 1 as [|op ops H _ IH]; [done|]. apply op_size_nonneg in H.
  unfold ops_size in *. cbn [foldr]. lia.
Qed.

Lemma owner_new : owner BufferPrivate_new.
Proof. split; [constructor|]; (done || by constructor). Qed.

Lemma owner_clear b : owner b -> owner (clear b) /\ abs (clear b) = t_empty.
Proof.
  intros [Hr Ha]. inversion Hr; subst. unfold t_empty.
  assert (Hc : content (clear b) = []) by done.
  assert (Habs : abs (clear b) = Tree [] []) by (by rewrite abs_unfold, Hc).
  split; [|done]. split; [|done]. constructor; rewrite ?Habs; try done; cbn.
  zlen_lia.
Qed.

Section traces.
#[local] Set Default Proof Using "Type*".
Context (malloc : Z -> option bytes) (limit : Z).
Context (malloc_length : forall n blk, malloc n = Some blk -> zlen blk = n).
Context (malloc_ok : forall n, 0 <= n <= limit -> malloc n <> None).
Context (limit_small : limit < 2 ^ 64).

Lemma exec_op_refines b op :
  owner b -> op_ok limit op -> used b + op_size op + BLOCK <= limit ->
  exists b', exec_op malloc b op = Some b' /\ owner b' /\ spec_op (abs b) op (abs b')
    /\ used b' <= used b + op_size op.
Proof.
  intros Ho Hop Hroom. pose proof (readable_used b (proj1 Ho)) as [Hu _].
  pose proof (op_size_nonneg _ _ Hop). unfold BLOCK in *.
  assert (Hused : forall b' t, owner b' -> abs b' = t -> used b' = zlen (t_bytes t)).
  { intros b' t [Hb' _] <-. by rewrite t_bytes_abs, zlen_content. }
  pose proof (Hused b _ Ho eq_refl) as Hub.
  destruct op as [src|n|s|]; cbn [exec_op op_size op_ok] in *.
  - destruct (write_cases malloc malloc_length b src Ho) as [[_ Hm] | (b' & -> & Ho' & Ha)];
      unfold BLOCK in *; [lia | by apply malloc_ok in Hm; [|lia] |].
    exists b'. rewrite (Hused b' _ Ho' Ha), Ha. cbn [t_bytes t_append]. rewrite zlen_app.
    split_and!; [done | done | constructor | lia].
  - destruct (reserve_cases malloc malloc_length b n Ho Hop)
      as [[_ Hm] | (b' & fill & -> & Ho' & Hf & Ha)];
      unfold BLOCK in *; [lia | by apply malloc_ok in Hm; [|lia] |].
    exists b'. rewrite (Hused b' _ Ho' Ha), Ha. cbn [t_bytes t_append]. rewrite zlen_app.
    split_and!; [done | done | by constructor | lia].
  - destruct Hop as [Hs Hsz].
    destruct (addSubBuffer_cases malloc limit malloc_length malloc_ok b s Ho Hs Hsz)
      as (b' & -> & Ho' & Ha); unfold BLOCK; [lia | done |].
    exists b'. rewrite (Hused b' _ Ho' Ha), Ha. cbn [t_bytes t_add].
    rewrite zlen_app, zlen_le_encode. unfold sizeof_size_type.
    split_and!; [done | done | constructor | lia].
  - destruct (owner_clear b Ho) as [Ho' Ha]. exists (clear b). rewrite Ha.
    split_and!; [done | done | constructor | cbn; lia].
Qed.

Lemma exec_ops_refines ops : forall b,
  owner b -> Forall (op_ok limit) ops -> used b + ops_size ops + BLOCK <= limit ->
  exists b', exec_ops malloc b ops = Some b' /\ owner b' /\ spec_ops (abs b) ops (abs b').
Proof.
  induction ops as [|op ops IH]; intros b Ho Hf Hroom.
  { exists b. split_and!; [done | done | constructor]. }
  apply Forall_cons in Hf as [Hop Hf]. pose proof (ops_size_nonneg _ _ Hf).
  change (used b + (op_size op + ops_size ops) + BLOCK <= limit) in Hroom.
  destruct (exec_op_refines b op Ho Hop) as (b1 & He & Ho1 & Hs1 & Hu1); [lia|].
  destruct (IH b1 Ho1 Hf) as (b' & He' & Ho' & Hs'); [lia|].
  exists b'. cbn [exec_ops]. rewrite He. split_and!; [done | done |].
  by econstructor.
Qed.
End traces.

(** ** What a reader gets back *)

Inductive item := Chunk (d : bytes) | Sub (s : BufferPrivate).

Definition item_op (i : item) : buffer_op :=
  match i with Chunk d => OpWrite d | Sub s => OpAddSubBuffer s end.

Inductive value := VBytes (d : bytes) | VSub (t : tree).

Definition item_value (i : item) : value :=
  match i with Chunk d => VBytes d | Sub s => VSub (abs s) end.

(** Reading the items of a buffer in order, knowing only the sizes of the
    chunks ([None] asks for a sub-buffer). *)
Definition item_shape (i : item) : option Z :=
  match i with Chunk d => Some (zlen d) | Sub _ => None end.

Fixpoint read_items (b : BufferPrivate) (r : BufferReader) (shapes : list (option Z)) :
    option (list value * BufferReader) :=
  match shapes with
  | [] => Some ([], r)
  | Some n :: shapes' =>
      x ← reader_read_into b r n;
      rest ← read_items b (snd x) shapes';
      Some (VBytes (fst x) :: fst rest, snd rest)
  | None :: shapes' =>
      match reader_subBuffer b r with
      | (Ok s, r') =>
          rest ← read_items b r' shapes';
          Some (VSub (abs s) :: fst rest, snd rest)
      | (Err _, _) => None
      end
  end.

Definition render1 (t : tree) (i : item) : tree :=
  match i with Chunk d => t_append t d | Sub s => t_add t (abs s) end.

Lemma render_prefix items : forall t,
  exists c s, t_bytes (foldl render1 t items) = t_bytes t ++ c
    /\ t_subs (foldl render1 t items) = t_subs t ++ s.
Proof.
  induction items as [|i items IH]; intros t; cbn [foldl].
  { exists [], []. by rewrite !app_nil_r. }
  destruct (IH (render1 t i)) as (c & s & -> & ->).
  destruct i; cbn [render1 t_append t_add t_bytes t_subs]; rewrite <- !app_assoc; eauto.
Qed.

(** The sizes of the tree that a script of items builds. *)
Lemma render_sizes items : forall t,
  zlen (t_bytes (foldl render1 t items)) = zlen (t_bytes t) + ops_size (map item_op items)
  /\ zlen (t_subs (foldl render1 t items))
     <= zlen (t_subs t) + ops_size (map item_op items).
Proof.
  induction items as [|i items IH]; intros t; cbn [foldl map].
  { unfold ops_size. cbn. zlen_lia. }
  destruct (IH (render1 t i)) as [-> H]. unfold ops_size in *. cbn [foldr].
  destruct i as [d|s]; cbn [render1 t_append t_add t_bytes t_subs item_op op_size] in *.
  - rewrite zlen_app. zlen_lia.
  - rewrite !zlen_app, zlen_le_encode in *. unfold sizeof_size_type.
    change (zlen [(zlen (t_bytes t), abs s)]) with 1 in H. zlen_lia.
Qed.

Lemma spec_ops_render items t t' :
  spec_ops t (map item_op items) t' -> t' = foldl render1 t items.
Proof.
  revert t. induction items as [|i items IH]; intros t H; inversion H as [|? ? ? ? ? Ho Hs]; subst.
  - done.
  - apply IH in Hs as ->. cbn [foldl]. f_equal. destruct i; by inversion Ho.
Qed.

(** Reading inside of the content of a buffer. *)
Lemma reader_chunk b pre d post k :
  readable b -> content b = pre ++ d ++ post ->
  reader_read_into b (mkBufferReader (zlen pre) k) (zlen d)
  = Some (d, mkBufferReader (zlen (pre ++ d)) k).
Proof.
  intros Hr Hc. pose proof (readable_used b Hr) as [Hu Hlt].
  pose proof (zlen_content b Hr) as Hl. rewrite Hc, !zlen_app in Hl.
  unfold reader_read_into, size. cbn [_cursor _subCursor].
  rewrite (wrap64_small (used b - zlen pre)) by zlen_lia. destruct (Z.ltb_spec (used b - zlen pre) (zlen d)); [zlen_lia|].
  rewrite <- (take_drop (Z.to_nat (used b)) (data b)). fold (content b). rewrite Hc.
  rewrite <- !app_assoc, mem_read_middle. cbn [mbind option_bind].
  rewrite wrap64_small by zlen_lia. by rewrite zlen_app.
Qed.

(** The bounded [read] stays inside of the buffer. *)
Lemma reader_read_into_total b r n :
  readable b -> 0 <= _cursor r <= size b -> 0 <= n ->
  exists l, reader_read_into b r n = Some (l, mkBufferReader (_cursor r + zlen l) (_subCursor r))
    /\ zlen l = Z.min n (size b - _cursor r).
Proof.
  intros Hread Hcursor Hn. pose proof (readable_used b Hread) as [Hu Hlt].
  unfold reader_read_into, size in *. rewrite (wrap64_small (used b - _cursor r)) by lia.
  set (m := if used b - _cursor r <? n then used b - _cursor r else n).
  assert (Hm : m = Z.min n (used b - _cursor r)).
  { unfold m. destruct (Z.ltb_spec (used b - _cursor r) n); lia. }
  unfold mem_read. rewrite decide_True by lia. cbn [mbind option_bind].
  set (l := take _ _).
  assert (Hl : zlen l = m).
  { unfold l, zlen in *. rewrite length_take, length_drop. lia. }
  exists l. split; [|lia]. rewrite wrap64_small by lia. by rewrite Hl.
Qed.

Lemma reader_sub b pre o s post k :
  readable b -> _subBuffers b = pre ++ (o, s) :: post ->
  used b + sizeof_size_type < 2 ^ 64 -> o <= used b -> 0 <= o -> k = zlen pre -> k + 1 < 2 ^ 64 ->
  reader_subBuffer b (mkBufferReader o k)
  = (Ok s, mkBufferReader (o + sizeof_size_type) (k + 1)).
Proof.
  intros Hr Hs Hu Ho Hpos -> Hk. unfold reader_subBuffer, reader_hasSubBuffer, subBuffers.
  cbn [_cursor _subCursor]. 
  rewrite Hs at 1. rewrite zlen_app, zlen_cons.
  destruct (Z.leb_spec (zlen pre + (1 + zlen post)) (zlen pre)); [zlen_lia|].
  assert (Hl : _subBuffers b !! Z.to_nat (zlen pre) = Some (o, s)).
  { rewrite Hs. unfold zlen. rewrite Nat2Z.id. by apply list_lookup_middle. }
  rewrite Hl, Z.eqb_refl. cbn [negb]. unfold sizeof_size_type in *.
  by rewrite !wrap64_small by zlen_lia.
Qed.

Lemma read_items_correct b items : forall t,
  readable b -> abs b = foldl render1 t items ->
  used b + sizeof_size_type < 2 ^ 64 -> zlen (_subBuffers b) + 1 < 2 ^ 64 ->
  read_items b (mkBufferReader (zlen (t_bytes t)) (zlen (t_subs t))) (map item_shape items)
  = Some (map item_value items, mkBufferReader (used b) (zlen (_subBuffers b))).
Proof.
  induction items as [|i items IH]; intros t Hr Ha Hu Hk.
  { cbn [foldl map read_items] in *. subst t. rewrite t_bytes_abs, zlen_content by done.
    rewrite abs_unfold. cbn [t_subs]. unfold zlen. by rewrite length_map. }
  cbn [foldl] in Ha. destruct (render_prefix items (render1 t i)) as (c & s & Hc & Hs).
  rewrite <- Ha, t_bytes_abs in Hc. rewrite <- Ha, abs_unfold in Hs. cbn [t_subs] in Hs.
  destruct i as [d|sb]; cbn [map item_shape read_items render1 t_append t_add t_bytes t_subs] in *.
  - rewrite <- app_assoc in Hc. rewrite (reader_chunk b _ d c) by done.
    cbn [mbind option_bind fst snd]. specialize (IH _ Hr Ha Hu Hk).
    cbn [t_bytes t_subs t_append] in IH. rewrite IH. done.
  - rewrite <- app_assoc in Hs. apply map_eq_app in Hs as (l1 & l2 & Hl & Hl1 & Hl2).
    destruct l2 as [|[o s'] l2]; [done|]. cbn [map fst snd app] in Hl2.
    injection Hl2 as Ho Hs' _. subst o.
    assert (Hpre : zlen (t_subs t) = zlen l1).
    { rewrite <- Hl1. unfold zlen. by rewrite length_map. }
    pose proof (zlen_content b Hr) as Hzl. rewrite Hc, !zlen_app in Hzl.
    rewrite zlen_le_encode in Hzl.
    assert (Hkk : zlen (t_subs t) + 1 < 2 ^ 64).
    { rewrite Hpre. rewrite Hl, zlen_app, zlen_cons in Hk. zlen_lia. }
    rewrite (reader_sub b l1 _ s' l2) by (done || zlen_lia).
    specialize (IH _ Hr Ha Hu Hk). cbn [t_bytes t_subs t_add] in IH.
    rewrite !zlen_app, zlen_le_encode, zlen_cons in IH. unfold sizeof_size_type.
    change (Z.of_nat 4) with 4 in IH. change (1 + zlen []) with 1 in IH.
    rewrite IH. cbn [mbind option_bind fst snd]. by rewrite Hs'.
Qed.

(** ** Comparison *)

Definition subs_eq : list (Z * BufferPrivate) -> list (Z * BufferPrivate) -> bool :=
  fix subs_eq l k :=
    match l, k with
    | [], [] => true
    | (o, s) :: l', (o', s') :: k' => (o =? o') && buffer_eq s s' && subs_eq l' k'
    | _, _ => false
    end.

Lemma buffer_eq_unfold a b :
  buffer_eq a b = dataEqual (data a) (used a) (data b) (used b)
                  && subs_eq (_subBuffers a) (_subBuffers b).
Proof. by destruct a. Qed.

Lemma dataEqual_correct a b :
  readable a -> readable b ->
  dataEqual (data a) (used a) (data b) (used b) = true <-> content a = content b.
Proof.
  intros Ha Hb. unfold dataEqual. pose proof (zlen_content a Ha). pose proof (zlen_content b Hb).
  destruct (Z.eqb_spec (used a) (used b)) as [He|Hne]; cbn [negb].
  - rewrite bool_decide_eq_true. unfold content. by rewrite He.
  - split; [done|]. intros Hc. congruence.
Qed.

Lemma buffer_eq_correct a : forall b,
  readable a -> readable b -> (buffer_eq a b = true <-> abs a = abs b).
Proof.
  induction a as [a IH] using BufferPrivate_ind_nested. intros b Ha Hb.
  rewrite buffer_eq_unfold, andb_true_iff, dataEqual_correct by done.
  assert (Hs : subs_eq (_subBuffers a) (_subBuffers b) = true <->
    map (fun p => (fst p, abs (snd p))) (_subBuffers a)
    = map (fun p => (fst p, abs (snd p))) (_subBuffers b)).
  { inversion Ha as [? _ _ _ _ _ Hfa]; subst. inversion Hb as [? _ _ _ _ _ Hfb]; subst.
    revert Hfa Hfb IH. generalize (_subBuffers a) (_subBuffers b).
    clear. intros l. induction l as [|[o s] l IHl]; intros [|[o' s'] k] Hl Hk Hf;
      cbn [subs_eq map fst snd]; try done.
    apply Forall_cons in Hl as [Hs Hl], Hk as [Hs' Hk], Hf as [Hsf Hf].
    cbn [fst snd] in *. rewrite !andb_true_iff, Z.eqb_eq, (Hsf s'), (IHl k) by done.
    split; [intros [[-> ->] ->]; done | intros [= -> -> ->]; done]. }
  rewrite Hs, (abs_unfold a), (abs_unfold b). split; [by intros [-> ->] | by intros [= -> ->]].
Qed.

(** ** The properties *)

(** C6. The buffer is memory safe and refines its abstract value: any
    sequence of [write], [reserve], [addSubBuffer] and [clear] from a fresh
    buffer, of total size within what the allocator can give, runs without an
    access outside of the block in use, each operation has its effect on the
    bytes and on the sub-buffers and nothing else, the buffer still owns what it
    says it owns, and the cached [totalSize] is the size of the tree. *)
Theorem buffer_ops_refine malloc limit ops
    (Hlength : forall n blk, malloc n = Some blk -> zlen blk = n)
    (Hok : forall n, 0 <= n <= limit -> malloc n <> None)
    (Hlimit : limit < 2 ^ 64) (Hops : Forall (op_ok limit) ops)
    (Hsize : ops_size ops + BLOCK <= limit) :
  exists b, exec_ops malloc BufferPrivate_new ops = Some b /\ owner b
    /\ spec_ops t_empty ops (abs b)
    /\ size b = zlen (t_bytes (abs b))
    /\ totalSize b = wrap64 (tree_size (abs b)).
Proof.
  destruct (exec_ops_refines malloc limit Hlength Hok Hlimit ops BufferPrivate_new owner_new Hops)
    as (b & He & Ho & Hs); [done|].
  exists b. split_and!; try done.
  - unfold size. by rewrite t_bytes_abs, zlen_content by apply Ho.
  - apply totalSize_correct, Ho.
Qed.

(** An allocator with [limit] bytes at most. *)
Definition bounded_malloc (limit n : Z) : option bytes :=
  if decide (0 <= n <= limit) then Some (replicate (Z.to_nat n) "?"%char) else None.

Lemma bounded_malloc_length limit n blk : bounded_malloc limit n = Some blk -> zlen blk = n.
Proof.
  unfold bounded_malloc, zlen. case_decide; [|done]. intros [= <-].
  rewrite length_replicate. lia.
Qed.

Lemma bounded_malloc_ok limit n : 0 <= n <= limit -> bounded_malloc limit n <> None.
Proof. intros H. unfold bounded_malloc. by rewrite decide_True. Qed.

#[export] Hint Resolve owner_new bounded_malloc_length bounded_malloc_ok : qi.

Definition sample_ops : list buffer_op :=
  [OpWrite (lit "abc"); OpAddSubBuffer BufferPrivate_new; OpReserve 900; OpWrite (lit "d")].

Lemma buffer_ops_refine_witness :
  exists b, exec_ops (bounded_malloc 6000) BufferPrivate_new sample_ops = Some b /\ owner b
    /\ spec_ops t_empty sample_ops (abs b)
    /\ size b = zlen (t_bytes (abs b))
    /\ totalSize b = wrap64 (tree_size (abs b)).
Proof.
  apply (buffer_ops_refine (bounded_malloc 6000) 6000 sample_ops
           (bounded_malloc_length 6000) (bounded_malloc_ok 6000)).
  - lia.
  - repeat constructor; try done; cbn; lia.
  - vm_compute. discriminate.
Defined.

(** Both outcomes of the allocation: [write] either appends its bytes and
    gives true, or gives false because the allocation of the new block failed,
    and then the buffer is unchanged; in the same way [reserve] gives the offset
    of [n] new bytes at the end of the buffer, or null. *)
Theorem buffer_write_correct malloc b src n
    (Hlength : forall n blk, malloc n = Some blk -> zlen blk = n)
    (Hown : owner b) (Hn : 0 <= n)
    (Hwrite : used b + zlen src + BLOCK < 2 ^ 64) (Hreserve : used b + n + BLOCK < 2 ^ 64) :
  ((write malloc b src = Some (false, b) /\ malloc (used b + zlen src + BLOCK) = None)
   \/ exists b', write malloc b src = Some (true, b') /\ owner b'
        /\ abs b' = t_append (abs b) src)
  /\ ((reserve malloc b n = Some (None, b) /\ malloc (used b + n + BLOCK) = None)
      \/ exists b' fill, reserve malloc b n = Some (Some (used b), b') /\ owner b'
           /\ zlen fill = n /\ abs b' = t_append (abs b) fill).
Proof. split; [by apply write_cases | by apply reserve_cases]. Qed.

Lemma buffer_write_correct_witness :
  (write (bounded_malloc 0) BufferPrivate_new (zeros 800) = Some (false, BufferPrivate_new)
     /\ bounded_malloc 0 4896 = None)
   \/ exists b', write (bounded_malloc 0) BufferPrivate_new (zeros 800) = Some (true, b') /\ owner b'
        /\ abs b' = t_append (abs BufferPrivate_new) (zeros 800).
Proof.
  refine (proj1 (buffer_write_correct (bounded_malloc 0) BufferPrivate_new (zeros 800) 3
    (bounded_malloc_length 0) owner_new _ _ _)); [lia | vm_compute; done | vm_compute; done].
Defined.

(** Copying a buffer gives an equal buffer: the copy constructor succeeds
    when the allocations do, its result has the same bytes and the same tree of
    sub-buffers, and [operator==], which decides the equality of the trees, says
    so. Moving a buffer hands over the buffer itself and leaves an empty one. *)
Theorem buffer_copy_equal malloc limit b
    (Hlength : forall n blk, malloc n = Some blk -> zlen blk = n)
    (Hok : forall n, 0 <= n <= limit -> malloc n <> None)
    (Hread : readable b) (Hsize : tree_size (abs b) <= limit) :
  (exists c, BufferPrivate_copy malloc b = Some c /\ readable c /\ abs c = abs b
     /\ buffer_eq b c = true /\ totalSize c = totalSize b)
  /\ (forall d, readable d -> buffer_eq b d = true <-> abs b = abs d)
  /\ (fst (Buffer_move b) = b /\ abs (snd (Buffer_move b)) = t_empty).
Proof.
  split; [|by split; [intros d Hd; apply buffer_eq_correct|]].
  destruct (copy_total malloc limit Hlength Hok b Hread Hsize) as (c & Hc & Hr & Ha & _).
  exists c. split_and!; try done.
  - by apply buffer_eq_correct.
  - by rewrite !totalSize_correct, Ha.
Qed.

Lemma buffer_copy_equal_witness :
  exists c, BufferPrivate_copy (bounded_malloc 10) BufferPrivate_new = Some c /\ readable c
    /\ abs c = abs BufferPrivate_new /\ buffer_eq BufferPrivate_new c = true
    /\ totalSize c = totalSize BufferPrivate_new.
Proof.
  refine (proj1 (buffer_copy_equal (bounded_malloc 10) 10 BufferPrivate_new
    (bounded_malloc_length 10) (bounded_malloc_ok 10) (proj1 owner_new) _)).
  vm_compute. discriminate.
Defined.

(** The copy of a buffer whose bytes are on the heap is not safe to write
    to: it has a block of [used] bytes but keeps the capacity of the original,
    so a [write] that the recorded capacity admits copies its bytes outside of
    the block (undefined behaviour), while the same write is safe on the
    original. *)
Theorem copy_write_overflows malloc limit b big src
    (Hlength : forall n blk, malloc n = Some blk -> zlen blk = n)
    (Hok : forall n, 0 <= n <= limit -> malloc n <> None)
    (Hown : owner b) (Hsize : tree_size (abs b) <= limit) (Hheap : _bigdata b = Some big)
    (Hsrc : 0 < zlen src <= available b - used b) (Hsmall : available b + BLOCK < 2 ^ 64) :
  exists c, BufferPrivate_copy malloc b = Some c /\ abs c = abs b
    /\ write malloc c src = None /\ write malloc b src <> None.
Proof.
  destruct Hown as [Hr Ha]. unfold BLOCK in *.
  destruct (copy_total malloc limit Hlength Hok b Hr Hsize) as (c & Hc & Hrc & Habs & Hu & Hav & Hbig).
  exists c. pose proof (readable_used b Hr) as [Hub _]. split_and!; try done.
  - unfold write, write_n. rewrite Hu, Hav, wrap64_small by lia.
    destruct (Z.ltb_spec (available b) (used b + zlen src)); [lia|].
    cbn [mbind option_bind negb]. unfold data. rewrite Hbig, Hheap. unfold memcpy.
    rewrite decide_False; [done|]. rewrite zlen_content by done. lia.
  - destruct (write_cases malloc Hlength b src (conj Hr Ha)) as [[-> _] | (b' & -> & _)];
      [unfold BLOCK; lia | done | done].
Qed.

(** Eight hundred bytes, in a heap block of 4896. *)
Definition heap_buffer : BufferPrivate :=
  mkBufferPrivate (Some (zeros 800 ++ replicate 4096 "?"%char)) (zeros STATIC_BLOCK)
    0 800 4896 [].

Lemma heap_buffer_owner : owner heap_buffer.
Proof. split; [constructor|]; (done || by constructor). Qed.

Lemma copy_write_overflows_witness :
  write (bounded_malloc 10000) BufferPrivate_new (zeros 800) = Some (true, heap_buffer)
  /\ exists c, BufferPrivate_copy (bounded_malloc 10000) heap_buffer = Some c
       /\ abs c = abs heap_buffer
       /\ write (bounded_malloc 10000) c (lit "x") = None
       /\ write (bounded_malloc 10000) heap_buffer (lit "x") <> None.
Proof.
  split; [by vm_compute|].
  apply (copy_write_overflows (bounded_malloc 10000) 10000 heap_buffer
    (zeros 800 ++ replicate 4096 "?"%char) (lit "x")
    (bounded_malloc_length 10000) (bounded_malloc_ok 10000) heap_buffer_owner);
    vm_compute; done.
Defined.

(** What is written is what a reader gets: after any sequence of chunks and
    sub-buffers has been appended to a fresh buffer, a reader that asks for the
    same sizes and sub-buffers in the same order gets the same bytes and equal
    sub-buffers, and ends at the end of the buffer. *)
Theorem reader_roundtrip malloc limit items
    (Hlength : forall n blk, malloc n = Some blk -> zlen blk = n)
    (Hok : forall n, 0 <= n <= limit -> malloc n <> None)
    (Hlimit : limit < 2 ^ 64) (Hops : Forall (op_ok limit) (map item_op items))
    (Hsize : ops_size (map item_op items) + BLOCK <= limit) :
  exists b r, exec_ops malloc BufferPrivate_new (map item_op items) = Some b
    /\ read_items b BufferReader_new (map item_shape items) = Some (map item_value items, r)
    /\ position r = size b /\ reader_hasSubBuffer b r = false.
Proof.
  destruct (exec_ops_refines malloc limit Hlength Hok Hlimit _ BufferPrivate_new owner_new Hops)
    as (b & He & Ho & Hs); [done|].
  apply spec_ops_render in Hs.
  exists b, (mkBufferReader (used b) (zlen (_subBuffers b))). split; [done|].
  destruct (render_sizes items t_empty) as [H1 H2].
  change (abs BufferPrivate_new) with t_empty in Hs. rewrite <- Hs, t_bytes_abs in H1.
  rewrite zlen_content in H1 by apply Ho. rewrite <- Hs, abs_unfold in H2. cbn [t_subs] in H2.
  unfold zlen in H2. rewrite length_map in H2. fold (zlen (_subBuffers b)) in H2.
  unfold BLOCK, sizeof_size_type in *. cbn [t_bytes t_subs t_empty length] in *.
  change (zlen []) with 0 in H1.
  split; [|split; [done|]].
  - apply (read_items_correct b items t_empty); [apply Ho | done | |]; unfold sizeof_size_type; lia.
  - unfold reader_hasSubBuffer, subBuffers. cbn [_subCursor].
    by rewrite (proj2 (Z.leb_le _ _)) by lia.
Qed.

Lemma reader_roundtrip_witness :
  let items := [Chunk (lit "abc"); Sub BufferPrivate_new; Chunk (lit "de")] in
  exists b r, exec_ops (bounded_malloc 5000) BufferPrivate_new (map item_op items) = Some b
    /\ read_items b BufferReader_new (map item_shape items) = Some (map item_value items, r)
    /\ position r = size b /\ reader_hasSubBuffer b r = false.
Proof.
  apply (reader_roundtrip (bounded_malloc 5000) 5000 _
    (bounded_malloc_length 5000) (bounded_malloc_ok 5000)).
  - lia.
  - repeat constructor; try done; cbn; lia.
  - vm_compute. discriminate.
Defined.

(** The bounds checks of a reader, [offset] being any value of [size_t]:
    when the sum of the cursor and of [offset] is representable, [seek] and
    [peek] succeed exactly when the bytes are in the buffer, those bytes can be
    read, and [seek] moves by [offset]; the bounded [read] always stays inside
    of the buffer. When the sum wraps around, the checks are made on the wrapped
    sum: [seek] succeeds and moves backwards, and [peek] gives a pointer for a
    number of bytes that the buffer does not have. *)
Theorem reader_bounds b r offset
    (Hread : readable b) (Hcursor : 0 <= _cursor r <= size b) (Hoffset : 0 <= offset < 2 ^ 64) :
  (_cursor r + offset < 2 ^ 64 ->
     (fst (seek b r offset) = true <-> _cursor r + offset <= size b)
     /\ _cursor (snd (seek b r offset))
        = (if _cursor r + offset <=? size b then _cursor r + offset else _cursor r)
     /\ (forall p, peek b r offset = Some p <->
           p = _cursor r /\ _cursor r + offset <= size b
           /\ mem_read (data b) p offset <> None))
  /\ (2 ^ 64 <= _cursor r + offset ->
        fst (seek b r offset) = true
        /\ _cursor (snd (seek b r offset)) = _cursor r - (2 ^ 64 - offset)
        /\ _cursor (snd (seek b r offset)) < _cursor r
        /\ peek b r offset = Some (_cursor r) /\ size b < _cursor r + offset)
  /\ (exists l, reader_read_into b r offset
               = Some (l, mkBufferReader (_cursor r + zlen l) (_subCursor r))
             /\ zlen l = Z.min offset (size b - _cursor r)).
Proof.
  pose proof (readable_used b Hread) as [Hu Hlt]. unfold size in *. split_and!.
  - intros Hs. unfold seek, peek, size. rewrite wrap64_small by lia.
    destruct (Z.leb_spec (_cursor r + offset) (used b)); cbn [fst snd _cursor]; split_and!;
      try done; try lia.
    + intros p. split; [intros [= <-] | intros [-> _]; done].
      split_and!; [done | done |]. unfold mem_read. by rewrite decide_True by lia.
    + intros p. split; [done | lia].
  - intros Hs. unfold seek, peek, size.
    assert (Hw : wrap64 (_cursor r + offset) = _cursor r + offset - 2 ^ 64).
    { unfold wrap64. rewrite (Zmod_eq_full); [|lia].
      replace ((_cursor r + offset) / 2 ^ 64) with 1; [lia|].
      apply (Z.div_unique _ _ _ (_cursor r + offset - 2 ^ 64)); lia. }
    rewrite Hw, (proj2 (Z.leb_le _ _)) by lia. cbn [fst snd _cursor]. split_and!; (done || lia).
  - apply reader_read_into_total; (done || unfold size; lia).
Qed.

Lemma reader_bounds_witness :
  fst (seek heap_buffer (mkBufferReader 4 0) (2 ^ 64 - 1)) = true
  /\ _cursor (snd (seek heap_buffer (mkBufferReader 4 0) (2 ^ 64 - 1))) = 4 - (2 ^ 64 - (2 ^ 64 - 1))
  /\ _cursor (snd (seek heap_buffer (mkBufferReader 4 0) (2 ^ 64 - 1))) < 4
  /\ peek heap_buffer (mkBufferReader 4 0) (2 ^ 64 - 1) = Some 4
  /\ size heap_buffer < 4 + (2 ^ 64 - 1).
Proof.
  apply (reader_bounds heap_buffer (mkBufferReader 4 0) (2 ^ 64 - 1) (proj1 heap_buffer_owner));
    cbn; lia.
Defined.
