(* ===== verification/Message.v ===== *)
(** * Message: the messages of the protocol

    Model of [src/messaging/message.hpp] and of the parts of
    [src/messaging/message.cpp] that do not depend on the type system: the
    header and its layout, the kinds of messages, the accessors, the payload,
    and the printing. The functions of a message that may log only do not log
    in the model. *)
From S2P Require Import Prelude CString Bytes Buffer BufferProperties.
From Stdlib Require Import Ascii.
Open Scope Z_scope.

(** ** Identifiers *)

(** [enum Service], [enum GenericObject]. *)
Definition Service_Server : Z := 0.
Definition Service_ServiceDirectory : Z := 1.
Definition GenericObject_None : Z := 0.
Definition GenericObject_Main : Z := 1.

(** [enum BoundObjectFunction]. *)
Definition BoundObjectFunction_RegisterEvent : Z := 0.
Definition BoundObjectFunction_UnregisterEvent : Z := 1.
Definition BoundObjectFunction_MetaObject : Z := 2.
Definition BoundObjectFunction_Terminate : Z := 3.
Definition BoundObjectFunction_GetProperty : Z := 5.
Definition BoundObjectFunction_SetProperty : Z := 6.
Definition BoundObjectFunction_Properties : Z := 7.
Definition BoundObjectFunction_RegisterEventWithSignature : Z := 8.

(** [enum ServerFunction]. *)
Definition ServerFunction_Connect : Z := 4.
Definition ServerFunction_Authenticate : Z := 8.

(** [enum ServiceDirectoryAction]. *)
Definition ServiceDirectoryAction_Service : Z := 100.
Definition ServiceDirectoryAction_Services : Z := 101.
Definition ServiceDirectoryAction_RegisterService : Z := 102.
Definition ServiceDirectoryAction_UnregisterService : Z := 103.
Definition ServiceDirectoryAction_ServiceReady : Z := 104.
Definition ServiceDirectoryAction_UpdateServiceInfo : Z := 105.
Definition ServiceDirectoryAction_ServiceAdded : Z := 106.
Definition ServiceDirectoryAction_ServiceRemoved : Z := 107.
Definition ServiceDirectoryAction_MachineId : Z := 108.

(** [enum Type]. *)
Definition Type_None : Z := 0.
Definition Type_Call : Z := 1.
Definition Type_Reply : Z := 2.
Definition Type_Error : Z := 3.
Definition Type_Post : Z := 4.
Definition Type_Event : Z := 5.
Definition Type_Capability : Z := 6.
Definition Type_Cancel : Z := 7.
Definition Type_Canceled : Z := 8.

Definition TypeFlag_DynamicPayload : Z := 1.
Definition TypeFlag_ReturnType : Z := 2.

(** [MessageAddress]. *)
Record MessageAddress := mkMessageAddress {
  messageId : Z;
  serviceId : Z;
  objectId : Z;
  functionId : Z;
}.

#[export] Instance MessageAddress_eq_dec : EqDecision MessageAddress.
Proof. solve_decision. Defined.

(** ** The header *)

Record Header := mkHeader {
  magic : Z;
  id : Z;
  h_size : Z;
  version : Z;
  type : Z;
  flags : Z;
  service : Z;
  object : Z;
  action : Z;
}.

#[export] Instance Header_eq_dec : EqDecision Header.
Proof. solve_decision. Defined.

Definition magicCookie : Z := 0x42adde42.
Definition currentVersion : Z := 0.

(** [sizeof(Message::Header)]. *)
Definition sizeof_Header : Z := 28.

(** [newMessageId] increments its atomic counter and gives the new value. *)
Definition newMessageId (counter : Z) : Z * Z :=
  let counter := wrap 32 (counter + 1) in (counter, counter).

(** The default member initializers. *)
Definition Header_new (counter : Z) : Header * Z :=
  let '(i, counter) := newMessageId counter in
  (mkHeader magicCookie i 0 currentVersion 0 0 0 0 0, counter).

Definition header_address (h : Header) : MessageAddress :=
  mkMessageAddress (id h) (service h) (object h) (action h).

(** The representation of the header in memory, which is what is sent and
    received. There is no padding. *)
Definition header_bytes (h : Header) : bytes :=
  le_encode 4 (magic h) ++ le_encode 4 (id h) ++ le_encode 4 (h_size h)
  ++ le_encode 2 (version h) ++ le_encode 1 (type h) ++ le_encode 1 (flags h)
  ++ le_encode 4 (service h) ++ le_encode 4 (object h) ++ le_encode 4 (action h).

Definition field (l : bytes) (o n : nat) : Z := le_decode (take n (drop o l)).

Definition header_of_bytes (l : bytes) : Header :=
  mkHeader (field l 0 4) (field l 4 4) (field l 8 4) (field l 12 2) (field l 14 1)
    (field l 15 1) (field l 16 4) (field l 20 4) (field l 24 4).

(** The ranges of the types of the fields. *)
Definition header_wf (h : Header) : Prop :=
  0 <= magic h < 2 ^ 32 /\ 0 <= id h < 2 ^ 32 /\ 0 <= h_size h < 2 ^ 32
  /\ 0 <= version h < 2 ^ 16 /\ 0 <= type h < 2 ^ 8 /\ 0 <= flags h < 2 ^ 8
  /\ 0 <= service h < 2 ^ 32 /\ 0 <= object h < 2 ^ 32 /\ 0 <= action h < 2 ^ 32.

(** ** Names *)

Definition typeToString (t : Z) : bytes :=
  if t =? Type_None then lit "None"
  else if t =? Type_Call then lit "Call"
  else if t =? Type_Reply then lit "Reply"
  else if t =? Type_Error then lit "Error"
  else if t =? Type_Post then lit "Post"
  else if t =? Type_Event then lit "Event"
  else if t =? Type_Capability then lit "Capability"
  else if t =? Type_Cancel then lit "Cancel"
  else if t =? Type_Canceled then lit "Canceled"
  else lit "Unknown".

(** [None] is the null pointer. *)
Definition actionToString (action service : Z) : option bytes :=
  if action =? BoundObjectFunction_RegisterEvent then Some (lit "RegisterEvent")
  else if action =? BoundObjectFunction_UnregisterEvent then Some (lit "UnregisterEvent")
  else if action =? BoundObjectFunction_MetaObject then Some (lit "MetaObject")
  else if action =? BoundObjectFunction_Terminate then Some (lit "Terminate")
  else if action =? BoundObjectFunction_GetProperty then Some (lit "GetProperty")
  else if action =? BoundObjectFunction_SetProperty then Some (lit "SetProperty")
  else if action =? BoundObjectFunction_Properties then Some (lit "Properties")
  else if action =? BoundObjectFunction_RegisterEventWithSignature
  then Some (lit "RegisterEventWithSignature")
  else if negb (service =? Service_ServiceDirectory) then None
  else if action =? ServiceDirectoryAction_Service then Some (lit "Service")
  else if action =? ServiceDirectoryAction_Services then Some (lit "Services")
  else if action =? ServiceDirectoryAction_RegisterService then Some (lit "RegisterService")
  else if action =? ServiceDirectoryAction_UnregisterService then Some (lit "UnregisterService")
  else if action =? ServiceDirectoryAction_ServiceReady then Some (lit "ServiceReady")
  else if action =? ServiceDirectoryAction_UpdateServiceInfo then Some (lit "UpdateServiceInfo")
  else if action =? ServiceDirectoryAction_ServiceAdded then Some (lit "ServiceAdded")
  else if action =? ServiceDirectoryAction_ServiceRemoved then Some (lit "ServiceRemoved")
  else if action =? ServiceDirectoryAction_MachineId then Some (lit "MachineId")
  else None.

(** ** Messages *)

Record Message := mkMessage {
  _buffer : BufferPrivate;
  signature : bytes;
  _header : Header;
}.

Definition set_header (h : Header) (m : Message) : Message :=
  mkMessage (_buffer m) (signature m) h.

Definition setId (i : Z) (m : Message) : Message :=
  let h := _header m in
  set_header (mkHeader (magic h) i (h_size h) (version h) (type h) (flags h)
                (service h) (object h) (action h)) m.
Definition setVersion (v : Z) (m : Message) : Message :=
  let h := _header m in
  set_header (mkHeader (magic h) (id h) (h_size h) v (type h) (flags h)
                (service h) (object h) (action h)) m.

(** The type of a header is an 8-bit integer. *)
Definition setType (t : Z) (m : Message) : Message :=
  let h := _header m in
  set_header (mkHeader (magic h) (id h) (h_size h) (version h) (wrap 8 t) (flags h)
                (service h) (object h) (action h)) m.
Definition setFlags (f : Z) (m : Message) : Message :=
  let h := _header m in
  set_header (mkHeader (magic h) (id h) (h_size h) (version h) (type h) f
                (service h) (object h) (action h)) m.
Definition addFlags (f : Z) (m : Message) : Message :=
  setFlags (Z.lor (flags (_header m)) f) m.
Definition setService (s : Z) (m : Message) : Message :=
  let h := _header m in
  set_header (mkHeader (magic h) (id h) (h_size h) (version h) (type h) (flags h)
                s (object h) (action h)) m.
Definition setObject (o : Z) (m : Message) : Message :=
  let h := _header m in
  set_header (mkHeader (magic h) (id h) (h_size h) (version h) (type h) (flags h)
                (service h) o (action h)) m.
Definition setFunction (f : Z) (m : Message) : Message :=
  let h := _header m in
  set_header (mkHeader (magic h) (id h) (h_size h) (version h) (type h) (flags h)
                (service h) (object h) f) m.
Definition setEvent (e : Z) (m : Message) : Message := setFunction e m.
Definition setAddress (a : MessageAddress) (m : Message) : Message :=
  let h := _header m in
  set_header (mkHeader (magic h) (messageId a) (h_size h) (version h) (type h) (flags h)
                (serviceId a) (objectId a) (functionId a)) m.
Definition set_size (n : Z) (m : Message) : Message :=
  let h := _header m in
  set_header (mkHeader (magic h) (id h) n (version h) (type h) (flags h)
                (service h) (object h) (action h)) m.

Definition address (m : Message) : MessageAddress := header_address (_header m).

(** [Message()] and [Message(type, address)]; the counter of identifiers is
    incremented by both. *)
Definition Message_default (counter : Z) : Message * Z :=
  let '(h, counter) := Header_new counter in
  (mkMessage BufferPrivate_new [] h, counter).

Definition Message_new (counter t : Z) (a : MessageAddress) : Message * Z :=
  let '(m, counter) := Message_default counter in
  (setAddress a (setType t m), counter).

(** [setBuffer(Buffer&&)]. *)
Definition setBuffer_move (b : BufferPrivate) (m : Message) : Message :=
  let '(b, _) := Buffer_move b in
  set_size (wrap 32 (totalSize b)) (mkMessage b (signature m) (_header m)).

(** [setBuffer(const Buffer&)]. *)
Definition setBuffer (malloc : Z -> option bytes) (b : BufferPrivate) (m : Message) :
    option Message :=
  c ← BufferPrivate_copy malloc b;
  Some (set_size (wrap 32 (totalSize c)) (mkMessage c (signature m) (_header m))).

(** [extractBuffer]: the header keeps its size. *)
Definition extractBuffer (m : Message) : BufferPrivate * Message :=
  let '(extracted, rest) := Buffer_move (_buffer m) in
  (extracted, mkMessage (clear rest) (signature m) (_header m)).

(** [operator==]. *)
Definition message_eq (a b : Message) : bool :=
  bool_decide (_header a = _header b) && bool_decide (signature a = signature b)
  && buffer_eq (_buffer a) (_buffer b).

(** [operator<<]. *)
Definition endl : bytes := [ascii_of_nat 10].

Definition print_message (m : Message) : bytes :=
  let h := _header m in
  lit "message {" ++ endl
  ++ lit "  size=" ++ to_decimal (h_size h) ++ lit "," ++ endl
  ++ lit "  id  =" ++ to_decimal (id h) ++ lit "," ++ endl
  ++ lit "  vers=" ++ to_decimal (version h) ++ lit "," ++ endl
  ++ lit "  type=" ++ typeToString (type h) ++ lit "," ++ endl
  ++ lit "  serv="
  ++ (if service h =? Service_ServiceDirectory then lit "ServiceDirectory"
      else to_decimal (service h))
  ++ lit "," ++ endl
  ++ lit "  obje="
  ++ (if object h =? GenericObject_Main then lit "main" else to_decimal (object h))
  ++ endl ++ lit "  acti="
  ++ (match actionToString (action h) (service h) with
      | Some s => s
      | None => to_decimal (action h)
      end)
  ++ lit "," ++ endl
  ++ lit "  data=" ++ endl
  ++ printBuffer (_buffer m)
  ++ endl ++ lit "}".

Definition print_address (a : MessageAddress) : bytes :=
  lit "{" ++ to_decimal (serviceId a) ++ lit "." ++ to_decimal (objectId a) ++ lit "."
  ++ to_decimal (functionId a) ++ lit ", id:" ++ to_decimal (messageId a) ++ lit "}".

(** ** Dispatching *)

Inductive DispatchStatus :=
  | MessageHandled
  | MessageHandled_WithError
  | MessageNotHandled
  | MessageHandlingFailure.

#[export] Instance DispatchStatus_eq_dec : EqDecision DispatchStatus.
Proof. solve_decision. Defined.

Definition isMessageHandled (s : DispatchStatus) : bool :=
  bool_decide (s = MessageHandled) || bool_decide (s = MessageHandled_WithError).

(** * The header, the identifiers and the payload *)
From Stdlib Require Import Ascii.
Open Scope Z_scope.

(** ** The layout of the header *)

Lemma length_header_bytes h : length (header_bytes h) = 28%nat.
Proof. unfold header_bytes. by rewrite !length_app, !length_le_encode. Qed.

Lemma zlen_header_bytes h : zlen (header_bytes h) = sizeof_Header.
Proof. unfold zlen. by rewrite length_header_bytes. Qed.

(** A field that starts after [p] and is [n] bytes long. *)
Lemma field_app p o q n z :
  length p = o -> field (p ++ le_encode n z ++ q) o n = z mod 2 ^ (8 * Z.of_nat n).
Proof.
  intros <-. unfold field. rewrite drop_app_length.
  rewrite take_app_le, take_ge by (rewrite length_le_encode; lia). apply le_decode_encode.
Qed.

Lemma le_encode_field l o n :
  (o + n <= length l)%nat -> le_encode n (field l o n) = take n (drop o l).
Proof.
  intros H. unfold field.
  rewrite <- (le_encode_decode (take n (drop o l))) at 2.
  f_equal. rewrite length_take, length_drop. lia.
Qed.

Lemma field_range l o n :
  (o + n <= length l)%nat -> 0 <= field l o n < 2 ^ (8 * Z.of_nat n).
Proof.
  intros H. unfold field. pose proof (le_decode_range (take n (drop o l))) as Hr.
  unfold zlen in Hr. rewrite length_take, length_drop in Hr.
  by replace (n `min` (length l - o))%nat with n in Hr by lia.
Qed.

Lemma header_of_bytes_app h rest :
  header_wf h -> header_of_bytes (header_bytes h ++ rest) = h.
Proof.
  intros (H1 & H2 & H3 & H4 & H5 & H6 & H7 & H8 & H9). unfold header_of_bytes, header_bytes.
  rewrite <- !app_assoc.
  assert (F : forall p o q n z, length p = o -> 0 <= z < 2 ^ (8 * Z.of_nat n) ->
            field (p ++ le_encode n z ++ q) o n = z).
  { intros p o q n z Hp Hz. rewrite field_app by done. by apply Z.mod_small. }
  destruct h as [h1 h2 h3 h4 h5 h6 h7 h8 h9]; cbn [magic id h_size version type flags service object action] in *.
  f_equal.
  - by apply (F []).
  - by apply (F (le_encode 4 _)).
  - by apply (F (le_encode 4 _ ++ le_encode 4 _)).
  - by apply (F (le_encode 4 _ ++ le_encode 4 _ ++ le_encode 4 _)).
  - by apply (F (le_encode 4 _ ++ le_encode 4 _ ++ le_encode 4 _ ++ le_encode 2 _)).
  - by apply (F (le_encode 4 _ ++ le_encode 4 _ ++ le_encode 4 _ ++ le_encode 2 _ ++ le_encode 1 _)).
  - by apply (F (le_encode 4 _ ++ le_encode 4 _ ++ le_encode 4 _ ++ le_encode 2 _
                 ++ le_encode 1 _ ++ le_encode 1 _)).
  - by apply (F (le_encode 4 _ ++ le_encode 4 _ ++ le_encode 4 _ ++ le_encode 2 _
                 ++ le_encode 1 _ ++ le_encode 1 _ ++ le_encode 4 _)).
  - by apply (F (le_encode 4 _ ++ le_encode 4 _ ++ le_encode 4 _ ++ le_encode 2 _
                 ++ le_encode 1 _ ++ le_encode 1 _ ++ le_encode 4 _ ++ le_encode 4 _)).
Qed.

Lemma header_bytes_of_bytes l :
  length l = 28%nat -> header_bytes (header_of_bytes l) = l /\ header_wf (header_of_bytes l).
Proof.
  intros H. split.
  - unfold header_bytes, header_of_bytes.
    cbn [magic id h_size version type flags service object action].
    rewrite !le_encode_field by lia.
    do 28 (destruct l as [|? l]; [done|]). by destruct l.
  - unfold header_wf, header_of_bytes.
    cbn [magic id h_size version type flags service object action].
    split_and!; match goal with
    | |- 0 <= _ => apply field_range; lia
    | |- field l ?o ?n < _ => pose proof (field_range l o n ltac:(lia)); lia
    end.
Qed.

(** ** Identifiers *)

(** The identifiers given by the next [n] calls of [newMessageId]. *)
Fixpoint messageIds (n : nat) (counter : Z) : list Z :=
  match n with
  | O => []
  | S n' => let '(i, counter) := newMessageId counter in i :: messageIds n' counter
  end.

Lemma messageIds_lookup n : forall counter k,
  (k < n)%nat -> messageIds n counter !! k = Some (wrap 32 (counter + Z.of_nat k + 1)).
Proof.
  induction n as [|n IH]; intros counter k Hk; [lia|]. cbn [messageIds newMessageId].
  destruct k as [|k]; cbn [lookup list_lookup].
  - do 2 f_equal. lia.
  - rewrite IH by lia. f_equal. unfold wrap. rewrite <- Z.add_assoc, Zplus_mod_idemp_l.
    f_equal. lia.
Qed.

(** ** Names *)

(** The named actions of the service directory, which has all of them. *)
Definition action_table : list (Z * bytes) :=
  omap (fun a => (fun n => (a, n)) <$> actionToString a Service_ServiceDirectory)
    [0; 1; 2; 3; 5; 6; 7; 8; 100; 101; 102; 103; 104; 105; 106; 107; 108].

Lemma action_named a s n : actionToString a s = Some n -> (a, n) ∈ action_table.
Proof.
  unfold actionToString. intros H.
  repeat case_match; try done; rewrite ?Z.eqb_eq in *; subst; injection H as <-;
    vm_compute; repeat constructor.
Qed.

Lemma action_table_injective a a' n :
  (a, n) ∈ action_table -> (a', n) ∈ action_table -> a = a'.
Proof.
  assert (H : forallb (fun p => forallb (fun q =>
            bool_decide (fst p = fst q) || negb (bool_decide (snd p = snd q))) action_table)
            action_table = true) by by vm_compute.
  rewrite forallb_forall in H. intros H1%list_elem_of_In H2%list_elem_of_In.
  specialize (H _ H1). rewrite forallb_forall in H. specialize (H _ H2).
  cbn [fst snd] in H. rewrite orb_true_iff, negb_true_iff, bool_decide_eq_true,
    bool_decide_eq_false in H. by destruct H.
Qed.

(** ** Properties *)

(** The layout of the header: the header that is read back from the 28
    bytes that are sent for it is the same header, whatever follows, and every
    28 bytes received are the representation of exactly one header with fields
    in the range of their types. *)
Theorem header_roundtrip h rest (Hwf : header_wf h) :
  zlen (header_bytes h) = sizeof_Header
  /\ header_of_bytes (header_bytes h ++ rest) = h
  /\ (forall l, zlen l = sizeof_Header ->
        header_bytes (header_of_bytes l) = l /\ header_wf (header_of_bytes l)).
Proof.
  split_and!; [apply zlen_header_bytes | by apply header_of_bytes_app |].
  intros l Hl. apply header_bytes_of_bytes. unfold zlen, sizeof_Header in Hl. lia.
Qed.

Definition sample_header : Header := mkHeader magicCookie 7 300 0 Type_Call 1 1 1 100.

Lemma header_roundtrip_witness :
  header_of_bytes (header_bytes sample_header ++ lit "rest") = sample_header.
Proof.
  refine (proj1 (proj2 (header_roundtrip sample_header (lit "rest") _))).
  repeat split; vm_compute; congruence.
Defined.

(** The identifiers of messages: the calls of [newMessageId] count modulo
    2^32, so that two messages have the same identifier exactly when the number
    of messages created between them is a multiple of 2^32. *)
Theorem message_ids_unique n counter i j (Hij : (i < j)%nat) (Hj : (j < n)%nat) :
  (messageIds n counter !! i = messageIds n counter !! j
   <-> (Z.of_nat j - Z.of_nat i) mod 2 ^ 32 = 0)
  /\ (Z.of_nat j - Z.of_nat i < 2 ^ 32 ->
      messageIds n counter !! i <> messageIds n counter !! j).
Proof.
  rewrite !messageIds_lookup by lia.
  assert (H : Some (wrap 32 (counter + Z.of_nat i + 1)) = Some (wrap 32 (counter + Z.of_nat j + 1))
    <-> (Z.of_nat j - Z.of_nat i) mod 2 ^ 32 = 0).
  { unfold wrap. split.
    - intros [= H]. replace (Z.of_nat j - Z.of_nat i)
        with ((counter + Z.of_nat j + 1) - (counter + Z.of_nat i + 1)) by lia.
      rewrite Zminus_mod, H, Z.sub_diag. apply Z.mod_0_l. lia.
    - intros H. f_equal.
      replace (counter + Z.of_nat j + 1)
        with ((counter + Z.of_nat i + 1) + (Z.of_nat j - Z.of_nat i)) by lia.
      rewrite (Zplus_mod (counter + Z.of_nat i + 1) (_ - _)), H, Z.add_0_r.
      symmetry. apply Z.mod_mod. lia. }
  split; [done|]. intros Hd Heq. apply H in Heq. rewrite Z.mod_small in Heq; lia.
Qed.

Lemma message_ids_unique_witness : messageIds 3 (2 ^ 32 - 2) !! 0%nat <> messageIds 3 (2 ^ 32 - 2) !! 2%nat.
Proof. refine (proj2 (message_ids_unique 3 (2 ^ 32 - 2) 0 2 _ _) _); cbn; lia. Defined.

(** The fields a setter may change, and the range it keeps them in. *)
Definition with_address (h : Header) (a : MessageAddress) : Header :=
  mkHeader (magic h) (messageId a) (h_size h) (version h) (type h) (flags h)
    (serviceId a) (objectId a) (functionId a).

(** The payload and the setters of a message: [setBuffer] gives the message
    a buffer with the value of its argument and sets the size of the header to
    the 32 low bits of its total size, [extractBuffer] gives back the buffer and
    leaves an empty one but not a null size, and the other setters leave the
    payload and keep the fields of the header in the range of their types. *)
Theorem message_payload malloc limit b m
    (Hlength : forall n blk, malloc n = Some blk -> zlen blk = n)
    (Hok : forall n, 0 <= n <= limit -> malloc n <> None)
    (Hread : readable b) (Hsize : tree_size (abs b) <= limit) :
  (exists m', setBuffer malloc b m = Some m' /\ abs (_buffer m') = abs b
     /\ readable (_buffer m')
     /\ h_size (_header m') = wrap 32 (tree_size (abs b))
     /\ fst (extractBuffer m') = _buffer m'
     /\ abs (_buffer (snd (extractBuffer m'))) = t_empty
     /\ _header (snd (extractBuffer m')) = _header m')
  /\ (_buffer (setBuffer_move b m) = b
      /\ h_size (_header (setBuffer_move b m)) = wrap 32 (tree_size (abs b)))
  /\ (forall t a f, header_wf (_header m) -> 0 <= f < 2 ^ 8 ->
        0 <= messageId a < 2 ^ 32 -> 0 <= serviceId a < 2 ^ 32 ->
        0 <= objectId a < 2 ^ 32 -> 0 <= functionId a < 2 ^ 32 ->
        let m' := addFlags f (setAddress a (setType t m)) in
        header_wf (_header m') /\ _buffer m' = _buffer m /\ address m' = a
        /\ type (_header m') = t mod 256 /\ flags (_header m') = Z.lor (flags (_header m)) f).
Proof.
  assert (Hw : forall c, readable c -> abs c = abs b -> wrap 32 (totalSize c) = wrap 32 (tree_size (abs b))).
  { intros c Hc Ha. rewrite totalSize_correct, Ha by done. unfold wrap, wrap64.
    change (2 ^ 64) with (2 ^ 32 * 2 ^ 32). rewrite Z.rem_mul_r by lia.
    rewrite Z.mul_comm, Z_mod_plus_full. apply Z.mod_mod. lia. }
  split_and!.
  - destruct (copy_total malloc limit Hlength Hok b Hread Hsize) as (c & Hc & Hr & Ha & _).
    unfold setBuffer. rewrite Hc. cbn [mbind option_bind]. eexists. split; [done|].
    cbn [_buffer set_size set_header _header h_size]. by rewrite (Hw c).
  - done.
  - by apply Hw.
  - intros t a f (H1 & H2 & H3 & H4 & H5 & H6 & H7 & H8 & H9) Hf Ha1 Ha2 Ha3 Ha4.
    cbn -[Z.pow Z.lor wrap]. split_and!; try done.
    + unfold header_wf. cbn -[Z.pow Z.lor wrap].
      assert (Hlor : 0 <= Z.lor (flags (_header m)) f < 2 ^ 8).
      { by apply lor_range. }
      pose proof (wrap_range 8 t ltac:(lia)). lia.
    + by destruct a.
Qed.

Lemma message_payload_witness :
  exists m', setBuffer (bounded_malloc 4896) heap_buffer (fst (Message_default 0)) = Some m'
    /\ abs (_buffer m') = abs heap_buffer
    /\ readable (_buffer m')
    /\ h_size (_header m') = wrap 32 (tree_size (abs heap_buffer))
    /\ fst (extractBuffer m') = _buffer m'
    /\ abs (_buffer (snd (extractBuffer m'))) = t_empty
    /\ _header (snd (extractBuffer m')) = _header m'.
Proof.
  refine (proj1 (message_payload (bounded_malloc 4896) 4896 heap_buffer (fst (Message_default 0))
    (bounded_malloc_length 4896) (bounded_malloc_ok 4896) (proj1 heap_buffer_owner) _)).
  vm_compute. discriminate.
Defined.

(** The names of types and actions are not ambiguous: different types have
    different names, except the types that have no name, and two actions of a
    service that have a name have different names. *)
Theorem message_names_unique :
  (forall t t', typeToString t = typeToString t' ->
     t = t' \/ typeToString t = lit "Unknown")
  /\ (forall s a a', actionToString a s = actionToString a' s ->
        a = a' \/ actionToString a s = None)
  /\ (forall a s, actionToString a s <> None ->
        s = Service_ServiceDirectory \/ 0 <= a <= 8).
Proof.
  split_and!.
  - intros t t'. unfold typeToString. intros H.
    repeat case_match; rewrite ?Z.eqb_eq in *; (by right) || (left; congruence) || discriminate.
  - intros s a a' H.
    destruct (actionToString a s) as [n|] eqn:E; [|by right].
    left. symmetry in H. apply action_named in E, H.
    eapply action_table_injective; eassumption.
  - intros a s H. destruct (decide (s = Service_ServiceDirectory)) as [|Hs]; [by left|]. right.
    unfold actionToString in H. rewrite (proj2 (Z.eqb_neq _ _) Hs) in H. cbn [negb] in H.
    repeat case_match; rewrite ?Z.eqb_eq in *; subst; done.
Qed.
