(* ===== verification/Send.v ===== *)
(** * Send: the bytes of a message on the network and the send queue

    Model of [src/messaging/sock/send.hpp]. A network buffer is the list of the
    bytes it designates; [None] is a region outside of the block. The send
    queue is a transition system: [call] is the part of
    [SendMessageEnqueue::operator()] under the lock, [start] the call of
    [sendMessage] by the thread that must start or continue the loop (any
    number of other calls may happen in between), [complete] the continuation
    of an asynchronous write. An iterator of the [std::list] is the identity of
    its node. *)
From S2P Require Import Prelude CString Bytes Buffer Message.
From Stdlib Require Import Ascii.
Open Scope Z_scope.

(** ** [makeBuffers] *)

Fixpoint makeBuffers_loop (buf : bytes) (subs : list (Z * BufferPrivate)) (beginOffset : Z) :
    option (list bytes * Z) :=
  match subs with
  | [] => Some ([], beginOffset)
  | (sizeOffset, subBuffer) :: subs' =>
      let endOffset := wrap64 (sizeOffset + sizeof_size_type) in
      chunk ← (if negb (endOffset =? beginOffset)
               then l ← mem_read buf beginOffset (wrap64 (endOffset - beginOffset)); Some [l]
               else Some []);
      sub ← mem_read (data subBuffer) 0 (size subBuffer);
      r ← makeBuffers_loop buf subs' endOffset;
      Some (chunk ++ [sub] ++ fst r, snd r)
  end.

Definition makeBuffers (msg : Message) : option (list bytes) :=
  let msgBuffer := _buffer msg in
  r ← makeBuffers_loop (data msgBuffer) (subBuffers msgBuffer) 0;
  let '(buffers, beginOffset) := r in
  last ← mem_read (data msgBuffer) beginOffset (wrap64 (size msgBuffer - beginOffset));
  Some (header_bytes (_header msg) :: buffers ++ [last]).

(** ** The send queue *)

Record send_state := mkSendState {
  _sendQueue : list (nat * Message);   (* nodes in order, with their identity *)
  _sending : bool;
  starting : list nat;                 (* calls of [sendMessage] about to be made *)
  writing : list nat;                  (* asynchronous writes in flight *)
  next_node : nat;
  wire : list Message;                 (* messages given to [async_write], in order *)
  accepted : list Message;             (* messages given to the functor, in order *)
}.

Definition send_init : send_state := mkSendState [] false [] [] 0 [] [].

(** The section under the lock: the message is put at the end of the queue, and
    the thread must start the loop from the head of the queue if nobody sends. *)
Definition call (m : Message) (s : send_state) : send_state :=
  let queue := _sendQueue s ++ [(next_node s, m)] in
  let itMsg := default (next_node s) (fst <$> head queue) in
  let mustStartSendLoop := negb (_sending s) in
  mkSendState queue (if mustStartSendLoop then true else _sending s)
    (if mustStartSendLoop then itMsg :: starting s else starting s)
    (writing s) (S (next_node s)) (wire s) (accepted s ++ [m]).

(** The message an iterator points to: [None] for an iterator that is not
    valid anymore. *)
Fixpoint deref (it : nat) (queue : list (nat * Message)) : option Message :=
  match queue with
  | [] => None
  | (n, m) :: queue' => if (n =? it)%nat then Some m else deref it queue'
  end.

Fixpoint erase (it : nat) (queue : list (nat * Message)) : list (nat * Message) :=
  match queue with
  | [] => []
  | (n, m) :: queue' => if (n =? it)%nat then queue' else (n, m) :: erase it queue'
  end.

Fixpoint remove_one (it : nat) (l : list nat) : list nat :=
  match l with
  | [] => []
  | n :: l' => if (n =? it)%nat then l' else n :: remove_one it l'
  end.

(** [sendMessage]: starts to write the message an iterator points to. *)
Definition start (it : nat) (s : send_state) : option send_state :=
  m ← deref it (_sendQueue s);
  Some (mkSendState (_sendQueue s) (_sending s) (remove_one it (starting s))
          (it :: writing s) (next_node s) (wire s ++ [m]) (accepted s)).

(** What the upper layer's [onSent] does: it decides, or throws. *)
Inductive onSent_result := mustContinue (b : bool) | throws.

(** [eraseAndReturnNextMessage]: the scoped block erases the node, then lowers
    the flag or gives the head of the queue. *)
Definition complete (it : nat) (r : onSent_result) (s : send_state) : option send_state :=
  _ ← deref it (_sendQueue s);
  let continue := match r with mustContinue b => b | throws => false end in
  let queue := erase it (_sendQueue s) in
  let itNext := if negb continue then None else fst <$> head queue in
  Some (mkSendState queue
          (match itNext with None => false | Some _ => _sending s end)
          (match itNext with None => starting s | Some n => n :: starting s end)
          (remove_one it (writing s)) (next_node s) (wire s) (accepted s)).

(** The events: any thread may call the functor at any time; the pending calls
    of [sendMessage] and the writes in flight progress in any order. *)
Inductive send_event := ECall (m : Message) | EStart (it : nat) | EComplete (it : nat) (r : onSent_result).

(** [None] is an access to an iterator that is not valid. *)
Inductive send_step (s : send_state) : send_event -> option send_state -> Prop :=
  | step_call m : send_step s (ECall m) (Some (call m s))
  | step_start it : it ∈ starting s -> send_step s (EStart it) (start it s)
  | step_complete it r : it ∈ writing s -> send_step s (EComplete it r) (complete it r s).

Inductive send_reachable : option send_state -> Prop :=
  | reach_init : send_reachable (Some send_init)
  | reach_step s e s' : send_reachable (Some s) -> send_step s e s' -> send_reachable s'.

(** The network completes every write and the upper layer always continues. *)
Fixpoint drain (fuel : nat) (s : send_state) : option send_state :=
  match fuel with
  | O => Some s
  | S f =>
      match starting s, writing s with
      | it :: _, _ => s' ← start it s; drain f s'
      | [], it :: _ => s' ← complete it (mustContinue true) s; drain f s'
      | [], [] => Some s
      end
  end.
