(* ===== verification/SendProperties.v ===== *)
(** * SendProperties: what is written on the network, and in which order *)
From S2P Require Import Prelude CString Bytes Buffer BufferProperties Message Send.
From Stdlib Require Import Ascii.
Open Scope Z_scope.

(** ** The bytes of a message *)

(** The chunk of [c] from [pos] to [e]. *)
Definition chunk (pos e : Z) (c : bytes) : bytes :=
  take (Z.to_nat (e - pos)) (drop (Z.to_nat pos) c).

(** The payload of a tree: the bytes of each direct sub-buffer are inserted
    after its size. *)
Fixpoint payload_from (pos : Z) (subs : list (Z * tree)) (c : bytes) : bytes :=
  match subs with
  | [] => drop (Z.to_nat pos) c
  | (o, s) :: subs' =>
      chunk pos (o + sizeof_size_type) c ++ t_bytes s
      ++ payload_from (o + sizeof_size_type) subs' c
  end.

Definition payload (t : tree) : bytes := payload_from 0 (t_subs t) (t_bytes t).

(** What an item looks like on the network. *)
Definition item_wire (i : item) : bytes :=
  match i with
  | Chunk d => d
  | Sub s => le_encode 4 (size s) ++ content s
  end.

Lemma mem_read_content b o n :
  readable b -> 0 <= o -> 0 <= n -> o + n <= used b ->
  mem_read (data b) o n = Some (take (Z.to_nat n) (drop (Z.to_nat o) (content b))).
Proof.
  intros Hr Ho Hn Hle. pose proof (readable_used b Hr).
  unfold mem_read. rewrite decide_True by lia. f_equal. unfold content.
  rewrite skipn_firstn_comm, take_take. f_equal. lia.
Qed.

Lemma mem_read_all b : readable b -> mem_read (data b) 0 (size b) = Some (content b).
Proof.
  intros Hr. pose proof (readable_used b Hr). unfold size.
  rewrite mem_read_content by (done || lia). rewrite drop_0. f_equal. unfold content.
  rewrite take_take. f_equal. lia.
Qed.

Lemma placed_le pos l c : 0 <= pos -> placed pos l c -> pos <= zlen c.
Proof.
  revert pos. induction l as [|[o s] l IH]; intros pos Hpos; cbn [placed]; [done|].
  intros (H1 & _ & H3). unfold sizeof_size_type in *. apply IH in H3; lia.
Qed.

Lemma makeBuffers_loop_correct b l : forall pos,
  readable b -> used b + sizeof_size_type < 2 ^ 64 -> 0 <= pos ->
  Forall (fun p => readable (snd p)) l ->
  placed pos (map (fun p => (fst p, abs (snd p))) l) (content b) ->
  exists bufs endp, makeBuffers_loop (data b) l pos = Some (bufs, endp)
    /\ pos <= endp <= used b
    /\ concat bufs ++ drop (Z.to_nat endp) (content b)
       = payload_from pos (map (fun p => (fst p, abs (snd p))) l) (content b).
Proof.
  induction l as [|[o s] l IH]; intros pos Hr Hu Hpos Hf Hp;
    cbn [map fst snd placed payload_from makeBuffers_loop] in *.
  { exists [], pos. rewrite zlen_content in Hp by done. split_and!; [done | lia | lia | done]. }
  apply Forall_cons in Hf as [Hs Hf]. destruct Hp as (Hle & _ & Hp). cbn [snd] in Hs.
  pose proof (placed_le (o + sizeof_size_type) _ _ ltac:(unfold sizeof_size_type; lia) Hp) as Hend.
  rewrite zlen_content in Hend by done. unfold sizeof_size_type in *.
  rewrite wrap64_small by lia.
  destruct (IH (o + 4) Hr Hu ltac:(lia) Hf Hp) as (bufs & endp & Hl & He & Hc).
  rewrite (proj2 (Z.eqb_neq _ _)) by lia. cbn [negb].
  rewrite (wrap64_small (o + 4 - pos)), (mem_read_content b) by (done || lia). cbn [mbind option_bind].
  rewrite mem_read_all by done. cbn [mbind option_bind]. rewrite Hl. cbn [mbind option_bind fst snd].
  eexists _, _. split; [done|]. split; [lia|].
  cbn [app concat]. rewrite <- !app_assoc, Hc, t_bytes_abs. done.
Qed.

Lemma makeBuffers_payload m :
  readable (_buffer m) -> used (_buffer m) + sizeof_size_type < 2 ^ 64 ->
  exists bufs, makeBuffers m = Some bufs
    /\ concat bufs = header_bytes (_header m) ++ payload (abs (_buffer m)).
Proof.
  intros Hr Hu. set (b := _buffer m) in *. inversion Hr as [? _ ? _ _ Hp Hf]; subst.
  rewrite abs_unfold in Hp. cbn [t_subs] in Hp.
  destruct (makeBuffers_loop_correct b (_subBuffers b) 0 Hr Hu ltac:(lia) Hf Hp)
    as (bufs & endp & Hl & He & Hc).
  unfold makeBuffers. fold b. unfold subBuffers, size. rewrite Hl. cbn [mbind option_bind].
  unfold sizeof_size_type in *. rewrite wrap64_small, mem_read_content by (done || lia). cbn [mbind option_bind].
  eexists. split; [done|]. cbn [concat]. rewrite concat_app. cbn [concat]. rewrite app_nil_r.
  f_equal. unfold payload. rewrite abs_unfold. cbn [t_subs t_bytes]. rewrite <- Hc. f_equal.
  apply take_ge. rewrite length_drop. pose proof (zlen_content b Hr). unfold zlen in *. lia.
Qed.

(** The payload of a tree that a writer built. *)
Lemma payload_from_app pos l c d :
  0 <= pos -> placed pos l c -> payload_from pos l (c ++ d) = payload_from pos l c ++ d.
Proof.
  revert pos. induction l as [|[o s] l IH]; intros pos Hpos Hp; cbn [payload_from placed] in *.
  - apply drop_app_le. unfold zlen in Hp. lia.
  - destruct Hp as (Hle & _ & Hp). unfold sizeof_size_type in *.
    pose proof (placed_le (o + 4) _ _ ltac:(lia) Hp). rewrite IH, <- !app_assoc by (done || lia).
    f_equal. unfold chunk, zlen in *.
    rewrite drop_app_le, take_app_le; [done | rewrite length_drop; lia | lia].
Qed.

Lemma payload_from_snoc pos l c s :
  0 <= pos -> placed pos l c ->
  payload_from pos (l ++ [(zlen c, s)]) (c ++ le_encode 4 (zlen (t_bytes s)))
  = payload_from pos l c ++ le_encode 4 (zlen (t_bytes s)) ++ t_bytes s.
Proof.
  revert pos. induction l as [|[o s'] l IH]; intros pos Hpos Hp; cbn [payload_from placed app] in *.
  - unfold chunk, sizeof_size_type, zlen in *. set (e := le_encode 4 _).
    assert (He : length e = 4%nat) by apply length_le_encode.
    rewrite drop_app_le by lia. rewrite take_ge by (rewrite length_app, length_drop; lia).
    rewrite (drop_ge (c ++ e)) by (rewrite length_app; lia). by rewrite app_nil_r, <- app_assoc.
  - destruct Hp as (Hle & _ & Hp). unfold sizeof_size_type in *.
    pose proof (placed_le (o + 4) _ _ ltac:(lia) Hp). rewrite IH, <- !app_assoc by (done || lia).
    f_equal. unfold chunk, zlen in *.
    rewrite drop_app_le, take_app_le; [done | rewrite length_drop; lia | lia].
Qed.

Lemma payload_render items :
  Forall (fun i => match i with Sub s => readable s | _ => True end) items ->
  placed 0 (t_subs (foldl render1 t_empty items)) (t_bytes (foldl render1 t_empty items))
  /\ payload (foldl render1 t_empty items) = concat (map item_wire items).
Proof.
  induction items as [|i items IH] using rev_ind; intros Hf; [done|].
  apply Forall_app in Hf as [Hf Hi]. rewrite Forall_singleton in Hi.
  destruct (IH Hf) as [Hp Hw]. rewrite foldl_app, map_app, concat_app, <- Hw. cbn [foldl map concat].
  rewrite app_nil_r. unfold payload in *. destruct i as [d|s];
    cbn [render1 t_append t_add t_bytes t_subs item_wire].
  - split; [by apply placed_app | by apply payload_from_app].
  - split; [by apply placed_snoc|]. rewrite payload_from_snoc by (done || lia).
    unfold size. by rewrite t_bytes_abs, zlen_content.
Qed.

(** The length of a payload: nothing of the sub-buffers of the sub-buffers. *)
Lemma zlen_payload_from pos l c :
  0 <= pos -> placed pos l c ->
  zlen (payload_from pos l c)
  = zlen c - pos + foldr (fun p acc => zlen (t_bytes (snd p)) + acc) 0 l.
Proof.
  revert pos. induction l as [|[o s] l IH]; intros pos Hpos Hp; cbn [payload_from placed foldr snd] in *.
  - unfold zlen in *. rewrite length_drop. lia.
  - destruct Hp as (Hle & _ & Hp). unfold sizeof_size_type in *.
    pose proof (placed_le (o + 4) _ _ ltac:(lia) Hp). rewrite !zlen_app, IH by (done || lia).
    unfold chunk, zlen in *. rewrite length_take, length_drop. lia.
Qed.

(** The bytes of the sub-buffers of the sub-buffers. *)
Definition nested_size (t : tree) : Z :=
  foldr (fun p acc => subs_size (t_subs (snd p)) + acc) 0 (t_subs t).

Lemma zlen_payload t :
  placed 0 (t_subs t) (t_bytes t) -> zlen (payload t) = tree_size t - nested_size t.
Proof.
  intros Hp. unfold payload. rewrite zlen_payload_from by (done || lia).
  rewrite tree_size_unfold. unfold nested_size.
  assert (H : forall l, foldr (fun p acc => zlen (t_bytes (snd p)) + acc) 0 l
     = subs_size l - foldr (fun p acc => subs_size (t_subs (snd p)) + acc) 0 l).
  { intros l. induction l as [|[o s] l IH]; [done|]. cbn [foldr snd].
    change (subs_size ((o, s) :: l)) with (tree_size s + subs_size l).
    rewrite IH, tree_size_unfold. lia. }
  rewrite H. lia.
Qed.

(** ** The send queue *)

(** The messages that have not been given to the network yet. *)
Definition unsent (s : send_state) : list Message :=
  map snd (match writing s with [] => _sendQueue s | _ => tail (_sendQueue s) end).

(** The flag is raised exactly when one thread is about to write or one write
    is in flight, for the head of the queue; what is written and what is not
    yet is what was accepted. *)
Definition send_inv (s : send_state) : Prop :=
  wire s ++ unsent s = accepted s
  /\ match starting s, writing s with
     | [], [] => _sending s = false
     | [it], [] => _sending s = true /\ fst <$> head (_sendQueue s) = Some it
     | [], [it] => _sending s = true /\ fst <$> head (_sendQueue s) = Some it
     | _, _ => False
     end.

(** The three shapes of a state that satisfies the invariant. *)
Lemma send_inv_cases s :
  send_inv s ->
  (starting s = [] /\ writing s = [] /\ _sending s = false)
  \/ exists it m q, _sendQueue s = (it, m) :: q /\ _sending s = true
       /\ ((starting s = [it] /\ writing s = []) \/ (starting s = [] /\ writing s = [it])).
Proof.
  intros [_ H].
  destruct (starting s) as [|it []], (writing s) as [|it' []]; try done; [by left | |];
    destruct H as [Hs Hh]; right; destruct (_sendQueue s) as [|[n m] q]; try done;
    injection Hh as ->; eexists _, m, q; eauto 6.
Qed.

Lemma send_inv_call m s : send_inv s -> send_inv (call m s).
Proof.
  intros Hinv. pose proof Hinv as [Hw _]. unfold send_inv, unsent in *.
  destruct (send_inv_cases s Hinv) as [(Hst & Hwr & Hse) | (it & m' & q & Hq & Hse & Hor)];
    unfold call; cbn [starting writing _sending _sendQueue wire accepted]; rewrite Hse; cbn [negb].
  - rewrite Hst, Hwr in *. rewrite map_app, app_assoc, Hw. split; [done|]. split; [done|].
    by destruct (_sendQueue s) as [|[n m'] q].
  - destruct Hor as [[Hst Hwr] | [Hst Hwr]]; rewrite Hst, Hwr, Hq in *; cbn [app tail] in *;
      rewrite <- Hw; cbn [map]; rewrite ?map_app; cbn [map];
      rewrite <- ?app_assoc, <- ?app_comm_cons; done.
Qed.

Lemma send_inv_start it s :
  send_inv s -> it ∈ starting s ->
  exists s', start it s = Some s' /\ send_inv s' /\ starting s' = [] /\ writing s' = [it]
    /\ _sendQueue s' = _sendQueue s /\ accepted s' = accepted s.
Proof.
  intros Hinv Hit. pose proof Hinv as [Hw _]. unfold send_inv, unsent, start in *.
  destruct (send_inv_cases s Hinv)
    as [(Hst & _) | (n & m & q & Hq & Hse & [[Hst Hwr] | [Hst _]])]; rewrite Hst in *;
    [by apply not_elem_of_nil in Hit | | by apply not_elem_of_nil in Hit].
  apply list_elem_of_singleton in Hit as ->. rewrite Hq, Hwr in *. cbn [deref remove_one].
  rewrite Nat.eqb_refl. cbn [mbind option_bind]. eexists. split; [done|].
  cbn. rewrite <- Hw, <- app_assoc. by rewrite Hse.
Qed.

Lemma send_inv_complete it r s :
  send_inv s -> it ∈ writing s ->
  exists s', complete it r s = Some s' /\ send_inv s' /\ writing s' = []
    /\ accepted s' = accepted s /\ _sendQueue s' = tail (_sendQueue s)
    /\ starting s' = match r with
                     | mustContinue true => option_list (fst <$> head (_sendQueue s'))
                     | _ => []
                     end.
Proof.
  intros Hinv Hit. pose proof Hinv as [Hw _]. unfold send_inv, unsent, complete in *.
  destruct (send_inv_cases s Hinv)
    as [(_ & Hwr & _) | (n & m & q & Hq & Hse & [[_ Hwr] | [Hst Hwr]])]; rewrite Hwr in *;
    [by apply not_elem_of_nil in Hit | by apply not_elem_of_nil in Hit |].
  apply list_elem_of_singleton in Hit as ->. rewrite Hq, Hst, Hse in *.
  cbn [deref remove_one erase tail] in *. rewrite Nat.eqb_refl. cbn [mbind option_bind].
  eexists. split; [done|]. cbn [starting writing _sending _sendQueue wire accepted].
  destruct r as [[]|]; cbn [negb]; [|done|done]. by destruct q as [|[n' m'] q].
Qed.

Lemma send_reachable_inv o : send_reachable o -> exists s, o = Some s /\ send_inv s.
Proof.
  induction 1 as [|s e s' _ (s1 & [= <-] & IH) Hstep]; [by exists send_init|].
  destruct Hstep as [m | it Hit | it r Hit].
  - eexists. split; [done|]. by apply send_inv_call.
  - destruct (send_inv_start it s IH Hit) as (s2 & -> & H & _). by exists s2.
  - destruct (send_inv_complete it r s IH Hit) as (s2 & -> & H & _). by exists s2.
Qed.

Lemma drain_start f s it : starting s = [it] -> drain (S f) s = (s' ← start it s; drain f s').
Proof. intros H. cbn [drain]. by rewrite H. Qed.

Lemma drain_complete f s it :
  starting s = [] -> writing s = [it] ->
  drain (S f) s = (s' ← complete it (mustContinue true) s; drain f s').
Proof. intros H1 H2. cbn [drain]. by rewrite H1, H2. Qed.

(** From a write in flight, the rest of the queue is drained. *)
Lemma drain_writing n : forall s it,
  send_inv s -> writing s = [it] -> starting s = [] -> length (_sendQueue s) = n ->
  exists fuel s', drain fuel s = Some s'
    /\ wire s' = accepted s /\ _sendQueue s' = [] /\ _sending s' = false.
Proof.
  induction n as [n IH] using lt_wf_ind. intros s it Hinv Hw Hst Hn.
  destruct (send_inv_complete it (mustContinue true) s Hinv)
    as (s1 & Hc & Hinv1 & Hw1 & Ha1 & Hq1 & Hst1); [rewrite Hw; by constructor|].
  destruct (send_inv_cases s Hinv) as [(_ & ? & _) | (? & m & q & Hq & _)]; [congruence|].
  rewrite Hq in Hq1, Hn. cbn [tail length] in *.
  destruct q as [|[it2 m2] q].
  - exists 1%nat, s1. rewrite (drain_complete _ _ it), Hc by done. cbn [mbind option_bind drain].
    rewrite Hq1 in Hst1. cbn in Hst1.
    destruct Hinv1 as [Hwire H]. rewrite Hst1, Hw1 in H. unfold unsent in Hwire.
    rewrite Hw1, Hq1, app_nil_r in Hwire. by rewrite <- Ha1.
  - rewrite Hq1 in Hst1. cbn in Hst1.
    destruct (send_inv_start it2 s1 Hinv1) as (s2 & Hs & Hinv2 & Hst2 & Hw2 & Hq2 & Ha2);
      [rewrite Hst1; by constructor|].
    destruct (IH (length (_sendQueue s2)) ltac:(rewrite Hq2, Hq1; cbn in *; lia) s2 it2)
      as (f & s' & Hd & Hr); [done..|].
    exists (S (S f)), s'. rewrite (drain_complete _ _ it), Hc by done. cbn [mbind option_bind].
    rewrite (drain_start _ _ it2), Hs by done. cbn [mbind option_bind].
    by rewrite Hd, <- Ha1, <- Ha2.
Qed.

Lemma drain_sending s :
  send_inv s -> _sending s = true ->
  exists fuel s', drain fuel s = Some s'
    /\ wire s' = accepted s /\ _sendQueue s' = [] /\ _sending s' = false.
Proof.
  intros Hinv Hs.
  destruct (send_inv_cases s Hinv) as [(_ & _ & ?) | (it & m & q & Hq & _ & [[Hst Hw] | [Hst Hw]])];
    [congruence | | by eapply drain_writing].
  destruct (send_inv_start it s Hinv) as (s1 & Hs1 & Hinv1 & Hst1 & Hw1 & _ & Ha1);
    [rewrite Hst; by constructor|].
  destruct (drain_writing _ s1 it Hinv1 Hw1 Hst1 eq_refl) as (f & s' & Hd & Hr).
  exists (S f), s'. rewrite (drain_start _ _ it), Hs1 by done. cbn [mbind option_bind].
  by rewrite Hd, <- Ha1.
Qed.

Lemma call_sending m s : send_inv s -> _sending (call m s) = true.
Proof. intros H. unfold call. cbn [_sending]. by destruct (_sending s). Qed.

(** The bytes of a message on the network: for a payload that has been
    written as a sequence of chunks and sub-buffers, [makeBuffers] stays inside
    of the buffers and gives the header followed by each chunk and, for each
    sub-buffer, its size then its bytes, in the order of the writes. *)
Theorem makeBuffers_wire m items
    (Hread : readable (_buffer m)) (Hsmall : used (_buffer m) + sizeof_size_type < 2 ^ 64)
    (Hsubs : Forall (fun i => match i with Sub s => readable s | _ => True end) items)
    (Hbuilt : abs (_buffer m) = foldl render1 t_empty items) :
  exists bufs, makeBuffers m = Some bufs
    /\ concat bufs = header_bytes (_header m) ++ concat (map item_wire items)
    /\ head bufs = Some (header_bytes (_header m)).
Proof.
  destruct (makeBuffers_payload m Hread Hsmall) as (bufs & Hb & Hc).
  exists bufs. split; [done|]. split.
  - rewrite Hc, Hbuilt. f_equal. by apply payload_render.
  - unfold makeBuffers in Hb. apply bind_Some in Hb as ([l o] & _ & Hb).
    by apply bind_Some in Hb as (? & _ & [= <-]).
Qed.

(** "ab", the sub-buffer "xyz", "cd". *)
Definition sub_xyz : BufferPrivate :=
  mkBufferPrivate None (lit "xyz" ++ zeros 765) 0 3 STATIC_BLOCK [].
Definition sample_buffer : BufferPrivate :=
  mkBufferPrivate None (lit "ab" ++ le_encode 4 3 ++ lit "cd" ++ zeros 760) 3 8 STATIC_BLOCK
    [(2, sub_xyz)].
Definition sample_message : Message := mkMessage sample_buffer [] sample_header.

Lemma sub_xyz_readable : readable sub_xyz.
Proof. constructor; by (vm_compute; repeat constructor). Qed.

Lemma sample_buffer_readable : readable sample_buffer.
Proof.
  constructor; try by (vm_compute; repeat constructor).
Qed.

Lemma makeBuffers_wire_witness :
  exists bufs, makeBuffers sample_message = Some bufs
    /\ concat bufs = header_bytes sample_header
                     ++ concat (map item_wire [Chunk (lit "ab"); Sub sub_xyz; Chunk (lit "cd")])
    /\ head bufs = Some (header_bytes sample_header).
Proof.
  apply (makeBuffers_wire sample_message [Chunk (lit "ab"); Sub sub_xyz; Chunk (lit "cd")]).
  - apply sample_buffer_readable.
  - done.
  - repeat (apply Forall_cons; split); try apply Forall_nil; try done.
  - reflexivity.
Defined.

(** The size that the header announces: after [setBuffer], and for a total
    below 2^32, the header announces the size of the payload that [makeBuffers]
    gives plus the size of the sub-buffers of the sub-buffers, which are not
    sent. The two agree exactly when no sub-buffer has sub-buffers with bytes. *)
Theorem makeBuffers_announced_size b m
    (Hread : readable b) (Hsmall : used b + sizeof_size_type < 2 ^ 64)
    (Htotal : tree_size (abs b) < 2 ^ 32) :
  let m' := setBuffer_move b m in
  exists bufs, makeBuffers m' = Some bufs
    /\ zlen (concat bufs) = sizeof_Header + h_size (_header m') - nested_size (abs b)
    /\ (zlen (concat bufs) = sizeof_Header + h_size (_header m') <->
        Forall (fun p => subs_size (t_subs (snd p)) = 0) (t_subs (abs b))).
Proof.
  cbv zeta. destruct (makeBuffers_payload (setBuffer_move b m)) as (bufs & Hb & Hc); [done|done|].
  exists bufs. split; [done|].
  change (_buffer (setBuffer_move b m)) with b in Hc.
  assert (Hsz : h_size (_header (setBuffer_move b m)) = tree_size (abs b)).
  { change (wrap 32 (totalSize b) = tree_size (abs b)).
    pose proof (tree_size_nonneg (abs b)).
    rewrite totalSize_correct, wrap64_small, wrap_small by (done || lia). done. }
  assert (Hl : zlen (concat bufs) = sizeof_Header + h_size (_header (setBuffer_move b m))
                                    - nested_size (abs b)).
  { rewrite Hc, zlen_app, zlen_header_bytes, zlen_payload, Hsz; [lia|].
    rewrite t_bytes_abs. by inversion Hread. }
  split; [done|]. rewrite Hl.
  assert (Hn : forall l, 0 <= foldr (fun p acc => subs_size (t_subs (snd p)) + acc) 0 l
    /\ (foldr (fun p acc => subs_size (t_subs (snd p)) + acc) 0 l = 0 <->
        Forall (fun p : Z * tree => subs_size (t_subs (snd p)) = 0) l)).
  { intros l. induction l as [|p l [IH1 IH2]]; [by split|]. cbn [foldr].
    pose proof (subs_size_nonneg (t_subs (snd p))). rewrite Forall_cons, <- IH2. lia. }
  destruct (Hn (t_subs (abs b))) as [_ <-]. fold (nested_size (abs b)). lia.
Qed.

(** The sample buffer as the sub-buffer of another one. *)
Definition nested_buffer : BufferPrivate :=
  mkBufferPrivate None (le_encode 4 8 ++ zeros 764) 11 4 STATIC_BLOCK [(0, sample_buffer)].

Lemma makeBuffers_announced_size_witness :
  let m' := setBuffer_move nested_buffer sample_message in
  h_size (_header m') = 15
  /\ exists bufs, makeBuffers m' = Some bufs /\ zlen (concat bufs) = sizeof_Header + 15 - 3
  /\ (zlen (concat bufs) = sizeof_Header + 15 <->
      Forall (fun p => subs_size (t_subs (snd p)) = 0) (t_subs (abs nested_buffer))).
Proof.
  split; [by vm_compute|].
  apply (makeBuffers_announced_size nested_buffer sample_message); [|by vm_compute|by vm_compute].
  constructor; try by (vm_compute; repeat constructor).
Defined.

(** C3. The send queue is a FIFO with one write at a time: whatever the
    interleaving of the calls of any number of threads, of the starts and of the
    completions of writes, and whatever the upper layer answers or throws, no
    invalid iterator is used, at most one [sendMessage] is pending or in flight,
    exactly when the flag is raised, and the messages given to the network
    followed by the ones still in the queue are the accepted ones in order. *)
Theorem send_queue_fifo o (Hreach : send_reachable o) :
  exists s, o = Some s /\ wire s ++ unsent s = accepted s
    /\ (length (starting s) + length (writing s) = if _sending s then 1 else 0)%nat.
Proof.
  destruct (send_reachable_inv o Hreach) as (s & -> & Hinv).
  exists s. split; [done|]. split; [apply Hinv|].
  destruct (send_inv_cases s Hinv) as [(-> & -> & ->) | (it & m & q & _ & -> & [[-> ->] | [-> ->]])];
    done.
Qed.

Lemma send_queue_fifo_witness :
  exists s, Some (call sample_message (call sample_message send_init)) = Some s
    /\ wire s ++ unsent s = accepted s
    /\ (length (starting s) + length (writing s) = if _sending s then 1 else 0)%nat.
Proof.
  apply send_queue_fifo. do 2 (eapply reach_step; [|apply step_call]). apply reach_init.
Defined.

(** No message is forgotten: from any reachable state, a call of the
    functor (re)starts the loop if it had stopped, and if the writes complete
    and the upper layer continues, after finitely many steps every message
    accepted so far has been given to the network once, in order, and the
    queue is empty and the flag lowered. *)
Theorem send_queue_drains s m (Hreach : send_reachable (Some s)) :
  exists fuel s', drain fuel (call m s) = Some s'
    /\ wire s' = accepted s ++ [m] /\ _sendQueue s' = [] /\ _sending s' = false.
Proof.
  destruct (send_reachable_inv _ Hreach) as (s1 & [= <-] & Hinv).
  apply (drain_sending (call m s)); [by apply send_inv_call | by apply call_sending].
Qed.

Lemma send_queue_drains_witness :
  exists fuel s', drain fuel (call sample_message (call sample_message send_init)) = Some s'
    /\ wire s' = [sample_message] ++ [sample_message] /\ _sendQueue s' = [] /\ _sending s' = false.
Proof.
  apply (send_queue_drains (call sample_message send_init) sample_message).
  eapply reach_step; [apply reach_init | apply step_call].
Defined.
