(* ===== verification/Receive.v ===== *)
(** * Receive: the message receive loop

    Model of [src/messaging/sock/receive.hpp]: [receiveMessage], [onReadHeader],
    [onReadData] and [ReceiveMessageContinuous] as one machine. [pending] is the
    asynchronous read in flight, and [on_completion] the handler that runs when
    the network completes it with an error code and with the bytes it has put in
    the memory that was given. [onReceive] is the upper layer, which decides
    whether to continue from what it has been given so far; [malloc] is the
    allocator; [maxPayload] and [ssl] are the parameters of the loop. *)
From S2P Require Import Prelude CString Bytes Buffer Message.
From Stdlib Require Import Ascii.
Open Scope Z_scope.

(** The error codes of [src/messaging/sock/error.hpp] that the loop makes, and
    the ones of the network. *)
Inductive error_code :=
  | success
  | fault
  | messageSize
  | noMemory
  | network_error (n : Z).

#[export] Instance error_code_eq_dec : EqDecision error_code.
Proof. solve_decision. Defined.

(** What the upper layer is called with: a pointer to the message or null. *)
Definition delivery : Type := error_code * option Message.

Inductive read_op :=
  | ReadHeader                  (* into the header of the message *)
  | ReadData (ptr n : Z)        (* into the buffer of the message *)
  | NoRead.                     (* the loop has stopped *)

Record receive_state := mkReceiveState {
  _msg : Message;
  pending : read_op;
  deliveries : list delivery;
}.

(** [ReceiveMessageContinuous] with a message, once called. *)
Definition receive_init (m : Message) : receive_state := mkReceiveState m ReadHeader [].

Section receive.
Context (malloc : Z -> option bytes).
Context (onReceive : list delivery -> error_code -> option Message -> bool).
Context (ssl : bool) (maxPayload : Z).

(** The callback of [ReceiveMessageContinuous] and, if it gives a message, the
    next [receiveMessage]. *)
Definition deliver (erc : error_code) (m : option Message) (s : receive_state) : receive_state :=
  if onReceive (deliveries s) erc m then
    let '(dataBuffer, msg) := extractBuffer (_msg s) in
    let dataBuffer := clear dataBuffer in
    mkReceiveState (setBuffer_move dataBuffer msg) ReadHeader (deliveries s ++ [(erc, m)])
  else mkReceiveState (_msg s) NoRead (deliveries s ++ [(erc, m)]).

Definition onReadData (erc : error_code) (s : receive_state) : receive_state :=
  deliver erc (Some (_msg s)) s.

(** [None] is undefined behaviour. *)
Definition onReadHeader (erc : error_code) (len : Z) (s : receive_state) : option receive_state :=
  if negb (bool_decide (erc = success)) then Some (deliver erc None s)
  else if ssl && (len =? 0) then Some (mkReceiveState (_msg s) ReadHeader (deliveries s))
  else
    let header := _header (_msg s) in
    if negb (magic header =? magicCookie) then Some (deliver fault None s)
    else
      let payload := h_size header in
      if payload =? 0 then Some (onReadData success s)
      else if maxPayload <? payload then Some (deliver messageSize None s)
      else
        let '(messageBuffer, msg) := extractBuffer (_msg s) in
        r ← reserve malloc messageBuffer payload;
        let '(ptr, messageBuffer) := r in
        match ptr with
        | None => Some (deliver noMemory None (mkReceiveState msg (pending s) (deliveries s)))
        | Some p =>
            Some (mkReceiveState (setBuffer_move messageBuffer msg) (ReadData p payload)
                    (deliveries s))
        end.

(** The network has put [read] in the memory of the pending operation: at the
    start of the header, or at the address of the data. *)
Definition fill_header (read : bytes) (m : Message) : Message :=
  set_header (header_of_bytes (read ++ drop (length read) (header_bytes (_header m)))) m.

Definition fill_data (ptr : Z) (read : bytes) (m : Message) : option Message :=
  d ← memcpy (data (_buffer m)) ptr read (zlen read);
  Some (mkMessage (set_data d (_buffer m)) (signature m) (_header m)).

Definition on_completion (erc : error_code) (read : bytes) (s : receive_state) :
    option receive_state :=
  match pending s with
  | ReadHeader =>
      onReadHeader erc (zlen read)
        (mkReceiveState (fill_header read (_msg s)) (pending s) (deliveries s))
  | ReadData ptr n =>
      m ← fill_data ptr read (_msg s);
      Some (onReadData erc (mkReceiveState m (pending s) (deliveries s)))
  | NoRead => Some s
  end.

(** The number of bytes the pending operation asks for. *)
Definition requested (s : receive_state) : Z :=
  match pending s with
  | ReadHeader => sizeof_Header
  | ReadData _ n => n
  | NoRead => 0
  end.

(** A sequence of completions. *)
Fixpoint run (events : list (error_code * bytes)) (s : receive_state) : option receive_state :=
  match events with
  | [] => Some s
  | (erc, read) :: events' => s' ← on_completion erc read s; run events' s'
  end.

(** A network that gives the bytes of a stream, without error, until there are
    not enough of them. *)
Fixpoint run_stream (fuel : nat) (s : receive_state) (stream : bytes) :
    option (receive_state * bytes) :=
  match fuel with
  | O => Some (s, stream)
  | S f =>
      match pending s with
      | NoRead => Some (s, stream)
      | _ =>
          if zlen stream <? requested s then Some (s, stream)
          else
            let n := Z.to_nat (requested s) in
            s' ← on_completion success (take n stream) s;
            run_stream f s' (drop n stream)
      end
  end.
End receive.

(** What the loop may reach, whatever the network gives, within what it was
    asked. *)
Inductive receive_reachable malloc onReceive ssl maxPayload (m : Message) :
    option receive_state -> Prop :=
  | receive_start : receive_reachable malloc onReceive ssl maxPayload m (Some (receive_init m))
  | receive_completion s erc read :
      receive_reachable malloc onReceive ssl maxPayload m (Some s) ->
      zlen read <= requested s ->
      receive_reachable malloc onReceive ssl maxPayload m
        (on_completion malloc onReceive ssl maxPayload erc read s).
