(* ===== verification/ReceiveProperties.v ===== *)
(** * ReceiveProperties: safety of the receive loop and the round trip *)
From S2P Require Import Prelude CString Bytes Buffer BufferProperties Message.
From S2P Require Import Send SendProperties Receive.
From Stdlib Require Import Ascii.
Open Scope Z_scope.

Section receive_properties.
#[local] Set Default Proof Using "All".
Context (malloc : Z -> option bytes).
Context (onReceive : list delivery -> error_code -> option Message -> bool).
Context (ssl : bool) (maxPayload : Z).
Context (malloc_length : forall n blk, malloc n = Some blk -> zlen blk = n).
Context (payload_range : 0 <= maxPayload < 2 ^ 32).

Abbreviation completion := (on_completion malloc onReceive ssl maxPayload).

(** A buffer the loop may write to, without sub-buffers and of bounded
    capacity. *)
Definition receive_buffer (b : BufferPrivate) : Prop :=
  owner b /\ _subBuffers b = [] /\ available b <= Z.max STATIC_BLOCK (maxPayload + BLOCK).

(** What the upper layer may rely on. *)
Definition delivery_ok (d : delivery) : Prop :=
  match d with
  | (erc, None) => erc <> success
  | (_, Some m) =>
      magic (_header m) = magicCookie /\ header_wf (_header m)
      /\ h_size (_header m) = zlen (content (_buffer m))
      /\ h_size (_header m) <= maxPayload /\ receive_buffer (_buffer m)
  end.

Definition receive_inv (s : receive_state) : Prop :=
  receive_buffer (_buffer (_msg s)) /\ header_wf (_header (_msg s))
  /\ Forall delivery_ok (deliveries s)
  /\ match pending s with
     | ReadHeader => used (_buffer (_msg s)) = 0
     | ReadData ptr n =>
         ptr = 0 /\ 0 < n <= maxPayload /\ n = used (_buffer (_msg s))
         /\ magic (_header (_msg s)) = magicCookie /\ h_size (_header (_msg s)) = n
     | NoRead => True
     end.

Lemma receive_buffer_clear b : receive_buffer b -> receive_buffer (clear b).
Proof. intros (Ho & _ & Ha). split_and!; [by apply owner_clear | done | done]. Qed.

Lemma receive_buffer_new : receive_buffer BufferPrivate_new.
Proof. split_and!; [apply owner_new | done |]. cbn -[Z.max]. unfold STATIC_BLOCK. lia. Qed.

Lemma header_wf_set_size n m :
  0 <= n < 2 ^ 32 -> header_wf (_header m) -> header_wf (_header (set_size n m)).
Proof. unfold header_wf. cbn. tauto. Qed.

(** A delivery keeps the invariant. *)
Lemma deliver_inv erc m s :
  receive_buffer (_buffer (_msg s)) -> header_wf (_header (_msg s)) ->
  Forall delivery_ok (deliveries s) -> delivery_ok (erc, m) ->
  receive_inv (deliver onReceive erc m s).
Proof.
  intros Hb Hh Hd Hm. unfold deliver.
  assert (Hd' : Forall delivery_ok (deliveries s ++ [(erc, m)])).
  { apply Forall_app. split; [done|]. by constructor. }
  destruct (onReceive _ _ _); [|by split_and!].
  cbn [extractBuffer Buffer_move].
  split_and!; [by apply receive_buffer_clear | | done | done].
  unfold setBuffer_move, Buffer_move. apply header_wf_set_size; [|done].
  by apply wrap_range.
Qed.

Lemma fill_header_wf read m :
  zlen read <= sizeof_Header -> header_wf (_header (fill_header read m)).
Proof.
  intros H. unfold fill_header, set_header. cbn [_header]. apply header_bytes_of_bytes. unfold zlen, sizeof_Header in H.
  rewrite length_app, length_drop, length_header_bytes. lia.
Qed.

(** Reserving the payload in the empty buffer. *)
Lemma reserve_payload b n :
  receive_buffer b -> used b = 0 -> 0 < n <= maxPayload ->
  (reserve malloc b n = Some (None, b) /\ malloc (n + BLOCK) = None)
  \/ exists b', reserve malloc b n = Some (Some 0, b') /\ receive_buffer b' /\ used b' = n.
Proof.
  intros (Ho & Hs & Ha) Hu Hn.
  destruct (reserve_cases malloc malloc_length b n Ho) as [[H1 H2] | (b' & fill & Hr & Ho' & Hf & Habs)];
    unfold BLOCK in *; [lia | lia | left; by rewrite Hu in H2 | right].
  exists b'. rewrite Hu in Hr. split; [done|].
  assert (Hu' : used b' = n).
  { rewrite <- zlen_content, <- t_bytes_abs, Habs by apply Ho'. cbn [t_append t_bytes].
    rewrite t_bytes_abs, zlen_app, zlen_content by apply Ho. lia. }
  split; [|done]. split; [done|]. split.
  - assert (Hsub : t_subs (abs b') = t_subs (abs b)) by by rewrite Habs.
    rewrite !abs_unfold in Hsub. cbn [t_subs] in Hsub. rewrite Hs in Hsub.
    by apply map_eq_nil in Hsub.
  - unfold reserve in Hr. rewrite Hu, !Z.add_0_l, (wrap64_small n) in Hr by lia.
    destruct (Z.ltb_spec (available b) n).
    + unfold resize, BLOCK in Hr. rewrite wrap64_small in Hr by lia.
      apply bind_Some in Hr as ([ret b1] & Hr & Hres). apply bind_Some in Hr as (nb & _ & Hr).
      destruct nb as [blk|]; [|injection Hr as <- <-; discriminate].
      apply bind_Some in Hr as (blk' & _ & Hr). injection Hr as <- <-.
      cbn [negb used] in Hres. injection Hres as _ <-.
      cbn [set_used available]. unfold STATIC_BLOCK, BLOCK. lia.
    + cbn [mbind option_bind negb] in Hr. injection Hr as _ <-. done.
Qed.

Lemma on_header_inv erc len s :
  receive_inv s -> pending s = ReadHeader -> 
  exists s', onReadHeader malloc onReceive ssl maxPayload erc len s = Some s' /\ receive_inv s'.
Proof.
  intros (Hb & Hh & Hd & Hp) Hpend. rewrite Hpend in Hp. unfold onReadHeader.
  assert (Herr : forall e, e <> success -> receive_inv (deliver onReceive e None s)).
  { intros e He. by apply deliver_inv. }
  case_bool_decide as He; cbn [negb]; [|by eauto].
  destruct (ssl && (len =? 0)); [eexists; split; [done|]; by split_and!|].
  destruct (Z.eqb_spec (magic (_header (_msg s))) magicCookie) as [Hmagic|]; cbn [negb]; [|by eauto].
  destruct (Z.eqb_spec (h_size (_header (_msg s))) 0) as [Hz|Hnz].
  { eexists. split; [done|]. apply deliver_inv; try done. split_and!; try done; [|lia|..]; try apply Hb.
    rewrite zlen_content by apply Hb. lia. }
  destruct (Z.ltb_spec maxPayload (h_size (_header (_msg s)))) as [|Hle]; [by eauto|].
  cbn [extractBuffer Buffer_move].
  assert (Hrange : 0 < h_size (_header (_msg s)) <= maxPayload).
  { destruct Hh as (_ & _ & Hh & _). lia. }
  destruct (reserve_payload _ _ Hb Hp Hrange) as [[-> _] | (b' & -> & Hb' & Hu')];
    cbn [mbind option_bind].
  - eexists. split; [done|]. apply deliver_inv; cbn [_msg _buffer _header deliveries]; try done.
    apply receive_buffer_clear, receive_buffer_new.
  - eexists. split; [done|].
    assert (Htot : wrap 32 (totalSize b') = h_size (_header (_msg s))).
    { destruct Hb' as (Ho' & Hsub' & _). rewrite totalSize_correct by apply Ho'.
      rewrite tree_size_unfold, t_bytes_abs, zlen_content by apply Ho'.
      rewrite abs_unfold, Hsub'. cbn [t_subs map subs_size foldr].
      rewrite wrap64_small, wrap_small by lia. lia. }
    split_and!; cbn [_msg setBuffer_move Buffer_move pending deliveries]; try done; try lia.
    apply header_wf_set_size; [|done]. by apply wrap_range.
Qed.

Lemma on_completion_inv erc read s :
  receive_inv s -> zlen read <= requested s ->
  exists s', completion erc read s = Some s' /\ receive_inv s'.
Proof.
  intros Hinv Hlen. pose proof Hinv as (Hb & Hh & Hd & Hp).
  unfold on_completion, requested in *. destruct (pending s) as [|ptr n|] eqn:Hpend.
  - apply on_header_inv; [|done]. split_and!; cbn [_msg deliveries pending]; try done.
    by apply fill_header_wf.
  - destruct Hp as (-> & Hn & Hu & Hmagic & Hsize). unfold fill_data.
    destruct Hb as ([Hr Ha] & Hs & Hav). pose proof (readable_used _ Hr) as [Hu' _].
    destruct (memcpy (data (_buffer (_msg s))) 0 read (zlen read)) as [d|] eqn:Hm.
    2: { unfold memcpy in Hm. rewrite decide_True in Hm by zlen_lia. done. }
    apply memcpy_length in Hm. cbn [mbind option_bind]. eexists. split; [done|].
    assert (Hb' : receive_buffer (set_data d (_buffer (_msg s)))).
    { destruct (set_data_fields d (_buffer (_msg s)) Hm) as (H1 & H2 & H3 & H4 & H5);
        [by inversion Hr|].
      assert (Hz : _cachedSubBufferTotalSize (_buffer (_msg s)) = 0).
      { inversion Hr as [? _ _ _ Hc _ _]; subst. rewrite Hc, abs_unfold, Hs. done. }
      split_and!; [|by rewrite H4|by rewrite H3]. split; [|by rewrite H3, data_set_data, Hm].
      constructor; rewrite ?H2, ?data_set_data, ?Hm, ?H5, ?abs_unfold, ?H4, ?Hs; try done; try zlen_lia.
      apply zlen_nonneg. }
    apply deliver_inv; cbn [_msg _buffer _header deliveries]; try done.
    split_and!; cbn [_header _buffer]; try done; try zlen_lia.
    rewrite zlen_content by apply Hb'. rewrite Hsize, Hu.
    unfold set_data. by destruct (_bigdata (_buffer (_msg s))).
  - by exists s.
Qed.
End receive_properties.

(** ** Receiving what was sent *)

(** The bytes that [sendMessage] gives to the network for a message. *)
Definition wire_bytes (m : Message) : option bytes := @concat ascii <$> makeBuffers m.

(** What the upper layer sees of a successful delivery. *)
Definition observed (d : delivery) : option (Header * bytes) :=
  match d with
  | (success, Some m) => Some (_header m, content (_buffer m))
  | _ => None
  end.

Section roundtrip.
#[local] Set Default Proof Using "All".
Context (malloc : Z -> option bytes).
Context (onReceive : list delivery -> error_code -> option Message -> bool).
Context (ssl : bool) (maxPayload : Z).
Context (malloc_length : forall n blk, malloc n = Some blk -> zlen blk = n).
Context (malloc_ok : forall n, 0 <= n <= maxPayload + BLOCK -> malloc n <> None).
Context (payload_range : 0 <= maxPayload < 2 ^ 32).
Context (continues : forall ds m, onReceive ds success (Some m) = true).

Abbreviation completion := (on_completion malloc onReceive ssl maxPayload).
Abbreviation inv := (receive_inv maxPayload).

(** A successful delivery continues with the next header. *)
Lemma deliver_success s m :
  pending (deliver onReceive success (Some m) s) = ReadHeader
  /\ deliveries (deliver onReceive success (Some m) s) = deliveries s ++ [(success, Some m)].
Proof. unfold deliver. by rewrite continues. Qed.

Lemma fill_whole_header h m :
  header_wf h -> _header (fill_header (header_bytes h) m) = h.
Proof. intros Hh. unfold fill_header, set_header. cbn [_header]. by apply header_of_bytes_app. Qed.

(** The completion of the header of a message without payload. *)
Lemma receive_empty s h :
  inv s -> pending s = ReadHeader -> header_wf h -> magic h = magicCookie -> h_size h = 0 ->
  exists s' m, completion success (header_bytes h) s = Some s' /\ inv s'
    /\ pending s' = ReadHeader /\ deliveries s' = deliveries s ++ [(success, Some m)]
    /\ _header m = h /\ content (_buffer m) = [].
Proof.
  intros Hinv Hp Hh Hm Hz.
  destruct (on_completion_inv malloc onReceive ssl maxPayload malloc_length payload_range
              success (header_bytes h) s Hinv) as (s' & Hs' & Hinv').
  { unfold requested. by rewrite Hp, zlen_header_bytes. }
  exists s'. pose proof Hs' as Hcomp. unfold on_completion, onReadHeader in Hs'. rewrite Hp in Hs'.
  rewrite zlen_header_bytes in Hs'. cbn [_msg pending deliveries] in Hs'.
  rewrite bool_decide_eq_true_2, andb_false_r in Hs' by done. cbn [negb] in Hs'.
  rewrite fill_whole_header, Hm, Hz in Hs' by done. rewrite !Z.eqb_refl in Hs'. cbn [negb] in Hs'.
  unfold onReadData in Hs'. cbn [_msg] in Hs'. injection Hs' as Hs'.
  exists (fill_header (header_bytes h) (_msg s)). rewrite <- Hs' in *.
  destruct (deliver_success
    {| _msg := fill_header (header_bytes h) (_msg s); pending := ReadHeader;
       deliveries := deliveries s |} (fill_header (header_bytes h) (_msg s))) as [-> ->].
  split_and!; try done; [by apply fill_whole_header|].
  destruct Hinv as (_ & _ & _ & Hused). rewrite Hp in Hused.
  unfold content. cbn [_buffer fill_header set_header]. by rewrite Hused.
Qed.

(** The completion of the header of a message with a payload: its memory is
    reserved and the data is asked for. *)
Lemma receive_header s h :
  inv s -> pending s = ReadHeader -> header_wf h -> magic h = magicCookie ->
  0 < h_size h <= maxPayload ->
  exists s', completion success (header_bytes h) s = Some s' /\ inv s'
    /\ pending s' = ReadData 0 (h_size h) /\ deliveries s' = deliveries s
    /\ _header (_msg s') = h.
Proof.
  intros Hinv Hp Hh Hm Hz.
  destruct (on_completion_inv malloc onReceive ssl maxPayload malloc_length payload_range
              success (header_bytes h) s Hinv) as (s' & Hs' & Hinv').
  { unfold requested. by rewrite Hp, zlen_header_bytes. }
  exists s'. pose proof Hs' as Hcomp. unfold on_completion, onReadHeader in Hs'. rewrite Hp in Hs'.
  rewrite zlen_header_bytes in Hs'. cbn [_msg pending deliveries] in Hs'.
  rewrite bool_decide_eq_true_2, andb_false_r in Hs' by done. cbn [negb] in Hs'.
  pose proof (fill_whole_header h (_msg s) Hh) as Hfill.
  assert (Hfb : _buffer (fill_header (header_bytes h) (_msg s)) = _buffer (_msg s)) by done.
  remember (fill_header (header_bytes h) (_msg s)) as fm eqn:Hfm. clear Hfm.
  rewrite Hfill, Hm in Hs'. rewrite Z.eqb_refl in Hs'. cbn [negb] in Hs'.
  rewrite (proj2 (Z.eqb_neq _ _)), (proj2 (Z.ltb_ge _ _)) in Hs' by lia.
  cbn [extractBuffer Buffer_move] in Hs'.
  destruct Hinv as (Hb & _ & _ & Hused). rewrite Hp in Hused.
  destruct (reserve_payload malloc onReceive ssl maxPayload malloc_length payload_range
    (_buffer (_msg s)) (h_size h) Hb Hused Hz) as [[_ Hnone] | (b' & Hr & _)].
  { apply malloc_ok in Hnone; [done|]. unfold BLOCK. lia. }
  rewrite Hfb, Hr in Hs'. cbn [mbind option_bind] in Hs'.
  injection Hs' as <-. cbn [pending deliveries _msg]. split_and!; try done.
  destruct Hinv' as (_ & _ & _ & Hpend). cbn [pending _msg] in Hpend.
  destruct Hpend as (_ & _ & _ & _ & Hsz).
  unfold setBuffer_move, set_size, set_header in *. cbn [Buffer_move _header h_size] in *.
  rewrite Hsz, Hfill. by destruct h.
Qed.

Lemma receive_data s p :
  inv s -> pending s = ReadData 0 (zlen p) ->
  exists s' m, completion success p s = Some s' /\ inv s'
    /\ pending s' = ReadHeader /\ deliveries s' = deliveries s ++ [(success, Some m)]
    /\ _header m = _header (_msg s) /\ content (_buffer m) = p.
Proof.
  intros Hinv Hp.
  destruct (on_completion_inv malloc onReceive ssl maxPayload malloc_length payload_range
              success p s Hinv) as (s' & Hs' & Hinv'); [unfold requested; by rewrite Hp|].
  exists s'. pose proof Hs' as Hcomp. unfold on_completion in Hs'. rewrite Hp in Hs'.
  apply bind_Some in Hs' as (m & Hm & Hs'). injection Hs' as Hs'. exists m. rewrite <- Hs' in *.
  unfold onReadData. cbn [_msg].
  destruct (deliver_success (mkReceiveState m (ReadData 0 (zlen p)) (deliveries s)) m) as [-> ->].
  destruct Hinv as (_ & _ & _ & Hpend). rewrite Hp in Hpend.
  destruct Hpend as (_ & _ & Hused & _).
  apply bind_Some in Hm as (d & Hcpy & Hm). injection Hm as <-.
  split_and!; try done. unfold content. cbn [_buffer]. rewrite data_set_data.
  replace (used (set_data d (_buffer (_msg s)))) with (zlen p)
    by (rewrite Hused; unfold set_data; by destruct (_bigdata (_buffer (_msg s)))).
  apply memcpy_prefix in Hcpy. rewrite Z.add_0_l in Hcpy. rewrite Hcpy. cbn.
  apply take_ge. unfold zlen. lia.
Qed.

Lemma run_stream_step f s read rest s' :
  requested s = zlen read -> pending s <> NoRead -> completion success read s = Some s' ->
  run_stream malloc onReceive ssl maxPayload (S f) s (read ++ rest)
  = run_stream malloc onReceive ssl maxPayload f s' rest.
Proof.
  intros Hr Hp Hc. cbn [run_stream]. rewrite Hr. rewrite zlen_app.
  destruct (Z.ltb_spec (zlen read + zlen rest) (zlen read)).
  { zlen_lia. }
  unfold zlen. rewrite Nat2Z.id, take_app_length, drop_app_length, Hc. cbn [mbind option_bind].
  by destruct (pending s).
Qed.

(** One message: header then payload. *)
Lemma receive_message s h p :
  inv s -> pending s = ReadHeader -> header_wf h -> magic h = magicCookie ->
  h_size h = zlen p -> zlen p <= maxPayload ->
  exists k s' m, (forall f rest, run_stream malloc onReceive ssl maxPayload (k + f) s
                                   (header_bytes h ++ p ++ rest)
                                 = run_stream malloc onReceive ssl maxPayload f s' rest)
    /\ inv s' /\ pending s' = ReadHeader
    /\ deliveries s' = deliveries s ++ [(success, Some m)]
    /\ _header m = h /\ content (_buffer m) = p.
Proof.
  intros Hinv Hp Hh Hm Hz Hle.
  assert (Hreq : requested s = zlen (header_bytes h)).
  { unfold requested. by rewrite Hp, zlen_header_bytes. }
  destruct p as [|c p].
  - destruct (receive_empty s h Hinv Hp Hh Hm Hz) as (s' & m & Hc & H1 & H2 & H3 & H4 & H5).
    exists 1%nat, s', m. split_and!; try done. intros f rest.
    apply run_stream_step; [done | by rewrite Hp | done].
  - destruct (receive_header s h Hinv Hp Hh Hm) as (s1 & Hc & H1 & H2 & H3 & H4).
    { rewrite Hz. rewrite zlen_cons in *. zlen_lia. }
    rewrite Hz in H2.
    destruct (receive_data s1 (c :: p) H1 H2) as (s2 & m & Hc2 & Hi & Hp2 & Hd2 & Hh2 & Hb2).
    exists 2%nat, s2, m. split_and!; try done; [|by rewrite Hd2, H3|by rewrite Hh2].
    intros f rest. cbn [Nat.add].
    rewrite (run_stream_step _ _ _ _ s1) by (done || by rewrite Hp).
    apply run_stream_step; [unfold requested; by rewrite H2 | by rewrite H2 | done].
Qed.

(** A message that may be sent to this receiver. *)
Definition sendable (m : Message) : Prop :=
  readable (_buffer m) /\ used (_buffer m) + sizeof_size_type < 2 ^ 64
  /\ header_wf (_header m) /\ magic (_header m) = magicCookie
  /\ h_size (_header m) = zlen (payload (abs (_buffer m)))
  /\ h_size (_header m) <= maxPayload.

Lemma receive_messages ms partial : forall s,
  inv s -> pending s = ReadHeader -> Forall sendable ms -> zlen partial < sizeof_Header ->
  exists chunks fuel s', mapM wire_bytes ms = Some chunks
    /\ run_stream malloc onReceive ssl maxPayload fuel s (concat chunks ++ partial)
       = Some (s', partial)
    /\ pending s' = ReadHeader
    /\ map observed (deliveries s')
       = map observed (deliveries s)
         ++ map (fun m => Some (_header m, payload (abs (_buffer m)))) ms.
Proof.
  induction ms as [|m ms IH]; intros s Hinv Hp Hms Hpart.
  { exists [], 1%nat, s. split_and!; [done | | done | by rewrite app_nil_r].
    cbn [concat app run_stream]. unfold requested. rewrite Hp.
    by rewrite (proj2 (Z.ltb_lt _ _)) by done. }
  apply Forall_cons in Hms as [(Hr & Hu & Hh & Hm & Hz & Hle) Hms].
  destruct (makeBuffers_payload m Hr Hu) as (bufs & Hb & Hc).
  destruct (receive_message s (_header m) (payload (abs (_buffer m))) Hinv Hp Hh Hm Hz)
    as (k & s1 & m1 & Hrun & Hi1 & Hp1 & Hd1 & Hh1 & Hb1); [by rewrite <- Hz|].
  destruct (IH s1 Hi1 Hp1 Hms Hpart) as (chunks & fuel & s' & Hch & Hs & Hp' & Hd').
  exists (concat bufs :: chunks), (k + fuel)%nat, s'.
  split_and!; [| | done |].
  - change (mapM wire_bytes (m :: ms))
      with (y ← wire_bytes m; k ← mapM wire_bytes ms; Some (y :: k)).
    rewrite Hch. unfold wire_bytes. by rewrite Hb.
  - cbn [concat]. by rewrite Hc, <- !app_assoc, Hrun.
  - rewrite Hd', Hd1, map_app, <- app_assoc. cbn [map app observed]. by rewrite Hh1, Hb1.
Qed.
End roundtrip.

Lemma receive_inv_init maxPayload m :
  0 <= maxPayload < 2 ^ 32 -> _buffer m = BufferPrivate_new -> header_wf (_header m) ->
  receive_inv maxPayload (receive_init m).
Proof.
  intros Hmax Hb Hh. split_and!; cbn [receive_init _msg deliveries pending]; rewrite ?Hb; try done.
  split_and!; [apply owner_new | done |]. cbn -[Z.max]. unfold STATIC_BLOCK. lia.
Qed.

(** C2. The receive loop is safe whatever the peer sends: for any sequence of
    completions, with any error codes and any bytes (at most as many as were
    asked for), whatever the upper layer decides and whether the allocations
    succeed or not, no byte is written outside of the memory of the message,
    that memory never exceeds the maximum payload plus one block, and the upper
    layer is never given a pointer to a message whose header is not valid or
    whose payload has not the announced size, nor success without a message. *)
Theorem receive_safe malloc onReceive ssl maxPayload m o
    (Hlength : forall n blk, malloc n = Some blk -> zlen blk = n)
    (Hmax : 0 <= maxPayload < 2 ^ 32)
    (Hnew : _buffer m = BufferPrivate_new) (Hwf : header_wf (_header m))
    (Hreach : receive_reachable malloc onReceive ssl maxPayload m o) :
  exists s, o = Some s /\ owner (_buffer (_msg s))
    /\ zlen (data (_buffer (_msg s))) <= Z.max STATIC_BLOCK (maxPayload + BLOCK)
    /\ Forall (delivery_ok maxPayload) (deliveries s)
    /\ (forall ptr n, pending s = ReadData ptr n ->
          0 <= ptr /\ 0 < n <= maxPayload /\ ptr + n <= zlen (data (_buffer (_msg s)))).
Proof.
  assert (H : exists s, o = Some s /\ receive_inv maxPayload s).
  { induction Hreach as [|s erc read _ (s1 & [= <-] & IH) Hread].
    - eexists. split; [done|]. by apply receive_inv_init.
    - by apply (on_completion_inv malloc onReceive ssl maxPayload Hlength Hmax). }
  destruct H as (s & -> & (((Hr & Ha) & _ & Hav) & _ & Hd & Hp)). exists s.
  split_and!; try done; [lia|].
  intros ptr n Hpend. rewrite Hpend in Hp. destruct Hp as (-> & Hn & Hu & _).
  pose proof (readable_used _ Hr). lia.
Qed.

Lemma receive_safe_witness :
  exists s, on_completion (bounded_malloc 9999) (fun _ _ _ => false) false 1000 success
              (header_bytes sample_header) (receive_init (fst (Message_default 0))) = Some s
    /\ owner (_buffer (_msg s))
    /\ zlen (data (_buffer (_msg s))) <= Z.max STATIC_BLOCK (1000 + BLOCK)
    /\ Forall (delivery_ok 1000) (deliveries s)
    /\ (forall ptr n, pending s = ReadData ptr n ->
          0 <= ptr /\ 0 < n <= 1000 /\ ptr + n <= zlen (data (_buffer (_msg s)))).
Proof.
  apply (receive_safe (bounded_malloc 9999) (fun _ _ _ => false) false 1000
    (fst (Message_default 0)) _ (bounded_malloc_length 9999)).
  - lia.
  - done.
  - repeat split; vm_compute; congruence.
  - apply (receive_completion _ _ _ _ _ (receive_init (fst (Message_default 0)))).
    + apply receive_start.
    + vm_compute. discriminate.
Defined.

(** C1. What is sent is what is received: when the bytes that [makeBuffers]
    gives for a sequence of messages are put one after the other on the network,
    a receive loop whose upper layer continues delivers exactly these messages,
    in order, without error, with the same headers and with the bytes of their
    payloads, and then waits for the next header, whatever incomplete header
    follows. It is enough that the messages have the magic number and a header
    that announces the size of their payload, within the configured maximum. *)
Theorem receive_roundtrip malloc onReceive ssl maxPayload m0 ms partial
    (Hlength : forall n blk, malloc n = Some blk -> zlen blk = n)
    (Hok : forall n, 0 <= n <= maxPayload + BLOCK -> malloc n <> None)
    (Hmax : 0 <= maxPayload < 2 ^ 32)
    (Hcontinue : forall ds m, onReceive ds success (Some m) = true)
    (Hnew : _buffer m0 = BufferPrivate_new) (Hwf : header_wf (_header m0))
    (Hms : Forall (sendable maxPayload) ms) (Hpartial : zlen partial < sizeof_Header) :
  exists chunks fuel s, mapM wire_bytes ms = Some chunks
    /\ run_stream malloc onReceive ssl maxPayload fuel (receive_init m0)
         (concat chunks ++ partial) = Some (s, partial)
    /\ pending s = ReadHeader
    /\ map observed (deliveries s)
       = map (fun m => Some (_header m, payload (abs (_buffer m)))) ms.
Proof.
  apply (receive_messages malloc onReceive ssl maxPayload Hlength Hok Hmax Hcontinue ms partial
           (receive_init m0)); try done.
  by apply receive_inv_init.
Qed.

Lemma receive_roundtrip_witness :
  let m := setBuffer_move sample_buffer sample_message in
  exists chunks fuel s, mapM wire_bytes [m; m] = Some chunks
    /\ run_stream (bounded_malloc 9999) (fun _ _ _ => true) true 1000 fuel
         (receive_init (fst (Message_default 0))) (concat chunks ++ lit "B") = Some (s, lit "B")
    /\ pending s = ReadHeader
    /\ map observed (deliveries s)
       = map (fun m => Some (_header m, payload (abs (_buffer m)))) [m; m].
Proof.
  apply (receive_roundtrip (bounded_malloc 9999) (fun _ _ _ => true) true 1000
    (fst (Message_default 0)) _ (lit "B") (bounded_malloc_length 9999)).
  - intros n Hn. apply bounded_malloc_ok. unfold BLOCK in Hn. lia.
  - lia.
  - done.
  - done.
  - repeat split; vm_compute; congruence.
  - assert (H : sendable 1000 (setBuffer_move sample_buffer sample_message)).
    { split; [apply sample_buffer_readable|]. repeat split; vm_compute; congruence. }
    apply Forall_cons. split; [exact H|]. apply Forall_cons. split; [exact H|]. apply Forall_nil.
    exact I.
  - vm_compute. reflexivity.
Defined.
