(* ===== verification/TypeInterface.v ===== *)
(** * TypeInterface: the types of the values that are serialized

    Model of the part of [src/type/typeinterface.cpp] that relates types and
    signatures. A [TypeInterface] is modelled by the structure that its kind and
    accessors give. No C++ structure is registered for a tuple signature. *)
From S2P Require Import Prelude CString Signature SignatureGrammar SignatureProperties SignatureConvert.
#[local] Open Scope char_scope.
#[local] Open Scope list_scope.
#[local] Open Scope Z_scope.

Inductive ty :=
  | TVoid
  | TInt (isSigned : bool) (byteSize : Z)     (* [byteSize] 0 is [bool] *)
  | TFloat (byteSize : Z)
  | TString
  | TList (element : ty)
  | TVarArgs (element : ty)
  | TMap (key element : ty)
  | TTuple (className : bytes) (elementsName : list bytes) (memberTypes : list ty)
  | TDynamic                                  (* [AnyValue] *)
  | TRaw                                      (* [Buffer] *)
  | TObject                                   (* [AnyObject] *)
  | TOptional (valueType : ty).

(** [SignatureTypeVisitor::visitInt] and [visitFloat]. *)
Definition int_signature_type (isSigned : bool) (byteSize : Z) : ascii :=
  let n := if isSigned then byteSize else - byteSize in
  if n =? 0 then Type_Bool
  else if n =? 1 then Type_Int8
  else if n =? -1 then Type_UInt8
  else if n =? 2 then Type_Int16
  else if n =? -2 then Type_UInt16
  else if n =? 4 then Type_Int32
  else if n =? -4 then Type_UInt32
  else if n =? 8 then Type_Int64
  else if n =? -8 then Type_UInt64
  else Type_Unknown.

Definition float_signature_type (byteSize : Z) : ascii :=
  if byteSize =? 4 then Type_Float else Type_Double.

(** [TypeInterface::signature] without the resolution of dynamics. *)
Fixpoint ty_signature (t : ty) : result sig_error Signature :=
  match t with
  | TVoid => fromType Type_Void
  | TInt isSigned byteSize => fromType (int_signature_type isSigned byteSize)
  | TFloat byteSize => fromType (float_signature_type byteSize)
  | TString => fromType Type_String
  | TList el => s ← ty_signature el; makeListSignature s
  | TVarArgs el => s ← ty_signature el; makeVarArgsSignature s
  | TMap k e => sk ← ty_signature k; se ← ty_signature e; makeMapSignature sk se
  | TTuple name names ts =>
      ss ← mapM ty_signature ts;
      makeTupleSignature ss name names
  | TDynamic => fromType Type_Dynamic
  | TRaw => fromType Type_Raw
  | TObject => fromType Type_Object
  | TOptional t => s ← ty_signature t; makeOptionalSignature s
  end.

(** [TypeInterface::fromSignature]. [None] is a null pointer, or the exception
    of [children().at], which the parsed signatures never raise. *)
Fixpoint fromSignature (sig : Signature) : option ty :=
  let 'Sig _ c := sig in
  let x := type sig in
  if decide (x = Type_None \/ x = Type_Void) then Some TVoid
  else if decide (x = Type_Bool) then Some (TInt false 0)
  else if decide (x = Type_Int8) then Some (TInt true 1)
  else if decide (x = Type_UInt8) then Some (TInt false 1)
  else if decide (x = Type_Int16) then Some (TInt true 2)
  else if decide (x = Type_UInt16) then Some (TInt false 2)
  else if decide (x = Type_Int32) then Some (TInt true 4)
  else if decide (x = Type_UInt32) then Some (TInt false 4)
  else if decide (x = Type_Int64) then Some (TInt true 8)
  else if decide (x = Type_UInt64) then Some (TInt false 8)
  else if decide (x = Type_Float) then Some (TFloat 4)
  else if decide (x = Type_Double) then Some (TFloat 8)
  else if decide (x = Type_String) then Some TString
  else if decide (x = Type_List) then
    match c with s :: _ => el ← fromSignature s; Some (TList el) | [] => None end
  else if decide (x = Type_VarArgs) then
    match c with s :: _ => el ← fromSignature s; Some (TVarArgs el) | [] => None end
  else if decide (x = Type_Map) then
    match c with
    | sk :: se :: _ => k ← fromSignature sk; e ← fromSignature se; Some (TMap k e)
    | _ => None
    end
  else if decide (x = Type_Tuple) then
    types ← mapM fromSignature c;
    let vannotations := split_on "," (annotation sig) in
    match vannotations with
    | name :: names => Some (TTuple name names types)
    | [] => Some (TTuple [] [] types)
    end
  else if decide (x = Type_Dynamic) then Some TDynamic
  else if decide (x = Type_Raw) then Some TRaw
  else if decide (x = Type_Object) then Some TObject
  else if decide (x = Type_Optional) then
    match c with s :: _ => el ← fromSignature s; Some (TOptional el) | [] => None end
  else None.

(** * Types and their signatures correspond *)
#[local] Open Scope char_scope.
#[local] Open Scope list_scope.

(** ** Definitions *)

(** The characters of the names of structures and of their members. *)
Definition word_ok (w : bytes) : bool :=
  forallb (fun c => negb (bool_decide (c ∈ lit ",<>()[]{}"))) w.

Definition int_types : list (bool * Z) :=
  [(false, 0); (true, 1); (false, 1); (true, 2); (false, 2); (true, 4); (false, 4);
   (true, 8); (false, 8)]%Z.

(** The types that a signature describes completely. *)
Fixpoint ty_ok (t : ty) : bool :=
  match t with
  | TVoid | TString | TDynamic | TRaw | TObject => true
  | TInt s n => bool_decide ((s, n) ∈ int_types)
  | TFloat n => bool_decide (n = 4 \/ n = 8)%Z
  | TList el | TVarArgs el | TOptional el => ty_ok el
  | TMap k e => ty_ok k && ty_ok e
  | TTuple name names ts =>
      forallb ty_ok ts && word_ok name && forallb word_ok names
      && bool_decide (length names = length ts \/ (name = [] /\ names = []))
  end.

Definition tuple_annotation (name : bytes) (names : list bytes) (n : nat) : option bytes :=
  if decide (length names = n) then
    if decide (name = [] /\ names = []) then None
    else Some (name ++ concat (map (fun a => "," :: a) names))
  else None.

(** The term of the grammar of signatures for a type. *)
Fixpoint elt_of (t : ty) : elt :=
  match t with
  | TVoid => Elem Type_Void None
  | TInt s n => Elem (int_signature_type s n) None
  | TFloat n => Elem (float_signature_type n) None
  | TString => Elem Type_String None
  | TList el => Bracket BList [elt_of el] None
  | TVarArgs el => Prefixed Type_VarArgs (elt_of el)
  | TMap k e => Bracket BMap [elt_of k; elt_of e] None
  | TTuple name names ts =>
      Bracket BTuple (map elt_of ts) (tuple_annotation name names (length ts))
  | TDynamic => Elem Type_Dynamic None
  | TRaw => Elem Type_Raw None
  | TObject => Elem Type_Object None
  | TOptional t => Prefixed Type_Optional (elt_of t)
  end.

(** ** Lemmas *)

Lemma ty_nested_ind (P : ty -> Prop) :
  P TVoid -> (forall s n, P (TInt s n)) -> (forall n, P (TFloat n)) -> P TString ->
  (forall t, P t -> P (TList t)) -> (forall t, P t -> P (TVarArgs t)) ->
  (forall k e, P k -> P e -> P (TMap k e)) ->
  (forall name names ts, Forall P ts -> P (TTuple name names ts)) ->
  P TDynamic -> P TRaw -> P TObject -> (forall t, P t -> P (TOptional t)) ->
  forall t, P t.
Proof.
  intros H1 H2 H3 H4 H5 H6 H7 H8 H9 H10 H11 H12. fix IH 1.
  intros [ | s n | n | | el | el | k e | name names ts | | | | el];
    [exact H1 | apply H2 | apply H3 | exact H4 | apply H5, IH | apply H6, IH | apply H7; apply IH
    | | exact H9 | exact H10 | exact H11 | apply H12, IH].
  apply H8. induction ts as [|t ts IHts]; constructor; [apply IH | exact IHts].
Qed.

Lemma enclosed_plain o c x :
  o ∉ x -> c ∉ x -> enclosed o c x 1.
Proof.
  induction x as [|ch x IH]; intros Ho Hc; cbn [enclosed]; [done|].
  apply not_elem_of_cons in Ho as [Ho1 Ho2], Hc as [Hc1 Hc2].
  unfold depth_step. rewrite !decide_False by congruence. apply andb_True. split; [done | by apply IH].
Qed.

Lemma word_ok_elem w c : word_ok w -> c ∈ w -> c ∉ lit ",<>()[]{}".
Proof.
  unfold word_ok. intros Hw%Is_true_true Hin. rewrite forallb_forall in Hw.
  specialize (Hw c (proj1 (list_elem_of_In _ _) Hin)).
  by apply negb_true_iff, bool_decide_eq_false in Hw.
Qed.

Lemma word_ok_not_elem w c : c ∈ lit "<>()[]{}" -> word_ok w -> c ∉ w.
Proof.
  intros Hc Hw Hin. apply (word_ok_elem w c Hw Hin). cbn [lit].
  by apply elem_of_cons; right.
Qed.

Lemma word_ok_no_comma w : word_ok w -> "," ∉ w.
Proof. intros Hw Hin. apply (word_ok_elem w "," Hw Hin). constructor. Qed.

(** The text of the annotation of a tuple has no bracket. *)
Lemma names_plain c name names :
  c ∈ lit "<>()[]{}" -> word_ok name -> forallb word_ok names ->
  c ∉ name ++ concat (map (fun a => "," :: a) names).
Proof.
  intros Hc Hn Hns. apply not_elem_of_app. split; [by apply word_ok_not_elem|].
  induction names as [|w names IH]; cbn [map concat]; [apply not_elem_of_nil|].
  cbn [forallb] in Hns. apply andb_prop_elim in Hns as [Hw Hns].
  rewrite <- app_comm_cons. apply not_elem_of_cons. split.
  - intros ->. by vm_compute in Hc; repeat (apply elem_of_cons in Hc as [Hc|Hc]; [discriminate|]);
      apply elem_of_nil in Hc.
  - apply not_elem_of_app. split; [by apply word_ok_not_elem | auto].
Qed.

Lemma tuple_annotation_ok name names n :
  word_ok name -> forallb word_ok names -> doc_annotation (tuple_annotation name names n).
Proof.
  intros Hn Hns. unfold tuple_annotation. case_decide; [|done]. case_decide; [done|].
  cbn [doc_annotation]. unfold balanced_annotation. rewrite !andb_True.
  repeat split; apply enclosed_plain; apply names_plain; try done;
    vm_compute; repeat (constructor; fail) || (repeat constructor).
Qed.

Lemma int_types_signature s n :
  (s, n) ∈ int_types -> type_switch (int_signature_type s n) = CaseElementary.
Proof.
  unfold int_types. intros H.
  repeat (apply elem_of_cons in H as [[= -> ->]|H]; [reflexivity|]). by apply not_elem_of_nil in H.
Qed.

Lemma doc_wf_elt_of t : ty_ok t -> doc_wf (elt_of t).
Proof.
  induction t as [ | s n | n | | el IH | el IH | k e IHk IHe | name names ts IH | | | | el IH]
    using ty_nested_ind; cbn [ty_ok elt_of]; intros H; try done.
  - apply bool_decide_unpack, int_types_signature in H. cbn [doc_wf].
    apply andb_True. by split; [apply bool_decide_pack|].
  - apply bool_decide_unpack in H as [-> | ->]; done.
  - cbn [doc_wf forallb]. rewrite !andb_True. split; [|done]. split; [|done]. split; [auto|done].
  - cbn [doc_wf]. apply andb_True. split; [done | auto].
  - apply andb_True in H as [H1 H2]. cbn [doc_wf forallb]. rewrite !andb_True. repeat split; auto.
  - rewrite !andb_True in H. destruct H as [[[Hts Hn] Hns] _]. cbn [doc_wf].
    rewrite !andb_True. split; [split; [|done]|by apply tuple_annotation_ok].
    clear Hn Hns. induction IH as [|t ts Ht _ IHts]; [done|]. cbn [map forallb] in *.
    apply andb_True in Hts as [H1 H2]. apply andb_True. auto.
  - cbn [doc_wf]. apply andb_True. split; [done | auto].
Qed.

Lemma Signature_new_elt t s :
  ty_ok t -> print (elt_of t) = s -> Signature_new s = Ok (sig_of (elt_of t)).
Proof. intros H <-. by apply Signature_new_print, doc_wf_wf, doc_wf_elt_of. Qed.

(** The signature of a type is the tree of its term. *)
Lemma ty_signature_elt t : ty_ok t -> ty_signature t = Ok (sig_of (elt_of t)).
Proof.
  induction t as [ | s n | n | | el IH | el IH | k e IHk IHe | name names ts IH | | | | el IH]
    using ty_nested_ind; intros H; pose proof H as Hok; cbn [ty_ok] in H;
    cbn [ty_signature]; unfold fromType; try (by apply (Signature_new_elt _ _ Hok)).
  - rewrite IH by done. cbn [mbind result_bind]. unfold makeListSignature.
    apply (Signature_new_elt _ _ Hok). rewrite toString_sig_of. cbn. by rewrite app_nil_r.
  - rewrite IH by done. cbn [mbind result_bind]. unfold makeVarArgsSignature.
    apply (Signature_new_elt _ _ Hok). by rewrite toString_sig_of.
  - apply andb_True in H as [H1 H2]. rewrite IHk, IHe by done. cbn [mbind result_bind].
    unfold makeMapSignature. apply (Signature_new_elt _ _ Hok). rewrite !toString_sig_of.
    cbn. by rewrite app_nil_r, <- app_assoc.
  - rewrite !andb_True in H. destruct H as [[[Hts _] _] _].
    assert (Hm : mapM ty_signature ts = Ok (map (fun t => sig_of (elt_of t)) ts)).
    { clear Hok. induction IH as [|t ts Ht _ IHts]; [done|]. cbn [forallb] in Hts.
      apply andb_True in Hts as [H1 H2]. cbn [mapM]. rewrite Ht by done. cbn [mbind result_bind].
      by rewrite IHts. }
    rewrite Hm. cbn [mbind result_bind]. unfold makeTupleSignature.
    apply (Signature_new_elt _ _ Hok). cbn [elt_of print bracket_open bracket_close].
    rewrite map_map, map_map, length_map. unfold tuple_annotation, makeTupleAnnotation.
    f_equal. f_equal.
    + f_equal. apply map_ext. intros t. by rewrite toString_sig_of.
    + cbn [app]. f_equal. case_decide; [|done]. case_decide; [done|]. cbn [print_ann].
      by rewrite <- app_assoc.
  - rewrite IH by done. cbn [mbind result_bind]. unfold makeOptionalSignature.
    apply (Signature_new_elt _ _ Hok). by rewrite toString_sig_of.
Qed.

Lemma split_on_word w : word_ok w -> split_on "," w = [w].
Proof.
  intros Hw%word_ok_no_comma. induction w as [|c w IH]; cbn [split_on]; [done|].
  apply not_elem_of_cons in Hw as [H1 H2]. rewrite decide_False by congruence. by rewrite IH.
Qed.

Lemma split_on_app w rest :
  word_ok w -> split_on "," (w ++ "," :: rest) = w :: split_on "," rest.
Proof.
  intros Hw%word_ok_no_comma. induction w as [|c w IH]; cbn [app split_on].
  - by rewrite decide_True.
  - apply not_elem_of_cons in Hw as [H1 H2]. rewrite decide_False by congruence. by rewrite IH.
Qed.

Lemma split_on_names name names :
  word_ok name -> forallb word_ok names ->
  split_on "," (name ++ concat (map (fun a => "," :: a) names)) = name :: names.
Proof.
  revert name. induction names as [|w names IH]; intros name Hn Hns; cbn [map concat].
  - rewrite app_nil_r. by apply split_on_word.
  - cbn [forallb] in Hns. apply andb_True in Hns as [Hw Hns].
    rewrite <- app_comm_cons, split_on_app by done. by rewrite IH.
Qed.

Lemma fromSignature_step sig :
  fromSignature sig =
    (let c := children sig in
     let x := type sig in
     if decide (x = Type_None \/ x = Type_Void) then Some TVoid
     else if decide (x = Type_Bool) then Some (TInt false 0)
     else if decide (x = Type_Int8) then Some (TInt true 1)
     else if decide (x = Type_UInt8) then Some (TInt false 1)
     else if decide (x = Type_Int16) then Some (TInt true 2)
     else if decide (x = Type_UInt16) then Some (TInt false 2)
     else if decide (x = Type_Int32) then Some (TInt true 4)
     else if decide (x = Type_UInt32) then Some (TInt false 4)
     else if decide (x = Type_Int64) then Some (TInt true 8)
     else if decide (x = Type_UInt64) then Some (TInt false 8)
     else if decide (x = Type_Float) then Some (TFloat 4)
     else if decide (x = Type_Double) then Some (TFloat 8)
     else if decide (x = Type_String) then Some TString
     else if decide (x = Type_List) then
       match c with s :: _ => el ← fromSignature s; Some (TList el) | [] => None end
     else if decide (x = Type_VarArgs) then
       match c with s :: _ => el ← fromSignature s; Some (TVarArgs el) | [] => None end
     else if decide (x = Type_Map) then
       match c with
       | sk :: se :: _ => k ← fromSignature sk; e ← fromSignature se; Some (TMap k e)
       | _ => None
       end
     else if decide (x = Type_Tuple) then
       types ← mapM fromSignature c;
       match split_on "," (annotation sig) with
       | name :: names => Some (TTuple name names types)
       | [] => Some (TTuple [] [] types)
       end
     else if decide (x = Type_Dynamic) then Some TDynamic
     else if decide (x = Type_Raw) then Some TRaw
     else if decide (x = Type_Object) then Some TObject
     else if decide (x = Type_Optional) then
       match c with s :: _ => el ← fromSignature s; Some (TOptional el) | [] => None end
     else None)%Z.
Proof. by destruct sig. Qed.

(** The type of the signature of a type is the type. *)
Lemma fromSignature_elt t : ty_ok t -> fromSignature (sig_of (elt_of t)) = Some t.
Proof.
  induction t as [ | s n | n | | el IH | el IH | k e IHk IHe | name names ts IH | | | | el IH]
    using ty_nested_ind; intros H; pose proof H as Hok; cbn [ty_ok] in H; try done.
  - apply bool_decide_unpack in H. unfold int_types in H.
    repeat (apply elem_of_cons in H as [[= -> ->]|H]; [reflexivity|]). by apply not_elem_of_nil in H.
  - apply bool_decide_unpack in H as [-> | ->]; done.
  - cbn. by rewrite IH.
  - cbn. by rewrite IH.
  - apply andb_True in H as [H1 H2]. cbn. by rewrite IHk, IHe.
  - rewrite fromSignature_step. cbv zeta.
    rewrite annotation_sig_of by (by apply doc_wf_wf, doc_wf_elt_of).
    rewrite !andb_True in H. destruct H as [[[Hts Hn] Hns] Hlen%bool_decide_unpack].
    assert (Hm : mapM fromSignature (map (fun t => sig_of (elt_of t)) ts) = Some ts).
    { clear Hok Hlen. induction IH as [|t ts Ht _ IHts]; [done|]. cbn [forallb] in Hts.
      apply andb_True in Hts as [H1 H2]. cbn [map mapM]. rewrite Ht by done. cbn [mbind option_bind].
      by rewrite IHts. }
    change (children (sig_of (elt_of (TTuple name names ts)))) with (map sig_of (map elt_of ts)).
    rewrite map_map, Hm. cbn [mbind option_bind].
    change (type (sig_of (elt_of (TTuple name names ts)))) with Type_Tuple.
    cbn [elt_of last_annotation]. unfold tuple_annotation.
    destruct (decide (length names = length ts)) as [|Hne];
      [destruct (decide (name = [] /\ names = [])) as [[-> ->]|]|].
    + done.
    + cbn [default from_option id]. rewrite split_on_names by done. done.
    + destruct Hlen as [|[-> ->]]; done.
  - cbn. by rewrite IH.
Qed.
