(* ===== verification/BinaryCodec.v ===== *)
(** * BinaryCodec: the encoding of values over the buffers

    Model of [src/type/binarycodec.cpp]: the encoder and its state, the decoder
    over a [BufferReader], and the two visitors that the type dispatcher drives.
    Objects need a socket and a callback, which are not given here. *)
From S2P Require Import Prelude CString Bytes Signature SignatureConvert TypeInterface Buffer.
From Stdlib Require Import Ascii.
Open Scope Z_scope.

(** ** Values *)

(** The values that an [AnyReference] designates, by kind. [R] is the type of
    the raw buffers. An integer is its mathematical value; a floating point
    number is its representation at its own width, which the conversions to and
    from [double] keep; a map is the sequence of the insertions that build it. *)
Inductive val (R : Type) :=
  | VVoid
  | VInt (z : Z)
  | VFloat (bits : Z)
  | VString (s : bytes)
  | VList (l : list (val R))
  | VMap (l : list (val R * val R))
  | VTuple (l : list (val R))
  | VDynamic (content : option (ty * val R))
  | VRaw (raw : R)
  | VOptional (v : option (val R)).
Arguments VVoid {R}.
Arguments VInt {R} z.
Arguments VFloat {R} bits.
Arguments VString {R} s.
Arguments VList {R} l.
Arguments VMap {R} l.
Arguments VTuple {R} l.
Arguments VDynamic {R} content.
Arguments VRaw {R} raw.
Arguments VOptional {R} v.

Abbreviation value := (val BufferPrivate).

(** The exceptions of the codec. [Undefined] is undefined behaviour (an access
    outside of a block), [IndeterminateBool] the read of a [bool] from a byte
    that represents none, and [OutOfFuel] is not an outcome of the code. *)
Inductive codec_error :=
  | NumericOverflow
  | UnknownInteger
  | UnknownFloat
  | ObjectContextRequired
  | BadSignature (e : sig_error)
  | UnknownSignature
  | SerializationError
  | ReadPastEnd
  | CannotReserve
  | Undefined
  | IndeterminateBool
  | OutOfFuel.

(** Carries the exceptions of the signatures into the ones of the codec. *)
Definition lift_sig {A} (r : result sig_error A) : result codec_error A :=
  match r with Ok a => Ok a | Err e => Err (BadSignature e) end.

(** [numericConvert<std::uint32_t>] of a size. *)
Definition to_uint32 (n : Z) : result codec_error Z :=
  if n <? 2 ^ 32 then Ok n else Err NumericOverflow.

(** ** The encoder *)

Record encoder := mkEncoder {
  e_ok : bool;                  (* the status is [Status::Ok] *)
  e_buffer : BufferPrivate;
  e_signature : bytes;
  e_inner : Z;                  (* [_innerSerialization] *)
}.

Definition encoder_new (b : BufferPrivate) : encoder := mkEncoder true b [] 0.

Definition set_inner (n : Z) (e : encoder) : encoder :=
  mkEncoder (e_ok e) (e_buffer e) (e_signature e) n.

(** [if (!_innerSerialization) signature() += s]. *)
Definition add_signature (s : bytes) (e : encoder) : encoder :=
  if e_inner e =? 0
  then mkEncoder (e_ok e) (e_buffer e) (e_signature e ++ s) (e_inner e) else e.

Section encoder.
Context (malloc : Z -> option bytes).

(** [_buffer->write(str, len)] and its status. *)
Definition buffer_write (str : bytes) (e : encoder) : result codec_error encoder :=
  match Buffer.write malloc (e_buffer e) str with
  | None => Err Undefined
  | Some (ok, b) =>
      Ok (mkEncoder (if ok then e_ok e else false) b (e_signature e) (e_inner e))
  end.

(** [write(const char*, size_t)]. *)
Definition write_raw (str : bytes) (e : encoder) : result codec_error encoder :=
  if zlen str =? 0 then Ok e else buffer_write str (add_signature (lit "s") e).

(** [QI_SIMPLE_SERIALIZER_IMPL] for a type of [n] bytes and of signature [s]. *)
Definition write_scalar (s : ascii) (n : nat) (z : Z) (e : encoder) : result codec_error encoder :=
  let sig := negb (e_inner e =? 0) in
  let e := set_inner (e_inner e + 1) e in
  e ← write_raw (le_encode n z) e;
  let e := if negb sig
           then mkEncoder (e_ok e) (e_buffer e) (e_signature e ++ [s]) (e_inner e) else e in
  Ok (set_inner (e_inner e - 1) e).

Definition writeString (str : bytes) (e : encoder) : result codec_error encoder :=
  let e := set_inner (e_inner e + 1) e in
  len ← to_uint32 (zlen str);
  e ← write_scalar "I" 4 len e;
  let e := set_inner (e_inner e - 1) e in
  let e := add_signature (lit "s") e in
  if zlen str =? 0 then Ok e else buffer_write str e.

Definition writeRaw (meta : BufferPrivate) (e : encoder) : result codec_error encoder :=
  let e := add_signature (lit "r") e in
  match addSubBuffer malloc (e_buffer e) meta with
  | None => Err Undefined
  | Some (_, b) => Ok (mkEncoder (e_ok e) b (e_signature e) (e_inner e))
  end.

(** [write(const Signature&)]: a signature is serialized as a string by an
    encoder of its own on the same buffer. *)
Definition write_signature (s : Signature) (e : encoder) : result codec_error encoder :=
  e' ← writeString (toString s) (encoder_new (e_buffer e));
  if e_ok e' then Ok (mkEncoder (e_ok e) (e_buffer e') (e_signature e) (e_inner e))
  else Err SerializationError.

Definition beginDynamic (s : Signature) (e : encoder) : result codec_error encoder :=
  let e := add_signature (lit "m") e in
  write_signature s (set_inner (e_inner e + 1) e).

Definition beginOptional (isSet : bool) (e : encoder) : result codec_error encoder :=
  let e := add_signature [Type_Optional] e in
  write_scalar "b" 1 (if isSet then 1 else 0) (set_inner (e_inner e + 1) e).

Definition beginList (n : Z) (element : Signature) (e : encoder) : result codec_error encoder :=
  let e := add_signature (lit "[" ++ toString element) e in
  write_scalar "I" 4 n (set_inner (e_inner e + 1) e).

Definition endList (e : encoder) : encoder :=
  add_signature (lit "]") (set_inner (e_inner e - 1) e).

Definition beginMap (n : Z) (key element : Signature) (e : encoder) : result codec_error encoder :=
  let e := add_signature (lit "{" ++ toString key ++ toString element ++ lit "}") e in
  write_scalar "I" 4 n (set_inner (e_inner e + 1) e).

Definition beginTuple (s : Signature) (e : encoder) : encoder :=
  let e := add_signature (toString s) e in set_inner (e_inner e + 1) e.

(** [endDynamic], [endOptional], [endMap] and [endTuple]. *)
Definition end_inner (e : encoder) : encoder := set_inner (e_inner e - 1) e.

(** [SerializeTypeVisitor::visitInt]. *)
Definition visitInt (value : Z) (isSigned : bool) (byteSize : Z) (e : encoder) :
    result codec_error encoder :=
  let n := if isSigned then byteSize else - byteSize in
  if n =? 0 then write_scalar "b" 1 (if value =? 0 then 0 else 1) e
  else if n =? 1 then write_scalar "c" 1 value e
  else if n =? -1 then write_scalar "C" 1 value e
  else if n =? 2 then write_scalar "w" 2 value e
  else if n =? -2 then write_scalar "W" 2 value e
  else if n =? 4 then write_scalar "i" 4 value e
  else if n =? -4 then write_scalar "I" 4 value e
  else if n =? 8 then write_scalar "l" 8 value e
  else if n =? -8 then write_scalar "L" 8 value e
  else Err UnknownInteger.

Definition visitFloat (bits : Z) (byteSize : Z) (e : encoder) : result codec_error encoder :=
  if byteSize =? 4 then write_scalar "f" 4 bits e
  else if byteSize =? 8 then write_scalar "d" 8 bits e
  else Err UnknownFloat.

(** The test of the status that ends [detail::serialize]. *)
Definition check_status (r : result codec_error encoder) : result codec_error encoder :=
  e ← r; if e_ok e then Ok e else Err SerializationError.

(** The type dispatcher with [SerializeTypeVisitor]. A value that is not of its
    type does not exist in the program. *)
Fixpoint visit (t : ty) (v : value) (e : encoder) {struct v} : result codec_error encoder :=
  match v, t with
  | VVoid, TVoid => Ok e
  | VInt z, TInt isSigned byteSize => visitInt z isSigned byteSize e
  | VFloat bits, TFloat byteSize => visitFloat bits byteSize e
  | VString s, TString => writeString s e
  | VList l, (TList el | TVarArgs el) =>
      n ← to_uint32 (zlen l);
      s ← lift_sig (ty_signature el);
      e ← beginList n s e;
      e ← (fix elements (l : list value) (e : encoder) : result codec_error encoder :=
             match l with
             | [] => Ok e
             | v :: l' => e ← check_status (visit el v e); elements l' e
             end) l e;
      Ok (endList e)
  | VMap l, TMap key el =>
      n ← to_uint32 (zlen l);
      sk ← lift_sig (ty_signature key);
      se ← lift_sig (ty_signature el);
      e ← beginMap n sk se e;
      e ← (fix elements (l : list (value * value)) (e : encoder) : result codec_error encoder :=
             match l with
             | [] => Ok e
             | (k, v) :: l' =>
                 e ← check_status (visit key k e);
                 e ← check_status (visit el v e);
                 elements l' e
             end) l e;
      Ok (end_inner e)
  | VTuple l, TTuple _ _ ts =>
      ss ← lift_sig (mapM ty_signature ts);
      s ← lift_sig (makeTupleSignature ss [] []);
      let e := beginTuple s e in
      e ← (fix members (l : list value) (ts : list ty) (e : encoder) {struct l} :
               result codec_error encoder :=
             match l, ts with
             | v :: l', t :: ts' => e ← check_status (visit t v e); members l' ts' e
             | _, _ => Ok e
             end) l ts e;
      Ok (end_inner e)
  | VDynamic None, TDynamic =>
      e ← beginDynamic Signature_empty e;
      Ok (end_inner e)
  | VDynamic (Some (t', v')), TDynamic =>
      s ← lift_sig (ty_signature t');
      e ← beginDynamic s e;
      e ← (if isValid s then visit t' v' e else Ok e);
      Ok (end_inner e)
  | VRaw b, TRaw => writeRaw b e
  | VOptional None, TOptional _ => e ← beginOptional false e; Ok (end_inner e)
  | VOptional (Some v'), TOptional t' =>
      e ← beginOptional true e;
      e ← check_status (visit t' v' e);
      Ok (end_inner e)
  | _, TObject => Err ObjectContextRequired
  | _, _ => Err Undefined
  end.

(** [detail::serialize] and [encodeBinary]. *)
Definition serialize (t : ty) (v : value) (e : encoder) : result codec_error encoder :=
  check_status (visit t v e).

Definition encodeBinary (b : BufferPrivate) (t : ty) (v : value) : result codec_error BufferPrivate :=
  e ← serialize t v (encoder_new b);
  Ok (e_buffer e).
End encoder.

(** ** The decoder

    A failed read sets the status to [ReadPastEnd] and the visitor goes on with
    a value that it does not use for anything that lasts, until the status is
    tested and the exception is thrown; here a failed read throws. *)

Definition decoder (A : Type) : Type := BufferReader -> result codec_error (A * BufferReader).

#[export] Instance decoder_ret : MRet decoder := fun A a r => Ok (a, r).
#[export] Instance decoder_bind : MBind decoder := fun A B f m r =>
  match m r with Ok (a, r') => f a r' | Err e => Err e end.

Definition raise {A} (e : codec_error) : decoder A := fun _ => Err e.
Definition lift {A} (m : result codec_error A) : decoder A :=
  fun r => match m with Ok a => Ok (a, r) | Err e => Err e end.

Section decoder.
Context (malloc : Z -> option bytes) (buffer : BufferPrivate).

(** [readRaw(void*, size_t)] and the test of its result. *)
Definition read_scalar (n : Z) : decoder Z := fun r =>
  match reader_read_into buffer r n with
  | None => Err Undefined
  | Some (l, r') => if zlen l =? n then Ok (le_decode l, r') else Err ReadPastEnd
  end.

(** [readRaw(size_t)] and the bytes at the pointer; [None] is a null pointer. *)
Definition read_pointer (n : Z) : decoder (option bytes) := fun r =>
  match reader_read buffer r n with
  | (None, r') => Ok (None, r')
  | (Some p, r') =>
      match mem_read (data buffer) p n with
      | Some l => Ok (Some l, r')
      | None => Err Undefined
      end
  end.

(** A [bool] whose byte is neither 0 nor 1 has no value. *)
Definition read_bool : decoder bool :=
  z ← read_scalar 1;
  if z =? 0 then mret false else if z =? 1 then mret true else raise IndeterminateBool.

Definition read_string : decoder bytes :=
  sz ← read_scalar 4;
  if sz =? 0 then mret []
  else
    p ← read_pointer sz;
    match p with Some l => mret l | None => raise ReadPastEnd end.

(** [read(Buffer&)] into a buffer that has just been built. *)
Definition read_buffer : decoder BufferPrivate := fun r =>
  if reader_hasSubBuffer buffer r then
    match reader_subBuffer buffer r with
    | (Ok s, r') =>
        match BufferPrivate_copy malloc s with
        | Some c => Ok (c, r')
        | None => Err Undefined
        end
    | (Err _, _) => Err Undefined
    end
  else
    (sz ← read_scalar 4;
     src ← read_pointer sz;
     match src with
     | None => raise ReadPastEnd
     | Some l =>
         match reserve malloc (clear BufferPrivate_new) sz with
         | None => raise Undefined
         | Some (None, _) => raise CannotReserve
         | Some (Some ptr, meta) =>
             match memcpy (data meta) ptr l sz with
             | Some d => mret (set_data d meta)
             | None => raise Undefined
             end
         end
     end) r.

(** The value of an [n]-byte two's complement integer. *)
Definition to_signed (n : Z) (z : Z) : Z := if z <? 2 ^ (8 * n - 1) then z else z - 2 ^ (8 * n).

(** [DeserializeTypeVisitor::visitInt]. *)
Definition deserializeInt (isSigned : bool) (byteSize : Z) : decoder value :=
  let n := if isSigned then byteSize else - byteSize in
  if n =? 0 then b ← read_bool; mret (VInt (Z.b2z b))
  else if bool_decide (n ∈ [1; 2; 4; 8]) then z ← read_scalar byteSize; mret (VInt (to_signed n z))
  else if bool_decide (n ∈ [-1; -2; -4; -8]) then z ← read_scalar byteSize; mret (VInt z)
  else raise UnknownInteger.

Definition deserializeFloat (byteSize : Z) : decoder value :=
  if byteSize =? 4 then z ← read_scalar 4; mret (VFloat z)
  else if byteSize =? 8 then z ← read_scalar 8; mret (VFloat z)
  else raise UnknownFloat.

(** [visitRaw]: the bytes of the buffer that was read are written to the
    buffer of the result; the success of the write is not tested. *)
Definition deserializeRaw : decoder value :=
  b ← read_buffer;
  match write_n malloc (clear BufferPrivate_new) (data b) (size b) with
  | Some (_, raw) => mret (VRaw raw)
  | None => raise Undefined
  end.

(** The loops over the elements of lists and maps. *)
Fixpoint repeat_decoder {A} (n : nat) (d : decoder A) : decoder (list A) :=
  match n with
  | O => mret []
  | S n' => x ← d; l ← repeat_decoder n' d; mret (x :: l)
  end.

Fixpoint all_decoders {A} (l : list (decoder A)) : decoder (list A) :=
  match l with
  | [] => mret []
  | d :: l' => x ← d; k ← all_decoders l'; mret (x :: k)
  end.

(** The type dispatcher with [DeserializeTypeVisitor]. Dynamic values carry
    their type, so the recursion is on [fuel]. *)
Fixpoint deserialize (fuel : nat) (t : ty) : decoder value :=
  match fuel with
  | O => raise OutOfFuel
  | S f =>
      match t with
      | TVoid => mret VVoid
      | TInt isSigned byteSize => deserializeInt isSigned byteSize
      | TFloat byteSize => deserializeFloat byteSize
      | TString => s ← read_string; mret (VString s)
      | TList el | TVarArgs el =>
          sz ← read_scalar 4;
          l ← repeat_decoder (Z.to_nat sz) (deserialize f el);
          mret (VList l)
      | TMap key el =>
          sz ← read_scalar 4;
          l ← repeat_decoder (Z.to_nat sz)
                (k ← deserialize f key; v ← deserialize f el; mret (k, v));
          mret (VMap l)
      | TTuple _ _ ts =>
          l ← all_decoders (map (deserialize f) ts);
          mret (VTuple l)
      | TDynamic =>
          sig ← read_string;
          if decide (sig = []) then mret (VDynamic None)
          else
            s ← lift (lift_sig (Signature_new sig));
            match fromSignature s with
            | None => raise UnknownSignature
            | Some t' => v ← deserialize f t'; mret (VDynamic (Some (t', v)))
            end
      | TRaw => deserializeRaw
      | TObject => raise ObjectContextRequired
      | TOptional t' =>
          hasValue ← read_bool;
          match hasValue with
          | true => v ← deserialize f t'; mret (VOptional (Some v))
          | false => mret (VOptional None)
          end
      end
  end.

(** [decodeBinary] from the start of a buffer. *)
Definition decodeBinary (fuel : nat) (t : ty) : result codec_error (value * BufferReader) :=
  deserialize fuel t BufferReader_new.
End decoder.
