(* ===== verification/BinaryCodecProperties.v ===== *)
(** * BinaryCodecProperties: what the encoder appends to a buffer

    What the encoder appends to a buffer is described by a list of items, the
    chunks and the sub-buffers of the value; [visit_appends] shows that the
    encoder appends them and nothing else. *)
From S2P Require Import Prelude CString Bytes Signature SignatureGrammar SignatureProperties.
From S2P Require Import SignatureConvert TypeInterface.
From S2P Require Import Buffer BufferProperties BinaryCodec.
From Stdlib Require Import Ascii.
Open Scope Z_scope.

(** ** Values of a type *)

Definition int_range (isSigned : bool) (byteSize z : Z) : Prop :=
  if byteSize =? 0 then 0 <= z <= 1
  else if isSigned then - 2 ^ (8 * byteSize - 1) <= z < 2 ^ (8 * byteSize - 1)
  else 0 <= z < 2 ^ (8 * byteSize).

Section values.
Context {R : Type}.

Lemma val_nested_ind (P : val R -> Prop) :
  P VVoid -> (forall z, P (VInt z)) -> (forall b, P (VFloat b)) -> (forall s, P (VString s)) ->
  (forall l, Forall P l -> P (VList l)) ->
  (forall l, Forall (fun p => P (fst p) /\ P (snd p)) l -> P (VMap l)) ->
  (forall l, Forall P l -> P (VTuple l)) ->
  P (VDynamic None) -> (forall t v, P v -> P (VDynamic (Some (t, v)))) ->
  (forall r, P (VRaw r)) -> P (VOptional None) -> (forall v, P v -> P (VOptional (Some v))) ->
  forall v, P v.
Proof.
  intros H1 H2 H3 H4 H5 H6 H7 H8 H9 H10 H11 H12. fix IH 1.
  intros [ | z | b | s | l | l | l | [[t v]|] | r | [v|]];
    [exact H1 | apply H2 | apply H3 | apply H4 | apply H5 | apply H6 | apply H7
    | apply H9, IH | exact H8 | apply H10 | apply H12, IH | exact H11].
  - induction l as [|v l IHl]; constructor; [apply IH | exact IHl].
  - induction l as [|[k v] l IHl]; constructor; [split; apply IH | exact IHl].
  - induction l as [|v l IHl]; constructor; [apply IH | exact IHl].
Qed.

End values.

(** The values of a type, for a condition [D] on the types that the dynamic
    values carry. *)
Fixpoint well_typed_with (D : ty -> Prop) (t : ty) (v : value) {struct v} : Prop :=
  match v, t with
  | VVoid, TVoid => True
  | VInt z, TInt isSigned byteSize => int_range isSigned byteSize z
  | VFloat bits, TFloat byteSize => 0 <= bits < 2 ^ (8 * byteSize)
  | VString s, TString => zlen s < 2 ^ 32
  | VList l, (TList el | TVarArgs el) =>
      zlen l < 2 ^ 32
      /\ (fix all l := match l with [] => True | v :: l' => well_typed_with D el v /\ all l' end) l
  | VMap l, TMap key el =>
      zlen l < 2 ^ 32
      /\ (fix all l := match l with
                       | [] => True
                       | (k, v) :: l' => (well_typed_with D key k /\ well_typed_with D el v) /\ all l'
                       end) l
  | VTuple l, TTuple _ _ ts =>
      (fix members l ts :=
         match l, ts with
         | [], [] => True
         | v :: l', t :: ts' => well_typed_with D t v /\ members l' ts'
         | _, _ => False
         end) l ts
  | VDynamic None, TDynamic => True
  | VDynamic (Some (t', v')), TDynamic =>
      D t' /\ well_typed_with D t' v'
  | VRaw b, TRaw => readable b
  | VOptional None, TOptional _ => True
  | VOptional (Some v'), TOptional t' => well_typed_with D t' v'
  | _, _ => False
  end.

(** The types of dynamic values whose signature can be written, and the values
    that the encoder accepts. *)
Definition dynamic_ok (t : ty) : Prop := ty_ok t /\ zlen (print (elt_of t)) < 2 ^ 32.

Definition well_typed : ty -> value -> Prop := well_typed_with dynamic_ok.

Section typing.
Context (D : ty -> Prop).

Definition members_typed : list value -> list ty -> Prop :=
  fix members l ts :=
    match l, ts with
    | [], [] => True
    | v :: l', t :: ts' => well_typed_with D t v /\ members l' ts'
    | _, _ => False
    end.

Lemma well_typed_elements el l :
  (fix all l := match l with [] => True | v :: l' => well_typed_with D el v /\ all l' end) l
  <-> Forall (well_typed_with D el) l.
Proof.
  induction l as [|v l IH]; [by split; [constructor|]|]. by rewrite Forall_cons, IH.
Qed.

Lemma well_typed_pairs key el l :
  (fix all l := match l with
                | [] => True
                | (k, v) :: l' => (well_typed_with D key k /\ well_typed_with D el v) /\ all l'
                end) l
  <-> Forall (fun p => well_typed_with D key (fst p) /\ well_typed_with D el (snd p)) l.
Proof.
  induction l as [|[k v] l IH]; [by split; [constructor|]|]. by rewrite Forall_cons, IH.
Qed.
End typing.

(** Combines what the induction gives for the elements with their typing. *)
Lemma Forall_impl2 {A} (P Q S : A -> Prop) l :
  Forall P l -> Forall Q l -> (forall x, P x -> Q x -> S x) -> Forall S l.
Proof. intros HP HQ H. induction HP; inversion HQ; subst; constructor; auto. Qed.

(** Values up to the memory of their raw buffers. *)
Fixpoint val_map {R S} (f : R -> S) (v : val R) : val S :=
  match v with
  | VVoid => VVoid
  | VInt z => VInt z
  | VFloat b => VFloat b
  | VString s => VString s
  | VList l => VList (map (val_map f) l)
  | VMap l => VMap (map (fun p => (val_map f (fst p), val_map f (snd p))) l)
  | VTuple l => VTuple (map (val_map f) l)
  | VDynamic None => VDynamic None
  | VDynamic (Some (t, v)) => VDynamic (Some (t, val_map f v))
  | VRaw r => VRaw (f r)
  | VOptional None => VOptional None
  | VOptional (Some v) => VOptional (Some (val_map f v))
  end.

(** ** What the encoder appends *)

Definition int_width (byteSize : Z) : nat :=
  if byteSize =? 0 then 1%nat else Z.to_nat byteSize.

Definition string_items (s : bytes) : list item :=
  Chunk (le_encode 4 (zlen s)) :: (if zlen s =? 0 then [] else [Chunk s]).

Fixpoint items (t : ty) (v : value) {struct v} : list item :=
  match v, t with
  | VInt z, TInt _ byteSize => [Chunk (le_encode (int_width byteSize) z)]
  | VFloat bits, TFloat byteSize => [Chunk (le_encode (Z.to_nat byteSize) bits)]
  | VString s, _ => string_items s
  | VList l, (TList el | TVarArgs el) =>
      Chunk (le_encode 4 (zlen l)) :: concat (map (items el) l)
  | VMap l, TMap key el =>
      Chunk (le_encode 4 (zlen l))
      :: concat (map (fun p => items key (fst p) ++ items el (snd p)) l)
  | VTuple l, TTuple _ _ ts =>
      (fix members l ts :=
         match l, ts with
         | v :: l', t :: ts' => items t v ++ members l' ts'
         | _, _ => []
         end) l ts
  | VDynamic None, _ => string_items []
  | VDynamic (Some (t', v')), _ => string_items (print (elt_of t')) ++ items t' v'
  | VRaw b, _ => [Sub b]
  | VOptional None, _ => [Chunk (le_encode 1 0)]
  | VOptional (Some v'), TOptional t' => Chunk (le_encode 1 1) :: items t' v'
  | _, _ => []
  end.

Definition member_items : list value -> list ty -> list item :=
  fix members l ts :=
    match l, ts with
    | v :: l', t :: ts' => items t v ++ members l' ts'
    | _, _ => []
    end.

Definition items_size (its : list item) : Z := ops_size (map item_op its).

Lemma items_size_app l k : items_size (l ++ k) = items_size l + items_size k.
Proof.
  unfold items_size, ops_size. rewrite map_app.
  induction (map item_op l) as [|op ops IH]; cbn [app foldr]; [done|]. rewrite IH. lia.
Qed.

Lemma items_size_nonneg its : 0 <= items_size its.
Proof.
  unfold items_size, ops_size. induction its as [|[d|s] its IH]; cbn [map foldr item_op op_size];
    [done | zlen_lia | unfold sizeof_size_type; zlen_lia].
Qed.

(** ** The encoder *)

(** An encoder that works, and the effect of an operation on its buffer. *)
Definition enc_ok (e : encoder) : Prop := owner (e_buffer e) /\ e_ok e = true.

Definition emits (e : encoder) (its : list item) (e' : encoder) : Prop :=
  enc_ok e' /\ abs (e_buffer e') = foldl render1 (abs (e_buffer e)) its.

Lemma emits_nil e e' : enc_ok e -> e_buffer e' = e_buffer e -> e_ok e' = e_ok e -> emits e [] e'.
Proof. intros [Ho Hs] Hb Hk. by split; [split; rewrite ?Hb, ?Hk|rewrite Hb]. Qed.

Lemma emits_trans e e1 e2 is1 is2 : emits e is1 e1 -> emits e1 is2 e2 -> emits e (is1 ++ is2) e2.
Proof. intros [H1 H2] [H3 H4]. split; [done|]. by rewrite H4, H2, foldl_app. Qed.

(** An operation that does not see the bookkeeping of the encoder. *)
Lemma emits_same e e0 e1 e' its :
  emits e0 its e1 -> e_buffer e0 = e_buffer e -> e_buffer e' = e_buffer e1 -> e_ok e' = e_ok e1 ->
  emits e its e'.
Proof. intros [[Ho Hs] Ha] H1 H2 H3. split; [split; by rewrite ?H2, ?H3|]. by rewrite H2, Ha, H1. Qed.

Lemma emits_used e its e' :
  enc_ok e -> emits e its e' -> used (e_buffer e') = used (e_buffer e) + items_size its.
Proof.
  intros [Ho _] [[Ho' _] Ha]. destruct (render_sizes its (abs (e_buffer e))) as [Hz _].
  rewrite <- Ha, !t_bytes_abs, !zlen_content in Hz by (apply Ho || apply Ho'). done.
Qed.

Section encode.
#[local] Set Default Proof Using "Type*".
Context (malloc : Z -> option bytes) (limit : Z).
Context (malloc_length : forall n blk, malloc n = Some blk -> zlen blk = n).
Context (malloc_ok : forall n, 0 <= n <= limit -> malloc n <> None).
Context (limit_small : limit < 2 ^ 64).

(** There is room for the items. *)
Definition fits (e : encoder) (its : list item) : Prop :=
  enc_ok e /\ Forall (op_ok limit) (map item_op its)
  /\ used (e_buffer e) + items_size its + BLOCK <= limit.

(** The result of an operation that appends items. *)
Definition appends (r : result codec_error encoder) (e : encoder) (its : list item) : Prop :=
  exists e', r = Ok e' /\ emits e its e'.

Lemma fits_app_l e is1 is2 : fits e (is1 ++ is2) -> fits e is1.
Proof.
  intros (H1 & H2 & H3). rewrite map_app, Forall_app in H2. rewrite items_size_app in H3.
  pose proof (items_size_nonneg is2). split; [done|]. split; [apply H2|]. lia.
Qed.

Lemma fits_app_r e is1 is2 e1 : fits e (is1 ++ is2) -> emits e is1 e1 -> fits e1 is2.
Proof.
  intros (H1 & H2 & H3) He. rewrite map_app, Forall_app in H2. rewrite items_size_app in H3.
  split; [apply He|]. split; [apply H2|]. rewrite (emits_used _ _ _ H1 He). lia.
Qed.

Lemma fits_buffer e e' its :
  fits e its -> e_buffer e' = e_buffer e -> e_ok e' = e_ok e -> fits e' its.
Proof. intros ([H1 H1'] & H2 & H3) Hb Hk. unfold fits, enc_ok. by rewrite Hb, Hk. Qed.

Lemma appends_bind r f e is1 is2 :
  fits e (is1 ++ is2) -> appends r e is1 ->
  (forall e1, fits e1 is2 -> appends (f e1) e1 is2) ->
  appends (r ≫= f) e (is1 ++ is2).
Proof.
  intros Hfit (e1 & -> & H1) Hf. destruct (Hf e1) as (e2 & H2 & H3).
  { by eapply fits_app_r. }
  exists e2. split; [done|]. by eapply emits_trans.
Qed.

(** Changing the bookkeeping before or after an operation. *)
Lemma appends_pre r e e0 its :
  appends r e0 its -> e_buffer e0 = e_buffer e -> appends r e its.
Proof.
  intros (e' & Hr & He) Hb. exists e'. split; [done|]. by eapply emits_same.
Qed.

Lemma appends_post r e its (g : encoder -> encoder) :
  appends r e its -> (forall e', e_buffer (g e') = e_buffer e' /\ e_ok (g e') = e_ok e') ->
  appends (e' ← r; Ok (g e')) e its.
Proof.
  intros (e' & -> & He) Hg. exists (g e'). split; [done|]. destruct (Hg e').
  by eapply emits_same.
Qed.

Lemma appends_nil e e' :
  enc_ok e -> e_buffer e' = e_buffer e -> e_ok e' = e_ok e -> appends (Ok e') e [].
Proof. intros. exists e'. split; [done | by apply emits_nil]. Qed.

Lemma add_signature_same s e :
  e_buffer (add_signature s e) = e_buffer e /\ e_ok (add_signature s e) = e_ok e.
Proof. unfold add_signature. by case_match. Qed.

Lemma buffer_write_appends str e :
  fits e [Chunk str] -> appends (buffer_write malloc str e) e [Chunk str].
Proof.
  intros ([Ho Hs] & _ & Hsz). unfold items_size, ops_size in Hsz.
  cbn [map item_op op_size foldr] in Hsz. unfold BLOCK in *.
  pose proof (readable_used _ (proj1 Ho)) as [Hu _].
  unfold buffer_write, appends.
  destruct (write_cases malloc malloc_length (e_buffer e) str Ho) as [[_ Hm] | (b & -> & Ho' & Ha)].
  - unfold BLOCK. zlen_lia.
  - apply malloc_ok in Hm; [done|]. unfold BLOCK. zlen_lia.
  - eexists. split; [done|]. split; [by split|]. done.
Qed.

Lemma write_raw_appends str e :
  fits e [Chunk str] -> zlen str <> 0 -> appends (write_raw malloc str e) e [Chunk str].
Proof.
  intros Hf Hz. unfold write_raw. rewrite (proj2 (Z.eqb_neq _ _)) by done.
  destruct (add_signature_same (lit "s") e) as [Hb Hk]. eapply appends_pre; [|exact Hb].
  apply buffer_write_appends. by eapply fits_buffer.
Qed.

Lemma write_scalar_appends s n z e :
  fits e [Chunk (le_encode n z)] -> n <> 0%nat ->
  appends (write_scalar malloc s n z e) e [Chunk (le_encode n z)].
Proof.
  intros Hf Hn. unfold write_scalar.
  apply (appends_post _ _ _ (fun e1 => set_inner
    (e_inner (if negb (negb (e_inner e =? 0))
      then mkEncoder (e_ok e1) (e_buffer e1) (e_signature e1 ++ [s]) (e_inner e1) else e1) - 1)
    (if negb (negb (e_inner e =? 0))
      then mkEncoder (e_ok e1) (e_buffer e1) (e_signature e1 ++ [s]) (e_inner e1) else e1))).
  - eapply appends_pre; [apply write_raw_appends|done].
    + by eapply fits_buffer.
    + rewrite zlen_le_encode. lia.
  - intros e'. by destruct (e_inner e =? 0).
Qed.

Lemma writeString_appends s e :
  fits e (string_items s) -> zlen s < 2 ^ 32 ->
  appends (writeString malloc s e) e (string_items s).
Proof.
  intros Hf Hs. unfold writeString, to_uint32. rewrite (proj2 (Z.ltb_lt _ _)) by done.
  cbn [mbind result_bind]. unfold string_items in *.
  apply (appends_bind _ _ _ [_]); [done | |].
  - eapply appends_pre; [apply write_scalar_appends|done]; [|done].
    eapply fits_buffer; [|done|done]. by apply (fits_app_l _ [_] _ Hf).
  - intros e1 Hf1. cbv zeta. set (e2 := add_signature _ _).
    destruct (add_signature_same (lit "s") (set_inner (e_inner e1 - 1) e1)) as [Hb Hk].
    fold e2 in Hb, Hk. cbn [set_inner e_buffer e_ok] in Hb, Hk.
    destruct (zlen s =? 0).
    + by apply appends_nil; [apply Hf1 | |].
    + eapply appends_pre; [|exact Hb]. apply buffer_write_appends. by eapply fits_buffer.
Qed.

Lemma writeRaw_appends b e :
  fits e [Sub b] -> appends (writeRaw malloc b e) e [Sub b].
Proof.
  intros ([Ho Hs] & Hop & Hsz). apply Forall_cons in Hop as [[Hr Ht] _].
  unfold items_size, ops_size in Hsz. cbn [map item_op op_size foldr] in Hsz.
  destruct (add_signature_same (lit "r") e) as [Hb Hk].
  unfold writeRaw. rewrite Hb.
  destruct (addSubBuffer_cases malloc limit malloc_length malloc_ok (e_buffer e) b Ho Hr Ht)
    as (b' & -> & Ho' & Ha); [lia | done |].
  eexists. split; [done|]. split; [|done]. split; [done|]. cbn [e_ok]. by rewrite Hk.
Qed.

Lemma write_signature_appends s e :
  fits e (string_items (toString s)) -> zlen (toString s) < 2 ^ 32 ->
  appends (write_signature malloc s e) e (string_items (toString s)).
Proof.
  intros Hf Hs. unfold write_signature.
  destruct (writeString_appends (toString s) (encoder_new (e_buffer e))) as (e1 & -> & He); [|done|].
  { eapply fits_buffer; [exact Hf | done |]. destruct Hf as ([_ Hk] & _). by rewrite Hk. }
  cbn [mbind result_bind]. destruct He as [[Ho Hk] Ha]. rewrite Hk.
  eexists. split; [done|]. split; [|done]. split; [done|].
  by destruct Hf as ([_ Hk'] & _).
Qed.

Lemma check_status_appends r e its : appends r e its -> appends (check_status r) e its.
Proof.
  intros (e' & -> & He). unfold check_status. cbn [mbind result_bind].
  pose proof He as [[_ Hk] _]. rewrite Hk. by exists e'.
Qed.
(** The loops of [visit], named. *)
Definition visit_elements (el : ty) : list value -> encoder -> result codec_error encoder :=
  fix elements l e :=
    match l with
    | [] => Ok e
    | v :: l' => e ← check_status (visit malloc el v e); elements l' e
    end.

Definition visit_pairs (key el : ty) :
    list (value * value) -> encoder -> result codec_error encoder :=
  fix elements l e :=
    match l with
    | [] => Ok e
    | (k, v) :: l' =>
        e ← check_status (visit malloc key k e);
        e ← check_status (visit malloc el v e);
        elements l' e
    end.

Definition visit_members :
    list value -> list ty -> encoder -> result codec_error encoder :=
  fix members l ts e {struct l} :=
    match l, ts with
    | v :: l', t :: ts' => e ← check_status (visit malloc t v e); members l' ts' e
    | _, _ => Ok e
    end.

(** What [visit] does on a value of a type. *)
Definition visits (t : ty) (v : value) : Prop :=
  forall e, fits e (items t v) -> appends (visit malloc t v e) e (items t v).

Lemma visit_elements_appends el l :
  Forall (visits el) l -> forall e, fits e (concat (map (items el) l)) ->
  appends (visit_elements el l e) e (concat (map (items el) l)).
Proof.
  induction 1 as [|v l Hv _ IH]; intros e Hf; cbn [map concat visit_elements] in *.
  - apply appends_nil; [apply Hf | done | done].
  - apply appends_bind; [done | | exact IH].
    apply check_status_appends, Hv. by eapply fits_app_l.
Qed.

Lemma visit_pairs_appends key el l :
  Forall (fun p => visits key (fst p) /\ visits el (snd p)) l ->
  forall e, let its := concat (map (fun p => items key (fst p) ++ items el (snd p)) l) in
  fits e its -> appends (visit_pairs key el l e) e its.
Proof.
  induction 1 as [|[k v] l [Hk Hv] _ IH]; intros e its Hf; subst its;
    cbn [map concat visit_pairs fst snd] in *.
  - apply appends_nil; [apply Hf | done | done].
  - rewrite <- app_assoc in *. apply appends_bind; [done | |].
    { apply check_status_appends, Hk. by eapply fits_app_l. }
    intros e1 Hf1. apply appends_bind; [done | | exact IH].
    apply check_status_appends, Hv. by eapply fits_app_l.
Qed.

Lemma visit_members_appends l : Forall (fun v => forall t, ty_ok t -> well_typed t v -> visits t v) l ->
  forall ts, forallb ty_ok ts -> members_typed dynamic_ok l ts ->
  forall e, fits e (member_items l ts) ->
  appends (visit_members l ts e) e (member_items l ts).
Proof.
  induction 1 as [|v l Hv _ IH]; intros [|t ts] Hok Hty e Hf; cbn in Hty; try done.
  - by apply appends_nil; [apply Hf | |].
  - cbn [forallb] in Hok. apply andb_True in Hok as [Hok1 Hok2]. destruct Hty as [Hty1 Hty2].
    cbn [member_items visit_members] in *.
    apply appends_bind; [done | | by apply IH].
    apply check_status_appends, Hv; [done | done |]. by eapply fits_app_l.
Qed.

(** The starts of the aggregates only write a scalar. *)
Lemma begin_appends s n z e e0 :
  fits e [Chunk (le_encode n z)] -> n <> 0%nat -> e_buffer e0 = e_buffer e -> e_ok e0 = e_ok e ->
  appends (write_scalar malloc s n z e0) e [Chunk (le_encode n z)].
Proof.
  intros Hf Hn Hb Hk. eapply appends_pre; [|exact Hb].
  apply write_scalar_appends; [|done]. by eapply fits_buffer.
Qed.

Lemma beginDynamic_appends s e :
  fits e (string_items (toString s)) -> zlen (toString s) < 2 ^ 32 ->
  appends (beginDynamic malloc s e) e (string_items (toString s)).
Proof.
  intros Hf Hs. unfold beginDynamic. destruct (add_signature_same (lit "m") e) as [Hb Hk].
  eapply appends_pre; [apply write_signature_appends; [|done] | exact Hb].
  by eapply fits_buffer.
Qed.

Lemma beginOptional_appends (b : bool) e :
  fits e [Chunk (le_encode 1 (if b then 1 else 0))] ->
  appends (beginOptional malloc b e) e [Chunk (le_encode 1 (if b then 1 else 0))].
Proof.
  intros Hf. unfold beginOptional. destruct (add_signature_same [Type_Optional] e).
  by apply begin_appends.
Qed.

Lemma visitInt_appends isSigned byteSize z e :
  (isSigned, byteSize) ∈ int_types -> int_range isSigned byteSize z ->
  fits e [Chunk (le_encode (int_width byteSize) z)] ->
  appends (visitInt malloc z isSigned byteSize e) e [Chunk (le_encode (int_width byteSize) z)].
Proof.
  unfold int_types. intros H Hr Hf.
  repeat (apply elem_of_cons in H as [[= -> ->]|H];
    [try (by apply write_scalar_appends)|]); [|by apply not_elem_of_nil in H].
  cbn in Hr. unfold visitInt. cbn [Z.eqb Z.opp].
  replace (if z =? 0 then 0 else 1) with z; [by apply write_scalar_appends|].
  destruct (Z.eqb_spec z 0); lia.
Qed.

Lemma valid_elt_of t : ty_ok t -> isValid (sig_of (elt_of t)) = true.
Proof.
  intros H. apply bool_decide_true.
  destruct t as [ | s n | n | | | | | | | | | ]; try done; cbn [ty_ok] in H.
  - apply bool_decide_unpack in H. unfold int_types in H.
    repeat (apply elem_of_cons in H as [[= -> ->]|H]; [done|]). by apply not_elem_of_nil in H.
  - by apply bool_decide_unpack in H as [-> | ->].
Qed.

Lemma to_uint32_small n : n < 2 ^ 32 -> to_uint32 n = Ok n.
Proof. intros H. unfold to_uint32. by rewrite (proj2 (Z.ltb_lt _ _)). Qed.

Lemma visit_list_appends el l e :
  ty_ok el -> zlen l < 2 ^ 32 -> Forall (visits el) l ->
  let its := Chunk (le_encode 4 (zlen l)) :: concat (map (items el) l) in
  fits e its ->
  appends (n ← to_uint32 (zlen l);
           s ← lift_sig (ty_signature el);
           e ← beginList malloc n s e;
           e ← visit_elements el l e;
           Ok (endList e)) e its.
Proof.
  intros Hok Hlen Hv its Hf. rewrite to_uint32_small, ty_signature_elt by done.
  cbn [mbind result_bind lift_sig]. apply (appends_bind _ _ _ [_]); [done | |].
  - destruct (add_signature_same (lit "[" ++ toString (sig_of (elt_of el))) e).
    apply begin_appends; try done. by apply (fits_app_l _ [_] _ Hf).
  - intros e1 Hf1. apply appends_post; [by apply visit_elements_appends|].
    intros e'. exact (add_signature_same (lit "]") (set_inner (e_inner e' - 1) e')).
Qed.

Lemma visit_map_appends key el l e :
  ty_ok key -> ty_ok el -> zlen l < 2 ^ 32 ->
  Forall (fun p => visits key (fst p) /\ visits el (snd p)) l ->
  let its := Chunk (le_encode 4 (zlen l))
             :: concat (map (fun p => items key (fst p) ++ items el (snd p)) l) in
  fits e its ->
  appends (n ← to_uint32 (zlen l);
           sk ← lift_sig (ty_signature key);
           se ← lift_sig (ty_signature el);
           e ← beginMap malloc n sk se e;
           e ← visit_pairs key el l e;
           Ok (end_inner e)) e its.
Proof.
  intros Hk He Hlen Hv its Hf. rewrite to_uint32_small, !ty_signature_elt by done.
  cbn [mbind result_bind lift_sig]. apply (appends_bind _ _ _ [_]); [done | |].
  - unfold beginMap. set (s := _ ++ _). destruct (add_signature_same s e).
    apply begin_appends; try done. by apply (fits_app_l _ [_] _ Hf).
  - intros e1 Hf1. apply appends_post; [by apply visit_pairs_appends | done].
Qed.

Lemma mapM_ty_signature ts :
  forallb ty_ok ts -> mapM ty_signature ts = Ok (map (fun t => sig_of (elt_of t)) ts).
Proof.
  induction ts as [|t ts IH]; intros H; [done|]. cbn [forallb] in H.
  apply andb_True in H as [H1 H2]. cbn [mapM]. rewrite ty_signature_elt by done.
  cbn [mbind result_bind]. by rewrite IH.
Qed.

(** The signature of a tuple without names. *)
Lemma makeTupleSignature_ok ts :
  forallb ty_ok ts ->
  exists s, makeTupleSignature (map (fun t => sig_of (elt_of t)) ts) [] [] = Ok s.
Proof.
  intros H. assert (Hok : ty_ok (TTuple [] [] ts)).
  { cbn [ty_ok]. rewrite !andb_True. repeat split; [done|]. apply bool_decide_pack. by right. }
  pose proof (ty_signature_elt _ Hok) as Hs. cbn [ty_signature] in Hs.
  rewrite mapM_ty_signature in Hs by done. cbn [mbind result_bind] in Hs. by eexists.
Qed.

Lemma visit_tuple_appends ts l e :
  forallb ty_ok ts -> members_typed dynamic_ok l ts ->
  Forall (fun v => forall t, ty_ok t -> well_typed t v -> visits t v) l ->
  fits e (member_items l ts) ->
  appends (ss ← lift_sig (mapM ty_signature ts);
           s ← lift_sig (makeTupleSignature ss [] []);
           let e := beginTuple s e in
           e ← visit_members l ts e;
           Ok (end_inner e)) e (member_items l ts).
Proof.
  intros Hok Hty Hv Hf. rewrite mapM_ty_signature by done. cbn [mbind result_bind lift_sig].
  destruct (makeTupleSignature_ok ts Hok) as [s ->]. cbn [mbind result_bind lift_sig].
  cbv zeta. destruct (add_signature_same (toString s) e) as [Hb Hk].
  apply appends_post; [|done]. apply (appends_pre _ _ (beginTuple s e)); [|exact Hb].
  apply visit_members_appends; try done. eapply fits_buffer; [exact Hf | exact Hb | exact Hk].
Qed.

Lemma visit_dynamic_appends t v e :
  ty_ok t -> zlen (print (elt_of t)) < 2 ^ 32 -> visits t v ->
  fits e (string_items (print (elt_of t)) ++ items t v) ->
  appends (s ← lift_sig (ty_signature t);
           e ← beginDynamic malloc s e;
           e ← (if isValid s then visit malloc t v e else Ok e);
           Ok (end_inner e)) e (string_items (print (elt_of t)) ++ items t v).
Proof.
  intros Hok Hlen Hv Hf. rewrite ty_signature_elt by done. cbn [mbind result_bind lift_sig].
  rewrite valid_elt_of, <- toString_sig_of in * by done. apply appends_bind; [done | |].
  - apply beginDynamic_appends; [|done]. by eapply fits_app_l.
  - intros e1 Hf1. apply appends_post; [by apply Hv | done].
Qed.

(** The encoder appends the items of the value. *)
Lemma visit_appends v : forall t, ty_ok t -> well_typed t v -> visits t v.
Proof.
  induction v as [ | z | b | s | l IH | l IH | l IH | | t' v' IH | r | | v' IH]
    using val_nested_ind; intros t Hok Hty e Hf;
    destruct t as [ | sg n | n | | el | el | key el | name names ts | | | | t]; try done;
    unfold well_typed in Hty; cbn [well_typed_with items ty_ok] in *.
  - by apply appends_nil; [apply Hf | |].
  - apply bool_decide_unpack in Hok. by apply visitInt_appends.
  - apply bool_decide_unpack in Hok as [-> | ->]; by apply write_scalar_appends.
  - by apply writeString_appends.
  - destruct Hty as [Hlen Hty%(well_typed_elements dynamic_ok)].
    apply (visit_list_appends el l e); [done | done | | done].
    apply (Forall_impl2 _ _ _ _ IH Hty). auto.
  - destruct Hty as [Hlen Hty%(well_typed_elements dynamic_ok)].
    apply (visit_list_appends el l e); [done | done | | done].
    apply (Forall_impl2 _ _ _ _ IH Hty). auto.
  - destruct Hty as [Hlen Hty%(well_typed_pairs dynamic_ok)]. apply andb_True in Hok as [Hk He].
    apply (visit_map_appends key el l e); [done | done | done | | done].
    apply (Forall_impl2 _ _ _ _ IH Hty). intros [k v] [H1 H2] [H3 H4]. auto.
  - rewrite !andb_True in Hok. destruct Hok as [[[Hok _] _] _].
    by apply (visit_tuple_appends ts l e).
  - cbn [visit]. apply appends_post; [|done]. by apply (beginDynamic_appends Signature_empty).
  - destruct Hty as ((Ht & Hlen) & Hty). by apply (visit_dynamic_appends t' v' e); [| |apply IH|].
  - by apply writeRaw_appends.
  - cbn [visit]. apply appends_post; [|done]. by apply (beginOptional_appends false).
  - cbn [visit]. apply (appends_bind _ _ _ [_]); [done | |].
    + apply (beginOptional_appends true). by apply (fits_app_l _ [_] _ Hf).
    + intros e1 Hf1. apply appends_post; [|done]. by apply check_status_appends, IH.
Qed.
End encode.
