(* ===== verification/BinaryRoundtrip.v ===== *)
(** * BinaryRoundtrip: the decoder gets back what the encoder wrote

    The decoder is proved against an interface, [ItemReader], of the buffers
    from which a list of items can be read. The two instances are the buffer
    that the encoder has filled, with its sub-buffers, and the flat buffer that
    a peer receives. *)
From S2P Require Import Prelude CString Bytes Signature SignatureGrammar SignatureProperties.
From S2P Require Import SignatureConvert TypeInterface.
From S2P Require Import Buffer BufferProperties SendProperties BinaryCodec BinaryCodecProperties.
From Stdlib Require Import Ascii.
Open Scope Z_scope.

(** ** Fresh buffers *)

Section memory.
#[local] Set Default Proof Using "Type*".
Context (malloc : Z -> option bytes) (limit : Z).
Context (malloc_length : forall n blk, malloc n = Some blk -> zlen blk = n).
Context (malloc_ok : forall n, 0 <= n <= limit -> malloc n <> None).
Context (limit_small : limit < 2 ^ 64).

(** What is left in a buffer in which bytes are copied after a [reserve]. *)
Lemma reserve_fill l :
  zlen l + BLOCK <= limit ->
  exists ptr meta d, reserve malloc (clear BufferPrivate_new) (zlen l) = Some (Some ptr, meta)
    /\ memcpy (data meta) ptr l (zlen l) = Some d
    /\ readable (set_data d meta) /\ content (set_data d meta) = l.
Proof.
  intros Hroom. destruct (owner_clear BufferPrivate_new owner_new) as [Ho Ha].
  pose proof (zlen_nonneg l).
  destruct (reserve_cases malloc malloc_length (clear BufferPrivate_new) (zlen l) Ho)
    as [[_ Hm] | (meta & fill & Hres & [Hm Hav] & Hfill & Ham)]; try done.
  { cbn [clear used BufferPrivate_new]. unfold BLOCK in *. lia. }
  { apply malloc_ok in Hm; [done|]. cbn [clear used BufferPrivate_new]. unfold BLOCK in *. lia. }
  change (used (clear BufferPrivate_new)) with 0 in Hres. rewrite Ha in Ham.
  assert (Hused : used meta = zlen l).
  { rewrite <- (zlen_content meta Hm), <- t_bytes_abs, Ham. by cbn. }
  pose proof (readable_used meta Hm) as [Hu Hlt].
  assert (Hcpy : exists d, memcpy (data meta) 0 l (zlen l) = Some d).
  { unfold memcpy. rewrite decide_True by lia. by eexists. }
  destruct Hcpy as [d Hcpy]. exists 0, meta, d. split_and!; [done | done | |].
  all: pose proof (memcpy_length _ _ _ _ _ Hcpy) as Hl; apply memcpy_prefix in Hcpy.
  all: inversion Hm as [? Hd _ _ Hcache Hp Hf]; subst.
  all: destruct (set_data_fields d meta Hl Hd) as (Hf1 & Hf2 & Hf3 & Hf4 & Hf5).
  all: assert (Hcont : content (set_data d meta) = l)
    by (unfold content; rewrite data_set_data, Hf2, Hused; change (zlen l) with (0 + zlen l);
        rewrite Hcpy; apply take_ge; unfold zlen; lia).
  2: done.
  assert (Hsubs : _subBuffers meta = []).
  { rewrite abs_unfold in Ham. injection Ham as _ Hs. by apply map_eq_nil in Hs. }
  constructor; try done.
  - rewrite Hf2, data_set_data. lia.
  - lia.
  - by rewrite Hf5, Hcache, !abs_unfold, Hf4, Hsubs.
  - rewrite abs_unfold, Hf4, Hsubs. cbn [t_subs map placed]. apply zlen_nonneg.
  - by rewrite Hf4, Hsubs.
Qed.

(** The bytes of a raw buffer are copied to a fresh buffer. *)
Lemma raw_copied c :
  readable c -> used c + BLOCK <= limit ->
  exists raw, write_n malloc (clear BufferPrivate_new) (data c) (size c) = Some (true, raw)
    /\ owner raw /\ content raw = content c.
Proof.
  intros Hrc Hroom. destruct (owner_clear BufferPrivate_new owner_new) as [Ho Ha].
  pose proof (readable_used c Hrc) as [Hu _]. unfold BLOCK in *.
  destruct (write_n_correct malloc malloc_length (clear BufferPrivate_new) (data c) (size c) Ho)
    as [[_ Hm] | (raw & Hw & Hor & Har)]; unfold size, BLOCK in *;
    cbn [clear used BufferPrivate_new] in *; try lia.
  - apply malloc_ok in Hm; [done | lia].
  - exists raw. split; [done|]. split; [done|].
    rewrite <- t_bytes_abs, Har, Ha. by cbn [t_bytes t_append t_empty app].
Qed.
End memory.

(** ** The interface *)

(** A raw buffer that can be read back within [limit] bytes of memory. *)
Definition sub_ok (limit : Z) (s : BufferPrivate) : Prop :=
  readable s /\ tree_size (abs s) <= limit /\ used s + BLOCK <= limit /\ used s < 2 ^ 32.

Definition item_ok (limit : Z) (i : item) : Prop :=
  match i with Chunk _ => True | Sub s => sub_ok limit s end.

(** [at_items its r]: the next items for the reader [r] are [its]. *)
Class ItemReader (malloc : Z -> option bytes) (buffer : BufferPrivate)
    (at_items : list item -> BufferReader -> Prop) := {
  item_scalar d its r :
    at_items (Chunk d :: its) r ->
    exists r', reader_read_into buffer r (zlen d) = Some (d, r') /\ at_items its r';
  item_pointer d its r :
    at_items (Chunk d :: its) r ->
    exists r', read_pointer buffer (zlen d) r = Ok (Some d, r') /\ at_items its r';
  item_sub s its r :
    at_items (Sub s :: its) r ->
    exists c r', read_buffer malloc buffer r = Ok (c, r')
      /\ readable c /\ content c = content s /\ at_items its r';
}.

(** ** The decoder on an item reader *)

Fixpoint depth {R} (v : val R) : nat :=
  S match v with
    | VList l | VTuple l => foldr (fun v n => Nat.max (depth v) n) 0%nat l
    | VMap l => foldr (fun p n => Nat.max (Nat.max (depth (fst p)) (depth (snd p))) n) 0%nat l
    | VDynamic (Some (_, v)) => depth v
    | VOptional (Some v) => depth v
    | _ => 0%nat
    end.

Section decode.
#[local] Set Default Proof Using "Type*".
Context (malloc : Z -> option bytes) (limit : Z).
Context (malloc_length : forall n blk, malloc n = Some blk -> zlen blk = n).
Context (malloc_ok : forall n, 0 <= n <= limit -> malloc n <> None).
Context (limit_small : limit < 2 ^ 64).
Context (buffer : BufferPrivate) (at_items : list item -> BufferReader -> Prop).
Context `{!ItemReader malloc buffer at_items}.

(** A decoder that consumes the items, with a result in [P]. *)
Definition decodes {A} (d : decoder A) (its : list item) (P : A -> Prop) : Prop :=
  forall rest r, at_items (its ++ rest) r ->
  exists a r', d r = Ok (a, r') /\ P a /\ at_items rest r'.

Lemma decodes_ret {A} (a : A) (P : A -> Prop) : P a -> decodes (mret a) [] P.
Proof. intros H rest r Hr. by exists a, r. Qed.

Lemma decodes_bind {A B} (d : decoder A) (f : A -> decoder B) is1 is2 P Q :
  decodes d is1 P -> (forall a, P a -> decodes (f a) is2 Q) ->
  decodes (d ≫= f) (is1 ++ is2) Q.
Proof.
  intros Hd Hf rest r Hr. rewrite <- app_assoc in Hr.
  destruct (Hd _ _ Hr) as (a & r1 & Ha & HP & Hr1).
  destruct (Hf a HP _ _ Hr1) as (b & r2 & Hb & HQ & Hr2).
  exists b, r2. split; [|done]. unfold mbind, decoder_bind. by rewrite Ha.
Qed.

(** A decoder followed by a pure function. *)
Lemma decodes_map {A B} (d : decoder A) (g : A -> B) its P (Q : B -> Prop) :
  decodes d its P -> (forall a, P a -> Q (g a)) -> decodes (a ← d; mret (g a)) its Q.
Proof.
  intros Hd HQ. rewrite <- (app_nil_r its). eapply decodes_bind; [exact Hd|].
  intros a HP. by apply decodes_ret, HQ.
Qed.

Lemma decodes_scalar_mod n z :
  decodes (read_scalar buffer (Z.of_nat n)) [Chunk (le_encode n z)]
    (eq (z mod 2 ^ (8 * Z.of_nat n))).
Proof.
  intros rest r Hr. destruct (item_scalar _ _ _ Hr) as (r' & Hd & Hr').
  eexists _, r'. split; [|split; [reflexivity | done]]. unfold read_scalar.
  rewrite zlen_le_encode in Hd. rewrite Hd, zlen_le_encode, Z.eqb_refl.
  by rewrite le_decode_encode.
Qed.

Lemma decodes_scalar n z :
  0 <= z < 2 ^ (8 * Z.of_nat n) ->
  decodes (read_scalar buffer (Z.of_nat n)) [Chunk (le_encode n z)] (eq z).
Proof. intros Hz. rewrite <- (Z.mod_small z _ Hz) at 2. apply decodes_scalar_mod. Qed.

Lemma decodes_size l {A} (x : list A) :
  zlen x = l -> l < 2 ^ 32 -> decodes (read_scalar buffer 4) [Chunk (le_encode 4 l)] (eq l).
Proof. intros <- H. apply (decodes_scalar 4). zlen_lia. Qed.

Lemma decodes_string s : zlen s < 2 ^ 32 -> decodes (read_string buffer) (string_items s) (eq s).
Proof.
  intros Hs. unfold read_string, string_items. apply (decodes_bind _ _ [_] _ (eq (zlen s))).
  { by apply (decodes_size _ s). }
  intros _ <-. destruct (Z.eqb_spec (zlen s) 0) as [H0|_].
  - apply decodes_ret. destruct s; [done|]. rewrite zlen_cons in H0.
    zlen_lia.
  - rewrite <- (app_nil_r [_]). apply (decodes_bind _ _ _ _ (eq (Some s))).
    + intros rest r Hr. destruct (item_pointer _ _ _ Hr) as (r' & Hd & Hr').
      by exists (Some s), r'.
    + intros _ <-. by apply decodes_ret.
Qed.

Lemma decodes_bool (b : bool) :
  decodes (read_bool buffer) [Chunk (le_encode 1 (Z.b2z b))] (eq b).
Proof.
  unfold read_bool. rewrite <- (app_nil_r [_]). apply (decodes_bind _ _ _ _ (eq (Z.b2z b))).
  { apply (decodes_scalar 1). by destruct b. }
  intros _ <-. destruct b; by apply decodes_ret.
Qed.

Lemma to_signed_mod n z :
  1 <= n -> - 2 ^ (8 * n - 1) <= z < 2 ^ (8 * n - 1) -> to_signed n (z mod 2 ^ (8 * n)) = z.
Proof.
  intros Hn Hz. unfold to_signed.
  assert (H2 : 2 ^ (8 * n) = 2 * 2 ^ (8 * n - 1)).
  { rewrite <- Z.pow_succ_r by lia. f_equal. lia. }
  destruct (Z_lt_le_dec z 0) as [Hneg|Hpos].
  - assert (Hm : z mod 2 ^ (8 * n) = z + 2 ^ (8 * n)).
    { symmetry. apply (Z.mod_unique _ _ (-1)); lia. }
    rewrite Hm, (proj2 (Z.ltb_ge _ _)) by lia. lia.
  - by rewrite Z.mod_small, (proj2 (Z.ltb_lt _ _)) by lia.
Qed.

Definition same (v v' : value) : Prop := val_map content v' = val_map content v.

Lemma decodes_int s n z :
  (s, n) ∈ int_types -> int_range s n z ->
  decodes (deserializeInt buffer s n) [Chunk (le_encode (int_width n) z)] (same (VInt z)).
Proof.
  unfold int_types. intros H Hr.
  apply elem_of_cons in H as [[= -> ->]|H].
  { cbn in Hr. unfold deserializeInt. cbn [Z.eqb Z.opp].
    assert (Hz : z = Z.b2z (z =? 1)) by (destruct (Z.eqb_spec z 1); cbn; lia).
    rewrite Hz. eapply decodes_map; [apply decodes_bool|]. intros b <-. by destruct (z =? 1). }
  repeat (apply elem_of_cons in H as [[= -> ->]|H];
    [eapply decodes_map; [apply decodes_scalar_mod|]; intros _ <-; unfold same; cbn [val_map];
     f_equal; first [by apply to_signed_mod | by apply Z.mod_small]|]).
  by apply not_elem_of_nil in H.
Qed.

Lemma decodes_float n bits :
  n = 4 \/ n = 8 -> 0 <= bits < 2 ^ (8 * n) ->
  decodes (deserializeFloat buffer n) [Chunk (le_encode (Z.to_nat n) bits)] (same (VFloat bits)).
Proof.
  intros [-> | ->] Hb; (eapply decodes_map; [by apply decodes_scalar|]); by intros _ <-.
Qed.

Lemma decodes_raw s :
  sub_ok limit s -> decodes (deserializeRaw malloc buffer) [Sub s] (same (VRaw s)).
Proof.
  intros (Hrd & _ & Hroom & _) rest r Hr.
  destruct (item_sub _ _ _ Hr) as (c & r' & Hc & Hrc & Hcc & Hr').
  destruct (raw_copied malloc limit malloc_length malloc_ok limit_small c Hrc)
    as (raw & Hw & _ & Hraw); [by rewrite <- zlen_content, Hcc, zlen_content|].
  exists (VRaw raw), r'. split; [|split; [|done]].
  - unfold deserializeRaw, mbind, decoder_bind. by rewrite Hc, Hw.
  - unfold same. cbn [val_map]. by rewrite Hraw, Hcc.
Qed.

Lemma decodes_repeat {A} (d : decoder A) (its : A -> list item) (P : A -> A -> Prop) l :
  Forall (fun x => decodes d (its x) (P x)) l ->
  decodes (repeat_decoder (length l) d) (concat (map its l)) (Forall2 P l).
Proof.
  induction 1 as [|x l Hx _ IH]; cbn [length repeat_decoder map concat]; [by apply decodes_ret|].
  eapply decodes_bind; [exact Hx|]. intros y Hy.
  eapply decodes_map; [exact IH|]. intros k Hk. by constructor.
Qed.

Lemma decodes_members f l : forall ts,
  members_typed dynamic_ok l ts -> Forall (item_ok limit) (member_items l ts) -> forallb ty_ok ts ->
  Forall (fun v => forall t, ty_ok t -> well_typed t v -> Forall (item_ok limit) (items t v) ->
            decodes (deserialize malloc buffer f t) (items t v) (same v)) l ->
  decodes (all_decoders (map (deserialize malloc buffer f) ts)) (member_items l ts)
    (Forall2 same l).
Proof.
  induction l as [|v l IH]; intros [|t ts] Hty Hok Hts Hl; cbn in Hty; try done.
  { by apply decodes_ret. }
  destruct Hty as [Hty1 Hty2]. cbn [member_items forallb map all_decoders] in *.
  apply andb_True in Hts as [Hts1 Hts2]. apply Forall_app in Hok as [Hok1 Hok2].
  apply Forall_cons in Hl as [Hv Hl].
  eapply decodes_bind; [by apply Hv|]. intros v' Hv'.
  eapply decodes_map; [by apply IH|]. intros l' Hl'. by constructor.
Qed.

Lemma same_list l l' :
  Forall2 same l l' -> map (val_map content) l' = map (val_map content) l.
Proof. induction 1 as [|v v' l l' Hv _ IH]; [done|]. cbn [map]. by rewrite Hv, IH. Qed.

Lemma depth_max {A} (g : A -> nat) l n :
  (foldr (fun x m => Nat.max (g x) m) 0 l <= n)%nat -> Forall (fun x => g x <= n)%nat l.
Proof. induction l as [|x l IH]; cbn [foldr]; intros H; constructor; [lia | apply IH; lia]. Qed.

(** The elements of an aggregate: what is known of them together. *)
Lemma item_ok_elements {A} (its : A -> list item) l :
  Forall (item_ok limit) (concat (map its l)) -> Forall (fun x => Forall (item_ok limit) (its x)) l.
Proof.
  induction l as [|x l IH]; cbn [map concat]; [constructor|].
  intros [H1 H2]%Forall_app. constructor; auto.
Qed.

(** The element decoder applied to each element of a list or of a map. *)
Lemma decodes_sequence {A} (d : decoder A) (its : A -> list item) (P : A -> A -> Prop) l :
  zlen l < 2 ^ 32 -> Forall (fun x => decodes d (its x) (P x)) l ->
  decodes (sz ← read_scalar buffer 4; repeat_decoder (Z.to_nat sz) d)
    (Chunk (le_encode 4 (zlen l)) :: concat (map its l)) (Forall2 P l).
Proof.
  intros Hlen Hl. apply (decodes_bind _ _ [_] _ (eq (zlen l))); [by apply (decodes_size _ l)|].
  intros _ <-. unfold zlen. rewrite Nat2Z.id. by apply decodes_repeat.
Qed.

(** Reassociation of the binds of the decoder. *)
Lemma decodes_assoc {A B C} (d : decoder A) (f : A -> decoder B) (g : B -> decoder C) its P :
  decodes (b ← (a ← d; f a); g b) its P -> decodes (a ← d; b ← f a; g b) its P.
Proof.
  intros H rest r Hr. destruct (H rest r Hr) as (c & r' & Hc & Hp). exists c, r'.
  split; [|done]. rewrite <- Hc. unfold mbind, decoder_bind. by destruct (d r) as [[]|].
Qed.

(** What is shown of every value. *)
Definition decodable (v : value) : Prop :=
  forall t fuel, ty_ok t -> well_typed t v -> Forall (item_ok limit) (items t v) ->
  (depth v <= fuel)%nat -> decodes (deserialize malloc buffer fuel t) (items t v) (same v).

Lemma decodes_list el f l :
  Forall decodable l -> ty_ok el -> zlen l < 2 ^ 32 -> Forall (well_typed el) l ->
  Forall (item_ok limit) (concat (map (items el) l)) ->
  (foldr (fun v n => Nat.max (depth v) n) 0 l <= f)%nat ->
  decodes (sz ← read_scalar buffer 4;
           l ← repeat_decoder (Z.to_nat sz) (deserialize malloc buffer f el);
           mret (VList l))
    (Chunk (le_encode 4 (zlen l)) :: concat (map (items el) l)) (same (VList l)).
Proof.
  intros IH Hok Hlen Hty Hit%item_ok_elements Hd%depth_max. apply decodes_assoc.
  eapply decodes_map; [apply (decodes_sequence _ _ same); [done|]|].
  - rewrite !Forall_forall in *. intros v Hv. apply IH; auto.
  - intros l' Hl. unfold same. cbn [val_map]. by rewrite same_list with (l := l).
Qed.

Definition same_pair (p q : value * value) : Prop :=
  same (fst p) (fst q) /\ same (snd p) (snd q).

Lemma same_pairs l l' :
  Forall2 same_pair l l' -> same (VMap l) (VMap l').
Proof.
  unfold same. cbn [val_map]. intros H. f_equal.
  induction H as [|p q l l' [H1 H2] _ IH]; [done|]. cbn [map]. by rewrite H1, H2, IH.
Qed.

Lemma decodes_map_value key el f l :
  Forall (fun p => decodable (fst p) /\ decodable (snd p)) l -> ty_ok key -> ty_ok el ->
  zlen l < 2 ^ 32 -> Forall (fun p => well_typed key (fst p) /\ well_typed el (snd p)) l ->
  Forall (item_ok limit) (concat (map (fun p => items key (fst p) ++ items el (snd p)) l)) ->
  (foldr (fun p n => Nat.max (Nat.max (depth (fst p)) (depth (snd p))) n) 0 l <= f)%nat ->
  decodes (sz ← read_scalar buffer 4;
           l ← repeat_decoder (Z.to_nat sz)
                 (k ← deserialize malloc buffer f key;
                  v ← deserialize malloc buffer f el; mret (k, v));
           mret (VMap l))
    (Chunk (le_encode 4 (zlen l))
     :: concat (map (fun p => items key (fst p) ++ items el (snd p)) l)) (same (VMap l)).
Proof.
  intros IH Hk He Hlen Hty Hit%item_ok_elements.
  intros Hd%(depth_max (fun p => Nat.max (depth (fst p)) (depth (snd p)))). apply decodes_assoc.
  eapply decodes_map; [apply (decodes_sequence _ _ same_pair); [done|] | apply same_pairs].
  rewrite !Forall_forall in *. intros [k v] Hp.
  destruct (IH _ Hp) as [IHk IHv], (Hty _ Hp) as [Htk Htv].
  specialize (Hit _ Hp). specialize (Hd _ Hp). cbn [fst snd] in *.
  apply Forall_app in Hit as [Hik Hiv].
  eapply decodes_bind; [apply IHk; try done; lia|]. intros k' Hk'.
  eapply decodes_map; [apply IHv; try done; lia|]. intros v' Hv'. by split.
Qed.

Lemma decodes_lift {A B} (a : A) (f : A -> decoder B) its P :
  decodes (f a) its P -> decodes (lift (Ok a) ≫= f) its P.
Proof. intros H rest r Hr. exact (H rest r Hr). Qed.

Lemma decodes_dynamic t v f :
  decodable v -> ty_ok t -> zlen (print (elt_of t)) < 2 ^ 32 -> well_typed t v ->
  Forall (item_ok limit) (items t v) -> (depth v <= f)%nat ->
  decodes (deserialize malloc buffer (S f) TDynamic)
    (string_items (print (elt_of t)) ++ items t v) (same (VDynamic (Some (t, v)))).
Proof.
  intros IH Hok Hlen Hty Hit Hd. cbn [deserialize].
  eapply decodes_bind; [by apply decodes_string|]. intros _ <-.
  rewrite decide_False by (destruct t; done).
  rewrite (Signature_new_elt t _ Hok eq_refl). cbn [lift_sig].
  apply decodes_lift. rewrite fromSignature_elt by done.
  eapply decodes_map; [by apply IH|]. intros v' Hv'. unfold same. cbn [val_map]. by rewrite Hv'.
Qed.

Lemma deserialize_items v : decodable v.
Proof.
  induction v as [ | z | b | s | l IH | l IH | l IH | | t' v' IH | r | | v' IH]
    using val_nested_ind; intros t [|fuel] Hok Hty Hit Hd; cbn [depth] in Hd; try lia;
    destruct t as [ | sg n | n | | el | el | key el | name names ts | | | | t]; try done;
    unfold well_typed in Hty; cbn [well_typed_with items ty_ok] in *; try apply le_S_n in Hd.
  - by apply decodes_ret.
  - apply bool_decide_unpack in Hok. by apply decodes_int.
  - apply bool_decide_unpack in Hok. by apply decodes_float.
  - eapply decodes_map; [by apply decodes_string|]. by intros _ <-.
  - destruct Hty as [Hlen Hty%(well_typed_elements dynamic_ok)]. apply Forall_cons in Hit as [_ Hit].
    by apply decodes_list.
  - destruct Hty as [Hlen Hty%(well_typed_elements dynamic_ok)]. apply Forall_cons in Hit as [_ Hit].
    by apply decodes_list.
  - destruct Hty as [Hlen Hty%(well_typed_pairs dynamic_ok)]. apply Forall_cons in Hit as [_ Hit].
    apply andb_True in Hok as [Hk He]. by apply decodes_map_value.
  - rewrite !andb_True in Hok. destruct Hok as [[[Hok _] _] _]. apply depth_max in Hd.
    eapply decodes_map; [apply decodes_members; [done | done | done |] |].
    + rewrite !Forall_forall in *. intros v Hv t Ht Htv Hi. apply IH; auto.
    + intros l' Hl. unfold same. cbn [val_map]. by rewrite same_list with (l := l).
  - cbn [deserialize]. rewrite <- (app_nil_r (string_items [])).
    eapply decodes_bind; [by apply decodes_string|]. intros _ <-.
    rewrite decide_True by done. by apply decodes_ret.
  - destruct Hty as ((Ht & Hlen) & Hty). apply Forall_app in Hit as [_ Hit].
    by apply decodes_dynamic.
  - apply Forall_cons in Hit as [Hit _]. by apply decodes_raw.
  - cbn [deserialize]. rewrite <- (app_nil_r [_]).
    eapply decodes_bind; [apply (decodes_bool false)|]. intros _ <-. by apply decodes_ret.
  - apply Forall_cons in Hit as [_ Hit]. cbn [deserialize].
    apply (decodes_bind _ _ [_] _ (eq true)); [apply (decodes_bool true)|]. intros _ <-.
    eapply decodes_map; [by apply IH|]. intros w Hw. unfold same. cbn [val_map]. by rewrite Hw.
Qed.
End decode.

(** ** The buffers from which the items can be read *)

(** A pointer read inside of the content of a buffer. *)
Lemma reader_at_pointer b pre d post k :
  readable b -> content b = pre ++ d ++ post ->
  read_pointer b (zlen d) (mkBufferReader (zlen pre) k)
  = Ok (Some d, mkBufferReader (zlen (pre ++ d)) k).
Proof.
  intros Hr Hc. pose proof (readable_used b Hr) as [Hu Hlt].
  pose proof (zlen_content b Hr) as Hl. rewrite Hc, !zlen_app in Hl.
  unfold read_pointer, reader_read, peek, seek, size. cbn [_cursor _subCursor].
  rewrite (wrap64_small (zlen pre + zlen d)) by zlen_lia.
  rewrite (proj2 (Z.leb_le (zlen pre + zlen d) (used b))) by zlen_lia. cbn [snd].
  rewrite mem_read_content by (done || zlen_lia). rewrite Hc, zlen_app. unfold zlen.
  by rewrite !Nat2Z.id, drop_app_length, take_app_length.
Qed.


Section readers.
#[local] Set Default Proof Using "All".
Context (malloc : Z -> option bytes) (limit : Z).
Context (malloc_length : forall n blk, malloc n = Some blk -> zlen blk = n).
Context (malloc_ok : forall n, 0 <= n <= limit -> malloc n <> None).
Context (limit_small : limit < 2 ^ 64).
Context (buffer : BufferPrivate) (buffer_readable : readable buffer).


(** The flat buffer that holds the items as they are sent. *)
Definition in_wire (its : list item) (r : BufferReader) : Prop :=
  Forall (item_ok limit) its
  /\ exists pre, content buffer = pre ++ concat (map item_wire its)
       /\ r = mkBufferReader (zlen pre) 0.


Lemma in_wire_chunk d its r :
  in_wire (Chunk d :: its) r ->
  exists pre post, content buffer = pre ++ d ++ post /\ r = mkBufferReader (zlen pre) 0
    /\ in_wire its (mkBufferReader (zlen (pre ++ d)) 0).
Proof.
  intros [[_ Hok]%Forall_cons (pre & Hc & ->)]. cbn [map concat item_wire] in Hc.
  exists pre, (concat (map item_wire its)). split_and!; [done | done |].
  split; [done|]. exists (pre ++ d). by rewrite <- app_assoc.
Qed.




Lemma no_subBuffer r : _subBuffers buffer = [] -> 0 <= _subCursor r -> reader_hasSubBuffer buffer r = false.
Proof.
  intros Hs Hr. unfold reader_hasSubBuffer, subBuffers. rewrite Hs.
  by rewrite (proj2 (Z.leb_le _ _)) by (change (zlen []) with 0; lia).
Qed.

#[export] Instance wire_item_reader :
  _subBuffers buffer = [] -> ItemReader malloc buffer in_wire.
Proof.
  intros Hflat. split.
  - intros d its r (pre & post & Hc & -> & Hr)%in_wire_chunk.
    eexists. split; [by eapply reader_chunk | done].
  - intros d its r (pre & post & Hc & -> & Hr)%in_wire_chunk.
    eexists. split; [by eapply reader_at_pointer | done].
  - intros s its r [[(Hrs & _ & Hroom & Hs32) Hok]%Forall_cons (pre & Hc & ->)].
    cbn [map concat item_wire] in Hc. rewrite <- app_assoc in Hc.
    set (l4 := le_encode 4 (size s)) in *. set (rest := concat (map item_wire its)) in *.
    rewrite <- (zlen_content s Hrs) in Hroom.
    destruct (reserve_fill malloc limit malloc_length malloc_ok limit_small (content s) Hroom) as (ptr & meta & d & Hres & Hcpy & Hrm & Hcm).
    assert (Hz : zlen (content s) = used s) by by apply zlen_content.
    pose proof (readable_used s Hrs) as [Hus _].
    exists (set_data d meta), (mkBufferReader (zlen ((pre ++ l4) ++ content s)) 0).
    split; [|split; [done|split; [done|]]].
    + unfold read_buffer. rewrite no_subBuffer by done.
      unfold mbind, decoder_bind, read_scalar.
      assert (Hl4 : zlen l4 = 4) by (unfold l4; by rewrite zlen_le_encode).
      rewrite <- Hl4 at 1. rewrite (reader_chunk buffer pre l4 (content s ++ rest)) by done.
      rewrite Hl4. cbn [Z.eqb Pos.eqb].
      assert (Hdec : le_decode l4 = zlen (content s)).
      { unfold l4, size. rewrite le_decode_encode, Z.mod_small, Hz; [done|].
        change (2 ^ (8 * Z.of_nat 4)) with (2 ^ 32). lia. }
      rewrite !Hdec, (reader_at_pointer buffer (pre ++ l4) (content s) rest)
        by (done || by rewrite <- app_assoc).
      by rewrite Hres, Hcpy.
    + split; [done|]. exists ((pre ++ l4) ++ content s). split; [|done].
      by rewrite Hc, <- !app_assoc.
Qed.
End readers.

(** ** The properties *)

(** What is asked of a value: it is of the type, its raw buffers can be read
    back, and its encoding fits in the memory. *)
Definition encodable (limit : Z) (t : ty) (v : value) : Prop :=
  ty_ok t /\ well_typed t v /\ Forall (item_ok limit) (items t v)
  /\ items_size (items t v) + BLOCK <= limit.

Lemma item_op_ok limit its : Forall (item_ok limit) its -> Forall (op_ok limit) (map item_op its).
Proof.
  intros H. apply Forall_map. eapply Forall_impl; [exact H|].
  intros [d|s]; cbn [item_ok compose item_op op_ok]; [done|]. intros (H1 & H2 & _). done.
Qed.

(** The encoder fills a fresh buffer with the items. *)
Lemma encode_items malloc limit t v :
  (forall n blk, malloc n = Some blk -> zlen blk = n) ->
  (forall n, 0 <= n <= limit -> malloc n <> None) -> limit < 2 ^ 64 ->
  encodable limit t v ->
  exists b, encodeBinary malloc BufferPrivate_new t v = Ok b /\ owner b
    /\ abs b = foldl render1 t_empty (items t v) /\ used b = items_size (items t v).
Proof.
  intros Hlength Hok Hlimit (Ht & Hv & Hi & Hsz). set (e := encoder_new BufferPrivate_new).
  assert (Hf : fits limit e (items t v)).
  { split; [split; [apply owner_new | done]|]. split; [by apply item_op_ok | done]. }
  destruct (check_status_appends _ _ _
    (visit_appends malloc limit Hlength Hok Hlimit v t Ht Hv e Hf)) as (e' & He & Hem).
  pose proof (emits_used _ _ _ (proj1 Hf) Hem) as Hu. destruct Hem as [[Ho _] Ha].
  exists (e_buffer e'). unfold encodeBinary, serialize. fold e. by rewrite He.
Qed.

(** A structure with a list, a dynamic value, a raw buffer, a map and an
    optional value. *)
Definition sample_type : ty :=
  TTuple (lit "P") [lit "l"; lit "d"; lit "r"; lit "m"; lit "o"]
    [TList TString; TDynamic; TRaw; TMap (TInt true 4) (TFloat 8); TOptional (TInt false 0)].
Definition sample_value : value :=
  VTuple [VList [VString (lit "ab"); VString []];
          VDynamic (Some (TInt true 2, VInt (-3)));
          VRaw sub_xyz;
          VMap [(VInt (-1), VFloat 5); (VInt 2, VFloat 6)];
          VOptional (Some (VInt 1))].
Definition sample_encoding : BufferPrivate :=
  match encodeBinary (bounded_malloc 6000) BufferPrivate_new sample_type sample_value with
  | Ok b => b
  | Err _ => BufferPrivate_new
  end.

(** A flat buffer with the given bytes. *)
Definition flat_buffer (l : bytes) : BufferPrivate :=
  mkBufferPrivate None (l ++ zeros (STATIC_BLOCK - zlen l)) 0 (zlen l) STATIC_BLOCK [].

Lemma flat_buffer_readable l : zlen l <= STATIC_BLOCK -> readable (flat_buffer l).
Proof.
  intros Hl. unfold STATIC_BLOCK in *.
  assert (Hd : zlen (_data (flat_buffer l)) = 768).
  { unfold flat_buffer, zeros, STATIC_BLOCK. cbn [_data]. rewrite zlen_app. unfold zlen in *.
    rewrite length_replicate. zlen_lia. }
  constructor; try done; unfold data; cbn [flat_buffer _bigdata used]; try zlen_lia.
  rewrite abs_unfold. cbn [flat_buffer _subBuffers map t_subs placed]. apply zlen_nonneg.
Qed.

Lemma sample_encodable : encodable 6000 sample_type sample_value.
Proof.
  assert (Hsub : sub_ok 6000 sub_xyz).
  { split; [apply sub_xyz_readable|]. vm_compute. repeat split; discriminate. }
  split_and!; [done | | | vm_compute; discriminate].
  - unfold sample_type, sample_value, well_typed. cbn -[sub_xyz Z.lt Z.le Z.pow dynamic_ok].
    repeat split; (exact (proj1 Hsub) || done).
  - unfold sample_type, sample_value. cbn -[sub_xyz sub_ok le_encode].
    repeat (apply Forall_cons; split; [done || exact Hsub|]). constructor.
Qed.



(** The binary codec is lossless across the network: when a value has been
    encoded in a fresh buffer, any flat buffer that holds the bytes that are
    sent for that buffer, as the one of a received message does, is decoded
    with the same type to the same value, whole. *)
Theorem codec_wire_roundtrip malloc limit t v b received fuel
    (Hlength : forall n blk, malloc n = Some blk -> zlen blk = n)
    (Hok : forall n, 0 <= n <= limit -> malloc n <> None)
    (Hlimit : limit < 2 ^ 64) (Hvalue : encodable limit t v)
    (Hencoded : encodeBinary malloc BufferPrivate_new t v = Ok b)
    (Hread : readable received) (Hflat : _subBuffers received = [])
    (Hreceived : content received = payload (abs b)) (Hfuel : (depth v <= fuel)%nat) :
  exists v' r, decodeBinary malloc received fuel t = Ok (v', r)
    /\ val_map content v' = val_map content v /\ position r = size received.
Proof.
  destruct (encode_items malloc limit t v Hlength Hok Hlimit Hvalue) as (b' & Hb' & [Hr _] & Ha & _).
  rewrite Hencoded in Hb'. injection Hb' as <-.
  destruct Hvalue as (Ht & Hv & Hi & Hsz).
  assert (Hwire : content received = concat (map item_wire (items t v))).
  { rewrite Hreceived, Ha. apply payload_render. eapply Forall_impl; [exact Hi|].
    intros [d|s]; [done|]. by intros [? _]. }
  pose proof (wire_item_reader malloc limit Hlength Hok Hlimit received Hread Hflat).
  destruct (deserialize_items malloc limit Hlength Hok Hlimit received (in_wire limit received) v t
    fuel Ht Hv Hi Hfuel [] BufferReader_new) as (v' & r & Hd & Hs & _ & pre & Hc & ->).
  { rewrite app_nil_r. split; [done|]. by exists []. }
  exists v'. eexists. split; [exact Hd|]. split; [done|].
  cbn [map concat] in Hc. rewrite app_nil_r in Hc. unfold position, size. cbn [_cursor].
  by rewrite <- Hc, zlen_content.
Qed.

Lemma codec_wire_roundtrip_witness :
  let received := flat_buffer (payload (abs sample_encoding)) in
  exists v' r, decodeBinary (bounded_malloc 6000) received 9 sample_type = Ok (v', r)
    /\ val_map content v' = val_map content sample_value /\ position r = size received.
Proof.
  apply (codec_wire_roundtrip (bounded_malloc 6000) 6000 sample_type sample_value sample_encoding
    (flat_buffer (payload (abs sample_encoding))) 9
    (bounded_malloc_length 6000) (bounded_malloc_ok 6000)).
  - lia.
  - apply sample_encodable.
  - vm_compute. reflexivity.
  - apply flat_buffer_readable. vm_compute. discriminate.
  - reflexivity.
  - vm_compute. reflexivity.
  - vm_compute. lia.
Defined.
