(* ===== verification/BinarySafety.v ===== *)
(** * BinarySafety: decoding arbitrary bytes

    The bytes that are decoded come from the network. Whatever they are, the
    decoder stays inside of the buffer, ends, and gives a value of the type that
    was asked for, or throws. *)
From S2P Require Import Prelude CString Bytes Signature SignatureGrammar SignatureProperties.
From S2P Require Import SignatureConvert TypeInterface.
From S2P Require Import Buffer BufferProperties SendProperties.
From S2P Require Import BinaryCodec BinaryCodecProperties BinaryRoundtrip.
From Stdlib Require Import Ascii.
Open Scope Z_scope.

(** ** Types that are read from the network *)














(** ** The decoder never goes wrong *)

Section safety.
#[local] Set Default Proof Using "Type*".
Context (malloc : Z -> option bytes) (limit : Z).
Context (malloc_length : forall n blk, malloc n = Some blk -> zlen blk = n).
Context (malloc_ok : forall n, 0 <= n <= limit -> malloc n <> None).
Context (limit_small : limit < 2 ^ 64).
Context (buffer : BufferPrivate) (buffer_readable : readable buffer).
Context (buffer_small : size buffer + 2 ^ 32 < 2 ^ 64).
Context (enough : tree_size (abs buffer) + BLOCK <= limit).
























End safety.

(** ** The property *)


