(* ===== verification/ServiceDirectory.v ===== *)
(** * ServiceDirectory: the registry of the services

    Model of [ServiceDirectory] in [src/messaging/servicedirectory.cpp]: the
    tables of the pending and of the connected services, of their names, and of
    the sockets behind which they are, with the operations that change them.
    Each operation runs under the mutex of the directory, so it is a function of
    the whole state. An operation that throws may already have changed the
    state, so it gives the state with its result. The signals [serviceAdded] and
    [serviceRemoved] are recorded in the order of their emissions; their
    subscribers do not run inside of the operation. *)
From S2P Require Import Prelude CString Bytes Message.
From Stdlib Require Import Ascii.
Open Scope Z_scope.

(** ** Definitions *)

Section service_info.
(** The endpoints are carried and never inspected by these operations. *)
Context {Uri : Type}.

Record ServiceInfo := mkServiceInfo {
  name : bytes;
  serviceId : Z;
  machineId : bytes;
  processId : Z;
  endpoints : list Uri;
  sessionId : bytes;
  objectUid : bytes;
}.

Definition setServiceId (n : Z) (i : ServiceInfo) : ServiceInfo :=
  mkServiceInfo (name i) n (machineId i) (processId i) (endpoints i) (sessionId i) (objectUid i).
Definition setEndpoints (l : list Uri) (i : ServiceInfo) : ServiceInfo :=
  mkServiceInfo (name i) (serviceId i) (machineId i) (processId i) l (sessionId i) (objectUid i).
End service_info.
Arguments ServiceInfo : clear implicits.

(** A socket is the address of the object, 0 for a null pointer. *)
Definition MessageSocketPtr : Type := Z.

Inductive sd_event :=
  | serviceAdded (idx : Z) (name : bytes)
  | serviceRemoved (idx : Z) (name : bytes).

Inductive sd_error :=
  | BoundObjectExpired
  | AlreadyRegistered (idx : Z)
  | CannotFindService
  | MappingError
  | CannotFindPending.

Section directory.
Context {Uri : Type}.
Implicit Types (svcinfo : ServiceInfo Uri) (idx : Z) (socket : MessageSocketPtr).

Record ServiceDirectory := mkServiceDirectory {
  pendingServices : gmap Z (ServiceInfo Uri);
  connectedServices : gmap Z (ServiceInfo Uri);
  nameToIdx : gmap bytes Z;
  socketToIdx : gmap MessageSocketPtr (list Z);
  idxToSocket : gmap Z MessageSocketPtr;
  servicesCount : Z;
  emitted : list sd_event;
}.

Definition ServiceDirectory_new : ServiceDirectory := mkServiceDirectory ∅ ∅ ∅ ∅ ∅ 0 [].

(** The directory after an operation, with the value or the exception. *)
Definition outcome (A : Type) : Type := result sd_error A * ServiceDirectory.

(** [bo] is the socket of the current call, [None] when the bound object of the
    directory no longer exists. *)
Definition registerService (bo : option MessageSocketPtr) svcinfo (d : ServiceDirectory) :
    outcome Z :=
  match bo with
  | None => (Err BoundObjectExpired, d)
  | Some socket =>
      match nameToIdx d !! name svcinfo with
      | Some idx => (Err (AlreadyRegistered idx), d)
      | None =>
          let idx := wrap 32 (servicesCount d + 1) in
          (Ok idx,
           mkServiceDirectory
             (<[idx := setServiceId idx svcinfo]> (pendingServices d))
             (connectedServices d)
             (<[name svcinfo := idx]> (nameToIdx d))
             (if idx =? Service_ServiceDirectory then socketToIdx d
              else <[socket := default [] (socketToIdx d !! socket) ++ [idx]]> (socketToIdx d))
             (<[idx := socket]> (idxToSocket d))
             idx
             (emitted d))
      end
  end.

(** Erases the first occurrence of [idx] in a vector. *)
Fixpoint erase_first (idx : Z) (l : list Z) : list Z :=
  match l with
  | [] => []
  | x :: l' => if x =? idx then l' else x :: erase_first idx l'
  end.

Definition unregisterService idx (d : ServiceDirectory) : outcome () :=
  let found :=
    match connectedServices d !! idx with
    | Some i => Some (false, i)
    | None => (fun i => (true, i)) <$> pendingServices d !! idx
    end in
  match found with
  | None => (Err CannotFindService, d)
  | Some (pending, i) =>
      match nameToIdx d !! name i with
      | None => (Err MappingError, d)
      | Some _ =>
          (Ok (),
           mkServiceDirectory
             (if pending then delete idx (pendingServices d) else pendingServices d)
             (if pending then connectedServices d else delete idx (connectedServices d))
             (delete (name i) (nameToIdx d))
             (erase_first idx <$> socketToIdx d)
             (idxToSocket d)
             (servicesCount d)
             (emitted d ++ [serviceRemoved idx (name i)]))
      end
  end.

Definition set_connected (m : gmap Z (ServiceInfo Uri)) (d : ServiceDirectory) : ServiceDirectory :=
  mkServiceDirectory (pendingServices d) m (nameToIdx d) (socketToIdx d) (idxToSocket d)
    (servicesCount d) (emitted d).
Definition set_pending (m : gmap Z (ServiceInfo Uri)) (d : ServiceDirectory) : ServiceDirectory :=
  mkServiceDirectory m (connectedServices d) (nameToIdx d) (socketToIdx d) (idxToSocket d)
    (servicesCount d) (emitted d).

(** The connected services of the same session take the endpoints, then the
    service itself is replaced. *)
Definition updateServiceInfo svcinfo (d : ServiceDirectory) : outcome () :=
  let update i :=
    if decide (sessionId svcinfo = sessionId i) then setEndpoints (endpoints svcinfo) i else i in
  let d := set_connected (update <$> connectedServices d) d in
  match connectedServices d !! serviceId svcinfo with
  | Some _ =>
      (Ok (), set_connected (<[serviceId svcinfo := svcinfo]> (connectedServices d)) d)
  | None =>
      match pendingServices d !! serviceId svcinfo with
      | Some _ => (Ok (), set_pending (<[serviceId svcinfo := svcinfo]> (pendingServices d)) d)
      | None => (Err CannotFindService, d)
      end
  end.

Definition serviceReady idx (d : ServiceDirectory) : outcome () :=
  match pendingServices d !! idx with
  | None => (Err CannotFindPending, d)
  | Some i =>
      (Ok (),
       mkServiceDirectory (delete idx (pendingServices d)) (<[idx := i]> (connectedServices d))
         (nameToIdx d) (socketToIdx d) (idxToSocket d) (servicesCount d)
         (emitted d ++ [serviceAdded idx (name i)]))
  end.

(** The loop of [removeClientSocket]: the exceptions are caught. *)
Definition unregister_all (ids : list Z) (d : ServiceDirectory) : ServiceDirectory :=
  foldl (fun d idx => snd (unregisterService idx d)) d ids.

Definition removeClientSocket socket (d : ServiceDirectory) : ServiceDirectory :=
  let d := mkServiceDirectory (pendingServices d) (connectedServices d) (nameToIdx d)
             (socketToIdx d) (filter (fun p => snd p <> socket) (idxToSocket d))
             (servicesCount d) (emitted d) in
  match socketToIdx d !! socket with
  | None => d
  | Some ids =>
      let d := unregister_all ids d in
      mkServiceDirectory (pendingServices d) (connectedServices d) (nameToIdx d)
        (delete socket (socketToIdx d)) (idxToSocket d) (servicesCount d) (emitted d)
  end.

Definition _socketOfService idx (d : ServiceDirectory) : MessageSocketPtr :=
  default 0 (idxToSocket d !! idx).

(** The information that [service] finalizes and returns. *)
Definition service (n : bytes) (d : ServiceDirectory) : result sd_error (ServiceInfo Uri) :=
  match nameToIdx d !! n with
  | None => Err CannotFindService
  | Some idx =>
      match connectedServices d !! idx with
      | None => Err CannotFindService
      | Some i => Ok i
      end
  end.

(** ** Runs *)

(** The calls that the directory receives. *)
Inductive sd_call :=
  | CallRegister (socket : MessageSocketPtr) (svcinfo : ServiceInfo Uri)
  | CallUnregister (idx : Z)
  | CallReady (idx : Z)
  | CallUpdate (svcinfo : ServiceInfo Uri)
  | CallDisconnect (socket : MessageSocketPtr).

Definition sd_run1 (c : sd_call) (d : ServiceDirectory) : ServiceDirectory :=
  match c with
  | CallRegister socket i => snd (registerService (Some socket) i d)
  | CallUnregister idx => snd (unregisterService idx d)
  | CallReady idx => snd (serviceReady idx d)
  | CallUpdate i => snd (updateServiceInfo i d)
  | CallDisconnect socket => removeClientSocket socket d
  end.

(** The service with an identifier, ready or not. *)
Definition registered (d : ServiceDirectory) idx : option (ServiceInfo Uri) :=
  match connectedServices d !! idx with
  | Some i => Some i
  | None => pendingServices d !! idx
  end.

(** A call is regular when it updates a service under its own name, and when
    the identifiers have not been used up. *)
Definition regular (c : sd_call) (d : ServiceDirectory) : Prop :=
  match c with
  | CallRegister _ _ => servicesCount d < 2 ^ 32 - 1
  | CallUpdate i => forall j, registered d (serviceId i) = Some j -> name i = name j
  | _ => True
  end.

Inductive sd_reachable : ServiceDirectory -> Prop :=
  | sd_reachable_new : sd_reachable ServiceDirectory_new
  | sd_reachable_step d c : sd_reachable d -> regular c d -> sd_reachable (sd_run1 c d).
End directory.
