(* ===== verification/ServiceDirectoryProperties.v ===== *)
(** * ServiceDirectoryProperties: the tables of the directory agree

    The invariant of the tables of the directory, its preservation by every
    call, and what the calls do in the states that are reached. *)
From S2P Require Import Prelude CString Bytes Message ServiceDirectory.
From Stdlib Require Import Ascii.
Open Scope Z_scope.

Section directory.
Context {Uri : Type}.
Implicit Types (d : @ServiceDirectory Uri) (i svcinfo : ServiceInfo Uri).
Implicit Types (idx : Z) (socket : MessageSocketPtr).
#[local] Abbreviation ServiceDirectory := (@ServiceDirectory Uri).

(** What a subscriber of both signals knows: the names of the services that
    were added and not removed since. *)
Definition announce (m : gmap Z bytes) (e : sd_event) : gmap Z bytes :=
  match e with
  | serviceAdded idx n => <[idx := n]> m
  | serviceRemoved idx _ => delete idx m
  end.
Definition announced (d : ServiceDirectory) : gmap Z bytes := foldl announce ∅ (emitted d).

(** ** The invariant *)

(** The tables of the services, of their names and of their identifiers. *)
Record sd_core (d : ServiceDirectory) : Prop := {
  core_count : 0 <= servicesCount d < 2 ^ 32;
  core_disjoint : connectedServices d ##ₘ pendingServices d;
  core_ids : forall idx i, registered d idx = Some i ->
    serviceId i = idx /\ 1 <= idx <= servicesCount d;
  core_names : forall n idx,
    nameToIdx d !! n = Some idx <-> exists i, registered d idx = Some i /\ name i = n;
  core_announced : announced d = name <$> connectedServices d;
}.

(** The tables of the sockets: the first service, the directory itself, is
    behind none. *)
Record sd_sockets (d : ServiceDirectory) : Prop := {
  sockets_registered : forall socket idx,
    (exists l, socketToIdx d !! socket = Some l /\ idx ∈ l) <->
    idx <> Service_ServiceDirectory /\ idxToSocket d !! idx = Some socket
    /\ is_Some (registered d idx);
  sockets_nodup : forall socket l, socketToIdx d !! socket = Some l -> NoDup l;
  sockets_known : forall idx socket,
    idxToSocket d !! idx = Some socket -> 1 <= idx <= servicesCount d;
  sockets_all : forall idx, is_Some (registered d idx) -> idx <> Service_ServiceDirectory ->
    is_Some (idxToSocket d !! idx);
}.

Definition sd_inv (d : ServiceDirectory) : Prop := sd_core d /\ sd_sockets d.

Lemma registered_union d idx :
  registered d idx = (connectedServices d ∪ pendingServices d) !! idx.
Proof. rewrite lookup_union. unfold registered. by destruct (_ !! idx), (pendingServices d !! idx). Qed.

Lemma core_name d idx i : sd_core d -> registered d idx = Some i -> nameToIdx d !! name i = Some idx.
Proof. intros Hd Hi. apply (core_names d Hd). eauto. Qed.

Lemma core_name_unique d idx idx' i i' :
  sd_core d -> registered d idx = Some i -> registered d idx' = Some i' -> name i = name i' ->
  idx = idx'.
Proof.
  intros Hd Hi Hi' Hn. apply (core_name d _ _ Hd) in Hi, Hi'. rewrite Hn in Hi. congruence.
Qed.

(** *** [unregisterService] *)

Lemma unregister_registered d idx i :
  sd_core d -> registered d idx = Some i ->
  exists d', unregisterService idx d = (Ok (), d')
    /\ sd_core d'
    /\ (forall j, registered d' j = if decide (j = idx) then None else registered d j)
    /\ socketToIdx d' = erase_first idx <$> socketToIdx d
    /\ idxToSocket d' = idxToSocket d /\ servicesCount d' = servicesCount d
    /\ emitted d' = emitted d ++ [serviceRemoved idx (name i)].
Proof.
  intros Hd Hi. pose proof (core_name d idx i Hd Hi) as Hn.
  pose proof (core_disjoint d Hd) as Hdis. unfold unregisterService.
  set (pending := match connectedServices d !! idx with Some _ => false | None => true end).
  assert (Hf : match connectedServices d !! idx with
               | Some i => Some (false, i)
               | None => (fun i => (true, i)) <$> pendingServices d !! idx
               end = Some (pending, i)).
  { unfold registered in Hi. unfold pending. destruct (connectedServices d !! idx).
    - by injection Hi as ->.
    - by rewrite Hi. }
  rewrite Hf, Hn. eexists. split; [done|]. set (d' := mkServiceDirectory _ _ _ _ _ _ _).
  assert (Hc : connectedServices d' = delete idx (connectedServices d)).
  { cbn. unfold pending. destruct (connectedServices d !! idx) eqn:E; [done|].
    symmetry. by apply delete_id. }
  assert (Hp : pendingServices d' = delete idx (pendingServices d)).
  { cbn. unfold pending. destruct (connectedServices d !! idx) eqn:E; [|done].
    symmetry. apply delete_id. by eapply map_disjoint_Some_l. }
  assert (Hr : forall j, registered d' j = if decide (j = idx) then None else registered d j).
  { intros j. unfold registered. rewrite Hc, Hp. case_decide as Hj.
    - subst j. by rewrite !lookup_delete_eq.
    - by rewrite !lookup_delete_ne by done. }
  split_and!; try done. split.
  - apply Hd.
  - rewrite Hc, Hp. by apply map_disjoint_delete_l, map_disjoint_delete_r.
  - intros j k. rewrite Hr. case_decide; [done|]. apply Hd.
  - intros n j. rewrite Hr. cbn [d' nameToIdx]. rewrite lookup_delete_Some, (core_names d Hd).
    case_decide as Hj.
    + subst j. split; [|by intros (? & ? & ?)]. intros (Hne & k & Hk & <-). congruence.
    + split; [by intros [_ H]|]. intros (k & Hk & Hkn). split; [|eauto].
      intros <-. apply Hj. symmetry. by eapply core_name_unique.
  - unfold announced. cbn [d' emitted]. rewrite foldl_app. cbn [foldl announce].
    fold (announced d). rewrite (core_announced d Hd), Hc. by rewrite fmap_delete.
Qed.

Lemma unregister_unknown d idx :
  registered d idx = None -> unregisterService idx d = (Err CannotFindService, d).
Proof.
  unfold registered, unregisterService. destruct (connectedServices d !! idx); [done|].
  by intros ->.
Qed.

Lemma erase_first_elem idx l x : NoDup l -> x ∈ erase_first idx l <-> x ∈ l /\ x <> idx.
Proof.
  induction 1 as [|y l Hy _ IH]; cbn [erase_first].
  { split; [by intros ?%not_elem_of_nil | by intros [?%not_elem_of_nil _]]. }
  destruct (Z.eqb_spec y idx) as [->|Hne].
  - rewrite elem_of_cons. split; [intros Hx; split; [by right | by intros ->] | by intros [[->|?] ?]].
  - rewrite !elem_of_cons, IH. split; [intros [->|[? ?]]; auto | intros [[->|?] ?]; auto].
Qed.

Lemma erase_first_nodup idx l : NoDup l -> NoDup (erase_first idx l).
Proof.
  induction 1 as [|y l Hy Hl IH]; cbn [erase_first]; [constructor|].
  destruct (y =? idx); [done|]. constructor; [|done].
  intros Hin. apply erase_first_elem in Hin; [by destruct Hin | done].
Qed.

(** ** Preservation *)

Lemma unregister_inv d idx : sd_inv d -> sd_inv (snd (unregisterService idx d)).
Proof.
  intros [Hd Hs]. destruct (registered d idx) as [i|] eqn:Hi.
  2: by rewrite unregister_unknown.
  destruct (unregister_registered d idx i Hd Hi) as (d' & -> & Hd' & Hr & Hsk & Hk & Hcnt & _).
  split; [exact Hd'|]. cbn [snd]. split.
  - intros socket j. rewrite Hsk, Hk, Hr, lookup_fmap. split.
    + intros (l & (k & Hl & ->)%fmap_Some & Hj).
      apply erase_first_elem in Hj as [Hj Hne]; [|by eapply sockets_nodup].
      rewrite decide_False by done. apply (sockets_registered d Hs). eauto.
    + case_decide as Hj; [by intros (_ & _ & ?%is_Some_None)|].
      intros (l & Hl & Hin)%(sockets_registered d Hs). exists (erase_first idx l).
      rewrite Hl. split; [done|]. apply erase_first_elem; [by eapply sockets_nodup | done].
  - intros socket l. rewrite Hsk, lookup_fmap. intros (k & Hl & ->)%fmap_Some.
    apply erase_first_nodup. by eapply sockets_nodup.
  - rewrite Hk, Hcnt. apply Hs.
  - intros j. rewrite Hr, Hk. case_decide; [by intros ?%is_Some_None | apply Hs].
Qed.

(** An operation that changes the services but neither their identifiers nor
    the sockets. *)
Lemma sockets_same d d' :
  sd_sockets d -> socketToIdx d' = socketToIdx d -> idxToSocket d' = idxToSocket d ->
  servicesCount d' = servicesCount d ->
  (forall idx, is_Some (registered d' idx) <-> is_Some (registered d idx)) -> sd_sockets d'.
Proof.
  intros Hs H1 H2 H3 Hr. split.
  - intros socket idx. rewrite H1, H2, Hr. apply Hs.
  - rewrite H1. apply Hs.
  - rewrite H2, H3. apply Hs.
  - intros idx. rewrite H2, Hr. apply Hs.
Qed.

Lemma ready_inv d idx : sd_inv d -> sd_inv (snd (serviceReady idx d)).
Proof.
  intros [Hd Hs]. unfold serviceReady.
  destruct (pendingServices d !! idx) as [i|] eqn:Hi; [|done]. cbn [snd].
  set (d' := mkServiceDirectory _ _ _ _ _ _ _).
  pose proof (core_disjoint d Hd) as Hdis.
  assert (Hr : forall j, registered d' j = registered d j).
  { intros j. unfold registered. cbn [d' connectedServices pendingServices].
    destruct (decide (j = idx)) as [->|].
    - rewrite lookup_insert_eq. by rewrite (map_disjoint_Some_r _ _ _ _ Hdis Hi).
    - by rewrite lookup_insert_ne, lookup_delete_ne by done. }
  split; [split|].
  - apply Hd.
  - cbn [d' connectedServices pendingServices].
    apply map_disjoint_insert_l_2; [apply lookup_delete_eq | by apply map_disjoint_delete_r].
  - intros j k. rewrite Hr. apply Hd.
  - intros n j. rewrite Hr. apply Hd.
  - unfold announced. cbn [d' emitted connectedServices]. rewrite foldl_app. cbn [foldl announce].
    fold (announced d). by rewrite (core_announced d Hd), fmap_insert.
  - eapply sockets_same; [exact Hs | done | done | done|]. intros j. by rewrite Hr.
Qed.

(** *** [registerService] *)

(** The directory after a registration under a new name. *)
Definition register_new socket svcinfo (d : ServiceDirectory) : ServiceDirectory :=
  let idx := servicesCount d + 1 in
  mkServiceDirectory
    (<[idx := setServiceId idx svcinfo]> (pendingServices d))
    (connectedServices d)
    (<[name svcinfo := idx]> (nameToIdx d))
    (if idx =? Service_ServiceDirectory then socketToIdx d
     else <[socket := default [] (socketToIdx d !! socket) ++ [idx]]> (socketToIdx d))
    (<[idx := socket]> (idxToSocket d))
    idx
    (emitted d).

Lemma registerService_new d socket i :
  sd_core d -> servicesCount d < 2 ^ 32 - 1 -> nameToIdx d !! name i = None ->
  registerService (Some socket) i d = (Ok (servicesCount d + 1), register_new socket i d).
Proof.
  intros Hd Hcnt Hn. unfold registerService. rewrite Hn.
  pose proof (core_count d Hd). by rewrite wrap_small by lia.
Qed.

Lemma fresh_identifier d : sd_inv d ->
  registered d (servicesCount d + 1) = None /\ idxToSocket d !! (servicesCount d + 1) = None
  /\ connectedServices d !! (servicesCount d + 1) = None
  /\ (forall socket l, socketToIdx d !! socket = Some l -> servicesCount d + 1 ∉ l).
Proof.
  intros [Hd Hs].
  assert (Hr : registered d (servicesCount d + 1) = None).
  { destruct (registered d (servicesCount d + 1)) eqn:E; [|done]. apply (core_ids d Hd) in E. lia. }
  assert (Hk : idxToSocket d !! (servicesCount d + 1) = None).
  { destruct (idxToSocket d !! (servicesCount d + 1)) eqn:E; [|done].
    apply (sockets_known d Hs) in E. lia. }
  split_and!; try done.
  - unfold registered in Hr. by destruct (connectedServices d !! (servicesCount d + 1)).
  - intros socket l Hl Hin.
    destruct (proj1 (sockets_registered d Hs socket (servicesCount d + 1))) as (_ & H1 & _);
      [eauto | congruence].
Qed.

Lemma registered_new d socket i j :
  sd_inv d ->
  registered (register_new socket i d) j
  = if decide (j = servicesCount d + 1) then Some (setServiceId (servicesCount d + 1) i)
    else registered d j.
Proof.
  intros Hd. destruct (fresh_identifier d Hd) as (_ & _ & Hc & _).
  unfold registered. cbn [register_new connectedServices pendingServices]. case_decide as Hj.
  - subst j. by rewrite Hc, lookup_insert_eq.
  - by rewrite lookup_insert_ne by done.
Qed.

Lemma register_core d socket i :
  sd_inv d -> servicesCount d < 2 ^ 32 - 1 -> nameToIdx d !! name i = None ->
  sd_core (register_new socket i d).
Proof.
  intros Hinv Hcnt Hn. pose proof Hinv as [Hd _]. pose proof (core_count d Hd).
  destruct (fresh_identifier d Hinv) as (Hfresh & _ & Hc & _). split.
  - cbn [register_new servicesCount]. lia.
  - cbn [register_new connectedServices pendingServices].
    apply map_disjoint_insert_r_2; [done | apply Hd].
  - intros j k. rewrite registered_new by done. cbn [register_new servicesCount].
    case_decide as Hj.
    + intros [= <-]. split; [done | lia].
    + intros Hk%(core_ids d Hd). split; [apply Hk | lia].
  - intros n j. rewrite registered_new by done. cbn [register_new nameToIdx].
    rewrite lookup_insert_Some, (core_names d Hd). case_decide as Hj.
    + subst j. split; [|intros (k & [= <-] & <-); by left].
      intros [[<- _] | (_ & k & Hk & _)]; [by eexists | congruence].
    + split; [intros [[_ ?] | [_ H']]; [congruence | exact H']|].
      intros (k & Hk & <-). right. split; [|eauto]. intros Heq.
      rewrite Heq, (core_name d j k Hd Hk) in Hn. discriminate.
  - exact (core_announced d Hd).
Qed.

(** The services behind a socket after a registration. *)
Lemma sockets_new d socket i s j :
  sd_inv d -> servicesCount d + 1 <> Service_ServiceDirectory ->
  (exists l, socketToIdx (register_new socket i d) !! s = Some l /\ j ∈ l) <->
  (s = socket /\ j = servicesCount d + 1) \/ (exists l, socketToIdx d !! s = Some l /\ j ∈ l).
Proof.
  intros Hinv H1. cbn [register_new socketToIdx]. rewrite (proj2 (Z.eqb_neq _ _)) by done.
  destruct (decide (s = socket)) as [->|Hne].
  2: { rewrite lookup_insert_ne by done. split; [by right | by intros [[? _] | ?]]. }
  rewrite lookup_insert_eq. split.
  - intros (l & [= <-] & [Hin | ->%list_elem_of_singleton]%elem_of_app); [right | by left].
    destruct (socketToIdx d !! socket) as [l|]; cbn in Hin; [eauto | by apply not_elem_of_nil in Hin].
  - intros [[_ ->] | (l & -> & Hin)]; (eexists; split; [done|]); apply elem_of_app;
      [right; by constructor | by left].
Qed.

Lemma register_sockets d socket i :
  sd_inv d -> servicesCount d < 2 ^ 32 - 1 -> sd_sockets (register_new socket i d).
Proof.
  intros Hinv Hcnt. pose proof Hinv as [Hd Hs]. pose proof (core_count d Hd).
  destruct (fresh_identifier d Hinv) as (Hfresh & Hk & _ & Hnew). split.
  - intros s j. rewrite registered_new by done.
    assert (Hold : (exists l, socketToIdx d !! s = Some l /\ j ∈ l) <->
      j <> Service_ServiceDirectory /\ idxToSocket d !! j = Some s /\ is_Some (registered d j))
      by apply Hs.
    destruct (Z.eq_dec (servicesCount d + 1) Service_ServiceDirectory) as [H1|H1].
    + cbn [register_new socketToIdx idxToSocket]. rewrite H1, Z.eqb_refl, Hold in *.
      case_decide as Hj; [subst j; by split; intros [? _] | by rewrite lookup_insert_ne].
    + rewrite sockets_new, Hold by done. cbn [register_new idxToSocket]. case_decide as Hj.
      * subst j. rewrite lookup_insert_eq, Hk, Hfresh. split.
        { intros [[-> _] | (_ & ? & _)]; [by split_and!; [done | done | eexists] | done]. }
        intros (_ & [= ->] & _). by left.
      * rewrite lookup_insert_ne by done. split; [by intros [[_ ?] | ?] | by right].
  - intros s l. cbn [register_new socketToIdx].
    destruct (_ =? Service_ServiceDirectory); [apply Hs|].
    rewrite lookup_insert_Some. intros [[<- <-] | [_ H1]]; [|by eapply Hs].
    apply NoDup_app. split_and!; [| |apply NoDup_singleton].
    + destruct (socketToIdx d !! socket) eqn:E; cbn; [by eapply Hs | constructor].
    + intros x Hx ->%list_elem_of_singleton. destruct (socketToIdx d !! socket) as [l|] eqn:E;
        cbn in Hx; [by apply Hnew in E | by apply not_elem_of_nil in Hx].
  - intros j s. cbn [register_new idxToSocket servicesCount]. rewrite lookup_insert_Some.
    intros [[<- _] | [_ H1%(sockets_known d Hs)]]; lia.
  - intros j. rewrite registered_new by done. cbn [register_new idxToSocket]. case_decide as Hj.
    + subst j. intros _ _. by rewrite lookup_insert_eq.
    + rewrite lookup_insert_ne by done. apply Hs.
Qed.

Lemma register_inv d socket i :
  sd_inv d -> servicesCount d < 2 ^ 32 - 1 ->
  sd_inv (snd (registerService (Some socket) i d)).
Proof.
  intros Hinv Hcnt. destruct (nameToIdx d !! name i) eqn:Hn.
  - unfold registerService. by rewrite Hn.
  - rewrite registerService_new by (done || apply Hinv).
    split; [by apply register_core | by apply register_sockets].
Qed.

(** *** [updateServiceInfo] *)

Definition key (i : ServiceInfo Uri) : bytes * Z := (name i, serviceId i).

(** Changing neither the names nor the identifiers keeps the invariant. *)
Lemma inv_same_keys d d' :
  sd_inv d -> nameToIdx d' = nameToIdx d -> socketToIdx d' = socketToIdx d ->
  idxToSocket d' = idxToSocket d -> servicesCount d' = servicesCount d ->
  emitted d' = emitted d -> key <$> connectedServices d' = key <$> connectedServices d ->
  key <$> pendingServices d' = key <$> pendingServices d -> sd_inv d'.
Proof.
  intros [Hd Hs] H1 H2 H3 H4 H5 Hc Hp.
  assert (Hr : forall j, key <$> registered d' j = key <$> registered d j).
  { intros j. unfold registered. pose proof (f_equal (lookup j) Hc) as Hcj.
    pose proof (f_equal (lookup j) Hp) as Hpj. rewrite !lookup_fmap in Hcj, Hpj.
    destruct (connectedServices d' !! j), (connectedServices d !! j); done. }
  assert (Hreg : forall j, is_Some (registered d' j) <-> is_Some (registered d j)).
  { intros j. by rewrite <- (fmap_is_Some key), Hr, fmap_is_Some. }
  split; [split|by eapply sockets_same].
  - rewrite H4. apply Hd.
  - apply (map_disjoint_fmap key key). rewrite Hc, Hp. apply map_disjoint_fmap, Hd.
  - intros j i Hi. specialize (Hr j). rewrite Hi in Hr. symmetry in Hr.
    apply fmap_Some in Hr as (k & Hk & [= _ ->]). rewrite H4. by apply (core_ids d Hd).
  - intros n j. rewrite H1, (core_names d Hd). specialize (Hr j).
    destruct (registered d' j) as [i'|], (registered d j) as [i|]; cbn in Hr; try done.
    injection Hr as Hn _. split; intros (k & [= <-] & <-); eauto.
  - unfold announced. rewrite H5. fold (announced d). rewrite (core_announced d Hd).
    assert (Hn : forall m : gmap Z (ServiceInfo Uri), name <$> m = fst <$> (key <$> m))
      by (intros m; by rewrite <- map_fmap_compose).
    by rewrite !Hn, Hc.
Qed.

(** Replacing a service by one with the same key. *)
Lemma fmap_insert_same (m : gmap Z (ServiceInfo Uri)) j i i' :
  m !! j = Some i -> key i' = key i -> key <$> <[j := i']> m = key <$> m.
Proof.
  intros Hm Hk. rewrite fmap_insert, Hk. apply insert_id. by rewrite lookup_fmap, Hm.
Qed.

Lemma update_inv d i :
  sd_inv d -> regular (CallUpdate i) d -> sd_inv (snd (updateServiceInfo i d)).
Proof.
  intros Hinv Hreg. pose proof Hinv as [Hd _]. unfold updateServiceInfo. cbv zeta.
  set (update := fun j => _). set (d1 := set_connected (update <$> connectedServices d) d).
  assert (Hu : forall j, key (update j) = key j) by (intros j; unfold update; by case_decide).
  assert (Hc1 : key <$> connectedServices d1 = key <$> connectedServices d).
  { cbn. rewrite <- map_fmap_compose. apply map_fmap_ext. intros k x _. apply Hu. }
  assert (H1 : sd_inv d1) by (by apply (inv_same_keys d)).
  destruct (connectedServices d1 !! serviceId i) as [j|] eqn:Hj.
  - eapply (inv_same_keys d1); try done. cbn [snd set_connected connectedServices].
    apply (fmap_insert_same _ _ j); [exact Hj|].
    cbn in Hj. rewrite lookup_fmap in Hj. apply fmap_Some in Hj as (k & Hk & ->). rewrite Hu.
    assert (Hrk : registered d (serviceId i) = Some k) by (unfold registered; by rewrite Hk).
    unfold key. by rewrite (Hreg k Hrk), (proj1 (core_ids d Hd _ _ Hrk)).
  - destruct (pendingServices d1 !! serviceId i) as [j|] eqn:Hp; [|done].
    eapply (inv_same_keys d1); try done. cbn [snd set_pending pendingServices].
    apply (fmap_insert_same _ _ j); [exact Hp|].
    cbn in Hj, Hp. rewrite lookup_fmap in Hj. apply fmap_None in Hj.
    assert (Hrk : registered d (serviceId i) = Some j) by (unfold registered; by rewrite Hj).
    unfold key. by rewrite (Hreg j Hrk), (proj1 (core_ids d Hd _ _ Hrk)).
Qed.

(** *** [removeClientSocket] *)

(** The loop removes the services, whatever the tables of the sockets. *)
Lemma unregister_all_spec ids : forall d,
  sd_core d -> NoDup ids -> Forall (fun idx => is_Some (registered d idx)) ids ->
  let d' := unregister_all ids d in
  sd_core d' /\ (forall j, registered d' j = if decide (j ∈ ids) then None else registered d j)
  /\ socketToIdx d' = (fun l => foldl (fun l idx => erase_first idx l) l ids) <$> socketToIdx d
  /\ idxToSocket d' = idxToSocket d /\ servicesCount d' = servicesCount d
  /\ emitted d' = emitted d
       ++ map (fun idx => serviceRemoved idx (from_option name [] (registered d idx))) ids.
Proof.
  induction ids as [|idx ids IH]; intros d Hd Hnd Hall; cbn [unregister_all foldl map].
  { rewrite app_nil_r, map_fmap_id. split_and!; done. }
  apply NoDup_cons in Hnd as [Hni Hnd]. apply Forall_cons in Hall as [[i Hi] Hall].
  destruct (unregister_registered d idx i Hd Hi) as (d1 & -> & Hd1 & Hr1 & Hs1 & Hk1 & Hc1 & He1).
  cbn [snd]. fold (unregister_all ids d1).
  assert (Hne : forall j, j ∈ ids -> registered d1 j = registered d j).
  { intros j Hj. rewrite Hr1, decide_False; [done|]. by intros ->. }
  destruct (IH d1 Hd1 Hnd) as (Hd' & Hr' & Hs' & Hk' & Hc' & He').
  { apply Forall_forall. intros j Hj. rewrite Hne by done. rewrite Forall_forall in Hall. auto. }
  split_and!; [done | | | congruence | congruence |].
  - intros j. rewrite Hr', Hr1. destruct (decide (j = idx)) as [->|Hj].
    + rewrite (decide_True (P := idx ∈ idx :: ids)) by constructor. by case_decide.
    + case_decide as H1; [by rewrite decide_True by (by right)|].
      rewrite decide_False; [done|]. by intros [?|?]%elem_of_cons.
  - rewrite Hs', Hs1, <- map_fmap_compose. done.
  - rewrite He', He1, Hi, <- app_assoc. cbn [app from_option]. do 2 f_equal.
    apply map_ext_in. intros j Hj%list_elem_of_In. by rewrite Hne.
Qed.

Definition erase_all (ids l : list Z) : list Z := foldl (fun l idx => erase_first idx l) l ids.

Lemma erase_all_spec ids : forall l, NoDup l ->
  NoDup (erase_all ids l) /\ forall x, x ∈ erase_all ids l <-> x ∈ l /\ x ∉ ids.
Proof.
  unfold erase_all. induction ids as [|idx ids IH]; intros l Hl; cbn [foldl].
  { split; [done|]. intros x. split; [intros ?; split; [done | apply not_elem_of_nil] | by intros []]. }
  destruct (IH _ (erase_first_nodup idx l Hl)) as [H1 H2]. split; [done|].
  intros x. rewrite H2, erase_first_elem by done. rewrite not_elem_of_cons. tauto.
Qed.

(** The services behind a socket. *)
Definition services_of (d : ServiceDirectory) socket : list Z := default [] (socketToIdx d !! socket).

Lemma services_of_spec d socket idx :
  sd_inv d ->
  idx ∈ services_of d socket <->
  idx <> Service_ServiceDirectory /\ idxToSocket d !! idx = Some socket
  /\ is_Some (registered d idx).
Proof.
  intros [_ Hs]. rewrite <- (sockets_registered d Hs). unfold services_of.
  destruct (socketToIdx d !! socket) as [l|]; cbn [default from_option id].
  - split; [eauto | by intros (? & [= <-] & ?)].
  - split; [by intros ?%not_elem_of_nil | by intros (? & ? & _)].
Qed.

Lemma disconnect_spec d socket :
  sd_inv d ->
  let ids := services_of d socket in
  let d' := removeClientSocket socket d in
  sd_core d' /\ (forall j, registered d' j = if decide (j ∈ ids) then None else registered d j)
  /\ socketToIdx d' = delete socket (erase_all ids <$> socketToIdx d)
  /\ idxToSocket d' = filter (fun p => snd p <> socket) (idxToSocket d)
  /\ servicesCount d' = servicesCount d
  /\ emitted d' = emitted d
       ++ map (fun idx => serviceRemoved idx (from_option name [] (registered d idx))) ids.
Proof.
  intros Hinv ids d'. pose proof Hinv as [Hd Hs]. subst d'. unfold removeClientSocket.
  set (d1 := mkServiceDirectory _ _ _ _ _ _ _).
  assert (Hd1 : sd_core d1) by (destruct Hd; by split).
  change (socketToIdx d1) with (socketToIdx d). subst ids. unfold services_of.
  destruct (socketToIdx d !! socket) as [ids|] eqn:Hids; cbn [default from_option id].
  - assert (Hall : Forall (fun idx => is_Some (registered d1 idx)) ids).
    { apply Forall_forall. intros j Hj. apply (sockets_registered d Hs socket j). eauto. }
    destruct (unregister_all_spec ids d1 Hd1 (sockets_nodup d Hs _ _ Hids) Hall)
      as (Hd' & Hr & Hsk & Hk & Hc & He).
    set (d2 := unregister_all ids d1) in *.
    split; [destruct Hd'; by split|]. split; [exact Hr|].
    cbn [socketToIdx idxToSocket servicesCount emitted]. by rewrite Hsk, Hk, Hc, He.
  - split_and!; try done.
    + rewrite delete_id; [|by rewrite lookup_fmap, Hids].
      cbn [d1 socketToIdx]. symmetry. apply map_fmap_id.
    + cbn [map]. by rewrite app_nil_r.
Qed.

Lemma disconnect_inv d socket : sd_inv d -> sd_inv (removeClientSocket socket d).
Proof.
  intros Hinv. pose proof Hinv as [Hd Hs].
  destruct (disconnect_spec d socket Hinv) as (Hd' & Hr & Hsk & Hk & Hc & _).
  pose proof (services_of_spec d socket) as Hids.
  set (ids := services_of d socket) in *. split; [done|]. split.
  - intros s j. rewrite Hsk, Hk, Hr, map_lookup_filter_Some. cbn [snd]. split.
    + intros (l & [Hne (l0 & <- & Hl0)%lookup_fmap_Some]%lookup_delete_Some & Hj).
      apply erase_all_spec in Hj as [Hj Hni]; [|by eapply sockets_nodup].
      rewrite decide_False by done.
      destruct (proj1 (sockets_registered d Hs s j)) as (H1 & H2 & H3); [eauto|].
      split_and!; done.
    + intros (H1 & [H2 Hne] & H3). case_decide as Hni; [by apply is_Some_None in H3|].
      destruct (proj2 (sockets_registered d Hs s j)) as (l & Hl & Hj); [done|].
      exists (erase_all ids l). split.
      * apply lookup_delete_Some. split; [done|]. apply lookup_fmap_Some. eauto.
      * apply erase_all_spec; [by eapply sockets_nodup | done].
  - intros s l. rewrite Hsk. intros [_ (l0 & <- & Hl0)%lookup_fmap_Some]%lookup_delete_Some.
    apply erase_all_spec. by eapply sockets_nodup.
  - intros j s. rewrite Hk, Hc, map_lookup_filter_Some. intros [H1 _]. by apply (sockets_known d Hs) in H1.
  - intros j. rewrite Hr, Hk. case_decide as Hj; [by intros ?%is_Some_None|]. intros H1 H2.
    destruct (sockets_all d Hs j H1 H2) as [s Hsj]. exists s. apply map_lookup_filter_Some.
    split; [done|]. cbn. intros ->. apply Hj, Hids; done.
Qed.

Lemma inv_new : sd_inv ServiceDirectory_new.
Proof.
  assert (Hr : forall idx, registered (Uri := Uri) ServiceDirectory_new idx = None) by done.
  split; split; try done.
  - intros n idx. rewrite Hr. cbn. rewrite lookup_empty. split; [done | by intros (? & ? & _)].
  - intros s idx. rewrite Hr. cbn. rewrite lookup_empty.
    split; [by intros (? & ? & _) | by intros (_ & ? & _)].
  - intros idx [i Hi]. by rewrite Hr in Hi.
Qed.

#[local] Hint Resolve inv_new register_inv unregister_inv ready_inv update_inv disconnect_inv : qi.

Lemma reachable_inv d : sd_reachable d -> sd_inv d.
Proof.
  induction 1 as [|d c _ IH Hreg]; [|destruct c; cbn [sd_run1 regular] in *]; auto with qi.
Qed.

(** *** Services that have been renamed *)

(** The calls that can remove a service. *)
Definition cleanup (c : @sd_call Uri) : bool :=
  match c with CallUnregister _ | CallDisconnect _ => true | _ => false end.

Definition sd_run (cs : list (@sd_call Uri)) (d : ServiceDirectory) : ServiceDirectory :=
  foldl (fun d c => sd_run1 c d) d cs.

(** A service that is registered under a name that is not in the table. *)
Definition nameless (d : ServiceDirectory) idx i : Prop :=
  registered d idx = Some i /\ nameToIdx d !! name i = None.

Lemma nameless_stuck d idx i :
  nameless d idx i -> unregisterService idx d = (Err MappingError, d).
Proof.
  intros [Hi Hn]. unfold unregisterService, registered in *.
  destruct (connectedServices d !! idx) as [k|].
  - injection Hi as ->. by rewrite Hn.
  - rewrite Hi. cbn [fmap option_fmap option_map]. by rewrite Hn.
Qed.

Lemma nameless_unregister d idx i j :
  nameless d idx i -> nameless (snd (unregisterService j d)) idx i.
Proof.
  intros Hidx. destruct (decide (j = idx)) as [->|Hne]; [by rewrite (nameless_stuck _ _ _ Hidx)|].
  destruct Hidx as [Hi Hn]. unfold unregisterService.
  destruct (match connectedServices d !! j with Some _ => _ | None => _ end) as [[p k]|]; [|done].
  destruct (nameToIdx d !! name k); [|done]. cbn [snd]. split.
  - rewrite <- Hi. unfold registered. destruct p; cbn; by rewrite ?lookup_delete_ne.
  - cbn. by apply lookup_delete_None; right.
Qed.

Lemma nameless_unregister_all d idx i ids :
  nameless d idx i -> nameless (unregister_all ids d) idx i.
Proof.
  revert d. induction ids as [|j ids IH]; intros d Hd; [done|]. by apply IH, nameless_unregister.
Qed.

Lemma nameless_cleanup c d idx i :
  cleanup c = true -> nameless d idx i -> nameless (sd_run1 c d) idx i.
Proof.
  destruct c as [| j | | | socket]; try done; intros _ Hd; cbn [sd_run1].
  - by apply nameless_unregister.
  - unfold removeClientSocket. set (d1 := mkServiceDirectory _ _ _ _ _ _ _).
    assert (Hd1 : nameless d1 idx i) by done. destruct (socketToIdx d1 !! socket); [|done].
    exact (nameless_unregister_all d1 idx i _ Hd1).
Qed.
End directory.

(** ** Properties *)

(** The directory itself, then a client with a service that is ready and one
    that is not. *)
Definition sample_info (n session : bytes) : ServiceInfo bytes :=
  mkServiceInfo n 0 (lit "machine") 42 [lit "tcp://127.0.0.1:9559"] session [].
Definition sample_calls : list (@sd_call bytes) :=
  [CallRegister 0 (sample_info (lit "ServiceDirectory") (lit "0")); CallReady 1;
   CallRegister 7 (sample_info (lit "a") (lit "s")); CallReady 2;
   CallRegister 7 (sample_info (lit "b") (lit "s"))].
Definition sample_directory : ServiceDirectory := sd_run sample_calls ServiceDirectory_new.

Lemma sample_reachable : sd_reachable sample_directory.
Proof.
  unfold sample_directory, sd_run, sample_calls. cbn [foldl].
  repeat (apply sd_reachable_step; [| by vm_compute]). constructor.
Qed.



(** When a client disconnects, its services, and nothing else, are gone:
    the services behind its socket are removed whether they were ready or not,
    their names are free again, each of them is announced once, and no service
    is found behind the socket. The first service, the directory itself, is
    behind no socket. *)
Theorem sd_disconnect {Uri} (d : @ServiceDirectory Uri) socket (Hreach : sd_reachable d) :
  let d' := removeClientSocket socket d in
  let gone idx := idx <> Service_ServiceDirectory /\ idxToSocket d !! idx = Some socket
                  /\ is_Some (registered d idx) in
  (forall idx, gone idx -> registered d' idx = None)
  /\ (forall idx, ~ gone idx -> registered d' idx = registered d idx)
  /\ (forall idx i, gone idx -> registered d idx = Some i -> nameToIdx d' !! name i = None)
  /\ (exists ids, NoDup ids /\ (forall idx, idx ∈ ids <-> gone idx)
       /\ emitted d' = emitted d
            ++ map (fun idx => serviceRemoved idx (from_option name [] (registered d idx))) ids)
  /\ (socket <> 0 -> forall idx, _socketOfService idx d' <> socket).
Proof.
  pose proof (reachable_inv d Hreach) as Hinv. intros d' gone.
  destruct (disconnect_spec d socket Hinv) as (Hd' & Hr & Hsk & Hk & Hc & He).
  fold d' in Hd', Hr, Hsk, Hk, Hc, He.
  assert (Hids : forall idx, idx ∈ services_of d socket <-> gone idx)
    by (intros idx; by apply services_of_spec).
  assert (Hgone : forall idx, gone idx -> registered d' idx = None).
  { intros idx H%Hids. by rewrite Hr, decide_True. }
  split_and!.
  - exact Hgone.
  - intros idx H. rewrite Hr, decide_False; [done|]. by rewrite Hids.
  - intros idx i H Hi. destruct (nameToIdx d' !! name i) as [j|] eqn:Hn; [|done].
    apply (core_names d' Hd') in Hn as (k & Hk' & Hn). exfalso.
    assert (Hjk : registered d j = Some k) by (rewrite Hr in Hk'; by case_decide).
    rewrite (core_name_unique d j idx k i (proj1 Hinv) Hjk Hi Hn), Hgone in Hk' by done. done.
  - exists (services_of d socket). split_and!; [|exact Hids | exact He].
    unfold services_of. destruct (socketToIdx d !! socket) eqn:E; [|constructor].
    by apply (sockets_nodup d (proj2 Hinv) socket).
  - intros Hz idx. unfold _socketOfService. rewrite Hk.
    destruct (filter _ (idxToSocket d) !! idx) as [s|] eqn:E; cbn; [|done].
    by apply map_lookup_filter_Some in E as [_ E].
Qed.

Lemma sd_disconnect_witness :
  registered sample_directory 3 = Some (setServiceId 3 (sample_info (lit "b") (lit "s")))
  /\ registered (removeClientSocket 7 sample_directory) 3 = None.
Proof.
  split; [by vm_compute|]. apply (proj1 (sd_disconnect sample_directory 7 sample_reachable)).
  split_and!; [done | by vm_compute | by vm_compute; eexists].
Defined.

(** The life of a service: under a free name the registration gives a
    fresh identifier and the service cannot be found yet; [serviceReady] makes
    it findable by its name and announces it; [unregisterService] removes it,
    announces it and frees its name. A taken name is refused without any
    change. *)
Theorem sd_lifecycle {Uri} (d : @ServiceDirectory Uri) socket i
    (Hreach : sd_reachable d) (Hcount : servicesCount d < 2 ^ 32 - 1) :
  match nameToIdx d !! name i with
  | Some idx => registerService (Some socket) i d = (Err (AlreadyRegistered idx), d)
  | None =>
      exists idx d1 d2 d3,
        registerService (Some socket) i d = (Ok idx, d1) /\ registered d idx = None
        /\ service (name i) d1 = Err CannotFindService /\ emitted d1 = emitted d
        /\ serviceReady idx d1 = (Ok (), d2)
        /\ service (name i) d2 = Ok (setServiceId idx i)
        /\ emitted d2 = emitted d ++ [serviceAdded idx (name i)]
        /\ unregisterService idx d2 = (Ok (), d3)
        /\ nameToIdx d3 !! name i = None /\ (forall j, registered d3 j = registered d j)
        /\ emitted d3 = emitted d ++ [serviceAdded idx (name i); serviceRemoved idx (name i)]
  end.
Proof.
  pose proof (reachable_inv d Hreach) as Hinv. pose proof Hinv as [Hd Hs].
  destruct (nameToIdx d !! name i) as [idx|] eqn:Hn; [unfold registerService; by rewrite Hn|].
  set (idx := servicesCount d + 1). set (d1 := register_new socket i d).
  destruct (fresh_identifier d Hinv) as (Hfresh & _ & Hc & _). fold idx in Hfresh, Hc.
  assert (H1 : sd_inv d1) by (split; [by apply register_core | by apply register_sockets]).
  pose proof (ready_inv d1 idx H1) as H2. unfold serviceReady in H2.
  assert (Hp : pendingServices d1 !! idx = Some (setServiceId idx i)) by apply lookup_insert_eq.
  rewrite Hp in H2. cbn [snd] in H2. set (d2 := mkServiceDirectory _ _ _ _ _ _ _) in H2.
  assert (Hr1 : forall j, registered d1 j
            = if decide (j = idx) then Some (setServiceId idx i) else registered d j)
    by (intros j; by apply registered_new).
  assert (Hc2 : connectedServices d2 !! idx = Some (setServiceId idx i)) by apply lookup_insert_eq.
  assert (Hr2 : forall j, registered d2 j = registered d1 j).
  { intros j. unfold registered. cbn [d2 connectedServices pendingServices].
    destruct (decide (j = idx)) as [->|].
    - rewrite lookup_insert_eq. change (connectedServices d1) with (connectedServices d).
      by rewrite Hc, Hp.
    - by rewrite lookup_insert_ne, lookup_delete_ne by done. }
  destruct (unregister_registered d2 idx (setServiceId idx i) (proj1 H2))
    as (d3 & Hun & Hd3 & Hr3 & _ & _ & _ & He3).
  { unfold registered. by rewrite Hc2. }
  exists idx, d1, d2, d3. assert (Hname : nameToIdx d1 !! name i = Some idx) by apply lookup_insert_eq.
  split_and!; try done.
  - by apply registerService_new.
  - unfold service. rewrite Hname. change (connectedServices d1) with (connectedServices d).
    by rewrite Hc.
  - unfold serviceReady. by rewrite Hp.
  - unfold service. change (nameToIdx d2) with (nameToIdx d1). by rewrite Hname, Hc2.
  - destruct (nameToIdx d3 !! name i) as [j|] eqn:E; [|done].
    apply (core_names d3 Hd3) in E as (k & Hk & Hkn). rewrite Hr3, Hr2, Hr1 in Hk.
    case_decide; [done|]. apply (core_name d j k Hd) in Hk. congruence.
  - intros j. rewrite Hr3, Hr2, Hr1. case_decide as Hj; [by subst j | done].
  - rewrite He3. change (emitted d2) with (emitted d1 ++ [serviceAdded idx (name (setServiceId idx i))]).
    by rewrite <- app_assoc.
Qed.

Lemma sd_lifecycle_witness :
  registerService (Some 8) (sample_info (lit "a") (lit "t")) sample_directory
  = (Err (AlreadyRegistered 2), sample_directory).
Proof.
  assert (Hn : nameToIdx sample_directory !! name (sample_info (lit "a") (lit "t")) = Some 2)
    by by vm_compute.
  pose proof (sd_lifecycle sample_directory 8 (sample_info (lit "a") (lit "t")) sample_reachable) as H.
  rewrite Hn in H. apply H. vm_compute. reflexivity.
Defined.

(** Renaming loses a service: [updateServiceInfo] accepts, for a connected
    service, an information with a new name, and leaves the table of the names
    as it is; from then on no call removes the service, neither
    [unregisterService], which throws, nor the disconnection of its client,
    although its socket is forgotten. *)
Theorem sd_renamed_service_stuck {Uri} (d : @ServiceDirectory Uri) idx i i'
    (Hconnected : connectedServices d !! idx = Some i) (Hid : serviceId i' = idx)
    (Hname : nameToIdx d !! name i' = None) :
  exists d', updateServiceInfo i' d = (Ok (), d') /\ nameToIdx d' = nameToIdx d
    /\ unregisterService idx d' = (Err MappingError, d')
    /\ forall cs, Forall (fun c => cleanup c = true) cs -> registered (sd_run cs d') idx = Some i'.
Proof.
  unfold updateServiceInfo. cbv zeta. set (update := fun j : ServiceInfo Uri => _).
  cbn [connectedServices set_connected].
  rewrite lookup_fmap, Hid, Hconnected. cbn [fmap option_fmap option_map].
  eexists. split; [done|]. split; [done|]. set (d' := set_connected _ _).
  assert (Hd' : nameless d' idx i').
  { split; [|exact Hname]. unfold registered. cbn [d' set_connected connectedServices].
    by rewrite lookup_insert_eq. }
  split; [by eapply nameless_stuck|].
  intros cs Hcs. enough (H : nameless (sd_run cs d') idx i') by apply H.
  unfold sd_run. clearbody d'. revert d' Hd'.
  induction Hcs as [|c cs Hc _ IH]; intros d' Hd'; [done|].
  cbn [foldl]. by apply IH, nameless_cleanup.
Qed.

Lemma sd_renamed_service_stuck_witness :
  let i' := setServiceId 2 (sample_info (lit "c") (lit "s")) in
  exists d', updateServiceInfo i' sample_directory = (Ok (), d')
    /\ nameToIdx d' = nameToIdx sample_directory
    /\ unregisterService 2 d' = (Err MappingError, d')
    /\ forall cs, Forall (fun c => cleanup c = true) cs -> registered (sd_run cs d') 2 = Some i'.
Proof.
  apply (sd_renamed_service_stuck sample_directory 2
    (setServiceId 2 (sample_info (lit "a") (lit "s"))) _);
    by vm_compute.
Defined.
