(* ===== verification/Strand.v ===== *)
(** * Strand: sequential execution of tasks

    Model of [StrandPrivate] in [src/strand.cpp] and [qi/strand.hpp]. The strand
    is a transition system whose steps are the sections under its mutex, the
    executions of the callbacks, the completions of the promises and the choices
    of the executor; the steps of any number of threads interleave freely. A
    callback that is asked to the executor ([_executor.async], [asyncDelay]) is
    recorded when it is asked, and runs at any later step. *)
From S2P Require Import Prelude CString Bytes.
Open Scope Z_scope.

(** The outcomes of a [Promise<void>]. *)
Inductive FutureState :=
  | FutureState_Running
  | FutureState_FinishedWithValue
  | FutureState_FinishedWithError
  | FutureState_Canceled.

#[export] Instance FutureState_eq_dec : EqDecision FutureState.
Proof. solve_decision. Defined.

Module State.
Inductive State := None | Scheduled | Running | Canceled.
End State.

#[export] Instance State_eq_dec : EqDecision State.State.
Proof. solve_decision. Defined.

(** [StrandPrivate::Callback]. A callback is known by its rank among the
    callbacks that were created; its [id] is that number on 32 bits. *)
Record Callback := mkCallback {
  state : State.State;
  promise : FutureState;
  onCancel : bool;                  (* the future can still call [cancel] *)
  asyncFuture : bool;               (* [asyncFuture.isValid()] *)
  NeverSkipExecution : bool;
}.

Definition callback_id (h : Z) : Z := wrap 32 h.

(** Where a call of [process] is. *)
Inductive process_pc :=
  | AtLock                          (* about to lock the mutex and pop *)
  | Executing (h : Z)
  | AtTest                          (* about to read the clock *)
  | AtStop.                         (* about to call [stopProcess] *)

Record StrandPrivate := mkStrand {
  callbacks : gmap Z Callback;
  _curId : Z;                       (* the number of callbacks created *)
  _aliveCount : Z;
  _processing : bool;
  _dying : bool;
  joined : bool;
  _queue : list Z;
  _deferredTasksFutures : option (gset Z);
  timers : gset Z;                  (* delayed calls of [enqueue] *)
  scheduled : nat;                  (* calls of [process] asked to the executor *)
  processes : list process_pc;      (* calls of [process] that run *)
  joining : nat;                    (* calls of [join] that wait *)
  enqueued : list Z;                (* the history of the pushes *)
  executed : list Z;                (* the history of the executions *)
}.

Definition StrandPrivate_new : StrandPrivate :=
  mkStrand ∅ 0 0 false false false [] (Some ∅) ∅ 0 [] 0 [] [].

Definition set_callbacks (m : gmap Z Callback) (s : StrandPrivate) : StrandPrivate :=
  mkStrand m (_curId s) (_aliveCount s) (_processing s) (_dying s) (joined s) (_queue s)
    (_deferredTasksFutures s) (timers s) (scheduled s) (processes s) (joining s)
    (enqueued s) (executed s).
Definition set_alive (n : Z) (s : StrandPrivate) : StrandPrivate :=
  mkStrand (callbacks s) (_curId s) (wrap 32 n) (_processing s) (_dying s) (joined s) (_queue s)
    (_deferredTasksFutures s) (timers s) (scheduled s) (processes s) (joining s)
    (enqueued s) (executed s).
Definition set_queue (q : list Z) (s : StrandPrivate) : StrandPrivate :=
  mkStrand (callbacks s) (_curId s) (_aliveCount s) (_processing s) (_dying s) (joined s) q
    (_deferredTasksFutures s) (timers s) (scheduled s) (processes s) (joining s)
    (enqueued s) (executed s).
Definition set_deferred (g : option (gset Z)) (s : StrandPrivate) : StrandPrivate :=
  mkStrand (callbacks s) (_curId s) (_aliveCount s) (_processing s) (_dying s) (joined s) (_queue s)
    g (timers s) (scheduled s) (processes s) (joining s) (enqueued s) (executed s).
Definition set_timers (g : gset Z) (s : StrandPrivate) : StrandPrivate :=
  mkStrand (callbacks s) (_curId s) (_aliveCount s) (_processing s) (_dying s) (joined s) (_queue s)
    (_deferredTasksFutures s) g (scheduled s) (processes s) (joining s) (enqueued s) (executed s).
Definition set_process (processing : bool) (n : nat) (l : list process_pc) (s : StrandPrivate) :
    StrandPrivate :=
  mkStrand (callbacks s) (_curId s) (_aliveCount s) processing (_dying s) (joined s) (_queue s)
    (_deferredTasksFutures s) (timers s) n l (joining s) (enqueued s) (executed s).
Definition set_join (dying joined : bool) (n : nat) (s : StrandPrivate) : StrandPrivate :=
  mkStrand (callbacks s) (_curId s) (_aliveCount s) (_processing s) dying joined (_queue s)
    (_deferredTasksFutures s) (timers s) (scheduled s) (processes s) n (enqueued s) (executed s).
Definition log_enqueued (h : Z) (s : StrandPrivate) : StrandPrivate :=
  mkStrand (callbacks s) (_curId s) (_aliveCount s) (_processing s) (_dying s) (joined s) (_queue s)
    (_deferredTasksFutures s) (timers s) (scheduled s) (processes s) (joining s)
    (enqueued s ++ [h]) (executed s).
Definition log_executed (h : Z) (s : StrandPrivate) : StrandPrivate :=
  mkStrand (callbacks s) (_curId s) (_aliveCount s) (_processing s) (_dying s) (joined s) (_queue s)
    (_deferredTasksFutures s) (timers s) (scheduled s) (processes s) (joining s)
    (enqueued s) (executed s ++ [h]).

(** Changes of one callback. *)
Definition update_callback (f : Callback -> Callback) (h : Z) (s : StrandPrivate) : StrandPrivate :=
  set_callbacks (alter f h (callbacks s)) s.
Definition set_state (st : State.State) (c : Callback) : Callback :=
  mkCallback st (promise c) (onCancel c) (asyncFuture c) (NeverSkipExecution c).

(** Completing a promise that is not completed yet; the cancel callback is
    cleared. *)
Definition finish (p : FutureState) (c : Callback) : Callback :=
  if decide (promise c = FutureState_Running)
  then mkCallback (state c) p false (asyncFuture c) (NeverSkipExecution c) else c.

(** [trySetError], and [setError] under [safeInvoke]. *)
Definition trySetError (h : Z) (s : StrandPrivate) : StrandPrivate :=
  update_callback (finish FutureState_FinishedWithError) h s.

(** [createCallback]. *)
Definition createCallback (can deferred never : bool) (s : StrandPrivate) : Z * StrandPrivate :=
  let h := _curId s + 1 in
  let c := mkCallback State.None FutureState_Running can deferred never in
  (h, set_alive (_aliveCount s + 1)
        (mkStrand (<[h := c]> (callbacks s)) h (_aliveCount s) (_processing s) (_dying s) (joined s)
           (_queue s) (_deferredTasksFutures s) (timers s) (scheduled s) (processes s) (joining s)
           (enqueued s) (executed s))).

(** [enqueue]: [None] is a failed assertion. *)
Definition enqueue (h : Z) (s : StrandPrivate) : option StrandPrivate :=
  c ← callbacks s !! h;
  if _dying s then Some (trySetError h s)
  else
    let schedule s :=
      log_enqueued h (update_callback (set_state State.Scheduled) h (set_queue (_queue s ++ [h]) s)) in
    let finally s :=
      if _processing s then s
      else
        let s := set_process true (S (scheduled s)) (processes s) s in
        if asyncFuture c
        then set_deferred ((fun g => g ∖ {[h]}) <$> _deferredTasksFutures s) s else s in
    match state c with
    | State.None => Some (finally (schedule s))
    | State.Canceled => Some (if NeverSkipExecution c then finally (schedule s) else s)
    | _ => None
    end.

(** [deferImpl]. *)
Definition deferImpl (delay never : bool) (s : StrandPrivate) : option StrandPrivate :=
  if _dying s then Some s
  else
    let '(h, s) := createCallback true delay never s in
    if delay
    then Some (set_deferred ((fun g => {[h]} ∪ g) <$> _deferredTasksFutures s)
                 (set_timers ({[h]} ∪ timers s) s))
    else enqueue h s.

(** [Strand::postImpl]: no future is returned. *)
Definition postImpl (never : bool) (s : StrandPrivate) : option StrandPrivate :=
  let '(h, s) := createCallback false false never s in enqueue h s.

(** Erases from the queue the first callback with the id of [h]. *)
Fixpoint erase_id (h : Z) (q : list Z) : list Z :=
  match q with
  | [] => []
  | k :: q' => if callback_id k =? callback_id h then q' else k :: erase_id h q'
  end.

(** [cancel], called at most once by the future of the callback, and not after
    its completion. [stopped] tells whether the executor still could cancel the
    delayed call. *)
Definition cancel (h : Z) (stopped : bool) (s : StrandPrivate) : option StrandPrivate :=
  c ← callbacks s !! h;
  if negb (onCancel c) then Some s
  else
    let s := update_callback (fun c => mkCallback (state c) (promise c) false (asyncFuture c)
                                         (NeverSkipExecution c)) h s in
    if _dying s then Some (trySetError h s)
    else
      match state c with
      | State.None =>
          let s := if stopped then set_timers (timers s ∖ {[h]}) s else s in
          let s := update_callback (set_state State.Canceled) h s in
          Some (if NeverSkipExecution c then s
                else update_callback (finish FutureState_Canceled) h (set_alive (_aliveCount s - 1) s))
      | State.Scheduled =>
          Some (if NeverSkipExecution c then update_callback (set_state State.Canceled) h s
                else update_callback (finish FutureState_Canceled) h
                       (set_alive (_aliveCount s - 1) (set_queue (erase_id h (_queue s)) s)))
      | _ => Some s
      end.

(** One iteration of the loop of [process], up to the callback. *)
Definition process_pop (i : nat) (s : StrandPrivate) : option StrandPrivate :=
  let goto pc s := set_process (_processing s) (scheduled s) (<[i := pc]> (processes s)) s in
  if _dying s then Some (goto AtStop s)
  else
    match _queue s with
    | [] => Some (set_process false (scheduled s) (delete i (processes s)) s)
    | h :: q =>
        c ← callbacks s !! h;
        let s := set_queue q s in
        let run := match state c with
                   | State.Scheduled => true
                   | State.Canceled => NeverSkipExecution c
                   | _ => false
                   end in
        Some (if run
              then goto (Executing h)
                     (log_executed h (update_callback (set_state State.Running) h
                        (set_alive (_aliveCount s - 1) s)))
              else goto AtTest s)
    end.

(** The callback has returned or thrown. If its promise is completed already,
    [setValue] throws, then [setError] throws in the handler, and the exception
    leaves [process]. *)
Definition process_finish (i : nat) (h : Z) (threw : bool) (s : StrandPrivate) :
    option StrandPrivate :=
  c ← callbacks s !! h;
  let outcome := if threw then FutureState_FinishedWithError else FutureState_FinishedWithValue in
  if decide (promise c = FutureState_Running)
  then Some (set_process (_processing s) (scheduled s) (<[i := AtTest]> (processes s))
               (update_callback (finish outcome) h s))
  else Some (set_process (_processing s) (scheduled s) (delete i (processes s)) s).

(** [stopProcess] with [finished] false. *)
Definition stopProcess (i : nat) (s : StrandPrivate) : StrandPrivate :=
  if negb (_dying s)
  then set_process (_processing s) (S (scheduled s)) (delete i (processes s)) s
  else set_process false (scheduled s) (delete i (processes s)) s.

(** The promises of the callbacks of a list, those of [skip] excepted, are set
    in error. *)
Fixpoint fail_all (skip : Z -> bool) (l : list Z) (s : StrandPrivate) : StrandPrivate :=
  match l with
  | [] => s
  | h :: l' => fail_all skip l' (if skip h then s else trySetError h s)
  end.

Definition is_canceled (s : StrandPrivate) (h : Z) : bool :=
  match callbacks s !! h with
  | Some c => bool_decide (state c = State.Canceled)
  | None => true
  end.

(** [join] by a thread that is not executing a task, up to its wait. *)
Definition join (s : StrandPrivate) : StrandPrivate :=
  if joined s then s
  else
    let s := set_join true (joined s) (S (joining s)) s in
    let s := set_queue [] (fail_all (is_canceled s) (_queue s) s) in
    let s := fail_all (fun _ => false) (elements (default ∅ (_deferredTasksFutures s))) s in
    set_deferred None s.

(** ** The transition system *)

Inductive strand_event :=
  | Defer (delay never : bool)
  | Post (never : bool)
  | TimerFires (h : Z)
  | CancelFuture (h : Z) (stopped : bool)
  | ProcessStarts
  | ProcessPops (i : nat)
  | ProcessFinishes (i : nat) (threw : bool)
  | ProcessTests (i : nat) (again : bool)
  | ProcessStops (i : nat)
  | Join
  | JoinInside (i : nat)            (* by the task that is executed *)
  | JoinReturns.

(** [None] is an event that cannot happen in the state. *)
Definition strand_step (e : strand_event) (s : StrandPrivate) : option StrandPrivate :=
  match e with
  | Defer delay never => deferImpl delay never s
  | Post never => postImpl never s
  | TimerFires h =>
      if decide (h ∈ timers s) then enqueue h (set_timers (timers s ∖ {[h]}) s) else None
  | CancelFuture h stopped => cancel h stopped s
  | ProcessStarts =>
      match scheduled s with
      | O => None
      | S n => Some (set_process (_processing s) n (processes s ++ [AtLock]) s)
      end
  | ProcessPops i =>
      match processes s !! i with Some AtLock => process_pop i s | _ => None end
  | ProcessFinishes i threw =>
      match processes s !! i with Some (Executing h) => process_finish i h threw s | _ => None end
  | ProcessTests i again =>
      match processes s !! i with
      | Some AtTest =>
          Some (set_process (_processing s) (scheduled s)
                  (<[i := if again then AtLock else AtStop]> (processes s)) s)
      | _ => None
      end
  | ProcessStops i =>
      match processes s !! i with Some AtStop => Some (stopProcess i s) | _ => None end
  | Join => Some (join s)
  | JoinInside i =>
      match processes s !! i with
      | Some (Executing _) => Some (if joined s then s else set_join true (joined s) (joining s) s)
      | _ => None
      end
  | JoinReturns =>
      match joining s with
      | S n => if _processing s then None else Some (set_join (_dying s) true n s)
      | O => None
      end
  end.

Definition strand_run (es : list strand_event) (s : StrandPrivate) : option StrandPrivate :=
  foldl (fun r e => s ← r; strand_step e s) (Some s) es.

Inductive strand_reachable : StrandPrivate -> Prop :=
  | strand_reachable_new : strand_reachable StrandPrivate_new
  | strand_reachable_step s e s' :
      strand_reachable s -> strand_step e s = Some s' -> strand_reachable s'.
