(* ===== verification/StrandInvariants.v ===== *)
(** * StrandInvariants: the invariants of the strand and the steps that keep them

    [exclusive]: at most one call of [process]; [strand_fifo]: the order and the
    uniqueness of the executions; [live]: while the strand is not dying, the
    callbacks it holds can be executed and a call of [process] will do it. *)
From S2P Require Import Prelude CString Bytes Strand.
Open Scope Z_scope.

(** ** Exclusion *)

(** At most one call of [process] is asked for or running, and only when
    [_processing] says so. *)
Definition exclusive (s : StrandPrivate) : Prop :=
  (length (processes s) + scheduled s <= (if _processing s then 1 else 0))%nat.

(** The fields that the executor and the processes change. *)
Definition same_process (s s' : StrandPrivate) : Prop :=
  processes s' = processes s /\ scheduled s' = scheduled s /\ _processing s' = _processing s.

Lemma exclusive_same s s' : same_process s s' -> exclusive s -> exclusive s'.
Proof. unfold exclusive. by intros (-> & -> & ->). Qed.

(** What completing promises leaves as it is. *)
Definition same_but_promises (s s' : StrandPrivate) : Prop :=
  same_process s s' /\ _queue s' = _queue s /\ _dying s' = _dying s /\ joined s' = joined s
  /\ joining s' = joining s /\ _curId s' = _curId s /\ timers s' = timers s
  /\ enqueued s' = enqueued s /\ executed s' = executed s.

Lemma fail_all_same skip l : forall s, same_but_promises s (fail_all skip l s).
Proof.
  induction l as [|h l IH]; intros s; cbn [fail_all]; [done|].
  destruct (skip h); [apply IH|]. exact (IH (trySetError h s)).
Qed.

Lemma join_spec s :
  joined s = false ->
  same_process s (join s) /\ _queue (join s) = [] /\ _dying (join s) = true
  /\ joined (join s) = false /\ joining (join s) = S (joining s) /\ _curId (join s) = _curId s
  /\ timers (join s) = timers s /\ enqueued (join s) = enqueued s /\ executed (join s) = executed s.
Proof.
  intros Hj. unfold join. rewrite Hj. cbv zeta. set (s0 := set_join true false (S (joining s)) s).
  pose proof (fail_all_same (is_canceled s0) (_queue s0) s0) as H1.
  set (s1 := fail_all (is_canceled s0) (_queue s0) s0) in *. clearbody s1.
  pose proof (fail_all_same (fun _ => false)
    (elements (default ∅ (_deferredTasksFutures (set_queue [] s1)))) (set_queue [] s1)) as H2.
  set (s2 := fail_all _ _ (set_queue [] s1)) in *. clearbody s2.
  destruct H1 as ((Pa & Pb & Pc) & Q1 & D1 & J1 & N1 & C1 & T1 & E1 & X1).
  destruct H2 as ((Pd & Pe & Pf) & Q2 & D2 & J2 & N2 & C2 & T2 & E2 & X2).
  unfold same_process. cbn in *. split_and!; congruence.
Qed.

(** ** The operations *)

(** A callback that is waiting for its turn. *)
Definition runnable (c : Callback) : bool :=
  match state c with
  | State.Scheduled => true
  | State.Canceled => NeverSkipExecution c
  | _ => false
  end.

(** A callback that [enqueue] pushes. *)
Definition pushable (c : Callback) : bool :=
  match state c with
  | State.None => true
  | State.Canceled => NeverSkipExecution c
  | _ => false
  end.

Definition pushed (h : Z) (s s' : StrandPrivate) : Prop :=
  callbacks s' = alter (set_state State.Scheduled) h (callbacks s)
  /\ _queue s' = _queue s ++ [h] /\ enqueued s' = enqueued s ++ [h] /\ executed s' = executed s
  /\ timers s' = timers s /\ _curId s' = _curId s /\ _dying s' = false /\ joined s' = joined s
  /\ joining s' = joining s /\ processes s' = processes s /\ _processing s' = true
  /\ scheduled s' = (if _processing s then scheduled s else S (scheduled s)).

Lemma enqueue_cases h s s' :
  enqueue h s = Some s' ->
  exists c, callbacks s !! h = Some c
    /\ ((_dying s = true /\ s' = trySetError h s)
        \/ (_dying s = false /\ pushable c = false /\ s' = s)
        \/ (_dying s = false /\ pushable c = true /\ pushed h s s')).
Proof.
  unfold enqueue. intros (c & Hc & H)%bind_Some. exists c. split; [done|].
  destruct (_dying s) eqn:Hd; [left; by injection H as <-|right]. unfold pushable.
  assert (Hpush : forall s0, s0 = log_enqueued h (update_callback (set_state State.Scheduled) h
      (set_queue (_queue s ++ [h]) s)) ->
    pushed h s (if _processing s0 then s0
      else let s := set_process true (S (scheduled s0)) (processes s0) s0 in
           if asyncFuture c
           then set_deferred ((fun g => g ∖ {[h]}) <$> _deferredTasksFutures s) s else s)).
  { intros s0 ->. unfold pushed. cbn -[alter difference]. destruct (_processing s) eqn:Hp; cbn.
    - by rewrite Hd, Hp.
    - by destruct (asyncFuture c); cbn; rewrite Hd. }
  destruct (state c); try discriminate H.
  - right. injection H as <-. split_and!; [done | done |]. exact (Hpush _ eq_refl).
  - destruct (NeverSkipExecution c); injection H as <-; [right | by left].
    split_and!; [done | done |]. exact (Hpush _ eq_refl).
Qed.

(** The strand after [createCallback]. *)
Definition created (c : Callback) (s s' : StrandPrivate) : Prop :=
  callbacks s' = <[_curId s + 1 := c]> (callbacks s) /\ _curId s' = _curId s + 1
  /\ same_process s s' /\ _queue s' = _queue s /\ _dying s' = _dying s /\ joined s' = joined s
  /\ joining s' = joining s /\ timers s' = timers s
  /\ enqueued s' = enqueued s /\ executed s' = executed s.

Lemma createCallback_spec can deferred never s :
  exists s', createCallback can deferred never s = (_curId s + 1, s')
    /\ created (mkCallback State.None FutureState_Running can deferred never) s s'.
Proof. eexists. split; [done|]. by unfold created, same_process. Qed.

Lemma enqueue_exclusive h s s' : exclusive s -> enqueue h s = Some s' -> exclusive s'.
Proof.
  intros He (c & _ & [[_ ->] | [(_ & _ & ->) | (_ & _ & Hp)]])%enqueue_cases; try done.
  destruct Hp as (_ & _ & _ & _ & _ & _ & _ & _ & _ & H1 & H2 & H3).
  unfold exclusive in *. rewrite H1, H2, H3. destruct (_processing s); lia.
Qed.

Lemma cancel_same h stopped s s' : cancel h stopped s = Some s' -> same_process s s'.
Proof.
  unfold cancel. intros (c & _ & H)%bind_Some.
  destruct (onCancel c); cbn [negb] in H; [|by injection H as <-].
  cbn in H. destruct (_dying s); [by injection H as <-|].
  destruct (state c), (NeverSkipExecution c); injection H as <-; try done; by destruct stopped.
Qed.

Lemma delete_length {A} (l : list A) i x : l !! i = Some x -> S (length (delete i l)) = length l.
Proof.
  intros H. pose proof (lookup_lt_Some _ _ _ H). rewrite length_delete by eauto. lia.
Qed.

Lemma step_exclusive e s s' : exclusive s -> strand_step e s = Some s' -> exclusive s'.
Proof.
  intros He. destruct e as [delay never|never|h|h stopped| |i|i threw|i again|i| |i|];
    cbn [strand_step].
  - unfold deferImpl. destruct (_dying s); [by intros [= <-]|].
    destruct (createCallback_spec true delay never s) as (s1 & -> & _ & _ & Hs & _).
    apply (exclusive_same _ _ Hs) in He. destruct delay; [by intros [= <-]|].
    by apply enqueue_exclusive.
  - unfold postImpl. destruct (createCallback_spec false false never s) as (s1 & -> & _ & _ & Hs & _).
    apply (exclusive_same _ _ Hs) in He. by apply enqueue_exclusive.
  - case_decide; [|done]. by apply enqueue_exclusive.
  - intros Hs%cancel_same. by eapply exclusive_same.
  - destruct (scheduled s) as [|n] eqn:Hn; [done|]. intros [= <-]. unfold exclusive in *.
    cbn. rewrite length_app. cbn. lia.
  - destruct (processes s !! i) as [[]|] eqn:Hi; try done. unfold process_pop.
    apply delete_length in Hi. unfold exclusive in *.
    destruct (_dying s); [intros [= <-]; cbn; by rewrite length_insert|].
    destruct (_queue s) as [|h q].
    + intros [= <-]. cbn. destruct (_processing s); lia.
    + intros (c & _ & [= <-])%bind_Some.
      destruct (state c), (NeverSkipExecution c); cbn; by rewrite length_insert.
  - destruct (processes s !! i) as [[]|] eqn:Hi; try done. unfold process_finish.
    apply delete_length in Hi. intros (c & _ & H)%bind_Some. unfold exclusive in *.
    case_decide; injection H as <-; cbn; [by rewrite length_insert | lia].
  - destruct (processes s !! i) as [[]|] eqn:Hi; try done. intros [= <-].
    unfold exclusive in *. cbn. by rewrite length_insert.
  - destruct (processes s !! i) as [[]|] eqn:Hi; try done. intros [= <-].
    apply delete_length in Hi. unfold stopProcess, exclusive in *.
    destruct (_dying s); cbn; destruct (_processing s); lia.
  - intros [= <-]. destruct (joined s) eqn:Hj; [unfold join; by rewrite Hj|].
    eapply exclusive_same; [apply join_spec; exact Hj | done].
  - destruct (processes s !! i) as [[]|]; try done. intros [= <-]. by destruct (joined s).
  - destruct (joining s); [done|]. destruct (_processing s) eqn:Hp; [done|].
    intros [= <-]. unfold exclusive in *. cbn. by rewrite Hp in *.
Qed.

(** ** Order *)

(** The callbacks run in the order in which they were pushed, each at most
    once. *)
Record strand_fifo (s : StrandPrivate) : Prop := {
  fifo_count : 0 <= _curId s;
  fifo_order : executed s ++ _queue s `sublist_of` enqueued s;
  fifo_nodup : NoDup (enqueued s);
  fifo_enqueued : forall h, h ∈ enqueued s -> 1 <= h <= _curId s;
  fifo_timers : forall h, h ∈ timers s -> 1 <= h <= _curId s /\ h ∉ enqueued s;
}.

Lemma fifo_frame s s' :
  strand_fifo s -> enqueued s' = enqueued s -> _curId s' = _curId s -> timers s' ⊆ timers s ->
  executed s' ++ _queue s' `sublist_of` executed s ++ _queue s -> strand_fifo s'.
Proof.
  intros [H1 H2 H3 H4 H5] He Hc Ht Hs. split; rewrite ?He, ?Hc; try done.
  - by etrans.
  - intros h Hh%Ht. by apply H5.
Qed.

Lemma fifo_push h s s' :
  strand_fifo s -> 1 <= h <= _curId s -> h ∉ enqueued s -> h ∉ timers s -> pushed h s s' ->
  strand_fifo s'.
Proof.
  intros [H1 H2 H3 H4 H5] Hh Hn Ht (_ & Hq & He & Hx & Htm & Hc & _). split; rewrite ?Hc; try done.
  - rewrite Hq, He, Hx, app_assoc. by apply sublist_app.
  - rewrite He. apply NoDup_app. split_and!; [done | | apply NoDup_singleton].
    by intros x Hx' ->%list_elem_of_singleton.
  - rewrite He. intros x [Hx' | ->%list_elem_of_singleton]%elem_of_app; [by apply H4 | done].
  - rewrite Htm, He. intros x Hx'. split; [by apply H5|].
    intros [Hin|Heq%list_elem_of_singleton]%elem_of_app; [by apply H5 in Hx' as [_ ?]|].
    congruence.
Qed.

Lemma enqueue_fifo h s s' :
  strand_fifo s -> 1 <= h <= _curId s -> h ∉ enqueued s -> h ∉ timers s ->
  enqueue h s = Some s' -> strand_fifo s'.
Proof.
  intros Hf Hh Hn Ht (c & _ & [[_ ->] | [(_ & _ & ->) | (_ & _ & Hp)]])%enqueue_cases; try done.
  - by eapply fifo_frame.
  - by eapply fifo_push.
Qed.

Lemma created_fifo c s s' :
  strand_fifo s -> created c s s' ->
  strand_fifo s' /\ 1 <= _curId s + 1 <= _curId s' /\ ((_curId s + 1) ∉ enqueued s')
  /\ (_curId s + 1) ∉ timers s'.
Proof.
  intros [H1 H2 H3 H4 H5] (_ & Hc & _ & Hq & _ & _ & _ & Ht & He & Hx).
  split_and!; [split| | | |]; rewrite ?Hc, ?Hq, ?Ht, ?He, ?Hx; try done; try lia.
  - intros h Hh%H4. lia.
  - intros h [Hh Hn]%H5. split; [lia | done].
  - intros Hh%H4. lia.
  - intros [Hh _]%H5. lia.
Qed.

Lemma erase_id_sublist h q : erase_id h q `sublist_of` q.
Proof.
  induction q as [|k q IH]; cbn [erase_id]; [done|].
  destruct (_ =? _); [by apply sublist_cons | by apply sublist_skip].
Qed.

Lemma cancel_fifo h stopped s s' : strand_fifo s -> cancel h stopped s = Some s' -> strand_fifo s'.
Proof.
  intros Hf. unfold cancel. intros (c & _ & H)%bind_Some.
  destruct (onCancel c); cbn [negb] in H; [|by injection H as <-].
  cbn in H. destruct (_dying s); [injection H as <-; by eapply fifo_frame|].
  destruct (state c), (NeverSkipExecution c); injection H as <-; try destruct stopped;
    eapply fifo_frame; try done; cbn -[difference]; try set_solver.
  all: apply sublist_app; [done | apply erase_id_sublist].
Qed.

Lemma pop_fifo i s s' : strand_fifo s -> process_pop i s = Some s' -> strand_fifo s'.
Proof.
  intros Hf. unfold process_pop. destruct (_dying s); [intros [= <-]; by eapply fifo_frame|].
  destruct (_queue s) as [|h q] eqn:Hq.
  - intros [= <-]. eapply fifo_frame; try done.
  - intros (c & _ & [= <-])%bind_Some. change (match state c with
      | State.Scheduled => true | State.Canceled => NeverSkipExecution c | _ => false end)
      with (runnable c).
    destruct (runnable c); eapply fifo_frame; try done; cbn; rewrite Hq.
    + by rewrite <- app_assoc.
    + apply sublist_app; [done | by apply sublist_cons].
Qed.

Lemma step_fifo e s s' : strand_fifo s -> strand_step e s = Some s' -> strand_fifo s'.
Proof.
  intros Hf. destruct e as [delay never|never|h|h stopped| |i|i threw|i again|i| |i|];
    cbn [strand_step].
  - unfold deferImpl. destruct (_dying s); [by intros [= <-]|].
    destruct (createCallback_spec true delay never s) as (s1 & -> & Hc).
    destruct (created_fifo _ _ _ Hf Hc) as (Hf1 & Hh & Hn & Ht).
    destruct delay; [|by apply enqueue_fifo]. intros [= <-].
    destruct Hf1 as [H1 H2 H3 H4 H5]. split; try done. cbn -[union].
    intros h [->%elem_of_singleton | Hin]%elem_of_union; [done | by apply H5].
  - unfold postImpl. destruct (createCallback_spec false false never s) as (s1 & -> & Hc).
    destruct (created_fifo _ _ _ Hf Hc) as (Hf1 & Hh & Hn & Ht). by apply enqueue_fifo.
  - case_decide as Hh; [|done]. pose proof (fifo_timers s Hf h Hh) as [Hb Hn].
    apply enqueue_fifo; try done; cbn -[difference]; [|set_solver].
    eapply fifo_frame; try done. cbn -[difference]. set_solver.
  - by apply cancel_fifo.
  - destruct (scheduled s); [done|]. intros [= <-]. by eapply fifo_frame.
  - destruct (processes s !! i) as [[]|]; try done. by apply pop_fifo.
  - destruct (processes s !! i) as [[]|]; try done. unfold process_finish.
    intros (c & _ & H)%bind_Some. case_decide; injection H as <-; by eapply fifo_frame.
  - destruct (processes s !! i) as [[]|]; try done. intros [= <-]. by eapply fifo_frame.
  - destruct (processes s !! i) as [[]|]; try done. intros [= <-]. unfold stopProcess.
    destruct (_dying s); by eapply fifo_frame.
  - intros [= <-]. destruct (joined s) eqn:Hj; [unfold join; by rewrite Hj|].
    destruct (join_spec s Hj) as (_ & Hq & _ & _ & _ & Hc & Ht & He & Hx).
    eapply fifo_frame; [exact Hf | done | done | by rewrite Ht |].
    rewrite Hx, Hq. apply sublist_app; [done | apply sublist_nil_l].
  - destruct (processes s !! i) as [[]|]; try done. intros [= <-].
    destruct (joined s); by eapply fifo_frame.
  - destruct (joining s); [done|]. destruct (_processing s); [done|].
    intros [= <-]. by eapply fifo_frame.
Qed.

(** ** Progress *)

(** What is known of a callback that is in the queue, that waits for its delay,
    or that is executed, as long as the strand is not dying. *)
Definition queue_ok (m : gmap Z Callback) (h : Z) : Prop :=
  exists c, m !! h = Some c /\ runnable c = true /\ promise c = FutureState_Running.
Definition timer_ok (m : gmap Z Callback) (h : Z) : Prop :=
  exists c, m !! h = Some c /\ (state c = State.None \/ state c = State.Canceled)
    /\ (pushable c = true -> promise c = FutureState_Running).
Definition executing_ok (m : gmap Z Callback) (h : Z) : Prop :=
  exists c, m !! h = Some c /\ state c = State.Running /\ promise c = FutureState_Running.

Record live (s : StrandPrivate) : Prop := {
  live_queue : forall h, h ∈ _queue s -> queue_ok (callbacks s) h;
  live_timers : forall h, h ∈ timers s -> timer_ok (callbacks s) h;
  live_executing : forall h, Executing h ∈ processes s -> executing_ok (callbacks s) h;
  live_processing : _processing s = true -> (length (processes s) + scheduled s = 1)%nat;
  live_pending : _queue s <> [] -> _processing s = true;
  live_known : forall h c, callbacks s !! h = Some c -> 1 <= h <= _curId s;
}.

(** The identifiers of the callbacks have not wrapped around. *)
Definition strand_live (s : StrandPrivate) : Prop :=
  _dying s = false -> _curId s < 2 ^ 32 -> live s.

(** A step that changes no callback. *)
Lemma live_frame s s' :
  live s -> callbacks s' = callbacks s -> _curId s' = _curId s ->
  (forall h, h ∈ _queue s' -> h ∈ _queue s) -> (forall h, h ∈ timers s' -> h ∈ timers s) ->
  (forall h, Executing h ∈ processes s' -> Executing h ∈ processes s) ->
  (_processing s' = true -> (length (processes s') + scheduled s' = 1)%nat) ->
  (_queue s' <> [] -> _processing s' = true) -> live s'.
Proof.
  intros [H1 H2 H3 H4 H5 H6] Hc Hid Hq Ht He Hp Hn. split; rewrite ?Hc, ?Hid; auto.
Qed.

(** A step that changes one callback. *)
Lemma live_change h s s' :
  live s -> (forall k, k <> h -> callbacks s' !! k = callbacks s !! k) ->
  (forall c, callbacks s' !! h = Some c -> 1 <= h <= _curId s') -> _curId s <= _curId s' ->
  (forall k, k ∈ _queue s' -> (k = h -> queue_ok (callbacks s') h) /\ (k <> h -> k ∈ _queue s)) ->
  (forall k, k ∈ timers s' -> (k = h -> timer_ok (callbacks s') h) /\ (k <> h -> k ∈ timers s)) ->
  (forall k, Executing k ∈ processes s' ->
     (k = h -> executing_ok (callbacks s') h) /\ (k <> h -> Executing k ∈ processes s)) ->
  (_processing s' = true -> (length (processes s') + scheduled s' = 1)%nat) ->
  (_queue s' <> [] -> _processing s' = true) -> live s'.
Proof.
  intros [H1 H2 H3 H4 H5 H6] Hc Hk Hid Hq Ht He Hp Hn. split; try done.
  - intros k Hin. destruct (Hq k Hin) as [Hq1 Hq2], (decide (k = h)) as [->|Hne]; [auto|].
    unfold queue_ok. rewrite Hc by done. by apply H1, Hq2.
  - intros k Hin. destruct (Ht k Hin) as [Hq1 Hq2], (decide (k = h)) as [->|Hne]; [auto|].
    unfold timer_ok. rewrite Hc by done. by apply H2, Hq2.
  - intros k Hin. destruct (He k Hin) as [Hq1 Hq2], (decide (k = h)) as [->|Hne]; [auto|].
    unfold executing_ok. rewrite Hc by done. by apply H3, Hq2.
  - intros k c Hin. destruct (decide (k = h)) as [->|Hne]; [eauto|].
    rewrite Hc in Hin by done. apply H6 in Hin. lia.
Qed.

(** The only call of [process]. *)
Lemma exclusive_single s i x :
  exclusive s -> processes s !! i = Some x ->
  i = 0%nat /\ processes s = [x] /\ scheduled s = 0%nat /\ _processing s = true.
Proof.
  unfold exclusive. intros He Hi. destruct (processes s) as [|y [|z l]]; [done| |].
  - destruct i as [|i]; [|done]. injection Hi as ->.
    destruct (_processing s); cbn in He; [split_and!; (done || lia) | lia].
  - destruct (_processing s); cbn in He; lia.
Qed.

Lemma created_live c s s' :
  0 <= _curId s -> live s -> created c s s' -> state c = State.None ->
  promise c = FutureState_Running ->
  live s' /\ timer_ok (callbacks s') (_curId s + 1)
  /\ queue_ok (alter (set_state State.Scheduled) (_curId s + 1) (callbacks s')) (_curId s + 1).
Proof.
  intros H0 Hl (Hc & Hid & (Hp1 & Hp2 & Hp3) & Hq & Hd & Hj & Hn & Ht & _) Hst Hpr.
  assert (Hfresh : forall k d, callbacks s !! k = Some d -> k <> _curId s + 1).
  { intros k d Hk%(live_known s Hl). lia. }
  split_and!.
  - apply (live_change (_curId s + 1) s); rewrite ?Hc, ?Hid, ?Hp1, ?Hp2, ?Hp3, ?Hq, ?Ht; try apply Hl.
    + intros k Hne. by apply lookup_insert_ne.
    + lia.
    + lia.
    + intros k Hk. split; [|done]. destruct (live_queue s Hl k Hk) as (d & Hd' & _).
      by apply Hfresh in Hd'.
    + intros k Hk. split; [|done]. destruct (live_timers s Hl k Hk) as (d & Hd' & _).
      by apply Hfresh in Hd'.
    + intros k Hk. split; [|done]. destruct (live_executing s Hl k Hk) as (d & Hd' & _).
      by apply Hfresh in Hd'.
  - exists c. rewrite Hc, lookup_insert_eq. split_and!; auto.
  - eexists. rewrite lookup_alter_eq, Hc, lookup_insert_eq. by split_and!.
Qed.

(** Pushing a callback whose promise is not completed. *)
Lemma pushed_live h s s' :
  live s -> exclusive s -> pushed h s s' -> h ∉ _queue s -> h ∉ timers s ->
  timer_ok (callbacks s) h -> (exists c, callbacks s !! h = Some c /\ pushable c = true) -> live s'.
Proof.
  intros Hl He Hp Hq Ht (c & Hc & Hst & Hpr) (c' & Hc' & Hpu). rewrite Hc in Hc'. injection Hc' as <-.
  specialize (Hpr Hpu).
  destruct Hp as (Hm & Hq' & _ & _ & Ht' & Hid & _ & _ & _ & Hps & Hpc & Hsc).
  apply (live_change h s); rewrite ?Hm, ?Hq', ?Ht', ?Hid, ?Hps, ?Hpc; try done.
  - intros k Hne. by apply lookup_alter_ne.
  - intros d _. by apply (live_known s Hl) in Hc.
  - intros k [Hk | ->%list_elem_of_singleton]%elem_of_app; (split; [|done]); [by intros ->|].
    intros _. eexists. rewrite lookup_alter_eq, Hc. by split_and!.
  - intros k Hk. split; [by intros -> | done].
  - intros k Hk. split; [|done]. intros ->.
    destruct (live_executing s Hl h Hk) as (d & Hd & Hs & _). rewrite Hc in Hd.
    injection Hd as <-. rewrite Hs in Hst. by destruct Hst.
  - intros _. rewrite Hsc. unfold exclusive in He.
    destruct (_processing s) eqn:E; [by apply (live_processing s Hl) | lia].
Qed.

(** A step that changes one known callback and neither the executor nor the
    processes. *)
Lemma live_alter h c d s s' :
  live s -> callbacks s !! h = Some c -> callbacks s' !! h = Some d ->
  (forall k, k <> h -> callbacks s' !! k = callbacks s !! k) ->
  _curId s' = _curId s -> same_process s s' ->
  (forall k, k ∈ _queue s' -> k ∈ _queue s) -> (forall k, k ∈ timers s' -> k ∈ timers s) ->
  (h ∈ _queue s' -> runnable d = true /\ promise d = FutureState_Running) ->
  (h ∈ timers s' -> (state d = State.None \/ state d = State.Canceled)
     /\ (pushable d = true -> promise d = FutureState_Running)) ->
  (Executing h ∈ processes s -> state d = State.Running /\ promise d = FutureState_Running) ->
  live s'.
Proof.
  intros Hl Hc Hm' Hm Hid (Hps & Hsc & Hpc) Hq Ht Hq' Ht' He'.
  apply (live_change h s); rewrite ?Hid, ?Hps, ?Hpc, ?Hsc; try done.
  - intros e _. by apply (live_known s Hl) in Hc.
  - intros k Hk. split; [intros ->; exists d; split; [done | by apply Hq'] | intros _; by apply Hq].
  - intros k Hk. split; [intros ->; exists d; split; [done | by apply Ht'] | intros _; by apply Ht].
  - intros k Hk. split; [intros ->; exists d; split; [done | by apply He'] | done].
  - apply Hl.
  - intros Hne. apply (live_pending s Hl). destruct (_queue s') as [|k q] eqn:E; [done|].
    intros E'. specialize (Hq k). rewrite E' in Hq. set_solver.
Qed.

(** What [live] says of the callback [c] of rank [h]. *)
Lemma live_lookup s h c :
  live s -> callbacks s !! h = Some c ->
  (h ∈ _queue s -> runnable c = true /\ promise c = FutureState_Running)
  /\ (h ∈ timers s -> (state c = State.None \/ state c = State.Canceled)
       /\ (pushable c = true -> promise c = FutureState_Running))
  /\ (Executing h ∈ processes s -> state c = State.Running /\ promise c = FutureState_Running).
Proof.
  intros Hl Hc. split_and!.
  - intros (d & Hd' & ? & ?)%(live_queue s Hl). rewrite Hc in Hd'. by injection Hd' as <-.
  - intros (d & Hd' & ? & ?)%(live_timers s Hl). rewrite Hc in Hd'. by injection Hd' as <-.
  - intros (d & Hd' & ? & ?)%(live_executing s Hl). rewrite Hc in Hd'. by injection Hd' as <-.
Qed.

(** *** The identifiers *)

Lemma callback_id_known h : 1 <= h < 2 ^ 32 -> callback_id h = h.
Proof. intros H. unfold callback_id. apply wrap_small. lia. Qed.

Lemma elem_of_erase_id h q k :
  NoDup q -> (forall x, x ∈ h :: q -> 1 <= x < 2 ^ 32) -> k ∈ erase_id h q -> k ∈ q /\ k <> h.
Proof.
  intros Hn Hb. induction q as [|x q IH]; cbn [erase_id]; [set_solver|].
  apply NoDup_cons in Hn as [Hx Hn].
  rewrite !callback_id_known by (apply Hb; set_solver).
  destruct (Z.eqb_spec x h) as [->|Hne].
  - intros Hk. split; [set_solver|]. by intros ->.
  - intros [->|Hk]%elem_of_cons; [set_solver|].
    apply IH in Hk; [set_solver | done | intros y Hy; apply Hb; set_solver].
Qed.

Lemma fifo_queue s h : strand_fifo s -> h ∈ _queue s -> h ∈ enqueued s /\ h ∉ timers s.
Proof.
  intros Hf Hh.
  assert (h ∈ enqueued s).
  { eapply elem_of_sublist; [|apply (fifo_order s Hf)]. set_solver. }
  split; [done|]. by intros [_ ?]%(fifo_timers s Hf).
Qed.

Lemma fifo_queue_nodup s : strand_fifo s -> NoDup (_queue s).
Proof.
  intros Hf. assert (Hn : NoDup (executed s ++ _queue s)).
  { eapply sublist_NoDup; [apply (fifo_nodup s Hf) | apply (fifo_order s Hf)]. }
  by apply NoDup_app in Hn as (_ & _ & ?).
Qed.

(** *** Each step *)

Lemma create_enqueue_live c s s1 s' :
  exclusive s -> strand_fifo s -> live s -> _dying s = false -> created c s s1 ->
  state c = State.None -> promise c = FutureState_Running ->
  enqueue (_curId s + 1) s1 = Some s' -> live s'.
Proof.
  intros He Hf Hl Hd Hc Hst Hpr Hs.
  destruct (created_live _ _ _ (fifo_count s Hf) Hl Hc Hst Hpr) as (Hl1 & Ht1 & _).
  destruct (created_fifo _ _ _ Hf Hc) as (Hf1 & _ & Hn & Ht).
  destruct Hc as (Hm & Hid & Hsame & _ & Hd1 & _).
  apply enqueue_cases in Hs as (d & Hc & [[Hx ->] | [(_ & _ & ->) | (_ & Hpu & Hp)]]); [congruence | done |].
  apply (pushed_live (_curId s + 1) s1); try done.
  - by apply (exclusive_same _ _ Hsame).
  - intros Hh. by apply (fifo_queue _ _ Hf1) in Hh as [? _].
  - by exists d.
Qed.

Lemma deferImpl_live delay never s s' :
  exclusive s -> strand_fifo s -> live s -> deferImpl delay never s = Some s' ->
  _dying s = false -> live s'.
Proof.
  intros He Hf Hl Hs Hd. unfold deferImpl in Hs. rewrite Hd in Hs.
  destruct (createCallback_spec true delay never s) as (s1 & Heq & Hc). rewrite Heq in Hs.
  destruct delay; [|by eapply create_enqueue_live].
  destruct (created_live _ _ _ (fifo_count s Hf) Hl Hc eq_refl eq_refl) as ([H1 H2 H3 H4 H5 H6] & Ht1 & _).
  injection Hs as <-. split; try done.
  cbn -[union]. intros h [->%elem_of_singleton | Hh]%elem_of_union; [done | by apply H2].
Qed.

Lemma timer_live h s s' :
  exclusive s -> strand_fifo s -> live s -> h ∈ timers s -> _dying s = false ->
  enqueue h (set_timers (timers s ∖ {[h]}) s) = Some s' -> live s'.
Proof.
  intros He Hf Hl Hh Hd Hs. set (s1 := set_timers (timers s ∖ {[h]}) s) in Hs.
  assert (Hl1 : live s1).
  { apply (live_frame s); try done; try apply Hl. cbn -[difference]. set_solver. }
  apply enqueue_cases in Hs as (c & Hc & [[Hd' _] | [(_ & _ & ->) | (_ & Hpu & Hp)]]); [|done|].
  { cbn in Hd'. congruence. }
  apply (pushed_live h s1); try done.
  - intros Hq%(fifo_queue s h Hf). tauto.
  - cbn -[difference]. set_solver.
  - by apply (live_timers s Hl).
  - by exists c.
Qed.

Lemma cancel_live h stopped s s' :
  strand_fifo s -> live s -> _curId s < 2 ^ 32 -> _dying s = false ->
  cancel h stopped s = Some s' -> live s'.
Proof.
  intros Hf Hl Hid Hd. unfold cancel. intros (c & Hc & Hs)%bind_Some.
  destruct (onCancel c) eqn:Hon; cbn [negb] in Hs; [|by injection Hs as <-]. cbn in Hs.
  rewrite Hd in Hs. destruct (live_lookup s h c Hl Hc) as (Hqc & Htc & Hec).
  assert (Her : forall k, k ∈ erase_id h (_queue s) -> k ∈ _queue s /\ k <> h).
  { intros k. apply elem_of_erase_id; [by apply fifo_queue_nodup|].
    intros x [->|Hx]%elem_of_cons; [apply (live_known s Hl) in Hc; lia|].
    apply (fifo_queue s x Hf) in Hx as [Hx%(fifo_enqueued s Hf) _]. lia. }
  destruct c as [st pr on asy nv]. unfold runnable, pushable in *. cbn in *.
  destruct st, nv; injection Hs as <-; try destruct stopped.
  all: (eapply (live_alter h _ _ s _ Hl Hc); try reflexivity; try done; cbn -[difference];
    [rewrite ?lookup_alter_eq, Hc; reflexivity
    |intros k Hk; by rewrite ?lookup_alter_ne by done | ..]).
  all: try set_solver.
  all: try naive_solver.
Qed.

Lemma pop_live i s s' :
  exclusive s -> strand_fifo s -> live s -> _dying s = false -> processes s !! i = Some AtLock ->
  process_pop i s = Some s' -> live s'.
Proof.
  intros He Hf Hl Hd Hi Hs. destruct (exclusive_single s i _ He Hi) as (-> & Hps & Hsc & Hpc).
  unfold process_pop in Hs. rewrite Hd in Hs. destruct (_queue s) as [|h q] eqn:Hq.
  - injection Hs as <-. apply (live_frame s); try done; cbn; rewrite ?Hps, ?Hq; set_solver.
  - apply bind_Some in Hs as (c & Hc & [= <-]).
    destruct (live_lookup s h c Hl Hc) as (Hrc & Htc & _).
    assert (Hin : h ∈ _queue s) by (rewrite Hq; apply list_elem_of_here).
    destruct (Hrc Hin) as [Hr Hp].
    change (match state c with
      | State.Scheduled => true | State.Canceled => NeverSkipExecution c | _ => false end)
      with (runnable c). rewrite Hr.
    assert (Hn : h ∉ q).
    { pose proof (fifo_queue_nodup s Hf) as Hn. rewrite Hq in Hn. by apply NoDup_cons in Hn as [? _]. }
    assert (Ht : h ∉ timers s) by (apply (fifo_queue s h Hf Hin)).
    apply (live_change h s); try done; cbn; rewrite ?Hps, ?Hsc; cbn.
    + intros k Hne. by apply lookup_alter_ne.
    + intros d _. by apply (live_known s Hl) in Hc.
    + intros k Hk. split; [by intros -> | rewrite Hq; set_solver].
    + intros k Hk. split; [by intros -> | done].
    + intros k [= ->]%list_elem_of_singleton. split; [intros _|done].
      eexists. by rewrite lookup_alter_eq, Hc.
    + done.
Qed.

Lemma finish_live i h threw s s' :
  exclusive s -> live s -> processes s !! i = Some (Executing h) ->
  process_finish i h threw s = Some s' -> live s'.
Proof.
  intros He Hl Hi Hs. destruct (exclusive_single s i _ He Hi) as (-> & Hps & Hsc & Hpc).
  apply bind_Some in Hs as (c & Hc & Hs).
  destruct (live_lookup s h c Hl Hc) as (Hqc & Htc & Hec).
  destruct Hec as [Hst Hp]; [rewrite Hps; apply list_elem_of_here|]. unfold runnable in Hqc. rewrite Hst in *.
  rewrite decide_True in Hs by done. injection Hs as <-.
  apply (live_change h s); try done; cbn; rewrite ?Hps, ?Hsc; cbn.
  - intros k Hne. by apply lookup_alter_ne.
  - intros d _. by apply (live_known s Hl) in Hc.
  - intros k Hk. split; [intros -> | done]. by destruct (Hqc Hk).
  - intros k Hk. split; [intros -> | done]. by destruct (Htc Hk) as [[|] _].
  - set_solver.
  - done.
Qed.

(** *** All the steps *)

(** The strand never stops dying, and its count of callbacks does not go back. *)
Definition forward (s s' : StrandPrivate) : Prop :=
  (_dying s = true -> _dying s' = true) /\ _curId s <= _curId s'.

Lemma enqueue_forward h s s' : enqueue h s = Some s' -> forward s s'.
Proof.
  unfold forward. intros (c & _ & [[? ->] | [(_ & _ & ->) | (Hd & _ & Hp)]])%enqueue_cases; try done.
  destruct Hp as (_ & _ & _ & _ & _ & -> & _). rewrite Hd. by split.
Qed.

Lemma step_forward e s s' : strand_step e s = Some s' -> forward s s'.
Proof.
  unfold forward. destruct e as [delay never|never|h|h stopped| |i|i threw|i again|i| |i|];
    cbn [strand_step].
  - unfold deferImpl. destruct (_dying s) eqn:Hd; [by intros [= <-]|]. cbn.
    destruct delay; [intros [= <-]; cbn; split; [done | lia]|].
    intros [_ H]%enqueue_forward. cbn in H. split; [done | lia].
  - intros [H1 H2]%enqueue_forward. cbn in *. split; [done | lia].
  - case_decide; [|done]. by intros ?%enqueue_forward.
  - unfold cancel. intros (c & _ & Hs)%bind_Some. destruct (onCancel c); cbn in Hs.
    + destruct (_dying s) eqn:Hd; [by injection Hs as <-|].
      destruct (state c), (NeverSkipExecution c), stopped; by injection Hs as <-.
    + by injection Hs as <-.
  - destruct (scheduled s); [done|]. by intros [= <-].
  - destruct (processes s !! i) as [[]|]; try done. unfold process_pop.
    destruct (_dying s) eqn:Hd; [intros [= <-]; by rewrite <- Hd|].
    destruct (_queue s); [by intros [= <-]|]. intros (c & _ & [= <-])%bind_Some.
    by destruct (state c), (NeverSkipExecution c).
  - destruct (processes s !! i) as [[]|]; try done. intros (c & _ & H)%bind_Some.
    case_decide; by injection H as <-.
  - destruct (processes s !! i) as [[]|]; try done. by intros [= <-].
  - destruct (processes s !! i) as [[]|]; try done. intros [= <-]. unfold stopProcess.
    by destruct (_dying s) eqn:Hd; cbn; rewrite ?Hd.
  - intros [= <-]. destruct (joined s) eqn:Hj; [unfold join; by rewrite Hj|].
    destruct (join_spec s Hj) as (_ & _ & -> & _ & _ & -> & _). by split.
  - destruct (processes s !! i) as [[]|]; try done. intros [= <-]. by destruct (joined s).
  - destruct (joining s); [done|]. destruct (_processing s); [done|]. by intros [= <-].
Qed.

Lemma step_live e s s' :
  exclusive s -> strand_fifo s -> strand_live s -> strand_step e s = Some s' -> strand_live s'.
Proof.
  intros He Hf Hl0 Hs Hd' Hid'. destruct (step_forward e s s' Hs) as [Hd Hid].
  assert (Hd0 : _dying s = false) by (destruct (_dying s); [by rewrite Hd in Hd' | done]).
  assert (Hl : live s) by (apply Hl0; [done | lia]).
  assert (Hsingle := exclusive_single s). destruct e as [delay never|never|h|h stopped| |i|i threw|i again|i| |i|];
    cbn [strand_step] in Hs.
  - by eapply deferImpl_live.
  - destruct (createCallback_spec false false never s) as (s1 & Heq & Hc). unfold postImpl in Hs.
    rewrite Heq in Hs. by eapply create_enqueue_live.
  - case_decide; [|done]. by eapply timer_live.
  - eapply cancel_live; try done. lia.
  - destruct (scheduled s) as [|n] eqn:Hn; [done|]. injection Hs as <-.
    apply (live_frame s); try done; cbn; try apply Hl.
    + intros h [Hh|Hh%list_elem_of_singleton]%elem_of_app; done.
    + intros Hp. rewrite length_app. cbn. pose proof (live_processing s Hl Hp). lia.
  - destruct (processes s !! i) as [[]|] eqn:Hi; try done. by eapply pop_live.
  - destruct (processes s !! i) as [[]|] eqn:Hi; try done. by eapply finish_live.
  - destruct (processes s !! i) as [[]|] eqn:Hi; try done. injection Hs as <-.
    destruct (Hsingle _ _ He Hi) as (-> & Hps & Hsc & Hpc).
    apply (live_frame s); try done; cbn; rewrite ?Hps, ?Hsc; cbn; [|done].
    intros h Hh%list_elem_of_singleton. by destruct again.
  - destruct (processes s !! i) as [[]|] eqn:Hi; try done. injection Hs as <-.
    destruct (Hsingle _ _ He Hi) as (-> & Hps & Hsc & Hpc).
    unfold stopProcess. rewrite Hd0.
    apply (live_frame s); try done; cbn; rewrite ?Hps, ?Hsc; cbn; [set_solver | done].
  - injection Hs as <-. destruct (joined s) eqn:Hj; [unfold join; by rewrite Hj|].
    destruct (join_spec s Hj) as (_ & _ & E & _). congruence.
  - destruct (processes s !! i) as [[]|]; try done. injection Hs as <-. by destruct (joined s).
  - destruct (joining s) eqn:Hn; [done|]. destruct (_processing s) eqn:Hp; [done|].
    injection Hs as <-. apply (live_frame s); try done; cbn; [by rewrite Hp|]. apply Hl.
Qed.
