(* ===== verification/StrandProperties.v ===== *)
(** * StrandProperties: exclusion, order, progress and join of the strand *)
From S2P Require Import Prelude CString Bytes Strand StrandInvariants.
Open Scope Z_scope.

(** ** Runs *)

Lemma strand_run_cons e es s s' :
  strand_run (e :: es) s = Some s' <->
  exists s1, strand_step e s = Some s1 /\ strand_run es s1 = Some s'.
Proof.
  unfold strand_run at 1. cbn. destruct (strand_step e s) as [s1|] eqn:E; cbn; [naive_solver|].
  split; [|naive_solver]. intros H. exfalso. revert H. by induction es.
Qed.

(** What every step preserves, every run preserves. *)
Lemma strand_run_ind (P : StrandPrivate -> Prop) :
  (forall e s s', P s -> strand_step e s = Some s' -> P s') ->
  forall es s s', P s -> strand_run es s = Some s' -> P s'.
Proof.
  intros HP es. induction es as [|e es IH]; intros s s' Hs; [by intros [= <-]|].
  intros (s1 & H1 & H2)%strand_run_cons. eauto.
Qed.

Lemma reachable_run es s s' : strand_reachable s -> strand_run es s = Some s' -> strand_reachable s'.
Proof. apply strand_run_ind. intros. by eapply strand_reachable_step. Qed.

Record strand_inv (s : StrandPrivate) : Prop := {
  inv_exclusive : exclusive s;
  inv_fifo : strand_fifo s;
  inv_live : strand_live s;
}.

Lemma strand_inv_new : strand_inv StrandPrivate_new.
Proof.
  split.
  - unfold exclusive. cbn. lia.
  - split; cbn; try done; try lia; try apply NoDup_nil_2; set_solver.
  - intros _ _. split; cbn; set_solver.
Qed.

Lemma step_inv e s s' : strand_inv s -> strand_step e s = Some s' -> strand_inv s'.
Proof.
  intros [He Hf Hl] Hs. split; [by eapply step_exclusive | by eapply step_fifo | by eapply step_live].
Qed.

Lemma strand_reachable_inv s : strand_reachable s -> strand_inv s.
Proof. induction 1; [apply strand_inv_new | by eapply step_inv]. Qed.

(** *** The work of the processes *)

Definition internal (e : strand_event) : bool :=
  match e with
  | ProcessStarts | ProcessPops _ | ProcessFinishes _ _ | ProcessTests _ _ | ProcessStops _ => true
  | _ => false
  end.

Definition pc_weight (pc : process_pc) : nat :=
  match pc with AtLock => 1 | AtStop => 3 | AtTest => 4 | Executing _ => 5 end.

(** Bounds the internal steps that remain. *)
Definition work (s : StrandPrivate) : nat :=
  5 * length (_queue s) + 2 * scheduled s + sum_list_with pc_weight (processes s).

Lemma work_bound s : exclusive s -> (work s <= 5 * length (_queue s) + 5)%nat.
Proof.
  unfold work, exclusive. intros He. destruct (processes s) as [|pc [|? ?]]; cbn.
  - destruct (_processing s); cbn in He; lia.
  - destruct (_processing s); cbn in He; [|lia]. destruct pc; cbn; lia.
  - destruct (_processing s); cbn in He; lia.
Qed.

Definition progress_of (s s' : StrandPrivate) : Prop :=
  (work s' < work s)%nat /\ executed s' ++ _queue s' = executed s ++ _queue s
  /\ _dying s' = false /\ _curId s' = _curId s.

Lemma internal_step e s s' :
  exclusive s -> live s -> _dying s = false -> internal e = true -> strand_step e s = Some s' ->
  progress_of s s'.
Proof.
  intros He Hl Hd Hi Hs. assert (Hsingle := exclusive_single s). unfold progress_of, work.
  destruct e as [delay never|never|h|h stopped| |i|i threw|i again|i| |i|]; try done; cbn [strand_step] in Hs.
  - destruct (scheduled s) as [|n] eqn:Hn; [done|]. injection Hs as <-.
    split_and!; try done. cbn. rewrite sum_list_with_app. cbn. lia.
  - destruct (processes s !! i) as [[]|] eqn:Hpi; try done.
    destruct (Hsingle _ _ He Hpi) as (-> & Hps & Hsc & Hpc). unfold process_pop in Hs.
    rewrite Hd in Hs. destruct (_queue s) as [|h q] eqn:Hq.
    + injection Hs as <-. cbn. rewrite Hps, Hsc, Hq, Hd. cbn. split_and!; (done || lia).
    + apply bind_Some in Hs as (c & Hc & [= <-]).
      destruct (live_lookup s h c Hl Hc) as (Hrc & _ & _).
      destruct Hrc as [Hr _]; [rewrite Hq; apply list_elem_of_here|]. unfold runnable in Hr. rewrite Hr.
      cbn. rewrite Hps, Hsc, Hd, <- app_assoc. cbn. split_and!; (done || lia).
  - destruct (processes s !! i) as [[]|] eqn:Hpi; try done.
    destruct (Hsingle _ _ He Hpi) as (-> & Hps & Hsc & Hpc). apply bind_Some in Hs as (c & Hc & Hs).
    destruct (live_lookup s h c Hl Hc) as (_ & _ & Hec).
    rewrite decide_True in Hs by (apply Hec; rewrite Hps; apply list_elem_of_here).
    injection Hs as <-. cbn. rewrite Hps, Hsc, Hd. cbn. split_and!; (done || lia).
  - destruct (processes s !! i) as [[]|] eqn:Hpi; try done. injection Hs as <-.
    destruct (Hsingle _ _ He Hpi) as (-> & Hps & Hsc & Hpc).
    cbn. rewrite Hps, Hsc, Hd. destruct again; cbn; split_and!; (done || lia).
  - destruct (processes s !! i) as [[]|] eqn:Hpi; try done. injection Hs as <-.
    destruct (Hsingle _ _ He Hpi) as (-> & Hps & Hsc & Hpc). unfold stopProcess. rewrite Hd.
    cbn. rewrite Hps, Hsc, Hd. cbn. split_and!; (done || lia).
Qed.

(** As long as [_processing] is set, an internal step is possible. *)
Lemma internal_enabled s :
  live s -> _dying s = false -> _processing s = true ->
  exists e, internal e = true /\ is_Some (strand_step e s).
Proof.
  intros Hl Hd Hp. pose proof (live_processing s Hl Hp) as Hn.
  destruct (processes s) as [|pc [|? ?]] eqn:Hps; cbn in Hn; [| | lia].
  - exists ProcessStarts. split; [done|]. cbn. destruct (scheduled s); [lia | by eexists].
  - assert (Hpi : processes s !! 0%nat = Some pc) by (by rewrite Hps).
    destruct pc as [|h| |].
    + exists (ProcessPops 0). split; [done|]. cbn -[process_pop]. rewrite Hpi. unfold process_pop.
      rewrite Hd. destruct (_queue s) as [|h q] eqn:Hq; [by eexists|].
      destruct (live_queue s Hl h) as (c & -> & _); [rewrite Hq; apply list_elem_of_here | by eexists].
    + exists (ProcessFinishes 0 false). split; [done|]. cbn -[process_finish]. rewrite Hpi.
      unfold process_finish. destruct (live_executing s Hl h) as (c & -> & _ & Hr).
      * rewrite Hps. apply list_elem_of_here.
      * cbn. rewrite decide_True by done. by eexists.
    + exists (ProcessTests 0 true). split; [done|]. cbn. rewrite Hpi. by eexists.
    + exists (ProcessStops 0). split; [done|]. cbn. rewrite Hpi. by eexists.
Qed.

Lemma internal_run es : forall s s',
  strand_inv s -> _dying s = false -> _curId s < 2 ^ 32 -> Forall (fun e => internal e = true) es ->
  strand_run es s = Some s' ->
  (length es + work s' <= work s)%nat /\ executed s' ++ _queue s' = executed s ++ _queue s
  /\ strand_inv s' /\ live s' /\ _dying s' = false.
Proof.
  induction es as [|e es IH]; intros s s' Hinv Hd Hid Hes Hs.
  - injection Hs as <-. split_and!; try done. by apply Hinv.
  - apply Forall_cons in Hes as [He Hes]. apply strand_run_cons in Hs as (s1 & Hs1 & Hs).
    destruct (internal_step e s s1) as (Hw & Hx & Hd1 & Hid1); try done; try by apply Hinv.
    destruct (IH s1 s') as (Hw' & Hx' & Hrest); try done; [by eapply step_inv | lia |].
    rewrite length_cons. split; [lia|]. split; [congruence | done].
Qed.

(** ** Joining *)

(** A thread that waits in [join], or has returned from it, has emptied the
    queue for good. *)
Record join_inv (s : StrandPrivate) : Prop := {
  join_dying : joined s = true \/ (0 < joining s)%nat -> _dying s = true /\ _queue s = [];
  join_done : joined s = true -> _processing s = false;
}.

(** While the strand is dying, nothing is pushed. *)
Lemma enqueue_dying h s s' : _dying s = true -> enqueue h s = Some s' -> s' = trySetError h s.
Proof.
  intros Hd (c & _ & [[_ ->] | [(Hd' & _) | (Hd' & _)]])%enqueue_cases; [done | congruence..].
Qed.

(** What a step of a dying strand leaves as it is. *)
Definition dead_step (s s' : StrandPrivate) : Prop :=
  (_queue s = [] -> _queue s' = []) /\ executed s' = executed s
  /\ (_processing s = false -> _processing s' = false)
  /\ (length (processes s') + scheduled s' <= length (processes s) + scheduled s)%nat.

Lemma cancel_dying h stopped s s' :
  _dying s = true -> cancel h stopped s = Some s' ->
  _queue s' = _queue s /\ executed s' = executed s /\ _processing s' = _processing s.
Proof.
  unfold cancel. intros Hd (c & _ & Hs)%bind_Some. destruct (onCancel c); cbn in Hs.
  - rewrite Hd in Hs. by injection Hs as <-.
  - by injection Hs as <-.
Qed.

Lemma step_dead e s s' : _dying s = true -> strand_step e s = Some s' -> dead_step s s'.
Proof.
  intros Hd Hs. unfold dead_step.
  destruct e as [delay never|never|h|h stopped| |i|i threw|i again|i| |i|]; cbn [strand_step] in Hs.
  - unfold deferImpl in Hs. rewrite Hd in Hs. by injection Hs as <-.
  - unfold postImpl in Hs. by apply enqueue_dying in Hs as ->.
  - case_decide; [|done]. by apply enqueue_dying in Hs as ->.
  - destruct (cancel_dying _ _ _ _ Hd Hs) as (-> & -> & ->).
    by destruct (cancel_same _ _ _ _ Hs) as (-> & -> & _).
  - destruct (scheduled s) as [|n]; [done|]. injection Hs as <-. cbn. rewrite length_app. cbn.
    split_and!; (done || lia).
  - destruct (processes s !! i) as [[]|] eqn:Hi; try done. unfold process_pop in Hs. rewrite Hd in Hs.
    injection Hs as <-. cbn. by rewrite length_insert.
  - destruct (processes s !! i) as [[]|] eqn:Hi; try done. apply bind_Some in Hs as (c & _ & Hs).
    apply delete_length in Hi. case_decide; injection Hs as <-; cbn; rewrite ?length_insert.
    + done.
    + split_and!; (done || lia).
  - destruct (processes s !! i) as [[]|] eqn:Hi; try done. injection Hs as <-. cbn. by rewrite length_insert.
  - destruct (processes s !! i) as [[]|] eqn:Hi; try done. apply delete_length in Hi.
    unfold stopProcess in Hs. rewrite Hd in Hs. injection Hs as <-. cbn. split_and!; (done || lia).
  - injection Hs as <-. destruct (joined s) eqn:Hj; [unfold join; by rewrite Hj|].
    destruct (join_spec s Hj) as ((-> & -> & ->) & -> & _ & _ & _ & _ & _ & _ & ->). done.
  - destruct (processes s !! i) as [[]|]; try done. injection Hs as <-. by destruct (joined s).
  - destruct (joining s); [done|]. destruct (_processing s) eqn:Hp; [done|]. by injection Hs as <-.
Qed.

Lemma enqueue_joined h s s' :
  enqueue h s = Some s' -> joined s' = joined s /\ joining s' = joining s.
Proof.
  intros (c & _ & [[_ ->] | [(_ & _ & ->) | (_ & _ & Hp)]])%enqueue_cases; try done.
  by destruct Hp as (_ & _ & _ & _ & _ & _ & _ & ? & ? & _).
Qed.

(** Only [join] changes what the threads that join know. *)
Lemma step_joined e s s' :
  strand_step e s = Some s' -> e <> Join -> e <> JoinReturns ->
  joined s' = joined s /\ joining s' = joining s.
Proof.
  intros Hs H1 H2.
  destruct e as [delay never|never|h|h stopped| |i|i threw|i again|i| |i|]; try done; cbn [strand_step] in Hs.
  - unfold deferImpl in Hs. destruct (_dying s); [by injection Hs as <-|]. cbn in Hs.
    destruct delay; [by injection Hs as <-|]. by apply enqueue_joined in Hs.
  - by apply enqueue_joined in Hs.
  - case_decide; [|done]. by apply enqueue_joined in Hs.
  - unfold cancel in Hs. apply bind_Some in Hs as (c & _ & Hs).
    destruct (onCancel c); cbn in Hs; [|by injection Hs as <-].
    destruct (_dying s); [by injection Hs as <-|].
    destruct (state c), (NeverSkipExecution c), stopped; by injection Hs as <-.
  - destruct (scheduled s); [done|]. by injection Hs as <-.
  - destruct (processes s !! i) as [[]|]; try done. unfold process_pop in Hs.
    destruct (_dying s); [by injection Hs as <-|]. destruct (_queue s); [by injection Hs as <-|].
    apply bind_Some in Hs as (c & _ & [= <-]). by destruct (state c), (NeverSkipExecution c).
  - destruct (processes s !! i) as [[]|]; try done. apply bind_Some in Hs as (c & _ & Hs).
    case_decide; by injection Hs as <-.
  - destruct (processes s !! i) as [[]|]; try done. by injection Hs as <-.
  - destruct (processes s !! i) as [[]|]; try done. injection Hs as <-. unfold stopProcess.
    by destruct (_dying s).
  - destruct (processes s !! i) as [[]|]; try done. injection Hs as <-.
    by destruct (joined s) eqn:Hj.
Qed.

Lemma step_join_inv e s s' : join_inv s -> strand_step e s = Some s' -> join_inv s'.
Proof.
  intros [H1 H2] Hs. destruct (step_forward e s s' Hs) as [Hd _].
  assert (Hdead : _dying s = true -> dead_step s s') by (intros ?; by eapply step_dead).
  assert (Hold : joined s = true \/ (0 < joining s)%nat -> _dying s' = true /\ _queue s' = []).
  { intros H%H1. destruct (Hdead (proj1 H)) as (Hq & _). split; [apply Hd | apply Hq]; apply H. }
  destruct (decide (joined s = true)) as [Hj|Hj%not_true_is_false].
  { split; [by intros _; apply Hold; left|]. intros _.
    destruct (Hdead (proj1 (H1 (or_introl Hj)))) as (_ & _ & Hp & _). by apply Hp, H2. }
  assert (Hother : joined s' = joined s /\ joining s' = joining s -> join_inv s').
  { intros [E1 E2]. split; rewrite E1, ?E2; [done | by rewrite Hj]. }
  destruct e; try (apply Hother; by apply step_joined in Hs).
  - cbn in Hs. injection Hs as <-. destruct (join_spec s Hj) as (_ & Hq & Hdy & Hjd & _).
    split; [by rewrite Hq, Hdy | by rewrite Hjd].
  - cbn in Hs. destruct (joining s) as [|n] eqn:Hn; [done|].
    destruct (_processing s) eqn:Hp; [done|]. injection Hs as <-.
    split; [intros _; apply Hold; right; lia | done].
Qed.

Lemma reachable_join_inv s : strand_reachable s -> join_inv s.
Proof.
  induction 1 as [|s e s' _ IH Hs]; [|by eapply step_join_inv].
  split; cbn; [|done]. intros [|]; [done | lia].
Qed.

(** The state of a strand that will never finish to join: [_processing] is set
    and no call of [process] is left to reset it. *)
Record stuck (s : StrandPrivate) : Prop := {
  stuck_dying : _dying s = true;
  stuck_joined : joined s = false;
  stuck_processing : _processing s = true;
  stuck_processes : processes s = [];
  stuck_scheduled : scheduled s = 0%nat;
}.

Lemma step_stuck e s s' : stuck s -> strand_step e s = Some s' -> stuck s'.
Proof.
  intros [Hd Hj Hp Hps Hsc] Hs.
  destruct e as [delay never|never|h|h stopped| |i|i threw|i again|i| |i|]; cbn [strand_step] in Hs;
    rewrite ?Hps, ?Hsc, ?Hp, ?lookup_nil in Hs; try done.
  - unfold deferImpl in Hs. rewrite Hd in Hs. by injection Hs as <-.
  - unfold postImpl in Hs. by apply enqueue_dying in Hs as ->.
  - case_decide; [|done]. by apply enqueue_dying in Hs as ->.
  - destruct (step_joined (CancelFuture h stopped) s s' Hs) as [Hj' _]; [done..|].
    destruct (cancel_same _ _ _ _ Hs) as (E1 & E2 & E3).
    destruct (step_forward (CancelFuture h stopped) s s' Hs) as [Hd' _].
    split; [by apply Hd' | congruence..].
  - injection Hs as <-. destruct (join_spec s Hj) as ((E1 & E2 & E3) & _ & E4 & E5 & _).
    split; congruence.
  - destruct (joining s); done.
Qed.

(** ** The properties *)

(** C13. In every reachable state at most one call of [process] is asked for or
    running, so that no two tasks of a strand run at the same time; the tasks
    that were executed followed by those that wait are, in order, among those
    that were pushed, and no task is pushed twice: each runs at most once, in
    the order of the pushes. *)
Theorem strand_exclusive s :
  strand_reachable s ->
  (length (processes s) + scheduled s <= 1)%nat
  /\ executed s ++ _queue s `sublist_of` enqueued s /\ NoDup (enqueued s).
Proof.
  intros [He Hf _]%strand_reachable_inv. split; [|split; apply Hf].
  unfold exclusive in He. destruct (_processing s); lia.
Qed.

(** C14. While the strand is not dying, whatever the choices of the executor and
    of the clock, the calls of [process] alone execute the whole queue in order:
    there are at most five steps per task and five more, and such a run can be
    continued until the queue is empty and [_processing] is reset. *)
Theorem strand_drains s es s' :
  strand_reachable s -> _dying s = false -> _curId s < 2 ^ 32 ->
  Forall (fun e => internal e = true) es -> strand_run es s = Some s' ->
  (length es <= 5 * length (_queue s) + 5)%nat
  /\ executed s' ++ _queue s' = executed s ++ _queue s
  /\ ((exists e, internal e = true /\ is_Some (strand_step e s'))
      \/ (_queue s' = [] /\ _processing s' = false)).
Proof.
  intros Hr Hd Hid Hes Hs. apply strand_reachable_inv in Hr as Hinv.
  destruct (internal_run es s s' Hinv Hd Hid Hes Hs) as (Hw & Hx & _ & Hl & Hd').
  split_and!; [|done|].
  - pose proof (work_bound s (inv_exclusive s Hinv)). lia.
  - destruct (_processing s') eqn:Hp; [left; by apply internal_enabled|right]. split; [|done].
    destruct (_queue s') as [|h q] eqn:Hq; [done|].
    rewrite (live_pending s' Hl) in Hp; [done | by rewrite Hq].
Qed.

(** Once [join] has returned, no call of [process] is asked for or running,
    the queue is empty, and nothing is executed ever after. *)
Theorem strand_joined s es s' :
  strand_reachable s -> joined s = true -> strand_run es s = Some s' ->
  processes s = [] /\ scheduled s = 0%nat /\ _queue s = [] /\ executed s' = executed s.
Proof.
  intros Hr Hj Hs. apply reachable_join_inv in Hr as Hi. apply strand_reachable_inv in Hr as Hinv.
  destruct (join_dying s Hi (or_introl Hj)) as [Hd Hq]. pose proof (join_done s Hi Hj) as Hp.
  pose proof (inv_exclusive s Hinv) as He. unfold exclusive in He. rewrite Hp in He.
  split_and!; [apply nil_length_inv; lia | lia | done |].
  assert (_dying s' = true /\ executed s' = executed s) as [_ ?]; [|done].
  revert Hs. apply (strand_run_ind (fun x => _dying x = true /\ executed x = executed s)); [|done].
  intros e x y [Hdx Hx] Hstep. destruct (step_forward e x y Hstep) as [Hdy _].
  destruct (step_dead e x y Hdx Hstep) as (_ & E & _). split; [by apply Hdy | congruence].
Qed.

(** A run in which a future is canceled during [join] while its task runs. *)
Definition join_cancel_run : list strand_event :=
  [Defer false false; ProcessStarts; ProcessPops 0; Join; CancelFuture 1 false;
   ProcessFinishes 0 false].

(** A run without cancelation: the delay of a task ends while the strand is
    processing another, and [join] begins while the delayed task runs. *)
Definition join_delayed_run : list strand_event :=
  [Post false; Defer true false; ProcessStarts; ProcessPops 0; TimerFires 2; ProcessFinishes 0 false;
   ProcessTests 0 true; ProcessPops 0; Join; ProcessFinishes 0 false].

(** [join] may wait for ever. The promise of the running task is set in
    error before the task ends, by [cancel] when its future is canceled after
    [join] has begun, or by [join] itself when the task was delayed and its delay
    ended while the strand was processing, so that [enqueue] did not remove it
    from the group of the deferred tasks; then [setValue] and [setError] both
    throw in [process], which leaves with [_processing] set; no continuation of
    the run has [join] return. *)
Theorem strand_join_stuck :
  Forall (fun run => exists s, strand_run run StrandPrivate_new = Some s /\ joining s = 1%nat
            /\ forall es s', strand_run es s = Some s' -> joined s' = false)
    [join_cancel_run; join_delayed_run].
Proof.
  repeat constructor; eexists; (split; [vm_compute; reflexivity|]); (split; [done|]); intros es s' Hs;
    (eapply stuck_joined, (strand_run_ind stuck step_stuck); [|exact Hs]); by split.
Qed.

(** ** Witnesses *)

(** The state after a run, for the runs that are possible. *)
Definition strand_after (es : list strand_event) : StrandPrivate :=
  default StrandPrivate_new (strand_run es StrandPrivate_new).

Lemma strand_after_reachable es : strand_reachable (strand_after es).
Proof.
  unfold strand_after. destruct (strand_run es StrandPrivate_new) eqn:E; cbn;
    [by eapply reachable_run; [constructor|] | constructor].
Qed.

Lemma strand_exclusive_witness :
  let s := strand_after [Post false; Post false; Defer true false; ProcessStarts; ProcessPops 0;
                         TimerFires 3; ProcessFinishes 0 true] in
  executed s = [1] /\ _queue s = [2; 3] /\ (length (processes s) + scheduled s <= 1)%nat
  /\ executed s ++ _queue s `sublist_of` enqueued s /\ NoDup (enqueued s).
Proof.
  intros s. split; [reflexivity|]. split; [reflexivity|].
  exact (strand_exclusive s (strand_after_reachable _)).
Defined.

Lemma strand_drains_witness :
  let s := strand_after [Post false; Defer false false; Post false; CancelFuture 2 false] in
  let es := [ProcessStarts; ProcessPops 0; ProcessFinishes 0 false; ProcessTests 0 false;
             ProcessStops 0; ProcessStarts; ProcessPops 0; ProcessFinishes 0 true;
             ProcessTests 0 true; ProcessPops 0] in
  _queue s = [1; 3]
  /\ exists s', strand_run es s = Some s' /\ (length es <= 5 * length (_queue s) + 5)%nat
     /\ executed s' ++ _queue s' = executed s ++ _queue s
     /\ ((exists e, internal e = true /\ is_Some (strand_step e s'))
         \/ (_queue s' = [] /\ _processing s' = false)).
Proof.
  intros s es. split; [reflexivity|]. eexists. split; [vm_compute; reflexivity|].
  apply (strand_drains s es); [apply strand_after_reachable | reflexivity | reflexivity | |
    vm_compute; reflexivity].
  repeat constructor.
Defined.

Lemma strand_joined_witness :
  let s := strand_after [Post false; Post false; ProcessStarts; ProcessPops 0; Join;
                         ProcessFinishes 0 false; ProcessTests 0 true; ProcessPops 0; ProcessStops 0;
                         JoinReturns] in
  joined s = true
  /\ exists s', strand_run [Post false; Defer true true; Join] s = Some s'
     /\ processes s = [] /\ scheduled s = 0%nat /\ _queue s = [] /\ executed s' = executed s.
Proof.
  intros s. split; [reflexivity|]. eexists. split; [vm_compute; reflexivity|].
  apply (strand_joined s [Post false; Defer true true; Join]);
    [apply strand_after_reachable | reflexivity | vm_compute; reflexivity].
Defined.
