(* ===== verification/JsonDecoder.v ===== *)
(** * JsonDecoder: the JSON parser

    Model of [JsonDecoderPrivate] ([src/type/jsondecoder.cpp]) and of both
    [decodeJSON], in the default configuration, with Boost.Locale. The iterators
    point into a string that ends with its terminator; the parser is a function
    of its iterator [_it] that may throw, that gives [Some] for [true] with the
    value of its reference argument, and [None] for [false]. *)
From S2P Require Import Prelude CString Bytes TypeInterface Buffer BinaryCodec.
From Stdlib Require Import Ascii.
#[local] Open Scope char_scope.
#[local] Open Scope list_scope.
#[local] Open Scope Z_scope.

(** ** Iterators *)

(** The place of an iterator: the characters of the string from there on, the
    terminator included, and the distance to [_end], which is negative when the
    iterator has passed it. *)
Record iterator := mkIterator {
  ahead : bytes;
  left : Z;
}.

(** The exceptions; [OutOfRange] is an access beyond the terminator,
    [Indeterminate] the use of a variable that has no value. *)
Inductive json_error :=
  | JsonParseError
  | BadLexicalCast
  | OutOfRange
  | Indeterminate
  | JsonOutOfFuel.

Definition at_end (i : iterator) : bool := left i =? 0.
Definition deref (i : iterator) : result json_error ascii :=
  match ahead i with c :: _ => Ok c | [] => Err OutOfRange end.
Definition next (i : iterator) : iterator := mkIterator (tail (ahead i)) (left i - 1).

Definition NUL : ascii := Ascii.zero.
Definition quote : ascii := "034".

(** The iterators on the beginning of a string [s], up to [_end] at [n]. *)
Definition begin_of (s : bytes) (n : Z) : iterator := mkIterator (s ++ [NUL]) n.

Definition parser (A : Type) : Type := iterator -> result json_error (option A * iterator).

Definition parser_map {A B} (f : A -> B) (p : parser A) : parser B := fun i =>
  match p i with
  | Ok (r, it) => Ok (option_map f r, it)
  | Err e => Err e
  end.

(** The characters that satisfy [p], up to [_end], and the iterator after them. *)
Fixpoint scan (p : ascii -> bool) (m : bytes) (n : Z) : result json_error (bytes * iterator) :=
  if n =? 0 then Ok ([], mkIterator m n)
  else
    match m with
    | [] => Err OutOfRange
    | c :: m' =>
        if p c then r ← scan p m' (n - 1); Ok (c :: fst r, snd r) else Ok ([], mkIterator m n)
    end.

(** ** The lexical elements *)

Definition is_white (c : ascii) : bool := bool_decide (c = " ") || bool_decide (c = "010").

Definition skipWhiteSpaces (i : iterator) : result json_error iterator :=
  r ← scan is_white (ahead i) (left i); Ok (snd r).

Definition getDigits : parser bytes := fun i =>
  r ← scan isdigit (ahead i) (left i);
  match fst r with
  | [] => Ok (None, snd r)
  | ds => Ok (Some ds, snd r)
  end.

(** [getInteger(std::string&)]. *)
Definition getInteger_text : parser bytes := fun save =>
  if at_end save then Ok (None, save)
  else
    c ← deref save;
    let '(integerStr, it) := if decide (c = "-") then (["-"], next save) else ([], save) in
    r ← getDigits it;
    match r with
    | (Some digitsStr, it) => Ok (Some (integerStr ++ digitsStr), it)
    | (None, _) => Ok (None, save)
    end.

(** [::atol], which saturates. *)
Definition atol (s : bytes) : Z := fst (fst (strtol s)).

(** [getInteger(qi::int64_t&)]. *)
Definition getInteger : parser Z := parser_map atol getInteger_text.

Definition getExponent : parser bytes := fun save =>
  if at_end save then Ok (None, save)
  else
    c ← deref save;
    if negb (bool_decide (c = "e") || bool_decide (c = "E")) then Ok (None, save)
    else
      let it := next save in
      c ← deref it;
      let '(exponentStr, it) :=
        if bool_decide (c = "+") || bool_decide (c = "-") then (["e"; c], next it)
        else (["e"; "+"], it) in
      r ← getDigits it;
      match r with
      | (Some integerStr, it) => Ok (Some (exponentStr ++ integerStr), it)
      | (None, _) => Ok (None, save)
      end.

(** The text that [getFloat] converts. *)
Definition getFloat_text : parser bytes := fun save =>
  r ← getInteger_text save;
  match r with
  | (None, it) => Ok (None, it)
  | (Some beforePoint, it) =>
      r ← getExponent it;
      match r with
      | (Some exponent, it) => Ok (Some (beforePoint ++ exponent), it)
      | (None, it) =>
          if at_end it then Ok (None, save)
          else
            c ← deref it;
            if negb (bool_decide (c = ".")) then Ok (None, save)
            else
              r ← getDigits (next it);
              match r with
              | (None, _) => Ok (None, save)
              | (Some afterPoint, it) =>
                  r ← getExponent it;
                  Ok (Some (beforePoint ++ "." :: afterPoint ++ default [] (fst r)), snd r)
              end
      end
  end.

(** [match]. *)
Fixpoint match_loop (expected : bytes) (m : bytes) (n : Z) : result json_error (bool * iterator) :=
  match expected with
  | [] => Ok (true, mkIterator m n)
  | e :: expected' =>
      if n =? 0 then Ok (false, mkIterator m n)
      else
        match m with
        | [] => Err OutOfRange
        | c :: m' => if decide (c = e) then match_loop expected' m' (n - 1)
                     else Ok (false, mkIterator m n)
        end
  end.

Definition match_ (expected : bytes) : parser unit := fun save =>
  r ← match_loop expected (ahead save) (left save);
  match r with
  | (true, it) => Ok (Some tt, it)
  | (false, _) => Ok (None, save)
  end.

(** ** Strings *)

Definition hex_value (c : ascii) : Z :=
  if isdigit c then code c - 48 else if code c <=? 70 then code c - 55 else code c - 87.
Definition hexadecimal_value (s : bytes) : Z := fold_left (fun acc c => acc * 16 + hex_value c) s 0.

(** [ss >> std::hex >> val] on a stream that has only these characters, then
    [ss.eof()]: spaces, a sign, a prefix and digits; a failed conversion gives 0,
    but nothing is assigned when there are only spaces. [None] is a stream that
    has not reached its end. *)
Definition read_hex (s : bytes) : result json_error (option Z) :=
  match snd (span isspace s) with
  | [] => Err Indeterminate
  | c :: s1 =>
      let '(negative, s2) := if decide (c = "-") then (true, s1)
                             else if decide (c = "+") then (false, s1) else (false, c :: s1) in
      let s3 := match s2 with
                | z :: x :: r => if bool_decide (z = "0") && (bool_decide (x = "x") || bool_decide (x = "X"))
                                 then r else s2
                | _ => s2
                end in
      let '(ds, rest) := span isxdigit s3 in
      match rest with
      | [] => Ok (Some (wrap 32 (if negative : bool then - hexadecimal_value ds else hexadecimal_value ds)))
      | _ => Ok None
      end
  end.

(** The characters after a backslash that stand for one character. *)
Definition simple_escape (c : ascii) : option ascii :=
  if decide (c = quote) then Some quote
  else if decide (c = "\") then Some "\"
  else if decide (c = "/") then Some "/"
  else if decide (c = "b") then Some "008"
  else if decide (c = "f") then Some "012"
  else if decide (c = "n") then Some "010"
  else if decide (c = "r") then Some "013"
  else if decide (c = "t") then Some "009"
  else None.

Section decoder.

(** The conversions of Boost: [boost::locale::conv::utf_to_utf<char>] of one
    character, and [boost::lexical_cast<double>], which may throw. *)
Context (utf_to_utf : Z -> bytes) (lexical_cast_double : bytes -> option Z).

(** The loop of [getCleanString]: [None] is a malformed string, otherwise the
    characters up to the closing quote or to [_end]. *)
Fixpoint clean_loop (m : bytes) (n : Z) : result json_error (option bytes * iterator) :=
  let push c (r : result json_error (option bytes * iterator)) :=
    match r with
    | Ok (Some s, it) => Ok (Some (c ++ s), it)
    | r => r
    end in
  if n =? 0 then Ok (Some [], mkIterator m n)
  else
    match m with
    | [] => Err OutOfRange
    | c :: m1 =>
        if decide (c = quote) then Ok (Some [], mkIterator m n)
        else if decide (c = "\") then
          if n - 1 =? 0 then Ok (None, mkIterator m n)
          else
            match m1 with
            | [] => Err OutOfRange
            | d :: m2 =>
                match simple_escape d with
                | Some x => push [x] (clean_loop m2 (n - 2))
                | None =>
                    if decide (d = "u") then
                      if n <=? 6 then Ok (None, mkIterator m n)
                      else
                        match m2 with
                        | h1 :: h2 :: h3 :: h4 :: m6 =>
                            val ← read_hex [h1; h2; h3; h4];
                            match val with
                            | Some val => push (utf_to_utf val) (clean_loop m6 (n - 6))
                            | None => Ok (None, mkIterator m n)
                            end
                        | _ => Err OutOfRange
                        end
                    else Ok (None, mkIterator m n)
                end
            end
        else push [c] (clean_loop m1 (n - 1))
    end.

Definition getCleanString : parser bytes := fun save =>
  if at_end save then Ok (None, save)
  else
    c ← deref save;
    if negb (bool_decide (c = quote)) then Ok (None, save)
    else
      let it := next save in
      r ← clean_loop (ahead it) (left it);
      match r with
      | (None, _) => Ok (None, save)
      | (Some tmpString, it) => if at_end it then Ok (None, save) else Ok (Some tmpString, next it)
      end.

(** ** Values *)

(** An [AnyValue] that is valid: its type and its content. *)
Definition AnyValue : Type := (ty * value)%type.

Definition dynamic (v : AnyValue) : value := VDynamic (Some v).

Definition decodeFloat : parser AnyValue := fun i =>
  r ← getFloat_text i;
  match r with
  | (None, it) => Ok (None, it)
  | (Some floatStr, it) =>
      match lexical_cast_double floatStr with
      | Some result => Ok (Some (TFloat 8, VFloat result), it)
      | None => Err BadLexicalCast
      end
  end.

Definition decodeInteger : parser AnyValue := parser_map (fun z => (TInt true 8, VInt z)) getInteger.

Definition decodeString : parser AnyValue := parser_map (fun s => (TString, VString s)) getCleanString.

(** [p() || q()]. *)
Definition or_else {A} (p q : parser A) : parser A := fun i =>
  r ← p i;
  match r with
  | (Some a, it) => Ok (Some a, it)
  | (None, it) => q it
  end.

Definition decodeSpecial : parser AnyValue := fun i =>
  if at_end i then Ok (None, i)
  else
    let special s v := parser_map (fun _ => v) (match_ s) in
    or_else (special (lit "true") (TInt false 0, VInt 1))
      (or_else (special (lit "false") (TInt false 0, VInt 0))
         (special (lit "null") (TVoid, VVoid))) i.

(** [tmpMap[key] = tmpValue], on the sorted elements of the [std::map]. *)
Fixpoint map_set (key : bytes) (v : AnyValue) (m : list (bytes * AnyValue)) :
    list (bytes * AnyValue) :=
  match m with
  | [] => [(key, v)]
  | (k, w) :: m' =>
      match str_compare key k with
      | Lt => (key, v) :: m
      | Eq => (key, v) :: m'
      | Gt => (k, w) :: map_set key v m'
      end
  end.

Definition AnyValue_of_array (l : list AnyValue) : AnyValue := (TList TDynamic, VList (map dynamic l)).
Definition AnyValue_of_map (m : list (bytes * AnyValue)) : AnyValue :=
  (TMap TString TDynamic, VMap (map (fun p => (VString (fst p), dynamic (snd p))) m)).

(** The loop of [decodeArray], from the array that is built so far. *)
Fixpoint array_loop (decodeValue : parser AnyValue) (fuel : nat) (tmpArray : list AnyValue)
    (it : iterator) : result json_error (list AnyValue * iterator) :=
  match fuel with
  | O => Err JsonOutOfFuel
  | S f =>
      r ← decodeValue it;
      match r with
      | (None, it) => Ok (tmpArray, it)
      | (Some subElement, it) =>
          let tmpArray := tmpArray ++ [subElement] in
          c ← deref it;
          if negb (bool_decide (c = ",")) then Ok (tmpArray, it)
          else array_loop decodeValue f tmpArray (next it)
      end
  end.

Definition decodeArray (decodeValue : parser AnyValue) (fuel : nat) : parser AnyValue := fun save =>
  if at_end save then Ok (None, save)
  else
    c ← deref save;
    if negb (bool_decide (c = "[")) then Ok (None, save)
    else
      r ← array_loop decodeValue fuel [] (next save);
      let '(tmpArray, it) := r in
      c ← deref it;
      if negb (bool_decide (c = "]")) then Ok (None, save)
      else Ok (Some (AnyValue_of_array tmpArray), next it).

(** The loop of [decodeObject]: [None] is its [return false]. *)
Fixpoint object_loop (decodeValue : parser AnyValue) (fuel : nat) (tmpMap : list (bytes * AnyValue))
    (it : iterator) : result json_error (option (list (bytes * AnyValue)) * iterator) :=
  match fuel with
  | O => Err JsonOutOfFuel
  | S f =>
      it ← skipWhiteSpaces it;
      r ← getCleanString it;
      match r with
      | (None, it) => Ok (Some tmpMap, it)
      | (Some key, it) =>
          it ← skipWhiteSpaces it;
          if at_end it then Ok (None, it)
          else
            c ← deref it;
            if negb (bool_decide (c = ":")) then Ok (None, it)
            else
              r ← decodeValue (next it);
              match r with
              | (None, it) => Ok (None, it)
              | (Some tmpValue, it) =>
                  if at_end it then Ok (Some tmpMap, it)
                  else
                    let tmpMap := map_set key tmpValue tmpMap in
                    c ← deref it;
                    if negb (bool_decide (c = ",")) then Ok (Some tmpMap, it)
                    else object_loop decodeValue f tmpMap (next it)
              end
      end
  end.

Definition decodeObject (decodeValue : parser AnyValue) (fuel : nat) : parser AnyValue := fun save =>
  if at_end save then Ok (None, save)
  else
    c ← deref save;
    if negb (bool_decide (c = "{")) then Ok (None, save)
    else
      r ← object_loop decodeValue fuel [] (next save);
      match r with
      | (None, _) => Ok (None, save)
      | (Some tmpMap, it) =>
          if at_end it then Ok (None, save)
          else
            c ← deref it;
            if negb (bool_decide (c = "}")) then Ok (None, save)
            else Ok (Some (AnyValue_of_map tmpMap), next it)
      end.

Fixpoint decodeValue (fuel : nat) : parser AnyValue := fun it =>
  match fuel with
  | O => Err JsonOutOfFuel
  | S f =>
      it ← skipWhiteSpaces it;
      r ← or_else decodeSpecial (or_else decodeString (or_else decodeFloat (or_else decodeInteger
            (or_else (decodeArray (decodeValue f) f) (decodeObject (decodeValue f) f))))) it;
      match r with
      | (Some value, it) => it ← skipWhiteSpaces it; Ok (Some value, it)
      | (None, it) => Ok (None, it)
      end
  end.

(** [JsonDecoderPrivate::decode]. *)
Definition decode (it : iterator) : result json_error (AnyValue * iterator) :=
  r ← decodeValue (S (length (ahead it))) it;
  match r with
  | (Some out, it) => Ok (out, it)
  | (None, _) => Err JsonParseError
  end.

(** [decodeJSON(begin, end, target)] where [begin] is the beginning of the
    string [s] and [end] is at [n], and [decodeJSON(in)]. *)
Definition decodeJSON_range (s : bytes) (n : Z) : result json_error (AnyValue * iterator) :=
  decode (begin_of s n).

Definition decodeJSON (s : bytes) : result json_error AnyValue :=
  r ← decodeJSON_range s (zlen s); Ok (fst r).
End decoder.
