(* ===== verification/JsonEncoder.v ===== *)
(** * JsonEncoder: the JSON printer

    Model of [src/type/jsonencoder.cpp] in the default configuration, with
    Boost.Locale: the text that [serialize] appends to its stream. Floating point
    numbers are printed in the format of [std::ostream] with the precision
    [max_digits10], which is that of ["%.*g"]. *)
From S2P Require Import Prelude CString Bytes TypeInterface Buffer BinaryCodec JsonDecoder.
From Stdlib Require Import Ascii.
#[local] Open Scope char_scope.
#[local] Open Scope list_scope.
#[local] Open Scope Z_scope.

(** ** Numbers *)

(** [out << n]. *)
Definition print_integer (n : Z) : bytes := if n <? 0 then "-" :: to_decimal (- n) else to_decimal n.

(** The number in a floating point representation of [mb] and [eb] bits. *)
Inductive float_class :=
  | Finite (negative : bool) (m e : Z)      (* m * 2^e *)
  | Infinite (negative : bool)
  | NotANumber (negative : bool).

Definition float_of_bits (mb eb bits : Z) : float_class :=
  let negative := Z.testbit bits (mb + eb) in
  let e := Z.land (Z.shiftr bits mb) (2 ^ eb - 1) in
  let f := Z.land bits (2 ^ mb - 1) in
  let bias := 2 ^ (eb - 1) - 1 in
  if e =? 2 ^ eb - 1 then if f =? 0 then Infinite negative else NotANumber negative
  else if e =? 0 then Finite negative f (1 - bias - mb)
  else Finite negative (f + 2 ^ mb) (e - bias - mb).

(** The quotient rounded to the nearest, ties to even. *)
Definition round_div (n d : Z) : Z :=
  let q := n / d in
  match 2 * (n mod d) ?= d with
  | Lt => q
  | Gt => q + 1
  | Eq => if Z.even q then q else q + 1
  end.

(** m * 2^e * 10^k as a fraction. *)
Definition scaled (m e k : Z) : Z * Z :=
  (m * 2 ^ Z.max e 0 * 10 ^ Z.max k 0, 2 ^ Z.max (- e) 0 * 10 ^ Z.max (- k) 0).

(** The decimal exponent: the greatest [x] with 10^x <= m * 2^e, from an
    underestimate. *)
Fixpoint decimal_exponent (fuel : nat) (m e x : Z) : Z :=
  match fuel with
  | O => x
  | S f =>
      let '(n, d) := scaled m e (- (x + 1)) in
      if d <=? n then decimal_exponent f m e (x + 1) else x
  end.

(** The [p] significant digits of m * 2^e, and its exponent. *)
Definition significant_digits (p m e : Z) : bytes * Z :=
  let x := decimal_exponent 4 m e ((Z.log2 m + e) * 30103 / 100000 - 1) in
  let '(n, d) := scaled m e (p - 1 - x) in
  let q := round_div n d in
  if q =? 10 ^ p then (to_decimal (10 ^ (p - 1)), x + 1) else (to_decimal q, x).

(** A number without its trailing zeros. *)
Fixpoint strip_zeros (s : bytes) : bytes :=
  match s with
  | [] => []
  | c :: s' => match strip_zeros s' with
               | [] => if decide (c = "0") then [] else [c]
               | r => c :: r
               end
  end.

(** The parts of the text of a finite number. *)
Record decimal_text := mkDecimal {
  negative : bool;
  integer_part : bytes;
  fraction : bytes;
  exponent : option Z;
}.

Definition format_number (p : Z) (neg : bool) (m e : Z) : decimal_text :=
  if m =? 0 then mkDecimal neg ["0"] [] None
  else
    let '(digits, x) := significant_digits p m e in
    if (x <? -4) || (p <=? x) then
      mkDecimal neg (take 1 digits) (strip_zeros (drop 1 digits)) (Some x)
    else if x <? 0 then
      mkDecimal neg ["0"] (repeat "0" (Z.to_nat (- x - 1)) ++ strip_zeros digits) None
    else mkDecimal neg (take (Z.to_nat (x + 1)) digits) (strip_zeros (drop (Z.to_nat (x + 1)) digits)) None.

Definition print_exponent (x : Z) : bytes :=
  let d := to_decimal (Z.abs x) in
  ["e"; if x <? 0 then "-" else "+"] ++ (if length d =? 1 then "0" :: d else d)%nat.

Definition print_decimal (d : decimal_text) : bytes :=
  (if negative d then ["-"] else []) ++ integer_part d
  ++ (match fraction d with [] => [] | f => "." :: f end)
  ++ (match exponent d with None => [] | Some x => print_exponent x end).

(** [out << value] for a [float] and for a [double]. *)
Definition print_float (p mb eb bits : Z) : bytes :=
  let sign (neg : bool) := if neg then ["-"] else [] in
  match float_of_bits mb eb bits with
  | Finite neg m e => print_decimal (format_number p neg m e)
  | Infinite neg => sign neg ++ lit "inf"
  | NotANumber neg => sign neg ++ lit "nan"
  end.

Definition float_text (byteSize bits : Z) : bytes :=
  if byteSize =? 4 then print_float 9 23 8 bits
  else if byteSize =? 8 then print_float 17 52 11 bits
  else [].

(** ** Strings *)

Definition JsonOption_None : Z := 0.
Definition JsonOption_PrettyPrint : Z := 1.
Definition JsonOption_Expand : Z := 2.

Definition to_hex_char (c : Z) : ascii :=
  if c <? 10 then ascii_of_N (Z.to_N (48 + c)) else ascii_of_N (Z.to_N (65 - 10 + c)).

Definition non_printable_to_string (c : Z) : bytes :=
  let digit k := to_hex_char (Z.land (Z.shiftr c k) 15) in
  ["\"; "u"; digit 12; digit 8; digit 4; digit 0].

(** [add_esc_char]: what is added to the string, or [None]. *)
Definition add_esc_char (c : ascii) (jsonPrintOption : Z) : option bytes :=
  if Z.land jsonPrintOption JsonOption_Expand =? 0 then
    if decide (c = quote) then Some ["\"; quote]
    else if decide (c = "\") then Some ["\"; "\"]
    else if decide (c = "008") then Some ["\"; "b"]
    else if decide (c = "012") then Some ["\"; "f"]
    else if decide (c = "010") then Some ["\"; "n"]
    else if decide (c = "013") then Some ["\"; "r"]
    else if decide (c = "009") then Some ["\"; "t"]
    else None
  else Some [c].

(** The text of one wide character; a [wchar_t] has 32 bits and is signed. *)
Definition esc_char (c : Z) (jsonPrintOption : Z) : bytes :=
  let narrow := ascii_of_N (Z.to_N (c mod 256)) in
  let plain := if (32 <=? c) && (c <? 127) then [narrow]
               else non_printable_to_string (wrap 32 c) in
  if (-128 <=? c) && (c <=? 127) then default plain (add_esc_char narrow jsonPrintOption) else plain.

Definition add_esc_chars (s : list Z) (jsonPrintOption : Z) : bytes :=
  s ≫= fun c => esc_char c jsonPrintOption.

Section encoder.

(** [boost::locale::conv::to_utf<wchar_t>(s, "UTF-8")]. *)
Context (to_utf : bytes -> list Z).

(** ** The visitor *)

Section visitor.
Context (jsonPrintOption : Z).

Definition pretty : bool := negb (Z.land jsonPrintOption JsonOption_PrettyPrint =? 0).

Definition printIndent (indent : nat) : bytes :=
  if pretty then "010" :: concat (repeat (lit "  ") indent) else [].

Definition printColon : bytes := if pretty then lit ": " else lit ":".

Definition visitInt (value : Z) (isSigned : bool) (byteSize : Z) : bytes :=
  let n := if isSigned then byteSize else - byteSize in
  if n =? 0 then if value =? 0 then lit "false" else lit "true"
  else if bool_decide (n ∈ [1; 2; 4; 8]) then print_integer value
  else if bool_decide (n ∈ [-1; -2; -4; -8]) then print_integer (wrap64 value)
  else [].

Definition visitString (s : bytes) : bytes :=
  quote :: add_esc_chars (to_utf s) jsonPrintOption ++ [quote].

(** A message in place of a value that is not serialized. *)
Definition error_text (s : bytes) : bytes := quote :: lit "Error: no serialization for " ++ s ++ [quote].

(** The elements of a list, each after its indentation, separated by commas. *)
Fixpoint join_texts (indent : nat) (l : list bytes) : bytes :=
  match l with
  | [] => []
  | [x] => printIndent indent ++ x
  | x :: l' => printIndent indent ++ x ++ "," :: join_texts indent l'
  end.

(** [visitList], and the array of a tuple without annotations, which indents
    before its closing bracket even when it is empty. *)
Definition visitList (indent : nat) (l : list bytes) : bytes :=
  "[" :: join_texts (S indent) l ++ (match l with [] => [] | _ => printIndent indent end) ++ ["]"].

Definition visitMap (indent : nat) (l : list bytes) : bytes :=
  "{" :: join_texts (S indent) l ++ (match l with [] => [] | _ => printIndent indent end) ++ ["}"].

Definition visitTuple (indent : nat) (annotations : list bytes) (l : list bytes) : bytes :=
  match annotations with
  | [] => "[" :: join_texts (S indent) l ++ printIndent indent ++ ["]"]
  | _ => "{" :: join_texts (S indent) (zip_with (fun a x => visitString a ++ printColon ++ x) annotations l)
             ++ printIndent indent ++ ["}"]
  end.

(** [serialize]: the type dispatcher with [SerializeJSONTypeVisitor]. A value
    that is not of its type does not exist in the program. *)
Fixpoint serialize (indent : nat) (t : ty) (v : value) {struct v} : bytes :=
  match v, t with
  | VVoid, TVoid => lit "null"
  | VInt z, TInt isSigned byteSize => visitInt z isSigned byteSize
  | VFloat bits, TFloat byteSize => float_text byteSize bits
  | VString s, TString => visitString s
  | VList l, (TList el | TVarArgs el) => visitList indent (map (serialize (S indent) el) l)
  | VMap l, TMap key el =>
      visitMap indent (map (fun p => serialize (S indent) key (fst p) ++ printColon
                                       ++ serialize (S indent) el (snd p)) l)
  | VTuple l, TTuple _ names ts =>
      visitTuple indent names
        ((fix members (l : list value) (ts : list ty) {struct l} : list bytes :=
            match l, ts with
            | v :: l', t :: ts' => serialize (S indent) t v :: members l' ts'
            | _, _ => []
            end) l ts)
  | VDynamic (Some (t', v')), TDynamic => serialize indent t' v'
  | VDynamic None, TDynamic => []
  | VRaw _, TRaw => error_text (lit "Buffer")
  | VOptional (Some v'), TOptional t' => serialize indent t' v'
  | VOptional None, TOptional _ => lit "null"
  | _, TObject => error_text (lit "object")
  | _, _ => []
  end.
End visitor.

Definition encodeJSON (t : ty) (v : value) (jsonPrintOption : Z) : bytes :=
  serialize jsonPrintOption 0 t v.
End encoder.
