(* ===== verification/JsonProperties.v ===== *)
(** * JsonProperties: the JSON parser on arbitrary text

    On a whole string the parser stays between the beginning of the string and
    its terminator, ends, and gives well-typed values; on a part of a string it
    may read and go past the end that it was given. *)
From S2P Require Import Prelude CString Bytes Signature SignatureGrammar TypeInterface.
From S2P Require Import Buffer BufferProperties BinaryCodec BinaryCodecProperties JsonDecoder.
From Stdlib Require Import Ascii.
#[local] Open Scope char_scope.
#[local] Open Scope list_scope.
#[local] Open Scope Z_scope.

(** ** Iterators inside of a string *)

(** The iterator from which [s] is what remains before [_end], which is the end
    of the string. *)
Definition at_ (s : bytes) : iterator := begin_of s (zlen s).

Lemma at_end_at s : at_end (at_ s) = bool_decide (s = []).
Proof.
  unfold at_end, at_. cbn. destruct s; [done|]. rewrite bool_decide_false by done.
  rewrite zlen_cons. pose proof (zlen_nonneg s). lia.
Qed.

Lemma deref_at s : deref (at_ s) = Ok (hd NUL s).
Proof. by destruct s. Qed.

Lemma next_at c s : next (at_ (c :: s)) = at_ s.
Proof. unfold next, at_, begin_of. cbn. f_equal. rewrite zlen_cons. lia. Qed.

Lemma scan_at p s : scan p (s ++ [NUL]) (zlen s) = Ok (fst (span p s), at_ (snd (span p s))).
Proof.
  induction s as [|c s IH]; cbn [scan app]; [done|].
  rewrite zlen_cons. pose proof (zlen_nonneg s).
  destruct (Z.eqb_spec (1 + zlen s) 0); [lia|]. cbn [span]. destruct (p c).
  - replace (1 + zlen s - 1) with (zlen s) by lia. rewrite IH. by destruct (span p s).
  - cbn. unfold at_, begin_of. by rewrite zlen_cons.
Qed.

Lemma span_length p s : (length (fst (span p s)) + length (snd (span p s)) = length s)%nat.
Proof.
  induction s as [|c s IH]; cbn [span]; [done|]. destruct (p c); [|done].
  destruct (span p s). cbn in *. lia.
Qed.

Lemma skipWhiteSpaces_at s : skipWhiteSpaces (at_ s) = Ok (at_ (snd (span is_white s))).
Proof. unfold skipWhiteSpaces. cbn [ahead left at_ begin_of]. by rewrite scan_at. Qed.

Lemma getDigits_at s :
  getDigits (at_ s) = Ok (match fst (span isdigit s) with [] => None | ds => Some ds end,
                          at_ (snd (span isdigit s))).
Proof.
  unfold getDigits. cbn [ahead left at_ begin_of]. rewrite scan_at. cbn.
  by destruct (fst (span isdigit s)).
Qed.

Lemma match_at e s :
  match_ e (at_ s) = Ok (if starts_with e s then (Some tt, at_ (drop (length e) s)) else (None, at_ s)).
Proof.
  assert (H : exists it, match_loop e (s ++ [NUL]) (zlen s) = Ok (starts_with e s, it)
    /\ (starts_with e s = true -> it = at_ (drop (length e) s))).
  { revert s. induction e as [|x e IH]; intros s; cbn [match_loop starts_with].
    - exists (at_ s). by split.
    - destruct s as [|c s]; [by eexists|]. cbn [app]. rewrite zlen_cons.
      destruct (Z.eqb_spec (1 + zlen s) 0) as [Hz|_]; [zlen_lia|].
      destruct (decide (c = x)) as [->|Hne]; [|rewrite decide_False by done; by eexists].
      rewrite decide_True by done. replace (1 + zlen s - 1) with (zlen s) by lia. apply IH. }
  destruct H as (it & H & Hit). unfold match_. cbn [ahead left at_ begin_of]. rewrite H. cbn.
  destruct (starts_with e s); [|done]. by rewrite Hit.
Qed.

(** ** Safety

    What a parser does on the end [s] of a string: it gives its value and goes
    forward, or fails without going backward, or throws. *)
Definition safe_outcome {A} (Q : A -> Prop) (s : bytes)
    (r : result json_error (option A * iterator)) : Prop :=
  match r with
  | Ok (Some a, it) => exists s', it = at_ s' /\ (length s' < length s)%nat /\ Q a
  | Ok (None, it) => exists s', it = at_ s' /\ (length s' <= length s)%nat
  | Err e => e = BadLexicalCast \/ e = Indeterminate
  end.

(** On every string of at most [n] characters. *)
Definition safe_parser {A} (n : nat) (Q : A -> Prop) (p : parser A) : Prop :=
  forall s, (length s <= n)%nat -> safe_outcome Q s (p (at_ s)).

Lemma safe_none {A} (Q : A -> Prop) s s' :
  (length s' <= length s)%nat -> safe_outcome Q s (Ok (None, at_ s')).
Proof. intros H. by exists s'. Qed.

Lemma safe_some {A} (Q : A -> Prop) s s' a :
  (length s' < length s)%nat -> Q a -> safe_outcome Q s (Ok (Some a, at_ s')).
Proof. intros H HQ. by exists s'. Qed.

(** What follows a parser that was called on [s] in a parser that was called
    on [s0]. *)
Lemma safe_then {A B} (Qa : A -> Prop) (Q : B -> Prop) s0 s r k :
  safe_outcome Qa s r ->
  (forall a s', (length s' < length s)%nat -> Qa a -> safe_outcome Q s0 (k (Some a, at_ s'))) ->
  (forall s', (length s' <= length s)%nat -> safe_outcome Q s0 (k (None, at_ s'))) ->
  safe_outcome Q s0 (r ≫= k).
Proof.
  intros Hr Hs Hn. destruct r as [[[a|] it]|e]; [| |done].
  - destruct Hr as (s' & -> & Hl & HQ). by apply Hs.
  - destruct Hr as (s' & -> & Hl). by apply Hn.
Qed.

(** The test of the end and of the first character at the start of a parser. *)
Lemma safe_start {A} (Q : A -> Prop) s (k : ascii -> result json_error (option A * iterator)) :
  (forall c s', s = c :: s' -> safe_outcome Q s (k c)) ->
  safe_outcome Q s (if at_end (at_ s) then Ok (None, at_ s) else c ← deref (at_ s); k c).
Proof.
  intros H. rewrite at_end_at. destruct s as [|c s].
  - rewrite bool_decide_true by done. by apply safe_none.
  - rewrite bool_decide_false, deref_at by done. by eapply H.
Qed.

Lemma safe_or {A} n (Q : A -> Prop) p q : safe_parser n Q p -> safe_parser n Q q -> safe_parser n Q (or_else p q).
Proof.
  intros Hp Hq s Hs. unfold or_else. specialize (Hp s Hs).
  destruct (p (at_ s)) as [[[a|] it]|e]; cbn in *; [done | | done].
  destruct Hp as (s' & -> & Hl). specialize (Hq s' ltac:(lia)).
  destruct (q (at_ s')) as [[[a|] it]|e]; cbn in *; [| | done].
  - destruct Hq as (s2 & -> & Hl2 & HQ). exists s2. split_and!; (done || lia).
  - destruct Hq as (s2 & -> & Hl2). exists s2. split; (done || lia).
Qed.

Lemma safe_mapped {A B} n (Q : B -> Prop) (f : A -> B) p :
  safe_parser n (fun a => Q (f a)) p -> safe_parser n Q (parser_map f p).
Proof.
  intros Hp s Hs. specialize (Hp s Hs). unfold parser_map.
  by destruct (p (at_ s)) as [[[a|] it]|e].
Qed.

Lemma safe_weaken {A} n (Q Q' : A -> Prop) p :
  (forall a, Q a -> Q' a) -> safe_parser n Q p -> safe_parser n Q' p.
Proof.
  intros HQ Hp s Hs. specialize (Hp s Hs).
  destruct (p (at_ s)) as [[[a|] it]|e]; cbn in *; [|done..].
  destruct Hp as (s' & ? & ? & ?). eauto.
Qed.

#[local] Arguments safe_outcome : simpl never.
#[local] Arguments at_ : simpl never.
#[local] Arguments at_end : simpl never.
#[local] Arguments deref : simpl never.
#[local] Arguments next : simpl never.

Lemma safe_digits n : safe_parser n (fun _ => True) getDigits.
Proof.
  intros s _. rewrite getDigits_at. pose proof (span_length isdigit s) as H.
  destruct (fst (span isdigit s)); cbn in H; [apply safe_none | apply safe_some]; (done || lia).
Qed.

Lemma safe_integer_text n : safe_parser n (fun _ => True) getInteger_text.
Proof.
  intros s Hs. apply safe_start. intros c s' ->. destruct (decide (c = "-")) as [->|_].
  - rewrite next_at. eapply safe_then; [apply (safe_digits n); cbn in *; lia | |].
    + intros a s2 Hl _. apply safe_some; [cbn; lia | done].
    + intros s2 _. by apply safe_none.
  - eapply safe_then; [apply (safe_digits n); done | |].
    + intros a s2 Hl _. by apply safe_some.
    + intros s2 _. by apply safe_none.
Qed.

Lemma safe_exponent n : safe_parser n (fun _ => True) getExponent.
Proof.
  intros s Hs. apply safe_start. intros c s' ->.
  destruct (_ || _); cbn [negb]; [|by apply safe_none].
  rewrite next_at, deref_at. cbn [mbind result_bind].
  destruct (bool_decide (hd NUL s' = "+") || bool_decide (hd NUL s' = "-")) eqn:Hd.
  - destruct s' as [|d s']; [done|]. rewrite next_at.
    eapply safe_then; [apply (safe_digits n); cbn in *; lia | |].
    + intros a s2 Hl _. apply safe_some; [cbn in *; lia | done].
    + intros s2 _. by apply safe_none.
  - eapply safe_then; [apply (safe_digits n); cbn in *; lia | |].
    + intros a s2 Hl _. apply safe_some; [cbn in *; lia | done].
    + intros s2 _. by apply safe_none.
Qed.

Lemma safe_float_text n : safe_parser n (fun _ => True) getFloat_text.
Proof.
  intros s Hs. unfold getFloat_text.
  eapply safe_then; [by apply (safe_integer_text n) | |]; [|intros s2 Hl; by apply safe_none].
  intros a s1 Hl1 _.
  eapply safe_then; [apply (safe_exponent n); lia | |].
  - intros b s2 Hl2 _. apply safe_some; [lia | done].
  - intros s2 Hl2. rewrite at_end_at. destruct s2 as [|c s2].
    { rewrite bool_decide_true by done. by apply safe_none. }
    rewrite bool_decide_false, deref_at by done. cbn [hd mbind result_bind].
    destruct (bool_decide (c = ".")); cbn [negb]; [|by apply safe_none]. rewrite next_at.
    eapply safe_then; [apply (safe_digits n); cbn in *; lia | |]; [|intros s3 _; by apply safe_none].
    intros d s3 Hl3 _.
    eapply safe_then; [apply (safe_exponent n); cbn in *; lia | |].
    + intros e s4 Hl4 _. apply safe_some; [cbn in *; lia | done].
    + intros s4 Hl4. apply safe_some; [cbn in *; lia | done].
Qed.

Section decoder.
Context (utf_to_utf : Z -> bytes) (lexical_cast_double : bytes -> option Z).

(** The characters that replace an escape sequence are not longer than it. *)
Definition bounded_utf : Prop := forall c, (length (utf_to_utf c) <= 6)%nat.

Definition clean_ok (s : bytes) (r : result json_error (option bytes * iterator)) : Prop :=
  match r with
  | Ok (Some t, it) => exists s', it = at_ s' /\ (length s' <= length s)%nat
      /\ (bounded_utf -> (length t + length s' <= length s)%nat)
  | Ok (None, _) => True
  | Err e => e = Indeterminate
  end.

(** The characters [c] replace [w], and the loop goes on. *)
Lemma clean_push c w s r :
  clean_ok s r -> (bounded_utf -> (length c <= length w)%nat) ->
  clean_ok (w ++ s) (match r with
                     | Ok (Some t, it) => Ok (Some (c ++ t), it)
                     | r => r
                     end).
Proof.
  intros Hr Hc. destruct r as [[[t|] it]|e]; [|done|done].
  destruct Hr as (s' & -> & Hl & Hb). exists s'. rewrite !length_app. split_and!; [done | lia |].
  intros H. specialize (Hb H). specialize (Hc H). lia.
Qed.

Lemma read_hex_cases w : read_hex w = Err Indeterminate \/ exists v, read_hex w = Ok v.
Proof.
  unfold read_hex. destruct (snd (span isspace w)) as [|c s1]; [by left|right].
  destruct (if decide (c = "-") then _ else _) as [neg s2].
  destruct (span isxdigit _) as [ds rest]. destruct rest; by eexists.
Qed.

Lemma clean_at n : forall s, (length s <= n)%nat ->
  clean_ok s (clean_loop utf_to_utf (s ++ [NUL]) (zlen s)).
Proof.
  induction n as [|n IH]; intros s Hs.
  { destruct s; [|cbn in Hs; lia]. exists []. by split_and!. }
  destruct s as [|c s]; [exists []; by split_and!|]. cbn [clean_loop app]. cbn in Hs.
  rewrite zlen_cons. destruct (Z.eqb_spec (1 + zlen s) 0) as [?|_]; [zlen_lia|].
  destruct (decide (c = quote)) as [->|Hq].
  { exists (quote :: s). split_and!; [unfold at_, begin_of; by rewrite zlen_cons | cbn; lia | cbn; lia]. }
  replace (1 + zlen s - 1) with (zlen s) by lia.
  destruct (decide (c = "\")) as [->|Hb].
  2:{ apply (clean_push [c] [c]); [apply IH; lia | done]. }
  destruct s as [|d s]; [done|]. cbn [app]. rewrite zlen_cons.
  destruct (Z.eqb_spec (1 + zlen s) 0) as [?|_]; [done|]. cbn in Hs.
  destruct (simple_escape d) as [x|].
  { replace (1 + (1 + zlen s) - 2) with (zlen s) by lia.
    apply (clean_push [x] ["\"; d]); [apply IH; lia | cbn; lia]. }
  destruct (decide (d = "u")) as [->|_]; [|done].
  destruct (Z.leb_spec (1 + (1 + zlen s)) 6) as [?|Hlen]; [done|].
  destruct s as [|h1 [|h2 [|h3 [|h4 s]]]]; try (cbn in Hlen; unfold zlen in Hlen; cbn in Hlen; lia).
  cbn [app].
  destruct (read_hex_cases [h1; h2; h3; h4]) as [-> | [[v|] ->]]; [done | | done].
  cbn [mbind result_bind]. rewrite !zlen_cons. replace (_ - 6) with (zlen s) by lia.
  apply (clean_push (utf_to_utf v) ["\"; "u"; h1; h2; h3; h4]); [apply IH; cbn in Hs; lia|].
  intros H. apply H.
Qed.

Lemma safe_text n :
  safe_parser n (fun t => bounded_utf -> (length t < n)%nat) (getCleanString utf_to_utf).
Proof.
  intros s Hs. apply safe_start. intros c s' ->.
  destruct (bool_decide (c = quote)); cbn [negb]; [|by apply safe_none].
  rewrite next_at. pose proof (clean_at (length s') s' ltac:(lia)) as H. unfold at_ at 1 2. cbn [begin_of ahead left].
  destruct (clean_loop _ _ _) as [[[t|] it]|e]; cbn in H |- *; [|by apply safe_none | by right].
  destruct H as (s2 & -> & Hl & Hb). rewrite at_end_at. destruct s2 as [|d s2].
  - rewrite bool_decide_true by done. by apply safe_none.
  - rewrite bool_decide_false by done. rewrite next_at. cbn in *. apply safe_some; [cbn; lia|].
    intros H. specialize (Hb H). cbn in Hs. lia.
Qed.

(** *** Values

    What holds of the values is a property [T] that holds of the elementary
    values and that arrays and objects keep; [n] bounds the text. *)
Section values.
Context (n : nat) (T : AnyValue -> Prop).
Context (T_bool : forall b : bool, T (TInt false 0, VInt (Z.b2z b))) (T_void : T (TVoid, VVoid))
  (T_string : forall s, (bounded_utf -> (length s < n)%nat) -> T (TString, VString s))
  (T_float : forall s b, lexical_cast_double s = Some b -> T (TFloat 8, VFloat b))
  (T_int : forall s, T (TInt true 8, VInt (atol s)))
  (T_array : forall l, (length l <= n)%nat -> Forall T l -> T (AnyValue_of_array l))
  (T_map : forall m, (length m <= n)%nat ->
     Forall (fun p => (bounded_utf -> (length (fst p) < n)%nat) /\ T (snd p)) m ->
     T (AnyValue_of_map m)).
#[local] Set Default Proof Using "Type*".

Lemma safe_special : safe_parser n T decodeSpecial.
Proof.
  intros s Hs. unfold decodeSpecial. rewrite at_end_at. destruct (bool_decide (s = [])); [by apply safe_none|].
  assert (Hw : forall w v, w <> [] -> T v -> safe_parser n T (parser_map (fun _ => v) (match_ w))).
  { intros w v Hw Hv. apply safe_mapped. intros t _. rewrite match_at.
    destruct (starts_with w t) eqn:E; [|by apply safe_none]. apply starts_with_take in E.
    apply (f_equal length) in E. rewrite length_app, length_drop in E.
    apply safe_some; [|done]. rewrite length_drop.
    assert (length w <> 0%nat) by (by destruct w). lia. }
  apply (safe_or n); [| apply (safe_or n) |]; try done; apply Hw; try done.
  - apply (T_bool true).
  - apply (T_bool false).
Qed.

Lemma safe_number : safe_parser n T (decodeFloat lexical_cast_double).
Proof.
  intros s Hs. unfold decodeFloat. eapply safe_then; [by apply (safe_float_text n) | |].
  - intros a s' Hl _. destruct (lexical_cast_double a) eqn:E; [|by left].
    apply safe_some; [done | by eapply T_float].
  - intros s' Hl. by apply safe_none.
Qed.

(** The elements that [decodeArray] reads. *)
Definition array_ok (acc : list AnyValue) (s : bytes)
    (r : result json_error (list AnyValue * iterator)) : Prop :=
  match r with
  | Ok (l, it) => exists s', it = at_ s' /\ (length s' <= length s)%nat
      /\ (length l + length s' <= length acc + length s)%nat /\ Forall T l
  | Err e => e = BadLexicalCast \/ e = Indeterminate
  end.

Lemma array_loop_ok dv fuel : forall acc s,
  (length s < fuel)%nat -> (length s <= n)%nat -> safe_parser (length s) T dv -> Forall T acc ->
  array_ok acc s (array_loop dv fuel acc (at_ s)).
Proof.
  induction fuel as [|f IH]; intros acc s Hf Hn Hdv Hacc; [lia|]. cbn [array_loop].
  specialize (Hdv s ltac:(lia)) as H. destruct (dv (at_ s)) as [[[a|] it]|e]; [| |done].
  - destruct H as (s1 & -> & Hl & Ha). cbn [mbind result_bind]. rewrite deref_at. cbn [mbind result_bind].
    assert (Hacc' : Forall T (acc ++ [a])) by (apply Forall_app; split; [done | by repeat constructor]).
    destruct s1 as [|c s1]; cbn [hd].
    + exists []. rewrite length_app. cbn. split_and!; (done || lia).
    + destruct (bool_decide (c = ",")) eqn:E; cbn [negb].
      * rewrite next_at. cbn in Hl. specialize (IH (acc ++ [a]) s1).
        destruct (array_loop _ _ _ _) as [[l it]|e]; [|apply IH; try done; try lia].
        -- destruct IH as (s2 & -> & H1 & H2 & H3); try done; try lia.
           { intros t Ht. apply Hdv. lia. }
           exists s2. rewrite length_app in H2. cbn in H2. split_and!; (done || lia).
        -- intros t Ht. apply Hdv. lia.
      * exists (c :: s1). rewrite length_app. cbn in *. split_and!; (done || lia).
  - destruct H as (s1 & -> & Hl). exists s1. split_and!; (done || lia).
Qed.

Lemma safe_array dv fuel s :
  (length s <= fuel)%nat -> (length s <= n)%nat -> (forall m, (m < length s)%nat -> safe_parser m T dv) ->
  safe_outcome T s (decodeArray dv fuel (at_ s)).
Proof.
  intros Hf Hn Hdv. apply safe_start. intros c s' ->. cbn in *.
  destruct (bool_decide (c = "[")); cbn [negb]; [|by apply safe_none]. rewrite next_at.
  pose proof (array_loop_ok dv fuel [] s' ltac:(lia) ltac:(lia) (Hdv (length s') ltac:(lia)) ltac:(constructor)) as H.
  destruct (array_loop _ _ _ _) as [[l it]|e]; [|done].
  destruct H as (s1 & -> & H1 & H2 & H3). cbn [mbind result_bind]. rewrite deref_at. cbn [mbind result_bind].
  destruct s1 as [|d s1]; [by apply safe_none|]. cbn [hd].
  destruct (bool_decide (d = "]")); cbn [negb]; [|by apply safe_none]. rewrite next_at.
  cbn in *. apply safe_some; [cbn; lia | apply T_array; [lia | done]].
Qed.

(** A map with one element more. *)
Lemma map_set_length key v m : (length (map_set key v m) <= S (length m))%nat.
Proof.
  induction m as [|[k w] m IH]; cbn [map_set length]; [lia|].
  destruct (str_compare key k); cbn [length]; lia.
Qed.

Lemma map_set_Forall (P : bytes * AnyValue -> Prop) key v m :
  P (key, v) -> Forall P m -> Forall P (map_set key v m).
Proof.
  intros Hp. induction 1 as [|[k w] m Hk Hm IH]; cbn [map_set]; [by repeat constructor|].
  destruct (str_compare key k); by repeat constructor.
Qed.

Definition member_ok (p : bytes * AnyValue) : Prop :=
  (bounded_utf -> (length (fst p) < n)%nat) /\ T (snd p).

Definition object_ok (acc : list (bytes * AnyValue)) (s : bytes)
    (r : result json_error (option (list (bytes * AnyValue)) * iterator)) : Prop :=
  match r with
  | Ok (Some m, it) => exists s', it = at_ s' /\ (length s' <= length s)%nat
      /\ (length m + length s' <= length acc + length s)%nat /\ Forall member_ok m
  | Ok (None, _) => True
  | Err e => e = BadLexicalCast \/ e = Indeterminate
  end.

Lemma object_ok_weaken acc s acc' s' r :
  (length s' <= length s)%nat -> (length acc' + length s' <= length acc + length s)%nat ->
  object_ok acc' s' r -> object_ok acc s r.
Proof.
  intros H1 H2. destruct r as [[[m|] it]|e]; [|done..].
  intros (s2 & -> & ? & ? & ?). exists s2. split_and!; (done || lia).
Qed.

Lemma object_loop_ok dv fuel : forall acc s,
  (length s < fuel)%nat -> (length s <= n)%nat -> safe_parser (length s) T dv -> Forall member_ok acc ->
  object_ok acc s (object_loop utf_to_utf dv fuel acc (at_ s)).
Proof.
  induction fuel as [|f IH]; intros acc s Hf Hn Hdv Hacc; [lia|]. cbn [object_loop].
  rewrite skipWhiteSpaces_at. cbn [mbind result_bind]. pose proof (span_length is_white s) as Hw.
  set (s1 := snd (span is_white s)) in *. clearbody s1.
  pose proof (safe_text n s1 ltac:(lia)) as Hk.
  destruct (getCleanString _ _) as [[[key|] it]|e]; [| |done].
  2:{ destruct Hk as (s2 & -> & Hl). cbn. exists s2. split_and!; (done || lia). }
  destruct Hk as (s2 & -> & Hl & Hkey). cbn [mbind result_bind]. rewrite skipWhiteSpaces_at.
  cbn [mbind result_bind]. pose proof (span_length is_white s2) as Hw2.
  set (s3 := snd (span is_white s2)) in *. clearbody s3. rewrite at_end_at.
  destruct s3 as [|c s3]; [by rewrite bool_decide_true|]. rewrite bool_decide_false, deref_at by done.
  cbn [mbind result_bind hd]. destruct (bool_decide (c = ":")); cbn [negb]; [|done]. rewrite next_at.
  cbn [length] in *. specialize (Hdv s3 ltac:(lia)) as Hv.
  destruct (dv (at_ s3)) as [[[v|] it]|e]; [| done | done].
  destruct Hv as (s4 & -> & Hl4 & Hv). cbn [mbind result_bind]. rewrite at_end_at.
  destruct s4 as [|d s4].
  - rewrite bool_decide_true by done. exists []. cbn. split_and!; (done || lia).
  - rewrite bool_decide_false, deref_at by done. cbn [mbind result_bind hd].
    assert (Hacc' : Forall member_ok (map_set key v acc)) by (by apply map_set_Forall).
    pose proof (map_set_length key v acc) as Hlen. cbn [length] in *.
    destruct (bool_decide (d = ",")); cbn [negb].
    + rewrite next_at. eapply object_ok_weaken; [| |apply IH]; try done; try lia.
      intros t Ht. apply Hdv. lia.
    + exists (d :: s4). cbn [length]. split_and!; (done || lia).
Qed.

Lemma safe_object dv fuel s :
  (length s <= fuel)%nat -> (length s <= n)%nat -> (forall m, (m < length s)%nat -> safe_parser m T dv) ->
  safe_outcome T s (decodeObject utf_to_utf dv fuel (at_ s)).
Proof.
  intros Hf Hn Hdv. apply safe_start. intros c s' ->. cbn in *.
  destruct (bool_decide (c = "{")); cbn [negb]; [|by apply safe_none]. rewrite next_at.
  pose proof (object_loop_ok dv fuel [] s' ltac:(lia) ltac:(lia) (Hdv (length s') ltac:(lia)) ltac:(constructor)) as H.
  destruct (object_loop _ _ _ _ _) as [[[m|] it]|e]; [| by apply safe_none | done].
  destruct H as (s1 & -> & H1 & H2 & H3). cbn [mbind result_bind]. rewrite at_end_at.
  destruct s1 as [|d s1]; [rewrite bool_decide_true by done; by apply safe_none|].
  rewrite bool_decide_false, deref_at by done. cbn [mbind result_bind hd].
  destruct (bool_decide (d = "}")); cbn [negb]; [|by apply safe_none]. rewrite next_at.
  cbn in *. apply safe_some; [cbn; lia | apply T_map; [lia | done]].
Qed.

Lemma safe_value fuel : forall s,
  (length s < fuel)%nat -> (length s <= n)%nat ->
  safe_outcome T s (decodeValue utf_to_utf lexical_cast_double fuel (at_ s)).
Proof.
  induction fuel as [|f IH]; intros s Hf Hn; [lia|]. cbn [decodeValue].
  rewrite skipWhiteSpaces_at. cbn [mbind result_bind]. pose proof (span_length is_white s) as Hw.
  set (s1 := snd (span is_white s)) in *. clearbody s1.
  assert (Hdv : forall m, (m < length s)%nat ->
    safe_parser m T (decodeValue utf_to_utf lexical_cast_double f)).
  { intros m Hm t Ht. apply IH; lia. }
  assert (Hp : forall p, safe_parser n T p -> safe_parser (length s1) T p).
  { intros p Hp t Ht. apply Hp. lia. }
  eapply (safe_then T _ s s1).
  - apply (safe_or (length s1)); [apply Hp, safe_special | |lia].
    apply safe_or; [apply Hp, safe_mapped; eapply safe_weaken, safe_text; apply T_string|].
    apply safe_or; [apply Hp, safe_number|].
    apply safe_or; [apply Hp, safe_mapped, safe_mapped; by eapply safe_weaken, safe_integer_text|].
    apply safe_or; intros t Ht; [apply safe_array | apply safe_object]; try lia; intros m Hm; apply Hdv; lia.
  - intros a s2 Hl Ha. rewrite skipWhiteSpaces_at. cbn [mbind result_bind].
    pose proof (span_length is_white s2). apply safe_some; [lia | done].
  - intros s2 Hl. apply safe_none. lia.
Qed.
End values.
End decoder.

(** ** The properties *)

(** The outcomes of [decode] on a whole string. *)
Definition decoded (T : AnyValue -> Prop) (s : bytes) (r : result json_error (AnyValue * iterator)) : Prop :=
  match r with
  | Ok (v, it) => 0 <= left it < zlen s /\ T v
  | Err e => e = JsonParseError \/ e = BadLexicalCast \/ e = Indeterminate
  end.

Lemma decode_at T utf lex s :
  (forall fuel, (length s < fuel)%nat -> safe_outcome T s (decodeValue utf lex fuel (at_ s))) ->
  decoded T s (decodeJSON_range utf lex s (zlen s)).
Proof.
  intros H. unfold decodeJSON_range, decode. change (begin_of s (zlen s)) with (at_ s).
  assert (Hf : (length s < S (length (ahead (at_ s))))%nat).
  { unfold at_. cbn. rewrite length_app. lia. }
  specialize (H _ Hf). destruct (decodeValue _ _ _ _) as [[[a|] it]|e]; [| by left | by right].
  destruct H as (s' & -> & Hl & Ha). split; [|done]. unfold at_, zlen. cbn. lia.
Qed.

(** On any text [decodeJSON] ends within a recursion as deep as the text is
    long, reads no character outside of the string and its terminator, and either
    gives a value, with the iterator between the beginning and the end of the
    text, or throws; the only read of a variable without a value is that of the
    code of an escape sequence. *)
Theorem json_safe utf lex s :
  match decodeJSON_range utf lex s (zlen s) with
  | Ok (_, it) => 0 <= left it < zlen s
  | Err e => e = JsonParseError \/ e = BadLexicalCast \/ e = Indeterminate
  end.
Proof.
  assert (H : decoded (fun _ => True) s (decodeJSON_range utf lex s (zlen s))).
  { apply decode_at. intros fuel Hf. by apply (safe_value utf lex (length s)). }
  destruct (decodeJSON_range _ _ _ _) as [[v it]|e]; [apply H | done].
Qed.







Lemma scan_past rest n :
  n < 0 -> exists w m k, scan is_white (rest ++ [NUL]) n = Ok (w, mkIterator m k) /\ k < 0.
Proof.
  revert n. induction rest as [|c rest IH]; intros n Hn; cbn [scan app].
  - destruct (Z.eqb_spec n 0); [lia|]. by exists [], [NUL], n.
  - destruct (Z.eqb_spec n 0); [lia|]. destruct (is_white c); [|by do 3 eexists].
    destruct (IH (n - 1) ltac:(lia)) as (w & m & k & -> & Hk). by exists (c :: w), m, k.
Qed.

(** With an end that is not that of the string, the parser goes past it: the
    closing bracket and the spaces that follow the given end are consumed, and
    the iterator that [decodeJSON] gives is after the end. *)
Theorem json_range_overrun utf lex rest :
  exists v it, decodeJSON_range utf lex (lit "[1]" ++ rest) 2 = Ok (v, it) /\ left it < 0.
Proof.
  destruct (scan_past rest (-1) ltac:(lia)) as (w & m & k & Hw & Hk).
  unfold decodeJSON_range, decode, begin_of. cbn [ahead lit String.list_ascii_of_string app length].
  generalize (length (rest ++ [NUL])) as f. intros f.
  exists (AnyValue_of_array [(TInt true 8, VInt 1)]), (mkIterator m k). split; [|done].
  vm_compute in Hw. vm_compute. rewrite Hw. reflexivity.
Qed.


(** An escape sequence of four spaces uses a variable without a value. *)
Example json_indeterminate utf lex :
  decodeJSON utf lex (quote :: lit "\u    " ++ [quote]) = Err Indeterminate.
Proof. reflexivity. Qed.
