(* ===== verification/JsonText.v ===== *)
(** * JsonText: the parser on the texts that the printer makes

    Numbers, strings, arrays and objects: what the functions of the parser give
    on the text of a value followed by anything that can end a value. *)
From S2P Require Import Prelude CString Bytes TypeInterface Buffer BinaryCodec.
From S2P Require Import JsonDecoder JsonEncoder JsonProperties.
From Stdlib Require Import Ascii.
#[local] Open Scope char_scope.
#[local] Open Scope list_scope.
#[local] Open Scope Z_scope.

#[local] Arguments at_ : simpl never.
#[local] Arguments at_end : simpl never.
#[local] Arguments deref : simpl never.
#[local] Arguments next : simpl never.

(** ** What follows a value *)

Definition is_digit_part (c : ascii) : bool :=
  isdigit c || bool_decide (c = ".") || bool_decide (c = "e") || bool_decide (c = "E").

(** A number is not continued by [rest]. *)
Definition ends (rest : bytes) : bool :=
  match rest with [] => true | c :: _ => negb (is_digit_part c) end.

Definition all_white (w : bytes) : Prop := Forall (fun c => is_white c = true) w.

(** [rest] without the spaces at its beginning. *)
Definition skip (rest : bytes) : bytes := snd (span is_white rest).

Lemma span_stop p w rest :
  Forall (fun c => p c = true) w -> (forall c r, rest = c :: r -> p c = false) ->
  span p (w ++ rest) = (w, rest).
Proof.
  intros Hw Hr. induction Hw as [|c w Hc _ IH]; cbn [span app].
  - destruct rest as [|c r]; [done|]. cbn. by rewrite (Hr c r).
  - by rewrite Hc, IH.
Qed.

Lemma skip_white w rest : all_white w -> skip (w ++ rest) = skip rest.
Proof.
  unfold skip. induction 1 as [|c w Hc _ IH]; cbn [span app]; [done|].
  rewrite Hc. by destruct (span is_white (w ++ rest)).
Qed.

Lemma skip_char c rest : is_white c = false -> skip (c :: rest) = c :: rest.
Proof. unfold skip. cbn. by intros ->. Qed.

Lemma digits_at ds rest :
  ds <> [] -> Forall (fun c => isdigit c = true) ds -> ends rest = true ->
  getDigits (at_ (ds ++ rest)) = Ok (Some ds, at_ rest).
Proof.
  intros Hne Hds He. rewrite getDigits_at, span_stop; [by destruct ds | done |].
  intros c r ->. cbn in He. unfold is_digit_part in He. by destruct (isdigit c).
Qed.

(** The digits may also be followed by a point or by an exponent. *)
Lemma digits_before ds c rest :
  ds <> [] -> Forall (fun c => isdigit c = true) ds -> isdigit c = false ->
  getDigits (at_ (ds ++ c :: rest)) = Ok (Some ds, at_ (c :: rest)).
Proof.
  intros Hne Hds Hc. rewrite getDigits_at, span_stop; [by destruct ds | done |].
  by intros d r [= <- _].
Qed.

(** ** Numbers *)

Definition sign (neg : bool) : bytes := if neg then ["-"] else [].

Definition is_digits (ds : bytes) : Prop := ds <> [] /\ Forall (fun c => isdigit c = true) ds.

Lemma first_digit ds : is_digits ds -> exists c r, ds = c :: r /\ isdigit c = true.
Proof. intros [Hne Hds]. destruct ds as [|c r]; [done|]. exists c, r. by inversion Hds. Qed.

Lemma integer_text_at neg ds rest :
  is_digits ds -> (forall c r, rest = c :: r -> isdigit c = false) ->
  getInteger_text (at_ (sign neg ++ ds ++ rest)) = Ok (Some (sign neg ++ ds), at_ rest).
Proof.
  intros Hds Hr. destruct (first_digit ds Hds) as (c & r & Heq & Hc). destruct Hds as [Hne Hds].
  assert (Hd : getDigits (at_ (ds ++ rest)) = Ok (Some ds, at_ rest)).
  { rewrite getDigits_at, span_stop; [by destruct ds | done | done]. }
  unfold getInteger_text. rewrite at_end_at. destruct neg; cbn [sign app].
  - rewrite bool_decide_false, deref_at by done. cbn [mbind result_bind hd].
    rewrite decide_True by done. rewrite next_at, Hd. done.
  - rewrite Heq in *. rewrite bool_decide_false, deref_at by done. cbn [mbind result_bind hd app] in *.
    rewrite decide_False by (by intros ->). by rewrite Hd.
Qed.

Definition clamp (z : Z) : Z := Z.max long_min (Z.min long_max z).

Lemma atol_clamp neg ds :
  is_digits ds -> atol (sign neg ++ ds) = clamp (if neg then - decimal_value ds else decimal_value ds).
Proof.
  intros Hds. destruct (first_digit ds Hds) as (c & r & Heq & Hc). destruct Hds as [Hne Hds].
  assert (Hcode : 48 <= code c <= 57) by (unfold isdigit in Hc; lia).
  assert (Hs : span isdigit ds = (ds, [])) by (by apply span_all).
  unfold atol, strtol.
  assert (Hv : forall v : Z, fst (fst (if v >? long_max then (long_max, @nil ascii, true)
      else if v <? long_min then (long_min, [], true) else (v, [], false))) = clamp v).
  { intros v. unfold clamp. destruct (Z.gtb_spec v long_max); [cbn; unfold long_min, long_max in *; lia|].
    destruct (Z.ltb_spec v long_min); cbn; unfold long_min, long_max in *; lia. }
  destruct neg; cbn [sign app].
  - rewrite span_none by done. rewrite decide_True by done. rewrite Hs. rewrite Heq. rewrite <- Heq. apply Hv.
  - rewrite Heq. rewrite span_none by (unfold isspace; lia).
    rewrite !decide_False by (intros ->; destruct Hcode as [Hx _]; by apply Hx).
    rewrite <- Heq, Hs. rewrite Heq. rewrite <- Heq. apply Hv.
Qed.

Lemma exponent_none rest :
  (forall c r, rest = c :: r -> c <> "e" /\ c <> "E") -> getExponent (at_ rest) = Ok (None, at_ rest).
Proof.
  intros Hr. unfold getExponent. rewrite at_end_at. destruct rest as [|c r]; [done|].
  destruct (Hr c r eq_refl) as [H1 H2].
  rewrite bool_decide_false, deref_at by done. cbn [mbind result_bind hd].
  by rewrite !bool_decide_false by done.
Qed.

Lemma exponent_at s ds rest :
  s = "+" \/ s = "-" -> is_digits ds -> ends rest = true ->
  getExponent (at_ ("e" :: s :: ds ++ rest)) = Ok (Some ("e" :: s :: ds), at_ rest).
Proof.
  intros Hs [Hne Hds] He. unfold getExponent. rewrite at_end_at.
  rewrite bool_decide_false, deref_at by done. cbn [mbind result_bind hd].
  rewrite bool_decide_true by done. cbn [orb negb]. rewrite next_at, deref_at. cbn [mbind result_bind hd].
  assert (bool_decide (s = "+") || bool_decide (s = "-") = true) as ->.
  { destruct Hs as [-> | ->]; reflexivity. }
  by rewrite next_at, digits_at.
Qed.

Lemma ends_no_digit rest c r : ends rest = true -> rest = c :: r ->
  isdigit c = false /\ c <> "." /\ c <> "e" /\ c <> "E".
Proof.
  intros He ->. cbn in He. unfold is_digit_part in He.
  destruct (isdigit c); [done|]. split; [done|]. by repeat split; intros ->.
Qed.

(** The text of an integer is not the text of a floating point number. *)
Lemma float_text_integer neg ds rest :
  is_digits ds -> ends rest = true ->
  exists it, getFloat_text (at_ (sign neg ++ ds ++ rest)) = Ok (None, it)
    /\ it = at_ (sign neg ++ ds ++ rest).
Proof.
  intros Hds He. pose proof (ends_no_digit rest) as Hr. eexists. unfold getFloat_text.
  rewrite integer_text_at by (try done; intros c r E; by apply (Hr c r)). cbn [mbind result_bind].
  rewrite exponent_none by (intros c r E; by apply (Hr c r)). cbn [mbind result_bind].
  rewrite at_end_at. destruct rest as [|c r]; [done|].
  rewrite bool_decide_false, deref_at by done. cbn [mbind result_bind hd].
  by rewrite bool_decide_false by (by apply (Hr c r)).
Qed.

(** The text after the integer part of a floating point number. *)
Definition exponent_text (e : option (ascii * bytes)) : bytes :=
  match e with None => [] | Some (s, ds) => "e" :: s :: ds end.

Definition exponent_ok (e : option (ascii * bytes)) : Prop :=
  match e with None => True | Some (s, ds) => (s = "+" \/ s = "-") /\ is_digits ds end.

Lemma exponent_option e rest :
  exponent_ok e -> ends rest = true ->
  getExponent (at_ (exponent_text e ++ rest))
  = Ok (match e with None => None | Some _ => Some (exponent_text e) end, at_ rest).
Proof.
  intros Hok He. destruct e as [[s ds]|]; cbn [exponent_text app].
  - by apply exponent_at; [apply Hok..|].
  - apply exponent_none. intros c r E. by apply (ends_no_digit rest c r).
Qed.

Lemma float_text_at neg ds fs e rest :
  is_digits ds -> (fs = [] \/ is_digits fs) -> exponent_ok e -> (fs <> [] \/ is_Some e) ->
  ends rest = true ->
  let text := sign neg ++ ds ++ (match fs with [] => [] | _ => "." :: fs end) ++ exponent_text e in
  getFloat_text (at_ (text ++ rest)) = Ok (Some text, at_ rest).
Proof.
  intros Hds Hfs Hok Hsome He. cbn zeta. unfold getFloat_text. rewrite <- !app_assoc.
  assert (Hhead : forall c r, (match fs with [] => [] | _ => "." :: fs end) ++ exponent_text e ++ rest = c :: r
     -> isdigit c = false).
  { destruct fs; [|by intros c r [= <- _]]. destruct e as [[s x]|]; [by intros c r [= <- _]|].
    by destruct Hsome as [|[]]. }
  rewrite integer_text_at by done. cbn [mbind result_bind]. destruct fs as [|f fs].
  - cbn [app]. destruct e as [[s x]|]; [|by destruct Hsome as [|[]]].
    rewrite exponent_option by done. cbn [mbind result_bind]. by rewrite <- app_assoc.
  - destruct Hfs as [Hfs|Hfs]; [done|]. cbn [app].
    rewrite exponent_none by (by intros c r [= <- _]). cbn [mbind result_bind]. rewrite at_end_at.
    rewrite bool_decide_false, deref_at by done. cbn [mbind result_bind hd].
    rewrite bool_decide_true by done. cbn [negb]. rewrite next_at.
    assert (Hd : getDigits (at_ ((f :: fs) ++ exponent_text e ++ rest))
                 = Ok (Some (f :: fs), at_ (exponent_text e ++ rest))).
    { destruct Hfs. destruct e as [[s x]|]; [by apply digits_before | by apply digits_at]. }
    cbn [app] in Hd. rewrite Hd. cbn [mbind result_bind]. rewrite exponent_option by done.
    cbn [mbind result_bind fst snd]. rewrite <- !app_assoc. by destruct e as [[s x]|].
Qed.

(** *** The numbers that the printer makes *)

Lemma decimal_digits_digits fuel n acc :
  Forall (fun c => isdigit c = true) acc -> (fuel <> 0%nat \/ acc <> []) -> is_digits (decimal_digits fuel n acc).
Proof.
  revert n acc. induction fuel as [|f IH]; intros n acc Hacc Hne; cbn [decimal_digits].
  - by destruct Hne.
  - assert (Hd : isdigit (digit_char (n mod 10)) = true).
    { apply isdigit_digit_char. apply Z.mod_pos_bound. lia. }
    destruct (n <? 10); [split; [done | by constructor]|]. apply IH; [by constructor | by right].
Qed.

Lemma to_decimal_digits n : is_digits (to_decimal n).
Proof. apply decimal_digits_digits; [constructor | by left]. Qed.

Lemma strip_zeros_digits s : Forall (fun c => isdigit c = true) s ->
  Forall (fun c => isdigit c = true) (strip_zeros s).
Proof.
  induction 1 as [|c s Hc _ IH]; cbn [strip_zeros]; [constructor|].
  destruct (strip_zeros s); [destruct (decide (c = "0")); by repeat constructor | by constructor].
Qed.

Lemma maybe_digits s : Forall (fun c => isdigit c = true) s -> s = [] \/ is_digits s.
Proof. intros H. destruct s; [by left | by right]. Qed.

Lemma take_digits n s : (0 < n)%nat -> is_digits s -> is_digits (take n s).
Proof. intros Hn [Hne Hs]. split; [destruct n, s; (lia || done) | by apply Forall_take]. Qed.

Lemma format_number_shape p neg m e :
  let d := format_number p neg m e in
  negative d = neg /\ is_digits (integer_part d) /\ (fraction d = [] \/ is_digits (fraction d)).
Proof.
  unfold format_number. destruct (m =? 0); [split_and!; [done | by split; repeat constructor | by left]|].
  assert (Hd : is_digits (fst (significant_digits p m e))).
  { unfold significant_digits. destruct (scaled m e _) as [n d]. destruct (_ =? _); apply to_decimal_digits. }
  destruct (significant_digits p m e) as [digits x]. cbn [fst] in Hd.
  assert (Hz : forall n, fraction (mkDecimal neg [] (strip_zeros (drop n digits)) None) = []
     \/ is_digits (strip_zeros (drop n digits))).
  { intros n. apply maybe_digits, strip_zeros_digits, Forall_drop, Hd. }
  destruct ((x <? -4) || (p <=? x)) eqn:Hx; [|destruct (Z.ltb_spec x 0)]; cbn; split_and!; try done.
  - by apply (take_digits 1); [lia|].
  - apply (Hz 1%nat).
  - by split; repeat constructor.
  - apply maybe_digits, Forall_app. split; [apply Forall_forall; by intros c ->%list_elem_of_In%repeat_spec|].
    apply strip_zeros_digits, Hd.
  - apply take_digits; [lia | done].
  - apply Hz.
Qed.

Lemma print_decimal_shape d :
  is_digits (integer_part d) -> exists e, print_decimal d
    = sign (negative d) ++ integer_part d ++ (match fraction d with [] => [] | _ => "." :: fraction d end)
        ++ exponent_text e
  /\ exponent_ok e /\ (is_Some e <-> is_Some (JsonEncoder.exponent d)).
Proof.
  intros Hi. exists (match JsonEncoder.exponent d with
    | None => None
    | Some x => let k := to_decimal (Z.abs x) in
        Some (if x <? 0 then "-" else "+", if (length k =? 1)%nat then "0" :: k else k)
    end).
  unfold print_decimal. destruct (JsonEncoder.exponent d) as [x|].
  - split_and!; [by destruct (fraction d) | | by split; eexists].
    destruct (to_decimal_digits (Z.abs x)) as [Hne Hd]. split; [destruct (x <? 0); [by right | by left]|].
    destruct (length _ =? 1)%nat; split; try done. by constructor.
  - split_and!; [by destruct (fraction d) | done | by split; intros []].
Qed.

(** ** Strings *)

Section strings.
Context (utf_to_utf : Z -> bytes) (to_utf : bytes -> list Z).

(** A character of the basic plane that is not a surrogate, and its text in a
    string without the option [JsonOption_Expand]. *)
Definition basic (c : Z) : Prop := 0 <= c < 65536.

(** The conversions keep the characters of a text. *)
Definition json_string_ok (s : bytes) : bool :=
  forallb (fun c => (0 <=? c) && (c <? 65536)) (to_utf s)
  && bool_decide (to_utf s ≫= utf_to_utf = s).

Context (Hascii : forall c, 0 <= c < 128 -> utf_to_utf c = [ascii_of_N (Z.to_N c)]).

Lemma hex_digit d : 0 <= d < 16 ->
  let c := to_hex_char d in
  isspace c = false /\ isxdigit c = true /\ hex_value c = d /\ c <> "-" /\ c <> "+" /\ c <> "x" /\ c <> "X".
Proof.
  intros Hd.
  assert (H : forallb (fun d => let c := to_hex_char d in negb (isspace c) && isxdigit c && (hex_value c =? d)
    && bool_decide (c <> "-" /\ c <> "+" /\ c <> "x" /\ c <> "X")) (map Z.of_nat (seq 0 16)) = true)
    by reflexivity.
  rewrite forallb_forall in H. cbv zeta in *.
  assert (Hin : In d (map Z.of_nat (seq 0 16))).
  { apply in_map_iff. exists (Z.to_nat d). split; [lia|]. apply in_seq. lia. }
  specialize (H d Hin). rewrite !andb_true_iff, Z.eqb_eq, bool_decide_eq_true, negb_true_iff in H. tauto.
Qed.

Lemma read_hex_digits a b c d :
  0 <= a < 16 -> 0 <= b < 16 -> 0 <= c < 16 -> 0 <= d < 16 ->
  read_hex [to_hex_char a; to_hex_char b; to_hex_char c; to_hex_char d]
  = Ok (Some (((a * 16 + b) * 16 + c) * 16 + d)).
Proof.
  intros Ha Hb Hc Hd.
  destruct (hex_digit a Ha) as (Sa & Xa & Va & ?), (hex_digit b Hb) as (Sb & Xb & Vb & ?),
    (hex_digit c Hc) as (Sc & Xc & Vc & ?), (hex_digit d Hd) as (Sd & Xd & Vd & ?).
  unfold read_hex. rewrite span_none by done. cbn [snd]. rewrite !decide_False by tauto.
  assert (bool_decide (to_hex_char b = "x") || bool_decide (to_hex_char b = "X") = false) as ->.
  { by rewrite !bool_decide_false by tauto. }
  rewrite andb_false_r. rewrite (span_all isxdigit) by (repeat constructor; done).
  unfold hexadecimal_value. cbn [fold_left]. rewrite Va, Vb, Vc, Vd. do 2 f_equal.
  replace (0 * 16 + a) with a by lia. apply wrap_small. change (2 ^ 32) with 4294967296. lia.
Qed.

Lemma hex_roundtrip c : basic c ->
  exists h1 h2 h3 h4, non_printable_to_string c = ["\"; "u"; h1; h2; h3; h4]
    /\ read_hex [h1; h2; h3; h4] = Ok (Some c).
Proof.
  unfold basic. intros Hc. do 4 eexists. split; [reflexivity|].
  assert (Hd : forall k, 0 <= k -> Z.land (Z.shiftr c k) 15 = (c / 2 ^ k) mod 16).
  { intros k Hk. rewrite Z.shiftr_div_pow2 by done. change 15 with (Z.ones 4).
    by rewrite Z.land_ones by lia. }
  rewrite !Hd by lia. rewrite read_hex_digits by (apply Z.mod_pos_bound; lia). do 2 f_equal.
  change (2 ^ 12) with 4096. change (2 ^ 8) with 256. change (2 ^ 4) with 16. change (2 ^ 0) with 1.
  Z.to_euclidean_division_equations. lia.
Qed.

(** The text of a character: itself, a simple escape or its code. *)
Lemma esc_char_cases opt c : basic c -> Z.land opt JsonOption_Expand = 0 ->
  let a := ascii_of_N (Z.to_N c) in
  (c < 128 /\ ((esc_char c opt = [a] /\ a <> quote /\ a <> "\")
               \/ exists d, esc_char c opt = ["\"; d] /\ simple_escape d = Some a))
  \/ esc_char c opt = non_printable_to_string c.
Proof.
  unfold basic. intros Hc Ho. cbv zeta. unfold esc_char, add_esc_char. rewrite Ho.
  rewrite wrap_small by (change (2 ^ 32) with 4294967296; lia).
  destruct (Z.leb_spec (-128) c); [|lia]. destruct (Z.leb_spec c 127); [|right].
  2:{ cbn [andb]. by destruct (Z.leb_spec 32 c), (Z.ltb_spec c 127); try lia. }
  rewrite (Z.mod_small c 256) by lia. cbn [andb]. change (0 =? 0) with true. cbv iota.
  set (a := ascii_of_N (Z.to_N c)). clearbody a.
  assert (Hs : forall x d, simple_escape d = Some x -> a = x ->
    exists d', ["\"; d] = ["\"; d'] /\ simple_escape d' = Some a).
  { intros x d Hd ->. by exists d. }
  destruct (decide (a = quote)) as [E1|H1]; [left; split; [lia | right; by eapply Hs]|].
  destruct (decide (a = "\")) as [E2|H2]; [left; split; [lia | right; by eapply Hs]|].
  destruct (decide (a = "008")) as [E|_]; [left; split; [lia | right; by eapply Hs]|].
  destruct (decide (a = "012")) as [E|_]; [left; split; [lia | right; by eapply Hs]|].
  destruct (decide (a = "010")) as [E|_]; [left; split; [lia | right; by eapply Hs]|].
  destruct (decide (a = "013")) as [E|_]; [left; split; [lia | right; by eapply Hs]|].
  destruct (decide (a = "009")) as [E|_]; [left; split; [lia | right; by eapply Hs]|].
  cbn [default from_option id]. destruct ((32 <=? c) && (c <? 127)); [left; split; [lia | by left] | by right].
Qed.

(** What [clean_loop] gives after the text [w] of the characters [t]. *)
Definition cleans (w t : bytes) : Prop :=
  forall rest, rest <> [] ->
  clean_loop utf_to_utf (w ++ rest ++ [NUL]) (zlen w + zlen rest)
  = match clean_loop utf_to_utf (rest ++ [NUL]) (zlen rest) with
    | Ok (Some u, it) => Ok (Some (t ++ u), it)
    | r => r
    end.

#[local] Set Default Proof Using "Type*".

Lemma clean_esc_char opt c : basic c -> Z.land opt JsonOption_Expand = 0 ->
  cleans (esc_char c opt) (utf_to_utf c).
Proof.
  intros Hc Ho rest Hr. assert (Hlen : 0 < zlen rest) by (destruct rest; [done | zlen_lia]).
  destruct (esc_char_cases opt c Hc Ho) as [[Hlt [(-> & H1 & H2) | (d & -> & Hd)]] | ->].
  - rewrite Hascii by (unfold basic in Hc; lia). cbn [app clean_loop].
    change (zlen [ascii_of_N (Z.to_N c)]) with 1. destruct (Z.eqb_spec (1 + zlen rest) 0); [lia|].
    rewrite !decide_False by done. replace (1 + zlen rest - 1) with (zlen rest) by lia.
    by destruct (clean_loop _ _ _) as [[[u|] it]|e].
  - rewrite Hascii by (unfold basic in Hc; lia). change (zlen ["\"; d]) with 2. cbn [app clean_loop].
    destruct (Z.eqb_spec (2 + zlen rest) 0); [lia|]. rewrite decide_False, decide_True by done.
    destruct (Z.eqb_spec (2 + zlen rest - 1) 0); [lia|]. rewrite Hd.
    replace (2 + zlen rest - 2) with (zlen rest) by lia.
    by destruct (clean_loop _ _ _) as [[[u|] it]|e].
  - destruct (hex_roundtrip c Hc) as (h1 & h2 & h3 & h4 & -> & Hv).
    change (zlen ["\"; "u"; h1; h2; h3; h4]) with 6. cbn [app clean_loop].
    destruct (Z.eqb_spec (6 + zlen rest) 0); [lia|]. rewrite decide_False, decide_True by done.
    destruct (Z.eqb_spec (6 + zlen rest - 1) 0); [lia|]. change (simple_escape "u") with (@None ascii).
    cbv iota. rewrite decide_True by done. destruct (Z.leb_spec (6 + zlen rest) 6); [lia|].
    rewrite Hv. cbn [mbind result_bind]. replace (6 + zlen rest - 6) with (zlen rest) by lia.
    by destruct (clean_loop _ _ _) as [[[u|] it]|e].
Qed.

Lemma clean_chars opt cs : Z.land opt JsonOption_Expand = 0 -> Forall basic cs ->
  cleans (add_esc_chars cs opt) (cs ≫= utf_to_utf).
Proof.
  intros Ho. induction 1 as [|c cs Hc Hcs IH]; intros rest Hr.
  - cbn. destruct (clean_loop _ _ _) as [[[u|] it]|e]; done.
  - unfold add_esc_chars in *. cbn [mbind list_bind]. rewrite zlen_app, <- !app_assoc, <- Z.add_assoc.
    fold (@mbind list list_bind). set (w := cs ≫= _) in *.
    rewrite <- zlen_app, (app_assoc w rest).
    rewrite (clean_esc_char opt c Hc Ho (w ++ rest)) by (by destruct w).
    rewrite zlen_app, <- app_assoc, IH by done.
    destruct (clean_loop _ _ _) as [[[u|] it]|e]; [by rewrite app_assoc | done | done].
Qed.

Lemma clean_quote rest :
  clean_loop utf_to_utf ((quote :: rest) ++ [NUL]) (zlen (quote :: rest)) = Ok (Some [], at_ (quote :: rest)).
Proof.
  unfold at_, begin_of. cbn [clean_loop app]. rewrite zlen_cons.
  destruct (Z.eqb_spec (1 + zlen rest) 0); [zlen_lia|]. by rewrite decide_True.
Qed.

(** A string that the printer makes is read back. *)
Lemma string_at opt s rest :
  json_string_ok s = true -> Z.land opt JsonOption_Expand = 0 ->
  getCleanString utf_to_utf (at_ (visitString to_utf opt s ++ rest)) = Ok (Some s, at_ rest).
Proof.
  intros [Hcs Hs%bool_decide_eq_true]%andb_true_iff Ho.
  assert (Hb : Forall basic (to_utf s)).
  { apply Forall_forall. intros c Hc. rewrite forallb_forall in Hcs.
    apply list_elem_of_In, Hcs in Hc. unfold basic. lia. }
  unfold visitString, getCleanString. rewrite at_end_at. cbn [app].
  rewrite bool_decide_false, deref_at by done. cbn [mbind result_bind hd].
  rewrite bool_decide_true by done. cbn [negb]. rewrite next_at, <- app_assoc. cbn [app].
  set (w := add_esc_chars (to_utf s) opt).
  assert (H : clean_loop utf_to_utf (ahead (at_ (w ++ quote :: rest))) (left (at_ (w ++ quote :: rest)))
              = Ok (Some s, at_ (quote :: rest))).
  { unfold at_ at 1 2, begin_of. cbn [ahead left]. rewrite zlen_app, <- app_assoc.
    unfold w. rewrite (clean_chars opt (to_utf s) Ho Hb (quote :: rest)) by done.
    by rewrite clean_quote, app_nil_r, Hs. }
  rewrite H. cbn [mbind result_bind]. rewrite at_end_at, bool_decide_false by done. by rewrite next_at.
Qed.
End strings.
