(* ===== verification/JsonRoundtrip.v ===== *)
(** * JsonRoundtrip: the parser is the inverse of the printer

    [json_of] gives the value that JSON keeps of a value: the parser gives it
    back from the text of the value, with or without indentation. *)
From S2P Require Import Prelude CString Bytes Signature TypeInterface Buffer BinaryCodec BinaryCodecProperties.
From S2P Require Import JsonDecoder JsonEncoder JsonProperties JsonText.
From Stdlib Require Import Ascii.
#[local] Open Scope char_scope.
#[local] Open Scope list_scope.
#[local] Open Scope Z_scope.

#[local] Arguments at_ : simpl never.
#[local] Arguments at_end : simpl never.
#[local] Arguments deref : simpl never.
#[local] Arguments next : simpl never.

Section json.
Context (utf_to_utf : Z -> bytes) (to_utf : bytes -> list Z) (lexical_cast_double : bytes -> option Z).

(** ** What JSON keeps of a value *)

Definition json_int (isSigned : bool) (byteSize z : Z) : option AnyValue :=
  let n := if isSigned then byteSize else - byteSize in
  if n =? 0 then Some (TInt false 0, VInt (if z =? 0 then 0 else 1))
  else if bool_decide (n ∈ [1; 2; 4; 8]) && (long_min <=? z) && (z <=? long_max)
       then Some (TInt true 8, VInt z)
  else if bool_decide (n ∈ [-1; -2; -4; -8]) && (0 <=? z) && (z <? 2 ^ 64)
       then Some (TInt true 8, VInt (Z.min z long_max))
  else None.

(** A finite number without fraction nor exponent comes back as an integer. *)
Definition json_number (text : bytes) (d : decimal_text) : option AnyValue :=
  match fraction d, exponent d with
  | [], None => Some (TInt true 8, VInt (atol text))
  | _, _ => (fun b => (TFloat 8, VFloat b)) <$> lexical_cast_double text
  end.

Definition json_float (byteSize bits : Z) : option AnyValue :=
  let number p c := match c with
                    | Finite neg m e => json_number (float_text byteSize bits) (format_number p neg m e)
                    | _ => None
                    end in
  if byteSize =? 4 then number 9 (float_of_bits 23 8 bits)
  else if byteSize =? 8 then number 17 (float_of_bits 52 11 bits)
  else None.

Definition json_string (s : bytes) : option bytes :=
  if json_string_ok utf_to_utf to_utf s then Some s else None.

(** The map of the members of an object: the last member of a name is kept. *)
Definition json_object (m : list (bytes * AnyValue)) : AnyValue :=
  AnyValue_of_map (fold_left (fun m p => map_set (fst p) (snd p) m) m []).

Fixpoint json_of (t : ty) (v : value) {struct v} : option AnyValue :=
  match v, t with
  | VVoid, TVoid => Some (TVoid, VVoid)
  | VInt z, TInt isSigned byteSize => json_int isSigned byteSize z
  | VFloat bits, TFloat byteSize => json_float byteSize bits
  | VString s, TString => (fun s => (TString, VString s)) <$> json_string s
  | VList l, (TList el | TVarArgs el) => AnyValue_of_array <$> mapM (json_of el) l
  | VMap l, TMap TString el =>
      json_object <$> mapM (fun p => match fst p with
                                     | VString k => k ← json_string k; a ← json_of el (snd p); Some (k, a)
                                     | _ => None
                                     end) l
  | VTuple l, TTuple _ names ts =>
      js ← (fix members (l : list value) (ts : list ty) {struct l} : option (list AnyValue) :=
              match l, ts with
              | [], [] => Some []
              | v :: l', t :: ts' => a ← json_of t v; r ← members l' ts'; Some (a :: r)
              | _, _ => None
              end) l ts;
      match names with
      | [] => Some (AnyValue_of_array js)
      | _ => ks ← mapM json_string names;
             if (length ks =? length js)%nat then Some (json_object (zip ks js)) else None
      end
  | VDynamic (Some (t', v')), TDynamic => json_of t' v'
  | VOptional (Some v'), TOptional t' => json_of t' v'
  | VOptional None, TOptional _ => Some (TVoid, VVoid)
  | _, _ => None
  end.

(** ** The parser on each kind of text *)

Context (jsonPrintOption : Z) (Hexpand : Z.land jsonPrintOption JsonOption_Expand = 0)
  (Hascii : forall c, 0 <= c < 128 -> utf_to_utf c = [ascii_of_N (Z.to_N c)]).
#[local] Set Default Proof Using "Type*".

Abbreviation decodeValue' := (decodeValue utf_to_utf lexical_cast_double).

(** The alternatives of [decodeValue]. *)
Definition alternatives (f : nat) : parser AnyValue :=
  or_else decodeSpecial (or_else (decodeString utf_to_utf) (or_else (decodeFloat lexical_cast_double)
    (or_else decodeInteger (or_else (decodeArray (decodeValue' f) f)
      (decodeObject utf_to_utf (decodeValue' f) f))))).

(** [w] is a text of the value [j] for [decodeValue] with the fuel [f]. *)
Definition value_text (f : nat) (w : bytes) (j : AnyValue) : Prop :=
  forall ws rest, all_white ws -> ends rest = true ->
  decodeValue' f (at_ (ws ++ w ++ rest)) = Ok (Some j, at_ (skip rest)).

Lemma value_text_intro f w j c r :
  w = c :: r -> is_white c = false ->
  (forall rest, ends rest = true -> alternatives f (at_ (w ++ rest)) = Ok (Some j, at_ rest)) ->
  value_text (S f) w j.
Proof.
  intros Hw Hc H ws rest Hws He. cbn [decodeValue]. rewrite skipWhiteSpaces_at. cbn [mbind result_bind].
  fold (skip (ws ++ w ++ rest)). rewrite skip_white by done.
  replace (skip (w ++ rest)) with (w ++ rest) by (rewrite Hw; symmetry; by apply skip_char).
  fold (alternatives f). rewrite (H rest He). cbn [mbind result_bind]. by rewrite skipWhiteSpaces_at.
Qed.

Lemma or_else_fails {A} (p q : parser A) i : p i = Ok (None, i) -> or_else p q i = q i.
Proof. unfold or_else. by intros ->. Qed.

Lemma or_else_takes {A} (p q : parser A) i a it : p i = Ok (Some a, it) -> or_else p q i = Ok (Some a, it).
Proof. unfold or_else. by intros ->. Qed.

(** The alternatives that the first character excludes. *)
Lemma special_fails c s : c <> "t" -> c <> "f" -> c <> "n" ->
  decodeSpecial (at_ (c :: s)) = Ok (None, at_ (c :: s)).
Proof.
  intros H1 H2 H3. unfold decodeSpecial. rewrite at_end_at, bool_decide_false by done.
  assert (Hw : forall w v, starts_with w (c :: s) = false ->
    parser_map (fun _ : unit => v : AnyValue) (match_ w) (at_ (c :: s)) = Ok (None, at_ (c :: s))).
  { intros w v Hw. unfold parser_map. by rewrite match_at, Hw. }
  rewrite !or_else_fails; try apply Hw; cbn; by rewrite decide_False by congruence.
Qed.

Lemma string_fails c s : c <> quote ->
  decodeString utf_to_utf (at_ (c :: s)) = Ok (None, at_ (c :: s)).
Proof.
  intros H. unfold decodeString, parser_map, getCleanString.
  rewrite at_end_at, bool_decide_false, deref_at by done. cbn [mbind result_bind hd].
  by rewrite bool_decide_false.
Qed.

Lemma integer_text_fails c s : c <> "-" -> isdigit c = false ->
  getInteger_text (at_ (c :: s)) = Ok (None, at_ (c :: s)).
Proof.
  intros H1 H2. unfold getInteger_text. rewrite at_end_at, bool_decide_false, deref_at by done.
  cbn [mbind result_bind hd]. rewrite decide_False by done. rewrite getDigits_at.
  cbn [span]. by rewrite H2.
Qed.

Lemma number_fails c s : c <> "-" -> isdigit c = false ->
  decodeFloat lexical_cast_double (at_ (c :: s)) = Ok (None, at_ (c :: s))
  /\ decodeInteger (at_ (c :: s)) = Ok (None, at_ (c :: s)).
Proof.
  intros H1 H2. unfold decodeFloat, getFloat_text, decodeInteger, getInteger, parser_map.
  by rewrite integer_text_fails.
Qed.

Lemma array_fails f c s : c <> "[" ->
  decodeArray (decodeValue' f) f (at_ (c :: s)) = Ok (None, at_ (c :: s)).
Proof.
  intros H. unfold decodeArray. rewrite at_end_at, bool_decide_false, deref_at by done.
  cbn [mbind result_bind hd]. by rewrite bool_decide_false.
Qed.

Lemma object_fails f c s : c <> "{" ->
  decodeObject utf_to_utf (decodeValue' f) f (at_ (c :: s)) = Ok (None, at_ (c :: s)).
Proof.
  intros H. unfold decodeObject. rewrite at_end_at, bool_decide_false, deref_at by done.
  cbn [mbind result_bind hd]. by rewrite bool_decide_false.
Qed.

(** A closing bracket is not the beginning of a value. *)
Lemma closing_fails f ws c rest : all_white ws -> c = "]" \/ c = "}" ->
  decodeValue' (S f) (at_ (ws ++ c :: rest)) = Ok (None, at_ (c :: rest)).
Proof.
  intros Hws Hc. cbn [decodeValue]. rewrite skipWhiteSpaces_at. cbn [mbind result_bind].
  fold (skip (ws ++ c :: rest)). rewrite skip_white, skip_char by (done || by destruct Hc as [-> | ->]).
  destruct (number_fails c rest) as [Hf Hi]; [by destruct Hc as [-> | ->]..|].
  rewrite !or_else_fails, object_fails; [done | ..]; try done; try (by destruct Hc as [-> | ->]).
Qed.

(** *** Constants, numbers and strings *)

Lemma constant_text f w j c r :
  w = c :: r -> is_white c = false ->
  (forall s, decodeSpecial (at_ (w ++ s)) = Ok (Some j, at_ s)) -> value_text (S f) w j.
Proof.
  intros Hw Hc H. eapply value_text_intro; [done..|]. intros rest _. by apply or_else_takes.
Qed.

Lemma special_text f b :
  value_text (S f) (if b : bool then lit "true" else lit "false") (TInt false 0, VInt (Z.b2z b))
  /\ value_text (S f) (lit "null") (TVoid, VVoid).
Proof.
  assert (Hs : forall w v s, parser_map (fun _ : unit => v : AnyValue) (match_ w) (at_ (w ++ s)) = Ok (Some v, at_ s)).
  { intros w v s. unfold parser_map. by rewrite match_at, starts_with_app, drop_app_length. }
  assert (Hn : forall w v s, starts_with w s = false ->
    parser_map (fun _ : unit => v : AnyValue) (match_ w) (at_ s) = Ok (None, at_ s)).
  { intros w v s Hw. unfold parser_map. by rewrite match_at, Hw. }
  split; [destruct b|]; (eapply constant_text; [reflexivity | done |]); intros s; unfold decodeSpecial;
    rewrite at_end_at, bool_decide_false by done.
  - apply or_else_takes, (Hs (lit "true")).
  - rewrite or_else_fails by (by apply Hn). apply or_else_takes, (Hs (lit "false")).
  - rewrite !or_else_fails by (by apply Hn). apply (Hs (lit "null")).
Qed.

(** The first character of a number. *)
Lemma number_head neg ds rest : is_digits ds ->
  exists c r, sign neg ++ ds ++ rest = c :: r /\ (c = "-" \/ isdigit c = true).
Proof.
  intros Hds. destruct (first_digit ds Hds) as (c & r & -> & Hc).
  destruct neg; [exists "-", (c :: r ++ rest) | exists c, (r ++ rest)]; split; auto.
Qed.

Lemma number_not c : c = "-" \/ isdigit c = true ->
  is_white c = false /\ c <> "t" /\ c <> "f" /\ c <> "n" /\ c <> quote.
Proof.
  intros [-> | Hc]; [done|]. unfold isdigit in Hc.
  assert (Hn : forall x, code x < 48 \/ 57 < code x -> c <> x) by (intros x Hx ->; lia).
  split_and!; try (apply Hn; by vm_compute; auto).
  unfold is_white. rewrite !bool_decide_false; [done | apply Hn; by vm_compute; auto..].
Qed.

Lemma number_text f w j neg ds tl :
  w = sign neg ++ ds ++ tl -> is_digits ds ->
  (forall rest, ends rest = true ->
     or_else (decodeFloat lexical_cast_double) decodeInteger (at_ (w ++ rest)) = Ok (Some j, at_ rest)) ->
  value_text (S f) w j.
Proof.
  intros Hw Hds H. destruct (number_head neg ds tl Hds) as (c & r & Heq & Hc). rewrite <- Hw in Heq.
  destruct (number_not c Hc) as (Hwh & ? & ? & ? & ?).
  eapply value_text_intro; [exact Heq | done |]. intros rest He. unfold alternatives.
  assert (Hcons : w ++ rest = c :: r ++ rest) by (by rewrite Heq).
  rewrite or_else_fails by (rewrite Hcons; by apply special_fails).
  rewrite or_else_fails by (rewrite Hcons; by apply string_fails).
  specialize (H rest He). unfold or_else in H |- *.
  destruct (decodeFloat _ _) as [[[a|] it]|e]; cbn [mbind result_bind] in H |- *; [done | | done].
  by rewrite H.
Qed.

Lemma integer_text f neg ds : is_digits ds ->
  value_text (S f) (sign neg ++ ds)
    (TInt true 8, VInt (clamp (if neg then - decimal_value ds else decimal_value ds))).
Proof.
  intros Hds. apply (number_text f _ _ neg ds []); [by rewrite app_nil_r | done |].
  intros rest He. rewrite <- app_assoc.
  destruct (float_text_integer neg ds rest Hds He) as (it & Hf & ->).
  rewrite or_else_fails by (unfold decodeFloat; by rewrite Hf).
  unfold decodeInteger, getInteger, parser_map.
  rewrite integer_text_at by (try done; intros c r E; by apply (ends_no_digit rest c r)).
  cbn [option_map]. by rewrite atol_clamp.
Qed.

Lemma float_value_text f neg ds fs e b :
  is_digits ds -> (fs = [] \/ is_digits fs) -> exponent_ok e -> (fs <> [] \/ is_Some e) ->
  let text := sign neg ++ ds ++ (match fs with [] => [] | _ => "." :: fs end) ++ exponent_text e in
  lexical_cast_double text = Some b -> value_text (S f) text (TFloat 8, VFloat b).
Proof.
  intros Hds Hfs Hok Hsome text Hb. eapply (number_text f text _ neg ds); [done | done |].
  intros rest He. apply or_else_takes. unfold decodeFloat, text.
  rewrite float_text_at by done. cbn [mbind result_bind]. fold text. by rewrite Hb.
Qed.

Lemma string_text f s : json_string_ok utf_to_utf to_utf s = true ->
  value_text (S f) (visitString to_utf jsonPrintOption s) (TString, VString s).
Proof.
  intros Hs. eapply value_text_intro; [reflexivity | done |]. intros rest He. unfold alternatives.
  rewrite or_else_fails by (by apply special_fails). apply or_else_takes.
  unfold decodeString, parser_map. by rewrite string_at.
Qed.

(** *** Arrays and objects *)

Lemma indent_white n : all_white (printIndent jsonPrintOption n).
Proof.
  unfold printIndent. destruct (pretty _); [|constructor]. constructor; [done|].
  apply Forall_concat, Forall_forall. intros x ->%list_elem_of_In%repeat_spec. by repeat constructor.
Qed.

Lemma ends_white ws c rest : all_white ws -> is_digit_part c = false -> ends (ws ++ c :: rest) = true.
Proof.
  intros Hws Hc. destruct Hws as [|d ws Hd _]; cbn; [by rewrite Hc|].
  unfold is_white in Hd. destruct (bool_decide_reflect (d = " ")) as [->|_]; [done|].
  cbn in Hd. apply bool_decide_eq_true in Hd as ->. done.
Qed.

(** The elements of an array or of an object, separated by commas. *)
Abbreviation join := (join_texts jsonPrintOption).

Lemma join_cons n x xs : join n (x :: xs)
  = printIndent jsonPrintOption n ++ x ++ (match xs with [] => [] | _ => "," :: join n xs end).
Proof. destruct xs; cbn [join_texts]; by rewrite ?app_nil_r. Qed.

Lemma join_length n xs : (length xs <= S (length (join n xs)))%nat
  /\ Forall (fun x => (length x <= length (join n xs))%nat) xs.
Proof.
  induction xs as [|x xs [IH1 IH2]]; [by split; [cbn; lia|]|]. rewrite join_cons.
  rewrite !length_app. destruct xs as [|y xs]; [split; [cbn; lia | repeat constructor; lia]|].
  cbn [length] in *. split; [lia|]. constructor; [lia|].
  eapply Forall_impl; [exact IH2|]. cbn beta. intros z Hz. lia.
Qed.

Lemma array_elements f ws n xs js : all_white ws -> Forall2 (value_text (S f)) xs js ->
  forall g acc rest, (length xs < g)%nat ->
  array_loop (decodeValue' (S f)) g acc (at_ (join n xs ++ ws ++ "]" :: rest))
  = Ok (acc ++ js, at_ ("]" :: rest)).
Proof.
  intros Hws. induction 1 as [|x j xs js Hx Hxs IH]; intros g acc rest Hg;
    (destruct g as [|g]; [cbn in Hg; lia|]); cbn [array_loop].
  - cbn [join_texts app]. rewrite closing_fails by auto. cbn [mbind result_bind]. by rewrite app_nil_r.
  - rewrite join_cons, <- !app_assoc. destruct Hxs as [|x' j' xs js Hx' Hxs].
    + cbn [app]. rewrite Hx by (apply indent_white || by apply ends_white). cbn [mbind result_bind].
      rewrite skip_white, skip_char, deref_at by done. done.
    + cbn [app]. rewrite Hx by (apply indent_white || done). cbn [mbind result_bind].
      rewrite skip_char, deref_at by done. cbn [mbind result_bind hd].
      rewrite bool_decide_true by done. cbn [negb]. rewrite next_at.
      rewrite IH by (cbn [length] in *; lia). by rewrite <- app_assoc.
Qed.

Lemma array_text f ws n xs js : all_white ws -> Forall2 (value_text (S f)) xs js -> (length xs < S f)%nat ->
  value_text (S (S f)) ("[" :: join n xs ++ ws ++ ["]"]) (AnyValue_of_array js).
Proof.
  intros Hws Hxs Hl. eapply value_text_intro; [reflexivity | done |]. intros rest He. unfold alternatives.
  rewrite or_else_fails by (by apply special_fails). rewrite or_else_fails by (by apply string_fails).
  destruct (number_fails "[" ((join n xs ++ ws ++ ["]"]) ++ rest)) as [Hf Hi]; [done..|].
  cbn [app]. rewrite !or_else_fails by done. apply or_else_takes. unfold decodeArray.
  rewrite at_end_at, bool_decide_false, deref_at by done. cbn [mbind result_bind hd].
  rewrite bool_decide_true by done. cbn [negb]. rewrite next_at, <- !app_assoc. cbn [app].
  rewrite (array_elements f ws n xs js) by done. cbn [mbind result_bind app]. rewrite deref_at. cbn [mbind result_bind hd].
  rewrite bool_decide_true by done. cbn [negb]. by rewrite next_at.
Qed.

(** The text of a member of an object. *)
Definition member_text (f : nat) (x : bytes) (m : bytes * AnyValue) : Prop :=
  exists w, x = visitString to_utf jsonPrintOption (fst m) ++ printColon jsonPrintOption ++ w
    /\ json_string_ok utf_to_utf to_utf (fst m) = true /\ value_text f w (snd m).

Abbreviation add_members := (fold_left (fun m p => map_set (fst p) (snd p) m)).

Lemma colon_text : exists ws, printColon jsonPrintOption = ":" :: ws /\ all_white ws.
Proof.
  unfold printColon. destruct (pretty _); [exists [" "] | exists []]; split; try done; by repeat constructor.
Qed.

Lemma skip_string k r :
  skip (visitString to_utf jsonPrintOption k ++ r) = visitString to_utf jsonPrintOption k ++ r.
Proof. by apply skip_char. Qed.

Lemma object_elements f ws n xs ms : all_white ws -> Forall2 (member_text (S f)) xs ms ->
  forall g acc rest, (length xs < g)%nat ->
  object_loop utf_to_utf (decodeValue' (S f)) g acc (at_ (join n xs ++ ws ++ "}" :: rest))
  = Ok (Some (add_members ms acc), at_ ("}" :: rest)).
Proof.
  intros Hws. induction 1 as [|x [k j] xs ms Hx Hxs IH]; intros g acc rest Hg;
    (destruct g as [|g]; [cbn in Hg; lia|]); cbn [object_loop]; rewrite skipWhiteSpaces_at;
    cbn [mbind result_bind];
    match goal with |- context [at_ (snd (span is_white ?s))] => fold (skip s) end.
  - cbn [join_texts app]. rewrite skip_white, skip_char by done.
    assert (Hk : getCleanString utf_to_utf (at_ ("}" :: rest)) = Ok (None, at_ ("}" :: rest))).
    { pose proof (string_fails "}" rest ltac:(done)) as H. unfold decodeString, parser_map in H.
      by destruct (getCleanString _ _) as [[[a|] it]|e]; inversion H. }
    by rewrite Hk.
  - destruct Hx as (w & -> & Hk & Hw). cbn [fst snd] in *. destruct colon_text as (cs & Hcs & Hwh).
    rewrite join_cons, <- !app_assoc, skip_white by apply indent_white.
    rewrite skip_string, string_at by done. cbn [mbind result_bind]. rewrite Hcs. cbn [app].
    rewrite skipWhiteSpaces_at. cbn [mbind result_bind].
    match goal with |- context [at_ (snd (span is_white ?s))] => fold (skip s) end.
    rewrite skip_char, at_end_at, bool_decide_false, deref_at by done. cbn [mbind result_bind hd].
    rewrite bool_decide_true by done. cbn [negb]. rewrite next_at. cbn [fold_left fst snd].
    destruct Hxs as [|x' j' xs ms Hx' Hxs]; cbn [app].
    + rewrite Hw by (done || by apply ends_white). cbn [mbind result_bind].
      rewrite skip_white, skip_char, at_end_at, bool_decide_false, deref_at by done. done.
    + rewrite Hw by done. cbn [mbind result_bind].
      rewrite skip_char, at_end_at, bool_decide_false, deref_at by done. cbn [mbind result_bind hd].
      rewrite bool_decide_true by done. cbn [negb]. rewrite next_at.
      rewrite IH by (cbn [length] in *; lia). done.
Qed.

Lemma object_text f ws n xs ms : all_white ws -> Forall2 (member_text (S f)) xs ms -> (length xs < S f)%nat ->
  value_text (S (S f)) ("{" :: join n xs ++ ws ++ ["}"]) (json_object ms).
Proof.
  intros Hws Hxs Hl. eapply value_text_intro; [reflexivity | done |]. intros rest He. unfold alternatives.
  rewrite or_else_fails by (by apply special_fails). rewrite or_else_fails by (by apply string_fails).
  destruct (number_fails "{" ((join n xs ++ ws ++ ["}"]) ++ rest)) as [Hf Hi]; [done..|].
  cbn [app]. rewrite !or_else_fails by (done || by apply array_fails). unfold decodeObject.
  rewrite at_end_at, bool_decide_false, deref_at by done. cbn [mbind result_bind hd].
  rewrite bool_decide_true by done. cbn [negb]. rewrite next_at, <- !app_assoc. cbn [app].
  rewrite (object_elements f ws n xs ms) by done. cbn [mbind result_bind].
  rewrite at_end_at, bool_decide_false, deref_at by done. cbn [mbind result_bind hd].
  rewrite bool_decide_true by done. cbn [negb]. by rewrite next_at.
Qed.

(** *** Numbers *)

#[local] Set Default Proof Using "All".

Lemma print_integer_sign z : exists neg ds, print_integer z = sign neg ++ ds /\ is_digits ds
  /\ (Z.abs z < 10 ^ 20 -> (if neg : bool then - decimal_value ds else decimal_value ds) = z).
Proof.
  unfold print_integer. destruct (Z.ltb_spec z 0).
  - exists true, (to_decimal (- z)). split_and!; [done | apply to_decimal_digits|]. intros Hz.
    destruct (to_decimal_spec (- z)) as (_ & _ & ->); lia.
  - exists false, (to_decimal z). split_and!; [done | apply to_decimal_digits|]. intros Hz.
    by destruct (to_decimal_spec z) as (_ & _ & ->); [lia|].
Qed.

Lemma print_integer_text f z : Z.abs z < 10 ^ 20 ->
  value_text (S f) (print_integer z) (TInt true 8, VInt (clamp z)).
Proof.
  intros Hz. destruct (print_integer_sign z) as (neg & ds & -> & Hds & Hv).
  rewrite <- (Hv Hz) at 1. by apply integer_text.
Qed.

Lemma int_text f isSigned n z j :
  json_int isSigned n z = Some j -> value_text (S f) (visitInt z isSigned n) j.
Proof.
  unfold json_int, visitInt. destruct (_ =? 0).
  - intros [= <-]. destruct (z =? 0); [apply (special_text f false) | apply (special_text f true)].
  - assert (H20 : 2 ^ 64 < 10 ^ 20) by done. unfold long_min, long_max in *.
    set (k := if isSigned then n else - n).
    destruct (bool_decide (k ∈ [1; 2; 4; 8])) eqn:Hk; cbn [andb].
    + assert (Hk' : bool_decide (k ∈ [-1; -2; -4; -8]) = false).
      { apply bool_decide_eq_true in Hk. apply bool_decide_eq_false. set_unfold. lia. }
      rewrite Hk'. cbn [andb]. destruct ((- 2 ^ 63 <=? z) && (z <=? 2 ^ 63 - 1)) eqn:Hr; [|done].
      intros [= <-]. assert (clamp z = z) as E by (unfold clamp, long_min, long_max; lia).
      rewrite <- E at 2. apply print_integer_text. lia.
    + destruct (bool_decide (k ∈ [-1; -2; -4; -8])); cbn [andb]; [|done].
      destruct ((0 <=? z) && (z <? 2 ^ 64)) eqn:Hr; [|done]. intros [= <-].
      rewrite wrap64_small by lia.
      assert (clamp z = Z.min z (2 ^ 63 - 1)) as <- by (unfold clamp, long_min, long_max; lia).
      apply print_integer_text. lia.
Qed.

Lemma decimal_text_value f p neg m e j :
  let d := format_number p neg m e in
  json_number (print_decimal d) d = Some j -> value_text (S f) (print_decimal d) j.
Proof.
  intros d. destruct (format_number_shape p neg m e) as (Hneg & Hi & Hf). fold d in Hneg, Hi, Hf.
  destruct (print_decimal_shape d Hi) as (x & Hp & Hx & Hxe). unfold json_number. intros Hj.
  assert (Hfloat : forall b, lexical_cast_double (print_decimal d) = Some b ->
    fraction d <> [] \/ is_Some x -> value_text (S f) (print_decimal d) (TFloat 8, VFloat b)).
  { intros b Hb Hs. rewrite Hp in Hb |- *. by apply float_value_text. }
  destruct (fraction d) as [|c fs] eqn:Hfd; [destruct (exponent d) as [y|] eqn:Hy|].
  - apply fmap_Some in Hj as (b & Hb & ->). apply Hfloat; [done|]. right. apply Hxe. by eexists.
  - injection Hj as <-. destruct x as [x|]; [by destruct (proj1 Hxe ltac:(by eexists)); discriminate|].
    rewrite Hp. cbn [app exponent_text]. rewrite !app_nil_r. rewrite atol_clamp by done.
    by apply integer_text.
  - apply fmap_Some in Hj as (b & Hb & ->). apply Hfloat; [done|]. by left.
Qed.

Lemma float_text_value f n bits j :
  json_float n bits = Some j -> value_text (S f) (float_text n bits) j.
Proof.
  unfold json_float, float_text, print_float.
  destruct (n =? 4); [|destruct (n =? 8); [|done]]; destruct (float_of_bits _ _ _); try done;
    apply decimal_text_value.
Qed.

(** *** Values *)

Abbreviation text := (serialize to_utf jsonPrintOption).

(** The induction hypothesis: every text of [v] is read back. *)
Definition reads (v : value) : Prop := forall t j indent f,
  json_of t v = Some j -> (length (text indent t v) < f)%nat -> value_text f (text indent t v) j.

Lemma closing_white {A} n (l : list A) :
  all_white (match l with [] => [] | _ => printIndent jsonPrintOption n end).
Proof. destruct l; [constructor | apply indent_white]. Qed.

(** The fuel of the elements of a bracketed text. *)
Lemma bracket_fuel f n o c xs ws :
  (length (o :: join n xs ++ ws ++ [c]) < f)%nat -> exists f', f = S (S f')
    /\ (length xs < S f')%nat /\ Forall (fun x => (length x < S f')%nat) xs.
Proof.
  cbn [length]. rewrite !length_app. cbn [length]. intros Hf. destruct f as [|[|f]]; [lia | lia|].
  exists f. destruct (join_length n xs) as [H1 H2]. split_and!; [done | lia |].
  eapply Forall_impl; [exact H2|]. cbn beta. intros x Hx. lia.
Qed.

Lemma array_value f n xs js ws : all_white ws ->
  (length ("[" :: join n xs ++ ws ++ ["]"]) < f)%nat ->
  Forall2 (fun x j => forall g, (length x < g)%nat -> value_text g x j) xs js ->
  value_text f ("[" :: join n xs ++ ws ++ ["]"]) (AnyValue_of_array js).
Proof.
  intros Hws Hf Hxs. destruct (bracket_fuel f n _ _ xs ws Hf) as (f' & -> & Hl & Hall).
  apply array_text; [done | | done]. clear Hf Hl.
  induction Hxs as [|x j xs js Hx _ IH]; constructor; inversion Hall; auto.
Qed.

Lemma object_value f n xs ms ws : all_white ws ->
  (length ("{" :: join n xs ++ ws ++ ["}"]) < f)%nat ->
  Forall2 (fun x m => forall g, (length x < g)%nat -> member_text g x m) xs ms ->
  value_text f ("{" :: join n xs ++ ws ++ ["}"]) (json_object ms).
Proof.
  intros Hws Hf Hxs. destruct (bracket_fuel f n _ _ xs ws Hf) as (f' & -> & Hl & Hall).
  apply object_text; [done | | done]. clear Hf Hl.
  induction Hxs as [|x j xs js Hx _ IH]; constructor; inversion Hall; auto.
Qed.

Lemma list_reads el n l js : Forall reads l -> mapM (json_of el) l = Some js ->
  Forall2 (fun x j => forall g, (length x < g)%nat -> value_text g x j) (map (text n el) l) js.
Proof.
  intros Hl Hjs%mapM_Some. revert Hl. induction Hjs as [|v j l js Hv _ IH]; intros Hl; [constructor|].
  inversion_clear Hl as [|? ? Hr Hl']. constructor; [|by apply IH]. intros g Hg. by apply Hr.
Qed.

Lemma member_intro g k x j :
  json_string k = Some k -> (forall h, (length x < h)%nat -> value_text h x j) ->
  (length (visitString to_utf jsonPrintOption k ++ printColon jsonPrintOption ++ x) < g)%nat ->
  member_text g (visitString to_utf jsonPrintOption k ++ printColon jsonPrintOption ++ x) (k, j).
Proof.
  intros Hk Hx Hg. exists x. cbn [fst snd]. split_and!; [done | unfold json_string in Hk; by destruct (json_string_ok _ _ k)|].
  apply Hx. rewrite !length_app in Hg. lia.
Qed.

Lemma json_string_same k k' : json_string k = Some k' -> k' = k.
Proof. unfold json_string. destruct (json_string_ok _ _ k); [by intros [= <-] | done]. Qed.

Definition json_members (el : ty) : list (value * value) -> option (list (bytes * AnyValue)) :=
  mapM (fun p => match fst p with
                 | VString k => k ← json_string k; a ← json_of el (snd p); Some (k, a)
                 | _ => None
                 end).

Lemma map_reads el n l ms : Forall (fun p => reads (fst p) /\ reads (snd p)) l -> json_members el l = Some ms ->
  Forall2 (fun x m => forall g, (length x < g)%nat -> member_text g x m)
    (map (fun p => text n TString (fst p) ++ printColon jsonPrintOption ++ text n el (snd p)) l) ms.
Proof.
  intros Hl Hms%mapM_Some. revert Hl. induction Hms as [|[kv v] m l ms Hv _ IH]; intros Hl; [constructor|].
  inversion_clear Hl as [|? ? [_ Hr] Hl']. constructor; [|by apply IH]. cbn [fst snd] in *.
  destruct kv; try done. apply bind_Some in Hv as (k & Hk & Hv). apply bind_Some in Hv as (a & Ha & [= <-]).
  pose proof (json_string_same _ _ Hk) as ->. intros g Hg. apply member_intro; [done | | done].
  intros h Hh. by apply Hr.
Qed.

(** The members of a tuple. *)
Definition tuple_json : list value -> list ty -> option (list AnyValue) :=
  fix members (l : list value) (ts : list ty) {struct l} : option (list AnyValue) :=
    match l, ts with
    | [], [] => Some []
    | v :: l', t :: ts' => a ← json_of t v; r ← members l' ts'; Some (a :: r)
    | _, _ => None
    end.
Definition tuple_texts (n : nat) : list value -> list ty -> list bytes :=
  fix members (l : list value) (ts : list ty) {struct l} : list bytes :=
    match l, ts with
    | v :: l', t :: ts' => text n t v :: members l' ts'
    | _, _ => []
    end.

Lemma tuple_reads n l : Forall reads l -> forall ts js, tuple_json l ts = Some js ->
  Forall2 (fun x j => forall g, (length x < g)%nat -> value_text g x j) (tuple_texts n l ts) js.
Proof.
  induction 1 as [|v l Hv _ IH]; intros [|t ts] js Hjs; try done; [by injection Hjs as <-|].
  cbn [tuple_json tuple_texts] in *. apply bind_Some in Hjs as (a & Ha & Hjs).
  apply bind_Some in Hjs as (r & Hr & [= <-]). constructor; [|by apply IH]. intros g Hg. by apply Hv.
Qed.

Lemma tuple_object_reads names ks xs js : mapM json_string names = Some ks ->
  length ks = length js ->
  Forall2 (fun x j => forall g, (length x < g)%nat -> value_text g x j) xs js ->
  Forall2 (fun x m => forall g, (length x < g)%nat -> member_text g x m)
    (zip_with (fun a x => visitString to_utf jsonPrintOption a ++ printColon jsonPrintOption ++ x) names xs)
    (zip ks js).
Proof.
  intros Hks%mapM_Some Hlen Hxs. revert xs js Hlen Hxs.
  induction Hks as [|k k' names ks Hk _ IH]; intros xs js Hlen Hxs; [constructor|].
  destruct js as [|j js]; [done|]. inversion Hxs as [|x j' xs' js' Hx Hxs']; subst. cbn [zip_with].
  pose proof (json_string_same _ _ Hk) as ->.
  constructor; [|apply IH; [by injection Hlen | done]]. intros g Hg. by apply member_intro.
Qed.

(** The text of every value that JSON keeps is read back. *)
Lemma all_read v : reads v.
Proof.
  unfold reads. induction v as [ | z | b | s | l IH | l IH | l IH | | t' v' IH | r | | v' IH] using val_nested_ind;
    intros t j indent f Hj Hf; (destruct f as [|f]; [lia|]).
  - destruct t; try done. injection Hj as <-. apply (special_text f true).
  - destruct t; try done. by apply int_text.
  - destruct t; try done. by apply float_text_value.
  - destruct t; try done. apply fmap_Some in Hj as (k & Hk & ->).
    pose proof (json_string_same _ _ Hk) as ->. apply string_text. unfold json_string in Hk.
    by destruct (json_string_ok _ _ s).
  - assert (Ht : exists el, (t = TList el \/ t = TVarArgs el)).
    { destruct t; try done; eexists; auto. }
    destruct Ht as (el & [-> | ->]); apply fmap_Some in Hj as (js & Hjs & ->);
      (apply array_value; [apply closing_white | exact Hf | by apply list_reads]).
  - destruct t as [ | | | | | | key el | | | | | ]; try done. destruct key; try done.
    apply fmap_Some in Hj as (ms & Hms & ->).
    apply object_value; [apply closing_white | exact Hf | by apply map_reads].
  - destruct t as [ | | | | | | | name names ts | | | | ]; try done.
    apply bind_Some in Hj as (js & Hjs & Hj). destruct names as [|a names].
    + injection Hj as <-. apply array_value; [apply indent_white | exact Hf | by apply tuple_reads].
    + apply bind_Some in Hj as (ks & Hks & Hj).
      destruct (Nat.eqb_spec (length ks) (length js)) as [Hlen|]; [|done]. injection Hj as <-.
      apply object_value; [apply indent_white | exact Hf |].
      eapply tuple_object_reads; [done | done | by apply tuple_reads].
  - by destruct t.
  - destruct t; try done. by apply IH.
  - by destruct t.
  - destruct t; try done. injection Hj as <-. apply (special_text f true).
  - destruct t; try done. by apply IH.
Qed.
End json.

(** ** The properties *)

(** C23. The JSON parser is the inverse of the JSON printer: for every value that
    JSON keeps, structured and dynamic values included, with or without
    indentation, parsing the text of the value gives back what [json_of] says:
    booleans, integers as signed 64-bit integers, floating point numbers as the
    conversion of their digits, or as integers when they print so, strings, lists and tuples as lists, maps and named
    tuples as maps, and an absent option as nothing. *)
Theorem json_roundtrip utf to_utf lex opt t v j
    (Hexpand : Z.land opt JsonOption_Expand = 0)
    (Hascii : forall c, 0 <= c < 128 -> utf c = [ascii_of_N (Z.to_N c)])
    (Hj : json_of utf to_utf lex t v = Some j) :
  decodeJSON utf lex (encodeJSON to_utf t v opt) = Ok j.
Proof.
  unfold decodeJSON, decodeJSON_range, decode, encodeJSON.
  set (s := serialize to_utf opt 0 t v).
  assert (Hf : (length s < S (length (ahead (begin_of s (zlen s)))))%nat).
  { cbn. rewrite length_app. lia. }
  pose proof (all_read utf to_utf lex opt Hexpand Hascii v t j 0%nat _ Hj Hf [] [] ltac:(constructor) eq_refl) as H.
  cbn [app] in H. rewrite app_nil_r in H. fold s in H. unfold at_ in H. by rewrite H.
Qed.

(** Four hexadecimal digits hold the low half of a character only. *)
Lemma non_printable_low c : non_printable_to_string c = non_printable_to_string (c mod 65536).
Proof.
  assert (H : forall k, 0 <= k <= 12 -> Z.land (Z.shiftr c k) 15 = Z.land (Z.shiftr (c mod 65536) k) 15).
  { intros k Hk. change 65536 with (2 ^ 16). apply Z.bits_inj'. intros i Hi.
    rewrite !Z.land_spec, !Z.shiftr_spec by lia. change 15 with (Z.ones 4).
    destruct (Z.ltb_spec i 4).
    - by rewrite Z.mod_pow2_bits_low by lia.
    - by rewrite Z.ones_spec_high, !andb_false_r by lia. }
  unfold non_printable_to_string. by rewrite !H by lia.
Qed.

(** The printer keeps only the low 16 bits of a character outside of the
    basic plane: the text of such a character is that of another one, so that
    the string cannot be read back. *)
Theorem json_plane_lost to_utf s s' c opt :
  65536 <= c < 2 ^ 21 -> 128 <= c mod 65536 -> to_utf s = [c] -> to_utf s' = [c mod 65536] ->
  encodeJSON to_utf TString (VString s) opt = encodeJSON to_utf TString (VString s') opt.
Proof.
  intros Hc Hlow Hs Hs'. unfold encodeJSON. cbn [serialize]. unfold visitString. rewrite Hs, Hs'.
  unfold add_esc_chars. cbn [mbind list_bind]. rewrite !app_nil_r. do 2 f_equal.
  change (2 ^ 21) with 2097152 in Hc. pose proof (Z.mod_pos_bound c 65536 ltac:(lia)).
  assert (Hx : forall x, 128 <= x < 2097152 -> esc_char x opt = non_printable_to_string x).
  { intros x Hx. unfold esc_char. rewrite wrap_small by (change (2 ^ 32) with 4294967296; lia).
    destruct (Z.leb_spec x 127); [lia|]. rewrite andb_false_r.
    destruct (Z.ltb_spec x 127); [lia|]. by rewrite andb_false_r. }
  rewrite !Hx by lia. apply non_printable_low.
Qed.

(** ** Witnesses *)

(** UTF-8 for two bytes at most, and a conversion of one number. *)
Definition utf8 (c : Z) : bytes :=
  if c <? 128 then [ascii_of_N (Z.to_N c)]
  else [ascii_of_N (Z.to_N (192 + c / 64)); ascii_of_N (Z.to_N (128 + c mod 64))].

Fixpoint from_utf8 (s : bytes) : list Z :=
  match s with
  | [] => []
  | a :: s' =>
      if code a <? 128 then code a :: from_utf8 s'
      else match s' with
           | b :: s'' => ((code a - 192) * 64 + (code b - 128)) :: from_utf8 s''
           | [] => []
           end
  end.

Definition one_and_a_half (s : bytes) : option Z :=
  if decide (s = lit "1.5") then Some 0x3FF8000000000000 else None.

Definition json_sample_type : ty :=
  TTuple [] [lit "name"; lit "list"; lit "map"]
    [TString; TList (TInt true 4); TMap TString TDynamic].
Definition json_sample : value :=
  VTuple [VString ([quote] ++ utf8 233 ++ ["010"]); VList [VInt (-7); VInt 42];
          VMap [(VString (lit "z"), VDynamic (Some (TFloat 8, VFloat 0x3FF8000000000000)));
                (VString (lit "a"), VDynamic (Some (TInt false 0, VInt 1)))]].

Lemma json_roundtrip_witness :
  encodeJSON from_utf8 json_sample_type json_sample JsonOption_PrettyPrint <> []
  /\ exists j, json_of utf8 from_utf8 one_and_a_half json_sample_type json_sample = Some j
       /\ decodeJSON utf8 one_and_a_half
            (encodeJSON from_utf8 json_sample_type json_sample JsonOption_PrettyPrint) = Ok j.
Proof.
  split; [by vm_compute|]. eexists. split; [vm_compute; reflexivity|].
  apply (json_roundtrip utf8 from_utf8 one_and_a_half JsonOption_PrettyPrint json_sample_type json_sample);
    [reflexivity | | vm_compute; reflexivity].
  intros c Hc. unfold utf8. destruct (Z.ltb_spec c 128); [done | lia].
Defined.

Lemma json_plane_lost_witness :
  let to_utf s := if decide (s = lit "x") then [128512] else [62976] in
  encodeJSON to_utf TString (VString (lit "x")) 0 = encodeJSON to_utf TString (VString (lit "y")) 0.
Proof.
  intros to_utf. apply (json_plane_lost to_utf (lit "x") (lit "y") 128512 0); [lia | by vm_compute | reflexivity..].
Defined.
