(* ===== verification/Parse.v ===== *)
(** * Parse: the parser combinators

    Model of [ka/parse.hpp] and of the combinators of [ka/uri/parsing.hpp]. A
    parser is a function of the range that remains, a list of characters; its
    result is an optional value and the iterator up to which it succeeded, that
    is what remains to parse; a failure leaves the range as it was. Products and
    sums are binary and are nested where the sources have more operands. *)
From S2P Require Import Prelude CString.
From Stdlib Require Import Ascii.
#[local] Open Scope char_scope.
#[local] Open Scope list_scope.

(** [res_t]. *)
Definition res_t (A : Type) : Type := (option A * bytes)%type.
Definition parse (A : Type) : Type := bytes -> res_t A.

Definition ok {A} (a : A) (i : bytes) : res_t A := (Some a, i).
Definition err {A} (i : bytes) : res_t A := (None, i).

(** [fmapped_t]. *)
Definition fmap_parse {A B} (f : A -> B) (pa : parse A) : parse B := fun b =>
  let '(value, iter) := pa b in (option_map f value, iter).

(** [symbol_t]. *)
Definition symbol : parse ascii := fun b =>
  match b with [] => err b | c :: b' => ok c b' end.

(** [product_t], two parsers one after the other. *)
Definition product {A B} (pa : parse A) (pb : parse B) : parse (A * B) := fun b =>
  match pa b with
  | (Some x, it) =>
      match pb it with
      | (Some y, it) => ok (x, y) it
      | (None, _) => err b
      end
  | (None, _) => err b
  end.

(** [unit_t]. *)
Definition unit_parse : parse unit := fun b => ok tt b.

(** [sum_t], the first parser that succeeds; the second one starts from the
    iterator of the first. *)
Definition sum {A B} (pa : parse A) (pb : parse B) : parse (A + B) := fun b =>
  match pa b with
  | (Some x, it) => ok (inl x) it
  | (None, it) =>
      match pb it with
      | (Some y, it) => ok (inr y) it
      | (None, _) => err b
      end
  end.

(** [opt]. *)
Definition opt {A} (pa : parse A) : parse (option A) :=
  fmap_parse (fun v => match v with inl a => Some a | inr _ => None end) (sum pa unit_parse).

(** The loop of [quantify_t]: it calls the parser until it fails, or [n] times.
    Without a bound, the length of the range is enough when the parser consumes a
    character each time that it succeeds. *)
Fixpoint quantify_loop {A} (n : nat) (pa : parse A) (b : bytes) : list A * bytes :=
  match n with
  | O => ([], b)
  | S n' =>
      match pa b with
      | (Some a, it) => let '(values, it) := quantify_loop n' pa it in (a :: values, it)
      | (None, _) => ([], b)
      end
  end.

(** [quantify_t]. *)
Definition quantify {A} (pa : parse A) (min : nat) (max : option nat) : parse (list A) := fun b =>
  let n := match max with Some m => m | None => length b end in
  let '(values, it) := quantify_loop n pa b in
  if (min <=? length values)%nat then ok values it else err b.

(** [list], [at_least], [between]. *)
Definition many {A} (pa : parse A) : parse (list A) := quantify pa 0 None.
Definition at_least {A} (n : nat) (pa : parse A) : parse (list A) := quantify pa n None.
Definition between {A} (min max : nat) (pa : parse A) : parse (list A) := quantify pa min (Some max).

(** [filter]. *)
Definition filter_parse {A} (pred : A -> bool) (pa : parse A) : parse A := fun b =>
  match pa b with
  | (Some a, it) => if pred a then ok a it else err b
  | (None, _) => err b
  end.

(** [literal], [any_of], [is_char_class_t]. *)
Definition literal (c : ascii) : parse ascii := filter_parse (fun a => bool_decide (c = a)) symbol.
Definition any_of (cs : bytes) : parse ascii := filter_parse (fun a => bool_decide (a ∈ cs)) symbol.
Definition char_class (p : ascii -> bool) : parse ascii := filter_parse p symbol.

(** [literals]: the product of the literals. *)
Fixpoint literals (cs : bytes) : parse bytes :=
  match cs with
  | [] => fmap_parse (fun _ => []) unit_parse
  | c :: cs' => fmap_parse (fun p => fst p :: snd p) (product (literal c) (literals cs'))
  end.

(** [power]: exactly [n] times. *)
Fixpoint power {A} (pa : parse A) (n : nat) : parse (list A) :=
  match n with
  | O => fmap_parse (fun _ => []) unit_parse
  | S n' => fmap_parse (fun p => fst p :: snd p) (product pa (power pa n'))
  end.

(** [str]: the flattening of a value into a string. *)
Class ToString (A : Type) : Type := to_string : A -> bytes.
#[export] Instance to_string_char : ToString ascii := fun c => [c].
#[export] Instance to_string_list {A} `{ToString A} : ToString (list A) := fun l => concat (map to_string l).
#[export] Instance to_string_product {A B} `{ToString A, ToString B} : ToString (A * B) :=
  fun p => to_string (fst p) ++ to_string (snd p).
#[export] Instance to_string_sum {A B} `{ToString A, ToString B} : ToString (A + B) :=
  fun v => match v with inl a => to_string a | inr b => to_string b end.
#[export] Instance to_string_opt {A} `{ToString A} : ToString (option A) :=
  fun v => match v with Some a => to_string a | None => [] end.

(** A parser whose value is flattened. *)
Definition str_parse {A} `{ToString A} (pa : parse A) : parse bytes := fmap_parse to_string pa.

Declare Scope parse_scope.
Delimit Scope parse_scope with parse.
Infix "*" := product : parse_scope.
Infix "+" := sum : parse_scope.
