(* ===== verification/UriGrammar.v ===== *)
(** * UriGrammar: the parser of URI

    Model of [ka/uri/parsing.hpp]: the grammar of RFC 3986 as parsers, with the
    normalization that they do. Every definition of the grammar has the name of
    the sources. The "C" locale is the global one. *)
From S2P Require Import Prelude CString Parse.
From Stdlib Require Import Ascii.
#[local] Open Scope char_scope.
#[local] Open Scope list_scope.

(** ** The data of [ka/uri/uri_fwd.hpp] *)

Record uri_userinfo_t := mkUserinfo {
  username_ : bytes;
  password_ : option bytes;
}.

Record uri_authority_t := mkAuthority {
  userinfo_ : option uri_userinfo_t;
  host_ : bytes;
  port_ : option Z;
}.

Record uri_t := mkUri {
  scheme_ : bytes;
  authority_ : option uri_authority_t;
  path_ : bytes;
  query_ : option bytes;
  fragment_ : option bytes;
}.

#[export] Instance uri_userinfo_eq_dec : EqDecision uri_userinfo_t.
Proof. solve_decision. Defined.
#[export] Instance uri_authority_eq_dec : EqDecision uri_authority_t.
Proof. solve_decision. Defined.
#[export] Instance uri_eq_dec : EqDecision uri_t.
Proof. solve_decision. Defined.

(** ** Conversions *)

Definition to_lower (s : bytes) : bytes := map tolower s.
Definition to_upper (s : bytes) : bytes := map toupper s.

(** [from_string_t<std::uint16_t>] on a string of digits. *)
Definition from_string_uint16 (s : bytes) : option Z :=
  match s with
  | [] => None
  | _ => if (decimal_value s <=? 65535)%Z then Some (decimal_value s) else None
  end.

(** ** Paths *)

(** The components, whether the path is absolute, whether it ends with a
    separator. *)
Definition path_t : Type := (list bytes * bool * bool)%type.

Definition sep : ascii := "/".
Definition id_literal : bytes := ["."].
Definition parent_literal : bytes := ["."; "."].

Fixpoint next_component (b : bytes) : bytes :=
  match b with
  | c :: b' => if decide (c = sep) then next_component b' else b
  | [] => []
  end.

(** The characters before the first separator, and the rest. *)
Definition find_sep (b : bytes) : bytes * bytes := span (fun c => negb (bool_decide (c = sep))) b.

(** One component of the path after the components [v]. *)
Definition add_component (abs : bool) (v : list bytes) (compo : bytes) : list bytes :=
  if decide (compo = parent_literal) then
    match last v with
    | None => if abs then v else v ++ [compo]
    | Some back => if decide (back = parent_literal) then v ++ [compo] else removelast v
    end
  else if decide (compo = id_literal \/ compo = []) then v
  else v ++ [compo].

(** The loop of [normalize_path]; the range gets shorter at each turn. *)
Fixpoint normalize_loop (fuel : nat) (abs : bool) (v : list bytes) (slash_ended : bool) (b : bytes) :
    list bytes * bool :=
  match fuel, b with
  | _, [] | O, _ => (v, slash_ended)
  | S f, _ =>
      let '(compo, e) := find_sep (next_component b) in
      let slash_ended := match compo, e with [], [] => true | _, _ => slash_ended end in
      normalize_loop f abs (add_component abs v compo) slash_ended e
  end.

Definition normalize_path (b : bytes) : path_t :=
  match b with
  | [] => ([], false, false)
  | c :: _ =>
      let abs := bool_decide (c = sep) in
      let '(v, slash_ended) := normalize_loop (length b) abs [] false b in
      let v := match v with [] => if abs then [] else [id_literal] | _ => v end in
      (v, abs, slash_ended)
  end.

(** [copy]. *)
Fixpoint join_components (v : list bytes) : bytes :=
  match v with
  | [] => []
  | [c] => c
  | c :: v' => c ++ sep :: join_components v'
  end.

Definition copy_path (p : path_t) : bytes :=
  let '(components, is_absolute, _) := p in
  (if is_absolute : bool then [sep] else []) ++ join_components components.

Definition lexically_normal_path (path : bytes) : bytes :=
  let npath := normalize_path path in
  let '(components, _, is_slash_ended) := npath in
  copy_path npath ++
    (if is_slash_ended : bool then
       match last components with
       | Some back => if decide (back = id_literal \/ back = parent_literal) then [] else [sep]
       | None => []
       end
     else []).

(** ** The values of the grammar *)

(** [parsing::userinfo]. *)
Definition make_userinfo (s : bytes) : uri_userinfo_t :=
  match find_char ":" s with
  | Some pos => mkUserinfo (take pos s) (Some (drop (S pos) s))
  | None => mkUserinfo s None
  end.

(** [parsing::authority]; [flatten] of an option of options. *)
Definition make_authority
    (v : option (uri_userinfo_t * ascii) * (bytes * option (ascii * option Z))) : uri_authority_t :=
  let '(ui, (h, p)) := v in
  mkAuthority (option_map fst ui) h (match p with Some (_, port) => port | None => None end).

Definition hier_part_value_t : Type := (option uri_authority_t * bytes)%type.

(** [parsing::hier_part]. *)
Definition make_hier_part (v : (bytes * (uri_authority_t * bytes)) + (bytes + (bytes + unit))) :
    hier_part_value_t :=
  match v with
  | inl (_, (auth, path)) => (Some auth, lexically_normal_path path)
  | inr (inl s) | inr (inr (inl s)) => (None, lexically_normal_path s)
  | inr (inr (inr _)) => (None, [])
  end.

(** [parsing::uri]. *)
Definition make_uri (v : bytes * (ascii * (hier_part_value_t * (option (ascii * bytes) * option (ascii * bytes))))) :
    uri_t :=
  let '(scheme, (_, (hier_part, (query, fragment)))) := v in
  mkUri scheme (fst hier_part) (snd hier_part) (option_map snd query) (option_map snd fragment).

(** ** The grammar *)

Module grammar.
#[local] Open Scope parse_scope.

Definition alpha : parse ascii := char_class isalpha.
Definition alphanum : parse ascii := char_class isalnum.
Definition digit : parse ascii := char_class isdigit.
Definition hexdig : parse ascii := char_class isxdigit.

Definition colon : parse ascii := literal ":".
Definition dblcolon : parse bytes := literals [":"; ":"].
Definition period : parse ascii := literal ".".
Definition slash : parse ascii := literal "/".

(** [to_char_t] on the sum of two characters. *)
Definition to_char (v : ascii + ascii) : ascii := match v with inl c | inr c => c end.

Definition unreserved : parse ascii := fmap_parse to_char (alphanum + any_of ["-"; "."; "_"; "~"]).

Definition gen_delims : parse ascii := any_of [":"; "/"; "?"; "#"; "["; "]"; "@"].
Definition sub_delims : parse ascii :=
  any_of ["!"; "$"; "&"; "'"; "("; ")"; "*"; "+"; ","; ";"; "="].
Definition reserved : parse ascii := fmap_parse to_char (gen_delims + sub_delims).

(** [decode_percent_unreserved]. *)
Definition hex_digit_value (c : ascii) : Z :=
  if isdigit c then (code c - 48)%Z else if (code c <=? 70)%Z then (code c - 55)%Z else (code c - 87)%Z.

Definition decode_percent_unreserved (s : bytes) : bytes :=
  match s with
  | [_; h; l] =>
      let encoded_char := (hex_digit_value h * 16 + hex_digit_value l)%Z in
      let decoded_char := ascii_of_N (Z.to_N encoded_char) in
      match reserved [decoded_char] with
      | (Some _, _) => s
      | (None, _) => [decoded_char]
      end
  | _ => s
  end.

Definition pct_encoded : parse bytes :=
  fmap_parse decode_percent_unreserved (fmap_parse to_upper (str_parse (literal "%" * (hexdig * hexdig)))).

Definition pchar : parse bytes :=
  str_parse (pct_encoded + (unreserved + (sub_delims + any_of [":"; "@"]))).

Definition scheme : parse bytes :=
  fmap_parse to_lower (str_parse (alpha * many (alphanum + any_of ["+"; "-"; "."]))).

Definition userinfo : parse uri_userinfo_t :=
  fmap_parse make_userinfo (str_parse (many (pct_encoded + (unreserved + (sub_delims + colon))))).

Definition r1_to_9 : parse ascii := any_of ["1"; "2"; "3"; "4"; "5"; "6"; "7"; "8"; "9"].
Definition r0_to_4 : parse ascii := any_of ["0"; "1"; "2"; "3"; "4"].
Definition r0_to_5 : parse ascii := any_of ["0"; "1"; "2"; "3"; "4"; "5"].

Definition dec_octet : parse bytes :=
  str_parse ((literals ["2"; "5"] * r0_to_5) + ((literal "2" * (r0_to_4 * digit))
             + ((literal "1" * power digit 2) + ((r1_to_9 * digit) + digit)))).

Definition ipv4address : parse bytes := str_parse (dec_octet * power (period * dec_octet) 3).

Definition h16 : parse bytes := str_parse (between 1 4 hexdig).
Definition h16colon : parse bytes := str_parse (h16 * colon).
Definition ls32 : parse bytes := str_parse ((h16colon * h16) + ipv4address).

(** The left part of the alternatives of [ipv6address] that have one. *)
Definition h16s (n : nat) : parse ((list bytes * ascii) + bytes) := (between 1 n h16colon * colon) + dblcolon.

Definition ipv6address : parse bytes :=
  str_parse ((power h16colon 6 * ls32)
    + ((dblcolon * (power h16colon 5 * ls32))
    + ((opt h16 * (dblcolon * (power h16colon 4 * ls32)))
    + ((h16s 2 * (power h16colon 3 * ls32))
    + ((h16s 3 * (power h16colon 2 * ls32))
    + ((h16s 4 * (h16colon * ls32))
    + ((h16s 5 * ls32)
    + ((h16s 6 * h16)
    + h16s 7)))))))).

Definition ipvfuture : parse bytes :=
  str_parse (literal "v" * (at_least 1 hexdig * (period * at_least 1 (unreserved + (sub_delims + colon))))).

Definition ip_literal : parse bytes :=
  str_parse (literal "[" * ((ipv6address + ipvfuture) * literal "]")).

Definition regname : parse bytes := str_parse (many (unreserved + (pct_encoded + sub_delims))).

Definition host : parse bytes := fmap_parse to_lower (str_parse (ip_literal + (ipv4address + regname))).

Definition port : parse (option Z) := fmap_parse from_string_uint16 (str_parse (many digit)).

Definition authority : parse uri_authority_t :=
  fmap_parse make_authority (opt (userinfo * literal "@") * (host * opt (colon * port))).

Definition segment : parse bytes := str_parse (many pchar).
Definition segment_list : parse bytes := str_parse (many (slash * segment)).
Definition segment_nz : parse bytes := str_parse (at_least 1 pchar).
Definition path_abempty : parse bytes := segment_list.
Definition path_absolute : parse bytes := str_parse (slash * opt (segment_nz * segment_list)).
Definition path_rootless : parse bytes := str_parse (segment_nz * segment_list).

Definition hier_part : parse hier_part_value_t :=
  fmap_parse make_hier_part
    ((literals ["/"; "/"] * (authority * path_abempty)) + (path_absolute + (path_rootless + unit_parse))).

Definition query : parse bytes := str_parse (many (pchar + (slash + literal "?"))).
Definition fragment : parse bytes := query.

Definition uri : parse uri_t :=
  fmap_parse make_uri
    (scheme * (literal ":" * (hier_part * (opt (literal "?" * query) * opt (literal "#" * fragment))))).
End grammar.
