(* ===== verification/Uri.v ===== *)
(** * Uri: URI, endpoints and their order

    Model of [ka/uri/io.hpp], [ka/uri/uri.hpp] and [src/messaging/uri.cpp]. *)
From S2P Require Import Prelude CString Parse UriGrammar.
From Stdlib Require Import Ascii.
#[local] Open Scope char_scope.
#[local] Open Scope list_scope.

(** ** Printing *)

(** [opt.fmap(insert{os, prefix, suffix})]. *)
Definition insert {A} (print : A -> bytes) (prefix suffix : bytes) (v : option A) : bytes :=
  match v with Some a => prefix ++ print a ++ suffix | None => [] end.

Definition print_bytes (s : bytes) : bytes := s.

Definition print_userinfo (u : uri_userinfo_t) : bytes :=
  username_ u ++ insert print_bytes (lit ":") [] (password_ u).

Definition print_authority (a : uri_authority_t) : bytes :=
  insert print_userinfo [] (lit "@") (userinfo_ a) ++ host_ a ++ insert to_decimal (lit ":") [] (port_ a).

Definition print_uri (u : uri_t) : bytes :=
  scheme_ u ++ lit ":" ++ insert print_authority (lit "//") [] (authority_ u) ++ path_ u
  ++ insert print_bytes (lit "?") [] (query_ u) ++ insert print_bytes (lit "#") [] (fragment_ u).

(** ** [qi::uri] *)

Definition uri (str : bytes) : option uri_t :=
  match grammar.uri str with
  | (Some u, []) => Some u
  | _ => None
  end.

(** ** Endpoints *)

Definition uriQiScheme : bytes := lit "qi".

Definition isRelativeEndpoint (u : uri_t) : bool :=
  bool_decide (scheme_ u = uriQiScheme) && match authority_ u with None => true | Some _ => false end.

Section endpoints.

(** The address library: whether a string is an address, and a loopback one. *)
Context (is_loopback : bytes -> bool).

Definition isLoopbackAddress (host : bytes) : bool :=
  if decide (host = lit "localhost") then true else is_loopback host.

Definition isSdRelativeEndpoint (u : uri_t) : bool :=
  isRelativeEndpoint u && bool_decide (path_ u = lit "ServiceDirectory").

Definition hasAuthority (u : uri_t) : bool := match authority_ u with None => false | Some _ => true end.

Definition hasLoopbackAddress (u : uri_t) : bool :=
  match authority_ u with Some a => isLoopbackAddress (host_ a) | None => false end.

Definition cmpKey (u : uri_t) : Z * Z * Z * uri_t :=
  let z (b : bool) : Z := if b then 0%Z else 1%Z in
  if isRelativeEndpoint u then (0%Z, z (isSdRelativeEndpoint u), 0%Z, u)
  else if hasAuthority u then (1%Z, 0%Z, z (hasLoopbackAddress u), u)
  else (1%Z, 1%Z, 0%Z, u).

(** The lexicographic orders that the regular types generate; an absent value
    is the least. *)
Definition lex (c d : comparison) : comparison := match c with Eq => d | _ => c end.

Definition opt_compare {A} (f : A -> A -> comparison) (x y : option A) : comparison :=
  match x, y with
  | None, None => Eq
  | None, Some _ => Lt
  | Some _, None => Gt
  | Some a, Some b => f a b
  end.

Definition userinfo_compare (x y : uri_userinfo_t) : comparison :=
  lex (str_compare (username_ x) (username_ y)) (opt_compare str_compare (password_ x) (password_ y)).

Definition authority_compare (x y : uri_authority_t) : comparison :=
  lex (opt_compare userinfo_compare (userinfo_ x) (userinfo_ y))
    (lex (str_compare (host_ x) (host_ y)) (opt_compare Z.compare (port_ x) (port_ y))).

Definition uri_compare (x y : uri_t) : comparison :=
  lex (str_compare (scheme_ x) (scheme_ y))
    (lex (opt_compare authority_compare (authority_ x) (authority_ y))
      (lex (str_compare (path_ x) (path_ y))
        (lex (opt_compare str_compare (query_ x) (query_ y))
          (opt_compare str_compare (fragment_ x) (fragment_ y))))).

Definition key_compare (x y : Z * Z * Z * uri_t) : comparison :=
  let '(a, b, c, u) := x in
  let '(a', b', c', u') := y in
  lex (Z.compare a a') (lex (Z.compare b b') (lex (Z.compare c c') (uri_compare u u'))).

Definition isPreferredEndpoint (lhs rhs : uri_t) : bool :=
  match key_compare (cmpKey lhs) (cmpKey rhs) with Lt => true | _ => false end.
End endpoints.
