(* ===== verification/ParseProperties.v ===== *)
(** * ParseProperties: laws of the parser combinators

    What each combinator keeps: a failure leaves the range as it was and a success
    leaves a suffix of it ([Regular]), a success consumes ([Consumes]), the value
    is the text that was consumed ([Faithful]), the result does not depend on
    what comes after a character that the parser stops at ([Blocked]). The laws
    are instances, so that they hold of a grammar by resolution. *)
From S2P Require Import Prelude CString Parse.
From Stdlib Require Import Ascii.
#[local] Open Scope char_scope.
#[local] Open Scope list_scope.

Class Regular {A} (pa : parse A) : Prop :=
  regular b : match pa b with (Some _, it) => exists x, b = x ++ it | (None, it) => it = b end.

Class Consumes {A} (pa : parse A) : Prop :=
  consumes b a it : pa b = (Some a, it) -> length it < length b.

Class Faithful {A} `{ToString A} (pa : parse A) : Prop :=
  faithful b a it : pa b = (Some a, it) -> b = to_string a ++ it.

Arguments regular {A} pa {_} b.
Arguments consumes {A} pa {_} b a it.
Arguments faithful {A _} pa {_} b a it.

(** The range ends, or goes on with a character where to stop. *)
Definition stops (stop : ascii -> bool) (rest : bytes) : Prop :=
  match rest with [] => True | c :: _ => stop c = true end.

Definition unstopped (stop : ascii -> bool) (x : bytes) : Prop := Forall (fun c => stop c = false) x.

Class Blocked {A} (stop : ascii -> bool) (pa : parse A) : Prop :=
  blocked x rest : unstopped stop x -> stops stop rest -> pa (x ++ rest) = (fst (pa x), snd (pa x) ++ rest).

Arguments blocked {A} stop pa {_} x rest.

Lemma to_string_bytes (s : bytes) : to_string s = s.
Proof. unfold to_string, to_string_list. induction s as [|c s IH]; cbn; [done|]. by rewrite IH. Qed.

Section laws.
Context {A B : Type}.

Lemma regular_Some (pa : parse A) `{!Regular pa} b a it : pa b = (Some a, it) -> exists x, b = x ++ it.
Proof. intros E. pose proof (regular pa b) as H. by rewrite E in H. Qed.

Lemma regular_None (pa : parse A) `{!Regular pa} b it : pa b = (None, it) -> it = b.
Proof. intros E. pose proof (regular pa b) as H. by rewrite E in H. Qed.

Lemma regular_unstopped (pa : parse A) `{!Regular pa} stop b : unstopped stop b -> unstopped stop (snd (pa b)).
Proof.
  intros H. pose proof (regular pa b) as R. destruct (pa b) as [[a|] it]; cbn.
  - destruct R as [x ->]. by apply Forall_app in H as [_ ?].
  - by subst.
Qed.

End laws.

(** *** Characters *)

#[export] Instance char_class_regular p : Regular (char_class p).
Proof. intros [|c b]; cbn; [done|]. destruct (p c); [by exists [c]|done]. Qed.

#[export] Instance char_class_consumes p : Consumes (char_class p).
Proof. intros [|c b] a it; cbn; [done|]. destruct (p c); intros [= _ <-]; cbn; lia. Qed.

#[export] Instance char_class_faithful p : Faithful (char_class p).
Proof. intros [|c b] a it; cbn; [done|]. destruct (p c); by intros [= <- <-]. Qed.

Lemma char_class_blocked stop p : (forall c, stop c = true -> p c = false) -> Blocked stop (char_class p).
Proof.
  intros Hp [|c x] rest _ Hs; cbn.
  - destruct rest as [|c rest]; [done|]. cbn in *. by rewrite (Hp c Hs).
  - by destruct (p c).
Qed.

Section combinators.
Context {A B : Type}.

(** *** Map *)

#[export] Instance fmap_regular (f : A -> B) pa `{!Regular pa} : Regular (fmap_parse f pa).
Proof. intros b. unfold fmap_parse. pose proof (regular pa b) as R. by destruct (pa b) as [[a|] it]. Qed.

#[export] Instance fmap_consumes (f : A -> B) pa `{!Consumes pa} : Consumes (fmap_parse f pa).
Proof.
  intros b y it. unfold fmap_parse. destruct (pa b) as [[a|] it'] eqn:E; intros [= _ <-]. by apply (consumes pa b a).
Qed.

#[export] Instance str_faithful `{ToString A} (pa : parse A) `{!Faithful pa} : Faithful (str_parse pa).
Proof.
  intros b y it. unfold str_parse, fmap_parse. destruct (pa b) as [[a|] it'] eqn:E; intros [= <- <-].
  rewrite to_string_bytes. by apply (faithful pa).
Qed.

#[export] Instance fmap_blocked stop (f : A -> B) pa `{!Blocked stop pa} : Blocked stop (fmap_parse f pa).
Proof. intros x rest Hx Hr. unfold fmap_parse. rewrite (blocked stop pa x rest Hx Hr). by destruct (pa x). Qed.

(** *** Product *)

#[export] Instance product_regular (pa : parse A) (pb : parse B) `{!Regular pa, !Regular pb} :
  Regular (product pa pb).
Proof.
  intros b. unfold product. pose proof (regular pa b) as R. destruct (pa b) as [[a|] it]; [|done].
  destruct R as [x ->]. pose proof (regular pb it) as R. destruct (pb it) as [[y|] it2]; [|done].
  destruct R as [x2 ->]. exists (x ++ x2). by rewrite <- app_assoc.
Qed.

#[export] Instance product_consumes_l (pa : parse A) (pb : parse B) `{!Consumes pa, !Regular pb} :
  Consumes (product pa pb) | 1.
Proof.
  intros b y it. unfold product. destruct (pa b) as [[a|] it1] eqn:E; [|done].
  destruct (pb it1) as [[x|] it2] eqn:E2; [|done]. intros [= _ <-].
  apply (consumes pa) in E. destruct (regular_Some pb _ _ _ E2) as [z ->]. rewrite length_app in E. lia.
Qed.

#[export] Instance product_faithful `{ToString A, ToString B} (pa : parse A) (pb : parse B)
  `{!Faithful pa, !Faithful pb} : Faithful (product pa pb).
Proof.
  intros b y it. unfold product. destruct (pa b) as [[a|] it1] eqn:E; [|done].
  destruct (pb it1) as [[x|] it2] eqn:E2; [|done]. intros [= <- <-].
  apply (faithful pa) in E as ->. apply (faithful pb) in E2 as ->.
  change (to_string (a, x)) with (to_string a ++ to_string x). by rewrite <- app_assoc.
Qed.

#[export] Instance product_blocked stop (pa : parse A) (pb : parse B)
  `{!Regular pa, !Blocked stop pa, !Blocked stop pb} : Blocked stop (product pa pb).
Proof.
  intros x rest Hx Hr. unfold product. rewrite (blocked stop pa x rest Hx Hr).
  pose proof (regular_unstopped pa stop x Hx) as Hx2. destruct (pa x) as [[a|] it]; [|done]. cbn in *.
  rewrite (blocked stop pb it rest Hx2 Hr). by destruct (pb it) as [[y|] it2].
Qed.

(** *** Sum *)

#[export] Instance sum_regular (pa : parse A) (pb : parse B) `{!Regular pa, !Regular pb} : Regular (sum pa pb).
Proof.
  intros b. unfold sum. pose proof (regular pa b) as R. destruct (pa b) as [[a|] it]; [done|]. subst.
  pose proof (regular pb b) as R. by destruct (pb b) as [[y|] it2].
Qed.

#[export] Instance sum_consumes (pa : parse A) (pb : parse B) `{!Regular pa, !Consumes pa, !Consumes pb} :
  Consumes (sum pa pb).
Proof.
  intros b y it. unfold sum. destruct (pa b) as [[a|] it1] eqn:E.
  - intros [= _ <-]. by apply (consumes pa b a).
  - apply (regular_None pa) in E as ->. destruct (pb b) as [[x|] it2] eqn:E2; [|done]. intros [= _ <-].
    by apply (consumes pb b x).
Qed.

#[export] Instance sum_faithful `{ToString A, ToString B} (pa : parse A) (pb : parse B)
  `{!Regular pa, !Faithful pa, !Faithful pb} : Faithful (sum pa pb).
Proof.
  intros b y it. unfold sum. destruct (pa b) as [[a|] it1] eqn:E.
  - intros [= <- <-]. by apply (faithful pa).
  - apply (regular_None pa) in E as ->. destruct (pb b) as [[x|] it2] eqn:E2; [|done]. intros [= <- <-].
    by apply (faithful pb).
Qed.

#[export] Instance sum_blocked stop (pa : parse A) (pb : parse B)
  `{!Regular pa, !Blocked stop pa, !Blocked stop pb} : Blocked stop (sum pa pb).
Proof.
  intros x rest Hx Hr. unfold sum. rewrite (blocked stop pa x rest Hx Hr).
  pose proof (regular_None pa x) as HN. destruct (pa x) as [[a|] it]; [done|]. cbn. rewrite (HN it eq_refl).
  rewrite (blocked stop pb x rest Hx Hr). by destruct (pb x) as [[y|] it2].
Qed.

(** *** Filter *)

#[export] Instance filter_regular p (pa : parse A) `{!Regular pa} : Regular (filter_parse p pa).
Proof.
  intros b. unfold filter_parse. pose proof (regular pa b) as R. destruct (pa b) as [[a|] it]; [|done].
  by destruct (p a).
Qed.

(** *** Quantification *)

Lemma quantify_loop_regular (pa : parse A) `{!Regular pa} n b :
  exists x, b = x ++ snd (quantify_loop n pa b).
Proof.
  revert b; induction n as [|n IH]; intros b; cbn; [by exists []|].
  destruct (pa b) as [[a|] it] eqn:E; [|by exists []].
  destruct (regular_Some pa _ _ _ E) as [x ->]. destruct (IH it) as [y Hy].
  destruct (quantify_loop n pa it) as [v it2]. cbn in *. exists (x ++ y). by rewrite Hy, <- app_assoc.
Qed.

#[export] Instance quantify_regular (pa : parse A) `{!Regular pa} min max : Regular (quantify pa min max).
Proof.
  intros b. unfold quantify. set (n := match max with Some m => m | None => length b end).
  pose proof (quantify_loop_regular pa n b) as R. destruct (quantify_loop n pa b) as [v it].
  by destruct (min <=? length v)%nat.
Qed.

Lemma quantify_loop_faithful `{ToString A} (pa : parse A) `{!Faithful pa} n b :
  b = to_string (fst (quantify_loop n pa b)) ++ snd (quantify_loop n pa b).
Proof.
  revert b; induction n as [|n IH]; intros b; cbn; [done|].
  destruct (pa b) as [[a|] it] eqn:E; [|done]. apply (faithful pa) in E as ->.
  specialize (IH it). destruct (quantify_loop n pa it) as [v it2]. cbn in *.
  rewrite IH at 1. unfold to_string, to_string_list. cbn. by rewrite <- app_assoc.
Qed.

#[export] Instance quantify_faithful `{ToString A} (pa : parse A) `{!Faithful pa} min max :
  Faithful (quantify pa min max).
Proof.
  intros b v it. unfold quantify. set (n := match max with Some m => m | None => length b end).
  pose proof (quantify_loop_faithful pa n b) as R. destruct (quantify_loop n pa b) as [v' it'].
  destruct (min <=? length v')%nat; intros [= <- <-]. done.
Qed.

#[export] Instance quantify_consumes (pa : parse A) `{!Regular pa, !Consumes pa} n max :
  Consumes (quantify pa (S n) max).
Proof.
  intros b v it. unfold quantify. set (k := match max with Some m => m | None => length b end). clearbody k.
  destruct k as [|k]; cbn; [done|].
  destruct (pa b) as [[a|] it1] eqn:E; [|done]. apply (consumes pa) in E.
  destruct (quantify_loop_regular pa k it1) as [x Hx]. destruct (quantify_loop k pa it1) as [w it2].
  cbn in *. destruct (n <=? length w)%nat; intros [= _ <-]. rewrite Hx, length_app in E. lia.
Qed.

(** The fuel does not matter as soon as there is one unit for each character:
    the loop ends because the parser fails. *)
Lemma quantify_loop_fuel (pa : parse A) `{!Consumes pa} n m b :
  length b <= n -> length b <= m -> quantify_loop n pa b = quantify_loop m pa b.
Proof.
  revert m b; induction n as [|n IH]; intros m b Hn Hm.
  - destruct b; [|cbn in *; lia]. destruct m; [done|]. cbn.
    destruct (pa []) as [[a|] it] eqn:E; [|done]. apply (consumes pa) in E. cbn in E. lia.
  - destruct m as [|m]; cbn.
    + destruct b; [|cbn in *; lia]. destruct (pa []) as [[a|] it] eqn:E; [|done].
      apply (consumes pa) in E. cbn in E. lia.
    + destruct (pa b) as [[a|] it] eqn:E; [|done]. apply (consumes pa) in E. by rewrite (IH m it) by lia.
Qed.

Lemma quantify_loop_blocked stop (pa : parse A) `{!Regular pa, !Blocked stop pa} n x rest :
  unstopped stop x -> stops stop rest ->
  quantify_loop n pa (x ++ rest) = (fst (quantify_loop n pa x), snd (quantify_loop n pa x) ++ rest).
Proof.
  revert x; induction n as [|n IH]; intros x Hx Hr; cbn; [done|].
  rewrite (blocked stop pa x rest Hx Hr). pose proof (regular_unstopped pa stop x Hx) as Hx2.
  destruct (pa x) as [[a|] it]; [|done]. cbn in *. rewrite IH by done. by destruct (quantify_loop n pa it).
Qed.

#[export] Instance quantify_blocked_max stop (pa : parse A) `{!Regular pa, !Blocked stop pa} min m :
  Blocked stop (quantify pa min (Some m)).
Proof.
  intros x rest Hx Hr. unfold quantify. rewrite (quantify_loop_blocked stop) by done.
  destruct (quantify_loop m pa x) as [v it]. cbn. by destruct (min <=? length v)%nat.
Qed.

#[export] Instance quantify_blocked stop (pa : parse A) `{!Regular pa, !Blocked stop pa, !Consumes pa} min :
  Blocked stop (quantify pa min None).
Proof.
  intros x rest Hx Hr. unfold quantify. rewrite (quantify_loop_blocked stop) by done.
  rewrite (quantify_loop_fuel pa _ (length x) x) by (rewrite ?length_app; lia).
  destruct (quantify_loop (length x) pa x) as [v it]. cbn. by destruct (min <=? length v)%nat.
Qed.
End combinators.

#[export] Instance unit_regular : Regular unit_parse.
Proof. intros b. by exists []. Qed.

#[export] Instance unit_blocked stop : Blocked stop unit_parse.
Proof. done. Qed.

#[export] Instance opt_regular {A} (pa : parse A) `{!Regular pa} : Regular (opt pa).
Proof. apply _. Qed.

#[export] Instance opt_blocked {A} stop (pa : parse A) `{!Regular pa, !Blocked stop pa} : Blocked stop (opt pa).
Proof. apply _. Qed.

#[export] Instance opt_faithful {A} `{ToString A} (pa : parse A) `{!Regular pa, !Faithful pa} : Faithful (opt pa).
Proof.
  intros b y it. unfold opt, fmap_parse, sum. destruct (pa b) as [[a|] it1] eqn:E; cbn; intros [= <- <-].
  - by apply (faithful pa).
  - by apply (regular_None pa) in E.
Qed.

#[export] Instance power_regular {A} (pa : parse A) `{!Regular pa} n : Regular (power pa n).
Proof. induction n; cbn; apply _. Qed.

#[export] Instance power_blocked {A} stop (pa : parse A) `{!Regular pa, !Blocked stop pa} n :
  Blocked stop (power pa n).
Proof. induction n; cbn; apply _. Qed.

#[export] Instance power_faithful {A} `{ToString A} (pa : parse A) `{!Faithful pa} n : Faithful (power pa n).
Proof.
  induction n as [|n IH]; intros b v it; cbn; unfold fmap_parse; [by intros [= <- <-]|].
  destruct (product pa (power pa n) b) as [[[x y]|] it'] eqn:E; cbn; intros [= <- <-].
  by apply (faithful _) in E.
Qed.

#[export] Instance literals_regular cs : Regular (literals cs).
Proof. induction cs; cbn; unfold literal; apply _. Qed.

(** ** Stopping characters *)

Lemma split_stop (stop : ascii -> bool) x : unstopped stop x \/ exists y c z, x = y ++ c :: z /\ unstopped stop y /\ stop c = true.
Proof.
  induction x as [|d x IH]; [by left; constructor|].
  destruct (stop d) eqn:E; [right; exists [], d, x; split; [done|split; [constructor|done]]|].
  destruct IH as [IH|(y & c & z & -> & Hy & Hc)]; [left; by constructor|].
  right. exists (d :: y), c, z. split; [done|]. split; [by constructor|done].
Qed.

(** A parser does not consume the characters that it stops at. *)
Lemma blocked_unstopped {A} stop (pa : parse A) `{!Blocked stop pa} x a it :
  pa (x ++ it) = (Some a, it) -> unstopped stop x.
Proof.
  intros E. destruct (split_stop stop x) as [H|(y & c & z & -> & Hy & Hc)]; [done|].
  rewrite <- app_assoc in E. cbn in E. rewrite (blocked stop pa y (c :: z ++ it) Hy Hc) in E.
  injection E as _ E. apply (f_equal length) in E. rewrite length_app in E. cbn in E. rewrite length_app in E. lia.
Qed.

(** What a parser does of a text followed by a stopping character is what it does
    of the text alone. *)
Lemma blocked_Some {A} stop (pa : parse A) `{!Blocked stop pa} x a it : stops stop it ->
  pa (x ++ it) = (Some a, it) <-> pa x = (Some a, []).
Proof.
  intros Hs. split; intros E.
  - pose proof (blocked_unstopped stop pa x a it E) as Hx. rewrite (blocked stop pa x it Hx Hs) in E.
    destruct (pa x) as [r y]. cbn in E. injection E as -> E.
    rewrite (app_inv_tail it y [] E). reflexivity.
  - assert (unstopped stop x) as Hx by (apply (blocked_unstopped stop pa x a []); by rewrite app_nil_r).
    rewrite (blocked stop pa x it Hx Hs), E. reflexivity.
Qed.

Lemma blocked_None {A} stop (pa : parse A) `{!Blocked stop pa} x it : unstopped stop x -> stops stop it ->
  fst (pa (x ++ it)) = fst (pa x).
Proof. intros Hx Hs. by rewrite (blocked stop pa x it Hx Hs). Qed.

#[export] Instance literals_faithful cs : Faithful (literals cs).
Proof.
  induction cs as [|c cs IH]; intros b v it; cbn; unfold fmap_parse; [by intros [= <- <-]|].
  destruct (product (literal c) (literals cs) b) as [[[x y]|] it'] eqn:E; cbn; intros [= <- <-].
  unfold literal in E. apply (faithful (product (char_class (fun a => bool_decide (c = a))) (literals cs))) in E.
  done.
Qed.
