(* ===== verification/UriText.v ===== *)
(** * UriText: the texts of the components of URI

    The reference description of what the parsers of [UriGrammar] accept: the
    character classes of RFC 3986, texts of characters and percent-encoded octets,
    their normal form, and the proof that the parsers of the components are the
    scans of these texts. *)
From S2P Require Import Prelude CString Parse UriGrammar ParseProperties.
From Stdlib Require Import Ascii.
#[local] Open Scope char_scope.
#[local] Open Scope list_scope.

(** ** Definitions *)

Definition unreserved_char (c : ascii) : bool := isalnum c || bool_decide (c ∈ ["-"; "."; "_"; "~"]).
Definition sub_delim_char (c : ascii) : bool :=
  bool_decide (c ∈ ["!"; "$"; "&"; "'"; "("; ")"; "*"; "+"; ","; ";"; "="]).
Definition gen_delim_char (c : ascii) : bool := bool_decide (c ∈ [":"; "/"; "?"; "#"; "["; "]"; "@"]).
Definition regname_char (c : ascii) : bool := unreserved_char c || sub_delim_char c.
Definition userinfo_char (c : ascii) : bool := regname_char c || bool_decide (c = ":").
Definition pchar_char (c : ascii) : bool := regname_char c || bool_decide (c ∈ [":"; "@"]).
Definition path_char (c : ascii) : bool := pchar_char c || bool_decide (c = "/").
Definition query_char (c : ascii) : bool := path_char c || bool_decide (c = "?").
Definition scheme_char (c : ascii) : bool := isalnum c || bool_decide (c ∈ ["+"; "-"; "."]).

(** A text: characters of a class and percent-encoded octets. *)
Fixpoint text (ok : ascii -> bool) (x : bytes) : bool :=
  match x with
  | [] => true
  | c :: x1 =>
      if decide (c = "%") then
        match x1 with h :: l :: x2 => isxdigit h && isxdigit l && text ok x2 | _ => false end
      else ok c && text ok x1
  end.

(** The normal form of a percent-encoded octet and of a text. *)
Definition norm_octet (h l : ascii) : bytes := grammar.decode_percent_unreserved (to_upper ["%"; h; l]).

Fixpoint norm_text (x : bytes) : bytes :=
  match x with
  | [] => []
  | c :: x1 =>
      if decide (c = "%") then
        match x1 with h :: l :: x2 => norm_octet h l ++ norm_text x2 | _ => x end
      else c :: norm_text x1
  end.

Arguments norm_octet : simpl never.

(** The longest text at the head of a range, and the rest. *)
Fixpoint span_text (ok : ascii -> bool) (b : bytes) : bytes * bytes :=
  match b with
  | [] => ([], [])
  | c :: b1 =>
      if decide (c = "%") then
        match b1 with
        | h :: l :: b2 =>
            if isxdigit h && isxdigit l then let '(x, it) := span_text ok b2 in (c :: h :: l :: x, it)
            else ([], b)
        | _ => ([], b)
        end
      else if ok c then let '(x, it) := span_text ok b1 in (c :: x, it)
      else ([], b)
  end.

(** The first character or octet of a range, normalized, and the rest. *)
Definition next_token (ok : ascii -> bool) (b : bytes) : option (bytes * bytes) :=
  match b with
  | [] => None
  | c :: b1 =>
      if decide (c = "%") then
        match b1 with
        | h :: l :: b2 => if isxdigit h && isxdigit l then Some (norm_octet h l, b2) else None
        | _ => None
        end
      else if ok c then Some ([c], b1) else None
  end.

(** A parser of one character of a class or one percent-encoded octet. *)
Class Token {A} `{ToString A} (ok : ascii -> bool) (pa : parse A) : Prop :=
  token b : match next_token ok b with
            | Some (t, r) => exists a, pa b = (Some a, r) /\ to_string a = t
            | None => pa b = (None, b)
            end.

(** ** Texts *)

(** The two steps of an induction on a text. *)
Lemma text_ind (ok : ascii -> bool) (P : bytes -> Prop) :
  P [] ->
  (forall c x, c <> "%" -> ok c = true -> text ok x = true -> P x -> P (c :: x)) ->
  (forall h l x, isxdigit h = true -> isxdigit l = true -> text ok x = true -> P x -> P ("%" :: h :: l :: x)) ->
  forall x, text ok x = true -> P x.
Proof.
  intros H0 H1 H2 x. remember (length x) as n eqn:E. assert (length x <= n)%nat as Hn by lia. clear E.
  revert x Hn; induction n as [|n IH]; intros [|c x1] Hn Hx; try done; [cbn in Hn; lia|].
  cbn in Hx, Hn. destruct (decide (c = "%")) as [->|Hc].
  - destruct x1 as [|h [|l x2]]; try done. apply andb_true_iff in Hx as [[Hh Hl]%andb_true_iff Hx].
    apply H2; auto. apply IH; cbn in *; [lia|done].
  - apply andb_true_iff in Hx as [Ho Hx]. apply H1; auto. apply IH; [lia|done].
Qed.

Lemma span_text_spec ok b :
  b = fst (span_text ok b) ++ snd (span_text ok b) /\ text ok (fst (span_text ok b)) = true /\
  next_token ok (snd (span_text ok b)) = None.
Proof.
  remember (length b) as n eqn:E. assert (length b <= n)%nat as Hn by lia. clear E.
  revert b Hn; induction n as [|n IH]; intros [|c b1] Hn; try done; [cbn in Hn; lia|].
  cbn in *. destruct (decide (c = "%")) as [->|Hc].
  - destruct b1 as [|h [|l b2]]; try done. destruct (isxdigit h && isxdigit l) eqn:Eh.
    + specialize (IH b2 ltac:(cbn in *; lia)). destruct (span_text ok b2) as [x it]. cbn in *.
      destruct IH as (-> & -> & ->). by rewrite Eh.
    + cbn. by rewrite Eh.
  - destruct (ok c) eqn:Eo.
    + specialize (IH b1 ltac:(lia)). destruct (span_text ok b1) as [x it]. cbn in *.
      destruct IH as (-> & -> & ->). destruct (decide (c = "%")); [done|]. by rewrite Eo.
    + cbn. destruct (decide (c = "%")); [done|]. by rewrite Eo.
Qed.

Lemma span_text_app ok x b : text ok x = true ->
  span_text ok (x ++ b) = (x ++ fst (span_text ok b), snd (span_text ok b)).
Proof.
  intros Hx. pattern x. apply (text_ind ok); try done; clear x Hx; cbn.
  - by destruct (span_text ok b).
  - intros c x Hc -> _ ->. by destruct (decide (c = "%")).
  - intros h l x -> -> _ ->. done.
Qed.

Lemma span_text_none ok b : next_token ok b = None -> span_text ok b = ([], b).
Proof.
  destruct b as [|c b]; [done|]. cbn. destruct (decide (c = "%")).
  - destruct b as [|h [|l b]]; try done. by destruct (isxdigit h && isxdigit l).
  - by destruct (ok c).
Qed.

Lemma span_text_exact ok x b : text ok x = true -> next_token ok b = None -> span_text ok (x ++ b) = (x, b).
Proof. intros Hx Hb. rewrite span_text_app, span_text_none by done. cbn. by rewrite app_nil_r. Qed.

Lemma text_mono (ok ok' : ascii -> bool) x : (forall c, ok c = true -> ok' c = true) -> text ok x = true -> text ok' x = true.
Proof.
  intros Hok Hx. pattern x. apply (text_ind ok); try done; cbn.
  - intros c y Hc Ho _ ->. destruct (decide (c = "%")); [done|]. by rewrite (Hok c Ho).
  - by intros h l y -> -> _ ->.
Qed.

Lemma text_app ok x y : text ok x = true -> text ok y = true -> text ok (x ++ y) = true.
Proof.
  intros Hx Hy. pattern x. apply (text_ind ok); try done; cbn.
  - intros c z Hc -> _ ->. by destruct (decide (c = "%")).
  - by intros h l z -> -> _ ->.
Qed.

Lemma norm_text_app ok x y : text ok x = true -> norm_text (x ++ y) = norm_text x ++ norm_text y.
Proof.
  intros Hx. pattern x. apply (text_ind ok); try done; cbn.
  - intros c z Hc _ _ ->. by destruct (decide (c = "%")).
  - intros h l z _ _ _ ->. by rewrite app_assoc.
Qed.

Lemma span_text_mono (ok ok' : ascii -> bool) b : (forall c, ok c = true -> ok' c = true) ->
  span_text ok' b =
    (fst (span_text ok b) ++ fst (span_text ok' (snd (span_text ok b))), snd (span_text ok' (snd (span_text ok b)))).
Proof.
  intros Hok. destruct (span_text_spec ok b) as (E & Hx & _).
  rewrite E at 1. apply span_text_app. by apply (text_mono ok).
Qed.

(** ** The parsers of texts *)

Lemma token_loop {A} `{ToString A} ok (pa : parse A) `{!Token ok pa} n b : length b <= n ->
  to_string (fst (quantify_loop n pa b)) = norm_text (fst (span_text ok b)) /\
  snd (quantify_loop n pa b) = snd (span_text ok b).
Proof.
  revert b; induction n as [|n IH]; intros b Hn; [destruct b; [done|cbn in Hn; lia]|].
  cbn. pose proof (token b) as T. destruct b as [|c b1]; [by rewrite T|].
  cbn [next_token span_text] in *. destruct (decide (c = "%")) as [->|Hc].
  - destruct b1 as [|h [|l b2]]; [by rewrite T..|]. destruct (isxdigit h && isxdigit l); [|by rewrite T].
    destruct T as (a & -> & Ha). specialize (IH b2 ltac:(cbn in *; lia)).
    destruct (quantify_loop n pa b2) as [v it], (span_text ok b2) as [x it2]. cbn in *.
    destruct IH as [IH ->]. split; [|done]. rewrite <- IH, <- Ha. done.
  - destruct (ok c); [|by rewrite T].
    destruct T as (a & -> & Ha). specialize (IH b1 ltac:(cbn in *; lia)).
    destruct (quantify_loop n pa b1) as [v it], (span_text ok b1) as [x it2]. cbn in *.
    destruct IH as [IH ->]. split; [|done]. destruct (decide (c = "%")); [done|]. rewrite <- IH.
    change (to_string (a :: v)) with (to_string a ++ to_string v). by rewrite Ha.
Qed.

Lemma token_many {A} `{ToString A} ok (pa : parse A) `{!Token ok pa} b :
  str_parse (many pa) b = (Some (norm_text (fst (span_text ok b))), snd (span_text ok b)).
Proof.
  unfold str_parse, many, quantify, fmap_parse. destruct (token_loop ok pa (length b) b ltac:(done)) as [E1 E2].
  destruct (quantify_loop (length b) pa b) as [v it]. cbn [fst snd] in *. cbn [option_map Nat.leb]. unfold Parse.ok. by rewrite <- E1, <- E2.
Qed.

(** *** The tokens of the grammar *)

#[local] Arguments grammar.decode_percent_unreserved : simpl never.
#[local] Arguments to_upper : simpl never.
#[local] Arguments isxdigit : simpl never.
#[local] Arguments isalnum : simpl never.
#[local] Arguments to_string : simpl never.

Lemma pct_encoded_spec b : grammar.pct_encoded b =
  match next_token (fun _ => false) b with Some (t, r) => (Some t, r) | None => (None, b) end.
Proof.
  unfold grammar.pct_encoded, str_parse, fmap_parse, product, literal, grammar.hexdig, char_class, filter_parse.
  destruct b as [|c b1]; cbn; [done|]. destruct (decide (c = "%")) as [->|Hc].
  - rewrite bool_decide_eq_true_2 by done. cbn. destruct b1 as [|h b2]; cbn; [done|].
    destruct b2 as [|l b3]; cbn.
    { destruct (isxdigit h); cbn; done. }
    destruct (isxdigit h); cbn; [|done]. destruct (isxdigit l); cbn; [|done].
    unfold norm_octet. rewrite <- (to_string_bytes ["%"; h; l]). reflexivity.
  - rewrite bool_decide_eq_false_2 by congruence. done.
Qed.

(** A parser that gives the octets to [pct_encoded] and takes a character of a
    class, and nothing else. *)
Lemma token_intro {A} `{ToString A} (ok : ascii -> bool) (pa : parse A) :
  pa [] = (None, []) ->
  (forall b t r, grammar.pct_encoded ("%" :: b) = (Some t, r) ->
    exists a, pa ("%" :: b) = (Some a, r) /\ to_string a = t) ->
  (forall b, grammar.pct_encoded ("%" :: b) = (None, "%" :: b) -> pa ("%" :: b) = (None, "%" :: b)) ->
  (forall c b, c <> "%" -> if ok c then exists a, pa (c :: b) = (Some a, b) /\ to_string a = [c]
                           else pa (c :: b) = (None, c :: b)) ->
  Token ok pa.
Proof.
  intros H0 H1 H2 H3 [|c b]; [done|]. cbn [next_token].
  destruct (decide (c = "%")) as [->|Hc].
  - pose proof (pct_encoded_spec ("%" :: b)) as E. cbn [next_token] in E.
    destruct b as [|h [|l b]]; [by apply H2..|].
    rewrite decide_True in E by done.
    destruct (isxdigit h && isxdigit l); [by apply H1|by apply H2].
  - specialize (H3 c b Hc). by destruct (ok c).
Qed.

Lemma char_class_cons p c b : char_class p (c :: b) = if p c then (Some c, b) else (None, c :: b).
Proof. done. Qed.

Lemma any_of_cons cs c b : any_of cs (c :: b) = if bool_decide (c ∈ cs) then (Some c, b) else (None, c :: b).
Proof. done. Qed.

Lemma literal_cons d c b : literal d (c :: b) = if bool_decide (c = d) then (Some c, b) else (None, c :: b).
Proof. cbn. by rewrite (bool_decide_ext (d = c) (c = d)) by (split; congruence). Qed.

Lemma unreserved_cons c b :
  grammar.unreserved (c :: b) = if unreserved_char c then (Some c, b) else (None, c :: b).
Proof.
  unfold grammar.unreserved, fmap_parse, sum, grammar.alphanum, unreserved_char. rewrite char_class_cons.
  destruct (isalnum c); cbn [orb]; [done|]. rewrite any_of_cons. by destruct (bool_decide _).
Qed.

Lemma sub_delims_cons c b :
  grammar.sub_delims (c :: b) = if sub_delim_char c then (Some c, b) else (None, c :: b).
Proof. apply any_of_cons. Qed.

Lemma unreserved_pct b : grammar.unreserved ("%" :: b) = (None, "%" :: b).
Proof. done. Qed.

#[local] Ltac flat := rewrite ?to_string_bytes; first [reflexivity | apply to_string_bytes].

#[local] Ltac solve_token :=
  unfold str_parse, fmap_parse, sum; apply token_intro; [done| | |];
  [ intros b t r E; rewrite ?unreserved_pct, ?E; cbn; eexists; split; [reflexivity | flat]
  | intros b E; rewrite ?unreserved_pct, ?E; reflexivity
  | intros c b Hc; rewrite ?pct_encoded_spec; cbn [next_token]; rewrite ?decide_False by done;
    unfold grammar.colon, grammar.slash, pchar_char, query_char, path_char, userinfo_char, regname_char;
    repeat first [ rewrite pct_encoded_spec; cbn [next_token]; rewrite decide_False by done
                 | rewrite unreserved_cons; destruct (unreserved_char c); cbn [orb]
                 | rewrite sub_delims_cons; destruct (sub_delim_char c); cbn [orb]
                 | rewrite any_of_cons; destruct (bool_decide (c ∈ _)); cbn [orb]
                 | rewrite literal_cons; destruct (bool_decide (c = _)); cbn [orb] ];
    solve [ eexists; split; [reflexivity | flat] | reflexivity ] ].

#[export] Instance pchar_token : Token pchar_char grammar.pchar.
Proof. unfold grammar.pchar. solve_token. Qed.

#[export] Instance userinfo_token :
  Token userinfo_char (sum grammar.pct_encoded (sum grammar.unreserved (sum grammar.sub_delims grammar.colon))).
Proof. solve_token. Qed.

#[export] Instance regname_token :
  Token regname_char (sum grammar.unreserved (sum grammar.pct_encoded grammar.sub_delims)).
Proof. solve_token. Qed.

Lemma pchar_cons c b : c <> "%" ->
  grammar.pchar (c :: b) = if pchar_char c then (Some [c], b) else (None, c :: b).
Proof.
  intros Hc. pose proof (token (pa := grammar.pchar) (c :: b)) as T. cbn [next_token] in T.
  rewrite decide_False in T by done. destruct (pchar_char c); [|done].
  destruct T as (a & -> & <-). by rewrite to_string_bytes.
Qed.

Lemma pchar_pct b : grammar.pchar ("%" :: b) = grammar.pct_encoded ("%" :: b).
Proof.
  unfold grammar.pchar, str_parse, fmap_parse, sum. rewrite pct_encoded_spec. cbn [next_token].
  rewrite decide_True by done. destruct b as [|h [|l b]]; try done.
  destruct (isxdigit h && isxdigit l); [|done]. unfold ok. cbn [option_map]. f_equal. f_equal.
  apply to_string_bytes.
Qed.

#[export] Instance query_token : Token query_char (sum grammar.pchar (sum grammar.slash (literal "?"))).
Proof.
  unfold sum. apply token_intro; [done|..].
  - intros b t r E. rewrite pchar_pct, E. eexists; split; [reflexivity|]. apply to_string_bytes.
  - intros b E. by rewrite pchar_pct, E.
  - intros c b Hc. rewrite pchar_cons by done. unfold query_char, path_char, grammar.slash.
    destruct (pchar_char c); cbn [orb]; [eexists; split; [reflexivity|apply to_string_bytes]|].
    rewrite literal_cons. destruct (bool_decide (c = "/")); cbn [orb]; [by eexists|].
    rewrite literal_cons. destruct (bool_decide (c = "?")); [by eexists|done].
Qed.

(** ** The parsers of the components *)

(** A parser of a character of a class is a scan when it is repeated. *)
Lemma chars_loop {A} `{ToString A} (p : ascii -> bool) (pa : parse A) n b :
  pa [] = (None, []) ->
  (forall c b, if p c then exists a, pa (c :: b) = (Some a, b) /\ to_string a = [c] else pa (c :: b) = (None, c :: b)) ->
  length b <= n ->
  to_string (fst (quantify_loop n pa b)) = fst (span p b) /\ snd (quantify_loop n pa b) = snd (span p b) /\
  length (fst (quantify_loop n pa b)) = length (fst (span p b)).
Proof.
  intros H0 H1. revert b; induction n as [|n IH]; intros [|c b] Hn; cbn; rewrite ?H0; try done; [cbn in Hn; lia|].
  specialize (H1 c b). destruct (p c); [|by rewrite H1].
  destruct H1 as (a & -> & Ha). specialize (IH b ltac:(cbn in Hn; lia)).
  destruct (quantify_loop n pa b) as [v it], (span p b) as [x it2]. cbn in *. destruct IH as (IH & -> & ->).
  split; [|done]. change (to_string (a :: v)) with (to_string a ++ to_string v). by rewrite Ha, IH.
Qed.

Lemma chars_many {A} `{ToString A} (p : ascii -> bool) (pa : parse A) b :
  pa [] = (None, []) ->
  (forall c b, if p c then exists a, pa (c :: b) = (Some a, b) /\ to_string a = [c] else pa (c :: b) = (None, c :: b)) ->
  str_parse (many pa) b = (Some (fst (span p b)), snd (span p b)).
Proof.
  intros H0 H1. unfold str_parse, many, quantify, fmap_parse.
  destruct (chars_loop p pa (length b) b H0 H1 ltac:(done)) as (E1 & E2 & _).
  destruct (quantify_loop (length b) pa b) as [v it]. cbn [fst snd] in *. cbn [option_map Nat.leb]. unfold Parse.ok.
  by rewrite <- E1, <- E2.
Qed.

Lemma port_spec b : grammar.port b = (Some (from_string_uint16 (fst (span isdigit b))), snd (span isdigit b)).
Proof.
  unfold grammar.port. unfold fmap_parse at 1. rewrite (chars_many isdigit); [done|done|].
  intros c r. unfold grammar.digit. rewrite char_class_cons. destruct (isdigit c); [by eexists|done].
Qed.

Lemma scheme_spec b : grammar.scheme b =
  match b with
  | c :: r => if isalpha c then (Some (to_lower (c :: fst (span scheme_char r))), snd (span scheme_char r)) else (None, b)
  | [] => (None, b)
  end.
Proof.
  unfold grammar.scheme. unfold fmap_parse at 1, str_parse, fmap_parse at 1, product.
  destruct b as [|c r]; [done|]. unfold grammar.alpha. rewrite char_class_cons. destruct (isalpha c); [|done].
  assert (forall d s, if scheme_char d
     then exists a, sum grammar.alphanum (any_of ["+"; "-"; "."]) (d :: s) = (Some a, s) /\ to_string a = [d]
     else sum grammar.alphanum (any_of ["+"; "-"; "."]) (d :: s) = (None, d :: s)) as E.
  { intros d s. unfold sum, grammar.alphanum, scheme_char. rewrite char_class_cons.
    destruct (isalnum d); cbn [orb]; [by eexists|]. rewrite any_of_cons. destruct (bool_decide _); [by eexists|done]. }
  destruct (chars_loop scheme_char _ (length r) r eq_refl E ltac:(done)) as (E1 & E2 & _).
  unfold many, quantify. destruct (quantify_loop (length r) _ r) as [v it]. cbn [fst snd] in *.
  cbn [Nat.leb]. unfold ok. cbn [option_map]. rewrite <- E1, <- E2. done.
Qed.

Lemma userinfo_spec b : grammar.userinfo b =
  (Some (make_userinfo (norm_text (fst (span_text userinfo_char b)))), snd (span_text userinfo_char b)).
Proof. unfold grammar.userinfo. unfold fmap_parse at 1. rewrite (token_many userinfo_char); [reflexivity | apply _]. Qed.

Lemma regname_spec b : grammar.regname b =
  (Some (norm_text (fst (span_text regname_char b))), snd (span_text regname_char b)).
Proof. apply (token_many regname_char), _. Qed.

Lemma query_spec b : grammar.query b =
  (Some (norm_text (fst (span_text query_char b))), snd (span_text query_char b)).
Proof. apply (token_many query_char), _. Qed.

Lemma segment_spec b : grammar.segment b =
  (Some (norm_text (fst (span_text pchar_char b))), snd (span_text pchar_char b)).
Proof. apply (token_many pchar_char), _. Qed.

(** The segments of a path, scanned at once. *)
Definition span_segments (b : bytes) : bytes * bytes :=
  match b with
  | c :: _ => if decide (c = "/") then span_text path_char b else ([], b)
  | [] => ([], [])
  end.

Lemma pchar_path c : pchar_char c = true -> path_char c = true.
Proof. unfold path_char. by intros ->. Qed.

Lemma span_path_segments b :
  span_text path_char b = (fst (span_text pchar_char b) ++ fst (span_segments (snd (span_text pchar_char b))),
                           snd (span_segments (snd (span_text pchar_char b)))).
Proof.
  rewrite (span_text_mono pchar_char path_char) by apply pchar_path.
  destruct (span_text_spec pchar_char b) as (_ & _ & Hn). destruct (span_text pchar_char b) as [x it]. cbn [fst snd] in *.
  enough (span_text path_char it = span_segments it) as -> by done.
  destruct it as [|c it]; [done|]. cbn [span_segments]. destruct (decide (c = "/")); [done|].
  apply span_text_none. cbn [next_token] in *. destruct (decide (c = "%")); [done|].
  unfold path_char. rewrite bool_decide_eq_false_2 by done. by destruct (pchar_char c).
Qed.

Lemma segments_loop n b : length b <= n ->
  to_string (fst (quantify_loop n (product grammar.slash grammar.segment) b)) = norm_text (fst (span_segments b)) /\
  snd (quantify_loop n (product grammar.slash grammar.segment) b) = snd (span_segments b).
Proof.
  revert b; induction n as [|n IH]; intros [|c b] Hn; try done; [cbn in Hn; lia|].
  cbn [quantify_loop span_segments]. unfold product at 1 3, grammar.slash at 1 3. rewrite literal_cons.
  destruct (decide (c = "/")) as [->|Hc]; [|by rewrite bool_decide_eq_false_2].
  rewrite bool_decide_eq_true_2 by done. rewrite segment_spec. cbn [span_text].
  rewrite decide_False by done. change (path_char "/") with true. cbn iota. rewrite span_path_segments.
  destruct (span_text_spec pchar_char b) as (E & Hx & _).
  destruct (span_text pchar_char b) as [x it]. cbn [fst snd] in *.
  specialize (IH it ltac:(rewrite E in Hn; cbn in Hn; rewrite length_app in Hn; lia)).
  unfold ok at 1 2. fold (product grammar.slash grammar.segment).
  destruct (quantify_loop n _ it) as [v it2]. cbn [fst snd] in *. destruct IH as [IH ->]. split; [|done].
  cbn [norm_text]. rewrite decide_False by done. rewrite (norm_text_app pchar_char) by done. rewrite <- IH.
  change (to_string (("/", norm_text x) :: v)) with (("/" :: to_string (norm_text x)) ++ to_string v).
  by rewrite to_string_bytes.
Qed.

Lemma segment_list_spec b :
  grammar.segment_list b = (Some (norm_text (fst (span_segments b))), snd (span_segments b)).
Proof.
  unfold grammar.segment_list, str_parse, many, quantify, fmap_parse.
  destruct (segments_loop (length b) b ltac:(done)) as [E1 E2].
  destruct (quantify_loop (length b) _ b) as [v it]. cbn [fst snd] in *. cbn [option_map Nat.leb]. unfold ok.
  by rewrite <- E1, <- E2.
Qed.
