(* ===== verification/UriHost.v ===== *)
(** * UriHost: hosts and authorities

    The reference description of the authority of an URI, and the proof that the
    parser of [UriGrammar] accepts exactly these texts. A host is an address in
    brackets, an IPv4 address, or a registered name that does not begin with an
    IPv4 address: the choice of the parser is ordered and is not reconsidered. *)
From S2P Require Import Prelude CString Parse UriGrammar ParseProperties UriText.
From Stdlib Require Import Ascii.
#[local] Open Scope char_scope.
#[local] Open Scope list_scope.

(** ** Definitions *)

(** The characters that end a host, an authority, a hierarchical part. *)
Definition host_end (c : ascii) : bool := bool_decide (c ∈ [":"; "/"; "?"; "#"]).
Definition authority_end (c : ascii) : bool := bool_decide (c ∈ ["/"; "?"; "#"]).
Definition bracket (c : ascii) : bool := bool_decide (c = "]").
Definition not_ipv4_char (c : ascii) : bool := negb (isdigit c || bool_decide (c = ".")).

Definition accepts {A} (pa : parse A) (s : bytes) : bool :=
  match pa s with (Some _, []) => true | _ => false end.

Definition host_ok (h : bytes) : bool :=
  accepts grammar.ip_literal h || accepts grammar.ipv4address h
  || (text regname_char h && match fst (grammar.ipv4address h) with Some _ => false | None => true end).

Definition norm_host (h : bytes) : bytes := to_lower (if text regname_char h then norm_text h else h).

(** The parts of an authority, as they are in the text. *)
Record raw_authority := RawAuthority {
  raw_userinfo : option bytes;
  raw_host : bytes;
  raw_port : option bytes;
}.

Definition print_raw_port (p : option bytes) : bytes := match p with Some p => ":" :: p | None => [] end.

Definition print_raw_authority (a : raw_authority) : bytes :=
  match raw_userinfo a with Some u => u ++ ["@"] | None => [] end ++ raw_host a ++ print_raw_port (raw_port a).

Definition raw_authority_ok (a : raw_authority) : bool :=
  match raw_userinfo a with Some u => text userinfo_char u | None => true end
  && host_ok (raw_host a)
  && match raw_port a with Some p => forallb isdigit p | None => true end.

Definition norm_authority (a : raw_authority) : uri_authority_t :=
  mkAuthority (option_map (fun u => make_userinfo (norm_text u)) (raw_userinfo a)) (norm_host (raw_host a))
    (match raw_port a with Some p => from_string_uint16 p | None => None end).

(** ** The laws of the parsers of the host *)

Lemma accepts_Some {A} (pa : parse A) s : accepts pa s = true <-> exists a, pa s = (Some a, []).
Proof.
  unfold accepts. destruct (pa s) as [[a|] [|c it]]; split; try done; [by exists a|..]; by intros [? ?].
Qed.

Ltac grammar_chars :=
  unfold grammar.unreserved, grammar.hexdig, grammar.digit, grammar.alphanum, grammar.colon, grammar.period,
    grammar.sub_delims, grammar.r1_to_9, grammar.r0_to_4, grammar.r0_to_5, literal, any_of.

Ltac block_char :=
  apply char_class_blocked;
  let c := fresh "c" in intros c; destruct c as [[] [] [] [] [] [] [] []]; vm_compute; congruence.

#[local] Hint Extern 0 (Blocked ?stop (filter_parse ?p symbol)) => block_char : typeclass_instances.
#[local] Hint Extern 0 (Blocked ?stop (char_class ?p)) => block_char : typeclass_instances.
#[local] Hint Extern 0 (Blocked ?stop (literals ?cs)) => unfold literals, literal : typeclass_instances.
#[local] Hint Extern 0 (Consumes (filter_parse ?p symbol)) => apply char_class_consumes : typeclass_instances.
#[local] Hint Extern 0 (Faithful (filter_parse ?p symbol)) => apply char_class_faithful : typeclass_instances.
#[local] Hint Extern 0 (Regular (filter_parse ?p symbol)) => apply char_class_regular : typeclass_instances.

#[local] Ltac resolve := unfold str_parse, many, at_least, between; grammar_chars; apply _.

#[export] Instance dec_octet_regular : Regular grammar.dec_octet.
Proof. unfold grammar.dec_octet. resolve. Qed.
#[export] Instance dec_octet_faithful : Faithful grammar.dec_octet.
Proof. unfold grammar.dec_octet. grammar_chars. apply _. Qed.
#[export] Instance dec_octet_blocked : Blocked host_end grammar.dec_octet.
Proof. unfold grammar.dec_octet. resolve. Qed.
#[export] Instance dec_octet_blocked_chars : Blocked not_ipv4_char grammar.dec_octet.
Proof. unfold grammar.dec_octet. resolve. Qed.
#[export] Instance dec_octet_blocked_bracket : Blocked bracket grammar.dec_octet.
Proof. unfold grammar.dec_octet. resolve. Qed.

#[export] Instance ipv4address_regular : Regular grammar.ipv4address.
Proof. unfold grammar.ipv4address. resolve. Qed.
#[export] Instance ipv4address_faithful : Faithful grammar.ipv4address.
Proof. unfold grammar.ipv4address. grammar_chars. apply _. Qed.
#[export] Instance ipv4address_blocked : Blocked host_end grammar.ipv4address.
Proof. unfold grammar.ipv4address. resolve. Qed.
#[export] Instance ipv4address_blocked_chars : Blocked not_ipv4_char grammar.ipv4address.
Proof. unfold grammar.ipv4address. resolve. Qed.
#[export] Instance ipv4address_blocked_bracket : Blocked bracket grammar.ipv4address.
Proof. unfold grammar.ipv4address. resolve. Qed.

#[export] Instance h16_regular : Regular grammar.h16.
Proof. unfold grammar.h16. resolve. Qed.
#[export] Instance h16_faithful : Faithful grammar.h16.
Proof. unfold grammar.h16, between. grammar_chars. apply _. Qed.
#[export] Instance h16_blocked : Blocked bracket grammar.h16.
Proof. unfold grammar.h16. resolve. Qed.
#[export] Instance h16colon_regular : Regular grammar.h16colon.
Proof. unfold grammar.h16colon. resolve. Qed.
#[export] Instance h16colon_faithful : Faithful grammar.h16colon.
Proof. unfold grammar.h16colon. grammar_chars. apply _. Qed.
#[export] Instance h16colon_blocked : Blocked bracket grammar.h16colon.
Proof. unfold grammar.h16colon. resolve. Qed.
#[export] Instance ls32_regular : Regular grammar.ls32.
Proof. unfold grammar.ls32. resolve. Qed.
#[export] Instance ls32_faithful : Faithful grammar.ls32.
Proof. unfold grammar.ls32. apply _. Qed.
#[export] Instance ls32_blocked : Blocked bracket grammar.ls32.
Proof. unfold grammar.ls32. resolve. Qed.
#[export] Instance dblcolon_regular : Regular grammar.dblcolon.
Proof. unfold grammar.dblcolon. resolve. Qed.
#[export] Instance dblcolon_faithful : Faithful grammar.dblcolon.
Proof. apply literals_faithful. Qed.
#[export] Instance dblcolon_blocked : Blocked bracket grammar.dblcolon.
Proof. unfold grammar.dblcolon. resolve. Qed.
#[export] Instance h16s_regular n : Regular (grammar.h16s n).
Proof. unfold grammar.h16s. resolve. Qed.
#[export] Instance h16s_faithful n : Faithful (grammar.h16s n).
Proof. unfold grammar.h16s, between, grammar.colon, literal. apply _. Qed.
#[export] Instance h16s_blocked n : Blocked bracket (grammar.h16s n).
Proof. unfold grammar.h16s. resolve. Qed.
#[export] Instance ipv6address_regular : Regular grammar.ipv6address.
Proof. unfold grammar.ipv6address. resolve. Qed.
#[export] Instance ipv6address_faithful : Faithful grammar.ipv6address.
Proof. unfold grammar.ipv6address. apply _. Qed.
#[export] Instance ipv6address_blocked : Blocked bracket grammar.ipv6address.
Proof. unfold grammar.ipv6address. resolve. Qed.

#[export] Instance unreserved_regular : Regular grammar.unreserved.
Proof. resolve. Qed.
#[export] Instance unreserved_consumes : Consumes grammar.unreserved.
Proof. resolve. Qed.
#[export] Instance unreserved_faithful : Faithful grammar.unreserved.
Proof. intros [|c b] a it; [done|]. rewrite unreserved_cons. destruct (unreserved_char c); by intros [= <- <-]. Qed.
#[export] Instance unreserved_blocked : Blocked bracket grammar.unreserved.
Proof. resolve. Qed.
#[export] Instance ipvfuture_regular : Regular grammar.ipvfuture.
Proof. unfold grammar.ipvfuture. resolve. Qed.
#[export] Instance ipvfuture_faithful : Faithful grammar.ipvfuture.
Proof. unfold grammar.ipvfuture, at_least, grammar.hexdig, grammar.sub_delims, grammar.colon, grammar.period, literal, any_of. apply _. Qed.
#[export] Instance ipvfuture_blocked : Blocked bracket grammar.ipvfuture.
Proof. unfold grammar.ipvfuture, at_least, grammar.hexdig, grammar.sub_delims, grammar.colon, grammar.period, literal, any_of. apply _. Qed.

(** ** Hosts *)

Lemma ip_literal_spec b v it : grammar.ip_literal b = (Some v, it) <->
  exists y w, b = "[" :: y ++ "]" :: it /\ sum grammar.ipv6address grammar.ipvfuture y = (Some w, []) /\
              v = "[" :: y ++ ["]"].
Proof.
  unfold grammar.ip_literal, str_parse, fmap_parse, product.
  set (inner := sum grammar.ipv6address grammar.ipvfuture).
  assert (Regular inner) by apply _. assert (Faithful inner) by apply _. assert (Blocked bracket inner) by apply _.
  clearbody inner. split.
  - destruct b as [|c b1]; [done|]. rewrite literal_cons. destruct (bool_decide_reflect (c = "[")) as [->|]; [|done].
    destruct (inner b1) as [[w|] it1] eqn:E; [|done]. destruct it1 as [|d it2]; [done|]. rewrite literal_cons.
    destruct (bool_decide_reflect (d = "]")) as [->|]; [|done]. unfold ok. intros [= <- <-].
    pose proof (faithful inner _ _ _ E) as ->. exists (to_string w), w. split; [done|].
    split; [by apply (blocked_Some bracket inner) in E|done].
  - intros (y & w & -> & E & ->). rewrite literal_cons, bool_decide_eq_true_2 by done.
    pose proof (faithful inner _ _ _ E) as Hy. rewrite app_nil_r in Hy.
    apply (blocked_Some bracket inner y w ("]" :: it)) in E; [|done]. rewrite E.
    rewrite literal_cons, bool_decide_eq_true_2 by done. unfold ok. cbn. by rewrite Hy.
Qed.

Lemma ip_literal_head c b : c <> "[" -> fst (grammar.ip_literal (c :: b)) = None.
Proof.
  intros Hc. destruct (grammar.ip_literal (c :: b)) as [[v|] it] eqn:E; [|done].
  apply ip_literal_spec in E as (y & w & [= Eq _] & _). congruence.
Qed.

(** What the parser of the host returns, in the three cases. *)
Lemma host_unfold b : grammar.host b =
  match grammar.ip_literal b with
  | (Some v, it) => (Some (to_lower v), it)
  | (None, _) =>
      match grammar.ipv4address b with
      | (Some v, it) => (Some (to_lower v), it)
      | (None, _) => (Some (to_lower (norm_text (fst (span_text regname_char b)))), snd (span_text regname_char b))
      end
  end.
Proof.
  unfold grammar.host, str_parse. unfold fmap_parse, sum.
  assert (forall it, grammar.ip_literal b = (None, it) -> it = b) as R1.
  { intros it. apply regular_None. unfold grammar.ip_literal, str_parse, literal. apply _. }
  destruct (grammar.ip_literal b) as [[v|] it].
  { unfold ok. cbn [option_map]. do 3 f_equal. apply to_string_bytes. }
  rewrite (R1 it eq_refl). destruct (grammar.ipv4address b) as [[v|] it2] eqn:E.
  { unfold ok. cbn [option_map]. do 3 f_equal. apply to_string_bytes. }
  apply regular_None in E; [|apply _]. subst it2. rewrite regname_spec. unfold ok. cbn [option_map].
  do 3 f_equal. apply to_string_bytes.
Qed.

Lemma ipv4address_chars h v : grammar.ipv4address h = (Some v, []) ->
  v = h /\ h <> [] /\ Forall (fun c => not_ipv4_char c = false) h.
Proof.
  intros E. pose proof (faithful grammar.ipv4address _ _ _ E) as Hv. rewrite app_nil_r, to_string_bytes in Hv.
  split; [done|]. split; [by intros ->|].
  apply (blocked_unstopped not_ipv4_char grammar.ipv4address h v []). by rewrite app_nil_r.
Qed.

Lemma char_cases (P : ascii -> bool) : forallb (fun n => P (ascii_of_nat n)) (seq 0 256) = true -> forall c, P c = true.
Proof.
  intros H c. rewrite forallb_forall in H. rewrite <- (ascii_nat_embedding c). apply H. apply in_seq.
  pose proof (nat_ascii_bounded c). lia.
Qed.

(** Properties of characters, checked on all of them. *)
Ltac by_char c :=
  match goal with
  | |- ?p c = true -> ?q c = ?r =>
      generalize (char_cases (fun c => implb (p c) (Bool.eqb (q c) r)) ltac:(vm_compute; reflexivity) c);
      destruct (p c), (q c), r; cbn; congruence
  | |- ?p c = false -> ?q c = ?r =>
      generalize (char_cases (fun c => implb (negb (p c)) (Bool.eqb (q c) r)) ltac:(vm_compute; reflexivity) c);
      destruct (p c), (q c), r; cbn; congruence
  end.

Lemma ipv4_regname_char c : not_ipv4_char c = false -> regname_char c = true.
Proof. by_char c. Qed.
Lemma regname_host_end c : regname_char c = true -> host_end c = false.
Proof. by_char c. Qed.
Lemma xdigit_host_end c : isxdigit c = true -> host_end c = false.
Proof. by_char c. Qed.
Lemma host_end_regname c : host_end c = true -> regname_char c = false.
Proof. by_char c. Qed.

Lemma text_chars ok x : Forall (fun c => ok c = true) x -> "%" ∉ x -> text ok x = true.
Proof.
  intros H Hp. induction H as [|c x Hc H IH]; [done|]. apply not_elem_of_cons in Hp as [Hn Hp].
  cbn. rewrite decide_False by congruence. by rewrite Hc, IH.
Qed.

Lemma norm_text_plain x : "%" ∉ x -> norm_text x = x.
Proof.
  induction x as [|c x IH]; [done|]. intros [Hn Hp]%not_elem_of_cons. cbn. rewrite decide_False by congruence.
  by rewrite IH.
Qed.

Lemma ipv4_text h v : grammar.ipv4address h = (Some v, []) -> text regname_char h = true /\ "%" ∉ h.
Proof.
  intros (_ & _ & H)%ipv4address_chars.
  assert ("%" ∉ h) as Hp by (intros Hi; rewrite Forall_forall in H; specialize (H _ Hi); done).
  split; [|done]. apply text_chars; [|done]. eapply Forall_impl; [exact H|]. intros c. apply ipv4_regname_char.
Qed.

Lemma text_unstopped ok stop x : (forall c, ok c = true -> stop c = false) -> (forall c, isxdigit c = true -> stop c = false) ->
  stop "%" = false -> text ok x = true -> unstopped stop x.
Proof.
  intros H1 H2 H3 Hx. pattern x. apply (text_ind ok); try done; clear x Hx.
  - constructor.
  - intros c x _ Hc _ IH. constructor; auto.
  - intros h l x Hh Hl _ IH. repeat constructor; auto.
Qed.

Lemma stops_next_token (ok stop : ascii -> bool) rest : (forall c, stop c = true -> ok c = false) -> stop "%" = false ->
  stops stop rest -> next_token ok rest = None.
Proof.
  intros H Hp. destruct rest as [|c rest]; [done|]. cbn. intros Hc.
  destruct (decide (c = "%")) as [->|]; [congruence|]. by rewrite (H c Hc).
Qed.

Lemma stops_not_head (stop : ascii -> bool) (d : ascii) rest : stop d = false -> stops stop rest -> head rest <> Some d.
Proof. destruct rest as [|c rest]; [done|]. cbn. intros Hd Hc [= ->]. congruence. Qed.

Lemma host_ok_cases h : host_ok h = true ->
  (exists v, grammar.ip_literal h = (Some v, [])) \/
  (exists v, grammar.ipv4address h = (Some v, [])) \/
  (text regname_char h = true /\ fst (grammar.ipv4address h) = None).
Proof.
  unfold host_ok. intros [[H|H]%orb_true_iff|[H1 H2]%andb_true_iff]%orb_true_iff.
  - left. by apply accepts_Some.
  - right; left. by apply accepts_Some.
  - right; right. split; [done|]. by destruct (fst (grammar.ipv4address h)).
Qed.

Lemma ip_literal_none h rest : h <> [] \/ stops host_end rest -> head h <> Some "[" ->
  fst (grammar.ip_literal (h ++ rest)) = None.
Proof.
  intros H Hh. destruct h as [|c h].
  - destruct rest as [|c rest]; [done|]. destruct H as [|H]; [done|]. apply ip_literal_head. intros ->. done.
  - apply ip_literal_head. cbn in Hh. congruence.
Qed.

Lemma regname_not_bracket h : text regname_char h = true -> head h <> Some "[".
Proof. destruct h as [|c h]; [done|]. cbn. by intros H [= ->]. Qed.

(** The parser of the host takes a host up to the character that ends it. *)
Lemma host_complete h rest : host_ok h = true -> stops host_end rest ->
  grammar.host (h ++ rest) = (Some (norm_host h), rest).
Proof.
  intros Hh Hs. rewrite host_unfold. unfold norm_host. destruct (host_ok_cases h Hh) as [[v E]|[[v E]|[Ht E]]].
  - apply ip_literal_spec in E as (y & w & -> & E & ->).
    replace (("[" :: y ++ ["]"]) ++ rest) with ("[" :: y ++ "]" :: rest) by (cbn; by rewrite <- app_assoc).
    rewrite (proj2 (ip_literal_spec _ ("[" :: y ++ ["]"]) rest)) by (by exists y, w). done.
  - pose proof (ipv4_text h v E) as [Ht Hp]. destruct (ipv4address_chars h v E) as (-> & Hne & _).
    pose proof (ip_literal_none h rest (or_introl Hne) (regname_not_bracket h Ht)) as En.
    destruct (grammar.ip_literal (h ++ rest)) as [[?|] it]; [done|].
    rewrite (proj2 (blocked_Some host_end grammar.ipv4address h h rest Hs) E). by rewrite Ht, norm_text_plain.
  - pose proof (ip_literal_none h rest (or_intror Hs) (regname_not_bracket h Ht)) as En.
    destruct (grammar.ip_literal (h ++ rest)) as [[?|] it]; [done|].
    assert (unstopped host_end h) as Hu
      by (apply (text_unstopped regname_char); [apply regname_host_end|apply xdigit_host_end|done|done]).
    pose proof (blocked_None host_end grammar.ipv4address h rest Hu Hs) as E4. rewrite E in E4.
    destruct (grammar.ipv4address (h ++ rest)) as [[?|] it4]; [done|].
    rewrite span_text_exact; [by rewrite Ht|done|].
    by apply (stops_next_token _ host_end); [apply host_end_regname|..].
Qed.

(** What it takes before such a character is a host. *)
Lemma host_sound b v it : grammar.host b = (Some v, it) -> stops host_end it ->
  exists h, b = h ++ it /\ host_ok h = true /\ v = norm_host h.
Proof.
  rewrite host_unfold. unfold host_ok, norm_host. intros E Hs.
  destruct (grammar.ip_literal b) as [[w|] it1] eqn:E1; [injection E as <- <-|].
  - apply ip_literal_spec in E1 as (y & w' & -> & E1 & ->). exists ("[" :: y ++ ["]"]).
    split; [cbn; by rewrite <- app_assoc|]. split; [|done].
    rewrite (proj2 (accepts_Some grammar.ip_literal _)); [done|]. eexists. apply ip_literal_spec. by exists y, w'.
  - destruct (grammar.ipv4address b) as [[w|] it2] eqn:E2; [injection E as <- <-|injection E as <- <-].
    + pose proof (faithful grammar.ipv4address _ _ _ E2) as Hb. rewrite to_string_bytes in Hb. subst b.
      apply (blocked_Some host_end) in E2; [|apply _|done]. exists w. split; [done|].
      destruct (ipv4_text w w E2) as [Ht Hp]. rewrite Ht, norm_text_plain by done.
      rewrite (proj2 (accepts_Some grammar.ipv4address w)) by eauto. by rewrite orb_true_r.
    + destruct (span_text_spec regname_char b) as (Eb & Ht & _).
      destruct (span_text regname_char b) as [h it]. cbn [fst snd] in *. exists h. split; [done|]. rewrite Ht.
      split; [|done]. assert (unstopped host_end h) as Hu
        by (apply (text_unstopped regname_char); [apply regname_host_end|apply xdigit_host_end|done|done]).
      pose proof (blocked_None host_end grammar.ipv4address h it Hu Hs) as E4. rewrite <- Eb, E2 in E4.
      cbn [fst] in E4. rewrite <- E4. by rewrite orb_true_r.
Qed.

Lemma host_total b : exists v it, grammar.host b = (Some v, it).
Proof.
  rewrite host_unfold. destruct (grammar.ip_literal b) as [[w|] it1]; [by eexists _, _|].
  destruct (grammar.ipv4address b) as [[w|] it2]; by eexists _, _.
Qed.

(** ** Authorities *)

(** What follows the character [d], when the range begins with it. *)
Definition after (d : ascii) (b : bytes) : option bytes :=
  match b with c :: b1 => if decide (c = d) then Some b1 else None | [] => None end.

Lemma literal_after d b : literal d b = match after d b with Some b1 => (Some d, b1) | None => (None, b) end.
Proof.
  destruct b as [|c b]; [done|]. rewrite literal_cons. cbn. destruct (decide (c = d)) as [->|Hc].
  - by rewrite bool_decide_eq_true_2.
  - by rewrite bool_decide_eq_false_2.
Qed.

Lemma after_Some d b b1 : after d b = Some b1 <-> b = d :: b1.
Proof.
  split; [|intros ->; cbn; by rewrite decide_True].
  destruct b as [|c b]; [done|]. cbn. destruct (decide (c = d)) as [->|]; [|done]. by intros [= ->].
Qed.

Lemma after_None d b : head b <> Some d -> after d b = None.
Proof. destruct b as [|c b]; [done|]. cbn. intros H. by rewrite decide_False by congruence. Qed.

Lemma after_stops (stop : ascii -> bool) d b : stop d = false -> stops stop b -> after d b = None.
Proof. intros H1 H2. by apply after_None, (stops_not_head stop). Qed.

(** The optional part after a character. *)
Lemma opt_after {A} d (pa : parse A) f g b :
  (forall b1, pa b1 = (Some (f b1), g b1)) ->
  opt (product (literal d) pa) b =
  match after d b with Some b1 => (Some (Some (d, f b1)), g b1) | None => (Some None, b) end.
Proof.
  intros H. unfold opt, fmap_parse, sum, product. rewrite literal_after. destruct (after d b) as [b1|]; [|done].
  by rewrite H.
Qed.

Lemma authority_unfold b : grammar.authority b =
  let '(u, b1) := match after "@" (snd (span_text userinfo_char b)) with
                  | Some b1 => (Some (make_userinfo (norm_text (fst (span_text userinfo_char b)))), b1)
                  | None => (None, b)
                  end in
  match grammar.host b1 with
  | (Some h, b2) =>
      match after ":" b2 with
      | Some b3 => (Some (mkAuthority u h (from_string_uint16 (fst (span isdigit b3)))), snd (span isdigit b3))
      | None => (Some (mkAuthority u h None), b2)
      end
  | (None, _) => (None, b)
  end.
Proof.
  assert (opt (product grammar.userinfo (literal "@")) b =
    match after "@" (snd (span_text userinfo_char b)) with
    | Some b1 => (Some (Some (make_userinfo (norm_text (fst (span_text userinfo_char b))), "@")), b1)
    | None => (Some None, b) end) as Eu.
  { unfold opt, fmap_parse, sum, product. rewrite userinfo_spec, literal_after. by destruct (after "@" _). }
  unfold grammar.authority. unfold fmap_parse at 1. unfold product at 1. rewrite Eu. unfold product at 1.
  set (u := match after "@" (snd (span_text userinfo_char b)) with Some b1 => _ | None => _ end).
  destruct (after "@" (snd (span_text userinfo_char b))) as [b1|]; subst u; cbn [fst snd].
  all: destruct (grammar.host _) as [[h|] b2]; [|done].
  all: unfold grammar.colon; rewrite (opt_after ":" grammar.port _ _ b2 port_spec); by destruct (after ":" b2).
Qed.

Lemma span_digits p rest : forallb isdigit p = true -> stops authority_end rest -> span isdigit (p ++ rest) = (p, rest).
Proof.
  intros Hp Hs. induction p as [|c p IH]; cbn in *.
  - destruct rest as [|c rest]; [done|]. cbn in *. assert (isdigit c = false) as -> by (revert Hs; by_char c). done.
  - apply andb_true_iff in Hp as [-> Hp]. by rewrite (IH Hp).
Qed.

Lemma span_forallb p s : s = fst (span p s) ++ snd (span p s) /\ forallb p (fst (span p s)) = true.
Proof.
  induction s as [|c s IH]; [done|]. cbn. destruct (p c) eqn:E; [|done]. destruct (span p s) as [x y]. cbn in *.
  destruct IH as [-> ->]. by rewrite E.
Qed.

Lemma userinfo_regname c : regname_char c = true -> userinfo_char c = true.
Proof. unfold userinfo_char. by intros ->. Qed.

Lemma isdigit_userinfo c : isdigit c = true -> userinfo_char c = true.
Proof. by_char c. Qed.

(** A host with a port does not look like the beginning of a user information. *)
Lemma no_userinfo h p rest : host_ok h = true ->
  match p with Some p => forallb isdigit p = true | None => True end -> stops authority_end rest ->
  after "@" (snd (span_text userinfo_char (h ++ print_raw_port p ++ rest))) = None.
Proof.
  intros Hh Hp Hs.
  assert (text regname_char h = true \/ exists y, h = "[" :: y) as [Ht|[y ->]].
  { destruct (host_ok_cases h Hh) as [[v E]|[[v E]|[Ht E]]]; [right|left|by left].
    - apply ip_literal_spec in E as (y & w & -> & _). by eexists.
    - by apply (ipv4_text h v). }
  - rewrite app_assoc, span_text_exact; [by apply (after_stops authority_end)|..].
    + apply text_app; [by apply (text_mono regname_char); [apply userinfo_regname|]|].
      destruct p as [p|]; [|done]. cbn. apply text_chars.
      * rewrite Forall_forall. intros c Hc. rewrite forallb_forall in Hp. apply isdigit_userinfo, Hp. by apply list_elem_of_In.
      * intros Hi. rewrite forallb_forall in Hp. apply list_elem_of_In in Hi. by apply Hp in Hi.
    + apply (stops_next_token _ authority_end); [|done|done]. intros c. by_char c.
  - done.
Qed.

Lemma authority_complete a rest : raw_authority_ok a = true -> stops authority_end rest ->
  grammar.authority (print_raw_authority a ++ rest) = (Some (norm_authority a), rest).
Proof.
  destruct a as [u h p]. unfold raw_authority_ok, print_raw_authority, norm_authority. cbn [raw_userinfo raw_host raw_port].
  intros [[Hu Hh]%andb_true_iff Hp]%andb_true_iff Hs. rewrite authority_unfold.
  assert (match p with Some p => forallb isdigit p = true | None => True end) as Hp2 by (by destruct p).
  assert (stops host_end (print_raw_port p ++ rest)) as Hs2.
  { destruct p; [done|]. cbn. destruct rest as [|c rest]; [done|]. cbn in *. revert Hs. by_char c. }
  set (tail := h ++ print_raw_port p ++ rest).
  assert (match grammar.host tail with
    | (Some h', b2) => match after ":" b2 with
      | Some b3 => (Some (mkAuthority (option_map (fun u => make_userinfo (norm_text u)) u) h' (from_string_uint16 (fst (span isdigit b3)))), snd (span isdigit b3))
      | None => (Some (mkAuthority (option_map (fun u => make_userinfo (norm_text u)) u) h' None), b2) end
    | (None, _) => (None, tail) end =
    (Some (mkAuthority (option_map (fun u => make_userinfo (norm_text u)) u) (norm_host h)
       match p with Some p => from_string_uint16 p | None => None end), rest)) as Et.
  { unfold tail. rewrite host_complete by done. destruct p as [p|]; cbn [print_raw_port app].
    - cbn [after]. rewrite decide_True by done. by rewrite span_digits.
    - by rewrite (after_stops authority_end). }
  destruct u as [u|]; cbn [option_map].
  - rewrite <- !app_assoc. cbn [app]. rewrite span_text_exact; [|done|done]. cbn [fst snd after]. rewrite decide_True by done.
    cbn [option_map] in Et. subst tail. revert Et. destruct (grammar.host _) as [[h'|] b2]; done.
  - cbn [app]. rewrite <- app_assoc, no_userinfo by done. apply Et.
Qed.

Lemma authority_sound b v it : grammar.authority b = (Some v, it) -> stops authority_end it ->
  exists a, b = print_raw_authority a ++ it /\ raw_authority_ok a = true /\ v = norm_authority a.
Proof.
  intros E Hs. rewrite authority_unfold in E.
  assert (exists u b1, match after "@" (snd (span_text userinfo_char b)) with
                  | Some b1 => (Some (make_userinfo (norm_text (fst (span_text userinfo_char b)))), b1)
                  | None => (None, b)
                  end = (option_map (fun u => make_userinfo (norm_text u)) u, b1) /\
     b = match u with Some u => u ++ ["@"] | None => [] end ++ b1 /\
     match u with Some u => text userinfo_char u | None => true end = true) as (u & b1 & Eu & -> & Hu).
  { destruct (after "@" _) as [b1|] eqn:Ea; [|by exists None, b].
    destruct (span_text_spec userinfo_char b) as (Eb & Ht & _). apply after_Some in Ea. rewrite Ea in Eb.
    exists (Some (fst (span_text userinfo_char b))), b1. split; [done|]. split; [|done]. rewrite <- app_assoc. exact Eb. }
  rewrite Eu in E. clear Eu. destruct (grammar.host b1) as [[h|] b2] eqn:Eh; [|done].
  assert (exists p, b2 = print_raw_port p ++ it /\ match p with Some p => forallb isdigit p | None => true end = true /\
    v = mkAuthority (option_map (fun u => make_userinfo (norm_text u)) u) h
          match p with Some p => from_string_uint16 p | None => None end) as (p & -> & Hp & ->).
  { destruct (after ":" b2) as [b3|] eqn:Ea; [|injection E as <- <-; by exists None].
    apply after_Some in Ea as ->. injection E as <- <-. destruct (span_forallb isdigit b3) as [Ed Hd].
    exists (Some (fst (span isdigit b3))). split; [|done]. cbn. by rewrite <- Ed. }
  apply host_sound in Eh as (h' & -> & Hh & ->).
  - exists (RawAuthority u h' p). unfold print_raw_authority, raw_authority_ok, norm_authority. cbn [raw_userinfo raw_host raw_port].
    rewrite Hu, Hh, Hp. by rewrite <- !app_assoc.
  - destruct p; [done|]. cbn. destruct it as [|c it]; [done|]. cbn in *. revert Hs. by_char c.
Qed.

Lemma authority_total b : exists v it, grammar.authority b = (Some v, it).
Proof.
  rewrite authority_unfold. destruct (after "@" _) as [b1|].
  - destruct (host_total b1) as (h & b2 & ->). destruct (after ":" b2); by eexists _, _.
  - destruct (host_total b) as (h & b2 & ->). destruct (after ":" b2); by eexists _, _.
Qed.
