(* ===== verification/UriPath.v ===== *)
(** * UriPath: the normal form of paths

    The loop of [normalize_path] is the fold of its step on the components that
    the separators delimit; its result is a path in normal form, and a path in
    normal form is its own normal form. *)
From S2P Require Import Prelude CString Parse UriGrammar.
From Stdlib Require Import Ascii.
#[local] Open Scope char_scope.
#[local] Open Scope list_scope.

(** ** Definitions *)

(** The components that the separators delimit, the empty ones included. *)
Fixpoint split_path (p : bytes) : list bytes :=
  match p with
  | [] => [[]]
  | c :: p' =>
      if decide (c = sep) then [] :: split_path p'
      else match split_path p' with x :: l => (c :: x) :: l | [] => [[c]] end
  end.

(** A component that stays in a path. *)
Definition name_ok (x : bytes) : Prop := x <> [] /\ sep ∉ x /\ x <> id_literal /\ x <> parent_literal.

(** Components in normal form: the names of parents come first, and only in a
    relative path. *)
Definition normal_components (abs : bool) (v : list bytes) : Prop :=
  exists n names, v = replicate n parent_literal ++ names /\ Forall name_ok names /\ (abs = true -> n = 0).

(** A path in normal form: empty, the current directory, the root, or components
    in normal form, with a separator at the end only after a name. *)
Definition normal_path (q : bytes) : Prop :=
  q = [] \/ q = id_literal \/
  exists abs v (slash : bool), normal_components abs v /\ (v = [] -> abs = true) /\
    (slash = true -> exists x, last v = Some x /\ x <> parent_literal) /\
    q = (if abs then [sep] else []) ++ join_components v ++ (if slash then [sep] else []).

(** ** The loop *)

Lemma split_path_nonempty p : split_path p <> [].
Proof. destruct p as [|c p]; cbn; [done|]. destruct (decide (c = sep)); [done|]. by destruct (split_path p). Qed.

Lemma add_component_empty abs v : add_component abs v [] = v.
Proof.
  unfold add_component. destruct (decide ([] = parent_literal)); [done|].
  rewrite decide_True; [done|by right].
Qed.

Lemma find_sep_cons c b : find_sep (c :: b) =
  if decide (c = sep) then ([], c :: b) else (c :: fst (find_sep b), snd (find_sep b)).
Proof.
  unfold find_sep. cbn. destruct (decide (c = sep)) as [->|Hc]; [by rewrite bool_decide_eq_true_2|].
  rewrite bool_decide_eq_false_2 by done. cbn. by destruct (span _ b).
Qed.

Lemma find_sep_spec b : b = fst (find_sep b) ++ snd (find_sep b) /\ sep ∉ fst (find_sep b) /\
  (snd (find_sep b) = [] \/ exists b', snd (find_sep b) = sep :: b').
Proof.
  induction b as [|c b IH]; [repeat split; [apply not_elem_of_nil|by left]|]. rewrite find_sep_cons.
  destruct (decide (c = sep)) as [->|Hc]; cbn [fst snd].
  - split; [done|]. split; [apply not_elem_of_nil|]. right. by exists b.
  - destruct IH as (IH & Hn & H). split; [cbn; by rewrite <- IH|]. split; [|done].
    apply not_elem_of_cons. by split.
Qed.

Lemma split_path_find_sep b : split_path b =
  fst (find_sep b) :: match snd (find_sep b) with [] => [] | _ :: b' => split_path b' end.
Proof.
  induction b as [|c b IH]; [done|]. rewrite find_sep_cons. cbn [split_path].
  destruct (decide (c = sep)); [done|]. by rewrite IH.
Qed.

Definition fold_components (abs : bool) (v : list bytes) (cs : list bytes) : list bytes :=
  fold_left (add_component abs) cs v.

Lemma next_component_fold abs v b :
  fold_components abs v (split_path (next_component b)) = fold_components abs v (split_path b) /\
  length (next_component b) <= length b /\ head (next_component b) <> Some sep /\
  (next_component b = [] -> b <> [] -> last b = Some sep) /\
  (next_component b <> [] -> last (next_component b) = last b).
Proof.
  induction b as [|c b IH]; [done|]. cbn [next_component]. destruct (decide (c = sep)) as [->|Hc].
  - destruct IH as (E & Hl & Hh & Hn & Hn2). cbn [split_path]. rewrite decide_True by done.
    unfold fold_components at 2. cbn [fold_left]. rewrite add_component_empty. split; [done|]. split; [cbn; lia|].
    split; [done|]. split.
    + intros H0 _. destruct b as [|d b]; [done|]. rewrite last_cons_cons. by apply Hn.
    + intros H0. rewrite Hn2 by done. destruct b as [|d b]; [done|]. by rewrite last_cons_cons.
  - split; [done|]. split; [done|]. split; [cbn; congruence|]. by split.
Qed.

(** The loop, with enough fuel, is the fold. *)
Lemma normalize_loop_fold fuel abs v se b : length b <= fuel ->
  normalize_loop fuel abs v se b =
    (fold_components abs v (split_path b), match b with [] => se | _ => se || bool_decide (last b = Some sep) end).
Proof.
  revert v se b; induction fuel as [|f IH]; intros v se b Hf.
  { destruct b; [cbn; by rewrite add_component_empty|cbn in Hf; lia]. }
  destruct b as [|c b1]; [cbn; by rewrite add_component_empty|].
  remember (c :: b1) as b eqn:Eb. assert (b <> []) as Hb by by subst. cbn [normalize_loop].
  destruct (next_component_fold abs v b) as (E & Hl & Hh & Hn & Hn2). rewrite <- E.
  assert (forall A (x y : A), match b with [] => x | _ => y end = y) as Em by (intros; by destruct b). rewrite !Em. clear Em.
  set (b2 := next_component b) in *. clearbody b2. clear E.
  rewrite (split_path_find_sep b2).
  destruct (find_sep_spec b2) as (E2 & Hs & Ht). destruct (find_sep b2) as [compo e]. cbn [fst snd] in *.
  assert (length e < length b) as He.
  { destruct b; [done|]. rewrite E2, length_app in Hl. destruct compo; [|cbn in *; lia].
    destruct Ht as [->|[b' ->]]; [cbn; lia|]. by rewrite E2 in Hh. }
  rewrite IH by lia. unfold fold_components. cbn [fold_left].
  destruct Ht as [->|[b' ->]].
  - cbn [fold_left split_path]. rewrite add_component_empty. f_equal.
    rewrite app_nil_r in E2. subst b2. destruct compo as [|d compo].
    + rewrite bool_decide_eq_true_2 by auto. by rewrite orb_true_r.
    + rewrite bool_decide_eq_false_2; [by rewrite orb_false_r|]. rewrite <- Hn2 by done.
      intros Hl2. apply last_Some in Hl2 as [l' El]. rewrite El in Hs. apply Hs. apply elem_of_app. right. by apply list_elem_of_singleton.
  - cbn [split_path]. rewrite decide_True by done. cbn [fold_left]. rewrite add_component_empty.
    f_equal. rewrite <- Hn2 by (rewrite E2; by destruct compo). rewrite E2, last_app_cons. by destruct compo.
Qed.

(** ** The components of a normal form *)

Lemma split_path_name x : sep ∉ x -> split_path x = [x].
Proof.
  induction x as [|c x IH]; [done|]. intros [Hc Hx]%not_elem_of_cons. cbn.
  rewrite decide_False by congruence. by rewrite (IH Hx).
Qed.

Lemma split_path_cons x y : sep ∉ x -> split_path (x ++ sep :: y) = x :: split_path y.
Proof.
  induction x as [|c x IH]; [done|]. intros [Hc Hx]%not_elem_of_cons. cbn.
  rewrite decide_False by congruence. by rewrite (IH Hx).
Qed.

Lemma split_path_noseps p : Forall (fun x => sep ∉ x) (split_path p).
Proof.
  induction p as [|c p IH]; cbn; [by constructor; [apply not_elem_of_nil|]|].
  destruct (decide (c = sep)) as [|Hc]; [by constructor; [apply not_elem_of_nil|]|].
  destruct (split_path p) as [|x l]; inversion IH; subst; constructor; try done; apply not_elem_of_cons;
    split; try done; try congruence. apply not_elem_of_nil.
Qed.

Lemma component_noseps abs v : normal_components abs v -> Forall (fun x => sep ∉ x /\ x <> []) v.
Proof.
  intros (n & names & -> & H & _). apply Forall_app. split.
  - apply Forall_replicate. split; [|done]. apply (bool_decide_unpack _). vm_compute. done.
  - eapply Forall_impl; [exact H|]. by intros x (? & ? & _).
Qed.

Lemma split_path_join v (slash : bool) : v <> [] -> Forall (fun x => sep ∉ x /\ x <> []) v ->
  split_path (join_components v ++ if slash then [sep] else []) = v ++ if slash then [[]] else [].
Proof.
  intros Hv H. induction H as [|x v [Hx _] H IH]; [done|].
  destruct v as [|y v].
  - cbn [join_components app]. destruct slash; [by apply split_path_cons|].
    rewrite app_nil_r. by apply split_path_name.
  - change (join_components (x :: y :: v)) with (x ++ sep :: join_components (y :: v)).
    rewrite <- app_assoc. cbn [app]. rewrite split_path_cons by done. by rewrite IH.
Qed.

Lemma last_snoc_inv {A} (v : list A) x : last v = Some x -> v = removelast v ++ [x].
Proof. intros [l ->]%last_Some. by rewrite removelast_last. Qed.

Lemma add_component_normal abs v x : sep ∉ x -> normal_components abs v -> normal_components abs (add_component abs v x).
Proof.
  intros Hx (n & names & -> & Hn & Ha). unfold add_component.
  destruct (decide (x = parent_literal)) as [->|Hp].
  - destruct names as [|y l _] using rev_ind.
    + rewrite app_nil_r. destruct n as [|n].
      * cbn. destruct abs; [by exists 0, []|]. by exists 1, [].
      * rewrite replicate_S_end, last_snoc, decide_True by done. rewrite <- replicate_S_end.
        exists (S (S n)), []. rewrite app_nil_r, (replicate_S_end (S n)). split; [done|]. split; [done|].
        intros E. by specialize (Ha E).
    + rewrite app_assoc, last_snoc. apply Forall_app in Hn as [Hl Hy]. inversion Hy as [|? ? (? & ? & ? & Hy') _]; subst.
      rewrite decide_False by done. rewrite removelast_last. by exists n, l.
  - destruct (decide (x = id_literal \/ x = [])) as [|Hi]; [by exists n, names|].
    exists n, (names ++ [x]). rewrite app_assoc. split; [done|]. split; [|done].
    apply Forall_app. split; [done|]. constructor; [|constructor]. unfold name_ok. naive_solver.
Qed.

Lemma fold_components_normal abs v cs : Forall (fun x => sep ∉ x) cs -> normal_components abs v ->
  normal_components abs (fold_components abs v cs).
Proof.
  intros H. revert v; induction H as [|x cs Hx H IH]; intros v Hv; [done|]. cbn. by apply IH, add_component_normal.
Qed.

Lemma fold_components_id abs v : normal_components abs v -> fold_components abs [] v = v.
Proof.
  intros (n & names & -> & Hn & Ha). unfold fold_components. rewrite fold_left_app.
  assert (fold_left (add_component abs) (replicate n parent_literal) [] = replicate n parent_literal) as ->.
  { destruct abs; [by rewrite Ha|]. clear. induction n as [|n IH]; [done|].
    rewrite replicate_S_end, fold_left_app, IH. cbn. unfold add_component. rewrite decide_True by done.
    destruct n as [|n]; [done|]. by rewrite replicate_S_end, last_snoc, decide_True. }
  revert n Ha; intros n _. generalize (replicate n parent_literal) as l.
  induction Hn as [|x names (Hx & _ & Hi & Hp) Hn IH]; intros l; cbn; [by rewrite app_nil_r|].
  unfold add_component at 2. rewrite decide_False by done. rewrite decide_False by naive_solver.
  rewrite IH. by rewrite <- app_assoc.
Qed.

(** ** The normal form of a path *)

Definition path_components (p : bytes) : list bytes :=
  fold_components (bool_decide (head p = Some sep)) [] (split_path p).

Lemma lexically_normal_path_fold p : lexically_normal_path p =
  match p with
  | [] => []
  | _ =>
      let abs := bool_decide (head p = Some sep) in
      match path_components p with
      | [] => if abs then [sep] else id_literal
      | v => (if abs then [sep] else []) ++ join_components v ++
             (if bool_decide (last p = Some sep) && negb (bool_decide (last v = Some parent_literal)) then [sep] else [])
      end
  end.
Proof.
  destruct p as [|c p1]; [done|]. unfold lexically_normal_path, normalize_path, path_components.
  rewrite normalize_loop_fold by done. cbn iota. rewrite orb_false_l.
  assert (bool_decide (head (c :: p1) = Some sep) = bool_decide (c = sep)) as ->
    by (apply bool_decide_ext; cbn; split; congruence).
  set (abs := bool_decide (c = sep)). set (p := c :: p1). set (v := fold_components abs [] (split_path p)).
  assert (normal_components abs v) as Hv
    by (apply fold_components_normal; [apply split_path_noseps|by exists 0, []]). clearbody v. clearbody p.
  destruct v as [|x v]; [destruct abs; cbn; by destruct (bool_decide _)|]. cbn iota.
  unfold copy_path. rewrite <- app_assoc. f_equal. f_equal.
  destruct (bool_decide (last p = Some sep)); [|done]. cbn [andb].
  assert (exists y, last (x :: v) = Some y) as [y Hy].
  { destruct (last (x :: v)) eqn:E; [by eexists|]. by apply last_None in E. }
  rewrite Hy. destruct (decide (y = parent_literal)) as [->|Hyp].
  - rewrite bool_decide_eq_true_2 by done. rewrite decide_True by by right. done.
  - rewrite bool_decide_eq_false_2 by congruence. rewrite decide_False; [done|]. intros [->|?]; [|done].
    destruct Hv as (n & names & E & Hn & _). rewrite E in Hy. destruct names as [|z l _] using rev_ind.
    + rewrite app_nil_r in Hy. destruct n as [|n]; [done|]. rewrite replicate_S_end, last_snoc in Hy. done.
    + rewrite app_assoc, last_snoc in Hy. injection Hy as ->. apply Forall_app in Hn as [_ Hn].
      inversion Hn as [|? ? (? & ? & ? & ?) _]. done.
Qed.

Lemma path_components_normal p : normal_components (bool_decide (head p = Some sep)) (path_components p).
Proof. apply fold_components_normal; [apply split_path_noseps|by exists 0, []]. Qed.

Lemma lexically_normal_path_normal p : normal_path (lexically_normal_path p).
Proof.
  rewrite lexically_normal_path_fold. destruct p as [|c p1]; [by left|]. cbn iota. set (p := c :: p1).
  pose proof (path_components_normal p) as Hv. set (abs := bool_decide (head p = Some sep)) in *.
  destruct (path_components p) as [|x v] eqn:Ev.
  - destruct abs; [|by right; left]. right; right. by exists true, [], false.
  - right; right. exists abs, (x :: v), (bool_decide (last p = Some sep) && negb (bool_decide (last (x :: v) = Some parent_literal))).
    split; [done|]. split; [done|]. split; [|done].
    intros [_ H]%andb_true_iff. destruct (last (x :: v)) as [y|] eqn:E; [|by apply last_None in E].
    exists y. split; [done|]. intros ->. by rewrite bool_decide_eq_true_2 in H.
Qed.

Lemma join_components_ends w : w <> [] -> Forall (fun x => sep ∉ x /\ x <> []) w ->
  head (join_components w) <> Some sep /\ join_components w <> [] /\ last (join_components w) <> Some sep.
Proof.
  intros Hne Hn. induction Hn as [|y w [Hy Hy0] Hn IH]; [done|].
  assert (forall l, head (y ++ l) <> Some sep) as Hh.
  { intros l E. destruct y; [done|]. injection E as ->. apply Hy. by left. }
  destruct w as [|z w].
  - cbn [join_components]. rewrite <- (app_nil_r y). split; [apply Hh|]. split; [by rewrite app_nil_r|].
    rewrite app_nil_r. intros [l ->]%last_Some. apply Hy, elem_of_app. right. by apply list_elem_of_singleton.
  - destruct (IH ltac:(done)) as (_ & Hj & Hl).
    change (join_components (y :: z :: w)) with (y ++ sep :: join_components (z :: w)).
    split; [apply Hh|]. split; [by destruct y|]. rewrite last_app_cons.
    destruct (join_components (z :: w)); [done|]. by rewrite last_cons_cons.
Qed.

Lemma normal_path_fixed q : normal_path q -> lexically_normal_path q = q.
Proof.
  intros [->|[->|(abs & v & slash & Hv & Hv0 & Hs & Eq)]]; [done|vm_compute; reflexivity|].
  destruct v as [|x v].
  { rewrite (Hv0 eq_refl) in Eq. destruct slash; [by destruct (Hs eq_refl) as (? & ? & _)|].
    subst q. vm_compute. reflexivity. }
  pose proof (component_noseps _ _ Hv) as Hn. assert (x :: v <> []) as Hne by done.
  set (w := x :: v) in *. assert (w = x :: v) as Ew by done. clearbody w.
  destruct (join_components_ends w Hne Hn) as (Hh & Hj & Hl).
  rewrite lexically_normal_path_fold.
  assert (bool_decide (head q = Some sep) = abs) as Ha.
  { subst q. destruct abs; [by rewrite bool_decide_eq_true_2|]. rewrite bool_decide_eq_false_2; [done|].
    by destruct (join_components w). }
  assert (path_components q = w) as Ec.
  { unfold path_components. rewrite Ha. subst q. rewrite <- (fold_components_id abs w Hv) at 2. unfold fold_components.
    assert (forall tl, fold_left (add_component abs) (w ++ tl) [] = fold_left (add_component abs) tl w) as Ef.
    { intros tl. rewrite fold_left_app. f_equal. apply (fold_components_id abs w Hv). }
    rewrite (fold_components_id abs w Hv : fold_left _ _ _ = _).
    destruct abs; cbn [app split_path]; [rewrite decide_True by done; cbn [fold_left]; rewrite add_component_empty|].
    all: rewrite split_path_join by done; rewrite Ef; destruct slash; [apply add_component_empty|done]. }
  assert (bool_decide (last q = Some sep) && negb (bool_decide (last w = Some parent_literal)) = slash) as Es.
  { destruct slash.
    - destruct (Hs eq_refl) as (y & Hy & Hp). rewrite Hy, (bool_decide_eq_false_2 (Some y = _)) by congruence.
      subst q. by rewrite app_assoc, last_snoc, bool_decide_eq_true_2.
    - rewrite (bool_decide_eq_false_2 (last q = _)); [done|]. subst q. rewrite app_nil_r.
      destruct (join_components w) as [|c l] eqn:Ej; [done|]. by rewrite last_app_cons. }
  rewrite Ec, Ha. destruct q as [|c q]; [by destruct abs, (join_components w)|]. destruct w as [|y w]; [done|].
  cbv zeta. rewrite Es. by rewrite Eq.
Qed.

(** The normal form of a path is a path in normal form, with neither current
    directory nor empty component, and with parents only at the beginning of a
    relative path; a path in normal form is kept. The loop ends with as many steps
    as the path has characters. *)
Theorem normal_form_correct p :
  normal_path (lexically_normal_path p) /\
  lexically_normal_path (lexically_normal_path p) = lexically_normal_path p /\
  (normal_path p -> lexically_normal_path p = p).
Proof.
  split; [apply lexically_normal_path_normal|]. split; [|apply normal_path_fixed].
  apply normal_path_fixed, lexically_normal_path_normal.
Qed.
