(* ===== verification/UriProperties.v ===== *)
(** * UriProperties: what [qi::uri] accepts and returns

    The reference description of the URI that are accepted, a record of the parts
    as they are in the text with a printer and a condition, and of the value that
    is returned, the normal form of the parts. *)
From S2P Require Import Prelude CString Parse UriGrammar Uri ParseProperties UriText UriHost.
From Stdlib Require Import Ascii.
#[local] Open Scope char_scope.
#[local] Open Scope list_scope.

(** ** Definitions *)

Definition hier_end (c : ascii) : bool := bool_decide (c ∈ ["?"; "#"]).

(** The parts of an URI, as they are in the text. *)
Record raw_uri := RawUri {
  raw_scheme : bytes;
  raw_authority_part : option raw_authority;
  raw_path : bytes;
  raw_query : option bytes;
  raw_fragment : option bytes;
}.

Definition print_raw_hier (a : option raw_authority) (p : bytes) : bytes :=
  match a with Some a => "/" :: "/" :: print_raw_authority a | None => [] end ++ p.

Definition print_raw_part (d : ascii) (q : option bytes) : bytes :=
  match q with Some q => d :: q | None => [] end.

Definition print_raw (r : raw_uri) : bytes :=
  raw_scheme r ++ ":" :: print_raw_hier (raw_authority_part r) (raw_path r)
  ++ print_raw_part "?" (raw_query r) ++ print_raw_part "#" (raw_fragment r).

Definition scheme_ok (s : bytes) : bool :=
  match s with c :: s' => isalpha c && forallb scheme_char s' | [] => false end.

(** With an authority the path is empty or absolute; without one it does not
    begin with two separators. *)
Definition hier_ok (a : option raw_authority) (p : bytes) : bool :=
  text path_char p &&
  match a, p with
  | Some a, [] => raw_authority_ok a
  | Some a, c :: _ => raw_authority_ok a && bool_decide (c = "/")
  | None, c :: d :: _ => negb (bool_decide (c = "/") && bool_decide (d = "/"))
  | None, _ => true
  end.

Definition part_ok (q : option bytes) : bool := match q with Some q => text query_char q | None => true end.

Definition raw_ok (r : raw_uri) : bool :=
  scheme_ok (raw_scheme r) && hier_ok (raw_authority_part r) (raw_path r)
  && part_ok (raw_query r) && part_ok (raw_fragment r).

Definition norm_hier (a : option raw_authority) (p : bytes) : option uri_authority_t * bytes :=
  (option_map norm_authority a, lexically_normal_path (norm_text p)).

Definition norm_uri (r : raw_uri) : uri_t :=
  mkUri (to_lower (raw_scheme r)) (option_map norm_authority (raw_authority_part r))
    (lexically_normal_path (norm_text (raw_path r)))
    (option_map norm_text (raw_query r)) (option_map norm_text (raw_fragment r)).

(** ** The hierarchical part *)

Lemma token_loop_nonempty {A} `{ToString A} ok (pa : parse A) `{!Token ok pa} n b :
  match next_token ok b with
  | None => fst (quantify_loop (S n) pa b) = []
  | Some _ => fst (quantify_loop (S n) pa b) <> []
  end.
Proof.
  cbn. pose proof (token b) as T. destruct (next_token ok b) as [[t r]|]; [|by rewrite T].
  destruct T as (a & -> & _). by destruct (quantify_loop n pa r).
Qed.

Lemma segment_nz_spec b : grammar.segment_nz b =
  match next_token pchar_char b with None => (None, b) | Some _ => grammar.segment b end.
Proof.
  destruct b as [|c b1]; [done|]. unfold grammar.segment_nz, grammar.segment, many, at_least, quantify, str_parse, fmap_parse.
  set (b := c :: b1). change (length b) with (S (length b1)). clearbody b.
  pose proof (token_loop_nonempty pchar_char grammar.pchar (length b1) b) as T.
  destruct (quantify_loop (S (length b1)) grammar.pchar b) as [v it]. cbn [fst] in T.
  destruct (next_token pchar_char b); [|by subst v]. by destruct v.
Qed.

Lemma next_token_path b : head b <> Some "/" -> next_token path_char b = next_token pchar_char b.
Proof.
  destruct b as [|c b]; [done|]. cbn. intros Hc. unfold path_char.
  rewrite bool_decide_eq_false_2 by congruence. by rewrite orb_false_r.
Qed.

Lemma rootless_spec b : head b <> Some "/" -> grammar.path_rootless b =
  match next_token pchar_char b with
  | None => (None, b)
  | Some _ => (Some (norm_text (fst (span_text path_char b))), snd (span_text path_char b))
  end.
Proof.
  intros Hb. unfold grammar.path_rootless, str_parse, fmap_parse, product. rewrite segment_nz_spec.
  destruct (next_token pchar_char b) as [t|] eqn:En; [|done].
  rewrite segment_spec, segment_list_spec, span_path_segments.
  destruct (span_text_spec pchar_char b) as (_ & Ht & _). unfold ok. cbn [option_map fst snd].
  rewrite (norm_text_app pchar_char) by done. do 2 f_equal.
  unfold to_string at 1, to_string_product. cbn [fst snd]. by rewrite !to_string_bytes.
Qed.

Lemma absolute_spec b : head b <> Some "/" -> grammar.path_absolute ("/" :: b) =
  (Some ("/" :: norm_text (fst (span_text path_char b))), snd (span_text path_char b)).
Proof.
  intros Hb. unfold grammar.path_absolute, str_parse, fmap_parse, product at 1, grammar.slash. rewrite literal_cons.
  rewrite bool_decide_eq_true_2 by done. unfold opt, fmap_parse, sum.
  pose proof (rootless_spec b Hb) as R. unfold grammar.path_rootless, str_parse, fmap_parse in R.
  destruct (next_token pchar_char b) as [t|] eqn:En.
  - destruct (product grammar.segment_nz grammar.segment_list b) as [[[x y]|] it]; [|done].
    injection R as Ev <-. unfold ok. cbn [option_map]. do 2 f_equal. rewrite <- Ev. done.
  - rewrite span_text_none by (by rewrite next_token_path).
    destruct (product grammar.segment_nz grammar.segment_list b) as [[v|] it] eqn:E; [done|]. 
    apply regular_None in E; [|unfold grammar.segment_nz, grammar.segment_list; apply _]. by subst it.
Qed.

(** The three ways of [hier_part]. *)
Lemma hier_unfold b : grammar.hier_part b =
  match match after "/" b with Some b1 => after "/" b1 | None => None end with
  | Some b2 =>
      match grammar.authority b2 with
      | (Some a, b3) => (Some (Some a, lexically_normal_path (norm_text (fst (span_segments b3)))), snd (span_segments b3))
      | (None, _) => (None, b)
      end
  | None => (Some (None, lexically_normal_path (norm_text (fst (span_text path_char b)))), snd (span_text path_char b))
  end.
Proof.
  unfold grammar.hier_part. unfold fmap_parse at 1, sum at 1, product at 1.
  destruct (match after "/" b with Some b1 => after "/" b1 | None => None end) as [b2|] eqn:Ea.
  - destruct (after "/" b) as [b1|] eqn:E1; [|done]. apply after_Some in E1 as ->. apply after_Some in Ea as ->.
    change (literals ["/"; "/"] ("/" :: "/" :: b2)) with (Some ["/"; "/"], b2). cbn iota beta.
    destruct (authority_total b2) as (a & b3 & Ea). unfold product. rewrite Ea.
    unfold grammar.path_abempty. rewrite segment_list_spec. done.
  - assert (literals ["/"; "/"] b = (None, b)) as ->.
    { cbn [literals]. unfold fmap_parse, product, unit_parse. rewrite literal_after.
      destruct (after "/" b) as [b1|]; [|done]. by rewrite literal_after, Ea. }
    cbn iota beta. unfold err. unfold sum at 1. destruct b as [|c b]; [done|].
    destruct (decide (c = "/")) as [->|Hc].
    + rewrite absolute_spec.
      * cbn. rewrite decide_False by done. destruct (span_text path_char b). done.
      * cbn in Ea. rewrite decide_True in Ea by done. destruct b as [|d b]; [done|]. cbn in *.
        intros [= ->]. by rewrite decide_True in Ea.
    + assert (grammar.path_absolute (c :: b) = (None, c :: b)) as ->.
      { unfold grammar.path_absolute, str_parse, fmap_parse, product, grammar.slash.
        by rewrite literal_cons, bool_decide_eq_false_2. }
      unfold sum at 1. rewrite rootless_spec by (cbn; congruence).
      destruct (next_token pchar_char (c :: b)) as [t|] eqn:En; [done|].
      rewrite span_text_none by (rewrite next_token_path; [done|cbn; congruence]). done.
Qed.

Lemma path_char_hier_end c : hier_end c = true -> path_char c = false.
Proof. by_char c. Qed.

Lemma hier_complete a p rest : hier_ok a p = true -> stops hier_end rest ->
  grammar.hier_part (print_raw_hier a p ++ rest) = (Some (norm_hier a p), rest).
Proof.
  intros [Hp H]%andb_true_iff Hs. rewrite hier_unfold. unfold print_raw_hier, norm_hier.
  assert (next_token path_char rest = None) as Hn
    by (by apply (stops_next_token _ hier_end); [apply path_char_hier_end|..]).
  destruct a as [a|].
  - cbn [app after]. rewrite decide_True by done. cbn [after]. rewrite decide_True, <- app_assoc by done.
    assert (raw_authority_ok a = true /\ stops authority_end (p ++ rest) /\ span_segments (p ++ rest) = (p, rest)) as (Ha & Hs2 & E).
    { destruct p as [|c p].
      - split; [done|]. destruct rest as [|c rest]; [done|]. cbn in *. split; [revert Hs; by_char c|].
        rewrite decide_False; [done|]. by intros ->.
      - apply andb_true_iff in H as [Ha Hc%bool_decide_eq_true]. subst c. split; [done|]. split; [done|].
        cbn [span_segments app]. rewrite decide_True by done. by apply (span_text_exact path_char ("/" :: p)). }
    rewrite authority_complete by done. by rewrite E.
  - cbn [app]. rewrite span_text_exact by done.
    destruct (after "/" (p ++ rest)) as [b1|] eqn:E1; [|done]. apply after_Some in E1.
    rewrite (after_None "/" b1); [done|].
    destruct p as [|c [|d p]]; cbn in *.
    + destruct rest; [done|]. by injection E1 as -> _.
    + injection E1 as -> <-. destruct rest as [|d rest]; [done|]. by intros [= ->].
    + injection E1 as -> <-. intros [= ->]. by rewrite !bool_decide_eq_true_2 in H.
Qed.

Lemma hier_sound b v it : grammar.hier_part b = (Some v, it) -> stops hier_end it ->
  exists a p, b = print_raw_hier a p ++ it /\ hier_ok a p = true /\ v = norm_hier a p.
Proof.
  rewrite hier_unfold. intros E Hs. unfold hier_ok.
  destruct (match after "/" b with Some b1 => after "/" b1 | None => None end) as [b2|] eqn:Ea.
  - destruct (after "/" b) as [b1|] eqn:E1; [|done]. apply after_Some in E1 as ->. apply after_Some in Ea as ->.
    destruct (grammar.authority b2) as [[a|] b3] eqn:E2; [|done]. injection E as <- <-.
    assert (b3 = fst (span_segments b3) ++ snd (span_segments b3) /\ text path_char (fst (span_segments b3)) = true /\
      (fst (span_segments b3) = [] \/ head (fst (span_segments b3)) = Some "/")) as (E3 & Ht & Hh).
    { destruct b3 as [|c b3]; [by repeat split; left|]. cbn [span_segments]. destruct (decide (c = "/")) as [->|]; [|by repeat split; left].
      destruct (span_text_spec path_char ("/" :: b3)) as (Es & Ht & _). split; [done|]. split; [done|]. right.
      cbn. rewrite decide_False by done. by destruct (span_text path_char b3). }
    destruct (span_segments b3) as [p it]. cbn [fst snd] in *. rewrite E3 in E2.
    apply authority_sound in E2 as (a' & -> & Ha & ->).
    + exists (Some a'), p. unfold print_raw_hier. split; [cbn; by rewrite <- app_assoc|]. rewrite Ht. split; [|done].
      destruct Hh as [->|Hh]; [done|]. destruct p as [|c p]; [done|]. injection Hh as ->.
      by rewrite Ha, bool_decide_eq_true_2.
    + destruct Hh as [->|Hh]; [destruct it as [|c it]; [done|]; cbn in *; revert Hs; by_char c|].
      destruct p as [|c p]; [done|]. by injection Hh as ->.
  - injection E as <- <-. destruct (span_text_spec path_char b) as (Eb & Ht & _).
    exists None, (fst (span_text path_char b)). split; [done|]. rewrite Ht. split; [|done].
    destruct (span_text path_char b) as [[|c [|d p]] it]; try done. cbn in *. subst b. cbn in Ea.
    destruct (bool_decide_reflect (c = "/")) as [->|]; [|done]. rewrite decide_True in Ea by done. cbn in Ea.
    destruct (bool_decide_reflect (d = "/")) as [->|]; [|done]. by rewrite decide_True in Ea.
Qed.

(** ** The whole URI *)

Lemma uri_unfold s : grammar.uri s =
  match grammar.scheme s with
  | (Some sch, s1) =>
      match after ":" s1 with
      | Some s2 =>
          match grammar.hier_part s2 with
          | (Some h, s3) =>
              let '(q, s4) := match after "?" s3 with
                              | Some s' => (Some (norm_text (fst (span_text query_char s'))), snd (span_text query_char s'))
                              | None => (None, s3) end in
              let '(f, s5) := match after "#" s4 with
                              | Some s' => (Some (norm_text (fst (span_text query_char s'))), snd (span_text query_char s'))
                              | None => (None, s4) end in
              (Some (mkUri sch (fst h) (snd h) q f), s5)
          | (None, _) => (None, s)
          end
      | None => (None, s)
      end
  | (None, _) => (None, s)
  end.
Proof.
  unfold grammar.uri. unfold fmap_parse at 1, product at 1. destruct (grammar.scheme s) as [[sch|] s1]; [|done].
  unfold product at 1. rewrite literal_after. destruct (after ":" s1) as [s2|]; [|done].
  unfold product at 1. destruct (grammar.hier_part s2) as [[h|] s3]; [|done].
  unfold product at 1. rewrite (opt_after "?" _ _ _ s3 query_spec).
  destruct (after "?" s3) as [s'|]; cbn [fst snd].
  all: unfold grammar.fragment; rewrite (opt_after "#" _ _ _ _ query_spec).
  all: destruct (after "#" _) as [s''|]; done.
Qed.

Lemma scheme_complete sch rest : scheme_ok sch = true ->
  grammar.scheme (sch ++ ":" :: rest) = (Some (to_lower sch), ":" :: rest).
Proof.
  rewrite scheme_spec. destruct sch as [|c sch]; [done|]. cbn [app]. intros [-> H]%andb_true_iff.
  assert (span scheme_char (sch ++ ":" :: rest) = (sch, ":" :: rest)) as ->; [|done].
  induction sch as [|d sch IH]; [done|]. cbn in *. apply andb_true_iff in H as [-> H]. by rewrite (IH H).
Qed.

Lemma scheme_sound s v it : grammar.scheme s = (Some v, it) ->
  exists sch, s = sch ++ it /\ scheme_ok sch = true /\ v = to_lower sch.
Proof.
  rewrite scheme_spec. destruct s as [|c s]; [done|]. destruct (isalpha c) eqn:Ec; [|done]. intros [= <- <-].
  exists (c :: fst (span scheme_char s)). destruct (span_forallb scheme_char s) as [E1 E2].
  split; [cbn; by rewrite <- E1|]. cbn. by rewrite Ec, E2.
Qed.

(** A query or a fragment after its character. *)
Lemma part_complete d q rest : part_ok q = true ->
  (forall c, head rest = Some c -> c = "#") -> (d = "#" -> rest = []) ->
  match after d (print_raw_part d q ++ rest) with
  | Some s' => (Some (norm_text (fst (span_text query_char s'))), snd (span_text query_char s'))
  | None => (None, print_raw_part d q ++ rest)
  end = (option_map norm_text q, rest).
Proof.
  intros Hq Hr Hd2. destruct q as [q|]; cbn [print_raw_part app].
  - cbn [after]. rewrite decide_True by done. rewrite span_text_exact; [done|done|].
    destruct rest as [|c rest]; [done|]. rewrite (Hr c eq_refl). done.
  - rewrite after_None; [done|]. destruct rest as [|c rest]; [done|]. cbn. intros [= ->].
    specialize (Hr d eq_refl). by specialize (Hd2 Hr).
Qed.

Lemma part_sound d s q s' :
  match after d s with
  | Some s1 => (Some (norm_text (fst (span_text query_char s1))), snd (span_text query_char s1))
  | None => (None, s)
  end = (q, s') -> exists r, s = print_raw_part d r ++ s' /\ part_ok r = true /\ q = option_map norm_text r.
Proof.
  destruct (after d s) as [s1|] eqn:E; intros [= <- <-].
  - apply after_Some in E as ->. destruct (span_text_spec query_char s1) as (Es & Ht & _).
    exists (Some (fst (span_text query_char s1))). cbn. by rewrite <- Es, Ht.
  - by exists None.
Qed.

(** C8. [uri] accepts exactly the texts of URI whose parts the reference grammar
    allows, and its result is the normal form of these parts: the scheme and the
    host in lower case, the octets decoded, the path in normal form, the port when
    it fits in 16 bits. In particular the parser ends and gives at most one result
    for every text. *)
Theorem uri_exact s u :
  uri s = Some u <-> exists r, s = print_raw r /\ raw_ok r = true /\ u = norm_uri r.
Proof.
  unfold uri. rewrite uri_unfold. split.
  - destruct (grammar.scheme s) as [[sch|] s1] eqn:E1; [|done]. apply scheme_sound in E1 as (sch' & -> & H1 & ->).
    destruct (after ":" s1) as [s2|] eqn:E2; [|done]. apply after_Some in E2 as ->.
    destruct (grammar.hier_part s2) as [[h|] s3] eqn:E3; [|done].
    destruct (match after "?" s3 with Some _ => _ | None => _ end) as [q s4] eqn:E4.
    destruct (match after "#" s4 with Some _ => _ | None => _ end) as [f s5] eqn:E5.
    destruct s5; [|done]. intros [= <-].
    apply part_sound in E5 as (rf & -> & Hf & ->). apply part_sound in E4 as (rq & -> & Hq & ->).
    apply hier_sound in E3 as (a & p & -> & Hh & ->); [|by destruct rq, rf].
    exists (RawUri sch' a p rq rf). unfold print_raw, raw_ok. cbn [raw_scheme raw_authority_part raw_path raw_query raw_fragment].
    rewrite app_nil_r. by rewrite H1, Hh, Hq, Hf.
  - intros ([sch a p q f] & -> & H & ->). unfold raw_ok, print_raw in *.
    cbn [raw_scheme raw_authority_part raw_path raw_query raw_fragment] in *.
    apply andb_true_iff in H as [[[H1 Hh]%andb_true_iff Hq]%andb_true_iff Hf].
    rewrite scheme_complete by done. cbn [after]. rewrite decide_True by done.
    rewrite hier_complete; [|done|by destruct q, f].
    rewrite (part_complete "?" q); [|done|by destruct f; intros ? [= <-]|done].
    pose proof (part_complete "#" f [] Hf) as Ef. rewrite app_nil_r in Ef. by rewrite Ef.
Qed.
