(* ===== verification/UriRoundtrip.v ===== *)
(** * UriRoundtrip: an accepted URI is normal

    Printing an URI that was parsed gives a text that is parsed to the same URI,
    when no percent-encoded octet of the original text encodes a character that
    may not be written literally. *)
From S2P Require Import Prelude CString Parse UriGrammar Uri ParseProperties UriText UriHost UriPath UriProperties.
From Stdlib Require Import Ascii.
#[local] Open Scope char_scope.
#[local] Open Scope list_scope.

(** ** Definitions *)

Definition decoded (h l : ascii) : ascii :=
  ascii_of_N (Z.to_N (grammar.hex_digit_value (toupper h) * 16 + grammar.hex_digit_value (toupper l))).

(** The octets that can be decoded, or kept, without changing what the text
    means: those of reserved characters, and those of unreserved characters that
    are not parts of an IPv4 address. *)
Definition octet_ok (h l : ascii) : bool :=
  gen_delim_char (decoded h l) || sub_delim_char (decoded h l)
  || (unreserved_char (decoded h l) && not_ipv4_char (decoded h l)).

Fixpoint octets_ok (x : bytes) : bool :=
  match x with
  | [] => true
  | c :: x1 =>
      (if decide (c = "%") then match x1 with h :: l :: _ => octet_ok h l | _ => true end else true) && octets_ok x1
  end.

(** A text whose octets are in normal form. *)
Fixpoint fixed_text (ok : ascii -> bool) (x : bytes) : bool :=
  match x with
  | [] => true
  | c :: x1 =>
      if decide (c = "%") then
        match x1 with
        | h :: l :: x2 => isxdigit h && isxdigit l && bool_decide (norm_octet h l = ["%"; h; l]) && fixed_text ok x2
        | _ => false
        end
      else ok c && fixed_text ok x1
  end.

(** The parts of a parsed URI, as they are printed. *)
Definition parts_authority (a : uri_authority_t) : raw_authority :=
  RawAuthority (option_map print_userinfo (userinfo_ a)) (host_ a) (option_map to_decimal (port_ a)).

Definition parts_uri (u : uri_t) : raw_uri :=
  RawUri (scheme_ u) (option_map parts_authority (authority_ u)) (path_ u) (query_ u) (fragment_ u).

(** ** Octets *)

Lemma hex_cases (P : ascii -> ascii -> bool) :
  forallb (fun n => if isxdigit (ascii_of_nat n)
    then forallb (fun m => if isxdigit (ascii_of_nat m) then P (ascii_of_nat n) (ascii_of_nat m) else true) (seq 0 256)
    else true) (seq 0 256) = true ->
  forall h l, isxdigit h = true -> isxdigit l = true -> P h l = true.
Proof.
  intros H h l Hh Hl. rewrite forallb_forall in H.
  assert (forall c, In (nat_of_ascii c) (seq 0 256)) as Hin by (intros c; apply in_seq; pose proof (nat_ascii_bounded c); lia).
  specialize (H _ (Hin h)). rewrite ascii_nat_embedding, Hh, forallb_forall in H.
  specialize (H _ (Hin l)). by rewrite ascii_nat_embedding, Hl in H.
Qed.

(** What the normal form of an octet is, as a test. *)
Definition octet_test (h l : ascii) : bool :=
  implb (octet_ok h l)
    (if bool_decide (norm_octet h l = ["%"; toupper h; toupper l]) then
       bool_decide (norm_octet (toupper h) (toupper l) = norm_octet h l) && isxdigit (toupper h) && isxdigit (toupper l)
     else match norm_octet h l with
          | [c] => unreserved_char c && not_ipv4_char c && negb (bool_decide (c = "%"))
          | _ => false
          end)
  && isxdigit (tolower h) && isxdigit (tolower l) && bool_decide (norm_octet (tolower h) (tolower l) = norm_octet h l).

Lemma octet_tested h l : isxdigit h = true -> isxdigit l = true -> octet_test h l = true.
Proof. apply hex_cases. vm_compute. reflexivity. Qed.

Lemma octet_norm h l : isxdigit h = true -> isxdigit l = true -> octet_ok h l = true ->
  (norm_octet h l = ["%"; toupper h; toupper l] /\ norm_octet (toupper h) (toupper l) = norm_octet h l /\
   isxdigit (toupper h) = true /\ isxdigit (toupper l) = true) \/
  (exists c, norm_octet h l = [c] /\ unreserved_char c = true /\ not_ipv4_char c = true /\ c <> "%").
Proof.
  intros Hh Hl Ho.
  pose proof (octet_tested h l Hh Hl) as E. unfold octet_test in E. rewrite Ho in E. cbn [implb] in E.
  apply andb_true_iff in E as [[[E _]%andb_true_iff _]%andb_true_iff _].
  destruct (bool_decide_reflect (norm_octet h l = ["%"; toupper h; toupper l])) as [E1|_].
  - left. apply andb_true_iff in E as [[E%bool_decide_eq_true ?]%andb_true_iff ?]. done.
  - right. destruct (norm_octet h l) as [|c [|]]; try done.
    apply andb_true_iff in E as [[? ?]%andb_true_iff E]. exists c. split_and!; try done.
    intros ->. by rewrite bool_decide_eq_true_2 in E.
Qed.

Lemma octet_lower h l : isxdigit h = true -> isxdigit l = true ->
  isxdigit (tolower h) = true /\ isxdigit (tolower l) = true /\ norm_octet (tolower h) (tolower l) = norm_octet h l.
Proof.
  intros Hh Hl.
  pose proof (octet_tested h l Hh Hl) as E. unfold octet_test in E.
  apply andb_true_iff in E as [[[_ ?]%andb_true_iff ?]%andb_true_iff ?%bool_decide_eq_true]. done.
Qed.

Lemma octets_ok_app x y : octets_ok (x ++ y) = true -> octets_ok x = true /\ octets_ok y = true.
Proof.
  induction x as [|c x IH]; [done|]. cbn. intros [Hc H]%andb_true_iff. destruct (IH H) as [Hx Hy].
  rewrite Hx, Hy. split; [|done]. destruct (decide (c = "%")); [|done]. by destruct x as [|h [|l x]]; cbn in *; rewrite ?Hc.
Qed.

(** ** Normal texts *)

Lemma fixed_text_ind (ok : ascii -> bool) (P : bytes -> Prop) :
  P [] ->
  (forall c x, c <> "%" -> ok c = true -> fixed_text ok x = true -> P x -> P (c :: x)) ->
  (forall h l x, isxdigit h = true -> isxdigit l = true -> norm_octet h l = ["%"; h; l] -> fixed_text ok x = true ->
    P x -> P ("%" :: h :: l :: x)) ->
  forall x, fixed_text ok x = true -> P x.
Proof.
  intros H0 H1 H2 x. remember (length x) as n eqn:E. assert (length x <= n)%nat as Hn by lia. clear E.
  revert x Hn; induction n as [|n IH]; intros [|c x1] Hn Hx; try done; [cbn in Hn; lia|].
  cbn in Hx, Hn. destruct (decide (c = "%")) as [->|Hc].
  - destruct x1 as [|h [|l x2]]; try done.
    apply andb_true_iff in Hx as [[[Hh Hl]%andb_true_iff Ho%bool_decide_eq_true]%andb_true_iff Hx].
    apply H2; auto. apply IH; cbn in *; [lia|done].
  - apply andb_true_iff in Hx as [Ho Hx]. apply H1; auto. apply IH; [lia|done].
Qed.

Lemma fixed_text_spec ok x : fixed_text ok x = true -> text ok x = true /\ norm_text x = x.
Proof.
  intros H. pattern x. apply (fixed_text_ind ok); try done; clear x H; cbn.
  - intros c x Hc Ho _ [-> ->]. destruct (decide (c = "%")); [done|]. by rewrite Ho.
  - intros h l x Hh Hl Ho _ [-> ->]. rewrite decide_True by done. by rewrite Hh, Hl, Ho.
Qed.

Lemma fixed_text_app ok x y : fixed_text ok x = true -> fixed_text ok y = true -> fixed_text ok (x ++ y) = true.
Proof.
  intros Hx Hy. pattern x. apply (fixed_text_ind ok); try done; cbn.
  - intros c z Hc -> _ ->. by destruct (decide (c = "%")).
  - intros h l z -> -> -> _ ->. rewrite decide_True by done. by rewrite bool_decide_eq_true_2.
Qed.

Lemma norm_text_fixed (ok : ascii -> bool) x : (forall c, unreserved_char c = true -> ok c = true) -> text ok x = true -> octets_ok x = true ->
  fixed_text ok (norm_text x) = true.
Proof.
  intros Hok Hx. pattern x. apply (text_ind ok); try done; clear x Hx.
  - intros c x Hc Ho _ IH. cbn [norm_text octets_ok]. rewrite !decide_False by done.
    cbn [andb fixed_text]. rewrite decide_False by done. by rewrite Ho.
  - intros h l x Hh Hl _ IH. cbn [norm_text octets_ok]. rewrite !decide_True by done.
    intros [Ho [_ [_ H]%andb_true_iff]%andb_true_iff]%andb_true_iff. apply fixed_text_app; [|by apply IH].
    destruct (octet_norm h l Hh Hl Ho) as [(E & E2 & H1 & H2)|(c & -> & Hc & _ & Hp)].
    + rewrite E. cbn. by rewrite H1, H2, E2, E, bool_decide_eq_true_2.
    + cbn. rewrite decide_False by done. by rewrite (Hok c Hc).
Qed.

(** ** Paths *)

Lemma split_path_fixed p : fixed_text path_char p = true -> Forall (fun x => fixed_text path_char x = true) (split_path p).
Proof.
  intros Hp. pattern p. apply (fixed_text_ind path_char); try done; clear p Hp.
  - by constructor.
  - intros c p Hc Ho _ IH. cbn. destruct (decide (c = sep)); [by constructor|].
    destruct (split_path p) as [|x l]; inversion IH; subst; constructor; try done; cbn;
      rewrite decide_False by done; by rewrite Ho.
  - intros h l p Hh Hl Ho _ IH. cbn.
    assert (forall c, isxdigit c = true -> c <> sep) as Hs by (by intros c Hx ->).
    rewrite !decide_False by auto. destruct (split_path p) as [|x k]; inversion IH; subst; constructor; try done; cbn;
      rewrite Hh, Hl, bool_decide_eq_true_2 by done; done.
Qed.

Lemma fold_components_Forall (P : bytes -> Prop) abs v cs : Forall P cs -> Forall P v ->
  Forall P (fold_components abs v cs).
Proof.
  intros H. revert v; induction H as [|x cs Hx H IH]; intros v Hv; [done|]. cbn. apply IH. unfold add_component.
  destruct (decide (x = parent_literal)).
  - destruct (last v) as [y|] eqn:E; [|destruct abs; [done|apply Forall_app; by repeat constructor]].
    destruct (decide (y = parent_literal)); [apply Forall_app; by repeat constructor|].
    apply last_snoc_inv in E. rewrite E in Hv. by apply Forall_app in Hv as [? _].
  - destruct (decide _); [done|]. apply Forall_app; by repeat constructor.
Qed.

Lemma join_components_fixed v : Forall (fun x => fixed_text path_char x = true) v ->
  fixed_text path_char (join_components v) = true.
Proof.
  induction 1 as [|x v Hx H IH]; [done|]. destruct v as [|y v]; [done|].
  change (join_components (x :: y :: v)) with (x ++ sep :: join_components (y :: v)).
  apply fixed_text_app; [done|]. exact IH.
Qed.

Lemma lexically_normal_path_fixed p : fixed_text path_char p = true ->
  fixed_text path_char (lexically_normal_path p) = true.
Proof.
  intros Hp. rewrite lexically_normal_path_fold. destruct p as [|c p1]; [done|]. cbn iota. set (p := c :: p1) in *.
  assert (Forall (fun x => fixed_text path_char x = true) (path_components p)) as Hc
    by (apply fold_components_Forall; [by apply split_path_fixed|done]).
  cbv zeta. destruct (path_components p) as [|x v]; [by destruct (bool_decide _)|].
  apply fixed_text_app; [by destruct (bool_decide _)|].
  apply fixed_text_app; [by apply join_components_fixed|by destruct (_ && _)].
Qed.

Lemma normal_path_no_double q : normal_path q -> match q with c :: d :: _ => c = sep -> d <> sep | _ => True end.
Proof.
  intros [->|[->|(abs & v & slash & Hv & Hv0 & Hs & ->)]]; [done|done|].
  destruct v as [|x v]; [rewrite (Hv0 eq_refl); destruct slash; [by destruct (Hs eq_refl) as (? & ? & _)|done]|].
  destruct (join_components_ends (x :: v)) as (Hh & Hj & _); [done|by apply (component_noseps abs)|].
  destruct (join_components (x :: v)) as [|c [|d l]]; [done|destruct abs, slash; try done; cbn [app head] in *; congruence|].
  destruct abs; cbn [app head] in *; congruence.
Qed.

Lemma normal_path_head c p : head (lexically_normal_path (c :: p)) = Some sep <-> c = sep.
Proof.
  rewrite lexically_normal_path_fold. cbn iota. set (q := c :: p). cbv zeta.
  destruct (bool_decide_reflect (head q = Some sep)) as [H|H].
  - injection H as ->. by destruct (path_components q).
  - split; [|intros ->; done]. pose proof (path_components_normal q) as Hv.
    destruct (path_components q) as [|x v]; [done|].
    destruct (join_components_ends (x :: v)) as (Hh & Hj & _); [done|by apply (component_noseps _ _ Hv)|].
    cbn [app]. destruct (join_components (x :: v)) as [|d l]; [done|]. intros E. by destruct Hh.
Qed.

Lemma hier_path_ok a p : hier_ok a p = true -> octets_ok p = true ->
  let q := lexically_normal_path (norm_text p) in
  fixed_text path_char q = true /\
  (forall b, (match a with None => b = None | Some _ => exists b', b = Some b' /\ raw_authority_ok b' = true end) ->
    hier_ok b q = true).
Proof.
  intros [Ht Hh]%andb_true_iff Ho q.
  assert (fixed_text path_char q = true) as Hq.
  { apply lexically_normal_path_fixed, norm_text_fixed; [|done|done]. intros c Hc.
    unfold path_char, pchar_char, regname_char. by rewrite Hc. }
  split; [done|]. intros b Hb. unfold hier_ok. destruct (fixed_text_spec _ _ Hq) as [-> _]. cbn [andb].
  destruct a as [a|].
  - destruct Hb as (b' & -> & Hb). destruct p as [|c p]; [done|].
    apply andb_true_iff in Hh as [_ Hc%bool_decide_eq_true]. subst c.
    assert (head q = Some sep) as Hs.
    { unfold q. cbn [norm_text]. rewrite decide_False by done. by apply normal_path_head. }
    destruct q as [|d q']; [done|]. injection Hs as ->. by rewrite Hb, bool_decide_eq_true_2.
  - subst b. pose proof (normal_path_no_double q (lexically_normal_path_normal _)) as Hd.
    destruct q as [|c [|d q']]; try done. destruct (bool_decide_reflect (c = "/")) as [->|]; [|done].
    rewrite bool_decide_eq_false_2; [done|]. by apply Hd.
Qed.

(** ** Hosts in lower case *)

(** A parser that does not make a difference between the cases. *)
Class CaseInsensitive {A} (pa : parse A) : Prop :=
  case_insensitive b :
    snd (pa (to_lower b)) = to_lower (snd (pa b)) /\
    match fst (pa b), fst (pa (to_lower b)) with Some _, Some _ | None, None => True | _, _ => False end.

#[local] Arguments to_lower : simpl never.

Section case_insensitive.
Context {A B : Type}.

Lemma char_class_lower p : (forall c, p (tolower c) = p c) -> CaseInsensitive (char_class p).
Proof.
  intros Hp [|c b]; [done|]. change (to_lower (c :: b)) with (tolower c :: to_lower b).
  rewrite !char_class_cons, Hp. by destruct (p c).
Qed.

#[local] Instance fmap_lower (f : A -> B) pa `{!CaseInsensitive pa} : CaseInsensitive (fmap_parse f pa).
Proof.
  intros b. unfold fmap_parse. pose proof (case_insensitive b) as [H1 H2].
  destruct (pa b) as [[x|] it], (pa (to_lower b)) as [[y|] it2]; cbn in *; auto.
Qed.

#[local] Instance product_lower (pa : parse A) (pb : parse B) `{!CaseInsensitive pa, !CaseInsensitive pb} :
  CaseInsensitive (product pa pb).
Proof.
  intros b. unfold product. pose proof (case_insensitive (pa := pa) b) as [H1 H2].
  destruct (pa b) as [[x|] it], (pa (to_lower b)) as [[y|] it2]; cbn in *; try done. subst it2.
  pose proof (case_insensitive (pa := pb) it) as [H3 H4].
  destruct (pb it) as [[x2|] it3], (pb (to_lower it)) as [[y2|] it4]; cbn in *; try done; by subst.
Qed.

#[local] Instance sum_lower (pa : parse A) (pb : parse B) `{!CaseInsensitive pa, !CaseInsensitive pb} :
  CaseInsensitive (sum pa pb).
Proof.
  intros b. unfold sum. pose proof (case_insensitive (pa := pa) b) as [H1 H2].
  destruct (pa b) as [[x|] it], (pa (to_lower b)) as [[y|] it2]; cbn in *; try done. subst it2.
  pose proof (case_insensitive (pa := pb) it) as [H3 H4].
  destruct (pb it) as [[x2|] it3], (pb (to_lower it)) as [[y2|] it4]; cbn in *; try done; by subst.
Qed.

Lemma quantify_loop_lower (pa : parse A) `{!CaseInsensitive pa} n b :
  length (fst (quantify_loop n pa (to_lower b))) = length (fst (quantify_loop n pa b)) /\
  snd (quantify_loop n pa (to_lower b)) = to_lower (snd (quantify_loop n pa b)).
Proof.
  revert b; induction n as [|n IH]; intros b; cbn; [done|].
  pose proof (case_insensitive (pa := pa) b) as [H1 H2].
  destruct (pa b) as [[x|] it], (pa (to_lower b)) as [[y|] it2]; cbn in *; try done. subst it2.
  specialize (IH it). destruct (quantify_loop n pa it), (quantify_loop n pa (to_lower it)); cbn in *.
  destruct IH as [-> ->]. done.
Qed.

#[local] Instance quantify_lower (pa : parse A) `{!CaseInsensitive pa} min max : CaseInsensitive (quantify pa min max).
Proof.
  intros b. unfold quantify. assert (length (to_lower b) = length b) as -> by apply length_map.
  set (n := match max with Some m => m | None => length b end).
  destruct (quantify_loop_lower pa n b) as [H1 H2].
  destruct (quantify_loop n pa b) as [v it], (quantify_loop n pa (to_lower b)) as [w it2]; cbn in *.
  rewrite H1, H2. by destruct (min <=? length v)%nat.
Qed.
End case_insensitive.

#[local] Existing Instances fmap_lower product_lower sum_lower quantify_lower.

#[local] Instance unit_lower : CaseInsensitive unit_parse.
Proof. done. Qed.

#[local] Instance power_lower {A} (pa : parse A) `{!CaseInsensitive pa} n : CaseInsensitive (power pa n).
Proof. induction n; cbn; apply _. Qed.

Ltac lower_char :=
  apply char_class_lower;
  let c := fresh "c" in intros c; destruct c as [[] [] [] [] [] [] [] []]; vm_compute; reflexivity.

#[local] Hint Extern 0 (CaseInsensitive (filter_parse ?p symbol)) => lower_char : typeclass_instances.
#[local] Hint Extern 0 (CaseInsensitive (char_class ?p)) => lower_char : typeclass_instances.
#[local] Hint Extern 0 (CaseInsensitive (literals ?cs)) => unfold literals, literal : typeclass_instances.

#[local] Instance dec_octet_lower : CaseInsensitive grammar.dec_octet.
Proof. unfold grammar.dec_octet, str_parse. grammar_chars. apply _. Qed.
#[local] Instance ipv4address_lower : CaseInsensitive grammar.ipv4address.
Proof. unfold grammar.ipv4address, str_parse. grammar_chars. apply _. Qed.
#[local] Instance h16_lower : CaseInsensitive grammar.h16.
Proof. unfold grammar.h16, str_parse, between. grammar_chars. apply _. Qed.
#[local] Instance h16colon_lower : CaseInsensitive grammar.h16colon.
Proof. unfold grammar.h16colon, str_parse. grammar_chars. apply _. Qed.
#[local] Instance ls32_lower : CaseInsensitive grammar.ls32.
Proof. unfold grammar.ls32, str_parse. apply _. Qed.
#[local] Instance dblcolon_lower : CaseInsensitive grammar.dblcolon.
Proof. unfold grammar.dblcolon. apply _. Qed.
#[local] Instance h16s_lower n : CaseInsensitive (grammar.h16s n).
Proof. unfold grammar.h16s, between. grammar_chars. apply _. Qed.
#[local] Instance ipv6address_lower : CaseInsensitive grammar.ipv6address.
Proof. unfold grammar.ipv6address, str_parse, opt. apply _. Qed.

Lemma case_insensitive_Some {A} (pa : parse A) `{!CaseInsensitive pa} b a it : pa b = (Some a, it) ->
  exists a', pa (to_lower b) = (Some a', to_lower it).
Proof.
  intros E. pose proof (case_insensitive (pa := pa) b) as [H1 H2]. rewrite E in H1, H2.
  destruct (pa (to_lower b)) as [[y|] it2]; [|done]. cbn in *. subst. by eexists.
Qed.

Lemma ipvfuture_lower b a it : grammar.ipvfuture b = (Some a, it) ->
  exists a', grammar.ipvfuture (to_lower b) = (Some a', to_lower it).
Proof.
  unfold grammar.ipvfuture, str_parse, at_least.
  set (pb := product (quantify grammar.hexdig 1 None) _). assert (CaseInsensitive pb) as Hb
    by (unfold pb; grammar_chars; apply _). clearbody pb.
  unfold fmap_parse, product. destruct b as [|c b]; [done|]. rewrite literal_cons.
  destruct (bool_decide_reflect (c = "v")) as [->|]; [|done].
  destruct (pb b) as [[x|] it2] eqn:E; [|done]. intros [= _ <-].
  destruct (case_insensitive_Some pb b x it2 E) as [y E2].
  change (to_lower ("v" :: b)) with ("v" :: to_lower b). rewrite literal_cons, bool_decide_eq_true_2, E2 by done.
  by eexists.
Qed.

Lemma ip_literal_lower h : accepts grammar.ip_literal h = true -> accepts grammar.ip_literal (to_lower h) = true.
Proof.
  intros [v E]%accepts_Some. apply accepts_Some. apply ip_literal_spec in E as (y & w & -> & E & _).
  enough (exists w', sum grammar.ipv6address grammar.ipvfuture (to_lower y) = (Some w', [])) as [w' E'].
  { exists ("[" :: to_lower y ++ ["]"]). apply ip_literal_spec. exists (to_lower y), w'. split; [|done].
    unfold to_lower. cbn. by rewrite map_app. }
  revert E. unfold sum. pose proof (case_insensitive (pa := grammar.ipv6address) y) as [H1 H2].
  destruct (grammar.ipv6address y) as [[a|] it] eqn:E6.
  - intros [= _ ->]. destruct (grammar.ipv6address (to_lower y)) as [[a'|] it']; [|done]. cbn in *. subst. by eexists.
  - apply regular_None in E6; [|apply _]. subst it.
    destruct (grammar.ipvfuture y) as [[a|] it] eqn:Ef; [|done]. intros [= _ ->].
    apply ipvfuture_lower in Ef as [a' Ef].
    destruct (grammar.ipv6address (to_lower y)) as [[?|] it']; [done|]. cbn in *. subst it'. rewrite Ef. by eexists.
Qed.

Lemma tolower_idem c : tolower (tolower c) = tolower c.
Proof. destruct c as [[] [] [] [] [] [] [] []]; vm_compute; reflexivity. Qed.

Lemma to_lower_idem s : to_lower (to_lower s) = to_lower s.
Proof. unfold to_lower. rewrite map_map. apply map_ext, tolower_idem. Qed.

(** A class that contains the lower case of its characters. *)
Lemma tolower_class (p : ascii -> bool) :
  forallb (fun n => implb (p (ascii_of_nat n)) (p (tolower (ascii_of_nat n)))) (seq 0 256) = true ->
  forall c, p c = true -> p (tolower c) = true.
Proof. intros H c Hc. pose proof (char_cases (fun c => implb (p c) (p (tolower c))) H c) as E. cbn in E. by rewrite Hc in E. Qed.

Lemma regname_tolower c : regname_char c = true -> regname_char (tolower c) = true.
Proof. apply tolower_class. vm_compute. reflexivity. Qed.

Lemma not_ipv4_tolower c : not_ipv4_char (tolower c) = not_ipv4_char c.
Proof. destruct c as [[] [] [] [] [] [] [] []]; vm_compute; reflexivity. Qed.

Lemma ipv4_tolower c : not_ipv4_char c = false -> tolower c = c.
Proof. destruct c as [[] [] [] [] [] [] [] []]; vm_compute; congruence. Qed.

Lemma tolower_pct c : tolower c = "%" -> c = "%".
Proof. destruct c as [[] [] [] [] [] [] [] []]; vm_compute; congruence. Qed.

Lemma fixed_text_lower f : fixed_text regname_char f = true ->
  text regname_char (to_lower f) = true /\ to_lower (norm_text (to_lower f)) = to_lower f.
Proof.
  intros H. pattern f. apply (fixed_text_ind regname_char); try done; clear f H.
  - intros c f Hc Ho _ [IH1 IH2]. change (to_lower (c :: f)) with (tolower c :: to_lower f). cbn [text norm_text].
    rewrite !decide_False by (by intros ?%tolower_pct). rewrite (regname_tolower c Ho), IH1. split; [done|].
    change (to_lower (tolower c :: norm_text (to_lower f))) with (tolower (tolower c) :: to_lower (norm_text (to_lower f))).
    by rewrite tolower_idem, IH2.
  - intros h l f Hh Hl Ho _ [IH1 IH2]. destruct (octet_lower h l Hh Hl) as (Hh' & Hl' & E).
    change (to_lower ("%" :: h :: l :: f)) with ("%" :: tolower h :: tolower l :: to_lower f). cbn [text norm_text].
    rewrite !decide_True, Hh', Hl', IH1, E, Ho by done. split; [done|].
    change (to_lower (["%"; h; l] ++ norm_text (to_lower f))) with ("%" :: tolower h :: tolower l :: to_lower (norm_text (to_lower f))).
    by rewrite IH2.
Qed.

(** The normal form keeps where a possible IPv4 address ends. *)
Lemma ipv4_norm h : text regname_char h = true -> octets_ok h = true -> fst (grammar.ipv4address h) = None ->
  fst (grammar.ipv4address (to_lower (norm_text h))) = None.
Proof.
  intros Ht Ho E.
  assert (forall y, unstopped not_ipv4_char y -> "%" ∉ y /\ to_lower y = y /\ text regname_char y = true) as Hy.
  { unfold unstopped. intros y Hy. assert ("%" ∉ y) as Hp by (intros Hi; rewrite Forall_forall in Hy; specialize (Hy _ Hi); done).
    split; [done|]. split; [|apply text_chars; [|done]; eapply Forall_impl; [exact Hy|]; intros c; apply ipv4_regname_char].
    clear Hp. induction Hy as [|c y Hc Hy IH]; [done|]. change (to_lower (c :: y)) with (tolower c :: to_lower y).
    by rewrite ipv4_tolower, IH. }
  destruct (split_stop not_ipv4_char h) as [H|(y & c & z & -> & H & Hc)]; destruct (Hy _ H) as (Hp & Hl & Hty).
  - by rewrite norm_text_plain, Hl.
  - rewrite (blocked_None not_ipv4_char grammar.ipv4address y (c :: z) H Hc) in E. rewrite (norm_text_app regname_char) by done.
    rewrite norm_text_plain by done. unfold to_lower in *. rewrite map_app, Hl.
    rewrite (blocked_None not_ipv4_char grammar.ipv4address y _ H); [done|]. apply octets_ok_app in Ho as [_ Ho].
    assert (text regname_char (c :: z) = true) as Hcz.
    { clear -Ht Hty. revert Ht. pattern y. apply (text_ind regname_char); [..|done]; clear y Hty; [done|..].
      - intros d x Hd _ _ IH. cbn. rewrite decide_False by done. intros [_ ?]%andb_true_iff. by apply IH.
      - intros a b x _ _ _ IH. cbn. intros [_ ?]%andb_true_iff. by apply IH. }
    cbn in Hcz, Ho. cbn [norm_text]. destruct (decide (c = "%")) as [->|Hcp].
    + destruct z as [|a [|b z]]; try done. apply andb_true_iff in Hcz as [[Ha Hb]%andb_true_iff _].
      apply andb_true_iff in Ho as [Ho _].
      destruct (octet_norm a b Ha Hb Ho) as [(-> & _)|(d & -> & _ & Hd & _)]; [done|]. cbn. by rewrite not_ipv4_tolower.
    + cbn. by rewrite not_ipv4_tolower.
Qed.

Lemma host_normal h : host_ok h = true -> octets_ok h = true ->
  host_ok (norm_host h) = true /\ norm_host (norm_host h) = norm_host h.
Proof.
  intros Hh Ho. unfold norm_host. destruct (host_ok_cases h Hh) as [[v E]|[[v E]|[Ht E]]].
  - assert (text regname_char h = false /\ text regname_char (to_lower h) = false) as [-> ->]
      by (by apply ip_literal_spec in E as (y & w & -> & _)).
    rewrite to_lower_idem. split; [|done]. unfold host_ok. rewrite ip_literal_lower; [done|]. apply accepts_Some. by exists v.
  - destruct (ipv4_text h v E) as [Ht Hp]. destruct (ipv4address_chars h v E) as (_ & _ & H).
    rewrite Ht, norm_text_plain by done. assert (to_lower h = h) as El; [|by rewrite El, Ht, norm_text_plain, El].
    clear - H. induction H as [|c y Hc Hy IH]; [done|]. change (to_lower (c :: y)) with (tolower c :: to_lower y).
    by rewrite ipv4_tolower, IH.
  - rewrite Ht. pose proof (ipv4_norm h Ht Ho E) as E2.
    assert (fixed_text regname_char (norm_text h) = true) as Hf
      by (apply norm_text_fixed; [|done|done]; unfold regname_char; by intros c ->).
    destruct (fixed_text_lower _ Hf) as [Ht2 El]. rewrite Ht2, El. split; [|done].
    unfold host_ok. by rewrite Ht2, E2, orb_true_r.
Qed.

(** ** Authorities and the whole URI *)

Lemma print_make_userinfo s : print_userinfo (make_userinfo s) = s.
Proof.
  unfold make_userinfo. destruct (find_char ":" s) as [n|] eqn:E.
  - destruct (find_char_take ":" s n E) as [H1 _]. unfold print_userinfo, insert, print_bytes.
    cbn [username_ password_]. rewrite app_nil_r. by rewrite H1 at 3.
  - apply app_nil_r.
Qed.

Lemma port_normal p n : forallb isdigit p = true -> from_string_uint16 p = Some n ->
  forallb isdigit (to_decimal n) = true /\ from_string_uint16 (to_decimal n) = Some n.
Proof.
  intros Hp E. unfold from_string_uint16 in E. destruct p as [|c p]; [done|].
  destruct (decimal_value (c :: p) <=? 65535)%Z eqn:El; [|done]. injection E as <-.
  assert (0 <= decimal_value (c :: p))%Z as H0.
  { generalize (c :: p) Hp. clear. intros p Hp. induction p as [|d p IH] using rev_ind; [done|].
    rewrite forallb_app in Hp. apply andb_true_iff in Hp as [Hp [Hd _]%andb_true_iff].
    rewrite decimal_value_snoc. specialize (IH Hp). unfold isdigit in Hd. unfold digit_value. lia. }
  destruct (to_decimal_spec (decimal_value (c :: p))) as (Hne & Hd & Hv); [lia|]. split.
  - apply forallb_forall. intros d Hi. rewrite Forall_forall in Hd. apply Hd. by apply list_elem_of_In.
  - unfold from_string_uint16. destruct (to_decimal _) as [|d ds]; [done|]. by rewrite Hv, El.
Qed.

Lemma authority_normal a : raw_authority_ok a = true -> octets_ok (print_raw_authority a) = true ->
  raw_authority_ok (parts_authority (norm_authority a)) = true /\
  norm_authority (parts_authority (norm_authority a)) = norm_authority a /\
  print_raw_authority (parts_authority (norm_authority a)) = print_authority (norm_authority a).
Proof.
  destruct a as [u h p]. unfold raw_authority_ok, print_raw_authority, norm_authority, parts_authority, print_authority.
  cbn [raw_userinfo raw_host raw_port userinfo_ host_ port_].
  intros [[Hu Hh]%andb_true_iff Hp]%andb_true_iff [Ou [Oh _]%octets_ok_app]%octets_ok_app.
  destruct (host_normal h Hh Oh) as [-> ->].
  assert (match option_map print_userinfo (option_map (fun u => make_userinfo (norm_text u)) u) with
          | Some u => text userinfo_char u = true /\ norm_text u = u
          | None => True end) as Hu2.
  { destruct u as [u|]; [|done]. cbn. rewrite print_make_userinfo. apply octets_ok_app in Ou as [Ou _].
    apply fixed_text_spec, norm_text_fixed; [|done|done]. unfold userinfo_char, regname_char. by intros c ->. }
  assert (match p with Some p => from_string_uint16 p | None => None end = None \/ exists n,
    match p with Some p => from_string_uint16 p | None => None end = Some n /\
    forallb isdigit (to_decimal n) = true /\ from_string_uint16 (to_decimal n) = Some n) as Hp2.
  { destruct p as [p|]; [|by left]. destruct (from_string_uint16 p) as [n|] eqn:E; [right|by left].
    exists n. split; [done|]. by apply (port_normal p). }
  split_and!.
  - destruct Hp2 as [->|(n & -> & Hn & _)]; destruct u as [u|]; cbn in *; [by destruct Hu2 as [-> _]|done|
      destruct Hu2 as [-> _]|]; by rewrite Hn.
  - f_equal; [|by destruct Hp2 as [->|(n & -> & _ & ?)]]. destruct u as [u|]; [|done]. cbn in *.
    destruct Hu2 as [_ ->]. by rewrite print_make_userinfo.
  - f_equal; [by destruct u; cbn|]. f_equal. destruct Hp2 as [->|(n & -> & _)]; [done|].
    cbn. by rewrite app_nil_r.
Qed.

(** The parts of what is parsed are accepted, and have the same normal form. *)
Lemma parts_normal r : raw_ok r = true -> octets_ok (print_raw r) = true ->
  raw_ok (parts_uri (norm_uri r)) = true /\ norm_uri (parts_uri (norm_uri r)) = norm_uri r /\
  print_raw (parts_uri (norm_uri r)) = print_uri (norm_uri r).
Proof.
  destruct r as [sch a p q f]. unfold raw_ok, print_raw, norm_uri, parts_uri, print_uri.
  cbn [raw_scheme raw_authority_part raw_path raw_query raw_fragment scheme_ authority_ path_ query_ fragment_].
  intros [[[Hs Hh]%andb_true_iff Hq]%andb_true_iff Hf]%andb_true_iff.
  change (":" :: ?x) with ([":"] ++ x).
  intros [_ [_ [Ohp [Oq Of]%octets_ok_app]%octets_ok_app]%octets_ok_app]%octets_ok_app.
  unfold print_raw_hier in Ohp. apply octets_ok_app in Ohp as [Oa Op].
  pose proof (hier_path_ok a p Hh Op) as [Hp Hhp]. destruct (fixed_text_spec _ _ Hp) as [_ Ep].
  assert (scheme_ok (to_lower sch) = true /\ to_lower (to_lower sch) = to_lower sch) as [Hs2 Hs3].
  { split; [|apply to_lower_idem]. destruct sch as [|c sch]; [done|].
    change (to_lower (c :: sch)) with (tolower c :: map tolower sch). cbn in *.
    apply andb_true_iff in Hs as [Hc Hs]. apply andb_true_iff. split.
    - apply tolower_class; [vm_compute; reflexivity|done].
    - apply forallb_forall. intros d' (d & <- & Hd)%in_map_iff. rewrite forallb_forall in Hs.
      apply tolower_class; [vm_compute; reflexivity|by apply Hs]. }
  assert (forall d t, part_ok t = true -> octets_ok (print_raw_part d t) = true ->
    part_ok (option_map norm_text t) = true /\ option_map norm_text (option_map norm_text t) = option_map norm_text t) as Hpart.
  { intros d [t|]; [|done]. cbn [print_raw_part part_ok option_map]. intros Ht [_ Ot]%(octets_ok_app [d]).
    destruct (fixed_text_spec query_char (norm_text t)) as [-> ->]; [|done]. apply norm_text_fixed; [|done|done].
    unfold query_char, path_char, pchar_char, regname_char. by intros c ->. }
  destruct (Hpart _ _ Hq Oq) as [-> ->], (Hpart _ _ Hf Of) as [-> ->].
  rewrite Hs2, Hs3, Ep, (normal_path_fixed (lexically_normal_path (norm_text p))) by apply lexically_normal_path_normal.
  destruct a as [a|]; cbn [option_map].
  - assert (raw_authority_ok a = true) as Ha by (by unfold hier_ok in Hh; destruct (text path_char p), p; cbn in Hh; try done; apply andb_true_iff in Hh as [? _]).
    destruct (authority_normal a Ha (proj2 (octets_ok_app ["/"; "/"] _ Oa))) as (H1 & -> & H3).
    rewrite Hhp by (by eexists). split_and!; [done|done|]. unfold print_raw_hier, insert, print_bytes. rewrite H3.
    destruct q, f; cbn; rewrite ?app_nil_r, <- ?app_assoc; done.
  - rewrite Hhp by done. split_and!; [done|done|]. unfold print_raw_hier, insert, print_bytes.
    destruct q, f; cbn; rewrite ?app_nil_r, <- ?app_assoc; done.
Qed.

(** C9. The text of an URI that was parsed is parsed to the same URI, so that the
    normalization is idempotent, when the octets of the original text encode
    reserved characters, or unreserved ones that are not parts of IPv4 addresses. *)
Theorem uri_roundtrip s u :
  octets_ok s = true -> uri s = Some u -> uri (print_uri u) = Some u.
Proof.
  intros Ho (r & -> & Hr & ->)%uri_exact. destruct (parts_normal r Hr Ho) as (H1 & H2 & <-).
  apply uri_exact. by exists (parts_uri (norm_uri r)).
Qed.

Lemma uri_roundtrip_witness :
  uri (print_uri (mkUri (lit "tcp") (Some (mkAuthority None (lit "a%2fb.org") (Some 80%Z))) (lit "/c") (Some (lit "q")) None)) =
  Some (mkUri (lit "tcp") (Some (mkAuthority None (lit "a%2fb.org") (Some 80%Z))) (lit "/c") (Some (lit "q")) None).
Proof.
  refine (uri_roundtrip (lit "TCP://A%2fb.org:0080/x/.././c?%71") _ _ _); vm_compute; reflexivity.
Defined.

(** ** Octets that are decoded though they may not be written *)

Definition octet_lost (h l : ascii) : bool :=
  gen_delim_char (decoded h l) || sub_delim_char (decoded h l) || unreserved_char (decoded h l)
  || (bool_decide (uri (lit "a:%" ++ [h; l]) = Some (mkUri (lit "a") None [decoded h l] None None))
      && bool_decide (uri (lit "a:" ++ [decoded h l]) = None)).

Lemma octet_lost_all h l : isxdigit h = true -> isxdigit l = true -> octet_lost h l = true.
Proof. apply hex_cases. vm_compute. reflexivity. Qed.

(** An octet that encodes a character neither reserved nor unreserved, be it a
    space or the percent sign, is decoded, and the text of the URI is not an URI
    any more. *)
Theorem uri_octet_decoded h l :
  isxdigit h = true -> isxdigit l = true ->
  gen_delim_char (decoded h l) = false -> sub_delim_char (decoded h l) = false -> unreserved_char (decoded h l) = false ->
  let u := mkUri (lit "a") None [decoded h l] None None in
  uri (lit "a:%" ++ [h; l]) = Some u /\ uri (print_uri u) = None.
Proof.
  intros Hh Hl Hg Hs Hu. pose proof (octet_lost_all h l Hh Hl) as E. unfold octet_lost in E.
  rewrite Hg, Hs, Hu in E. apply andb_true_iff in E as [E1%bool_decide_eq_true E2%bool_decide_eq_true].
  split; [exact E1|]. exact E2.
Qed.

Lemma uri_octet_decoded_witness : isxdigit "2" = true /\
  uri (lit "a:%25") = Some (mkUri (lit "a") None ["%"] None None).
Proof. split; [reflexivity|]. apply (uri_octet_decoded "2" "5"); vm_compute; reflexivity. Defined.
