(* ===== verification/UriEndpoints.v ===== *)
(** * UriEndpoints: the order of endpoints and the endpoints of services

    Laws of the order [isPreferredEndpoint], and the model of the end of
    [src/messaging/servicedirectory.cpp] that uses it: the endpoints that
    [services] and [service] return. *)
From S2P Require Import Prelude SortedMap CString Parse UriGrammar Uri ServiceDirectory.
From Stdlib Require Import Ascii Sorting.Sorted Sorting.Permutation.
#[local] Open Scope char_scope.
#[local] Open Scope list_scope.

(** ** Definitions *)

Definition pair_compare {A B} (f : A -> A -> comparison) (g : B -> B -> comparison) (x y : A * B) : comparison :=
  lex (f (fst x) (fst y)) (g (snd x) (snd y)).

Section sort.
Context {A : Type} (lt : A -> A -> bool).

(** [std::sort], as an insertion sort. *)
Fixpoint sort_insert (x : A) (l : list A) : list A :=
  match l with
  | [] => [x]
  | y :: l' => if lt x y then x :: l else y :: sort_insert x l'
  end.

Fixpoint sort (l : list A) : list A :=
  match l with
  | [] => []
  | x :: l' => sort_insert x (sort l')
  end.

(** [std::unique], on elements that can be compared. *)
Fixpoint unique `{EqDecision A} (l : list A) : list A :=
  match l with
  | x :: ((y :: _) as l') => if decide (x = y) then unique l' else x :: unique l'
  | _ => l
  end.

(** [std::includes], on sorted ranges. *)
Fixpoint includes (a b : list A) : bool :=
  match b, a with
  | [], _ => true
  | _ :: _, [] => false
  | y :: b', x :: a' => if lt y x then false else if lt x y then includes a' b else includes a' b'
  end.
End sort.

Section endpoints.
Context (is_loopback : bytes -> bool).

Definition uri_lt (x y : uri_t) : bool := match uri_compare x y with Lt => true | _ => false end.

(** [copyRelativeEndpoints] fails when the name of a service does not make an URI:
    [None] is the failure of the assertion. *)
Fixpoint copyRelativeEndpoints (candidates : list (ServiceInfo uri_t)) (base : list uri_t) : option (list uri_t) :=
  match candidates with
  | [] => Some []
  | candidate :: candidates' =>
      let candEp := unique (sort uri_lt (endpoints candidate)) in
      if includes uri_lt base candEp then
        epUri ← uri (uriQiScheme ++ lit ":" ++ name candidate);
        out ← copyRelativeEndpoints candidates' base;
        Some (epUri :: out)
      else copyRelativeEndpoints candidates' base
  end.

Definition finalize (d : @ServiceDirectory uri_t) (info : ServiceInfo uri_t) (relativeEndpointsUri : bool) :
    option (ServiceInfo uri_t) :=
  let base := unique (sort uri_lt (List.filter (fun u => negb (isRelativeEndpoint u)) (endpoints info))) in
  relative ← (if relativeEndpointsUri
              then copyRelativeEndpoints (map snd (map_to_list (connectedServices d))) base
              else Some []);
  Some (setEndpoints (sort (isPreferredEndpoint is_loopback) (base ++ relative)) info).

(** The partitions of the endpoints, in the order of preference. *)
Definition preference (u : uri_t) : Z :=
  if isRelativeEndpoint u then (if isSdRelativeEndpoint u then 0 else 1)%Z
  else if hasAuthority u then (if hasLoopbackAddress is_loopback u then 2 else 3)%Z
  else 4%Z.

(** ** The order *)


#[export] Instance str_ordering : Ordering str_compare.
Proof.
  split.
  - induction x as [|c x IH]; intros [|d y]; cbn; try done.
    destruct (code c ?= code d)%Z eqn:E; [|split; [done|]..].
    + apply Z.compare_eq_iff in E. rewrite IH. split; [intros ->|by intros [= _ ->]]. f_equal.
      unfold code in E. apply N2Z.inj in E. by rewrite <- (ascii_N_embedding c), E, ascii_N_embedding.
    + intros [= -> _]. by rewrite Z.compare_refl in E.
    + intros [= -> _]. by rewrite Z.compare_refl in E.
  - induction x as [|c x IH]; intros [|d y]; cbn; try done. rewrite (Z.compare_antisym (code c)).
    destruct (code c ?= code d)%Z; cbn; auto.
  - induction x as [|c x IH]; intros [|d y] [|e z]; cbn; try done.
    specialize (IH y z). revert IH. generalize (code c), (code d), (code e). clear. intros i j k IH.
    destruct (i ?= j)%Z eqn:E1; [apply Z.compare_eq_iff in E1 as ->; by destruct (j ?= k)%Z; auto| |done].
    intros _. destruct (j ?= k)%Z eqn:E2; [apply Z.compare_eq_iff in E2 as ->; by rewrite E1| |done].
    intros _. rewrite Z.compare_lt_iff in E1, E2. by rewrite (proj2 (Z.compare_lt_iff i k) (Z.lt_trans _ _ _ E1 E2)).
Qed.

#[export] Instance opt_ordering {A} (f : A -> A -> comparison) `{!Ordering f} : Ordering (opt_compare f).
Proof.
  split.
  - intros [x|] [y|]; cbn; try done. rewrite (cmp_eq x y). split; congruence.
  - intros [x|] [y|]; cbn; try done. apply cmp_anti.
  - intros [x|] [y|] [z|]; cbn; try done. apply cmp_trans.
Qed.

#[export] Instance pair_ordering {A B} (f : A -> A -> comparison) (g : B -> B -> comparison)
  `{!Ordering f, !Ordering g} : Ordering (pair_compare f g).
Proof.
  split; unfold pair_compare, lex.
  - intros [a b] [a' b']. cbn. pose proof (cmp_eq (f := f) a a') as E. pose proof (cmp_eq (f := g) b b') as E2.
    destruct (f a a'); split; try done; try (intros [= -> ->]; naive_solver). intros H. f_equal; naive_solver.
  - intros [a b] [a' b']. cbn. rewrite (cmp_anti (f := f) a a'), (cmp_anti (f := g) b b'). by destruct (f a a').
  - intros [a b] [a' b'] [a'' b'']. cbn.
    destruct (f a a') eqn:E1; [| |done].
    + apply (cmp_eq (f := f)) in E1 as ->. destruct (f a' a''); [|done..]. apply (cmp_trans (f := g)).
    + intros _. destruct (f a' a'') eqn:E2; [apply (cmp_eq (f := f)) in E2 as ->; by rewrite E1| |done].
      by rewrite (cmp_trans (f := f) a a' a'' E1 E2).
Qed.

(** The order that an injection gives. *)
Lemma injection_ordering {A B} (g : B -> A) (f : A -> A -> comparison) `{!Ordering f} :
  (forall x y, g x = g y -> x = y) -> Ordering (fun x y => f (g x) (g y)).
Proof.
  intros Hg. split.
  - intros x y. rewrite cmp_eq. split; [apply Hg|by intros ->].
  - intros x y. apply cmp_anti.
  - intros x y z. apply cmp_trans.
Qed.

#[export] Instance userinfo_ordering : Ordering userinfo_compare.
Proof.
  apply (injection_ordering (fun u => (username_ u, password_ u)) (pair_compare str_compare (opt_compare str_compare))).
  intros [] [] [= -> ->]. done.
Qed.

#[export] Instance authority_ordering : Ordering authority_compare.
Proof.
  apply (injection_ordering (fun a => (userinfo_ a, (host_ a, port_ a)))
    (pair_compare (opt_compare userinfo_compare) (pair_compare str_compare (opt_compare Z.compare)))).
  intros [] [] [= -> -> ->]. done.
Qed.

#[export] Instance uri_ordering : Ordering uri_compare.
Proof.
  apply (injection_ordering (fun u => (scheme_ u, (authority_ u, (path_ u, (query_ u, fragment_ u)))))
    (pair_compare str_compare (pair_compare (opt_compare authority_compare)
      (pair_compare str_compare (pair_compare (opt_compare str_compare) (opt_compare str_compare)))))).
  intros [] [] [= -> -> -> -> ->]. done.
Qed.

Lemma preference_spec x y :
  isPreferredEndpoint is_loopback x y = true <->
  (preference x < preference y)%Z \/ preference x = preference y /\ uri_lt x y = true.
Proof.
  unfold isPreferredEndpoint, key_compare, cmpKey, preference, uri_lt, lex.
  destruct (isRelativeEndpoint x), (isRelativeEndpoint y), (hasAuthority x), (hasAuthority y),
    (isSdRelativeEndpoint x), (isSdRelativeEndpoint y), (hasLoopbackAddress is_loopback x),
    (hasLoopbackAddress is_loopback y); cbn; destruct (uri_compare x y); intuition (try lia; try discriminate).
Qed.
End endpoints.

Lemma uri_lt_Lt x y : uri_lt x y = true <-> uri_compare x y = Lt.
Proof. unfold uri_lt. by destruct (uri_compare x y). Qed.

Lemma preferred_laws is_loopback :
  (forall x, isPreferredEndpoint is_loopback x x = false) /\
  (forall x y z, isPreferredEndpoint is_loopback x y = true -> isPreferredEndpoint is_loopback y z = true ->
     isPreferredEndpoint is_loopback x z = true) /\
  (forall x y, x <> y -> isPreferredEndpoint is_loopback x y = true \/ isPreferredEndpoint is_loopback y x = true).
Proof.
  pose proof (preference_spec is_loopback) as H. setoid_rewrite uri_lt_Lt in H. split_and!.
  - intros x. apply not_true_is_false. intros [?|[_ Hx]]%H; [lia|]. by rewrite (proj2 (cmp_eq (f := uri_compare) x x)) in Hx.
  - intros x y z. rewrite !H. intros [?|[? H1]] [?|[? H2]]; try (left; lia). right. split; [congruence|].
    by apply (cmp_trans (f := uri_compare) x y z).
  - intros x y Hne. rewrite !H, (cmp_anti (f := uri_compare) x y).
    destruct (Z.lt_total (preference is_loopback x) (preference is_loopback y)) as [|[|]]; auto.
    destruct (uri_compare x y) eqn:Ec; cbn; auto. by apply (cmp_eq (f := uri_compare)) in Ec.
Qed.

(** The preference is a strict total order, whose partitions are those of the
    comment of [cmpKey]: the relative endpoint of the directory, the other relative
    ones, loopback addresses, other addresses, the rest; within a partition it is
    the lexicographic order of URI. *)
Theorem isPreferredEndpoint_order is_loopback :
  let preferred x y := isPreferredEndpoint is_loopback x y = true in
  (forall x, ~ preferred x x) /\
  (forall x y z, preferred x y -> preferred y z -> preferred x z) /\
  (forall x y, x <> y -> preferred x y \/ preferred y x) /\
  (forall x y, preferred x y <-> (preference is_loopback x < preference is_loopback y)%Z \/
     preference is_loopback x = preference is_loopback y /\ uri_compare x y = Lt).
Proof.
  destruct (preferred_laws is_loopback) as (H1 & H2 & H3). split_and!; cbn.
  - intros x. by rewrite H1.
  - apply H2.
  - apply H3.
  - intros x y. rewrite <- uri_lt_Lt. apply preference_spec.
Qed.

(** ** The algorithms on ranges *)

Section algorithms.
Context {A : Type} (lt : A -> A -> bool).
Context (lt_irrefl : forall x, lt x x = false).
Context (lt_trans : forall x y z, lt x y = true -> lt y z = true -> lt x z = true).
Context (lt_total : forall x y, x <> y -> lt x y = true \/ lt y x = true).
Context `{EqDecision A}.
#[local] Set Default Proof Using "Type*".

Lemma sort_insert_perm x l : Permutation (sort_insert lt x l) (x :: l).
Proof using Type.
  induction l as [|y l IH]; cbn; [done|]. destruct (lt x y); [done|]. rewrite IH. apply perm_swap.
Qed.

Lemma sort_perm l : Permutation (sort lt l) l.
Proof using Type. induction l as [|x l IH]; cbn; [done|]. rewrite sort_insert_perm. by constructor. Qed.

Lemma lt_weak x y z : lt y x = false -> lt y z = true -> lt x z = true.
Proof.
  intros H1 H2. destruct (decide (x = y)) as [->|Hne]; [done|].
  destruct (lt_total x y Hne) as [H|H]; [by apply (lt_trans x y)|congruence].
Qed.

Lemma not_lt_trans x y z : lt y x = false -> lt z y = false -> lt z x = false.
Proof.
  intros H1 H2. destruct (lt z x) eqn:H; [|done]. destruct (decide (y = z)) as [->|Hne]; [congruence|].
  destruct (lt_total y z Hne) as [H3|H3]; [|congruence]. by rewrite (lt_trans y z x) in H1.
Qed.

Lemma sort_insert_sorted x l : StronglySorted (fun x y => lt y x = false) l ->
  StronglySorted (fun x y => lt y x = false) (sort_insert lt x l).
Proof.
  induction 1 as [|y l Hl IH Hy]; cbn; [by repeat constructor|].
  assert (forall u v, lt u v = true -> lt v u = false) as Hasym.
  { intros u v Hu. destruct (lt v u) eqn:E; [|done]. pose proof (lt_trans u v u Hu E) as Hx. by rewrite lt_irrefl in Hx. }
  destruct (lt x y) eqn:E.
  - constructor; [by constructor|]. constructor; [by apply Hasym|]. eapply Forall_impl; [exact Hy|].
    intros z Hz. apply (not_lt_trans x y z); [by apply Hasym|done].
  - constructor; [done|].
    apply (Permutation_Forall (P := fun z => lt z y = false) (Permutation_sym (sort_insert_perm x l))). by constructor.
Qed.

Lemma sort_sorted l : StronglySorted (fun x y => lt y x = false) (sort lt l).
Proof. induction l as [|x l IH]; cbn; [constructor|]. by apply sort_insert_sorted. Qed.

Lemma unique_elem (x : A) l : x ∈ unique l <-> x ∈ l.
Proof using Type.
  induction l as [|y l IH]; [done|]. cbn. destruct l as [|z l]; [done|].
  destruct (decide (y = z)) as [->|]; rewrite ?elem_of_cons, IH, ?elem_of_cons; tauto.
Qed.

Lemma unique_sorted l : StronglySorted (fun x y => lt y x = false) l -> StronglySorted (fun x y => lt x y = true) (unique l).
Proof.
  induction 1 as [|x l Hl IH Hx]; [constructor|]. cbn. destruct l as [|y l]; [by repeat constructor|].
  destruct (decide (x = y)) as [|Hne]; [done|]. constructor; [done|]. apply Forall_forall. intros z Hz.
  apply (proj1 (unique_elem z (y :: l))) in Hz. inversion Hx as [|? ? Hxy Hxl]; subst. inversion Hl as [|? ? _ Hyl]; subst.
  assert (lt x y = true) as Hlt by (by destruct (lt_total x y Hne) as [|E]; [|congruence]).
  apply elem_of_cons in Hz as [->|Hz]; [done|]. rewrite Forall_forall in Hyl. specialize (Hyl z Hz).
  destruct (decide (y = z)) as [<-|Hyz]; [done|]. destruct (lt_total y z Hyz) as [H2|H2]; [|congruence].
  by apply (lt_trans x y z).
Qed.

Lemma includes_spec a b : StronglySorted (fun x y => lt x y = true) a -> StronglySorted (fun x y => lt x y = true) b ->
  includes lt a b = true <-> forall x, x ∈ b -> x ∈ a.
Proof.
  intros Ha. revert b. induction Ha as [|x a Ha IH Hx]; intros b Hb.
  - destruct b as [|y b]; cbn; [by split; [intros _ x ?%elem_of_nil|]|]. split; [done|].
    intros H. specialize (H y ltac:(by left)). by apply elem_of_nil in H.
  - destruct b as [|y b]; cbn; [split; [by intros _ z ?%elem_of_nil|done]|].
    inversion Hb as [|? ? Hb' Hy]; subst. rewrite Forall_forall in Hx, Hy.
    destruct (lt y x) eqn:E1.
    { split; [done|]. intros H. specialize (H y ltac:(by left)). apply elem_of_cons in H as [->|H]; [congruence|].
      specialize (Hx y H). pose proof (lt_trans _ _ _ E1 Hx) as C. by rewrite lt_irrefl in C. }
    destruct (lt x y) eqn:E2.
    { rewrite IH by done. setoid_rewrite elem_of_cons. split; [naive_solver|]. intros H z Hz.
      destruct (H z Hz) as [->|]; [|done]. destruct Hz as [->|Hz]; [by rewrite lt_irrefl in E2|].
      pose proof (lt_trans _ _ _ E2 (Hy x Hz)) as C. by rewrite lt_irrefl in C. }
    assert (x = y) as -> by (destruct (decide (x = y)) as [|Hne]; [done|destruct (lt_total x y Hne); congruence]).
    rewrite IH by done. setoid_rewrite elem_of_cons. split; [naive_solver|]. intros H z Hz.
    destruct (H z (or_intror Hz)) as [->|]; [|done]. specialize (Hy y Hz). by rewrite lt_irrefl in Hy.
Qed.
End algorithms.

(** ** The endpoints of services *)

Lemma uri_lt_laws :
  (forall x, uri_lt x x = false) /\
  (forall x y z, uri_lt x y = true -> uri_lt y z = true -> uri_lt x z = true) /\
  (forall x y, x <> y -> uri_lt x y = true \/ uri_lt y x = true).
Proof.
  split_and!.
  - intros x. unfold uri_lt. by rewrite (proj2 (cmp_eq (f := uri_compare) x x)).
  - intros x y z. rewrite !uri_lt_Lt. apply cmp_trans.
  - intros x y Hne. rewrite !uri_lt_Lt, (cmp_anti (f := uri_compare) x y). destruct (uri_compare x y) eqn:Ec; auto.
    by apply (cmp_eq (f := uri_compare)) in Ec.
Qed.

Section services.
Context (is_loopback : bytes -> bool).
Notation SD := (@ServiceDirectory uri_t).

(** The endpoints of a service that are not relative, and the URI of a relative one. *)
Definition own_endpoints (info : ServiceInfo uri_t) (u : uri_t) : Prop :=
  u ∈ endpoints info /\ isRelativeEndpoint u = false.

Definition reachable_from (d : SD) (info i : ServiceInfo uri_t) : Prop :=
  (exists idx, connectedServices d !! idx = Some i) /\ forall u, u ∈ endpoints i -> own_endpoints info u.

Definition relative_uri (i : ServiceInfo uri_t) : option uri_t := uri (uriQiScheme ++ lit ":" ++ name i).

Definition base_endpoints (info : ServiceInfo uri_t) : list uri_t :=
  unique (sort uri_lt (List.filter (fun u => negb (isRelativeEndpoint u)) (endpoints info))).

Lemma unique_sort_elem u l : u ∈ unique (sort uri_lt l) <-> u ∈ l.
Proof. rewrite unique_elem. by rewrite (sort_perm uri_lt l). Qed.

Lemma unique_sort_sorted l : StronglySorted (fun x y => uri_lt x y = true) (unique (sort uri_lt l)).
Proof.
  destruct uri_lt_laws as (H1 & H2 & H3). apply unique_sorted; auto. apply sort_sorted; auto using uri_eq_dec.
Qed.

Lemma filter_elem info u :
  u ∈ List.filter (fun u => negb (isRelativeEndpoint u)) (endpoints info) <-> own_endpoints info u.
Proof.
  unfold own_endpoints. rewrite !list_elem_of_In, filter_In. destruct (isRelativeEndpoint u); cbn; intuition congruence.
Qed.

Lemma base_elem info u : u ∈ base_endpoints info <-> own_endpoints info u.
Proof. unfold base_endpoints. by rewrite unique_sort_elem, filter_elem. Qed.

Lemma includes_endpoints info i :
  includes uri_lt (base_endpoints info) (unique (sort uri_lt (endpoints i))) = true <->
  forall u, u ∈ endpoints i -> own_endpoints info u.
Proof.
  destruct uri_lt_laws as (H1 & H2 & H3). unfold base_endpoints at 1. rewrite (includes_spec uri_lt H1 H2 H3 _ _ (unique_sort_sorted _) (unique_sort_sorted _)).
  setoid_rewrite unique_sort_elem. split; intros H u Hu; apply filter_elem, H, Hu.
Qed.

Lemma copyRelativeEndpoints_spec l info :
  match copyRelativeEndpoints l (base_endpoints info) with
  | Some out => forall u, u ∈ out <-> exists i, i ∈ l /\ (forall u, u ∈ endpoints i -> own_endpoints info u) /\ relative_uri i = Some u
  | None => exists i, i ∈ l /\ (forall u, u ∈ endpoints i -> own_endpoints info u) /\ relative_uri i = None
  end.
Proof.
  induction l as [|i l IH]; cbn [copyRelativeEndpoints].
  { intros u. split; [by intros ?%elem_of_nil|by intros (i & ?%elem_of_nil & _)]. }
  pose proof (includes_endpoints info i) as Hi. fold (relative_uri i).
  destruct (includes uri_lt _ _).
  - destruct (relative_uri i) as [v|] eqn:E; cbn; [|exists i; split; [by left|split; [by apply Hi|done]]].
    destruct (copyRelativeEndpoints l _) as [out|]; cbn.
    + intros u. rewrite elem_of_cons, IH. setoid_rewrite elem_of_cons. split.
      * intros [->|(j & ? & ? & ?)]; [exists i|exists j]; naive_solver.
      * intros (j & [->|?] & ? & ?); [left; congruence|right; eauto].
    + destruct IH as (j & ? & ? & ?). exists j. split; [by right|done].
  - destruct (copyRelativeEndpoints l _) as [out|].
    + intros u. rewrite IH. setoid_rewrite elem_of_cons. split; [naive_solver|].
      intros (j & [->|?] & Hj & ?); [|eauto]. by apply Hi in Hj.
    + destruct IH as (j & ? & ? & ?). exists j. split; [by right|done].
Qed.

Lemma connected_elem (d : SD) i : i ∈ map snd (map_to_list (connectedServices d)) <-> exists idx, connectedServices d !! idx = Some i.
Proof.
  rewrite list_elem_of_In, in_map_iff. split.
  - intros ([idx j] & <- & H). exists idx. apply elem_of_map_to_list. by apply list_elem_of_In.
  - intros (idx & H). exists (idx, i). split; [done|]. by apply list_elem_of_In, elem_of_map_to_list.
Qed.

(** What [finalize] returns differs from the information only by the endpoints;
    they are sorted by preference and are the endpoints of the service that are not
    relative and, with the capability, the relative URI of the services all of whose
    endpoints are among these. It fails exactly when the name of such a service does
    not make an URI. *)
Theorem finalize_correct (d : SD) info enabled :
  match finalize is_loopback d info enabled with
  | Some info' =>
      info' = setEndpoints (endpoints info') info /\
      StronglySorted (fun x y => isPreferredEndpoint is_loopback y x = false) (endpoints info') /\
      forall u, u ∈ endpoints info' <-> own_endpoints info u \/
        enabled = true /\ exists i, reachable_from d info i /\ relative_uri i = Some u
  | None => enabled = true /\ exists i, reachable_from d info i /\ relative_uri i = None
  end.
Proof.
  unfold finalize. fold (base_endpoints info).
  pose proof (copyRelativeEndpoints_spec (map snd (map_to_list (connectedServices d))) info) as Hc.
  assert (forall relative, StronglySorted (fun x y => isPreferredEndpoint is_loopback y x = false)
    (sort (isPreferredEndpoint is_loopback) (base_endpoints info ++ relative))) as Hs.
  { intros relative. destruct (preferred_laws is_loopback) as (H1 & H2 & H3). apply sort_sorted; auto using uri_eq_dec. }
  assert (forall relative u, u ∈ sort (isPreferredEndpoint is_loopback) (base_endpoints info ++ relative) <->
    own_endpoints info u \/ u ∈ relative) as He.
  { intros relative u. by rewrite (sort_perm (isPreferredEndpoint is_loopback)), elem_of_app, base_elem. }
  unfold reachable_from. destruct enabled; cbn.
  - destruct (copyRelativeEndpoints _ _) as [relative|]; cbn; setoid_rewrite connected_elem in Hc.
    + split; [done|]. split; [apply Hs|]. intros u. rewrite He, Hc. naive_solver.
    + split; [done|]. naive_solver.
  - split; [done|]. split; [apply Hs|]. intros u. rewrite He. split; [|naive_solver].
    intros [?|?%elem_of_nil]; [by left|done].
Qed.
End services.
