(* ===== verification/PeriodicTask.v ===== *)
(** * PeriodicTask: the control of a task executed periodically

    Model of [src/periodictask.cpp]. The task is a transition system: a step is a
    section under the mutex, the destruction of the synchronizer, or a move of the
    event loop, which begins a scheduled call once its delay has passed or
    completes it as cancelled; the steps of any number of threads interleave. The
    strand of [setStrand] is not modelled: the calls are scheduled in the event
    loop, which is alive. *)
From S2P Require Import Prelude CString.
Open Scope Z_scope.

Inductive TaskState := Stopped | Scheduled | Running | Stopping | Triggering | TriggerReady.

#[export] Instance TaskState_eq_dec : EqDecision TaskState.
Proof. solve_decision. Defined.

(** Where a scheduled call is. The event loop can drop a call that is cancelled
    only when it waits for a delay: a call without delay is posted with a promise
    that has no cancel callback. The others are the places of [_wrap] between its
    sections, with the thread; the synchronizer is locked in all of them. *)
Inductive task_status :=
  | Queued (cancelable cancelled : bool)
  | Locked (tid : Z)                (* before the first section *)
  | Started (tid : Z)               (* the state is set, [_tid] is not yet *)
  | Calling (tid : Z)               (* in the callback *)
  | Returned (tid : Z)              (* the callback returned *)
  | Threw (tid : Z)                 (* the callback threw *)
  | Finished.

#[export] Instance task_status_eq_dec : EqDecision task_status.
Proof. solve_decision. Defined.

Record task := mkTask {
  synchronizer : nat;               (* the synchronizer that it tracks *)
  status : task_status;
}.

(** Where a call of a method is, when it is between two sections. *)
Inductive caller :=
  | WaitStop (join notified : bool)   (* in the wait of [asyncStop], of [stop] if [join] *)
  | CheckStop                         (* after [asyncStop] in [stop] *)
  | Joining (synchro : option nat)    (* destroying the synchronizer *)
  | WaitTrigger (notified : bool).    (* in the wait of [trigger] *)

Definition invalidThreadId : Z := -1.

Record PeriodicTaskPrivate := mkPeriodicTask {
  _callback : bool;                 (* a callback is set *)
  _period : Z;
  _compensateCallTime : bool;
  _state : TaskState;
  _tid : Z;
  _task : nat;                      (* the last scheduled call, by its rank *)
  _taskSynchro : option nat;
  tasks : gmap nat task;
  synchros : nat;                   (* the number of synchronizers that were made *)
  callers : gmap Z caller;          (* the methods in progress, by thread *)
  assertion_failed : bool;
  executions : nat;                 (* the number of calls of the callback *)
}.

Definition PeriodicTask_new : PeriodicTaskPrivate :=
  mkPeriodicTask false (-1) false Stopped invalidThreadId 0 None ∅ 0 ∅ false 0.

(** ** Changes of the fields *)

Definition set_config (cb : bool) (period : Z) (compensate : bool) (s : PeriodicTaskPrivate) : PeriodicTaskPrivate :=
  mkPeriodicTask cb period compensate (_state s) (_tid s) (_task s) (_taskSynchro s) (tasks s) (synchros s)
    (callers s) (assertion_failed s) (executions s).
Definition set_state (st : TaskState) (s : PeriodicTaskPrivate) : PeriodicTaskPrivate :=
  mkPeriodicTask (_callback s) (_period s) (_compensateCallTime s) st (_tid s) (_task s) (_taskSynchro s) (tasks s)
    (synchros s) (callers s) (assertion_failed s) (executions s).
Definition set_tid (tid : Z) (s : PeriodicTaskPrivate) : PeriodicTaskPrivate :=
  mkPeriodicTask (_callback s) (_period s) (_compensateCallTime s) (_state s) tid (_task s) (_taskSynchro s) (tasks s)
    (synchros s) (callers s) (assertion_failed s) (executions s).
Definition set_synchro (o : option nat) (n : nat) (s : PeriodicTaskPrivate) : PeriodicTaskPrivate :=
  mkPeriodicTask (_callback s) (_period s) (_compensateCallTime s) (_state s) (_tid s) (_task s) o (tasks s)
    n (callers s) (assertion_failed s) (executions s).
Definition set_tasks (i : nat) (m : gmap nat task) (s : PeriodicTaskPrivate) : PeriodicTaskPrivate :=
  mkPeriodicTask (_callback s) (_period s) (_compensateCallTime s) (_state s) (_tid s) i (_taskSynchro s) m
    (synchros s) (callers s) (assertion_failed s) (executions s).
Definition set_callers (m : gmap Z caller) (s : PeriodicTaskPrivate) : PeriodicTaskPrivate :=
  mkPeriodicTask (_callback s) (_period s) (_compensateCallTime s) (_state s) (_tid s) (_task s) (_taskSynchro s)
    (tasks s) (synchros s) m (assertion_failed s) (executions s).
Definition fail_assertion (s : PeriodicTaskPrivate) : PeriodicTaskPrivate :=
  mkPeriodicTask (_callback s) (_period s) (_compensateCallTime s) (_state s) (_tid s) (_task s) (_taskSynchro s)
    (tasks s) (synchros s) (callers s) true (executions s).
Definition log_execution (s : PeriodicTaskPrivate) : PeriodicTaskPrivate :=
  mkPeriodicTask (_callback s) (_period s) (_compensateCallTime s) (_state s) (_tid s) (_task s) (_taskSynchro s)
    (tasks s) (synchros s) (callers s) (assertion_failed s) (S (executions s)).

Definition set_status (i : nat) (st : task_status) (s : PeriodicTaskPrivate) : PeriodicTaskPrivate :=
  set_tasks (_task s) (alter (fun t => mkTask (synchronizer t) st) i (tasks s)) s.

(** [_cond.notify_all]. *)
Definition notify (c : caller) : caller :=
  match c with
  | WaitStop join _ => WaitStop join true
  | WaitTrigger _ => WaitTrigger true
  | _ => c
  end.
Definition notify_all (s : PeriodicTaskPrivate) : PeriodicTaskPrivate := set_callers (notify <$> callers s) s.

(** [_task.cancel]. *)
Definition cancel (s : PeriodicTaskPrivate) : PeriodicTaskPrivate :=
  match tasks s !! _task s with
  | Some (mkTask _ (Queued true _)) => set_status (_task s) (Queued true true) s
  | _ => s
  end.

(** [_reschedule]: the assertion is that there is a synchronizer. *)
Definition _reschedule (delay : Z) (s : PeriodicTaskPrivate) : PeriodicTaskPrivate :=
  match _taskSynchro s with
  | None => fail_assertion s
  | Some synchro =>
      let i := S (_task s) in
      set_state Scheduled (set_tasks i (<[i := mkTask synchro (Queued (0 <? delay) false)]> (tasks s)) s)
  end.

(** ** The methods *)

Inductive task_error := CallbackAlreadySet | NegativePeriod | NoCallback | NoPeriod.

Definition _setCallback (s : PeriodicTaskPrivate) : result task_error PeriodicTaskPrivate :=
  if _callback s then Err CallbackAlreadySet else Ok (set_config true (_period s) (_compensateCallTime s) s).

Definition setPeriod (period : Z) (s : PeriodicTaskPrivate) : result task_error PeriodicTaskPrivate :=
  if period <? 0 then Err NegativePeriod else Ok (set_config (_callback s) period (_compensateCallTime s) s).

Definition compensateCallbackTime (enable : bool) (s : PeriodicTaskPrivate) : PeriodicTaskPrivate :=
  set_config (_callback s) (_period s) enable s.

(** [start], called by the thread [tid]. *)
Definition start (tid : Z) (immediate : bool) (s : PeriodicTaskPrivate) : result task_error PeriodicTaskPrivate :=
  if negb (_callback s) then Err NoCallback
  else if _period s <? 0 then Err NoPeriod
  else if decide (tid = _tid s) then Ok s
  else if decide (_state s <> Stopped) then Ok s
  else
    let s := set_synchro (Some (synchros s)) (S (synchros s)) s in
    Ok (_reschedule (if immediate then 0 else _period s) s).

(** One turn of the loop of [asyncStop]: it stops the task, returns, or waits;
    then [stop] goes on. *)
Definition asyncStop (tid : Z) (join : bool) (s : PeriodicTaskPrivate) : PeriodicTaskPrivate :=
  let leave s := set_callers (if join then <[tid := CheckStop]> (callers s) else delete tid (callers s)) s in
  match _state s with
  | Scheduled | Running => leave (cancel (set_state Stopping s))
  | Stopping => leave (cancel s)
  | Stopped => leave s
  | Triggering | TriggerReady => set_callers (<[tid := WaitStop join false]> (callers s)) s
  end.

(** The rest of [stop]: nothing in the thread of the callback, else the
    synchronizer is forgotten, and destroyed once it is not locked. *)
Definition stop_check (tid : Z) (s : PeriodicTaskPrivate) : PeriodicTaskPrivate :=
  if decide (tid = _tid s) then set_callers (delete tid (callers s)) s
  else set_synchro None (synchros s) (set_callers (<[tid := Joining (_taskSynchro s)]> (callers s)) s).

Definition trigger (tid : Z) (s : PeriodicTaskPrivate) : PeriodicTaskPrivate :=
  match _state s with
  | Scheduled => set_callers (<[tid := WaitTrigger false]> (callers s)) (cancel (set_state Triggering s))
  | _ => s
  end.

(** [trigger] after its wait. *)
Definition trigger_wake (tid : Z) (s : PeriodicTaskPrivate) : PeriodicTaskPrivate :=
  match _state s with
  | Triggering => set_callers (<[tid := WaitTrigger false]> (callers s)) s
  | TriggerReady => _reschedule 0 (set_callers (delete tid (callers s)) s)
  | _ => set_callers (delete tid (callers s)) s
  end.

Definition isRunning (s : PeriodicTaskPrivate) : bool :=
  match _state s with Stopped | Stopping => false | _ => true end.
Definition isStopping (s : PeriodicTaskPrivate) : bool :=
  match _state s with Stopped | Stopping => true | _ => false end.

(** ** The scheduled call *)

(** [_onTaskFinished] for a call that was cancelled. *)
Definition _onTaskFinished (s : PeriodicTaskPrivate) : PeriodicTaskPrivate :=
  notify_all
    match _state s with
    | Stopping => set_state Stopped s
    | Triggering => set_state TriggerReady s
    | _ => fail_assertion s
    end.

(** The first section of [_wrap]. *)
Definition _wrap_enter (i : nat) (tid : Z) (s : PeriodicTaskPrivate) : PeriodicTaskPrivate :=
  match _state s with
  | Stopping => notify_all (set_state Stopped (set_status i Finished s))
  | Scheduled | Triggering => notify_all (set_state Running (set_status i (Started tid) s))
  | _ => fail_assertion s
  end.

(** The last section, after the callback returned. [delta] is the time that it
    took. *)
Definition _wrap_leave (i : nat) (delta : Z) (s : PeriodicTaskPrivate) : PeriodicTaskPrivate :=
  let s := set_status i Finished s in
  match _state s with
  | Running => _reschedule (Z.max 0 (_period s - if _compensateCallTime s then delta else 0)) s
  | Stopping => notify_all (set_state Stopped s)
  | _ => fail_assertion s
  end.

(** The last section, after the callback threw. *)
Definition _wrap_abort (i : nat) (s : PeriodicTaskPrivate) : PeriodicTaskPrivate :=
  notify_all (set_state Stopped (set_status i Finished s)).

(** ** The transition system *)

Definition task_thread (t : task) : option Z :=
  match status t with
  | Locked tid | Started tid | Calling tid | Returned tid | Threw tid => Some tid
  | Queued _ _ | Finished => None
  end.

(** The synchronizer [o] is locked by a call in progress. *)
Definition locked (o : option nat) (s : PeriodicTaskPrivate) : bool :=
  existsb (fun p => bool_decide (o = Some (synchronizer (snd p))) && match task_thread (snd p) with Some _ => true | None => false end)
    (map_to_list (tasks s)).

Definition in_progress (s : PeriodicTaskPrivate) (tid : Z) : bool :=
  existsb (fun p => bool_decide (task_thread (snd p) = Some tid)) (map_to_list (tasks s)).

(** Some method that stops the task is not finished. *)
Definition stopping_callers (s : PeriodicTaskPrivate) : bool :=
  existsb (fun p => match snd p with WaitTrigger _ => false | _ => true end) (map_to_list (callers s)).

Inductive task_event :=
  | ESetPeriod (period : Z)
  | ECompensate (enable : bool)
  | EStart (tid : Z) (immediate : bool)
  | EStop (tid : Z) (join : bool)       (* [stop], or [asyncStop] *)
  | ECheck (tid : Z)
  | EJoined (tid : Z)
  | ETrigger (tid : Z)
  | EWake (tid : Z)
  | ERun (i : nat) (tid : Z)            (* the event loop begins the call *)
  | ECanceled (i : nat)
  | EEnter (i : nat)
  | ECall (i : nat)
  | EReturn (i : nat)
  | EThrow (i : nat)
  | ELeave (i : nat) (delta : Z).

Definition caller_free (tid : Z) (s : PeriodicTaskPrivate) : bool :=
  match callers s !! tid with None => true | Some _ => false end.

(** A thread can call a method when it is not in another one, nor in [_wrap]
    outside of the callback. *)
Definition may_call (tid : Z) (s : PeriodicTaskPrivate) : bool :=
  caller_free tid s
  && negb (existsb (fun p => bool_decide (task_thread (snd p) = Some tid) && negb (bool_decide (status (snd p) = Calling tid)))
             (map_to_list (tasks s))).

(** A step; [None] when it is not possible. As documented, [start] is not called
    while [stop] or [asyncStop] is in progress. A thread makes one call at a time,
    and a callback ends when the methods that it called have returned. [start]
    destroys the previous synchronizer, which waits for the call that locks it. A
    wait ends when it is notified, or spuriously. *)
Definition step (e : task_event) (s : PeriodicTaskPrivate) : option PeriodicTaskPrivate :=
  match e with
  | ESetPeriod period => match setPeriod period s with Ok s' => Some s' | Err _ => Some s end
  | ECompensate enable => Some (compensateCallbackTime enable s)
  | EStart tid immediate =>
      if may_call tid s && negb (stopping_callers s)
         && negb (match _state s with Stopped => locked (_taskSynchro s) s | _ => false end)
      then match start tid immediate s with Ok s' => Some s' | Err _ => Some s end else None
  | EStop tid join => if may_call tid s then Some (asyncStop tid join s) else None
  | ECheck tid => match callers s !! tid with Some CheckStop => Some (stop_check tid s) | _ => None end
  | EJoined tid =>
      match callers s !! tid with
      | Some (Joining o) => if locked o s then None else Some (set_callers (delete tid (callers s)) s)
      | _ => None
      end
  | ETrigger tid => if may_call tid s then Some (trigger tid s) else None
  | EWake tid =>
      match callers s !! tid with
      | Some (WaitStop join _) => Some (asyncStop tid join s)
      | Some (WaitTrigger _) => Some (trigger_wake tid s)
      | _ => None
      end
  | ERun i tid =>
      match tasks s !! i with
      | Some (mkTask synchro (Queued _ _)) =>
          if caller_free tid s && negb (in_progress s tid) && bool_decide (tid <> invalidThreadId) then
            if decide (_taskSynchro s = Some synchro) then Some (set_status i (Locked tid) s)
            else Some (set_status i Finished s)
          else None
      | _ => None
      end
  | ECanceled i =>
      match tasks s !! i with
      | Some (mkTask _ (Queued true true)) => Some (_onTaskFinished (set_status i Finished s))
      | _ => None
      end
  | EEnter i =>
      match tasks s !! i with Some (mkTask _ (Locked tid)) => Some (_wrap_enter i tid s) | _ => None end
  | ECall i =>
      match tasks s !! i with
      | Some (mkTask _ (Started tid)) => Some (log_execution (set_tid tid (set_status i (Calling tid) s)))
      | _ => None
      end
  | EReturn i =>
      match tasks s !! i with
      | Some (mkTask _ (Calling tid)) =>
          if caller_free tid s then Some (set_tid invalidThreadId (set_status i (Returned tid) s)) else None
      | _ => None
      end
  | EThrow i =>
      match tasks s !! i with
      | Some (mkTask _ (Calling tid)) => if caller_free tid s then Some (set_status i (Threw tid) s) else None
      | _ => None
      end
  | ELeave i delta =>
      match tasks s !! i with
      | Some (mkTask _ (Returned _)) => Some (_wrap_leave i delta s)
      | Some (mkTask _ (Threw _)) => Some (_wrap_abort i s)
      | _ => None
      end
  end.

Fixpoint run (es : list task_event) (s : PeriodicTaskPrivate) : option PeriodicTaskPrivate :=
  match es with
  | [] => Some s
  | e :: es' => s' ← step e s; run es' s'
  end.

(** A configured task, and the states that it reaches. *)
Inductive reachable : PeriodicTaskPrivate -> Prop :=
  | reachable_new period compensate : 0 <= period ->
      reachable (set_config true period compensate PeriodicTask_new)
  | reachable_step s e s' : reachable s -> step e s = Some s' -> reachable s'.
