(* ===== verification/PeriodicTaskProperties.v ===== *)
(** * PeriodicTaskProperties: what the periodic task promises

    The invariant of the transition system of [PeriodicTask] and its consequences:
    no failed assertion, one call of the callback at a time, nothing after [stop],
    and the states from which the task cannot be started again. *)
From S2P Require Import Prelude CString PeriodicTask.
Open Scope Z_scope.

(** ** Definitions *)

(** The current call, as the state tells. *)
Definition cur_ok (st : TaskState) (synchro : option nat) (cur : option task) : Prop :=
  match st with
  | Stopped => match cur with None => True | Some t => status t = Finished end
  | Scheduled => exists x q, synchro = Some x /\ cur = Some (mkTask x q) /\
      match q with Queued _ false | Locked _ => True | _ => False end
  | Running => exists x q, synchro = Some x /\ cur = Some (mkTask x q) /\
      match q with Started _ | Calling _ | Returned _ | Threw _ => True | _ => False end
  | Triggering => exists x q, synchro = Some x /\ cur = Some (mkTask x q) /\
      match q with Queued _ _ | Locked _ => True | _ => False end
  | TriggerReady => (exists x, synchro = Some x) /\ exists t, cur = Some t /\ status t = Finished
  | Stopping => exists t, cur = Some t /\
      match synchro with Some x => synchronizer t = x /\ status t <> Finished | None => True end
  end.

Record inv (s : PeriodicTaskPrivate) : Prop := mkInv {
  inv_config : _callback s = true /\ 0 <= _period s;
  inv_assertion : assertion_failed s = false;
  inv_others : forall i t, tasks s !! i = Some t -> (i <= _task s)%nat /\ (i <> _task s -> status t = Finished);
  inv_cur : cur_ok (_state s) (_taskSynchro s) (tasks s !! _task s);
  inv_joining : forall tid o, callers s !! tid = Some (Joining o) -> _taskSynchro s = None;
  inv_check : forall tid, callers s !! tid = Some CheckStop -> _state s = Stopping \/ _state s = Stopped;
  inv_none : _taskSynchro s = None -> _state s = Stopping \/ _state s = Stopped;
  inv_locked : _taskSynchro s = None -> forall t tid, tasks s !! _task s = Some t -> task_thread t = Some tid ->
    exists tid', callers s !! tid' = Some (Joining (Some (synchronizer t)));
  inv_tid : forall t tid, tasks s !! _task s = Some t -> status t = Calling tid -> _tid s = tid;
  inv_thread : forall t tid, tasks s !! _task s = Some t -> task_thread t = Some tid ->
    callers s !! tid = None \/ callers s !! tid = Some CheckStop /\ status t = Calling tid;
}.

(** ** Lemmas *)

Lemma existsb_map {K V} `{Countable K} (f : K * V -> bool) (m : gmap K V) :
  existsb f (map_to_list m) = true <-> exists i v, m !! i = Some v /\ f (i, v) = true.
Proof.
  rewrite existsb_exists. split.
  - intros ([i v] & Hi & Hf). exists i, v. split; [|done]. apply elem_of_map_to_list. by apply list_elem_of_In.
  - intros (i & v & Hi & Hf). exists (i, v). split; [|done]. apply list_elem_of_In. by apply elem_of_map_to_list.
Qed.

Lemma existsb_map_false {K V} `{Countable K} (f : K * V -> bool) (m : gmap K V) :
  existsb f (map_to_list m) = false -> forall i v, m !! i = Some v -> f (i, v) = false.
Proof.
  intros Hn i v Hi. apply not_true_is_false. intros Hf. apply not_true_iff_false in Hn. apply Hn.
  apply existsb_map. by exists i, v.
Qed.

Lemma locked_false o s : locked o s = false -> forall i t, tasks s !! i = Some t -> o = Some (synchronizer t) -> task_thread t = None.
Proof.
  intros H i t Hi ->. pose proof (existsb_map_false _ _ H i t Hi) as E. cbn in E.
  rewrite bool_decide_eq_true_2 in E by done. by destruct (task_thread t).
Qed.

Lemma in_progress_false s tid : in_progress s tid = false -> forall i t, tasks s !! i = Some t -> task_thread t <> Some tid.
Proof.
  intros H i t Hi E. pose proof (existsb_map_false _ _ H i t Hi) as F. cbn in F. by rewrite bool_decide_eq_true_2 in F.
Qed.

Lemma caller_free_None tid s : caller_free tid s = true -> callers s !! tid = None.
Proof. unfold caller_free. by destruct (callers s !! tid). Qed.

Lemma may_call_spec tid s : may_call tid s = true ->
  callers s !! tid = None /\ forall i t, tasks s !! i = Some t -> task_thread t = Some tid -> status t = Calling tid.
Proof.
  intros [H1%caller_free_None H2%negb_true_iff]%andb_true_iff. split; [done|]. intros i t Hi Ht.
  pose proof (existsb_map_false _ _ H2 i t Hi) as E. cbn in E. rewrite (bool_decide_eq_true_2 (task_thread t = _)) in E by done.
  apply negb_false_iff, bool_decide_eq_true in E. done.
Qed.

Lemma may_call_intro tid s : callers s !! tid = None -> (forall i t, tasks s !! i = Some t -> task_thread t = None) ->
  may_call tid s = true.
Proof.
  intros H1 H2. unfold may_call, caller_free. rewrite H1. cbn. apply negb_true_iff, not_true_is_false.
  intros (i & t & Hi & Ht)%existsb_map. cbn in Ht. rewrite (H2 i t Hi) in Ht. done.
Qed.

Lemma stopping_callers_false s : stopping_callers s = false ->
  forall tid c, callers s !! tid = Some c -> exists b, c = WaitTrigger b.
Proof. intros H tid c Hc. pose proof (existsb_map_false _ _ H tid c Hc) as E. cbn in E. destruct c; try done. by eexists. Qed.

(** Notification does not change where the methods are. *)
Lemma notify_lookup s tid c : callers (notify_all s) !! tid = Some c ->
  exists c', callers s !! tid = Some c' /\ c = notify c'.
Proof. cbn. rewrite lookup_fmap. destruct (callers s !! tid) as [c'|]; [|done]. intros [= <-]. by exists c'. Qed.

Lemma periodic_inv_new period compensate : 0 <= period -> inv (set_config true period compensate PeriodicTask_new).
Proof. intros H. split; cbn; try done; intros *; rewrite ?lookup_empty; try done; try (by left). by right. Qed.

(** ** Changes that keep the invariant *)

Lemma inv_notify s : inv s -> inv (notify_all s).
Proof.
  intros [H1 H2 H3 H4 H5 H6 H7 H8 H9 H10]. split; cbn; try done.
  - intros tid o. rewrite lookup_fmap. destruct (callers s !! tid) as [[]|] eqn:E; try done. intros _. by eapply H5.
  - intros tid. rewrite lookup_fmap. destruct (callers s !! tid) as [[]|] eqn:E; try done. intros _. by eapply H6.
  - intros H t tid Ht Hl. destruct (H8 H t tid Ht Hl) as [tid' E]. exists tid'. by rewrite lookup_fmap, E.
  - intros t tid Ht Hl. rewrite lookup_fmap. destruct (H10 t tid Ht Hl) as [->|[-> ?]]; auto.
Qed.

Lemma inv_delete tid s : (forall o, callers s !! tid <> Some (Joining (Some o))) -> inv s -> inv (set_callers (delete tid (callers s)) s).
Proof.
  intros Hj [H1 H2 H3 H4 H5 H6 H7 H8 H9 H10]. split; cbn; try done.
  - intros tid' o [_ E]%lookup_delete_Some. by eapply H5.
  - intros tid' [_ E]%lookup_delete_Some. by eapply H6.
  - intros H t tid' Ht Hl. destruct (H8 H t tid' Ht Hl) as [tid2 E]. exists tid2. rewrite lookup_delete_ne; [done|].
    intros ->. by apply Hj in E.
  - intros t tid' Ht Hl. destruct (decide (tid = tid')) as [->|]; [left; by rewrite lookup_delete_eq|].
    rewrite lookup_delete_ne by done. eauto.
Qed.

Lemma inv_wait tid c s : (forall o, c <> Joining o) -> c <> CheckStop ->
  (forall o, callers s !! tid <> Some (Joining (Some o))) ->
  (forall t, tasks s !! _task s = Some t -> task_thread t <> Some tid) ->
  inv s -> inv (set_callers (<[tid := c]> (callers s)) s).
Proof.
  intros Hc1 Hc2 Hj Ht [H1 H2 H3 H4 H5 H6 H7 H8 H9 H10]. split; cbn; try done.
  - intros tid' o [[_ ->]|[_ E]]%lookup_insert_Some; [by destruct (Hc1 o)|]. by eapply H5.
  - intros tid' [[_ ->]|[_ E]]%lookup_insert_Some; [done|]. by eapply H6.
  - intros H t tid' Hi Hl. destruct (H8 H t tid' Hi Hl) as [tid2 E]. exists tid2. rewrite lookup_insert_ne; [done|].
    intros ->. by apply Hj in E.
  - intros t tid' Hi Hl. rewrite lookup_insert_ne by (intros ->; by apply (Ht t Hi)). eauto.
Qed.

Lemma inv_checkstop tid s : (_state s = Stopping \/ _state s = Stopped) ->
  (forall o, callers s !! tid <> Some (Joining (Some o))) ->
  (forall t, tasks s !! _task s = Some t -> task_thread t = Some tid -> status t = Calling tid) ->
  inv s -> inv (set_callers (<[tid := CheckStop]> (callers s)) s).
Proof.
  intros Hst Hj Ht [H1 H2 H3 H4 H5 H6 H7 H8 H9 H10]. split; cbn; try done.
  - intros tid' o [[_ ?]|[_ E]]%lookup_insert_Some; [done|]. by eapply H5.
  - intros H t tid' Hi Hl. destruct (H8 H t tid' Hi Hl) as [tid2 E]. exists tid2. rewrite lookup_insert_ne; [done|].
    intros ->. by apply Hj in E.
  - intros t tid' Hi Hl. destruct (decide (tid = tid')) as [->|].
    + rewrite lookup_insert_eq. right. split; [done|]. by apply Ht.
    + rewrite lookup_insert_ne by done. eauto.
Qed.

Lemma inv_cancel s : _state s = Stopping \/ _state s = Triggering -> inv s -> inv (cancel s).
Proof.
  intros Hs [H1 H2 H3 H4 H5 H6 H7 H8 H9 H10]. unfold cancel.
  destruct (tasks s !! _task s) as [[x []]|] eqn:E; try by split; rewrite ?E.
  destruct cancelable; [|by split; rewrite ?E].
  split; cbn; rewrite ?lookup_alter_eq, ?E; cbn; try done.
  - intros i t. destruct (decide (i = _task s)) as [->|Hi].
    + rewrite lookup_alter_eq, E. cbn. by intros [= <-].
    + rewrite lookup_alter_ne by done. apply H3.
  - destruct Hs as [Hs|Hs]; rewrite Hs in *; cbn in *.
    + destruct H4 as (t & [= <-] & Ht). eexists. split; [done|]. destruct (_taskSynchro s); [|done]. naive_solver.
    + destruct H4 as (y & q & -> & [= <- <-] & _). by exists x, (Queued true true).
  - intros H t tid [= <-]. done.
  - by intros t tid [= <-].
  - by intros t tid [= <-].
Qed.

Lemma inv_set_stopping s : _state s = Scheduled \/ _state s = Running -> inv s -> inv (set_state Stopping s).
Proof.
  intros Hs [H1 H2 H3 H4 H5 H6 H7 H8 H9 H10]. split; cbn; try done; try by left.
  destruct Hs as [Hs|Hs]; rewrite Hs in H4; destruct H4 as (x & q & -> & -> & Hq);
    exists (mkTask x q); (split; [done|split; [done|by destruct q]]).
Qed.

Lemma inv_set_triggering s : _state s = Scheduled -> inv s -> inv (set_state Triggering s).
Proof.
  intros Hs [H1 H2 H3 H4 H5 H6 H7 H8 H9 H10]. rewrite Hs in *.
  split; cbn; try done; [|by intros tid E%H6; destruct E|by intros E%H7; destruct E].
  destruct H4 as (x & q & -> & -> & Hq). exists x, q. repeat split. by destruct q.
Qed.

(** A new call when the previous one is finished. *)
Lemma inv_reschedule delay s x :
  (_callback s = true /\ 0 <= _period s) -> assertion_failed s = false ->
  (forall i t, tasks s !! i = Some t -> (i <= _task s)%nat /\ status t = Finished) ->
  _taskSynchro s = Some x -> (forall tid o, callers s !! tid <> Some (Joining o)) ->
  (forall tid, callers s !! tid <> Some CheckStop) -> inv (_reschedule delay s).
Proof.
  intros H1 H2 H3 Hx Hj Hc. unfold _reschedule. rewrite Hx. split; cbn; rewrite ?lookup_insert_eq; try done.
  - intros i t [[<- <-]|[Hi E]]%lookup_insert_Some; [done|]. apply H3 in E as [? ?]. split; [lia|done].
  - exists x, (Queued (0 <? delay) false). done.
  - intros tid o E. by apply Hj in E.
  - intros tid E. by apply Hc in E.
  - congruence.
  - congruence.
  - by intros t tid [= <-].
  - by intros t tid [= <-].
Qed.

(** A move of the current call. *)
Lemma inv_move i x q q' st' tid' s : inv s -> tasks s !! i = Some (mkTask x q) -> q <> Finished ->
  cur_ok st' (_taskSynchro s) (Some (mkTask x q')) ->
  (_state s = Stopping \/ _state s = Stopped -> st' = Stopping \/ st' = Stopped) ->
  (forall tid, task_thread (mkTask x q') = Some tid ->
     callers s !! tid = None \/ callers s !! tid = Some CheckStop /\ q' = Calling tid) ->
  (_taskSynchro s = None -> task_thread (mkTask x q') <> None -> task_thread (mkTask x q) <> None) ->
  (forall tid, q' = Calling tid -> tid' = tid) ->
  inv (set_state st' (set_tid tid' (set_status i q' s))).
Proof.
  intros [H1 H2 H3 H4 H5 H6 H7 H8 H9 H10] Hi Hq Hok Hst Hth Hno Htid.
  assert (i = _task s) as -> by (destruct (decide (i = _task s)) as [|Hne]; [done|]; by apply H3 in Hi as [_ Hf]; destruct Hq; apply Hf).
  split; cbn; rewrite ?lookup_alter_eq, ?Hi; cbn; try done.
  - intros j t. destruct (decide (j = _task s)) as [->|Hj].
    + rewrite lookup_alter_eq, Hi. cbn. by intros [= <-].
    + rewrite lookup_alter_ne by done. apply H3.
  - intros tid E. apply Hst. by eapply H6.
  - intros E. apply Hst. by apply H7.
  - intros E t tid [= <-] Ht. cbn. destruct (task_thread (mkTask x q)) as [tid2|] eqn:E2.
    + by apply (H8 E _ tid2 Hi).
    + exfalso. by apply (Hno E); [rewrite Ht|].
  - intros t tid [= <-]. cbn. apply Htid.
  - intros t tid [= <-]. cbn. apply Hth.
Qed.

Lemma inv_move_same i x q q' s : inv s -> tasks s !! i = Some (mkTask x q) -> q <> Finished ->
  cur_ok (_state s) (_taskSynchro s) (Some (mkTask x q')) ->
  (forall tid, task_thread (mkTask x q') = Some tid ->
     callers s !! tid = None \/ callers s !! tid = Some CheckStop /\ q' = Calling tid) ->
  (_taskSynchro s = None -> task_thread (mkTask x q') <> None -> task_thread (mkTask x q) <> None) ->
  (forall tid, q' = Calling tid -> _tid s = tid) ->
  inv (set_status i q' s).
Proof.
  intros. replace (set_status i q' s) with (set_state (_state s) (set_tid (_tid s) (set_status i q' s))) by by destruct s.
  by eapply inv_move.
Qed.

(** The current call, when it is known not to be finished. *)
Lemma inv_current i x q s : inv s -> tasks s !! i = Some (mkTask x q) -> q <> Finished ->
  i = _task s /\ cur_ok (_state s) (_taskSynchro s) (Some (mkTask x q)).
Proof.
  intros Hinv Hi Hq. assert (i = _task s) as ->.
  { destruct (decide (i = _task s)) as [|Hne]; [done|]. apply (inv_others s Hinv) in Hi as [_ Hf]. by destruct Hq; apply Hf. }
  split; [done|]. rewrite <- Hi. apply (inv_cur s Hinv).
Qed.

Lemma cancel_thread s t tid : tasks (cancel s) !! _task (cancel s) = Some t -> task_thread t = Some tid ->
  tasks s !! _task s = Some t.
Proof.
  unfold cancel. destruct (tasks s !! _task s) as [[x []]|] eqn:E; cbn; try (rewrite E; done).
  destruct cancelable; cbn; [|by rewrite E]. rewrite lookup_alter_eq, E. cbn. by intros [= <-].
Qed.

Lemma cancel_fields s : callers (cancel s) = callers s /\ _state (cancel s) = _state s /\ _tid (cancel s) = _tid s /\
  _taskSynchro (cancel s) = _taskSynchro s /\ executions (cancel s) = executions s /\ _task (cancel s) = _task s.
Proof. unfold cancel. destruct (tasks s !! _task s) as [[x []]|]; try done. by destruct cancelable. Qed.

(** ** The steps keep the invariant *)

Lemma inv_leave tid (join : bool) s : (_state s = Stopping \/ _state s = Stopped) ->
  (forall o, callers s !! tid <> Some (Joining (Some o))) ->
  (forall t, tasks s !! _task s = Some t -> task_thread t = Some tid -> status t = Calling tid) -> inv s ->
  inv (set_callers (if join then <[tid := CheckStop]> (callers s) else delete tid (callers s)) s).
Proof. intros. destruct join; [by apply inv_checkstop|by apply inv_delete]. Qed.

Lemma inv_asyncStop tid join s : (forall o, callers s !! tid <> Some (Joining (Some o))) ->
  (forall t, tasks s !! _task s = Some t -> task_thread t = Some tid -> status t = Calling tid) -> inv s ->
  inv (asyncStop tid join s).
Proof.
  intros Hj Ht Hinv. pose proof (inv_cur s Hinv) as Hc. unfold asyncStop.
  assert (forall s', callers s' = callers s -> tasks s' = tasks s -> _task s' = _task s -> _state s' = Stopping -> inv s' ->
    inv (set_callers (if join then <[tid := CheckStop]> (callers (cancel s')) else delete tid (callers (cancel s'))) (cancel s'))) as Hcancel.
  { intros s' Ec Et Ei Es Hs'. destruct (cancel_fields s') as (F1 & F2 & _).
    apply inv_leave.
    - rewrite F2. by left.
    - intros o. rewrite F1, Ec. apply Hj.
    - intros t Hi Hl. apply (Ht t); [|done]. rewrite <- Et, <- Ei. by apply (cancel_thread s' t tid).
    - apply inv_cancel; [by left|done]. }
  destruct (_state s) eqn:Es.
  - apply inv_leave; auto.
  - apply Hcancel; try done. apply inv_set_stopping; auto.
  - apply Hcancel; try done. apply inv_set_stopping; auto.
  - by apply Hcancel.
  - apply inv_wait; try done. destruct Hc as (x & q & _ & E & Hq). rewrite E. intros t [= <-] Hl.
    specialize (Ht _ E Hl). cbn in Ht. by subst q.
  - apply inv_wait; try done. destruct Hc as (_ & t' & E & Hq). rewrite E. intros t [= <-] Hl.
    specialize (Ht _ E Hl). congruence.
Qed.

Lemma inv_stop_check tid s : callers s !! tid = Some CheckStop -> inv s -> inv (stop_check tid s).
Proof.
  intros Hc Hinv. unfold stop_check. destruct (decide (tid = _tid s)) as [Et|Hne].
  { apply inv_delete; [|done]. rewrite Hc. by intros o. }
  destruct Hinv as [H1 H2 H3 H4 H5 H6 H7 H8 H9 H10]. pose proof (H6 tid Hc) as Hst.
  split; cbn; try done.
  - destruct Hst as [Es|Es]; rewrite Es in *; [|exact H4]. destruct H4 as (t & -> & _). by exists t.
  - intros _ t tid' Hi Hl. destruct (_taskSynchro s) as [x|] eqn:Ex.
    + exists tid. rewrite lookup_insert_eq. do 2 f_equal. destruct Hst as [Es|Es]; rewrite Es in H4; cbn in H4.
      * destruct H4 as (t' & E & <- & _). congruence.
      * rewrite Hi in H4. unfold task_thread in Hl. by rewrite H4 in Hl.
    + destruct (H8 eq_refl t tid' Hi Hl) as [tid2 E]. exists tid2. rewrite lookup_insert_ne; [done|].
      intros ->. congruence.
  - intros t tid' Hi Hl. destruct (decide (tid = tid')) as [->|].
    + exfalso. destruct (H10 t tid' Hi Hl) as [E|[_ E]]; [congruence|]. apply Hne. symmetry. by eapply H9.
    + rewrite lookup_insert_ne by done. eauto.
Qed.

Lemma inv_joined tid o s : callers s !! tid = Some (Joining o) -> locked o s = false -> inv s ->
  inv (set_callers (delete tid (callers s)) s).
Proof.
  intros Hc Hl [H1 H2 H3 H4 H5 H6 H7 H8 H9 H10]. split; cbn; try done.
  - intros tid' o' [_ E]%lookup_delete_Some. by eapply H5.
  - intros tid' [_ E]%lookup_delete_Some. by eapply H6.
  - intros H t tid' Hi Ht. destruct (H8 H t tid' Hi Ht) as [tid2 E]. exists tid2. rewrite lookup_delete_ne; [done|].
    intros ->. rewrite Hc in E. injection E as ->. by rewrite (locked_false _ _ Hl _ _ Hi eq_refl) in Ht.
  - intros t tid' Hi Ht. destruct (decide (tid = tid')) as [->|]; [left; by rewrite lookup_delete_eq|].
    rewrite lookup_delete_ne by done. eauto.
Qed.

Lemma inv_finished_all s : inv s -> (forall t, tasks s !! _task s = Some t -> status t = Finished) ->
  forall i t, tasks s !! i = Some t -> (i <= _task s)%nat /\ status t = Finished.
Proof.
  intros Hinv Hc i t Hi. destruct (inv_others s Hinv i t Hi) as [Hle Hf]. split; [done|].
  destruct (decide (i = _task s)) as [->|]; auto.
Qed.

Lemma inv_start tid immediate s s' : stopping_callers s = false -> inv s -> start tid immediate s = Ok s' -> inv s'.
Proof.
  intros Hs Hinv. unfold start. destruct (inv_config s Hinv) as [-> Hp]. cbn [negb].
  destruct (_period s <? 0); [done|]. destruct (decide (tid = _tid s)); [by intros [= <-]|].
  destruct (decide (_state s <> Stopped)) as [|Es]; [by intros [= <-]|]. apply dec_stable in Es. intros [= <-].
  pose proof (stopping_callers_false s Hs) as Hc.
  apply (inv_reschedule _ _ (synchros s)); cbn; try done.
  - apply (inv_config s Hinv).
  - apply (inv_assertion s Hinv).
  - apply inv_finished_all; [done|]. intros t Hi. pose proof (inv_cur s Hinv) as C. rewrite Es, Hi in C. done.
  - intros tid' o E. by apply Hc in E as [b E].
  - intros tid' E. by apply Hc in E as [b E].
Qed.

Lemma inv_trigger tid s : may_call tid s = true -> inv s -> inv (trigger tid s).
Proof.
  intros [Hn Ht]%may_call_spec Hinv. unfold trigger. destruct (_state s) eqn:Es; try done.
  destruct (cancel_fields (set_state Triggering s)) as (F1 & F2 & _).
  pose proof (inv_cancel (set_state Triggering s) (or_intror eq_refl) (inv_set_triggering s Es Hinv)) as Hc.
  change (callers s) with (callers (set_state Triggering s)) at 1. rewrite <- F1 at 1.
  apply inv_wait; try done; rewrite ?F1; cbn; [by rewrite Hn|].
  intros t Hi Hl. apply (cancel_thread (set_state Triggering s) t tid) in Hi; [|done]. cbn in Hi.
  pose proof (Ht _ _ Hi Hl) as Et. pose proof (inv_cur s Hinv) as C. rewrite Es, Hi in C.
  destruct C as (x & q & _ & [= ->] & Hq). cbn in Et. by subst q.
Qed.

Lemma inv_trigger_wake tid b s : callers s !! tid = Some (WaitTrigger b) -> inv s -> inv (trigger_wake tid s).
Proof.
  intros Hc Hinv. unfold trigger_wake.
  assert (inv (set_callers (delete tid (callers s)) s)) as Hd by (apply inv_delete; [by rewrite Hc|done]).
  destruct (_state s) eqn:Es; try done.
  - apply inv_wait; try done; [by rewrite Hc|]. intros t Hi Hl.
    destruct (inv_thread s Hinv t tid Hi Hl) as [E|[E _]]; congruence.
  - pose proof (inv_cur s Hinv) as C. rewrite Es in C. destruct C as ((x & Hx) & t & Ht & Hf).
    apply (inv_reschedule _ _ x); cbn; try done.
    + apply (inv_config s Hinv).
    + apply (inv_assertion s Hinv).
    + apply inv_finished_all; [done|]. intros t' Hi. congruence.
    + intros tid' o [_ E]%lookup_delete_Some. apply (inv_joining s Hinv) in E. congruence.
    + intros tid' [_ E]%lookup_delete_Some. apply (inv_check s Hinv) in E. destruct E; congruence.
Qed.

Lemma inv_run i tid x c b s : tasks s !! i = Some (mkTask x (Queued c b)) -> callers s !! tid = None -> inv s ->
  inv (if decide (_taskSynchro s = Some x) then set_status i (Locked tid) s else set_status i Finished s).
Proof.
  intros Hi Hc Hinv. destruct (inv_current i x _ s Hinv Hi ltac:(done)) as [-> C].
  destruct (decide (_taskSynchro s = Some x)) as [Ex|Hne].
  - apply (inv_move_same _ x (Queued c b)); try done; [|intros tid' [= <-]; by left|congruence].
    destruct (_state s); cbn in *; try done.
    + destruct C as (y & q & -> & [= <- <-] & _). by exists x, (Locked tid).
    + by destruct C as (y & q & _ & [= _ <-] & ?).
    + eexists. split; [done|]. rewrite Ex. done.
    + destruct C as (y & q & -> & [= <- <-] & _). by exists x, (Locked tid).
    + destruct C as (_ & t & [= <-] & ?). done.
  - apply (inv_move_same _ x (Queued c b)); try done.
    destruct (_state s); cbn in *; try done.
    + destruct C as (y & q & E & [= <- <-] & _). by destruct Hne.
    + by destruct C as (y & q & _ & [= _ <-] & ?).
    + eexists. split; [done|]. destruct C as (t & [= <-] & C). destruct (_taskSynchro s); [|done].
      destruct C as [<- _]. by destruct Hne.
    + destruct C as (y & q & E & [= <- <-] & _). by destruct Hne.
    + destruct C as (_ & t & [= <-] & ?). done.
Qed.

Lemma inv_canceled i x s : tasks s !! i = Some (mkTask x (Queued true true)) -> inv s ->
  inv (_onTaskFinished (set_status i Finished s)).
Proof.
  intros Hi Hinv. destruct (inv_current i x _ s Hinv Hi ltac:(done)) as [-> C].
  unfold _onTaskFinished. apply inv_notify. cbn [set_status set_tasks _state].
  assert (forall st', cur_ok st' (_taskSynchro s) (Some (mkTask x Finished)) ->
    (_state s = Stopping \/ _state s = Stopped -> st' = Stopping \/ st' = Stopped) ->
    inv (set_state st' (set_status (_task s) Finished s))) as Hm.
  { intros st' Hok Hst. replace (set_state st' (set_status (_task s) Finished s)) with
      (set_state st' (set_tid (_tid s) (set_status (_task s) Finished s))) by by destruct s.
    by apply (inv_move _ x (Queued true true)). }
  destruct (_state s) eqn:Es; cbn in C; try done.
  - by destruct C as (y & q & _ & [= _ <-] & ?).
  - by destruct C as (y & q & _ & [= _ <-] & ?).
  - apply Hm; [done|]. by right.
  - destruct C as (y & q & Ey & [= <- <-] & _). apply Hm; [|by intros [?|?]].
    split; [by exists x|]. by eexists.
  - by destruct C as (_ & t & [= <-] & ?).
Qed.

Lemma inv_enter i x tid s : tasks s !! i = Some (mkTask x (Locked tid)) -> inv s -> inv (_wrap_enter i tid s).
Proof.
  intros Hi Hinv. destruct (inv_current i x _ s Hinv Hi ltac:(done)) as [-> C].
  assert (callers s !! tid = None) as Hc.
  { destruct (inv_thread s Hinv _ tid Hi eq_refl) as [|[_ ?]]; done. }
  assert (forall q' st', q' <> Locked tid -> cur_ok st' (_taskSynchro s) (Some (mkTask x q')) ->
    (_state s = Stopping \/ _state s = Stopped -> st' = Stopping \/ st' = Stopped) ->
    (q' = Started tid \/ q' = Finished) ->
    inv (set_state st' (set_status (_task s) q' s))) as Hm.
  { intros q' st' _ Hok Hst Hq. replace (set_state st' (set_status (_task s) q' s)) with
      (set_state st' (set_tid (_tid s) (set_status (_task s) q' s))) by by destruct s.
    apply (inv_move _ x (Locked tid)); try done; destruct Hq as [->| ->]; try done. intros tid' [= <-]. by left. }
  unfold _wrap_enter. destruct (_state s) eqn:Es; cbn in C; try done.
  - destruct C as (y & q & Ey & [= <- <-] & _). apply inv_notify, Hm; auto; [by exists x, (Started tid)|by intros [?|?]].
  - by destruct C as (y & q & _ & [= _ <-] & ?).
  - apply inv_notify, Hm; auto; done.
  - destruct C as (y & q & Ey & [= <- <-] & _). apply inv_notify, Hm; auto; [by exists x, (Started tid)|by intros [?|?]].
  - by destruct C as (_ & t & [= <-] & ?).
Qed.

(** In the callback the state is running or stopping, and so is it until the last
    section. *)
Lemma inv_calling i x q q' tid' s : tasks s !! i = Some (mkTask x q) ->
  match q with Started _ | Calling _ | Returned _ | Threw _ => True | _ => False end ->
  match q' with Started _ | Calling _ | Returned _ | Threw _ => True | _ => False end ->
  (forall tid, task_thread (mkTask x q') = Some tid ->
     callers s !! tid = None \/ callers s !! tid = Some CheckStop /\ q' = Calling tid) ->
  (forall tid, q' = Calling tid -> tid' = tid) ->
  inv s -> inv (set_tid tid' (set_status i q' s)).
Proof.
  intros Hi Hq Hq' Hth Ht Hinv. assert (q <> Finished) as Hf by by destruct q.
  destruct (inv_current i x q s Hinv Hi Hf) as [-> C].
  replace (set_tid tid' (set_status (_task s) q' s)) with
    (set_state (_state s) (set_tid tid' (set_status (_task s) q' s))) by by destruct s.
  apply (inv_move _ x q); try done; [|by intros _ _; destruct q].
  destruct (_state s); cbn in *; try done.
  - destruct C as (y & p & Ey & [= <- <-] & ?). by destruct q.
  - destruct C as (y & p & Ey & [= <- <-] & ?). by exists x, q'.
  - destruct C as (t & [= <-] & C). eexists. split; [done|]. destruct (_taskSynchro s); [|done].
    destruct C as [<- _]. split; [done|]. by destruct q'.
  - destruct C as (y & p & Ey & [= <- <-] & ?). by destruct q.
  - destruct C as (_ & t & [= <-] & ?). cbn in *. by subst q.
Qed.

Lemma inv_log s : inv s -> inv (log_execution s).
Proof. by intros [H1 H2 H3 H4 H5 H6 H7 H8 H9 H10]. Qed.

Lemma inv_last i x q s : tasks s !! i = Some (mkTask x q) ->
  match q with Returned _ | Threw _ => True | _ => False end -> inv s -> _state s = Running \/ _state s = Stopping.
Proof.
  intros Hi Hq Hinv. assert (q <> Finished) as Hf by by destruct q.
  destruct (inv_current i x q s Hinv Hi Hf) as [-> C]. destruct (_state s); cbn in C; auto.
  - by subst q.
  - destruct C as (y & p & Ey & [= <- <-] & ?). by destruct q.
  - destruct C as (y & p & Ey & [= <- <-] & ?). by destruct q.
  - destruct C as (_ & t & [= <-] & ?). cbn in *. by subst q.
Qed.

Lemma inv_stopped i x q s : tasks s !! i = Some (mkTask x q) -> q <> Finished -> inv s ->
  inv (set_state Stopped (set_status i Finished s)).
Proof.
  intros Hi Hf Hinv. destruct (inv_current i x q s Hinv Hi Hf) as [-> C].
  replace (set_state Stopped (set_status (_task s) Finished s)) with
    (set_state Stopped (set_tid (_tid s) (set_status (_task s) Finished s))) by by destruct s.
  apply (inv_move _ x q); try done. by right.
Qed.

Lemma inv_leave_wrap i x tid delta s : tasks s !! i = Some (mkTask x (Returned tid)) -> inv s ->
  inv (_wrap_leave i delta s).
Proof.
  intros Hi Hinv. destruct (inv_last i x _ s Hi I Hinv) as [Es|Es]; unfold _wrap_leave; cbn [set_status set_tasks _state]; rewrite Es.
  - destruct (inv_current i x _ s Hinv Hi ltac:(done)) as [-> C]. rewrite Es in C. destruct C as (y & q & Ey & [= <- <-] & _).
    apply (inv_reschedule _ _ x); cbn; try done.
    + apply (inv_config s Hinv).
    + apply (inv_assertion s Hinv).
    + intros j t. destruct (decide (j = _task s)) as [->|Hj].
      * rewrite lookup_alter_eq, Hi. cbn. by intros [= <-].
      * rewrite lookup_alter_ne by done. intros Hj'. destruct (inv_others s Hinv j t Hj') as [? Hf]. auto.
    + intros tid' o E. apply (inv_joining s Hinv) in E. congruence.
    + intros tid' E. apply (inv_check s Hinv) in E. destruct E; congruence.
  - apply inv_notify. by apply (inv_stopped i x (Returned tid)).
Qed.

Lemma inv_step s e s' : inv s -> step e s = Some s' -> inv s'.
Proof.
  intros Hinv. destruct e; cbn [step].
  - unfold setPeriod. destruct (Z.ltb_spec period 0); intros [= <-]; [done|].
    destruct Hinv as [[Hc _] H2 H3 H4 H5 H6 H7 H8 H9 H10]. by split.
  - intros [= <-]. by destruct Hinv.
  - destruct (may_call tid s) eqn:Em; [|done]. destruct (stopping_callers s) eqn:Ec; [done|].
    destruct (match _state s with Stopped => _ | _ => _ end); [done|]. cbn.
    destruct (start tid immediate s) as [s1|] eqn:E; intros [= <-]; [|done]. by eapply inv_start.
  - destruct (may_call tid s) eqn:Em; [|done]. intros [= <-]. apply may_call_spec in Em as [Hn Ht].
    apply inv_asyncStop; [by rewrite Hn| |done]. intros t Hi. by apply (Ht _ _ Hi).
  - destruct (callers s !! tid) as [[]|] eqn:E; try done. intros [= <-]. by apply inv_stop_check.
  - destruct (callers s !! tid) as [[]|] eqn:E; try done. destruct (locked synchro s) eqn:El; [done|].
    intros [= <-]. by eapply inv_joined.
  - destruct (may_call tid s) eqn:Em; [|done]. intros [= <-]. by apply inv_trigger.
  - destruct (callers s !! tid) as [[]|] eqn:E; try done; intros [= <-].
    + apply inv_asyncStop; [by rewrite E| |done]. intros t Hi Hl.
      destruct (inv_thread s Hinv t tid Hi Hl) as [F|[F _]]; congruence.
    + by eapply inv_trigger_wake.
  - destruct (tasks s !! i) as [[x []]|] eqn:E; try done.
    destruct (caller_free tid s) eqn:Ef; [|done]. destruct (negb (in_progress s tid)); [|done].
    destruct (bool_decide (tid <> invalidThreadId)); [|done]. cbn. intros H.
    pose proof (inv_run i tid x _ _ s E (caller_free_None _ _ Ef) Hinv) as G.
    destruct (decide (_taskSynchro s = Some x)); by injection H as <-.
  - destruct (tasks s !! i) as [[x [[] []| | | | | |]]|] eqn:E; try done. intros [= <-]. by apply (inv_canceled i x).
  - destruct (tasks s !! i) as [[x []]|] eqn:E; try done. intros [= <-]. by apply (inv_enter i x).
  - destruct (tasks s !! i) as [[x []]|] eqn:E; try done. intros [= <-]. apply inv_log.
    apply (inv_calling i x (Started tid)); try done; [|by intros ? [= <-]].
    intros tid' [= <-]. left. assert (i = _task s) as -> by by destruct (inv_current i x _ s Hinv E).
    by destruct (inv_thread s Hinv _ tid E eq_refl) as [|[_ ?]].
  - destruct (tasks s !! i) as [[x []]|] eqn:E; try done. destruct (caller_free tid s) eqn:Ef; [|done]. intros [= <-].
    apply (inv_calling i x (Calling tid)); try done. intros tid' [= <-]. left. by apply caller_free_None.
  - destruct (tasks s !! i) as [[x []]|] eqn:E; try done. destruct (caller_free tid s) eqn:Ef; [|done]. intros [= <-].
    replace (set_status i (Threw tid) s) with (set_tid (_tid s) (set_status i (Threw tid) s)) by by destruct s.
    apply (inv_calling i x (Calling tid)); try done. intros tid' [= <-]. left. by apply caller_free_None.
  - destruct (tasks s !! i) as [[x []]|] eqn:E; try done; intros [= <-].
    + by apply (inv_leave_wrap i x tid).
    + apply inv_notify. by apply (inv_stopped i x (Threw tid)).
Qed.

Lemma periodic_inv s : reachable s -> inv s.
Proof. induction 1 as [|s e s' _ IH H]; [by apply periodic_inv_new|by eapply inv_step]. Qed.

(** ** Properties *)

Definition not_start (e : task_event) : bool := match e with EStart _ _ => false | _ => true end.

Lemma run_reachable es s s' : reachable s -> run es s = Some s' -> reachable s'.
Proof.
  revert s; induction es as [|e es IH]; intros s Hs; cbn; [by intros [= <-]|].
  destruct (step e s) as [s1|] eqn:E; [|done]. apply IH. by eapply reachable_step.
Qed.

(** C15. In every state that is reached no assertion has failed, at most one
    call is in progress, so that two executions of the callback never overlap, and
    while one is in the callback the task is running or is being stopped. *)
Theorem periodic_safe s :
  reachable s ->
  assertion_failed s = false /\
  (forall i j t u, tasks s !! i = Some t -> tasks s !! j = Some u ->
     task_thread t <> None -> task_thread u <> None -> i = j) /\
  (forall i t tid, tasks s !! i = Some t -> status t = Calling tid -> _state s = Running \/ _state s = Stopping).
Proof.
  intros Hinv%periodic_inv. split; [apply (inv_assertion s Hinv)|].
  assert (forall i t, tasks s !! i = Some t -> task_thread t <> None -> i = _task s) as Hc.
  { intros i t Hi Ht. destruct (decide (i = _task s)) as [|Hne]; [done|]. apply (inv_others s Hinv) in Hi as [_ Hf].
    destruct Ht. unfold task_thread. by rewrite Hf. }
  split.
  - intros i j t u Hi Hj Ht Hu. by rewrite (Hc i t Hi Ht), (Hc j u Hj Hu).
  - intros i [x q] tid Hi Hq. cbn in Hq. subst q. destruct (inv_current i x _ s Hinv Hi ltac:(done)) as [_ C].
    destruct (_state s); cbn in C; auto; try done; [by destruct C as (y & q & _ & [= _ <-] & ?)..|].
    by destruct C as (_ & t & [= <-] & ?).
Qed.

Definition periodic_start : PeriodicTaskPrivate := set_config true 10 false PeriodicTask_new.

Lemma periodic_safe_witness : reachable periodic_start /\ assertion_failed periodic_start = false.
Proof. split; [by apply reachable_new|]. apply (periodic_safe periodic_start). by apply reachable_new. Defined.

(** Nothing is in progress and nothing can begin. *)
Definition quiet (s : PeriodicTaskPrivate) : Prop :=
  _taskSynchro s = None /\ forall i t, tasks s !! i = Some t -> task_thread t = None.

Lemma quiet_cancel s : quiet s -> quiet (cancel s).
Proof.
  intros [H1 H2]. split; [by destruct (cancel_fields s) as (_ & _ & _ & -> & _)|]. intros i t. unfold cancel.
  destruct (tasks s !! _task s) as [[x []]|] eqn:E; try apply H2. destruct cancelable; [|apply H2]. cbn.
  destruct (decide (i = _task s)) as [->|Hi].
  - rewrite lookup_alter_eq, E. by intros [= <-].
  - rewrite lookup_alter_ne by done. apply H2.
Qed.

Lemma quiet_set_status i q s : task_thread (mkTask 0 q) = None -> quiet s -> quiet (set_status i q s).
Proof.
  intros Hq [H1 H2]. split; [done|]. intros j t. cbn. destruct (decide (i = j)) as [->|Hi].
  - rewrite lookup_alter_eq. destruct (tasks s !! j); [|done]. by intros [= <-].
  - rewrite lookup_alter_ne by done. apply H2.
Qed.

Lemma quiet_asyncStop tid join s : quiet s -> quiet (asyncStop tid join s) /\ executions (asyncStop tid join s) = executions s.
Proof.
  intros H. assert (forall st, quiet (cancel (set_state st s)) /\ executions (cancel (set_state st s)) = executions s) as Hc.
  { intros st. split; [by apply quiet_cancel|]. by destruct (cancel_fields (set_state st s)) as (_ & _ & _ & _ & -> & _). }
  pose proof (Hc Stopping). assert (quiet (cancel s) /\ executions (cancel s) = executions s).
  { split; [by apply quiet_cancel|]. by destruct (cancel_fields s) as (_ & _ & _ & _ & -> & _). }
  unfold asyncStop. by destruct (_state s).
Qed.

Lemma quiet_step e s s' : inv s -> quiet s -> not_start e = true -> step e s = Some s' ->
  quiet s' /\ executions s' = executions s.
Proof.
  intros Hinv Hq He. pose proof (inv_none s Hinv (proj1 Hq)) as Hst. destruct Hq as [H1 H2]. assert (quiet s) as Hq by by split.
  destruct e; cbn [step]; try done.
  - unfold setPeriod. destruct (period <? 0); by intros [= <-].
  - by intros [= <-].
  - destruct (may_call tid s); [|done]. intros [= <-]. by apply quiet_asyncStop.
  - destruct (callers s !! tid) as [[]|]; try done. intros [= <-]. unfold stop_check. by destruct (decide _).
  - destruct (callers s !! tid) as [[]|]; try done. destruct (locked synchro s); [done|]. by intros [= <-].
  - destruct (may_call tid s); [|done]. intros [= <-]. unfold trigger. by destruct Hst as [-> | ->].
  - destruct (callers s !! tid) as [[]|]; try done; intros [= <-]; [by apply quiet_asyncStop|].
    unfold trigger_wake. by destruct Hst as [-> | ->].
  - destruct (tasks s !! i) as [[x []]|]; try done. destruct (_ && _); [|done]. rewrite H1.
    intros [= <-]. split; [by apply quiet_set_status|done].
  - destruct (tasks s !! i) as [[x [[] []| | | | | |]]|]; try done. intros [= <-].
    unfold _onTaskFinished. cbn [set_status set_tasks _state].
    pose proof (quiet_set_status i Finished s eq_refl Hq) as [G1 G2].
    by destruct Hst as [-> | ->].
  - destruct (tasks s !! i) as [t|] eqn:E; [|done]. specialize (H2 i t E). by destruct t as [x []].
  - destruct (tasks s !! i) as [t|] eqn:E; [|done]. specialize (H2 i t E). by destruct t as [x []].
  - destruct (tasks s !! i) as [t|] eqn:E; [|done]. specialize (H2 i t E). by destruct t as [x []].
  - destruct (tasks s !! i) as [t|] eqn:E; [|done]. specialize (H2 i t E). by destruct t as [x []].
  - destruct (tasks s !! i) as [t|] eqn:E; [|done]. specialize (H2 i t E). by destruct t as [x []].
Qed.

Lemma quiet_run es s s' : inv s -> quiet s -> forallb not_start es = true -> run es s = Some s' ->
  quiet s' /\ executions s' = executions s /\ inv s'.
Proof.
  revert s; induction es as [|e es IH]; intros s Hinv Hq He; cbn; [by intros [= <-]|].
  apply andb_true_iff in He as [He Hes]. destruct (step e s) as [s1|] eqn:E; [|done]. cbn. intros Hr.
  destruct (quiet_step e s s1 Hinv Hq He E) as [Hq1 <-]. apply (IH s1); try done. by eapply inv_step.
Qed.

(** When [stop] returns, from another thread than that of the callback and
    unless another thread is in [stop] too, nothing is in progress; until the next
    [start] the callback is not executed any more and the task is stopping or
    stopped. *)
Theorem stop_quiescent s tid o s' es s'' :
  reachable s -> callers s !! tid = Some (Joining o) ->
  (forall tid' o', tid' <> tid -> callers s !! tid' <> Some (Joining o')) ->
  step (EJoined tid) s = Some s' -> forallb not_start es = true -> run es s' = Some s'' ->
  executions s'' = executions s' /\ isStopping s'' = true /\
  forall i t, tasks s'' !! i = Some t -> task_thread t = None.
Proof.
  intros Hs Hc Ho Hstep He Hr. pose proof (periodic_inv s Hs) as Hinv.
  assert (inv s') as Hinv' by (by eapply inv_step).
  cbn in Hstep. rewrite Hc in Hstep. destruct (locked o s) eqn:El; [done|]. injection Hstep as <-.
  pose proof (inv_joining s Hinv tid o Hc) as Hn.
  assert (quiet s) as Hq.
  { split; [done|]. intros i t Hi. destruct (task_thread t) as [th|] eqn:Et; [|done].
    assert (i = _task s) as ->.
    { destruct (decide (i = _task s)) as [|Hne]; [done|]. destruct (inv_others s Hinv i t Hi) as [_ Hf].
      unfold task_thread in Et. by rewrite Hf in Et. }
    destruct (inv_locked s Hinv Hn t th Hi Et) as [tid' E]. destruct (decide (tid' = tid)) as [->|Hne].
    - rewrite Hc in E. injection E as ->. by rewrite (locked_false _ _ El _ _ Hi eq_refl) in Et.
    - by apply Ho in E. }
  destruct (quiet_run es _ s'' Hinv' Hq He Hr) as (Hq'' & -> & Hinv''). split; [done|]. split; [|apply Hq''].
  unfold isStopping. by destruct (inv_none s'' Hinv'' (proj1 Hq'')) as [-> | ->].
Qed.

(** The first call is in the callback when [stop] is called. *)
Definition periodic_joining : list task_event :=
  [EStart 1 true; ERun 1 7; EEnter 1; ECall 1; EStop 1 true; ECheck 1; EReturn 1; ELeave 1 3].

Definition run_state (es : list task_event) : PeriodicTaskPrivate := default periodic_start (run es periodic_start).

Lemma stop_quiescent_witness :
  executions (run_state (periodic_joining ++ [EJoined 1; ETrigger 2])) = executions (run_state (periodic_joining ++ [EJoined 1])) /\
  isStopping (run_state (periodic_joining ++ [EJoined 1; ETrigger 2])) = true.
Proof.
  assert (reachable (run_state periodic_joining)) as H.
  { apply (run_reachable periodic_joining periodic_start); [by apply reachable_new|]. vm_compute. reflexivity. }
  assert (callers (run_state periodic_joining) = {[1 := Joining (Some 0%nat)]}) as Hc by (vm_compute; reflexivity).
  destruct (stop_quiescent (run_state periodic_joining) 1 (Some 0%nat) (run_state (periodic_joining ++ [EJoined 1])) [ETrigger 2]
    (run_state (periodic_joining ++ [EJoined 1; ETrigger 2]))) as (H1 & H2 & _); [exact H|..|by split].
  - rewrite Hc. apply lookup_singleton_eq.
  - intros tid' o' Hne. rewrite Hc, lookup_singleton_ne by done. done.
  - vm_compute. reflexivity.
  - reflexivity.
  - vm_compute. reflexivity.
Defined.

(** The state is stopping and every call is finished: nobody will set the state. *)
Definition stuck (s : PeriodicTaskPrivate) : Prop :=
  _state s = Stopping /\ forall i t, tasks s !! i = Some t -> status t = Finished.

Lemma cancel_finished s : (forall i t, tasks s !! i = Some t -> status t = Finished) -> cancel s = s.
Proof.
  intros H. unfold cancel. destruct (tasks s !! _task s) as [[x []]|] eqn:E; try done. by specialize (H _ _ E).
Qed.

Lemma stuck_step e s s' : stuck s -> step e s = Some s' -> stuck s' /\ executions s' = executions s.
Proof.
  intros [H1 H2] E. assert (stuck s) as Hs by by split.
  assert (forall i t, tasks s !! i = Some t -> status t = Finished) as Hf by done.
  assert (forall tid join, stuck (asyncStop tid join s) /\ executions (asyncStop tid join s) = executions s) as Ha.
  { intros tid join. unfold asyncStop. rewrite H1, cancel_finished by done. by destruct join. }
  destruct e; cbn [step] in E.
  - unfold setPeriod in E. destruct (period <? 0); by injection E as <-.
  - by injection E as <-.
  - unfold start in E. rewrite H1 in E. destruct (may_call tid s && _ && _); [|done].
    destruct (negb (_callback s)); [by injection E as <-|]. destruct (_period s <? 0); [by injection E as <-|].
    destruct (decide (tid = _tid s)); [by injection E as <-|]. by injection E as <-.
  - destruct (may_call tid s); [|done]. injection E as <-. apply Ha.
  - destruct (callers s !! tid) as [[]|]; try done. injection E as <-. unfold stop_check. by destruct (decide _).
  - destruct (callers s !! tid) as [[]|]; try done. destruct (locked synchro s); [done|]. by injection E as <-.
  - destruct (may_call tid s); [|done]. injection E as <-. unfold trigger. by rewrite H1.
  - destruct (callers s !! tid) as [[]|]; try done; injection E as <-; [apply Ha|]. unfold trigger_wake. by rewrite H1.
  - destruct (tasks s !! i) as [[x []]|] eqn:Ei; try done. by specialize (Hf _ _ Ei).
  - destruct (tasks s !! i) as [[x [[] []| | | | | |]]|] eqn:Ei; try done. by specialize (Hf _ _ Ei).
  - destruct (tasks s !! i) as [[x []]|] eqn:Ei; try done. by specialize (Hf _ _ Ei).
  - destruct (tasks s !! i) as [[x []]|] eqn:Ei; try done. by specialize (Hf _ _ Ei).
  - destruct (tasks s !! i) as [[x []]|] eqn:Ei; try done. by specialize (Hf _ _ Ei).
  - destruct (tasks s !! i) as [[x []]|] eqn:Ei; try done. by specialize (Hf _ _ Ei).
  - destruct (tasks s !! i) as [[x []]|] eqn:Ei; try done; by specialize (Hf _ _ Ei).
Qed.

Lemma stuck_run es s s' : stuck s -> run es s = Some s' -> stuck s' /\ executions s' = executions s.
Proof.
  revert s; induction es as [|e es IH]; intros s Hs; cbn; [by intros [= <-]|].
  destruct (step e s) as [s1|] eqn:E; [|done]. cbn. intros Hr.
  destruct (stuck_step e s s1 Hs E) as [Hs1 <-]. by apply (IH s1).
Qed.

(** The calls of a thread that starts the task at once and stops it before the
    event loop has begun the first call; the call, whose synchronizer is gone when
    it begins, ends in error. *)
Definition start_stop (tid pool : Z) : list task_event :=
  [EStart tid true; EStop tid true; ECheck tid; EJoined tid; ERun 1 pool].

(** After [start] and [stop] in a row the task can be stopping for ever:
    whatever is called then, [start] included, its state stays the same and the
    callback is never executed. *)
Theorem stop_stuck period compensate tid pool :
  0 <= period -> tid <> invalidThreadId -> pool <> invalidThreadId ->
  exists s, run (start_stop tid pool) (set_config true period compensate PeriodicTask_new) = Some s /\
    forall es s', run es s = Some s' -> _state s' = Stopping /\ executions s' = 0%nat.
Proof.
  intros Hp Ht Hpool.
  assert (forall c t s, callers s = c -> tasks s = t -> c !! tid = None -> (forall i u, t !! i = Some u -> task_thread u = None) ->
    may_call tid s = true) as Hmay by (intros c t s <- <-; apply may_call_intro).
  set (s0 := set_config true period compensate PeriodicTask_new).
  set (s1 := _reschedule 0 (set_synchro (Some 0%nat) 1 s0)).
  assert (forall i u, tasks s1 !! i = Some u -> task_thread u = None) as Hthread.
  { intros i u. cbn. intros [[_ <-]|[_ ?]]%lookup_insert_Some; [done|]. by rewrite lookup_empty in *. }
  set (s2 := set_callers (<[tid := CheckStop]> ∅) (set_state Stopping s1)).
  set (s3 := set_synchro None 1 (set_callers (<[tid := Joining (Some 0%nat)]> (<[tid := CheckStop]> ∅)) s2)).
  set (s4 := set_callers (delete tid (callers s3)) s3).
  exists (set_status 1 Finished s4). split.
  - unfold start_stop, run.
    assert (step (EStart tid true) s0 = Some s1) as ->.
    { cbn [step]. rewrite (Hmay ∅ ∅ s0) by done. unfold start. cbn. rewrite (proj2 (Z.ltb_ge period 0) Hp).
      by rewrite decide_False. }
    cbn [mbind option_bind].
    assert (step (EStop tid true) s1 = Some s2) as ->.
    { cbn [step]. by rewrite (Hmay ∅ (tasks s1) s1). }
    cbn [mbind option_bind].
    assert (step (ECheck tid) s2 = Some s3) as ->.
    { cbn [step s2 callers set_callers]. rewrite lookup_insert_eq. unfold stop_check. by rewrite decide_False. }
    cbn [mbind option_bind].
    assert (step (EJoined tid) s3 = Some s4) as ->.
    { cbn [step s3 callers set_callers set_synchro]. rewrite lookup_insert_eq. done. }
    cbn [mbind option_bind].
    assert (callers s4 !! pool = None) as Hc.
    { cbn. rewrite insert_insert_eq, delete_insert_eq. by rewrite delete_empty, lookup_empty. }
    cbn [step]. replace (tasks s4 !! 1%nat) with (Some (mkTask 0 (Queued false false))) by done.
    unfold caller_free. rewrite Hc. by rewrite bool_decide_eq_true_2.
  - intros es s' Hr. destruct (stuck_run es (set_status 1 Finished s4) s') as [[H1 _] H2]; [|done|by split].
    split; [done|]. intros i u. cbn. destruct (decide (i = 1%nat)) as [->|Hi].
    + rewrite lookup_alter_eq, lookup_insert_eq. by intros [= <-].
    + rewrite lookup_alter_ne, lookup_insert_ne by done. by rewrite lookup_empty.
Qed.

Lemma stop_stuck_witness : 0 <= 1000 /\
  exists s, run (start_stop 1 7) (set_config true 1000 false PeriodicTask_new) = Some s /\
    forall es s', run es s = Some s' -> _state s' = Stopping /\ executions s' = 0%nat.
Proof. split; [lia|]. apply (stop_stuck 1000 false 1 7); [lia|done|done]. Defined.

(** *** From stopping to stopped *)

Lemma stops_returned i x tid s : inv s -> _state s = Stopping -> tasks s !! i = Some (mkTask x (Returned tid)) ->
  exists s', run [ELeave i 0] s = Some s' /\ _state s' = Stopped.
Proof.
  intros Hinv Hs Hi. cbn. rewrite Hi. cbn. eexists. split; [done|]. unfold _wrap_leave. cbn. by rewrite Hs.
Qed.

Lemma stops_calling_free i x tid s : inv s -> _state s = Stopping -> tasks s !! i = Some (mkTask x (Calling tid)) ->
  callers s !! tid = None -> exists s', run [EReturn i; ELeave i 0] s = Some s' /\ _state s' = Stopped.
Proof.
  intros Hinv Hs Hi Hc. cbn [run step]. rewrite Hi. unfold caller_free. rewrite Hc. cbn [mbind option_bind].
  cbn [tasks set_tid set_status set_tasks]. rewrite lookup_alter_eq, Hi. cbn. eexists. split; [done|].
  unfold _wrap_leave. cbn. by rewrite Hs.
Qed.

Lemma stops_calling i x tid s : inv s -> _state s = Stopping -> tasks s !! i = Some (mkTask x (Calling tid)) ->
  exists es s', (length es <= 3)%nat /\ forallb not_start es = true /\ run es s = Some s' /\ _state s' = Stopped.
Proof.
  intros Hinv Hs Hi. destruct (inv_current i x _ s Hinv Hi ltac:(done)) as [-> _].
  destruct (inv_thread s Hinv _ tid Hi eq_refl) as [Hc|[Hc _]].
  - destruct (stops_calling_free (_task s) x tid s Hinv Hs Hi Hc) as (s' & Hr & H1).
    exists [EReturn (_task s); ELeave (_task s) 0], s'. split_and!; [cbn; lia|done|done|done].
  - pose proof (inv_tid s Hinv _ tid Hi eq_refl) as Ht.
    assert (step (ECheck tid) s = Some (set_callers (delete tid (callers s)) s)) as Hck.
    { cbn. rewrite Hc. unfold stop_check. by rewrite decide_True. }
    destruct (stops_calling_free (_task s) x tid (set_callers (delete tid (callers s)) s)) as (s' & Hr & H1).
    + by apply (inv_step s (ECheck tid)).
    + done.
    + done.
    + apply lookup_delete_eq.
    + exists [ECheck tid; EReturn (_task s); ELeave (_task s) 0], s'. split_and!; [cbn; lia|done| |done].
      change (run (ECheck tid :: ?es) s) with (step (ECheck tid) s ≫= run es). rewrite Hck. exact Hr.
Qed.

(** A task that is stopping and whose synchronizer is not destroyed, that is
    after [asyncStop], stops: its call finishes in at most four steps of the event
    loop and of the callback, after which the state is stopped. *)
Theorem asyncStop_stops s x :
  reachable s -> _state s = Stopping -> _taskSynchro s = Some x ->
  exists es s', (length es <= 4)%nat /\ forallb not_start es = true /\ run es s = Some s' /\ _state s' = Stopped.
Proof.
  intros Hinv%periodic_inv Hs Hx. pose proof (inv_cur s Hinv) as C. rewrite Hs, Hx in C.
  destruct C as ([y q] & Hi & Hy & Hq). cbn in Hy, Hq. subst y.
  destruct q as [c b|tid|tid|tid|tid|tid|].
  - assert (exists tid, callers s !! tid = None /\ tid <> invalidThreadId) as (tid & Hc & Hne).
    { exists (fresh ({[invalidThreadId]} ∪ dom (callers s) : gset Z)).
      pose proof (is_fresh ({[invalidThreadId]} ∪ dom (callers s) : gset Z)) as F.
      apply not_elem_of_union in F as [F1 F2]. split; [by apply not_elem_of_dom|]. by apply not_elem_of_singleton in F1. }
    assert (in_progress s tid = false) as Hp.
    { apply not_true_is_false. intros (j & t & Hj & Ht)%existsb_map. cbn in Ht. apply bool_decide_eq_true in Ht.
      destruct (decide (j = _task s)) as [->|Hne2]; [rewrite Hi in Hj; by injection Hj as <-|].
      destruct (inv_others s Hinv j t Hj) as [_ Hf]. unfold task_thread in Ht. by rewrite Hf in Ht. }
    exists [ERun (_task s) tid; EEnter (_task s)]. cbn [run step]. rewrite Hi. unfold caller_free.
    rewrite Hc, Hp, bool_decide_eq_true_2, decide_True by done. cbn [mbind option_bind andb negb tasks set_status set_tasks].
    rewrite lookup_alter_eq, Hi. cbn. eexists. split_and!; [lia|done|done|]. unfold _wrap_enter. cbn. by rewrite Hs.
  - exists [EEnter (_task s)]. cbn. rewrite Hi. cbn. eexists. split_and!; [lia|done|done|]. unfold _wrap_enter. by rewrite Hs.
  - set (s1 := log_execution (set_tid tid (set_status (_task s) (Calling tid) s))).
    assert (step (ECall (_task s)) s = Some s1) as E by (cbn; by rewrite Hi).
    destruct (stops_calling (_task s) x tid s1) as (es & s' & Hl & He & Hr & H1).
    + by eapply inv_step.
    + done.
    + cbn. by rewrite lookup_alter_eq, Hi.
    + exists (ECall (_task s) :: es), s'. split_and!; [cbn; lia|done| |done].
      change (run (ECall (_task s) :: es) s) with (step (ECall (_task s)) s ≫= run es). by rewrite E.
  - destruct (stops_calling (_task s) x tid s Hinv Hs Hi) as (es & s' & Hl & He & Hr & H1).
    exists es, s'. split_and!; [lia|done..].
  - destruct (stops_returned (_task s) x tid s Hinv Hs Hi) as (s' & Hr & H1).
    exists [ELeave (_task s) 0], s'. split_and!; [cbn; lia|done..].
  - exists [ELeave (_task s) 0]. cbn. rewrite Hi. cbn. eexists. split_and!; [lia|done..].
  - done.
Qed.

Lemma asyncStop_stops_witness :
  exists es s', (length es <= 4)%nat /\ forallb not_start es = true /\
    run es (run_state [EStart 1 false; EStop 2 false]) = Some s' /\ _state s' = Stopped.
Proof.
  apply (asyncStop_stops (run_state [EStart 1 false; EStop 2 false]) 0).
  - apply (run_reachable [EStart 1 false; EStop 2 false] periodic_start); [by apply reachable_new|]. vm_compute. reflexivity.
  - vm_compute. reflexivity.
  - vm_compute. reflexivity.
Defined.

(** After a callback that threw, its thread cannot start the task again: the
    identifier of the thread is not cleared and [start] believes that it is called
    from the callback. *)
Example start_after_throw :
  let s := run_state [EStart 1 true; ERun 1 7; EEnter 1; ECall 1; EThrow 1; ELeave 1 0] in
  _state s = Stopped /\ start 7 true s = Ok s.
Proof. vm_compute. by split. Qed.
