(* ===== verification/TransportSocketCache.v ===== *)
(** * TransportSocketCache: the sockets to services

    Model of [src/messaging/transportsocketcache.cpp] and of
    [src/messaging/tcpscheme.cpp]. The state of the cache is a value; an operation
    is the whole of a member function. The promises and the attempts are in tables,
    known by their rank, because several entries share them. The connections that
    the cache asks of its sockets and its subscriptions to their signals are
    recorded: their handlers run at any later moment, in any order. The sockets are
    known by their rank too; what they do is outside. The number of endpoints of a
    service fits an [int]. *)
From S2P Require Import Prelude SortedMap CString Url Parse UriGrammar Uri ServiceDirectory UriEndpoints.
Open Scope Z_scope.

(** ** [tcpscheme.cpp] *)

Inductive TcpScheme := Raw | Tls | MutualTls.

Definition tcpSchemeFromUriScheme (scheme : bytes) : option TcpScheme :=
  if decide (scheme = lit "tcp") then Some Raw
  else if decide (scheme = lit "tcps") then Some Tls
  else if decide (scheme = lit "tcpsm") then Some MutualTls
  else None.

Definition TcpScheme_to_string (scheme : TcpScheme) : bytes :=
  match scheme with Raw => lit "tcp" | Tls => lit "tcps" | MutualTls => lit "tcpsm" end.

Definition isWithTls (scheme : TcpScheme) : bool :=
  match scheme with Tls | MutualTls => true | Raw => false end.

(** [toUrl], of [url.cpp]. *)
Definition toUrl (uri : uri_t) : UrlPrivate :=
  let url := setProtocol UrlPrivate_default (scheme_ uri) in
  match authority_ uri with
  | None => url
  | Some auth =>
      let url := setHost url (host_ auth) in
      match port_ auth with None => url | Some port => setPort url port end
  end.

(** ** The state *)

Inductive promise_state := Unset | SetValue (socket : nat) | SetError.

Inductive State := State_Pending | State_Connected | State_Error.

#[export] Instance promise_state_eq_dec : EqDecision promise_state.
Proof. solve_decision. Defined.
#[export] Instance State_eq_dec : EqDecision State.
Proof. solve_decision. Defined.

Record ConnectionAttempt := mkAttempt {
  promise : nat;
  endpoint : option nat;
  relatedUris : list uri_t;
  attemptCount : Z;
  state : State;
  disconnectionTracking : option nat;
}.

(** A connection that was asked and whose result is not known. *)
Record connection := mkConnection {
  conn_socket : nat;
  conn_url : UrlPrivate;
  conn_uri : uri_t;
  conn_info : ServiceInfo uri_t;
}.

(** The call of [insert] at the end of [onSocketParallelConnectionAttempt], outside
    of the section under the mutex. *)
Record insertion := mkInsertion {
  ins_info : ServiceInfo uri_t;
  ins_socket : nat;
}.

(** A subscription to the signal [disconnected] of a socket. *)
Record subscription := mkSubscription {
  sub_link : nat;
  sub_socket : nat;
  sub_uri : uri_t;
  sub_machine : bytes;
}.

Definition UriMap : Type := list (uri_t * nat).
Definition ConnectionMap : Type := list (bytes * UriMap).

Record TransportSocketCache := mkCache {
  _connections : ConnectionMap;
  _allPendingConnections : list nat;
  _disconnectInfos : list (nat * nat);   (* sockets and promises *)
  _dying : bool;
  attempts : gmap nat ConnectionAttempt;
  nattempts : nat;
  promises : gmap nat promise_state;     (* of the attempts *)
  npromises : nat;
  removed : gset nat;                    (* the promises of disconnections that are set *)
  nremovals : nat;
  nsockets : nat;                        (* the number of sockets *)
  connections : list connection;
  insertions : list insertion;
  subscriptions : list subscription;
  nlinks : nat;
  disconnects : list nat;                (* the calls of [disconnect] on sockets *)
  assertion_failed : bool;
}.

Definition TransportSocketCache_new : TransportSocketCache :=
  mkCache [] [] [] false ∅ 0 ∅ 0 ∅ 0 0 [] [] [] 0 [] false.

(** ** Effects *)

(** An operation returns, throws or has an undefined behaviour. *)
Inductive outcome (A : Type) := Returned (a : A) | Threw | Undefined.
Arguments Returned {A} a.
Arguments Threw {A}.
Arguments Undefined {A}.

Definition M (A : Type) : Type := TransportSocketCache -> outcome A * TransportSocketCache.

#[export] Instance M_ret : MRet M := fun A a c => (Returned a, c).
#[export] Instance M_bind : MBind M := fun A B f m c =>
  match m c with
  | (Returned a, c') => f a c'
  | (Threw, c') => (Threw, c')
  | (Undefined, c') => (Undefined, c')
  end.

Definition get : M TransportSocketCache := fun c => (Returned c, c).
Definition modify (f : TransportSocketCache -> TransportSocketCache) : M unit := fun c => (Returned tt, f c).
Definition throw {A} : M A := fun c => (Threw, c).
Definition undefined {A} : M A := fun c => (Undefined, c).

Fixpoint for_each {A} (f : A -> M unit) (l : list A) : M unit :=
  match l with
  | [] => mret tt
  | x :: l' => f x ;; for_each f l'
  end.

(** The changes of the members. *)

Definition set_connections (m : ConnectionMap) (c : TransportSocketCache) : TransportSocketCache :=
  mkCache m (_allPendingConnections c) (_disconnectInfos c) (_dying c) (attempts c) (nattempts c) (promises c)
    (npromises c) (removed c) (nremovals c) (nsockets c) (connections c) (insertions c)
    (subscriptions c) (nlinks c) (disconnects c) (assertion_failed c).
Definition set_pending (l : list nat) (c : TransportSocketCache) : TransportSocketCache :=
  mkCache (_connections c) l (_disconnectInfos c) (_dying c) (attempts c) (nattempts c) (promises c)
    (npromises c) (removed c) (nremovals c) (nsockets c) (connections c) (insertions c)
    (subscriptions c) (nlinks c) (disconnects c) (assertion_failed c).
Definition set_infos (l : list (nat * nat)) (n : nat) (c : TransportSocketCache) : TransportSocketCache :=
  mkCache (_connections c) (_allPendingConnections c) l (_dying c) (attempts c) (nattempts c) (promises c)
    (npromises c) (removed c) n (nsockets c) (connections c) (insertions c) (subscriptions c) (nlinks c)
    (disconnects c) (assertion_failed c).
Definition set_dying (b : bool) (c : TransportSocketCache) : TransportSocketCache :=
  mkCache (_connections c) (_allPendingConnections c) (_disconnectInfos c) b (attempts c) (nattempts c)
    (promises c) (npromises c) (removed c) (nremovals c) (nsockets c) (connections c) (insertions c)
    (subscriptions c) (nlinks c) (disconnects c) (assertion_failed c).
Definition set_attempts (m : gmap nat ConnectionAttempt) (n : nat) (c : TransportSocketCache) : TransportSocketCache :=
  mkCache (_connections c) (_allPendingConnections c) (_disconnectInfos c) (_dying c) m n (promises c)
    (npromises c) (removed c) (nremovals c) (nsockets c) (connections c) (insertions c)
    (subscriptions c) (nlinks c) (disconnects c) (assertion_failed c).
Definition set_promises (m : gmap nat promise_state) (n : nat) (c : TransportSocketCache) : TransportSocketCache :=
  mkCache (_connections c) (_allPendingConnections c) (_disconnectInfos c) (_dying c) (attempts c)
    (nattempts c) m n (removed c) (nremovals c) (nsockets c) (connections c) (insertions c)
    (subscriptions c) (nlinks c) (disconnects c) (assertion_failed c).
Definition set_removed (s : gset nat) (c : TransportSocketCache) : TransportSocketCache :=
  mkCache (_connections c) (_allPendingConnections c) (_disconnectInfos c) (_dying c) (attempts c)
    (nattempts c) (promises c) (npromises c) s (nremovals c) (nsockets c) (connections c) (insertions c)
    (subscriptions c) (nlinks c) (disconnects c) (assertion_failed c).
Definition set_nsockets (n : nat) (c : TransportSocketCache) : TransportSocketCache :=
  mkCache (_connections c) (_allPendingConnections c) (_disconnectInfos c) (_dying c) (attempts c)
    (nattempts c) (promises c) (npromises c) (removed c) (nremovals c) n (connections c) (insertions c)
    (subscriptions c) (nlinks c) (disconnects c) (assertion_failed c).
Definition set_asked (l : list connection) (c : TransportSocketCache) : TransportSocketCache :=
  mkCache (_connections c) (_allPendingConnections c) (_disconnectInfos c) (_dying c) (attempts c)
    (nattempts c) (promises c) (npromises c) (removed c) (nremovals c) (nsockets c) l (insertions c)
    (subscriptions c) (nlinks c) (disconnects c) (assertion_failed c).
Definition set_insertions (l : list insertion) (c : TransportSocketCache) : TransportSocketCache :=
  mkCache (_connections c) (_allPendingConnections c) (_disconnectInfos c) (_dying c) (attempts c)
    (nattempts c) (promises c) (npromises c) (removed c) (nremovals c) (nsockets c) (connections c) l
    (subscriptions c) (nlinks c) (disconnects c) (assertion_failed c).
Definition set_subscriptions (l : list subscription) (n : nat) (c : TransportSocketCache) : TransportSocketCache :=
  mkCache (_connections c) (_allPendingConnections c) (_disconnectInfos c) (_dying c) (attempts c)
    (nattempts c) (promises c) (npromises c) (removed c) (nremovals c) (nsockets c) (connections c)
    (insertions c) l n (disconnects c) (assertion_failed c).
Definition disconnect_socket (s : nat) (c : TransportSocketCache) : TransportSocketCache :=
  mkCache (_connections c) (_allPendingConnections c) (_disconnectInfos c) (_dying c) (attempts c)
    (nattempts c) (promises c) (npromises c) (removed c) (nremovals c) (nsockets c) (connections c)
    (insertions c) (subscriptions c) (nlinks c) (disconnects c ++ [s]) (assertion_failed c).
Definition fail_assertion (c : TransportSocketCache) : TransportSocketCache :=
  mkCache (_connections c) (_allPendingConnections c) (_disconnectInfos c) (_dying c) (attempts c)
    (nattempts c) (promises c) (npromises c) (removed c) (nremovals c) (nsockets c) (connections c)
    (insertions c) (subscriptions c) (nlinks c) (disconnects c) true.

(** The promise of an attempt, that is made with it. *)
Definition new_promise : M nat := fun c =>
  (Returned (npromises c), set_promises (<[npromises c := Unset]> (promises c)) (S (npromises c)) c).

(** [Promise::setValue] and [setError] throw when the promise is set. *)
Definition set_promise (p : nat) (v : promise_state) : M unit := fun c =>
  match promises c !! p with
  | Some Unset => (Returned tt, set_promises (<[p := v]> (promises c)) (npromises c) c)
  | _ => (Threw, c)
  end.

Definition new_attempt (at_ : ConnectionAttempt) : M nat := fun c =>
  (Returned (nattempts c), set_attempts (<[nattempts c := at_]> (attempts c)) (S (nattempts c)) c).

Definition deref (a : nat) : M ConnectionAttempt := fun c =>
  match attempts c !! a with Some at_ => (Returned at_, c) | None => (Undefined, c) end.

Definition assign (a : nat) (at_ : ConnectionAttempt) : M unit :=
  modify (fun c => set_attempts (<[a := at_]> (attempts c)) (nattempts c) c).

Definition set_state (st : State) (at_ : ConnectionAttempt) : ConnectionAttempt :=
  mkAttempt (promise at_) (endpoint at_) (relatedUris at_) (attemptCount at_) st (disconnectionTracking at_).
Definition set_tracking (link : option nat) (at_ : ConnectionAttempt) : ConnectionAttempt :=
  mkAttempt (promise at_) (endpoint at_) (relatedUris at_) (attemptCount at_) (state at_) link.
Definition one_attempt_less (at_ : ConnectionAttempt) : ConnectionAttempt :=
  mkAttempt (promise at_) (endpoint at_) (relatedUris at_) (attemptCount at_ - 1) (state at_) (disconnectionTracking at_).

(** The subscription to the signal [disconnected] of a socket. *)
Definition subscribe (s : nat) (u : uri_t) (machine : bytes) : M nat := fun c =>
  (Returned (nlinks c), set_subscriptions (subscriptions c ++ [mkSubscription (nlinks c) s u machine]) (S (nlinks c)) c).

Definition unsubscribe (link : option nat) (c : TransportSocketCache) : TransportSocketCache :=
  set_subscriptions (List.filter (fun s => negb (bool_decide (Some (sub_link s) = link))) (subscriptions c)) (nlinks c) c.

Definition make_socket : M nat := fun c => (Returned (nsockets c), set_nsockets (S (nsockets c)) c).

(** [std::list::remove] on the pending connections. *)
Definition remove_pending (s : nat) (c : TransportSocketCache) : TransportSocketCache :=
  set_pending (List.filter (fun s' => negb (bool_decide (s' = s))) (_allPendingConnections c)) c.

(** ** The tables *)

Definition uris_of (m : ConnectionMap) (machine : bytes) : UriMap := default [] (map_find str_compare machine m).

Definition find_entry (m : ConnectionMap) (machine : bytes) (u : uri_t) : option nat :=
  map_find uri_compare u (uris_of m machine).

(** [_connections[machineId][uri] = couple]. *)
Definition set_entry (machine : bytes) (u : uri_t) (a : nat) (m : ConnectionMap) : ConnectionMap :=
  map_set str_compare machine (map_set uri_compare u a (uris_of m machine)) m.

Arguments uris_of : simpl never.
Arguments find_entry : simpl never.
Arguments set_entry : simpl never.

Definition entries (m : ConnectionMap) : list (uri_t * nat) := concat (map snd m).

(** The destructors, at the end of an operation, of the attempts to which no entry
    refers any more: a promise that is not set is set in error. *)
Definition referenced (m : ConnectionMap) (a : nat) : bool := existsb (fun p => bool_decide (snd p = a)) (entries m).

Definition settle (m : gmap nat promise_state) (p : nat) : gmap nat promise_state :=
  match m !! p with Some Unset => <[p := SetError]> m | _ => m end.

Definition release (c : TransportSocketCache) : TransportSocketCache :=
  let dead := List.filter (fun p => negb (referenced (_connections c) (fst p))) (map_to_list (attempts c)) in
  set_attempts (base.filter (fun p => referenced (_connections c) (fst p) = true) (attempts c)) (nattempts c)
    (set_promises (foldl settle (promises c) (map (fun p => promise (snd p)) dead)) (npromises c) c).

(** ** The operations *)

Section cache.
Context (is_loopback : bytes -> bool) (getMachineId : bytes).

Definition localhost_only (input : list uri_t) : list uri_t := List.filter (hasLoopbackAddress is_loopback) input.

(** The candidates among the endpoints of a service. *)
Definition connectionCandidates (servInfo : ServiceInfo uri_t) : list uri_t :=
  let candidates :=
    if bool_decide (machineId servInfo = getMachineId) then localhost_only (endpoints servInfo) else [] in
  match candidates with [] => endpoints servInfo | _ => candidates end.

(** The attempt of the first entry of the machine that is one of the endpoints. *)
Definition find_connection (uris : list uri_t) (m : UriMap) : option nat :=
  option_map snd (List.find (fun p => existsb (fun uri => bool_decide (uri = fst p)) uris) m).

(** The body of the loop on the candidates: a candidate is skipped when its scheme is
    not one of the message sockets or, on another machine, when its host is a
    loopback one. An URI without authority has no host. *)
Definition try_candidate (servInfo : ServiceInfo uri_t) (couple : nat) (u : uri_t) : M unit :=
  match tcpSchemeFromUriScheme (scheme_ u) with
  | None => mret tt
  | Some _ =>
      if negb (bool_decide (machineId servInfo = getMachineId)) && negb (hasAuthority u) then undefined
      else if negb (bool_decide (machineId servInfo = getMachineId)) && hasLoopbackAddress is_loopback u then mret tt
      else
        modify (fun c => set_connections (set_entry (machineId servInfo) u couple (_connections c)) c) ;;
        s ← make_socket ;
        modify (fun c => set_pending (_allPendingConnections c ++ [s]) c) ;;
        modify (fun c => set_asked (connections c ++ [mkConnection s (toUrl u) u servInfo]) c)
  end.

(** [socket] gives the promise of the future that it returns, [None] when the cache
    is closed. *)
Definition socket (servInfo : ServiceInfo uri_t) : M (option nat) :=
  let candidates := connectionCandidates servInfo in
  c ← get ;
  if _dying c then mret None
  else
    match find_connection (endpoints servInfo) (uris_of (_connections c) (machineId servInfo)) with
    | Some a => connection ← deref a ; mret (Some (promise connection))
    | None =>
        p ← new_promise ;
        couple ← new_attempt (mkAttempt p None (endpoints servInfo) (Z.of_nat (length candidates)) State_Pending None) ;
        modify (fun c => set_connections
          (map_set str_compare (machineId servInfo) (uris_of (_connections c) (machineId servInfo)) (_connections c)) c) ;;
        for_each (try_candidate servInfo couple) candidates ;;
        mret (Some p)
    end.

(** [disconnect] gives the promise that is set when the socket has left the cache. *)
Definition disconnect (s : nat) : M nat :=
  c ← get ;
  modify (set_infos (_disconnectInfos c ++ [(s, nremovals c)]) (S (nremovals c))) ;;
  modify (disconnect_socket s) ;;
  mret (nremovals c).

Definition insert (machine : bytes) (u : uri_t) (s : nat) : M unit :=
  c ← get ;
  if _dying c then mret tt
  else
    link ← subscribe s u machine ;
    match find_entry (_connections c) machine u with
    | Some a =>
        at_ ← deref a ;
        (match endpoint at_ with Some _ => modify fail_assertion | None => mret tt end) ;;
        p ← (if decide (state at_ = State_Pending) then mret (promise at_) else new_promise) ;
        assign a (mkAttempt p (Some s) (relatedUris at_) (attemptCount at_) State_Connected (disconnectionTracking at_)) ;;
        set_promise p (SetValue s) ;;
        at_ ← deref a ;
        assign a (set_tracking (Some link) at_)
    | None =>
        p ← new_promise ;
        couple ← new_attempt (mkAttempt p (Some s) [u] 0 State_Connected None) ;
        modify (fun c => set_connections (set_entry machine u couple (_connections c)) c) ;;
        set_promise p (SetValue s)
    end.

Definition checkClear (a : nat) (machine : bytes) : M unit :=
  attempt ← deref a ;
  c ← get ;
  if ((attemptCount attempt <=? 0) && negb (bool_decide (state attempt = State_Connected)))
     || bool_decide (state attempt = State_Error) then
    match map_find str_compare machine (_connections c) with
    | None => mret tt
    | Some uris =>
        let uris := foldl (fun m u => map_erase uri_compare u m) uris (relatedUris attempt) in
        modify (set_connections
          (match uris with
           | [] => map_erase str_compare machine (_connections c)
           | _ => map_set str_compare machine uris (_connections c)
           end))
    end
  else mret tt.

Definition onSocketParallelConnectionAttempt (hasError : bool) (s : nat) (u : uri_t) (info : ServiceInfo uri_t) : M unit :=
  c ← get ;
  if _dying c then
    if hasError then mret tt else modify (remove_pending s) ;; modify (disconnect_socket s)
  else
    match find_entry (_connections c) (machineId info) u with
    | None => modify (remove_pending s) ;; modify (disconnect_socket s)
    | Some a =>
        attempt ← deref a ;
        let attempt := one_attempt_less attempt in
        assign a attempt ;;
        if decide (state attempt = State_Pending) then
          if hasError then
            modify (remove_pending s) ;;
            if attemptCount attempt =? 0 then
              set_promise (promise attempt) SetError ;;
              assign a (set_state State_Error attempt) ;;
              checkClear a (machineId info)
            else mret tt
          else
            link ← subscribe s u (machineId info) ;
            assign a (mkAttempt (promise attempt) (Some s) (relatedUris attempt) (attemptCount attempt) State_Connected
              (disconnectionTracking attempt)) ;;
            set_promise (promise attempt) (SetValue s) ;;
            connected ← deref a ;
            assign a (set_tracking (Some link) connected) ;;
            modify (fun c => set_insertions (insertions c ++ [mkInsertion info s]) c)
        else
          modify (remove_pending s) ;; modify (disconnect_socket s) ;; checkClear a (machineId info)
    end.

(** The call of [insert] that follows, with the relative URI of the service. *)
Definition insert_relative (i : insertion) : M unit :=
  match uri (uriQiScheme ++ lit ":" ++ name (ins_info i)) with
  | None => undefined
  | Some u => insert (machineId (ins_info i)) u (ins_socket i)
  end.

Definition set_removed_promise (p : nat) : M unit := fun c =>
  if decide (p ∈ removed c) then (Threw, c) else (Returned tt, set_removed ({[p]} ∪ removed c) c).

Definition updateDisconnectInfos (s : option nat) : M unit :=
  c ← get ;
  match list_find (fun d => Some (fst d) = s) (_disconnectInfos c) with
  | None => mret tt
  | Some (i, d) =>
      modify (set_infos (delete i (_disconnectInfos c)) (nremovals c)) ;;
      set_removed_promise (snd d)
  end.

Definition onSocketDisconnected (u : uri_t) (machine : bytes) : M unit :=
  c ← get ;
  match find_entry (_connections c) machine u with
  | None => mret tt
  | Some a =>
      attempt ← deref a ;
      assign a (set_state State_Error attempt) ;;
      checkClear a machine ;;
      updateDisconnectInfos (endpoint attempt)
  end.

Definition releaseDisconnectInfoPromises (disconnectInfos : list (nat * nat)) : M unit :=
  for_each (fun d => set_removed_promise (snd d)) disconnectInfos.

(** The body of the loop of [close] on the entries. *)
Definition close_entry (entry : uri_t * nat) : M unit :=
  attempt ← deref (snd entry) ;
  match endpoint attempt with
  | Some s =>
      modify (disconnect_socket s) ;;
      assign (snd entry) (set_tracking None attempt) ;;
      modify (unsubscribe (disconnectionTracking attempt))
  | None =>
      assign (snd entry) (set_state State_Error attempt) ;;
      set_promise (promise attempt) SetError
  end.

Definition close : M unit :=
  c ← get ;
  modify (fun c => set_pending [] (set_connections [] (set_dying true c))) ;;
  for_each close_entry (entries (_connections c)) ;;
  for_each (fun s => modify (disconnect_socket s)) (_allPendingConnections c) ;;
  c ← get ;
  releaseDisconnectInfoPromises (_disconnectInfos c).

(** ** Executions *)

Inductive op :=
  | Socket (servInfo : ServiceInfo uri_t)
  | Insert (machine : bytes) (u : uri_t) (s : nat)
  | Disconnect (s : nat)
  | Result (i : nat) (hasError : bool)    (* the result of a connection that was asked *)
  | InsertRelative (i : nat)
  | Disconnected (i : nat)                (* the signal, for a subscription *)
  | Init
  | Close.

Definition exec_op (o : op) : M unit :=
  c ← get ;
  match o with
  | Socket servInfo => socket servInfo ;; mret tt
  | Insert machine u s => modify (set_nsockets (nsockets c `max` S s)) ;; insert machine u s
  | Disconnect s => disconnect s ;; mret tt
  | Result i hasError =>
      match connections c !! i with
      | None => mret tt
      | Some k =>
          modify (set_asked (delete i (connections c))) ;;
          onSocketParallelConnectionAttempt hasError (conn_socket k) (conn_uri k) (conn_info k)
      end
  | InsertRelative i =>
      match insertions c !! i with
      | None => mret tt
      | Some ins => modify (set_insertions (delete i (insertions c))) ;; insert_relative ins
      end
  | Disconnected i =>
      match subscriptions c !! i with
      | None => mret tt
      | Some s => onSocketDisconnected (sub_uri s) (sub_machine s)
      end
  | Init => modify (set_dying false)
  | Close => close
  end.

(** An operation, then the destructors; what it throws is for its caller. *)
Definition exec (o : op) (c : TransportSocketCache) : outcome unit * TransportSocketCache :=
  let '(r, c') := exec_op o c in (r, release c').

Definition run (ops : list op) (c : TransportSocketCache) : TransportSocketCache :=
  foldl (fun c o => snd (exec o c)) c ops.
End cache.
