(* ===== verification/SocketCacheInvariant.v ===== *)
(** * SocketCacheInvariant: the tables of the cache of sockets

    Laws of the sorted maps of [TransportSocketCache], of its table of connections
    and of the destructors of the attempts. *)
From S2P Require Import Prelude SortedMap CString ServiceDirectory Parse UriGrammar Uri UriEndpoints TransportSocketCache.
From Stdlib Require Import Sorting.Sorted.

(** ** Definitions *)

Definition tables_ok (m : ConnectionMap) : Prop :=
  sorted_map str_compare m /\ Forall (fun p => sorted_map uri_compare (snd p)) m.

Definition erase_all (uris : list uri_t) (um : UriMap) : UriMap := foldl (fun m u => map_erase uri_compare u m) um uris.

(** The table after [checkClear]. *)
Definition clear_entries (machine : bytes) (uris : list uri_t) (m : ConnectionMap) : ConnectionMap :=
  match map_find str_compare machine m with
  | None => m
  | Some um =>
      match erase_all uris um with
      | [] => map_erase str_compare machine m
      | um' => map_set str_compare machine um' m
      end
  end.

(** ** The table of connections *)

Lemma uris_of_set m machine um machine' :
  uris_of (map_set str_compare machine um m) machine' = if decide (machine' = machine) then um else uris_of m machine'.
Proof. unfold uris_of. rewrite (map_find_set str_compare). by destruct (decide _). Qed.

Lemma find_entry_set machine u a m machine' u' :
  find_entry (set_entry machine u a m) machine' u' =
  if decide (machine' = machine /\ u' = u) then Some a else find_entry m machine' u'.
Proof.
  unfold find_entry, set_entry. rewrite uris_of_set. destruct (decide (machine' = machine)) as [->|].
  - rewrite (map_find_set uri_compare). destruct (decide (u' = u)), (decide _); naive_solver.
  - destruct (decide _); naive_solver.
Qed.

Lemma find_entry_touch m machine machine' u' :
  find_entry (map_set str_compare machine (uris_of m machine) m) machine' u' = find_entry m machine' u'.
Proof. unfold find_entry. rewrite uris_of_set. by destruct (decide _) as [->|]. Qed.

Lemma find_entry_clear machine uris m machine' u' :
  find_entry (clear_entries machine uris m) machine' u' =
  if decide (machine' = machine /\ u' ∈ uris) then None else find_entry m machine' u'.
Proof.
  unfold clear_entries. destruct (map_find str_compare machine m) as [um|] eqn:E.
  - assert (forall k, map_find uri_compare k (erase_all uris um) = if decide (k ∈ uris) then None else map_find uri_compare k um)
      as Hf by (intros k; apply (map_find_erase_all uri_compare)).
    destruct (erase_all uris um) as [|p um'].
    + unfold find_entry, uris_of. rewrite (map_find_erase str_compare). destruct (decide (machine' = machine)) as [->|].
      * rewrite E. cbn. specialize (Hf u'). cbn in Hf. destruct (decide (u' ∈ uris)), (decide _); naive_solver.
      * destruct (decide _); naive_solver.
    + unfold find_entry. rewrite uris_of_set. destruct (decide (machine' = machine)) as [->|].
      * rewrite Hf. unfold uris_of. rewrite E. cbn. destruct (decide (u' ∈ uris)), (decide _); naive_solver.
      * destruct (decide _); naive_solver.
  - destruct (decide _) as [[-> _]|]; [|done]. unfold find_entry, uris_of. by rewrite E.
Qed.

Lemma tables_ok_uris m machine : tables_ok m -> sorted_map uri_compare (uris_of m machine).
Proof.
  intros [_ Hf]. unfold uris_of. destruct (map_find str_compare machine m) as [um|] eqn:E; cbn; [|constructor].
  apply (map_find_In str_compare) in E. rewrite Forall_forall in Hf. by apply (Hf (machine, um)).
Qed.

Lemma tables_ok_set m machine um : tables_ok m -> sorted_map uri_compare um -> tables_ok (map_set str_compare machine um m).
Proof.
  intros [Hs Hf] Hu. split; [by apply (map_set_sorted str_compare)|]. rewrite Forall_forall in *.
  intros p Hp%(map_set_In str_compare). destruct Hp as [->|Hp]; [done|auto].
Qed.

Lemma tables_ok_entry m machine u a : tables_ok m -> tables_ok (set_entry machine u a m).
Proof. intros H. apply tables_ok_set; [done|]. by apply (map_set_sorted uri_compare), tables_ok_uris. Qed.

Lemma tables_ok_touch m machine : tables_ok m -> tables_ok (map_set str_compare machine (uris_of m machine) m).
Proof. intros H. apply tables_ok_set; [done|]. by apply tables_ok_uris. Qed.

Lemma tables_ok_clear m machine uris : tables_ok m -> tables_ok (clear_entries machine uris m).
Proof.
  intros H. unfold clear_entries. destruct (map_find str_compare machine m) as [um|] eqn:E; [|done].
  assert (sorted_map uri_compare um) as Hum.
  { pose proof (tables_ok_uris m machine H) as Hu. unfold uris_of in Hu. by rewrite E in Hu. }
  apply (erase_all_sorted uri_compare uris) in Hum. change (sorted_map uri_compare (erase_all uris um)) in Hum.
  destruct (erase_all uris um) as [|p um'].
  - destruct H as [Hs Hf]. split; [by apply (map_erase_sorted str_compare)|]. rewrite Forall_forall in *.
    intros p Hp%(map_erase_In str_compare). auto.
  - by apply tables_ok_set.
Qed.

Lemma entries_find m u a : tables_ok m -> (u, a) ∈ entries m <-> exists machine, find_entry m machine u = Some a.
Proof.
  intros [Hs Hf]. unfold entries, find_entry, uris_of. rewrite Forall_forall in Hf.
  rewrite list_elem_of_In, in_concat. split.
  - intros (um & ([machine um'] & <- & Hin%list_elem_of_In)%in_map_iff & Hu%list_elem_of_In). cbn in Hu. exists machine.
    rewrite (sorted_find str_compare machine um' m Hs Hin). cbn. apply (sorted_find uri_compare); [|done].
    by apply (Hf (machine, um')).
  - intros [machine H]. destruct (map_find str_compare machine m) as [um|] eqn:E; [|done]. cbn in H.
    apply (map_find_In str_compare) in E. apply (map_find_In uri_compare) in H. exists um. split; [|by apply list_elem_of_In].
    apply in_map_iff. exists (machine, um). by rewrite <- list_elem_of_In.
Qed.

Lemma referenced_spec m a : tables_ok m -> referenced m a = true <-> exists machine u, find_entry m machine u = Some a.
Proof.
  intros Hm. unfold referenced. rewrite existsb_exists. split.
  - intros ([u b] & Hin%list_elem_of_In%(entries_find m u b Hm) & Hb%bool_decide_eq_true). cbn in Hb. subst b.
    destruct Hin as [machine H]. eauto.
  - intros (machine & u & H). exists (u, a). rewrite <- list_elem_of_In, (entries_find m u a Hm). split; [eauto|].
    by apply bool_decide_eq_true.
Qed.

(** The connection that [socket] finds is an entry of the machine whose URI is one of
    the endpoints. *)
Lemma find_connection_Some uris m machine a : tables_ok m ->
  find_connection uris (uris_of m machine) = Some a -> exists u, u ∈ uris /\ find_entry m machine u = Some a.
Proof.
  intros Hm. unfold find_connection. destruct (List.find _ _) as [[u b]|] eqn:E; [|done]. cbn. intros [= <-].
  apply find_some in E as [Hin%list_elem_of_In Hx]. apply existsb_exists in Hx as (x & Hx & Heq%bool_decide_eq_true).
  cbn in Heq. subst x. exists u. rewrite list_elem_of_In. split; [done|].
  apply (sorted_find uri_compare); [by apply tables_ok_uris|done].
Qed.

Lemma find_connection_None uris m machine u :
  find_connection uris (uris_of m machine) = None -> u ∈ uris -> find_entry m machine u = None.
Proof.
  unfold find_connection. destruct (List.find _ _) as [[u' b]|] eqn:E; [done|]. intros _ Hu.
  unfold find_entry. destruct (map_find uri_compare u _) as [a|] eqn:Ea; [|done].
  apply (map_find_In uri_compare) in Ea. pose proof (find_none _ _ E (u, a) (proj1 (list_elem_of_In _ _) Ea)) as Hn.
  cbn in Hn. apply not_true_iff_false in Hn. destruct Hn. apply existsb_exists. exists u.
  rewrite <- list_elem_of_In. split; [done|]. by apply bool_decide_eq_true.
Qed.

(** ** The destructors *)

Lemma settle_lookup l m p :
  foldl settle m l !! p = if decide (p ∈ l /\ m !! p = Some Unset) then Some SetError else m !! p.
Proof.
  revert m. induction l as [|q l IH]; intros m; cbn [foldl].
  - destruct (decide _) as [[?%elem_of_nil _]|]; done.
  - rewrite IH. unfold settle. destruct (m !! q) as [[| |]|] eqn:E;
      try (destruct (decide _) as [[H1 H2]|H1], (decide _) as [[H3 H4]|H3]; try done;
           rewrite ?elem_of_cons in *; destruct_or?; subst; naive_solver).
    destruct (decide (p = q)) as [->|Hq].
    + rewrite lookup_insert_eq. destruct (decide _) as [[_ ?]|_]; [done|].
      destruct (decide _) as [|[]]; [done|]. split; [by left|done].
    + rewrite lookup_insert_ne by done. destruct (decide _) as [[H1 H2]|H1], (decide _) as [[H3 H4]|H3]; try done;
        rewrite ?elem_of_cons in *; naive_solver.
Qed.

Lemma release_attempt c a at_ :
  attempts (release c) !! a = Some at_ <-> attempts c !! a = Some at_ /\ referenced (_connections c) a = true.
Proof. cbn. by rewrite map_lookup_filter_Some. Qed.

Lemma release_promise c p :
  promises (release c) !! p =
  if decide (promises c !! p = Some Unset /\
             exists a at_, attempts c !! a = Some at_ /\ referenced (_connections c) a = false /\ promise at_ = p)
  then Some SetError else promises c !! p.
Proof.
  cbn. rewrite settle_lookup.
  assert (p ∈ map (fun q : nat * ConnectionAttempt => promise (snd q))
            (List.filter (fun q => negb (referenced (_connections c) (fst q))) (map_to_list (attempts c))) <->
          exists a at_, attempts c !! a = Some at_ /\ referenced (_connections c) a = false /\ promise at_ = p) as Hp.
  { rewrite list_elem_of_In, in_map_iff. split.
    - intros ([a at_] & Hp & [Hin Hr]%filter_In). apply list_elem_of_In, elem_of_map_to_list in Hin.
      exists a, at_. by apply negb_true_iff in Hr.
    - intros (a & at_ & Hin & Hr & Hp). exists (a, at_). split; [done|]. apply filter_In.
      rewrite <- list_elem_of_In, elem_of_map_to_list. cbn. by rewrite Hr. }
  destruct (decide _) as [[H1 H2]|H1], (decide _) as [[H3 H4]|H3]; naive_solver.
Qed.

(** * The invariant of the cache of sockets

    The invariant of the attempts, promises and tables of [TransportSocketCache],
    and that every operation keeps it. *)
(** ** Definitions *)

(** What holds after an operation, whatever its outcome. *)
Definition wp {A} (m : M A) (Q : outcome A -> TransportSocketCache -> Prop) (c : TransportSocketCache) : Prop :=
  Q (fst (m c)) (snd (m c)).

Definition attempt_ok (ps : gmap nat promise_state) (at_ : ConnectionAttempt) : Prop :=
  match state at_ with
  | State_Pending => endpoint at_ = None /\ ps !! promise at_ = Some Unset
  | State_Connected => exists s, endpoint at_ = Some s /\ ps !! promise at_ = Some (SetValue s)
  | State_Error => True
  end.

(** The entries are attempts, for one machine and by URIs that they know; the promises
    of the attempts are as their states say, and belong to one attempt. *)
Record weak (conns : ConnectionMap) (ats : gmap nat ConnectionAttempt) (na : nat)
    (ps : gmap nat promise_state) (np : nat) : Prop := mkWeak {
  weak_tables : tables_ok conns;
  weak_entry machine u a : find_entry conns machine u = Some a ->
    exists at_, ats !! a = Some at_ /\ u ∈ relatedUris at_;
  weak_machine machine u machine' u' a :
    find_entry conns machine u = Some a -> find_entry conns machine' u' = Some a -> machine = machine';
  weak_attempt a at_ : ats !! a = Some at_ -> attempt_ok ps at_ /\ (a < na /\ promise at_ < np)%nat;
  weak_inj a b at_ bt : ats !! a = Some at_ -> ats !! b = Some bt -> promise at_ = promise bt -> a = b;
  weak_unset p : ps !! p = Some Unset -> exists a at_, ats !! a = Some at_ /\ promise at_ = p;
}.

Definition weak_cache (c : TransportSocketCache) : Prop :=
  weak (_connections c) (attempts c) (nattempts c) (promises c) (npromises c).

Definition no_error (conns : ConnectionMap) (ats : gmap nat ConnectionAttempt) : Prop :=
  forall machine u a at_, find_entry conns machine u = Some a -> ats !! a = Some at_ -> state at_ <> State_Error.

(** What an operation leaves to the destructors. *)
Definition settled (c : TransportSocketCache) : Prop := weak_cache c /\ no_error (_connections c) (attempts c).

(** The invariant: the attempts are those of the entries as well. *)
Record cache_inv (c : TransportSocketCache) : Prop := mkCacheInv {
  inv_settled : settled c;
  inv_referenced a at_ : attempts c !! a = Some at_ -> exists machine u, find_entry (_connections c) machine u = Some a;
}.

(** ** Effects *)

Lemma wp_bind {A B} (m : M A) (f : A -> M B) Q c :
  wp m (fun r c' => match r with
                    | Returned a => wp (f a) Q c'
                    | Threw => Q Threw c'
                    | Undefined => Q Undefined c'
                    end) c -> wp (m ≫= f) Q c.
Proof. unfold wp, mbind, M_bind. by destruct (m c) as [[a| |] c']. Qed.

Lemma wp_mono {A} (m : M A) (Q R : outcome A -> TransportSocketCache -> Prop) c :
  wp m Q c -> (forall r c', Q r c' -> R r c') -> wp m R c.
Proof. unfold wp. auto. Qed.

Lemma wp_for_each {A} (f : A -> M unit) (P : TransportSocketCache -> Prop) (good : Prop) l c :
  P c -> (forall x c, x ∈ l -> P c -> wp (f x) (fun r c' => P c' /\ (good -> r = Returned tt)) c) ->
  wp (for_each f l) (fun r c' => P c' /\ (good -> r = Returned tt)) c.
Proof.
  revert c. induction l as [|x l IH]; intros c Hc Hf; cbn [for_each]; [done|].
  apply wp_bind. eapply wp_mono; [apply Hf; [left|done]|]. intros [[]| |] c' [Hc' Hr].
  - apply IH; [done|]. intros y c'' Hy. apply Hf. by right.
  - split; [done|]. by intros ?%Hr.
  - split; [done|]. by intros ?%Hr.
Qed.

(** ** The changes of the state *)

Lemma weak_new : weak_cache TransportSocketCache_new.
Proof.
  split; cbn; try (intros; by rewrite ?lookup_empty in * ); try done.
  split; constructor.
Qed.

Lemma weak_sub conns conns' ats na ps np : weak conns ats na ps np -> tables_ok conns' ->
  (forall machine u a, find_entry conns' machine u = Some a -> find_entry conns machine u = Some a) ->
  weak conns' ats na ps np.
Proof. intros [H1 H2 H3 H4 H5 H6] Ht Hsub. split; [done| |by eauto|done..]. intros machine u a H. eauto. Qed.

(** A new attempt with a new promise. *)
Lemma weak_new_attempt conns ats na ps np at_ v : weak conns ats na ps np -> promise at_ = np ->
  attempt_ok (<[np := v]> ps) at_ -> weak conns (<[na := at_]> ats) (S na) (<[np := v]> ps) (S np).
Proof.
  intros [H1 H2 H3 H4 H5 H6] Hp Ha. split; [done| |done|..].
  - intros machine u a (bt & Hb & Hu)%H2. exists bt. split; [|done]. apply H4 in Hb as Hb'.
    by rewrite lookup_insert_ne by lia.
  - intros a bt. destruct (decide (a = na)) as [->|Hn].
    + rewrite lookup_insert_eq. intros [= <-]. split; [done|lia].
    + rewrite lookup_insert_ne by done. intros Hb%H4. destruct Hb as [Hb Hlt]. split; [|lia].
      unfold attempt_ok in *. by rewrite lookup_insert_ne by lia.
  - intros a b bt ct. destruct (decide (a = na)) as [->|Hn], (decide (b = na)) as [->|Hn'].
    + done.
    + rewrite lookup_insert_eq, lookup_insert_ne by done. intros [= <-] Hc%H4. lia.
    + rewrite lookup_insert_ne by done. rewrite lookup_insert_eq. intros Hb%H4 [= <-]. lia.
    + rewrite !lookup_insert_ne by done. apply H5.
  - intros p. destruct (decide (p = np)) as [->|Hn].
    + exists na, at_. by rewrite lookup_insert_eq.
    + rewrite lookup_insert_ne by done. intros (b & bt & Hb & Hbp)%H6. exists b, bt. split; [|done].
      apply H4 in Hb as Hb'. by rewrite lookup_insert_ne by lia.
Qed.

(** The change of an attempt, with the promise that it had or with a new one. *)
Lemma weak_assign conns ats na ps np a at_ at' v np' : weak conns ats na ps np -> ats !! a = Some at_ ->
  relatedUris at' = relatedUris at_ -> attempt_ok (<[promise at' := v]> ps) at' -> (np <= np')%nat ->
  promise at' = promise at_ \/ (promise at' = np /\ np < np')%nat /\ ps !! promise at_ <> Some Unset ->
  weak conns (<[a := at']> ats) na (<[promise at' := v]> ps) np'.
Proof.
  intros [H1 H2 H3 H4 H5 H6] Ha Hr Hok Hnp Hp.
  assert (forall b bt, ats !! b = Some bt -> b <> a -> promise bt <> promise at') as Hother.
  { intros b bt Hb Hn Heq. destruct Hp as [Hp|[[Hp _] _]].
    - rewrite Hp in Heq. by apply (H5 b a bt at_) in Heq.
    - apply H4 in Hb as [_ Hb]. lia. }
  split; [done| |done|..].
  - intros machine u b (bt & Hb & Hu)%H2. destruct (decide (b = a)) as [->|Hn].
    + exists at'. rewrite lookup_insert_eq, Hr. by simplify_eq.
    + exists bt. by rewrite lookup_insert_ne.
  - intros b bt. destruct (decide (b = a)) as [->|Hn].
    + rewrite lookup_insert_eq. intros [= <-]. apply H4 in Ha as [_ Ha]. split; [done|]. lia.
    + rewrite lookup_insert_ne by done. intros Hb. apply H4 in Hb as Hlt. destruct Hlt as [Hlt Hle]. split; [|lia].
      unfold attempt_ok in *. rewrite lookup_insert_ne; [done|]. intros Heq. by eapply Hother.
  - intros b c bt ct. destruct (decide (b = a)) as [->|Hb], (decide (c = a)) as [->|Hc].
    + done.
    + rewrite lookup_insert_eq, lookup_insert_ne by done. intros [= <-] Hct Heq. by destruct (Hother c ct Hct Hc).
    + rewrite lookup_insert_ne by done. rewrite lookup_insert_eq. intros Hbt [= <-] Heq. by destruct (Hother b bt Hbt Hb).
    + rewrite !lookup_insert_ne by done. apply H5.
  - intros p. destruct (decide (p = promise at')) as [->|Hn].
    + exists a, at'. by rewrite lookup_insert_eq.
    + rewrite lookup_insert_ne by done. intros Hu. destruct (H6 p Hu) as (b & bt & Hb & Hbp). exists b, bt.
      split; [|done]. rewrite lookup_insert_ne; [done|]. intros <-. rewrite Ha in Hb. injection Hb as <-.
      destruct Hp as [Hp|[_ Hp]]; congruence.
Qed.

(** The change of an attempt alone. *)
Lemma weak_modify conns ats na ps np a at_ at' : weak conns ats na ps np -> ats !! a = Some at_ ->
  relatedUris at' = relatedUris at_ -> promise at' = promise at_ -> attempt_ok ps at' ->
  weak conns (<[a := at']> ats) na ps np.
Proof.
  intros [H1 H2 H3 H4 H5 H6] Ha Hr Hp Hok.
  assert (forall b bt, (<[a := at']> ats) !! b = Some bt -> exists bt', ats !! b = Some bt' /\ promise bt' = promise bt) as Hsame.
  { intros b bt. destruct (decide (b = a)) as [->|Hn].
    - rewrite lookup_insert_eq. intros [= <-]. by exists at_.
    - rewrite lookup_insert_ne by done. by exists bt. }
  split; [done| |done|..].
  - intros machine u b (bt & Hb & Hu)%H2. destruct (decide (b = a)) as [->|Hn].
    + exists at'. rewrite lookup_insert_eq, Hr. by simplify_eq.
    + exists bt. by rewrite lookup_insert_ne.
  - intros b bt Hb. destruct (Hsame b bt Hb) as (bt' & Hb' & Hbp). apply H4 in Hb' as [Hok' Hlt]. rewrite <- Hbp.
    split; [|done]. destruct (decide (b = a)) as [->|Hn].
    + rewrite lookup_insert_eq in Hb. by simplify_eq.
    + rewrite lookup_insert_ne in Hb by done. apply H4 in Hb. by destruct Hb.
  - intros b c bt ct (bt' & Hb & Hbp)%Hsame (ct' & Hc & Hcp)%Hsame Heq. apply (H5 b c bt' ct'); [done..|congruence].
  - intros p (b & bt & Hb & Hbp)%H6. destruct (decide (b = a)) as [->|Hn].
    + exists a, at'. rewrite lookup_insert_eq. simplify_eq. by rewrite Hp.
    + exists b, bt. by rewrite lookup_insert_ne.
Qed.

(** A new entry for an attempt of the machine. *)
Lemma weak_set_entry conns ats na ps np machine u a at_ : weak conns ats na ps np ->
  ats !! a = Some at_ -> u ∈ relatedUris at_ ->
  (forall machine' u', find_entry conns machine' u' = Some a -> machine' = machine) ->
  weak (set_entry machine u a conns) ats na ps np.
Proof.
  intros [H1 H2 H3 H4 H5 H6] Ha Hu Hm. split; [by apply tables_ok_entry| | |done..].
  - intros machine' u' b. rewrite find_entry_set. destruct (decide _) as [[-> ->]|_]; [|apply H2].
    intros [= <-]. eauto.
  - intros m1 u1 m2 u2 b. rewrite !find_entry_set.
    destruct (decide (m1 = machine /\ u1 = u)) as [[-> ->]|_], (decide (m2 = machine /\ u2 = u)) as [[-> ->]|_]; try done.
    + intros [= <-] Hb. symmetry. eauto.
    + intros Hb [= <-]. eauto.
    + apply H3.
Qed.

Lemma no_error_sub conns conns' ats : no_error conns ats ->
  (forall machine u a, find_entry conns' machine u = Some a -> find_entry conns machine u = Some a) -> no_error conns' ats.
Proof. intros H Hsub machine u a at_ He. eauto. Qed.

Lemma no_error_insert conns ats a at_ : no_error conns ats -> state at_ <> State_Error -> no_error conns (<[a := at_]> ats).
Proof.
  intros H Hs machine u b bt He. destruct (decide (b = a)) as [->|Hn].
  - rewrite lookup_insert_eq. by intros [= <-].
  - rewrite lookup_insert_ne by done. by eapply H.
Qed.

Lemma no_error_entry conns ats machine u a at_ : no_error conns ats -> ats !! a = Some at_ -> state at_ <> State_Error ->
  no_error (set_entry machine u a conns) ats.
Proof.
  intros H Ha Hs machine' u' b bt. rewrite find_entry_set. destruct (decide _) as [_|_]; [|by apply H].
  intros [= <-]. congruence.
Qed.

(** ** The destructors *)

Lemma release_inv c : settled c -> cache_inv (release c).
Proof.
  intros [[H1 H2 H3 H4 H5 H6] He]. pose proof (release_attempt c) as Ha. pose proof (release_promise c) as Hp.
  assert (forall a at_, attempts c !! a = Some at_ -> referenced (_connections c) a = true ->
    promises (release c) !! promise at_ = promises c !! promise at_) as Hkeep.
  { intros a at_ H Hr. rewrite Hp. destruct (decide _) as [[_ (b & bt & Hb & Hrb & Heq)]|_]; [|done].
    rewrite (H5 b a bt at_ Hb H Heq) in Hrb. congruence. }
  split.
  - split.
    + split; [done| |done|..].
      * intros machine u a H. destruct (H2 machine u a H) as (at_ & Hat & Hu). exists at_. split; [|done].
        apply Ha. split; [done|]. apply (referenced_spec _ a H1). eauto.
      * intros a at_ [Hat Hr]%Ha. destruct (H4 a at_ Hat) as [Hok Hlt]. split; [|done].
        unfold attempt_ok in *. by rewrite (Hkeep a at_ Hat Hr).
      * intros a b at_ bt [Hat _]%Ha [Hbt _]%Ha. by apply H5.
      * intros p. rewrite Hp. destruct (decide _) as [|Hn]; [done|]. intros Hu.
        destruct (H6 p Hu) as (a & at_ & Hat & Heq). exists a, at_. split; [|done]. apply Ha. split; [done|].
        destruct (referenced (_connections c) a) eqn:Hr; [done|]. destruct Hn. split; [done|eauto].
    + intros machine u a at_ H [Hat _]%Ha. by eapply He.
  - intros a at_ [_ Hr]%Ha. by apply (referenced_spec _ a H1).
Qed.

(** ** The operations *)

Section rules.
Context {B : Type} (Q : outcome B -> TransportSocketCache -> Prop) (c : TransportSocketCache).

Lemma wp_ret (b : B) : Q (Returned b) c -> wp (mret b) Q c.
Proof. exact id. Qed.

Lemma wp_ret_bind {A} (a : A) (f : A -> M B) : wp (f a) Q c -> wp (mret a ≫= f) Q c.
Proof. exact id. Qed.

Lemma wp_get (f : TransportSocketCache -> M B) : wp (f c) Q c -> wp (get ≫= f) Q c.
Proof. exact id. Qed.

Lemma wp_modify g (f : unit -> M B) : wp (f tt) Q (g c) -> wp (modify g ≫= f) Q c.
Proof. exact id. Qed.

Lemma wp_deref a at_ (f : ConnectionAttempt -> M B) : attempts c !! a = Some at_ -> wp (f at_) Q c -> wp (deref a ≫= f) Q c.
Proof. intros H. unfold wp, mbind, M_bind, deref. by rewrite H. Qed.

Lemma wp_assign a at_ (f : unit -> M B) :
  wp (f tt) Q (set_attempts (<[a := at_]> (attempts c)) (nattempts c) c) -> wp (assign a at_ ≫= f) Q c.
Proof. exact id. Qed.

Lemma wp_set_promise p v (f : unit -> M B) : promises c !! p = Some Unset ->
  wp (f tt) Q (set_promises (<[p := v]> (promises c)) (npromises c) c) -> wp (set_promise p v ≫= f) Q c.
Proof. intros H. unfold wp, mbind, M_bind, set_promise. by rewrite H. Qed.

Lemma wp_new_promise (f : nat -> M B) :
  wp (f (npromises c)) Q (set_promises (<[npromises c := Unset]> (promises c)) (S (npromises c)) c) -> wp (new_promise ≫= f) Q c.
Proof. exact id. Qed.

Lemma wp_new_attempt at_ (f : nat -> M B) :
  wp (f (nattempts c)) Q (set_attempts (<[nattempts c := at_]> (attempts c)) (S (nattempts c)) c) -> wp (new_attempt at_ ≫= f) Q c.
Proof. exact id. Qed.

Lemma wp_subscribe s u machine (f : nat -> M B) :
  wp (f (nlinks c)) Q (set_subscriptions (subscriptions c ++ [mkSubscription (nlinks c) s u machine]) (S (nlinks c)) c) ->
  wp (subscribe s u machine ≫= f) Q c.
Proof. exact id. Qed.

Lemma wp_make_socket (f : nat -> M B) : wp (f (nsockets c)) Q (set_nsockets (S (nsockets c)) c) -> wp (make_socket ≫= f) Q c.
Proof. exact id. Qed.
End rules.

(** An operation that ends with an effect. *)
Lemma wp_tail (m : M unit) Q c : wp (m ≫= fun _ => mret tt) Q c -> wp m Q c.
Proof. unfold wp, mbind, M_bind. by destruct (m c) as [[[]| |] c']. Qed.

Ltac wp_known := cbn; first [eassumption | apply lookup_insert_eq].

Ltac wp_step := cbv beta iota zeta;
  lazymatch goal with
  | |- wp (mret _ ≫= _) _ _ => apply wp_ret_bind
  | |- wp (get ≫= _) _ _ => apply wp_get
  | |- wp (modify _ ≫= _) _ _ => apply wp_modify
  | |- wp (assign _ _ ≫= _) _ _ => apply wp_assign
  | |- wp (new_promise ≫= _) _ _ => apply wp_new_promise
  | |- wp (new_attempt _ ≫= _) _ _ => apply wp_new_attempt
  | |- wp (subscribe _ _ _ ≫= _) _ _ => apply wp_subscribe
  | |- wp (make_socket ≫= _) _ _ => apply wp_make_socket
  | |- wp (deref _ ≫= _) _ _ => eapply wp_deref; [wp_known|]
  | |- wp (set_promise _ _ ≫= _) _ _ => eapply wp_set_promise; [wp_known|]
  | |- wp (mret _) _ _ => apply wp_ret
  | |- wp (modify _) _ _ => apply wp_tail, wp_modify, wp_ret
  | |- wp (assign _ _) _ _ => apply wp_tail, wp_assign, wp_ret
  | |- wp (set_promise _ _) _ _ => apply wp_tail; eapply wp_set_promise; [wp_known|apply wp_ret]
  end.

Lemma set_connections_id c : set_connections (_connections c) c = c.
Proof. by destruct c. Qed.

Lemma checkClear_eq a machine c at_ : attempts c !! a = Some at_ ->
  checkClear a machine c =
  (Returned tt, set_connections
     (if ((attemptCount at_ <=? 0)%Z && negb (bool_decide (state at_ = State_Connected))) || bool_decide (state at_ = State_Error)
      then clear_entries machine (relatedUris at_) (_connections c) else _connections c) c).
Proof.
  intros H. unfold checkClear, mbind, M_bind, deref. rewrite H. cbn. unfold clear_entries, erase_all.
  destruct (_ || _); [|by rewrite set_connections_id].
  destruct (map_find _ _ _) as [um|]; [by repeat case_match|by rewrite set_connections_id].
Qed.

Lemma find_clear_sub machine uris m machine' u a :
  find_entry (clear_entries machine uris m) machine' u = Some a -> find_entry m machine' u = Some a.
Proof. rewrite find_entry_clear. by destruct (decide _). Qed.

(** The tables after [checkClear] on an attempt that is the only one in error. *)
Lemma clear_settled conns ats na ps np a machine at_ : weak conns ats na ps np -> ats !! a = Some at_ ->
  (forall machine' u, find_entry conns machine' u = Some a -> machine' = machine) ->
  (forall machine' u b bt, find_entry conns machine' u = Some b -> ats !! b = Some bt -> state bt = State_Error -> b = a) ->
  weak (clear_entries machine (relatedUris at_) conns) ats na ps np /\
  no_error (clear_entries machine (relatedUris at_) conns) ats.
Proof.
  intros Hw Ha Hm He. split.
  - apply (weak_sub conns); [done|by apply tables_ok_clear, (weak_tables _ _ _ _ _ Hw)|]. intros *. apply find_clear_sub.
  - intros machine' u b bt Hf Hb Hs. pose proof (find_clear_sub _ _ _ _ _ _ Hf) as Hf'.
    pose proof (He _ _ _ _ Hf' Hb Hs) as ->. pose proof (Hm _ _ Hf') as ->.
    destruct (weak_entry _ _ _ _ _ Hw _ _ _ Hf') as (at' & Ha' & Hu).
    rewrite find_entry_clear in Hf. destruct (decide _) as [|Hn]; [done|]. apply Hn. naive_solver.
Qed.

Lemma pending_ok conns ats na ps np a at_ : weak conns ats na ps np -> ats !! a = Some at_ -> state at_ = State_Pending ->
  endpoint at_ = None /\ ps !! promise at_ = Some Unset.
Proof. intros Hw Ha Hs. destruct (weak_attempt _ _ _ _ _ Hw a at_ Ha) as [Hok _]. unfold attempt_ok in Hok. by rewrite Hs in Hok. Qed.

Lemma connected_ok conns ats na ps np a at_ : weak conns ats na ps np -> ats !! a = Some at_ -> state at_ = State_Connected ->
  exists s, endpoint at_ = Some s /\ ps !! promise at_ = Some (SetValue s).
Proof. intros Hw Ha Hs. destruct (weak_attempt _ _ _ _ _ Hw a at_ Ha) as [Hok _]. unfold attempt_ok in Hok. by rewrite Hs in Hok. Qed.

(** The members that the operations on the tables leave. *)
Definition rest (c : TransportSocketCache) : list (nat * nat) * gset nat * nat :=
  (_disconnectInfos c, removed c, nremovals c).

Ltac assign_attempt at_ :=
  match goal with |- weak _ (<[?a := ?at']> _) _ (<[_ := ?v]> _) _ => eapply (weak_assign _ _ _ _ _ a at_ at' v); [eassumption|done|done|cbn..]; auto end.

Lemma insert_keeps machine u s c : settled c ->
  wp (insert machine u s) (fun r c' => settled c' /\ r = Returned tt /\ rest c' = rest c /\ connections c' = connections c /\ insertions c' = insertions c) c.
Proof.
  intros [Hw He]. unfold insert. wp_step. destruct (_dying c); [by apply wp_ret|].
  wp_step. cbn [_connections set_subscriptions]. destruct (find_entry _ _ _) as [a|] eqn:E.
  - destruct (weak_entry _ _ _ _ _ Hw _ _ _ E) as (at_ & Ha & _). wp_step.
    destruct (state at_) eqn:Hs; [| |by destruct (He _ _ _ _ E Ha)].
    + destruct (pending_ok _ _ _ _ _ a at_ Hw Ha Hs) as [-> Hp]. cbv beta.
      rewrite decide_True by done. do 6 wp_step. split; [|done].
      unfold settled, weak_cache. cbn. rewrite insert_insert_eq. split.
      * assign_attempt at_. unfold attempt_ok. cbn. exists s. by rewrite lookup_insert_eq.
      * by apply no_error_insert.
    + destruct (connected_ok _ _ _ _ _ a at_ Hw Ha Hs) as (s' & -> & Hp). cbv beta.
      rewrite decide_False by done. do 6 wp_step. split; [|done].
      unfold settled, weak_cache. cbn. rewrite !insert_insert_eq. split.
      * assign_attempt at_. { unfold attempt_ok. cbn. exists s. by rewrite lookup_insert_eq. }
        right. split; [lia|]. by rewrite Hp.
      * by apply no_error_insert.
  - do 4 wp_step. split; [|done].
    unfold settled, weak_cache. cbn. rewrite insert_insert_eq.
    set (at_ := mkAttempt _ _ _ _ _ _).
    assert (weak (_connections c) (<[nattempts c := at_]> (attempts c)) (S (nattempts c))
      (<[npromises c := SetValue s]> (promises c)) (S (npromises c))) as Hw'.
    { apply weak_new_attempt; [done..|]. unfold attempt_ok. cbn. exists s. by rewrite lookup_insert_eq. }
    split.
    + apply weak_set_entry with at_; [done|by rewrite lookup_insert_eq|by left|].
      intros machine' u' (bt & Hb & _)%(weak_entry _ _ _ _ _ Hw). apply (weak_attempt _ _ _ _ _ Hw) in Hb. lia.
    + apply no_error_entry with at_; [by apply no_error_insert|by rewrite lookup_insert_eq|done].
Qed.

(** The result of a connection: the names of the services are as before. *)
Lemma result_keeps hasError s u info c : settled c ->
  wp (onSocketParallelConnectionAttempt hasError s u info)
    (fun r c' => settled c' /\ r = Returned tt /\ rest c' = rest c /\ connections c' = connections c /\
       (insertions c' = insertions c \/ insertions c' = insertions c ++ [mkInsertion info s])) c.
Proof.
  intros Hset. pose proof Hset as [Hw He]. unfold onSocketParallelConnectionAttempt. wp_step.
  destruct (_dying c). { destruct hasError; [apply wp_ret; by auto 10|]. do 2 wp_step. by auto 10. }
  destruct (find_entry _ _ _) as [a|] eqn:E; [|do 2 wp_step; by auto 10].
  destruct (weak_entry _ _ _ _ _ Hw _ _ _ E) as (at_ & Ha & _). do 2 wp_step. cbn [state one_attempt_less].
  assert (forall machine u, find_entry (_connections c) machine u = Some a -> machine = machineId info) as Hm.
  { intros machine u' H. by apply (weak_machine _ _ _ _ _ Hw machine u' _ _ _ H E). }
  destruct (state at_) eqn:Hs; [| |by destruct (He _ _ _ _ E Ha)].
  - destruct (pending_ok _ _ _ _ _ a at_ Hw Ha Hs) as [Hn Hp]. rewrite decide_True by done. destruct hasError.
    + wp_step. destruct (_ =? 0)%Z.
      * do 2 wp_step. unfold wp. rewrite (checkClear_eq _ _ _ (set_state State_Error (one_attempt_less at_))) by apply lookup_insert_eq.
        cbn [fst snd]. rewrite orb_true_r. split; [|by auto 10].
        unfold settled, weak_cache. cbn. rewrite insert_insert_eq.
        set (at' := set_state _ _). apply (clear_settled _ _ _ _ _ a (machineId info) at'); [|by rewrite lookup_insert_eq|done|].
        -- by assign_attempt at_.
        -- intros machine u' b bt Hb. destruct (decide (b = a)) as [|Hba]; [done|]. rewrite lookup_insert_ne by done.
           intros Hbt Hsb. by destruct (He _ _ _ _ Hb Hbt).
      * wp_step. split; [|by auto 10]. split; cbn.
        -- apply (weak_modify _ _ _ _ _ _ at_); try done. unfold attempt_ok. cbn. by rewrite Hs.
        -- apply no_error_insert; [done|]. cbn. by rewrite Hs.
    + do 6 wp_step. split; [|by auto 10]. unfold settled, weak_cache. cbn. rewrite !insert_insert_eq. split.
      * assign_attempt at_. unfold attempt_ok. cbn. exists s. by rewrite lookup_insert_eq.
      * by apply no_error_insert.
  - destruct (connected_ok _ _ _ _ _ a at_ Hw Ha Hs) as (s' & Hs' & Hp). rewrite decide_False by done. do 2 wp_step.
    unfold wp. rewrite (checkClear_eq _ _ _ (one_attempt_less at_)) by apply lookup_insert_eq.
    cbn [fst snd state one_attempt_less]. rewrite Hs. cbn [negb bool_decide decide_rel]. rewrite andb_false_r.
    split; [|by auto 10]. split; cbn.
    + apply (weak_modify _ _ _ _ _ _ at_); try done. unfold attempt_ok. cbn. rewrite Hs. eauto.
    + apply no_error_insert; [done|]. cbn. by rewrite Hs.
Qed.

(** ** Disconnections *)

(** The promises of the disconnections in progress are not set. *)
Record infos_ok (c : TransportSocketCache) : Prop := mkInfosOk {
  infos_nodup : NoDup (map snd (_disconnectInfos c));
  infos_unset p : p ∈ map snd (_disconnectInfos c) -> (p ∉ removed c) /\ (p < nremovals c)%nat;
  infos_fresh p : p ∈ removed c -> (p < nremovals c)%nat;
}.

Lemma infos_ok_rest c c' : rest c' = rest c -> infos_ok c -> infos_ok c'.
Proof. unfold rest. intros [= E1 E2 E3] [H1 H2 H3]. split; rewrite ?E1, ?E2, ?E3; done. Qed.

Lemma update_infos_keeps s c : settled c ->
  wp (updateDisconnectInfos s)
    (fun r c' => settled c' /\ (infos_ok c -> r = Returned tt /\ infos_ok c') /\ connections c' = connections c /\
       insertions c' = insertions c) c.
Proof.
  intros H. unfold updateDisconnectInfos. wp_step. destruct (list_find _ _) as [[i d]|] eqn:E; [|by wp_step].
  apply list_find_Some in E as (Hi & _ & _). wp_step. unfold wp, set_removed_promise. cbn [removed set_infos].
  destruct (decide (snd d ∈ removed c)) as [Hin|Hin].
  - split_and!; [done| |done..]. intros [_ H2 _]. exfalso.
    apply (H2 (snd d)); [|done]. apply list_elem_of_In, in_map, list_elem_of_In. by eapply list_elem_of_lookup_2.
  - split_and!; [done| |done..]. intros [H1 H2 H3]. split; [done|].
    assert (_disconnectInfos c ≡ₚ d :: delete i (_disconnectInfos c)) as Hperm by by apply delete_Permutation.
    apply (Permutation_map snd) in Hperm. cbn in Hperm. rewrite Hperm in H1. apply NoDup_cons in H1 as [Hn H1]. split; cbn.
    + done.
    + intros p Hp. assert (p ∈ map snd (_disconnectInfos c)) as Hp' by (rewrite Hperm; by right).
      destruct (H2 p Hp') as [Hr Hlt]. split; [|done]. rewrite not_elem_of_union, not_elem_of_singleton.
      split; [by intros ->|done].
    + intros p [->%elem_of_singleton|Hp]%elem_of_union; [|auto]. apply H2. rewrite Hperm. by left.
Qed.

Lemma disconnected_keeps u machine c : settled c ->
  wp (onSocketDisconnected u machine)
    (fun r c' => settled c' /\ (infos_ok c -> r = Returned tt /\ infos_ok c') /\ connections c' = connections c /\
       insertions c' = insertions c) c.
Proof.
  intros Hset. pose proof Hset as [Hw He]. unfold onSocketDisconnected. wp_step.
  destruct (find_entry _ _ _) as [a|] eqn:E; [|by wp_step].
  destruct (weak_entry _ _ _ _ _ Hw _ _ _ E) as (at_ & Ha & _). do 2 wp_step.
  apply wp_bind. unfold wp at 1. rewrite (checkClear_eq _ _ _ (set_state State_Error at_)) by apply lookup_insert_eq.
  cbn [fst snd]. rewrite orb_true_r. eapply wp_mono; [apply update_infos_keeps|].
  2: { intros r c' (H1 & H2 & H3 & H4). split_and!; [done| |done..]. intros Hi. apply H2. by apply (infos_ok_rest c). }
  unfold settled, weak_cache. cbn. set (at' := set_state _ _).
  apply (clear_settled _ _ _ _ _ a machine at'); [|by rewrite lookup_insert_eq| |].
  - by apply (weak_modify _ _ _ _ _ _ at_).
  - intros machine' u' H. by apply (weak_machine _ _ _ _ _ Hw machine' u' _ _ _ H E).
  - intros machine' u' b bt Hb. destruct (decide (b = a)) as [|Hba]; [done|]. rewrite lookup_insert_ne by done.
    intros Hbt Hsb. by destruct (He _ _ _ _ Hb Hbt).
Qed.

(** ** [socket] and [close] *)

Section operations.
Context (is_loopback : bytes -> bool) (getMachineId : bytes).

(** The endpoints of a service have a host when it is needed. *)
Definition hosts_known (info : ServiceInfo uri_t) : bool :=
  bool_decide (machineId info = getMachineId) ||
  forallb (fun u => hasAuthority u || match tcpSchemeFromUriScheme (scheme_ u) with None => true | Some _ => false end)
    (endpoints info).

Lemma candidates_sub info u : u ∈ connectionCandidates is_loopback getMachineId info -> u ∈ endpoints info.
Proof.
  unfold connectionCandidates. destruct (bool_decide _); [|done].
  destruct (localhost_only _ _) as [|v l] eqn:E; [done|]. rewrite <- E. unfold localhost_only.
  rewrite !list_elem_of_In, filter_In. tauto.
Qed.

(** What the loop on the candidates keeps. *)
Record looping (info : ServiceInfo uri_t) (c0 : TransportSocketCache) (a : nat) (at_ : ConnectionAttempt)
    (c : TransportSocketCache) : Prop := mkLooping {
  looping_settled : settled c;
  looping_attempt : attempts c !! a = Some at_;
  looping_machine machine u : find_entry (_connections c) machine u = Some a -> machine = machineId info;
  looping_rest : rest c = rest c0 /\ insertions c = insertions c0;
  looping_asked k : k ∈ connections c -> k ∈ connections c0 \/ conn_info k = info;
}.

Lemma try_keeps info c0 a at_ u c : looping info c0 a at_ c -> u ∈ endpoints info -> relatedUris at_ = endpoints info ->
  state at_ = State_Pending ->
  wp (try_candidate is_loopback getMachineId info a u)
    (fun r c' => looping info c0 a at_ c' /\ (hosts_known info = true -> r = Returned tt)) c.
Proof.
  intros Hl Hu Hr Hs. unfold try_candidate. destruct (tcpSchemeFromUriScheme _) eqn:Ht; [|by wp_step].
  destruct (negb _ && negb _) eqn:Eu.
  { split; [done|]. intros Hk. exfalso. apply andb_true_iff in Eu as [E1%negb_true_iff E2%negb_true_iff].
    unfold hosts_known in Hk. rewrite E1 in Hk. apply forallb_forall with (x := u) in Hk; [|by apply list_elem_of_In].
    by rewrite E2, Ht in Hk. }
  destruct (negb _ && hasLoopbackAddress _ _); [by wp_step|]. do 4 wp_step. split; [|done]. destruct Hl as [[Hw He] Ha Hm Hrest Hk]. split; cbn.
  - split.
    + apply (weak_set_entry _ _ _ _ _ _ _ _ at_); [done..|by rewrite Hr|done].
    + by apply (no_error_entry _ _ _ _ _ at_); [| |rewrite Hs].
  - done.
  - intros machine u'. rewrite find_entry_set. destruct (decide _) as [[-> _]|_]; [done|apply Hm].
  - done.
  - intros k [Hin|Hin]%elem_of_app; [by apply Hk|]. apply list_elem_of_singleton in Hin as ->. by right.
Qed.

Lemma socket_keeps info c : settled c ->
  wp (socket is_loopback getMachineId info)
    (fun r c' => settled c' /\ (hosts_known info = true -> exists f, r = Returned f) /\ rest c' = rest c /\
       insertions c' = insertions c /\ (forall k, k ∈ connections c' -> k ∈ connections c \/ conn_info k = info)) c.
Proof.
  intros Hset. pose proof Hset as [Hw He]. unfold socket. wp_step. destruct (_dying c); [wp_step; by eauto 10|].
  destruct (find_connection _ _) as [a|] eqn:E.
  - destruct (find_connection_Some _ _ _ _ (weak_tables _ _ _ _ _ Hw) E) as (u & _ & Hf).
    destruct (weak_entry _ _ _ _ _ Hw _ _ _ Hf) as (at_ & Ha & _). do 2 wp_step. by eauto 10.
  - do 3 wp_step. apply wp_bind. set (at_ := mkAttempt _ _ _ _ _ _).
    eapply wp_mono; [apply (wp_for_each _ (looping info c (nattempts c) at_) (hosts_known info = true))|].
    + split; cbn; [|by rewrite lookup_insert_eq| |done|by auto].
      * split.
        -- apply (weak_sub (_connections c)); [|by apply tables_ok_touch, (weak_tables _ _ _ _ _ Hw)|].
           ++ apply weak_new_attempt; [done..|]. split; [done|]. cbn. by rewrite lookup_insert_eq.
           ++ intros *. cbn. by rewrite find_entry_touch.
        -- apply (no_error_sub (_connections c)); [by apply no_error_insert|]. intros *. cbn. by rewrite find_entry_touch.
      * intros machine u. rewrite find_entry_touch. intros (bt & Hb & _)%(weak_entry _ _ _ _ _ Hw).
        apply (weak_attempt _ _ _ _ _ Hw) in Hb. lia.
    + intros u c' Hu Hl. apply try_keeps; [done|by apply candidates_sub|done..].
    + intros r c' [[Hs' _ _ [Hr Hi] Hk] Hg]. destruct r as [[]| |]; [wp_step; by eauto 10|..];
        (split_and!; [done| |done..]; by intros ?%Hg).
Qed.

(** The tables are empty in the loops of [close]. *)
Definition closing (c : TransportSocketCache) : Prop := weak_cache c /\ _connections c = [] /\ _dying c = true.

Lemma close_entry_keeps p c : closing c -> wp (close_entry p) (fun r c' => closing c') c.
Proof.
  intros (Hw & Hc & Hd). unfold close_entry. destruct (attempts c !! snd p) as [at_|] eqn:Ha.
  2: { unfold wp, mbind, M_bind, deref. by rewrite Ha. }
  wp_step. destruct (endpoint at_) as [s|] eqn:Es.
  - do 3 wp_step. split; [|done]. unfold weak_cache. cbn. apply (weak_modify _ _ _ _ _ _ at_); try done.
    apply (weak_attempt _ _ _ _ _ Hw) in Ha as [Hok _]. done.
  - wp_step. set (at' := set_state State_Error at_).
    assert (weak (_connections c) (<[snd p := at']> (attempts c)) (nattempts c) (promises c) (npromises c)) as Hw'
      by by apply (weak_modify _ _ _ _ _ _ at_).
    unfold wp, set_promise. cbn. destruct (promises c !! promise at_) as [[| |]|]; [|by split..]. split; [|done].
    unfold weak_cache. cbn. rewrite <- (insert_insert_eq (attempts c) (snd p) at' at').
    apply (weak_assign _ _ _ _ _ _ at' at' SetError _ Hw'); auto; [by rewrite lookup_insert_eq|exact I].
Qed.

Lemma closing_loop {A} (f : A -> M unit) l c : closing c -> (forall x c, closing c -> wp (f x) (fun r c' => closing c') c) ->
  wp (for_each f l) (fun r c' => closing c') c.
Proof.
  intros Hc Hf. eapply wp_mono; [apply (wp_for_each _ closing False); [done|]|by intros r c' [H _]].
  intros x c' _ H. eapply wp_mono; [by apply Hf|]. by intros r c'' H''.
Qed.

Lemma closing_step (m f : M unit) c : wp m (fun r c' => closing c') c -> (forall c', closing c' -> wp f (fun r c' => closing c') c') ->
  wp (m ;; f) (fun r c' => closing c') c.
Proof. intros Hm Hf. apply wp_bind. eapply wp_mono; [exact Hm|]. intros [[]| |] c' Hc'; auto. Qed.

Lemma close_keeps c : settled c -> wp close (fun r c' => closing c') c.
Proof.
  intros [Hw He]. unfold close. do 2 wp_step. apply closing_step.
  - apply closing_loop; [|intros *; apply close_entry_keeps]. split; [|done]. unfold weak_cache. cbn.
    apply (weak_sub (_connections c)); [done| |done]. split; constructor.
  - intros c1 H1. apply closing_step; [apply closing_loop; [done|]|].
    + intros s c2 H2. by wp_step.
    + intros c2 H2. wp_step. apply closing_loop; [done|]. intros d c3 H3. unfold wp, set_removed_promise.
      by destruct (decide _).
Qed.
End operations.

(** ** The connections that [socket] asks *)

(** A candidate that is tried. *)
Definition ask (info : ServiceInfo uri_t) (a : nat) (c : TransportSocketCache) (u : uri_t) : TransportSocketCache :=
  set_asked (connections c ++ [mkConnection (nsockets c) (toUrl u) u info])
    (set_pending (_allPendingConnections c ++ [nsockets c])
      (set_nsockets (S (nsockets c))
        (set_connections (set_entry (machineId info) u a (_connections c)) c))).

Lemma asked_connections info a l c :
  connections (foldl (ask info a) c l) = connections c ++ imap (fun i u => mkConnection (nsockets c + i) (toUrl u) u info) l.
Proof.
  revert c. induction l as [|u l IH]; intros c; cbn [foldl]; [by rewrite app_nil_r|].
  rewrite IH. cbn. rewrite <- app_assoc, Nat.add_0_r. do 2 f_equal. apply imap_ext. intros i v _. cbn. f_equal. lia.
Qed.

Lemma asked_rest info a l c :
  attempts (foldl (ask info a) c l) = attempts c /\ promises (foldl (ask info a) c l) = promises c.
Proof. revert c. induction l as [|u l IH]; intros c; cbn [foldl]; [done|]. by destruct (IH (ask info a c u)) as [-> ->]. Qed.

Lemma asked_dying info a l c : _dying (foldl (ask info a) c l) = _dying c.
Proof. revert c. induction l as [|u l IH]; intros c; cbn [foldl]; [done|]. by rewrite IH. Qed.

Lemma asked_entry info a l c machine u :
  find_entry (_connections (foldl (ask info a) c l)) machine u =
  if decide (machine = machineId info /\ u ∈ l) then Some a else find_entry (_connections c) machine u.
Proof.
  revert c. induction l as [|v l IH]; intros c; cbn [foldl].
  - destruct (decide _) as [[_ ?%elem_of_nil]|]; done.
  - rewrite IH. cbn. rewrite find_entry_set.
    destruct (decide (machine = machineId info /\ u ∈ l)), (decide (machine = machineId info /\ u = v)),
      (decide (machine = machineId info /\ u ∈ v :: l)) as [H|H]; try done; rewrite elem_of_cons in H; tauto.
Qed.

Lemma release_id c : cache_inv c -> release c = c.
Proof.
  intros [[Hw He] Hr]. unfold release.
  assert (forall a at_, attempts c !! a = Some at_ -> referenced (_connections c) a = true) as H.
  { intros a at_ Ha. apply (referenced_spec _ a (weak_tables _ _ _ _ _ Hw)). by eapply Hr. }
  rewrite (map_filter_id _ _ (fun a at_ => H a at_)).
  assert (List.filter (fun p : nat * ConnectionAttempt => negb (referenced (_connections c) (fst p))) (map_to_list (attempts c)) = [])
    as ->; [|by destruct c].
  destruct (List.filter _ _) as [|[a at_] l] eqn:E; [done|]. exfalso.
  assert (In (a, at_) (map_to_list (attempts c)) /\ negb (referenced (_connections c) a) = true) as [Hin Hn].
  { apply (filter_In (fun p => negb (referenced (_connections c) (fst p)))). rewrite E. by left. }
  apply list_elem_of_In, elem_of_map_to_list, H in Hin. by rewrite Hin in Hn.
Qed.
