(* ===== verification/SocketCacheProperties.v ===== *)
(** * SocketCacheProperties: what the cache of sockets promises

    Theorems on the executions of [TransportSocketCache]: no operation throws
    before [close], the futures that are not set are those of attempts in progress,
    what [socket] and [close] do, and when every future ends. *)
From S2P Require Import Prelude SortedMap CString Parse UriGrammar Uri ServiceDirectory UriEndpoints.
From S2P Require Import TransportSocketCache SocketCacheInvariant.

Section executions.
Context (is_loopback : bytes -> bool) (getMachineId : bytes).
Notation exec := (exec is_loopback getMachineId).
Notation run := (run is_loopback getMachineId).

(** The name of a service makes an URI. *)
Definition named (info : ServiceInfo uri_t) : bool := match relative_uri info with Some _ => true | None => false end.

(** No operation closes the cache, and the services are well formed. *)
Definition safe_op (o : op) : bool :=
  match o with
  | Socket info => hosts_known getMachineId info && named info
  | Close => false
  | _ => true
  end.

(** What is left of the operations before makes no handler throw. *)
Record quiet (c : TransportSocketCache) : Prop := mkQuiet {
  quiet_infos : infos_ok c;
  quiet_connections k : k ∈ connections c -> named (conn_info k) = true;
  quiet_insertions i : i ∈ insertions c -> named (ins_info i) = true;
}.

Lemma quiet_rest c c' : rest c' = rest c -> (forall k, k ∈ connections c' -> k ∈ connections c \/ named (conn_info k) = true) ->
  (forall i, i ∈ insertions c' -> i ∈ insertions c \/ named (ins_info i) = true) -> quiet c -> quiet c'.
Proof.
  intros Hr Hk Hi [H1 H2 H3]. split.
  - by apply (infos_ok_rest c).
  - intros k Hin. destruct (Hk k Hin); auto.
  - intros i Hin. destruct (Hi i Hin); auto.
Qed.

Lemma elem_of_delete {A} (i : nat) (l : list A) x : x ∈ delete i l -> x ∈ l.
Proof. rewrite delete_take_drop. rewrite <- (take_drop i l) at 3. rewrite !elem_of_app, !list_elem_of_In. intros [H|H]; [by left|right].
  rewrite <- (take_drop 1 (drop i l)), drop_drop, in_app_iff, Nat.add_1_r. by right.
Qed.

Lemma disconnect_quiet s c : quiet c -> quiet (set_infos (_disconnectInfos c ++ [(s, nremovals c)]) (S (nremovals c)) c).
Proof.
  intros [[H1 H2 H3] Hk Hi]. split; [|done..]. split; cbn; rewrite ?map_app; cbn.
  - apply NoDup_app. split_and!; [done| |apply NoDup_singleton]. intros p [_ Hp]%H2 ->%list_elem_of_singleton. lia.
  - intros p [Hp|Hp]%elem_of_app; [apply H2 in Hp as [? ?]; split; [done|lia]|].
    apply list_elem_of_singleton in Hp as ->. split; [|lia]. intros Hp%H3. lia.
  - intros p Hp%H3. lia.
Qed.

Lemma exec_keeps o c : settled c ->
  wp (exec_op is_loopback getMachineId o)
    (fun r c' => settled c' /\ (quiet c -> safe_op o = true -> r = Returned tt /\ quiet c')) c.
Proof.
  intros Hs. unfold exec_op. wp_step. destruct o as [info|machine u s|s|i hasError|i|i| |]; cbn [safe_op].
  - apply wp_bind. eapply wp_mono; [by apply socket_keeps|]. intros r c' (H & Hr & Hrest & Hi & Hk).
    assert (quiet c -> named info = true -> quiet c') as Hq'.
    { intros Hq Hn. apply (quiet_rest c); [done| |rewrite Hi; auto|done].
      intros k [Hin|Heq]%Hk; [by left|right; by rewrite Heq]. }
    destruct r as [f| |]; [wp_step|..]; (split; [done|]); intros Hq [Hh Hn]%andb_true_iff; (split; [|by apply Hq']); [done|..];
      by destruct (Hr Hh).
  - wp_step. eapply wp_mono; [by apply insert_keeps|]. intros r c' (H & -> & Hrest & Hk & Hi). split; [done|].
    intros Hq _. split; [done|]. apply (quiet_rest c); [done|rewrite Hk; auto|rewrite Hi; auto|done].
  - apply wp_bind. unfold disconnect. do 4 wp_step. split; [done|]. intros Hq _. split; [done|].
    apply (quiet_rest (set_infos (_disconnectInfos c ++ [(s, nremovals c)]) (S (nremovals c)) c)); auto. by apply disconnect_quiet.
  - destruct (connections c !! i) as [k|] eqn:E; [|wp_step; by auto]. wp_step.
    eapply wp_mono; [by apply result_keeps|]. intros r c' (H & -> & Hrest & Hk & Hi). split; [done|]. intros Hq _. split; [done|].
    apply (quiet_rest c); [done|rewrite Hk|..|done].
    + intros k' Hin%elem_of_delete. by left.
    + intros j Hj. destruct Hi as [Hi|Hi]; rewrite Hi in Hj; [by left|]. apply elem_of_app in Hj as [Hj|Hj]; [by left|].
      apply list_elem_of_singleton in Hj as ->. right. apply (quiet_connections c Hq). by eapply list_elem_of_lookup_2.
  - destruct (insertions c !! i) as [ins|] eqn:E; [|wp_step; by auto]. wp_step.
    pose proof (list_elem_of_lookup_2 _ _ _ E) as Hin. unfold insert_relative.
    destruct (uri _) as [u|] eqn:Eu.
    + eapply wp_mono; [by apply insert_keeps|]. intros r c' (H & -> & Hrest & Hk & Hi). split; [done|]. intros Hq _. split; [done|].
      apply (quiet_rest c); [done|rewrite Hk; auto|rewrite Hi|done]. intros j Hj%elem_of_delete. by left.
    + split; [done|]. intros Hq _. apply (quiet_insertions c Hq) in Hin. unfold named, relative_uri in Hin. by rewrite Eu in Hin.
  - destruct (subscriptions c !! i) as [s|] eqn:E; [|wp_step; by auto].
    eapply wp_mono; [by apply disconnected_keeps|]. intros r c' (H & Hr & Hk & Hi). split; [done|]. intros Hq _.
    destruct (Hr (quiet_infos c Hq)) as [-> Hinf]. split; [done|]. split; [done|rewrite Hk|rewrite Hi]; apply Hq.
  - wp_step. split; [done|]. intros Hq _. split; [done|]. by apply (quiet_rest c); auto.
  - eapply wp_mono; [by apply close_keeps|]. intros r c' (Hw & Hc & _). split; [|done]. split; [done|]. rewrite Hc. by intros ????.
Qed.

Lemma exec_inv o c : cache_inv c -> cache_inv (snd (exec o c)).
Proof.
  intros [Hs _]. pose proof (exec_keeps o c Hs) as [H _]. unfold TransportSocketCache.exec.
  destruct (exec_op _ _ o c) as [r c']. by apply release_inv.
Qed.

Lemma cache_inv_new : cache_inv TransportSocketCache_new.
Proof. split; [split; [apply weak_new|]|]; [intros machine u a at_ H|intros a at_ H]; done. Qed.

Lemma run_snoc ops o c : run (ops ++ [o]) c = snd (exec o (run ops c)).
Proof. unfold TransportSocketCache.run. by rewrite foldl_app. Qed.

Lemma run_inv ops : cache_inv (run ops TransportSocketCache_new).
Proof.
  induction ops as [|o ops IH] using rev_ind; [apply cache_inv_new|]. rewrite run_snoc. by apply exec_inv.
Qed.

Lemma release_quiet c : quiet c -> quiet (release c).
Proof. intros H. apply (quiet_rest c); auto. Qed.

Lemma exec_quiet o c : cache_inv c -> quiet c -> safe_op o = true -> fst (exec o c) = Returned tt /\ quiet (snd (exec o c)).
Proof.
  intros [Hs _] Hq Ho. pose proof (exec_keeps o c Hs) as [_ H]. unfold TransportSocketCache.exec.
  destruct (exec_op _ _ o c) as [r c']. cbn in H. destruct (H Hq Ho) as [-> H']. split; [done|]. by apply release_quiet.
Qed.

Lemma run_quiet ops : forallb safe_op ops = true -> quiet (run ops TransportSocketCache_new).
Proof.
  induction ops as [|o ops IH] using rev_ind.
  - intros _. split; [split; [constructor|..]|..]; cbn; try done; intros ? ?%elem_of_nil; done.
  - rewrite forallb_app, run_snoc. intros [H1 H2]%andb_true_iff. apply exec_quiet; [apply run_inv|by apply IH|].
    by apply andb_true_iff in H2 as [H2 _].
Qed.

(** ** The connections that [socket] asks *)

(** The candidates that are tried. *)
Definition tried (info : ServiceInfo uri_t) (u : uri_t) : bool :=
  match tcpSchemeFromUriScheme (scheme_ u) with
  | None => false
  | Some _ => bool_decide (machineId info = getMachineId) || negb (hasLoopbackAddress is_loopback u)
  end.

Definition attempted (info : ServiceInfo uri_t) : list uri_t :=
  List.filter (tried info) (connectionCandidates is_loopback getMachineId info).

Lemma ask_all info a l c : hosts_known getMachineId info = true -> (forall u, u ∈ l -> u ∈ endpoints info) ->
  for_each (try_candidate is_loopback getMachineId info a) l c = (Returned tt, foldl (ask info a) c (List.filter (tried info) l)).
Proof.
  intros Hk. revert c. induction l as [|u l IH]; intros c Hl; [done|]. cbn [for_each List.filter].
  assert (u ∈ endpoints info) as Hu by (apply Hl; by left).
  assert (forall c, for_each (try_candidate is_loopback getMachineId info a) l c =
    (Returned tt, foldl (ask info a) c (List.filter (tried info) l))) as IH' by (intros c'; apply IH; intros v Hv; apply Hl; by right).
  unfold mbind, M_bind, tried at 1, try_candidate at 1. destruct (tcpSchemeFromUriScheme _) eqn:Ht; [|by apply IH'].
  destruct (negb _ && negb _) eqn:Eu.
  { exfalso. apply andb_true_iff in Eu as [E1%negb_true_iff E2%negb_true_iff]. unfold hosts_known in Hk. rewrite E1 in Hk.
    apply forallb_forall with (x := u) in Hk; [|by apply list_elem_of_In]. by rewrite E2, Ht in Hk. }
  destruct (bool_decide (machineId info = getMachineId)), (hasLoopbackAddress is_loopback u); cbn; apply IH'.
Qed.

(** The attempt that [socket] makes, and the state before the loop on the candidates. *)
Definition new_couple (info : ServiceInfo uri_t) (c : TransportSocketCache) : ConnectionAttempt :=
  mkAttempt (npromises c) None (endpoints info)
    (Z.of_nat (length (connectionCandidates is_loopback getMachineId info))) State_Pending None.

Definition started (info : ServiceInfo uri_t) (c : TransportSocketCache) : TransportSocketCache :=
  set_connections (map_set str_compare (machineId info) (uris_of (_connections c) (machineId info)) (_connections c))
    (set_attempts (<[nattempts c := new_couple info c]> (attempts c)) (S (nattempts c))
      (set_promises (<[npromises c := Unset]> (promises c)) (S (npromises c)) c)).

Lemma socket_new info c : _dying c = false -> hosts_known getMachineId info = true ->
  find_connection (endpoints info) (uris_of (_connections c) (machineId info)) = None ->
  socket is_loopback getMachineId info c =
  (Returned (Some (npromises c)), foldl (ask info (nattempts c)) (started info c) (attempted info)).
Proof.
  intros Hd Hk E. unfold socket, mbind, M_bind. cbn [get]. rewrite Hd, E. cbn. by rewrite ask_all by (done || apply candidates_sub).
Qed.

Lemma exec_socket info c : exec (Socket info) c =
  (match fst (socket is_loopback getMachineId info c) with Returned _ => Returned tt | Threw => Threw | Undefined => Undefined end,
   release (snd (socket is_loopback getMachineId info c))).
Proof.
  unfold TransportSocketCache.exec, exec_op, mbind, M_bind. cbn [get]. by destruct (socket _ _ info c) as [[f| |] c'].
Qed.

(** The future of a new attempt. *)
Lemma new_future info c : cache_inv c -> _dying c = false -> hosts_known getMachineId info = true ->
  find_connection (endpoints info) (uris_of (_connections c) (machineId info)) = None ->
  promises (release (foldl (ask info (nattempts c)) (started info c) (attempted info))) !! npromises c =
  Some (if decide (attempted info = []) then SetError else Unset).
Proof.
  intros [Hs _] Hd Hk E. pose proof (socket_keeps is_loopback getMachineId info c Hs) as [[Hw' _] _].
  rewrite (socket_new info c Hd Hk E) in Hw'. cbn [snd] in Hw'. destruct Hs as [Hw _].
  set (c1 := foldl _ _ _) in *. destruct (asked_rest info (nattempts c) (attempted info) (started info c)) as [Hat Hps]. fold c1 in Hat, Hps.
  assert (attempts c1 !! nattempts c = Some (new_couple info c)) as Ha by (rewrite Hat; apply lookup_insert_eq).
  assert (referenced (_connections c1) (nattempts c) = true <-> attempted info <> []) as Hr.
  { rewrite (referenced_spec _ _ (weak_tables _ _ _ _ _ Hw')). split.
    - intros (machine & u & H). unfold c1 in H. rewrite asked_entry in H. destruct (decide _) as [[_ Hu]|_]; [by intros Hn; rewrite Hn in Hu; apply elem_of_nil in Hu|].
      cbn in H. rewrite find_entry_touch in H. apply (weak_entry _ _ _ _ _ Hw) in H as (bt & Hb & _).
      apply (weak_attempt _ _ _ _ _ Hw) in Hb. lia.
    - intros Hn. destruct (attempted info) as [|u l] eqn:El; [done|]. exists (machineId info), u. unfold c1. rewrite asked_entry.
      rewrite decide_True; [done|]. split; [done|by left]. }
  rewrite release_promise, Hps. cbn [promises started set_promises set_attempts set_connections]. rewrite lookup_insert_eq.
  destruct (decide (attempted info = [])) as [El|El].
  - rewrite decide_True; [done|]. split; [done|]. exists (nattempts c), (new_couple info c). split_and!; [done| |done].
    apply not_true_iff_false. by intros ?%Hr.
  - rewrite decide_False; [done|]. intros [_ (b & bt & Hb & Hrb & Heq)].
    rewrite (weak_inj _ _ _ _ _ Hw' b (nattempts c) bt (new_couple info c) Hb Ha Heq) in Hrb. apply Hr in El. congruence.
Qed.

(** ** Theorems *)

(** C16. Before the cache is closed no operation throws or has an undefined behaviour,
    in any interleaving of operations, results of connections and signals. *)
Theorem cache_no_throw ops o : forallb safe_op ops = true -> safe_op o = true ->
  fst (exec o (run ops TransportSocketCache_new)) = Returned tt.
Proof. intros H Ho. apply exec_quiet; [apply run_inv|by apply run_quiet|done]. Qed.

(** C2. A future that [socket] returned is not set exactly when it is that of an entry
    of the tables whose attempt is in progress. *)
Theorem cache_futures ops p : let c := run ops TransportSocketCache_new in
  promises c !! p = Some Unset <->
  exists machine u a at_, find_entry (_connections c) machine u = Some a /\ attempts c !! a = Some at_ /\
    promise at_ = p /\ state at_ = State_Pending.
Proof.
  intros c. destruct (run_inv ops) as [[Hw He] Hr]. split.
  - intros Hp. destruct (weak_unset _ _ _ _ _ Hw p Hp) as (a & at_ & Ha & Heq). destruct (Hr a at_ Ha) as (machine & u & Hf).
    exists machine, u, a, at_. split_and!; [done..|]. destruct (state at_) eqn:Hs; [done| |by destruct (He _ _ _ _ Hf Ha)].
    destruct (connected_ok _ _ _ _ _ a at_ Hw Ha Hs) as (s & _ & H). rewrite Heq in H. fold c in H. congruence.
  - intros (machine & u & a & at_ & Hf & Ha & <- & Hs). by apply (pending_ok _ _ _ _ _ a at_ Hw Ha Hs).
Qed.

(** [socket] on an open cache: when an endpoint of the service is in the tables for
    its machine, the future is that of the entry, which is in progress or has a
    socket, and nothing changes; otherwise a connection to every candidate that is
    tried is asked, in order, under one new future, which is set in error at once
    when there is none. *)
Theorem socket_correct ops info : let c := run ops TransportSocketCache_new in let c' := snd (exec (Socket info) c) in
  _dying c = false -> hosts_known getMachineId info = true ->
  exists p, fst (socket is_loopback getMachineId info c) = Returned (Some p) /\
  ((exists u a at_, u ∈ endpoints info /\ find_entry (_connections c) (machineId info) u = Some a /\
      attempts c !! a = Some at_ /\ p = promise at_ /\
      (promises c !! p = Some Unset \/ exists s, promises c !! p = Some (SetValue s) /\ endpoint at_ = Some s) /\ c' = c) \/
   ((forall u, u ∈ endpoints info -> find_entry (_connections c) (machineId info) u = None) /\ p = npromises c /\
      connections c' = connections c ++ imap (fun i u => mkConnection (nsockets c + i) (toUrl u) u info) (attempted info) /\
      promises c' !! p = Some (if decide (attempted info = []) then SetError else Unset))).
Proof.
  intros c c' Hd Hk. pose proof (run_inv ops : cache_inv c) as Hinv. pose proof Hinv as [[Hw He] _].
  unfold c'. rewrite exec_socket. cbn [snd]. destruct (find_connection (endpoints info) (uris_of (_connections c) (machineId info))) as [a|] eqn:E.
  - destruct (find_connection_Some _ _ _ _ (weak_tables _ _ _ _ _ Hw) E) as (u & Hu & Hf).
    destruct (weak_entry _ _ _ _ _ Hw _ _ _ Hf) as (at_ & Ha & _). unfold socket, mbind, M_bind, deref. cbn [get].
    rewrite Hd, E, Ha. cbn. rewrite release_id by done.
    exists (promise at_). split; [done|]. left. exists u, a, at_. split_and!; try done. destruct (state at_) eqn:Hs.
    + left. by apply (pending_ok _ _ _ _ _ a at_ Hw Ha Hs).
    + right. destruct (connected_ok _ _ _ _ _ a at_ Hw Ha Hs) as (s & H1 & H2). eauto.
    + by destruct (He _ _ _ _ Hf Ha).
  - rewrite (socket_new info c Hd Hk E). cbn [fst snd]. exists (npromises c). split; [done|]. right.
    split_and!; [intros u; by apply find_connection_None|done| |by apply new_future].
    apply (asked_connections info (nattempts c) (attempted info) (started info c)).
Qed.
End executions.

(** ** The end of the cache *)

Definition in_progress (ats : gmap nat ConnectionAttempt) (a : nat) : bool :=
  match ats !! a with Some at_ => bool_decide (endpoint at_ = None) | None => false end.

(** The attempts in progress of the entries, one for each of their entries. *)
Definition pending (ats : gmap nat ConnectionAttempt) (l : list (uri_t * nat)) : list nat :=
  List.filter (in_progress ats) (map snd l).

(** The sockets of the entries. *)
Definition sockets (ats : gmap nat ConnectionAttempt) (l : list (uri_t * nat)) : list nat :=
  omap (fun p => ats !! snd p ≫= endpoint) l.

Definition unset (c : TransportSocketCache) (a : nat) : bool :=
  match attempts c !! a with Some at_ => bool_decide (promises c !! promise at_ = Some Unset) | None => false end.

(** ** The loop of [close] *)

Lemma in_progress_insert ats a at_ at' b : ats !! a = Some at_ -> endpoint at' = endpoint at_ ->
  <[a := at']> ats !! b ≫= endpoint = ats !! b ≫= endpoint /\ in_progress (<[a := at']> ats) b = in_progress ats b.
Proof.
  intros Ha He. unfold in_progress. destruct (decide (b = a)) as [->|Hn].
  - rewrite lookup_insert_eq, Ha. cbn. by rewrite He.
  - by rewrite lookup_insert_ne by done.
Qed.

Lemma pending_insert ats a at_ at' l : ats !! a = Some at_ -> endpoint at' = endpoint at_ ->
  pending (<[a := at']> ats) l = pending ats l /\ sockets (<[a := at']> ats) l = sockets ats l.
Proof.
  intros Ha He. pose proof (fun b => in_progress_insert ats a at_ at' b Ha He) as H. split.
  - unfold pending. apply filter_ext. intros b. apply H.
  - unfold sockets. induction l as [|p l IH]; cbn; [done|]. destruct (H (snd p)) as [-> _]. by rewrite IH.
Qed.

Lemma forallb_ext_in {A} (f g : A -> bool) l : (forall x, x ∈ l -> f x = g x) -> forallb f l = forallb g l.
Proof.
  induction l as [|x l IH]; intros H; cbn; [done|]. rewrite (H x) by by left. rewrite IH; [done|].
  intros y Hy. apply H. by right.
Qed.

(** An attempt whose change keeps its promise and its socket. *)
Record same_attempt (c c' : TransportSocketCache) (a : nat) (at_ : ConnectionAttempt) : Prop := mkSame {
  same_lookup : attempts c !! a = Some at_;
  same_insert : exists at', attempts c' = <[a := at']> (attempts c) /\ endpoint at' = endpoint at_ /\ promise at' = promise at_;
}.

Lemma same_promise c c' a at_ b bt' : same_attempt c c' a at_ -> attempts c' !! b = Some bt' ->
  exists bt, attempts c !! b = Some bt /\ promise bt = promise bt'.
Proof.
  intros [Ha (at' & Hat & _ & Hp)]. rewrite Hat. destruct (decide (b = a)) as [->|Hn].
  - rewrite lookup_insert_eq. intros [= <-]. by exists at_.
  - rewrite lookup_insert_ne by done. by exists bt'.
Qed.

Lemma same_unset c c' a at_ b : same_attempt c c' a at_ ->
  unset c' b = match attempts c !! b with Some bt => bool_decide (promises c' !! promise bt = Some Unset) | None => false end.
Proof.
  intros [Ha (at' & Hat & _ & Hp)]. unfold unset. rewrite Hat. destruct (decide (b = a)) as [->|Hn].
  - by rewrite lookup_insert_eq, Ha, Hp.
  - by rewrite lookup_insert_ne by done.
Qed.

(** The promises of the attempts are different. *)
Definition distinct (c : TransportSocketCache) : Prop :=
  forall a b at_ bt, attempts c !! a = Some at_ -> attempts c !! b = Some bt -> promise at_ = promise bt -> a = b.

Lemma same_distinct c c' a at_ : same_attempt c c' a at_ -> distinct c -> distinct c'.
Proof.
  intros Hs Hd b d bt dt Hb Hdt Heq. destruct (same_promise _ _ _ _ _ _ Hs Hb) as (bt' & Hb' & Hp).
  destruct (same_promise _ _ _ _ _ _ Hs Hdt) as (dt' & Hd' & Hp'). apply (Hd b d bt' dt'); [done..|congruence].
Qed.

(** The attempt whose promise is set in error is not found unset again. *)
Lemma unset_cons c c' a at_ l : same_attempt c c' a at_ -> distinct c -> promises c !! promise at_ = Some Unset ->
  promises c' = <[promise at_ := SetError]> (promises c) ->
  bool_decide (NoDup (a :: l)) && forallb (unset c) (a :: l) = bool_decide (NoDup l) && forallb (unset c') l.
Proof.
  intros Hs Hd Hu Hp. assert (unset c a = true) as Ha.
  { unfold unset. rewrite (same_lookup _ _ _ _ Hs). by apply bool_decide_eq_true. }
  assert (unset c' a = false) as Ha'.
  { rewrite (same_unset _ _ _ _ a Hs), (same_lookup _ _ _ _ Hs), Hp, lookup_insert_eq. by apply bool_decide_eq_false. }
  cbn [forallb]. rewrite Ha. cbn [andb]. destruct (decide (a ∈ l)) as [Hin|Hin].
  - rewrite bool_decide_eq_false_2 by (intros [? _]%NoDup_cons; done). symmetry. apply andb_false_iff. right.
    apply not_true_iff_false. intros Hf. apply forallb_forall with (x := a) in Hf; [congruence|by apply list_elem_of_In].
  - rewrite (bool_decide_ext (NoDup (a :: l)) (NoDup l)) by (rewrite NoDup_cons; tauto). f_equal. apply forallb_ext_in.
    intros b Hb. rewrite (same_unset _ _ _ _ b Hs). unfold unset. destruct (attempts c !! b) as [bt|] eqn:Hbt; [|done].
    rewrite Hp, lookup_insert_ne; [done|]. intros Heq. apply Hin.
    by rewrite (Hd a b at_ bt (same_lookup _ _ _ _ Hs) Hbt Heq).
Qed.

(** The loop throws when the promise of an attempt in progress is already set: that it
    was set before, or by the loop for another entry. *)
Lemma close_loop l c : distinct c -> (forall p, p ∈ l -> is_Some (attempts c !! snd p)) ->
  wp (for_each close_entry l) (fun r c' =>
    r = (if bool_decide (NoDup (pending (attempts c) l)) && forallb (unset c) (pending (attempts c) l) then Returned tt else Threw) /\
    rest c' = rest c /\ (r = Returned tt -> disconnects c' = disconnects c ++ sockets (attempts c) l)) c.
Proof.
  revert c. induction l as [|[u a] l IH]; intros c Hd Hl; cbn [for_each].
  { unfold wp. cbn. by rewrite app_nil_r. }
  destruct (Hl (u, a)) as [at_ Ha]; [by left|]. cbn in Ha. apply wp_bind. unfold close_entry. wp_step.
  assert (forall p, p ∈ l -> is_Some (attempts c !! snd p)) as Hl' by (intros p Hp; apply Hl; by right).
  assert (forall c', same_attempt c c' a at_ -> forall p, p ∈ l -> is_Some (attempts c' !! snd p)) as Hl''.
  { intros c' [_ (at' & -> & _)] p Hp. destruct (decide (snd p = a)) as [->|]; [by rewrite lookup_insert_eq|].
    rewrite lookup_insert_ne by done. auto. }
  assert (pending (attempts c) ((u, a) :: l) =
    match endpoint at_ with Some _ => pending (attempts c) l | None => a :: pending (attempts c) l end) as Hpend.
  { unfold pending. cbn. unfold in_progress at 1. rewrite Ha. by destruct (endpoint at_). }
  unfold sockets. cbn [omap list_omap]. rewrite Hpend. cbn [snd]. rewrite Ha. cbn [mbind option_bind].
  destruct (endpoint at_) as [s|] eqn:Es.
  - do 3 wp_step. set (c1 := unsubscribe _ _).
    assert (same_attempt c c1 a at_) as Hs by (split; [done|]; by exists (set_tracking None at_)).
    destruct (pending_insert (attempts c) a at_ (set_tracking None at_) l Ha eq_refl) as [Hp Ht].
    eapply wp_mono; [apply IH; [by eapply same_distinct|by apply Hl'']|]. intros r c' (Hr & Hrest & Hdis).
    change (attempts c1) with (<[a := set_tracking None at_]> (attempts c)) in *. rewrite Hp in Hr. rewrite Ht in Hdis. split_and!.
    + rewrite Hr. rewrite (forallb_ext_in (unset c1) (unset c)); [done|]. intros b _. exact (same_unset _ _ _ _ b Hs).
    + done.
    + intros Hok. rewrite (Hdis Hok). cbn. by rewrite <- app_assoc.
  - wp_step. unfold wp at 1, set_promise. cbn [promises set_attempts promise].
    destruct (decide (promises c !! promise at_ = Some Unset)) as [Hu|Hu].
    + rewrite Hu. cbn [fst snd]. set (c1 := set_promises _ _ _).
      assert (same_attempt c c1 a at_) as Hs by (split; [done|]; by exists (set_state State_Error at_)).
      destruct (pending_insert (attempts c) a at_ (set_state State_Error at_) l Ha eq_refl) as [Hp Ht].
      eapply wp_mono; [apply IH; [by eapply same_distinct|by apply Hl'']|]. intros r c' (Hr & Hrest & Hdis).
      change (attempts c1) with (<[a := set_state State_Error at_]> (attempts c)) in *. rewrite Hp in Hr. rewrite Ht in Hdis.
      split_and!; [|done|done]. rewrite Hr. by rewrite (unset_cons c c1 a at_).
    + assert (unset c a = false) as Hn by (unfold unset; rewrite Ha; by apply bool_decide_eq_false).
      cbn [forallb]. rewrite Hn, andb_false_r. by destruct (promises c !! promise at_) as [[| |]|].
Qed.

(** ** The other loops *)

Lemma disconnect_loop l c : wp (for_each (fun s => modify (disconnect_socket s)) l)
  (fun r c' => r = Returned tt /\ disconnects c' = disconnects c ++ l /\ rest c' = rest c) c.
Proof.
  revert c. induction l as [|s l IH]; intros c; cbn [for_each]; [wp_step; by rewrite app_nil_r|].
  wp_step. eapply wp_mono; [apply IH|]. intros r c' (-> & Hd & Hr). split_and!; [done| |done]. rewrite Hd. cbn. by rewrite <- app_assoc.
Qed.

Lemma release_infos l c : NoDup (map snd l) -> (forall p, p ∈ map snd l -> p ∉ removed c) ->
  wp (releaseDisconnectInfoPromises l)
    (fun r c' => r = Returned tt /\ disconnects c' = disconnects c /\ forall p, p ∈ removed c' <-> p ∈ map snd l \/ p ∈ removed c) c.
Proof.
  unfold releaseDisconnectInfoPromises. revert c. induction l as [|d l IH]; intros c Hn Hl; cbn [for_each].
  { wp_step. split_and!; [done..|]. intros p. rewrite elem_of_nil. tauto. }
  apply NoDup_cons in Hn as [Hd Hn]. assert (snd d ∉ removed c) as Hnd by (apply Hl; by left).
  apply wp_bind. unfold wp at 1, set_removed_promise. rewrite decide_False by done. cbn [fst snd].
  eapply wp_mono; [apply IH; [done|]|].
  - intros p Hp. cbn. rewrite elem_of_union, elem_of_singleton. intros [->|Hr]; [done|]. revert Hr. apply Hl. by right.
  - intros r c' (Hr & Hdis & H). split_and!; [done..|]. intros p. rewrite H. cbn.
    rewrite elem_of_union, elem_of_singleton, elem_of_cons. tauto.
Qed.

Section close.
Context (is_loopback : bytes -> bool) (getMachineId : bytes).
Notation exec := (exec is_loopback getMachineId).
Notation run := (run is_loopback getMachineId).

Lemma entries_attempt c p : weak_cache c -> p ∈ entries (_connections c) ->
  exists machine at_, find_entry (_connections c) machine (fst p) = Some (snd p) /\ attempts c !! snd p = Some at_.
Proof.
  intros Hw Hp. destruct p as [u a]. apply (entries_find _ u a (weak_tables _ _ _ _ _ Hw)) in Hp as [machine Hf].
  destruct (weak_entry _ _ _ _ _ Hw _ _ _ Hf) as (at_ & Ha & _). by exists machine, at_.
Qed.

Lemma entries_unset c : settled c -> forallb (unset c) (pending (attempts c) (entries (_connections c))) = true.
Proof.
  intros [Hw He]. apply forallb_forall. intros a [Hin Hp]%filter_In. apply in_map_iff in Hin as ([u b] & Hb & Hin).
  cbn in Hb. subst b. apply list_elem_of_In in Hin. destruct (entries_attempt c _ Hw Hin) as (machine & at_ & Hf & Ha).
  cbn in Hf, Ha. unfold in_progress in Hp. unfold unset. rewrite Ha in Hp |- *. apply bool_decide_eq_true in Hp. apply bool_decide_eq_true.
  destruct (state at_) eqn:Hs; [| |by destruct (He _ _ _ _ Hf Ha)].
  - by apply (pending_ok _ _ _ _ _ a at_ Hw Ha Hs).
  - destruct (connected_ok _ _ _ _ _ a at_ Hw Ha Hs) as (s & H & _). congruence.
Qed.

Lemma close_loops c : settled c -> infos_ok c ->
  wp close (fun r c' =>
    r = (if bool_decide (NoDup (pending (attempts c) (entries (_connections c)))) then Returned tt else Threw) /\
    (r = Returned tt ->
      disconnects c' = disconnects c ++ sockets (attempts c) (entries (_connections c)) ++ _allPendingConnections c /\
      forall p, p ∈ map snd (_disconnectInfos c) -> p ∈ removed c') /\
    (r = Threw -> removed c' = removed c)) c.
Proof.
  intros Hs Hi. unfold close. do 2 wp_step. apply wp_bind.
  eapply wp_mono; [apply close_loop|].
  - exact (weak_inj _ _ _ _ _ (proj1 Hs)).
  - intros p Hp. destruct (entries_attempt c p (proj1 Hs) Hp) as (machine & at_ & _ & Ha). by exists at_.
  - cbn [attempts set_pending set_connections set_dying]. intros r c1 (Hr & Hrest & Hd). revert Hr.
    change (unset (set_pending [] (set_connections [] (set_dying true c)))) with (unset c). rewrite (entries_unset c Hs), andb_true_r.
    destruct (bool_decide _); intros ->; [|by injection Hrest]. cbn iota. apply wp_bind.
    eapply wp_mono; [apply disconnect_loop|]. intros r c2 (-> & Hd2 & Hrest2). wp_step.
    assert (infos_ok c2) as Hi2 by (apply (infos_ok_rest c); [rewrite Hrest2; exact Hrest|done]).
    eapply wp_mono; [apply release_infos; [apply Hi2|intros p; apply Hi2]|]. intros r c3 (-> & Hd3 & Hrem).
    split_and!; [done| |done]. intros _. split.
    + rewrite Hd3, Hd2, Hd by done. by rewrite <- app_assoc.
    + intros p Hp. apply Hrem. left. rewrite Hrest in Hrest2. by injection Hrest2 as -> _ _.
Qed.

(** C18. [close] empties the tables and sets every future; it also disconnects the
    sockets of the entries and the pending ones, and ends the disconnections in
    progress, unless an attempt in progress has two entries: it then throws, because
    it sets its promise twice, and leaves the disconnections. *)
Theorem close_correct ops : forallb (safe_op getMachineId) ops = true ->
  let c := run ops TransportSocketCache_new in let r := fst (exec Close c) in let c' := snd (exec Close c) in
  r = (if bool_decide (NoDup (pending (attempts c) (entries (_connections c)))) then Returned tt else Threw) /\
  _connections c' = [] /\ _dying c' = true /\ attempts c' = ∅ /\ (forall p, promises c' !! p <> Some Unset) /\
  (r = Returned tt ->
    disconnects c' = disconnects c ++ sockets (attempts c) (entries (_connections c)) ++ _allPendingConnections c /\
    forall p, p ∈ map snd (_disconnectInfos c) -> p ∈ removed c') /\
  (r = Threw -> removed c' = removed c).
Proof.
  intros Hops c r c'. pose proof (run_inv is_loopback getMachineId ops : cache_inv c) as Hinv.
  pose proof (run_quiet is_loopback getMachineId ops Hops : quiet c) as Hq.
  pose proof (close_loops c (inv_settled c Hinv) (quiet_infos c Hq)) as H1.
  pose proof (close_keeps c (inv_settled c Hinv)) as H2.
  assert (r = fst (close c) /\ c' = release (snd (close c))) as [-> ->].
  { unfold r, c', TransportSocketCache.exec, exec_op, mbind, M_bind. cbn [get]. by destruct (close c). }
  unfold wp in H1, H2. destruct H1 as (H1 & H3 & H4), H2 as (Hw & Hc & Hd).
  assert (attempts (release (snd (close c))) = ∅) as Ha.
  { apply map_eq. intros a. rewrite lookup_empty. apply eq_None_ne_Some. intros at_ [_ H]%release_attempt.
    by rewrite Hc in H. }
  split_and!; [done..| |done|done]. intros p Hp.
  assert (settled (snd (close c))) as Hs by (split; [done|rewrite Hc; by intros ????]).
  destruct (weak_unset _ _ _ _ _ (proj1 (inv_settled _ (release_inv _ Hs))) p Hp) as (a & at_ & Hat & _).
  by rewrite Ha in Hat.
Qed.
End close.

(** A service with two endpoints whose connections are in progress: [close] throws. *)
Definition close_sample_uri (str : bytes) : uri_t := default (mkUri [] None [] None None) (uri str).
Definition close_sample : list op :=
  [Socket (mkServiceInfo (lit "motion") 3 (lit "robot") 1
    [close_sample_uri (lit "tcp://10.0.0.1:9559"); close_sample_uri (lit "tcp://10.0.0.2:9559")] [] [])].

Lemma close_correct_witness :
  let c := run (fun _ => false) [] close_sample TransportSocketCache_new in
  fst (exec (fun _ => false) [] Close c) = Threw /\ _connections (snd (exec (fun _ => false) [] Close c)) = [].
Proof.
  cbv zeta. destruct (close_correct (fun _ => false) [] close_sample) as (H & Hc & _); [vm_compute; reflexivity|].
  split; [rewrite H; vm_compute; reflexivity|exact Hc].
Defined.
