(* ===== verification/SocketCacheLiveness.v ===== *)
(** * SocketCacheLiveness: the futures of the cache of sockets end

    When every endpoint of the services is a candidate that is tried, every future of
    [TransportSocketCache] is set once the connections have given their results. The
    examples show the executions in which the code leaves a future without a value. *)
From S2P Require Import Prelude SortedMap CString Url Parse UriGrammar Uri ServiceDirectory UriEndpoints.
From S2P Require Import TransportSocketCache SocketCacheInvariant SocketCacheProperties.
Open Scope Z_scope.

(** ** Definitions *)

(** The results to come for the entries of an attempt. *)
Definition concerns (conns : ConnectionMap) (a : nat) (k : connection) : bool :=
  bool_decide (find_entry conns (machineId (conn_info k)) (conn_uri k) = Some a).

Definition outstanding (conns : ConnectionMap) (l : list connection) (a : nat) : Z :=
  Z.of_nat (length (List.filter (concerns conns a) l)).

(** An attempt has an entry for each of its URIs, and does not count more results than
    there are to come. *)
Definition attempt_live (conns : ConnectionMap) (l : list connection) (a : nat) (at_ : ConnectionAttempt) : Prop :=
  (forall u, u ∈ relatedUris at_ -> exists machine, find_entry conns machine u = Some a) /\
  (state at_ = State_Pending -> 1 <= attemptCount at_ <= outstanding conns l a).

Definition live (c : TransportSocketCache) : Prop :=
  (_dying c = true -> _connections c = []) /\
  forall a at_, attempts c !! a = Some at_ -> (exists machine u, find_entry (_connections c) machine u = Some a) ->
    attempt_live (_connections c) (connections c) a at_.

(** ** Changes of the state *)

Lemma outstanding_app conns l l' a : outstanding conns (l ++ l') a = outstanding conns l a + outstanding conns l' a.
Proof. unfold outstanding. rewrite List.filter_app, length_app. lia. Qed.

Lemma outstanding_ext conns conns' l a :
  (forall machine u, find_entry conns machine u = Some a <-> find_entry conns' machine u = Some a) ->
  outstanding conns l a = outstanding conns' l a.
Proof.
  intros H. unfold outstanding. do 2 f_equal. apply filter_ext. intros k. apply bool_decide_ext. apply H.
Qed.

Lemma outstanding_mono conns conns' l a :
  (forall machine u, find_entry conns machine u = Some a -> find_entry conns' machine u = Some a) ->
  outstanding conns l a <= outstanding conns' l a.
Proof.
  intros H. unfold outstanding. induction l as [|k l IH]; cbn; [done|].
  destruct (concerns conns a k) eqn:E; [|destruct (concerns conns' a k); cbn; lia].
  apply bool_decide_eq_true, H in E. unfold concerns at 2. rewrite bool_decide_eq_true_2 by done. cbn. lia.
Qed.

Lemma outstanding_delete conns l i k a : l !! i = Some k ->
  outstanding conns l a = outstanding conns (delete i l) a + (if concerns conns a k then 1 else 0).
Proof.
  intros H. rewrite <- (take_drop_middle l i k H) at 1. rewrite delete_take_drop, !outstanding_app.
  unfold outstanding at 2. cbn [List.filter]. destruct (concerns conns a k); cbn [length]; unfold outstanding; lia.
Qed.

Lemma release_live c : live c -> live (release c).
Proof. intros [Hd H]. split; [done|]. intros a at_ [Ha _]%release_attempt Hr. by apply H. Qed.

(** An attempt that is not in progress any more. *)
Lemma live_done conns l (ats : gmap nat ConnectionAttempt) a at' : (forall b bt, ats !! b = Some bt ->
    (exists machine u, find_entry conns machine u = Some b) -> b <> a -> attempt_live conns l b bt) ->
  (forall u, u ∈ relatedUris at' -> exists machine, find_entry conns machine u = Some a) ->
  (state at' = State_Pending -> 1 <= attemptCount at' <= outstanding conns l a) ->
  forall b bt, <[a := at']> ats !! b = Some bt -> (exists machine u, find_entry conns machine u = Some b) ->
    attempt_live conns l b bt.
Proof.
  intros H Hu Hs b bt. destruct (decide (b = a)) as [->|Hn].
  - rewrite lookup_insert_eq. intros [= <-] _. by split.
  - rewrite lookup_insert_ne by done. intros Hb Hr. by apply H.
Qed.

(** [checkClear] on an attempt: the others keep their entries. *)
Lemma live_clear conns l (ats : gmap nat ConnectionAttempt) a at' machine :
  (forall b bt, ats !! b = Some bt -> (exists machine u, find_entry conns machine u = Some b) -> b <> a -> attempt_live conns l b bt) ->
  (forall u, u ∈ relatedUris at' -> find_entry conns machine u = Some a) ->
  (forall machine' u, find_entry conns machine' u = Some a -> machine' = machine /\ u ∈ relatedUris at') ->
  forall b bt, <[a := at']> ats !! b = Some bt ->
    (exists machine' u, find_entry (clear_entries machine (relatedUris at') conns) machine' u = Some b) ->
    attempt_live (clear_entries machine (relatedUris at') conns) l b bt.
Proof.
  intros H Hu Ha b bt Hb (m & u & Hf). rewrite find_entry_clear in Hf. destruct (decide _) as [|Hd]; [done|].
  destruct (decide (b = a)) as [->|Hn]. { destruct Hd. by apply Ha. }
  rewrite lookup_insert_ne in Hb by done. destruct (H b bt Hb) as [Hr Hs]; [by eauto|done|].
  assert (forall machine' u', find_entry conns machine' u' = Some b ->
    find_entry (clear_entries machine (relatedUris at') conns) machine' u' = Some b) as Hkeep.
  { intros machine' u' Hf'. rewrite find_entry_clear. rewrite decide_False; [done|]. intros [-> Hin%Hu]. congruence. }
  split.
  - intros u' [machine' Hf']%Hr. exists machine'. by apply Hkeep.
  - intros Hp. destruct (Hs Hp) as [H1 H2]. split; [done|].
    pose proof (outstanding_mono conns (clear_entries machine (relatedUris at') conns) l b Hkeep). lia.
Qed.

(** A new attempt for entries that are new. *)
Lemma live_new conns conns' l l' (ats : gmap nat ConnectionAttempt) na at' :
  (forall b bt, ats !! b = Some bt -> (exists machine u, find_entry conns machine u = Some b) -> attempt_live conns l b bt) ->
  (forall machine u b, b <> na -> find_entry conns' machine u = Some b <-> find_entry conns machine u = Some b) ->
  ((exists machine u, find_entry conns' machine u = Some na) -> attempt_live conns' (l ++ l') na at') ->
  forall b bt, <[na := at']> ats !! b = Some bt -> (exists machine u, find_entry conns' machine u = Some b) ->
    attempt_live conns' (l ++ l') b bt.
Proof.
  intros H Hsame Hnew b bt. destruct (decide (b = na)) as [->|Hn].
  - rewrite lookup_insert_eq. by intros [= <-].
  - rewrite lookup_insert_ne by done. intros Hb (m & u & Hf). destruct (H b bt Hb) as [Hr Hs]; [exists m, u; by apply Hsame|].
    split.
    + intros u' [m' Hf']%Hr. exists m'. by apply Hsame.
    + intros Hp. rewrite outstanding_app. rewrite (outstanding_ext conns' conns l b) by (intros; by apply Hsame).
      unfold outstanding at 2. specialize (Hs Hp). lia.
Qed.

(** ** The operations *)

Lemma live_taken c i k b bt : live c -> connections c !! i = Some k -> attempts c !! b = Some bt ->
  (exists machine u, find_entry (_connections c) machine u = Some b) -> concerns (_connections c) b k = false ->
  attempt_live (_connections c) (delete i (connections c)) b bt.
Proof.
  intros [_ H] Hi Hb Hr Hk. destruct (H b bt Hb Hr) as [H1 H2]. split; [done|]. intros Hs. specialize (H2 Hs).
  rewrite (outstanding_delete _ _ i k b Hi), Hk in H2. lia.
Qed.

Lemma entry_known c machine u a at_ : weak_cache c -> find_entry (_connections c) machine u = Some a ->
  attempts c !! a = Some at_ -> u ∈ relatedUris at_.
Proof. intros Hw Hf Ha. destruct (weak_entry _ _ _ _ _ Hw _ _ _ Hf) as (at' & Ha' & Hu). by simplify_eq. Qed.

Lemma insert_live machine u s c : settled c -> live c -> wp (insert machine u s) (fun r c' => live c') c.
Proof.
  intros [Hw He] Hl. pose proof Hl as [Hd H]. unfold insert. wp_step. destruct (_dying c) eqn:Hdy; [by wp_step|].
  wp_step. cbn [_connections set_subscriptions]. destruct (find_entry _ _ _) as [a|] eqn:E.
  - destruct (weak_entry _ _ _ _ _ Hw _ _ _ E) as (at_ & Ha & _). wp_step.
    destruct (H a at_ Ha) as [Hu _]; [by eauto|].
    destruct (state at_) eqn:Hs; [| |by destruct (He _ _ _ _ E Ha)].
    + destruct (pending_ok _ _ _ _ _ a at_ Hw Ha Hs) as [-> Hp]. cbv beta. rewrite decide_True by done. do 6 wp_step.
      split; [cbn; congruence|]. cbn. rewrite !insert_insert_eq. by apply live_done; [intros; apply H|..].
    + destruct (connected_ok _ _ _ _ _ a at_ Hw Ha Hs) as (s' & -> & Hp). cbv beta. rewrite decide_False by done. do 6 wp_step.
      split; [cbn; congruence|]. cbn. rewrite !insert_insert_eq. by apply live_done; [intros; apply H|..].
  - do 4 wp_step. split; [cbn; congruence|]. cbn. rewrite <- (app_nil_r (connections c)). apply (live_new (_connections c)); [done| |].
    + intros m u' b Hb. rewrite find_entry_set. destruct (decide _) as [[-> ->]|_]; [|done]. rewrite E. naive_solver.
    + intros _. split; [|done]. intros u' Hu'. apply list_elem_of_singleton in Hu' as ->. exists machine. rewrite find_entry_set.
      by rewrite decide_True.
Qed.

Lemma result_live hasError i k c : settled c -> live c -> connections c !! i = Some k ->
  wp (onSocketParallelConnectionAttempt hasError (conn_socket k) (conn_uri k) (conn_info k)) (fun r c' => live c')
    (set_asked (delete i (connections c)) c).
Proof.
  intros [Hw He] Hl Hi. pose proof Hl as [Hd H]. pose proof (fun b bt => live_taken c i k b bt Hl Hi) as Ht.
  set (c0 := set_asked _ c). unfold onSocketParallelConnectionAttempt. wp_step. cbn [_connections _dying c0 set_asked].
  destruct (_dying c) eqn:Hdy.
  { assert (live c0) as H0.
    { split; [by intros _; apply Hd|]. intros b bt Hb (m & u & Hf). cbn in Hf. by rewrite Hd in Hf. }
    destruct hasError; [by wp_step|]. do 2 wp_step. exact H0. }
  destruct (find_entry _ _ _) as [a|] eqn:E.
  2: { do 2 wp_step. split; [cbn; congruence|]. intros b bt Hb Hr. apply Ht; [done..|].
       unfold concerns. rewrite E. by apply bool_decide_eq_false. }
  destruct (weak_entry _ _ _ _ _ Hw _ _ _ E) as (at_ & Ha & _). do 2 wp_step. cbn [state one_attempt_less].
  assert (forall b bt, attempts c !! b = Some bt -> (exists machine u, find_entry (_connections c) machine u = Some b) -> b <> a ->
    attempt_live (_connections c) (delete i (connections c)) b bt) as Hother.
  { intros b bt Hb Hr Hn. apply Ht; [done..|]. unfold concerns. rewrite E. apply bool_decide_eq_false. congruence. }
  destruct (H a at_ Ha) as [Hu Hc]; [by eauto|]. rewrite (outstanding_delete _ _ i k a Hi) in Hc.
  unfold concerns in Hc at 1. rewrite E, bool_decide_eq_true_2 in Hc by done.
  assert (forall machine u, find_entry (_connections c) machine u = Some a -> machine = machineId (conn_info k)) as Hm.
  { intros machine u' Hf. by apply (weak_machine _ _ _ _ _ Hw machine u' _ _ _ Hf E). }
  assert (forall u, u ∈ relatedUris at_ -> find_entry (_connections c) (machineId (conn_info k)) u = Some a) as Hall.
  { intros u [machine Hf]%Hu. by rewrite <- (Hm machine u Hf). }
  destruct (state at_) eqn:Hs; [| |by destruct (He _ _ _ _ E Ha)].
  - rewrite decide_True by done. specialize (Hc eq_refl). destruct hasError.
    + wp_step. destruct (attemptCount _ =? 0)%Z eqn:Ez.
      * destruct (pending_ok _ _ _ _ _ a at_ Hw Ha Hs) as [Hn Hp]. do 2 wp_step.
        unfold wp. rewrite (checkClear_eq _ _ _ (set_state State_Error (one_attempt_less at_))) by apply lookup_insert_eq.
        cbn [fst snd]. rewrite orb_true_r. split; [cbn; congruence|]. cbn. rewrite insert_insert_eq.
        apply (live_clear _ _ _ a (set_state State_Error (one_attempt_less at_))); [done|by apply Hall|].
        intros m u Hf. split; [by apply (Hm m u)|]. by apply (entry_known c m u a at_).
      * wp_step. split; [cbn; congruence|]. cbn. apply Z.eqb_neq in Ez. cbn in Ez. apply live_done; [done..|].
        cbn. intros _. lia.
    + destruct (pending_ok _ _ _ _ _ a at_ Hw Ha Hs) as [Hn Hp]. do 6 wp_step. split; [cbn; congruence|]. cbn.
      rewrite !insert_insert_eq. by apply live_done.
  - rewrite decide_False by done. do 2 wp_step.
    unfold wp. rewrite (checkClear_eq _ _ _ (one_attempt_less at_)) by apply lookup_insert_eq.
    cbn [fst snd state one_attempt_less]. rewrite Hs. cbn [negb bool_decide decide_rel]. rewrite andb_false_r.
    split; [cbn; congruence|]. cbn. apply live_done; [done..|]. cbn. congruence.
Qed.

Lemma update_infos_same s c : _connections (snd (updateDisconnectInfos s c)) = _connections c /\
  attempts (snd (updateDisconnectInfos s c)) = attempts c /\ connections (snd (updateDisconnectInfos s c)) = connections c /\
  _dying (snd (updateDisconnectInfos s c)) = _dying c.
Proof.
  unfold updateDisconnectInfos, mbind, M_bind. cbn [get]. destruct (list_find _ _) as [[i d]|]; [|done].
  cbn. unfold set_removed_promise. by destruct (decide _).
Qed.

Lemma disconnected_live u machine c : settled c -> live c -> wp (onSocketDisconnected u machine) (fun r c' => live c') c.
Proof.
  intros [Hw He] Hl. pose proof Hl as [Hd H]. unfold onSocketDisconnected. wp_step.
  destruct (find_entry _ _ _) as [a|] eqn:E; [|by wp_step].
  destruct (weak_entry _ _ _ _ _ Hw _ _ _ E) as (at_ & Ha & _). do 2 wp_step.
  apply wp_bind. unfold wp at 1. rewrite (checkClear_eq _ _ _ (set_state State_Error at_)) by apply lookup_insert_eq.
  cbn [fst snd]. rewrite orb_true_r. set (c1 := set_connections _ _). unfold wp.
  destruct (update_infos_same (endpoint at_) c1) as (E1 & E2 & E3 & E4).
  destruct (H a at_ Ha) as [Hu _]; [by eauto|].
  assert (forall m u, find_entry (_connections c) m u = Some a -> m = machine) as Hm.
  { intros m u' Hf. by apply (weak_machine _ _ _ _ _ Hw m u' _ _ _ Hf E). }
  split; [rewrite E1, E4; cbn; intros Hdy; by rewrite (Hd Hdy)|]. rewrite E1, E2, E3. cbn.
  apply (live_clear _ _ _ a (set_state State_Error at_)).
  - intros b bt Hb Hr _. by apply H.
  - intros u' [m Hf]%Hu. by rewrite <- (Hm m u' Hf).
  - intros m u' Hf. split; [by apply (Hm m u')|]. by apply (entry_known c m u' a at_).
Qed.

Section executions.
Context (is_loopback : bytes -> bool) (getMachineId : bytes).
Notation exec := (exec is_loopback getMachineId).
Notation run := (run is_loopback getMachineId).
Notation attempted := (attempted is_loopback getMachineId).

(** Every endpoint of the service is a candidate that is tried. *)
Definition all_tried (info : ServiceInfo uri_t) : bool :=
  hosts_known getMachineId info && bool_decide (attempted info = endpoints info).

Definition live_op (o : op) : bool := match o with Socket info => all_tried info | _ => true end.

Lemma candidates_length info : (length (connectionCandidates is_loopback getMachineId info) <= length (endpoints info))%nat.
Proof.
  unfold connectionCandidates. destruct (bool_decide _); [|done].
  destruct (localhost_only is_loopback (endpoints info)) as [|v l] eqn:E; [done|]. rewrite <- E. apply List.filter_length_le.
Qed.

Lemma outstanding_asked info a l c conns :
  (forall u, u ∈ l -> find_entry conns (machineId info) u = Some a) ->
  outstanding conns (imap (fun i u => mkConnection (nsockets c + i) (toUrl u) u info) l) a = Z.of_nat (length l).
Proof.
  intros H. unfold outstanding. rewrite (forallb_filter_id (concerns conns a)); [by rewrite length_imap|].
  apply forallb_forall. intros k (i & v & -> & Hv)%list_elem_of_In%elem_of_lookup_imap_1. cbn. apply bool_decide_eq_true, H.
  by eapply list_elem_of_lookup_2.
Qed.

Lemma socket_live info c : settled c -> live c -> all_tried info = true ->
  wp (socket is_loopback getMachineId info) (fun r c' => live c') c.
Proof.
  intros [Hw He] Hl [Hk Ht%bool_decide_eq_true]%andb_true_iff. pose proof Hl as [Hd H]. unfold wp.
  destruct (_dying c) eqn:Hdy.
  { unfold socket, mbind, M_bind. cbn [get]. by rewrite Hdy. }
  destruct (find_connection (endpoints info) (uris_of (_connections c) (machineId info))) as [a|] eqn:E.
  { destruct (find_connection_Some _ _ _ _ (weak_tables _ _ _ _ _ Hw) E) as (u & _ & Hf).
    destruct (weak_entry _ _ _ _ _ Hw _ _ _ Hf) as (at_ & Ha & _). unfold socket, mbind, M_bind, deref. cbn [get].
    by rewrite Hdy, E, Ha. }
  rewrite (socket_new is_loopback getMachineId info c Hdy Hk E), Ht. cbn [snd]. set (c1 := foldl _ _ _).
  destruct (asked_rest info (nattempts c) (endpoints info) (started is_loopback getMachineId info c)) as [Hat _].
  pose proof (asked_dying info (nattempts c) (endpoints info) (started is_loopback getMachineId info c)) as Hdy'.
  pose proof (fun m u => asked_entry info (nattempts c) (endpoints info) (started is_loopback getMachineId info c) m u) as Hent.
  pose proof (asked_connections info (nattempts c) (endpoints info) (started is_loopback getMachineId info c)) as Hcon.
  fold c1 in Hat, Hdy', Hent, Hcon. cbn in Hat, Hdy', Hcon. split; [congruence|]. rewrite Hat, Hcon.
  assert (forall m u, find_entry (_connections c1) m u =
    if decide (m = machineId info /\ u ∈ endpoints info) then Some (nattempts c) else find_entry (_connections c) m u) as Hent'.
  { intros m u. rewrite Hent. cbn. by rewrite find_entry_touch. }
  apply (live_new (_connections c)); [done| |].
  - intros m u b Hb. rewrite Hent'. destruct (decide _) as [[-> Hu]|_]; [|done].
    rewrite (find_connection_None _ _ _ _ E Hu). naive_solver.
  - intros (m & u & Hf). split.
    + intros u' Hu'. exists (machineId info). rewrite Hent'. by rewrite decide_True.
    + intros _. rewrite outstanding_app, (outstanding_asked info (nattempts c) (endpoints info) c).
      2: { intros u' Hu'. rewrite Hent'. by rewrite decide_True. }
      pose proof (candidates_length info) as Hlen. cbn [attemptCount new_couple].
      assert (connectionCandidates is_loopback getMachineId info <> []) as Hne.
      { intros Hn. rewrite Hent' in Hf. destruct (decide _) as [[_ Hu]|_].
        - rewrite <- Ht in Hu. unfold SocketCacheProperties.attempted in Hu. rewrite Hn in Hu. by apply elem_of_nil in Hu.
        - apply (weak_entry _ _ _ _ _ Hw) in Hf as (bt & Hb & _). apply (weak_attempt _ _ _ _ _ Hw) in Hb. lia. }
      destruct (connectionCandidates _ _ _) as [|v l]; [done|]. cbn [length] in *. unfold outstanding. lia.
Qed.

Lemma exec_live o c : cache_inv c -> live c -> live_op o = true -> live (snd (exec o c)).
Proof.
  intros [Hs _] Hl Ho. assert (wp (exec_op is_loopback getMachineId o) (fun r c' => live c') c) as H.
  - unfold exec_op. wp_step. destruct o as [info|machine u s|s|i hasError|i|i| |]; cbn [live_op] in Ho.
    + apply wp_bind. eapply wp_mono; [by apply socket_live|]. by intros [f| |] c'; [intros ?; wp_step|..].
    + wp_step. by apply insert_live.
    + apply wp_bind. unfold disconnect. by do 4 wp_step.
    + destruct (connections c !! i) as [k|] eqn:E; [|by wp_step]. wp_step. by apply result_live.
    + destruct (insertions c !! i) as [ins|] eqn:E; [|by wp_step]. wp_step. unfold insert_relative.
      destruct (uri _); [by apply insert_live|done].
    + destruct (subscriptions c !! i) as [s|] eqn:E; [|by wp_step]. by apply disconnected_live.
    + wp_step. split; [done|]. apply Hl.
    + eapply wp_mono; [by apply close_keeps|]. intros r c' (_ & Hc & _). split; [done|]. rewrite Hc. by intros a at_ _ (m & u & Hf).
  - unfold TransportSocketCache.exec. unfold wp in H. destruct (exec_op _ _ o c) as [r c']. by apply release_live.
Qed.

(** C17. When every endpoint of the services that were asked is tried, and every
    connection that was asked has given its result, no future that [socket] returned
    is left without a value. *)
Theorem cache_settles ops p : forallb live_op ops = true ->
  connections (run ops TransportSocketCache_new) = [] -> promises (run ops TransportSocketCache_new) !! p <> Some Unset.
Proof.
  intros Hops Hc Hp. set (c := run ops _) in *. pose proof (run_inv is_loopback getMachineId ops : cache_inv c) as [[Hw He] Hr].
  assert (live c) as [_ Hl].
  { clear Hc Hp Hw He Hr. subst c. revert Hops. induction ops as [|o ops IH] using rev_ind; [done|].
    rewrite forallb_app, run_snoc. intros [H1 H2]%andb_true_iff. apply exec_live; [apply run_inv|by apply IH|].
    by apply andb_true_iff in H2 as [H2 _]. }
  destruct (weak_unset _ _ _ _ _ Hw p Hp) as (a & at_ & Ha & Heq). destruct (Hl a at_ Ha (Hr a at_ Ha)) as [_ H].
  rewrite Hc in H. destruct (Hr a at_ Ha) as (m & u & Hf). destruct (state at_) eqn:Hs; [|..|by destruct (He _ _ _ _ Hf Ha)].
  - specialize (H eq_refl). unfold outstanding in H. cbn in H. lia.
  - destruct (connected_ok _ _ _ _ _ a at_ Hw Ha Hs) as (s & _ & Hv). rewrite Heq in Hv. congruence.
Qed.
End executions.

(** ** Executions *)

Definition sample_loopback (host : bytes) : bool := bool_decide (host = lit "127.0.0.1").
Definition sample_machine : bytes := lit "here".
Definition sample_uri (str : bytes) : uri_t := default (mkUri [] None [] None None) (uri str).
Definition sample_tcp1 : uri_t := sample_uri (lit "tcp://10.0.0.1:9559").
Definition sample_tcp2 : uri_t := sample_uri (lit "tcp://10.0.0.2:9559").
Definition sample_relative : uri_t := sample_uri (lit "qi:motion").
Definition sample_service (l : list uri_t) : ServiceInfo uri_t := mkServiceInfo (lit "motion") 3 (lit "robot") 1 l [] [].
Definition sample_exec (o : op) (c : TransportSocketCache) : outcome unit * TransportSocketCache :=
  exec sample_loopback sample_machine o c.
Definition sample_run (ops : list op) : TransportSocketCache :=
  run sample_loopback sample_machine ops TransportSocketCache_new.

(** A service with two endpoints, both reached: the second socket is rejected. *)
Definition sample_ops : list op :=
  [Socket (sample_service [sample_tcp1; sample_tcp2]); Result 0 true; Result 0 false; InsertRelative 0; Disconnect 1].

Lemma cache_no_throw_witness : fst (sample_exec (Disconnected 0) (sample_run sample_ops)) = Returned tt.
Proof. apply cache_no_throw; vm_compute; reflexivity. Defined.

Lemma socket_correct_witness :
  let c := sample_run sample_ops in let info := sample_service [sample_relative] in
  let c' := snd (sample_exec (Socket info) c) in
  exists p, fst (socket sample_loopback sample_machine info c) = Returned (Some p) /\
  ((exists u a at_, u ∈ endpoints info /\ find_entry (_connections c) (machineId info) u = Some a /\
      attempts c !! a = Some at_ /\ p = promise at_ /\
      (promises c !! p = Some Unset \/ exists s, promises c !! p = Some (SetValue s) /\ endpoint at_ = Some s) /\ c' = c) \/
   ((forall u, u ∈ endpoints info -> find_entry (_connections c) (machineId info) u = None) /\ p = npromises c /\
      connections c' = connections c ++
        imap (fun i u => mkConnection (nsockets c + i) (toUrl u) u info) (attempted sample_loopback sample_machine info) /\
      promises c' !! p = Some (if decide (attempted sample_loopback sample_machine info = []) then SetError else Unset))).
Proof. apply (socket_correct sample_loopback sample_machine sample_ops (sample_service [sample_relative])); vm_compute; reflexivity. Defined.

Lemma cache_settles_witness : promises (sample_run sample_ops) !! 0%nat <> Some Unset.
Proof. apply cache_settles; vm_compute; reflexivity. Defined.

(** The relative endpoint of a service of another machine is counted and never tried:
    when the other endpoints fail no result is to come, the future has no value, and
    every later call of [socket] returns the same future. *)
Example skipped_candidate_pends :
  let info := sample_service [sample_relative; sample_tcp1] in
  let c := sample_run [Socket info; Result 0 true] in
  connections c = [] /\ promises c !! 0%nat = Some Unset /\ snd (sample_exec (Socket info) c) = c /\
  fst (socket sample_loopback sample_machine info c) = Returned (Some 0%nat).
Proof. vm_compute. split_and!; reflexivity. Qed.

(** [checkClear] erases the entries of the URIs that an attempt knows, also the ones
    that another attempt made: the second service, whose connection is in progress,
    fails with the first. *)
Example other_attempt_cleared :
  let local := sample_uri (lit "tcp://127.0.0.1:1") in
  let first := mkServiceInfo (lit "first") 1 sample_machine 1 [local; sample_tcp1] [] [] in
  let second := mkServiceInfo (lit "second") 2 sample_machine 2 [sample_tcp1] [] [] in
  let c := sample_run [Socket first; Socket second; Result 0 true] in
  promises c !! 1%nat = Some SetError /\ length (connections c) = 1%nat /\ _connections c = [].
Proof. vm_compute. split_and!; reflexivity. Qed.

(** The late result of a connection that was asked for an attempt that is over counts
    for the next attempt: it fails while one of its connections is in progress. *)
Example late_result_counts :
  let info := sample_service [sample_tcp1; sample_tcp2] in
  let c := sample_run [Socket info; Result 0 false; Disconnected 0; Socket info; Result 0 true; Result 0 true] in
  promises c !! 1%nat = Some SetError /\ map conn_uri (connections c) = [sample_tcp2].
Proof. vm_compute. split_and!; reflexivity. Qed.

(** A socket that was connected stays in the list of the pending connections. *)
Example connected_still_pending :
  _allPendingConnections (sample_run [Socket (sample_service [sample_tcp1]); Result 0 false]) = [0%nat].
Proof. vm_compute. reflexivity. Qed.

(** [insert] asserts that an entry that exists has no socket; it has one when a service
    is registered again under its name with other endpoints. *)
Example insert_assertion_fails :
  assertion_failed (sample_run [Socket (sample_service [sample_tcp1]); Result 0 false; InsertRelative 0;
    Socket (sample_service [sample_tcp2]); Result 0 false; InsertRelative 0]) = true.
Proof. vm_compute. reflexivity. Qed.
