(* ===== verification/Future.v ===== *)
(** * Future: promises, futures and their combinators

    Model of [src/future.cpp], [qi/detail/future_fwd.hpp], [qi/detail/future.hxx] and
    [qi/detail/futurebarrier.hpp]. The states that promises and futures share are in
    a table, known by their rank; a thread is the list of what it has to do, and a
    step is one section under a mutex or one atomic operation of a thread. The
    functions of the client are known by their names: what a continuation returns is
    a parameter. States are not destroyed: one to which nothing refers stays in the
    table. The event loop is alive. *)
From S2P Require Import Prelude CString.
Open Scope Z_scope.

Inductive FutureState :=
  | FutureState_None
  | FutureState_Running
  | FutureState_Canceled
  | FutureState_FinishedWithError
  | FutureState_FinishedWithValue.

Inductive FutureCallbackType :=
  | FutureCallbackType_Sync
  | FutureCallbackType_Async
  | FutureCallbackType_Auto.

#[export] Instance FutureState_eq_dec : EqDecision FutureState.
Proof. solve_decision. Defined.
#[export] Instance FutureCallbackType_eq_dec : EqDecision FutureCallbackType.
Proof. solve_decision. Defined.

(** The values: those of clients, futures and vectors of futures. *)
Inductive value :=
  | VClient (v : Z)
  | VFuture (f : nat)
  | VFutures (l : list nat).

#[export] Instance value_eq_dec : EqDecision value.
Proof. solve_decision. Defined.

(** What is called when a future is finished: a function of the client, or what a
    combinator connects, with its promise. *)
Inductive callback :=
  | CbClient (k : nat)
  | CbThen (p k : nat)
  | CbAndThen (p k : nat)
  | CbForward (p : nat)
  | CbAdapt (p : nat)
  | CbBarrier (b : nat)
  | CbFirst (p f c : nat).

#[export] Instance callback_eq_dec : EqDecision callback.
Proof. solve_decision. Defined.

Inductive cancel_callback :=
  | CcClient (k : nat)
  | CcFuture (f : nat)
  | CcBarrier (b : nat).

(** ** The shared state, [FutureBaseTyped] *)

Record FutureBase := mkFuture {
  _state : FutureState;
  _error : bytes;
  _value : value;
  _cancelRequested : bool;
  _onResult : list (callback * FutureCallbackType);
  _onCancel : option cancel_callback;
  _async : FutureCallbackType;
  _promiseCount : Z;
}.

Definition FutureBase_new : FutureBase :=
  mkFuture FutureState_None [] (VClient 0) false [] None FutureCallbackType_Auto 0.

Definition isRunning (s : FutureBase) : bool := bool_decide (_state s = FutureState_Running).
Definition isCanceled (s : FutureBase) : bool := bool_decide (_state s = FutureState_Canceled).
Definition isFinished (s : FutureBase) : bool :=
  match _state s with
  | FutureState_FinishedWithValue | FutureState_FinishedWithError | FutureState_Canceled => true
  | _ => false
  end.

Definition set_state (st : FutureState) (s : FutureBase) : FutureBase :=
  mkFuture st (_error s) (_value s) (_cancelRequested s) (_onResult s) (_onCancel s) (_async s) (_promiseCount s).
Definition set_value (v : value) (s : FutureBase) : FutureBase :=
  mkFuture (_state s) (_error s) v (_cancelRequested s) (_onResult s) (_onCancel s) (_async s) (_promiseCount s).
Definition set_onResult (l : list (callback * FutureCallbackType)) (s : FutureBase) : FutureBase :=
  mkFuture (_state s) (_error s) (_value s) (_cancelRequested s) l (_onCancel s) (_async s) (_promiseCount s).
Definition set_onCancel (o : option cancel_callback) (s : FutureBase) : FutureBase :=
  mkFuture (_state s) (_error s) (_value s) (_cancelRequested s) (_onResult s) o (_async s) (_promiseCount s).
Definition set_async (t : FutureCallbackType) (s : FutureBase) : FutureBase :=
  mkFuture (_state s) (_error s) (_value s) (_cancelRequested s) (_onResult s) (_onCancel s) t (_promiseCount s).
Definition set_count (n : Z) (s : FutureBase) : FutureBase :=
  mkFuture (_state s) (_error s) (_value s) (_cancelRequested s) (_onResult s) (_onCancel s) (_async s) n.

Definition reportStart (s : FutureBase) : FutureBase :=
  match _state s with FutureState_None => set_state FutureState_Running s | _ => s end.
Definition reportValue (s : FutureBase) : FutureBase := set_state FutureState_FinishedWithValue s.
Definition reportCanceled (s : FutureBase) : FutureBase := set_state FutureState_Canceled s.
Definition reportError (message : bytes) (s : FutureBase) : FutureBase :=
  mkFuture FutureState_FinishedWithError message (_value s) (_cancelRequested s) (_onResult s) (_onCancel s) (_async s)
    (_promiseCount s).
Definition requestCancel (s : FutureBase) : FutureBase :=
  mkFuture (_state s) (_error s) (_value s) true (_onResult s) (_onCancel s) (_async s) (_promiseCount s).

(** ** The accessors, without waiting ([FutureTimeout_None]) *)

Inductive FutureException :=
  | ExceptionState_FutureTimeout
  | ExceptionState_FutureCanceled
  | ExceptionState_FutureHasNoError
  | ExceptionState_FutureUserError (str : bytes)
  | ExceptionState_PromiseAlreadySet
  | ExceptionState_FutureInvalid.

Definition stateToString (e : FutureException) : bytes :=
  match e with
  | ExceptionState_FutureTimeout => lit "Future timeout."
  | ExceptionState_FutureCanceled => lit "Future canceled."
  | ExceptionState_FutureHasNoError => lit "Future has no error."
  | ExceptionState_FutureUserError _ => []
  | ExceptionState_PromiseAlreadySet => lit "Future has already been set."
  | ExceptionState_FutureInvalid => lit "Future is invalid."
  end.

Definition hasError (s : FutureBase) : result FutureException bool :=
  if isRunning s then Err ExceptionState_FutureTimeout
  else Ok (bool_decide (_state s = FutureState_FinishedWithError)).

Definition hasValue (s : FutureBase) : result FutureException bool :=
  if isRunning s then Err ExceptionState_FutureTimeout
  else Ok (bool_decide (_state s = FutureState_FinishedWithValue)).

Definition error (s : FutureBase) : result FutureException bytes :=
  if isRunning s then Err ExceptionState_FutureTimeout
  else if bool_decide (_state s = FutureState_FinishedWithError) then Ok (_error s)
  else Err ExceptionState_FutureHasNoError.

Definition value_of (s : FutureBase) : result FutureException value :=
  match _state s with
  | FutureState_None => Err ExceptionState_FutureInvalid
  | FutureState_Running => Err ExceptionState_FutureTimeout
  | FutureState_Canceled => Err ExceptionState_FutureCanceled
  | FutureState_FinishedWithError => Err (ExceptionState_FutureUserError (_error s))
  | FutureState_FinishedWithValue => Ok (_value s)
  end.

(** ** The whole state *)

(** What a thread has to do, in order. *)
Inductive item :=
  | Call (cb : callback) (f : nat)      (* a callback, that is then destroyed *)
  | Post (cb : callback) (f : nat)      (* to the event loop *)
  | Cancel (f : nat)                    (* [FutureBaseTyped::cancel] *)
  | CallCancel (k f : nat)              (* the function of a client for the cancellation *)
  | BarrierSet (b : nat)                (* after the count of a barrier is zero *)
  | BarrierClosed (b : nat)             (* after a barrier is closed *)
  | FirstCount (p c : nat)              (* the end of [waitForFirstHelper] *)
  | Release (p : nat).                  (* the promise of a callback is destroyed *)

#[export] Instance item_eq_dec : EqDecision item.
Proof. solve_decision. Defined.

Record FutureBarrier := mkBarrier {
  _closed : bool;
  _set : bool;
  _count : Z;
  _futures : list nat;
  _promise : nat;
}.

Record futures := mkFutures {
  states : gmap nat FutureBase;
  nstates : nat;
  handles : gmap nat nat;               (* the promises of the client, per state *)
  barriers : gmap nat FutureBarrier;
  nbarriers : nat;
  counts : gmap nat Z;                  (* of [waitForFirst] *)
  ncounts : nat;
  threads : list (list item);
  todo : list item;                     (* of the current thread, by the current step *)
  called : list (nat * nat);            (* the calls of functions of the client *)
  canceled : list (nat * nat);
  connected : list (nat * nat);         (* the functions of the client that were connected *)
}.

Definition futures_new : futures := mkFutures ∅ 0 ∅ ∅ 0 ∅ 0 [] [] [] [] [].

(** An operation returns or throws. *)
Definition M (A : Type) : Type := futures -> result FutureException A * futures.

#[export] Instance M_ret : MRet M := fun A a c => (Ok a, c).
#[export] Instance M_bind : MBind M := fun A B f m c =>
  match m c with (Ok a, c') => f a c' | (Err e, c') => (Err e, c') end.

Definition throw {A} (e : FutureException) : M A := fun c => (Err e, c).

(** [try m catch (...) h]. *)
Definition catch (m h : M unit) : M unit := fun c =>
  match m c with (Ok a, c') => (Ok a, c') | (Err _, c') => h c' end.

Definition get_state (f : nat) : M FutureBase := fun c => (Ok (default FutureBase_new (states c !! f)), c).
(** A barrier lives as long as something refers to it. *)
Definition get_barrier (b : nat) : M FutureBarrier := fun c =>
  match barriers c !! b with Some s => (Ok s, c) | None => (Err ExceptionState_FutureInvalid, c) end.

Definition with_states (m : gmap nat FutureBase) (n : nat) (c : futures) : futures :=
  mkFutures m n (handles c) (barriers c) (nbarriers c) (counts c) (ncounts c) (threads c) (todo c) (called c) (canceled c)
    (connected c).
Definition with_handles (m : gmap nat nat) (c : futures) : futures :=
  mkFutures (states c) (nstates c) m (barriers c) (nbarriers c) (counts c) (ncounts c) (threads c) (todo c) (called c)
    (canceled c) (connected c).
Definition with_barriers (m : gmap nat FutureBarrier) (n : nat) (c : futures) : futures :=
  mkFutures (states c) (nstates c) (handles c) m n (counts c) (ncounts c) (threads c) (todo c) (called c) (canceled c)
    (connected c).
Definition with_counts (m : gmap nat Z) (n : nat) (c : futures) : futures :=
  mkFutures (states c) (nstates c) (handles c) (barriers c) (nbarriers c) m n (threads c) (todo c) (called c) (canceled c)
    (connected c).
Definition with_threads (l : list (list item)) (t : list item) (c : futures) : futures :=
  mkFutures (states c) (nstates c) (handles c) (barriers c) (nbarriers c) (counts c) (ncounts c) l t (called c) (canceled c)
    (connected c).
Definition with_logs (l k n : list (nat * nat)) (c : futures) : futures :=
  mkFutures (states c) (nstates c) (handles c) (barriers c) (nbarriers c) (counts c) (ncounts c) (threads c) (todo c) l k n.

Definition modify (g : futures -> futures) : M unit := fun c => (Ok tt, g c).
Definition put_state (f : nat) (s : FutureBase) : M unit :=
  modify (fun c => with_states (alter (fun _ => s) f (states c)) (nstates c) c).
Definition put_barrier (b : nat) (s : FutureBarrier) : M unit :=
  modify (fun c => with_barriers (alter (fun _ => s) b (barriers c)) (nbarriers c) c).
Definition push (l : list item) : M unit := modify (fun c => with_threads (threads c) (todo c ++ l) c).

Definition new_state (s : FutureBase) : M nat := fun c =>
  (Ok (nstates c), with_states (<[nstates c := s]> (states c)) (S (nstates c)) c).

(** ** The shared state, continued *)

(** Whether a callback is posted to the event loop. *)
Definition is_async (callType defaultAsync : FutureCallbackType) : bool :=
  match callType with
  | FutureCallbackType_Sync => false
  | FutureCallbackType_Async => true
  | FutureCallbackType_Auto => negb (bool_decide (defaultAsync = FutureCallbackType_Sync))
  end.

Definition executeCallbacks (defaultAsync : FutureCallbackType) (callbacks : list (callback * FutureCallbackType)) (f : nat) : M unit :=
  push (map (fun '(cb, t) => if is_async t defaultAsync then Post cb f else Call cb f) callbacks).

Definition finish (f : nat) (finishTask : FutureBase -> FutureBase) : M unit :=
  s ← get_state f ;
  if isRunning s then
    put_state f (set_onCancel None (set_onResult [] (finishTask s))) ;;
    executeCallbacks (_async s) (_onResult s) f
  else throw ExceptionState_PromiseAlreadySet.

Definition setValue (f : nat) (v : value) : M unit := finish f (fun s => reportValue (set_value v s)).
Definition trigger (f : nat) : M unit := finish f reportValue.
Definition setError (f : nat) (message : bytes) : M unit := finish f (reportError message).
Definition setBroken (f : nat) : M unit := finish f (reportError (lit "Promise broken (all promises are destroyed)")).
Definition setCanceled (f : nat) : M unit := finish f reportCanceled.

Definition setOnCancel (f : nat) (onCancel : cancel_callback) : M unit :=
  s ← get_state f ;
  put_state f (set_onCancel (Some onCancel) s) ;;
  if _cancelRequested s then push [Cancel f] else mret tt.

Definition connect (f : nat) (cb : callback) (type : FutureCallbackType) : M unit :=
  s ← get_state f ;
  if bool_decide (_state s = FutureState_None) then throw ExceptionState_FutureInvalid
  else if isFinished s then push [if is_async type (_async s) then Post cb f else Call cb f]
  else put_state f (set_onResult (_onResult s ++ [(cb, type)]) s).

(** ** Promises *)

(** A promise that is copied, and one that is destroyed. That the state of the last
    one is also referred to by something else is [shared]. *)
Definition copy_promise (p : nat) : M unit :=
  s ← get_state p ; put_state p (set_count (_promiseCount s + 1) s).

Definition decRefcnt (shared : bool) (p : nat) : M unit :=
  s ← get_state p ;
  let s := set_count (_promiseCount s - 1) s in
  put_state p s ;;
  if (_promiseCount s =? 0) && shared && isRunning s then setBroken p else mret tt.

(** A promise that is in scope when [m] throws. *)
Definition unwinding {A} (p : nat) (m : M A) : M A := fun c =>
  match m c with (Ok a, c') => (Ok a, c') | (Err e, c') => (Err e, snd (decRefcnt true p c')) end.

Definition Promise_new (async : FutureCallbackType) : M nat :=
  p ← new_state (reportStart FutureBase_new) ;
  s ← get_state p ;
  put_state p (set_count (_promiseCount s + 1) (set_async async s)) ;;
  mret p.

Definition setup (p : nat) (cancelCallback : cancel_callback) (async : FutureCallbackType) : M unit :=
  s ← get_state p ;
  put_state p (reportStart s) ;;
  setOnCancel p cancelCallback ;;
  s ← get_state p ;
  put_state p (set_async async s).

Definition Promise_new_cancel (cancelCallback : cancel_callback) (async : FutureCallbackType) : M nat :=
  p ← new_state FutureBase_new ;
  setup p cancelCallback async ;;
  copy_promise p ;;
  mret p.

(** [Future(v)] and [makeFutureError]: the promise is destroyed, its state is set. *)
Definition make_future (v : value) (async : FutureCallbackType) : M nat :=
  p ← Promise_new async ; setValue p v ;; decRefcnt true p ;; mret p.

Definition makeFutureError (message : bytes) : M nat :=
  p ← Promise_new FutureCallbackType_Auto ; setError p message ;; decRefcnt true p ;; mret p.

(** ** The combinators *)

Definition thenRImpl (callbackType : FutureCallbackType) (isAsync : bool) (f k : nat) : M nat :=
  p ← Promise_new_cancel (CcFuture f) FutureCallbackType_Auto ;
  let callbackType := if bool_decide (callbackType = FutureCallbackType_Auto) && isAsync then FutureCallbackType_Sync else callbackType in
  unwinding p (connect f (CbThen p k) callbackType) ;;
  mret p.

Definition andThenRImpl (callbackType : FutureCallbackType) (isAsync : bool) (f k : nat) : M nat :=
  p ← Promise_new_cancel (CcFuture f) FutureCallbackType_Auto ;
  let callbackType := if bool_decide (callbackType = FutureCallbackType_Auto) && isAsync then FutureCallbackType_Sync else callbackType in
  unwinding p (connect f (CbAndThen p k) callbackType) ;;
  mret p.

Definition unwrap (f : nat) : M nat :=
  p ← Promise_new_cancel (CcFuture f) FutureCallbackType_Auto ;
  unwinding p (connect f (CbForward p) FutureCallbackType_Sync) ;;
  mret p.

Definition adaptFuture (f p : nat) (forwardCancel : bool) : M unit :=
  (if forwardCancel then setup p (CcFuture f) FutureCallbackType_Auto else mret tt) ;;
  copy_promise p ;;
  unwinding p (connect f (CbAdapt p) FutureCallbackType_Auto).

Definition FutureBarrier_make (async : FutureCallbackType) : M nat :=
  p ← Promise_new async ;
  b ← (fun c => (Ok (nbarriers c),
        with_barriers (<[nbarriers c := mkBarrier false false 0 [] p]> (barriers c)) (S (nbarriers c)) c)) ;
  setOnCancel p (CcBarrier b) ;;
  mret b.

(** A barrier is closed already: [addFuture] throws a [runtime_error]. *)
Definition addFuture (b f : nat) : M unit :=
  s ← get_barrier b ;
  if _closed s then throw (ExceptionState_FutureUserError (lit "Adding future to closed barrier"))
  else
    put_barrier b (mkBarrier (_closed s) (_set s) (_count s + 1) (_futures s) (_promise s)) ;;
    connect f (CbBarrier b) FutureCallbackType_Auto ;;
    s ← get_barrier b ;
    put_barrier b (mkBarrier (_closed s) (_set s) (_count s) (_futures s ++ [f]) (_promise s)).

Definition close (b : nat) : M unit :=
  s ← get_barrier b ;
  put_barrier b (mkBarrier true (_set s) (_count s) (_futures s) (_promise s)) ;;
  push [BarrierClosed b].

Definition barrier_future (b : nat) : M nat :=
  close b ;; s ← get_barrier b ; mret (_promise s).

(** [_set.swap(true)] and what follows. *)
Definition barrier_set (b : nat) : M unit :=
  s ← get_barrier b ;
  put_barrier b (mkBarrier (_closed s) true (_count s) (_futures s) (_promise s)) ;;
  if _set s then mret tt else setValue (_promise s) (VFutures (_futures s)).

Fixpoint for_each {A} (g : A -> M unit) (l : list A) : M unit :=
  match l with
  | [] => mret tt
  | x :: l' => g x ;; for_each g l'
  end.

Definition waitForAll (vect : list nat) : M nat :=
  b ← FutureBarrier_make FutureCallbackType_Async ;
  for_each (addFuture b) vect ;;
  barrier_future b.

Definition waitForFirst (vect : list nat) : M nat :=
  prom ← Promise_new FutureCallbackType_Auto ;
  count ← (fun c => (Ok (ncounts c), with_counts (<[ncounts c := Z.of_nat (length vect)]> (counts c)) (S (ncounts c)) c)) ;
  unwinding prom (for_each (fun f => copy_promise prom ;;
    unwinding prom (connect f (CbFirst prom f count) FutureCallbackType_Auto)) vect) ;;
  decRefcnt true prom ;;
  mret prom.

(** ** The calls of a thread *)

Inductive call_result := Value (v : value) | Exception (what : bytes) | UnknownException.

Section calls.
(** What a continuation of the client returns, for the result of the future. *)
Context (continue : nat -> result FutureException value -> call_result).
(** [FutureValueConverter]. *)
Context (convert : value -> call_result).

Definition setPromiseFromCallWithExceptionSupport (p : nat) (r : call_result) : M unit :=
  match r with
  | Value v => catch (setValue p v) (setError p (stateToString ExceptionState_PromiseAlreadySet))
  | Exception what => setError p what
  | UnknownException => setError p (lit "unknown exception")
  end.

(** [futureAdapter]; the converter writes in the value of the promise. *)
Definition futureAdapter (s : FutureBase) (p : nat) : M unit :=
  match _state s with
  | FutureState_FinishedWithError => setError p (_error s)
  | FutureState_Canceled => setCanceled p
  | _ =>
      match convert (_value s) with
      | Value v => t ← get_state p ; put_state p (set_value v t) ;; trigger p
      | Exception what => setError p (lit "futureAdapter conversion error: " ++ what)
      | UnknownException => throw (ExceptionState_FutureUserError [])
      end
  end.

(** What a callback does with the finished future [f]. *)
Definition run_callback (cb : callback) (f : nat) : M unit :=
  s ← get_state f ;
  match cb with
  | CbClient k => modify (fun c => with_logs (called c ++ [(k, f)]) (canceled c) (connected c) c)
  | CbThen p k => setPromiseFromCallWithExceptionSupport p (continue k (value_of s))
  | CbAndThen p k =>
      match _state s with
      | FutureState_Canceled => setCanceled p
      | FutureState_FinishedWithError => setError p (_error s)
      | _ =>
          t ← get_state p ;
          if _cancelRequested t then setCanceled p
          else setPromiseFromCallWithExceptionSupport p (continue k (Ok (_value s)))
      end
  | CbForward p =>
      match _state s with
      | FutureState_Canceled => setCanceled p
      | FutureState_FinishedWithError => setError p (_error s)
      | _ => match _value s with VFuture g => adaptFuture g p true | _ => mret tt end
      end
  | CbAdapt p => futureAdapter s p
  | CbBarrier b =>
      t ← get_barrier b ;
      put_barrier b (mkBarrier (_closed t) (_set t) (_count t - 1) (_futures t) (_promise t)) ;;
      if _count t - 1 =? 0 then push [BarrierSet b] else mret tt
  | CbFirst p g c =>
      t ← get_state p ;
      (if negb (isFinished t) && negb (bool_decide (_state s = FutureState_FinishedWithError))
       then catch (setValue p (VFuture g)) (mret tt) else mret tt) ;;
      push [FirstCount p c]
  end.

(** The promise of a callback, which is destroyed with it. *)
Definition promise_of (cb : callback) : option nat :=
  match cb with
  | CbThen p _ | CbAndThen p _ | CbForward p | CbAdapt p | CbFirst p _ _ => Some p
  | CbClient _ | CbBarrier _ => None
  end.

Definition run_item (shared : bool) (i : item) : M unit :=
  match i with
  | Call cb f =>
      catch (run_callback cb f) (mret tt) ;;
      match promise_of cb with Some p => push [Release p] | None => mret tt end
  | Post cb f => modify (fun c => with_threads (threads c ++ [[Call cb f]]) (todo c) c)
  | Cancel f =>
      s ← get_state f ;
      if isFinished s then mret tt
      else
        put_state f (set_onCancel None (requestCancel s)) ;;
        match _onCancel s with
        | None => mret tt
        | Some (CcClient k) => push [CallCancel k f]
        | Some (CcFuture g) => push [Cancel g]
        | Some (CcBarrier b) => t ← get_barrier b ; push (map Cancel (_futures t))
        end
  | CallCancel k f => modify (fun c => with_logs (called c) (canceled c ++ [(k, f)]) (connected c) c)
  | BarrierSet b => s ← get_barrier b ; if _closed s then barrier_set b else mret tt
  | BarrierClosed b => s ← get_barrier b ; if _count s =? 0 then barrier_set b else mret tt
  | FirstCount p c =>
      (fun st => (Ok tt, with_counts (<[c := default 0 (counts st !! c) - 1]> (counts st)) (ncounts st) st)) ;;
      n ← (fun st => (Ok (default 0 (counts st !! c)), st)) ;
      t ← get_state p ;
      if (n =? 0) && negb (isFinished t) then
        e ← makeFutureError (lit "No future returned successfully.") ;
        catch (setValue p (VFuture e)) (mret tt)
      else mret tt
  | Release p => decRefcnt shared p
  end.

(** ** Executions *)

(** What clients do, with the promises and the futures that they were given. *)
Inductive op :=
  | NewFuture
  | MakeFuture (v : value) (async : FutureCallbackType)
  | MakeFutureError (message : bytes)
  | NewPromise (async : FutureCallbackType)
  | NewPromiseCancel (k : nat) (async : FutureCallbackType)
  | CopyPromise (p : nat)
  | DestroyPromise (p : nat) (shared : bool)
  | SetValue (p : nat) (v : value)
  | WriteValue (p : nat) (v : value)      (* [p.value() = v] *)
  | Trigger (p : nat)
  | SetError (p : nat) (message : bytes)
  | SetCanceled (p : nat)
  | SetOnCancel (p k : nat)
  | CancelFuture (f : nat)
  | Connect (f k : nat) (type : FutureCallbackType)
  | Then (f k : nat) (type : FutureCallbackType) (isAsync : bool)
  | AndThen (f k : nat) (type : FutureCallbackType) (isAsync : bool)
  | Unwrap (f : nat)
  | Adapt (f p : nat) (forwardCancel : bool)
  | NewBarrier (async : FutureCallbackType)
  | AddFuture (b f : nat)
  | CloseBarrier (b : nat)
  | WaitForAll (vect : list nat)
  | WaitForFirst (vect : list nat)
  | Run (i : nat) (shared : bool).        (* a step of a thread *)

Definition owns (p : nat) (c : futures) : bool := (0 <? default 0%nat (handles c !! p))%nat.
Definition exists_future (f : nat) (c : futures) : bool := (f <? nstates c)%nat.

Definition own (p : nat) (n : nat) : M unit := modify (fun c => with_handles (<[p := n]> (handles c)) c).
Definition handles_of (p : nat) : M nat := fun c => (Ok (default 0%nat (handles c !! p)), c).

(** Whether a client can do it. *)
Definition possible (o : op) (c : futures) : bool :=
  match o with
  | NewFuture | MakeFuture _ _ | MakeFutureError _ | NewPromise _ | NewPromiseCancel _ _ | NewBarrier _ | Run _ _ => true
  | CopyPromise p | DestroyPromise p _ | SetValue p _ | WriteValue p _ | Trigger p | SetError p _ | SetCanceled p
  | SetOnCancel p _ => owns p c
  | CancelFuture f | Connect f _ _ | Then f _ _ _ | AndThen f _ _ _ | Unwrap f => exists_future f c
  | Adapt f p _ => exists_future f c && owns p c
  | AddFuture b f => (b <? nbarriers c)%nat && exists_future f c
  | CloseBarrier b => (b <? nbarriers c)%nat
  | WaitForAll l | WaitForFirst l => forallb (fun f => exists_future f c) l
  end.

(** The future or the promise that an operation gives. *)
Definition exec_op (o : op) : M (option nat) :=
  match o with
  | NewFuture => f ← new_state FutureBase_new ; mret (Some f)
  | MakeFuture v async => f ← make_future v async ; mret (Some f)
  | MakeFutureError message => f ← makeFutureError message ; mret (Some f)
  | NewPromise async => p ← Promise_new async ; own p 1 ;; mret (Some p)
  | NewPromiseCancel k async => p ← Promise_new_cancel (CcClient k) async ; own p 1 ;; mret (Some p)
  | CopyPromise p => n ← handles_of p ; own p (S n) ;; copy_promise p ;; mret None
  | DestroyPromise p shared => n ← handles_of p ; own p (pred n) ;; decRefcnt shared p ;; mret None
  | SetValue p v => setValue p v ;; mret None
  | WriteValue p v => s ← get_state p ; put_state p (set_value v s) ;; mret None
  | Trigger p => trigger p ;; mret None
  | SetError p message => setError p message ;; mret None
  | SetCanceled p => setCanceled p ;; mret None
  | SetOnCancel p k => setOnCancel p (CcClient k) ;; mret None
  | CancelFuture f => push [Cancel f] ;; mret None
  | Connect f k type =>
      connect f (CbClient k) type ;;
      modify (fun c => with_logs (called c) (canceled c) (connected c ++ [(k, f)]) c) ;; mret None
  | Then f k type isAsync => p ← thenRImpl type isAsync f k ; mret (Some p)
  | AndThen f k type isAsync => p ← andThenRImpl type isAsync f k ; mret (Some p)
  | Unwrap f => p ← unwrap f ; mret (Some p)
  | Adapt f p forwardCancel => adaptFuture f p forwardCancel ;; mret None
  | NewBarrier async => b ← FutureBarrier_make async ; mret (Some b)
  | AddFuture b f => addFuture b f ;; mret None
  | CloseBarrier b => p ← barrier_future b ; mret (Some p)
  | WaitForAll l => p ← waitForAll l ; mret (Some p)
  | WaitForFirst l => p ← waitForFirst l ; mret (Some p)
  | Run _ _ => mret None
  end.

(** The thread of an operation has what it pushed to do; a step of a thread replaces
    its first item. *)
Definition start_thread (c : futures) : futures :=
  match todo c with [] => c | l => with_threads (threads c ++ [l]) [] c end.

Definition exec (o : op) (c : futures) : result FutureException (option nat) * futures :=
  if possible o c then
    match o with
    | Run i shared =>
        match threads c !! i with
        | Some (it :: rest) =>
            let '(r, c') := run_item shared it (with_threads (<[i := rest]> (threads c)) [] c) in
            (Ok None, with_threads (alter (fun rest => todo c' ++ rest) i (threads c')) [] c')
        | _ => (Ok None, c)
        end
    | _ => let '(r, c') := exec_op o c in (r, start_thread c')
    end
  else (Ok None, c).

Definition run (ops : list op) (c : futures) : futures := foldl (fun c o => snd (exec o c)) c ops.
End calls.
