(* ===== verification/FutureEffects.v ===== *)
(** * FutureEffects: the operations on futures as sequences of effects

    Every operation of [Future] is a sequence of primitive effects on the whole
    state. An invariant is proved for each effect once, and holds after every
    operation whose effects it allows. *)
From S2P Require Import Prelude CString Future.
Open Scope Z_scope.

(** ** Definitions *)

(** How a future is finished. *)
Inductive ending := EndValue (v : value) | EndTrigger | EndError (message : bytes) | EndCanceled.

Definition end_state (e : ending) (s : FutureBase) : FutureBase :=
  match e with
  | EndValue v => reportValue (set_value v s)
  | EndTrigger => reportValue s
  | EndError message => reportError message s
  | EndCanceled => reportCanceled s
  end.

Inductive effect :=
  | ERequestCancel (f : nat)
  | EOnCancel (f : nat) (oc : cancel_callback)
  | EAsync (f : nat) (t : FutureCallbackType)
  | ECount (f : nat) (d : Z)
  | EStart (f : nat)
  | EWrite (f : nat) (v : value)
  | EFinish (f : nat) (e : ending)
  | EConnect (f : nat) (cb : callback) (t : FutureCallbackType)
  | ENew (started : bool)
  | EPush (i : item)
  | ESpawn (cb : callback) (f : nat)
  | EBarrier (b : nat) (closed set : bool) (count : Z) (l : list nat)
  | ENewBarrier (p : nat)
  | ECounts (m : gmap nat Z) (n : nat)
  | ECalled (k f : nat)
  | ECanceled (k f : nat)
  | EConnected (k f : nat)
  | EHandles (p n : nat).

Definition state_of (c : futures) (f : nat) : FutureBase := default FutureBase_new (states c !! f).

Definition apply_effect (c : futures) (e : effect) : futures :=
  match e with
  | ERequestCancel f => snd (put_state f (set_onCancel None (requestCancel (state_of c f))) c)
  | EOnCancel f oc => snd (put_state f (set_onCancel (Some oc) (state_of c f)) c)
  | EAsync f t => snd (put_state f (set_async t (state_of c f)) c)
  | ECount f d => snd (put_state f (set_count (_promiseCount (state_of c f) + d) (state_of c f)) c)
  | EStart f => snd (put_state f (reportStart (state_of c f)) c)
  | EWrite f v => snd (put_state f (set_value v (state_of c f)) c)
  | EFinish f e => snd (finish f (end_state e) c)
  | EConnect f cb t => snd (connect f cb t c)
  | ENew started => snd (new_state (if started then reportStart FutureBase_new else FutureBase_new) c)
  | EPush i => snd (push [i] c)
  | ESpawn cb f => with_threads (threads c ++ [[Call cb f]]) (todo c) c
  | EBarrier b closed set count l =>
      with_barriers (alter (fun s => mkBarrier closed set count l (_promise s)) b (barriers c)) (nbarriers c) c
  | ENewBarrier p => with_barriers (<[nbarriers c := mkBarrier false false 0 [] p]> (barriers c)) (S (nbarriers c)) c
  | ECounts m n => with_counts m n c
  | ECalled k f => with_logs (called c ++ [(k, f)]) (canceled c) (connected c) c
  | ECanceled k f => with_logs (called c) (canceled c ++ [(k, f)]) (connected c) c
  | EConnected k f => with_logs (called c) (canceled c) (connected c ++ [(k, f)]) c
  | EHandles p n => with_handles (<[p := n]> (handles c)) c
  end.

Definition apply_effects (l : list effect) (c : futures) : futures := foldl apply_effect c l.

(** An operation whose effects satisfy [P], which may depend on the state before it. *)
Definition acts {A} (P : effect -> Prop) (m : M A) (c : futures) : Prop :=
  exists l, Forall P l /\ snd (m c) = apply_effects l c.

(** ** Rules *)

Section rules.
Context (P : effect -> Prop).

Lemma acts_ret {A} (a : A) c : acts P (mret a) c.
Proof. by exists []. Qed.

Lemma acts_throw {A} e c : acts (A := A) P (throw e) c.
Proof. by exists []. Qed.

Lemma acts_bind {A B} (m : M A) (f : A -> M B) c : acts P m c -> (forall a c', m c = (Ok a, c') -> acts P (f a) c') -> acts P (m ≫= f) c.
Proof.
  intros (l & Hl & E) Hf. unfold acts, mbind, M_bind. destruct (m c) as [[a|e] c'] eqn:Em; [|by exists l].
  destruct (Hf a c' eq_refl) as (l' & Hl' & E'). exists (l ++ l'). split; [by apply Forall_app|].
  unfold apply_effects in *. cbn in E. by rewrite foldl_app, <- E.
Qed.

Lemma acts_get {B} g (f : FutureBase -> M B) c : acts P (f (state_of c g)) c -> acts P (get_state g ≫= f) c.
Proof. done. Qed.

Lemma acts_get_barrier {B} b (f : FutureBarrier -> M B) c :
  (forall s, barriers c !! b = Some s -> acts P (f s) c) -> acts P (get_barrier b ≫= f) c.
Proof.
  intros H. unfold acts, mbind, M_bind, get_barrier. destruct (barriers c !! b) as [s|] eqn:E; [by apply H|by exists []].
Qed.

Lemma acts_put_barrier b s closed set count l c : barriers c !! b = Some s -> P (EBarrier b closed set count l) ->
  acts P (put_barrier b (mkBarrier closed set count l (_promise s))) c.
Proof.
  intros Hb H. exists [EBarrier b closed set count l]. split; [by repeat constructor|]. unfold apply_effects. cbn. f_equal.
  apply map_eq. intros b'. destruct (decide (b' = b)) as [->|]; [by rewrite !lookup_alter_eq, Hb|by rewrite !lookup_alter_ne].
Qed.

Lemma acts_catch (m h : M unit) c : acts P m c -> (forall c', acts P h c') -> acts P (catch m h) c.
Proof.
  intros (l & Hl & E) Hh. unfold acts, catch. destruct (m c) as [[a|e] c'] eqn:Em; [by exists l|].
  destruct (Hh c') as (l' & Hl' & E'). exists (l ++ l'). split; [by apply Forall_app|].
  unfold apply_effects in *. cbn in E. by rewrite foldl_app, <- E.
Qed.

Lemma acts_one {A} (m : M A) c e : P e -> snd (m c) = apply_effect c e -> acts P m c.
Proof. intros He H. exists [e]. split; [by repeat constructor|done]. Qed.

Lemma acts_push l c : Forall (fun i => P (EPush i)) l -> acts P (push l) c.
Proof.
  intros H. exists (map EPush l). split; [by apply Forall_map|]. unfold push, modify, apply_effects. cbn [snd].
  revert c. induction l as [|i l IH]; intros c; cbn [map foldl]; [rewrite app_nil_r; by destruct c|].
  apply Forall_cons in H as [_ H]. rewrite <- IH by done. cbn. by rewrite <- app_assoc.
Qed.

Lemma acts_finish f h e c : P (EFinish f e) -> h = end_state e -> acts P (finish f h) c.
Proof. intros H ->. by apply (acts_one _ _ (EFinish f e)). Qed.

Lemma acts_connect f cb t c : P (EConnect f cb t) -> acts P (connect f cb t) c.
Proof. intros H. by apply (acts_one _ _ (EConnect f cb t)). Qed.

Lemma decRefcnt_acts shared p c : (forall n, P (ECount p n)) -> (forall e, P (EFinish p e)) -> acts P (decRefcnt shared p) c.
Proof.
  intros H1 H2. unfold decRefcnt. apply acts_get. apply acts_bind.
  - by apply (acts_one _ _ (ECount p (-1))).
  - intros _ c' _. destruct (_ && _); [by eapply (acts_finish _ _ (EndError _))|apply acts_ret].
Qed.

Lemma acts_unwinding {A} p (m : M A) c : acts P m c -> (forall n, P (ECount p n)) -> (forall e, P (EFinish p e)) -> acts P (unwinding p m) c.
Proof.
  intros (l & Hl & E) H1 H2. unfold acts, unwinding. destruct (m c) as [[a|e] c'] eqn:Em; [by exists l|].
  destruct (decRefcnt_acts true p c' H1 H2) as (l' & Hl' & E'). exists (l ++ l'). split; [by apply Forall_app|].
  cbn [snd] in *. unfold apply_effects in *. by rewrite foldl_app, <- E.
Qed.

Lemma acts_mono {A} (Q : effect -> Prop) (m : M A) c : acts Q m c -> (forall e, Q e -> P e) -> acts P m c.
Proof. intros (l & Hl & E) H. exists l. split; [by eapply Forall_impl|done]. Qed.
End rules.

(** An invariant that the effects keep holds after the operation. *)
Lemma acts_inv {A} (I : futures -> Prop) (P : effect -> Prop) (m : M A) c : acts P m c -> I c ->
  (forall c e, I c -> P e -> I (apply_effect c e)) -> I (snd (m c)).
Proof.
  intros (l & Hl & ->) Hc H. unfold apply_effects. revert c Hc. induction l as [|e l IH]; intros c Hc; cbn; [done|].
  apply Forall_cons in Hl as [He Hl]. apply IH; [done|]. by apply H.
Qed.

(** ** The effects of each operation *)

Ltac simpl_states := repeat (rewrite alter_insert_eq || rewrite lookup_insert_eq); cbn.

Section effects.
Context (continue : nat -> result FutureException value -> call_result) (convert : value -> call_result).

(** The promises that an item may finish. *)
Definition item_promise (c : futures) (i : item) (p : nat) : Prop :=
  match i with
  | Call cb _ => promise_of cb = Some p
  | BarrierSet b | BarrierClosed b => exists s, barriers c !! b = Some s /\ p = _promise s
  | FirstCount q _ | Release q => p = q
  | _ => False
  end.

Definition item_effect (c : futures) (i : item) (e : effect) : Prop :=
  match e with
  | ERequestCancel _ | EOnCancel _ _ | EAsync _ _ | ECount _ _ | EStart _ | ENew _ | ECounts _ _ | ECanceled _ _ => True
  | EWrite p _ => exists f, i = Call (CbAdapt p) f
  | EFinish p _ => item_promise c i p \/ (nstates c <= p)%nat
  | EConnect g cb _ => exists p f, i = Call (CbForward p) f /\ cb = CbAdapt p
  | EPush (Call _ _) | EPush (Post _ _) => False
  | EPush (FirstCount p n) => exists g f, i = Call (CbFirst p g n) f
  | EPush (Release p) => exists cb f, i = Call cb f /\ promise_of cb = Some p
  | EPush (BarrierSet b) => exists f, i = Call (CbBarrier b) f
  | EPush (BarrierClosed _) => False
  | EPush _ => True
  | ESpawn cb f => i = Post cb f
  | EBarrier b _ _ _ _ => (exists f, i = Call (CbBarrier b) f) \/ i = BarrierSet b \/ i = BarrierClosed b
  | ECalled k f => i = Call (CbClient k) f
  | ENewBarrier _ | EConnected _ _ | EHandles _ _ => False
  end.

Lemma setPromise_acts P p r c : (forall e, P (EFinish p e)) -> acts P (setPromiseFromCallWithExceptionSupport p r) c.
Proof.
  intros H. unfold setPromiseFromCallWithExceptionSupport. destruct r as [v|what|].
  - apply acts_catch; [by eapply (acts_finish _ _ _ (EndValue v))|]. intros c'. by eapply (acts_finish _ _ _ (EndError _)).
  - by eapply (acts_finish _ _ _ (EndError what)).
  - by eapply (acts_finish _ _ _ (EndError _)).
Qed.

Lemma copy_acts (P : effect -> Prop) p c : (forall n, P (ECount p n)) -> acts P (copy_promise p) c.
Proof. intros H. apply acts_get. by apply (acts_one _ _ _ (ECount p 1)). Qed.

Lemma setOnCancel_acts (P : effect -> Prop) p oc c : P (EOnCancel p oc) -> P (EPush (Cancel p)) -> acts P (setOnCancel p oc) c.
Proof.
  intros H1 H2. unfold setOnCancel. apply acts_get. apply acts_bind; [by apply (acts_one _ _ _ (EOnCancel p oc))|].
  intros _ c' _. destruct (_cancelRequested _); [apply acts_push; by repeat constructor|apply acts_ret].
Qed.

Lemma setup_acts (P : effect -> Prop) p oc t c : P (EStart p) -> P (EOnCancel p oc) -> P (EPush (Cancel p)) -> P (EAsync p t) ->
  acts P (setup p oc t) c.
Proof.
  intros H1 H2 H3 H4. unfold setup. apply acts_get. apply acts_bind; [by apply (acts_one _ _ _ (EStart p))|].
  intros _ c' _. apply acts_bind; [by apply setOnCancel_acts|]. intros _ c'' _. apply acts_get.
  by apply (acts_one _ _ _ (EAsync p t)).
Qed.

Lemma adapt_acts (P : effect -> Prop) f p fwd c : (forall oc, P (EOnCancel p oc)) -> P (EStart p) -> P (EPush (Cancel p)) ->
  (forall t, P (EAsync p t)) -> (forall n, P (ECount p n)) -> (forall t, P (EConnect f (CbAdapt p) t)) -> (forall e, P (EFinish p e)) ->
  acts P (adaptFuture f p fwd) c.
Proof.
  intros H1 H2 H3 H4 H5 H6 H7. unfold adaptFuture. apply acts_bind.
  - destruct fwd; [by apply setup_acts|apply acts_ret].
  - intros _ c' _. apply acts_bind; [by apply copy_acts|]. intros _ c'' _. apply acts_unwinding; [by apply acts_connect|done..].
Qed.

Lemma barrier_set_acts (P : effect -> Prop) b c : (forall closed set count l, P (EBarrier b closed set count l)) ->
  (forall s e, barriers c !! b = Some s -> P (EFinish (_promise s) e)) -> acts P (barrier_set b) c.
Proof.
  intros H1 H2. unfold barrier_set. apply acts_get_barrier. intros s Hs. apply acts_bind; [by apply acts_put_barrier|].
  intros _ c' _. destruct (_set _); [apply acts_ret|]. eapply (acts_finish _ _ _ (EndValue _)); [by apply H2|done].
Qed.

Lemma callback_acts cb f c : acts (item_effect c (Call cb f)) (run_callback continue convert cb f) c.
Proof.
  unfold run_callback. apply acts_get. set (s := state_of c f). destruct cb as [k|p k|p k|p|p|b|p g n]; cbn [promise_of].
  - by apply (acts_one _ _ _ (ECalled k f)).
  - apply setPromise_acts. intros e. by left.
  - destruct (_state s); try (apply acts_get; destruct (_cancelRequested _));
      first [apply setPromise_acts; intros e; by left | eapply (acts_finish _ _ _ EndCanceled); [by left|done]
            | eapply (acts_finish _ _ _ (EndError _)); [by left|done]].
  - destruct (_state s); try (destruct (_value s) as [v|g|l]; [apply acts_ret| |apply acts_ret]);
      first [eapply (acts_finish _ _ _ EndCanceled); [by left|done] | eapply (acts_finish _ _ _ (EndError _)); [by left|done]
            | apply adapt_acts; try done; intros t; first [by exists p, f|by left]].
  - unfold futureAdapter. destruct (_state s); try (destruct (convert (_value s)) as [v|what|]; [|eapply (acts_finish _ _ _ (EndError _)); [by left|done]|apply acts_throw]);
      first [eapply (acts_finish _ _ _ EndCanceled); [by left|done] | eapply (acts_finish _ _ _ (EndError _)); [by left|done]
            | apply acts_get; apply acts_bind; [apply (acts_one _ _ _ (EWrite p v)); [by exists f|done]
                |intros _ c' _; eapply (acts_finish _ _ _ EndTrigger); [by left|done]]].
  - apply acts_get_barrier. intros t Ht. apply acts_bind.
    + apply acts_put_barrier; [done|]. left. by exists f.
    + intros _ c' _. destruct (_ =? 0); [|apply acts_ret]. apply acts_push. repeat constructor. by exists f.
  - apply acts_get. apply acts_bind.
    + destruct (_ && _); [|apply acts_ret]. apply acts_catch; [|intros c'; apply acts_ret].
      eapply (acts_finish _ _ _ (EndValue _)); [by left|done].
    + intros _ c' _. apply acts_push. repeat constructor. by exists g, f.
Qed.

Lemma for_each_acts {A} (P : effect -> Prop) (g : A -> M unit) l c : (forall x c', x ∈ l -> acts P (g x) c') -> acts P (for_each g l) c.
Proof.
  revert c. induction l as [|x l IH]; intros c H; cbn [for_each]; [apply acts_ret|].
  apply acts_bind; [apply H; by left|]. intros _ c' _. apply IH. intros y c'' Hy. apply H. by right.
Qed.

Lemma new_promise_acts (P : effect -> Prop) t c : P (ENew true) -> (forall t, P (EAsync (nstates c) t)) -> (forall n, P (ECount (nstates c) n)) ->
  acts P (Promise_new t) c.
Proof.
  intros H1 H2 H3. unfold Promise_new. apply acts_bind; [by apply (acts_one _ _ _ (ENew true))|].
  intros p c' [= <- <-]. apply acts_get. apply acts_bind; [|intros; apply acts_ret].
  exists [EAsync (nstates c) t; ECount (nstates c) 1]. split; [repeat constructor; [apply H2|apply H3]|].
  unfold apply_effects. cbn. unfold put_state, modify, state_of. cbn. simpl_states. unfold with_states. cbn. by simpl_states.
Qed.

Lemma new_promise_value t c p c' : Promise_new t c = (Ok p, c') -> p = nstates c.
Proof. unfold Promise_new. cbn. by intros [= <- _]. Qed.

Lemma new_cancel_acts (P : effect -> Prop) oc t c : P (ENew false) -> (forall oc, P (EOnCancel (nstates c) oc)) -> P (EStart (nstates c)) ->
  P (EPush (Cancel (nstates c))) -> (forall t, P (EAsync (nstates c) t)) -> (forall n, P (ECount (nstates c) n)) ->
  acts P (Promise_new_cancel oc t) c.
Proof.
  intros H1 H2 H3 H4 H5 H6. unfold Promise_new_cancel. apply acts_bind; [by apply (acts_one _ _ _ (ENew false))|].
  intros p c' [= <- <-]. apply acts_bind; [by apply setup_acts|]. intros _ c'' _.
  apply acts_bind; [by apply copy_acts|]. intros; apply acts_ret.
Qed.

Lemma new_cancel_value oc t c p c' : Promise_new_cancel oc t c = (Ok p, c') -> p = nstates c.
Proof.
  unfold Promise_new_cancel, setup, setOnCancel, mbind, M_bind. cbn. simpl_states. by intros [= <- _].
Qed.

Lemma make_error_acts (P : effect -> Prop) message c : P (ENew true) -> (forall t, P (EAsync (nstates c) t)) ->
  (forall n, P (ECount (nstates c) n)) -> (forall e, P (EFinish (nstates c) e)) -> acts P (makeFutureError message) c.
Proof.
  intros H1 H2 H3 H4. unfold makeFutureError. apply acts_bind; [by apply new_promise_acts|].
  intros p c' ->%new_promise_value. apply acts_bind; [by eapply (acts_finish _ _ _ (EndError _))|]. intros _ c'' _.
  apply acts_bind; [by apply decRefcnt_acts|]. intros; apply acts_ret.
Qed.

Lemma item_acts shared i c : acts (item_effect c i) (run_item continue convert shared i) c.
Proof.
  destruct i as [cb f|cb f|f|k f|b|b|p n|p]; cbn [run_item].
  - apply acts_bind; [apply acts_catch; [apply callback_acts|intros; apply acts_ret]|]. intros _ c' _.
    destruct (promise_of cb) as [p|] eqn:E; [|apply acts_ret]. apply acts_push. repeat constructor. by exists cb, f.
  - by apply (acts_one _ _ _ (ESpawn cb f)).
  - apply acts_get. destruct (isFinished _); [apply acts_ret|]. apply acts_bind; [by apply (acts_one _ _ _ (ERequestCancel f))|].
    intros _ c' _. destruct (_onCancel _) as [[k|g|b]|]; [by apply acts_push; repeat constructor..| |apply acts_ret].
    apply acts_get_barrier. intros s _. apply acts_push. apply Forall_map. by apply Forall_forall.
  - by apply (acts_one _ _ _ (ECanceled k f)).
  - apply acts_get_barrier. intros s _. destruct (_closed _); [|apply acts_ret]. apply barrier_set_acts; [intros; right; by left|]. intros s' e Hs. left. by exists s'.
  - apply acts_get_barrier. intros s _. destruct (_ =? 0); [|apply acts_ret]. apply barrier_set_acts; [intros; right; by right|]. intros s' e Hs. left. by exists s'.
  - apply acts_bind; [by apply (acts_one _ _ _ (ECounts (<[n := default 0 (counts c !! n) - 1]> (counts c)) (ncounts c)))|].
    intros _ c' [= _ <-]. apply acts_bind; [by exists []|]. intros m c'' [= <- <-]. apply acts_get. destruct (_ && _); [|apply acts_ret].
    apply acts_bind; [apply make_error_acts; try done; intros e; by right|]. intros e c'' _.
    apply acts_catch; [eapply (acts_finish _ _ _ (EndValue _)); [by left|done]|intros; apply acts_ret].
  - apply decRefcnt_acts; [done|]. intros e. by left.
Qed.

(** The promise of the client that an operation uses. *)
Definition op_promise (o : op) : option nat :=
  match o with
  | CopyPromise p | DestroyPromise p _ | SetValue p _ | WriteValue p _ | Trigger p | SetError p _ | SetCanceled p
  | SetOnCancel p _ | Adapt _ p _ => Some p
  | _ => None
  end.

(** Whether an operation makes a promise that it gives to something. *)
Definition op_creates (o : op) : bool :=
  match o with
  | NewPromise _ | NewPromiseCancel _ _ | Then _ _ _ _ | AndThen _ _ _ _ | Unwrap _
  | NewBarrier _ | WaitForAll _ | WaitForFirst _ => true
  | _ => false
  end.

Definition op_effect (c : futures) (o : op) (e : effect) : Prop :=
  match e with
  | ERequestCancel _ | EOnCancel _ _ | EAsync _ _ | ECount _ _ | EStart _ | ENew _ | ECounts _ _ => True
  | EWrite p v => o = WriteValue p v
  | EFinish p _ => op_promise o = Some p \/ (nstates c <= p)%nat
  | EConnect g cb t =>
      match cb with
      | CbClient k => o = Connect g k t
      | CbBarrier b => o = AddFuture b g \/ (nbarriers c <= b)%nat
      | CbAdapt p => op_promise o = Some p
      | CbThen p _ | CbAndThen p _ | CbForward p | CbFirst p _ _ => op_creates o = true /\ p = nstates c
      end
  | EPush (Cancel _) => True
  | EPush (BarrierClosed b) => o = CloseBarrier b \/ (nbarriers c <= b)%nat
  | EPush _ | ESpawn _ _ | ECalled _ _ | ECanceled _ _ => False
  | EBarrier b _ _ _ _ => (exists f, o = AddFuture b f) \/ o = CloseBarrier b \/ (nbarriers c <= b)%nat
  | ENewBarrier p => op_creates o = true /\ p = nstates c
  | EConnected k f => exists t, o = Connect f k t
  | EHandles p _ => op_promise o = Some p \/ op_creates o = true /\ p = nstates c
  end.

Lemma connect_value f cb t c r c' : connect f cb t c = (r, c') -> nstates c' = nstates c /\ nbarriers c' = nbarriers c.
Proof. unfold connect, mbind, M_bind. cbn. destruct (bool_decide _); [|destruct (isFinished _)]; cbn; by intros [= _ <-]. Qed.

Lemma combinator_acts (P : effect -> Prop) (cb : nat -> callback) f t c :
  (forall t, P (EConnect f (cb (nstates c)) t)) ->
  (forall p oc, P (EOnCancel p oc)) -> (forall p, P (EStart p)) -> (forall p, P (EPush (Cancel p))) -> (forall p t, P (EAsync p t)) ->
  (forall p n, P (ECount p n)) -> P (ENew false) -> (forall p e, (nstates c <= p)%nat -> P (EFinish p e)) ->
  acts P (p ← Promise_new_cancel (CcFuture f) FutureCallbackType_Auto ; unwinding p (connect f (cb p) t) ;; mret p) c.
Proof.
  intros H1 H2 H3 H4 H5 H6 H7 H8. apply acts_bind; [by apply new_cancel_acts|]. intros p c' ->%new_cancel_value.
  apply acts_bind; [apply acts_unwinding; [by apply acts_connect, H1|done|by intros; apply H8]|]. intros; apply acts_ret.
Qed.

Lemma addFuture_acts (P : effect -> Prop) b f c : (forall closed set count l, P (EBarrier b closed set count l)) -> (forall t, P (EConnect f (CbBarrier b) t)) ->
  acts P (addFuture b f) c.
Proof.
  intros H1 H2. unfold addFuture. apply acts_get_barrier. intros s Hs. destruct (_closed _); [apply acts_throw|].
  apply acts_bind; [by apply acts_put_barrier|]. intros _ c' _.
  apply acts_bind; [by apply acts_connect|]. intros _ c'' _. apply acts_get_barrier. intros s' Hs'. by apply acts_put_barrier.
Qed.

Lemma barrier_future_acts (P : effect -> Prop) b c : (forall closed set count l, P (EBarrier b closed set count l)) -> P (EPush (BarrierClosed b)) ->
  acts P (barrier_future b) c.
Proof.
  intros H1 H2. unfold barrier_future, close. apply acts_bind; [|intros; apply acts_get_barrier; intros; apply acts_ret].
  apply acts_get_barrier. intros s Hs. apply acts_bind; [by apply acts_put_barrier|].
  intros _ c' _. apply acts_push. by repeat constructor.
Qed.

Lemma barrier_make_acts o t c : op_creates o = true -> acts (op_effect c o) (FutureBarrier_make t) c.
Proof.
  intros Ho. unfold FutureBarrier_make. apply acts_bind; [by apply new_promise_acts|]. intros p c' Hp.
  pose proof (new_promise_value _ _ _ _ Hp) as ->.
  apply acts_bind; [apply (acts_one _ _ _ (ENewBarrier (nstates c))); done|]. intros b c'' _.
  apply acts_bind; [by apply setOnCancel_acts|]. intros; apply acts_ret.
Qed.

Lemma barrier_make_value t c b c' : FutureBarrier_make t c = (Ok b, c') -> b = nbarriers c.
Proof.
  unfold FutureBarrier_make, Promise_new, setOnCancel, mbind, M_bind. cbn. simpl_states. by intros [= <- _].
Qed.

(** The loop of [waitForFirst]. *)
Lemma first_loop_acts (P : effect -> Prop) prom count l c :
  (forall n, P (ECount prom n)) -> (forall f t, P (EConnect f (CbFirst prom f count) t)) -> (forall e, P (EFinish prom e)) ->
  acts P (for_each (fun f => copy_promise prom ;; unwinding prom (connect f (CbFirst prom f count) FutureCallbackType_Auto)) l) c.
Proof.
  intros H1 H2 H3. apply for_each_acts. intros f c' _. apply acts_bind; [by apply copy_acts|]. intros _ c'' _.
  apply acts_unwinding; [by apply acts_connect|done..].
Qed.

Lemma waitForFirst_acts o l c : op_creates o = true -> acts (op_effect c o) (waitForFirst l) c.
Proof.
  intros Ho. unfold waitForFirst. apply acts_bind; [by apply new_promise_acts|]. intros p c' ->%new_promise_value.
  apply acts_bind; [by apply (acts_one _ _ _ (ECounts (<[ncounts c' := Z.of_nat (length l)]> (counts c')) (S (ncounts c'))))|].
  intros n c'' _. apply acts_bind; [apply acts_unwinding; [apply first_loop_acts; cbn; auto|done|cbn; auto]|]. intros _ c3 _.
  apply acts_bind; [apply decRefcnt_acts; [done|intros e; by right]|]. intros; apply acts_ret.
Qed.

Lemma waitForAll_acts o l c : op_creates o = true -> acts (op_effect c o) (waitForAll l) c.
Proof.
  intros Ho. unfold waitForAll. apply acts_bind; [by apply barrier_make_acts|]. intros b c' ->%barrier_make_value.
  apply acts_bind; [|intros _ c'' _; apply barrier_future_acts; cbn; auto].
  apply for_each_acts. intros f c'' _. apply addFuture_acts; cbn; auto.
Qed.

Lemma op_acts o c : acts (op_effect c o) (exec_op o) c.
Proof.
  destruct o; cbn [exec_op]; try (apply acts_bind; [|intros; apply acts_ret]); try apply acts_ret.
  - by apply (acts_one _ _ _ (ENew false)).
  - unfold make_future. apply acts_bind; [by apply new_promise_acts|]. intros p c' ->%new_promise_value.
    apply acts_bind; [eapply (acts_finish _ _ _ (EndValue v)); [by right|done]|]. intros _ c'' _.
    apply acts_bind; [apply decRefcnt_acts; [done|intros e; by right]|intros; apply acts_ret].
  - apply make_error_acts; try done. intros e. by right.
  - apply acts_bind; [by apply new_promise_acts|]. intros p c' ->%new_promise_value.
    apply acts_bind; [apply (acts_one _ _ _ (EHandles (nstates c) 1)); [by right|done]|intros; apply acts_ret].
  - apply acts_bind; [by apply new_cancel_acts|]. intros p c' ->%new_cancel_value.
    apply acts_bind; [apply (acts_one _ _ _ (EHandles (nstates c) 1)); [by right|done]|intros; apply acts_ret].
  - apply acts_bind; [by exists []|]. intros n c' [= _ <-]. apply acts_bind; [by apply (acts_one _ _ _ (EHandles p (S n))); [by left|]|].
    intros _ c'' _. apply acts_bind; [by apply copy_acts|intros; apply acts_ret].
  - apply acts_bind; [by exists []|]. intros n c' [= _ <-]. apply acts_bind; [by apply (acts_one _ _ _ (EHandles p (pred n))); [by left|]|].
    intros _ c'' _. apply acts_bind; [apply decRefcnt_acts; [done|intros e; by left]|intros; apply acts_ret].
  - eapply (acts_finish _ _ _ (EndValue v)); [by left|done].
  - apply acts_get. apply acts_bind; [by apply (acts_one _ _ _ (EWrite p v))|intros; apply acts_ret].
  - eapply (acts_finish _ _ _ EndTrigger); [by left|done].
  - eapply (acts_finish _ _ _ (EndError message)); [by left|done].
  - eapply (acts_finish _ _ _ EndCanceled); [by left|done].
  - by apply setOnCancel_acts.
  - apply acts_push. by repeat constructor.
  - apply acts_bind; [by apply acts_connect|]. intros _ c' _. apply acts_bind; [|intros; apply acts_ret].
    apply (acts_one _ _ _ (EConnected k f)); [by exists type|done].
  - apply combinator_acts; cbn; auto.
  - apply combinator_acts; cbn; auto.
  - apply combinator_acts; cbn; auto.
  - apply adapt_acts; cbn; auto.
  - by apply barrier_make_acts.
  - apply addFuture_acts; cbn; eauto.
  - apply barrier_future_acts; cbn; auto.
  - by apply waitForAll_acts.
  - by apply waitForFirst_acts.
Qed.
End effects.

(** ** What promises and futures guarantee

    In every execution of [Future], a finished future keeps its result. *)

(** The members other than the threads. *)
Definition core (c : futures) :=
  (states c, nstates c, handles c, barriers c, nbarriers c, counts c, ncounts c, called c, canceled c, connected c).

(** The steps that write the value of a state in place. *)
Definition writes (o : op) (c : futures) (f : nat) : Prop :=
  match o with
  | WriteValue p _ => p = f
  | Run i _ => exists g rest, threads c !! i = Some (Call (CbAdapt f) g :: rest)
  | _ => False
  end.

(** ** The states *)

(** States are added after the others. *)
Definition states_ok (c : futures) : Prop := forall f, (nstates c <= f)%nat -> states c !! f = None.

Lemma state_put f s g c : states (snd (put_state f s c)) !! g = if decide (g = f) then (fun _ => s) <$> states c !! f else states c !! g.
Proof.
  unfold put_state, modify. cbn. destruct (decide (g = f)) as [->|Hn]; [apply lookup_alter_eq|]. by rewrite lookup_alter_ne.
Qed.

Lemma state_of_put f s g c : state_of (snd (put_state f s c)) g = if decide (g = f /\ is_Some (states c !! f)) then s else state_of c g.
Proof.
  unfold state_of. rewrite state_put. destruct (decide (g = f)) as [->|Hn].
  - destruct (states c !! f) eqn:E; cbn.
    + by rewrite decide_True.
    + rewrite decide_False; [done|]. intros [_ [? ?]]. done.
  - rewrite decide_False; [done|]. tauto.
Qed.

Lemma is_running_some c f : isRunning (state_of c f) = true -> is_Some (states c !! f).
Proof. unfold state_of. destruct (states c !! f); [done|]. done. Qed.

Lemma valid_some c f : _state (state_of c f) <> FutureState_None -> is_Some (states c !! f).
Proof. unfold state_of. destruct (states c !! f); [done|]. done. Qed.

(** What [finish] and [connect] do. *)
Lemma finish_eq f h c : finish f h c =
  if isRunning (state_of c f)
  then (Ok tt, with_threads (threads c) (todo c ++ map (fun '(cb, t) => if is_async t (_async (state_of c f)) then Post cb f else Call cb f)
                 (_onResult (state_of c f)))
               (snd (put_state f (set_onCancel None (set_onResult [] (h (state_of c f)))) c)))
  else (Err ExceptionState_PromiseAlreadySet, c).
Proof. unfold finish, mbind, M_bind, get_state. fold (state_of c f). by destruct (isRunning _). Qed.

Lemma connect_eq f cb t c : connect f cb t c =
  if bool_decide (_state (state_of c f) = FutureState_None) then (Err ExceptionState_FutureInvalid, c)
  else if isFinished (state_of c f)
  then (Ok tt, with_threads (threads c) (todo c ++ [if is_async t (_async (state_of c f)) then Post cb f else Call cb f]) c)
  else put_state f (set_onResult (_onResult (state_of c f) ++ [(cb, t)]) (state_of c f)) c.
Proof.
  unfold connect, mbind, M_bind, get_state. fold (state_of c f). destruct (bool_decide _); [done|]. by destruct (isFinished _).
Qed.

Lemma effect_states_ok c e : states_ok c -> states_ok (apply_effect c e).
Proof.
  intros H. assert (forall f s, states_ok (snd (put_state f s c))) as Hput.
  { intros f s g Hg. rewrite state_put. destruct (decide (g = f)) as [->|]; [|by apply H]. by rewrite (H f Hg). }
  destruct e; cbn [apply_effect]; try done; try apply Hput.
  - rewrite finish_eq. destruct (isRunning _); [|done]. exact (Hput _ _).
  - rewrite connect_eq. destruct (bool_decide _); [done|]. destruct (isFinished _); [done|]. exact (Hput _ _).
  - intros f Hf. cbn in *. rewrite lookup_insert_ne by lia. apply H. lia.
Qed.

(** ** Effects that keep the result of a future *)

(** The result of a finished future, its value apart. *)
Definition same_result (s s' : FutureBase) : Prop :=
  isFinished s = true -> _state s' = _state s /\ _error s' = _error s.

Lemma effect_result c e f : states_ok c -> isFinished (state_of c f) = true ->
  _state (state_of (apply_effect c e) f) = _state (state_of c f) /\
  _error (state_of (apply_effect c e) f) = _error (state_of c f) /\
  ((forall v, e <> EWrite f v) -> _value (state_of (apply_effect c e) f) = _value (state_of c f)).
Proof.
  intros Hok Hf. assert (is_Some (states c !! f)) as Hs by (apply valid_some; unfold isFinished in Hf; by destruct (_state (state_of c f))).
  assert (forall g s, (g = f -> _state s = _state (state_of c f) /\ _error s = _error (state_of c f) /\ _value s = _value (state_of c f)) ->
    _state (state_of (snd (put_state g s c)) f) = _state (state_of c f) /\
    _error (state_of (snd (put_state g s c)) f) = _error (state_of c f) /\
    _value (state_of (snd (put_state g s c)) f) = _value (state_of c f)) as Hput.
  { intros g s Hg. rewrite state_of_put. destruct (decide _) as [[-> _]|_]; [by apply Hg|done]. }
  assert (forall g s, (g = f -> _state s = _state (state_of c f) /\ _error s = _error (state_of c f) /\ _value s = _value (state_of c f)) ->
    _state (state_of (snd (put_state g s c)) f) = _state (state_of c f) /\
    _error (state_of (snd (put_state g s c)) f) = _error (state_of c f) /\
    ((forall v, e <> EWrite f v) -> _value (state_of (snd (put_state g s c)) f) = _value (state_of c f))) as Hput'
    by (intros g s Hg; destruct (Hput g s Hg) as (H1 & H2 & H3); done).
  destruct e as [g|g oc|g t|g n|g|g v|g e|g cb t|b|i|cb g|b s|p|m n|k g|k g|k g|p n]; cbn [apply_effect];
    try (apply Hput'; intros ->; done); try done.
  - apply Hput'. intros ->. unfold reportStart; unfold isFinished in Hf. destruct (_state (state_of c f)) eqn:E; done.
  - rewrite state_of_put. destruct (decide _) as [[<- _]|_]; [|done]. split_and!; [done..|]. intros H. by destruct (H v).
  - rewrite finish_eq. destruct (isRunning _) eqn:Er; [|done]. apply Hput'. intros ->. exfalso.
    unfold isRunning in Er. apply bool_decide_eq_true in Er. unfold isFinished in Hf. by rewrite Er in Hf.
  - rewrite connect_eq. destruct (bool_decide _); [done|]. destruct (isFinished (state_of c g)); [done|].
    apply Hput'. intros ->. done.
  - unfold state_of. cbn. rewrite lookup_insert_ne; [done|]. intros <-. destruct Hs as [s Hs]. by rewrite Hok in Hs.
Qed.

Lemma op_run o : (exists i shared, o = Run i shared) \/ forall i shared, o <> Run i shared.
Proof. destruct o; first [by right|left; eauto]. Qed.

Section executions.
Context (continue : nat -> result FutureException value -> call_result) (convert : value -> call_result).
Notation exec := (exec continue convert).
Notation run := (run continue convert).
Notation run_item := (run_item continue convert).

(** ** Executions *)

(** A step of a thread. *)
Lemma exec_run i shared c : exec (Run i shared) c =
  match threads c !! i with
  | Some (it :: rest) =>
      let c' := snd (run_item shared it (with_threads (<[i := rest]> (threads c)) [] c)) in
      (Ok None, with_threads (alter (fun rest => todo c' ++ rest) i (threads c')) [] c')
  | _ => (Ok None, c)
  end.
Proof.
  unfold Future.exec. cbn. destruct (threads c !! i) as [[|it rest]|]; [done| |done].
  by destruct (Future.run_item _ _ _ _ _).
Qed.

Lemma exec_other o c : (forall i shared, o <> Run i shared) ->
  exec o c = if possible o c then (fst (exec_op o c), start_thread (snd (exec_op o c))) else (Ok None, c).
Proof.
  intros H. unfold Future.exec. destruct (possible o c); [|done].
  destruct o as [ | | | | | | | | | | | | | | | | | | | | | | | |i shared]; try (by destruct (exec_op _ c)). by destruct (H i shared).
Qed.

Lemma start_core c : core (start_thread c) = core c.
Proof. unfold start_thread. by destruct (todo c). Qed.

(** An invariant of the members other than the threads, kept by the effects. *)
Lemma exec_core_inv (I : futures -> Prop) o c : (forall c c', core c' = core c -> I c -> I c') -> I c ->
  (forall c1 e, I c1 -> op_effect c o e -> I (apply_effect c1 e)) ->
  (forall i shared it rest c1 e, o = Run i shared -> threads c !! i = Some (it :: rest) -> I c1 ->
     item_effect (with_threads (<[i := rest]> (threads c)) [] c) it e -> I (apply_effect c1 e)) ->
  I (snd (exec o c)).
Proof.
  intros Hcore Hc Hop Hitem.
  destruct (op_run o) as [(i & shared & ->)|Ho].
  - rewrite exec_run. destruct (threads c !! i) as [[|it rest]|] eqn:E; [done| |done]. cbn.
    apply (Hcore (snd (run_item shared it (with_threads (<[i := rest]> (threads c)) [] c)))); [done|].
    eapply acts_inv; [apply item_acts|by apply (Hcore c)|]. intros c1 e H1 He. by eapply Hitem.
  - rewrite exec_other by done. destruct (possible o c); [|done]. cbn. apply (Hcore (snd (exec_op o c))); [apply start_core|].
    eapply acts_inv; [apply op_acts|done|done].
Qed.

Lemma exec_states_ok o c : states_ok c -> states_ok (snd (exec o c)).
Proof.
  intros H. apply (exec_core_inv states_ok); [|done|by intros *; intros ? _; apply effect_states_ok|by intros; apply effect_states_ok].
  intros c1 c2 [= E1 E2 _ _ _ _ _ _ _ _] H1 f Hf. rewrite E1. apply H1. by rewrite <- E2.
Qed.

Lemma future_run_snoc ops o c : run (ops ++ [o]) c = snd (exec o (run ops c)).
Proof. unfold Future.run. by rewrite foldl_app. Qed.

Lemma run_states_ok ops : states_ok (run ops futures_new).
Proof. induction ops as [|o ops IH] using rev_ind; [done|]. rewrite future_run_snoc. by apply exec_states_ok. Qed.

(** A future that is finished keeps its state, its error and its value, whatever is
    done afterwards; the value can only be written in place, by its promise or by
    [adaptFuture]. *)
Theorem future_final ops o f : let c := run ops futures_new in let c' := snd (exec o c) in
  isFinished (state_of c f) = true ->
  _state (state_of c' f) = _state (state_of c f) /\ _error (state_of c' f) = _error (state_of c f) /\
  (~ writes o c f -> _value (state_of c' f) = _value (state_of c f)).
Proof.
  intros c c' Hf. set (I c1 := states_ok c1 /\ _state (state_of c1 f) = _state (state_of c f) /\
    _error (state_of c1 f) = _error (state_of c f) /\ (~ writes o c f -> _value (state_of c1 f) = _value (state_of c f))).
  assert (forall c1 e, I c1 -> (forall v, e = EWrite f v -> writes o c f) -> I (apply_effect c1 e)) as Hstep.
  { intros c1 e (H1 & H2 & H3 & H4) He. assert (isFinished (state_of c1 f) = true) as Hf1.
    { unfold isFinished in *. by rewrite H2. }
    destruct (effect_result c1 e f H1 Hf1) as (E1 & E2 & E3). split; [by apply effect_states_ok|].
    split_and!; [congruence..|]. intros Hw. rewrite E3; [by apply H4|]. intros v ->. by apply Hw, (He v). }
  apply (exec_core_inv I).
  - intros c1 c2 [= E1 E2 _ _ _ _ _ _ _ _] (H1 & H2 & H3 & H4). assert (state_of c2 f = state_of c1 f) as Hs by (unfold state_of; by rewrite E1).
    split; [|by rewrite Hs]. intros g Hg. rewrite E1. apply H1. by rewrite <- E2.
  - split; [apply run_states_ok|done].
  - intros c1 e H1 He. apply Hstep; [done|]. intros v ->. cbn in He. by rewrite He.
  - intros i shared it rest c1 e -> Hi H1 He. apply Hstep; [done|]. intros v ->. cbn in He. destruct He as [g ->]. by exists g, rest.
Qed.
End executions.
