(* ===== verification/FutureCallbacks.v ===== *)
(** * FutureCallbacks: the functions that are connected to a future are called once

    The callbacks are counted: those that wait in a future, those that a thread is
    about to call, and those that were called. *)
From S2P Require Import Prelude CString Future FutureEffects.
Open Scope Z_scope.

(** ** Definitions *)

(** Everything that is to be done. *)
Definition items (c : futures) : list item := todo c ++ concat (threads c).

(** The callbacks for which [P] holds: those to be called, and those that wait in a
    future. *)
Definition item_held (P : callback -> nat -> bool) (i : item) : bool :=
  match i with Call cb g | Post cb g => P cb g | _ => false end.

Definition scheduled (P : callback -> nat -> bool) (l : list item) : nat := length (List.filter (item_held P) l).

Definition waits (P : callback -> nat -> bool) (s : FutureBase) (g : nat) : nat :=
  length (List.filter (fun p => P (fst p) g) (_onResult s)).

Definition waiting (P : callback -> nat -> bool) (c : futures) : nat :=
  sum_list_with (fun g => waits P (state_of c g) g) (seq 0 (nstates c)).

Definition held (P : callback -> nat -> bool) (c : futures) : nat := (scheduled P (items c) + waiting P c)%nat.

Arguments scheduled : simpl never.
Arguments waiting : simpl never.
Arguments held : simpl never.

(** The function [k] of a client, connected to [f]. *)
Definition is_client (k f : nat) (cb : callback) (g : nat) : bool := bool_decide (cb = CbClient k /\ g = f).

Definition times (k f : nat) (l : list (nat * nat)) : nat := length (List.filter (fun p => bool_decide (p = (k, f))) l).

Arguments times : simpl never.

(** The effects that do not add a callback for which [P] holds. *)
Definition neutral (P : callback -> nat -> bool) (e : effect) : Prop :=
  match e with
  | EConnect f cb _ | ESpawn cb f => P cb f = false
  | EPush i => item_held P i = false
  | _ => True
  end.

Definition settled (c : futures) : Prop := forall f,
  (isRunning (state_of c f) = false -> _onResult (state_of c f) = []) /\
  (isFinished (state_of c f) = false ->
     (forall i, i ∈ items c -> item_held (fun _ g => bool_decide (g = f)) i = false) /\ (forall k, (k, f) ∉ called c)).

Definition grounded (c : futures) (e : effect) : Prop :=
  match e with
  | EPush (Call _ f) | EPush (Post _ f) | ESpawn _ f | ECalled _ f => isFinished (state_of c f) = true
  | _ => True
  end.

Definition balanced k f c : Prop := times k f (connected c) = (times k f (called c) + held (is_client k f) c)%nat.

Definition logs (c : futures) := (called c, connected c).

(** What neither connects nor calls a function of a client. *)
Definition silent (k f : nat) (e : effect) : Prop :=
  neutral (is_client k f) e /\ forall j g, e <> ECalled j g /\ e <> EConnected j g.

(** ** Counting *)

Lemma sum_list_with_ext {A} (f g : A -> nat) l : (forall x, x ∈ l -> f x = g x) -> sum_list_with f l = sum_list_with g l.
Proof.
  induction l as [|x l IH]; intros H; [done|]. cbn. rewrite (H x), IH; [done| |by left]. intros y Hy. apply H. by right.
Qed.

Lemma sum_list_with_change (f g : nat -> nat) n i : (forall x, x <> i -> f x = g x) -> (i < n)%nat ->
  (sum_list_with f (seq 0 n) + g i = sum_list_with g (seq 0 n) + f i)%nat.
Proof.
  intros H. induction n as [|n IH]; intros Hi; [lia|]. rewrite seq_S, !sum_list_with_app. cbn.
  destruct (decide (i = n)) as [->|Hn].
  - rewrite (sum_list_with_ext f g); [lia|]. intros x Hx%elem_of_seq. apply H. lia.
  - rewrite (H n) by done. specialize (IH ltac:(lia)). lia.
Qed.

Section holding.
Context (P : callback -> nat -> bool).

Lemma scheduled_app l l' : scheduled P (l ++ l') = (scheduled P l + scheduled P l')%nat.
Proof. unfold scheduled. by rewrite List.filter_app, length_app. Qed.

Lemma scheduled_permutation l l' : l ≡ₚ l' -> scheduled P l = scheduled P l'.
Proof. intros H. unfold scheduled. induction H; cbn; repeat destruct (item_held P _); cbn in *; lia. Qed.

Lemma scheduled_callbacks t f l :
  scheduled P (map (fun '(cb, t') => if is_async t' t then Post cb f else Call cb f) l) = length (List.filter (fun p => P (fst p) f) l).
Proof.
  unfold scheduled. induction l as [|[cb t'] l IH]; [done|]. cbn. destruct (is_async t' t); cbn; destruct (P cb f); cbn; lia.
Qed.

Lemma held_core c c' : states c' = states c -> nstates c' = nstates c -> scheduled P (items c') = scheduled P (items c) -> held P c' = held P c.
Proof. intros H1 H2 H3. unfold held, waiting, state_of. by rewrite H1, H2, H3. Qed.

Lemma held_put f s c : states_ok c -> is_Some (states c !! f) ->
  (held P (snd (put_state f s c)) + waits P (state_of c f) f = held P c + waits P s f)%nat.
Proof.
  intros Hok [s0 E]. assert (f < nstates c)%nat as Hf by (destruct (decide (f < nstates c)%nat); [done|]; rewrite Hok in E; [done|lia]).
  unfold held, waiting. pose proof (sum_list_with_change (fun g => waits P (state_of (snd (put_state f s c)) g) g) (fun g => waits P (state_of c g) g) (nstates c) f) as H.
  cbn beta in H. rewrite (state_of_put f s f), decide_True in H by (by rewrite E). change (items (snd (put_state f s c))) with (items c).
  change (nstates (snd (put_state f s c))) with (nstates c). rewrite <- !Nat.add_assoc, H; [done| |done].
  intros x Hx. rewrite state_of_put, decide_False; [done|]. tauto.
Qed.

Lemma held_put_same f s c : states_ok c -> _onResult s = _onResult (state_of c f) -> held P (snd (put_state f s c)) = held P c.
Proof.
  intros Hok Hs. destruct (states c !! f) eqn:E.
  - pose proof (held_put f s c Hok ltac:(by eexists)) as H. unfold waits in H. rewrite Hs in H. lia.
  - apply held_core; [|done..]. cbn. apply map_eq. intros g.
    destruct (decide (g = f)) as [->|]; [by rewrite lookup_alter_eq, E|by rewrite lookup_alter_ne].
Qed.

Lemma held_todo l c : held P (with_threads (threads c) (todo c ++ l) c) = (held P c + scheduled P l)%nat.
Proof. unfold held, waiting, items, state_of. cbn [todo threads states nstates with_threads]. rewrite !scheduled_app. lia. Qed.

Lemma held_finish f e c : states_ok c -> held P (snd (finish f (end_state e) c)) = held P c.
Proof.
  intros Hok. rewrite finish_eq. destruct (isRunning (state_of c f)) eqn:Er; [|done]. cbn [snd].
  set (c1 := snd (put_state _ _ _)). change (todo c) with (todo c1). change (threads c) with (threads c1). rewrite held_todo, scheduled_callbacks.
  pose proof (held_put f (set_onCancel None (set_onResult [] (end_state e (state_of c f)))) c Hok (is_running_some _ _ Er)) as H.
  fold c1 in H. change (waits P (set_onCancel _ _) f) with 0%nat in H. unfold waits in H. lia.
Qed.

(** A callback that is connected waits, or is to be called. *)
Lemma held_connect f cb t c : states_ok c ->
  held P (snd (connect f cb t c)) =
    (held P c + if bool_decide (_state (state_of c f) = FutureState_None) then 0 else Nat.b2n (P cb f))%nat.
Proof.
  intros Hok. rewrite connect_eq. destruct (bool_decide (_state (state_of c f) = FutureState_None)) eqn:Ev; [cbn; lia|].
  destruct (isFinished (state_of c f)).
  - cbn [snd]. rewrite held_todo. unfold scheduled. destruct (is_async _ _); cbn; by destruct (P cb f).
  - apply bool_decide_eq_false in Ev. pose proof (held_put f (set_onResult (_onResult (state_of c f) ++ [(cb, t)]) (state_of c f)) c Hok (valid_some _ _ Ev)) as H.
    unfold waits in H. cbn [_onResult set_onResult] in H. rewrite List.filter_app, length_app in H. cbn [List.filter fst] in H.
    destruct (P cb f); cbn [length Nat.b2n] in *; lia.
Qed.

Lemma held_spawn cb f c : held P (apply_effect c (ESpawn cb f)) = (held P c + Nat.b2n (P cb f))%nat.
Proof.
  unfold held. change (waiting P (apply_effect c (ESpawn cb f))) with (waiting P c). cbn [apply_effect].
  unfold items. cbn [todo threads with_threads]. rewrite concat_app, !scheduled_app.
  assert (scheduled P (concat [[Call cb f]]) = Nat.b2n (P cb f)) as -> by (unfold scheduled; cbn; by destruct (P cb f)). lia.
Qed.

Lemma effect_held c e : states_ok c -> neutral P e -> held P (apply_effect c e) = held P c.
Proof.
  intros Hok He. destruct e as [g|g oc|g t|g n|g|g v|g e|g cb t|b|i|cb g|b s|p|m n|k g|k g|k g|p n]; cbn [apply_effect neutral] in *; try done; try by apply held_put_same.
  - apply held_put_same; [done|]. unfold reportStart. by destruct (_state _).
  - by apply held_finish.
  - rewrite held_connect, He by done. destruct (bool_decide _); cbn; lia.
  - unfold held, waiting, new_state. cbn [snd nstates with_states]. rewrite seq_S, sum_list_with_app. cbn [sum_list_with Nat.add].
    rewrite (sum_list_with_ext _ (fun g => waits P (state_of c g) g)).
    + change (items (with_states _ _ c)) with (items c). unfold state_of at 2. cbn [states with_states]. rewrite lookup_insert_eq.
      assert (waits P (default FutureBase_new (Some (if b then reportStart FutureBase_new else FutureBase_new))) (nstates c) = 0%nat) as -> by (by destruct b). lia.
    + intros g Hg%elem_of_seq. unfold state_of. cbn. by rewrite lookup_insert_ne by lia.
  - change (held P (with_threads (threads c) (todo c ++ [i]) c) = held P c). rewrite held_todo. unfold scheduled. cbn [List.filter]. rewrite He. cbn [length]. lia.
  - change (held P (apply_effect c (ESpawn cb g)) = held P c). rewrite held_spawn, He. apply Nat.add_0_r.
Qed.
End holding.

(** ** Threads *)

Lemma effect_threads c e : exists l, threads (apply_effect c e) = threads c ++ l.
Proof.
  assert (exists l, threads c = threads c ++ l) as H by (exists []; by rewrite app_nil_r).
  destruct e; cbn [apply_effect]; try done; [| |by eexists].
  - rewrite finish_eq. by destruct (isRunning _).
  - rewrite connect_eq. destruct (bool_decide _); [done|]. by destruct (isFinished _).
Qed.

Lemma acts_threads {A} P (m : M A) c i l : acts P m c -> threads c !! i = Some l -> threads (snd (m c)) !! i = Some l.
Proof.
  intros Ha H. apply (acts_inv (fun c => threads c !! i = Some l) P m c Ha H). intros c1 e H1 _.
  destruct (effect_threads c1 e) as [l' ->]. by apply lookup_app_l_Some.
Qed.

Lemma list_alter_insert {A} (g : A -> A) (l : list A) (i : nat) x : l !! i = Some x -> alter g i l = <[i := g x]> l.
Proof. intros H. rewrite list_insert_alter. revert i H. induction l as [|a l IH]; intros [|i] H; try done; [by injection H as ->|]. cbn. f_equal. by apply IH. Qed.

Lemma concat_insert (l : list (list item)) (i : nat) x y : l !! i = Some x -> concat (<[i := y]> l) ++ x ≡ₚ concat l ++ y.
Proof.
  revert i. induction l as [|a l IH]; intros [|i] H; [done|done| |].
  - injection H as ->. cbn. rewrite (Permutation_app_comm _ x), <- (assoc_L (++)). f_equiv. apply Permutation_app_comm.
  - change (<[S i := y]> (a :: l)) with (a :: <[i := y]> l). cbn [concat]. by rewrite <- !(assoc_L (++)), (IH i H).
Qed.

Lemma items_start c : items (start_thread c) ≡ₚ items c.
Proof.
  unfold start_thread. destruct (todo c) as [|i l] eqn:E; [done|]. unfold items. rewrite E. cbn [todo threads with_threads].
  rewrite concat_app. cbn [concat]. rewrite app_nil_r. cbn [app]. apply Permutation_app_comm.
Qed.

Section steps.
Context (continue : nat -> result FutureException value -> call_result) (convert : value -> call_result).
Notation exec := (exec continue convert).
Notation run := (run continue convert).
Notation run_item := (run_item continue convert).

Lemma exec_todo o c : todo c = [] -> todo (snd (exec o c)) = [].
Proof.
  intros H. destruct (op_run o) as [(i & shared & ->)|Ho].
  - rewrite exec_run. by destruct (threads c !! i) as [[|it rest]|].
  - rewrite exec_other by done. destruct (possible o c); [|done]. cbn. unfold start_thread. by destruct (todo (snd _)) eqn:E.
Qed.

Lemma run_todo ops : todo (run ops futures_new) = [].
Proof. induction ops as [|o ops IH] using rev_ind; [done|]. rewrite future_run_snoc. by apply exec_todo. Qed.

(** A step of a thread consumes its item. *)
Lemma run_items i shared it rest c : todo c = [] -> threads c !! i = Some (it :: rest) ->
  let c0 := with_threads (<[i := rest]> (threads c)) [] c in
  items c ≡ₚ it :: items c0 /\ items (snd (exec (Run i shared) c)) ≡ₚ items (snd (run_item shared it c0)).
Proof.
  intros Ht Hi c0. assert (i < length (threads c))%nat as Hl by by eapply lookup_lt_Some. split.
  - unfold items. rewrite Ht. cbn [c0 todo threads with_threads app].
    pose proof (concat_insert (threads c) i (it :: rest) rest Hi) as H.
    apply (Permutation_app_inv_r rest). rewrite <- H. cbn. by rewrite Permutation_middle.
  - rewrite exec_run, Hi. cbn [snd]. fold c0. set (c' := snd (run_item shared it c0)).
    assert (threads c' !! i = Some rest) as Hr.
    { apply (acts_threads (item_effect c0 it)); [apply item_acts|]. cbn. by rewrite list_lookup_insert_eq. }
    unfold items. cbn [todo threads with_threads app]. rewrite (list_alter_insert _ _ _ rest Hr).
    apply (Permutation_app_inv_r rest). rewrite (concat_insert _ _ _ _ Hr), (assoc_L (++)). f_equiv. apply Permutation_app_comm.
Qed.

Lemma held_run P i shared it rest c : todo c = [] -> threads c !! i = Some (it :: rest) ->
  let c0 := with_threads (<[i := rest]> (threads c)) [] c in
  held P (snd (exec (Run i shared) c)) = held P (snd (run_item shared it c0)) /\
  (held P c0 + Nat.b2n (item_held P it) = held P c)%nat.
Proof.
  intros Ht Hi c0. destruct (run_items i shared it rest c Ht Hi) as [H1 H2]. fold c0 in H1, H2. split.
  - apply held_core; [| |by apply scheduled_permutation]; by rewrite exec_run, Hi.
  - unfold held. change (waiting P c0) with (waiting P c). rewrite (scheduled_permutation P _ _ H1).
    unfold scheduled at 2. cbn [List.filter]. fold (scheduled P (items c0)). destruct (item_held P it); cbn [length Nat.b2n]; unfold scheduled; lia.
Qed.

(** An invariant that the effects keep, and that depends on the items as a multiset. *)
Lemma exec_items_inv (I : futures -> Prop) o c :
  (forall c c', core c' = core c -> items c' ≡ₚ items c -> I c -> I c') ->
  todo c = [] -> I c ->
  (forall i shared it rest, o = Run i shared -> let c0 := with_threads (<[i := rest]> (threads c)) [] c in
     threads c !! i = Some (it :: rest) -> items c ≡ₚ it :: items c0 -> I c0) ->
  (forall c1 e, I c1 -> op_effect c o e -> I (apply_effect c1 e)) ->
  (forall i shared it rest c1 e, o = Run i shared -> threads c !! i = Some (it :: rest) -> it ∈ items c -> I c1 ->
     item_effect (with_threads (<[i := rest]> (threads c)) [] c) it e -> I (apply_effect c1 e)) ->
  I (snd (exec o c)).
Proof.
  intros Hcore Ht Hc Hsub Hop Hitem.
  destruct (op_run o) as [(i & shared & ->)|Ho].
  - destruct (threads c !! i) as [[|it rest]|] eqn:E; [by rewrite exec_run, E| |by rewrite exec_run, E].
    destruct (run_items i shared it rest c Ht E) as [H1 H2].
    apply (Hcore (snd (run_item shared it (with_threads (<[i := rest]> (threads c)) [] c)))); [by rewrite exec_run, E|done|].
    eapply acts_inv; [apply item_acts|by eapply Hsub|]. intros c1 e Hc1 He. eapply Hitem; [done|done| |done|done].
    rewrite H1. by left.
  - rewrite exec_other by done. destruct (possible o c); [|done]. cbn. apply (Hcore (snd (exec_op o c))); [apply start_core|apply items_start|].
    eapply acts_inv; [apply op_acts|done|done].
Qed.
End steps.

(** ** Finished futures have no waiting callbacks, others no callback to be called *)

Lemma effect_finished c e f : states_ok c -> isFinished (state_of c f) = true -> isFinished (state_of (apply_effect c e) f) = true.
Proof. intros Hok H. destruct (effect_result c e f Hok H) as (E & _). unfold isFinished in *. by rewrite E. Qed.

Lemma settled_put f s c : settled c -> (isFinished (state_of c f) = true -> isFinished s = true) ->
  (isRunning s = false -> _onResult s = []) -> settled (snd (put_state f s c)).
Proof.
  intros H H1 H2 g. rewrite state_of_put. change (items (snd _)) with (items c). change (called (snd _)) with (called c).
  destruct (H g) as [Ha Hb]. destruct (decide _) as [[-> _]|_]; [|done]. split; [done|]. intros Hs. apply Hb.
  destruct (isFinished (state_of c f)); [|done]. by rewrite H1 in Hs.
Qed.

(** What is to be called concerns finished futures. *)
Lemma settled_items c c' l : settled c -> states c' = states c -> items c' ≡ₚ items c ++ l -> called c' = called c ->
  Forall (fun i => forall f, isFinished (state_of c f) = false -> item_held (fun _ g => bool_decide (g = f)) i = false) l -> settled c'.
Proof.
  intros H E1 E2 E3 Hl f. destruct (H f) as [Ha Hb]. unfold state_of in *. rewrite E1, E3. split; [done|].
  intros Hs. destruct (Hb Hs) as [Hi Hk]. split; [|done]. intros i. rewrite E2. intros [Hin|Hin]%elem_of_app; [by apply Hi|].
  rewrite Forall_forall in Hl. by apply (Hl i).
Qed.

Lemma items_push c l : items (with_threads (threads c) (todo c ++ l) c) ≡ₚ items c ++ l.
Proof. unfold items. cbn. rewrite <- !(assoc_L (++)). f_equiv. apply Permutation_app_comm. Qed.

Lemma settled_push c l : settled c ->
  Forall (fun i => forall f, isFinished (state_of c f) = false -> item_held (fun _ g => bool_decide (g = f)) i = false) l ->
  settled (with_threads (threads c) (todo c ++ l) c).
Proof. intros H Hl. apply (settled_items c _ l); [done|done|apply items_push|done|done]. Qed.

Lemma held_callback c (b : bool) cb f : isFinished (state_of c f) = true ->
  forall g, isFinished (state_of c g) = false -> item_held (fun _ h => bool_decide (h = g)) (if b then Post cb f else Call cb f) = false.
Proof. intros H g Hg. destruct b; cbn; apply bool_decide_eq_false; intros <-; congruence. Qed.

Lemma effect_settled c e : states_ok c -> settled c -> grounded c e -> settled (apply_effect c e).
Proof.
  intros Hok H He. destruct e as [g|g oc|g t|g n|g|g v|g e|g cb t|b|i|cb g|b s|p|m n|k g|k g|k g|p n]; cbn [apply_effect grounded] in *; try done;
    try (apply settled_put; [done|done|apply H]).
  - apply settled_put; [done|..]; unfold reportStart, isFinished, isRunning; destruct (H g) as [Ha _]; unfold isRunning in Ha;
      destruct (_state (state_of c g)) eqn:E; cbn; try rewrite E; try done; intros _; by apply Ha, bool_decide_eq_false.
  - rewrite finish_eq. destruct (isRunning (state_of c g)) eqn:Er; [|done]. cbn [snd].
    set (c1 := snd (put_state _ _ _)). change (todo c) with (todo c1). change (threads c) with (threads c1).
    assert (isFinished (set_onCancel None (set_onResult [] (end_state e (state_of c g)))) = true) as Hs by by destruct e.
    apply settled_push; [by apply settled_put|]. apply Forall_map, Forall_forall. intros [cb t] _. apply held_callback.
    unfold c1. rewrite state_of_put, decide_True; [done|]. split; [done|]. by apply is_running_some.
  - rewrite connect_eq. destruct (bool_decide _) eqn:Ev; [done|]. destruct (isFinished (state_of c g)) eqn:Ef; cbn [snd].
    + apply settled_push; [done|]. repeat constructor. by apply held_callback.
    + apply settled_put; [done|by rewrite Ef|]. unfold isRunning. cbn. intros Hr. exfalso. apply bool_decide_eq_false in Ev, Hr.
      unfold isFinished in Ef. by destruct (_state (state_of c g)).
  - intros f. destruct (H f) as [Ha Hb]. unfold state_of in *. cbn. change (items (with_states _ _ c)) with (items c).
    destruct (decide (f = nstates c)) as [->|Hn]; [|by rewrite lookup_insert_ne].
    rewrite lookup_insert_eq. split; [by destruct b|]. intros _. apply Hb. by rewrite Hok.
  - change (settled (with_threads (threads c) (todo c ++ [i]) c)). apply settled_push; [done|]. repeat constructor. intros f Hf.
    destruct i; try done; cbn; apply bool_decide_eq_false; intros <-; congruence.
  - apply (settled_items c _ [Call cb g]); [done|done| |done|].
    + unfold items. cbn. rewrite concat_app. cbn. by rewrite (assoc_L (++)).
    + repeat constructor. by apply (held_callback c false).
  - intros f. destruct (H f) as [Ha Hb]. split; [done|]. intros Hs. destruct (Hb Hs) as [Hi Hk]. split; [done|].
    intros k' [Hin|Hin]%elem_of_app; [by apply (Hk k')|]. apply list_elem_of_singleton in Hin as [= -> ->]. unfold state_of in *. cbn in *. congruence.
Qed.

Lemma filter_none {A} (p : A -> bool) l : (forall x, x ∈ l -> p x = false) -> List.filter p l = [].
Proof.
  induction l as [|x l IH]; intros H; [done|]. cbn. rewrite (H x) by (by left). apply IH. intros y Hy. apply H. by right.
Qed.

(** The callbacks that wait in a future. *)
Lemma waiting_one P f c : states_ok c -> (forall cb g, g <> f -> P cb g = false) -> waiting P c = waits P (state_of c f) f.
Proof.
  intros Hok H. assert (forall g, g <> f -> waits P (state_of c g) g = 0%nat) as Hz.
  { intros g Hg. unfold waits. rewrite filter_none; [done|]. intros p _. by apply H. }
  assert (forall l, NoDup l -> sum_list_with (fun g => waits P (state_of c g) g) l = if decide (f ∈ l) then waits P (state_of c f) f else 0%nat) as Hs.
  { induction l as [|g l IH]; [done|]. intros [Hg Hl]%NoDup_cons. cbn. rewrite (IH Hl). destruct (decide (g = f)) as [->|Hn].
    - rewrite decide_False by done. rewrite decide_True by (by left). lia.
    - rewrite (Hz g Hn). apply decide_ext. rewrite elem_of_cons. naive_solver. }
  unfold waiting. rewrite Hs by apply NoDup_seq. destruct (decide _) as [|Hn]; [done|].
  unfold state_of. rewrite Hok; [done|]. rewrite elem_of_seq in Hn. lia.
Qed.

Section callbacks.
Context (continue : nat -> result FutureException value -> call_result) (convert : value -> call_result).
Notation exec := (exec continue convert).
Notation run := (run continue convert).

Lemma exec_settled o c : states_ok c -> settled c -> todo c = [] -> settled (snd (exec o c)).
Proof.
  intros Hok H Ht. set (I c1 := states_ok c1 /\ settled c1 /\ forall f, isFinished (state_of c f) = true -> isFinished (state_of c1 f) = true).
  cut (I (snd (exec o c))); [by intros (_ & ? & _)|].
  assert (forall c1 e, I c1 -> grounded c e -> I (apply_effect c1 e)) as Hstep.
  { intros c1 e (H1 & H2 & H3) He. split_and!; [by apply effect_states_ok| |intros f Hf; by apply effect_finished, H3].
    apply effect_settled; [done..|]. destruct e; try done; cbn in *; [destruct i; auto|auto..]. }
  assert (forall c1 c2 l, core c2 = core c1 -> items c1 ≡ₚ l ++ items c2 -> I c1 -> I c2) as Hsub.
  { intros c1 c2 l [= E1 E2 _ _ _ _ _ E3 _ _] El (H1 & H2 & H3). unfold I, states_ok, settled, state_of. rewrite E1, E2, E3. split_and!; [done| |done].
    intros f. destruct (H2 f) as [Ha Hb]. split; [done|]. intros Hf. destruct (Hb Hf) as [Hi Hk]. split; [|done].
    intros i Hin. apply Hi. rewrite El. apply elem_of_app. by right. }
  apply (exec_items_inv continue convert I).
  - intros c1 c2 E El. by apply (Hsub c1 c2 []).
  - done.
  - done.
  - intros i shared it rest _ c0 _ El. by apply (Hsub c c0 [it]).
  - intros c1 e H1 He. apply Hstep; [done|]. by destruct e; try done; destruct i.
  - intros i shared it rest c1 e -> Hi Hin H1 He. apply Hstep; [done|].
    assert (forall cb f, it = Call cb f \/ it = Post cb f -> isFinished (state_of c f) = true) as Hf.
    { intros cb f Hit. destruct (isFinished (state_of c f)) eqn:Ef; [done|]. destruct (H f) as [_ Hb]. destruct (Hb Ef) as [Hi' _].
      specialize (Hi' it Hin). destruct Hit; subst it; cbn in Hi'; by apply bool_decide_eq_false in Hi'. }
    destruct e; try done; cbn in He |- *; [by destruct i0|subst; eauto..].
Qed.

Lemma run_settled ops : settled (run ops futures_new).
Proof.
  induction ops as [|o ops IH] using rev_ind; [|].
  { intros f. split; [done|]. intros _. by split; [intros i ?%not_elem_of_nil|intros k ?%not_elem_of_nil]. }
  rewrite future_run_snoc.
  apply exec_settled; [apply run_states_ok|done|apply run_todo].
Qed.

(** ** Each connected function is called once *)

Lemma times_snoc k f l p : times k f (l ++ [p]) = (times k f l + Nat.b2n (bool_decide (p = (k, f))))%nat.
Proof. unfold times. rewrite List.filter_app, length_app. cbn. by destruct (bool_decide _). Qed.

Lemma effect_logs c e : (forall j g, e <> ECalled j g /\ e <> EConnected j g) -> logs (apply_effect c e) = logs c.
Proof.
  intros He. destruct e as [| | | | | |g e|g cb t| | | | | | |j g| |j g|]; try done; [| |destruct (He j g); congruence..]; cbn [apply_effect].
  - rewrite finish_eq. by destruct (isRunning _).
  - rewrite connect_eq. destruct (bool_decide _); [done|]. by destruct (isFinished _).
Qed.

Lemma acts_silent {A} k f (m : M A) c : states_ok c -> acts (silent k f) m c ->
  logs (snd (m c)) = logs c /\ held (is_client k f) (snd (m c)) = held (is_client k f) c.
Proof.
  intros Hok Ha. apply (acts_inv (fun c1 => states_ok c1 /\ logs c1 = logs c /\ held (is_client k f) c1 = held (is_client k f) c) _ _ _ Ha); [done|].
  intros c1 e (H1 & H2 & H3) [He Hn]. split_and!; [by apply effect_states_ok|by rewrite effect_logs|by rewrite effect_held].
Qed.

Lemma item_silent k f it c : (forall j g, it <> Call (CbClient j) g) -> (forall cb g, it <> Post cb g) ->
  forall e, item_effect c it e -> silent k f e.
Proof.
  intros H1 H2 e He. split; [|intros j g; split; intros ->; cbn in He; [by apply (H1 j g)|done]].
  destruct e as [| | | | | |g e|g cb t| |i|cb g| | | | | | |]; try done; cbn in *.
  - destruct He as (p & g' & _ & ->). by apply bool_decide_eq_false; intros [? _].
  - by destruct i.
  - by destruct (H2 cb g).
Qed.

Lemma op_silent k f o c : (forall j g t, o <> Connect g j t) -> forall e, op_effect c o e -> silent k f e.
Proof.
  intros H e He. split; [|intros j g; split; intros ->; cbn in He; [done|by destruct He as [t ->]; destruct (H j g t)]].
  destruct e as [| | | | | |g e|g cb t| |i|cb g| | | | | | |]; try done; cbn in *; [|by destruct i].
  destruct cb as [j| | | | | |]; try (by apply bool_decide_eq_false; intros [? _]). subst. by destruct (H j g t).
Qed.

Lemma exec_balanced_run k f i shared c : states_ok c -> todo c = [] -> balanced k f c -> balanced k f (snd (exec (Run i shared) c)).
Proof.
  intros Hok Ht Hb. destruct (threads c !! i) as [[|it rest]|] eqn:E; [by rewrite exec_run, E| |by rewrite exec_run, E].
  destruct (held_run continue convert (is_client k f) i shared it rest c Ht E) as [H1 H2]. unfold balanced in *. rewrite H1.
  assert (logs (snd (exec (Run i shared) c)) = logs (snd (run_item continue convert shared it (with_threads (<[i:=rest]> (threads c)) [] c)))) as [= -> ->] by by rewrite exec_run, E.
  clear H1. set (c0 := with_threads _ _ _) in *.
  assert ((forall j g, it <> Call (CbClient j) g) -> (forall cb g, it <> Post cb g) -> item_held (is_client k f) it = false ->
    times k f (connected (snd (run_item continue convert shared it c0))) =
    (times k f (called (snd (run_item continue convert shared it c0))) + held (is_client k f) (snd (run_item continue convert shared it c0)))%nat) as Hrest.
  { intros Hc Hp Hi. destruct (acts_silent k f (run_item continue convert shared it) c0) as [[= E1 E2] E3]; [done| |].
    - eapply acts_mono; [apply item_acts|]. by apply item_silent.
    - rewrite E1, E2, E3. rewrite Hi in H2. cbn in H2. lia. }
  destruct it as [cb g|cb g|g|j g|b|b|p n|p]; try by apply Hrest.
  - destruct cb as [j| | | | | |]; try (apply Hrest; [done|done|by apply bool_decide_eq_false; intros [? _]]).
    change (snd _) with (apply_effect c0 (ECalled j g)). cbn [apply_effect called connected with_logs]. rewrite times_snoc.
    change (held _ (with_logs _ _ _ _)) with (held (is_client k f) c0). cbn [item_held] in H2.
    rewrite (bool_decide_ext ((j, g) = (k, f)) (CbClient j = CbClient k /\ g = f)); [fold (is_client k f (CbClient j) g); change (called c0) with (called c); change (connected c0) with (connected c); lia|]. split; [intros [= -> ->]|intros [[= ->] ->]]; done.
  - change (snd _) with (apply_effect c0 (ESpawn cb g)). rewrite held_spawn. cbn [item_held] in H2. cbn [apply_effect called connected with_threads]. change (called c0) with (called c). change (connected c0) with (connected c). lia.
Qed.

Lemma connect_error f cb t c : fst (connect f cb t c) = if bool_decide (_state (state_of c f) = FutureState_None) then Err ExceptionState_FutureInvalid else Ok tt.
Proof. rewrite connect_eq. destruct (bool_decide _); [done|]. by destruct (isFinished _). Qed.

Lemma connect_balanced k f j g t c : states_ok c -> balanced k f c -> balanced k f (snd (exec_op (Connect g j t) c)).
Proof.
  intros Hok Hb. unfold balanced in *. cbn [exec_op]. unfold mbind, M_bind.
  pose proof (held_connect (is_client k f) g (CbClient j) t c Hok) as H. pose proof (connect_error g (CbClient j) t c) as He.
  pose proof (effect_logs c (EConnect g (CbClient j) t) ltac:(done)) as [= E1 E2]. cbn [apply_effect] in *.
  destruct (connect g (CbClient j) t c) as [r c1]. cbn [fst snd] in *. subst r.
  destruct (bool_decide (_state (state_of c g) = FutureState_None)); cbn [snd].
  - rewrite H, E1, E2. lia.
  - cbn. rewrite times_snoc, E1, E2. change (held _ (with_logs _ _ _ _)) with (held (is_client k f) c1). rewrite H.
    rewrite (bool_decide_ext ((j, g) = (k, f)) (CbClient j = CbClient k /\ g = f)); [fold (is_client k f (CbClient j) g); lia|]. split; [intros [= -> ->]|intros [[= ->] ->]]; done.
Qed.

Lemma exec_balanced k f o c : states_ok c -> todo c = [] -> balanced k f c -> balanced k f (snd (exec o c)).
Proof.
  intros Hok Ht Hb. destruct (op_run o) as [(i & shared & ->)|Ho]; [by apply exec_balanced_run|].
  rewrite exec_other by done. destruct (possible o c); [|done]. cbn [snd].
  assert (balanced k f (snd (exec_op o c))) as H.
  2: { unfold balanced in *. rewrite (held_core _ (snd (exec_op o c))); [| | |by apply scheduled_permutation, items_start]; unfold start_thread;
         by destruct (todo (snd (exec_op o c))). }
  assert ((exists j g t, o = Connect g j t) \/ forall j g t, o <> Connect g j t) as [(j & g & t & ->)|Hn] by (destruct o; first [by right | left; eauto]).
  - by apply connect_balanced.
  - destruct (acts_silent k f (exec_op o) c) as [[= E1 E2] E3]; [done| |by unfold balanced in *; rewrite E1, E2, E3].
    eapply acts_mono; [apply op_acts|by apply op_silent].
Qed.

Lemma run_balanced k f ops : balanced k f (run ops futures_new).
Proof.
  induction ops as [|o ops IH] using rev_ind; [done|]. rewrite future_run_snoc.
  apply exec_balanced; [apply run_states_ok|apply run_todo|done].
Qed.

Lemma connected_split k f ops : let c := run ops futures_new in
  times k f (connected c) = (times k f (called c) + scheduled (is_client k f) (items c) + waits (is_client k f) (state_of c f) f)%nat.
Proof.
  intros c. pose proof (run_balanced k f ops) as H. fold c in H. unfold balanced, held in H.
  rewrite (waiting_one _ f) in H; [lia|apply run_states_ok|]. intros cb g Hg. by apply bool_decide_eq_false; intros [_ ?].
Qed.

Lemma finished_waits P f ops : let c := run ops futures_new in isFinished (state_of c f) = true -> waits P (state_of c f) f = 0%nat.
Proof.
  intros c Hf. pose proof (run_settled ops f) as [Ha _]. fold c in Ha. unfold waits. rewrite Ha; [done|].
  unfold isFinished in Hf. by apply bool_decide_eq_false; intros E; rewrite E in Hf.
Qed.

(** C12. Every function that a client connects to a future is called exactly once: never
    before the future is finished, and when it is finished the function was called or a
    thread is about to call it. *)
Theorem callbacks_once ops k f : let c := run ops futures_new in
  times k f (connected c) = (times k f (called c) + scheduled (is_client k f) (items c) + waits (is_client k f) (state_of c f) f)%nat /\
  (isFinished (state_of c f) = false -> times k f (called c) = 0%nat /\ scheduled (is_client k f) (items c) = 0%nat) /\
  (isFinished (state_of c f) = true -> waits (is_client k f) (state_of c f) f = 0%nat).
Proof.
  intros c. split_and!; [apply connected_split| |apply finished_waits].
  intros Hf. destruct (run_settled ops f) as [_ Hb]. destruct (Hb Hf) as [Hi Hk]. unfold times, scheduled. split; rewrite filter_none; try done.
  - intros p Hp. apply bool_decide_eq_false. intros ->. by apply (Hk k).
  - intros i Hin. specialize (Hi i Hin). destruct i; try done; cbn in *; apply bool_decide_eq_false; apply bool_decide_eq_false in Hi; tauto.
Qed.
End callbacks.
