(* ===== verification/FutureDrain.v ===== *)
(** * FutureDrain: what the threads have to do comes to an end

    Each step of a thread consumes work: what it adds, when it finishes a future or
    forwards a cancellation, was counted in the states of the futures before. *)
From S2P Require Import Prelude CString Future FutureEffects FutureCallbacks.
Open Scope Z_scope.

(** ** Definitions *)

(** The work of a callback that is called, with the release of its promise. The one of
    [unwrap] sets up the cancellation and connects the one of [adaptFuture]. *)
Definition callback_work (cb : callback) : nat :=
  match cb with
  | CbClient _ => 1
  | CbThen _ _ | CbAndThen _ _ | CbAdapt _ | CbBarrier _ => 2
  | CbFirst _ _ _ => 3
  | CbForward _ => 7
  end.

Definition item_work (i : item) : nat :=
  match i with
  | Call cb _ => callback_work cb
  | Post cb _ => S (callback_work cb)
  | _ => 1
  end.

Definition cancel_work (bs : gmap nat FutureBarrier) (o : option cancel_callback) : nat :=
  match o with
  | None => 0
  | Some (CcClient _) | Some (CcFuture _) => 1
  | Some (CcBarrier b) => from_option (fun s => length (_futures s)) 0%nat (bs !! b)
  end.

Definition state_work (bs : gmap nat FutureBarrier) (s : FutureBase) : nat :=
  (sum_list_with (fun p => S (callback_work (fst p))) (_onResult s) + cancel_work bs (_onCancel s))%nat.

Definition work (c : futures) : nat :=
  (sum_list_with item_work (items c) + sum_list_with (fun f => state_work (barriers c) (state_of c f)) (seq 0 (nstates c)))%nat.

(** An operation that adds at most [n] to the work. *)
Definition costs {A} (n : nat) (m : M A) (c : futures) : Prop :=
  states_ok c -> states_ok (snd (m c)) /\ (work (snd (m c)) <= work c + n)%nat.

(** ** Rules *)

Lemma sum_permutation {A} (g : A -> nat) l l' : l ≡ₚ l' -> sum_list_with g l = sum_list_with g l'.
Proof. intros H. induction H; cbn; lia. Qed.

Lemma costs_ret {A} (a : A) c : costs 0 (mret a) c.
Proof. intros Hok. cbn. split; [done|lia]. Qed.

Lemma costs_throw {A} e c : costs (A := A) 0 (throw e) c.
Proof. intros Hok. cbn. split; [done|lia]. Qed.

Lemma costs_mono {A} n k (m : M A) c : costs n m c -> (n <= k)%nat -> costs k m c.
Proof. intros H Hn Hok. destruct (H Hok). split; [done|lia]. Qed.

Lemma costs_bind {A B} n k (m : M A) (f : A -> M B) c : costs n m c -> (forall a c', m c = (Ok a, c') -> costs k (f a) c') ->
  costs (n + k) (m ≫= f) c.
Proof.
  intros Hm Hf Hok. destruct (Hm Hok) as [H1 H2]. unfold mbind, M_bind. destruct (m c) as [[a|e] c'] eqn:E; cbn [snd] in *; [|split; [done|lia]].
  destruct (Hf a c' eq_refl H1). split; [done|lia].
Qed.

Lemma costs_get {B} n g (f : FutureBase -> M B) c : costs n (f (state_of c g)) c -> costs n (get_state g ≫= f) c.
Proof. done. Qed.

Lemma costs_get_barrier {B} n b (f : FutureBarrier -> M B) c :
  (forall s, barriers c !! b = Some s -> costs n (f s) c) -> costs n (get_barrier b ≫= f) c.
Proof.
  intros H. unfold get_barrier. unfold costs, mbind, M_bind. destruct (barriers c !! b) as [s|] eqn:E; [by apply H|]. intros Hok. cbn. split; [done|lia].
Qed.

Lemma costs_catch n k (m h : M unit) c : costs n m c -> (forall c', costs k h c') -> costs (n + k) (catch m h) c.
Proof.
  intros Hm Hh Hok. destruct (Hm Hok) as [H1 H2]. unfold catch. destruct (m c) as [[a|e] c'] eqn:E; cbn [snd] in *; [split; [done|lia]|].
  destruct (Hh c' H1). split; [done|lia].
Qed.

Lemma work_put f s c : states_ok c -> is_Some (states c !! f) ->
  (work (snd (put_state f s c)) + state_work (barriers c) (state_of c f) = work c + state_work (barriers c) s)%nat.
Proof.
  intros Hok [s0 E]. assert (f < nstates c)%nat as Hf by (destruct (decide (f < nstates c)%nat); [done|]; rewrite Hok in E; [done|lia]).
  unfold work. change (items (snd (put_state f s c))) with (items c). change (barriers (snd (put_state f s c))) with (barriers c).
  change (nstates (snd (put_state f s c))) with (nstates c).
  pose proof (sum_list_with_change (fun g => state_work (barriers c) (state_of (snd (put_state f s c)) g)) (fun g => state_work (barriers c) (state_of c g)) (nstates c) f) as H.
  cbn beta in H. rewrite (state_of_put f s f), decide_True in H by (by rewrite E). rewrite <- !Nat.add_assoc, H; [done| |done].
  intros x Hx. rewrite state_of_put, decide_False; [done|]. tauto.
Qed.

Lemma put_none f s c : states c !! f = None -> snd (put_state f s c) = c.
Proof.
  intros H. unfold put_state, modify, with_states. cbn. destruct c. cbn in *. f_equal. apply map_eq. intros g.
  destruct (decide (g = f)) as [->|]; [by rewrite lookup_alter_eq, H|by rewrite lookup_alter_ne].
Qed.

Lemma put_states_ok f s c : states_ok c -> states_ok (snd (put_state f s c)).
Proof. intros H g Hg. rewrite state_put. destruct (decide (g = f)) as [->|]; [|by apply H]. by rewrite (H f Hg). Qed.

Lemma costs_put n f s c : (state_work (barriers c) s <= state_work (barriers c) (state_of c f) + n)%nat -> costs n (put_state f s) c.
Proof.
  intros H Hok. split; [by apply put_states_ok|]. destruct (states c !! f) eqn:E; [|rewrite put_none by done; lia].
  pose proof (work_put f s c Hok ltac:(by eexists)). lia.
Qed.

Lemma work_push l c : work (with_threads (threads c) (todo c ++ l) c) = (work c + sum_list_with item_work l)%nat.
Proof.
  unfold work. rewrite (sum_permutation _ _ _ (items_push c l)), sum_list_with_app.
  change (barriers (with_threads _ _ c)) with (barriers c). change (nstates (with_threads _ _ c)) with (nstates c).
  change (state_of (with_threads (threads c) (todo c ++ l) c)) with (state_of c). lia.
Qed.

Lemma costs_push l c : costs (sum_list_with item_work l) (push l) c.
Proof. intros Hok. split; [done|]. change (snd (push l c)) with (with_threads (threads c) (todo c ++ l) c). rewrite work_push. lia. Qed.

Lemma costs_finish f e c : costs 0 (finish f (end_state e)) c.
Proof.
  intros Hok. rewrite finish_eq. destruct (isRunning (state_of c f)) eqn:Er; [|cbn; split; [done|lia]]. cbn [snd].
  set (c1 := snd (put_state _ _ _)). change (todo c) with (todo c1). change (threads c) with (threads c1).
  split; [by apply (put_states_ok f _ c)|]. rewrite work_push.
  pose proof (work_put f (set_onCancel None (set_onResult [] (end_state e (state_of c f)))) c Hok (is_running_some _ _ Er)) as H. fold c1 in H.
  change (state_work (barriers c) (set_onCancel _ _)) with 0%nat in H. unfold state_work in H.
  assert (forall l t, sum_list_with item_work (map (fun '(cb, t') => if is_async t' t then Post cb f else Call cb f) l)
    <= sum_list_with (fun p : callback * FutureCallbackType => S (callback_work (fst p))) l)%nat as Hl.
  { intros l t. induction l as [|[cb t'] l IH]; [done|]. cbn. destruct (is_async t' t); cbn; lia. }
  specialize (Hl (_onResult (state_of c f)) (_async (state_of c f))). lia.
Qed.

Lemma costs_connect f cb t c : costs (S (callback_work cb)) (connect f cb t) c.
Proof.
  intros Hok. rewrite connect_eq. destruct (bool_decide _) eqn:Ev; [cbn [snd]; split; [done|lia]|]. destruct (isFinished (state_of c f)); cbn [snd].
  - split; [done|]. rewrite work_push. destruct (is_async _ _); cbn; lia.
  - apply costs_put; [|done]. unfold state_work. cbn [_onResult _onCancel set_onResult]. rewrite sum_list_with_app. cbn. lia.
Qed.

Lemma costs_decRefcnt shared p c : costs 0 (decRefcnt shared p) c.
Proof.
  unfold decRefcnt. apply costs_get. apply (costs_bind 0 0); [apply costs_put; unfold state_work; cbn; lia|].
  intros _ c' _. destruct (_ && _); [apply (costs_finish _ (EndError _))|apply costs_ret].
Qed.

Lemma costs_unwinding {A} n p (m : M A) c : costs n m c -> costs n (unwinding p m) c.
Proof.
  intros Hm Hok. destruct (Hm Hok) as [H1 H2]. unfold unwinding. destruct (m c) as [[a|e] c'] eqn:E; cbn [snd] in *; [done|].
  destruct (costs_decRefcnt true p c' H1). split; [done|lia].
Qed.

Lemma costs_copy p c : costs 0 (copy_promise p) c.
Proof. apply costs_get, costs_put. unfold state_work. cbn. lia. Qed.

Lemma costs_setPromise p r c : costs 0 (setPromiseFromCallWithExceptionSupport p r) c.
Proof.
  unfold setPromiseFromCallWithExceptionSupport. destruct r as [v|what|].
  - apply (costs_catch 0 0); [apply (costs_finish _ (EndValue v))|]. intros c'. apply (costs_finish _ (EndError _)).
  - apply (costs_finish _ (EndError _)).
  - apply (costs_finish _ (EndError _)).
Qed.

Lemma costs_setup p g t c : costs 2 (setup p (CcFuture g) t) c.
Proof.
  unfold setup. apply costs_get. apply (costs_bind 0 2).
  { apply costs_put. unfold reportStart. destruct (_state _); unfold state_work; cbn; lia. }
  intros _ c1 _. apply (costs_bind 2 0).
  - unfold setOnCancel. apply costs_get. apply (costs_bind 1 1); [apply costs_put; unfold state_work; cbn; lia|].
    intros _ c2 _. destruct (_cancelRequested _); [apply (costs_push [Cancel p])|]. apply (costs_mono 0); [apply costs_ret|lia].
  - intros _ c2 _. apply costs_get, costs_put. unfold state_work. cbn. lia.
Qed.

Lemma costs_adapt f p c : costs 5 (adaptFuture f p true) c.
Proof.
  unfold adaptFuture. apply (costs_bind 2 3); [apply costs_setup|]. intros _ c1 _.
  apply (costs_bind 0 3); [apply costs_copy|]. intros _ c2 _. apply costs_unwinding, costs_connect.
Qed.

(** A barrier keeps its futures. *)
Lemma costs_put_barrier b s s' c : barriers c !! b = Some s -> _futures s' = _futures s -> costs 0 (put_barrier b s') c.
Proof.
  intros Hb H Hok. split; [done|]. assert (forall st, state_work (alter (fun _ => s') b (barriers c)) st = state_work (barriers c) st) as Hs.
  { intros st. unfold state_work. f_equal. destruct (_onCancel st) as [[| |b']|]; try done. cbn.
    destruct (decide (b' = b)) as [->|]; [by rewrite lookup_alter_eq, Hb; cbn; rewrite H|by rewrite lookup_alter_ne]. }
  unfold work. cbn [snd put_barrier modify]. change (items (with_barriers _ _ c)) with (items c). cbn [barriers nstates with_barriers].
  rewrite (sum_list_with_ext _ (fun f => state_work (barriers c) (state_of c f)) (seq 0 (nstates c))); [lia|]. intros f _. apply Hs.
Qed.

Lemma costs_barrier_set b c : costs 0 (barrier_set b) c.
Proof.
  unfold barrier_set. apply costs_get_barrier. intros s Hs. apply (costs_bind 0 0); [by apply (costs_put_barrier _ s)|].
  intros _ c' _. destruct (_set _); [apply costs_ret|]. apply (costs_finish _ (EndValue _)).
Qed.

Lemma costs_new_state c : costs 0 (new_state (reportStart FutureBase_new)) c.
Proof.
  intros Hok. unfold new_state. cbn [snd]. split; [intros f Hf; cbn in *; rewrite lookup_insert_ne by lia; apply Hok; lia|].
  unfold work. cbn [nstates with_states barriers]. rewrite seq_S, sum_list_with_app. cbn [sum_list_with Nat.add].
  change (items (with_states _ _ _)) with (items c). unfold state_of at 2. cbn [states with_states]. rewrite lookup_insert_eq.
  rewrite (sum_list_with_ext _ (fun f => state_work (barriers c) (state_of c f))); [cbn; lia|].
  intros g Hg%elem_of_seq. unfold state_of. cbn. by rewrite lookup_insert_ne by lia.
Qed.

Lemma costs_promise_new t c : costs 0 (Promise_new t) c.
Proof.
  unfold Promise_new. apply (costs_bind 0 0); [apply costs_new_state|]. intros p c1 _. apply costs_get.
  apply (costs_bind 0 0); [apply costs_put; unfold state_work; cbn; lia|intros; apply costs_ret].
Qed.

Lemma costs_make_error message c : costs 0 (makeFutureError message) c.
Proof.
  unfold makeFutureError. apply (costs_bind 0 0); [apply costs_promise_new|]. intros p c1 _.
  apply (costs_bind 0 0); [apply (costs_finish _ (EndError _))|]. intros _ c2 _.
  apply (costs_bind 0 0); [apply costs_decRefcnt|]. intros; apply costs_ret.
Qed.

(** ** The steps of threads *)

Section steps.
Context (continue : nat -> result FutureException value -> call_result) (convert : value -> call_result).
Notation exec := (exec continue convert).
Notation run := (run continue convert).

(** What a branch ends with. *)
Ltac cost_end :=
  lazymatch goal with
  | |- costs _ (adaptFuture _ _ _) _ => apply costs_adapt
  | |- costs _ (setPromiseFromCallWithExceptionSupport _ _) _ => apply costs_setPromise
  | |- costs _ (mret _) _ => eapply (costs_mono 0); [apply costs_ret|lia]
  | |- costs _ (throw _) _ => eapply (costs_mono 0); [apply costs_throw|lia]
  | |- costs _ (setCanceled _) _ => eapply (costs_mono 0); [apply (costs_finish _ EndCanceled)|lia]
  | |- costs _ (setError _ _) _ => eapply (costs_mono 0); [apply (costs_finish _ (EndError _))|lia]
  | |- costs _ (setValue _ _) _ => eapply (costs_mono 0); [apply (costs_finish _ (EndValue _))|lia]
  | |- costs _ (trigger _) _ => eapply (costs_mono 0); [apply (costs_finish _ EndTrigger)|lia]
  | |- costs _ (push [?i]) _ => apply (costs_push [i])
  | |- costs _ (barrier_set _) _ => apply costs_barrier_set
  end.

(** A callback, without the release of its promise. *)
Lemma costs_callback cb f c : costs (callback_work cb - (if promise_of cb is Some _ then 2 else 1)) (run_callback continue convert cb f) c.
Proof.
  unfold run_callback. apply costs_get. set (s := state_of c f). destruct cb as [k|p k|p k|p|p|b|p g n]; cbn [promise_of callback_work Nat.sub].
  - intros Hok. split; [done|]. unfold work. cbn. unfold items, state_of. cbn. lia.
  - apply costs_setPromise.
  - destruct (_state s); try (apply costs_get; destruct (_cancelRequested _)); cost_end.
  - destruct (_state s); try (destruct (_value s) as [v|g|l]); cost_end.
  - unfold futureAdapter. destruct (_state s); try (destruct (convert (_value s)) as [v|what|]); try cost_end.
    all: apply costs_get, (costs_bind 0 0); [apply costs_put; unfold state_work; cbn; lia|intros _ c' _; cost_end].
  - apply costs_get_barrier. intros t Ht. apply (costs_bind 0 1); [by apply (costs_put_barrier _ t)|]. intros _ c' _.
    destruct (_ =? 0); cost_end.
  - apply costs_get, (costs_bind 0 1).
    + destruct (_ && _); [|cost_end]. apply (costs_catch 0 0); intros; cost_end.
    + intros _ c' _. cost_end.
Qed.

Lemma costs_release cb c : costs (if promise_of cb is Some _ then 1 else 0) (match promise_of cb with Some p => push [Release p] | None => mret tt end) c.
Proof. destruct (promise_of cb) as [p|]; [apply (costs_push [Release p])|apply costs_ret]. Qed.

(** An item is not more than its work. *)
Lemma costs_item shared it c : (forall f, it <> Cancel f) -> (forall cb f, it <> Post cb f) ->
  costs (item_work it - 1) (run_item continue convert shared it) c.
Proof.
  intros H1 H2. destruct it as [cb f|cb f|f|k f|b|b|p n|p]; cbn [run_item item_work Nat.sub]; [|by destruct (H2 cb f)|by destruct (H1 f)|..].
  - apply (costs_mono ((callback_work cb - (if promise_of cb is Some _ then 2 else 1)) + 0 + (if promise_of cb is Some _ then 1 else 0))); [|by destruct cb].
    apply costs_bind; [apply costs_catch; [apply costs_callback|intros; apply costs_ret]|]. intros _ c' _. apply costs_release.
  - intros Hok. split; [done|]. unfold work. cbn. unfold items, state_of. cbn. lia.
  - apply costs_get_barrier. intros s _. destruct (_closed _); cost_end.
  - apply costs_get_barrier. intros s _. destruct (_ =? 0); cost_end.
  - apply (costs_bind 0 0); [intros Hok; split; [done|]; unfold work, items, state_of; cbn; lia|]. intros _ c1 _.
    apply (costs_bind 0 0); [intros Hok; split; [done|cbn; lia]|]. intros m c2 _. apply costs_get. destruct (_ && _); [|cost_end].
    apply (costs_bind 0 0); [apply costs_make_error|]. intros e c3 _. apply (costs_catch 0 0); intros; cost_end.
  - apply costs_decRefcnt.
Qed.

(** A cancellation only consumes what was registered for it. *)
Lemma cancel_costs shared f c : costs 0 (run_item continue convert shared (Cancel f)) c.
Proof.
  cbn [run_item]. apply costs_get. destruct (isFinished (state_of c f)); [apply costs_ret|]. intros Hok. unfold mbind, M_bind.
  destruct (states c !! f) as [s|] eqn:E.
  - pose proof (work_put f (set_onCancel None (requestCancel (state_of c f))) c Hok ltac:(by eexists)) as H.
    pose proof (put_states_ok f (set_onCancel None (requestCancel (state_of c f))) c Hok) as Hs.
    assert (exists c1, put_state f (set_onCancel None (requestCancel (state_of c f))) c = (Ok tt, c1)) as [c1 E1] by by eexists.
    rewrite E1 in *. cbn [snd] in *. unfold state_work in H at 1 2. cbn [_onResult _onCancel set_onCancel requestCancel cancel_work] in H.
    assert (barriers c1 = barriers c) as Eb by (injection E1 as <-; done).
    destruct (_onCancel (state_of c f)) as [[k|g|b]|]; cbn [cancel_work] in H.
    + destruct (costs_push [CallCancel k f] c1 Hs) as [H1 H2]. cbn in H2. split; [done|]. cbn in *. lia.
    + destruct (costs_push [Cancel g] c1 Hs) as [H1 H2]. split; [done|]. cbn in *. lia.
    + unfold get_barrier. rewrite Eb. destruct (barriers c !! b) as [s'|]; [|cbn; split; [done|]; change (work c1 <= work c + 0)%nat; lia].
      cbn [from_option] in H. set (l := _futures _) in *. destruct (costs_push (map Cancel l) c1 Hs) as [H1 H2]. split; [done|].
      assert (sum_list_with item_work (map Cancel l) = length l) as El by (clear; induction l as [|x l IH]; [done|cbn; by rewrite IH]). lia.
    + cbn. split; [done|lia].
  - set (s := set_onCancel None (requestCancel (state_of c f))).
    assert (put_state f s c = (Ok tt, c)) as -> by (change (put_state f s c) with (Ok (E := FutureException) tt, snd (put_state f s c)); by rewrite put_none).
    assert (_onCancel (state_of c f) = None) as -> by (unfold state_of; by rewrite E). split; [done|]. change (work c <= work c + 0)%nat. lia.
Qed.

Lemma run_work i shared it rest c : states_ok c -> todo c = [] -> threads c !! i = Some (it :: rest) ->
  (work (snd (exec (Run i shared) c)) < work c)%nat.
Proof.
  intros Hok Ht Hi. destruct (run_items continue convert i shared it rest c Ht Hi) as [H1 H2]. set (c0 := with_threads _ _ _) in *.
  assert (work c = work c0 + item_work it)%nat as Hc.
  { unfold work. rewrite (sum_permutation _ _ _ H1). cbn [sum_list_with]. change (barriers c0) with (barriers c). change (nstates c0) with (nstates c).
    change (state_of c0) with (state_of c). lia. }
  assert (work (snd (exec (Run i shared) c)) = work (snd (run_item continue convert shared it c0))) as ->.
  { unfold work. rewrite (sum_permutation _ _ _ H2). unfold state_of. by rewrite exec_run, Hi. }
  assert (states_ok c0) as Hok0 by done. assert ((1 <= item_work it)%nat) as Hw by (destruct it as [[]| | | | | | |]; cbn; lia).
  assert ((exists f, it = Cancel f) \/ (exists cb f, it = Post cb f) \/ (forall f, it <> Cancel f) /\ (forall cb f, it <> Post cb f)) as [[f ->]|[(cb & f & ->)|[Hn1 Hn2]]]
    by (destruct it; first [by left; eauto|by right; left; eauto|by right; right]).
  - destruct (cancel_costs shared f c0 Hok0). lia.
  - cbn [run_item modify snd]. unfold work at 1. unfold items. cbn [threads todo with_threads barriers nstates].
    rewrite concat_app, (assoc_L (++)), sum_list_with_app. fold (items c0). cbn [item_work] in Hc.
    change (state_of (with_threads _ _ c0)) with (state_of c0). change (sum_list_with item_work (concat [[Call cb f]])) with (callback_work cb + 0)%nat.
    rewrite Hc. unfold work. lia.
  - destruct (costs_item shared it c0 Hn1 Hn2 Hok0). lia.
Qed.

(** Steps of threads that have something to do. *)
Fixpoint busy (steps : list (nat * bool)) (c : futures) : bool :=
  match steps with
  | [] => true
  | (i, shared) :: steps' =>
      match threads c !! i with
      | Some (_ :: _) => busy steps' (snd (exec (Run i shared) c))
      | _ => false
      end
  end.

Lemma busy_bound steps c : states_ok c -> todo c = [] -> busy steps c = true -> (length steps <= work c)%nat.
Proof.
  revert c. induction steps as [|[i shared] steps IH]; intros c Hok Ht; cbn [busy length]; [lia|].
  destruct (threads c !! i) as [[|it rest]|] eqn:E; [done| |done]. intros Hb.
  pose proof (run_work i shared it rest c Hok Ht E). specialize (IH _ (exec_states_ok _ _ _ _ Hok) (exec_todo _ _ _ _ Ht) Hb). lia.
Qed.

Lemma idle_or_busy c : todo c = [] -> items c = [] \/ exists i it rest, threads c !! i = Some (it :: rest).
Proof.
  intros Ht. unfold items. rewrite Ht. cbn. induction (threads c) as [|t l IH]; [by left|]. destruct t as [|it rest].
  - destruct IH as [E|(i & it & rest & E)]; [by left|right; by exists (S i), it, rest].
  - right. by exists 0%nat, it, rest.
Qed.

Lemma busy_ends c : states_ok c -> todo c = [] ->
  exists steps, busy steps c = true /\ items (run (map (fun '(i, shared) => Run i shared) steps) c) = [].
Proof.
  remember (work c) as n eqn:En. revert c En. induction n as [n IH] using lt_wf_ind. intros c -> Hok Ht.
  destruct (idle_or_busy c Ht) as [E|(i & it & rest & E)]; [by exists []|].
  destruct (IH _ (run_work i true it rest c Hok Ht E) (snd (exec (Run i true) c)) eq_refl) as (steps & H1 & H2);
    [by apply exec_states_ok|by apply exec_todo|].
  exists ((i, true) :: steps). split; [cbn [busy]; by rewrite E|done].
Qed.

(** What the threads have to do comes to an end, whatever their order: they take at most
    [work c] steps, and when nothing is left, every function that was connected to a
    finished future was called as often as it was connected. *)
Theorem callbacks_drain ops : let c := run ops futures_new in
  (forall steps, busy steps c = true -> (length steps <= work c)%nat) /\
  exists steps, busy steps c = true /\
    let c' := run (map (fun '(i, shared) => Run i shared) steps) c in
    items c' = [] /\ forall k f, isFinished (state_of c' f) = true -> times k f (called c') = times k f (connected c').
Proof.
  intros c. assert (states_ok c /\ todo c = []) as [Hok Ht] by (split; [apply run_states_ok|apply run_todo]).
  split; [intros steps; by apply busy_bound|]. destruct (busy_ends c Hok Ht) as (steps & H1 & H2). exists steps. split; [done|].
  intros c'. change (items c' = []) in H2. split; [done|]. intros k f Hf.
  assert (c' = run (ops ++ map (fun '(i, shared) => Run i shared) steps) futures_new) as Ec by (unfold c', c, Future.run; by rewrite foldl_app).
  pose proof (connected_split continue convert k f (ops ++ map (fun '(i, shared) => Run i shared) steps)) as H.
  pose proof (finished_waits continue convert (is_client k f) f (ops ++ map (fun '(i, shared) => Run i shared) steps)) as Hw.
  rewrite <- Ec in *. rewrite H, (Hw Hf), H2. change (scheduled _ []) with 0%nat. lia.
Qed.
End steps.
