(* ===== verification/FutureThen.v ===== *)
(** * FutureThen: what [then] and [andThen] give

    The promise of a combinator belongs to one callback, which waits in the future or
    is about to be called, until it gives the promise the result of the continuation. *)
From S2P Require Import Prelude CString Future FutureEffects FutureCallbacks.
Open Scope Z_scope.

(** ** Definitions *)

(** The callbacks with the promise [p], and those other than [cb] on [f]. *)
Definition mentions (p : nat) (cb : callback) (g : nat) : bool := bool_decide (promise_of cb = Some p).
Definition is_callback (cb : callback) (f : nat) (cb' : callback) (g : nat) : bool := bool_decide (cb' = cb /\ g = f).
Definition alien (p : nat) (cb : callback) (f : nat) (cb' : callback) (g : nat) : bool :=
  mentions p cb' g && negb (is_callback cb f cb' g).

(** Nothing else uses the promise [p] than callbacks for which [P] does not hold. *)
Record unused (P : callback -> nat -> bool) (p : nat) (c : futures) : Prop := {
  unused_handles : default 0%nat (handles c !! p) = 0%nat;
  unused_barriers : forall b s, barriers c !! b = Some s -> _promise s <> p;
  unused_first : forall n, FirstCount p n ∉ items c;
  unused_held : held P c = 0%nat;
}.

(** The effects that do not concern [p]; one that is finished can be released. *)
Definition foreign (running : bool) (p : nat) (e : effect) : Prop :=
  match e with
  | EWrite q _ | ENewBarrier q | EHandles q _ => q <> p
  | EFinish q _ => running = true -> q <> p
  | EConnect _ cb _ | ESpawn cb _ => promise_of cb <> Some p
  | EPush (Call cb _) | EPush (Post cb _) => promise_of cb <> Some p
  | EPush (FirstCount q _) => q <> p
  | EPush (Release q) => running = true -> q <> p
  | _ => True
  end.

(** ** Foreign effects *)

Lemma foreign_neutral P running p e : (forall cb g, P cb g = true -> promise_of cb = Some p) -> foreign running p e -> neutral P e.
Proof.
  intros HP He. assert (forall cb g, promise_of cb <> Some p -> P cb g = false) as H.
  { intros cb g Hn. destruct (P cb g) eqn:E; [|done]. by apply HP in E. }
  destruct e as [| | | | | | | | |i| | | | | | | |]; try done; cbn in *; [by apply H| |by apply H]. destruct i; try done; by apply H.
Qed.

(** The items that an effect adds. *)
Lemma effect_items c e i : i ∈ items (apply_effect c e) -> i ∈ items c \/ e = EPush i \/ exists cb f, i = Call cb f \/ i = Post cb f.
Proof.
  assert (forall l, i ∈ items (with_threads (threads c) (todo c ++ l) c) -> i ∈ items c \/ i ∈ l) as Hpush.
  { intros l. rewrite items_push. by intros [?|?]%elem_of_app; [left|right]. }
  destruct e as [| | | | | |g e|g cb t| |j|cb g| | | | | | |]; cbn [apply_effect]; try (by intros H; left).
  - rewrite finish_eq. destruct (isRunning _); cbn [snd]; [|by left]. intros [H|H]%Hpush; [by left|]. right; right.
    apply list_elem_of_fmap in H as ([cb t] & -> & _). destruct (is_async _ _); eauto.
  - rewrite connect_eq. destruct (bool_decide _); [by left|]. destruct (isFinished _); cbn [snd]; [|by left].
    intros [H|H]%Hpush; [by left|]. right; right. apply list_elem_of_singleton in H as ->. destruct (is_async _ _); eauto.
  - intros [H|H]%(Hpush [j]); [by left|]. apply list_elem_of_singleton in H as ->. by right; left.
  - unfold items. cbn. rewrite concat_app. cbn. rewrite (assoc_L (++)). intros [H|H]%elem_of_app; [by left|].
    apply list_elem_of_singleton in H as ->. right; right; eauto.
Qed.

Lemma effect_unused P running p c e : states_ok c -> (forall cb g, P cb g = true -> promise_of cb = Some p) ->
  unused P p c -> foreign running p e -> unused P p (apply_effect c e).
Proof.
  intros Hok HP [H1 H2 H3 H4] He. split.
  - destruct e as [| | | | | |g e|g cb t| | | | | | | | | |q n]; try done; cbn [apply_effect].
    + rewrite finish_eq. by destruct (isRunning _).
    + rewrite connect_eq. destruct (bool_decide _); [done|]. by destruct (isFinished _).
    + cbn in *. by rewrite lookup_insert_ne.
  - destruct e as [| | | | | |g e|g cb t| | | |b cl st n l|q| | | | |]; try done; cbn [apply_effect].
    + rewrite finish_eq. by destruct (isRunning _).
    + rewrite connect_eq. destruct (bool_decide _); [done|]. by destruct (isFinished _).
    + cbn. intros b' s. destruct (decide (b' = b)) as [->|Hn]; [|rewrite lookup_alter_ne by done; apply H2].
      rewrite lookup_alter_eq. destruct (barriers c !! b) as [s'|] eqn:E; [|done]. cbn. intros [= <-]. exact (H2 b s' E).
    + cbn. intros b' s. destruct (decide (b' = nbarriers c)) as [->|Hn]; [|rewrite lookup_insert_ne by done; apply H2].
      rewrite lookup_insert_eq. by intros [= <-].
  - intros n Hn. apply effect_items in Hn as [Hn|[->|(cb & f & [Hn|Hn])]]; [by apply (H3 n)|done|done|done].
  - rewrite effect_held; [done|done|]. by eapply foreign_neutral.
Qed.

Lemma effect_released p c e : Release p ∉ items c -> e <> EPush (Release p) -> Release p ∉ items (apply_effect c e).
Proof. intros H He Hin. by apply effect_items in Hin as [Hin|[->|(cb & f & [Hn|Hn])]]. Qed.

(** The result of [p]. *)
Lemma effect_running p c e : states_ok c -> isRunning (state_of c p) = true -> foreign true p e -> isRunning (state_of (apply_effect c e) p) = true.
Proof.
  intros Hok Hr He. assert (is_Some (states c !! p)) as Hs by by apply is_running_some.
  assert (forall g s, (g = p -> _state s = _state (state_of c p)) -> isRunning (state_of (snd (put_state g s c)) p) = true) as Hput.
  { intros g s Hg. rewrite state_of_put. destruct (decide _) as [[<- _]|_]; [|done]. unfold isRunning in *. by rewrite Hg. }
  destruct e as [g|g oc|g t|g n|g|g v|g e|g cb t|b|i|cb g|b cl st n l|q|m n|k g|k g|k g|q n]; cbn [apply_effect]; try done; try (apply Hput; by intros ->).
  - apply Hput. intros ->. unfold isRunning in Hr. apply bool_decide_eq_true in Hr. unfold reportStart. by rewrite Hr.
  - rewrite finish_eq. destruct (isRunning (state_of c g)); [|done]. apply Hput. intros ->. by destruct He.
  - rewrite connect_eq. destruct (bool_decide _); [done|]. destruct (isFinished _); [done|]. apply Hput. by intros ->.
  - unfold state_of. cbn. rewrite lookup_insert_ne; [done|]. intros <-. destruct Hs as [s Hs]. by rewrite Hok in Hs.
Qed.

Lemma effect_value p c e : states_ok c -> isFinished (state_of c p) = true -> foreign false p e ->
  isFinished (state_of (apply_effect c e) p) = true /\ value_of (state_of (apply_effect c e) p) = value_of (state_of c p).
Proof.
  intros Hok Hf He. destruct (effect_result c e p Hok Hf) as (H1 & H2 & H3). split; [by apply effect_finished|].
  unfold value_of. rewrite H1, H2, H3; [done|]. intros v ->. by cbn in He.
Qed.

(** ** Steps that do not concern [p] *)

(** What an item has to do with [p]. *)
Definition item_foreign (running : bool) (p : nat) (it : item) : Prop :=
  match it with
  | Call cb _ | Post cb _ => promise_of cb <> Some p
  | FirstCount q _ => q <> p
  | Release q => running = true -> q <> p
  | _ => True
  end.

Lemma item_effect_foreign running p c it : (forall b s, barriers c !! b = Some s -> _promise s <> p) -> (running = true -> p < nstates c)%nat ->
  item_foreign running p it -> forall e, item_effect c it e -> foreign running p e.
Proof.
  intros Hb Hp Hi e He. destruct e as [| | | | |q v|q e|g cb t| |i|cb g| |q| | | | |q n]; try done; cbn in *.
  - destruct He as [f ->]. cbn in Hi. congruence.
  - intros Hr. destruct He as [He|He]; [|specialize (Hp Hr); lia]. destruct it as [cb f|cb f| | |b|b|q' n|q']; cbn in *; try done; try congruence.
    + destruct He as (s & Hs & ->). by eapply Hb.
    + destruct He as (s & Hs & ->). by eapply Hb.
    + subst. by apply Hi.
  - destruct He as (q & f & -> & ->). done.
  - destruct i; try done.
    + destruct He as (g & f & ->). cbn in Hi. congruence.
    + destruct He as (cb & f & -> & H). cbn in Hi. congruence.
  - by subst.
Qed.

Lemma op_effect_foreign running p c o : possible o c = true -> default 0%nat (handles c !! p) = 0%nat ->
  (p < nstates c)%nat \/ (op_creates o = true -> (nstates c < p)%nat) /\ running = false ->
  forall e, op_effect c o e -> foreign running p e.
Proof.
  intros Hpos Hh Hp. assert (op_promise o <> Some p) as Ho.
  { assert (owns p c = false) as Hn by (unfold owns; by rewrite Hh). destruct o; try done; cbn in *; intros [= ->]; rewrite Hn in Hpos; try done.
    by rewrite andb_false_r in Hpos. }
  intros e He. assert (op_creates o = true /\ p = nstates c -> False) as Hcr by (destruct Hp as [|[Hp _]]; intros [Hc ->]; [lia|specialize (Hp Hc); lia]).
  destruct e as [| | | | |q v|q e|g cb t| |i|cb g| |q| | | | |q n]; try done; cbn in *.
  - subst. cbn in Ho. congruence.
  - intros Hr ->. destruct He as [He|He]; [by rewrite He in Ho|]. destruct Hp as [Hp|[_ Hp]]; [lia|congruence].
  - destruct cb; cbn; intros [= ->]; first [by rewrite He in Ho|by apply Hcr].
  - destruct i; try done.
  - intros ->. by apply Hcr.
  - intros ->. destruct He as [He|He]; [by rewrite He in Ho|by apply Hcr].
Qed.

(** ** The promises of a new state are new *)

Definition fresh (c : futures) : Prop := forall p, (nstates c <= p)%nat -> unused (mentions p) p c /\ Release p ∉ items c.

Lemma effect_nstates c e : (nstates c <= nstates (apply_effect c e))%nat.
Proof.
  destruct e as [| | | | | |g e|g cb t| | | | | | | | | |]; cbn [apply_effect]; try done; try (cbn; lia).
  - rewrite finish_eq. by destruct (isRunning _).
  - rewrite connect_eq. destruct (bool_decide _); [done|]. by destruct (isFinished _).
Qed.

Lemma acts_nstates {A} P (m : M A) c : acts P m c -> (nstates c <= nstates (snd (m c)))%nat.
Proof.
  intros Ha. apply (acts_inv (fun c1 => nstates c <= nstates c1)%nat P m c Ha); [lia|]. intros c1 e H1 _. pose proof (effect_nstates c1 e). lia.
Qed.

Lemma more_bind {A B} (m : M A) (f : A -> M B) c a c1 : m c = (Ok a, c1) -> nstates c1 = S (nstates c) ->
  acts (fun _ => True) (f a) c1 -> (nstates c < nstates (snd ((m ≫= f) c)))%nat.
Proof. intros Hm Hn Ha. unfold mbind, M_bind. rewrite Hm. pose proof (acts_nstates _ _ _ Ha). lia. Qed.

(** The states that are made. *)
Lemma promise_new_eq t c : Promise_new t c =
  (Ok (nstates c), with_states (<[nstates c := mkFuture FutureState_Running [] (VClient 0) false [] None t 1]> (states c)) (S (nstates c)) c).
Proof. unfold Promise_new, mbind, M_bind. cbn. simpl_states. unfold with_states. cbn. by simpl_states. Qed.

Lemma new_cancel_eq oc t c : Promise_new_cancel oc t c =
  (Ok (nstates c), with_states (<[nstates c := mkFuture FutureState_Running [] (VClient 0) false [] (Some oc) t 1]> (states c)) (S (nstates c)) c).
Proof.
  unfold Promise_new_cancel, setup, setOnCancel, copy_promise, mbind, M_bind. cbn. repeat (progress simpl_states; unfold with_states; cbn). done.
Qed.

Lemma barrier_make_more t c : exists c1, FutureBarrier_make t c = (Ok (nbarriers c), c1) /\ nstates c1 = S (nstates c).
Proof.
  unfold FutureBarrier_make. unfold mbind, M_bind. rewrite promise_new_eq. unfold setOnCancel, mbind, M_bind. cbn. simpl_states. by eexists.
Qed.

Lemma then_more (cb : nat -> callback) f t c :
  (nstates c < nstates (snd ((p ← Promise_new_cancel (CcFuture f) FutureCallbackType_Auto ; unwinding p (connect f (cb p) t) ;; mret p) c)))%nat.
Proof.
  eapply more_bind; [apply new_cancel_eq|done|].
  apply acts_bind; [by apply acts_unwinding; [apply acts_connect|..]|intros; apply acts_ret].
Qed.

Lemma bind_ret {A B} (m : M A) (g : A -> B) c : snd ((a ← m ; mret (g a)) c) = snd (m c).
Proof. unfold mbind, M_bind. by destruct (m c) as [[a|e] c']. Qed.

Lemma creates_more o c : op_creates o = true -> (nstates c < nstates (snd (exec_op o c)))%nat.
Proof.
  destruct o as [| | |t|k t| | | | | | | | | | |f k t a|f k t a|f| |t| | |l|l|]; try done; intros _; cbn [exec_op]; rewrite ?bind_ret.
  - eapply more_bind; [apply promise_new_eq|done|]. apply acts_bind; [by apply (acts_one _ _ _ (EHandles (nstates c) 1))|intros; apply acts_ret].
  - eapply more_bind; [apply new_cancel_eq|done|]. apply acts_bind; [by apply (acts_one _ _ _ (EHandles (nstates c) 1))|intros; apply acts_ret].
  - apply (then_more (fun p => CbThen p k)).
  - apply (then_more (fun p => CbAndThen p k)).
  - apply (then_more CbForward).
  - destruct (barrier_make_more t c) as (c1 & H1 & H2). rewrite H1. cbn. lia.
  - destruct (barrier_make_more FutureCallbackType_Async c) as (c1 & H1 & H2). unfold waitForAll. eapply more_bind; [done..|].
    apply acts_bind; [apply for_each_acts; intros; by apply addFuture_acts|]. intros. by apply barrier_future_acts.
  - unfold waitForFirst. eapply more_bind; [apply promise_new_eq|done|].
    apply acts_bind; [by apply (acts_one _ _ _ (ECounts (<[ncounts c := Z.of_nat (length l)]> (counts c)) (S (ncounts c))))|].
    intros n c1 _. apply acts_bind; [apply acts_unwinding; [by apply first_loop_acts|done..]|]. intros _ c2 _.
    apply acts_bind; [by apply decRefcnt_acts|intros; apply acts_ret].
Qed.

Lemma held_item P c it : held P c = 0%nat -> it ∈ items c -> item_held P it = false.
Proof.
  intros H Hin. unfold held, scheduled in H. destruct (item_held P it) eqn:E; [|done].
  assert (it ∈ List.filter (item_held P) (items c)) as Hf by (apply list_elem_of_In, filter_In; split; [by apply list_elem_of_In|done]).
  destruct (List.filter (item_held P) (items c)); [by apply not_elem_of_nil in Hf|cbn in H; lia].
Qed.

Lemma unused_item P running p c it : unused P p c -> it ∈ items c ->
  (forall cb g, it = Call cb g \/ it = Post cb g -> mentions p cb g = true -> P cb g = true) -> (running = true -> Release p ∉ items c) ->
  item_foreign running p it.
Proof.
  intros [_ _ H3 H4] Hin HP Hr. pose proof (held_item P c it H4 Hin) as Hn.
  destruct it as [cb f|cb f| | | | |q n|q]; try done; cbn in *.
  - intros E. rewrite HP in Hn; [done|by left|by apply bool_decide_eq_true].
  - intros E. rewrite HP in Hn; [done|by right|by apply bool_decide_eq_true].
  - intros ->. by apply (H3 n).
  - intros Er ->. by apply Hr.
Qed.

Section fresh.
Context (continue : nat -> result FutureException value -> call_result) (convert : value -> call_result).
Notation exec := (exec continue convert).
Notation run := (run continue convert).

Lemma exec_nstates o c : (nstates c <= nstates (snd (exec o c)))%nat.
Proof.
  apply (exec_core_inv continue convert (fun c1 => nstates c <= nstates c1)%nat); [intros c1 c2 [= _ -> _]; done|done|..];
    intros; pose proof (effect_nstates c1 e); lia.
Qed.

(** [unused] depends on the items as a multiset. *)
Lemma unused_core P p c c' l : core c' = core c -> items c ≡ₚ l ++ items c' -> unused P p c -> unused P p c'.
Proof.
  intros [= E1 E2 E3 E4 _ _ _ _ _ _] El [H1 H2 H3 H4]. split; [by rewrite E3|by rewrite E4|..].
  - intros n Hin. apply (H3 n). rewrite El. apply elem_of_app. by right.
  - assert (scheduled P (items c) = scheduled P l + scheduled P (items c'))%nat as Es by by rewrite (scheduled_permutation P _ _ El), scheduled_app.
    unfold held in *. replace (waiting P c') with (waiting P c); [lia|]. unfold waiting, state_of. by rewrite E1, E2.
Qed.

Lemma exec_fresh o c : states_ok c -> todo c = [] -> fresh c -> fresh (snd (exec o c)).
Proof.
  intros Hok Ht H p Hp. pose proof (exec_nstates o c) as Hn. assert (nstates c <= p)%nat as Hp0 by lia. destruct (H p Hp0) as [Hu Hr].
  set (I c1 := states_ok c1 /\ unused (mentions p) p c1 /\ Release p ∉ items c1). cut (I (snd (exec o c))); [by intros (_ & ?)|].
  assert (forall c1 e, I c1 -> foreign false p e -> e <> EPush (Release p) -> I (apply_effect c1 e)) as Hstep.
  { intros c1 e (H1 & H2 & H3) He Hr'. split; [by apply effect_states_ok|]. split; [|by apply effect_released].
    eapply effect_unused; [done| |done|done]. by intros cb g ?%bool_decide_eq_true. }
  assert (forall c1 c2 l, core c2 = core c1 -> items c1 ≡ₚ l ++ items c2 -> I c1 -> I c2) as Hcore.
  { intros c1 c2 l E El (H1 & H2 & H3). pose proof E as [= E1 E2 _ _ _ _ _ _ _ _]. split; [intros f Hf; rewrite E1; apply H1; by rewrite <- E2|].
    split; [by eapply unused_core|]. intros Hin. apply H3. rewrite El. apply elem_of_app. by right. }
  destruct (possible o c) eqn:Hpos; [|unfold Future.exec; by rewrite Hpos].
  apply (exec_items_inv continue convert I); [intros c1 c2 E El; by apply (Hcore c1 c2 [])|done|done|intros i shared it rest _ c0 _ El; by apply (Hcore c c0 [it])|..].
  - intros c1 e H1 He. apply Hstep; [done| |by intros ->; cbn in He].
    eapply op_effect_foreign; [done|apply Hu| |done]. right. split; [|done]. intros Hc.
    assert (nstates (snd (exec o c)) = nstates (snd (exec_op o c))) as E.
    { rewrite exec_other by (intros ? ? ->; done). rewrite Hpos. cbn. by pose proof (start_core (snd (exec_op o c))) as [= _ -> _]. }
    pose proof (creates_more o c Hc). lia.
  - intros i shared it rest c1 e -> Hi Hin H1 He. assert (item_foreign false p it) as Hf by by eapply unused_item.
    apply Hstep; [done| |].
    + eapply item_effect_foreign; [|done|done|done]. apply Hu.
    + intros ->. cbn in He. destruct He as (cb & f & -> & E). by apply Hf.
Qed.

Lemma run_fresh ops : fresh (run ops futures_new).
Proof.
  induction ops as [|o ops IH] using rev_ind.
  - intros p _. split; [split|]; try done; try (by intros ? ?%not_elem_of_nil). by intros ?%not_elem_of_nil.
  - rewrite future_run_snoc. apply exec_fresh; [apply run_states_ok|apply run_todo|done].
Qed.
End fresh.

(** ** The promise of a combinator *)

Record linked (p : nat) (cb : callback) (f : nat) (c : futures) : Prop := {
  linked_states : states_ok c;
  linked_settled : settled c;
  linked_todo : todo c = [];
  linked_lt : (p < nstates c)%nat;
  linked_unused : unused (alien p cb f) p c;
  linked_state :
    isRunning (state_of c p) = true /\ held (is_callback cb f) c = 1%nat /\ Release p ∉ items c \/
    isFinished (state_of c p) = true /\ held (is_callback cb f) c = 0%nat;
}.

(** What the continuation gives. *)
Definition outcome (r : call_result) : result FutureException value :=
  match r with
  | Value v => Ok v
  | Exception what => Err (ExceptionState_FutureUserError what)
  | UnknownException => Err (ExceptionState_FutureUserError (lit "unknown exception"))
  end.

Lemma setPromise_running p r c : isRunning (state_of c p) = true ->
  exists e, snd (setPromiseFromCallWithExceptionSupport p r c) = apply_effect c (EFinish p e) /\ value_of (end_state e (state_of c p)) = outcome r.
Proof.
  intros Hr. destruct r as [v|what|]; cbn [setPromiseFromCallWithExceptionSupport].
  - exists (EndValue v). split; [|done]. unfold catch, setValue. cbn [apply_effect]. change (fun s => reportValue (set_value v s)) with (end_state (EndValue v)).
    rewrite finish_eq, Hr. done.
  - by exists (EndError what).
  - by exists (EndError (lit "unknown exception")).
Qed.

Section linked.
Set Default Proof Using "Type*".
Context (continue : nat -> result FutureException value -> call_result) (convert : value -> call_result).
Context (p f : nat) (cb : callback) (Hcb : promise_of cb = Some p).
Notation exec := (exec continue convert).
Notation run := (run continue convert).

Lemma alien_mentions cb' g : alien p cb f cb' g = true -> promise_of cb' = Some p.
Proof. intros H. apply andb_true_iff in H as [H _]. by apply bool_decide_eq_true in H. Qed.

Lemma ours_mentions cb' g : is_callback cb f cb' g = true -> promise_of cb' = Some p.
Proof. by intros [-> _]%bool_decide_eq_true. Qed.

(** What foreign effects keep, from the state [c]. *)
Definition kept (running : bool) (n : nat) (v : result FutureException value) (c : futures) : Prop :=
  states_ok c /\ (p < nstates c)%nat /\ unused (alien p cb f) p c /\ held (is_callback cb f) c = n /\
  if running then isRunning (state_of c p) = true /\ Release p ∉ items c
  else isFinished (state_of c p) = true /\ value_of (state_of c p) = v.

Lemma effect_kept running n v c e : kept running n v c -> foreign running p e -> kept running n v (apply_effect c e).
Proof.
  intros (H1 & H2 & H3 & H4 & H5) He. split_and!.
  - by apply effect_states_ok.
  - pose proof (effect_nstates c e). lia.
  - eapply effect_unused; [done|apply alien_mentions|done|done].
  - rewrite effect_held; [done|done|]. eapply foreign_neutral; [apply ours_mentions|done].
  - destruct running; destruct H5 as [H5 H6].
    + split; [by apply effect_running|]. apply effect_released; [done|]. intros ->. by apply He.
    + destruct (effect_value p c e H1 H5 He) as [E1 E2]. split; [done|]. by rewrite E2.
Qed.

Lemma kept_core running n v c c' : core c' = core c -> items c' ≡ₚ items c -> kept running n v c -> kept running n v c'.
Proof.
  intros E El (H1 & H2 & H3 & H4 & H5). pose proof E as [= E1 E2 _ _ _ _ _ _ _ _].
  assert (forall q, state_of c' q = state_of c q) as Es by (intros q; unfold state_of; by rewrite E1). split_and!.
  - intros q Hq. rewrite E1. apply H1. by rewrite <- E2.
  - by rewrite E2.
  - by eapply (unused_core _ _ c c' []).
  - rewrite (held_core _ c c'); [done|done|done|by apply scheduled_permutation].
  - rewrite Es. destruct running; [|done]. by rewrite El.
Qed.

Lemma linked_kept c : linked p cb f c -> kept (isRunning (state_of c p)) (held (is_callback cb f) c) (value_of (state_of c p)) c.
Proof.
  intros [H1 H2 H3 H4 H5 [(Hr & Hh & Hi)|(Hf & Hh)]]; split_and!; try done; [by rewrite Hr|].
  assert (isRunning (state_of c p) = false) as -> by (unfold isFinished, isRunning in *; by destruct (_state (state_of c p))). done.
Qed.

Lemma kept_linked c c' : linked p cb f c -> states_ok c' -> settled c' -> todo c' = [] ->
  kept (isRunning (state_of c p)) (held (is_callback cb f) c) (value_of (state_of c p)) c' ->
  linked p cb f c' /\ isFinished (state_of c' p) = isFinished (state_of c p) /\
  (isFinished (state_of c p) = true -> value_of (state_of c' p) = value_of (state_of c p)).
Proof.
  intros [H1 H2 H3 H4 H5 H6] Hs Ht Hd (_ & K2 & K3 & K4 & K5). destruct H6 as [(Hr & Hh & Hi)|(Hf & Hh)].
  - rewrite Hr in K5. destruct K5 as [K5 K6]. split; [split; try done; left; rewrite K4; done|].
    assert (forall s, isRunning s = true -> isFinished s = false) as Hn.
    { intros s Es. unfold isRunning in Es. apply bool_decide_eq_true in Es. unfold isFinished. by rewrite Es. }
    rewrite (Hn _ Hr), (Hn _ K5). done.
  - assert (isRunning (state_of c p) = false) as Hr by (unfold isFinished, isRunning in *; by destruct (_state (state_of c p))).
    rewrite Hr in K5. destruct K5 as [K5 K6]. split; [split; try done; right; rewrite K4; done|]. by rewrite Hf, K5.
Qed.

(** A step that is not one of the callback. *)
Lemma exec_linked o c : linked p cb f c ->
  (forall i shared it rest, o = Run i shared -> threads c !! i = Some (it :: rest) -> it <> Call cb f /\ it <> Post cb f) ->
  let c' := snd (exec o c) in
  linked p cb f c' /\ isFinished (state_of c' p) = isFinished (state_of c p) /\
  (isFinished (state_of c p) = true -> value_of (state_of c' p) = value_of (state_of c p)).
Proof.
  intros H Ho c'. pose proof (linked_kept c H) as Hk. pose proof H as [H1 H2 H3 H4 H5 H6].
  apply kept_linked; [done|by apply exec_states_ok|by apply exec_settled|by apply exec_todo|].
  destruct (possible o c) eqn:Hpos; [|unfold c', Future.exec; by rewrite Hpos].
  set (r := isRunning (state_of c p)) in *. apply (exec_items_inv continue convert (kept r (held (is_callback cb f) c) (value_of (state_of c p)))).
  - intros c1 c2 E El. by apply kept_core.
  - done.
  - done.
  - intros i shared it rest -> c0 Hi El. destruct Hk as (K1 & K2 & K3 & K4 & K5). split_and!; [done|done|by eapply (unused_core _ _ c c0 [it])| |].
    + destruct (held_run continue convert (is_callback cb f) i shared it rest c H3 Hi) as [_ Hh]. fold c0 in Hh.
      destruct (Ho i shared it rest eq_refl Hi) as [Hn1 Hn2].
      assert (item_held (is_callback cb f) it = false) as E.
      { destruct it; try done; cbn; apply bool_decide_eq_false; intros [-> ->]; done. }
      rewrite E in Hh. cbn in Hh. lia.
    + change (state_of c0 p) with (state_of c p). destruct r; [|done]. destruct K5 as [K5 K6]. split; [done|].
      intros Hin. apply K6. rewrite El. by right.
  - intros c1 e K He. apply effect_kept; [done|]. eapply op_effect_foreign; [done|apply H5|by left|done].
  - intros i shared it rest c1 e -> Hi Hin K He. apply effect_kept; [done|].
    eapply item_effect_foreign; [apply H5| | |done]; [done|]. destruct (Ho i shared it rest eq_refl Hi) as [Hn1 Hn2].
    eapply unused_item; [done|done| |].
    + intros cb' g Hit Hm. unfold alien. rewrite Hm. cbn. apply negb_true_iff, bool_decide_eq_false. intros [-> ->]. by destruct Hit.
    + intros Er. destruct H6 as [(_ & _ & H6)|(H6 & _)]; [done|]. exfalso. unfold r, isRunning in Er. apply bool_decide_eq_true in Er.
      unfold isFinished in H6. by rewrite Er in H6.
Qed.

(** The callback goes to the event loop. *)
Lemma exec_post i shared rest c : linked p cb f c -> threads c !! i = Some (Post cb f :: rest) ->
  let c' := snd (exec (Run i shared) c) in
  linked p cb f c' /\ isFinished (state_of c' p) = isFinished (state_of c p) /\
  (isFinished (state_of c p) = true -> value_of (state_of c' p) = value_of (state_of c p)).
Proof.
  intros H Hi c'. pose proof (linked_kept c H) as (K1 & K2 & K3 & K4 & K5). pose proof H as [H1 H2 H3 H4 H5 H6].
  apply kept_linked; [done|by apply exec_states_ok|by apply exec_settled|by apply exec_todo|].
  destruct (run_items continue convert i shared (Post cb f) rest c H3 Hi) as [El1 El2].
  destruct (held_run continue convert (is_callback cb f) i shared (Post cb f) rest c H3 Hi) as [Eh1 Eh2].
  destruct (held_run continue convert (alien p cb f) i shared (Post cb f) rest c H3 Hi) as [Ea1 Ea2]. fold c' in El2, Eh1, Ea1.
  set (c0 := with_threads _ _ _) in *. change (snd _) with (apply_effect c0 (ESpawn cb f)) in El2, Eh1, Ea1.
  rewrite held_spawn in Eh1, Ea1. cbn [item_held] in Eh2, Ea2.
  assert (core c' = core c) as E by (unfold c'; rewrite exec_run, Hi; done). pose proof E as [= E1 E2 E3 E4 _ _ _ _ _ _].
  assert (forall it, (forall cb' g, it <> Call cb' g /\ it <> Post cb' g) -> it ∈ items c' -> it ∈ items c) as Hin.
  { intros it Hit. rewrite El2. intros [Hi'|[He|(cb' & f' & [He|He])]]%effect_items; [rewrite El1; by right|done|by destruct (Hit cb' f')..]. }
  assert (forall q, state_of c' q = state_of c q) as Es by (intros q; unfold state_of; by rewrite E1).
  destruct K3 as [U1 U2 U3 U4]. split_and!.
  - intros q Hq. rewrite E1. apply H1. by rewrite <- E2.
  - by rewrite E2.
  - split; [by rewrite E3|by rewrite E4|intros n Hn; by apply (U3 n), Hin|rewrite Ea1; lia].
  - lia.
  - rewrite Es. destruct (isRunning (state_of c p)); [|done]. destruct K5 as [K5 K6]. split; [done|]. intros Hn. by apply K6, Hin.
Qed.

(** The result of the promise of [cb], for a future in the state [s] and a promise in the
    state [t]. *)
Definition expected (s t : FutureBase) : result FutureException value :=
  match cb with
  | CbThen _ k => outcome (continue k (value_of s))
  | CbAndThen _ k =>
      match _state s with
      | FutureState_Canceled => Err ExceptionState_FutureCanceled
      | FutureState_FinishedWithError => Err (ExceptionState_FutureUserError (_error s))
      | _ => if _cancelRequested t then Err ExceptionState_FutureCanceled else outcome (continue k (Ok (_value s)))
      end
  | _ => Err ExceptionState_FutureInvalid
  end.

Definition is_continuation : bool := match cb with CbThen _ _ | CbAndThen _ _ => true | _ => false end.

Lemma callback_ends c : is_continuation = true -> isRunning (state_of c p) = true -> isFinished (state_of c f) = true ->
  exists e, snd (run_callback continue convert cb f c) = apply_effect c (EFinish p e) /\
    value_of (end_state e (state_of c p)) = expected (state_of c f) (state_of c p).
Proof.
  intros Hc Hr Hf. unfold is_continuation in Hc. unfold expected, run_callback. unfold mbind at 1, M_bind. unfold get_state at 1. fold (state_of c f). set (s := state_of c f) in *.
  destruct cb as [k|q k|q k|q|q|b|q g n]; try done; cbn [promise_of] in Hcb; injection Hcb as ->.
  - by apply setPromise_running.
  - unfold isFinished in Hf. destruct (_state s) eqn:E; try done.
    + by exists EndCanceled.
    + by exists (EndError (_error s)).
    + unfold mbind, M_bind, get_state. fold (state_of c p). destruct (_cancelRequested (state_of c p)); [by exists EndCanceled|].
      by apply setPromise_running.
Qed.

Lemma call_ends shared c : is_continuation = true -> isRunning (state_of c p) = true -> isFinished (state_of c f) = true ->
  exists e, snd (run_item continue convert shared (Call cb f) c) = apply_effect (apply_effect c (EFinish p e)) (EPush (Release p)) /\
    value_of (end_state e (state_of c p)) = expected (state_of c f) (state_of c p).
Proof.
  intros Hc Hr Hf. destruct (callback_ends c Hc Hr Hf) as (e & H1 & H2). exists e. split; [|done]. cbn [run_item]. rewrite Hcb.
  unfold mbind, M_bind, catch. destruct (run_callback continue convert cb f c) as [[[]|e'] c'] eqn:E; cbn [snd] in *; by subst.
Qed.

(** The callback is called: its promise has the result of the continuation. *)
Lemma exec_call i shared rest c : is_continuation = true -> linked p cb f c -> threads c !! i = Some (Call cb f :: rest) ->
  let c' := snd (exec (Run i shared) c) in
  linked p cb f c' /\ isFinished (state_of c p) = false /\ isFinished (state_of c f) = true /\
  isFinished (state_of c' p) = true /\ value_of (state_of c' p) = expected (state_of c f) (state_of c p).
Proof.
  intros Hco H Hi c'. pose proof H as [H1 H2 H3 H4 H5 H6].
  destruct (run_items continue convert i shared (Call cb f) rest c H3 Hi) as [El1 El2].
  destruct (held_run continue convert (is_callback cb f) i shared (Call cb f) rest c H3 Hi) as [_ Eh].
  set (c0 := with_threads _ _ _) in *. fold c' in El2. cbn [item_held] in Eh.
  assert (is_callback cb f cb f = true) as Eo by by apply bool_decide_eq_true. rewrite Eo in Eh. cbn in Eh.
  destruct H6 as [(Hr & Hh & Hrel)|(_ & Hh)]; [|lia].
  assert (isFinished (state_of c f) = true) as Hf.
  { destruct (isFinished (state_of c f)) eqn:E; [done|]. destruct (H2 f) as [_ Hb]. destruct (Hb E) as [Hb' _].
    specialize (Hb' (Call cb f)). rewrite El1 in Hb'. specialize (Hb' ltac:(by left)). cbn in Hb'. by apply bool_decide_eq_false in Hb'. }
  assert (isFinished (state_of c p) = false) as Hnf by (unfold isFinished, isRunning in *; apply bool_decide_eq_true in Hr; by rewrite Hr).
  destruct (call_ends shared c0 Hco Hr Hf) as (e & E & Ev). change (state_of c0) with (state_of c) in Ev. rewrite E in El2.
  assert (unused (alien p cb f) p c0) as U0 by by eapply (unused_core _ _ c c0 [Call cb f]).
  set (c1 := apply_effect c0 (EFinish p e)) in *. set (c2 := apply_effect c1 (EPush (Release p))) in *.
  assert (states_ok c1) as Hs1 by by apply effect_states_ok.
  assert (state_of c2 p = set_onCancel None (set_onResult [] (end_state e (state_of c p)))) as Es.
  { change (state_of c2 p) with (state_of c1 p). unfold c1. cbn [apply_effect]. rewrite finish_eq. change (state_of c0) with (state_of c). rewrite Hr. cbn [snd].
    change (state_of (with_threads _ _ ?x)) with (state_of x). rewrite state_of_put. change (states c0) with (states c).
    by rewrite decide_True by (split; [done|by apply is_running_some]). }
  assert (core c' = core c2) as Ec by (unfold c'; rewrite exec_run, Hi; cbn [snd]; fold c0; by rewrite E).
  assert (kept false 0 (expected (state_of c f) (state_of c p)) c2) as K.
  { split_and!.
    - by apply effect_states_ok.
    - pose proof (effect_nstates c0 (EFinish p e)). change (nstates c2) with (nstates c1). change (nstates c0) with (nstates c) in *. unfold c1. lia.
    - eapply (effect_unused _ false); [done|apply alien_mentions| |done]. by eapply (effect_unused _ false); [done|apply alien_mentions|done|done].
    - unfold c2, c1. rewrite !effect_held; [lia|done..].
    - rewrite Es. by destruct e.
    - rewrite Es, <- Ev. by destruct e. }
  apply (kept_core _ _ _ c2 c') in K; [|done|done]. destruct K as (K1 & K2 & K3 & K4 & K5 & K6).
  split_and!; try done. split; try done; [by apply exec_settled|by apply exec_todo|by right].
Qed.
End linked.

(** ** The combinators *)

Lemma alien_unused p cb f c : unused (mentions p) p c -> unused (alien p cb f) p c /\ held (is_callback cb f) c = 0%nat \/ promise_of cb <> Some p.
Proof.
  intros [H1 H2 H3 H4]. destruct (decide (promise_of cb = Some p)) as [Hcb|]; [left|by right].
  assert (forall P, (forall cb' g, P cb' g = true -> mentions p cb' g = true) -> held P c = 0%nat) as Hle.
  { intros P HP. unfold held in *. assert (forall A (q r : A -> bool) l, (forall x, q x = true -> r x = true) ->
      (length (List.filter q l) <= length (List.filter r l))%nat) as Hf.
    { intros A q r l Hqr. induction l as [|x l IH]; [done|]. cbn. specialize (Hqr x). destruct (q x), (r x); cbn; first [lia|by specialize (Hqr eq_refl)]. }
    assert (scheduled P (items c) <= scheduled (mentions p) (items c))%nat.
    { apply Hf. intros it. destruct it; try done; apply HP. }
    assert (waiting P c <= waiting (mentions p) c)%nat.
    { unfold waiting. induction (seq 0 (nstates c)) as [|g l IH]; [done|]. cbn.
      pose proof (Hf _ (fun x => P (fst x) g) (fun x => mentions p (fst x) g) (_onResult (state_of c g)) (fun x => HP (fst x) g)). unfold waits in *. lia. }
    lia. }
  split; [split; try done|]; apply Hle.
  - intros cb' g H. by apply andb_true_iff in H as [H _].
  - intros cb' g [-> _]%bool_decide_eq_true. by apply bool_decide_eq_true.
Qed.

Section combinators.
Context (continue : nat -> result FutureException value -> call_result) (convert : value -> call_result).
Notation exec := (exec continue convert).
Notation run := (run continue convert).

Lemma combinator_state (cb : nat -> callback) f t c : states_ok c -> fresh c -> (f < nstates c)%nat -> promise_of (cb (nstates c)) = Some (nstates c) ->
  forall p c', (p ← Promise_new_cancel (CcFuture f) FutureCallbackType_Auto ; unwinding p (connect f (cb p) t) ;; mret p) c = (Ok p, c') ->
  p = nstates c /\ (p < nstates c')%nat /\ unused (alien p (cb p) f) p c' /\ isRunning (state_of c' p) = true /\
  held (is_callback (cb p) f) c' = 1%nat /\ Release p ∉ items c'.
Proof.
  intros Hok Hfr Hf Hcb p c' H. set (p0 := nstates c) in *. destruct (Hfr p0 ltac:(lia)) as [Hu Hr].
  destruct (alien_unused p0 (cb p0) f c Hu) as [[Ha Ho]|]; [|done].
  set (I c1 := states_ok c1 /\ unused (alien p0 (cb p0) f) p0 c1 /\ held (is_callback (cb p0) f) c1 = 0%nat /\ Release p0 ∉ items c1).
  assert (I (snd (Promise_new_cancel (CcFuture f) FutureCallbackType_Auto c))) as (I1 & I2 & I3 & I4).
  { apply (acts_inv I (fun e => foreign true p0 e)); [by apply new_cancel_acts|done|]. intros c1 e (H1 & H2 & H3 & H4) He. split_and!.
    - by apply effect_states_ok.
    - eapply effect_unused; [done|by apply alien_mentions|done|done].
    - rewrite effect_held; [done|done|]. eapply foreign_neutral; [by apply ours_mentions|done].
    - apply effect_released; [done|]. intros ->. by apply He. }
  unfold mbind, M_bind in H. rewrite new_cancel_eq in *. cbn [snd] in I1, I2, I3, I4. fold p0 in H, I1, I2, I3, I4. set (c1 := with_states _ _ c) in *.
  unfold unwinding in H. pose proof (connect_error f (cb p0) t c1) as Ee. destruct (connect f (cb p0) t c1) as [r c2] eqn:Ec. cbn [fst] in Ee.
  destruct r as [[]|]; [|done]. destruct (bool_decide _) eqn:Ev; [done|]. injection H as <- <-.
  assert (c2 = apply_effect c1 (EConnect f (cb p0) t)) as -> by (cbn [apply_effect]; by rewrite Ec).
  assert (alien p0 (cb p0) f (cb p0) f = false /\ is_callback (cb p0) f (cb p0) f = true) as [Ea Eo].
  { assert (is_callback (cb p0) f (cb p0) f = true) as E by by apply bool_decide_eq_true. unfold alien. rewrite E. split; [apply andb_false_r|done]. }
  split_and!; [done| | | | |].
  - pose proof (effect_nstates c1 (EConnect f (cb p0) t)) as Hn. change (nstates c1) with (S p0) in Hn. lia.
  - destruct I2 as [U1 U2 U3 U4]. cbn [apply_effect]. split.
    + rewrite connect_eq. destruct (bool_decide _); [done|]. by destruct (isFinished _).
    + rewrite connect_eq. destruct (bool_decide _); [done|]. by destruct (isFinished _).
    + intros n Hin. apply (effect_items c1 (EConnect f (cb p0) t)) in Hin as [Hin|[Hin|(cb' & g & [Hin|Hin])]]; [by apply (U3 n)|done..].
    + rewrite held_connect, U4, Ea by done. by destruct (bool_decide _).
  - cbn [apply_effect]. rewrite connect_eq, Ev. assert (isRunning (state_of c1 p0) = true) as Hrun by (unfold c1, state_of; cbn; by rewrite lookup_insert_eq).
    destruct (isFinished (state_of c1 f)); [done|]. rewrite state_of_put, decide_False; [done|]. intros [E _]. unfold p0 in E. lia.
  - cbn [apply_effect]. by rewrite held_connect, I3, Ev, Eo.
  - by apply effect_released.
Qed.

(** The callback of a combinator and its future. *)
Definition then_callback (o : op) (p : nat) : option (callback * nat) :=
  match o with
  | Then f k _ _ => Some (CbThen p k, f)
  | AndThen f k _ _ => Some (CbAndThen p k, f)
  | _ => None
  end.

Lemma bind_some (m : M nat) c p : fst ((p ← m ; mret (Some p)) c) = Ok (Some p) -> m c = (Ok p, snd ((p ← m ; mret (Some p)) c)).
Proof. unfold mbind, M_bind. destruct (m c) as [[q|e] c']; [|done]. cbn. by intros [= ->]. Qed.

Lemma exec_op_combinator o c p cb f : possible o c = true -> then_callback o p = Some (cb, f) -> fst (exec_op o c) = Ok (Some p) ->
  exists mk t, cb = mk p /\ promise_of (mk (nstates c)) = Some (nstates c) /\ (f < nstates c)%nat /\
    (p ← Promise_new_cancel (CcFuture f) FutureCallbackType_Auto ; unwinding p (connect f (mk p) t) ;; mret p) c = (Ok p, snd (exec_op o c)).
Proof.
  intros Hpos Ho He. destruct o as [| | | | | | | | | | | | | | |f' k t a|f' k t a| | | | | | | |]; try done; cbn in Ho; injection Ho as <- <-;
    apply Nat.ltb_lt in Hpos; cbn [exec_op] in *; apply bind_some in He.
  - exists (fun p => CbThen p k). eexists. split_and!; [done|done|done|exact He].
  - exists (fun p => CbAndThen p k). eexists. split_and!; [done|done|done|exact He].
Qed.

Lemma exec_combinator o c p cb f : states_ok c -> settled c -> todo c = [] -> fresh c -> then_callback o p = Some (cb, f) ->
  fst (exec o c) = Ok (Some p) ->
  promise_of cb = Some p /\ is_continuation cb = true /\ linked p cb f (snd (exec o c)) /\ isFinished (state_of (snd (exec o c)) p) = false.
Proof.
  intros Hok Hset Ht Hfr Ho He.
  assert (promise_of cb = Some p /\ is_continuation cb = true) as [Hp Hc] by (destruct o; try done; cbn in Ho; by injection Ho as <- <-).
  pose proof (exec_states_ok continue convert o c Hok) as Hok'. pose proof (exec_settled continue convert o c Hok Hset Ht) as Hset'.
  pose proof (exec_todo continue convert o c Ht) as Ht'.
  destruct (possible o c) eqn:Hpos; [|unfold Future.exec in He; by rewrite Hpos in He].
  rewrite exec_other in * by (intros ? ? ->; done). rewrite Hpos in *. cbn [fst snd] in *.
  destruct (exec_op_combinator o c p cb f Hpos Ho He) as (mk & t & -> & Hm & Hf & E).
  destruct (combinator_state mk f t c Hok Hfr Hf Hm p _ E) as (_ & H1 & H2 & H3 & H4 & H5).
  set (c' := snd (exec_op o c)) in *. pose proof (start_core c') as Ec. pose proof Ec as [= E1 E2 _ _ _ _ _ _ _ _].
  assert (state_of (start_thread c') p = state_of c' p) as Es by (unfold state_of; by rewrite E1).
  split_and!; [done|done| |].
  - split; [done|done|done|by rewrite E2| |left].
    + eapply (unused_core _ _ c' _ []); [done|symmetry; apply items_start|done].
    + rewrite Es, items_start. split_and!; [done| |done]. rewrite (held_core _ c'); [done|done|done|]. by apply scheduled_permutation, items_start.
  - rewrite Es. unfold isRunning in H3. apply bool_decide_eq_true in H3. unfold isFinished. by rewrite H3.
Qed.

(** The callback is called once, and gives the result. *)
Lemma linked_run p cb f c ops : promise_of cb = Some p -> is_continuation cb = true -> linked p cb f c -> isFinished (state_of c p) = false ->
  linked p cb f (run ops c) /\
  (isFinished (state_of (run ops c) p) = true -> exists ops' ops'', ops = ops' ++ ops'' /\ isFinished (state_of (run ops' c) f) = true /\
     value_of (state_of (run ops c) p) = expected continue cb (state_of (run ops' c) f) (state_of (run ops' c) p)).
Proof.
  intros Hp Hc Hl Hnf. induction ops as [|o ops [IH1 IH2]] using rev_ind; [cbn; split; [done|by rewrite Hnf]|].
  rewrite future_run_snoc. set (c1 := run ops c) in *.
  assert ((exists i shared rest, o = Run i shared /\ threads c1 !! i = Some (Call cb f :: rest)) \/
    linked p cb f (snd (exec o c1)) /\ isFinished (state_of (snd (exec o c1)) p) = isFinished (state_of c1 p) /\
    (isFinished (state_of c1 p) = true -> value_of (state_of (snd (exec o c1)) p) = value_of (state_of c1 p))) as [(i & shared & rest & -> & Hi)|(H1 & H2 & H3)].
  - destruct (op_run o) as [(i & shared & ->)|Ho]; [|right; apply exec_linked; [done|done|]; intros i shared it rest ->; by destruct (Ho i shared)].
    destruct (threads c1 !! i) as [[|it rest]|] eqn:Hi.
    + right. apply exec_linked; [done|done|]. intros ? ? ? ? [= <- <-] E. by rewrite Hi in E.
    + destruct (decide (it = Call cb f)) as [->|Hn1]; [left; eauto|right].
      destruct (decide (it = Post cb f)) as [->|Hn2]; [by eapply exec_post|].
      apply exec_linked; [done|done|]. intros ? ? ? ? [= <- <-] E. rewrite Hi in E. by injection E as <- <-.
    + right. apply exec_linked; [done|done|]. intros ? ? ? ? [= <- <-] E. by rewrite Hi in E.
  - destruct (exec_call continue convert p f cb Hp i shared rest c1 Hc IH1 Hi) as (H1 & H2 & H3 & H4 & H5). split; [done|]. intros _.
    exists ops, [Run i shared]. done.
  - split; [done|]. rewrite H2. intros Hf. destruct (IH2 Hf) as (ops' & ops'' & -> & E1 & E2). exists ops', (ops'' ++ [o]).
    split; [by rewrite (assoc_L (++))|]. split; [done|]. by rewrite H3.
Qed.

(** C11. The future that [then] and [andThen] give is finished by the continuation, once
    the future they are applied to is finished: its result is what the continuation
    returned or threw for the result that this future had, and for [andThen] the error or
    the cancellation of this future, or a cancellation when one was requested. It is not
    left unfinished: when nothing is to be done anymore and it is not finished, the other
    future is not finished either. *)
Theorem continuation_result ops o p cb f ops2 : let c := snd (exec o (run ops futures_new)) in
  fst (exec o (run ops futures_new)) = Ok (Some p) -> then_callback o p = Some (cb, f) ->
  let c' := run ops2 c in
  (isFinished (state_of c' p) = true -> exists ops' ops'', ops2 = ops' ++ ops'' /\ isFinished (state_of (run ops' c) f) = true /\
     value_of (state_of c' p) = expected continue cb (state_of (run ops' c) f) (state_of (run ops' c) p)) /\
  (isFinished (state_of c' p) = false -> items c' = [] -> isFinished (state_of c' f) = false).
Proof.
  intros c He Ho c'. destruct (exec_combinator o (run ops futures_new) p cb f) as (Hp & Hc & Hl & Hnf); try done;
    [apply run_states_ok|apply run_settled|apply run_todo|apply run_fresh|]. fold c in Hl, Hnf.
  destruct (linked_run p cb f c ops2 Hp Hc Hl Hnf) as [[H1 H2 H3 H4 H5 H6] Hres]. split; [done|]. fold c' in H1, H2, H3, H4, H5, H6.
  intros Hnf' Hi. destruct H6 as [(_ & Hh & _)|(Hf & _)]; [|congruence].
  destruct (isFinished (state_of c' f)) eqn:Ef; [|done]. exfalso. unfold held in Hh. rewrite Hi in Hh. change (scheduled _ []) with 0%nat in Hh.
  rewrite (waiting_one _ f) in Hh; [|done|by intros cb' g Hg; apply bool_decide_eq_false; intros [_ ?]]. unfold waits in Hh.
  destruct (H2 f) as [Ha _]. rewrite Ha in Hh; [done|]. unfold isFinished in Ef. by apply bool_decide_eq_false; intros E; rewrite E in Ef.
Qed.
End combinators.

(** ** Concrete executions *)

(** A continuation that adds one, and throws for the result of a future without a value. *)
Definition add_one (k : nat) (r : result FutureException value) : call_result :=
  match r with
  | Ok (VClient v) => Value (VClient (v + 1))
  | _ => Exception (lit "no value")
  end.

(** A promise, a continuation of its future, and what the threads do once it is set. *)
Lemma continuation_result_witness :
  let c := snd (exec add_one Value (Then 0 0 FutureCallbackType_Auto false) (run add_one Value [NewPromise FutureCallbackType_Auto] futures_new)) in
  let c' := run add_one Value [SetValue 0 (VClient 3); Run 0 true; Run 1 true; Run 1 true] c in
  isFinished (state_of c' 1) = true /\ value_of (state_of c' 1) = Ok (VClient 4) /\ items c' = [] /\
  exists ops' ops'', [SetValue 0 (VClient 3); Run 0 true; Run 1 true; Run 1 true] = ops' ++ ops'' /\
    isFinished (state_of (run add_one Value ops' c) 0) = true /\
    value_of (state_of c' 1) = expected add_one (CbThen 1 0) (state_of (run add_one Value ops' c) 0) (state_of (run add_one Value ops' c) 1).
Proof.
  intros c c'. split_and!; [vm_compute; reflexivity..|].
  destruct (continuation_result add_one Value [NewPromise FutureCallbackType_Auto] (Then 0 0 FutureCallbackType_Auto false) 1 (CbThen 1 0) 0
    [SetValue 0 (VClient 3); Run 0 true; Run 1 true; Run 1 true]) as [H _]; [vm_compute; reflexivity|reflexivity|]. by apply H.
Defined.

Definition settle (ops : list op) : futures := run add_one Value ops futures_new.

(** The converter of [adaptFuture] writes in the value of its promise before it is known
    whether the promise is set: here the value of the future 1, 10, becomes 3. *)
Example adapt_overwrites_value :
  let ops := [NewPromise FutureCallbackType_Sync; NewPromise FutureCallbackType_Auto; SetValue 1 (VClient 10); Adapt 0 1 true; SetValue 0 (VClient 3)] in
  (value_of (state_of (settle ops) 1), value_of (state_of (settle (ops ++ [Run 0 true])) 1)) = (Ok (VClient 10), Ok (VClient 3)).
Proof. vm_compute. reflexivity. Qed.

(** [adaptFuture] with the cancellation forwarded resets how callbacks are called: a
    synchronous promise calls them asynchronously. *)
Example adapt_resets_type :
  let ops := [NewPromise FutureCallbackType_Auto; NewPromise FutureCallbackType_Sync; Adapt 0 1 true] in
  (_async (state_of (settle (take 2 ops)) 1), _async (state_of (settle ops) 1)) = (FutureCallbackType_Sync, FutureCallbackType_Auto).
Proof. vm_compute. reflexivity. Qed.

(** [waitForFirst] gives a canceled future, although another one has a value later. *)
Example waitForFirst_canceled :
  let ops := [NewPromise FutureCallbackType_Sync; NewPromise FutureCallbackType_Sync; WaitForFirst [0; 1]%nat; SetCanceled 0; Run 0 true; SetValue 1 (VClient 5)] in
  value_of (state_of (settle ops) 2) = Ok (VFuture 0).
Proof. vm_compute. reflexivity. Qed.

(** The future of [waitForFirst] of no future is the one of a broken promise. *)
Example waitForFirst_empty :
  value_of (state_of (settle [WaitForFirst []]) 0) = Err (ExceptionState_FutureUserError (lit "Promise broken (all promises are destroyed)")).
Proof. vm_compute. reflexivity. Qed.

(** A barrier counts a future that it then cannot connect to: it is never set. *)
Example addFuture_invalid_stuck :
  let ops := [NewBarrier FutureCallbackType_Async; NewFuture; AddFuture 0 1; CloseBarrier 0; Run 0 true] in
  let c := settle ops in
  (fst (exec add_one Value (AddFuture 0 1) (settle (take 2 ops))), items c, isFinished (state_of c 0), _count <$> barriers c !! 0%nat) =
  (Err ExceptionState_FutureInvalid, [], false, Some 1).
Proof. vm_compute. reflexivity. Qed.

(** A promise that is set keeps its value when it is set again. *)
Lemma future_final_witness :
  let c := settle [NewPromise FutureCallbackType_Auto; SetValue 0 (VClient 3)] in
  let c' := snd (exec add_one Value (SetError 0 (lit "late")) c) in
  isFinished (state_of c 0) = true /\
  _state (state_of c' 0) = _state (state_of c 0) /\ _error (state_of c' 0) = _error (state_of c 0) /\
  (~ writes (SetError 0 (lit "late")) c 0 -> _value (state_of c' 0) = _value (state_of c 0)).
Proof.
  intros c c'. split; [vm_compute; reflexivity|].
  apply (future_final add_one Value [NewPromise FutureCallbackType_Auto; SetValue 0 (VClient 3)] (SetError 0 (lit "late")) 0). vm_compute. reflexivity.
Defined.
