(* ===== verification/MessageDispatcher.v ===== *)
(** * MessageDispatcher: the handlers of the messages of a socket

    Model of [src/messaging/messagedispatcher.cpp]: the handlers that are connected
    for a service and an object, and the dispatch of a message to the ones that were
    connected when it began. Sections under the mutex are steps; a dispatch calls its
    handlers one by one, and other operations come in between. *)
From S2P Require Import Prelude CString Bytes Message.
Open Scope Z_scope.

(** ** [boost::container::flat_map], ordered by its keys *)

Section flat_map.
Context {V : Type}.

Fixpoint flat_find (key : Z) (m : list (Z * V)) : option V :=
  match m with
  | [] => None
  | (k, v) :: m' => if k =? key then Some v else flat_find key m'
  end.

(** [emplace] keeps a value that is there. *)
Fixpoint flat_emplace (key : Z) (v : V) (m : list (Z * V)) : list (Z * V) :=
  match m with
  | [] => [(key, v)]
  | (k, v') :: m' => if k <? key then (k, v') :: flat_emplace key v m' else if k =? key then m else (key, v) :: m
  end.

(** [erase] also gives the number of the values that are erased. *)
Definition flat_erase (key : Z) (m : list (Z * V)) : Z * list (Z * V) :=
  (match flat_find key m with Some _ => 1 | None => 0 end, List.filter (fun p => negb (fst p =? key)) m).
End flat_map.

(** ** The state *)

Abbreviation SignalLink := Z.

Definition invalidSignalLink : SignalLink := 2 ^ 64 - 1.
Definition isValidSignalLink (l : SignalLink) : bool := negb (l =? invalidSignalLink).

(** A service and an object; handlers are known by their names. *)
Abbreviation RecipientId := (Z * Z)%type.
Definition MessageHandlerList : Type := list (SignalLink * nat).

(** A dispatch in progress: the message, the handlers that are left, and the ones that
    were called. *)
Record dispatching := mkDispatching {
  d_message : Message;
  d_handlers : MessageHandlerList;
  d_called : list SignalLink;
  d_result : option bool;
}.

Record MessageDispatcher := mkMessageDispatcher {
  recipients : gmap RecipientId MessageHandlerList;
  nextSignalLink : SignalLink;
  dispatches : list dispatching;
}.

Definition MessageDispatcher_new : MessageDispatcher := mkMessageDispatcher ∅ 0 [].

(** ** The operations *)

Definition messagePendingConnect (serviceId objectId : Z) (fn : nat) (d : MessageDispatcher) : SignalLink * MessageDispatcher :=
  let handlers := default [] (recipients d !! (serviceId, objectId)) in
  let newSignalLinkId := nextSignalLink d in
  (newSignalLinkId,
   mkMessageDispatcher (<[(serviceId, objectId) := flat_emplace newSignalLinkId fn handlers]> (recipients d))
     (wrap64 (nextSignalLink d + 1)) (dispatches d)).

Definition messagePendingDisconnect (serviceId objectId : Z) (linkId : SignalLink) (d : MessageDispatcher) : bool * MessageDispatcher :=
  if negb (isValidSignalLink linkId) then (true, d)
  else
    match recipients d !! (serviceId, objectId) with
    | None => (false, d)
    | Some handlers =>
        let '(disconnectedCount, handlers) := flat_erase linkId handlers in
        (disconnectedCount =? 1,
         mkMessageDispatcher
           (match handlers with
            | [] => delete (serviceId, objectId) (recipients d)
            | _ => <[(serviceId, objectId) := handlers]> (recipients d)
            end) (nextSignalLink d) (dispatches d))
    end.

(** The beginning of [dispatch] in the execution context: the handlers are copied. *)
Definition dispatch (msg : Message) (d : MessageDispatcher) : MessageDispatcher :=
  let handlers := default [] (recipients d !! (service (_header msg), object (_header msg))) in
  mkMessageDispatcher (recipients d) (nextSignalLink d) (dispatches d ++ [mkDispatching msg handlers [] None]).

Section handlers.
(** What a handler does with a message: it returns a status, or throws. *)
Context (handle : nat -> Message -> option DispatchStatus).

(** [ka::invoke_catch(onHandlerError, handler, msg)]. *)
Definition invoke_handler (handler : nat) (msg : Message) : DispatchStatus := default MessageHandlingFailure (handle handler msg).

(** The loop of [std::any_of], from the state of a dispatch: one call of a handler, or
    the end. *)
Definition tryDispatch_step (p : dispatching) : dispatching :=
  match d_result p with
  | Some _ => p
  | None =>
      match d_handlers p with
      | [] => mkDispatching (d_message p) [] (d_called p) (Some false)
      | (link, handler) :: handlers =>
          if isMessageHandled (invoke_handler handler (d_message p))
          then mkDispatching (d_message p) handlers (d_called p ++ [link]) (Some true)
          else mkDispatching (d_message p) handlers (d_called p ++ [link]) None
      end
  end.

(** ** Executions *)

Inductive dispatcher_op :=
  | Connect (serviceId objectId : Z) (fn : nat)
  | Disconnect (serviceId objectId : Z) (linkId : SignalLink)
  | Dispatch (msg : Message)
  | Handle (i : nat).           (* a step of the dispatch of rank [i] *)

(** What an operation returns. *)
Inductive dispatcher_return := Link (l : SignalLink) | Bool (b : bool) | Unit.

Definition exec (o : dispatcher_op) (d : MessageDispatcher) : dispatcher_return * MessageDispatcher :=
  match o with
  | Connect s o fn => let '(l, d) := messagePendingConnect s o fn d in (Link l, d)
  | Disconnect s o l => let '(b, d) := messagePendingDisconnect s o l d in (Bool b, d)
  | Dispatch msg => (Unit, dispatch msg d)
  | Handle i => (Unit, mkMessageDispatcher (recipients d) (nextSignalLink d) (alter tryDispatch_step i (dispatches d)))
  end.

(** A sequence of operations, with what they return. *)
Fixpoint run (ops : list dispatcher_op) (d : MessageDispatcher) : list dispatcher_return * MessageDispatcher :=
  match ops with
  | [] => ([], d)
  | o :: ops' =>
      let '(r, d') := exec o d in
      let '(rs, d'') := run ops' d' in
      (r :: rs, d'')
  end.
End handlers.
