(* ===== verification/MessageDispatcherProperties.v ===== *)
(** * MessageDispatcherProperties: the dispatcher implements a table of connections

    The abstract state gives, for each link, what it connects; the dispatcher, with its
    two levels of ordered maps, returns the same results, and calls the handlers of a
    recipient in the order of their connections until one handles the message. *)
From S2P Require Import Prelude CString Bytes Message MessageDispatcher.
From Stdlib Require Import Sorted.
Open Scope Z_scope.

(** ** The specification *)

Record connections := mkConnections {
  conns : gmap SignalLink (RecipientId * nat);
  next_link : SignalLink;
}.

Definition connections_new : connections := mkConnections ∅ 0.

Definition spec_connect (rid : RecipientId) (fn : nat) (s : connections) : connections :=
  mkConnections (<[next_link s := (rid, fn)]> (conns s)) (next_link s + 1).

(** What connects [link], when it is to this recipient. *)
Definition spec_find (rid : RecipientId) (link : SignalLink) (s : connections) : option nat :=
  match conns s !! link with Some (rid', fn) => if decide (rid' = rid) then Some fn else None | None => None end.

Definition spec_disconnect (rid : RecipientId) (link : SignalLink) (s : connections) : bool * connections :=
  if link =? invalidSignalLink then (true, s)
  else match spec_find rid link s with
       | Some _ => (true, mkConnections (delete link (conns s)) (next_link s))
       | None => (false, s)
       end.

(** The handlers of a recipient, in the order of their connections. *)
Definition spec_handlers (rid : RecipientId) (s : connections) (l : MessageHandlerList) : Prop :=
  StronglySorted Z.lt (map fst l) /\ forall link fn, (link, fn) ∈ l <-> spec_find rid link s = Some fn.

Section spec.
Context (handle : nat -> Message -> option DispatchStatus).

(** The result of a dispatch to these handlers, and the links of the ones it calls. *)
Fixpoint spec_dispatch (msg : Message) (l : MessageHandlerList) : bool * list SignalLink :=
  match l with
  | [] => (false, [])
  | (link, fn) :: l' =>
      if isMessageHandled (invoke_handler handle fn msg) then (true, [link])
      else let '(b, called) := spec_dispatch msg l' in (b, link :: called)
  end.

Definition spec_exec (o : dispatcher_op) (s : connections) : dispatcher_return * connections :=
  match o with
  | Connect sv ob fn => (Link (next_link s), spec_connect (sv, ob) fn s)
  | Disconnect sv ob link => let '(b, s) := spec_disconnect (sv, ob) link s in (Bool b, s)
  | Dispatch _ | Handle _ => (Unit, s)
  end.

Fixpoint spec_run (ops : list dispatcher_op) (s : connections) : list dispatcher_return * connections :=
  match ops with
  | [] => ([], s)
  | o :: ops' =>
      let '(r, s') := spec_exec o s in
      let '(rs, s'') := spec_run ops' s' in
      (r :: rs, s'')
  end.
End spec.

Definition handlers_of (rid : RecipientId) (d : MessageDispatcher) : MessageHandlerList := default [] (recipients d !! rid).

(** The dispatcher implements the connections. No recipient is kept without handler. *)
Record implements (d : MessageDispatcher) (s : connections) : Prop := {
  implements_next : nextSignalLink d = next_link s;
  implements_pos : 0 <= next_link s;
  implements_handlers : forall rid, spec_handlers rid s (handlers_of rid d);
  implements_nonempty : forall rid l, recipients d !! rid = Some l -> l <> [];
  implements_bounds : forall link c, conns s !! link = Some c -> 0 <= link < next_link s;
}.

(** ** Ordered maps *)

Section flat_map.
Context {V : Type}.
Implicit Types m : list (Z * V).

Definition flat_ok m : Prop := StronglySorted Z.lt (map fst m).

Lemma flat_find_elem key v m : flat_ok m -> flat_find key m = Some v <-> (key, v) ∈ m.
Proof.
  induction m as [|[k w] m IH]; intros Hs; [by rewrite elem_of_nil|]. apply StronglySorted_inv in Hs as [Hs Hk]. cbn.
  rewrite elem_of_cons. destruct (k =? key) eqn:E.
  - apply Z.eqb_eq in E as ->. split; [intros [= ->]; by left|intros [[= ->]|Hin]; [done|]]. exfalso.
    rewrite Forall_forall in Hk. specialize (Hk key). assert (key < key); [|lia]. apply Hk. apply list_elem_of_fmap. by exists (key, v).
  - apply Z.eqb_neq in E. rewrite IH by done. naive_solver.
Qed.

(** A key above the others is put last. *)
Lemma flat_emplace_last key v m : (forall k, k ∈ map fst m -> k < key) -> flat_emplace key v m = m ++ [(key, v)].
Proof.
  induction m as [|[k w] m IH]; intros H; [done|]. cbn. assert (k < key) as Hk by (apply H; by left).
  destruct (k <? key) eqn:E; [|apply Z.ltb_ge in E; lia]. f_equal. apply IH. intros k' Hk'. apply H. by right.
Qed.

Lemma flat_ok_snoc key v m : flat_ok m -> (forall k, k ∈ map fst m -> k < key) -> flat_ok (m ++ [(key, v)]).
Proof.
  unfold flat_ok. induction m as [|[k w] m IH]; intros Hs H; cbn; [by repeat constructor|].
  apply StronglySorted_inv in Hs as [Hs Hk]. constructor; [apply IH; [done|]; intros k' Hk'; apply H; by right|].
  rewrite map_app. apply Forall_app. split; [done|]. repeat constructor. apply H. by left.
Qed.

Lemma flat_erase_elem key m p : p ∈ snd (flat_erase key m) <-> p ∈ m /\ fst p <> key.
Proof. cbn. rewrite !list_elem_of_In, filter_In, negb_true_iff, Z.eqb_neq. done. Qed.

Lemma flat_erase_ok key m : flat_ok m -> flat_ok (snd (flat_erase key m)).
Proof.
  unfold flat_ok. cbn. induction m as [|[k w] m IH]; intros Hs; [done|]. apply StronglySorted_inv in Hs as [Hs Hk]. cbn.
  destruct (negb (k =? key)); cbn; [|by apply IH]. constructor; [by apply IH|].
  rewrite Forall_forall in *. intros k' Hk'. apply Hk. apply list_elem_of_fmap in Hk' as (p & -> & Hp). apply list_elem_of_fmap. exists p.
  split; [done|]. apply list_elem_of_In. apply list_elem_of_In in Hp. by apply filter_In in Hp as [Hp _].
Qed.
End flat_map.

(** ** The operations *)

Lemma spec_find_connect rid fn s link rid' : link <> next_link s ->
  spec_find rid' link (spec_connect rid fn s) = spec_find rid' link s.
Proof. intros H. unfold spec_find, spec_connect. cbn. by rewrite lookup_insert_ne. Qed.

Lemma spec_find_new rid fn s rid' : spec_find rid' (next_link s) (spec_connect rid fn s) = if decide (rid = rid') then Some fn else None.
Proof. unfold spec_find, spec_connect. cbn. by rewrite lookup_insert_eq. Qed.

Lemma spec_find_bounds d s rid link fn : implements d s -> spec_find rid link s = Some fn -> 0 <= link < next_link s.
Proof.
  intros H Hf. unfold spec_find in Hf. destruct (conns s !! link) as [c|] eqn:E; [|done]. by eapply implements_bounds.
Qed.

(** The links of a recipient are below the next one. *)
Lemma handlers_bounds d s rid link : implements d s -> link ∈ map fst (handlers_of rid d) -> 0 <= link < next_link s.
Proof.
  intros H Hin. apply list_elem_of_fmap in Hin as ([l fn] & -> & Hin). apply (implements_handlers d s H rid) in Hin. by eapply spec_find_bounds.
Qed.

Lemma handlers_insert rid l d n ds rid' : handlers_of rid' (mkMessageDispatcher (<[rid := l]> (recipients d)) n ds) = if decide (rid' = rid) then l else handlers_of rid' d.
Proof. unfold handlers_of. cbn. destruct (decide (rid' = rid)) as [->|]; [by rewrite lookup_insert_eq|by rewrite lookup_insert_ne]. Qed.

Lemma connect_implements sv ob fn d s : implements d s -> next_link s < invalidSignalLink ->
  let '(l, d') := messagePendingConnect sv ob fn d in l = next_link s /\ implements d' (spec_connect (sv, ob) fn s).
Proof.
  intros H Hn. pose proof H as [H1 H0 H2 H3 H4]. unfold messagePendingConnect. split; [done|]. fold (handlers_of (sv, ob) d).
  assert (forall k, k ∈ map fst (handlers_of (sv, ob) d) -> k < nextSignalLink d) as Hlt by (intros k Hk; rewrite H1; by eapply handlers_bounds).
  rewrite flat_emplace_last by done. rewrite H1 in *. split; cbn [nextSignalLink next_link spec_connect conns recipients].
  - apply wrap64_small. unfold invalidSignalLink in Hn. lia.
  - lia.
  - intros rid. rewrite handlers_insert. split; [destruct (decide _); [by apply flat_ok_snoc; [apply H2|]|apply H2]|]. intros link f.
    destruct (decide (link = next_link s)) as [->|Hl].
    + rewrite spec_find_new. destruct (decide (rid = (sv, ob))) as [->|Hr].
      * rewrite decide_True by done. split; [|intros [= ->]; apply elem_of_app; right; by left].
        intros [Hin|Hin]%elem_of_app; [|by apply list_elem_of_singleton in Hin as [= ->]].
        exfalso. assert (next_link s < next_link s); [|lia]. apply Hlt, list_elem_of_fmap. by exists (next_link s, f).
      * rewrite decide_False by done. split; [|done]. intros Hin. apply (H2 rid) in Hin. pose proof (spec_find_bounds d s _ _ _ H Hin). lia.
    + rewrite spec_find_connect by done. destruct (decide (rid = (sv, ob))) as [->|Hr]; [|by apply H2].
      rewrite elem_of_app, list_elem_of_singleton. rewrite <- (proj2 (H2 (sv, ob)) link f). naive_solver.
  - intros rid l. destruct (decide (rid = (sv, ob))) as [->|Hr]; [|by rewrite lookup_insert_ne by done; apply H3].
    rewrite lookup_insert_eq. intros [= <-]. by intros [_ ?]%app_eq_nil.
  - intros link c. destruct (decide (link = next_link s)) as [->|Hl]; [lia|]. rewrite lookup_insert_ne by done. intros Hc. specialize (H4 _ _ Hc). lia.
Qed.

(** The table of recipients after an erasure. *)
Lemma erased_handlers rid l d rid' :
  handlers_of rid' (mkMessageDispatcher (match l with [] => delete rid (recipients d) | _ => <[rid := l]> (recipients d) end) (nextSignalLink d) (dispatches d)) =
  if decide (rid' = rid) then l else handlers_of rid' d.
Proof.
  destruct l as [|p l]; [|apply handlers_insert]. unfold handlers_of. cbn.
  destruct (decide (rid' = rid)) as [->|]; [by rewrite lookup_delete_eq|by rewrite lookup_delete_ne].
Qed.

Lemma spec_find_delete link s rid link' n : spec_find rid link' (mkConnections (delete link (conns s)) n) = if decide (link' = link) then None else spec_find rid link' s.
Proof. unfold spec_find. cbn. destruct (decide (link' = link)) as [->|]; [by rewrite lookup_delete_eq|by rewrite lookup_delete_ne]. Qed.

Lemma disconnect_implements sv ob link d s : implements d s ->
  let '(b, d') := messagePendingDisconnect sv ob link d in let '(b', s') := spec_disconnect (sv, ob) link s in b = b' /\ implements d' s'.
Proof.
  intros H. pose proof H as [H1 H0 H2 H3 H4]. unfold messagePendingDisconnect, spec_disconnect, isValidSignalLink. rewrite negb_involutive.
  destruct (link =? invalidSignalLink); [done|]. set (rid := (sv, ob)). destruct (H2 rid) as [Hs Hf].
  assert (handlers_of rid d = default [] (recipients d !! rid)) as Eh by done. rewrite Eh in Hs, Hf. clear Eh.
  destruct (recipients d !! rid) as [handlers|] eqn:E; cbn [default] in Hs, Hf.
  2: { destruct (spec_find rid link s) as [fn|] eqn:Ef; [|done]. apply Hf in Ef. by apply not_elem_of_nil in Ef. }
  destruct (flat_erase link handlers) as [n l] eqn:El. pose proof (flat_erase_ok link handlers Hs) as Hok. pose proof (flat_erase_elem link handlers) as Hel.
  rewrite El in Hok, Hel. cbn [snd] in Hok, Hel. assert (n = match flat_find link handlers with Some _ => 1 | None => 0 end) as -> by (by injection El as <- _).
  assert (flat_find link handlers = spec_find rid link s) as Eq.
  { destruct (spec_find rid link s) as [fn|] eqn:Ef; [apply flat_find_elem; [done|]; by apply Hf|].
    destruct (flat_find link handlers) as [fn|] eqn:Eg; [|done]. apply flat_find_elem in Eg; [|done]. apply Hf in Eg. congruence. }
  rewrite Eq. destruct (spec_find rid link s) as [fn|] eqn:Ef; (split; [done|]).
  - split; cbn [nextSignalLink next_link conns recipients]; [done|done| | |].
    + intros rid'. rewrite erased_handlers. split; [destruct (decide _); [done|apply H2]|]. intros link' f.
      rewrite spec_find_delete. destruct (decide (rid' = rid)) as [->|Hr].
      * rewrite Hel, Hf. cbn. destruct (decide (link' = link)) as [->|]; naive_solver.
      * rewrite (proj2 (H2 rid')). destruct (decide (link' = link)) as [->|]; [|done]. split; [|done].
        unfold spec_find in *. destruct (conns s !! link) as [[r g]|]; [|done]. destruct (decide (r = rid)); [|done]. by rewrite decide_False by congruence.
    + intros rid' l'. destruct l as [|p l].
      * intros Hl. apply lookup_delete_Some in Hl as [_ Hl]. by eapply H3.
      * intros Hl. apply lookup_insert_Some in Hl as [[_ <-]|[_ Hl]]; [done|by eapply H3].
    + intros link' c Hc. apply lookup_delete_Some in Hc as [_ Hc]. by eapply H4.
  - assert (l = handlers) as ->.
    { injection El as <-. apply forallb_filter_id, forallb_forall. intros [k f] Hin. apply negb_true_iff, Z.eqb_neq. cbn [fst]. intros ->.
      apply list_elem_of_In, Hf in Hin. congruence. }
    destruct handlers as [|p l]; [by destruct (H3 rid [])|]. destruct d as [r nx ds]. cbn [recipients nextSignalLink dispatches] in *. by rewrite insert_id.
Qed.

(** ** Executions *)

Section executions.
Context (handle : nat -> Message -> option DispatchStatus).
Notation exec := (exec handle).
Notation run := (run handle).

(** The progress of a dispatch does not concern the connections. *)
Lemma implements_dispatches d s ds : implements d s -> implements (mkMessageDispatcher (recipients d) (nextSignalLink d) ds) s.
Proof. intros [H1 H0 H2 H3 H4]. by split. Qed.

Lemma exec_implements o d s : implements d s -> next_link s < invalidSignalLink ->
  fst (exec o d) = fst (spec_exec o s) /\ implements (snd (exec o d)) (snd (spec_exec o s)) /\ next_link (snd (spec_exec o s)) <= next_link s + 1.
Proof.
  intros H Hn. destruct o as [sv ob fn|sv ob link|msg|i]; cbn [MessageDispatcher.exec spec_exec].
  - pose proof (connect_implements sv ob fn d s H Hn) as Hc. destruct (messagePendingConnect sv ob fn d) as [l d']. destruct Hc as [-> Hc]. cbn. split_and!; [done|done|lia].
  - pose proof (disconnect_implements sv ob link d s H) as Hc. destruct (messagePendingDisconnect sv ob link d) as [b d'].
    assert (next_link (snd (spec_disconnect (sv, ob) link s)) = next_link s) as Hl by (unfold spec_disconnect; destruct (link =? _); [done|]; by destruct (spec_find _ _ _)).
    destruct (spec_disconnect (sv, ob) link s) as [b' s']. destruct Hc as [-> Hc]. cbn in *. split_and!; [done|done|lia].
  - cbn. split_and!; [done|by apply implements_dispatches|lia].
  - cbn. split_and!; [done|by apply implements_dispatches|lia].
Qed.

Lemma run_implements ops d s : implements d s -> next_link s + Z.of_nat (length ops) <= invalidSignalLink ->
  fst (run ops d) = fst (spec_run ops s) /\ implements (snd (run ops d)) (snd (spec_run ops s)) /\
  next_link (snd (spec_run ops s)) <= next_link s + Z.of_nat (length ops).
Proof.
  revert d s. induction ops as [|o ops IH]; intros d s H Hn; cbn [MessageDispatcher.run spec_run]; [split_and!; [done|done|cbn; lia]|].
  cbn [length] in *. rewrite Nat2Z.inj_succ in *.
  destruct (exec_implements o d s H ltac:(lia)) as (H1 & H2 & H3). destruct (exec o d) as [r d'], (spec_exec o s) as [r' s']. cbn [fst snd] in *. subst r'.
  destruct (IH d' s' H2 ltac:(lia)) as (H4 & H5 & H6). destruct (run ops d') as [rs d''], (spec_run ops s') as [rs' s'']. cbn [fst snd] in *. subst rs'.
  split_and!; [done|done|lia].
Qed.

Lemma implements_new : implements MessageDispatcher_new connections_new.
Proof.
  split; [done|done| |done|done]. intros rid. split; [constructor|]. intros link fn. split; [by intros ?%not_elem_of_nil|done].
Qed.

(** C22. In every interleaving the dispatcher returns what the table of connections says: a
    connection gives a new link, a disconnection succeeds exactly when the link connects
    this recipient; and a recipient has its handlers in the order of their connections,
    and is forgotten when it has none. *)
Theorem dispatcher_refines ops : Z.of_nat (length ops) <= invalidSignalLink ->
  let '(rs, d) := run ops MessageDispatcher_new in let '(rs', s) := spec_run ops connections_new in rs = rs' /\ implements d s.
Proof.
  intros H. destruct (run_implements ops MessageDispatcher_new connections_new implements_new ltac:(cbn; lia)) as (H1 & H2 & _).
  destruct (run ops MessageDispatcher_new), (spec_run ops connections_new). done.
Qed.

(** ** Dispatches *)

(** What is left of a dispatch gives the rest of its result. *)
Definition dispatch_ok (msg : Message) (l : MessageHandlerList) (p : dispatching) : Prop :=
  d_message p = msg /\
  match d_result p with
  | Some b => spec_dispatch handle msg l = (b, d_called p)
  | None => spec_dispatch handle msg l = (fst (spec_dispatch handle msg (d_handlers p)), d_called p ++ snd (spec_dispatch handle msg (d_handlers p)))
  end.

Lemma step_dispatch_ok msg l p : dispatch_ok msg l p -> dispatch_ok msg l (tryDispatch_step handle p).
Proof.
  intros [H1 H2]. unfold tryDispatch_step. destruct (d_result p) as [b|] eqn:E; [by split; [|rewrite E]|].
  destruct (d_handlers p) as [|[link fn] hs]; cbn in H2; [split; [done|]; cbn; by rewrite H2, app_nil_r|]. rewrite H1.
  destruct (isMessageHandled (invoke_handler handle fn msg)); (split; [done|]); cbn; rewrite H2; [done|].
  destruct (spec_dispatch handle msg hs) as [b c]. cbn. by rewrite <- (assoc_L (++)).
Qed.

(** The number of steps of the dispatch of rank [i]. *)
Definition steps_of (i : nat) (ops : list dispatcher_op) : nat := length (List.filter (fun o => match o with Handle j => (j =? i)%nat | _ => false end) ops).

Lemma step_progress p : d_result p = None ->
  (length (d_handlers p) = 0%nat /\ d_result (tryDispatch_step handle p) <> None) \/ (length (d_handlers (tryDispatch_step handle p)) < length (d_handlers p))%nat.
Proof.
  intros E. unfold tryDispatch_step. rewrite E. destruct (d_handlers p) as [|[link fn] hs]; [by left|right].
  destruct (isMessageHandled _); cbn; lia.
Qed.

Lemma run_dispatch ops msg l d i p : dispatches d !! i = Some p -> dispatch_ok msg l p ->
  exists p', dispatches (snd (run ops d)) !! i = Some p' /\ dispatch_ok msg l p' /\
    ((length (d_handlers p) < steps_of i ops)%nat \/ d_result p <> None -> d_result p' <> None).
Proof.
  revert d p. induction ops as [|o ops IH]; intros d p Hp Hok; cbn [MessageDispatcher.run].
  { exists p. split_and!; [done|done|]. unfold steps_of. cbn. intros [?|?]; [lia|done]. }
  assert (exists p1, dispatches (snd (exec o d)) !! i = Some p1 /\ dispatch_ok msg l p1 /\
    ((length (d_handlers p) < steps_of i (o :: ops))%nat \/ d_result p <> None -> (length (d_handlers p1) < steps_of i ops)%nat \/ d_result p1 <> None)) as (p1 & H1 & H2 & H3).
  { destruct o as [sv ob fn|sv ob link|m|j]; cbn [MessageDispatcher.exec].
    - exists p. by split_and!.
    - exists p. split_and!; [|done|done]. unfold messagePendingDisconnect. destruct (negb _); [done|]. destruct (recipients d !! (sv, ob)); [|done].
      by destruct (flat_erase _ _).
    - exists p. split_and!; [|done|done]. cbn. by apply lookup_app_l_Some.
    - destruct (decide (i = j)) as [<-|Hn].
      + exists (tryDispatch_step handle p). cbn. rewrite list_lookup_alter_eq, Hp. split_and!; [done|by apply step_dispatch_ok|].
        unfold steps_of. cbn. rewrite Nat.eqb_refl. cbn. destruct (d_result p) eqn:E; [intros _; right; unfold tryDispatch_step; rewrite E; cbn; by rewrite E|].
        destruct (step_progress p E) as [[_ ?]|?]; [by right|]. intros [?|?]; [left; lia|done].
      + exists p. cbn. rewrite list_lookup_alter_ne by done. split_and!; [done|done|]. unfold steps_of. cbn.
        destruct (j =? i)%nat eqn:E; [apply Nat.eqb_eq in E; lia|done]. }
  destruct (IH _ p1 H1 H2) as (p' & H4 & H5 & H6). exists p'. destruct (exec o d) as [r d']. cbn [snd] in *. destruct (run ops d'). cbn [snd] in *.
  split_and!; [done|done|]. intros H. by apply H6, H3.
Qed.

(** A dispatch that begins after [ops] calls handlers that are connected to the service
    and the object of its message at that time, whatever happens while it runs: in the order
    of their connections, up to the first one that handles the message; the others, and the
    ones that throw, do not stop it. Its result tells whether one handled the message. It
    has its result after as many steps as there are handlers, and one. *)
Theorem dispatch_correct ops msg ops' : Z.of_nat (length ops) <= invalidSignalLink ->
  let d := snd (run ops MessageDispatcher_new) in let d' := snd (run ops' (dispatch msg d)) in
  exists l p, spec_handlers (service (_header msg), object (_header msg)) (snd (spec_run ops connections_new)) l /\
    dispatches d' !! length (dispatches d) = Some p /\
    (forall b, d_result p = Some b -> spec_dispatch handle msg l = (b, d_called p)) /\
    (d_result p = None -> exists rest, snd (spec_dispatch handle msg l) = d_called p ++ rest) /\
    ((length l < steps_of (length (dispatches d)) ops')%nat -> d_result p <> None).
Proof.
  intros Hn d d'. destruct (run_implements ops MessageDispatcher_new connections_new implements_new ltac:(cbn; lia)) as (_ & Hi & _). fold d in Hi.
  set (rid := (service (_header msg), object (_header msg))). exists (handlers_of rid d).
  destruct (run_dispatch ops' msg (handlers_of rid d) (dispatch msg d) (length (dispatches d)) (mkDispatching msg (handlers_of rid d) [] None)) as (p & H1 & H2 & H3).
  - unfold dispatch. cbn. by apply list_lookup_middle.
  - split; [done|]. cbn. by destruct (spec_dispatch handle msg (handlers_of rid d)).
  - exists p. destruct H2 as [_ H2]. split_and!; [apply Hi|done| | |].
    + intros b E. by rewrite E in H2.
    + intros E. rewrite E in H2. eexists. by rewrite H2.
    + intros Hl. apply H3. by left.
Qed.

(** Operations that leave a link connected. *)
Definition leaves (sv ob : Z) (link : SignalLink) (o : dispatcher_op) : bool :=
  match o with Disconnect sv' ob' link' => negb ((sv' =? sv) && (ob' =? ob) && (link' =? link)) | _ => true end.

Lemma spec_leaves sv ob link fn ops s : conns s !! link = Some ((sv, ob), fn) -> link < next_link s -> forallb (leaves sv ob link) ops = true ->
  conns (snd (spec_run ops s)) !! link = Some ((sv, ob), fn).
Proof.
  revert s. induction ops as [|o ops IH]; intros s Hs Hl Ho; [done|]. cbn [spec_run forallb] in *. apply andb_true_iff in Ho as [Ho Hops].
  assert (conns (snd (spec_exec o s)) !! link = Some ((sv, ob), fn) /\ link < next_link (snd (spec_exec o s))) as [H1 H2].
  { destruct o as [sv' ob' fn'|sv' ob' link'|m|i]; cbn [spec_exec]; [| |done|done].
    - cbn. rewrite lookup_insert_ne by lia. split; [done|lia].
    - unfold spec_disconnect. destruct (link' =? invalidSignalLink); [done|]. unfold spec_find.
      destruct (conns s !! link') as [[rid g]|] eqn:E; [|done]. destruct (decide (rid = (sv', ob'))) as [->|]; [|done]. cbn. split; [|done].
      rewrite lookup_delete_ne; [done|]. intros ->.
      assert (Some ((sv, ob), fn) = Some ((sv', ob'), g)) as [= <- <- <-] by (etransitivity; [symmetry; exact Hs|exact E]).
      cbn in Ho. by rewrite !Z.eqb_refl in Ho. }
  specialize (IH _ H1 H2 Hops). destruct (spec_exec o s) as [r s']. cbn [snd] in *. by destruct (spec_run ops s').
Qed.

(** A link that a connection gave is disconnected once: with anything in between but the
    same disconnection, the first one returns true and the next one returns false. *)
Theorem connect_then_disconnect ops sv ob fn ops' : Z.of_nat (length ops + length ops') + 3 <= invalidSignalLink -> 
  let d := snd (run ops MessageDispatcher_new) in
  let '(link, d1) := messagePendingConnect sv ob fn d in
  forallb (leaves sv ob link) ops' = true ->
  let '(b, d2) := messagePendingDisconnect sv ob link (snd (run ops' d1)) in
  b = true /\ fst (messagePendingDisconnect sv ob link d2) = false.
Proof.
  intros Hn d. destruct (run_implements ops MessageDispatcher_new connections_new implements_new ltac:(cbn; lia)) as (_ & Hi & Hb). fold d in Hi.
  set (s := snd (spec_run ops connections_new)) in *. cbn in Hb.
  pose proof (connect_implements sv ob fn d s Hi ltac:(lia)) as Hc. destruct (messagePendingConnect sv ob fn d) as [link d1]. destruct Hc as [-> Hc]. intros Hl.
  assert (next_link (spec_connect (sv, ob) fn s) = next_link s + 1) as Hx by done.
  destruct (run_implements ops' d1 _ Hc ltac:(lia)) as (_ & Hi' & _).
  pose proof (spec_leaves sv ob (next_link s) fn ops' (spec_connect (sv, ob) fn s)) as Hk. cbn [conns spec_connect] in Hk.
  rewrite lookup_insert_eq in Hk. specialize (Hk eq_refl ltac:(lia) Hl). set (s' := snd (spec_run ops' (spec_connect (sv, ob) fn s))) in *.
  pose proof (disconnect_implements sv ob (next_link s) (snd (run ops' d1)) s' Hi') as Hd.
  destruct (messagePendingDisconnect sv ob (next_link s) (snd (run ops' d1))) as [b d2].
  assert (spec_disconnect (sv, ob) (next_link s) s' = (true, mkConnections (delete (next_link s) (conns s')) (next_link s'))) as E.
  { unfold spec_disconnect, spec_find. rewrite Hk. rewrite decide_True by done. destruct (next_link s =? invalidSignalLink) eqn:Ei; [apply Z.eqb_eq in Ei; lia|done]. }
  rewrite E in Hd. destruct Hd as [-> Hd]. split; [done|].
  pose proof (disconnect_implements sv ob (next_link s) d2 _ Hd) as Hf. destruct (messagePendingDisconnect sv ob (next_link s) d2) as [b' d3].
  unfold spec_disconnect, spec_find in Hf. cbn [conns next_link] in Hf. rewrite lookup_delete_eq in Hf.
  destruct (next_link s =? invalidSignalLink) eqn:Ei; [apply Z.eqb_eq in Ei; lia|]. by destruct Hf as [-> _].
Qed.
End executions.

(** ** Concrete executions *)

(** Handlers that do not handle, throw, and handle. *)
Definition three_handlers (k : nat) (msg : Message) : option DispatchStatus :=
  match k with 0%nat => Some MessageNotHandled | 1%nat => None | _ => Some MessageHandled end.

Definition three_connected : list dispatcher_op := [Connect 1 1 0; Connect 1 1 1; Connect 1 1 2; Connect 2 1 2; Connect 1 1 2].

Lemma dispatcher_refines_witness :
  Z.of_nat (length three_connected) <= invalidSignalLink /\
  let '(rs, d) := run three_handlers three_connected MessageDispatcher_new in let '(rs', s) := spec_run three_connected connections_new in
  rs = rs' /\ implements d s.
Proof. split; [vm_compute; discriminate|]. apply (dispatcher_refines three_handlers three_connected). vm_compute. discriminate. Defined.

Definition some_message : Message := fst (Message_new 0 Type_Post (mkMessageAddress 1 1 1 5)).

(** The two first handlers do not stop the dispatch, the third does, though its link is
    disconnected before it is called. *)
Lemma dispatch_correct_witness :
  let d := snd (run three_handlers three_connected MessageDispatcher_new) in
  let d' := snd (run three_handlers [Handle 0; Disconnect 1 1 2; Handle 0; Handle 0; Handle 0; Handle 0] (dispatch some_message d)) in
  map d_result (dispatches d') = [Some true] /\ map d_called (dispatches d') = [[0; 1; 2]] /\
  exists l p, spec_handlers (service (_header some_message), object (_header some_message)) (snd (spec_run three_connected connections_new)) l /\
    dispatches d' !! length (dispatches d) = Some p /\
    (forall b, d_result p = Some b -> spec_dispatch three_handlers some_message l = (b, d_called p)) /\
    (d_result p = None -> exists rest, snd (spec_dispatch three_handlers some_message l) = d_called p ++ rest) /\
    ((length l < steps_of (length (dispatches d)) [Handle 0; Disconnect 1 1 2; Handle 0; Handle 0; Handle 0; Handle 0])%nat -> d_result p <> None).
Proof.
  intros d d'. split_and!; [vm_compute; reflexivity..|].
  apply (dispatch_correct three_handlers three_connected some_message [Handle 0; Disconnect 1 1 2; Handle 0; Handle 0; Handle 0; Handle 0]).
  vm_compute. discriminate.
Defined.

Lemma connect_then_disconnect_witness :
  let d := snd (run three_handlers [] MessageDispatcher_new) in
  let '(link, d1) := messagePendingConnect 1 1 0 d in
  let '(b, d2) := messagePendingDisconnect 1 1 link (snd (run three_handlers three_connected d1)) in
  b = true /\ fst (messagePendingDisconnect 1 1 link d2) = false.
Proof.
  apply (connect_then_disconnect three_handlers [] 1 1 0 three_connected); [vm_compute; discriminate|vm_compute; reflexivity].
Defined.
