(* ===== verification/StreamContext.v ===== *)
(** * StreamContext: the capabilities of a stream and the cache of meta objects

    Model of [src/messaging/streamcontext.cpp] and [streamcontext.hpp], with the part of
    the visitors of objects of [src/type/binarycodec.cpp] that uses the cache. Meta
    objects are a type with a decidable equality. *)
From S2P Require Import Prelude CString Bytes Buffer TypeInterface BinaryCodec.
From Stdlib Require Import Ascii.
#[local] Open Scope char_scope.
#[local] Open Scope list_scope.
#[local] Open Scope Z_scope.

(** ** Capabilities *)

Abbreviation AnyValue := (ty * value)%type.
Abbreviation CapabilityMap := (gmap bytes AnyValue).

Definition AnyValue_from_bool (b : bool) : AnyValue := (TInt false 0, VInt (if b then 1 else 0)).
Definition AnyValue_from_string (s : bytes) : AnyValue := (TString, VString s).

Definition clientServerSocket : bytes := lit "ClientServerSocket".
Definition metaObjectCache : bytes := lit "MetaObjectCache".
Definition messageFlags : bytes := lit "MessageFlags".
Definition remoteCancelableCalls : bytes := lit "RemoteCancelableCalls".
Definition objectPtrUid : bytes := lit "ObjectPtrUID".
Definition relativeEndpointUri : bytes := lit "RelativeEndpointURI".

Definition defaultCaps : CapabilityMap :=
  list_to_map [(clientServerSocket, AnyValue_from_bool true); (messageFlags, AnyValue_from_bool true);
    (metaObjectCache, AnyValue_from_bool false); (remoteCancelableCalls, AnyValue_from_bool true);
    (objectPtrUid, AnyValue_from_bool true); (relativeEndpointUri, AnyValue_from_bool true)].

(** [boost::algorithm::split] at each occurrence of a character. *)
Fixpoint split (c : ascii) (s : bytes) : list bytes :=
  match s with
  | [] => [[]]
  | x :: s' =>
      if decide (x = c) then [] :: split c s'
      else match split c s' with t :: l => (x :: t) :: l | [] => [[x]] end
  end.

(** One element of the environment variable. *)
Definition override (caps : CapabilityMap) (c : bytes) : CapabilityMap :=
  match c with
  | [] => caps
  | c0 :: c' =>
      match find_char "=" c with
      | None =>
          if decide (c0 = "-") then delete c' caps
          else if decide (c0 = "+") then <[c' := AnyValue_from_bool true]> caps
          else <[c := AnyValue_from_bool true]> caps
      | Some p => <[take p c := AnyValue_from_string (drop (S p) c)]> caps
      end
  end.

(** [initCapabilities], for the value of [QI_TRANSPORT_CAPABILITIES]. *)
Definition initCapabilities (capstring : bytes) : CapabilityMap := foldl override defaultCaps (split ":" capstring).

(** ** The context of a stream *)

Section stream.
Context {MetaObject : Type} `{Countable MetaObject}.

Record StreamContext := mkStreamContext {
  _cacheNextId : Z;                                  (* [Atomic<int>] *)
  _remoteCapabilityMap : CapabilityMap;
  _localCapabilityMap : CapabilityMap;
  _sendMetaObjectCache : gmap MetaObject Z;
  _receiveMetaObjectCache : gmap Z MetaObject;
}.

Definition StreamContext_new (defaultCapabilities : CapabilityMap) : StreamContext :=
  mkStreamContext 0 ∅ defaultCapabilities ∅ ∅.

Definition advertiseCapability (key : bytes) (v : AnyValue) (c : StreamContext) : StreamContext :=
  mkStreamContext (_cacheNextId c) (_remoteCapabilityMap c) (<[key := v]> (_localCapabilityMap c)) (_sendMetaObjectCache c) (_receiveMetaObjectCache c).

(** [std::map::insert] keeps the elements that are there. *)
Definition advertiseCapabilities (map : CapabilityMap) (c : StreamContext) : StreamContext :=
  mkStreamContext (_cacheNextId c) (_remoteCapabilityMap c) (_localCapabilityMap c ∪ map) (_sendMetaObjectCache c) (_receiveMetaObjectCache c).

Definition remoteCapability (key : bytes) (c : StreamContext) : option AnyValue := _remoteCapabilityMap c !! key.
Definition localCapability (key : bytes) (c : StreamContext) : option AnyValue := _localCapabilityMap c !! key.
Definition hasReceivedRemoteCapabilities (c : StreamContext) : bool := negb (base.size (_remoteCapabilityMap c) =? 0)%nat.

(** The accessors with a type: [to] is [AnyValue::to<T>], which may throw, and [lt] the order
    of the type. *)
Section typed.
Context {T : Type} (to : AnyValue -> option T) (lt : T -> T -> bool).

Definition capability_or (v : option AnyValue) (defaultValue : T) : option T :=
  match v with Some v => to v | None => Some defaultValue end.

Definition remoteCapability_or (key : bytes) (defaultValue : T) (c : StreamContext) : option T := capability_or (remoteCapability key c) defaultValue.
Definition localCapability_or (key : bytes) (defaultValue : T) (c : StreamContext) : option T := capability_or (localCapability key c) defaultValue.

Definition sharedCapability (key : bytes) (defaultValue : T) (c : StreamContext) : T :=
  match localCapability_or key defaultValue c with
  | None => defaultValue
  | Some v1 =>
      match remoteCapability_or key defaultValue c with
      | None => defaultValue
      | Some v2 => if lt v2 v1 then v2 else v1
      end
  end.
End typed.

Definition receiveCacheGet (uid : Z) (c : StreamContext) : option MetaObject := _receiveMetaObjectCache c !! uid.

Definition receiveCacheSet (uid : Z) (mo : MetaObject) (c : StreamContext) : StreamContext :=
  mkStreamContext (_cacheNextId c) (_remoteCapabilityMap c) (_localCapabilityMap c) (_sendMetaObjectCache c) (<[uid := mo]> (_receiveMetaObjectCache c)).

Definition wrap32 (z : Z) : Z := z mod 2 ^ 32.

Definition sendCacheSet (mo : MetaObject) (c : StreamContext) : (Z * bool) * StreamContext :=
  match _sendMetaObjectCache c !! mo with
  | None =>
      let v := wrap32 (_cacheNextId c + 1) in
      ((v, true), mkStreamContext v (_remoteCapabilityMap c) (_localCapabilityMap c) (<[mo := v]> (_sendMetaObjectCache c)) (_receiveMetaObjectCache c))
  | Some v => ((v, false), c)
  end.

(** ** The meta objects of the objects that are sent *)

Definition notCached : Z := 2 ^ 32 - 1.

(** What [SerializeTypeVisitor::visitAnyObject] writes: the meta object when it is
    transmitted, and its identifier in the cache when the cache is used. *)
Definition write_meta_object (use_cache : bool) (mo : MetaObject) (c : StreamContext) : (option MetaObject * Z) * StreamContext :=
  if use_cache then
    let '((metaObjectCachedId, transmitMetaObject), c) := sendCacheSet mo c in
    ((if transmitMetaObject : bool then Some mo else None, metaObjectCachedId), c)
  else ((Some mo, notCached), c).

(** What [DeserializeTypeVisitor::visitAnyObject] makes of it, or throws. *)
Definition read_meta_object (w : option MetaObject * Z) (c : StreamContext) : option MetaObject * StreamContext :=
  match w with
  | (None, metaObjectCachedId) => (receiveCacheGet metaObjectCachedId c, c)
  | (Some mo, metaObjectCachedId) =>
      (Some mo, if metaObjectCachedId =? notCached then c else receiveCacheSet metaObjectCachedId mo c)
  end.

(** Meta objects that are sent one after the other, and received in this order. *)
Fixpoint transmit (use_cache : bool) (mos : list MetaObject) (sender receiver : StreamContext) : list (option MetaObject) * (StreamContext * StreamContext) :=
  match mos with
  | [] => ([], (sender, receiver))
  | mo :: mos =>
      let '(w, sender) := write_meta_object use_cache mo sender in
      let '(r, receiver) := read_meta_object w receiver in
      let '(rs, ends) := transmit use_cache mos sender receiver in
      (r :: rs, ends)
  end.
End stream.
Arguments StreamContext MetaObject {_ _}.

(** * What a stream agrees on

    A meta object that is sent is the one that is received, whether it is transmitted
    or is in the cache; both ends agree on the capabilities they share; and an element
    of the environment variable decides on the capability that it names. *)
From Stdlib Require Import Ascii.
#[local] Open Scope char_scope.
#[local] Open Scope list_scope.
#[local] Open Scope Z_scope.

(** ** Definitions *)

(** The capability that an element of the variable names, and what it says of it. *)
Definition named (c : bytes) : option bytes :=
  match c with
  | [] => None
  | c0 :: c' =>
      match find_char "=" c with
      | None => if decide (c0 = "-" \/ c0 = "+") then Some c' else Some c
      | Some p => Some (take p c)
      end
  end.

Definition said (c : bytes) : option AnyValue :=
  match find_char "=" c with
  | None => if decide (head c = Some "-") then None else Some (AnyValue_from_bool true)
  | Some p => Some (AnyValue_from_string (drop (S p) c))
  end.

(** The elements with the separator between them. *)
Fixpoint join_elements (c : ascii) (l : list bytes) : bytes :=
  match l with
  | [] => []
  | [t] => t
  | t :: l' => t ++ c :: join_elements c l'
  end.

(** ** The environment variable *)

Lemma split_nonempty c s : split c s <> [].
Proof. destruct s as [|x s]; [done|]. cbn. case_decide; [done|]. by destruct (split c s). Qed.

Lemma split_join c s : join_elements c (split c s) = s /\ forall t, t ∈ split c s -> c ∉ t.
Proof.
  induction s as [|x s [IH1 IH2]].
  - split; [done|]. intros t ->%list_elem_of_singleton. apply not_elem_of_nil.
  - cbn. pose proof (split_nonempty c s) as Hn. case_decide as Hx.
    + subst. destruct (split c s) as [|t l]; [done|]. split; [cbn in *; by rewrite <- IH1|].
      intros u [->|Hu]%elem_of_cons; [apply not_elem_of_nil|by apply IH2].
    + destruct (split c s) as [|t l]; [done|]. split; [destruct l; cbn in *; by rewrite <- IH1|].
      intros u [->|Hu]%elem_of_cons; [|apply IH2; by right]. intros [?|Hc]%elem_of_cons; [congruence|]. apply (IH2 t); [by left|done].
Qed.

Lemma override_named caps c : override caps c = match named c with None => caps | Some key => match said c with None => delete key caps | Some v => <[key := v]> caps end end.
Proof.
  unfold override, named, said. destruct c as [|c0 c']; [done|]. destruct (find_char "=" (c0 :: c')); [done|]. cbn [head].
  destruct (decide (c0 = "-")) as [->|H1]; [by rewrite decide_True by (by left); rewrite decide_True|].
  rewrite (decide_False (P := Some c0 = Some "-")) by congruence.
  destruct (decide (c0 = "+")) as [->|H2]; [by rewrite decide_True by (by right)|]. by rewrite decide_False by naive_solver.
Qed.

Lemma override_other caps l key : (forall c, c ∈ l -> named c <> Some key) -> foldl override caps l !! key = caps !! key.
Proof.
  revert caps. induction l as [|c l IH]; intros caps H; [done|]. cbn. rewrite IH by (intros c' Hc; apply H; by right).
  rewrite override_named. specialize (H c ltac:(by left)). destruct (named c) as [key'|]; [|done].
  destruct (said c); [rewrite lookup_insert_ne by congruence|rewrite lookup_delete_ne by congruence]; done.
Qed.

(** The capabilities of a stream by default: the variable is cut at its colons; the last
    element that names a capability decides, a minus sign removes it, an equal sign gives a
    value, and otherwise it is set; one that is not named keeps its default. *)
Theorem capability_override capstring key : let l := split ":" capstring in
  (join_elements ":" l = capstring /\ forall t, t ∈ l -> ":" ∉ t) /\
  ((forall c, c ∈ l -> named c <> Some key) -> initCapabilities capstring !! key = defaultCaps !! key) /\
  (forall l1 c l2, l = l1 ++ c :: l2 -> named c = Some key -> (forall c', c' ∈ l2 -> named c' <> Some key) -> initCapabilities capstring !! key = said c).
Proof.
  intros l. split; [apply split_join|]. split; [apply override_other|]. intros l1 c l2 E Hc Hl. unfold initCapabilities. fold l. rewrite E, foldl_app.
  cbn. rewrite override_other by done. rewrite override_named, Hc. destruct (said c); [by rewrite lookup_insert_eq|by rewrite lookup_delete_eq].
Qed.

(** ** Both ends *)

Section stream.
Context {MetaObject : Type} `{Countable MetaObject}.
Implicit Types c : StreamContext MetaObject.

Definition bool_lt (a b : bool) : bool := negb a && b.

(** A boolean capability is shared when both ends have it and it is true for both, and
    both ends agree on this when each one knows what the other advertises. *)
Theorem shared_agree (to : AnyValue -> option bool) key c c' :
  (sharedCapability to bool_lt key false c = true <-> (localCapability key c ≫= to) = Some true /\ (remoteCapability key c ≫= to) = Some true) /\
  (_remoteCapabilityMap c = _localCapabilityMap c' -> _remoteCapabilityMap c' = _localCapabilityMap c ->
   forall d, sharedCapability to bool_lt key d c = sharedCapability to bool_lt key d c').
Proof.
  unfold sharedCapability, localCapability_or, remoteCapability_or, capability_or, localCapability, remoteCapability. split.
  - destruct (_localCapabilityMap c !! key) as [v1|], (_remoteCapabilityMap c !! key) as [v2|]; cbn; try (destruct (to v1) as [[]|]); try (destruct (to v2) as [[]|]); cbn; naive_solver.
  - intros -> -> d. destruct (_localCapabilityMap c !! key) as [v1|], (_localCapabilityMap c' !! key) as [v2|]; cbn;
      try (destruct (to v1) as [[]|]); try (destruct (to v2) as [[]|]); destruct d; done.
Qed.

(** The receiver knows the identifiers that the sender uses. *)
Definition cache_agrees (sender receiver : StreamContext MetaObject) : Prop :=
  0 <= _cacheNextId sender /\
  forall mo uid, _sendMetaObjectCache sender !! mo = Some uid -> 0 < uid <= _cacheNextId sender /\ _receiveMetaObjectCache receiver !! uid = Some mo.

Lemma send_receive mo sender receiver : cache_agrees sender receiver -> _cacheNextId sender + 1 < notCached ->
  let '(w, sender') := write_meta_object true mo sender in let '(r, receiver') := read_meta_object w receiver in
  r = Some mo /\ cache_agrees sender' receiver' /\ _cacheNextId sender' <= _cacheNextId sender + 1.
Proof.
  intros [H0 Ha] Hn. unfold write_meta_object, sendCacheSet. destruct (_sendMetaObjectCache sender !! mo) as [uid|] eqn:E.
  - cbn. destruct (Ha mo uid E) as [_ Hr]. split_and!; [done|done|lia].
  - unfold wrap32, notCached in *. rewrite Z.mod_small by lia. cbn [read_meta_object]. destruct (_ =? notCached) eqn:En; [apply Z.eqb_eq in En; unfold notCached in En; lia|].
    split; [done|]. split; [|cbn; lia]. split; [cbn; lia|]. intros mo' uid. cbn.
    destruct (decide (mo' = mo)) as [->|Hmo].
    + rewrite lookup_insert_eq. intros [= <-]. rewrite lookup_insert_eq. split; [lia|done].
    + rewrite lookup_insert_ne by done. intros Hs. destruct (Ha mo' uid Hs) as [Hu Hr]. rewrite lookup_insert_ne by lia. split; [lia|done].
Qed.

Lemma transmit_agrees (mos : list MetaObject) sender receiver : cache_agrees sender receiver -> _cacheNextId sender + Z.of_nat (length mos) < notCached ->
  fst (transmit true mos sender receiver) = map Some mos.
Proof.
  revert sender receiver. induction mos as [|mo mos IH]; intros sender receiver Ha Hn; [done|]. cbn [length] in Hn. rewrite Nat2Z.inj_succ in Hn. cbn [transmit].
  pose proof (send_receive mo sender receiver Ha ltac:(lia)) as Hs. destruct (write_meta_object true mo sender) as [w sender'].
  destruct (read_meta_object w receiver) as [r receiver']. destruct Hs as (-> & Ha' & Hl).
  specialize (IH sender' receiver' Ha' ltac:(lia)). destruct (transmit true mos sender' receiver') as [rs ends]. cbn in *. by rewrite IH.
Qed.

(** With a cache or without, every meta object that is sent is the one that is received,
    in the order of the stream; with a cache, for fewer than 2^32 - 1 objects. *)
Theorem meta_objects_transmitted use_cache (mos : list MetaObject) caps caps' : (use_cache = true -> Z.of_nat (length mos) < notCached) ->
  fst (transmit use_cache mos (StreamContext_new caps) (StreamContext_new caps')) = map Some mos.
Proof.
  intros Hn. destruct use_cache; [apply transmit_agrees; [split; [done|by intros mo uid ?]|specialize (Hn eq_refl); cbn; lia]|].
  generalize (StreamContext_new (MetaObject := MetaObject) caps) (StreamContext_new (MetaObject := MetaObject) caps'). clear Hn.
  induction mos as [|mo mos IH]; intros c c'; [done|]. cbn. rewrite Z.eqb_refl. specialize (IH c c'). destruct (transmit false mos c c') as [rs ends]. cbn in *. by rewrite IH.
Qed.
End stream.

(** ** Concrete executions *)

Lemma meta_objects_transmitted_witness :
  (true = true -> Z.of_nat (length [3; 5; 3; 3]) < notCached) /\
  fst (transmit (MetaObject := Z) true [3; 5; 3; 3] (StreamContext_new ∅) (StreamContext_new ∅)) = [Some 3; Some 5; Some 3; Some 3].
Proof. split; [vm_compute; reflexivity|]. apply (meta_objects_transmitted true [3; 5; 3; 3] ∅ ∅). vm_compute. reflexivity. Defined.

(** The three ways to write a capability, the last one on the same name. *)
Example override_example :
  let caps := initCapabilities (lit "-ObjectPtrUID:+X:Y=Z:MetaObjectCache") in
  (caps !! objectPtrUid, caps !! lit "X", caps !! lit "Y", caps !! metaObjectCache) =
  (None, Some (AnyValue_from_bool true), Some (AnyValue_from_string (lit "Z")), Some (AnyValue_from_bool true)).
Proof. vm_compute. reflexivity. Qed.

(** [advertiseCapabilities] does not update a capability that is there. *)
Example advertise_keeps :
  let c := StreamContext_new (MetaObject := Z) defaultCaps in
  localCapability metaObjectCache (advertiseCapabilities {[ metaObjectCache := AnyValue_from_bool true ]} c) = Some (AnyValue_from_bool false).
Proof. vm_compute. reflexivity. Qed.

(** Two threads send the same meta object: the one that finds it in the cache sends its
    message first, and the receiver does not know the identifier. *)
Example cache_overtaken :
  let '(w1, s1) := write_meta_object (MetaObject := Z) true 7 (StreamContext_new ∅) in
  let '(w2, _) := write_meta_object true 7 s1 in
  fst (read_meta_object w2 (StreamContext_new ∅)) = None.
Proof. vm_compute. reflexivity. Qed.
