(* ===== verification/MetaMethod.v ===== *)
(** * MetaMethod: the members of a meta object

    Model of [src/type/metamethod.cpp], [metamethod_p.hpp], [metasignal.cpp] and
    [metaproperty.cpp], with the store in which meta objects live. A [MetaMethod] is a
    shared pointer to its data, so copies of a method share them; the overloads of a
    name are chained by pointers to the nodes of the map of methods of one meta object.
    Both are explicit: data have addresses, and a node is a map and a key. A pointer
    into a map that is gone cannot be followed. *)
From S2P Require Import Prelude SortedMap CString Bytes Signature.
Open Scope Z_scope.

(** ** Machine integers *)

Definition u32 (z : Z) : Z := wrap 32 z.
(** A conversion to [int]. *)
Definition s32 (z : Z) : Z := let u := u32 z in if u <? 2 ^ 31 then u else u - 2 ^ 32.

(** ** The data *)

(** [MetaMethod *], a pointer to a value of a [std::map]. *)
Record method_ptr := mkPtr { ptr_map : nat; ptr_key : Z }.

Record MetaMethodPrivate := mkMetaMethodPrivate {
  mm_uid : Z;
  mm_sigreturn : Signature;
  mm_name : bytes;
  mm_parametersSignature : Signature;
  mm_description : bytes;
  mm_parameters : list (bytes * bytes);
  mm_returnDescription : bytes;
  mm_next : option method_ptr;
}.

(** The address of the data of a method. *)
Abbreviation MetaMethod := nat.
(** [std::map<unsigned int, MetaMethod>] *)
Abbreviation MethodMap := (list (Z * MetaMethod)).

Record MetaSignal := mkMetaSignal { ms_uid : Z; ms_name : bytes; ms_signature : Signature }.
Record MetaProperty := mkMetaProperty { mp_uid : Z; mp_name : bytes; mp_signature : Signature }.

Definition MetaMethodPrivate_new : MetaMethodPrivate := mkMetaMethodPrivate 0 Signature_empty [] Signature_empty [] [] [] None.

Definition MetaMethod_toString (p : MetaMethodPrivate) : bytes := mm_name p ++ lit "::" ++ toString (mm_parametersSignature p).
Definition MetaSignal_toString (m : MetaSignal) : bytes := ms_name m ++ lit "::" ++ toString (ms_signature m).
Definition MetaProperty_toString (m : MetaProperty) : bytes := mp_name m ++ lit "::" ++ toString (mp_signature m).

Definition qiObjectSpecialMemberMaxUid : Z := 100.
Definition isPrivateMember (name : bytes) (uid : Z) : bool :=
  (uid <? qiObjectSpecialMemberMaxUid) || match name with c :: _ => bool_decide (c = "_"%char) | [] => false end.

Inductive MetaObjectType := MetaObjectType_None | MetaObjectType_Signal | MetaObjectType_Method | MetaObjectType_Property.
#[export] Instance MetaObjectType_eq_dec : EqDecision MetaObjectType.
Proof. solve_decision. Defined.

Abbreviation SignatureToIdx := (gmap bytes (Z * MetaObjectType)).
Abbreviation OverloadMap := (gmap bytes method_ptr).

(** [_methods] is the identity of the map of methods: an assignment of the map gives it
    other nodes, so another identity. Of [_contentSHA1] the model keeps the text that is
    digested. *)
Record MetaObjectPrivate := mkMetaObjectPrivate {
  _methods : nat;
  _methodNameToOverload : OverloadMap;
  _objectNameToIdx : SignatureToIdx;
  _events : list (Z * MetaSignal);
  _properties : list (Z * MetaProperty);
  _index : Z;
  _description : bytes;
  _dirtyCache : bool;
  _contentSHA1 : option bytes;
}.

(** ** The store *)

Record Store := mkStore {
  privates : gmap nat MetaMethodPrivate;
  methodMaps : gmap nat MethodMap;
  objects : gmap nat MetaObjectPrivate;
  next_address : nat;
}.

Definition Store_empty : Store := mkStore ∅ ∅ ∅ 0.

Inductive meta_error :=
  | MethodAlreadyDefined (sigId : Z)
  | SignalAlreadyDefined (methId : Z)
  | PropertyAlreadyDefined (methId sigId : Z)
  | InvalidSignatureText (e : sig_error).

(** What an operation does: it returns, it throws, it follows a pointer to an object that
    is gone, or it is still running when its fuel is spent. *)
Inductive outcome (A : Type) :=
  | Return (a : A) (s : Store)
  | Throw (e : meta_error) (s : Store)
  | Undefined
  | Running.
Arguments Return {A} a s.
Arguments Throw {A} e s.
Arguments Undefined {A}.
Arguments Running {A}.

Definition ST (A : Type) : Type := Store -> outcome A.
#[export] Instance ST_ret : MRet ST := fun A a s => Return a s.
#[export] Instance ST_bind : MBind ST := fun A B f m s =>
  match m s with
  | Return a s' => f a s'
  | Throw e s' => Throw e s'
  | Undefined => Undefined
  | Running => Running
  end.

Definition throw {A} (e : meta_error) : ST A := fun s => Throw e s.
Definition undefined {A} : ST A := fun _ => Undefined.
Definition running {A} : ST A := fun _ => Running.
Definition of_result {A} (r : result sig_error A) : ST A :=
  match r with Ok a => mret a | Err e => throw (InvalidSignatureText e) end.

(** A loop over the values of a container. *)
Fixpoint for_each {A B} (body : B -> A -> ST B) (acc : B) (l : list A) : ST B :=
  match l with
  | [] => mret acc
  | x :: l' => acc' ← body acc x; for_each body acc' l'
  end.

Definition load {A} (table : Store -> gmap nat A) (a : nat) : ST A := fun s =>
  match table s !! a with Some x => Return x s | None => Undefined end.

Definition get_private : MetaMethod -> ST MetaMethodPrivate := load privates.
Definition get_methods : nat -> ST MethodMap := load methodMaps.
Definition get_object : nat -> ST MetaObjectPrivate := load objects.

Definition set_private (a : MetaMethod) (p : MetaMethodPrivate) : ST unit := fun s =>
  Return () (mkStore (<[a := p]> (privates s)) (methodMaps s) (objects s) (next_address s)).
Definition set_methods (a : nat) (m : MethodMap) : ST unit := fun s =>
  Return () (mkStore (privates s) (<[a := m]> (methodMaps s)) (objects s) (next_address s)).
Definition set_object (a : nat) (o : MetaObjectPrivate) : ST unit := fun s =>
  Return () (mkStore (privates s) (methodMaps s) (<[a := o]> (objects s)) (next_address s)).
Definition delete_methods (a : nat) : ST unit := fun s =>
  Return () (mkStore (privates s) (delete a (methodMaps s)) (objects s) (next_address s)).
Definition delete_object (a : nat) : ST unit := fun s =>
  Return () (mkStore (privates s) (methodMaps s) (delete a (objects s)) (next_address s)).
Definition new_address : ST nat := fun s =>
  Return (next_address s) (mkStore (privates s) (methodMaps s) (objects s) (S (next_address s))).

(** Following a [MetaMethod *]. *)
Definition deref (p : method_ptr) : ST MetaMethod :=
  m ← get_methods (ptr_map p);
  match map_find Z.compare (ptr_key p) m with Some r => mret r | None => undefined end.

(** ** Methods and their builders

    A [MetaMethodBuilder] is the method that it builds; [metaMethod] returns a copy, and so
    does the copy of a builder, which shares the data with it: the setters also change the
    copies. *)

Definition MetaMethod_new (p : MetaMethodPrivate) : ST MetaMethod :=
  a ← new_address; _ ← set_private a p; mret a.

(** The constructor with another identifier copies the data. *)
Definition MetaMethod_with_uid (newUid : Z) (other : MetaMethod) : ST MetaMethod :=
  p ← get_private other;
  MetaMethod_new (mkMetaMethodPrivate newUid (mm_sigreturn p) (mm_name p) (mm_parametersSignature p) (mm_description p)
                    (mm_parameters p) (mm_returnDescription p) (mm_next p)).

Definition MetaMethodBuilder_new : ST MetaMethod := MetaMethod_new MetaMethodPrivate_new.

Definition modify_private (a : MetaMethod) (f : MetaMethodPrivate -> MetaMethodPrivate) : ST unit :=
  p ← get_private a; set_private a (f p).

Definition with_uid (uid : Z) (p : MetaMethodPrivate) : MetaMethodPrivate :=
  mkMetaMethodPrivate (u32 uid) (mm_sigreturn p) (mm_name p) (mm_parametersSignature p) (mm_description p) (mm_parameters p)
    (mm_returnDescription p) (mm_next p).
Definition setUid (uid : Z) (a : MetaMethod) : ST unit := modify_private a (with_uid uid).
Definition setName (name : bytes) (a : MetaMethod) : ST unit := modify_private a (fun p =>
  mkMetaMethodPrivate (mm_uid p) (mm_sigreturn p) name (mm_parametersSignature p) (mm_description p) (mm_parameters p)
    (mm_returnDescription p) (mm_next p)).
Definition setParametersSignature (sig : Signature) (a : MetaMethod) : ST unit := modify_private a (fun p =>
  mkMetaMethodPrivate (mm_uid p) (mm_sigreturn p) (mm_name p) sig (mm_description p) (mm_parameters p)
    (mm_returnDescription p) (mm_next p)).
Definition setReturnSignature (sig : Signature) (a : MetaMethod) : ST unit := modify_private a (fun p =>
  mkMetaMethodPrivate (mm_uid p) sig (mm_name p) (mm_parametersSignature p) (mm_description p) (mm_parameters p)
    (mm_returnDescription p) (mm_next p)).
(** [setSignature], from the signatures of the function without its first argument. *)
Definition setSignature (parametersSignature returnSignature : Signature) (a : MetaMethod) : ST unit :=
  _ ← setParametersSignature parametersSignature a; setReturnSignature returnSignature a.
Definition setReturnDescription (desc : bytes) (a : MetaMethod) : ST unit := modify_private a (fun p =>
  mkMetaMethodPrivate (mm_uid p) (mm_sigreturn p) (mm_name p) (mm_parametersSignature p) (mm_description p) (mm_parameters p)
    desc (mm_next p)).
Definition appendParameter (name description : bytes) (a : MetaMethod) : ST unit := modify_private a (fun p =>
  mkMetaMethodPrivate (mm_uid p) (mm_sigreturn p) (mm_name p) (mm_parametersSignature p) (mm_description p)
    (mm_parameters p ++ [(name, description)]) (mm_returnDescription p) (mm_next p)).
Definition setMethodDescription (desc : bytes) (a : MetaMethod) : ST unit := modify_private a (fun p =>
  mkMetaMethodPrivate (mm_uid p) (mm_sigreturn p) (mm_name p) (mm_parametersSignature p) desc (mm_parameters p)
    (mm_returnDescription p) (mm_next p)).
Definition with_next (next : option method_ptr) (p : MetaMethodPrivate) : MetaMethodPrivate :=
  mkMetaMethodPrivate (mm_uid p) (mm_sigreturn p) (mm_name p) (mm_parametersSignature p) (mm_description p) (mm_parameters p)
    (mm_returnDescription p) next.
Definition setNext (next : option method_ptr) (a : MetaMethod) : ST unit := modify_private a (with_next next).
