(* ===== verification/MetaObject.v ===== *)
(** * MetaObject: the interface of an object and the resolution of overloads

    Model of [src/type/metaobject.cpp] and [metaobject_p.hpp]: the tables of methods,
    signals and properties with the cache of names and the chains of overloads, the
    operations that add members, merge and copy meta objects, and [findMethod], which
    chooses the method that a call names. An operation is a function of the store of
    [MetaMethod]; the mutexes make it atomic. The logs, the texts of errors and the
    printers are left out, and so are the checks of debug builds. *)
From S2P Require Import Prelude SortedMap CString Bytes Signature Float32 SignatureConvert MetaMethod.
Open Scope Z_scope.

(** The fields that the operations write. *)
Definition with_names (names : SignatureToIdx) (o : MetaObjectPrivate) : MetaObjectPrivate :=
  mkMetaObjectPrivate (_methods o) (_methodNameToOverload o) names (_events o) (_properties o) (_index o) (_description o) true
    (_contentSHA1 o).
Definition with_events (events : list (Z * MetaSignal)) (o : MetaObjectPrivate) : MetaObjectPrivate :=
  mkMetaObjectPrivate (_methods o) (_methodNameToOverload o) (_objectNameToIdx o) events (_properties o) (_index o) (_description o)
    (_dirtyCache o) (_contentSHA1 o).
Definition with_properties (properties : list (Z * MetaProperty)) (o : MetaObjectPrivate) : MetaObjectPrivate :=
  mkMetaObjectPrivate (_methods o) (_methodNameToOverload o) (_objectNameToIdx o) (_events o) properties (_index o) (_description o)
    (_dirtyCache o) (_contentSHA1 o).
Definition with_index (index : Z) (o : MetaObjectPrivate) : MetaObjectPrivate :=
  mkMetaObjectPrivate (_methods o) (_methodNameToOverload o) (_objectNameToIdx o) (_events o) (_properties o) index (_description o)
    (_dirtyCache o) (_contentSHA1 o).

(** ** Identifiers *)

Definition idFromName (map : SignatureToIdx) (sig : bytes) (type : MetaObjectType) : Z :=
  match map !! sig with
  | Some (id, t) => if decide (t = type) then s32 id else -1
  | None => -1
  end.

Definition methodId (o : MetaObjectPrivate) (signature : bytes) : Z := idFromName (_objectNameToIdx o) signature MetaObjectType_Method.
Definition propertyId (o : MetaObjectPrivate) (signature : bytes) : Z :=
  idFromName (_objectNameToIdx o) signature MetaObjectType_Property.

Definition signalId (o : MetaObjectPrivate) (signature : bytes) : Z :=
  let id := idFromName (_objectNameToIdx o) signature MetaObjectType_Signal in
  if id =? -1 then
    match List.find (fun ms => bool_decide (ms_name (snd ms) = signature)) (_events o) with
    | Some ms => s32 (fst ms)
    | None => id
    end
  else id.

(** [MetaObject::propertyId] *)
Definition propertyId_of_name (o : MetaObjectPrivate) (name : bytes) : Z :=
  match List.find (fun mp => bool_decide (mp_name (snd mp) = name)) (_properties o) with
  | Some mp => s32 (fst mp)
  | None => -1
  end.

Definition signal_of_name (o : MetaObjectPrivate) (name : bytes) : option MetaSignal :=
  let id := signalId o name in
  if id <? 0 then None else map_find Z.compare (u32 id) (_events o).

(** [++_index], as an [int] *)
Definition next_index (o : MetaObjectPrivate) : Z := s32 (_index o + 1).

(** The identifier of a new member, and the counter. *)
Definition allot (uid : Z) (o : MetaObjectPrivate) : Z * MetaObjectPrivate :=
  if uid =? -1 then (next_index o, with_index (u32 (_index o + 1)) o) else (uid, o).

(** ** The cache *)

(** What [refreshCache] has computed: the names, the overloads, the greatest identifier
    and the text. *)
Record refreshed := mkRefreshed { r_names : SignatureToIdx; r_overloads : OverloadMap; r_idx : Z; r_buff : bytes }.

Definition refresh_method (methods : nat) (acc : refreshed) (slot : Z * MetaMethod) : ST refreshed :=
  let '(key, metaMethod) := slot in
  p ← get_private metaMethod;
  let methodNameSignature := MetaMethod_toString p in
  let names := <[methodNameSignature := (mm_uid p, MetaObjectType_Method)]> (r_names acc) in
  let idx := Z.max (r_idx acc) (mm_uid p) in
  let buff := r_buff acc ++ methodNameSignature ++ to_decimal (mm_uid p) in
  _ ← setNext (r_overloads acc !! mm_name p) metaMethod;
  mret (mkRefreshed names (<[mm_name p := mkPtr methods key]> (r_overloads acc)) idx buff).

Definition refresh_signal (acc : refreshed) (slot : Z * MetaSignal) : refreshed :=
  let metaSignal := snd slot in
  let metaSignalNameSignature := MetaSignal_toString metaSignal in
  mkRefreshed (<[metaSignalNameSignature := (ms_uid metaSignal, MetaObjectType_Signal)]> (r_names acc)) (r_overloads acc)
    (Z.max (r_idx acc) (ms_uid metaSignal)) (r_buff acc ++ metaSignalNameSignature ++ to_decimal (ms_uid metaSignal)).

Definition refreshCache (this : nat) : ST unit :=
  o ← get_object this;
  slots ← get_methods (_methods o);
  acc ← for_each (refresh_method (_methods o)) (mkRefreshed ∅ ∅ 0 []) slots;
  let acc := foldl refresh_signal acc (_events o) in
  set_object this
    (mkMetaObjectPrivate (_methods o) (r_overloads acc) (r_names acc) (_events o) (_properties o) (Z.max (r_idx acc) (_index o))
       (_description o) false (Some (r_buff acc ++ _description o))).

(** ** Members *)

(** An identifier, and whether the member is new. *)
Abbreviation MemberAddInfo := (Z * bool)%type.

Definition addMethod (this : nat) (builder : MetaMethod) (uid : Z) : ST MemberAddInfo :=
  method ← get_private builder;
  o ← get_object this;
  let sigId := signalId o (MetaMethod_toString method) in
  let propId := propertyId o (MetaMethod_toString method) in
  if decide (sigId <> -1 \/ propId <> -1) then throw (MethodAlreadyDefined sigId)
  else
    let methId := methodId o (MetaMethod_toString method) in
    if decide (methId <> -1) then mret (u32 methId, false)
    else
      let '(uid, o) := allot uid o in
      _ ← setUid uid builder;
      methods ← get_methods (_methods o);
      _ ← set_methods (_methods o) (map_set Z.compare (u32 uid) builder methods);
      _ ← set_object this
            (with_names (<[MetaMethod_toString method := (u32 uid, MetaObjectType_Method)]> (_objectNameToIdx o)) o);
      mret (u32 uid, true).

(** When the signal is there, its entry of [_events] is read for the log: the identifier is
    one of its keys, which are never removed. *)
Definition addSignal (this : nat) (name : bytes) (signature : Signature) (uid : Z) (isSignalProperty : bool) : ST MemberAddInfo :=
  o ← get_object this;
  let msWithoutUid := mkMetaSignal (u32 (-1)) name signature in
  let methId := methodId o (MetaSignal_toString msWithoutUid) in
  let propId := propertyId o (MetaSignal_toString msWithoutUid) in
  if decide (methId <> -1 \/ propId <> -1) then throw (SignalAlreadyDefined methId)
  else
    let sigId := signalId o (MetaSignal_toString msWithoutUid) in
    if decide (sigId <> -1) then mret (u32 sigId, false)
    else
      let '(uid, o) := allot uid o in
      let ms := mkMetaSignal (u32 uid) name signature in
      let type := if isSignalProperty then MetaObjectType_Property else MetaObjectType_Signal in
      _ ← set_object this
            (with_names (<[MetaSignal_toString ms := (u32 uid, type)]> (_objectNameToIdx o))
               (with_events (map_set Z.compare (u32 uid) ms (_events o)) o));
      mret (u32 uid, true).

Definition addProperty (this : nat) (name : bytes) (signature : Signature) (id : Z) : ST MemberAddInfo :=
  o ← get_object this;
  asTuple ← of_result (Signature_new (lit "(" ++ toString signature ++ lit ")"));
  let msWithoutUid := mkMetaSignal (u32 (-1)) name asTuple in
  let methId := methodId o (MetaSignal_toString msWithoutUid) in
  let sigId := signalId o (MetaSignal_toString msWithoutUid) in
  if decide (methId <> -1 \/ (sigId <> -1 /\ sigId <> id)) then throw (PropertyAlreadyDefined methId sigId)
  else
    match List.find (fun it => bool_decide (mp_name (snd it) = name)) (_properties o) with
    | Some it => mret (mp_uid (snd it), false)
    | None =>
        let '(id, o) := allot id o in
        let mp := mkMetaProperty (u32 id) name signature in
        _ ← set_object this
              (with_names (<[MetaProperty_toString mp := (u32 id, MetaObjectType_Property)]> (_objectNameToIdx o))
                 (with_properties (map_set Z.compare (u32 id) mp (_properties o)) o));
        mret (u32 id, true)
    end.

Definition setDescription (this : nat) (desc : bytes) : ST unit :=
  o ← get_object this;
  set_object this
    (mkMetaObjectPrivate (_methods o) (_methodNameToOverload o) (_objectNameToIdx o) (_events o) (_properties o) (_index o) desc
       (_dirtyCache o) (_contentSHA1 o)).

(** ** Merging

    The loops return as soon as a member differs from the one that has its identifier;
    the members before it stay. *)

Definition set_dirty (this : nat) : ST unit :=
  o ← get_object this; set_object this (with_names (_objectNameToIdx o) o).

(** The names change and the cache does not become dirty yet. *)
Definition put_name (text : bytes) (id : Z) (type : MetaObjectType) (o : MetaObjectPrivate) : MetaObjectPrivate :=
  mkMetaObjectPrivate (_methods o) (_methodNameToOverload o) (<[text := (id, type)]> (_objectNameToIdx o)) (_events o) (_properties o)
    (_index o) (_description o) (_dirtyCache o) (_contentSHA1 o).

Fixpoint addMethods (this : nat) (mms : MethodMap) : ST bool :=
  match mms with
  | [] => _ ← set_dirty this; mret true
  | (_, method) :: mms' =>
      p ← get_private method;
      let newUid := mm_uid p in
      o ← get_object this;
      methods ← get_methods (_methods o);
      same ← match map_find Z.compare newUid methods with
             | None => mret true
             | Some jt =>
                 q ← get_private jt;
                 mret (bool_decide (MetaMethod_toString q = MetaMethod_toString p) && sig_eq (mm_sigreturn q) (mm_sigreturn p))
             end;
      if same : bool then
        copy ← MetaMethod_with_uid newUid method;
        _ ← set_methods (_methods o) (map_set Z.compare newUid copy methods);
        _ ← set_object this (put_name (MetaMethod_toString p) newUid MetaObjectType_Method o);
        addMethods this mms'
      else mret false
  end.

Fixpoint addSignals (this : nat) (mms : list (Z * MetaSignal)) : ST bool :=
  match mms with
  | [] => _ ← set_dirty this; mret true
  | (_, signal) :: mms' =>
      o ← get_object this;
      let newUid := ms_uid signal in
      if match map_find Z.compare newUid (_events o) with
         | None => true
         | Some jt => bool_decide (MetaSignal_toString jt = MetaSignal_toString signal)
         end then
        let ms := mkMetaSignal newUid (ms_name signal) (ms_signature signal) in
        _ ← set_object this
              (put_name (MetaSignal_toString ms) newUid MetaObjectType_Signal
                 (with_events (map_set Z.compare newUid ms (_events o)) o));
        addSignals this mms'
      else mret false
  end.

Fixpoint addProperties (this : nat) (mms : list (Z * MetaProperty)) : ST bool :=
  match mms with
  | [] => _ ← set_dirty this; mret true
  | (_, property) :: mms' =>
      o ← get_object this;
      let newUid := mp_uid property in
      if match map_find Z.compare newUid (_properties o) with
         | None => true
         | Some jt => bool_decide (MetaProperty_toString jt = MetaProperty_toString property)
         end then
        let mp := mkMetaProperty newUid (mp_name property) (mp_signature property) in
        _ ← set_object this
              (put_name (MetaProperty_toString mp) newUid MetaObjectType_Property
                 (with_properties (map_set Z.compare newUid mp (_properties o)) o));
        addProperties this mms'
      else mret false
  end.

(** ** Life of a meta object *)

Definition MetaObject_new : ST nat :=
  methods ← new_address;
  _ ← set_methods methods [];
  this ← new_address;
  _ ← set_object this (mkMetaObjectPrivate methods ∅ ∅ [] [] (qiObjectSpecialMemberMaxUid - 1) [] false None);
  mret this.

(** [MetaObjectPrivate::operator=] *)
Definition MetaObject_assign (this rhs : nat) : ST unit :=
  if decide (this = rhs) then mret ()
  else
    o ← get_object this;
    r ← get_object rhs;
    methods ← get_methods (_methods r);
    _ ← delete_methods (_methods o);
    nodes ← new_address;
    _ ← set_methods nodes methods;
    _ ← set_object this
          (mkMetaObjectPrivate nodes (_methodNameToOverload o) (_objectNameToIdx r) (_events r) (_properties r) (_index r)
             (_description r) (_dirtyCache o) (_contentSHA1 o));
    refreshCache this.

Definition MetaObject_copy (other : nat) : ST nat :=
  this ← MetaObject_new;
  _ ← MetaObject_assign this other;
  mret this.

(** The constructor from the maps of the members. *)
Definition MetaObject_make (methodMap : MethodMap) (signalMap : list (Z * MetaSignal)) (propertyMap : list (Z * MetaProperty))
    (description : bytes) : ST nat :=
  this ← MetaObject_new;
  o ← get_object this;
  _ ← set_methods (_methods o) methodMap;
  _ ← set_object this
        (mkMetaObjectPrivate (_methods o) (_methodNameToOverload o) (_objectNameToIdx o) signalMap propertyMap (_index o) description
           (_dirtyCache o) (_contentSHA1 o));
  _ ← refreshCache this;
  mret this.

Definition MetaObject_destroy (this : nat) : ST unit :=
  o ← get_object this;
  _ ← delete_methods (_methods o);
  delete_object this.

Definition methodMap (this : nat) : ST MethodMap := o ← get_object this; get_methods (_methods o).

(** [MetaObject::method] *)
Definition method_of_id (this : nat) (id : Z) : ST (option MetaMethod) :=
  methods ← methodMap this; mret (map_find Z.compare id methods).

(** The result is not copied when it is returned. *)
Definition merge (source dest : nat) : ST nat :=
  result ← MetaObject_copy source;
  methods ← methodMap dest;
  _ ← addMethods result methods;
  d ← get_object dest;
  _ ← addSignals result (_events d);
  _ ← addProperties result (_properties d);
  _ ← setDescription result (_description d);
  _ ← refreshCache result;
  mret result.

(** ** [MetaObjectBuilder], which is the meta object that it builds *)

Definition builder_addMethod (this : nat) (sigret : Signature) (name : bytes) (signature : Signature) (id : Z) : ST MemberAddInfo :=
  mmb ← MetaMethodBuilder_new;
  _ ← setReturnSignature sigret mmb;
  _ ← setName name mmb;
  _ ← setParametersSignature signature mmb;
  addMethod this mmb id.

Definition builder_addSignal (this : nat) (name : bytes) (sig : Signature) (id : Z) : ST MemberAddInfo := addSignal this name sig id false.

Definition builder_metaObject (this : nat) : ST nat :=
  _ ← refreshCache this; MetaObject_copy this.

(** ** Looking for methods *)

(** [findMethod] by name, in the order of the map. *)
Definition findMethods (this : nat) (name : bytes) : ST (list MetaMethod) :=
  methods ← methodMap this;
  for_each (fun ret slot => p ← get_private (snd slot); mret (if decide (mm_name p = name) then ret ++ [snd slot] else ret)) [] methods.

(** What [findMethod] uses of the arguments: their number, and their signature with
    their static types or with the types of their values. *)
Record GenericFunctionParameters := mkArgs { args_size : Z; args_signature : bool -> Signature }.

(** The signature "m". *)
Definition Signature_m : Signature := Sig (lit "m") [].

Definition accepts (nargs : Z) (p : MetaMethodPrivate) : bool :=
  let sig := mm_parametersSignature p in
  sig_eq sig Signature_m || (Z.of_nat (length (children sig)) =? nargs).

(** The first overload with the number of arguments, and whether there is a second one. *)
Fixpoint scan_overloads (fuel : nat) (nargs : Z) (firstMatch : option MetaMethodPrivate) (mm : option method_ptr)
    : ST (option MetaMethodPrivate * bool) :=
  match mm with
  | None => mret (firstMatch, false)
  | Some ptr =>
      match fuel with
      | O => running
      | S fuel =>
          r ← deref ptr;
          p ← get_private r;
          if accepts nargs p then
            match firstMatch with
            | Some _ => mret (firstMatch, true)
            | None => scan_overloads fuel nargs (Some p) (mm_next p)
            end
          else scan_overloads fuel nargs firstMatch (mm_next p)
      end
  end.

Section find_method.
Variable requireSameName : bool.

(** A method with its score, when it is not zero. *)
Definition scored (sResolved : Signature) (p : MetaMethodPrivate) : option (list (MetaMethodPrivate * f32)) :=
  score ← isConvertibleTo requireSameName sResolved (mm_parametersSignature p);
  mret (if f32_eqb score f32_zero then [] else [(p, score)]).

(** The overloads to which the arguments convert, with their scores. *)
Fixpoint convertible_overloads (fuel : nat) (sResolved : Signature) (mm : option method_ptr) : ST (list (MetaMethodPrivate * f32)) :=
  match mm with
  | None => mret []
  | Some ptr =>
      match fuel with
      | O => running
      | S fuel =>
          r ← deref ptr;
          p ← get_private r;
          s ← match scored sResolved p with Some s => mret s | None => undefined end;
          mml ← convertible_overloads fuel sResolved (mm_next p);
          mret (s ++ mml)
      end
  end.

(** [std::max_element], and the number of the scores that equal it. *)
Fixpoint max_element (it : MetaMethodPrivate * f32) (l : list (MetaMethodPrivate * f32)) : MetaMethodPrivate * f32 :=
  match l with
  | [] => it
  | x :: l' => max_element (if f32_ltb (snd it) (snd x) then x else it) l'
  end.
Definition count_best (best : f32) (mml : list (MetaMethodPrivate * f32)) : nat :=
  length (List.filter (fun x => f32_eqb (snd x) best) mml).

(** One turn of the resolution by the arguments: the identifier, or the error that it
    leaves for the end. *)
Definition choose (mml : list (MetaMethodPrivate * f32)) (retval : Z) : Z + Z :=
  match mml with
  | [] => inr retval
  | [x] => inl (s32 (mm_uid (fst x)))
  | x :: l =>
      let it := max_element x l in
      if (1 <? count_best (snd it) mml)%nat then inr (-3) else inl (s32 (mm_uid (fst it)))
  end.

Fixpoint resolve (fuel : nat) (this : nat) (nameWithOptionalSignature : bytes) (args : GenericFunctionParameters)
    (firstOverload : option method_ptr) (retval : Z) (dyns : list bool) : ST Z :=
  match dyns with
  | [] => mret retval
  | dyn :: dyns' =>
      let sResolved := args_signature args dyn in
      o ← get_object this;
      let idRev := methodId o nameWithOptionalSignature in
      if decide (idRev <> -1) then mret idRev
      else
        mml ← convertible_overloads fuel sResolved firstOverload;
        match choose mml retval with
        | inl uid => mret uid
        | inr retval' => resolve fuel this nameWithOptionalSignature args firstOverload retval' dyns'
        end
  end.

(** The identifier or an error, and [canCache]. *)
Definition findMethod (fuel : nat) (this : nat) (nameWithOptionalSignature : bytes) (args : GenericFunctionParameters) : ST (Z * bool) :=
  o ← get_object this;
  _ ← (if _dirtyCache o then refreshCache this else mret ());
  o ← get_object this;
  if decide (find_char ":" nameWithOptionalSignature <> npos) then
    let idRev := methodId o nameWithOptionalSignature in
    if idRev =? -1 then
      split ← of_result (signatureSplit nameWithOptionalSignature);
      let '(_, funname, _) := split in
      if decide (methodId o funname <> -1) then mret (-2, true) else mret (-1, true)
    else mret (idRev, true)
  else
    match _methodNameToOverload o !! nameWithOptionalSignature with
    | None => mret (-1, true)
    | Some firstOverload =>
        scanned ← scan_overloads fuel (args_size args) None (Some firstOverload);
        let '(firstMatch, ambiguous) := scanned in
        let canCache := negb ambiguous || match firstMatch with Some _ => false | None => true end in
        match firstMatch with
        | None => mret (-2, canCache)
        | Some m =>
            if negb ambiguous then mret (s32 (mm_uid m), canCache)
            else
              retval ← resolve fuel this nameWithOptionalSignature args (Some firstOverload) (-2) [false; true];
              mret (retval, canCache)
        end
    end.

(** [findCompatibleMethod] *)
Definition findCompatibleMethod (this : nat) (nameOrSignature : bytes) : ST (list (MetaMethod * f32)) :=
  if decide (find_char ":" nameOrSignature = npos) then
    r ← findMethods this nameOrSignature;
    mret (map (fun m => (m, f32_one)) r)
  else
    split ← of_result (signatureSplit nameOrSignature);
    let '(_, sigsorig1, sigsorig2) := split in
    if decide (sigsorig1 = []) then mret []
    else
      sresolved ← of_result (Signature_new sigsorig2);
      methods ← methodMap this;
      for_each
        (fun ret slot =>
           mm ← get_private (snd slot);
           if decide (sigsorig1 <> mm_name mm) then mret ret
           else
             match isConvertibleTo requireSameName sresolved (mm_parametersSignature mm) with
             | None => undefined
             | Some score => mret (if f32_eqb score f32_zero then ret else ret ++ [(snd slot, score)])
             end) [] methods.
End find_method.
