(* ===== verification/MetaObjectCache.v ===== *)
(** * MetaObjectCache: the chains of overloads

    [refreshCache] computes the table of names and links the methods of each name into a
    chain, the one with the greatest identifier first. The chain is a representation of a
    list of methods; the loops of [findMethod] along it are the same loops on the list. *)
From S2P Require Import Prelude SortedMap CString Bytes Signature Float32 SignatureConvert MetaMethod MetaObject.
Open Scope Z_scope.

(** ** Definitions *)

(** A node of a map of methods, with the data of its method. *)
Abbreviation slot := ((Z * MetaMethod) * MetaMethodPrivate)%type.

(** A signature that was parsed, or the default one. *)
Definition parsed (sig : Signature) : Prop := sig = Signature_empty \/ exists text, Signature_new text = Ok sig.

(** The data at the nodes. *)
Definition slot_ok (s : Store) (x : slot) : Prop :=
  privates s !! snd (fst x) = Some (snd x) /\ mm_uid (snd x) = fst (fst x) /\ 0 <= fst (fst x) < 2 ^ 31 /\
  parsed (mm_parametersSignature (snd x)).

(** The methods of a map, in the order of their identifiers; each has its own data. *)
Record methods_wf (s : Store) (ids : nat) (l : list slot) : Prop := {
  wf_map : methodMaps s !! ids = Some (map fst l);
  wf_sorted : sorted_map Z.compare (map fst l);
  wf_alone : NoDup (map (fun x => snd (fst x)) l);
  wf_slots : Forall (slot_ok s) l;
}.

Definition named (n : bytes) (l : list slot) : list slot := filter (fun x => mm_name (snd x) = n) l.

(** The chain that begins at a pointer is a list of nodes. *)
Fixpoint chain (s : Store) (ids : nat) (mm : option method_ptr) (l : list slot) : Prop :=
  match l with
  | [] => mm = None
  | x :: l' =>
      mm = Some (mkPtr ids (fst (fst x))) /\ methodMaps s !! ids ≫= map_find Z.compare (fst (fst x)) = Some (snd (fst x)) /\
      privates s !! snd (fst x) = Some (snd x) /\ chain s ids (mm_next (snd x)) l'
  end.

(** Equal except for the links. *)
Definition same_data (p q : MetaMethodPrivate) : Prop := with_next None p = with_next None q.
Definition same_slot (x y : slot) : Prop := fst x = fst y /\ same_data (snd x) (snd y).

(** The pure part of the loop over the methods. *)
Definition refresh_names (ids : nat) (acc : refreshed) (x : slot) : refreshed :=
  let p := snd x in
  mkRefreshed (<[MetaMethod_toString p := (mm_uid p, MetaObjectType_Method)]> (r_names acc))
    (<[mm_name p := mkPtr ids (fst (fst x))]> (r_overloads acc)) (Z.max (r_idx acc) (mm_uid p))
    (r_buff acc ++ MetaMethod_toString p ++ to_decimal (mm_uid p)).

(** A state that only differs in links. *)
Record links_only (s s' : Store) : Prop := {
  links_maps : methodMaps s' = methodMaps s;
  links_objects : objects s' = objects s;
  links_next : next_address s' = next_address s;
  links_data r : option_Forall2 same_data (privates s !! r) (privates s' !! r);
}.

(** ** Laws of the store *)

Lemma bind_return {A B} (m : ST A) (f : A -> ST B) s a s' : m s = Return a s' -> (m ≫= f) s = f a s'.
Proof. intros H. unfold mbind, ST_bind. by rewrite H. Qed.

Lemma of_result_ok {A B} (a : A) (f : A -> ST B) s : (of_result (Ok a) ≫= f) s = f a s.
Proof. done. Qed.

Lemma load_return {A} (table : Store -> gmap nat A) a x s : table s !! a = Some x -> load table a s = Return x s.
Proof. intros H. unfold load. by rewrite H. Qed.

Lemma modify_private_return a f p s : privates s !! a = Some p ->
  modify_private a f s = Return () (mkStore (<[a := f p]> (privates s)) (methodMaps s) (objects s) (next_address s)).
Proof. intros H. unfold modify_private. by rewrite (bind_return _ _ _ _ _ (load_return privates _ _ _ H)). Qed.

Lemma deref_return ids k r s : methodMaps s !! ids ≫= map_find Z.compare k = Some r -> deref (mkPtr ids k) s = Return r s.
Proof.
  unfold deref, get_methods, load, mbind at 2, ST_bind. cbn [ptr_map ptr_key]. destruct (methodMaps s !! ids) as [m|]; [|done].
  cbn. by intros ->.
Qed.

#[export] Instance same_data_equiv : Equivalence same_data.
Proof. unfold same_data. split; [intros p|intros p q|intros p q r]; congruence. Qed.
#[export] Instance same_slot_equiv : Equivalence same_slot.
Proof.
  unfold same_slot. split; [intros x|intros x y [-> H]|intros x y z [-> H] [-> H']]; split; try done.
  by etransitivity.
Qed.

Lemma same_data_fields p q : same_data p q ->
  mm_uid p = mm_uid q /\ mm_name p = mm_name q /\ mm_parametersSignature p = mm_parametersSignature q /\
  mm_sigreturn p = mm_sigreturn q /\ MetaMethod_toString p = MetaMethod_toString q.
Proof. destruct p, q. unfold same_data, with_next, MetaMethod_toString. cbn. intros [= -> -> -> -> -> -> ->]. done. Qed.

Lemma links_only_refl s : links_only s s.
Proof. split; [done..|]. intros r. destruct (privates s !! r); by constructor. Qed.

Lemma links_only_trans s1 s2 s3 : links_only s1 s2 -> links_only s2 s3 -> links_only s1 s3.
Proof.
  intros [M O N D] [M' O' N' D']. split; [congruence..|]. intros r.
  etransitivity; [apply D|apply D'].
Qed.

Lemma links_only_link s r p n : privates s !! r = Some p ->
  links_only s (mkStore (<[r := with_next n p]> (privates s)) (methodMaps s) (objects s) (next_address s)).
Proof.
  intros H. split; [done..|]. intros r'. cbn. destruct (decide (r' = r)) as [->|Hr].
  - rewrite lookup_insert_eq, H. by constructor.
  - rewrite lookup_insert_ne by done. destruct (privates s !! r'); by constructor.
Qed.

(** ** Chains *)

Lemma chain_frame s ids r p n mm l :
  r ∉ map (fun x => snd (fst x)) l -> chain s ids mm l ->
  chain (mkStore (<[r := with_next n p]> (privates s)) (methodMaps s) (objects s) (next_address s)) ids mm l.
Proof.
  revert mm. induction l as [|x l IH]; intros mm Hr; cbn [chain map] in *; [done|].
  apply not_elem_of_cons in Hr as [Hr1 Hr2]. intros (H1 & H2 & H3 & H4). split; [done|]. split.
  - done.
  - split; [|by apply IH]. cbn. by rewrite lookup_insert_ne.
Qed.

Lemma named_snoc n l x : named n (l ++ [x]) = named n l ++ (if decide (mm_name (snd x) = n) then [x] else []).
Proof. unfold named. by rewrite filter_app. Qed.

Lemma named_refs n l r : r ∉ map (fun x : slot => snd (fst x)) l -> r ∉ map (fun x => snd (fst x)) (rev (named n l)).
Proof.
  rewrite !list_elem_of_fmap. intros H (x & -> & Hx). apply H. exists x. split; [done|].
  apply list_elem_of_In, in_rev, list_elem_of_In, list_elem_of_filter in Hx. tauto.
Qed.

(** What the loop over the methods maintains: the chains of the methods that are done, and
    the others untouched. *)
Record refreshing (s : Store) (ids : nat) (acc : refreshed) (done todo : list slot) : Prop := {
  rf_map : methodMaps s !! ids = Some (map fst (done ++ todo));
  rf_sorted : sorted_map Z.compare (map fst (done ++ todo));
  rf_alone : NoDup (map (fun x => snd (fst x)) (done ++ todo));
  rf_slots : Forall (slot_ok s) (done ++ todo);
  rf_chain n : chain s ids (r_overloads acc !! n) (rev (named n done));
}.

Lemma slots_frame s r p n l : r ∉ map (fun x : slot => snd (fst x)) l -> Forall (slot_ok s) l ->
  Forall (slot_ok (mkStore (<[r := with_next n p]> (privates s)) (methodMaps s) (objects s) (next_address s))) l.
Proof.
  intros Hr. rewrite !(Forall_forall (A := slot)). intros H x Hx. destruct (H x Hx) as (H1 & H2). split; [|done]. cbn.
  rewrite lookup_insert_ne; [done|]. intros ->. apply Hr, list_elem_of_fmap. by exists x.
Qed.

Lemma slot_in_map s ids l k r : methodMaps s !! ids = Some l -> sorted_map Z.compare l -> (k, r) ∈ l ->
  methodMaps s !! ids ≫= map_find Z.compare k = Some r.
Proof. intros H1 H2 H3. rewrite H1. by apply (sorted_find Z.compare). Qed.

Lemma refresh_step s ids acc done k r p todo : refreshing s ids acc done (((k, r), p) :: todo) ->
  let p' := with_next (r_overloads acc !! mm_name p) p in
  exists s', refresh_method ids acc (k, r) s = Return (refresh_names ids acc ((k, r), p)) s' /\ links_only s s' /\
    refreshing s' ids (refresh_names ids acc ((k, r), p)) (done ++ [((k, r), p')]) todo.
Proof.
  intros H p'. destruct H as [H1 H2 H3 H4 H5].
  assert (slot_ok s ((k, r), p)) as (Hp & Hu & Hk) by (rewrite Forall_app, Forall_cons in H4; tauto). cbn in Hp, Hu, Hk.
  set (s' := mkStore (<[r := p']> (privates s)) (methodMaps s) (objects s) (next_address s)). exists s'. split; [|split; [by apply links_only_link|]].
  { unfold refresh_method. rewrite (bind_return _ _ _ _ _ (load_return privates _ _ _ Hp)).
    by rewrite (bind_return (setNext (r_overloads acc !! mm_name p) r) _ s () s' (modify_private_return _ _ _ _ Hp)). }
  assert (map fst ((done ++ [((k, r), p')]) ++ todo) = map fst (done ++ ((k, r), p) :: todo)) as Ef by (rewrite <- app_assoc, !map_app; done).
  assert (map (fun x => snd (fst x)) ((done ++ [((k, r), p')]) ++ todo) = map (fun x => snd (fst x)) (done ++ ((k, r), p) :: todo)) as Er
    by (rewrite <- app_assoc, !map_app; done).
  pose proof H3 as N. rewrite map_app in N. apply NoDup_app in N as (_ & N2 & N3). apply NoDup_cons in N3 as [N3 _].
  assert (r ∉ map (fun x : slot => snd (fst x)) done) as Hr by (intros Hin; apply (N2 _ Hin); by left).
  rewrite Forall_app, Forall_cons in H4. destruct H4 as (F1 & _ & F2).
  split; rewrite ?Ef, ?Er; try done.
  - rewrite <- app_assoc. apply Forall_app; split; [by apply slots_frame|]. constructor; [|by apply slots_frame].
    split; [apply lookup_insert_eq|done].
  - intros n. rewrite named_snoc. cbn [snd refresh_names r_overloads fst]. change (mm_name p') with (mm_name p).
    destruct (decide (mm_name p = n)) as [<-|Hn].
    + rewrite lookup_insert_eq, rev_app_distr. cbn [rev app chain fst snd]. split_and!; [done| |apply lookup_insert_eq|].
      * apply (slot_in_map s' ids _ k r H1 H2). rewrite map_app. apply elem_of_app. right. by left.
      * apply chain_frame; [by apply named_refs|apply H5].
    + rewrite app_nil_r, lookup_insert_ne by done. apply chain_frame; [by apply named_refs|apply H5].
Qed.

Lemma refresh_loop s ids acc done todo : refreshing s ids acc done todo ->
  exists s' todo', for_each (refresh_method ids) acc (map fst todo) s = Return (foldl (refresh_names ids) acc todo) s' /\ links_only s s' /\
    Forall2 same_slot todo todo' /\ refreshing s' ids (foldl (refresh_names ids) acc todo) (done ++ todo') [].
Proof.
  revert s acc done. induction todo as [|[[k r] p] todo IH]; intros s acc done H.
  - exists s, []. split; [done|]. split; [apply links_only_refl|]. split; [constructor|]. by rewrite app_nil_r.
  - destruct (refresh_step _ _ _ _ _ _ _ _ H) as (s1 & E1 & L1 & R1). destruct (IH _ _ _ R1) as (s' & todo' & E2 & L2 & F & R2).
    exists s', (((k, r), with_next (r_overloads acc !! mm_name p) p) :: todo'). split; [|split; [by eapply links_only_trans|split; [by constructor|]]].
    + cbn [map for_each fst]. by rewrite (bind_return _ _ _ _ _ E1).
    + by rewrite <- app_assoc in R2.
Qed.

(** ** [refreshCache] *)

Definition refreshed_all (ids : nat) (l : list slot) (events : list (Z * MetaSignal)) : refreshed :=
  foldl refresh_signal (foldl (refresh_names ids) (mkRefreshed ∅ ∅ 0 []) l) events.

Definition refreshed_object (o : MetaObjectPrivate) (l : list slot) : MetaObjectPrivate :=
  let acc := refreshed_all (_methods o) l (_events o) in
  mkMetaObjectPrivate (_methods o) (r_overloads acc) (r_names acc) (_events o) (_properties o) (Z.max (r_idx acc) (_index o))
    (_description o) false (Some (r_buff acc ++ _description o)).

Definition put_object (this : nat) (o : MetaObjectPrivate) (s : Store) : Store :=
  mkStore (privates s) (methodMaps s) (<[this := o]> (objects s)) (next_address s).

(** The chains of an object lead through its own nodes, to the methods of each name. *)
Definition chains_ok (s : Store) (o : MetaObjectPrivate) (l : list slot) : Prop :=
  forall n, chain s (_methods o) (_methodNameToOverload o !! n) (rev (named n l)).

Lemma chain_ext s s' ids mm l : privates s' = privates s -> methodMaps s' = methodMaps s -> chain s ids mm l -> chain s' ids mm l.
Proof.
  intros E1 E2. revert mm. induction l as [|x l IH]; intros mm; [done|]. cbn [chain]. rewrite E1, E2.
  intros (H1 & H2 & H3 & H4). split_and!; auto.
Qed.

Lemma methods_wf_ext s s' ids l : privates s' = privates s -> methodMaps s' = methodMaps s -> methods_wf s ids l -> methods_wf s' ids l.
Proof. intros E1 E2 [H1 H2 H3 H4]. split; rewrite ?E2; try done. unfold slot_ok. by rewrite E1. Qed.

Lemma foldl_refresh_signal_overloads acc events : r_overloads (foldl refresh_signal acc events) = r_overloads acc.
Proof. revert acc. induction events as [|e events IH]; intros acc; cbn [foldl]; [done|]. by rewrite IH. Qed.

Lemma refreshCache_return s this o l : objects s !! this = Some o -> methods_wf s (_methods o) l ->
  exists s1 l', refreshCache this s = Return () (put_object this (refreshed_object o l) s1) /\ links_only s s1 /\ Forall2 same_slot l l' /\
    methods_wf (put_object this (refreshed_object o l) s1) (_methods o) l' /\
    chains_ok (put_object this (refreshed_object o l) s1) (refreshed_object o l) l'.
Proof.
  intros Ho [W1 W2 W3 W4].
  assert (refreshing s (_methods o) (mkRefreshed ∅ ∅ 0 []) [] l) as R.
  { split; [done..|]. intros n. cbn. by rewrite lookup_empty. }
  destruct (refresh_loop _ _ _ _ _ R) as (s1 & l' & E & L & F & [R1 R2 R3 R4 R5]). rewrite app_nil_l, ?app_nil_r in *.
  exists s1, l'. split_and!; [|done|done| |].
  - unfold refreshCache. rewrite (bind_return _ _ _ _ _ (load_return objects _ _ _ Ho)).
    rewrite (bind_return _ _ _ _ _ (load_return methodMaps _ _ _ W1)). by rewrite (bind_return _ _ _ _ _ E).
  - apply (methods_wf_ext s1); [done..|]. by split.
  - intros n. apply (chain_ext s1); [done..|]. cbn [refreshed_object _methods _methodNameToOverload].
    unfold refreshed_all. rewrite foldl_refresh_signal_overloads. apply R5.
Qed.
