(* ===== verification/MetaObjectLookup.v ===== *)
(** * MetaObjectLookup: the resolution of overloads

    What [findMethod] promises: among the methods that have a name, the only one with the
    number of arguments; else the one to which the arguments convert best, if it is better
    than every other, first with their static types and then with the types of their
    values. *)
From Corelib Require Import SpecFloat.
From S2P Require Import Prelude SortedMap CString Bytes Signature Float32 SignatureConvert ConvertScore MetaMethod MetaObject MetaObjectCache.
Open Scope Z_scope.

(** ** The specification *)

Abbreviation candidate := (MetaMethodPrivate * f32)%type.

(** A candidate that is better than every other. *)
Definition strictly_best (x : candidate) (mml : list candidate) : Prop :=
  exists l1 l2, mml = l1 ++ x :: l2 /\ Forall (fun y => f32_ltb (snd y) (snd x) = true) (l1 ++ l2).

Section spec.
Variable requireSameName : bool.

(** The methods to which arguments convert. *)
Definition candidates (sResolved : Signature) (ps : list MetaMethodPrivate) : list candidate :=
  concat (map (fun p => default [] (scored requireSameName sResolved p)) ps).

(** The methods [ps] have the name; the result is the identifier or the error, and
    whether it holds for all arguments of this number. *)
Inductive finds (ps : list MetaMethodPrivate) (args : GenericFunctionParameters) : Z * bool -> Prop :=
  | finds_unknown : ps = [] -> finds ps args (-1, true)
  | finds_no_arity : ps <> [] -> filter (fun p => accepts (args_size args) p) ps = [] -> finds ps args (-2, true)
  | finds_arity p : filter (fun p => accepts (args_size args) p) ps = [p] -> finds ps args (s32 (mm_uid p), true)
  | finds_best dyn x :
      (2 <= length (filter (fun p => accepts (args_size args) p) ps))%nat ->
      strictly_best x (candidates (args_signature args dyn) ps) ->
      (dyn = true -> forall y, ~ strictly_best y (candidates (args_signature args false) ps)) ->
      finds ps args (s32 (mm_uid (fst x)), false)
  | finds_tied :
      (2 <= length (filter (fun p => accepts (args_size args) p) ps))%nat ->
      (forall dyn x, ~ strictly_best x (candidates (args_signature args dyn) ps)) ->
      (exists dyn, candidates (args_signature args dyn) ps <> []) ->
      finds ps args (-3, false)
  | finds_no_conversion :
      (2 <= length (filter (fun p => accepts (args_size args) p) ps))%nat ->
      (forall dyn, candidates (args_signature args dyn) ps = []) ->
      finds ps args (-2, false).

(** The scores are defined: no signature that is optional lacks its element. *)
Definition scores_defined (ps : list MetaMethodPrivate) (args : GenericFunctionParameters) : Prop :=
  forall p dyn, p ∈ ps -> is_Some (isConvertibleTo requireSameName (args_signature args dyn) (mm_parametersSignature p)).
End spec.

(** The names of the methods and of the signals, as [refreshCache] computes them. *)
Record cached (s : Store) (this : nat) (o : MetaObjectPrivate) (l : list slot) : Prop := {
  cached_object : objects s !! this = Some o;
  cached_clean : _dirtyCache o = false;
  cached_methods : methods_wf s (_methods o) l;
  cached_chains : chains_ok s o l;
  cached_names : _objectNameToIdx o = r_names (refreshed_all (_methods o) l (_events o));
}.

(** ** The best candidate *)

Lemma key_lt_irrefl k : ~ key_lt k k.
Proof. destruct k as [[a b] c]. cbn. lia. Qed.

Lemma key_lt_trans x y z : key_lt x y -> key_lt y z -> key_lt x z.
Proof. destruct x as [[a b] c], y as [[a' b'] c'], z as [[a'' b''] c'']. cbn. lia. Qed.

Lemma key_total x y : key_lt x y \/ x = y \/ key_lt y x.
Proof.
  destruct x as [[a b] c], y as [[a' b'] c']. cbn. destruct (Z.lt_trichotomy a a') as [|[->|]]; [lia| |lia].
  destruct (Z.lt_trichotomy b b') as [|[->|]]; [lia| |lia]. destruct (Z.lt_trichotomy c c') as [|[->|]]; [lia|auto|lia].
Qed.

Definition not_nan (x : candidate) : Prop := snd x <> S754_nan.
Definition score_key (x : candidate) : Z * Z * Z := f32_key (snd x).

Lemma max_element_spec it l : not_nan it -> Forall not_nan l ->
  max_element it l ∈ it :: l /\ Forall (fun y => ~ key_lt (score_key (max_element it l)) (score_key y)) (it :: l).
Proof.
  revert it. induction l as [|x l IH]; intros it Hit Hl; cbn [max_element].
  { split; [by left|]. repeat constructor. apply key_lt_irrefl. }
  apply Forall_cons in Hl as [Hx Hl]. destruct (f32_ltb (snd it) (snd x)) eqn:E.
  - destruct (IH x Hx Hl) as [H1 H2]. split; [by right|]. constructor; [|done]. apply Forall_cons in H2 as [H2 _].
    intros H. apply H2. apply f32_ltb_key in E; [|done..]. by eapply key_lt_trans.
  - destruct (IH it Hit Hl) as [H1 H2]. rewrite elem_of_cons in H1. split; [rewrite !elem_of_cons; tauto|].
    apply Forall_cons in H2 as [H2 H3]. repeat (constructor; [|done||idtac]); [done|]. intros H.
    assert (f32_ltb (snd it) (snd x) <> true) as Hn by congruence. apply Hn. apply f32_ltb_key; [done..|].
    destruct (key_total (score_key it) (score_key (max_element it l))) as [?|[Heq|?]]; [by eapply key_lt_trans| |done].
    unfold score_key in Heq at 1. by rewrite Heq.
Qed.

Lemma strictly_best_count x mml : Forall not_nan mml -> strictly_best x mml -> count_best (snd x) mml = 1%nat.
Proof.
  intros Hn (l1 & l2 & -> & H). rewrite Forall_app, Forall_cons in Hn. destruct Hn as (N1 & Nx & N2).
  assert (forall l, Forall not_nan l -> Forall (fun y => f32_ltb (snd y) (snd x) = true) l ->
    List.filter (fun y => f32_eqb (snd y) (snd x)) l = []) as Hz.
  { induction l as [|y l IH]; intros Hl Hf; [done|]. apply Forall_cons in Hl as [Hy Hl]. apply Forall_cons in Hf as [Hf Hf'].
    cbn. destruct (f32_eqb (snd y) (snd x)) eqn:E; [|by apply IH]. apply f32_eqb_key in E; [|done..].
    apply f32_ltb_key in Hf; [|done..]. rewrite E in Hf. by apply key_lt_irrefl in Hf. }
  apply Forall_app in H as [F1 F2]. unfold count_best. rewrite List.filter_app, (Hz _ N1 F1). cbn.
  assert (f32_eqb (snd x) (snd x) = true) as -> by (by apply f32_eqb_key). by rewrite (Hz _ N2 F2).
Qed.

Lemma count_best_alone m l1 l2 : Forall not_nan (l1 ++ m :: l2) ->
  Forall (fun y => ~ key_lt (score_key m) (score_key y)) (l1 ++ m :: l2) -> (count_best (snd m) (l1 ++ m :: l2) <= 1)%nat ->
  Forall (fun y => f32_ltb (snd y) (snd m) = true) (l1 ++ l2).
Proof.
  intros Hn Hm Hc. rewrite Forall_app, Forall_cons in Hn, Hm. destruct Hn as (N1 & Nm & N2), Hm as (M1 & _ & M2).
  unfold count_best in Hc. rewrite List.filter_app in Hc. cbn [List.filter] in Hc.
  assert (f32_eqb (snd m) (snd m) = true) as Ee by (by apply f32_eqb_key). rewrite Ee, length_app in Hc. cbn [length] in Hc.
  assert (forall l, Forall not_nan l -> Forall (fun y => ~ key_lt (score_key m) (score_key y)) l ->
    length (List.filter (fun x => f32_eqb (snd x) (snd m)) l) = 0%nat -> Forall (fun y => f32_ltb (snd y) (snd m) = true) l) as Hl.
  { induction l as [|y l IH]; intros Hl Hf Hz; [constructor|]. apply Forall_cons in Hl as [Hy Hl]. apply Forall_cons in Hf as [Hf Hf'].
    cbn in Hz. destruct (f32_eqb (snd y) (snd m)) eqn:E; [done|]. constructor; [|by apply IH]. apply f32_ltb_key; [done..|].
    destruct (key_total (score_key y) (score_key m)) as [?|[Heq|?]]; [done| |done].
    apply f32_eqb_key in Heq; [|done..]. congruence. }
  apply Forall_app; split; [apply Hl; [done..|lia]|apply Hl; [done..|lia]].
Qed.

(** The choice is the candidate that is better than every other, when there is one. *)
Lemma choose_spec mml retval : Forall not_nan mml ->
  match choose mml retval with
  | inl uid => exists x, strictly_best x mml /\ uid = s32 (mm_uid (fst x))
  | inr r => (forall x, ~ strictly_best x mml) /\ r = match mml with [] => retval | _ => -3 end
  end.
Proof.
  intros Hn. destruct mml as [|x [|y l]].
  { cbn. split; [|done]. intros x (l1 & l2 & H & _). by destruct l1. }
  { cbn. exists x. split; [|done]. by exists [], []. }
  set (mml := x :: y :: l) in *. unfold choose. fold mml. change (match mml with [] => _ | _ => _ end) with
    (let it := max_element x (y :: l) in if (1 <? count_best (snd it) mml)%nat then inr (-3) else inl (s32 (mm_uid (fst it)))).
  apply Forall_cons in Hn as [Hx Hl]. destruct (max_element_spec x (y :: l) Hx Hl) as [H1 H2]. cbv zeta.
  set (m := max_element x (y :: l)) in *. fold mml in H1, H2.
  assert (Forall not_nan mml) as Hn by (by constructor).
  destruct (1 <? count_best (snd m) mml)%nat eqn:E.
  - split; [|done]. intros z Hz. pose proof (strictly_best_count _ _ Hn Hz) as Hc.
    assert (snd m = snd z \/ f32_ltb (snd m) (snd z) = true) as [Hm|Hm].
    + destruct Hz as (l1 & l2 & Ez & Hz). rewrite Ez, elem_of_app, elem_of_cons in H1. rewrite Forall_app, !Forall_forall in Hz.
      destruct Hz as [Z1 Z2], H1 as [H1|[H1|H1]]; [right; by apply Z1|left; by rewrite H1|right; by apply Z2].
    + apply Nat.ltb_lt in E. rewrite Hm in E. lia.
    + assert (not_nan m /\ not_nan z /\ z ∈ mml) as (Nm & Nz & Hin).
      { rewrite Forall_forall in Hn. destruct Hz as (l1 & l2 & Ez & _).
        assert (z ∈ mml) by (rewrite Ez; apply elem_of_app; right; by left). split_and!; auto. }
      rewrite Forall_forall in H2. apply (H2 z Hin). by apply f32_ltb_key.
  - exists m. split; [|done]. apply list_elem_of_split in H1 as (l1 & l2 & Em). exists l1, l2. split; [done|].
    apply Nat.ltb_ge in E. rewrite Em in E, H2, Hn. by apply (count_best_alone m l1 l2).
Qed.

(** ** The loops along a chain *)

Definition slot_data (l : list slot) : list MetaMethodPrivate := map snd l.

(** What [scan_overloads] gives, from the methods with the number of arguments. *)
Definition scanned (first : option MetaMethodPrivate) (matching : list MetaMethodPrivate) : option MetaMethodPrivate * bool :=
  match first, matching with
  | None, [] => (None, false)
  | None, [p] => (Some p, false)
  | None, p :: _ => (Some p, true)
  | Some _, [] => (first, false)
  | Some _, _ => (first, true)
  end.

Lemma chain_step s ids x l mm : chain s ids mm (x :: l) ->
  mm = Some (mkPtr ids (fst (fst x))) /\ deref (mkPtr ids (fst (fst x))) s = Return (snd (fst x)) s /\
  get_private (snd (fst x)) s = Return (snd x) s /\ chain s ids (mm_next (snd x)) l.
Proof.
  intros (-> & H1 & H2 & H3). split_and!; [done| | |done]; [by apply deref_return|]. by apply (load_return privates).
Qed.

Lemma scan_chain s ids nargs l first mm fuel : chain s ids mm l -> (length l <= fuel)%nat ->
  scan_overloads fuel nargs first mm s = Return (scanned first (filter (fun p => accepts nargs p) (slot_data l))) s.
Proof.
  revert first mm fuel. induction l as [|x l IH]; intros first mm fuel Hc Hf.
  { cbn in Hc. subst mm. destruct fuel; cbn; by destruct first. }
  apply chain_step in Hc as (-> & H1 & H2 & Hc). destruct fuel as [|fuel]; [cbn in Hf; lia|]. cbn [scan_overloads].
  rewrite (bind_return _ _ _ _ _ H1), (bind_return _ _ _ _ _ H2). cbn [slot_data map length] in *. rewrite filter_cons.
  destruct (accepts nargs (snd x)) eqn:E; [|destruct (decide (Is_true _)) as [?|_]; [done|]; apply IH; [done|lia]].
  destruct (decide (Is_true _)) as [_|[]]; [|done]. destruct first as [p|]; [done|]. rewrite (IH (Some (snd x)) _ fuel Hc) by lia.
  by destruct (filter _ _).
Qed.

Section resolution.
Variable requireSameName : bool.
Implicit Types args : GenericFunctionParameters.

Lemma convertible_chain s ids sResolved l mm fuel : chain s ids mm l -> (length l <= fuel)%nat ->
  Forall (fun x => is_Some (scored requireSameName sResolved (snd x))) l ->
  convertible_overloads requireSameName fuel sResolved mm s = Return (candidates requireSameName sResolved (slot_data l)) s.
Proof.
  revert mm fuel. induction l as [|x l IH]; intros mm fuel Hc Hf Hs.
  { cbn in Hc. subst mm. by destruct fuel. }
  apply chain_step in Hc as (-> & H1 & H2 & Hc). destruct fuel as [|fuel]; [cbn in Hf; lia|]. cbn [convertible_overloads].
  apply Forall_cons in Hs as [[c Hx] Hs]. cbn [length] in Hf.
  rewrite (bind_return _ _ _ _ _ H1), (bind_return _ _ _ _ _ H2), Hx. unfold mbind at 1, ST_bind, mret at 1, ST_ret.
  rewrite (bind_return _ _ _ _ _ (IH _ fuel Hc ltac:(lia) Hs)). unfold candidates, slot_data. cbn [map concat]. by rewrite Hx.
Qed.

Lemma scores_scored ps args p dyn : scores_defined requireSameName ps args -> p ∈ ps ->
  exists c, scored requireSameName (args_signature args dyn) p = Some c /\ Forall not_nan c.
Proof.
  intros H Hp. destruct (H p dyn Hp) as (f & E). pose proof (unit_not_nan _ (score_unit _ _ _ _ E)) as Hf. unfold scored. rewrite E. cbn. eexists. split; [done|].
  destruct (f32_eqb _ _); repeat constructor; exact Hf.
Qed.

Lemma candidates_numeric ps args dyn : scores_defined requireSameName ps args ->
  Forall not_nan (candidates requireSameName (args_signature args dyn) ps).
Proof.
  intros H. unfold candidates. apply Forall_concat, Forall_forall. intros c (p & -> & Hp)%list_elem_of_fmap.
  by destruct (scores_scored ps args p dyn H Hp) as (c & -> & Hc).
Qed.

(** The turns of [resolve] when no member has the name for text. *)
Definition decided args ps retval dyns : Z :=
  fold_right (fun dyn k retval => match choose (candidates requireSameName (args_signature args dyn) ps) retval with
                                  | inl uid => uid | inr r => k r end) (fun r => r) dyns retval.

Lemma resolve_chain s this o name args l mm fuel retval dyns : objects s !! this = Some o -> methodId o name = -1 ->
  chain s (_methods o) mm l -> (length l <= fuel)%nat -> scores_defined requireSameName (slot_data l) args ->
  resolve requireSameName fuel this name args mm retval dyns s = Return (decided args (slot_data l) retval dyns) s.
Proof.
  intros Ho Hid Hc Hf Hs. revert retval. induction dyns as [|dyn dyns IH]; intros retval; [done|]. cbn [resolve].
  rewrite (bind_return _ _ _ _ _ (load_return objects _ _ _ Ho)), Hid. cbn [decide].
  assert (Forall (fun x => is_Some (scored requireSameName (args_signature args dyn) (snd x))) l) as Hd.
  { apply Forall_forall. intros x Hx. destruct (scores_scored _ args (snd x) dyn Hs) as (c & -> & _); [|done].
    apply list_elem_of_fmap. by exists x. }
  destruct (decide (-1 <> -1)) as [?|_]; [done|].
  rewrite (bind_return _ _ _ _ _ (convertible_chain _ _ _ _ _ _ Hc Hf Hd)). cbn [decided fold_right].
  destruct (choose _ retval); [done|]. apply IH.
Qed.

Lemma decided_spec args ps : scores_defined requireSameName ps args ->
  (2 <= length (filter (fun p => accepts (args_size args) p) ps))%nat ->
  finds requireSameName ps args (decided args ps (-2) [false; true], false).
Proof.
  intros Hs Hl. unfold decided. cbn [fold_right].
  pose proof (choose_spec _ (-2) (candidates_numeric ps args false Hs)) as H1.
  destruct (choose _ (-2)) as [u|r].
  { destruct H1 as (x & Hx & ->). by eapply finds_best. }
  destruct H1 as [H1 ->]. set (r := match candidates _ _ _ with [] => _ | _ => _ end).
  pose proof (choose_spec _ r (candidates_numeric ps args true Hs)) as H2.
  destruct (choose _ r) as [u|r'].
  { destruct H2 as (x & Hx & ->). by eapply finds_best. }
  destruct H2 as [H2 ->]. subst r. assert (forall dyn x, ~ strictly_best x (candidates requireSameName (args_signature args dyn) ps)) as Hn.
  { intros []; auto. }
  destruct (candidates requireSameName (args_signature args true) ps) as [|c2 l2] eqn:E2.
  - destruct (candidates requireSameName (args_signature args false) ps) as [|c1 l1] eqn:E1.
    + apply finds_no_conversion; [done|]. by intros [].
    + apply finds_tied; [done..|]. exists false. by rewrite E1.
  - apply finds_tied; [done..|]. exists true. by rewrite E2.
Qed.
End resolution.
