(* ===== verification/MetaObjectNames.v ===== *)
(** * MetaObjectNames: the table of names

    What [refreshCache] puts in the table of names: the methods and the signals, by their
    texts. *)
From S2P Require Import Prelude SortedMap CString Bytes Signature Float32 SignatureConvert MetaMethod MetaObject.
From S2P Require Import MetaObjectCache MetaObjectLookup.
Open Scope Z_scope.

(** ** Definitions *)

(** A text that belongs to a member: a name and a signature. *)
Definition member_text (n : bytes) : Prop := exists a b, n = a ++ lit "::" ++ b.

Definition slot_entry (x : slot) : bytes * (Z * MetaObjectType) :=
  (MetaMethod_toString (snd x), (mm_uid (snd x), MetaObjectType_Method)).
Definition event_entry (e : Z * MetaSignal) : bytes * (Z * MetaObjectType) :=
  (MetaSignal_toString (snd e), (ms_uid (snd e), MetaObjectType_Signal)).

(** The entries of the table, from the methods and the signals. *)
Definition entries (l : list slot) (events : list (Z * MetaSignal)) : list (bytes * (Z * MetaObjectType)) :=
  map slot_entry l ++ map event_entry events.

Definition insert_entry (m : SignatureToIdx) (e : bytes * (Z * MetaObjectType)) : SignatureToIdx := <[fst e := snd e]> m.

(** No two members have the same text. *)
Definition distinct_texts (l : list slot) (events : list (Z * MetaSignal)) : Prop := NoDup (map fst (entries l events)).

(** ** The table *)

Lemma refreshed_entries ids l events : r_names (refreshed_all ids l events) = foldl insert_entry ∅ (entries l events).
Proof.
  unfold refreshed_all, entries. rewrite foldl_app.
  assert (forall acc, r_names (foldl (refresh_names ids) acc l) = foldl insert_entry (r_names acc) (map slot_entry l)) as Hl.
  { induction l as [|x l IH]; intros acc; [done|]. cbn [foldl map]. by rewrite IH. }
  assert (forall acc, r_names (foldl refresh_signal acc events) = foldl insert_entry (r_names acc) (map event_entry events)) as He.
  { induction events as [|e events IH]; intros acc; [done|]. cbn [foldl map]. by rewrite IH. }
  by rewrite He, Hl.
Qed.

Lemma insert_entries_lookup es m n v : NoDup (map fst es) ->
  foldl insert_entry m es !! n = Some v <-> (n, v) ∈ es \/ (n ∉ map fst es /\ m !! n = Some v).
Proof.
  revert m. induction es as [|[n' v'] es IH]; intros m Hd; cbn [foldl map fst].
  { split; [intros H; right; split; [apply not_elem_of_nil|done]|].
    intros [H|[_ H]]; [by apply elem_of_nil in H|done]. }
  apply NoDup_cons in Hd as [Hn Hd]. rewrite (IH _ Hd), elem_of_cons, not_elem_of_cons. unfold insert_entry. cbn [fst snd].
  destruct (decide (n = n')) as [->|Hne].
  - rewrite lookup_insert_eq. split; [intros [H|[_ [= ->]]]; auto|]. intros [[[= ->]|H]|[[H1 _] _]]; auto. done.
  - rewrite lookup_insert_ne by done. split; [intros [H|[H1 H2]]; auto|]. intros [[[= ??]|H]|[[_ H1] H2]]; auto; done.
Qed.

Lemma insert_entries_keys es m n v : foldl insert_entry m es !! n = Some v -> n ∈ map fst es \/ m !! n = Some v.
Proof.
  revert m. induction es as [|[n' v'] es IH]; intros m; cbn [foldl map fst]; [by right|].
  intros [H|H]%IH; [left; by right|]. unfold insert_entry in H. cbn in H. destruct (decide (n = n')) as [->|Hne]; [left; by left|].
  rewrite lookup_insert_ne in H by done. by right.
Qed.

Lemma entries_texts l events n : n ∈ map fst (entries l events) -> member_text n.
Proof.
  unfold entries. rewrite map_app, elem_of_app, !list_elem_of_fmap.
  intros [(e & -> & (x & -> & _)%list_elem_of_fmap)|(e & -> & (x & -> & _)%list_elem_of_fmap)]; cbn; by eexists _, _.
Qed.

Lemma refreshed_texts ids l events n v : r_names (refreshed_all ids l events) !! n = Some v -> member_text n.
Proof.
  rewrite refreshed_entries. intros [H|H]%insert_entries_keys; [by eapply entries_texts|by rewrite lookup_empty in H].
Qed.

Lemma refreshed_lookup ids l events n v : distinct_texts l events ->
  r_names (refreshed_all ids l events) !! n = Some v <-> (n, v) ∈ entries l events.
Proof.
  intros Hd. rewrite refreshed_entries, (insert_entries_lookup _ _ _ _ Hd). rewrite lookup_empty. naive_solver.
Qed.

(** ** Texts *)

Lemma member_text_colon n : member_text n -> find_char ":" n <> npos.
Proof. intros (a & b & ->). apply find_char_Some, elem_of_app. right. by left. Qed.

Lemma member_text_take s k : find_sub (lit "::") s = Some k -> ~ member_text (take k s).
Proof.
  intros H (a & b & E). destruct (find_sub_take _ _ _ H ltac:(done)) as (Hs & _ & Hk). rewrite E, <- !app_assoc in Hs.
  destruct (find_sub_le (lit "::") a (b ++ lit "::" ++ drop (k + length (lit "::")) s)) as (k' & E' & Hk'). rewrite <- Hs, H in E'.
  injection E' as ->. apply (f_equal length) in E. rewrite length_take, !length_app in E. cbn in E. lia.
Qed.

(** The name that [signatureSplit] gives is not the text of a member, unless it is the
    whole text. *)
Lemma signatureSplit_name s r n p : signatureSplit s = Ok (r, n, p) -> n = s \/ ~ member_text n.
Proof.
  unfold signatureSplit. destruct (find_sub (lit "::") s) as [k|] eqn:E; [|intros [= <- <- <-]; by left].
  intros H. right. cut (n = take k s); [intros ->; by apply member_text_take|].
  destruct (decide _); [done|]. destruct (Signature_new _) as [parent|]; [|done]. cbn in H.
  destruct (decide _); [done|]. destruct (children parent) as [|? [|? [|]]]; injection H as ???; congruence.
Qed.

(** * Finding the methods of a meta object

    The theorems about [findMethod] and the cache it uses, on one meta object. *)
Open Scope Z_scope.

(** The methods that have a name, the greatest identifier first. *)
Definition overloads (name : bytes) (l : list slot) : list MetaMethodPrivate := slot_data (rev (named name l)).

(** ** Lemmas *)

Lemma s32_small z : 0 <= z < 2 ^ 31 -> s32 z = z.
Proof. intros H. unfold s32, u32, wrap. rewrite Z.mod_small by lia. destruct (Z.ltb_spec z (2 ^ 31)); lia. Qed.

Lemma u32_small z : 0 <= z < 2 ^ 31 -> u32 z = z.
Proof. intros H. unfold u32, wrap. rewrite Z.mod_small; lia. Qed.

Lemma named_length n l : (length (rev (named n l)) <= length l)%nat.
Proof. rewrite length_rev. apply length_filter. Qed.

Lemma overloads_elem n l p : p ∈ overloads n l <-> exists x, x ∈ l /\ snd x = p /\ mm_name p = n.
Proof.
  unfold overloads, slot_data, named. rewrite list_elem_of_fmap. split.
  - intros (x & -> & Hx). apply list_elem_of_In, in_rev, list_elem_of_In, list_elem_of_filter in Hx. exists x. tauto.
  - intros (x & Hx & <- & Hn). exists x. split; [done|]. apply list_elem_of_In. rewrite <- in_rev. apply list_elem_of_In, list_elem_of_filter. done.
Qed.

Lemma cached_name_text s this o l n v : cached s this o l -> _objectNameToIdx o !! n = Some v -> member_text n.
Proof. intros [_ _ _ _ H]. rewrite H. apply refreshed_texts. Qed.

Lemma methodId_absent o n : (forall id, _objectNameToIdx o !! n <> Some (id, MetaObjectType_Method)) -> methodId o n = -1.
Proof.
  intros H. unfold methodId, idFromName. destruct (_objectNameToIdx o !! n) as [[id t]|] eqn:E; [|done].
  destruct (decide (t = MetaObjectType_Method)) as [->|]; [by destruct (H id)|done].
Qed.

Lemma methodId_bare s this o l n : cached s this o l -> ~ member_text n -> methodId o n = -1.
Proof. intros H Hn. apply methodId_absent. intros id E. by apply Hn, (cached_name_text _ _ _ _ _ _ H E). Qed.

Lemma methodId_method s this o l x : cached s this o l -> distinct_texts l (_events o) -> x ∈ l ->
  methodId o (MetaMethod_toString (snd x)) = mm_uid (snd x) /\ 0 <= mm_uid (snd x) < 2 ^ 31.
Proof.
  intros [_ _ [_ _ _ Hs] _ Hn] Hd Hx. rewrite (Forall_forall (A := slot)) in Hs. destruct (Hs x Hx) as (_ & Hu & Hk & _).
  unfold methodId, idFromName. rewrite Hn.
  assert (r_names (refreshed_all (_methods o) l (_events o)) !! MetaMethod_toString (snd x) = Some (mm_uid (snd x), MetaObjectType_Method)) as ->.
  { apply refreshed_lookup; [done|]. apply elem_of_app. left. apply list_elem_of_fmap. by exists x. }
  rewrite Hu. cbn [decide]. destruct (decide _) as [_|[]]; [|done]. by rewrite s32_small.
Qed.

Lemma methodId_no_method s this o l n : cached s this o l -> distinct_texts l (_events o) ->
  (forall x, x ∈ l -> MetaMethod_toString (snd x) <> n) -> methodId o n = -1.
Proof.
  intros [_ _ _ _ Hn] Hd H. apply methodId_absent. intros id. rewrite Hn, refreshed_lookup by done. unfold entries.
  rewrite elem_of_app, !list_elem_of_fmap. intros [(x & [= -> _] & Hx)|(e & [=] & _)]. by apply (H x Hx).
Qed.

(** [findMethod] on a clean cache does not refresh it. *)
Lemma clean_start {A} this o (k : ST A) s : _dirtyCache o = false ->
  ((if _dirtyCache o then refreshCache this else mret ()) ≫= fun _ => k) s = k s.
Proof. by intros ->. Qed.

Section finding.
Variable requireSameName : bool.

Lemma findMethod_bare s this o l name args fuel : cached s this o l -> find_char ":" name = npos ->
  scores_defined requireSameName (overloads name l) args -> (length l <= fuel)%nat ->
  exists r, findMethod requireSameName fuel this name args s = Return r s /\ finds requireSameName (overloads name l) args r.
Proof.
  intros Hc Hn Hs Hf. pose proof Hc as [Ho Hd Hw Hch _]. unfold findMethod.
  rewrite (bind_return _ _ _ _ _ (load_return objects _ _ _ Ho)), clean_start by done.
  rewrite (bind_return _ _ _ _ _ (load_return objects _ _ _ Ho)). rewrite (decide_False (P := _ <> _)) by (rewrite Hn; tauto).
  specialize (Hch name). pose proof (named_length name l) as Hl. unfold overloads in *.
  assert (methodId o name = -1) as Hid by (apply (methodId_bare _ _ _ _ _ Hc); intros Ht%member_text_colon; done).
  destruct (rev (named name l)) as [|x t] eqn:El.
  { cbn in Hch. rewrite Hch. eexists. split; [done|]. by apply finds_unknown. }
  pose proof Hch as (E & _). rewrite E. rewrite E in Hch.
  rewrite (bind_return _ _ _ _ _ (scan_chain _ _ (args_size args) _ None _ fuel Hch ltac:(lia))). unfold scanned.
  destruct (filter _ _) as [|p [|p' ps]] eqn:Ef.
  - eexists. split; [done|]. by apply finds_no_arity.
  - eexists. split; [done|]. by apply finds_arity.
  - cbn [negb]. rewrite (bind_return _ _ _ _ _ (resolve_chain _ _ _ _ _ _ _ _ fuel (-2) _ Ho Hid Hch ltac:(lia) Hs)).
    eexists. split; [done|]. apply decided_spec; [done|]. rewrite Ef. cbn. lia.
Qed.

Lemma findMethod_full s this o l name args fuel : cached s this o l -> distinct_texts l (_events o) -> find_char ":" name <> npos ->
  (forall x, x ∈ l -> MetaMethod_toString (snd x) = name ->
     findMethod requireSameName fuel this name args s = Return (mm_uid (snd x), true) s) /\
  ((forall x, x ∈ l -> MetaMethod_toString (snd x) <> name) ->
     findMethod requireSameName fuel this name args s =
     match signatureSplit name with Ok _ => Return (-1, true) s | Err e => Throw (InvalidSignatureText e) s end).
Proof.
  intros Hc Hd Hn. pose proof Hc as [Ho Hcl _ _ _]. unfold findMethod.
  rewrite (bind_return _ _ _ _ _ (load_return objects _ _ _ Ho)), clean_start by done.
  rewrite (bind_return _ _ _ _ _ (load_return objects _ _ _ Ho)). rewrite decide_True by done. split.
  - intros x Hx <-. destruct (methodId_method _ _ _ _ _ Hc Hd Hx) as [-> Hr].
    by destruct (Z.eqb_spec (mm_uid (snd x)) (-1)); [lia|].
  - intros Hx. pose proof (methodId_no_method _ _ _ _ _ Hc Hd Hx) as Hid. rewrite Hid. cbn [Z.eqb].
    destruct (signatureSplit name) as [[[r n] p]|e] eqn:E; [|done]. cbn. unfold of_result, mbind, ST_bind, mret, ST_ret.
    rewrite decide_False; [done|]. destruct (signatureSplit_name _ _ _ _ E) as [->|Hm]; [tauto|].
    rewrite (methodId_bare _ _ _ _ _ Hc Hm). tauto.
Qed.
End finding.
