(* ===== verification/MetaObjectInvariant.v ===== *)
(** * MetaObjectInvariant: meta objects under construction

    The invariant of the meta objects that builders make, and that every operation keeps
    it: the identifiers and the texts of the members are unique, the table of names knows
    every member, and no operation follows a pointer to a map that is gone. *)
From S2P Require Import Prelude SortedMap CString Bytes Signature Float32 SignatureConvert MetaMethod MetaObject MetaObjectCache.
From S2P Require Import MetaObjectNames.
From Stdlib Require Import Sorting.Sorted.
Open Scope Z_scope.

(** ** Definitions *)

Definition refs (l : list slot) : list MetaMethod := map (fun x => snd (fst x)) l.
Definition slot_keys (l : list slot) : list Z := map (fun x => fst (fst x)) l.

Definition event_ok (e : Z * MetaSignal) : Prop := ms_uid (snd e) = fst e /\ 0 <= fst e < 2 ^ 31.

(** The table of names knows the members; an entry for a property may have taken the
    place of another, and the entries of signals that belong to a property are such. *)
Record names_ok (names : SignatureToIdx) (es : list (bytes * (Z * MetaObjectType))) : Prop := {
  names_known n v : (n, v) ∈ es -> exists id t, names !! n = Some (id, t) /\ (t = MetaObjectType_Property \/ v = (id, t));
  names_true n id t : names !! n = Some (id, t) -> t <> MetaObjectType_Property -> (n, (id, t)) ∈ es;
  names_range n id t : names !! n = Some (id, t) -> 0 <= id < 2 ^ 31;
}.

Record object_ok (s : Store) (o : MetaObjectPrivate) (l : list slot) : Prop := {
  ok_methods : methods_wf s (_methods o) l;
  ok_events : sorted_map Z.compare (_events o);
  ok_events_uid : Forall event_ok (_events o);
  ok_texts : distinct_texts l (_events o);
  ok_ids : NoDup (slot_keys l ++ map fst (_events o));
  ok_bound : Forall (fun k => k <= _index o) (slot_keys l ++ map fst (_events o));
  ok_index : 0 <= _index o < 2 ^ 31;
  ok_names : names_ok (_objectNameToIdx o) (entries l (_events o));
}.

Record store_ok (s : Store) : Prop := {
  store_objects this o : objects s !! this = Some o -> exists l, object_ok s o l;
  store_own this this' o o' : objects s !! this = Some o -> objects s !! this' = Some o' -> _methods o = _methods o' -> this = this';
  store_next a : (next_address s <= a)%nat -> privates s !! a = None /\ methodMaps s !! a = None /\ objects s !! a = None;
}.

(** An identifier for a new member: the next one, or one that is given, below. *)
Definition id_free (o : MetaObjectPrivate) (l : list slot) (id : Z) : Prop :=
  id = -1 /\ _index o + 1 < 2 ^ 31 \/ 0 <= id <= _index o /\ id ∉ slot_keys l ++ map fst (_events o).

(** [map_set] on nodes. *)
Fixpoint slot_set (x : slot) (l : list slot) : list slot :=
  match l with
  | [] => [x]
  | y :: l' => match fst (fst x) ?= fst (fst y) with Eq => x :: l' | Lt => x :: l | Gt => y :: slot_set x l' end
  end.

(** ** Nodes *)

Lemma slot_set_fst x l : map fst (slot_set x l) = map_set Z.compare (fst (fst x)) (snd (fst x)) (map fst l).
Proof.
  destruct x as [[k r] p]. induction l as [|[[k' r'] p'] l IH]; cbn in *; [done|]. destruct (k ?= k'); cbn; [done..|]. by rewrite IH.
Qed.

Lemma slot_set_perm x l : fst (fst x) ∉ slot_keys l -> slot_set x l ≡ₚ x :: l.
Proof.
  induction l as [|y l IH]; intros H; cbn [slot_set]; [done|]. apply not_elem_of_cons in H as [H1 H2].
  destruct (Z.compare_spec (fst (fst x)) (fst (fst y))) as [?|?|?]; [done|done|]. rewrite IH by done. apply Permutation_swap.
Qed.

Lemma map_set_perm {V} k (v : V) m : k ∉ map fst m -> map_set Z.compare k v m ≡ₚ (k, v) :: m.
Proof.
  induction m as [|[k' v'] m IH]; intros H; cbn [map_set]; [done|]. apply not_elem_of_cons in H as [H1 H2]. cbn in H1.
  destruct (Z.compare_spec k k') as [?|?|?]; [done|done|]. rewrite IH by done. apply Permutation_swap.
Qed.

Lemma same_slots l l' events : Forall2 same_slot l l' ->
  map fst l' = map fst l /\ refs l' = refs l /\ slot_keys l' = slot_keys l /\ entries l' events = entries l events.
Proof.
  intros H. assert (map fst l' = map fst l /\ map slot_entry l' = map slot_entry l) as [E1 E2].
  { induction H as [|x y l l' [Hf Hd] H IH]; [done|]. destruct IH as [E1 E2]. cbn. rewrite E1, E2. split; [by f_equal|]. f_equal.
    destruct (same_data_fields _ _ Hd) as (E & _ & _ & _ & E'). unfold slot_entry. by rewrite E, E'. }
  split_and!; [done| | |by unfold entries; rewrite E2].
  - unfold refs. rewrite <- !(map_map fst snd). by rewrite E1.
  - unfold slot_keys. rewrite <- !(map_map fst fst). by rewrite E1.
Qed.

Lemma slots_links s s1 l : links_only s s1 -> Forall (slot_ok s) l -> exists l', Forall2 same_slot l l' /\ Forall (slot_ok s1) l'.
Proof.
  intros L. induction 1 as [|[[k r] p] l (H1 & H2 & H3) H (l' & F & G)]; [by exists []|]. cbn in *.
  pose proof (links_data _ _ L r) as D. rewrite H1 in D. destruct (privates s1 !! r) as [q|] eqn:Eq; [|by inversion D].
  assert (same_data p q) as Hq by (by inversion D). destruct (same_data_fields _ _ Hq) as (Hu & _ & Hs & _).
  exists (((k, r), q) :: l'). split; constructor; try done. split; [done|]. cbn. by rewrite <- Hu, <- Hs.
Qed.

Lemma methods_links s s1 ids l : links_only s s1 -> methods_wf s ids l -> exists l', Forall2 same_slot l l' /\ methods_wf s1 ids l'.
Proof.
  intros L [H1 H2 H3 H4]. destruct (slots_links _ _ _ L H4) as (l' & F & G). exists l'. split; [done|].
  destruct (same_slots _ _ [] F) as (E1 & E2 & _ & _). split; rewrite ?E1; try done.
  - by rewrite (links_maps _ _ L).
  - change (NoDup (refs l')). by rewrite E2.
Qed.

Lemma object_ok_same s s1 o l l' : Forall2 same_slot l l' -> methods_wf s1 (_methods o) l' -> object_ok s o l -> object_ok s1 o l'.
Proof.
  intros F W [H1 H2 H3 H4 H5 H6 H7 H8]. destruct (same_slots _ _ (_events o) F) as (E1 & E2 & E3 & E4).
  split; unfold distinct_texts; rewrite ?E3, ?E4; done.
Qed.

(** ** Names *)

Lemma names_permutation names es es' : es ≡ₚ es' -> names_ok names es -> names_ok names es'.
Proof.
  intros P [H1 H2 H3]. split; [| |done].
  - intros n v Hv. apply H1. by rewrite P.
  - intros n id t E Ht. rewrite <- P. auto.
Qed.

Lemma names_add names es n id t t' : names_ok names es -> n ∉ map fst es -> 0 <= id < 2 ^ 31 -> t' = t \/ t' = MetaObjectType_Property ->
  names_ok (<[n := (id, t')]> names) ((n, (id, t)) :: es).
Proof.
  intros [H1 H2 H3] Hn Hi Ht. split.
  - intros n' v [[= -> ->]|Hv]%elem_of_cons.
    + exists id, t'. rewrite lookup_insert_eq. split; [done|]. destruct Ht as [-> | ->]; auto.
    + assert (n' <> n) as Hne by (intros ->; apply Hn, list_elem_of_fmap; by exists (n, v)). rewrite lookup_insert_ne by done. auto.
  - intros n' id' u. destruct (decide (n' = n)) as [->|Hne].
    + rewrite lookup_insert_eq. intros [= -> ->] Hu. destruct Ht as [-> | ->]; [by left|done].
    + rewrite lookup_insert_ne by done. intros E Hu. right. auto.
  - intros n' id' u. destruct (decide (n' = n)) as [->|Hne]; [rewrite lookup_insert_eq; by intros [= <- _]|].
    rewrite lookup_insert_ne by done. apply H3.
Qed.

Lemma names_property names es n id : names_ok names es -> 0 <= id < 2 ^ 31 ->
  names_ok (<[n := (id, MetaObjectType_Property)]> names) es.
Proof.
  intros [H1 H2 H3] Hi. split.
  - intros n' v Hv. destruct (decide (n' = n)) as [->|Hne]; [|rewrite lookup_insert_ne by done; auto].
    exists id, MetaObjectType_Property. rewrite lookup_insert_eq. auto.
  - intros n' id' t. destruct (decide (n' = n)) as [->|Hne]; [rewrite lookup_insert_eq; by intros [= <- <-]|].
    rewrite lookup_insert_ne by done. apply H2.
  - intros n' id' t. destruct (decide (n' = n)) as [->|Hne]; [rewrite lookup_insert_eq; by intros [= <- _]|].
    rewrite lookup_insert_ne by done. apply H3.
Qed.

Lemma idFromName_cases names es n t : names_ok names es ->
  (idFromName names n t = -1 /\ forall id, names !! n <> Some (id, t)) \/
  (exists id, names !! n = Some (id, t) /\ idFromName names n t = id /\ 0 <= id < 2 ^ 31).
Proof.
  intros [_ _ H3]. unfold idFromName. destruct (names !! n) as [[id u]|] eqn:E; [|left; split; [done|congruence]].
  destruct (decide (u = t)) as [->|Hu]; [|left; split; [done|congruence]]. right. exists id. pose proof (H3 _ _ _ E) as Hi.
  split_and!; try done; [|lia|lia]. unfold s32, u32, wrap. rewrite Z.mod_small by lia. destruct (Z.ltb_spec id (2 ^ 31)); lia.
Qed.

Lemma entry_type l events n id t : (n, (id, t)) ∈ entries l events -> t <> MetaObjectType_None.
Proof.
  unfold entries. rewrite elem_of_app, !list_elem_of_fmap. intros [(x & [= _ _ ->] & _)|(x & [= _ _ ->] & _)]; done.
Qed.

Lemma text_free names l events n : names_ok names (entries l events) -> idFromName names n MetaObjectType_Method = -1 ->
  idFromName names n MetaObjectType_Property = -1 -> idFromName names n MetaObjectType_Signal = -1 -> n ∉ map fst (entries l events).
Proof.
  intros H H1 H2 H3 (e & -> & He)%list_elem_of_fmap. destruct e as [n [i u]]. cbn in *.
  destruct (names_known _ _ H n (i, u) He) as (id & t & E & _).
  destruct (idFromName_cases _ _ n t H) as [[_ E']|(id' & E' & Ei & Hr)]; [by apply (E' id)|].
  destruct t; try lia. by apply (entry_type _ _ _ _ _ (names_true _ _ H _ _ _ E ltac:(done))).
Qed.

Lemma signalId_none o n : Forall event_ok (_events o) -> signalId o n = -1 -> idFromName (_objectNameToIdx o) n MetaObjectType_Signal = -1.
Proof. unfold signalId. intros _. by destruct (Z.eqb_spec (idFromName (_objectNameToIdx o) n MetaObjectType_Signal) (-1)). Qed.

Lemma allot_ok s o l id : object_ok s o l -> id_free o l id ->
  exists uid index, allot id o = (uid, with_index index o) /\ s32 uid = uid /\ u32 uid = uid /\ 0 <= uid <= index /\ _index o <= index < 2 ^ 31 /\
    uid ∉ slot_keys l ++ map fst (_events o).
Proof.
  intros [_ _ _ _ _ Hb Hi _] Hf. unfold allot.
  assert (forall z, 0 <= z < 2 ^ 31 -> s32 z = z /\ u32 z = z) as Hz.
  { intros z Hz. unfold s32, u32, wrap. rewrite Z.mod_small by lia. destruct (Z.ltb_spec z (2 ^ 31)); lia. }
  destruct Hf as [[-> Hn]|[Hr Hn]].
  - cbn [Z.eqb]. unfold next_index. destruct (Hz (_index o + 1) ltac:(lia)) as [E1 E2].
    exists (_index o + 1), (_index o + 1). rewrite E1, E2. split_and!; try done; try lia.
    intros Hin. rewrite Forall_forall in Hb. specialize (Hb _ Hin). lia.
  - destruct (Z.eqb_spec id (-1)); [lia|]. destruct (Hz id ltac:(lia)) as [E1 E2]. exists id, (_index o).
    split_and!; try done; try lia. by destruct o.
Qed.

(** ** Adding members *)

Lemma object_ok_add_method s s' o l b p uid index names : object_ok s o l -> b ∉ refs l ->
  (0 <= uid <= index) -> _index o <= index < 2 ^ 31 -> uid ∉ slot_keys l ++ map fst (_events o) ->
  MetaMethod_toString p ∉ map fst (entries l (_events o)) -> mm_uid p = uid -> parsed (mm_parametersSignature p) ->
  privates s' = <[b := p]> (privates s) -> methodMaps s' !! _methods o = Some (map_set Z.compare uid b (map fst l)) ->
  names = <[MetaMethod_toString p := (uid, MetaObjectType_Method)]> (_objectNameToIdx o) ->
  object_ok s' (with_names names (with_index index o)) (slot_set ((uid, b), p) l).
Proof.
  intros [[W1 W2 W3 W4] H2 H3 H4 H5 H6 H7 H8] Hb Hu Hi Hk Ht Ep Hsig Es Em ->. set (x := ((uid, b), p) : slot).
  assert (uid ∉ slot_keys l) as Hk' by (intros H; apply Hk, elem_of_app; by left).
  pose proof (slot_set_perm x l Hk') as P. assert (entries (slot_set x l) (_events o) ≡ₚ slot_entry x :: entries l (_events o)) as Pe.
  { unfold entries. rewrite (Permutation_map slot_entry P). done. }
  assert (slot_keys (slot_set x l) ≡ₚ uid :: slot_keys l) as Pk by exact (Permutation_map (fun y : slot => fst (fst y)) P).
  split; cbn [with_names with_index _methods _events _index _objectNameToIdx].
  - split; [by rewrite slot_set_fst|rewrite slot_set_fst; by apply (map_set_sorted Z.compare)| |].
    + rewrite (Permutation_map (fun y : slot => snd (fst y)) P). by apply NoDup_cons.
    + rewrite P. constructor; [split; [cbn; by rewrite Es, lookup_insert_eq|cbn; split_and!; [done|lia|lia|done]]|].
      rewrite (Forall_forall (A := slot)) in W4 |- *. intros y Hy. destruct (W4 y Hy) as (E & R). split; [|done].
      rewrite Es, lookup_insert_ne; [done|]. intros ->. apply Hb, list_elem_of_fmap. by exists y.
  - done.
  - done.
  - unfold distinct_texts. rewrite (Permutation_map fst Pe). by apply NoDup_cons.
  - rewrite Pk. by apply NoDup_cons.
  - rewrite Pk. constructor; [lia|]. eapply Forall_impl; [exact H6|]. cbn. lia.
  - lia.
  - eapply names_permutation; [symmetry; exact Pe|]. unfold slot_entry, x. cbn [snd]. rewrite Ep. apply names_add; auto. lia.
Qed.

(** The store after [addMethod]. *)
Definition method_added (this : nat) (o' : MetaObjectPrivate) (b : MetaMethod) (p : MetaMethodPrivate) (m : MethodMap) (s : Store) : Store :=
  mkStore (<[b := p]> (privates s)) (<[_methods o' := m]> (methodMaps s)) (<[this := o']> (objects s)) (next_address s).

Lemma addMethod_cases s this o l b p id : objects s !! this = Some o -> object_ok s o l -> privates s !! b = Some p -> b ∉ refs l -> id_free o l id ->
  parsed (mm_parametersSignature p) ->
  (exists e, addMethod this b id s = Throw e s) \/
  (exists x, x ∈ l /\ MetaMethod_toString (snd x) = MetaMethod_toString p /\ addMethod this b id s = Return (mm_uid (snd x), false) s) \/
  (exists uid o', let m := map_set Z.compare uid b (map fst l) in let s' := method_added this o' b (with_uid uid p) m s in
     addMethod this b id s = Return (uid, true) s' /\ _methods o' = _methods o /\ object_ok s' o' (slot_set ((uid, b), with_uid uid p) l)).
Proof.
  intros Ho Hok Hp Hb Hid Hsig. pose proof (ok_names _ _ _ Hok) as Hn. pose proof (wf_map _ _ _ (ok_methods _ _ _ Hok)) as Hm.
  unfold addMethod. rewrite (bind_return _ _ _ _ _ (load_return privates _ _ _ Hp)), (bind_return _ _ _ _ _ (load_return objects _ _ _ Ho)).
  set (text := MetaMethod_toString p). destruct (decide (_ \/ _)) as [_|Hfree]; [left; by eexists|]. right.
  assert (signalId o text = -1 /\ propertyId o text = -1) as [Hs Hpr] by (destruct (decide (signalId o text = -1)), (decide (propertyId o text = -1)); tauto).
  unfold methodId. destruct (idFromName_cases _ _ text MetaObjectType_Method Hn) as [[Hi _]|(i & Ei & Hi & Hr)].
  - right. rewrite Hi. destruct (allot_ok _ _ _ _ Hok Hid) as (uid & index & -> & Es & Eu & Hu & Hx & Hk). cbn [decide].
    exists uid, (with_names (<[text := (uid, MetaObjectType_Method)]> (_objectNameToIdx o)) (with_index index o)).
    cbv zeta. split; [|split; [done|]].
    + destruct (decide (-1 <> -1)) as [?|_]; [done|].
      rewrite (bind_return (setUid uid b) _ s () _ (modify_private_return _ _ _ _ Hp)).
      rewrite (bind_return (get_methods _) _ _ _ _ (load_return methodMaps _ _ (mkStore _ _ _ _) Hm)). rewrite Eu. done.
    + apply (object_ok_add_method s _ o l b (with_uid uid p) uid index); try done; [|by apply lookup_insert_eq].
      apply (text_free (_objectNameToIdx o)); [done|done|exact Hpr|by apply signalId_none; [apply Hok|]].
  - left. rewrite Hi. assert (i <> -1) as Hne by lia. rewrite decide_True by done.
    pose proof (names_true _ _ Hn _ _ _ Ei ltac:(done)) as He. unfold entries in He.
    rewrite elem_of_app, !list_elem_of_fmap in He. destruct He as [(x & [= Et Eid] & Hx)|(x & [=] & _)].
    exists x. split_and!; [done|done|]. rewrite <- Eid. unfold u32, wrap. rewrite Z.mod_small by lia. done.
Qed.

Lemma addSignal_cases s this o l name signature id isSignalProperty : objects s !! this = Some o -> object_ok s o l -> id_free o l id ->
  (exists e, addSignal this name signature id isSignalProperty s = Throw e s) \/
  (exists i, addSignal this name signature id isSignalProperty s = Return (i, false) s) \/
  (exists uid o', addSignal this name signature id isSignalProperty s = Return (uid, true) (put_object this o' s) /\
     _methods o' = _methods o /\ object_ok s o' l).
Proof.
  intros Ho Hok Hid. unfold addSignal. rewrite (bind_return _ _ _ _ _ (load_return objects _ _ _ Ho)).
  set (text := MetaSignal_toString (mkMetaSignal (u32 (-1)) name signature)). destruct (decide (_ \/ _)) as [_|Hfree]; [left; by eexists|]. right.
  assert (methodId o text = -1 /\ propertyId o text = -1) as [Hm Hp] by (destruct (decide (methodId o text = -1)), (decide (propertyId o text = -1)); tauto).
  destruct (decide (signalId o text <> -1)) as [_|Hs]; [left; by eexists|]. right.
  assert (signalId o text = -1) as Hs' by (destruct (decide (signalId o text = -1)); tauto). clear Hs.
  destruct (allot_ok _ _ _ _ Hok Hid) as (uid & index & -> & _ & Eu & Hu & Hx & Hk). rewrite Eu.
  set (t := if isSignalProperty then _ else _). set (ms := mkMetaSignal uid name signature).
  eexists uid, _. split; [reflexivity|]. split; [done|]. destruct Hok as [H1 H2 H3 H4 H5 H6 H7 H8].
  assert (uid ∉ map fst (_events o)) as Hk' by (intros H; apply Hk, elem_of_app; by right).
  pose proof (map_set_perm uid ms _ Hk') as P.
  assert (entries l (map_set Z.compare uid ms (_events o)) ≡ₚ event_entry (uid, ms) :: entries l (_events o)) as Pe.
  { unfold entries. rewrite P. cbn [map]. by rewrite Permutation_middle. }
  assert (map fst (map_set Z.compare uid ms (_events o)) ≡ₚ uid :: map fst (_events o)) as Pk by (by rewrite P).
  assert (text ∉ map fst (entries l (_events o))) as Ht by (apply (text_free (_objectNameToIdx o)); [done|done|exact Hp|by apply signalId_none]).
  split; cbn [with_names with_events with_index _methods _events _index _objectNameToIdx]; [done| | | | | | |].
  - by apply (map_set_sorted Z.compare).
  - rewrite P. constructor; [split; [done|cbn; lia]|done].
  - unfold distinct_texts. rewrite (Permutation_map fst Pe). by apply NoDup_cons.
  - rewrite Pk, <- Permutation_middle. by apply NoDup_cons.
  - rewrite Pk, <- Permutation_middle. constructor; [lia|]. eapply Forall_impl; [exact H6|]. cbn. lia.
  - lia.
  - eapply names_permutation; [symmetry; exact Pe|]. apply (names_add _ _ text); [done|done|cbn; lia|]. subst t. cbn. destruct isSignalProperty; auto.
Qed.

(** The identifier of a property may be the one of its signal. *)
Definition property_id_ok (o : MetaObjectPrivate) (id : Z) : Prop := id = -1 /\ _index o + 1 < 2 ^ 31 \/ 0 <= id < 2 ^ 31.

Lemma object_ok_names s o l names index properties : object_ok s o l -> _index o <= index < 2 ^ 31 -> names_ok names (entries l (_events o)) ->
  object_ok s (with_names names (with_properties properties (with_index index o))) l.
Proof.
  intros [H1 H2 H3 H4 H5 H6 H7 H8] Hi Hn. split; cbn; try done; [|lia].
  eapply Forall_impl; [exact H6|]. cbn. lia.
Qed.

Lemma addProperty_cases s this o l name signature id : objects s !! this = Some o -> object_ok s o l -> property_id_ok o id ->
  (exists e, addProperty this name signature id s = Throw e s) \/
  (exists i, addProperty this name signature id s = Return (i, false) s) \/
  (exists uid o', addProperty this name signature id s = Return (uid, true) (put_object this o' s) /\
     _methods o' = _methods o /\ object_ok s o' l).
Proof.
  intros Ho Hok Hid. unfold addProperty. rewrite (bind_return _ _ _ _ _ (load_return objects _ _ _ Ho)).
  destruct (Signature_new _) as [asTuple|e]; [|left; by eexists]. rewrite of_result_ok.
  destruct (decide (_ \/ _)) as [_|_]; [left; by eexists|]. right. destruct (List.find _ _) as [it|]; [left; by eexists|]. right.
  assert (exists uid index, allot id o = (uid, with_index index o) /\ 0 <= u32 uid < 2 ^ 31 /\ _index o <= index < 2 ^ 31) as (uid & index & -> & Hu & Hi).
  { pose proof (ok_index _ _ _ Hok) as Hx. unfold allot. destruct Hid as [[-> Hn]|Hr].
    - cbn [Z.eqb]. unfold next_index, s32, u32, wrap. rewrite (Z.mod_small (_index o + 1)) by lia.
      destruct (Z.ltb_spec (_index o + 1) (2 ^ 31)); [|lia]. eexists _, _. split; [done|]. rewrite Z.mod_small by lia. lia.
    - destruct (Z.eqb_spec id (-1)); [lia|]. exists id, (_index o). split; [by destruct o|]. unfold u32, wrap. rewrite Z.mod_small by lia. lia. }
  eexists _, _. split; [reflexivity|]. split; [done|]. apply object_ok_names; [done|lia|]. apply names_property; [apply Hok|done].
Qed.
