(* ===== verification/MetaObjectTheorems.v ===== *)
(** * MetaObjectTheorems: the life of meta objects

    The operations on the meta objects of a store, builders included, and the invariant
    of the stores they reach. *)
From S2P Require Import Prelude SortedMap CString Bytes Signature SignatureGrammar SignatureProperties Float32 SignatureConvert.
From S2P Require Import MetaMethod MetaObject MetaObjectCache MetaObjectLookup MetaObjectNames MetaObjectInvariant.
From Stdlib Require Import Sorting.Sorted.
Open Scope Z_scope.

(** ** Definitions *)

Inductive meta_op :=
  | OpNew
  | OpAddMethod (this : nat) (sigret : Signature) (name : bytes) (signature : Signature) (id : Z)
  | OpAddSignal (this : nat) (name : bytes) (signature : Signature) (id : Z) (isSignalProperty : bool)
  | OpAddProperty (this : nat) (name : bytes) (signature : Signature) (id : Z)
  | OpDescription (this : nat) (desc : bytes)
  | OpRefresh (this : nat)
  | OpCopy (other : nat)
  | OpAssign (this other : nat)
  | OpDestroy (this : nat).

Definition run (op : meta_op) : ST unit :=
  match op with
  | OpNew => _ ← MetaObject_new; mret ()
  | OpAddMethod this sigret name signature id => _ ← builder_addMethod this sigret name signature id; mret ()
  | OpAddSignal this name signature id p => _ ← addSignal this name signature id p; mret ()
  | OpAddProperty this name signature id => _ ← addProperty this name signature id; mret ()
  | OpDescription this desc => setDescription this desc
  | OpRefresh this => refreshCache this
  | OpCopy other => _ ← MetaObject_copy other; mret ()
  | OpAssign this other => MetaObject_assign this other
  | OpDestroy this => MetaObject_destroy this
  end.

(** The identifiers of the methods and of the signals of an object. *)
Definition used_ids (s : Store) (o : MetaObjectPrivate) : list Z :=
  map fst (default [] (methodMaps s !! _methods o)) ++ map fst (_events o).

(** What the callers of an operation see to: the objects live, the signatures were parsed,
    and the identifiers that they choose themselves are free and below the counter. *)
Definition allowed (s : Store) (op : meta_op) : Prop :=
  let live this := is_Some (objects s !! this) in
  let free this id := exists o, objects s !! this = Some o /\
    (id = -1 /\ _index o + 1 < 2 ^ 31 \/ 0 <= id <= _index o /\ id ∉ used_ids s o) in
  match op with
  | OpNew => True
  | OpAddMethod this _ _ signature id => parsed signature /\ free this id
  | OpAddSignal this _ _ id _ => free this id
  | OpAddProperty this _ _ id => exists o, objects s !! this = Some o /\ property_id_ok o id
  | OpDescription this _ | OpRefresh this | OpCopy this | OpDestroy this => live this
  | OpAssign this other => live this /\ live other
  end.

Inductive reachable : Store -> Prop :=
  | reachable_empty : reachable Store_empty
  | reachable_return op s s' : reachable s -> allowed s op -> run op s = Return () s' -> reachable s'
  | reachable_throw op s e s' : reachable s -> allowed s op -> run op s = Throw e s' -> reachable s'.

(** ** Frames *)

Lemma object_ok_frame s s' o l : (forall r, r ∈ refs l -> privates s' !! r = privates s !! r) ->
  methodMaps s' !! _methods o = methodMaps s !! _methods o -> object_ok s o l -> object_ok s' o l.
Proof.
  intros Hp Hm [[W1 W2 W3 W4] H2 H3 H4 H5 H6 H7 H8]. split; try done. split; [by rewrite Hm|done..|].
  rewrite (Forall_forall (A := slot)) in W4 |- *. intros x Hx. destruct (W4 x Hx) as (E & R). split; [|done].
  rewrite Hp; [done|]. apply list_elem_of_fmap. by exists x.
Qed.

Lemma object_ok_links s s1 this o' o l : links_only s s1 -> object_ok s o l -> exists l', object_ok (put_object this o' s1) o l'.
Proof.
  intros L Hok. destruct (methods_links _ _ _ _ L (ok_methods _ _ _ Hok)) as (l' & F & W). exists l'.
  eapply object_ok_same; [exact F| |exact Hok]. by apply (methods_wf_ext s1).
Qed.

Lemma store_ok_put s s' this o' l' : store_ok s -> objects s' = <[this := o']> (objects s) -> object_ok s' o' l' ->
  (forall other o2 l2, other <> this -> objects s !! other = Some o2 -> object_ok s o2 l2 ->
     _methods o2 <> _methods o' /\ exists l2', object_ok s' o2 l2') ->
  (next_address s <= next_address s')%nat -> (this < next_address s')%nat ->
  (forall a, (next_address s' <= a)%nat -> privates s' !! a = None /\ methodMaps s' !! a = None) -> store_ok s'.
Proof.
  intros [H1 H2 H3] Eo Hok Hother Hn Ht Ha. split.
  - intros other o2. rewrite Eo. destruct (decide (other = this)) as [->|Hne].
    + rewrite lookup_insert_eq. intros [= <-]. by exists l'.
    + rewrite lookup_insert_ne by done. intros E. destruct (H1 _ _ E) as (l2 & Hl2). by destruct (Hother _ _ _ Hne E Hl2).
  - intros i j oi oj. rewrite Eo.
    destruct (decide (i = this)) as [->|Hi], (decide (j = this)) as [->|Hj];
      rewrite ?lookup_insert_eq, ?lookup_insert_ne by done; intros Ei Ej E; [done| | |by eapply H2].
    + injection Ei as <-. destruct (H1 _ _ Ej) as (l2 & Hl2). destruct (Hother _ _ _ Hj Ej Hl2) as [Hc _]. congruence.
    + injection Ej as <-. destruct (H1 _ _ Ei) as (l2 & Hl2). destruct (Hother _ _ _ Hi Ei Hl2) as [Hc _]. congruence.
  - intros a Hle. destruct (Ha a Hle) as [? ?]. split_and!; [done..|]. rewrite Eo, lookup_insert_ne by lia. apply H3. lia.
Qed.

Lemma live_bound s this o : store_ok s -> objects s !! this = Some o -> (this < next_address s)%nat.
Proof. intros H E. destruct (decide (this < next_address s)%nat) as [|Hn]; [done|]. destruct (store_next _ H this ltac:(lia)) as (_ & _ & ?). congruence. Qed.

Lemma refs_bound s o l r : store_ok s -> object_ok s o l -> r ∈ refs l -> (r < next_address s)%nat.
Proof.
  intros H Hok (x & -> & Hx)%list_elem_of_fmap. pose proof (wf_slots _ _ _ (ok_methods _ _ _ Hok)) as Hs.
  rewrite (Forall_forall (A := slot)) in Hs. destruct (Hs x Hx) as (E & _).
  destruct (decide (snd (fst x) < next_address s)%nat) as [|Hn]; [done|]. destruct (store_next _ H (snd (fst x)) ltac:(lia)) as (? & _). congruence.
Qed.

Lemma map_bound s o l : store_ok s -> object_ok s o l -> (_methods o < next_address s)%nat.
Proof.
  intros H Hok. pose proof (wf_map _ _ _ (ok_methods _ _ _ Hok)) as E.
  destruct (decide (_methods o < next_address s)%nat) as [|Hn]; [done|]. destruct (store_next _ H (_methods o) ltac:(lia)) as (_ & ? & _). congruence.
Qed.

(** An operation that only changes one object. *)
Lemma store_ok_object s this o o' l : store_ok s -> objects s !! this = Some o -> _methods o' = _methods o -> object_ok s o' l ->
  store_ok (put_object this o' s).
Proof.
  intros H Ho Em Hok. eapply store_ok_put; [exact H|done| | |done|exact (live_bound _ _ _ H Ho)|].
  - by apply (object_ok_frame s _ o' l).
  - intros other o2 l2 Hne E2 Hl2. split; [|exists l2; by apply (object_ok_frame s)]. rewrite Em. intros E. by apply Hne, (store_own _ H _ _ _ _ E2 Ho).
  - intros a Ha. destruct (store_next _ H a Ha) as (? & ? & _). done.
Qed.

(** ** The cache *)

Lemma refreshed_idx ids l events b : 0 <= b -> Forall (fun k => k <= b) (slot_keys l ++ map fst events) ->
  Forall (fun x : slot => mm_uid (snd x) = fst (fst x)) l -> Forall event_ok events -> r_idx (refreshed_all ids l events) <= b.
Proof.
  intros Hb H Hl He. rewrite Forall_app in H. destruct H as [K1 K2]. unfold refreshed_all.
  assert (forall acc, r_idx acc <= b -> r_idx (foldl (refresh_names ids) acc l) <= b) as L1.
  { clear He K2. unfold slot_keys in K1. induction l as [|x l IH]; intros acc Ha; [done|]. cbn [foldl map] in *.
    apply Forall_cons in K1 as [? ?]. apply Forall_cons in Hl as [Hx ?]. apply IH; [done..|]. cbn. lia. }
  assert (forall acc, r_idx acc <= b -> r_idx (foldl refresh_signal acc events) <= b) as L2.
  { clear L1 Hl K1. induction events as [|e events IH]; intros acc Ha; [done|]. cbn [foldl map] in *.
    apply Forall_cons in K2 as [? ?]. apply Forall_cons in He as [[Hx _] ?]. apply IH; [done..|]. cbn. lia. }
  apply L2, L1. done.
Qed.

Lemma refreshed_object_ok s o l : object_ok s o l -> object_ok s (refreshed_object o l) l.
Proof.
  intros [H1 H2 H3 H4 H5 H6 H7 H8].
  assert (Forall (fun x : slot => mm_uid (snd x) = fst (fst x)) l) as Hu.
  { pose proof (wf_slots _ _ _ H1) as Hs. eapply Forall_impl; [exact Hs|]. intros x (_ & ? & _). done. }
  pose proof (refreshed_idx (_methods o) l (_events o) (_index o) ltac:(lia) H6 Hu H3) as Hi.
  assert (Z.max (r_idx (refreshed_all (_methods o) l (_events o))) (_index o) = _index o) as Ei by lia.
  split; cbn [refreshed_object _methods _events _index _objectNameToIdx]; rewrite ?Ei; try done. split.
  - intros n v Hv. exists (fst v), (snd v). rewrite <- surjective_pairing. split; [|by right]. by apply refreshed_lookup.
  - intros n id t E _. by apply (refreshed_lookup (_methods o)).
  - intros n id t E. apply refreshed_lookup in E; [|done]. unfold entries in E. rewrite elem_of_app, !list_elem_of_fmap in E.
    destruct E as [(x & [= -> -> _] & Hx)|(e & [= -> -> _] & He)].
    + pose proof (wf_slots _ _ _ H1) as Hs. rewrite (Forall_forall (A := slot)) in Hs. destruct (Hs x Hx) as (_ & -> & ? & _). done.
    + rewrite (Forall_forall (A := Z * MetaSignal)) in H3. destruct (H3 e He) as [-> ?]. done.
Qed.

Lemma refresh_ok s this o l : store_ok s -> objects s !! this = Some o -> object_ok s o l ->
  exists s' l', refreshCache this s = Return () s' /\ store_ok s' /\ Forall2 same_slot l l' /\ cached s' this (refreshed_object o l) l' /\
    object_ok s' (refreshed_object o l) l' /\ objects s' = <[this := refreshed_object o l]> (objects s).
Proof.
  intros H Ho Hok. destruct (refreshCache_return _ _ _ _ Ho (ok_methods _ _ _ Hok)) as (s1 & l' & E & L & F & W & C).
  set (s' := put_object this (refreshed_object o l) s1) in *. exists s', l'.
  assert (object_ok s' (refreshed_object o l) l') as Hok'.
  { apply (object_ok_same s s' _ l l' F); [done|by apply refreshed_object_ok]. }
  assert (objects s' = <[this := refreshed_object o l]> (objects s)) as Eo by (cbn; by rewrite (links_objects _ _ L)).
  split_and!; [done| |done| |done|done].
  - eapply store_ok_put; [exact H|exact Eo|exact Hok'| | | |].
    + intros other o2 l2 Hne E2 Hl2. split; [intros E'; by apply Hne, (store_own _ H _ _ _ _ E2 Ho)|]. by eapply object_ok_links.
    + cbn. by rewrite (links_next _ _ L).
    + cbn. rewrite (links_next _ _ L). exact (live_bound _ _ _ H Ho).
    + cbn. rewrite (links_next _ _ L), (links_maps _ _ L). intros a Ha. destruct (store_next _ H a Ha) as (Ep & ? & _). split; [|done].
      pose proof (links_data _ _ L a) as D. rewrite Ep in D. by inversion D.
  - split; [by rewrite Eo, lookup_insert_eq|done|apply W|exact C|].
    cbn [refreshed_object _objectNameToIdx _methods _events]. rewrite !refreshed_entries.
    destruct (same_slots _ _ (_events o) F) as (_ & _ & _ & ->). done.
Qed.

(** ** New objects *)

Definition MetaObject_default (methods : nat) : MetaObjectPrivate :=
  mkMetaObjectPrivate methods ∅ ∅ [] [] (qiObjectSpecialMemberMaxUid - 1) [] false None.

Lemma default_ok s methods : methodMaps s !! methods = Some [] -> object_ok s (MetaObject_default methods) [].
Proof.
  intros E. split; cbn; try constructor; try constructor; try done; try lia.
  - intros n v H. by apply elem_of_nil in H.
Qed.

Lemma new_ok s : store_ok s -> exists this s', MetaObject_new s = Return this s' /\ store_ok s' /\ objects s !! this = None /\
  objects s' = <[this := MetaObject_default (next_address s)]> (objects s) /\
  object_ok s' (MetaObject_default (next_address s)) [] /\ (forall o l, object_ok s o l -> object_ok s' o l).
Proof.
  intros H. set (a := next_address s). exists (S a). eexists. split; [reflexivity|].
  assert (forall o l, object_ok s o l -> object_ok
    (mkStore (privates s) (<[a := []]> (methodMaps s)) (<[S a := MetaObject_default a]> (objects s)) (S (S a))) o l) as Hf.
  { intros o l Hok. apply (object_ok_frame s); [|cbn; rewrite lookup_insert_ne; [done|]|exact Hok]; [done|].
    pose proof (map_bound _ _ _ H Hok). lia. }
  assert (object_ok (mkStore (privates s) (<[a := []]> (methodMaps s)) (<[S a := MetaObject_default a]> (objects s)) (S (S a)))
    (MetaObject_default a) []) as Hd by (apply default_ok, lookup_insert_eq).
  split_and!; [|apply (store_next _ H (S a)); lia|done|done|done].
  eapply store_ok_put; [exact H|reflexivity|exact Hd| |cbn; lia|cbn; lia|].
  - intros other o2 l2 _ E2 Hl2. split; [cbn; pose proof (map_bound _ _ _ H Hl2); lia|]. exists l2. by apply Hf.
  - cbn. intros b Hb. rewrite lookup_insert_ne by lia. destruct (store_next _ H b ltac:(lia)) as (? & ? & _). done.
Qed.

(** The store of an assignment before it refreshes the cache. *)
Lemma assigned_ok s this rhs o r l : store_ok s -> this <> rhs -> objects s !! this = Some o -> objects s !! rhs = Some r -> object_ok s r l ->
  let nodes := next_address s in
  let o1 := mkMetaObjectPrivate nodes (_methodNameToOverload o) (_objectNameToIdx r) (_events r) (_properties r) (_index r) (_description r)
              (_dirtyCache o) (_contentSHA1 o) in
  let s1 := mkStore (privates s) (<[nodes := map fst l]> (delete (_methods o) (methodMaps s))) (<[this := o1]> (objects s)) (S nodes) in
  MetaObject_assign this rhs s = refreshCache this s1 /\ store_ok s1 /\ object_ok s1 o1 l.
Proof.
  intros H Hne Ho Hr Hok nodes o1 s1. pose proof (wf_map _ _ _ (ok_methods _ _ _ Hok)) as Em.
  assert (object_ok s1 o1 l) as Hok1.
  { destruct Hok as [[W1 W2 W3 W4] H2 H3 H4 H5 H6 H7 H8]. split; try done. split; [apply lookup_insert_eq|done..]. }
  split_and!; [| |done].
  - unfold MetaObject_assign. rewrite decide_False by done. rewrite (bind_return _ _ _ _ _ (load_return objects _ _ _ Ho)).
    rewrite (bind_return _ _ _ _ _ (load_return objects _ _ _ Hr)). by rewrite (bind_return _ _ _ _ _ (load_return methodMaps _ _ _ Em)).
  - eapply store_ok_put; [exact H|reflexivity|exact Hok1| |cbn; lia|cbn; pose proof (live_bound _ _ _ H Ho); lia|].
    + intros other o2 l2 Hne2 E2 Hl2. pose proof (map_bound _ _ _ H Hl2) as Hb. split; [cbn; lia|]. exists l2.
      apply (object_ok_frame s); [done| |exact Hl2]. cbn. rewrite lookup_insert_ne by lia. rewrite lookup_delete_ne; [done|].
      intros E. by apply Hne2, (store_own _ H _ _ _ _ E2 Ho).
    + cbn. intros a Ha. destruct (store_next _ H a ltac:(lia)) as (? & Ea & _). split; [done|]. rewrite lookup_insert_ne by lia.
      destruct (decide (a = _methods o)) as [->|]; [apply lookup_delete_eq|by rewrite lookup_delete_ne].
Qed.

Lemma assign_ok s this rhs o r l : store_ok s -> this <> rhs -> objects s !! this = Some o -> objects s !! rhs = Some r -> object_ok s r l ->
  exists s' o' l', MetaObject_assign this rhs s = Return () s' /\ store_ok s' /\ Forall2 same_slot l l' /\ cached s' this o' l' /\
    object_ok s' o' l' /\ _events o' = _events r.
Proof.
  intros H Hne Ho Hr Hok. destruct (assigned_ok _ _ _ _ _ _ H Hne Ho Hr Hok) as (-> & H1 & Hok1).
  destruct (refresh_ok _ this _ _ H1 ltac:(apply lookup_insert_eq) Hok1) as (s' & l' & E & H' & F & C & O & _).
  eexists s', _, l'. split_and!; [exact E|done|done|exact C|exact O|done].
Qed.

Lemma copy_ok s other o l : store_ok s -> objects s !! other = Some o -> object_ok s o l ->
  exists this s' o' l', MetaObject_copy other s = Return this s' /\ store_ok s' /\ Forall2 same_slot l l' /\ cached s' this o' l' /\
    object_ok s' o' l' /\ _events o' = _events o.
Proof.
  intros H Ho Hok. destruct (new_ok _ H) as (this & s1 & E & H1 & Hn & Eo & _ & Hf).
  assert (this <> other) as Hne by (intros ->; congruence).
  destruct (assign_ok s1 this other (MetaObject_default (next_address s)) o l H1 Hne) as (s' & o' & l' & E' & R); [by rewrite Eo, lookup_insert_eq| |by apply Hf|].
  { by rewrite Eo, lookup_insert_ne. }
  exists this, s', o', l'. split; [|done]. unfold MetaObject_copy. rewrite (bind_return _ _ _ _ _ E). by rewrite (bind_return _ _ _ _ _ E').
Qed.

(** The object that a builder returns. *)
Lemma metaObject_ok s this o l : store_ok s -> objects s !! this = Some o -> object_ok s o l ->
  exists copy s' o' l', builder_metaObject this s = Return copy s' /\ store_ok s' /\ Forall2 same_slot l l' /\ cached s' copy o' l' /\
    object_ok s' o' l' /\ _events o' = _events o.
Proof.
  intros H Ho Hok. destruct (refresh_ok _ _ _ _ H Ho Hok) as (s1 & l1 & E & H1 & F & _ & O & Eo).
  destruct (copy_ok s1 this (refreshed_object o l) l1 H1) as (copy & s' & o' & l' & E' & H' & F' & C & O' & Ev); [by rewrite Eo, lookup_insert_eq|done|].
  exists copy, s', o', l'. split_and!; try done. { unfold builder_metaObject. by rewrite (bind_return _ _ _ _ _ E). }
  clear - F F'. revert l' F'. induction F as [|x y l l1 Hxy F IH]; intros l' F'; [by inversion F'|].
  inversion F' as [|? z ? l2 Hyz F2]; subst. constructor; [by etransitivity|by apply IH].
Qed.

(** ** Methods *)

Lemma add_method_ok s this o l b p id : store_ok s -> objects s !! this = Some o -> object_ok s o l -> privates s !! b = Some p ->
  (forall other o2 l2, objects s !! other = Some o2 -> object_ok s o2 l2 -> b ∉ refs l2) -> id_free o l id -> parsed (mm_parametersSignature p) ->
  exists s', store_ok s' /\ ((exists e, addMethod this b id s = Throw e s') \/ exists r, addMethod this b id s = Return r s').
Proof.
  intros H Ho Hok Hp Hb Hid Hsig. pose proof (Hb _ _ _ Ho Hok) as Hbl.
  destruct (addMethod_cases _ _ _ _ _ _ _ Ho Hok Hp Hbl Hid Hsig) as [[e E]|[(x & _ & _ & E)|(uid & o' & E & Em & Hok')]]; cbv zeta in *.
  - exists s. split; [done|]. left. by exists e.
  - exists s. split; [done|]. right. by eexists.
  - eexists. split; [|right; by eexists]. assert (b < next_address s)%nat as Hbn.
    { destruct (decide (b < next_address s)%nat) as [|Hn]; [done|]. destruct (store_next _ H b ltac:(lia)) as (? & _). congruence. }
    eapply store_ok_put; [exact H|reflexivity|exact Hok'| |done|exact (live_bound _ _ _ H Ho)|].
    + intros other o2 l2 Hne E2 Hl2. assert (_methods o2 <> _methods o) as Hm by (intros E'; by apply Hne, (store_own _ H _ _ _ _ E2 Ho)).
      rewrite Em. split; [done|]. exists l2. apply (object_ok_frame s); [| |exact Hl2]; cbn.
      * intros r Hr. rewrite lookup_insert_ne; [done|]. intros ->. by apply (Hb _ _ _ E2 Hl2).
      * rewrite Em. by rewrite lookup_insert_ne.
    + cbn. intros a Ha. pose proof (map_bound _ _ _ H Hok) as Hmb. destruct (store_next _ H a Ha) as (? & ? & _).
      rewrite !lookup_insert_ne by (rewrite ?Em; lia). done.
Qed.

(** The method that [MetaObjectBuilder::addMethod] makes before it adds it. *)
Lemma builder_addMethod_return this sigret name signature id s :
  builder_addMethod this sigret name signature id s =
  addMethod this (next_address s) id
    (mkStore (<[next_address s := mkMetaMethodPrivate 0 sigret name signature [] [] [] None]> (privates s)) (methodMaps s) (objects s)
       (S (next_address s))).
Proof.
  unfold builder_addMethod, MetaMethodBuilder_new, MetaMethod_new. set (a := next_address s).
  unfold setReturnSignature, setName, setParametersSignature, modify_private, get_private, load, set_private, new_address, mbind, ST_bind, mret, ST_ret.
  cbn. fold a. repeat (rewrite lookup_insert_eq; cbn). rewrite !insert_insert_eq. done.
Qed.

Lemma builder_add_method_ok s this o l sigret name signature id : store_ok s -> objects s !! this = Some o -> object_ok s o l -> id_free o l id -> parsed signature ->
  exists s', store_ok s' /\ ((exists e, builder_addMethod this sigret name signature id s = Throw e s') \/
                            exists r, builder_addMethod this sigret name signature id s = Return r s').
Proof.
  intros H Ho Hok Hid Hsig. rewrite builder_addMethod_return. set (a := next_address s). set (s1 := mkStore _ _ _ _).
  assert (forall o2 l2, object_ok s o2 l2 -> object_ok s1 o2 l2) as Hf.
  { intros o2 l2 Hl2. apply (object_ok_frame s); [|done|exact Hl2]. intros r Hr. pose proof (refs_bound _ _ _ _ H Hl2 Hr).
    cbn. rewrite lookup_insert_ne by lia. done. }
  assert (store_ok s1) as H1.
  { destruct H as [S1 S2 S3]. split; [|done|].
    - intros this' o' E. destruct (S1 this' o' E) as (l' & Hl'). exists l'. by apply Hf.
    - cbn. intros b Hb. rewrite lookup_insert_ne by lia. apply S3. lia. }
  eapply add_method_ok; [exact H1|exact Ho|by apply Hf|apply lookup_insert_eq| |done|done].
  intros other o2 l2 E2 Hl2 Hin. destruct (store_objects _ H _ _ E2) as (l3 & Hl3).
  pose proof (wf_map _ _ _ (ok_methods _ _ _ Hl2)) as M2. pose proof (wf_map _ _ _ (ok_methods _ _ _ Hl3)) as M3. cbn in M2.
  rewrite M3 in M2. injection M2 as M2. assert (a ∈ refs l3) as Hin3.
  { unfold refs in *. rewrite <- (map_map fst snd) in Hin |- *. by rewrite M2. }
  pose proof (refs_bound _ _ _ _ H Hl3 Hin3). lia.
Qed.

(** ** Every operation *)

Lemma destroy_ok s this o : store_ok s -> objects s !! this = Some o -> exists s', MetaObject_destroy this s = Return () s' /\ store_ok s'.
Proof.
  intros H Ho. eexists. split; [unfold MetaObject_destroy; by rewrite (bind_return _ _ _ _ _ (load_return objects _ _ _ Ho))|].
  destruct H as [S1 S2 S3]. split; cbn.
  - intros other o2 (Hne & E2)%lookup_delete_Some. destruct (S1 _ _ E2) as (l2 & Hl2). exists l2. apply (object_ok_frame s); [done| |done].
    cbn. rewrite lookup_delete_ne; [done|]. intros E. by apply Hne, (S2 _ _ _ _ Ho E2).
  - intros i j oi oj (_ & Ei)%lookup_delete_Some (_ & Ej)%lookup_delete_Some. by apply S2.
  - intros a Ha. destruct (S3 a Ha) as (? & ? & ?). split_and!; [done|..].
    + destruct (decide (a = _methods o)) as [->|]; [apply lookup_delete_eq|by rewrite lookup_delete_ne].
    + destruct (decide (a = this)) as [->|]; [apply lookup_delete_eq|by rewrite lookup_delete_ne].
Qed.

Lemma allowed_free s o l id : object_ok s o l -> id = -1 /\ _index o + 1 < 2 ^ 31 \/ 0 <= id <= _index o /\ id ∉ used_ids s o -> id_free o l id.
Proof.
  intros Hok H. unfold id_free. unfold used_ids in H. rewrite (wf_map _ _ _ (ok_methods _ _ _ Hok)) in H. cbn in H. by rewrite map_map in H.
Qed.

(** A run that returns or throws in a store that satisfies the invariant. *)
Definition runs_ok (op : meta_op) (s : Store) : Prop :=
  exists s', store_ok s' /\ (run op s = Return () s' \/ exists e, run op s = Throw e s').

Lemma setDescription_ok s this desc o l : store_ok s -> objects s !! this = Some o -> object_ok s o l -> runs_ok (OpDescription this desc) s.
Proof.
  intros H Ho Hok. eexists. split; [|left; cbn; unfold setDescription; by rewrite (bind_return _ _ _ _ _ (load_return objects _ _ _ Ho))].
  eapply (store_ok_object s this o _ l H Ho); [done|]. destruct Hok. by split.
Qed.

Lemma run_ok s op : store_ok s -> allowed s op -> runs_ok op s.
Proof.
  intros H Ha. destruct op as [|this sigret name sig id|this name sig id p|this name sig id|this desc|this|other|this other|this]; cbn [allowed] in Ha.
  - destruct (new_ok s H) as (this & s' & E & H' & _). exists s'. split; [done|]. left. cbn. by rewrite (bind_return _ _ _ _ _ E).
  - destruct Ha as (Hsig & o & Ho & Hf). destruct (store_objects _ H _ _ Ho) as (l & Hok). pose proof (allowed_free _ _ _ _ Hok Hf) as Hid.
    destruct (builder_add_method_ok s this o l sigret name sig id H Ho Hok Hid Hsig) as (s' & H' & [[e E]|[r E]]); exists s'; (split; [done|]); cbn.
    + right. exists e. unfold mbind, ST_bind. by rewrite E.
    + left. by rewrite (bind_return _ _ _ _ _ E).
  - destruct Ha as (o & Ho & Hf). destruct (store_objects _ H _ _ Ho) as (l & Hok). pose proof (allowed_free _ _ _ _ Hok Hf) as Hid.
    destruct (addSignal_cases s this o l name sig id p Ho Hok Hid) as [[e E]|[[i E]|(uid & o' & E & Em & Hok')]].
    + exists s. split; [done|]. right. exists e. cbn. unfold mbind, ST_bind. by rewrite E.
    + exists s. split; [done|]. left. cbn. by rewrite (bind_return _ _ _ _ _ E).
    + eexists. split; [|left; cbn; by rewrite (bind_return _ _ _ _ _ E)]. by eapply store_ok_object.
  - destruct Ha as (o & Ho & Hf). destruct (store_objects _ H _ _ Ho) as (l & Hok).
    destruct (addProperty_cases s this o l name sig id Ho Hok Hf) as [[e E]|[[i E]|(uid & o' & E & Em & Hok')]].
    + exists s. split; [done|]. right. exists e. cbn. unfold mbind, ST_bind. by rewrite E.
    + exists s. split; [done|]. left. cbn. by rewrite (bind_return _ _ _ _ _ E).
    + eexists. split; [|left; cbn; by rewrite (bind_return _ _ _ _ _ E)]. by eapply store_ok_object.
  - destruct Ha as (o & Ho). destruct (store_objects _ H _ _ Ho) as (l & Hok). by eapply setDescription_ok.
  - destruct Ha as (o & Ho). destruct (store_objects _ H _ _ Ho) as (l & Hok).
    destruct (refresh_ok _ _ _ _ H Ho Hok) as (s' & l' & E & H' & _). exists s'. split; [done|]. by left.
  - destruct Ha as (o & Ho). destruct (store_objects _ H _ _ Ho) as (l & Hok).
    destruct (copy_ok _ _ _ _ H Ho Hok) as (this & s' & o' & l' & E & H' & _). exists s'. split; [done|]. left. cbn. by rewrite (bind_return _ _ _ _ _ E).
  - destruct Ha as [(o & Ho) (r & Hr)]. destruct (store_objects _ H _ _ Hr) as (l & Hok). destruct (decide (this = other)) as [<-|Hne].
    + exists s. split; [done|]. left. cbn. unfold MetaObject_assign. by rewrite decide_True.
    + destruct (assign_ok _ _ _ _ _ _ H Hne Ho Hr Hok) as (s' & o' & l' & E & H' & _). exists s'. split; [done|]. by left.
  - destruct Ha as (o & Ho). destruct (destroy_ok _ _ _ H Ho) as (s' & E & H'). exists s'. split; [done|]. by left.
Qed.

Lemma empty_ok : store_ok Store_empty.
Proof.
  split; cbn.
  - intros this o H. by rewrite lookup_empty in H.
  - intros this this' o o' H. by rewrite lookup_empty in H.
  - intros a _. by rewrite !lookup_empty.
Qed.

Lemma reachable_ok s : reachable s -> store_ok s.
Proof.
  induction 1 as [|op s s' _ IH Ha E|op s e s' _ IH Ha E]; [exact empty_ok|..];
    destruct (run_ok s op IH Ha) as (s2 & H2 & [E2|[e2 E2]]); congruence.
Qed.

(** * What meta objects promise

    The invariant of the meta objects that are built, the resolution of calls on them, and
    runs in which a caller does something else than building and copying. *)
Open Scope Z_scope.

(** ** Small programs *)

Definition sig_of_text (s : bytes) : Signature := match Signature_new s with Ok sig => sig | Err _ => Signature_empty end.

(** Arguments whose types are known. *)
Definition typed_args (n : Z) (s : bytes) : GenericFunctionParameters := mkArgs n (fun _ => sig_of_text s).

(** A builder with methods of one name. *)
Definition build_methods (name : bytes) (params : list bytes) : ST nat :=
  b ← MetaObject_new;
  _ ← for_each (fun _ p => _ ← builder_addMethod b (sig_of_text (lit "v")) name (sig_of_text p) (-1); mret ()) () params;
  mret b.

(** What a program returns. *)
Definition result_of {A} (m : ST A) : option A := match m Store_empty with Return a _ => Some a | _ => None end.

(** A sequence of operations. *)
Definition exec1 (op : meta_op) (s : Store) : Store := match run op s with Return _ s' | Throw _ s' => s' | _ => s end.
Definition exec (ops : list meta_op) : Store := foldl (fun s op => exec1 op s) Store_empty ops.

(** A builder with two methods and the signal of a property. *)
Definition sample : list meta_op :=
  [OpNew;
   OpAddMethod 1 (sig_of_text (lit "v")) (lit "f") (sig_of_text (lit "(i)")) (-1);
   OpAddMethod 1 (sig_of_text (lit "v")) (lit "f") (sig_of_text (lit "(s)")) (-1);
   OpAddSignal 1 (lit "p") (sig_of_text (lit "(i)")) (-1) true].

(** ** The invariant *)



Lemma built_found s this o : reachable s -> objects s !! this = Some o ->
  exists copy s' o' l l', builder_metaObject this s = Return copy s' /\ methods_wf s (_methods o) l /\ Forall2 same_slot l l' /\
    cached s' copy o' l' /\ distinct_texts l' (_events o').
Proof.
  intros H Ho. pose proof (reachable_ok s H) as Hs. destruct (store_objects _ Hs _ _ Ho) as (l & Hok).
  destruct (metaObject_ok _ _ _ _ Hs Ho Hok) as (copy & s' & o' & l' & E & _ & F & C & O & _).
  exists copy, s', o', l, l'. split_and!; try done; [apply Hok|apply O].
Qed.


(** The meta object that a builder returns resolves a name that has a
    signature by its whole text: to the identifier of the method of that text,
    exactly; when there is none, to -1 if the text splits into a valid
    signature, and to an exception if it does not. *)
Theorem built_texts_found requireSameName s this o name args : reachable s -> objects s !! this = Some o -> find_char ":" name <> npos ->
  exists copy s' l, builder_metaObject this s = Return copy s' /\ methods_wf s (_methods o) l /\
    forall fuel,
      (forall x, x ∈ l -> MetaMethod_toString (snd x) = name ->
         findMethod requireSameName fuel copy name args s' = Return (mm_uid (snd x), true) s') /\
      ((forall x, x ∈ l -> MetaMethod_toString (snd x) <> name) ->
         findMethod requireSameName fuel copy name args s' =
         match signatureSplit name with Ok _ => Return (-1, true) s' | Err e => Throw (InvalidSignatureText e) s' end).
Proof.
  intros H Ho Hn. destruct (built_found _ _ _ H Ho) as (copy & s' & o' & l & l' & E & W & F & C & D).
  exists copy, s', l. split_and!; try done. intros fuel. destruct (findMethod_full requireSameName _ _ _ _ _ args fuel C D Hn) as [H1 H2]. split.
  - intros x Hx Ht. apply list_elem_of_lookup in Hx as (i & Hi). destruct (Forall2_lookup_l _ _ _ _ _ F Hi) as (y & Hy & _ & Hd).
    destruct (same_data_fields _ _ Hd) as (-> & _ & _ & _ & Et). apply H1; [by eapply list_elem_of_lookup_2|congruence].
  - intros Hx. apply H2. intros y Hy Ht. apply list_elem_of_lookup in Hy as (i & Hi). destruct (Forall2_lookup_r _ _ _ _ _ F Hi) as (x & Hx' & _ & Hd).
    destruct (same_data_fields _ _ Hd) as (_ & _ & _ & _ & Et). apply (Hx x); [by eapply list_elem_of_lookup_2|congruence].
Qed.

(** ** A store that is reached *)

Lemma reachable_snoc ops op : reachable (exec ops) -> allowed (exec ops) op -> reachable (exec (ops ++ [op])).
Proof.
  intros H Ha. unfold exec. rewrite foldl_app. cbn [foldl]. change (foldl _ Store_empty ops) with (exec ops). unfold exec1.
  destruct (run_ok _ op (reachable_ok _ H) Ha) as (s' & _ & [E|[e E]]); rewrite E.
  - by eapply reachable_return.
  - by eapply reachable_throw.
Qed.

Ltac next_id := eexists; split; [vm_compute; reflexivity|left; split; [reflexivity|vm_compute; reflexivity]].

Lemma built_store_reachable : reachable (exec sample).
Proof.
  apply (reachable_snoc (take 3 sample)).
  - apply (reachable_snoc (take 2 sample)).
    + apply (reachable_snoc (take 1 sample)).
      * apply (reachable_snoc []); [exact reachable_empty|exact I].
      * split; [by right; exists (lit "(i)"); vm_compute|next_id].
    + split; [by right; exists (lit "(s)"); vm_compute|next_id].
  - next_id.
Qed.


Definition sample_object : MetaObjectPrivate := default (MetaObject_default 0) (objects (exec sample) !! 1%nat).


Lemma built_texts_found_witness :
  exists copy s' l, builder_metaObject 1 (exec sample) = Return copy s' /\ methods_wf (exec sample) (_methods sample_object) l /\
    forall fuel,
      (forall x, x ∈ l -> MetaMethod_toString (snd x) = lit "f::(s)" ->
         findMethod true fuel copy (lit "f::(s)") (typed_args 1 (lit "(s)")) s' = Return (mm_uid (snd x), true) s') /\
      ((forall x, x ∈ l -> MetaMethod_toString (snd x) <> lit "f::(s)") ->
         findMethod true fuel copy (lit "f::(s)") (typed_args 1 (lit "(s)")) s' =
         match signatureSplit (lit "f::(s)") with Ok _ => Return (-1, true) s' | Err e => Throw (InvalidSignatureText e) s' end).
Proof.
  apply (built_texts_found true (exec sample) 1 sample_object (lit "f::(s)") (typed_args 1 (lit "(s)")) built_store_reachable);
    vm_compute; [reflexivity|discriminate].
Defined.

(** ** Runs

    Two overloads, found by their number of arguments and by their types. *)
Example overloads_by_arity :
  result_of (b ← build_methods (lit "f") [lit "(i)"; lit "(ss)"]; mo ← builder_metaObject b;
             findMethod true 10 mo (lit "f") (typed_args 2 (lit "(ss)"))) = Some (101, true).
Proof. vm_compute. reflexivity. Qed.

Example overloads_by_type :
  result_of (b ← build_methods (lit "f") [lit "(i)"; lit "(s)"]; mo ← builder_metaObject b;
             findMethod true 10 mo (lit "f") (typed_args 1 (lit "(s)"))) = Some (101, false).
Proof. vm_compute. reflexivity. Qed.

(** The exact overload is not preferred: the integers all convert to each other with the
    same score, so the call is ambiguous. The lookup that is meant to find the exact one
    uses the bare name. *)
Example exact_overload_ambiguous :
  result_of (b ← build_methods (lit "f") [lit "(i)"; lit "(l)"]; mo ← builder_metaObject b;
             findMethod true 10 mo (lit "f") (typed_args 1 (lit "(i)"))) = Some (-3, false).
Proof. vm_compute. reflexivity. Qed.

(** With a signature the error is -1, never -2, though the name exists. *)
Example full_signature_mismatch :
  result_of (b ← build_methods (lit "f") [lit "(i)"]; mo ← builder_metaObject b;
             findMethod true 10 mo (lit "f::(s)") (typed_args 1 (lit "(s)"))) = Some (-1, true).
Proof. vm_compute. reflexivity. Qed.

(** A copy takes the chains of its source with it: once the copy is gone, looking for an
    overload in the source reads freed memory. *)
Example copy_breaks_overloads :
  (b ← build_methods (lit "f") [lit "(i)"; lit "(s)"]; mo ← builder_metaObject b;
   copy ← MetaObject_copy mo; _ ← MetaObject_destroy copy;
   findMethod true 10 mo (lit "f") (typed_args 1 (lit "(s)"))) Store_empty = Undefined.
Proof. vm_compute. reflexivity. Qed.

(** A builder of methods that is used twice gives two methods that share their data, and
    their chain is a circle. *)
Definition reused_builder : ST nat :=
  o ← MetaObject_new; b ← MetaMethodBuilder_new;
  _ ← setName (lit "f") b; _ ← setParametersSignature (sig_of_text (lit "(i)")) b; _ ← addMethod o b (-1);
  _ ← setParametersSignature (sig_of_text (lit "(s)")) b; _ ← addMethod o b (-1);
  mret o.

Example reused_builder_loops :
  (o ← reused_builder; findMethod true 500 o (lit "f") (typed_args 0 (lit "()"))) Store_empty = Running.
Proof. vm_compute. reflexivity. Qed.

(** An identifier that a caller has chosen above the counter is given again, and the text
    of the first method then names the second one. *)
Example chosen_id_taken :
  result_of (o ← MetaObject_new;
             r1 ← builder_addMethod o (sig_of_text (lit "v")) (lit "f") (sig_of_text (lit "()")) 100;
             r2 ← builder_addMethod o (sig_of_text (lit "v")) (lit "g") (sig_of_text (lit "()")) (-1);
             found ← (obj ← get_object o; mret (methodId obj (lit "f::()")));
             m ← method_of_id o found;
             n ← match m with Some a => p ← get_private a; mret (mm_name p) | None => mret [] end;
             mret (r1, r2, found, n)) = Some ((100, true), (100, true), 100, lit "g").
Proof. vm_compute. reflexivity. Qed.
