(* ===== verification/TcpMessageSocket.v ===== *)
(** * TcpMessageSocket: the states of a socket

    Model of [src/messaging/tcpmessagesocket.hpp] with the states of
    [sock/connectingstate.hpp], [sock/connectedstate.hpp] and
    [sock/disconnectingstate.hpp]: a machine whose steps are the calls on the socket and
    the tasks that the network and the continuations of futures run, in any order. A
    section under the mutex of the state is a step. The objects of the states outlive
    them, so they are in tables; a promise is a number. What a read or a write gives is
    chosen by the step; the queues of messages are in [Send] and [Receive]. *)
From S2P Require Import Prelude CString Bytes Url TransportSocketCache Message.
Open Scope nat_scope.

(** ** The data *)

Inductive promise_status := Running | HasValue | HasError.
#[export] Instance promise_status_eq_dec : EqDecision promise_status.
Proof. solve_decision. Defined.

(** [ConnectingResult]; of the message of an error only whether there is one. *)
Record ConnectingResult := mkConnectingResult {
  cr_hasError : bool;
  cr_socket : bool;
  cr_disconnectionRequested : bool;
  cr_disconnectedPromise : nat;
}.

(** [Connecting], and for a client the promise of [connect]. *)
Record Connecting := mkConnecting {
  c_result : ConnectingResult;
  c_stopping : bool;
  c_complete : bool;
  c_connectedPromise : option nat;
}.

(** [Connected], and the future that [OnConnectedComplete] waits for. *)
Record Connected := mkConnected {
  k_hasError : bool;
  k_disconnectedPromise : nat;
  k_stopRequested : bool;
  k_shuttingdown : bool;
  k_complete : bool;
  k_futureConnected : option nat;
}.

(** [Disconnecting], with what its continuation captures. *)
Record Disconnecting := mkDisconnecting {
  d_socket : bool;
  d_disconnectedPromise : nat;
  d_completePromise : nat;
  d_wasConnected : bool;
}.

Inductive State := DisconnectedState | ConnectingState (i : nat) | ConnectedState (j : nat) | DisconnectingState (d : nat).

Inductive Status := Status_Disconnected | Status_Connecting | Status_Connected | Status_Disconnecting.

(** What is left to run: the operations of the network and the continuations. *)
Inductive task :=
  | TConnect (i : nat)
  | TConnectComplete (i : nat)
  | TEmitConnected (p : nat)
  | TSetConnected (p : nat)
  | TShutdown (j : nat)
  | TReceive (j : nat)
  | TSend (j : nat)
  | TConnectedComplete (j : nat)
  | TEnterDisconnected (socket : bool) (p : nat)
  | TClose (d : nat)
  | TDisconnectComplete (d : nat)
  | TEmitDisconnected (d : nat)
  | TSetDisconnected (p : nat)
  | TLink (src dst : nat)
  | TEnsureWait (i : nat)
  | TEnsureEnd (i : nat).

Inductive signal := Signal_connected | Signal_disconnected | Signal_socketEvent.

Record TcpMessageSocket := mkSocket {
  _state : State;
  connectings : list Connecting;
  connecteds : list Connected;
  disconnectings : list Disconnecting;
  promises : list promise_status;
  tasks : list task;
  signals : list signal;
  (** a call of [ensureReading] waits with the mutex *)
  locked : bool;
  (** an assertion failed, or a promise was set twice *)
  failed : bool;
}.

(** ** Fields *)

Definition set_state (st : State) (s : TcpMessageSocket) : TcpMessageSocket :=
  mkSocket st (connectings s) (connecteds s) (disconnectings s) (promises s) (tasks s) (signals s) (locked s) (failed s).
Definition set_connectings (l : list Connecting) (s : TcpMessageSocket) : TcpMessageSocket :=
  mkSocket (_state s) l (connecteds s) (disconnectings s) (promises s) (tasks s) (signals s) (locked s) (failed s).
Definition set_connecteds (l : list Connected) (s : TcpMessageSocket) : TcpMessageSocket :=
  mkSocket (_state s) (connectings s) l (disconnectings s) (promises s) (tasks s) (signals s) (locked s) (failed s).
Definition set_disconnectings (l : list Disconnecting) (s : TcpMessageSocket) : TcpMessageSocket :=
  mkSocket (_state s) (connectings s) (connecteds s) l (promises s) (tasks s) (signals s) (locked s) (failed s).
Definition set_promises (l : list promise_status) (s : TcpMessageSocket) : TcpMessageSocket :=
  mkSocket (_state s) (connectings s) (connecteds s) (disconnectings s) l (tasks s) (signals s) (locked s) (failed s).
Definition set_tasks (l : list task) (s : TcpMessageSocket) : TcpMessageSocket :=
  mkSocket (_state s) (connectings s) (connecteds s) (disconnectings s) (promises s) l (signals s) (locked s) (failed s).
Definition emit (l : list signal) (s : TcpMessageSocket) : TcpMessageSocket :=
  mkSocket (_state s) (connectings s) (connecteds s) (disconnectings s) (promises s) (tasks s) (signals s ++ l) (locked s) (failed s).
Definition set_locked (b : bool) (s : TcpMessageSocket) : TcpMessageSocket :=
  mkSocket (_state s) (connectings s) (connecteds s) (disconnectings s) (promises s) (tasks s) (signals s) b (failed s).
Definition fail (s : TcpMessageSocket) : TcpMessageSocket :=
  mkSocket (_state s) (connectings s) (connecteds s) (disconnectings s) (promises s) (tasks s) (signals s) (locked s) true.

Definition post (t : task) (s : TcpMessageSocket) : TcpMessageSocket := set_tasks (tasks s ++ [t]) s.

Definition getStatus (s : TcpMessageSocket) : Status :=
  match _state s with
  | DisconnectedState => Status_Disconnected
  | ConnectingState _ => Status_Connecting
  | ConnectedState _ => Status_Connected
  | DisconnectingState _ => Status_Disconnecting
  end.

(** ** Promises *)

Definition new_promise (st : promise_status) (s : TcpMessageSocket) : nat * TcpMessageSocket :=
  (length (promises s), set_promises (promises s ++ [st]) s).

(** Setting a promise that is set throws. *)
Definition finish (p : nat) (st : promise_status) (s : TcpMessageSocket) : TcpMessageSocket :=
  match promises s !! p with
  | Some Running => set_promises (<[p := st]> (promises s)) s
  | _ => fail s
  end.

Definition finished (p : nat) (s : TcpMessageSocket) : bool :=
  match promises s !! p with Some Running | None => false | Some _ => true end.

(** ** The states *)

(** The constructor of [Connecting], from a URL or from a socket that is connected: the
    latter is complete at once without TLS. *)
Definition Connecting_new (connectedPromise : option nat) (network : bool) (s : TcpMessageSocket) : nat * TcpMessageSocket :=
  let '(dp, s) := new_promise Running s in
  let i := length (connectings s) in
  let c := mkConnecting (mkConnectingResult false (negb network) false dp) false (negb network) connectedPromise in
  let s := set_connectings (connectings s ++ [c]) s in
  (i, if network then post (TConnect i) s else s).

(** [Connecting::stop] *)
Definition Connecting_stop (i : nat) (disconnectedPromise : nat) (s : TcpMessageSocket) : TcpMessageSocket :=
  match connectings s !! i with
  | None => s
  | Some c =>
      let r := c_result c in
      if negb (c_stopping c) then
        set_connectings
          (<[i := mkConnecting (mkConnectingResult (cr_hasError r) (cr_socket r) true disconnectedPromise) true (c_complete c) (c_connectedPromise c)]>
             (connectings s)) s
      else post (TLink (cr_disconnectedPromise r) disconnectedPromise) s
  end.

(** The constructor of [Connected]: it begins to read. *)
Definition Connected_new (futureConnected : option nat) (s : TcpMessageSocket) : nat * TcpMessageSocket :=
  let '(dp, s) := new_promise Running s in
  let j := length (connecteds s) in
  (j, post (TReceive j) (set_connecteds (connecteds s ++ [mkConnected false dp false false false futureConnected]) s)).

(** [Connected::stop] *)
Definition Connected_stop (j : nat) (disconnectedPromise : nat) (s : TcpMessageSocket) : TcpMessageSocket :=
  match connecteds s !! j with
  | None => s
  | Some k =>
      if negb (k_stopRequested k) then
        post (TShutdown j)
          (set_connecteds (<[j := mkConnected (k_hasError k) disconnectedPromise true (k_shuttingdown k) (k_complete k) (k_futureConnected k)]> (connecteds s)) s)
      else post (TLink (k_disconnectedPromise k) disconnectedPromise) s
  end.

(** [Connected::Impl::setPromise]: the first call completes the state. *)
Definition Connected_setPromise (j : nat) (error : bool) (s : TcpMessageSocket) : TcpMessageSocket :=
  match connecteds s !! j with
  | None => s
  | Some k =>
      if k_complete k then s
      else
        let stopAsked := k_stopRequested k && k_shuttingdown k in
        post (TConnectedComplete j)
          (set_connecteds
             (<[j := mkConnected (k_hasError k || negb stopAsked && error) (k_disconnectedPromise k) (k_stopRequested k) (k_shuttingdown k) true
                       (k_futureConnected k)]> (connecteds s)) s)
  end.

(** [Disconnecting::operator()]: without a socket there is nothing to close. *)
Definition Disconnecting_call (d : nat) (s : TcpMessageSocket) : TcpMessageSocket :=
  match disconnectings s !! d with
  | None => s
  | Some x =>
      if d_socket x then post (TClose d) s
      else post (TDisconnectComplete d) (finish (d_completePromise x) HasValue s)
  end.

(** ** The operations *)

Definition enterDisconnectedState (socket : bool) (promiseDisconnected : nat) (s : TcpMessageSocket) : TcpMessageSocket :=
  let wasConnected := match getStatus s with Status_Connected => true | _ => false end in
  let '(cp, s) := new_promise Running s in
  let d := length (disconnectings s) in
  let s := set_disconnectings (disconnectings s ++ [mkDisconnecting socket promiseDisconnected cp wasConnected]) s in
  Disconnecting_call d (set_state (DisconnectingState d) s).

(** [connect]: the future that it returns. *)
Definition connect (u : UrlPrivate) (s : TcpMessageSocket) : nat * TcpMessageSocket :=
  match getStatus s with
  | Status_Disconnected =>
      if negb (isValid u) then new_promise HasError s
      else
        match (if has (components u) SCHEME then tcpSchemeFromUriScheme (protocol u) else None) with
        | None => new_promise HasError s
        | Some _ =>
            let '(p, s) := new_promise Running s in
            let '(i, s) := Connecting_new (Some p) true s in
            (p, set_state (ConnectingState i) s)
        end
  | _ => new_promise HasError s
  end.

(** The network has resolved the address, connected and shaken hands, or one of them has
    failed; for a client the continuation of [connect] is next. *)
Definition connecting_done (i : nat) (error : bool) (s : TcpMessageSocket) : TcpMessageSocket :=
  match connectings s !! i with
  | None => s
  | Some c =>
      let r := c_result c in
      let r := mkConnectingResult error (negb error) (cr_disconnectionRequested r) (cr_disconnectedPromise r) in
      let s := set_connectings (<[i := mkConnecting r (c_stopping c) true (c_connectedPromise c)]> (connectings s)) s in
      match c_connectedPromise c with Some _ => post (TConnectComplete i) s | None => s end
  end.

(** The continuation of [connect], up to the emission of [connected]. *)
Definition connect_continuation (i : nat) (s : TcpMessageSocket) : TcpMessageSocket :=
  match connectings s !! i with
  | None => s
  | Some c =>
      let res := c_result c in
      let p := default 0%nat (c_connectedPromise c) in
      let s := match getStatus s with Status_Connecting => s | _ => fail s end in
      if cr_disconnectionRequested res || cr_hasError res then
        enterDisconnectedState (cr_socket res) (cr_disconnectedPromise res) (finish p HasError s)
      else
        let '(j, s) := Connected_new (Some p) s in
        post (TEmitConnected p) (set_state (ConnectedState j) s)
  end.

(** [doDisconnect]: the future that it returns. *)
Definition doDisconnect (s : TcpMessageSocket) : nat * TcpMessageSocket :=
  match _state s with
  | DisconnectedState => new_promise HasValue s
  | ConnectingState i => let '(q, s) := new_promise Running s in (q, Connecting_stop i q s)
  | ConnectedState j => let '(q, s) := new_promise Running s in (q, Connected_stop j q s)
  | DisconnectingState d =>
      let '(_, s) := new_promise Running s in
      (match disconnectings s !! d with Some x => d_completePromise x | None => 0%nat end, s)
  end.

(** [send]: whether the socket is connected. *)
Definition send (s : TcpMessageSocket) : bool * TcpMessageSocket :=
  match _state s with
  | ConnectedState j => (true, post (TSend j) s)
  | _ => (false, s)
  end.

(** The beginning of [ensureReading], which then waits with the mutex. *)
Definition ensureReading (s : TcpMessageSocket) : bool * TcpMessageSocket :=
  match _state s with
  | ConnectingState i => (true, post (TEnsureWait i) (set_locked true s))
  | _ => (false, s)
  end.

(** The end of [ensureReading], under the mutex again. *)
Definition ensureReading_end (i : nat) (s : TcpMessageSocket) : TcpMessageSocket :=
  match connectings s !! i with
  | None => s
  | Some c =>
      let res := c_result c in
      if cr_hasError res then enterDisconnectedState (cr_socket res) (cr_disconnectedPromise res) s
      else
        let '(j, s) := Connected_new None s in
        emit [Signal_connected] (set_state (ConnectedState j) s)
  end.

(** ** Tasks *)

(** The callbacks of the reads and of the writes of a connected state: [more] is what the
    handler of the message answers. *)
Definition onReceived (j : nat) (error more : bool) (s : TcpMessageSocket) : TcpMessageSocket :=
  match connecteds s !! j with
  | None => s
  | Some k =>
      let mustContinue := negb (k_shuttingdown k) && negb error && more in
      if mustContinue then post (TReceive j) s else Connected_setPromise j error s
  end.
Definition onSent (j : nat) (error : bool) (s : TcpMessageSocket) : TcpMessageSocket :=
  match connecteds s !! j with
  | None => s
  | Some k => if k_shuttingdown k then Connected_setPromise j error s else s
  end.

Definition raise_shuttingdown (j : nat) (s : TcpMessageSocket) : TcpMessageSocket :=
  set_connecteds (alter (fun k => mkConnected (k_hasError k) (k_disconnectedPromise k) (k_stopRequested k) true (k_complete k) (k_futureConnected k)) j
                    (connecteds s)) s.

(** A task runs in the state from which it was taken; [None] when it cannot run now. *)
Definition run_task (t : task) (error more : bool) (s : TcpMessageSocket) : option TcpMessageSocket :=
  let with_mutex (s' : TcpMessageSocket) := if locked s then None else Some s' in
  match t with
  | TConnect i => Some (connecting_done i error s)
  | TConnectComplete i => with_mutex (connect_continuation i s)
  | TEmitConnected p => Some (post (TSetConnected p) (emit [Signal_connected] s))
  | TSetConnected p => Some (finish p HasValue s)
  | TShutdown j => Some (raise_shuttingdown j s)
  | TReceive j => Some (onReceived j error more s)
  | TSend j => Some (onSent j error s)
  | TConnectedComplete j =>
      match connecteds s !! j with
      | None => None
      | Some k =>
          if match k_futureConnected k with Some p => finished p s | None => true end
          then Some (post (TEnterDisconnected true (k_disconnectedPromise k)) s) else None
      end
  | TEnterDisconnected socket p => with_mutex (enterDisconnectedState socket p s)
  | TClose d =>
      match disconnectings s !! d with
      | None => None
      | Some x => Some (post (TDisconnectComplete d) (finish (d_completePromise x) HasValue s))
      end
  | TDisconnectComplete d => with_mutex (post (TEmitDisconnected d) (set_state DisconnectedState s))
  | TEmitDisconnected d =>
      match disconnectings s !! d with
      | None => None
      | Some x =>
          Some (post (TSetDisconnected (d_disconnectedPromise x))
                  (emit ((if d_wasConnected x then [Signal_disconnected] else []) ++ [Signal_socketEvent]) s))
      end
  | TSetDisconnected p => Some (finish p HasValue s)
  | TLink src dst =>
      match promises s !! src with
      | Some HasValue => Some (finish dst HasValue s)
      | Some HasError => Some (finish dst HasError s)
      | _ => None
      end
  | TEnsureWait i =>
      match connectings s !! i with
      | Some c => if c_complete c then Some (post (TEnsureEnd i) (set_locked false s)) else None
      | None => None
      end
  | TEnsureEnd i => with_mutex (ensureReading_end i s)
  end.

(** ** Steps *)

Inductive event :=
  | Connect (u : UrlPrivate)
  | Disconnect
  | SendMessage
  | EnsureReading
  | RunTask (k : nat) (error more : bool).

Definition step (e : event) (s : TcpMessageSocket) : option TcpMessageSocket :=
  let with_mutex (s' : TcpMessageSocket) := if locked s then None else Some s' in
  match e with
  | Connect u => with_mutex (snd (connect u s))
  | Disconnect => with_mutex (snd (doDisconnect s))
  | SendMessage => with_mutex (snd (send s))
  | EnsureReading => with_mutex (snd (ensureReading s))
  | RunTask k error more =>
      t ← tasks s !! k;
      run_task t error more (set_tasks (take k (tasks s) ++ drop (S k) (tasks s)) s)
  end.

Definition Socket_client : TcpMessageSocket := mkSocket DisconnectedState [] [] [] [] [] [] false false.

(** The socket of a server; [tls] asks for a handshake. *)
Definition Socket_server (tls : bool) : TcpMessageSocket :=
  let '(i, s) := Connecting_new None tls Socket_client in set_state (ConnectingState i) s.

(** ** Received messages *)

Section messages.
(** What the value of a message converts to, or the exception. *)
Context {Capabilities : Type} (value_of : Message -> option Capabilities).

Definition mustTreatAsServerAuthentication (hasReceivedRemoteCapabilities : bool) (msg : Message) : bool :=
  negb hasReceivedRemoteCapabilities && (service (_header msg) =? Service_Server)%Z
  && (action (_header msg) =? ServerFunction_Authenticate)%Z.

(** What [handleMessage] does: it inserts capabilities, it dispatches, and its result. *)
Record handled := mkHandled { h_capabilities : option Capabilities; h_dispatched : bool; h_success : bool }.

Definition handleMessage (hasReceivedRemoteCapabilities : bool) (msg : Message) : handled :=
  if mustTreatAsServerAuthentication hasReceivedRemoteCapabilities msg || (type (_header msg) =? Type_Capability)%Z then
    if (type (_header msg) =? Type_Error)%Z then mkHandled None false false
    else
      match value_of msg with
      | None => mkHandled None false false
      | Some caps => mkHandled (Some caps) (negb (type (_header msg) =? Type_Capability)%Z) true
      end
  else mkHandled None true true.

(** [dispatchOrSendError]: to whom an error is sent when no handler took a call. *)
Definition dispatchOrSendError (msg : Message) (handled : bool) : option MessageAddress :=
  if (type (_header msg) =? Type_Call)%Z && negb handled then Some (header_address (_header msg)) else None.
End messages.
