(* ===== verification/TcpSocketInvariant.v ===== *)
(** * TcpSocketInvariant: what a socket of a client has left to do

    The invariant of the runs of a client: in every state one task at most makes the state
    change, and every promise that will be set is owned by one task. *)
From S2P Require Import Prelude CString Bytes Url TransportSocketCache Message TcpMessageSocket.
Open Scope nat_scope.

(** ** Definitions *)

Definition side_promises (s : TcpMessageSocket) (t : task) : list nat :=
  match t with
  | TEmitConnected p | TSetConnected p | TSetDisconnected p => [p]
  | TLink _ dst => [dst]
  | TEmitDisconnected d => match disconnectings s !! d with Some x => [d_disconnectedPromise x] | None => [] end
  | _ => []
  end.

(** The tasks that do not change the state. *)
Definition side_ok (s : TcpMessageSocket) (t : task) : Prop :=
  match t with
  | TEmitConnected _ | TSetConnected _ | TSetDisconnected _ | TLink _ _ => True
  | TShutdown j | TSend j => j < length (connecteds s)
  | TReceive j => exists k, connecteds s !! j = Some k /\ k_complete k = true
  | TEmitDisconnected d => d < length (disconnectings s)
  | _ => False
  end.

(** The task that makes the state change, with the promises that it owns. *)
Inductive phase (s : TcpMessageSocket) : option task -> list nat -> Prop :=
  | phase_disconnected : _state s = DisconnectedState -> phase s None []
  | phase_connecting i c p : _state s = ConnectingState i -> connectings s !! i = Some c -> c_complete c = false ->
      c_connectedPromise c = Some p -> phase s (Some (TConnect i)) [p; cr_disconnectedPromise (c_result c)]
  | phase_complete i c p : _state s = ConnectingState i -> connectings s !! i = Some c -> c_complete c = true ->
      c_connectedPromise c = Some p -> phase s (Some (TConnectComplete i)) [p; cr_disconnectedPromise (c_result c)]
  | phase_connected j k : _state s = ConnectedState j -> connecteds s !! j = Some k -> k_complete k = false ->
      phase s (Some (TReceive j)) [k_disconnectedPromise k]
  | phase_over j k : _state s = ConnectedState j -> connecteds s !! j = Some k -> k_complete k = true ->
      phase s (Some (TConnectedComplete j)) [k_disconnectedPromise k]
  | phase_leaving j k p : _state s = ConnectedState j -> connecteds s !! j = Some k -> k_complete k = true ->
      phase s (Some (TEnterDisconnected true p)) [p]
  | phase_closing d x : _state s = DisconnectingState d -> disconnectings s !! d = Some x ->
      phase s (Some (TClose d)) [d_completePromise x; d_disconnectedPromise x]
  | phase_closed d x : _state s = DisconnectingState d -> disconnectings s !! d = Some x -> finished (d_completePromise x) s = true ->
      phase s (Some (TDisconnectComplete d)) [d_disconnectedPromise x].

Definition running (s : TcpMessageSocket) (p : nat) : Prop := promises s !! p = Some Running.

(** A promise of [connect] that is set, or that the emission of [connected] precedes. *)
Definition connected_soon (s : TcpMessageSocket) (p : nat) : Prop :=
  finished p s = true \/ TEmitConnected p ∈ tasks s \/ TSetConnected p ∈ tasks s.

Record client_inv (s : TcpMessageSocket) : Prop := {
  inv_unlocked : locked s = false;
  inv_ok : failed s = false;
  inv_tasks : exists m mp side, tasks s ≡ₚ option_list m ++ side /\ phase s m mp /\ Forall (side_ok s) side /\
    NoDup (mp ++ concat (map (side_promises s) side)) /\ Forall (running s) (mp ++ concat (map (side_promises s) side));
  inv_future j k : connecteds s !! j = Some k -> exists p, k_futureConnected k = Some p /\ connected_soon s p;
  inv_stop i c : connectings s !! i = Some c -> c_stopping c = cr_disconnectionRequested (c_result c);
  inv_active j k : connecteds s !! j = Some k -> k_complete k = false -> _state s = ConnectedState j;
}.

(** ** Lemmas *)

Lemma running_bound s p : running s p -> p < length (promises s).
Proof. apply lookup_lt_Some. Qed.

Lemma running_new s st l p : running s p -> running (set_promises (promises s ++ [st]) l) p.
Proof. intros H. unfold running. cbn. by apply lookup_app_l_Some. Qed.

Lemma finish_running p st s : running s p -> finish p st s = set_promises (<[p := st]> (promises s)) s.
Proof. intros H. unfold finish. by rewrite H. Qed.

Lemma running_finish s p q st s' : running s q -> p <> q -> promises s' = <[p := st]> (promises s) -> running s' q.
Proof. intros H Hne E. unfold running. rewrite E. by rewrite list_lookup_insert_ne. Qed.

(** A task that runs is the one of the phase, or a side task. *)
Lemma split_task s m mp side t rest : phase s m mp -> Forall (side_ok s) side -> t :: rest ≡ₚ option_list m ++ side ->
  m = Some t /\ rest ≡ₚ side \/ side_ok s t /\ exists side', side ≡ₚ t :: side' /\ rest ≡ₚ option_list m ++ side'.
Proof.
  intros Hp Hs P. assert (t ∈ option_list m ++ side) as Hin by (rewrite <- P; by left). apply elem_of_app in Hin as [Hin|Hin].
  - left. destruct m as [u|]; cbn in Hin; [|by apply elem_of_nil in Hin]. apply list_elem_of_singleton in Hin as ->.
    split; [done|]. cbn in P. by apply Permutation_cons_inv in P.
  - right. split; [by eapply Forall_forall in Hs|]. apply elem_of_Permutation in Hin as (side' & E). exists side'. split; [done|].
    rewrite E, <- Permutation_middle in P. by apply Permutation_cons_inv in P.
Qed.

Lemma finished_new s p q : finished p s = true -> promises s `prefix_of` q -> forall s', promises s' = q -> finished p s' = true.
Proof.
  unfold finished. intros H (l & ->) s' ->. destruct (promises s !! p) as [[]|] eqn:E; try done; by rewrite (lookup_app_l_Some _ _ _ _ E).
Qed.

(** ** Assembling the invariant of a state from what a step does *)

Record grows (s s' : TcpMessageSocket) : Prop := {
  grows_connecteds j k : connecteds s !! j = Some k -> exists k', connecteds s' !! j = Some k' /\ (k_complete k = true -> k_complete k' = true);
  grows_disconnectings d x : disconnectings s !! d = Some x -> disconnectings s' !! d = Some x;
}.

Definition owned (s : TcpMessageSocket) (side : list task) : list nat := concat (map (side_promises s) side).

Lemma side_grows s s' u : grows s s' -> side_ok s u -> side_ok s' u /\ side_promises s' u = side_promises s u.
Proof.
  intros [G1 G2]. assert (forall j, j < length (connecteds s) -> j < length (connecteds s')) as L1.
  { intros j [k Hk]%lookup_lt_is_Some. destruct (G1 j k Hk) as (k' & Hk' & _). by eapply lookup_lt_Some. }
  destruct u; cbn; try done.
  - intros H. split; [by apply L1|done].
  - intros (k & E & Hk). destruct (G1 _ _ E) as (k' & E' & Hk'). split; [exists k'; auto|done].
  - intros H. split; [by apply L1|done].
  - intros [x Hx]%lookup_lt_is_Some. pose proof (G2 _ _ Hx) as Hx'. rewrite Hx, Hx'. split; [by eapply lookup_lt_Some|done].
Qed.

Lemma sides_grow s s' side : grows s s' -> Forall (side_ok s) side -> Forall (side_ok s') side /\ owned s' side = owned s side.
Proof.
  intros G. unfold owned. induction 1 as [|u side Hu H [IH1 IH2]]; [done|]. destruct (side_grows _ _ _ G Hu) as [E1 E2].
  split; [by constructor|]. cbn [map concat]. by rewrite E2, IH2.
Qed.

Lemma inv_assemble s s' (O : list nat) side (fin : list nat) m' (mp' : list nat) new :
  Forall (side_ok s) side -> NoDup (O ++ owned s side) -> Forall (running s) (O ++ owned s side) ->
  grows s s' -> (forall p, p ∈ fin -> p ∈ O) -> (forall p, running s p -> p ∉ fin -> running s' p) ->
  locked s' = false -> failed s' = false -> tasks s' ≡ₚ option_list m' ++ new ++ side -> phase s' m' mp' -> Forall (side_ok s') new ->
  NoDup (mp' ++ owned s' new) ->
  (forall p, p ∈ mp' ++ owned s' new -> p ∈ O /\ p ∉ fin \/ running s' p /\ length (promises s) <= p) ->
  (forall j k, connecteds s' !! j = Some k -> exists p, k_futureConnected k = Some p /\ connected_soon s' p) ->
  (forall i c, connectings s' !! i = Some c -> c_stopping c = cr_disconnectionRequested (c_result c)) ->
  (forall j k, connecteds s' !! j = Some k -> k_complete k = false -> _state s' = ConnectedState j) ->
  client_inv s'.
Proof.
  intros Hs Hd Hr G Hf Hp Hl Hok Ht Hph Hn Hnd Hnew Hfut Hstop Hact. destruct (sides_grow _ _ _ G Hs) as [Hs' Eo].
  split; try done. exists m', mp', (new ++ side). split; [done|]. split; [done|]. split; [by apply Forall_app|].
  change (concat (map (side_promises s') (new ++ side))) with (owned s' (new ++ side)).
  assert (owned s' (new ++ side) = owned s' new ++ owned s side) as -> by (unfold owned in *; by rewrite map_app, concat_app, Eo).
  rewrite (assoc_L (++)). apply NoDup_app in Hd as (D1 & D2 & D3). apply Forall_app in Hr as [R1 R2]. rewrite (Forall_forall (A := nat)) in R1, R2. split.
  - apply NoDup_app. split_and!; [done| |done]. intros p Hin Hin2. destruct (Hnew p Hin) as [[H1 _]|[_ H1]]; [by apply (D2 p)|].
    pose proof (running_bound _ _ (R2 p Hin2)). lia.
  - apply Forall_app. split; apply (Forall_forall (A := nat)); intros p Hin.
    + destruct (Hnew p Hin) as [[H1 H2]|[H1 _]]; [|done]. apply Hp; [by apply R1|done].
    + apply Hp; [by apply R2|]. intros H1%Hf. by apply (D2 p).
Qed.

(** What is expected of [connected] is kept by a step. *)
Lemma soon_step s s' t p : connected_soon s p -> (forall q, finished q s = true -> finished q s' = true) ->
  (forall u, u ∈ tasks s -> u = t \/ u ∈ tasks s') -> t <> TEmitConnected p -> t <> TSetConnected p -> connected_soon s' p.
Proof.
  intros [H|[H|H]] Hf Ht N1 N2; [left; auto|right; left|right; right]; destruct (Ht _ H) as [?|?]; congruence.
Qed.

Lemma finished_app s s' l p : promises s' = promises s ++ l -> finished p s = true -> finished p s' = true.
Proof. intros E H. by apply (finished_new s p (promises s ++ l)); [|apply prefix_app_r|]. Qed.

Lemma finished_insert s s' p st q : promises s' = <[p := st]> (promises s) -> st <> Running -> finished q s = true -> finished q s' = true.
Proof.
  unfold finished. intros -> Hst H. destruct (decide (q = p)) as [->|Hne]; [|by rewrite list_lookup_insert_ne].
  destruct (promises s !! p) eqn:E; [|done]. rewrite list_lookup_insert_eq by (by eapply lookup_lt_Some). by destruct st.
Qed.

Lemma grows_same s s' : connecteds s' = connecteds s -> disconnectings s' = disconnectings s -> grows s s'.
Proof. intros E1 E2. split; rewrite ?E1, ?E2; eauto. Qed.

Lemma running_app s s' l p : promises s' = promises s ++ l -> running s p -> running s' p.
Proof. unfold running. intros ->. apply lookup_app_l_Some. Qed.

Lemma running_fresh s s' l1 l2 : promises s' = promises s ++ l1 ++ Running :: l2 -> running s' (length (promises s) + length l1).
Proof. unfold running. intros ->. rewrite lookup_app_r by lia. rewrite lookup_app_r by lia. by replace (_ - _ - _) with 0 by lia. Qed.

(** A side task does not change the phase. *)
Lemma phase_kept s s' m mp : phase s m mp -> _state s' = _state s -> connectings s' = connectings s -> disconnectings s' = disconnectings s ->
  (forall p, finished p s = true -> finished p s' = true) ->
  (forall j k, connecteds s !! j = Some k -> exists k', connecteds s' !! j = Some k' /\ k_complete k' = k_complete k /\
     k_disconnectedPromise k' = k_disconnectedPromise k) -> phase s' m mp.
Proof.
  intros H E1 E2 E3 Hf Hc. destruct H as [Es|i c p Es Ec Ek Ep|i c p Es Ec Ek Ep|j k Es Ec Ek|j k Es Ec Ek|j k p Es Ec Ek|d x Es Ed|d x Es Ed Ef];
    rewrite <- E1 in Es; try rewrite <- E2 in Ec; try rewrite <- E3 in Ed.
  - by apply phase_disconnected.
  - by apply phase_connecting.
  - by apply phase_complete.
  - destruct (Hc _ _ Ec) as (k' & Ec' & Ek' & <-). eapply phase_connected; [done|done|congruence].
  - destruct (Hc _ _ Ec) as (k' & Ec' & Ek' & <-). eapply phase_over; [done|done|congruence].
  - destruct (Hc _ _ Ec) as (k' & Ec' & Ek' & _). eapply phase_leaving; [done|done|congruence].
  - by eapply phase_closing.
  - eapply phase_closed; [done|done|auto].
Qed.

Lemma not_nil_elem {A} (P : A -> Prop) p : p ∈ [] -> P p.
Proof. intros H. by apply elem_of_nil in H. Qed.
