(* ===== verification/TcpSocketSteps.v ===== *)
(** * TcpSocketSteps: the steps keep the invariant

    One lemma for each task and for each call of a client. *)
From S2P Require Import Prelude CString Bytes Url TransportSocketCache Message TcpMessageSocket TcpSocketInvariant.
Open Scope nat_scope.

(** ** Lemmas *)

Lemma in_rest {A} (t u : A) rest l : t :: rest ≡ₚ l -> u ∈ l -> u = t \/ u ∈ rest.
Proof. intros P. rewrite <- P, elem_of_cons. done. Qed.

(** The futures that [OnConnectedComplete] waits for, after a step that keeps the connected
    states. *)
Lemma future_kept s s' t rest : client_inv s -> t :: rest ≡ₚ tasks s -> (forall u, u ∈ rest -> u ∈ tasks s') ->
  (forall q, finished q s = true -> finished q s' = true) -> (forall p, t <> TEmitConnected p /\ t <> TSetConnected p) ->
  (forall j k, connecteds s' !! j = Some k -> exists k0, connecteds s !! j = Some k0 /\ k_futureConnected k = k_futureConnected k0) ->
  forall j k, connecteds s' !! j = Some k -> exists p, k_futureConnected k = Some p /\ connected_soon s' p.
Proof.
  intros I P Ht Hf Hn Hc j k E. destruct (Hc _ _ E) as (k0 & E0 & ->). destruct (inv_future _ I _ _ E0) as (p & Ep & Hp).
  exists p. split; [done|]. apply (soon_step s s' t); [done|done| |apply Hn|apply Hn].
  intros u Hu. destruct (in_rest _ _ _ _ P Hu); auto.
Qed.

(** For a call there is no task that runs. *)
Lemma future_kept_call s s' : client_inv s -> (forall u, u ∈ tasks s -> u ∈ tasks s') ->
  (forall q, finished q s = true -> finished q s' = true) ->
  (forall j k, connecteds s' !! j = Some k -> exists k0, connecteds s !! j = Some k0 /\ k_futureConnected k = k_futureConnected k0) ->
  forall j k, connecteds s' !! j = Some k -> exists p, k_futureConnected k = Some p /\ connected_soon s' p.
Proof.
  intros I Ht Hf Hc j k E. destruct (Hc _ _ E) as (k0 & E0 & ->). destruct (inv_future _ I _ _ E0) as (p & Ep & Hp).
  exists p. split; [done|]. destruct Hp as [?|[?|?]]; [left|right; left|right; right]; auto.
Qed.

(** The task that makes the state change is run. *)
Lemma main_step s t rest : client_inv s -> t :: rest ≡ₚ tasks s -> ~ side_ok s t ->
  exists mp side, phase s (Some t) mp /\ rest ≡ₚ side /\ Forall (side_ok s) side /\
    NoDup (mp ++ owned s side) /\ Forall (running s) (mp ++ owned s side).
Proof.
  intros I P Hn. destruct (inv_tasks _ I) as (m & mp & side & Pt & Hph & Hs & Hd & Hr).
  destruct (split_task _ _ _ _ _ _ Hph Hs (Permutation_trans P Pt)) as [[-> Pr]|[H _]]; [|done]. by exists mp, side.
Qed.

(** Another task is run: it keeps the states, sets promises of its own and leaves tasks. *)
Lemma side_step s t rest : client_inv s -> t :: rest ≡ₚ tasks s -> (forall mp, ~ phase s (Some t) mp) ->
  side_ok s t /\ exists m mp side, phase s m mp /\ rest ≡ₚ option_list m ++ side /\ Forall (side_ok s) side /\
    NoDup ((mp ++ side_promises s t) ++ owned s side) /\ Forall (running s) ((mp ++ side_promises s t) ++ owned s side).
Proof.
  intros I P Hn. destruct (inv_tasks _ I) as (m & mp & side & Pt & Hph & Hs & Hd & Hr).
  destruct (split_task _ _ _ _ _ _ Hph Hs (Permutation_trans P Pt)) as [[-> Pr]|[H (side' & E & Pr)]]; [by destruct (Hn mp)|].
  split; [done|]. exists m, mp, side'. split; [done|]. split; [done|].
  assert (concat (map (side_promises s) side) ≡ₚ side_promises s t ++ owned s side') as Eo.
  { unfold owned. by rewrite E. }
  rewrite <- (assoc_L (++)), <- Eo. split; [|done]. rewrite E in Hs. by apply Forall_cons in Hs as [_ Hs].
Qed.

Lemma inv_side s s' t rest m mp side (fin : list nat) new : client_inv s -> t :: rest ≡ₚ tasks s ->
  phase s m mp -> rest ≡ₚ option_list m ++ side -> Forall (side_ok s) side ->
  NoDup ((mp ++ side_promises s t) ++ owned s side) -> Forall (running s) ((mp ++ side_promises s t) ++ owned s side) ->
  _state s' = _state s -> connectings s' = connectings s -> disconnectings s' = disconnectings s ->
  length (connecteds s') = length (connecteds s) ->
  (forall j k, connecteds s !! j = Some k -> exists k', connecteds s' !! j = Some k' /\ k_complete k' = k_complete k /\
     k_disconnectedPromise k' = k_disconnectedPromise k /\ k_futureConnected k' = k_futureConnected k) ->
  tasks s' = rest ++ new -> Forall (side_ok s') new ->
  (forall p, p ∈ fin -> p ∈ side_promises s t) -> (forall p, running s p -> p ∉ fin -> running s' p) ->
  NoDup (owned s' new) -> (forall p, p ∈ owned s' new -> p ∈ side_promises s t /\ p ∉ fin) ->
  (forall q, finished q s = true -> finished q s' = true) ->
  (forall q, t = TEmitConnected q \/ t = TSetConnected q -> connected_soon s' q) ->
  locked s' = false -> failed s' = false -> client_inv s'.
Proof.
  intros I P Hph Pr Hs Hd Hr E1 E2 E3 El Hc Et Hok Hfin Hrun Hnd Hnew Hf Hsoon Hl Hno.
  assert (forall j k', connecteds s' !! j = Some k' -> exists k, connecteds s !! j = Some k /\ k_complete k' = k_complete k /\
    k_futureConnected k' = k_futureConnected k) as Hb.
  { intros j k' E. destruct (lookup_lt_is_Some_2 (connecteds s) j) as [k Hk]; [rewrite <- El; by eapply lookup_lt_Some|].
    destruct (Hc _ _ Hk) as (k2 & Hk2 & ? & _ & ?). exists k. split; [done|]. rewrite E in Hk2. injection Hk2 as ->. done. }
  apply (inv_assemble s s' (mp ++ side_promises s t) side fin m mp new); try done.
  - split; [|by rewrite E3]. intros j k E. destruct (Hc _ _ E) as (k' & E' & Ek & _). exists k'. split; [done|congruence].
  - intros p Hp%Hfin. apply elem_of_app. by right.
  - rewrite Et, Pr, <- (assoc_L (++)). f_equiv. apply Permutation_app_comm.
  - apply (phase_kept s s'); try done. intros j k E. destruct (Hc _ _ E) as (k' & E' & ? & ? & _). by exists k'.
  - apply NoDup_app in Hd as (Hd & _ & _). apply NoDup_app in Hd as (D1 & D2 & _). apply NoDup_app. split_and!; [done| |done].
    intros p Hp [Hp2 _]%Hnew. by apply (D2 p).
  - intros p [Hp|Hp]%elem_of_app; left; [|apply Hnew in Hp as [H1 H2]; split; [apply elem_of_app; by right|done]].
    split; [apply elem_of_app; by left|]. intros H%Hfin. apply NoDup_app in Hd as (Hd & _ & _). apply NoDup_app in Hd as (_ & D2 & _). by apply (D2 p).
  - intros j k' E. destruct (Hb _ _ E) as (k & Ek & _ & ->). destruct (inv_future _ I _ _ Ek) as (p & Ep & Hp). exists p. split; [done|].
    destruct Hp as [Hp|Hp]; [left; auto|].
    assert (forall u, u ∈ tasks s -> u = t \/ u ∈ tasks s') as Hin.
    { intros u Hu. destruct (in_rest _ _ _ _ P Hu) as [|H]; [by left|right]. rewrite Et. apply elem_of_app. by left. }
    destruct Hp as [Hp|Hp]; destruct (Hin _ Hp) as [Ht|Ht]; auto; [right; by left|right; by right].
  - rewrite E2. apply (inv_stop _ I).
  - intros j k' E Ek. destruct (Hb _ _ E) as (k & Ek2 & Ec & _). rewrite E1. apply (inv_active _ I j k); [done|congruence].
Qed.

(** ** Connecting *)

Lemma inv_connecting_done s i error rest : client_inv s -> TConnect i :: rest ≡ₚ tasks s ->
  client_inv (connecting_done i error (set_tasks rest s)).
Proof.
  intros I P. pose proof I as [Il Io (m & mp & side & Pt & Hph & Hs & Hd & Hr) _ Istop Iact].
  destruct (split_task _ _ _ _ _ _ Hph Hs (Permutation_trans P Pt)) as [[-> Pr]|[[] _]].
  inversion Hph as [|? c p Est Ec Ecc Ep| | | | | |]; subst. unfold connecting_done. cbn [set_tasks connectings]. rewrite Ec, Ep.
  set (r := mkConnectingResult _ _ _ _). set (s' := post _ _).
  apply (inv_assemble s s' [p; cr_disconnectedPromise (c_result c)] side [] (Some (TConnectComplete i)) [p; cr_disconnectedPromise (c_result c)] []);
    try done.
  - by apply grows_same.
  - intros q Hq; by apply elem_of_nil in Hq.
  - unfold s'. cbn. by rewrite (Permutation_app_comm rest), Pr.
  - apply (phase_complete s' i (mkConnecting r (c_stopping c) true (Some p)) p); try done.
    apply list_lookup_insert_eq. by eapply lookup_lt_Some.
  - rewrite app_nil_r. by apply NoDup_app in Hd as [? _].
  - intros q Hq. left. rewrite app_nil_r in Hq. split; [done|apply not_elem_of_nil].
  - apply (future_kept s s' _ _ I P); try done; [|eauto]. intros u Hu. apply elem_of_app. by left.
  - intros j cc. unfold s'. cbn. destruct (decide (j = i)) as [-> |Hne].
    + rewrite list_lookup_insert_eq by (by eapply lookup_lt_Some). intros [= <-]. cbn. by apply (Istop i).
    + rewrite list_lookup_insert_ne by done. apply Istop.
Qed.

(** ** Tasks that do not change the state *)

Lemma inv_emit_connected s p rest : client_inv s -> TEmitConnected p :: rest ≡ₚ tasks s ->
  client_inv (post (TSetConnected p) (emit [Signal_connected] (set_tasks rest s))).
Proof.
  intros I P. destruct (side_step _ _ _ I P) as [Hok (m & mp & side & Hph & Pr & Hs & Hd & Hr)]; [by inversion 1|].
  apply (inv_side s _ _ rest m mp side [] [TSetConnected p] I P); try done; eauto.
  - intros q Hq. by apply elem_of_nil in Hq.
  - cbn. apply NoDup_singleton.
  - intros q Hq. split; [exact Hq|apply not_elem_of_nil].
  - intros q [[= ->]|[=]]. right. right. apply elem_of_app. right. by apply list_elem_of_singleton.
  - apply I.
  - apply I.
Qed.

Lemma finished_finish s s' p st : promises s' = <[p := st]> (promises s) -> running s p -> st <> Running -> finished p s' = true.
Proof.
  intros E Hp Hst. unfold finished. rewrite E, list_lookup_insert_eq by (by eapply running_bound). by destruct st.
Qed.

(** A task that finishes its promise. *)
Lemma inv_finish s t p st rest : client_inv s -> t :: rest ≡ₚ tasks s -> side_promises s t = [p] ->
  (forall mp, ~ phase s (Some t) mp) -> (forall q, t = TEmitConnected q \/ t = TSetConnected q -> q = p) -> st <> Running ->
  client_inv (finish p st (set_tasks rest s)).
Proof.
  intros I P Ep Hn Hq Hst. destruct (side_step _ _ _ I P Hn) as [Hok (m & mp & side & Hph & Pr & Hs & Hd & Hr)]. rewrite Ep in *.
  assert (running s p) as Hp.
  { apply Forall_app in Hr as [Hr _]. apply Forall_app in Hr as [_ Hr]. by apply Forall_cons in Hr as [Hr _]. }
  unfold finish. cbn [set_tasks promises]. rewrite Hp.
  apply (inv_side s _ t rest m mp side [p] [] I P); try done; try (rewrite Ep); eauto.
  - cbn. by rewrite app_nil_r.
  - intros q Hr1 Hr2. eapply running_finish; [exact Hr1| |done]. intros ->. apply Hr2. by left.
  - constructor.
  - intros q H. by apply elem_of_nil in H.
  - intros q. by eapply finished_insert.
  - intros q H%Hq. subst q. left. by eapply finished_finish.
  - apply I.
  - apply I.
Qed.

Lemma inv_shutdown s j rest : client_inv s -> TShutdown j :: rest ≡ₚ tasks s -> client_inv (raise_shuttingdown j (set_tasks rest s)).
Proof.
  intros I P. destruct (side_step _ _ _ I P) as [Hok (m & mp & side & Hph & Pr & Hs & Hd & Hr)]; [by inversion 1|].
  apply (inv_side s _ _ rest m mp side [] [] I P); try done; eauto.
  - cbn. apply length_alter.
  - intros i k E. cbn. destruct (decide (i = j)) as [-> |Hne]; [rewrite list_lookup_alter_eq, E; by eexists|].
    rewrite list_lookup_alter_ne by done. by exists k.
  - cbn. by rewrite app_nil_r.
  - constructor.
  - intros q H. by apply elem_of_nil in H.
  - by intros q [|].
  - apply I.
  - apply I.
Qed.

(** A task of a side that only leaves tasks of its own. *)
Lemma inv_rerun s t new rest : client_inv s -> t :: rest ≡ₚ tasks s -> (forall mp, ~ phase s (Some t) mp) ->
  side_ok s t -> Forall (side_ok s) new -> owned s new = [] -> (forall q, t <> TEmitConnected q /\ t <> TSetConnected q) ->
  client_inv (set_tasks (rest ++ new) s).
Proof.
  intros I P Hn Ht Hnew Ho Hq. destruct (side_step _ _ _ I P Hn) as [Hok (m & mp & side & Hph & Pr & Hs & Hd & Hr)].
  apply (inv_side s _ _ rest m mp side [] new I P); try done; eauto.
  - intros q H. by apply elem_of_nil in H.
  - change (owned (set_tasks (rest ++ new) s) new) with (owned s new). rewrite Ho. constructor.
  - change (owned (set_tasks (rest ++ new) s) new) with (owned s new). rewrite Ho. intros q H. by apply elem_of_nil in H.
  - intros q [H|H]; by destruct (Hq q).
  - apply I.
  - apply I.
Qed.

Lemma inv_emit_disconnected s d x rest : client_inv s -> TEmitDisconnected d :: rest ≡ₚ tasks s -> disconnectings s !! d = Some x ->
  client_inv (post (TSetDisconnected (d_disconnectedPromise x))
    (emit ((if d_wasConnected x then [Signal_disconnected] else []) ++ [Signal_socketEvent]) (set_tasks rest s))).
Proof.
  intros I P Hx. destruct (side_step _ _ _ I P) as [Hok (m & mp & side & Hph & Pr & Hs & Hd & Hr)]; [by inversion 1|].
  apply (inv_side s _ _ rest m mp side [] [TSetDisconnected (d_disconnectedPromise x)] I P); try done; eauto.
  - repeat constructor.
  - intros q Hq. by apply elem_of_nil in Hq.
  - cbn. apply NoDup_singleton.
  - intros q Hq. cbn. rewrite Hx. split; [exact Hq|apply not_elem_of_nil].
  - by intros q [|].
  - apply I.
  - apply I.
Qed.

(** ** The connected state *)

(** The state completes: what is left of its read is another task. *)
Lemma inv_completes s j k b t rest side new : client_inv s -> t :: rest ≡ₚ tasks s -> (forall q, t <> TEmitConnected q /\ t <> TSetConnected q) ->
  _state s = ConnectedState j -> connecteds s !! j = Some k -> Forall (side_ok s) side ->
  NoDup ([k_disconnectedPromise k] ++ owned s side) -> Forall (running s) ([k_disconnectedPromise k] ++ owned s side) ->
  rest ≡ₚ new ++ side -> Forall (fun u => u = TReceive j) new ->
  client_inv (post (TConnectedComplete j)
    (set_connecteds (<[j := mkConnected b (k_disconnectedPromise k) (k_stopRequested k) (k_shuttingdown k) true (k_futureConnected k)]> (connecteds s))
       (set_tasks rest s))).
Proof.
  intros I P Ht Est Ek Hs Hd Hr Pr Hnew. set (k' := mkConnected _ _ _ _ _ _). set (s' := post _ _).
  assert (connecteds s' !! j = Some k') as Ek'. { apply list_lookup_insert_eq. by eapply lookup_lt_Some. }
  assert (forall i k2, connecteds s' !! i = Some k2 -> exists k1, connecteds s !! i = Some k1 /\ k_futureConnected k2 = k_futureConnected k1 /\
    (k_complete k2 = false -> k_complete k1 = false)) as Hb.
  { intros i k2. unfold s'. cbn. destruct (decide (i = j)) as [-> |Hne]; [|rewrite list_lookup_insert_ne by done; by exists k2].
    rewrite list_lookup_insert_eq by (by eapply lookup_lt_Some). intros [= <-]. by exists k. }
  assert (owned s' new = []) as Eo. { clear -Hnew. induction Hnew as [|u new -> _ IH]; [done|apply IH]. }
  apply (inv_assemble s s' [k_disconnectedPromise k] side [] (Some (TConnectedComplete j)) [k_disconnectedPromise k'] new); try done.
  - split; [|by intros]. intros i k1 E. destruct (decide (i = j)) as [-> |Hne]; [by exists k'|]. exists k1. unfold s'. cbn. by rewrite list_lookup_insert_ne.
  - intros q Hq. by apply elem_of_nil in Hq.
  - apply I.
  - apply I.
  - unfold s'. cbn. by rewrite (Permutation_app_comm rest), Pr.
  - by apply phase_over.
  - eapply Forall_impl; [exact Hnew|]. intros u ->. by exists k'.
  - rewrite Eo, app_nil_r. apply NoDup_singleton.
  - rewrite Eo, app_nil_r. intros q Hq. left. split; [done|apply not_elem_of_nil].
  - apply (future_kept s s' t rest I P); try done; [intros u Hu; apply elem_of_app; by left|].
    intros i k2 E. destruct (Hb _ _ E) as (k1 & ? & ? & _). by exists k1.
  - apply (inv_stop _ I).
  - intros i k2 E Hc. destruct (Hb _ _ E) as (k1 & ? & _ & H1). by apply (inv_active _ I i k1); [|apply H1].
Qed.

Lemma inv_received s j error more rest : client_inv s -> TReceive j :: rest ≡ₚ tasks s -> client_inv (onReceived j error more (set_tasks rest s)).
Proof.
  intros I P. destruct (inv_tasks _ I) as (m & mp & side & Pt & Hph & Hs & Hd & Hr).
  destruct (split_task _ _ _ _ _ _ Hph Hs (Permutation_trans P Pt)) as [[-> Pr]|[(k & Ek & Hk) _]].
  - inversion Hph as [| | |? k Est Ek Hk| | | |]; subst. unfold onReceived. cbn [set_tasks connecteds]. rewrite Ek. cbv zeta.
    destruct (_ && _ && _).
    + split; try apply I; [|by apply (future_kept s _ (TReceive j) rest I P); try done; eauto; intros u Hu; apply elem_of_app; left].
      exists (Some (TReceive j)), [k_disconnectedPromise k], side.
      split; [cbn; by rewrite (Permutation_app_comm rest), Pr|]. split; [by apply phase_connected|]. done.
    + unfold Connected_setPromise. cbn [set_tasks connecteds]. rewrite Ek, Hk. by apply (inv_completes s j k _ (TReceive j) rest side []).
  - assert (forall mp, ~ phase s (Some (TReceive j)) mp) as Hn by (intros q; inversion 1; congruence).
    unfold onReceived. cbn [set_tasks connecteds]. rewrite Ek. cbv zeta. destruct (_ && _ && _).
    + apply (inv_rerun s (TReceive j) [TReceive j] rest I P Hn); [by exists k| |done|done]. constructor; [by exists k|constructor].
    + unfold Connected_setPromise. cbn [set_tasks connecteds]. rewrite Ek, Hk.
      rewrite <- (app_nil_r rest). apply (inv_rerun s (TReceive j) [] rest I P Hn); [by exists k|constructor|done|done].
Qed.

Lemma inv_sent s j error rest : client_inv s -> TSend j :: rest ≡ₚ tasks s -> client_inv (onSent j error (set_tasks rest s)).
Proof.
  intros I P. assert (forall mp, ~ phase s (Some (TSend j)) mp) as Hn by (by inversion 1).
  destruct (side_step _ _ _ I P Hn) as [Hok (m & mp & side & Hph & Pr & Hs & Hd & Hr)].
  assert (client_inv (set_tasks rest s)) as I'.
  { rewrite <- (app_nil_r rest). apply (inv_rerun s (TSend j) [] rest I P Hn); [done|constructor|done|done]. }
  unfold onSent. cbn [set_tasks connecteds]. destruct (connecteds s !! j) as [k|] eqn:Ek; [|done].
  destruct (k_shuttingdown k); [|done]. unfold Connected_setPromise. cbn [set_tasks connecteds]. rewrite Ek.
  destruct (k_complete k) eqn:Hk; [done|]. pose proof (inv_active _ I _ _ Ek Hk) as Est.
  cbn [side_promises] in Hd, Hr. rewrite app_nil_r in Hd, Hr.
  inversion Hph; simplify_eq/=; try congruence.
  assert (j0 = j) as -> by congruence. assert (k0 = k) as -> by congruence. apply (inv_completes s j k _ (TSend j) rest side [TReceive j]); try done.
  repeat constructor.
Qed.

(** ** Disconnecting *)

(** The socket is in the disconnecting state with a promise that the task [t] owned. *)
Lemma inv_entered s s2 t rest (O fin : list nat) p side u mp x : client_inv s -> t :: rest ≡ₚ tasks s ->
  (forall q, t <> TEmitConnected q /\ t <> TSetConnected q) ->
  rest ≡ₚ side -> Forall (side_ok s) side -> NoDup (O ++ owned s side) -> Forall (running s) (O ++ owned s side) ->
  p ∈ O -> p ∉ fin -> (forall q, q ∈ fin -> q ∈ O) -> (forall q, running s q -> q ∉ fin -> running s2 q) ->
  (forall q, finished q s = true -> finished q s2 = true) ->
  connectings s2 = connectings s -> connecteds s2 = connecteds s -> disconnectings s2 = disconnectings s ++ [x] -> tasks s2 = rest ++ [u] ->
  locked s2 = false -> failed s2 = false -> (forall j k, connecteds s !! j = Some k -> k_complete k = true) ->
  phase s2 (Some u) mp -> NoDup mp -> (forall q, q ∈ mp -> q = p \/ running s2 q /\ length (promises s) <= q) ->
  client_inv s2.
Proof.
  intros I P Ht Pr Hs Hd Hr Hp Hpf Hfin Hrun Hf E1 E2 E3 E4 Hl Hno Hc Hph Hnd Hmp.
  apply (inv_assemble s s2 O side fin (Some u) mp []); try done.
  - split; [intros j k; rewrite E2; eauto|]. intros d y. rewrite E3. apply lookup_app_l_Some.
  - rewrite E4, Pr. apply Permutation_app_comm.
  - by rewrite app_nil_r.
  - intros q. unfold owned. cbn. rewrite app_nil_r. intros Hq. destruct (Hmp q Hq) as [-> |]; [by left|by right].
  - apply (future_kept s s2 t rest I P); try done; [|intros j k; rewrite E2; eauto]. intros w Hw. rewrite E4. apply elem_of_app. by left.
  - rewrite E1. apply (inv_stop _ I).
  - intros j k. rewrite E2. intros H%Hc. congruence.
Qed.

Lemma client_inv_enter s s1 t rest (O fin : list nat) p socket side : client_inv s -> t :: rest ≡ₚ tasks s ->
  (forall q, t <> TEmitConnected q /\ t <> TSetConnected q) ->
  rest ≡ₚ side -> Forall (side_ok s) side -> NoDup (O ++ owned s side) -> Forall (running s) (O ++ owned s side) ->
  p ∈ O -> p ∉ fin -> (forall q, q ∈ fin -> q ∈ O) -> (forall q, running s q -> q ∉ fin -> running s1 q) ->
  (forall q, finished q s = true -> finished q s1 = true) -> length (promises s1) = length (promises s) ->
  connectings s1 = connectings s -> connecteds s1 = connecteds s -> disconnectings s1 = disconnectings s -> tasks s1 = rest ->
  locked s1 = false -> failed s1 = false -> (forall j k, connecteds s !! j = Some k -> k_complete k = true) ->
  client_inv (enterDisconnectedState socket p s1).
Proof.
  intros I P Ht Pr Hs Hd Hr Hp Hpf Hfin Hrun Hf El E1 E2 E3 E4 Hl Hno Hc.
  assert (running s p) as Hrp. { apply Forall_app in Hr as [Hr _]. rewrite (Forall_forall (A := nat)) in Hr. by apply Hr. }
  pose proof (running_bound _ _ Hrp) as Hb.
  unfold enterDisconnectedState, Disconnecting_call. cbn [new_promise set_disconnectings set_promises set_state disconnectings].
  set (x := mkDisconnecting _ _ _ _). rewrite list_lookup_middle by done. set (cp := length (promises s1)). cbn [d_socket x].
  assert ((promises s1 ++ [Running]) !! cp = Some Running) as Ecp by (unfold cp; by rewrite list_lookup_middle).
  destruct socket.
  - apply (inv_entered s _ t rest O fin p side (TClose (length (disconnectings s1))) [cp; p] x); try done.
    + intros q H1 H2. eapply running_app; [done|by apply Hrun].
    + intros q H%Hf. by eapply finished_app.
    + cbn. by rewrite E3.
    + cbn. by rewrite E4.
    + apply (phase_closing _ _ x); [done|]. cbn. by rewrite list_lookup_middle.
    + apply NoDup_cons. split; [|apply NoDup_singleton]. rewrite list_elem_of_singleton. unfold cp. lia.
    + intros q [-> |[->|[]%elem_of_nil]%elem_of_cons]%elem_of_cons; [right|by left]. split; [done|unfold cp; lia].
  - cbn [d_completePromise x]. rewrite finish_running by done. cbn [set_promises promises set_state set_disconnectings].
    apply (inv_entered s _ t rest O fin p side (TDisconnectComplete (length (disconnectings s1))) [p] x); try done.
    + intros q H1 H2. apply Hrun in H1; [|done]. unfold running. cbn. rewrite insert_app_r_alt by (unfold cp; lia).
      by apply lookup_app_l_Some.
    + intros q H%Hf. unfold finished in *. cbn. rewrite insert_app_r_alt by (unfold cp; lia).
      destruct (promises s1 !! q) eqn:E; [|done]. by rewrite (lookup_app_l_Some _ _ _ _ E).
    + cbn. by rewrite E3.
    + cbn. by rewrite E4.
    + apply (phase_closed _ _ x); [done| |]; [cbn; by rewrite list_lookup_middle|]. unfold finished. cbn.
      rewrite list_lookup_insert_eq; [done|]. rewrite length_app. cbn. unfold cp. lia.
    + apply NoDup_singleton.
    + intros q ->%list_elem_of_singleton. by left.
Qed.

(** While the socket is connecting or disconnecting, the connected states are complete. *)
Lemma all_complete s : client_inv s -> (forall j, _state s <> ConnectedState j) -> forall j k, connecteds s !! j = Some k -> k_complete k = true.
Proof. intros I H j k E. destruct (k_complete k) eqn:Ek; [done|]. by destruct (H j), (inv_active _ I j k). Qed.

Lemma inv_connect_complete s i rest : client_inv s -> TConnectComplete i :: rest ≡ₚ tasks s ->
  client_inv (connect_continuation i (set_tasks rest s)).
Proof.
  intros I P. destruct (main_step _ _ _ I P) as (mp & side & Hph & Pr & Hs & Hd & Hr); [by intros []|].
  inversion Hph as [| |? c p Est Ec Ecc Ep| | | | |]; subst. unfold connect_continuation. cbn [set_tasks connectings getStatus _state].
  rewrite Ec, Ep. unfold getStatus. cbn [set_tasks _state]. rewrite Est. cbv zeta. change (default 0%nat (Some p)) with p.
  set (dp := cr_disconnectedPromise (c_result c)) in *.
  assert (forall j k, connecteds s !! j = Some k -> k_complete k = true) as Hall by (apply all_complete; [done|congruence]).
  assert (running s p) as Hp by (by apply Forall_cons in Hr as [? _]).
  assert (p <> dp) as Hne. { apply NoDup_cons in Hd as [Hd _]. intros ->. apply Hd. by left. }
  destruct (_ || _).
  - rewrite finish_running by done.
    apply (client_inv_enter s _ (TConnectComplete i) rest [p; dp] [p] dp _ side); try done.
    + right. by left.
    + by intros ->%list_elem_of_singleton.
    + intros q ->%list_elem_of_singleton. by left.
    + intros q Hq Hn. eapply running_finish; [exact Hq| |done]. intros ->. apply Hn. by left.
    + intros q Hq. by apply (finished_insert s _ p HasError).
    + cbn. apply length_insert.
    + apply I.
    + apply I.
  - unfold Connected_new. cbn [new_promise]. set (k := mkConnected _ _ _ _ _ _). set (s' := post (TEmitConnected p) _).
    apply (inv_assemble s s' [p; dp] side [] (Some (TReceive (length (connecteds s)))) [length (promises s)] [TEmitConnected p]); try done.
    + split; [|by intros]. intros j k0 E. exists k0. split; [|done]. by apply lookup_app_l_Some.
    + intros q Hq. by apply elem_of_nil in Hq.
    + intros q Hq _. by eapply running_app.
    + apply I.
    + apply I.
    + unfold s'. cbn. rewrite <- (assoc_L (++)), (Permutation_app_comm rest), Pr. done.
    + apply (phase_connected s' (length (connecteds s)) k); [done| |done]. apply list_lookup_middle. done.
    + by repeat constructor.
    + cbn. apply NoDup_cons. split; [|apply NoDup_singleton]. rewrite list_elem_of_singleton. apply running_bound in Hp. lia.
    + intros q [-> |[->|[]%elem_of_nil]%elem_of_cons]%elem_of_cons.
      * right. split; [|done]. unfold running. apply list_lookup_middle. done.
      * left. split; [by left|apply not_elem_of_nil].
    + intros j k0 E. unfold s' in E. cbn in E. apply lookup_app_Some in E as [E|[_ E]].
      * destruct (inv_future _ I _ _ E) as (q & Eq & Hq). exists q. split; [done|]. apply (soon_step s s' (TConnectComplete i)); try done.
        -- intros r Hr1. by eapply finished_app.
        -- intros u Hu. destruct (in_rest _ _ _ _ P Hu) as [|H]; [by left|right]. unfold s'. cbn. by rewrite !elem_of_app; auto.
      * apply list_lookup_singleton_Some in E as [_ <-]. exists p. split; [done|]. right. left. unfold s'. cbn. apply elem_of_app. right. by left.
    + apply (inv_stop _ I).
    + intros j k0 E Hk. unfold s' in E. cbn in E. apply lookup_app_Some in E as [E|[Hj E]]; [apply Hall in E; congruence|].
      apply list_lookup_singleton_Some in E as [Hz _]. unfold s'. cbn. f_equal. lia.
Qed.

Lemma inv_connected_complete s j k rest : client_inv s -> TConnectedComplete j :: rest ≡ₚ tasks s -> connecteds s !! j = Some k ->
  client_inv (post (TEnterDisconnected true (k_disconnectedPromise k)) (set_tasks rest s)).
Proof.
  intros I P Ek. destruct (main_step _ _ _ I P) as (mp & side & Hph & Pr & Hs & Hd & Hr); [by intros []|].
  inversion Hph as [| | | |? k' Est Ek' Hc| | |]; subst. assert (k' = k) as -> by congruence.
  split; try apply I; [|apply (future_kept s _ (TConnectedComplete j) rest I P); try done; eauto; intros u Hu; apply elem_of_app; by left].
  exists (Some (TEnterDisconnected true (k_disconnectedPromise k))), [k_disconnectedPromise k], side.
  split; [cbn; by rewrite (Permutation_app_comm rest), Pr|]. split; [by apply (phase_leaving _ j k)|]. done.
Qed.

Lemma inv_enter_disconnected s socket p rest : client_inv s -> TEnterDisconnected socket p :: rest ≡ₚ tasks s ->
  client_inv (enterDisconnectedState socket p (set_tasks rest s)).
Proof.
  intros I P. destruct (main_step _ _ _ I P) as (mp & side & Hph & Pr & Hs & Hd & Hr); [by intros []|].
  inversion Hph as [| | | | |j k ? Est Ek Hc| |]; subst.
  apply (client_inv_enter s _ (TEnterDisconnected true p) rest [p] [] p true side); try done; try apply I.
  - by left.
  - apply not_elem_of_nil.
  - intros q Hq. by apply elem_of_nil in Hq.
  - intros i k0 E. destruct (k_complete k0) eqn:Hk; [done|]. pose proof (inv_active _ I _ _ E Hk). congruence.
Qed.

Lemma inv_close s d x rest : client_inv s -> TClose d :: rest ≡ₚ tasks s -> disconnectings s !! d = Some x ->
  client_inv (post (TDisconnectComplete d) (finish (d_completePromise x) HasValue (set_tasks rest s))).
Proof.
  intros I P Ex. destruct (main_step _ _ _ I P) as (mp & side & Hph & Pr & Hs & Hd & Hr); [by intros []|].
  inversion Hph as [| | | | | |? x' Est Ex'|]; subst. assert (x' = x) as -> by congruence. 
  assert (running s (d_completePromise x)) as Hp by (by apply Forall_cons in Hr as [? _]). rewrite finish_running by done.
  set (s' := post _ _).
  apply (inv_assemble s s' [d_completePromise x; d_disconnectedPromise x] side [d_completePromise x] (Some (TDisconnectComplete d)) [d_disconnectedPromise x] []);
    try done; try apply I.
  - by apply grows_same.
  - intros q ->%list_elem_of_singleton. by left.
  - intros q Hq Hn. apply (running_finish s (d_completePromise x) q HasValue s'); [done| |done]. intros E. apply Hn. rewrite <- E. by left.
  - unfold s'. cbn. by rewrite (Permutation_app_comm rest), Pr.
  - apply phase_closed; [done|done|]. unfold finished. cbn. rewrite list_lookup_insert_eq; [done|by eapply running_bound].
  - rewrite app_nil_r. apply NoDup_singleton.
  - rewrite app_nil_r. intros q ->%list_elem_of_singleton. left. split; [right; by left|]. intros E%list_elem_of_singleton.
    apply NoDup_cons in Hd as [Hd _]. apply Hd. rewrite E. by left.
  - apply (future_kept s _ (TClose d) rest I P); try done; eauto; [intros u Hu; apply elem_of_app; by left|].
    intros q Hq. by apply (finished_insert s _ (d_completePromise x) HasValue).
Qed.

Lemma inv_disconnect_complete s d rest : client_inv s -> TDisconnectComplete d :: rest ≡ₚ tasks s ->
  client_inv (post (TEmitDisconnected d) (set_state DisconnectedState (set_tasks rest s))).
Proof.
  intros I P. destruct (main_step _ _ _ I P) as (mp & side & Hph & Pr & Hs & Hd & Hr); [by intros []|].
  inversion Hph as [| | | | | | |? x Est Ex]; subst. set (s' := post _ _).
  assert (owned s' [TEmitDisconnected d] = [d_disconnectedPromise x]) as Eo by (unfold owned; cbn; by rewrite Ex).
  apply (inv_assemble s s' [d_disconnectedPromise x] side [] None [] [TEmitDisconnected d]); try done; try apply I.
  - by apply grows_same.
  - intros q Hq. by apply elem_of_nil in Hq.
  - unfold s'. cbn. by rewrite (Permutation_app_comm rest), Pr.
  - by apply phase_disconnected.
  - repeat constructor. by eapply lookup_lt_Some.
  - rewrite Eo. apply NoDup_singleton.
  - rewrite Eo. intros q Hq. left. split; [done|apply not_elem_of_nil].
  - apply (future_kept s _ (TDisconnectComplete d) rest I P); try done; eauto. intros u Hu. apply elem_of_app. by left.
  - intros j k E Hk. pose proof (inv_active _ I _ _ E Hk). congruence.
Qed.

(** ** Calls *)

(** A call that makes promises and leaves tasks. *)
Lemma inv_call s s' m mp side m' mp' new l : client_inv s -> tasks s ≡ₚ option_list m ++ side -> Forall (side_ok s) side ->
  NoDup (mp ++ owned s side) -> Forall (running s) (mp ++ owned s side) ->
  promises s' = promises s ++ l -> tasks s' ≡ₚ option_list m' ++ new ++ side -> phase s' m' mp' -> Forall (side_ok s') new ->
  NoDup (mp' ++ owned s' new) -> (forall p, p ∈ mp' ++ owned s' new -> p ∈ mp \/ running s' p /\ length (promises s) <= p) ->
  disconnectings s' = disconnectings s -> 
  (forall j k, connecteds s !! j = Some k -> exists k', connecteds s' !! j = Some k' /\ (k_complete k = true -> k_complete k' = true)) ->
  (forall j k, connecteds s' !! j = Some k -> exists k0, connecteds s !! j = Some k0 /\ k_futureConnected k = k_futureConnected k0 /\
     k_complete k = k_complete k0) ->
  (forall u, u ∈ option_list m -> u ∈ tasks s') ->
  (forall i c, connectings s' !! i = Some c -> c_stopping c = cr_disconnectionRequested (c_result c)) ->
  (_state s' = _state s \/ forall j, _state s <> ConnectedState j) ->
  locked s' = false -> failed s' = false -> client_inv s'.
Proof.
  intros I Pt Hs Hd Hr El Et Hph Hn Hnd Hnew Ed Hc Hb Hm Hstop Est Hl Hno.
  apply (inv_assemble s s' mp side [] m' mp' new); try done.
  - split; [done|]. by rewrite Ed.
  - intros q Hq. by apply elem_of_nil in Hq.
  - intros q Hq _. by eapply running_app.
  - intros q [Hq|Hq]%Hnew; [left; split; [done|apply not_elem_of_nil]|by right].
  - apply (future_kept_call s s'); [done| | |].
    + intros u. rewrite Pt, elem_of_app. intros [Hu|Hu]; [by apply Hm|]. rewrite Et, !elem_of_app. auto.
    + intros q Hq. by eapply finished_app.
    + intros j k E. destruct (Hb _ _ E) as (k0 & ? & ? & _). by exists k0.
  - intros j k E Hk. destruct (Hb _ _ E) as (k0 & E0 & _ & E1). assert (k_complete k0 = false) as Hk0 by congruence.
    pose proof (inv_active _ I _ _ E0 Hk0) as Ha. destruct Est as [-> |Hn2]; [done|by destruct (Hn2 j)].
Qed.

Lemma inv_new_promise s st : client_inv s -> client_inv (snd (new_promise st s)).
Proof.
  intros I. destruct (inv_tasks _ I) as (m & mp & side & Pt & Hph & Hs & Hd & Hr).
  apply (inv_call s _ m mp side m mp [] [st]); try done; eauto; try apply I.
  - apply (phase_kept s); eauto. intros r. by eapply finished_app.
  - rewrite app_nil_r. by apply NoDup_app in Hd as [? _].
  - rewrite app_nil_r. by left.
  - intros u Hu. cbn. rewrite Pt. apply elem_of_app. by left.
Qed.

Lemma inv_connect s u : client_inv s -> client_inv (snd (connect u s)).
Proof.
  intros I. pose proof (inv_new_promise s HasError I) as Ie. unfold connect. destruct (getStatus s) eqn:Eg; try done.
  destruct (negb (isValid u)); [done|]. destruct (if has _ _ then _ else _); [|done].
  assert (_state s = DisconnectedState) as Est by (unfold getStatus in Eg; by destruct (_state s)).
  destruct (inv_tasks _ I) as (m & mp & side & Pt & Hph & Hs & Hd & Hr). inversion Hph; subst; try congruence.
  cbn [new_promise Connecting_new negb snd]. unfold Connecting_new. cbn [new_promise set_promises promises connectings].
  set (c := mkConnecting _ _ _ _). set (s' := set_state _ _). set (p := length (promises s)).
  assert (promises s' = promises s ++ [Running; Running]) as El by (unfold s'; cbn; by rewrite <- (assoc_L (++))).
  assert (cr_disconnectedPromise (c_result c) = S p) as Edp by (cbn; rewrite length_app; cbn; unfold p; lia).
  apply (inv_call s s' None [] side (Some (TConnect (length (connectings s)))) [p; S p] [] [Running; Running]); try done; try apply I.
  - unfold s'. cbn. by rewrite Permutation_app_comm, Pt.
  - rewrite <- Edp. apply phase_connecting; try done. apply list_lookup_middle. done.
  - apply NoDup_cons. split; [|apply NoDup_singleton]. rewrite list_elem_of_singleton. lia.
  - intros q Hq. right. rewrite app_nil_r in Hq. apply elem_of_cons in Hq as [-> |Hq%list_elem_of_singleton].
    + split; [|done]. unfold running. rewrite El. by rewrite list_lookup_middle.
    + subst q. split; [|unfold p; lia]. unfold running. rewrite El, lookup_app_r by (unfold p; lia). by replace (_ - _) with 1 by (unfold p; lia).
  - eauto.
  - intros j k E. by exists k.
  - intros q Hq. by apply elem_of_nil in Hq.
  - intros i c0 E. unfold s' in E. cbn in E. apply lookup_app_Some in E as [E|[_ E]]; [by apply (inv_stop _ I i)|].
    apply list_lookup_singleton_Some in E as [_ <-]. done.
  - right. intros j. congruence.
Qed.

(** In the connected state there is the state, whose promise the phase owns until the
    result is copied. *)
Lemma phase_connected_at s m mp j : phase s m mp -> _state s = ConnectedState j ->
  exists k, connecteds s !! j = Some k /\ ((exists p, m = Some (TEnterDisconnected true p) /\ k_complete k = true) \/ mp = [k_disconnectedPromise k] /\
    (m = Some (TReceive j) /\ k_complete k = false \/ m = Some (TConnectedComplete j) /\ k_complete k = true)).
Proof.
  intros H E. destruct H as [Es|i c p Es Ec Ek Ep|i c p Es Ec Ek Ep|i k Es Ec Ek|i k Es Ec Ek|i k p Es Ec Ek|d x Es Ed|d x Es Ed]; try congruence;
    assert (i = j) as -> by congruence; exists k; split; try done.
  - right. auto.
  - right. auto.
  - left. by exists p.
Qed.

Lemma inv_send s : client_inv s -> client_inv (snd (send s)).
Proof.
  intros I. unfold send. destruct (_state s) as [| |j|] eqn:Est; try done.
  destruct (inv_tasks _ I) as (m & mp & side & Pt & Hph & Hs & Hd & Hr).
  apply (inv_call s _ m mp side m mp [TSend j] []); try done; eauto; try apply I.
  - by rewrite app_nil_r.
  - cbn. rewrite Pt, <- (assoc_L (++)). f_equiv. apply Permutation_app_comm.
  - apply (phase_kept s); eauto.
  - repeat constructor. destruct (phase_connected_at _ _ _ _ Hph Est) as (k & Ek & _). by eapply lookup_lt_Some.
  - rewrite app_nil_r. by apply NoDup_app in Hd as [? _].
  - intros q Hq. rewrite app_nil_r in Hq. by left.
  - intros u Hu. cbn. rewrite Pt. rewrite !elem_of_app. auto.
Qed.

Lemma fresh_promise s l : Forall (running s) l -> length (promises s) ∉ l.
Proof. intros H Hin. rewrite (Forall_forall (A := nat)) in H. pose proof (running_bound _ _ (H _ Hin)). lia. Qed.

(** A second request to disconnect links its promise to the first one. *)
Lemma inv_link s src : client_inv s ->
  client_inv (post (TLink src (length (promises s))) (set_promises (promises s ++ [Running]) s)).
Proof.
  intros I. destruct (inv_tasks _ I) as (m & mp & side & Pt & Hph & Hs & Hd & Hr). set (q := length (promises s)).
  apply (inv_call s _ m mp side m mp [TLink src q] [Running]); try done; eauto; try apply I.
  - cbn. rewrite Pt, <- (assoc_L (++)). f_equiv. apply Permutation_app_comm.
  - apply (phase_kept s); eauto. intros r. by eapply finished_app.
  - by repeat constructor.
  - cbn. apply NoDup_app in Hd as [Hd _]. apply Forall_app in Hr as [Hr _]. apply NoDup_app. split_and!; [done| |apply NoDup_singleton].
    intros r Hr1 ->%list_elem_of_singleton. by apply (fresh_promise _ _ Hr).
  - intros r [Hr1| ->%list_elem_of_singleton]%elem_of_app; [by left|right]. split; [|done]. unfold running. cbn. by apply list_lookup_middle.
  - intros u Hu. cbn. rewrite Pt, !elem_of_app. auto.
Qed.

Lemma inv_stop_connected s j : client_inv s -> _state s = ConnectedState j ->
  client_inv (Connected_stop j (length (promises s)) (set_promises (promises s ++ [Running]) s)).
Proof.
  intros I Est. destruct (inv_tasks _ I) as (m & mp & side & Pt & Hph & Hs & Hd & Hr).
  destruct (phase_connected_at _ _ _ _ Hph Est) as (k & Ek & Hk). set (q := length (promises s)).
  unfold Connected_stop. cbn [set_promises connecteds]. rewrite Ek.
  destruct (k_stopRequested k); cbn [negb]; [by apply inv_link|].
  set (k' := mkConnected _ _ _ _ _ _). set (s' := post _ _).
  assert (connecteds s' !! j = Some k') as Ek'. { apply list_lookup_insert_eq. by eapply lookup_lt_Some. }
  assert (exists mp', phase s' m mp' /\ NoDup mp' /\ forall r, r ∈ mp' -> r ∈ mp \/ r = q) as (mp' & Hph' & Hnd' & Hmp').
  { destruct Hk as [(p & -> & Hk)|(-> & [[-> Hk]|[-> Hk]])].
    - inversion Hph; subst. exists [p]. split; [by apply (phase_leaving _ j k')|]. split; [apply NoDup_singleton|]. by left.
    - exists [q]. split; [by apply (phase_connected _ j k')|]. split; [apply NoDup_singleton|]. intros r ->%list_elem_of_singleton. by right.
    - exists [q]. split; [by apply (phase_over _ j k')|]. split; [apply NoDup_singleton|]. intros r ->%list_elem_of_singleton. by right. }
  apply (inv_call s s' m mp side m mp' [TShutdown j] [Running]); try done; try apply I.
  - unfold s'. cbn. rewrite Pt, <- (assoc_L (++)). f_equiv. apply Permutation_app_comm.
  - repeat constructor. by eapply lookup_lt_Some.
  - by rewrite app_nil_r.
  - intros r Hr1. rewrite app_nil_r in Hr1. apply Hmp' in Hr1 as [Hr1| ->]; [by left|right]. split; [|done].
    unfold running. by apply list_lookup_middle.
  - intros i k0 E. destruct (decide (i = j)) as [-> |Hne]; [exists k'; split; [done|]; assert (k0 = k) as -> by congruence; done|]. exists k0. unfold s'. cbn. by rewrite list_lookup_insert_ne.
  - intros i k0 E. destruct (decide (i = j)) as [-> |Hne]; [exists k; by simplify_eq|]. exists k0. unfold s' in E. cbn in E.
    by rewrite list_lookup_insert_ne in E.
  - intros u Hu. unfold s'. cbn. rewrite Pt, !elem_of_app. auto.
  - by left.
Qed.

Lemma inv_stop_connecting s i : client_inv s -> _state s = ConnectingState i ->
  client_inv (Connecting_stop i (length (promises s)) (set_promises (promises s ++ [Running]) s)).
Proof.
  intros I Est. destruct (inv_tasks _ I) as (m & mp & side & Pt & Hph & Hs & Hd & Hr). set (q := length (promises s)).
  assert (exists c p, connectings s !! i = Some c /\ c_connectedPromise c = Some p /\ mp = [p; cr_disconnectedPromise (c_result c)] /\
    (m = Some (TConnect i) /\ c_complete c = false \/ m = Some (TConnectComplete i) /\ c_complete c = true)) as (c & p & Ec & Ep & Emp & Hm).
  { destruct Hph as [|i' c p E|i' c p E| | | | |]; try congruence; assert (i' = i) as -> by congruence; exists c, p; split_and!; auto. }
  unfold Connecting_stop. cbn [set_promises connectings]. rewrite Ec. cbv zeta.
  destruct (c_stopping c) eqn:Estop; cbn [negb]; [by apply inv_link|].
  set (c' := mkConnecting _ _ _ _). set (s' := set_connectings _ _).
  assert (connectings s' !! i = Some c') as Ec'. { apply list_lookup_insert_eq. by eapply lookup_lt_Some. }
  assert (running s p) as Hp. { subst mp. by apply Forall_cons in Hr as [? _]. }
  apply (inv_call s s' m mp side m [p; q] [] [Running]); try done; eauto; try apply I.
  - destruct Hm as [[-> Hm]|[-> Hm]].
    + by apply (phase_connecting s' i c').
    + by apply (phase_complete s' i c').
  - cbn. apply NoDup_cons. split; [|apply NoDup_singleton]. rewrite list_elem_of_singleton. apply running_bound in Hp. unfold q. lia.
  - intros r Hr1. rewrite app_nil_r in Hr1. subst mp. apply elem_of_cons in Hr1 as [-> |Hr1%list_elem_of_singleton]; [left; by left|right].
    subst r. split; [|done]. unfold running. by apply list_lookup_middle.
  - intros u Hu. unfold s'. cbn. rewrite Pt, !elem_of_app. auto.
  - intros i0 c0 E. destruct (decide (i0 = i)) as [-> |Hne]; [by simplify_eq|]. apply (inv_stop _ I i0). unfold s' in E. cbn in E.
    by rewrite list_lookup_insert_ne in E.
Qed.

Lemma inv_disconnect s : client_inv s -> client_inv (snd (doDisconnect s)).
Proof.
  intros I. unfold doDisconnect. destruct (_state s) eqn:Est; cbn [new_promise snd].
  - by apply inv_new_promise.
  - by apply inv_stop_connecting.
  - by apply inv_stop_connected.
  - by apply inv_new_promise.
Qed.

(** ** Steps *)

Lemma inv_tasks_run s t error more rest s' : client_inv s -> t :: rest ≡ₚ tasks s -> run_task t error more (set_tasks rest s) = Some s' ->
  client_inv s'.
Proof.
  intros I P. pose proof (inv_unlocked _ I) as Hl. destruct t as [i|i|p|p|j|j|j|j|socket p|d|d|d|p|src dst|i|i]; cbn [run_task set_tasks locked]; rewrite ?Hl.
  - intros [= <-]. by apply inv_connecting_done.
  - intros [= <-]. by apply inv_connect_complete.
  - intros [= <-]. by apply inv_emit_connected.
  - intros [= <-]. apply (inv_finish s (TSetConnected p)); try done; [by inversion 1|]. by intros q [[=]|[= ->]].
  - intros [= <-]. by apply inv_shutdown.
  - intros [= <-]. by apply inv_received.
  - intros [= <-]. by apply inv_sent.
  - cbn [set_tasks connecteds]. destruct (connecteds s !! j) as [k|] eqn:Ek; [|done]. match goal with |- (if ?b then _ else _) = _ -> _ => destruct b; [|done] end. intros [= <-]. by apply (inv_connected_complete s j).
  - intros [= <-]. by apply inv_enter_disconnected.
  - cbn [set_tasks disconnectings]. destruct (disconnectings s !! d) as [x|] eqn:Ex; [|done]. intros [= <-]. by apply inv_close.
  - intros [= <-]. by apply inv_disconnect_complete.
  - cbn [set_tasks disconnectings]. destruct (disconnectings s !! d) as [x|] eqn:Ex; [|done]. intros [= <-]. by apply (inv_emit_disconnected s d).
  - intros [= <-]. apply (inv_finish s (TSetDisconnected p)); try done; [by inversion 1|]. by intros q [[=]|[=]].
  - cbn [set_tasks promises]. intros H. assert (exists st, st <> Running /\ finish dst st (set_tasks rest s) = s') as (st & Hst & <-).
    { destruct (promises s !! src) as [[]|]; try done; injection H as <-; (eexists; split; [|reflexivity]; done). }
    apply (inv_finish s (TLink src dst)); try done; [by inversion 1|]. by intros q [[=]|[=]].
  - destruct (side_step _ _ _ I P) as [[] _]. by inversion 1.
  - destruct (side_step _ _ _ I P) as [[] _]. by inversion 1.
Qed.

(** The events of a client, which does not call [ensureReading]. *)
Definition client_event (e : event) : Prop := e <> EnsureReading.

Lemma inv_client : client_inv Socket_client.
Proof.
  split; try done. exists None, [], []. split; [done|]. split; [by apply phase_disconnected|]. repeat constructor.
Qed.

Lemma client_inv_step s e s' : client_inv s -> client_event e -> step e s = Some s' -> client_inv s'.
Proof.
  intros I He. pose proof (inv_unlocked _ I) as Hl. destruct e as [u| | | |k error more]; cbn [step]; rewrite ?Hl; try done.
  - intros [= <-]. by apply inv_connect.
  - intros [= <-]. by apply inv_disconnect.
  - intros [= <-]. by apply inv_send.
  - intros (t & Ht & H)%bind_Some. apply (inv_tasks_run s t error more (take k (tasks s) ++ drop (S k) (tasks s)) s' I); [|done]. symmetry. by apply take_task.
Qed.

Inductive client_reachable : TcpMessageSocket -> Prop :=
  | client_start : client_reachable Socket_client
  | client_step s e s' : client_reachable s -> client_event e -> step e s = Some s' -> client_reachable s'.

Lemma client_reachable_inv s : client_reachable s -> client_inv s.
Proof. induction 1; [by apply inv_client|by eapply client_inv_step]. Qed.
