(* ===== verification/TcpSocketSettle.v ===== *)
(** * TcpSocketSettle: the futures of a socket are finished

    What the steps only add to, the promises that some task will still set, and the states
    in which nothing is left to do but to wait for data. *)
From S2P Require Import Prelude CString Bytes Url TransportSocketCache Message TcpMessageSocket TcpSocketInvariant TcpSocketSteps.
Open Scope nat_scope.

(** ** What operations only add to *)

Record extends (s s' : TcpMessageSocket) : Prop := {
  ext_finished p : finished p s = true -> finished p s' = true;
  ext_disconnectings d x : disconnectings s !! d = Some x -> disconnectings s' !! d = Some x;
  ext_tasks t : t ∈ tasks s -> t ∈ tasks s';
}.

#[export] Instance extends_preorder : PreOrder extends.
Proof. split; [done|]. intros s1 s2 s3 [A1 A2 A3] [B1 B2 B3]. split; auto. Qed.

Lemma extends_frame s s' : promises s' = promises s -> disconnectings s' = disconnectings s -> tasks s' = tasks s -> extends s s'.
Proof. intros E1 E2 E3. split; unfold finished; rewrite ?E1, ?E2, ?E3; done. Qed.

Lemma extends_post t s : extends s (post t s).
Proof. split; try done. intros u H. apply elem_of_app. by left. Qed.

Lemma extends_new_promise st s : extends s (snd (new_promise st s)).
Proof. split; try done. intros p. by eapply finished_app. Qed.

Lemma extends_finish p st s : st <> Running -> extends s (finish p st s).
Proof.
  intros Hst. unfold finish. destruct (promises s !! p) as [[]|]; try (by apply extends_frame). split; try done. intros q. by eapply finished_insert.
Qed.

Lemma extends_disconnecting x s : extends s (set_disconnectings (disconnectings s ++ [x]) s).
Proof. split; try done. intros d y. apply lookup_app_l_Some. Qed.

Lemma finish_finished p st s : st <> Running -> p < length (promises s) -> finished p (finish p st s) = true.
Proof.
  intros Hst [x Hx]%lookup_lt_is_Some. unfold finish. rewrite Hx. destruct x; try (unfold finished; cbn; by rewrite Hx). by eapply finished_finish.
Qed.

Lemma extends_enter socket p s : extends s (enterDisconnectedState socket p s).
Proof.
  unfold enterDisconnectedState, Disconnecting_call. cbn [new_promise set_disconnectings set_promises set_state disconnectings].
  rewrite list_lookup_middle by done. cbn [d_socket d_completePromise].
  set (s1 := set_state _ _).
  assert (extends s s1) as H1.
  { transitivity (snd (new_promise Running s)); [apply extends_new_promise|].
    etransitivity; [apply (extends_disconnecting (mkDisconnecting socket p (length (promises s))
      match getStatus s with Status_Connected => true | _ => false end))|by apply extends_frame]. }
  destruct socket; [by etransitivity; [exact H1|apply extends_post]|].
  etransitivity; [exact H1|]. etransitivity; [by apply (extends_finish (length (promises s)) HasValue)|apply extends_post].
Qed.

Lemma extends_setPromise j error s : extends s (Connected_setPromise j error s).
Proof.
  unfold Connected_setPromise. destruct (connecteds s !! j); [|done]. destruct (k_complete _); [done|].
  etransitivity; [|apply extends_post]. by apply extends_frame.
Qed.

Lemma extends_stop_connected j q s : extends s (Connected_stop j q s).
Proof.
  unfold Connected_stop. destruct (connecteds s !! j); [|done]. destruct (negb _); [|apply extends_post].
  etransitivity; [|apply extends_post]. by apply extends_frame.
Qed.

Lemma extends_stop_connecting i q s : extends s (Connecting_stop i q s).
Proof. unfold Connecting_stop. destruct (connectings s !! i); [|done]. cbv zeta. destruct (negb _); [by apply extends_frame|apply extends_post]. Qed.

Lemma extends_connected_new f s : extends s (snd (Connected_new f s)).
Proof.
  unfold Connected_new. cbn [new_promise snd]. etransitivity; [apply (extends_new_promise Running)|].
  etransitivity; [|apply extends_post]. by apply extends_frame.
Qed.

Lemma extends_connecting_new p network s : extends s (snd (Connecting_new p network s)).
Proof.
  unfold Connecting_new. cbn [new_promise snd]. etransitivity; [apply (extends_new_promise Running)|].
  destruct network; [etransitivity; [|apply extends_post]|]; by apply extends_frame.
Qed.

Lemma extends_connect u s : extends s (snd (connect u s)).
Proof.
  unfold connect. destruct (getStatus s); try apply extends_new_promise. destruct (negb _); [apply extends_new_promise|].
  destruct (if has _ _ then _ else _); [|apply extends_new_promise]. cbn [new_promise].
  pose proof (extends_connecting_new (Some (length (promises s))) true (set_promises (promises s ++ [Running]) s)) as H.
  destruct (Connecting_new _ _ _) as [i s1]. cbn [snd] in *. etransitivity; [apply (extends_new_promise Running)|].
  etransitivity; [exact H|by apply extends_frame].
Qed.

Lemma extends_disconnect s : extends s (snd (doDisconnect s)).
Proof.
  unfold doDisconnect. destruct (_state s) as [|i|j|d]; cbn [new_promise snd]; [apply (extends_new_promise HasValue)| | |apply (extends_new_promise Running)];
    (etransitivity; [apply (extends_new_promise Running)|]); [apply extends_stop_connecting|apply extends_stop_connected].
Qed.

Lemma extends_connecting_done i error s : extends s (connecting_done i error s).
Proof.
  unfold connecting_done. destruct (connectings s !! i) as [c|]; [|done]. cbv zeta.
  destruct (c_connectedPromise c); [etransitivity; [|apply extends_post]|]; by apply extends_frame.
Qed.

Lemma extends_continuation i s : extends s (connect_continuation i s).
Proof.
  unfold connect_continuation. destruct (connectings s !! i) as [c|]; [|done]. cbv zeta.
  set (s0 := match getStatus s with Status_Connecting => s | _ => fail s end).
  assert (extends s s0) as H0 by (unfold s0; destruct (getStatus s); by apply extends_frame).
  destruct (_ || _).
  - etransitivity; [exact H0|]. etransitivity; [|apply extends_enter]. by apply extends_finish.
  - pose proof (extends_connected_new (Some (default 0 (c_connectedPromise c))) s0) as H. destruct (Connected_new _ _) as [j s1].
    etransitivity; [exact H0|]. etransitivity; [exact H|]. etransitivity; [|apply extends_post]. by apply extends_frame.
Qed.

Lemma extends_received j error more s : extends s (onReceived j error more s).
Proof. unfold onReceived. destruct (connecteds s !! j); [|done]. cbv zeta. destruct (_ && _ && _); [apply extends_post|apply extends_setPromise]. Qed.

Lemma extends_sent j error s : extends s (onSent j error s).
Proof. unfold onSent. destruct (connecteds s !! j); [|done]. destruct (k_shuttingdown _); [apply extends_setPromise|done]. Qed.

Lemma extends_ensure_end i s : extends s (ensureReading_end i s).
Proof.
  unfold ensureReading_end. destruct (connectings s !! i) as [c|]; [|done]. cbv zeta. destruct (cr_hasError _); [apply extends_enter|].
  pose proof (extends_connected_new None s) as H. destruct (Connected_new _ _) as [j s1]. etransitivity; [exact H|by apply extends_frame].
Qed.

Lemma extends_run t error more s s' : run_task t error more s = Some s' -> extends s s'.
Proof.
  destruct t; cbn [run_task]; intros H;
    repeat case_match; try done; injection H as <-;
    repeat (first [by apply extends_frame|apply extends_post|by apply extends_finish|apply extends_connecting_done|apply extends_continuation
      |apply extends_received|apply extends_sent|apply extends_enter|apply extends_ensure_end|(etransitivity; [|apply extends_post])]).
Qed.

(** A step keeps the tasks, the one that it runs apart. *)
Lemma step_extends s e s' : step e s = Some s' -> 
  exists s0, extends s0 s' /\ promises s0 = promises s /\ disconnectings s0 = disconnectings s /\
    forall t, t ∈ tasks s -> t ∈ tasks s0 \/ exists k error more, e = RunTask k error more /\ tasks s !! k = Some t.
Proof.
  destruct e as [u| | | |k error more]; cbn [step]; intros H;
    try (destruct (locked s); [done|]; injection H as <-; exists s; split; [|by auto]).
  - apply extends_connect.
  - apply extends_disconnect.
  - unfold send. destruct (_state s); try done. apply extends_post.
  - unfold ensureReading. destruct (_state s); try done. etransitivity; [|apply extends_post]. by apply extends_frame.
  - apply bind_Some in H as (t & Ht & H). eexists. split; [by eapply extends_run|]. split; [done|]. split; [done|]. intros u Hu.
    rewrite (take_task _ _ _ Ht) in Hu. apply elem_of_cons in Hu as [->|Hu]; [right; by exists k, error, more|by left].
Qed.

(** ** Requests to stop *)

(** The socket of a connected state that is asked to stop is shut down, or will be. *)
Definition asked (s : TcpMessageSocket) : Prop :=
  forall j k, connecteds s !! j = Some k -> k_stopRequested k = true -> k_shuttingdown k = true \/ TShutdown j ∈ tasks s.

Lemma asked_extends s s' : extends s s' -> connecteds s' = connecteds s -> asked s -> asked s'.
Proof. intros E Ec H j k. rewrite Ec. intros H1 H2. destruct (H j k H1 H2); [by left|right]. by apply E. Qed.

Lemma enter_frame socket p s : connecteds (enterDisconnectedState socket p s) = connecteds s /\
  connectings (enterDisconnectedState socket p s) = connectings s /\
  _state (enterDisconnectedState socket p s) = DisconnectingState (length (disconnectings s)).
Proof.
  unfold enterDisconnectedState, Disconnecting_call. cbn [new_promise set_disconnectings set_promises set_state disconnectings].
  rewrite list_lookup_middle by done. cbn [d_socket d_completePromise]. destruct socket; [done|]. unfold finish. by repeat case_match.
Qed.

Lemma finish_frame p st s : connecteds (finish p st s) = connecteds s /\ connectings (finish p st s) = connectings s /\ _state (finish p st s) = _state s.
Proof. unfold finish. by repeat case_match. Qed.

Lemma asked_connected_new f s : asked s -> asked (snd (Connected_new f s)).
Proof.
  intros H j k. cbn. intros [E|[_ E]]%lookup_app_Some Hk.
  - destruct (H _ _ E Hk); [by left|right]. apply elem_of_app. by left.
  - by apply list_lookup_singleton_Some in E as [_ <-].
Qed.

Lemma asked_insert j k k' s s' : asked s -> connecteds s !! j = Some k -> connecteds s' = <[j := k']> (connecteds s) ->
  (forall t, t ∈ tasks s -> t ∈ tasks s') ->
  (k_stopRequested k' = true -> k_stopRequested k = true /\ k_shuttingdown k' = k_shuttingdown k \/ TShutdown j ∈ tasks s') -> asked s'.
Proof.
  intros H Ek E Ht Hk i k0 Hi Hs. rewrite E in Hi. destruct (decide (i = j)) as [->|Hne].
  - rewrite list_lookup_insert_eq in Hi by (by eapply lookup_lt_Some). injection Hi as <-. destruct (Hk Hs) as [[H1 H2]|]; [|by right].
    rewrite H2. destruct (H _ _ Ek H1); auto.
  - rewrite list_lookup_insert_ne in Hi by done. destruct (H _ _ Hi Hs); auto.
Qed.

Lemma asked_setPromise j error s : asked s -> asked (Connected_setPromise j error s).
Proof.
  intros H. unfold Connected_setPromise. destruct (connecteds s !! j) as [k|] eqn:Ek; [|done]. destruct (k_complete k); [done|].
  eapply (asked_insert j k _ s); [done|done|done| |].
  - intros t Ht. apply elem_of_app. by left.
  - left. done.
Qed.

Lemma asked_stop j q s : asked s -> asked (Connected_stop j q s).
Proof.
  intros H. unfold Connected_stop. destruct (connecteds s !! j) as [k|] eqn:Ek; [|done]. destruct (negb _).
  - eapply (asked_insert j k _ s); [done|done|done| |].
    + intros t Ht. apply elem_of_app. by left.
    + intros _. right. apply elem_of_app. right. by left.
  - apply (asked_extends s); [apply extends_post|done|done].
Qed.

Lemma asked_continuation i s : asked s -> asked (connect_continuation i s).
Proof.
  intros H. pose proof (extends_continuation i s) as He. unfold connect_continuation in *. destruct (connectings s !! i) as [c|]; [|done]. cbv zeta in *.
  set (s0 := match getStatus s with Status_Connecting => s | _ => fail s end) in *.
  assert (connecteds s0 = connecteds s) as E0 by (unfold s0; by destruct (getStatus s)).
  destruct (_ || _).
  - apply (asked_extends s); [done| |done]. destruct (enter_frame (cr_socket (c_result c)) (cr_disconnectedPromise (c_result c))
      (finish (default 0 (c_connectedPromise c)) HasError s0)) as (-> & _ & _). by destruct (finish_frame (default 0 (c_connectedPromise c)) HasError s0) as (-> & _).
  - assert (asked s0) as H0 by (apply (asked_extends s); [unfold s0; destruct (getStatus s); by apply extends_frame|done|done]).
    pose proof (asked_connected_new (Some (default 0 (c_connectedPromise c))) s0 H0) as H1. destruct (Connected_new _ _) as [j s1].
    apply (asked_extends s1); [|done|done]. etransitivity; [|apply extends_post]. by apply extends_frame.
Qed.

Lemma asked_shutdown j s s0 : asked s -> connecteds s0 = connecteds s -> (forall t, t ∈ tasks s -> t = TShutdown j \/ t ∈ tasks s0) ->
  asked (raise_shuttingdown j s0).
Proof.
  intros H E Ht i k. cbn. rewrite E. destruct (decide (i = j)) as [->|Hne].
  - rewrite list_lookup_alter_eq. intros (k0 & E0 & ->)%fmap_Some. by left.
  - rewrite list_lookup_alter_ne by done. intros Hi Hs. destruct (H _ _ Hi Hs) as [|H1]; [by left|right]. destruct (Ht _ H1) as [[= ->]|]; done.
Qed.

Lemma asked_run t error more rest s s' : client_inv s -> asked s -> t :: rest ≡ₚ tasks s -> run_task t error more (set_tasks rest s) = Some s' -> asked s'.
Proof.
  intros I H P Hr. assert (forall u, u ∈ tasks s -> u = t \/ u ∈ rest) as Hin by (intros u; by apply in_rest).
  assert ((exists j, t = TShutdown j) \/ ~ exists j, t = TShutdown j) as [[j ->]|Hn];
    [destruct t; (by left; eexists) || (right; by intros [? ?])|injection Hr as <-; by apply (asked_shutdown j s)|].
  set (s0 := set_tasks rest s) in *. assert (asked s0) as H0.
  { intros j k E Hs. destruct (H j k E Hs) as [|H1]; [by left|right]. destruct (Hin _ H1) as [<-|]; [|done]. destruct Hn. by exists j. }
  pose proof (extends_run _ _ _ _ _ Hr) as He. pose proof (inv_unlocked _ I) as Hl.
  assert (locked s0 = false) as Hl0 by done.
  destruct t as [i|i|p|p|j|j|j|j|socket p|d|d|d|p|src dst|i|i]; cbn [run_task] in Hr; rewrite ?Hl0 in Hr;
    try (apply (asked_extends s0); [done| |done]; repeat case_match; try done; injection Hr as <-; cbn; by rewrite ?(proj1 (finish_frame _ _ _)));
    try injection Hr as <-.
  - apply (asked_extends s0); [done| |done]. unfold connecting_done. by repeat case_match.
  - by apply asked_continuation.
  - destruct Hn. by exists j.
  - unfold onReceived. destruct (connecteds s0 !! j); [|done]. cbv zeta. destruct (_ && _ && _); [|by apply asked_setPromise].
    apply (asked_extends s0); [apply extends_post|done|done].
  - unfold onSent. destruct (connecteds s0 !! j); [|done]. destruct (k_shuttingdown _); [by apply asked_setPromise|done].
  - apply (asked_extends s0); [apply extends_enter|apply enter_frame|done].
  - destruct (side_step _ _ _ I P) as [[] _]. by inversion 1.
Qed.

Lemma asked_step s e s' : client_inv s -> client_event e -> asked s -> step e s = Some s' -> asked s'.
Proof.
  intros I He H. pose proof (inv_unlocked _ I) as Hl. destruct e as [u| | | |k error more]; cbn [step]; rewrite ?Hl; try done.
  - intros [= <-]. apply (asked_extends s); [apply extends_connect| |done]. unfold connect, Connecting_new. cbn. by repeat case_match.
  - intros [= <-]. pose proof (extends_disconnect s) as Hx. unfold doDisconnect in *. destruct (_state s) as [|i|j|d]; cbn [new_promise snd] in *;
      try by apply (asked_extends s).
    + apply (asked_extends s); [done| |done]. unfold Connecting_stop. by repeat case_match.
    + apply asked_stop. apply (asked_extends s); [apply (extends_new_promise Running)|done|done].
  - intros [= <-]. unfold send. destruct (_state s); try done. apply (asked_extends s); [apply extends_post|done|done].
  - intros (t & Ht & Hr)%bind_Some. eapply (asked_run t); [exact I|done| |done]. symmetry. by apply take_task.
Qed.
