(* ===== verification/TcpSocketFutures.v ===== *)
(** * TcpSocketFutures: every future of a client's socket is finished

    The promises that the steps hand over from a state or a task to the next one. *)
From S2P Require Import Prelude CString Bytes Url Message TransportSocketCache TcpMessageSocket TcpSocketInvariant TcpSocketSteps.
From S2P Require Import TcpSocketSettle.
Open Scope nat_scope.

(** ** Promises that will be set *)

Definition task_promises (s : TcpMessageSocket) (t : task) : list nat :=
  match t with
  | TEmitConnected p | TSetConnected p | TEnterDisconnected _ p | TSetDisconnected p => [p]
  | TClose d => match disconnectings s !! d with Some x => [d_completePromise x; d_disconnectedPromise x] | None => [] end
  | TDisconnectComplete d | TEmitDisconnected d => match disconnectings s !! d with Some x => [d_disconnectedPromise x] | None => [] end
  | _ => []
  end.

(** The copy of the result of the connected state is on its way. *)
Definition leaving (s : TcpMessageSocket) : Prop := exists p, TEnterDisconnected true p ∈ tasks s.

Inductive kept (s : TcpMessageSocket) : nat -> Prop :=
  | kept_finished q : finished q s = true -> kept s q
  | kept_connecting i c q : _state s = ConnectingState i -> connectings s !! i = Some c ->
      c_connectedPromise c = Some q \/ c_stopping c = true /\ cr_disconnectedPromise (c_result c) = q -> kept s q
  | kept_connected j k q : _state s = ConnectedState j -> connecteds s !! j = Some k -> ~ leaving s ->
      k_stopRequested k = true -> k_disconnectedPromise k = q -> kept s q
  | kept_task t q : t ∈ tasks s -> q ∈ task_promises s t -> kept s q
  | kept_link src q : TLink src q ∈ tasks s -> kept s src -> kept s q.

(** ** Tasks that do not change the state *)

Definition stays (t : task) : bool :=
  match t with
  | TConnect _ | TConnectComplete _ | TConnectedComplete _ | TEnterDisconnected _ _ | TClose _ | TDisconnectComplete _ | TEnsureWait _ | TEnsureEnd _ => false
  | _ => true
  end.

Definition quiet (t : task) : Prop := match t with TEnterDisconnected _ _ | TEmitConnected _ => False | _ => True end.

Definition same_request (k k' : Connected) : Prop :=
  k_stopRequested k' = k_stopRequested k /\ k_disconnectedPromise k' = k_disconnectedPromise k /\ k_futureConnected k' = k_futureConnected k.

Definition connecteds_kept (s s' : TcpMessageSocket) : Prop :=
  forall j k, connecteds s !! j = Some k -> exists k', connecteds s' !! j = Some k' /\ same_request k k'.

Lemma connecteds_kept_refl s s' : connecteds s' = connecteds s -> connecteds_kept s s'.
Proof. intros E j k H. exists k. by rewrite E. Qed.

Lemma connecteds_kept_insert s s' j k k' : connecteds s !! j = Some k -> same_request k k' -> connecteds s' = <[j := k']> (connecteds s) -> connecteds_kept s s'.
Proof.
  intros Ek Hk E i k0 Hi. rewrite E. destruct (decide (i = j)) as [->|Hne].
  - rewrite list_lookup_insert_eq by (by eapply lookup_lt_Some). exists k'. by simplify_eq.
  - rewrite list_lookup_insert_ne by done. by exists k0.
Qed.

Record stayed (s s' : TcpMessageSocket) : Prop := {
  stayed_state : _state s' = _state s;
  stayed_connectings : connectings s' = connectings s;
  stayed_connecteds : connecteds_kept s s';
  stayed_tasks : exists l, tasks s' = tasks s ++ l /\ Forall quiet l;
}.

Lemma quiet_not_leaving s s' l : tasks s' = tasks s ++ l -> Forall quiet l -> leaving s' -> leaving s.
Proof.
  intros E Hl (p & Hp). rewrite E in Hp. apply elem_of_app in Hp as [Hp|Hp]; [by exists p|]. rewrite Forall_forall in Hl. by destruct (Hl _ Hp).
Qed.

Lemma stayed_post s s' l : _state s' = _state s -> connectings s' = connectings s -> connecteds_kept s s' -> tasks s' = tasks s ++ l ->
  Forall quiet l -> stayed s s'.
Proof. intros E1 E2 H E3 Hl. split; try done. by exists l. Qed.

Lemma stayed_finish p st s : stayed s (finish p st s).
Proof.
  destruct (finish_frame p st s) as (E1 & E2 & E3). apply (stayed_post _ _ []); try done; [by apply connecteds_kept_refl|].
  rewrite app_nil_r. unfold finish. by repeat case_match.
Qed.

Lemma stayed_setPromise j error s : stayed s (Connected_setPromise j error s).
Proof.
  unfold Connected_setPromise. destruct (connecteds s !! j) as [k|] eqn:Ek; [destruct (k_complete k)|].
  - apply (stayed_post _ _ []); try done; [by apply connecteds_kept_refl|by rewrite app_nil_r].
  - eapply (stayed_post _ _ [TConnectedComplete j]); try done; [eapply (connecteds_kept_insert _ _ j k); [done| |reflexivity]; done|by repeat constructor].
  - apply (stayed_post _ _ []); try done; [by apply connecteds_kept_refl|by rewrite app_nil_r].
Qed.

Lemma stays_frame t error more s s' : stays t = true -> run_task t error more s = Some s' -> stayed s s'.
Proof.
  intros Hs H. destruct t as [i|i|p|p|j|j|j|j|socket p|d|d|d|p|src dst|i|i]; try done; cbn [run_task] in H;
    repeat case_match; try done; injection H as <-; try apply stayed_finish;
    try (eapply (stayed_post _ _ [_]); try done; [by apply connecteds_kept_refl|by repeat constructor]).
  - apply (stayed_post _ _ []); try done; [|by rewrite app_nil_r]. intros i k E. cbn. destruct (decide (i = j)) as [->|Hne].
    + rewrite list_lookup_alter_eq, E. by eexists.
    + rewrite list_lookup_alter_ne by done. by exists k.
  - unfold onReceived. destruct (connecteds s !! j) as [k|] eqn:Ek; [|apply (stayed_post _ _ []); try done; [by apply connecteds_kept_refl|by rewrite app_nil_r]].
    cbv zeta. destruct (_ && _ && _); [|apply stayed_setPromise].
    apply (stayed_post _ _ [TReceive j]); try done; [by apply connecteds_kept_refl|by repeat constructor].
  - unfold onSent. destruct (connecteds s !! j) as [k|] eqn:Ek; [destruct (k_shuttingdown k); [apply stayed_setPromise|]|];
      (apply (stayed_post _ _ []); try done; [by apply connecteds_kept_refl|by rewrite app_nil_r]).
Qed.

(** ** Promises handed over by a task *)

Lemma task_running s t q : client_inv s -> t ∈ tasks s -> q ∈ task_promises s t -> running s q.
Proof.
  intros I Ht Hq. destruct (inv_tasks _ I) as (m & mp & side & Pt & Hph & Hs & _ & Hr). rewrite (Forall_forall (A := nat)) in Hr. apply Hr.
  rewrite Pt in Ht. apply elem_of_app in Ht as [Ht|Ht]; apply elem_of_app; [left|right].
  - destruct m as [u|]; [|by apply elem_of_nil in Ht]. apply list_elem_of_singleton in Ht as ->.
    inversion Hph; subst; cbn in Hq; try (by apply elem_of_nil in Hq); try done; simplify_option_eq; done.
  - rewrite Forall_forall in Hs. pose proof (Hs _ Ht) as Hok. apply list_elem_of_In, in_concat. exists (side_promises s t).
    split; [by apply in_map, list_elem_of_In|]. apply list_elem_of_In. destruct t; try done; by apply elem_of_nil in Hq.
Qed.

Lemma finish_kept p st s : st <> Running -> running s p -> kept (finish p st s) p.
Proof. intros Hst Hp. apply kept_finished, finish_finished; [done|by eapply running_bound]. Qed.

Lemma enter_kept socket p s : kept (enterDisconnectedState socket p s) p.
Proof.
  unfold enterDisconnectedState, Disconnecting_call. cbn [new_promise set_disconnectings set_promises set_state disconnectings].
  set (x := mkDisconnecting _ _ _ _). rewrite list_lookup_middle by done. cbn [d_socket d_completePromise x].
  destruct socket.
  - eapply (kept_task _ (TClose (length (disconnectings s)))); cbn.
    + apply elem_of_app. right. by left.
    + rewrite list_lookup_middle by done. right. by left.
  - rewrite finish_running by (by apply list_lookup_middle). eapply (kept_task _ (TDisconnectComplete (length (disconnectings s)))); cbn.
    + apply elem_of_app. right. by left.
    + rewrite list_lookup_middle by done. by left.
Qed.

Lemma hand_over s t error more rest s' q : client_inv s -> t :: rest ≡ₚ tasks s -> run_task t error more (set_tasks rest s) = Some s' ->
  q ∈ task_promises s t -> kept s' q.
Proof.
  intros I P H Hq. assert (t ∈ tasks s) as Ht by (rewrite <- P; by left). pose proof (task_running _ _ _ I Ht Hq) as Hr.
  pose proof (inv_unlocked _ I) as Hl. set (s0 := set_tasks rest s) in *. assert (running s0 q) as Hr0 by done. assert (locked s0 = false) as Hl0 by done.
  assert (forall u s1, q ∈ task_promises s1 u -> kept (post u s1) q) as Hpost.
  { intros u s1 Hu. apply (kept_task _ u); [apply elem_of_app; right; by left|done]. }
  destruct t as [i|i|p|p|j|j|j|j|socket p|d|d|d|p|src dst|i|i]; cbn in Hq; try (by apply elem_of_nil in Hq);
    try (apply list_elem_of_singleton in Hq as ->); cbn [run_task] in H; rewrite ?Hl0 in H.
  - injection H as <-. apply Hpost. by left.
  - injection H as <-. by apply finish_kept.
  - injection H as <-. apply enter_kept.
  - change (disconnectings s0) with (disconnectings s) in H. destruct (disconnectings s !! d) as [x|] eqn:Ex; [|done]. injection H as <-.
    apply elem_of_cons in Hq as [-> |Hq%list_elem_of_singleton].
    + apply kept_finished, (ext_finished _ _ (extends_post _ _)). apply finish_finished; [done|by eapply running_bound].
    + apply Hpost. cbn. rewrite (ext_disconnectings _ _ (extends_finish (d_completePromise x) HasValue s0 ltac:(done)) d x Ex). subst q. by left.
  - injection H as <-. apply Hpost. cbn. by destruct (disconnectings s !! d).
  - change (disconnectings s0) with (disconnectings s) in H. destruct (disconnectings s !! d) as [x|] eqn:Ex; [|done]. injection H as <-.
    by apply Hpost.
  - injection H as <-. by apply finish_kept.
Qed.

(** ** The promises are kept *)

Lemma task_promises_extends s s' t q : (forall d x, disconnectings s !! d = Some x -> disconnectings s' !! d = Some x) ->
  q ∈ task_promises s t -> q ∈ task_promises s' t.
Proof.
  intros H. destruct t as [i|i|p|p|j|j|j|j|socket p|d|d|d|p|src dst|i|i]; cbn; try done;
    (destruct (disconnectings s !! d) as [x|] eqn:E; [by rewrite (H _ _ E)|intros Hq; by apply elem_of_nil in Hq]).
Qed.

(** In the connecting state the other tasks leave the state as it is. *)
Lemma connecting_tasks s i t : client_inv s -> _state s = ConnectingState i -> t ∈ tasks s ->
  t = TConnect i \/ t = TConnectComplete i \/ stays t = true.
Proof.
  intros I E Ht. destruct (inv_tasks _ I) as (m & mp & side & Pt & Hph & Hs & _). rewrite Pt in Ht. apply elem_of_app in Ht as [Ht|Ht].
  - inversion Hph; subst; try congruence; apply list_elem_of_singleton in Ht as ->; [left|right; left]; congruence.
  - rewrite Forall_forall in Hs. apply Hs in Ht. right. right. by destruct t.
Qed.

Lemma connected_tasks s j t : client_inv s -> _state s = ConnectedState j -> t ∈ tasks s ->
  t = TConnectedComplete j \/ (exists p, t = TEnterDisconnected true p) \/ stays t = true.
Proof.
  intros I E Ht. destruct (inv_tasks _ I) as (m & mp & side & Pt & Hph & Hs & _). rewrite Pt in Ht. apply elem_of_app in Ht as [Ht|Ht].
  - inversion Hph; subst; try congruence; apply list_elem_of_singleton in Ht as ->; [by right; right|left; congruence|right; left; by eexists].
  - rewrite Forall_forall in Hs. apply Hs in Ht. right. right. by destruct t.
Qed.

Lemma kept_connecting_run s i c q t error more rest s' : client_inv s -> t :: rest ≡ₚ tasks s -> run_task t error more (set_tasks rest s) = Some s' ->
  _state s = ConnectingState i -> connectings s !! i = Some c -> c_connectedPromise c = Some q \/ c_stopping c = true /\ cr_disconnectedPromise (c_result c) = q ->
  kept s' q.
Proof.
  intros I P H Est Ec Hq. assert (t ∈ tasks s) as Ht by (rewrite <- P; by left). pose proof (inv_unlocked _ I) as Hl.
  destruct (connecting_tasks _ _ _ I Est Ht) as [-> |[-> |Hs]].
  - injection H as <-. unfold connecting_done. cbn [set_tasks connectings]. rewrite Ec. cbv zeta.
    set (c' := mkConnecting _ _ _ _). eapply (kept_connecting _ i c'); [by destruct (c_connectedPromise c)| |done].
    destruct (c_connectedPromise c); cbn; (rewrite list_lookup_insert_eq; [done|by eapply lookup_lt_Some]).
  - cbn [run_task set_tasks locked] in H. rewrite Hl in H. injection H as <-.
    destruct (main_step _ _ _ I P) as (mp & side & Hph & _ & _ & _ & Hr); [by intros []|].
    inversion Hph as [| |? c' p Est' Ec' Ecc Ep| | | | |]; subst. assert (c' = c) as -> by congruence.
    unfold connect_continuation. cbn [set_tasks connectings getStatus _state]. rewrite Ec. unfold getStatus. cbn [set_tasks _state]. rewrite Est, Ep. cbv zeta.
    change (default 0 (Some p)) with p. destruct (_ || _) eqn:Eb.
    + destruct Hq as [Hq|[_ <-]]; [|apply enter_kept]. assert (q = p) as -> by congruence.
      apply kept_finished, (ext_finished _ _ (extends_enter _ _ _)), finish_finished; [done|].
      apply Forall_cons in Hr as [Hr _]. by eapply running_bound.
    + destruct Hq as [Hq|[Hq _]]; [|rewrite (inv_stop _ I _ _ Ec) in Hq; by rewrite Hq in Eb].
      assert (q = p) as -> by congruence. cbn [Connected_new new_promise]. unfold Connected_new. cbn [new_promise].
      eapply (kept_task _ (TEmitConnected p)); [|by left]. apply elem_of_app. right. by left.
  - destruct (stays_frame _ _ _ _ _ Hs H) as [E1 E2 _ _]. eapply (kept_connecting _ i c); [by rewrite E1|by rewrite E2|done].
Qed.

Lemma kept_connected_run s j k t error more rest s' : client_inv s -> t :: rest ≡ₚ tasks s -> run_task t error more (set_tasks rest s) = Some s' ->
  _state s = ConnectedState j -> connecteds s !! j = Some k -> ~ leaving s -> k_stopRequested k = true -> kept s' (k_disconnectedPromise k).
Proof.
  intros I P H Est Ek Hn Hs. assert (t ∈ tasks s) as Ht by (rewrite <- P; by left).
  destruct (connected_tasks _ _ _ I Est Ht) as [-> |[(p & ->)|Hst]].
  - cbn [run_task set_tasks connecteds] in H. rewrite Ek in H. match type of H with (if ?b then _ else _) = _ => destruct b; [|done] end.
    injection H as <-. apply (kept_task _ (TEnterDisconnected true (k_disconnectedPromise k))); [apply elem_of_app; right|]; by left.
  - by destruct Hn; exists p.
  - destruct (stays_frame _ _ _ _ _ Hst H) as [E1 _ E3 (l & E4 & Hl)]. destruct (E3 j k Ek) as (k' & Ek' & (H1 & H2 & _)).
    apply (kept_connected _ j k'); [by rewrite E1|done| |congruence|done].
    intros (p & Hp)%(quiet_not_leaving _ _ _ E4 Hl). destruct Hn. exists p. rewrite <- P. by right.
Qed.

Lemma kept_run s q t error more rest s' : client_inv s -> t :: rest ≡ₚ tasks s -> run_task t error more (set_tasks rest s) = Some s' ->
  kept s q -> kept s' q.
Proof.
  intros I P H. pose proof (extends_run _ _ _ _ _ H) as He.
  induction 1 as [q Hf|i c q Est Ec Hq|j k q Est Ek Hn Hs <-|u q Hu Hq|src q Hl Hk IH].
  - by apply kept_finished, (ext_finished _ _ He).
  - by eapply kept_connecting_run.
  - by eapply kept_connected_run.
  - destruct (in_rest _ _ _ _ P Hu) as [->|Hu']; [by eapply hand_over|].
    apply (kept_task _ u); [by apply (ext_tasks _ _ He)|]. eapply task_promises_extends; [|exact Hq]. apply (ext_disconnectings _ _ He).
  - destruct (in_rest _ _ _ _ P Hl) as [<-|Hl']; [|apply (kept_link _ src); [by apply (ext_tasks _ _ He)|done]].
    assert (running s q) as Hr.
    { destruct (side_step _ _ _ I P) as [_ (m & mp & side & _ & _ & _ & _ & Hr)]; [by inversion 1|].
      apply Forall_app in Hr as [Hr _]. apply Forall_app in Hr as [_ Hr]. by apply Forall_cons in Hr as [Hr _]. }
    cbn [run_task set_tasks promises] in H. destruct (promises s !! src) as [[]|]; try done; injection H as <-; by apply finish_kept.
Qed.

(** A call keeps them. *)
Lemma kept_call s s' q : extends s s' -> (leaving s' -> leaving s) ->
  (forall i c, _state s = ConnectingState i -> connectings s !! i = Some c -> _state s' = ConnectingState i /\
     exists c', connectings s' !! i = Some c' /\ c_connectedPromise c' = c_connectedPromise c /\
       (c_stopping c = true -> c_stopping c' = true /\ cr_disconnectedPromise (c_result c') = cr_disconnectedPromise (c_result c))) ->
  (forall j k, _state s = ConnectedState j -> connecteds s !! j = Some k -> k_stopRequested k = true -> _state s' = ConnectedState j /\
     exists k', connecteds s' !! j = Some k' /\ same_request k k') ->
  kept s q -> kept s' q.
Proof.
  intros He Hv Hc Hk. induction 1 as [q Hf|i c q Est Ec Hq|j k q Est Ek Hn Hs <-|u q Hu Hq|src q Hl _ IH].
  - by apply kept_finished, (ext_finished _ _ He).
  - destruct (Hc _ _ Est Ec) as (Est' & c' & Ec' & Ep & Hd). apply (kept_connecting _ i c'); [done|done|]. rewrite Ep.
    destruct Hq as [Hq|[Hq <-]]; [by left|right]. by apply Hd.
  - destruct (Hk _ _ Est Ek Hs) as (Est' & k' & Ek' & H1 & H2 & _). apply (kept_connected _ j k'); [done|done|auto|congruence|done].
  - apply (kept_task _ u); [by apply (ext_tasks _ _ He)|]. eapply task_promises_extends; [|exact Hq]. apply (ext_disconnectings _ _ He).
  - apply (kept_link _ src); [by apply (ext_tasks _ _ He)|done].
Qed.

(** A call that leaves the states as they are. *)
Lemma kept_same s s' l q : extends s s' -> _state s' = _state s -> connectings s' = connectings s -> connecteds s' = connecteds s ->
  tasks s' = tasks s ++ l -> Forall quiet l -> kept s q -> kept s' q.
Proof.
  intros He E1 E2 E3 Et Hl. apply kept_call; [done|by eapply quiet_not_leaving| |].
  - intros i c. rewrite E1, E2. intros H1 H2. split; [done|]. by exists c.
  - intros j k. rewrite E1, E3. intros H1 H2 _. split; [done|]. by exists k.
Qed.

Lemma kept_new_promise s st q : kept s q -> kept (snd (new_promise st s)) q.
Proof. apply (kept_same _ _ []); try done; [apply extends_new_promise|by rewrite app_nil_r]. Qed.

Lemma kept_connect u s q : kept s q -> kept (snd (connect u s)) q.
Proof.
  pose proof (extends_connect u s) as He. unfold connect, getStatus in *. destruct (_state s) eqn:Est; try apply kept_new_promise.
  destruct (negb (isValid u)); [apply kept_new_promise|]. destruct (if has _ _ then _ else _); [|apply kept_new_promise].
  apply kept_call; [done| |congruence|congruence]. apply (quiet_not_leaving _ _ [TConnect (length (connectings s))]); [done|by repeat constructor].
Qed.

Lemma kept_disconnect s q : kept s q -> kept (snd (doDisconnect s)) q.
Proof.
  pose proof (extends_disconnect s) as He. unfold doDisconnect in *. destruct (_state s) as [|i|j|d] eqn:Est; cbn [new_promise snd] in *.
  - apply kept_new_promise.
  - unfold Connecting_stop in *. cbn [set_promises connectings] in *. destruct (connectings s !! i) as [c|] eqn:Ec; [|apply (kept_new_promise s Running)].
    cbv zeta in *. destruct (c_stopping c) eqn:Hs; cbn [negb] in *; [eapply (kept_same _ _ [TLink _ _]); try done; by repeat constructor|].
    apply kept_call; [done|by apply (quiet_not_leaving _ _ []); [rewrite app_nil_r|]| |congruence].
    intros i' c0 Ei Ec0. split; [done|]. assert (i' = i) as -> by congruence. assert (c0 = c) as -> by congruence.
    eexists. split; [cbn; rewrite list_lookup_insert_eq; [done|by eapply lookup_lt_Some]|]. split; [done|congruence].
  - unfold Connected_stop in *. cbn [set_promises connecteds] in *. destruct (connecteds s !! j) as [k|] eqn:Ek; [|apply (kept_new_promise s Running)].
    destruct (k_stopRequested k) eqn:Hs; cbn [negb] in *; [eapply (kept_same _ _ [TLink _ _]); try done; by repeat constructor|].
    apply kept_call; [done|by apply (quiet_not_leaving _ _ [TShutdown j]); [|repeat constructor]|congruence|].
    intros j' k0 Ej Ek0 Hk0. assert (j' = j) as -> by congruence. congruence.
  - apply (kept_new_promise s Running).
Qed.

Lemma kept_step s e s' q : client_inv s -> client_event e -> step e s = Some s' -> kept s q -> kept s' q.
Proof.
  intros I He. pose proof (inv_unlocked _ I) as Hl. destruct e as [u| | | |k error more]; cbn [step]; rewrite ?Hl; try done.
  - intros [= <-]. apply kept_connect.
  - intros [= <-]. apply kept_disconnect.
  - intros [= <-]. unfold send. destruct (_state s); try done.
    apply (kept_same _ _ [TSend j]); try done; [apply extends_post|by repeat constructor].
  - intros (t & Ht & Hr)%bind_Some. eapply kept_run; [exact I| |done]. symmetry. by apply take_task.
Qed.

(** ** When nothing is left to run *)

(** A task waits: whatever the network gives it cannot run, or it is a read of a socket
    that is open. *)
Definition waits (s : TcpMessageSocket) (t : task) : Prop :=
  (forall error more, run_task t error more s = None) \/
  exists j k, t = TReceive j /\ connecteds s !! j = Some k /\ k_shuttingdown k = false.

Definition settled (s : TcpMessageSocket) : Prop := Forall (waits s) (tasks s).

Lemma settled_kept s q : client_inv s -> asked s -> settled s -> kept s q -> finished q s = true.
Proof.
  intros I Ha Hw. unfold settled in Hw. rewrite Forall_forall in Hw. pose proof (inv_unlocked _ I) as Hl.
  assert (forall t, t ∈ tasks s -> (forall j, t <> TReceive j) -> run_task t true true s = None) as Hno.
  { intros t Ht Hn. destruct (Hw _ Ht) as [H|(j & k & -> & _)]; [done|by destruct (Hn j)]. }
  induction 1 as [q Hf|i c q Est Ec Hq|j k q Est Ek Hn Hs <-|u q Hu Hq|src q Hl' _ IH]; [done|exfalso..|].
  - destruct (inv_tasks _ I) as (m & mp & side & Pt & Hph & _). inversion Hph; subst; try congruence.
    + pose proof (Hno (TConnect i0) ltac:(rewrite Pt; by left) ltac:(done)) as H9. done.
    + pose proof (Hno (TConnectComplete i0) ltac:(rewrite Pt; by left) ltac:(done)) as H9. cbn in H9. by rewrite Hl in H9.
  - assert (k_shuttingdown k = true) as Hk.
    { destruct (Ha _ _ Ek Hs) as [|H1]; [done|]. by pose proof (Hno _ H1 ltac:(done)). }
    destruct (inv_tasks _ I) as (m & mp & side & Pt & Hph & _).
    destruct (phase_connected_at _ _ _ _ Hph Est) as (k' & Ek' & Hm). assert (k' = k) as -> by congruence.
    destruct Hm as [(p & -> & _)|(_ & [[-> _]|[-> _]])].
    + destruct Hn. exists p. rewrite Pt. by left.
    + destruct (Hw (TReceive j) ltac:(rewrite Pt; by left)) as [H1|(j' & k' & [= <-] & Ek2 & H1)]; [by specialize (H1 true true)|congruence].
    + pose proof (Hno (TConnectedComplete j) ltac:(rewrite Pt; by left) ltac:(done)) as H1. cbn in H1. rewrite Ek in H1.
      destruct (inv_future _ I _ _ Ek) as (p & Ep & Hp). rewrite Ep in H1. destruct Hp as [Hp|[Hp|Hp]]; [by rewrite Hp in H1|..];
        by pose proof (Hno _ Hp ltac:(done)).
  - assert (forall j, u <> TReceive j) as Hr by (intros j ->; by apply elem_of_nil in Hq).
    pose proof (Hno u Hu Hr) as H1. destruct u as [i|i|p|p|j|j|j|j|socket p|d|d|d|p|src dst|i|i]; try done; try (by apply elem_of_nil in Hq);
      cbn in H1, Hq; rewrite ?Hl in H1; try done; (destruct (disconnectings s !! d); [done|by apply elem_of_nil in Hq]).
  - pose proof (Hno _ Hl' ltac:(done)) as H1. unfold finished in IH. cbn in H1. by destruct (promises s !! src) as [[]|].
Qed.

(** * The tasks of a client's socket come to an end

    A measure of what is left to do, which every task makes smaller unless it is a read
    after which the socket goes on reading. *)
Open Scope nat_scope.

Definition is_complete (s : TcpMessageSocket) (j : nat) : bool := match connecteds s !! j with Some k => k_complete k | None => false end.

(** More than the weight of the tasks that the task leaves. *)
Definition weight (s : TcpMessageSocket) (t : task) : nat :=
  match t with
  | TConnect _ => 11
  | TConnectComplete _ => 10
  | TEmitConnected _ => 2
  | TReceive j => if is_complete s j then 1 else 7
  | TConnectedComplete _ => 6
  | TEnterDisconnected _ _ => 5
  | TClose _ => 4
  | TDisconnectComplete _ => 3
  | TEmitDisconnected _ => 2
  | TSetConnected _ | TShutdown _ | TSend _ | TSetDisconnected _ | TLink _ _ => 1
  | TEnsureWait _ => 9
  | TEnsureEnd _ => 8
  end.

Definition measure (s : TcpMessageSocket) : nat := sum_list_with (weight s) (tasks s).

(** The task is a read after which the socket reads again. *)
Definition reads_on (s : TcpMessageSocket) (t : task) (error more : bool) : bool :=
  match t with
  | TReceive j => match connecteds s !! j with Some k => negb (k_shuttingdown k) && negb error && more | None => false end
  | _ => false
  end.

(** ** Lemmas *)

Definition completes (s s' : TcpMessageSocket) : Prop := forall j, is_complete s j = true -> is_complete s' j = true.

Lemma completes_grows s s' : grows s s' -> completes s s'.
Proof.
  intros [G _] j. unfold is_complete. destruct (connecteds s !! j) as [k|] eqn:E; [|done]. destruct (G _ _ E) as (k' & -> & H). done.
Qed.

Lemma completes_same s s' : connecteds s' = connecteds s -> completes s s'.
Proof. intros E j. unfold is_complete. by rewrite E. Qed.

Lemma weight_completes s s' t : completes s s' -> weight s' t <= weight s t.
Proof.
  intros H. destruct t; cbn; try done. destruct (is_complete s j) eqn:E; [by rewrite (H _ E)|]. destruct (is_complete s' j); lia.
Qed.

Lemma measure_less s s' t rest new : t :: rest ≡ₚ tasks s -> tasks s' = rest ++ new -> completes s s' ->
  sum_list_with (weight s') new < weight s t -> measure s' < measure s.
Proof.
  intros P E Hc Hn. unfold measure. rewrite E, <- P, sum_list_with_app. cbn.
  pose proof (sum_le (weight s') (weight s) rest (fun u => weight_completes s s' u Hc)). lia.
Qed.

Lemma finish_tasks p st s : tasks (finish p st s) = tasks s.
Proof. unfold finish. by repeat case_match. Qed.

Lemma enter_tasks socket p s : exists t, tasks (enterDisconnectedState socket p s) = tasks s ++ [t] /\ forall s', weight s' t <= 4.
Proof.
  unfold enterDisconnectedState, Disconnecting_call. cbn [new_promise set_disconnectings set_promises set_state disconnectings].
  rewrite list_lookup_middle by done. cbn [d_socket d_completePromise]. destruct socket; [by eexists; split; [done|intros ?; cbn; lia]|].
  eexists. split; [cbn; by rewrite finish_tasks|]. intros s'. cbn. lia.
Qed.

Lemma less_enter s s1 t rest socket p : t :: rest ≡ₚ tasks s -> tasks s1 = rest -> connecteds s1 = connecteds s -> 5 <= weight s t ->
  measure (enterDisconnectedState socket p s1) < measure s.
Proof.
  intros P E1 E2 Hw. destruct (enter_tasks socket p s1) as (u & Eu & Hu). rewrite E1 in Eu. apply (measure_less s _ t rest [u]); [done|done| |].
  - apply completes_same. by rewrite (proj1 (enter_frame socket p s1)).
  - cbn [sum_list_with]. pose proof (Hu (enterDisconnectedState socket p s1)). lia.
Qed.

Lemma less_continuation s i rest : client_inv s -> TConnectComplete i :: rest ≡ₚ tasks s ->
  measure (connect_continuation i (set_tasks rest s)) < measure s.
Proof.
  intros I P. unfold connect_continuation. cbn [set_tasks connectings]. destruct (connectings s !! i) as [c|];
    [|apply (measure_less s _ (TConnectComplete i) rest []); [done|by rewrite app_nil_r|by apply completes_same|cbn; lia]].
  cbv zeta. set (s0 := match getStatus _ with Status_Connecting => _ | _ => _ end).
  assert (tasks s0 = rest /\ connecteds s0 = connecteds s) as [E1 E2] by (unfold s0; by destruct (getStatus _)).
  destruct (_ || _).
  - apply (less_enter s _ (TConnectComplete i) rest); [done|by rewrite finish_tasks| |cbn; lia].
    by rewrite (proj1 (finish_frame _ _ _)).
  - unfold Connected_new. cbn [new_promise].
    eapply (measure_less s _ (TConnectComplete i) rest [TReceive (length (connecteds s)); TEmitConnected _]); [done| | |].
    + cbn. by rewrite E1, E2, <- (assoc_L (++)).
    + apply completes_grows. split; [|by intros; cbn; unfold s0; destruct (getStatus _)]. intros j k E. exists k. split; [|done]. cbn. rewrite E2. by apply lookup_app_l_Some.
    + cbn. destruct (is_complete _ _); lia.
Qed.

Lemma less_setPromise s j k error t rest side : t :: rest ≡ₚ tasks s -> connecteds s !! j = Some k -> k_complete k = false ->
  (t = TReceive j /\ rest = side \/ weight s t = 1 /\ rest ≡ₚ TReceive j :: side) ->
  measure (Connected_setPromise j error (set_tasks rest s)) < measure s.
Proof.
  intros P Ek Hk Ht. unfold Connected_setPromise. cbn [set_tasks connecteds]. rewrite Ek, Hk. set (k' := mkConnected _ _ _ _ _ _). set (s' := post _ _).
  assert (is_complete s' j = true) as Hj. { unfold is_complete, s'. cbn. rewrite list_lookup_insert_eq by (by eapply lookup_lt_Some). done. }
  assert (completes s s') as Hc.
  { intros i Hi. destruct (decide (i = j)) as [->|Hne]; [done|]. unfold is_complete in *. unfold s'. cbn. by rewrite list_lookup_insert_ne. }
  assert (weight s (TReceive j) = 7) as W by (cbn; unfold is_complete; by rewrite Ek, Hk).
  destruct Ht as [[-> ->]|[Hw Pr]]; [apply (measure_less s s' (TReceive j) side [TConnectedComplete j]); try done; rewrite W; cbn; lia|].
  unfold measure. rewrite <- P. change (tasks s') with (rest ++ [TConnectedComplete j]). rewrite Pr, sum_list_with_app. cbn [sum_list_with]. rewrite W, Hw.
  pose proof (sum_le (weight s') (weight s) side (fun u => weight_completes s s' u Hc)). cbn [weight]. rewrite Hj. lia.
Qed.

Lemma less_rest s t rest s' new : t :: rest ≡ₚ tasks s -> tasks s' = rest ++ new -> connecteds s' = connecteds s ->
  sum_list_with (weight s') new < weight s t -> measure s' < measure s.
Proof. intros P E Ec. apply (measure_less s s' t rest new P E). by apply completes_same. Qed.

Lemma less_nothing s t rest : t :: rest ≡ₚ tasks s -> measure (set_tasks rest s) < measure s.
Proof. intros P. apply (less_rest s t rest _ []); [done|by rewrite app_nil_r|done|]. destruct t; cbn; repeat case_match; lia. Qed.

Lemma less_received s j error more rest : client_inv s -> TReceive j :: rest ≡ₚ tasks s -> reads_on s (TReceive j) error more = false ->
  measure (onReceived j error more (set_tasks rest s)) < measure s.
Proof.
  intros I P H. cbn [reads_on] in H. unfold onReceived. cbn [set_tasks connecteds]. destruct (connecteds s !! j) as [k|] eqn:Ek; [|by apply less_nothing with (TReceive j)].
  cbv zeta. rewrite H. destruct (k_complete k) eqn:Hk.
  - unfold Connected_setPromise. cbn [set_tasks connecteds]. rewrite Ek, Hk. by apply less_nothing with (TReceive j).
  - apply (less_setPromise s j k error (TReceive j) rest rest P Ek Hk). by left.
Qed.

Lemma less_sent s j error rest : client_inv s -> TSend j :: rest ≡ₚ tasks s -> measure (onSent j error (set_tasks rest s)) < measure s.
Proof.
  intros I P. unfold onSent. cbn [set_tasks connecteds]. destruct (connecteds s !! j) as [k|] eqn:Ek; [|by apply less_nothing with (TSend j)].
  destruct (k_shuttingdown k); [|by apply less_nothing with (TSend j)]. destruct (k_complete k) eqn:Hk.
  - unfold Connected_setPromise. cbn [set_tasks connecteds]. rewrite Ek, Hk. by apply less_nothing with (TSend j).
  - destruct (side_step _ _ _ I P) as [_ (m & mp & side & Hph & Pr & _)]; [by inversion 1|].
    destruct (phase_connected_at _ _ _ _ Hph (inv_active _ I _ _ Ek Hk)) as (k' & Ek' & Hm). assert (k' = k) as -> by congruence.
    destruct Hm as [(p & _ & Hm)|(_ & [[-> _]|[_ Hm]])]; [congruence| |congruence].
    apply (less_setPromise s j k error (TSend j) rest side P Ek Hk). by right.
Qed.

Lemma measure_run s t error more rest s' : client_inv s -> t :: rest ≡ₚ tasks s -> run_task t error more (set_tasks rest s) = Some s' ->
  reads_on s t error more = false -> measure s' < measure s.
Proof.
  intros I P H Hr. pose proof (inv_unlocked _ I) as Hl.
  assert (forall p st, measure (finish p st (set_tasks rest s)) < measure s) as Hf.
  { intros p st. apply (less_rest s t rest _ []); [done|by rewrite finish_tasks, app_nil_r|by rewrite (proj1 (finish_frame _ _ _))|].
    destruct t; cbn; repeat case_match; lia. }
  destruct t as [i|i|p|p|j|j|j|j|socket p|d|d|d|p|src dst|i|i]; cbn [run_task set_tasks locked connecteds disconnectings promises] in H; rewrite ?Hl in H.
  - injection H as <-. unfold connecting_done. cbn [set_tasks connectings]. destruct (connectings s !! i) as [c|]; [|by apply less_nothing with (TConnect i)].
    cbv zeta. destruct (c_connectedPromise c); [apply (less_rest s (TConnect i) rest _ [TConnectComplete i])|apply (less_rest s (TConnect i) rest _ [])];
      try done; cbn; rewrite ?app_nil_r; (done || lia).
  - injection H as <-. by apply less_continuation.
  - injection H as <-. apply (less_rest s (TEmitConnected p) rest _ [TSetConnected p]); try done. cbn. lia.
  - by injection H as <-.
  - injection H as <-. apply (measure_less s _ (TShutdown j) rest []); [done|by rewrite app_nil_r| |cbn; lia].
    apply completes_grows. split; [|by intros]. intros i k E. cbn. destruct (decide (i = j)) as [->|Hne]; [rewrite list_lookup_alter_eq, E; by eexists|].
    rewrite list_lookup_alter_ne by done. by exists k.
  - injection H as <-. by apply less_received.
  - injection H as <-. by apply less_sent.
  - destruct (connecteds s !! j) as [k|]; [|done]. match type of H with (if ?b then _ else _) = _ => destruct b; [|done] end. injection H as <-.
    eapply (less_rest s (TConnectedComplete j) rest _ [_]); try done. cbn. lia.
  - injection H as <-. by apply (less_enter s _ (TEnterDisconnected socket p) rest).
  - destruct (disconnectings s !! d) as [x|]; [|done]. injection H as <-. apply (less_rest s (TClose d) rest _ [TDisconnectComplete d]); try done.
    + cbn. by rewrite finish_tasks.
    + cbn. by rewrite (proj1 (finish_frame _ _ _)).
    + cbn. lia.
  - injection H as <-. apply (less_rest s (TDisconnectComplete d) rest _ [TEmitDisconnected d]); try done. cbn. lia.
  - destruct (disconnectings s !! d) as [x|]; [|done]. injection H as <-. eapply (less_rest s (TEmitDisconnected d) rest _ [_]); try done. cbn. lia.
  - by injection H as <-.
  - destruct (promises s !! src) as [[]|]; try done; by injection H as <-.
  - destruct (side_step _ _ _ I P) as [[] _]. by inversion 1.
  - destruct (side_step _ _ _ I P) as [[] _]. by inversion 1.
Qed.
