(* ===== verification/TcpSocketSignals.v ===== *)
(** * TcpSocketSignals: the signals of a client's socket

    Each connected state emits [connected] once, and [disconnected] once when it is over,
    in this order. *)
From S2P Require Import Prelude CString Bytes Url TransportSocketCache Message TcpMessageSocket TcpSocketInvariant TcpSocketSteps TcpSocketSettle.
From S2P Require Import TcpSocketFutures.
Open Scope nat_scope.

(** ** Counting *)

#[export] Instance signal_eq_dec : EqDecision signal.
Proof. solve_decision. Defined.

Definition count_signal (x : signal) (l : list signal) : nat := length (filter (fun y => y = x) l).

Definition emits_connected (t : task) : nat := match t with TEmitConnected _ => 1 | _ => 0 end.
Definition was_connected (s : TcpMessageSocket) (d : nat) : nat :=
  match disconnectings s !! d with Some x => if d_wasConnected x then 1 else 0 | None => 0 end.
Definition emits_disconnected (s : TcpMessageSocket) (t : task) : nat := match t with TEmitDisconnected d => was_connected s d | _ => 0 end.

(** A connected state that is not over, or for which [disconnected] will be emitted. *)
Definition live (s : TcpMessageSocket) : nat :=
  match _state s with ConnectedState _ => 1 | DisconnectingState d => was_connected s d | _ => 0 end.

Definition balanced (s : TcpMessageSocket) : Prop :=
  count_signal Signal_connected (signals s) + sum_list_with emits_connected (tasks s) =
  count_signal Signal_disconnected (signals s) + sum_list_with (emits_disconnected s) (tasks s) + live s.

(** While the emission of [connected] is to come, the socket is in the state that it is for. *)
Definition pending_ok (s : TcpMessageSocket) : Prop := forall p, TEmitConnected p ∈ tasks s ->
  ~ leaving s /\ exists j k, _state s = ConnectedState j /\ connecteds s !! j = Some k /\ k_futureConnected k = Some p.

(** ** Lemmas *)

Lemma count_signal_app x l l' : count_signal x (l ++ l') = count_signal x l + count_signal x l'.
Proof. unfold count_signal. by rewrite filter_app, length_app. Qed.

Lemma finish_signals p st s : signals (finish p st s) = signals s /\ disconnectings (finish p st s) = disconnectings s.
Proof. unfold finish. by repeat case_match. Qed.

Lemma task_disconnecting s d : client_inv s -> TEmitDisconnected d ∈ tasks s -> is_Some (disconnectings s !! d).
Proof.
  intros I H. destruct (inv_tasks _ I) as (m & mp & side & Pt & Hph & Hs & _). rewrite Pt in H. apply elem_of_app in H as [H|H].
  - inversion Hph; subst; try (by apply elem_of_nil in H); by apply list_elem_of_singleton in H.
  - rewrite Forall_forall in Hs. apply lookup_lt_is_Some. apply (Hs _ H).
Qed.

Lemma was_connected_kept s s' d : (forall d x, disconnectings s !! d = Some x -> disconnectings s' !! d = Some x) ->
  is_Some (disconnectings s !! d) -> was_connected s' d = was_connected s d.
Proof. intros H [x Hx]. unfold was_connected. by rewrite Hx, (H _ _ Hx). Qed.

Lemma emits_kept s s' l : client_inv s -> (forall u, u ∈ l -> u ∈ tasks s) ->
  (forall d x, disconnectings s !! d = Some x -> disconnectings s' !! d = Some x) ->
  sum_list_with (emits_disconnected s') l = sum_list_with (emits_disconnected s) l.
Proof.
  intros I Hl Hd. apply sum_eq. intros u Hu. destruct u; try done. cbn. apply was_connected_kept; [done|]. by apply task_disconnecting, Hl.
Qed.

Lemma balanced_run s s' t rest new sg : client_inv s -> balanced s -> t :: rest ≡ₚ tasks s -> tasks s' = rest ++ new -> signals s' = signals s ++ sg ->
  (forall d x, disconnectings s !! d = Some x -> disconnectings s' !! d = Some x) ->
  count_signal Signal_connected sg + sum_list_with emits_connected new + emits_disconnected s t + live s =
  emits_connected t + count_signal Signal_disconnected sg + sum_list_with (emits_disconnected s') new + live s' -> balanced s'.
Proof.
  intros I B P Et Es Hd Hb. unfold balanced in *. rewrite Et, Es, !count_signal_app, !sum_list_with_app. rewrite <- P in B. cbn [sum_list_with] in B.
  rewrite (emits_kept s s' rest I); [lia| |done]. intros u Hu. rewrite <- P. by right.
Qed.

Lemma balanced_call s s' new : client_inv s -> balanced s -> tasks s' = tasks s ++ new -> signals s' = signals s ->
  disconnectings s' = disconnectings s -> sum_list_with emits_connected new = 0 -> sum_list_with (emits_disconnected s') new = 0 ->
  live s' = live s -> balanced s'.
Proof.
  intros I B Et Es Ed H1 H2 H3. unfold balanced in *. rewrite Et, Es, H3, !sum_list_with_app, H1, H2.
  rewrite (emits_kept s s' (tasks s) I); [lia|done|by rewrite Ed].
Qed.

Lemma live_same s s' : _state s' = _state s -> disconnectings s' = disconnectings s -> live s' = live s.
Proof. intros E1 E2. unfold live, was_connected. by rewrite E1, E2. Qed.

(** ** Pending emissions *)

Lemma pending_none s' : (forall p, TEmitConnected p ∉ tasks s') -> pending_ok s'.
Proof. intros H p Hp. by destruct (H p). Qed.

Lemma not_connected_none s p : pending_ok s -> (forall j, _state s <> ConnectedState j) -> TEmitConnected p ∉ tasks s.
Proof. intros H Hn Hp. destruct (H p Hp) as [_ (j & k & E & _)]. by destruct (Hn j). Qed.

Lemma pending_stayed s s0 s' : pending_ok s -> stayed s0 s' -> _state s0 = _state s -> connecteds s0 = connecteds s ->
  (forall u, u ∈ tasks s0 -> u ∈ tasks s) -> pending_ok s'.
Proof.
  intros H [E1 _ E3 (l & E4 & Hl)] Es Ec Ht p Hp. rewrite E4 in Hp. apply elem_of_app in Hp as [Hp|Hp]; [|rewrite Forall_forall in Hl; by destruct (Hl _ Hp)].
  destruct (H p (Ht _ Hp)) as [Hn (j & k & Est & Ek & Hf)]. split.
  - intros (q & Hq)%(quiet_not_leaving _ _ _ E4 Hl). apply Hn. exists q. auto.
  - rewrite <- Ec in Ek. destruct (E3 _ _ Ek) as (k' & Ek' & _ & _ & Hf'). exists j, k'. split; [congruence|]. split; [done|congruence].
Qed.

(** There is one at most. *)
Lemma emits_one s side p : NoDup (owned s side) -> (forall q, TEmitConnected q ∈ side -> q = p) -> sum_list_with emits_connected side <= 1.
Proof.
  induction side as [|t side IH]; intros Hd H; [cbn; lia|]. unfold owned in Hd. cbn [map concat] in Hd. apply NoDup_app in Hd as (_ & Hn & Hd). cbn [sum_list_with].
  assert (forall q, TEmitConnected q ∈ side -> q = p) as H' by (intros q Hq; apply H; by right).
  destruct t; cbn [emits_connected]; try (by apply IH).
  assert (p0 = p) as -> by (apply H; by left). enough (sum_list_with emits_connected side = 0) by lia.
  clear -Hn H'. induction side as [|t side IH]; [done|]. cbn [sum_list_with map concat] in *.
  rewrite IH; [|intros q Hq Hin; apply (Hn q Hq), elem_of_app; by right|intros q Hq; apply H'; by right].
  destruct t; try done. exfalso. assert (p0 = p) as -> by (apply H'; by left). apply (Hn p); [by left|]. apply elem_of_app. left. by left.
Qed.

Lemma emits_some l : sum_list_with emits_connected l = 0 \/ exists p, TEmitConnected p ∈ l.
Proof.
  induction l as [|t l [IH|(p & Hp)]]; [by left| |right; exists p; by right]. cbn. rewrite IH. destruct t; auto. right. exists p. by left.
Qed.

Lemma pending_le s : client_inv s -> pending_ok s -> sum_list_with emits_connected (tasks s) <= live s.
Proof.
  intros I H. destruct (emits_some (tasks s)) as [->|(p & Hp)]; [lia|]. destruct (H p Hp) as [_ (j & k & Est & Ek & Hf)].
  unfold live. rewrite Est. destruct (inv_tasks _ I) as (m & mp & side & Pt & Hph & Hs & Hd & _). rewrite Pt, sum_list_with_app.
  assert (sum_list_with emits_connected (option_list m) = 0) as -> by (by inversion Hph). apply (emits_one s side p); [by apply NoDup_app in Hd as (_ & _ & ?)|].
  intros q Hq. destruct (H q) as [_ (j' & k' & Est' & Ek' & Hf')]; [rewrite Pt; apply elem_of_app; by right|]. congruence.
Qed.

(** ** Steps *)

(** A task that leaves the state leaves the balance. *)
Lemma stays_live t error more s s' : stays t = true -> run_task t error more s = Some s' -> _state s' = _state s /\ disconnectings s' = disconnectings s.
Proof.
  intros Hs H. split; [by apply (stays_frame _ _ _ _ _ Hs H)|]. destruct t as [i|i|p|p|j|j|j|j|socket p|d|d|d|p|src dst|i|i]; try done; cbn [run_task] in H;
    repeat case_match; try done; injection H as <-; try apply finish_signals; try done.
  - unfold onReceived, Connected_setPromise. by repeat case_match.
  - unfold onSent, Connected_setPromise. by repeat case_match.
Qed.

(** What a task adds to the tasks and to the signals, when it emits nothing. *)
Definition silent (t : task) : bool :=
  match t with TSetConnected _ | TShutdown _ | TReceive _ | TSend _ | TSetDisconnected _ | TLink _ _ => true | _ => false end.

Lemma silent_run t error more s s' : silent t = true -> run_task t error more s = Some s' ->
  signals s' = signals s /\ exists new, tasks s' = tasks s ++ new /\ sum_list_with emits_connected new = 0 /\ forall s1, sum_list_with (emits_disconnected s1) new = 0.
Proof.
  intros Hs H. assert (forall p st, signals (finish p st s) = signals s /\ exists new, tasks (finish p st s) = tasks s ++ new /\ sum_list_with emits_connected new = 0 /\ forall s1, sum_list_with (emits_disconnected s1) new = 0) as Hf.
  { intros p st. split; [apply finish_signals|]. exists []. by rewrite finish_tasks, app_nil_r. }
  destruct t as [i|i|p|p|j|j|j|j|socket p|d|d|d|p|src dst|i|i]; try done; cbn [run_task] in H; repeat case_match; try done; injection H as <-; try apply Hf.
  - split; [done|]. exists []. by rewrite app_nil_r.
  - unfold onReceived, Connected_setPromise. repeat case_match; (split; [done|]); try (exists []; by rewrite app_nil_r); by eexists [_].
  - unfold onSent, Connected_setPromise. repeat case_match; (split; [done|]); try (exists []; by rewrite app_nil_r); by eexists [_].
Qed.

Definition signals_inv (s : TcpMessageSocket) : Prop := balanced s /\ pending_ok s.

Lemma silent_stays t : silent t = true -> stays t = true /\ emits_connected t = 0 /\ forall s, emits_disconnected s t = 0.
Proof. by destruct t. Qed.

Lemma signals_silent s t error more rest s' : client_inv s -> signals_inv s -> t :: rest ≡ₚ tasks s ->
  run_task t error more (set_tasks rest s) = Some s' -> silent t = true -> signals_inv s'.
Proof.
  intros I [B H] P Hr Hs. destruct (silent_stays _ Hs) as (Ht & W1 & W2). destruct (stays_live _ _ _ _ _ Ht Hr) as [E1 E2].
  destruct (silent_run _ _ _ _ _ Hs Hr) as (Es & new & Et & N1 & N2). split.
  - apply (balanced_run s s' t rest new []); try done; [by rewrite Es, app_nil_r|by rewrite E2|]. rewrite N1, N2, W1, W2, (live_same _ _ E1 E2). done.
  - apply (pending_stayed s (set_tasks rest s)); try done; [by eapply stays_frame|]. intros u Hu. rewrite <- P. by right.
Qed.

Lemma enter_live socket p s : live (enterDisconnectedState socket p s) = match _state s with ConnectedState _ => 1 | _ => 0 end /\
  signals (enterDisconnectedState socket p s) = signals s.
Proof.
  unfold enterDisconnectedState, Disconnecting_call. cbn [new_promise set_disconnectings set_promises set_state disconnectings].
  rewrite list_lookup_middle by done. cbn [d_socket d_completePromise].
  destruct socket; [|rewrite finish_running by (by apply list_lookup_middle)]; (split; [|done]); unfold live, was_connected; cbn;
    rewrite list_lookup_middle by done; cbn; unfold getStatus; by destruct (_state s).
Qed.

(** The socket leaves the connecting or the connected state. *)
Lemma signals_enter s s1 t rest socket p : client_inv s -> signals_inv s -> t :: rest ≡ₚ tasks s -> tasks s1 = rest ->
  signals s1 = signals s -> disconnectings s1 = disconnectings s -> _state s1 = _state s -> emits_connected t = 0 -> emits_disconnected s t = 0 ->
  (forall d, _state s <> DisconnectingState d) -> (forall q, TEmitConnected q ∉ tasks s) -> signals_inv (enterDisconnectedState socket p s1).
Proof.
  intros I [B H] P E1 E2 E3 E4 W1 W2 Hd Hn. destruct (enter_tasks socket p s1) as (u & Eu & Hu). destruct (enter_live socket p s1) as [El Es].
  assert (exists d, u = TClose d \/ u = TDisconnectComplete d) as (d & Hud).
  { clear -Eu. unfold enterDisconnectedState, Disconnecting_call in Eu. cbn [new_promise set_disconnectings set_promises set_state disconnectings] in Eu.
    rewrite list_lookup_middle in Eu by done. cbn [d_socket d_completePromise] in Eu.
    exists (length (disconnectings s1)). destruct socket; cbn in Eu; rewrite ?finish_tasks in Eu; apply app_inj_2 in Eu as [_ [= <-]]; auto. }
  split.
  - apply (balanced_run s _ t rest [u] []); try done; [by rewrite Eu, E1|by rewrite Es, E2, app_nil_r| |].
    + intros d' x. rewrite <- E3. apply (ext_disconnectings _ _ (extends_enter socket p s1)).
    + rewrite El, E4, W1, W2. unfold live. destruct Hud as [-> | ->]; cbn; destruct (_state s) eqn:Est; try done; by destruct (Hd d0).
  - apply pending_none. intros q Hq. rewrite Eu, E1 in Hq. apply elem_of_app in Hq as [Hq|Hq%list_elem_of_singleton].
    + apply (Hn q). rewrite <- P. by right.
    + by destruct Hud as [-> | ->].
Qed.

Lemma signals_continuation s i rest : client_inv s -> signals_inv s -> TConnectComplete i :: rest ≡ₚ tasks s ->
  signals_inv (connect_continuation i (set_tasks rest s)).
Proof.
  intros I HI P. pose proof HI as [B H]. destruct (main_step _ _ _ I P) as (mp & side & Hph & Pr & Hs & _); [by intros []|].
  inversion Hph as [| |? c p Est Ec Ecc Ep| | | | |]; subst.
  assert (forall q, TEmitConnected q ∉ tasks s) as Hn by (intros q; apply not_connected_none; [done|congruence]).
  unfold connect_continuation. cbn [set_tasks connectings]. rewrite Ec, Ep. unfold getStatus. cbn [set_tasks _state]. rewrite Est. cbv zeta.
  change (default 0 (Some p)) with p. destruct (_ || _).
  - destruct (finish_signals p HasError (set_tasks rest s)) as [F1 F2]. destruct (finish_frame p HasError (set_tasks rest s)) as (_ & _ & F3).
    apply (signals_enter s _ (TConnectComplete i) rest); try done; [by rewrite finish_tasks|congruence].
  - unfold Connected_new. cbn [new_promise]. split.
    + apply (balanced_run s _ (TConnectComplete i) rest [TReceive (length (connecteds s)); TEmitConnected p] []); try done.
      * cbn. by rewrite <- (assoc_L (++)).
      * cbn. by rewrite app_nil_r.
      * unfold live. by rewrite Est.
    + intros q Hq. cbn in Hq. rewrite !elem_of_app in Hq. destruct Hq as [[Hq|Hq]|Hq]; [|by apply list_elem_of_singleton in Hq|].
      * destruct (Hn q). rewrite <- P. by right.
      * apply list_elem_of_singleton in Hq as [= ->]. split.
        -- intros (r & Hr). cbn in Hr. rewrite !elem_of_app in Hr. destruct Hr as [[Hr|Hr]|Hr]; try (by apply list_elem_of_singleton in Hr).
           rewrite Pr in Hr. rewrite Forall_forall in Hs. by destruct (Hs _ Hr).
        -- eexists _, _. split; [done|]. split; [by apply list_lookup_middle|done].
Qed.

(** While a task other than those of the connected state is the main one, nothing is pending. *)
Lemma none_left s t rest (new : list task) : pending_ok s -> t :: rest ≡ₚ tasks s -> (forall q, TEmitConnected q ∉ tasks s) ->
  Forall (fun u => emits_connected u = 0) new -> forall q, TEmitConnected q ∉ rest ++ new.
Proof.
  intros _ P Hn Hnew q [Hq|Hq]%elem_of_app; [apply (Hn q); rewrite <- P; by right|]. rewrite Forall_forall in Hnew. by specialize (Hnew _ Hq).
Qed.

Lemma signals_connecting s i error rest : client_inv s -> signals_inv s -> TConnect i :: rest ≡ₚ tasks s ->
  signals_inv (connecting_done i error (set_tasks rest s)).
Proof.
  intros I [B H] P. destruct (main_step _ _ _ I P) as (mp & side & Hph & _); [by intros []|].
  inversion Hph as [|? c p Est Ec Ecc Ep| | | | | |]; subst. unfold connecting_done. cbn [set_tasks connectings]. rewrite Ec. cbv zeta. rewrite Ep. split.
  - by apply (balanced_run s _ (TConnect i) rest [TConnectComplete i] []); [..|cbn; rewrite app_nil_r| |].
  - apply pending_none, (none_left s (TConnect i) rest [TConnectComplete i]); [done|done| |by repeat constructor].
    intros q. apply not_connected_none; [done|congruence].
Qed.

Lemma signals_leaving s j k rest : client_inv s -> signals_inv s -> TConnectedComplete j :: rest ≡ₚ tasks s -> connecteds s !! j = Some k ->
  (match k_futureConnected k with Some p => finished p s | None => true end) = true ->
  signals_inv (post (TEnterDisconnected true (k_disconnectedPromise k)) (set_tasks rest s)).
Proof.
  intros I [B H] P Ek Hf. destruct (main_step _ _ _ I P) as (mp & side & Hph & _); [by intros []|].
  inversion Hph as [| | | |? k' Est Ek' Hc| | |]; subst. split.
  - apply (balanced_run s _ (TConnectedComplete j) rest [TEnterDisconnected true (k_disconnectedPromise k)] []); try done. cbn. by rewrite app_nil_r.
  - apply pending_none, (none_left s (TConnectedComplete j) rest [TEnterDisconnected true (k_disconnectedPromise k)]); [done|done| |by repeat constructor].
    intros q Hq. destruct (H q Hq) as [_ (j' & k2 & Est' & Ek2 & Hf2)]. assert (j' = j) as -> by congruence. assert (k2 = k) as -> by congruence.
    rewrite Hf2 in Hf. pose proof (task_running _ _ _ I Hq ltac:(by left)) as Hr. unfold running in Hr. unfold finished in Hf. by rewrite Hr in Hf.
Qed.

Lemma signals_closing s t d x rest new sg s' : client_inv s -> signals_inv s -> t :: rest ≡ₚ tasks s -> _state s = DisconnectingState d ->
  disconnectings s !! d = Some x -> tasks s' = rest ++ new -> signals s' = signals s ++ sg -> disconnectings s' = disconnectings s ->
  t = TClose d /\ new = [TDisconnectComplete d] /\ sg = [] /\ _state s' = _state s \/
  t = TDisconnectComplete d /\ new = [TEmitDisconnected d] /\ sg = [] /\ _state s' = DisconnectedState -> signals_inv s'.
Proof.
  intros I [B H] P Est Ex Et Esg Ed Hc. assert (was_connected s' d = was_connected s d) as Ew by (unfold was_connected; by rewrite Ed). split.
  - apply (balanced_run s s' t rest new sg); try done; [by rewrite Ed|]. unfold live. rewrite Est.
    destruct Hc as [(-> & -> & -> & Es)|(-> & -> & -> & Es)]; rewrite Es, ?Est; cbn; rewrite Ew; lia.
  - apply pending_none. rewrite Et. apply (none_left s t rest new); [done|done| |].
    + intros q. apply not_connected_none; [done|congruence].
    + destruct Hc as [(_ & -> & _)|(_ & -> & _)]; by repeat constructor.
Qed.

Lemma signals_run s t error more rest s' : client_inv s -> signals_inv s -> t :: rest ≡ₚ tasks s ->
  run_task t error more (set_tasks rest s) = Some s' -> signals_inv s'.
Proof.
  intros I HI P H. destruct (silent t) eqn:Hs; [by eapply signals_silent|]. pose proof HI as [B Hp]. pose proof (inv_unlocked _ I) as Hl.
  assert (t ∈ tasks s) as Ht by (rewrite <- P; by left).
  assert (stays t = true -> pending_ok s') as Hst.
  { intros Hst. apply (pending_stayed s (set_tasks rest s)); try done; [by eapply stays_frame|]. intros u Hu. rewrite <- P. by right. }
  destruct t as [i|i|p|p|j|j|j|j|socket p|d|d|d|p|src dst|i|i]; try done;
    cbn [run_task set_tasks locked connecteds disconnectings promises] in H; rewrite ?Hl in H.
  - injection H as <-. by apply signals_connecting.
  - injection H as <-. by apply signals_continuation.
  - injection H as <-. split; [|by apply Hst]. by apply (balanced_run s _ (TEmitConnected p) rest [TSetConnected p] [Signal_connected]).
  - destruct (connecteds s !! j) as [k|] eqn:Ek; [|done]. match type of H with (if ?b then _ else _) = _ => destruct b eqn:Hb; [|done] end.
    injection H as <-. by apply signals_leaving with j.
  - injection H as <-. destruct (main_step _ _ _ I P) as (mp & side & Hph & _); [by intros []|]. inversion Hph; subst.
    apply (signals_enter s _ (TEnterDisconnected true p) rest); try done; [congruence|]. intros q Hq. destruct (Hp q Hq) as [Hn _]. apply Hn. by exists p.
  - destruct (main_step _ _ _ I P) as (mp & side & Hph & _); [by intros []|]. inversion Hph as [| | | | | |? x Est Ex|]; subst. rewrite Ex in H.
    injection H as <-. destruct (finish_signals (d_completePromise x) HasValue (set_tasks rest s)) as [F1 F2].
    destruct (finish_frame (d_completePromise x) HasValue (set_tasks rest s)) as (_ & _ & F3).
    apply (signals_closing s (TClose d) d x rest [TDisconnectComplete d] []); try done; [by cbn; rewrite finish_tasks|by cbn; rewrite F1, app_nil_r|by left].
  - destruct (main_step _ _ _ I P) as (mp & side & Hph & _); [by intros []|]. inversion Hph as [| | | | | | |? x Est Ex]; subst. injection H as <-.
    apply (signals_closing s (TDisconnectComplete d) d x rest [TEmitDisconnected d] []); try done; [by cbn; rewrite app_nil_r|by right].
  - destruct (disconnectings s !! d) as [x|] eqn:Ex; [|done]. injection H as <-. split; [|by apply Hst].
    eapply (balanced_run s _ (TEmitDisconnected d) rest [_] _); try done. cbn. unfold was_connected. rewrite Ex. rewrite count_signal_app.
    match goal with |- context [live (post ?a ?b)] => change (live (post a b)) with (live s) end. by destruct (d_wasConnected x); vm_compute.
  - destruct (side_step _ _ _ I P) as [[] _]. by inversion 1.
  - destruct (side_step _ _ _ I P) as [[] _]. by inversion 1.
Qed.

(** The calls emit nothing. *)
Lemma signals_new_promise s st : client_inv s -> signals_inv s -> signals_inv (snd (new_promise st s)).
Proof.
  intros I [B H]. split; [|done]. by apply (balanced_call s _ []); [..|cbn; rewrite app_nil_r| | | | |].
Qed.

Lemma signals_connect s u : client_inv s -> signals_inv s -> signals_inv (snd (connect u s)).
Proof.
  intros I HI. pose proof HI as [B H]. pose proof (signals_new_promise s HasError I HI) as He. unfold connect.
  destruct (getStatus s) eqn:Eg; try done. destruct (negb _); [done|]. destruct (if has _ _ then _ else _); [|done].
  assert (_state s = DisconnectedState) as Est by (unfold getStatus in Eg; by destruct (_state s)).
  unfold Connecting_new. cbn [new_promise snd]. split.
  - apply (balanced_call s _ [TConnect (length (connectings s))]); try done. unfold live. by rewrite Est.
  - apply pending_none. intros q [Hq|Hq%list_elem_of_singleton]%elem_of_app; [|done].
    exact (not_connected_none s q H ltac:(congruence) Hq).
Qed.

Lemma stay_pending s s' l : pending_ok s -> _state s' = _state s -> tasks s' = tasks s ++ l -> Forall quiet l ->
  (forall j k, connecteds s !! j = Some k -> exists k', connecteds s' !! j = Some k' /\ k_futureConnected k' = k_futureConnected k) -> pending_ok s'.
Proof.
  intros H Es Et Hl Hc p Hp. rewrite Et in Hp. apply elem_of_app in Hp as [Hp|Hp]; [|rewrite Forall_forall in Hl; by destruct (Hl _ Hp)].
  destruct (H p Hp) as [Hn (j & k & Est & Ek & Hf)]. split; [by intros Hv%(quiet_not_leaving _ _ _ Et Hl)|].
  destruct (Hc _ _ Ek) as (k' & Ek' & Hf'). exists j, k'. split; [congruence|]. split; [done|congruence].
Qed.

Lemma signals_stop s s' l : client_inv s -> signals_inv s -> tasks s' = tasks s ++ l -> Forall quiet l -> sum_list_with emits_connected l = 0 ->
  sum_list_with (emits_disconnected s') l = 0 -> signals s' = signals s -> disconnectings s' = disconnectings s -> _state s' = _state s ->
  (forall j k, connecteds s !! j = Some k -> exists k', connecteds s' !! j = Some k' /\ k_futureConnected k' = k_futureConnected k) -> signals_inv s'.
Proof.
  intros I [B H] Et Hl W1 W2 Es Ed Est Hc. split; [|by eapply stay_pending].
  apply (balanced_call s s' l); try done. by apply live_same.
Qed.

Lemma signals_disconnect s : client_inv s -> signals_inv s -> signals_inv (snd (doDisconnect s)).
Proof.
  intros I HI. pose proof (fun st => signals_new_promise s st I HI) as Hn. unfold doDisconnect. destruct (_state s) as [|i|j|d] eqn:Est; cbn [new_promise snd].
  - apply Hn.
  - unfold Connecting_stop. cbn [set_promises connectings]. destruct (connectings s !! i) as [c|]; [|apply Hn]. cbv zeta.
    destruct (negb (c_stopping c)); [apply (signals_stop s _ []); try done; [by cbn; rewrite app_nil_r|eauto]|].
    eapply (signals_stop s _ [_]); try done; [by repeat constructor|eauto].
  - unfold Connected_stop. cbn [set_promises connecteds]. destruct (connecteds s !! j) as [k|] eqn:Ek; [|apply Hn].
    destruct (negb (k_stopRequested k)); eapply (signals_stop s _ [_]); try done; [by repeat constructor| |by repeat constructor|eauto].
    intros i k0 E. cbn. destruct (decide (i = j)) as [->|Hne].
    + rewrite list_lookup_insert_eq by (by eapply lookup_lt_Some). eexists. split; [done|]. by simplify_eq.
    + rewrite list_lookup_insert_ne by done. by exists k0.
  - apply (Hn Running).
Qed.

Lemma signals_step s e s' : client_inv s -> client_event e -> signals_inv s -> step e s = Some s' -> signals_inv s'.
Proof.
  intros I He H. pose proof (inv_unlocked _ I) as Hl. destruct e as [u| | | |k error more]; cbn [step]; rewrite ?Hl; try done.
  - intros [= <-]. by apply signals_connect.
  - intros [= <-]. by apply signals_disconnect.
  - intros [= <-]. unfold send. destruct (_state s) as [| |j|] eqn:Est; try done.
    apply (signals_stop s _ [TSend j]); try done; [by repeat constructor|eauto].
  - intros (t & Ht & Hr)%bind_Some. eapply (signals_run _ t); [exact I|done| |done]. symmetry. by apply take_task.
Qed.
