(* ===== verification/TcpSocketProperties.v ===== *)
(** * TcpSocketProperties: what the socket of a client promises

    Its status follows the documented cycle, its futures are finished when it has settled,
    it settles, and its signals are paired; with runs that show where the code promises
    less. *)
From S2P Require Import Prelude CString Bytes Url TransportSocketCache Message TcpMessageSocket TcpSocketInvariant TcpSocketSteps TcpSocketSettle.
From S2P Require Import TcpSocketFutures TcpSocketSignals.
Open Scope nat_scope.

(** ** The status *)







(** ** Runs of tasks *)

(** [n] tasks run, and no read leads to another read. *)
Inductive quiet_run : nat -> TcpMessageSocket -> TcpMessageSocket -> Prop :=
  | quiet_nil s : quiet_run 0 s s
  | quiet_cons n s k t error more s1 s' : tasks s !! k = Some t -> reads_on s t error more = false ->
      step (RunTask k error more) s = Some s1 -> quiet_run n s1 s' -> quiet_run (S n) s s'.

Lemma quiet_measure n s s' : client_inv s -> quiet_run n s s' -> n + measure s' <= measure s.
Proof.
  intros I H. revert I. induction H as [s|n s k t error more s1 s' Ht Hr H _ IH]; intros I; [done|].
  assert (client_inv s1) as I1 by (eapply client_inv_step; [done| |done]; done). specialize (IH I1). cbn [step] in H.
  rewrite Ht in H. cbn in H. pose proof (measure_run s t error more (take k (tasks s) ++ drop (S k) (tasks s)) s1 I) as Hm.
  rewrite <- (take_task _ _ _ Ht) in Hm. specialize (Hm (reflexivity _) H Hr). lia.
Qed.

Lemma run_task_tasks t error more l s : run_task t error more s = None <-> run_task t error more (set_tasks l s) = None.
Proof. destruct t; cbn; repeat case_match; try done; unfold finished in *; cbn in *; congruence. Qed.

(** A task that does not wait can run, and is not followed by a read. *)
Lemma waits_or_runs s t : waits s t \/ exists error more, run_task t error more s <> None /\ reads_on s t error more = false.
Proof.
  destruct (run_task t true true s) eqn:E.
  - destruct t as [i|i|p|p|j|j|j|j|socket p|d|d|d|p|src dst|i|i]; try (right; exists true, true; split; [congruence|done]).
    destruct (connecteds s !! j) as [k|] eqn:Ek; [destruct (k_shuttingdown k) eqn:Hk|].
    + right. exists true, true. split; [congruence|]. cbn. by rewrite Ek, Hk.
    + left. right. by exists j, k.
    + right. exists true, true. split; [congruence|]. cbn. by rewrite Ek.
  - left. left. intros error more. destruct t; cbn in *; repeat case_match; congruence.
Qed.

Lemma settled_dec s : settled s \/ exists k t error more, tasks s !! k = Some t /\ run_task t error more s <> None /\ reads_on s t error more = false.
Proof.
  unfold settled. assert (forall l, Forall (waits s) l \/ exists k t error more, l !! k = Some t /\ run_task t error more s <> None /\
    reads_on s t error more = false) as H; [|apply H].
  induction l as [|t l IH]; [by left|]. destruct (waits_or_runs s t) as [Hw|(error & more & Hr)]; [|right; by exists 0, t, error, more].
  destruct IH as [IH|(k & u & error & more & Hk & Hr)]; [left; by constructor|right; by exists (S k), u, error, more].
Qed.

Lemma settles_inv s : client_inv s -> exists n s', quiet_run n s s' /\ settled s'.
Proof.
  remember (measure s) as m eqn:Em. revert s Em. induction (lt_wf m) as [m _ IH]. intros s -> I.
  destruct (settled_dec s) as [Hs|(k & t & error & more & Hk & Hn & Hr)]; [exists 0, s; by split; [constructor|]|].
  rewrite (run_task_tasks t error more (take k (tasks s) ++ drop (S k) (tasks s))) in Hn.
  destruct (run_task t error more (set_tasks _ s)) as [s1|] eqn:E; [|done].
  assert (step (RunTask k error more) s = Some s1) as E1 by (cbn [step]; by rewrite Hk).
  assert (quiet_run 1 s s1) as Hq by (eapply quiet_cons; [done|done|done|constructor]).
  assert (client_inv s1) as I1 by (eapply client_inv_step; [done| |done]; done).
  destruct (IH (measure s1)) with (s := s1) as (n & s' & H & Hs'); [|done|done|].
  - pose proof (quiet_measure _ _ _ I Hq). lia.
  - exists (S n), s'. split; [|done]. by eapply quiet_cons.
Qed.

(** From every state that a client reaches, the tasks come to an end: at most
    [measure s] of them run when no read leads to another one, and some run ends in a
    state in which each task that is left waits for data or for a future. *)
Theorem socket_settles s : client_reachable s ->
  (forall n s', quiet_run n s s' -> n <= measure s) /\ exists n s', quiet_run n s s' /\ settled s'.
Proof.
  intros I%client_reachable_inv. split; [|by apply settles_inv]. intros n s' H. pose proof (quiet_measure _ _ _ I H). lia.
Qed.

(** ** Futures *)








Lemma reachable_signals s : client_reachable s -> signals_inv s.
Proof.
  induction 1 as [|s e s' H IH He Hs]; [split; [done|intros p Hp; by apply elem_of_nil in Hp]|].
  eapply signals_step; [by apply client_reachable_inv|done|done|done].
Qed.


(** ** Signals *)

Lemma settled_signals s : client_inv s -> signals_inv s -> settled s ->
  count_signal Signal_connected (signals s) =
  count_signal Signal_disconnected (signals s) + match getStatus s with Status_Connected => 1 | _ => 0 end.
Proof.
  intros I [B _] Hw. unfold settled in Hw. rewrite Forall_forall in Hw. pose proof (inv_unlocked _ I) as Hl.
  assert (forall t, t ∈ tasks s -> (forall j, t <> TReceive j) -> run_task t true true s = None) as Hno.
  { intros t Ht Hn. destruct (Hw _ Ht) as [H|(j & k & -> & _)]; [done|by destruct (Hn j)]. }
  unfold balanced in B. rewrite (sum_eq emits_connected (fun _ => 0)), (sum_eq (emits_disconnected s) (fun _ => 0)) in B.
  - assert (forall l, sum_list_with (fun _ : task => 0) l = 0) as E0 by (intros l; by induction l). rewrite !E0 in B.
    assert (live s = match getStatus s with Status_Connected => 1 | _ => 0 end) as <-; [|lia]. unfold live, getStatus.
    destruct (inv_tasks _ I) as (m & mp & side & Pt & Hph & _). destruct (_state s) eqn:Est; try done. exfalso.
    inversion Hph; subst; try congruence.
    + pose proof (Hno (TClose d0) ltac:(rewrite Pt; by left) ltac:(done)) as H9. cbn in H9. by simplify_option_eq.
    + pose proof (Hno (TDisconnectComplete d0) ltac:(rewrite Pt; by left) ltac:(done)) as H9. cbn in H9. by rewrite Hl in H9.
  - intros t Ht. destruct t; try done. pose proof (Hno _ Ht ltac:(done)) as H9. cbn in H9. destruct (task_disconnecting _ _ I Ht) as [x Hx]. by rewrite Hx in H9.
  - intros t Ht. destruct t; try done. by pose proof (Hno _ Ht ltac:(done)) as H9.
Qed.

(** A client never emits [disconnected] more often than [connected]; when it has
    settled, it has emitted both as often, or [connected] once more if it is connected. *)
Theorem socket_signals_paired s : client_reachable s ->
  count_signal Signal_disconnected (signals s) <= count_signal Signal_connected (signals s) /\
  (settled s -> count_signal Signal_connected (signals s) =
    count_signal Signal_disconnected (signals s) + match getStatus s with Status_Connected => 1 | _ => 0 end).
Proof.
  intros R. pose proof (client_reachable_inv _ R) as I. pose proof (reachable_signals _ R) as HI. split; [|by apply settled_signals].
  destruct HI as [B H]. pose proof (pending_le s I H). unfold balanced in B. lia.
Qed.

(** ** Received messages *)

Lemma handleMessage_capability {Capabilities} (value_of : Message -> option Capabilities) received msg :
  type (_header msg) = Type_Capability ->
  handleMessage value_of received msg = mkHandled (value_of msg) false (bool_decide (is_Some (value_of msg))).
Proof.
  intros E. unfold handleMessage. rewrite E. replace (Type_Capability =? Type_Capability)%Z with true by reflexivity. rewrite orb_true_r.
  replace (Type_Capability =? Type_Error)%Z with false by reflexivity. by destruct (value_of msg).
Qed.

(** An error that answers the authentication stops the reading. *)
Lemma handleMessage_authentication_error {Capabilities} (value_of : Message -> option Capabilities) msg :
  type (_header msg) = Type_Error -> service (_header msg) = Service_Server -> action (_header msg) = ServerFunction_Authenticate ->
  handleMessage value_of false msg = mkHandled None false false.
Proof. intros E1 E2 E3. unfold handleMessage, mustTreatAsServerAuthentication. by rewrite E1, E2, E3. Qed.

(** ** Runs *)

Definition exec_events (es : list event) (s : TcpMessageSocket) : option TcpMessageSocket := foldl (fun o e => o ≫= step e) (Some s) es.

Lemma exec_reachable es s s' : client_reachable s -> Forall client_event es -> exec_events es s = Some s' -> client_reachable s'.
Proof.
  unfold exec_events. revert s. induction es as [|e es IH]; intros s R He H; cbn in H; [by simplify_eq|]. apply Forall_cons in He as [He1 He].
  destruct (step e s) as [s1|] eqn:E; [|exfalso; clear -H; by induction es]. apply (IH s1); [by eapply client_step|done|done].
Qed.

Definition some_url : UrlPrivate := Url_new (lit "tcp://10.0.0.1:9559").
Definition succeeds (k : nat) : event := RunTask k false true.
Definition fails (k : nat) : event := RunTask k true true.

(** What a run leaves: the status, the promises, the signals, the tasks and whether it
    failed. *)
Definition outcome (o : option TcpMessageSocket) : option (Status * list promise_status * list signal * list task * bool) :=
  (fun s => (getStatus s, promises s, signals s, tasks s, failed s)) <$> o.

(** A connection, and a request to disconnect: promises 0 and 3 are returned. *)
Definition connected_run : list event := [Connect some_url; succeeds 0; succeeds 0; succeeds 1; succeeds 1].
Definition closing_run : list event := connected_run ++ [Disconnect; succeeds 1; fails 0; succeeds 0; succeeds 0; succeeds 0].

Definition connected_socket : TcpMessageSocket := default Socket_client (exec_events connected_run Socket_client).

Lemma connected_reachable : client_reachable connected_socket.
Proof. apply (exec_reachable connected_run Socket_client); [constructor|by repeat constructor|by vm_compute]. Qed.

Example connect_disconnect :
  outcome (exec_events (closing_run ++ [succeeds 0; succeeds 0; succeeds 0]) Socket_client) =
    Some (Status_Disconnected, [HasValue; Running; Running; HasValue; HasValue],
      [Signal_connected; Signal_disconnected; Signal_socketEvent], [], false).
Proof. by vm_compute. Qed.

(** A request that comes when the result of the connected state has been copied is lost:
    its promise 3 is not set when nothing is left to run. *)
Example disconnect_lost :
  outcome (exec_events (connected_run ++ [fails 0; succeeds 0; Disconnect; succeeds 0; succeeds 0; succeeds 0; succeeds 0; succeeds 0; succeeds 0]) Socket_client) =
    Some (Status_Disconnected, [HasValue; Running; HasValue; Running; HasValue], [Signal_connected; Signal_disconnected; Signal_socketEvent], [], false).
Proof. by vm_compute. Qed.

(** The future that [disconnect] returns while the socket is disconnecting, promise 4 here,
    is finished before the socket is disconnected and before the signals. *)
Example disconnect_early :
  (fst <$> (doDisconnect <$> exec_events (connected_run ++ [Disconnect; succeeds 1; fails 0; succeeds 0; succeeds 0; succeeds 0]) Socket_client)) = Some 4 /\
  outcome (exec_events closing_run Socket_client) =
    Some (Status_Disconnecting, [HasValue; Running; Running; Running; HasValue], [Signal_connected], [TDisconnectComplete 0], false).
Proof. by vm_compute. Qed.

(** The socket of a server without TLS that is asked to disconnect before it reads goes on
    to read, and promise 1 is never set. *)
Example server_disconnect_ignored :
  outcome (exec_events [Disconnect; EnsureReading; succeeds 0; succeeds 0] (Socket_server false)) =
    Some (Status_Connected, [Running; Running; Running], [Signal_connected], [TReceive 0], false).
Proof. by vm_compute. Qed.

Example server_reads :
  outcome (exec_events [EnsureReading; succeeds 0; succeeds 0; succeeds 0] (Socket_server true)) =
    Some (Status_Connected, [Running; Running], [Signal_connected], [TReceive 0], false) /\
  outcome (exec_events [EnsureReading; fails 0; succeeds 0; succeeds 0; succeeds 0; succeeds 0; succeeds 0] (Socket_server true)) =
    Some (Status_Disconnected, [HasValue; HasValue], [Signal_socketEvent], [], false).
Proof. by vm_compute. Qed.

(** [ensureReading] on the socket of a client enters the connected state too, and the
    assertion of the continuation of [connect] fails. *)
Example client_ensure_reading :
  failed <$> exec_events [Connect some_url; EnsureReading; succeeds 0; succeeds 0; succeeds 1; succeeds 0] Socket_client = Some true.
Proof. by vm_compute. Qed.


Definition closed_socket : TcpMessageSocket := default Socket_client (exec_events (closing_run ++ [succeeds 0; succeeds 0; succeeds 0]) Socket_client).



Lemma closed_settled : settled closed_socket.
Proof. assert (tasks closed_socket = []) as E by (by vm_compute). unfold settled. rewrite E. constructor. Qed.

Lemma closed_reachable : client_reachable closed_socket.
Proof. apply (exec_reachable (closing_run ++ [succeeds 0; succeeds 0; succeeds 0]) Socket_client); [constructor|by repeat constructor|by vm_compute]. Qed.

(** ** Witnesses *)


Lemma socket_settles_witness : (forall n s', quiet_run n connected_socket s' -> n <= measure connected_socket) /\
  exists n s', quiet_run n connected_socket s' /\ settled s'.
Proof. apply (socket_settles connected_socket connected_reachable). Defined.


Lemma socket_signals_paired_witness : count_signal Signal_connected (signals closed_socket) = count_signal Signal_disconnected (signals closed_socket).
Proof. rewrite (proj2 (socket_signals_paired closed_socket closed_reachable) closed_settled). by vm_compute. Defined.
