(* ===== verification/BoundCalls.v ===== *)
(** * BoundCalls: the calls that bound objects answer

    Model of the part of [src/messaging/boundobject.cpp] that follows a call from its
    message to its answer: the table of calls that can be cancelled, [cancelCall],
    [serverResultAdapter] and [serverResultAdapterNext]. The futures of the calls and the
    futures that calls return are in tables; a continuation is a task, which runs at any
    time when its future is finished. *)
From S2P Require Import Prelude.
Open Scope nat_scope.

(** ** The data *)

Inductive fut (A : Type) := FRunning | FError | FCanceled | FValue (a : A).
Arguments FRunning {A}.
Arguments FError {A}.
Arguments FCanceled {A}.
Arguments FValue {A} a.

Definition isFinished {A} (f : fut A) : bool := match f with FRunning => false | _ => true end.

(** What a call returns: a value, which may not convert to the signature that is sent, a
    future that is not valid, or a future. *)
Inductive call_value := Plain (converts : bool) | InvalidInner | Inner (g : nat).

Definition Socket := nat.
Definition ObjectPtr := nat.
Definition MessageId := Z.
Definition call_key : Type := ObjectPtr * Socket * MessageId.

Record Call := mkCall {
  call_at : call_key;
  call_future : fut call_value;
  cancelRequested : nat;
  (** how often a cancellation found the call, for the theorems *)
  cancel_found : nat;
}.

(** The message that ends a call; none when the socket is not connected. *)
Inductive answer := AReply | AError | ACanceled | ADropped.

Inductive task :=
  | TAdapter (c : nat)
  | TAdapterCancel (c g : nat)
  | TNext (c g : nat)
  | TCancel (c : nat)
  | TCancelInner (c g : nat).

Record Calls := mkCalls {
  calls : list Call;
  inners : list (fut bool);
  cancelables : gmap call_key nat;
  connected : gset Socket;
  answers : list (nat * answer);
  inner_cancels : list nat;
  tasks : list task;
}.

Definition Calls_new (sockets : gset Socket) : Calls := mkCalls [] [] ∅ sockets [] [] [].

Definition set_call (c : nat) (x : Call) (w : Calls) : Calls :=
  mkCalls (<[c := x]> (calls w)) (inners w) (cancelables w) (connected w) (answers w) (inner_cancels w) (tasks w).
Definition set_cancelables (m : gmap call_key nat) (w : Calls) : Calls :=
  mkCalls (calls w) (inners w) m (connected w) (answers w) (inner_cancels w) (tasks w).
Definition add_answer (c : nat) (a : answer) (w : Calls) : Calls :=
  mkCalls (calls w) (inners w) (cancelables w) (connected w) (answers w ++ [(c, a)]) (inner_cancels w) (tasks w).
Definition add_inner_cancel (c : nat) (w : Calls) : Calls :=
  mkCalls (calls w) (inners w) (cancelables w) (connected w) (answers w) (inner_cancels w ++ [c]) (tasks w).
Definition set_tasks (l : list task) (w : Calls) : Calls :=
  mkCalls (calls w) (inners w) (cancelables w) (connected w) (answers w) (inner_cancels w) l.
Definition post (t : task) (w : Calls) : Calls := set_tasks (tasks w ++ [t]) w.

Definition _removeCachedFuture (k : call_key) (w : Calls) : Calls := set_cancelables (delete k (cancelables w)) w.

Definition isConnected (w : Calls) (s : Socket) : bool := bool_decide (s ∈ connected w).

(** [socket->send], and the end of the call. *)
Definition send_answer (c : nat) (s : Socket) (a : answer) (w : Calls) : Calls :=
  add_answer c (if isConnected w s then a else ADropped) w.

Section calls.
(** Whether both ends of the socket know cancelled calls. *)
Variable remoteCancelableCalls : Socket -> bool.

(** ** The adapters *)

(** [serverResultAdapter], when the future of the call is finished. *)
Definition serverResultAdapter (c : nat) (w : Calls) : Calls :=
  match calls w !! c with
  | None => w
  | Some x =>
      let s := snd (fst (call_at x)) in
      if negb (isConnected w s) then add_answer c ADropped (_removeCachedFuture (call_at x) w)
      else
        match call_future x with
        | FRunning => w
        | FError => send_answer c s AError (_removeCachedFuture (call_at x) w)
        | FCanceled => send_answer c s ACanceled (_removeCachedFuture (call_at x) w)
        | FValue (Plain converts) => send_answer c s (if converts then AReply else AError) (_removeCachedFuture (call_at x) w)
        | FValue InvalidInner => send_answer c s AError (_removeCachedFuture (call_at x) w)
        | FValue (Inner g) => post (TAdapterCancel c g) (post (TNext c g) w)
        end
  end.

(** It takes one of the cancellations that were asked for. *)
Definition take_cancel (c : nat) (w : Calls) : option Calls :=
  match calls w !! c with
  | Some x =>
      match cancelRequested x with
      | S n => Some (set_call c (mkCall (call_at x) (call_future x) n (cancel_found x)) w)
      | O => None
      end
  | None => None
  end.

Definition serverResultAdapter_cancel (c : nat) (w : Calls) : Calls :=
  match take_cancel c w with Some w' => add_inner_cancel c w' | None => w end.

(** [serverResultAdapterNext], when the future that the call returned is finished. *)
Definition serverResultAdapterNext (c : nat) (res : fut bool) (w : Calls) : Calls :=
  match calls w !! c with
  | None => w
  | Some x =>
      let s := snd (fst (call_at x)) in
      let w := _removeCachedFuture (call_at x) w in
      if negb (isConnected w s) then add_answer c ADropped w
      else
        send_answer c s
          match res with
          | FError => AError
          | FCanceled => if remoteCancelableCalls s then ACanceled else AError
          | FValue converts => if converts then AReply else AError
          | FRunning => AError
          end w
  end.

(** ** The calls *)

(** A call begins: its future is [st]. *)
Definition start_call (k : call_key) (st : fut call_value) (w : Calls) : Calls :=
  let c := length (calls w) in
  post (TAdapter c)
    (mkCalls (calls w ++ [mkCall k st 0 0]) (inners w) (<[k := c]> (cancelables w)) (connected w) (answers w) (inner_cancels w) (tasks w)).

(** A call that ends with an exception: a future in error for the adapter. [kit] is whether
    the adapter knows the table. *)
Definition refuse_call (k : call_key) (kit : bool) (w : Calls) : Calls :=
  let c := length (calls w) in
  let w := mkCalls (calls w ++ [mkCall k FError 0 0]) (inners w) (cancelables w) (connected w) (answers w) (inner_cancels w) (tasks w) in
  let w := if kit then _removeCachedFuture k w else w in
  send_answer c (snd (fst k)) AError w.

(** [cancelCall], up to the cancellation of the future of the call. *)
Definition cancelCall (k : call_key) (w : Calls) : Calls :=
  match cancelables w !! k with
  | None => w
  | Some c =>
      match calls w !! c with
      | None => w
      | Some x => post (TCancel c) (set_call c (mkCall (call_at x) (call_future x) (S (cancelRequested x)) (S (cancel_found x))) w)
      end
  end.

(** The rest of [cancelCall]. *)
Definition cancelCall_end (c : nat) (w : Calls) : Calls :=
  match calls w !! c with
  | None => w
  | Some x =>
      match call_future x with
      | FValue v =>
          let w := _removeCachedFuture (call_at x) w in
          match v with
          | Inner g => match take_cancel c w with Some w' => post (TCancelInner c g) w' | None => w end
          | InvalidInner => default w (take_cancel c w)
          | Plain _ => w
          end
      | _ => w
      end
  end.

(** [removeCancelables] *)
Definition removeCancelables (o : ObjectPtr) (s : Socket) (w : Calls) : bool * Calls :=
  (bool_decide (map_Exists (fun k _ => fst k = (o, s)) (cancelables w)),
   set_cancelables (filter (fun p => fst (fst p) <> (o, s)) (cancelables w)) w).

(** ** Steps *)

Inductive event :=
  | Start (k : call_key) (st : fut call_value)
  | Refuse (k : call_key) (kit : bool)
  | Cancel (k : call_key)
  | Unbind (o : ObjectPtr) (s : Socket)
  | NewInner
  | FinishCall (c : nat) (st : fut call_value)
  | FinishInner (g : nat) (st : fut bool)
  | LoseSocket (s : Socket)
  | RunTask (n : nat).

(** A call returns a future that exists. *)
Definition value_ok (w : Calls) (st : fut call_value) : bool :=
  match st with FValue (Inner g) => g <? length (inners w) | _ => true end.

Definition run_task (t : task) (w : Calls) : option Calls :=
  match t with
  | TAdapter c =>
      match calls w !! c with
      | Some x => if isFinished (call_future x) then Some (serverResultAdapter c w) else None
      | None => None
      end
  | TAdapterCancel c _ => Some (serverResultAdapter_cancel c w)
  | TNext c g =>
      match inners w !! g with
      | Some st => if isFinished st then Some (serverResultAdapterNext c st w) else None
      | None => None
      end
  | TCancel c => Some (cancelCall_end c w)
  | TCancelInner c _ => Some (add_inner_cancel c w)
  end.

Definition step (e : event) (w : Calls) : option Calls :=
  match e with
  | Start k st => if value_ok w st then Some (start_call k st w) else None
  | Refuse k kit => Some (refuse_call k kit w)
  | Cancel k => Some (cancelCall k w)
  | Unbind o s => Some (snd (removeCancelables o s w))
  | NewInner => Some (mkCalls (calls w) (inners w ++ [FRunning]) (cancelables w) (connected w) (answers w) (inner_cancels w) (tasks w))
  | FinishCall c st =>
      match calls w !! c with
      | Some x =>
          if negb (isFinished (call_future x)) && isFinished st && value_ok w st
          then Some (set_call c (mkCall (call_at x) st (cancelRequested x) (cancel_found x)) w) else None
      | None => None
      end
  | FinishInner g st =>
      match inners w !! g with
      | Some FRunning =>
          if isFinished st
          then Some (mkCalls (calls w) (<[g := st]> (inners w)) (cancelables w) (connected w) (answers w) (inner_cancels w) (tasks w)) else None
      | _ => None
      end
  | LoseSocket s => Some (mkCalls (calls w) (inners w) (cancelables w) (connected w ∖ {[s]}) (answers w) (inner_cancels w) (tasks w))
  | RunTask n =>
      t ← tasks w !! n;
      run_task t (set_tasks (take n (tasks w) ++ drop (S n) (tasks w)) w)
  end.

Inductive reachable (sockets : gset Socket) : Calls -> Prop :=
  | reachable_new : reachable sockets (Calls_new sockets)
  | reachable_step w e w' : reachable sockets w -> step e w = Some w' -> reachable sockets w'.

End calls.

(** ** The invariant *)

(** The task will end the call. *)
Definition ends (c : nat) (t : task) : nat := match t with TAdapter c' | TNext c' _ => if decide (c' = c) then 1 else 0 | _ => 0 end.
(** The task will cancel the future that the call returned. *)
Definition cancels (c : nat) (t : task) : nat := match t with TCancelInner c' _ => if decide (c' = c) then 1 else 0 | _ => 0 end.
(** The task looks at the cancellations that were asked for. *)
Definition looks (c : nat) (t : task) : nat := match t with TAdapter c' | TAdapterCancel c' _ | TCancel c' => if decide (c' = c) then 1 else 0 | _ => 0 end.

Definition count_answers (c : nat) (l : list (nat * answer)) : nat := sum_list_with (fun e => if decide (fst e = c) then 1 else 0) l.
Definition count_cancels (c : nat) (l : list nat) : nat := sum_list_with (fun c' => if decide (c' = c) then 1 else 0) l.

Definition task_ok (w : Calls) (t : task) : Prop :=
  match t with
  | TAdapter c | TCancel c => c < length (calls w)
  | TAdapterCancel c g | TNext c g | TCancelInner c g =>
      g < length (inners w) /\ exists x, calls w !! c = Some x /\ call_future x = FValue (Inner g)
  end.

Definition socket_of (x : Call) : Socket := snd (fst (call_at x)).

(** The call returned a future and its socket is connected. *)
Definition followed (w : Calls) (x : Call) : Prop :=
  socket_of x ∈ connected w /\ exists g, call_future x = FValue (Inner g).

Record calls_inv (w : Calls) : Prop := {
  inv_tasks : Forall (task_ok w) (tasks w);
  inv_ends c : count_answers c (answers w) + sum_list_with (ends c) (tasks w) = if decide (c < length (calls w)) then 1 else 0;
  inv_running c x : calls w !! c = Some x -> isFinished (call_future x) = false -> TAdapter c ∈ tasks w;
  inv_value c x : calls w !! c = Some x -> value_ok w (call_future x) = true;
  inv_table k c : cancelables w !! k = Some c ->
    (exists x, calls w !! c = Some x /\ call_at x = k) /\ sum_list_with (ends c) (tasks w) = 1;
  inv_known : Forall (fun c => c < length (calls w)) (inner_cancels w);
  inv_count c x : calls w !! c = Some x ->
    cancelRequested x + count_cancels c (inner_cancels w) + sum_list_with (cancels c) (tasks w) <= cancel_found x;
  inv_taken c x g : calls w !! c = Some x -> call_future x = FValue (Inner g) \/ isFinished (call_future x) = false ->
    cancelRequested x + count_cancels c (inner_cancels w) + sum_list_with (cancels c) (tasks w) = cancel_found x;
  inv_honoured c x : calls w !! c = Some x -> 0 < cancel_found x -> followed w x ->
    0 < count_cancels c (inner_cancels w) + sum_list_with (cancels c) (tasks w) \/ 0 < sum_list_with (looks c) (tasks w);
}.

(** ** Lemmas *)

Arguments count_answers : simpl never.
Arguments count_cancels : simpl never.

Lemma count_answers_app c l l' : count_answers c (l ++ l') = count_answers c l + count_answers c l'.
Proof. apply sum_list_with_app. Qed.

Lemma count_answers_one c c' a : count_answers c [(c', a)] = if decide (c' = c) then 1 else 0.
Proof. unfold count_answers. cbn. lia. Qed.

Lemma count_cancels_one c c' : count_cancels c [c'] = if decide (c' = c) then 1 else 0.
Proof. unfold count_cancels. cbn. lia. Qed.

Lemma count_cancels_app c l l' : count_cancels c (l ++ l') = count_cancels c l + count_cancels c l'.
Proof. apply sum_list_with_app. Qed.

Lemma sum_pos {A} (f : A -> nat) l x : x ∈ l -> f x <= sum_list_with f l.
Proof. apply sum_list_with_in. Qed.

(** Calls and the futures that they return only grow, and a future that is finished stays. *)
Record calls_grow (w w' : Calls) : Prop := {
  grow_calls c x : calls w !! c = Some x -> exists x', calls w' !! c = Some x' /\ call_at x' = call_at x /\
    (isFinished (call_future x) = true -> call_future x' = call_future x);
  grow_inners : length (inners w) <= length (inners w');
}.

#[export] Instance calls_grow_preorder : PreOrder calls_grow.
Proof.
  split; [intros w; split; [intros c x E; by exists x|done]|].
  intros w1 w2 w3 [A1 A2] [B1 B2]. split; [|lia]. intros c x E. destruct (A1 _ _ E) as (y & Ey & Hy & Fy). destruct (B1 _ _ Ey) as (z & Ez & Hz & Fz).
  exists z. split; [done|]. split; [congruence|]. intros H. rewrite Fz; [by apply Fy|]. by rewrite Fy.
Qed.

Lemma task_ok_grow w w' t : calls_grow w w' -> task_ok w t -> task_ok w' t.
Proof.
  intros [G1 G2]. assert (forall c, c < length (calls w) -> c < length (calls w')) as Hl.
  { intros c [x Hx]%lookup_lt_is_Some. destruct (G1 _ _ Hx) as (x' & Hx' & _). by eapply lookup_lt_Some. }
  assert (forall c g, g < length (inners w) /\ (exists x, calls w !! c = Some x /\ call_future x = FValue (Inner g)) ->
    g < length (inners w') /\ exists x, calls w' !! c = Some x /\ call_future x = FValue (Inner g)) as Hg.
  { intros c g (H1 & x & Hx & Hf). split; [lia|]. destruct (G1 _ _ Hx) as (x' & Hx' & _ & Hf'). exists x'. split; [done|]. rewrite Hf'; [done|by rewrite Hf]. }
  destruct t; cbn; auto.
Qed.

Lemma tasks_ok_grow w w' l : calls_grow w w' -> Forall (task_ok w) l -> Forall (task_ok w') l.
Proof. intros G H. eapply Forall_impl; [exact H|]. intros t. by apply task_ok_grow. Qed.

Lemma grow_same w w' : calls w' = calls w -> inners w' = inners w -> calls_grow w w'.
Proof. intros E1 E2. split; [intros c x; rewrite E1; eauto|by rewrite E2]. Qed.

(** ** The steps keep the invariant *)

Lemma followed_antitone cs cs' ins ins' m m' conn conn' ans ans' ic ic' ts ts' x : conn' ⊆ conn ->
  followed (mkCalls cs' ins' m' conn' ans' ic' ts') x -> followed (mkCalls cs ins m conn ans ic ts) x.
Proof. intros H [F1 F2]. split; [|exact F2]. cbn in *. set_solver. Qed.

Lemma inv_perm cs ins m conn ans ic ts ts' : ts ≡ₚ ts' ->
  calls_inv (mkCalls cs ins m conn ans ic ts) -> calls_inv (mkCalls cs ins m conn ans ic ts').
Proof.
  intros P [I1 I2 I3 I4 I5 I6 I7 I8 I9]. assert (forall f, sum_list_with f ts' = sum_list_with f ts) as Hs by (intros f; by rewrite P).
  split; cbn in *.
  - apply (tasks_ok_grow (mkCalls cs ins m conn ans ic ts)); [by apply grow_same|]. rewrite Forall_forall in I1 |- *. intros t. rewrite <- P. apply I1.
  - intros c. rewrite Hs. apply I2.
  - intros c x. rewrite <- P. apply I3.
  - exact I4.
  - intros k c Hk. rewrite Hs. by apply I5.
  - exact I6.
  - intros c x Hc. rewrite Hs. by apply I7.
  - intros c x g Hc. rewrite Hs. by apply I8.
  - intros c x Hc. rewrite !Hs. by apply I9.
Qed.

(** Fewer entries of the table, fewer sockets, more futures. *)
Lemma inv_less cs ins ins' m m' conn conn' ans ic ts : m' ⊆ m -> conn' ⊆ conn -> length ins <= length ins' ->
  calls_inv (mkCalls cs ins m conn ans ic ts) -> calls_inv (mkCalls cs ins' m' conn' ans ic ts).
Proof.
  intros Hm Hconn Hins [I1 I2 I3 I4 I5 I6 I7 I8 I9]. split; cbn in *; [| exact I2 | exact I3 | | | exact I6 | exact I7 | exact I8 |].
  - eapply tasks_ok_grow; [|exact I1]. split; cbn; [intros c x E; by exists x|done].
  - intros c x Hc. specialize (I4 _ _ Hc). unfold value_ok in *. destruct (call_future x) as [| | | [b| |g]]; try done. cbn in *.
    apply Nat.ltb_lt in I4. apply Nat.ltb_lt. lia.
  - intros k c Hk. apply I5. by eapply lookup_weaken.
  - intros c x Hc H F. eapply I9; eauto. eapply followed_antitone; eauto.
Qed.

Lemma lookup_snoc {A} (l : list A) x c y : (l ++ [x]) !! c = Some y -> l !! c = Some y \/ c = length l /\ y = x.
Proof. rewrite lookup_app_Some, list_lookup_singleton_Some. intros [H | [H1 [H2 H3]]]; [by left|]. right. split; [lia|done]. Qed.

(** Nothing is known of a call that is not in the table of calls. *)
Lemma inv_fresh w f : calls_inv w -> (forall c t, task_ok w t -> f c t <> 0 -> c < length (calls w)) ->
  sum_list_with (f (length (calls w))) (tasks w) = 0.
Proof.
  intros I Hf. assert (Forall (fun t => f (length (calls w)) t = 0) (tasks w)) as H.
  { eapply Forall_impl; [apply I|]. intros t Ht. destruct (decide (f (length (calls w)) t = 0)) as [E|E]; [done|]. specialize (Hf _ _ Ht E). lia. }
  clear Hf I. induction H as [|t l Ht _ IH]; [done|]. cbn. rewrite Ht, IH. done.
Qed.

Lemma task_ok_call w t c : task_ok w t -> ends c t <> 0 \/ cancels c t <> 0 \/ looks c t <> 0 -> c < length (calls w).
Proof.
  assert (forall g c', g < length (inners w) /\ (exists x, calls w !! c' = Some x /\ call_future x = FValue (Inner g)) -> c' < length (calls w)) as Hg.
  { intros g c' (_ & x & Hx & _). by eapply lookup_lt_Some. }
  destruct t; cbn; intros Ht H; repeat (destruct (decide _) as [E|E] in H; [subst|]); try lia; eauto.
Qed.

(** A call that is new: [ts'] ends it, or its answer [ans'] is there. *)
Lemma unknown_cancels n l : Forall (fun c => c < n) l -> count_cancels n l = 0.
Proof. induction 1 as [|c l Hc _ IH]; [done|]. unfold count_cancels in *. cbn. rewrite IH, decide_False by lia. done. Qed.

Lemma inv_add cs ins m m' conn ans ans' ic ts ts' k st :
  calls_inv (mkCalls cs ins m conn ans ic ts) ->
  value_ok (mkCalls cs ins m conn ans ic ts) st = true ->
  (forall k' c, m' !! k' = Some c -> m !! k' = Some c \/ k' = k /\ c = length cs /\ ts' = [TAdapter (length cs)]) ->
  ans' = [] /\ ts' = [TAdapter (length cs)] \/ (exists a, ans' = [(length cs, a)]) /\ ts' = [] /\ isFinished st = true ->
  calls_inv (mkCalls (cs ++ [mkCall k st 0 0]) ins m' conn (ans ++ ans') ic (ts ++ ts')).
Proof.
  intros I Hst Hm Hnew. set (n := length cs) in *.
  assert (sum_list_with (ends n) ts = 0) as E1 by (apply (inv_fresh _ ends I); intros; eapply task_ok_call; eauto).
  assert (sum_list_with (cancels n) ts = 0) as E2 by (apply (inv_fresh _ cancels I); intros; eapply task_ok_call; eauto).
  assert (forall c, sum_list_with (cancels c) ts' = 0) as E3 by (intros c; destruct Hnew as [[_ ->] | [_ [-> _]]]; done).
  assert (forall c, count_answers c ans' + sum_list_with (ends c) ts' = if decide (c = n) then 1 else 0) as E4.
  { intros c. destruct Hnew as [[-> ->] | [[a ->] [-> _]]]; rewrite ?count_answers_one; cbn; repeat destruct (decide _); subst; try done; lia. }
  assert (forall c, c <> n -> sum_list_with (ends c) ts' = 0) as E5.
  { intros c Hc. specialize (E4 c). destruct (decide (c = n)); [done|lia]. }
  assert (count_cancels n ic = 0) as Hic by (apply unknown_cancels, (inv_known _ I)).
  destruct I as [I1 I2 I3 I4 I5 I6 I7 I8 I9]; cbn in *. split; cbn.
  - apply Forall_app. split.
    + eapply tasks_ok_grow; [|exact I1]. split; cbn; [|done]. intros c x E. exists x. split; [by apply lookup_app_l_Some|done].
    + destruct Hnew as [[_ ->] | [_ [-> _]]]; [|constructor]. constructor; [|constructor]. cbn. rewrite length_app. cbn. fold n. lia.
  - intros c. rewrite count_answers_app, sum_list_with_app, length_app. cbn. specialize (I2 c). specialize (E4 c).
    fold n in I2 |- *. repeat destruct (decide _); lia.
  - intros c x [Hc | [-> ->]]%lookup_snoc Hr; apply elem_of_app; [left; by eapply I3|right].
    destruct Hnew as [[_ ->] | [_ [_ Hf]]]; [by left|]. cbn in Hr. congruence.
  - intros c x [Hc | [-> ->]]%lookup_snoc; [by apply (I4 c)|done].
  - intros k' c Hk. rewrite sum_list_with_app. destruct (Hm _ _ Hk) as [H | (-> & -> & ->)].
    + destruct (I5 _ _ H) as [(x & Hx & Hk') He]. split; [exists x; split; [by apply lookup_app_l_Some|done]|].
      rewrite He, E5; [done|]. apply lookup_lt_Some in Hx. fold n in Hx. lia.
    + split; [eexists; split; [apply list_lookup_middle; done|done]|]. rewrite E1. cbn. by rewrite decide_True.
  - eapply Forall_impl; [exact I6|]. intros c Hc. cbn in *. rewrite length_app. lia.
  - intros c x [Hc | [-> ->]]%lookup_snoc; rewrite sum_list_with_app, E3; [specialize (I7 _ _ Hc); lia|]. fold n. cbn. lia.
  - intros c x g [Hc | [-> ->]]%lookup_snoc H; rewrite sum_list_with_app, E3; [specialize (I8 _ _ _ Hc H); lia|]. fold n. cbn. lia.
  - intros c x [Hc | [-> ->]]%lookup_snoc Hf F; rewrite !sum_list_with_app, E3.
    + destruct (I9 _ _ Hc Hf) as [H|H]; [exact F| |]; lia.
    + cbn in Hf. lia.
Qed.

(** The call of a task. *)
Definition task_call (t : task) : nat :=
  match t with TAdapter c | TAdapterCancel c _ | TNext c _ | TCancel c | TCancelInner c _ => c end.

Lemma other_task c c' l : c' <> c -> Forall (fun t => task_call t = c) l ->
  sum_list_with (ends c') l = 0 /\ sum_list_with (cancels c') l = 0 /\ sum_list_with (looks c') l = 0.
Proof.
  intros Hc. induction 1 as [|t l Ht _ (IH1 & IH2 & IH3)]; [done|]. cbn. rewrite IH1, IH2, IH3.
  destruct t; cbn in *; subst; repeat (rewrite decide_False by done); done.
Qed.

Lemma other_cancels c c' l : c' <> c -> Forall (fun i => i = c) l -> count_cancels c' l = 0.
Proof. intros Hc. induction 1 as [|t l -> _ IH]; [done|]. unfold count_cancels in *. cbn. rewrite IH, decide_False; done. Qed.

Lemma update_lookup {A} (l : list A) c x' c2 y : <[c := x']> l !! c2 = Some y -> (c2 = c /\ y = x') \/ (c2 <> c /\ l !! c2 = Some y).
Proof. intros [(-> & -> & _) | [Hne Hy]]%list_lookup_insert_Some; [by left|by right]. Qed.

(** A step that changes one call, and its tasks: [pre] is done, [ts'] is posted. *)
Section update.
Context (cs : list Call) (ins : list (fut bool)) (m : gmap call_key nat) (conn : gset Socket).
Context (ans : list (nat * answer)) (ic ic' : list nat) (pre ts ts' : list task) (c : nat) (x x' : Call).
Let w := mkCalls cs ins m conn ans ic (pre ++ ts).
Let w' := mkCalls (<[c := x']> cs) ins m conn ans (ic ++ ic') (ts ++ ts').

Record update_ok : Prop := {
  up_call : cs !! c = Some x;
  up_at : call_at x' = call_at x;
  up_future : call_future x' = call_future x \/ isFinished (call_future x) = false;
  up_value : value_ok w (call_future x') = true;
  up_tasks : Forall (task_ok w') ts';
  up_about : Forall (fun t => task_call t = c) (pre ++ ts');
  up_cancels : Forall (fun i => i = c) ic';
  up_ends : sum_list_with (ends c) pre = sum_list_with (ends c) ts';
  up_running : isFinished (call_future x') = false -> TAdapter c ∉ pre;
  up_count : cancelRequested x' + count_cancels c ic' + sum_list_with (cancels c) ts' + cancel_found x <=
    cancelRequested x + sum_list_with (cancels c) pre + cancel_found x';
  up_taken g : call_future x' = FValue (Inner g) \/ isFinished (call_future x') = false ->
    cancelRequested x' + count_cancels c ic' + sum_list_with (cancels c) ts' + cancel_found x =
    cancelRequested x + sum_list_with (cancels c) pre + cancel_found x';
  up_honoured : 0 < cancel_found x' -> followed w' x' ->
    0 < count_cancels c ic + count_cancels c ic' + sum_list_with (cancels c) (ts ++ ts') \/ 0 < sum_list_with (looks c) (ts ++ ts');
}.

Lemma update_grow : cs !! c = Some x -> call_at x' = call_at x -> call_future x' = call_future x \/ isFinished (call_future x) = false ->
  calls_grow w w'.
Proof.
  intros Hc Ha Hf. split; [|done]. cbn. intros c2 y Hy. destruct (decide (c2 = c)) as [->|Hne].
  - rewrite Hc in Hy. injection Hy as <-. exists x'. split; [apply list_lookup_insert_eq; by eapply lookup_lt_Some|]. split; [done|].
    intros Hr. destruct Hf as [Hf|Hf]; [done|congruence].
  - exists y. rewrite list_lookup_insert_ne by done. done.
Qed.

Lemma inv_update : update_ok -> calls_inv w -> calls_inv w'.
Proof.
  intros U I. pose proof (update_grow (up_call U) (up_at U) (up_future U)) as G.
  pose proof (up_about U) as [Hpre Hts]%Forall_app. pose proof (up_call U) as Hc.
  assert (forall c2 : nat, c2 <> c -> forall f, (f = ends \/ f = cancels \/ f = looks) -> sum_list_with (f c2) (ts ++ ts') = sum_list_with (f c2) (pre ++ ts)) as Ho.
  { intros c2 Hne f Hf. rewrite !sum_list_with_app. destruct (other_task _ _ _ Hne Hpre) as (A1 & A2 & A3), (other_task _ _ _ Hne Hts) as (B1 & B2 & B3).
    destruct Hf as [-> | [-> | ->]]; lia. }
  assert (forall c2, sum_list_with (ends c2) (ts ++ ts') = sum_list_with (ends c2) (pre ++ ts)) as He.
  { intros c2. destruct (decide (c2 = c)) as [->|Hne]; [|by apply Ho; auto]. rewrite !sum_list_with_app, (up_ends U). lia. }
  split; cbn.
  - apply Forall_app. split; [|apply U]. eapply tasks_ok_grow; [exact G|]. apply inv_tasks in I. by apply Forall_app in I as [_ I].
  - intros c2. rewrite He, length_insert. apply I.
  - intros c2 y Hy Hr. apply update_lookup in Hy as [[-> ->] | [Hne Hy]].
    + assert (TAdapter c ∈ pre ++ ts) as [H|H]%elem_of_app; [|by destruct (up_running U Hr)|apply elem_of_app; by left].
      apply (inv_running w I c x Hc). destruct (up_future U) as [E|E]; [by rewrite <- E|done].
    + assert (TAdapter c2 ∈ pre ++ ts) as [H|H]%elem_of_app by (apply (inv_running w I c2 y Hy Hr)); [|apply elem_of_app; by left].
      rewrite Forall_forall in Hpre. specialize (Hpre _ H). done.
  - intros c2 y Hy. apply update_lookup in Hy as [[-> ->] | [Hne Hy]]; [apply U|apply (inv_value w I _ _ Hy)].
  - intros k c2 Hk. rewrite He. destruct (inv_table w I _ _ Hk) as [(y & Hy & Hk') Hs]. split; [|exact Hs].
    destruct (grow_calls _ _ G _ _ Hy) as (y' & Hy' & Ha & _). exists y'. split; [done|congruence].
  - apply Forall_app. split.
    + eapply Forall_impl; [apply (inv_known w I)|]. intros c2 H. rewrite length_insert. exact H.
    + eapply Forall_impl; [apply (up_cancels U)|]. intros c2 ->. rewrite length_insert. by eapply lookup_lt_Some.
  - intros c2 y Hy. rewrite count_cancels_app. apply update_lookup in Hy as [[-> ->] | [Hne Hy]].
    + pose proof (inv_count w I _ _ Hc) as H. pose proof (up_count U). cbn in H. rewrite sum_list_with_app in H |- *. lia.
    + pose proof (inv_count w I _ _ Hy) as H. rewrite (Ho _ Hne cancels), (other_cancels _ _ _ Hne (up_cancels U)) by auto. cbn in H. lia.
  - intros c2 y g Hy Hf. rewrite count_cancels_app. apply update_lookup in Hy as [[-> ->] | [Hne Hy]].
    + pose proof (up_taken U g Hf) as H2. assert (call_future x = FValue (Inner g) \/ isFinished (call_future x) = false) as Hf'.
      { destruct (up_future U) as [E|E]; [by rewrite <- E|by right]. }
      pose proof (inv_taken w I _ _ _ Hc Hf') as H. cbn in H. rewrite sum_list_with_app in H |- *. lia.
    + pose proof (inv_taken w I _ _ _ Hy Hf) as H. rewrite (Ho _ Hne cancels), (other_cancels _ _ _ Hne (up_cancels U)) by auto. cbn in H. lia.
  - intros c2 y Hy Hf F. rewrite count_cancels_app. apply update_lookup in Hy as [[-> ->] | [Hne Hy]]; [by apply (up_honoured U)|].
    rewrite (Ho _ Hne cancels), (Ho _ Hne looks), (other_cancels _ _ _ Hne (up_cancels U)), Nat.add_0_r by auto.
    apply (inv_honoured w I _ _ Hy Hf). exact F.
Qed.
End update.

(** The end of a call. *)
Lemma inv_end cs ins m conn ans ic t ts c x a : calls_inv (mkCalls cs ins m conn ans ic (t :: ts)) -> ends c t = 1 ->
  cs !! c = Some x -> isFinished (call_future x) = true ->
  looks c t = 0 \/ (followed (mkCalls cs ins m conn ans ic ts) x -> False) ->
  calls_inv (mkCalls cs ins (delete (call_at x) m) conn (ans ++ [(c, a)]) ic ts).
Proof.
  intros [I1 I2 I3 I4 I5 I6 I7 I8 I9] He Hc Hfin Hl. cbn in *.
  assert (forall c2, c2 <> c -> ends c2 t = 0 /\ looks c2 t = 0) as Ho by (intros c2 Hne; destruct t; cbn in *; repeat destruct (decide _); subst; try done; lia).
  assert (forall c2, cancels c2 t = 0) as Ht by (intros c2; destruct t; done).
  split; cbn; [| | | exact I4 | | exact I6 | | |].
  - inversion I1 as [|? ? _ H]. eapply tasks_ok_grow; [by apply grow_same|exact H].
  - intros c2. rewrite count_answers_app, count_answers_one. specialize (I2 c2). destruct (decide (c2 = c)) as [->|Hne]; [rewrite decide_True by done; lia|].
    destruct (Ho _ Hne). rewrite (decide_False (P := c = c2)) by congruence. lia.
  - intros c2 y Hy Hr. specialize (I3 _ _ Hy Hr). apply elem_of_cons in I3 as [E|E]; [|done]. subst t. cbn in He.
    destruct (decide (c2 = c)) as [->|]; [|lia]. congruence.
  - intros k c2 [Hk Hm]%lookup_delete_Some. destruct (I5 _ _ Hm) as [Hx Hs]. split; [done|]. destruct (decide (c2 = c)) as [->|Hne].
    + destruct Hx as (y & Hy & <-). rewrite Hc in Hy. injection Hy as <-. done.
    + destruct (Ho _ Hne). lia.
  - intros c2 y Hy. specialize (I7 _ _ Hy). rewrite Ht in I7. done.
  - intros c2 y g Hy Hf. specialize (I8 _ _ g Hy Hf). rewrite Ht in I8. done.
  - intros c2 y Hy Hf F. specialize (I9 _ _ Hy Hf F). rewrite Ht in I9. destruct (decide (c2 = c)) as [->|Hne]; [|destruct (Ho _ Hne); lia].
    rewrite Hc in Hy. injection Hy as <-. destruct Hl as [Hl|Hl]; [lia|]. destruct Hl. exact F.
Qed.

(** ** The tasks *)

Definition with_task (t : task) (w : Calls) : Prop := calls_inv (set_tasks (t :: tasks w) w).

Ltac one_count := cbn; rewrite ?count_cancels_one; unfold count_cancels; cbn; rewrite ?decide_True by done; lia.

(** The call of a task that follows the future which the call returned. *)
Lemma task_inner w t c g : with_task t w -> (t = TAdapterCancel c g \/ t = TNext c g \/ t = TCancelInner c g) ->
  g < length (inners w) /\ exists x, calls w !! c = Some x /\ call_future x = FValue (Inner g).
Proof. intros I Ht. pose proof (inv_tasks _ I) as H. cbn in H. inversion H as [|? ? H0 _]. subst. destruct Ht as [-> | [-> | ->]]; exact H0. Qed.

(** A task that only looks at the call [c] is done. *)
Lemma inv_done t c x w : with_task t w -> calls w !! c = Some x -> task_call t = c -> ends c t = 0 -> cancels c t = 0 ->
  (exists g, call_future x = FValue (Inner g) /\ cancelRequested x = 0) \/ (forall g, call_future x <> FValue (Inner g)) ->
  calls_inv w.
Proof.
  intros I Hc Ht He Hk Hn. destruct w as [cs ins m conn ans ic ts]. cbn in *.
  rewrite <- (list_insert_id cs c x Hc), <- (app_nil_r ic), <- (app_nil_r ts).
  apply (inv_update cs ins m conn ans ic [] [t] ts [] c x x); [|exact I]. split; cbn; try done; [by left| | | | | | |].
  - apply (inv_value _ I _ _ Hc).
  - by repeat constructor.
  - lia.
  - intros _ <-%list_elem_of_singleton. cbn in *. rewrite decide_True in He by done. lia.
  - unfold count_cancels. cbn. lia.
  - intros g _. unfold count_cancels. cbn. lia.
  - intros Hf [_ [g Hg]]. left. destruct Hn as [(g' & Hg' & Hr)|Hn]; [|by destruct (Hn g)].
    pose proof (inv_taken _ I _ _ _ Hc (or_introl Hg)) as H. cbn in H. rewrite app_nil_r. unfold count_cancels in *. cbn. lia.
Qed.

Lemma set_tasks_tasks w : set_tasks (tasks w) w = w.
Proof. by destruct w. Qed.

(** A cancellation is taken for the future that the call returned: [t] is done, [l] is posted, [k] is cancelled. *)
Lemma inv_take w w' t l k c x : with_task t w -> calls w !! c = Some x -> take_cancel c w = Some w' ->
  (t = TCancel c /\ k = [] \/ (exists g, t = TAdapterCancel c g) /\ k = [c]) ->
  (exists g, call_future x = FValue (Inner g) /\ g < length (inners w) /\ (l = [TCancelInner c g] /\ k = [] \/ l = [] /\ k = [c])) \/
  call_future x = FValue InvalidInner /\ l = [] /\ k = [] ->
  calls_inv (set_tasks (tasks w ++ l) (mkCalls (calls w') (inners w) (cancelables w) (connected w) (answers w) (inner_cancels w ++ k) (tasks w))).
Proof.
  intros I Hc E Ht Hl. unfold take_cancel in E. rewrite Hc in E. destruct (cancelRequested x) as [|n] eqn:Hn; [done|]. injection E as <-.
  destruct w as [cs ins m conn ans ic ts]. cbn [calls inners cancelables connected answers inner_cancels tasks set_tasks set_call] in *.
  set (x' := mkCall (call_at x) (call_future x) n (cancel_found x)).
  apply (inv_update cs ins m conn ans ic k [t] ts l c x x'); [|exact I].
  assert (looks c t = 1 /\ ends c t = 0 /\ cancels c t = 0 /\ task_call t = c) as (T1 & T2 & T3 & T4).
  { destruct Ht as [[-> _] | [[g ->] _]]; cbn; by rewrite decide_True. }
  assert (count_cancels c k + sum_list_with (cancels c) l <= 1 /\ forall g, call_future x = FValue (Inner g) -> count_cancels c k + sum_list_with (cancels c) l = 1) as [K1 K2].
  { destruct Hl as [(g & Hg & _ & [[-> ->] | [-> ->]]) | (Hg & -> & ->)]; split; try (intros g' ?; congruence); try intros ? _; one_count. }
  split; cbn.
  - done.
  - done.
  - by left.
  - apply (inv_value _ I _ _ Hc).
  - destruct Hl as [(g & Hg & Hlt & [[-> _] | [-> _]]) | (_ & -> & _)]; repeat constructor; [done|]. exists x'. split; [|done].
    apply list_lookup_insert_eq. by eapply lookup_lt_Some.
  - constructor; [done|]. destruct Hl as [(g & _ & _ & [[-> _] | [-> _]]) | (_ & -> & _)]; by repeat constructor.
  - destruct Ht as [[_ ->] | [_ ->]]; by repeat constructor.
  - destruct Hl as [(g & _ & _ & [[-> _] | [-> _]]) | (_ & -> & _)]; cbn; lia.
  - intros _ <-%list_elem_of_singleton. cbn in T2. rewrite decide_True in T2 by done. lia.
  - lia.
  - intros g [Hg|Hg]; [specialize (K2 _ Hg); lia|]. destruct Hl as [(g' & Hg' & _) | (Hg' & _)]; by rewrite Hg' in Hg.
  - intros _ [_ [g Hg]]. left. rewrite sum_list_with_app. cbn in Hg. specialize (K2 _ Hg). lia.
Qed.

Section steps.
Variable remoteCancelableCalls : Socket -> bool.

Lemma adapter_inv w c x : with_task (TAdapter c) w -> calls w !! c = Some x -> isFinished (call_future x) = true ->
  calls_inv (serverResultAdapter c w).
Proof.
  intros I Hc Hf. destruct w as [cs ins m conn ans ic ts]. cbn in I, Hc. unfold serverResultAdapter. cbn [calls]. rewrite Hc.
  assert (forall a, (followed (mkCalls cs ins m conn ans ic ts) x -> False) -> calls_inv (mkCalls cs ins (delete (call_at x) m) conn (ans ++ [(c, a)]) ic ts)) as Hend.
  { intros a Hn. eapply inv_end; [exact I| |exact Hc|exact Hf|by right]. cbn. by rewrite decide_True. }
  unfold isConnected. cbn [connected]. destruct (bool_decide (snd (fst (call_at x)) ∈ conn)) eqn:Ec; cbn [negb].
  - destruct (call_future x) as [| | |[b| |g]] eqn:Ex; [done|..]; unfold send_answer; try (apply Hend; intros [_ [g Hg]]; congruence).
    unfold post, set_tasks. cbn. rewrite <- (list_insert_id cs c x Hc), <- (app_nil_r ic), <- app_assoc.
    apply (inv_update cs ins m conn ans ic [] [TAdapter c] ts [TNext c g; TAdapterCancel c g] c x x); [|exact I].
    assert (g < length ins) as Hg. { pose proof (inv_value _ I _ _ Hc) as H. rewrite Ex in H. by apply Nat.ltb_lt in H. }
    assert (<[c:=x]> cs !! c = Some x) as Hc' by (by rewrite list_insert_id).
    split; cbn; rewrite ?Ex.
    + done.
    + done.
    + by left.
    + by apply Nat.ltb_lt.
    + repeat constructor; cbn; try done; exists x; done.
    + by repeat constructor.
    + constructor.
    + done.
    + done.
    + one_count.
    + intros _ _. one_count.
    + intros _ _. right. rewrite sum_list_with_app. cbn. rewrite decide_True by done. lia.
  - apply Hend. intros [F _]. apply bool_decide_eq_false in Ec. done.
Qed.

Lemma adapter_cancel_inv w c g : with_task (TAdapterCancel c g) w -> calls_inv (serverResultAdapter_cancel c w).
Proof.
  intros I. destruct (task_inner _ _ c g I) as (Hg & x & Hc & Hx); [by left|]. unfold serverResultAdapter_cancel.
  destruct (take_cancel c w) as [w'|] eqn:E.
  - pose proof (inv_take w w' _ [] [c] c x I Hc E) as H. rewrite app_nil_r in H. unfold take_cancel in E. rewrite Hc in E.
    destruct (cancelRequested x); [done|]. injection E as <-. destruct w. cbn in *. apply H; [right; eauto|left; eauto 6].
  - unfold take_cancel in E. rewrite Hc in E. destruct (cancelRequested x) eqn:Hn; [|done].
    eapply inv_done; eauto.
Qed.

Lemma next_inv w c g st : with_task (TNext c g) w -> calls_inv (serverResultAdapterNext remoteCancelableCalls c st w).
Proof.
  intros I. destruct (task_inner _ _ c g I) as (Hg & x & Hc & Hx); [by right; left|]. destruct w as [cs ins m conn ans ic ts]. cbn in I, Hc.
  unfold serverResultAdapterNext. cbn [calls]. rewrite Hc.
  assert (forall a, calls_inv (mkCalls cs ins (delete (call_at x) m) conn (ans ++ [(c, a)]) ic ts)) as H.
  { intros a. eapply inv_end; [exact I| |exact Hc|by rewrite Hx|by left]. cbn. by rewrite decide_True. }
  unfold send_answer. destruct (negb _); apply H.
Qed.

Lemma cancel_end_inv w c : with_task (TCancel c) w -> calls_inv (cancelCall_end c w).
Proof.
  intros I. unfold cancelCall_end. destruct (calls w !! c) as [x|] eqn:Hc.
  2: { pose proof (inv_tasks _ I) as H. cbn in H. inversion H as [|? ? H0 _]. subst. cbn in H0. apply lookup_ge_None in Hc. lia. }
  assert ((forall g, call_future x <> FValue (Inner g)) -> calls_inv w) as Hdone by (intros Hn; eapply inv_done; eauto).
  destruct (call_future x) as [| | |v] eqn:Ex; try (apply Hdone; done).
  assert (with_task (TCancel c) (_removeCachedFuture (call_at x) w)) as I'.
  { destruct w. eapply inv_less; [apply delete_subseteq| | |exact I]; done. }
  set (w1 := _removeCachedFuture (call_at x) w) in *. assert (calls w1 !! c = Some x) as Hc1 by done.
  assert ((forall g, call_future x <> FValue (Inner g)) -> calls_inv w1) as Hdone' by (intros Hn; eapply inv_done; eauto).
  destruct v as [b| |g]; [apply Hdone'; congruence| |]; destruct (take_cancel c w1) as [w'|] eqn:E.
  - pose proof (inv_take w1 w' _ [] [] c x I' Hc1 E) as H. rewrite !app_nil_r in H. unfold take_cancel in E. rewrite Hc1 in E.
    destruct (cancelRequested x); [done|]. injection E as <-. apply H; [by left|by right].
  - apply Hdone'. congruence.
  - pose proof (inv_take w1 w' _ [TCancelInner c g] [] c x I' Hc1 E) as H. rewrite app_nil_r in H. unfold take_cancel in E. rewrite Hc1 in E.
    destruct (cancelRequested x); [done|]. injection E as <-. apply H; [by left|]. left. exists g. split; [done|]. split; [|by left].
    pose proof (inv_value _ I' _ _ Hc1) as Hv. rewrite Ex in Hv. by apply Nat.ltb_lt in Hv.
  - unfold take_cancel in E. rewrite Hc1 in E. destruct (cancelRequested x) eqn:Hn; [|done]. eapply inv_done; eauto.
Qed.

Lemma cancel_inner_inv w c g : with_task (TCancelInner c g) w -> calls_inv (add_inner_cancel c w).
Proof.
  intros I. destruct (task_inner _ _ c g I) as (Hg & x & Hc & Hx); [by right; right|]. destruct w as [cs ins m conn ans ic ts]. cbn in *.
  unfold add_inner_cancel. cbn. rewrite <- (list_insert_id cs c x Hc), <- (app_nil_r ts).
  apply (inv_update cs ins m conn ans ic [c] [TCancelInner c g] ts [] c x x); [|exact I]. split; cbn.
  - done.
  - done.
  - by left.
  - apply (inv_value _ I _ _ Hc).
  - constructor.
  - by repeat constructor.
  - by repeat constructor.
  - done.
  - intros _ H%list_elem_of_singleton. done.
  - one_count.
  - intros _ _. one_count.
  - intros _ _. left. rewrite count_cancels_one, decide_True by done. lia.
Qed.

Lemma run_task_inv t w w' : with_task t w -> run_task remoteCancelableCalls t w = Some w' -> calls_inv w'.
Proof.
  intros I E. destruct t as [c|c g|c g|c|c g]; cbn in E.
  - destruct (calls w !! c) as [x|] eqn:Hc; [|done]. destruct (isFinished (call_future x)) eqn:Hf; [|done]. injection E as <-. by eapply adapter_inv.
  - injection E as <-. by eapply adapter_cancel_inv.
  - destruct (inners w !! g) as [st|]; [|done]. destruct (isFinished st); [|done]. injection E as <-. by eapply next_inv.
  - injection E as <-. by apply cancel_end_inv.
  - injection E as <-. by eapply cancel_inner_inv.
Qed.

Lemma finish_call_inv w c x st : calls_inv w -> calls w !! c = Some x -> isFinished (call_future x) = false -> isFinished st = true ->
  value_ok w st = true -> calls_inv (set_call c (mkCall (call_at x) st (cancelRequested x) (cancel_found x)) w).
Proof.
  intros I Hc Hr Hf Hv. destruct w as [cs ins m conn ans ic ts]. cbn in *. unfold set_call. cbn.
  rewrite <- (app_nil_r ic), <- (app_nil_r ts). eapply (inv_update cs ins m conn ans ic [] [] ts [] c x); [|exact I].
  split; cbn; try done; [by right|congruence|one_count|intros; one_count|].
  intros _ _. right. rewrite app_nil_r. pose proof (inv_running _ I _ _ Hc Hr) as H. cbn in H.
  pose proof (sum_pos (looks c) ts _ H) as Hs. cbn in Hs. rewrite decide_True in Hs by done. lia.
Qed.

Lemma cancel_inv w k : calls_inv w -> calls_inv (cancelCall k w).
Proof.
  intros I. unfold cancelCall. destruct (cancelables w !! k) as [c|]; [|done]. destruct (calls w !! c) as [x|] eqn:Hc; [|done].
  destruct w as [cs ins m conn ans ic ts]. cbn in *. unfold post, set_tasks, set_call. cbn. rewrite <- (app_nil_r ic).
  eapply (inv_update cs ins m conn ans ic [] [] ts [TCancel c] c x); [|exact I].
  split; cbn.
  - done.
  - done.
  - by left.
  - apply (inv_value _ I _ _ Hc).
  - repeat constructor. cbn. rewrite length_insert. by eapply lookup_lt_Some.
  - by repeat constructor.
  - constructor.
  - done.
  - intros _ H. by apply elem_of_nil in H.
  - one_count.
  - intros _ _. one_count.
  - intros _ _. right. rewrite sum_list_with_app. cbn. rewrite decide_True by done. lia.
Qed.

Lemma start_inv w k st : calls_inv w -> value_ok w st = true -> calls_inv (start_call k st w).
Proof.
  intros I Hv. destruct w as [cs ins m conn ans ic ts]. unfold start_call, post, set_tasks. cbn. rewrite <- (app_nil_r ans).
  eapply inv_add; [exact I|exact Hv| |by left]. intros k' c [[-> <-] | [_ H]]%lookup_insert_Some; auto.
Qed.

Lemma refuse_inv w k kit : calls_inv w -> calls_inv (refuse_call k kit w).
Proof.
  intros I. destruct w as [cs ins m conn ans ic ts]. unfold refuse_call, send_answer. rewrite <- (app_nil_r ts).
  assert (forall a m', m' ⊆ m -> calls_inv (mkCalls (cs ++ [mkCall k FError 0 0]) ins m' conn (ans ++ [(length cs, a)]) ic (ts ++ []))) as H.
  { intros a m' Hm. eapply inv_add; [exact I|done| |right; by eauto]. intros k' c Hk. left. by eapply lookup_weaken. }
  destruct kit; apply H; [apply delete_subseteq|done].
Qed.

Lemma calls_step_inv e w w' : calls_inv w -> step remoteCancelableCalls e w = Some w' -> calls_inv w'.
Proof.
  intros I E. destruct e as [k st|k kit|k|o s| |c st|g st|s|n]; cbn in E.
  - destruct (value_ok w st) eqn:Hv; [|done]. injection E as <-. by apply start_inv.
  - injection E as <-. by apply refuse_inv.
  - injection E as <-. by apply cancel_inv.
  - injection E as <-. destruct w. eapply inv_less; [apply map_filter_subseteq| | |exact I]; done.
  - injection E as <-. destruct w. eapply inv_less; [| | |exact I]; [done|done|]. cbn. rewrite length_app. lia.
  - destruct (calls w !! c) as [x|] eqn:Hc; [|done]. destruct (isFinished (call_future x)) eqn:Hr, (isFinished st) eqn:Hf, (value_ok w st) eqn:Hv; try done.
    injection E as <-. by apply finish_call_inv.
  - destruct (inners w !! g) as [[]|] eqn:Hg; try done. destruct (isFinished st); [|done]. injection E as <-. destruct w.
    eapply inv_less; [| | |exact I]; [done|done|]. rewrite length_insert. done.
  - injection E as <-. destruct w. eapply inv_less; [done| |done|exact I]. cbn. set_solver.
  - destruct (tasks w !! n) as [t|] eqn:Ht; [|done]. cbn in E. eapply run_task_inv; [|exact E]. unfold with_task. destruct w. cbn in *.
    eapply inv_perm; [|exact I]. by apply take_task.
Qed.

Lemma new_inv sockets : calls_inv (Calls_new sockets).
Proof. split; cbn; try done; constructor. Qed.

Lemma calls_reachable_inv sockets w : reachable remoteCancelableCalls sockets w -> calls_inv w.
Proof. induction 1 as [|w e w' _ IH E]; [apply new_inv|by eapply calls_step_inv]. Qed.

(** ** The tasks run *)

Definition all_finished (w : Calls) : Prop :=
  Forall (fun x => isFinished (call_future x) = true) (calls w) /\ Forall (fun st => isFinished st = true) (inners w).

(** How much a task may still do. *)
Definition weight (t : task) : nat := match t with TAdapter _ => 3 | TCancel _ => 2 | _ => 1 end.
Definition calls_measure (w : Calls) : nat := sum_list_with weight (tasks w).

(** Tasks do not change what the futures are. *)
Definition same_futures (w w' : Calls) : Prop := call_future <$> calls w' = call_future <$> calls w /\ inners w' = inners w.

Lemma take_cancel_same c w w' : take_cancel c w = Some w' -> same_futures w w' /\ tasks w' = tasks w.
Proof.
  unfold take_cancel. destruct (calls w !! c) as [x|] eqn:Hc; [|done]. destruct (cancelRequested x); [done|]. intros [= <-].
  split; [split|]; cbn; try done. rewrite list_fmap_insert. cbn. apply list_insert_id. rewrite list_lookup_fmap, Hc. done.
Qed.

Lemma run_task_small t w w' : run_task remoteCancelableCalls t w = Some w' -> same_futures w w' /\ calls_measure w' < weight t + calls_measure w.
Proof.
  assert (forall c s a w0, same_futures w w0 -> tasks w0 = tasks w -> same_futures w (send_answer c s a w0) /\ calls_measure (send_answer c s a w0) = calls_measure w) as Hsend.
  { intros c s a w0 H1 H2. split; [exact H1|]. unfold calls_measure. cbn. by rewrite H2. }
  intros E. destruct t as [c|c g|c g|c|c g]; cbn in E; cbn [weight].
  - destruct (calls w !! c) as [x|] eqn:Hc; [|done]. destruct (isFinished _); [|done]. injection E as <-. unfold serverResultAdapter. rewrite Hc.
    destruct (negb _); [split; [done|]; unfold calls_measure; cbn; lia|].
    destruct (call_future x) as [| | |[b| |g]]; (split; [done|]; unfold calls_measure; cbn; rewrite ?sum_list_with_app; cbn; lia).
  - injection E as <-. unfold serverResultAdapter_cancel. destruct (take_cancel c w) as [w1|] eqn:E; [|split; [done|unfold calls_measure; lia]].
    apply take_cancel_same in E as [H1 H2]. split; [exact H1|]. unfold calls_measure. cbn. rewrite H2. lia.
  - destruct (inners w !! g) as [st|]; [|done]. destruct (isFinished st); [|done]. injection E as <-. unfold serverResultAdapterNext.
    destruct (calls w !! c); [|split; [done|unfold calls_measure; lia]]. destruct (negb _); (split; [done|]; unfold calls_measure; cbn; lia).
  - injection E as <-. unfold cancelCall_end. destruct (calls w !! c) as [x|]; [|split; [done|unfold calls_measure; lia]].
    destruct (call_future x) as [| | |[b| |g]]; try (split; [done|unfold calls_measure; cbn; lia]); destruct (take_cancel c _) as [w1|] eqn:E;
      try (split; [done|unfold calls_measure; cbn; lia]); apply take_cancel_same in E as [H1 H2]; (split; [exact H1|]); unfold calls_measure; cbn; rewrite H2;
      rewrite ?sum_list_with_app; cbn; lia.
  - injection E as <-. split; [done|]. unfold calls_measure. cbn. lia.
Qed.

Lemma run_task_some t w : task_ok w t -> all_finished w -> exists w', run_task remoteCancelableCalls t w = Some w'.
Proof.
  intros Ht [H1 H2]. destruct t as [c|c g|c g|c|c g]; cbn in *; eauto.
  - apply lookup_lt_is_Some in Ht as [x Hx]. rewrite Hx. rewrite Forall_lookup in H1. rewrite (H1 _ _ Hx). eauto.
  - destruct Ht as [Hg _]. apply lookup_lt_is_Some in Hg as [st Hst]. rewrite Hst. rewrite Forall_lookup in H2. rewrite (H2 _ _ Hst). eauto.
Qed.

Lemma finished_same w w' : same_futures w w' -> all_finished w -> all_finished w'.
Proof.
  intros [E1 E2] [H1 H2]. split; [|by rewrite E2]. rewrite Forall_lookup in H1 |- *. intros c y Hy.
  apply (f_equal (fun l => l !! c)) in E1. rewrite !list_lookup_fmap, Hy in E1. cbn in E1.
  destruct (calls w !! c) as [x|] eqn:Hx; [|done]. injection E1 as ->. by eapply H1.
Qed.

(** The tasks of the list run, in its order. *)
Fixpoint run_tasks (l : list nat) (w : Calls) : option Calls :=
  match l with
  | [] => Some w
  | n :: l => match step remoteCancelableCalls (RunTask n) w with Some w' => run_tasks l w' | None => None end
  end.

Lemma step_run_small n w w' : step remoteCancelableCalls (RunTask n) w = Some w' -> same_futures w w' /\ calls_measure w' < calls_measure w.
Proof.
  cbn. destruct (tasks w !! n) as [t|] eqn:Ht; [|done]. cbn. intros E. apply run_task_small in E as [H1 H2]. split; [exact H1|].
  unfold calls_measure in *. cbn in H2. rewrite (take_task _ _ _ Ht). cbn. lia.
Qed.

Lemma run_tasks_inv l : forall w w', calls_inv w -> run_tasks l w = Some w' -> calls_inv w' /\ same_futures w w' /\ length l + calls_measure w' <= calls_measure w.
Proof.
  induction l as [|n l IH]; intros w w' I E; cbn [run_tasks] in E.
  - injection E as <-. split; [exact I|]. split; [by split|]. cbn. lia.
  - destruct (step _ _ w) as [w1|] eqn:E1; [|done]. apply IH in E as (I' & [S1 S2] & L); [|by eapply calls_step_inv].
    apply step_run_small in E1 as [[S3 S4] L1]. split; [done|]. split; [split; congruence|]. cbn. lia.
Qed.

Lemma no_task_stuck w : calls_inv w -> all_finished w -> (forall n, step remoteCancelableCalls (RunTask n) w = None) -> tasks w = [].
Proof.
  intros I F H. destruct (tasks w) as [|t l] eqn:Ht; [done|]. specialize (H 0). unfold step in H. rewrite Ht in H.
  change (run_task remoteCancelableCalls t (set_tasks l w) = None) in H.
  pose proof (inv_tasks _ I) as Hok. rewrite Ht in Hok. inversion Hok as [|? ? H0 _]. subst.
  destruct (run_task_some t (set_tasks l w)) as [w' E]; [|exact F|congruence]. eapply task_ok_grow; [|exact H0]. by apply grow_same.
Qed.
End steps.

(** ** Traces *)

Section traces.
Variable remoteCancelableCalls : Socket -> bool.

Fixpoint run_events (l : list event) (w : Calls) : option Calls :=
  match l with
  | [] => Some w
  | e :: l => match step remoteCancelableCalls e w with Some w' => run_events l w' | None => None end
  end.

Lemma run_events_reachable l sockets : forall w w', reachable remoteCancelableCalls sockets w -> run_events l w = Some w' ->
  reachable remoteCancelableCalls sockets w'.
Proof.
  induction l as [|e l IH]; intros w w' R E; cbn [run_events] in E; [by injection E as <-|].
  destruct (step _ e w) as [w1|] eqn:E1; [|done]. eapply IH; [|exact E]. by eapply reachable_step.
Qed.

(** The state that a trace ends in. *)
Definition trace_state (sockets : gset Socket) (l : list event) : Calls := default (Calls_new sockets) (run_events l (Calls_new sockets)).

Lemma trace_reachable sockets l : reachable remoteCancelableCalls sockets (trace_state sockets l).
Proof.
  unfold trace_state. destruct (run_events l (Calls_new sockets)) as [w|] eqn:E; cbn; [|constructor].
  eapply run_events_reachable; [|exact E]. constructor.
Qed.
End traces.

(** ** Properties *)

(** C27. Every call is answered once. At any time a call has at most one answer and one when nothing follows it any more.
    When the futures of the calls and the futures that they returned are finished, the continuations run, in any order, a number of times
    that is bounded by the state, and when none is left each call has one answer, and nothing of it is in the table of the
    calls that can be cancelled: the table does not grow with the calls that were answered. *)
Theorem calls_answered_once remoteCancelableCalls sockets w c : reachable remoteCancelableCalls sockets w -> c < length (calls w) ->
  count_answers c (answers w) <= 1 /\
  (forall l w', all_finished w -> run_tasks remoteCancelableCalls l w = Some w' -> length l <= calls_measure w /\
    ((forall n, step remoteCancelableCalls (RunTask n) w' = None) -> count_answers c (answers w') = 1 /\ cancelables w' = ∅)).
Proof.
  intros R Hc. apply calls_reachable_inv in R. split; [pose proof (inv_ends _ R c) as H; rewrite decide_True in H by done; lia|].
  intros l w' F E. destruct (run_tasks_inv _ _ _ _ R E) as (I & S & L). split; [lia|]. intros Hn.
  apply (no_task_stuck _ _ I (finished_same _ _ S F)) in Hn. split.
  - pose proof (inv_ends _ I c) as H. rewrite Hn, decide_True in H; [cbn in H; lia|]. destruct S as [S _]. apply (f_equal length) in S.
    rewrite !length_fmap in S. lia.
  - apply map_eq. intros k. rewrite lookup_empty. destruct (cancelables w' !! k) as [c'|] eqn:Hk; [|done].
    destruct (inv_table _ I _ _ Hk) as [_ H]. rewrite Hn in H. done.
Qed.

(** A cancellation reaches the future that the call returned: when nothing is left to run, the future of a call
    which was found by a cancellation is cancelled at least once, when the socket is still connected. It is never cancelled more often than cancellations
    found the call, and then exactly as often as the counter that they increment went down. *)
Theorem cancel_honoured remoteCancelableCalls sockets w c x g : reachable remoteCancelableCalls sockets w ->
  calls w !! c = Some x -> call_future x = FValue (Inner g) ->
  count_cancels c (inner_cancels w) <= cancel_found x /\
  (tasks w = [] -> count_cancels c (inner_cancels w) + cancelRequested x = cancel_found x /\
    (socket_of x ∈ connected w -> 0 < cancel_found x -> 0 < count_cancels c (inner_cancels w))).
Proof.
  intros R Hc Hx. apply calls_reachable_inv in R. pose proof (inv_taken _ R _ _ _ Hc (or_introl Hx)) as H1. split; [lia|].
  intros Ht. rewrite Ht in H1. cbn in H1. split; [lia|]. intros Hs Hf.
  destruct (inv_honoured _ R _ _ Hc Hf) as [H|H]; [split; [done|eauto]|rewrite Ht in H; cbn in H; lia|rewrite Ht in H; cbn in H; lia].
Qed.

(** One object, one socket. *)
Definition example_call : call_key := (7, 1, 5%Z).

(** The call is cancelled before it returns a future, which is then cancelled. *)
Definition cancelled_early : list event :=
  [NewInner; Start example_call FRunning; Cancel example_call; RunTask 1; FinishCall 0 (FValue (Inner 0)); RunTask 0; RunTask 1; FinishInner 0 FCanceled].

Lemma calls_answered_once_witness :
  let w := trace_state (fun _ => true) {[1]} cancelled_early in
  exists w', run_tasks (fun _ => true) [0] w = Some w' /\ answers w' = [(0, ACanceled)] /\
    (count_answers 0 (answers w) <= 1) /\ (1 <= calls_measure w /\ count_answers 0 (answers w') = 1 /\ cancelables w' = ∅).
Proof.
  intros w. assert (reachable (fun _ => true) {[1]} w) as R by apply trace_reachable.
  assert (all_finished w) as F by (split; vm_compute; repeat constructor).
  destruct (run_tasks (fun _ => true) [0] w) as [w'|] eqn:E; [|vm_compute in E; discriminate].
  destruct (calls_answered_once (fun _ => true) {[1]} w 0 R) as [H1 H2]; [vm_compute; lia|].
  destruct (H2 [0] w' F E) as [H3 H4]. exists w'. split; [done|].
  assert (tasks w' = [] /\ answers w' = [(0, ACanceled)]) as [Ht Ha] by (vm_compute in E; injection E as <-; split; reflexivity).
  split; [exact Ha|]. split; [exact H1|]. split; [exact H3|]. apply H4. intros n. cbn. rewrite Ht. done.
Defined.

Lemma cancel_honoured_witness :
  let w := trace_state (fun _ => true) {[1]} (cancelled_early ++ [RunTask 0]) in
  0 < count_cancels 0 (inner_cancels w) <= 1.
Proof.
  intros w.
  destruct (cancel_honoured (fun _ => true) {[1]} w 0 (mkCall example_call (FValue (Inner 0)) 0 1) 0) as [H1 H2];
    [apply trace_reachable|vm_compute; reflexivity|reflexivity|].
  split; [|exact H1]. apply H2; [vm_compute; reflexivity|vm_compute; set_solver|cbn; lia].
Defined.

(** Two cancellations before the call returns its future: it is cancelled once, and the counter stays at one. *)
Example cancelled_twice_once :
  let w := trace_state (fun _ => true) {[1]}
    [NewInner; Start example_call FRunning; Cancel example_call; Cancel example_call; RunTask 1; RunTask 1;
     FinishCall 0 (FValue (Inner 0)); RunTask 0; RunTask 1; FinishInner 0 FCanceled; RunTask 0] in
  tasks w = [] /\ calls w = [mkCall example_call (FValue (Inner 0)) 1 2] /\ inner_cancels w = [0].
Proof. vm_compute. done. Qed.

(** A call that is cancelled itself is answered with a message of cancellation to a peer that does not
    know cancellations; when the future that it returned is cancelled, the peer gets an error. *)
Example canceled_to_old_peer :
  answers (trace_state (fun _ => false) {[1]} [Start example_call FCanceled; RunTask 0]) = [(0, ACanceled)] /\
  answers (trace_state (fun _ => false) {[1]} (cancelled_early ++ [RunTask 0])) = [(0, AError)].
Proof. vm_compute. done. Qed.
