(* ===== verification/Authentication.v ===== *)
(** * Authentication: the data that the ends of a connection exchange

    Model of [AuthProvider::processAuth] of [src/messaging/authprovider.cpp] and of
    [ClientAuthenticator::processAuth] of [src/messaging/clientauthenticator.cpp]. What a
    provider or an authenticator decides is the code of the user: [_processAuth] is a
    parameter, with a state that it may change. A value is of any type. *)
From S2P Require Import Prelude CString Message.
From stdpp Require Import sorting.
Open Scope list_scope.

(** ** Definitions *)

Definition QiAuthPrefix : bytes := lit "__qi_auth_".
Definition UserAuthPrefix : bytes := lit "auth_".
Definition Error_Reason_Key : bytes := QiAuthPrefix ++ lit "err_reason".
Definition State_Key : bytes := QiAuthPrefix ++ lit "state".

(** [AuthProvider::State] *)
Definition State_Error : Z := 1.
Definition State_Cont : Z := 2.
Definition State_Done : Z := 3.

Section maps.
Context {V : Type}.
Abbreviation CapabilityMap := (gmap bytes V).

(** The order in which a map of the library is visited. *)
Definition key_le (a b : bytes * V) : Prop := str_compare (fst a) (fst b) <> Gt.
#[export] Instance key_le_dec : RelDecision key_le.
Proof. intros a b. unfold key_le, Decision. destruct (str_compare (fst a) (fst b)); [left | left | right]; congruence. Defined.
Definition in_order (m : CapabilityMap) : list (bytes * V) := merge_sort key_le (map_to_list m).

(** The loops that fill a map from another one. *)
Definition refill (rename : bytes -> option bytes) (m : CapabilityMap) : CapabilityMap :=
  foldl (fun r e => match rename (fst e) with Some k => <[k := snd e]> r | None => r end) ∅ (in_order m).

Definition extract_key (key : bytes) : option bytes :=
  if starts_with QiAuthPrefix key then Some key
  else if starts_with UserAuthPrefix key then Some (drop (length UserAuthPrefix) key)
  else None.
Definition extractAuthData (cmap : CapabilityMap) : CapabilityMap := refill extract_key cmap.

Definition prepare_key (key : bytes) : bytes :=
  if starts_with QiAuthPrefix key then key else UserAuthPrefix ++ key.
Definition prepareAuthCaps (data : CapabilityMap) : CapabilityMap := refill (fun k => Some (prepare_key k)) data.

(** [AuthProvider::processAuth], and that of an authenticator, around the code of the user,
    which may throw. *)
Definition processAuth {P : Type} (_processAuth : P -> CapabilityMap -> P * option CapabilityMap)
    (p : P) (authData : CapabilityMap) : P * option CapabilityMap :=
  match _processAuth p (extractAuthData authData) with
  | (p', Some r) => (p', Some (prepareAuthCaps r))
  | (p', None) => (p', None)
  end.

(** What a client sends first: its capabilities, and the data of its authenticator. *)
Definition initial_caps (initialAuthData socketCaps : CapabilityMap) : CapabilityMap :=
  socketCaps ∪ refill (fun k => Some (UserAuthPrefix ++ k)) initialAuthData.

(** What a socket tells its listeners: an error or a message, with what the code looks at. *)
Record auth_message := mkAuthMessage {
  am_type : Z;
  am_service : Z;
  am_function : Z;
  (** the state of the authentication: the outer option is none when the conversions throw *)
  am_state : option (option Z);
}.
Inductive socket_event := EventError | EventMessage (m : auth_message).

(** The test of the answers to an authentication, in the services and in the client of the directory. *)
Definition is_failure (m : auth_message) : bool :=
  (am_type m =? Type_Error)%Z || negb (am_service m =? Service_Server)%Z || negb (am_function m =? ServerFunction_Authenticate)%Z.

(** ** The loops *)

Lemma in_order_perm m : in_order m ≡ₚ map_to_list m.
Proof. apply merge_sort_Permutation. Qed.

(** The entries, the last one first. *)
Definition renamed (rename : bytes -> option bytes) (m : CapabilityMap) : list (bytes * V) :=
  reverse (omap (fun e => match rename (fst e) with Some k => Some (k, snd e) | None => None end) (in_order m)).

Lemma refill_list rename m : refill rename m = list_to_map (renamed rename m).
Proof.
  unfold refill, renamed. induction (in_order m) as [|e l IH] using rev_ind; [done|].
  rewrite foldl_app, omap_app, reverse_app. cbn. rewrite IH. by destruct (rename (fst e)).
Qed.

Lemma refill_elem rename m k v : (k, v) ∈ renamed rename m <->
  exists k0, m !! k0 = Some v /\ rename k0 = Some k.
Proof.
  unfold renamed. rewrite elem_of_reverse, list_elem_of_omap. setoid_rewrite in_order_perm. split.
  - intros ([k0 v0] & Hin & E). cbn in E. destruct (rename k0) as [k1|] eqn:Ek; [|done]. injection E as -> ->.
    apply elem_of_map_to_list in Hin. eauto.
  - intros (k0 & Hm & E). exists (k0, v). split; [by apply elem_of_map_to_list|]. cbn. by rewrite E.
Qed.

(** A key of the result comes from a key of the map. *)
Lemma refill_Some rename m k v : refill rename m !! k = Some v -> exists k0, m !! k0 = Some v /\ rename k0 = Some k.
Proof. rewrite refill_list. intros H%elem_of_list_to_map_2. by apply refill_elem. Qed.

Lemma refill_lookup rename m k k0 v : m !! k0 = Some v -> rename k0 = Some k ->
  (forall k1 v1, m !! k1 = Some v1 -> rename k1 = Some k -> k1 = k0) -> refill rename m !! k = Some v.
Proof.
  intros Hm E Hinj. rewrite refill_list. apply elem_of_list_to_map_1'.
  - intros v1 (k1 & Hk1 & E1)%refill_elem. rewrite (Hinj _ _ Hk1 E1) in Hk1. congruence.
  - apply refill_elem. eauto.
Qed.

Lemma prepare_extract_key k : extract_key (prepare_key k) = Some k.
Proof.
  unfold prepare_key, extract_key. destruct (starts_with QiAuthPrefix k) eqn:E; [by rewrite E|].
  assert (starts_with QiAuthPrefix (UserAuthPrefix ++ k) = false) as -> by reflexivity.
  rewrite starts_with_app. by rewrite drop_app_length.
Qed.

Lemma prepare_key_inj k1 k2 : prepare_key k1 = prepare_key k2 -> k1 = k2.
Proof. intros H. apply (f_equal extract_key) in H. rewrite !prepare_extract_key in H. congruence. Qed.

Lemma prepare_lookup m k : prepareAuthCaps m !! prepare_key k = m !! k.
Proof.
  apply option_eq. intros v. split.
  - intros (k0 & Hm & E)%refill_Some. injection E as E%prepare_key_inj. by subst.
  - intros Hm. eapply refill_lookup; [exact Hm|done|]. intros k1 v1 _ E. injection E as E. by apply prepare_key_inj.
Qed.

Lemma prepare_state m : prepareAuthCaps m !! State_Key = m !! State_Key.
Proof. exact (prepare_lookup m State_Key). Qed.

(** What one end prepares is what the code of the user gets at the other end. *)
Lemma extract_prepare m : extractAuthData (prepareAuthCaps m) = m.
Proof.
  apply map_eq. intros k. apply option_eq. intros v. split.
  - intros (k1 & (k0 & Hm & E0)%refill_Some & E1)%refill_Some. injection E0 as <-. rewrite prepare_extract_key in E1. congruence.
  - intros Hm. eapply refill_lookup; [|apply prepare_extract_key|].
    + by rewrite prepare_lookup.
    + intros k1 v1 (k0 & _ & E0)%refill_Some E1. injection E0 as <-. rewrite prepare_extract_key in E1. congruence.
Qed.
End maps.
