(* ===== verification/Server.v ===== *)
(** * Server: the sockets and the service objects of a server

    Model of [src/messaging/server.cpp]: [BoundObjectSocketBinder], which binds service
    objects to sockets, and the handling of the messages for the server, with the
    authentication. The functions run one at a time on the strand of the server, so each is
    a function of the whole state. Sockets are alive; what is asked of them is recorded:
    the messages, the disconnections and the readings. *)
From S2P Require Import Prelude CString Message Authentication.
Open Scope nat_scope.

(** ** The bindings *)

Definition Socket := nat.
Definition BoundObjectPtr := nat.
Definition SocketBinding : Type := BoundObjectPtr * Socket.

(** The objects of the process: the sockets from which each one accepts messages, and
    whether an assertion of a binding failed. *)
Record Objects := mkObjects { connections : gset SocketBinding; failed : bool }.

(** [BoundObject::bindToSocket] and [unbindFromSocket], for the connections. *)
Definition bindToSocket (b : SocketBinding) (w : Objects) : bool * Objects :=
  if decide (b ∈ connections w) then (false, w) else (true, mkObjects (connections w ∪ {[b]}) (failed w)).
Definition unbindFromSocket (b : SocketBinding) (w : Objects) : bool * Objects :=
  if decide (b ∈ connections w) then (true, mkObjects (connections w ∖ {[b]}) (failed w)) else (false, w).

(** [SocketBinding::make] *)
Definition SocketBinding_make (b : SocketBinding) (w : Objects) : option SocketBinding * Objects :=
  match bindToSocket b w with (true, w) => (Some b, w) | (false, w) => (None, w) end.

(** [SocketBinding::reset], which asserts that there was something to unbind. *)
Definition SocketBinding_reset (b : SocketBinding) (w : Objects) : Objects :=
  match unbindFromSocket b w with (true, w) => w | (false, w) => mkObjects (connections w) true end.

Section server.
Context {V Factory Provider : Type}.
(** [AnyValue::to<unsigned int>], which may throw, and [AnyValue::from]. *)
Variable to_uint : V -> option Z.
Variable of_uint : Z -> V.
(** The code of the user. *)
Variable newProvider : Factory -> option Provider.
Variable _processAuth : Provider -> gmap bytes V -> Provider * option (gmap bytes V).
(** The capabilities of a socket, and its remote endpoint, as a value. *)
Variable localCapabilities : Socket -> gmap bytes V.
Variable remoteEndpoint : Socket -> option V.
(** Whether the server was given a factory. *)
Variable _enforceAuth : bool.

Record SocketInfo := mkSocketInfo {
  si_socket : Socket;
  si_authProvider : option Provider;
  (** there is a handler for the messages to the server *)
  si_handler : bool;
  si_authenticated : bool;
  si_capabilitiesTaken : bool;
  (** for the theorems: the objects that were there before the socket *)
  si_before : gset BoundObjectPtr;
}.

Record Binder := mkBinder {
  _boundObjects : gmap Z BoundObjectPtr;
  _socketsInfo : list SocketInfo;
  _bindings : list SocketBinding;
  objects : Objects;
}.

Definition Binder_new (w : Objects) : Binder := mkBinder ∅ [] [] w.

(** A binding for each of the list that makes one. *)
Fixpoint make_bindings (l : list SocketBinding) (b : Binder) : Binder :=
  match l with
  | [] => b
  | x :: l =>
      match SocketBinding_make x (objects b) with
      | (Some x, w) => make_bindings l (mkBinder (_boundObjects b) (_socketsInfo b) (_bindings b ++ [x]) w)
      | (None, w) => make_bindings l (mkBinder (_boundObjects b) (_socketsInfo b) (_bindings b) w)
      end
  end.

(** The bindings that are asked for are destroyed. *)
Definition remove_bindings (p : SocketBinding -> bool) (b : Binder) : Binder :=
  mkBinder (_boundObjects b) (_socketsInfo b) (filter (fun x => p x = false) (_bindings b))
    (foldl (fun w x => SocketBinding_reset x w) (objects b) (filter (fun x => p x = true) (_bindings b))).

Definition bindSocket (s : Socket) (b : Binder) : Binder :=
  make_bindings (map (fun o => (o, s)) (map_to_list (_boundObjects b)).*2) b.
Definition bindObject (o : BoundObjectPtr) (b : Binder) : Binder :=
  make_bindings (map (fun i => (o, si_socket i)) (_socketsInfo b)) b.
Definition unbindSocket (s : Socket) (b : Binder) : Binder := remove_bindings (fun x => bool_decide (snd x = s)) b.
Definition unbindObject (o : BoundObjectPtr) (b : Binder) : Binder := remove_bindings (fun x => bool_decide (fst x = o)) b.

Definition find_info (s : Socket) (b : Binder) : option SocketInfo := find (fun i => bool_decide (si_socket i = s)) (_socketsInfo b).

Definition object_set (b : Binder) : gset BoundObjectPtr := list_to_set (map_to_list (_boundObjects b)).*2.

(** It throws when the socket exists. *)
Definition addSocketPendingValidation (s : Socket) (b : Binder) : option Binder :=
  match find_info s b with
  | Some _ => None
  | None => Some (mkBinder (_boundObjects b) (_socketsInfo b ++ [mkSocketInfo s None false false false (object_set b)]) (_bindings b) (objects b))
  end.

(** The information that is destroyed disconnects its socket: the sockets are given too. *)
Definition Binder_removeSocket (s : Socket) (b : Binder) : bool * list Socket * Binder :=
  match find_info s b with
  | None => (false, [], b)
  | Some _ =>
      (true, map si_socket (filter (fun i => si_socket i = s) (_socketsInfo b)),
       unbindSocket s (mkBinder (_boundObjects b) (filter (fun i => si_socket i <> s) (_socketsInfo b)) (_bindings b) (objects b)))
  end.

Definition validateSocket (s : Socket) (b : Binder) : Binder := bindSocket s b.

Definition Binder_addObject (serviceId : Z) (o : BoundObjectPtr) (b : Binder) : bool * Binder :=
  match _boundObjects b !! serviceId with
  | Some _ => (false, b)
  | None => (true, bindObject o (mkBinder (<[serviceId := o]> (_boundObjects b)) (_socketsInfo b) (_bindings b) (objects b)))
  end.

(** Not of the code: the object is not before the sockets any more. *)
Definition forget (o : BoundObjectPtr) (i : SocketInfo) : SocketInfo :=
  mkSocketInfo (si_socket i) (si_authProvider i) (si_handler i) (si_authenticated i) (si_capabilitiesTaken i) (si_before i ∖ {[o]}).

Definition Binder_removeObject (serviceId : Z) (b : Binder) : bool * Binder :=
  match _boundObjects b !! serviceId with
  | None => (false, b)
  | Some o => (true, unbindObject o (mkBinder (delete serviceId (_boundObjects b)) (map (forget o) (_socketsInfo b)) (_bindings b) (objects b)))
  end.

Definition clearSockets (b : Binder) : list Socket * Binder :=
  (map si_socket (_socketsInfo b), remove_bindings (fun _ => true) (mkBinder (_boundObjects b) [] (_bindings b) (objects b))).

(** ** The server *)

Inductive sent_message :=
  | SReply (address : Z) (value : gmap bytes V)
  | SError (address : Z)
  | SCapability (value : gmap bytes V).

Record Server := mkServer {
  authProviderFactory : Factory;
  binder : Binder;
  (** the strand exists *)
  opened : bool;
  sent : list (Socket * sent_message);
  disconnected : list Socket;
  reading : list Socket;
}.

Definition Server_new (f : Factory) (w : Objects) : Server := mkServer f (Binder_new w) true [] [] [].

Definition set_binder (b : Binder) (x : Server) : Server := mkServer (authProviderFactory x) b (opened x) (sent x) (disconnected x) (reading x).
Definition send (s : Socket) (m : sent_message) (x : Server) : Server :=
  mkServer (authProviderFactory x) (binder x) (opened x) (sent x ++ [(s, m)]) (disconnected x) (reading x).
Definition disconnect (l : list Socket) (x : Server) : Server :=
  mkServer (authProviderFactory x) (binder x) (opened x) (sent x) (disconnected x ++ l) (reading x).

(** The information of a socket is changed in place. *)
Definition update_info (s : Socket) (f : SocketInfo -> SocketInfo) (x : Server) : Server :=
  let b := binder x in
  set_binder (mkBinder (_boundObjects b) (map (fun i => if decide (si_socket i = s) then f i else i) (_socketsInfo b)) (_bindings b) (objects b)) x.

Definition setAuthProvider (p : Provider) (i : SocketInfo) : SocketInfo :=
  mkSocketInfo (si_socket i) (Some p) (si_handler i) (si_authenticated i) (si_capabilitiesTaken i) (si_before i).
Definition setServerMessageHandler (i : SocketInfo) : SocketInfo :=
  mkSocketInfo (si_socket i) (si_authProvider i) true (si_authenticated i) (si_capabilitiesTaken i) (si_before i).
Definition setAuthenticated (i : SocketInfo) : SocketInfo :=
  mkSocketInfo (si_socket i) (si_authProvider i) (si_handler i) true (si_capabilitiesTaken i) (si_before i).
Definition takeCapabilities (i : SocketInfo) : SocketInfo :=
  mkSocketInfo (si_socket i) (si_authProvider i) (si_handler i) (si_authenticated i) true (si_before i).

(** [extractCapabilities]: the capabilities of the socket, once. *)
Definition extractCapabilities (i : SocketInfo) (x : Server) : gmap bytes V * Server :=
  (if si_capabilitiesTaken i then ∅ else localCapabilities (si_socket i), update_info (si_socket i) takeCapabilities x).

(** The part of a message that the server looks at. *)
Record ServerMessage := mkServerMessage {
  msg_type : Z;
  msg_function : Z;
  msg_address : Z;
  (** none when it is not a map *)
  msg_value : option (gmap bytes V);
}.

Definition isAuthRequest (m : ServerMessage) : bool := (msg_type m =? Type_Call)%Z && (msg_function m =? ServerFunction_Authenticate)%Z.

Definition sendAuthReply (authResult : gmap bytes V) (i : SocketInfo) (address : Z) (x : Server) : Server :=
  let (capa, x) := extractCapabilities i x in
  send (si_socket i) (SReply address (authResult ∪ capa)) x.

Definition sendSuccessfulAuthReply (i : SocketInfo) (address : Z) (x : Server) : Server :=
  sendAuthReply {[State_Key := of_uint State_Done]} i address x.

Definition sendAuthError (i : SocketInfo) (address : Z) (x : Server) : Server :=
  disconnect [si_socket i] (send (si_socket i) (SError address) x).

Definition sendCapabilitiesMessage (i : SocketInfo) (x : Server) : Server :=
  let (capa, x) := extractCapabilities i x in send (si_socket i) (SCapability capa) x.

Definition finalizeSocketAuthentication (i : SocketInfo) (x : Server) : Server :=
  update_info (si_socket i) setAuthenticated (set_binder (validateSocket (si_socket i) (binder x)) x).

(** The address of the remote end is added to what the client sent. *)
Definition with_endpoint (s : Socket) (authData : gmap bytes V) : gmap bytes V :=
  match remoteEndpoint s with
  | Some u => <[UserAuthPrefix ++ lit "remoteEndpoint" := u]> authData
  | None => authData
  end.

(** False when it throws. *)
Definition authenticateSocket (m : ServerMessage) (i : SocketInfo) (x : Server) : bool * Server :=
  match msg_value m, si_authProvider i with
  | Some authData, Some p =>
      let (p', authResult) := processAuth _processAuth p (with_endpoint (si_socket i) authData) in
      let x := update_info (si_socket i) (setAuthProvider p') x in
      match authResult with
      | None => (false, x)
      | Some authResult =>
          match authResult !! State_Key with
          | None => (false, x)
          | Some v =>
              match to_uint v with
              | None => (false, x)
              | Some state =>
                  if (state =? State_Cont)%Z then (true, sendAuthReply authResult i (msg_address m) x)
                  else if (state =? State_Done)%Z then (true, sendAuthReply authResult i (msg_address m) (finalizeSocketAuthentication i x))
                  else (true, sendAuthError i (msg_address m) x)
              end
          end
      end
  | _, _ => (false, x)
  end.

Definition handleServerMessageAuth (m : ServerMessage) (i : SocketInfo) (x : Server) : bool * Server :=
  if negb (isAuthRequest m) then (true, sendAuthError i (msg_address m) x) else authenticateSocket m i x.

Definition handleServerMessageNoAuth (m : ServerMessage) (i : SocketInfo) (x : Server) : bool * Server :=
  let x := finalizeSocketAuthentication i x in
  (true, if isAuthRequest m then sendSuccessfulAuthReply i (msg_address m) x else sendCapabilitiesMessage i x).

Definition handleServerMessage (m : ServerMessage) (i : SocketInfo) (x : Server) : bool * Server :=
  if si_authenticated i then
    (true, if isAuthRequest m then sendSuccessfulAuthReply i (msg_address m) x else x)
  else if _enforceAuth then handleServerMessageAuth m i x else handleServerMessageNoAuth m i x.

(** ** The operations *)

(** A task of the strand, when there is one; false when it throws or there is none. *)
Definition safeCall (f : Server -> bool * Server) (x : Server) : bool * Server := if opened x then f x else (false, x).

Definition addSocket (s : Socket) (x : Server) : option Server :=
  match addSocketPendingValidation s (binder x) with Some b => Some (set_binder b x) | None => None end.

Definition addOutgoingSocket (s : Socket) : Server -> bool * Server :=
  safeCall (fun x => match addSocket s x with Some x => (true, x) | None => (false, x) end).

(** The socket is disconnected when something throws. *)
Definition addIncomingSocket (s : Socket) : Server -> bool * Server :=
  safeCall (fun x =>
    match addSocket s x with
    | None => (false, disconnect [s] x)
    | Some x =>
        match newProvider (authProviderFactory x) with
        | None => (false, disconnect [s] x)
        | Some p =>
            let x := update_info s setServerMessageHandler (update_info s (setAuthProvider p) x) in
            (true, mkServer (authProviderFactory x) (binder x) (opened x) (sent x) (disconnected x) (reading x ++ [s]))
        end
    end).

(** The handler that a socket calls for a message to the server. *)
Definition serverMessageHandler (s : Socket) (m : ServerMessage) : Server -> bool * Server :=
  safeCall (fun x =>
    match find_info s (binder x) with
    | Some i => if si_handler i then handleServerMessage m i x else (false, x)
    | None => (false, x)
    end).

Definition Server_removeSocket (s : Socket) : Server -> bool * Server :=
  safeCall (fun x =>
    match Binder_removeSocket s (binder x) with
    | (removed, l, b) => (removed, disconnect (l ++ [s]) (set_binder b x))
    end).

Definition Server_addObject (serviceId : Z) (o : BoundObjectPtr) : Server -> bool * Server :=
  safeCall (fun x => let (r, b) := Binder_addObject serviceId o (binder x) in (r, set_binder b x)).

Definition Server_removeObject (serviceId : Z) : Server -> bool * Server :=
  safeCall (fun x => let (r, b) := Binder_removeObject serviceId (binder x) in (r, set_binder b x)).

Definition setAuthProviderFactory (f : Factory) : Server -> bool * Server :=
  safeCall (fun x => (true, mkServer f (binder x) (opened x) (sent x) (disconnected x) (reading x))).

Definition closeImpl (x : Server) : bool * Server :=
  if opened x then
    let (l, b) := clearSockets (binder x) in
    (true, mkServer (authProviderFactory x) b false (sent x) (disconnected x ++ l) (reading x))
  else (true, x).

Definition Server_open (x : Server) : bool * Server :=
  (negb (opened x), mkServer (authProviderFactory x) (binder x) true (sent x) (disconnected x) (reading x)).

(** ** Runs *)

Inductive event :=
  | AddOutgoing (s : Socket)
  | AddIncoming (s : Socket)
  | ServerMsg (s : Socket) (m : ServerMessage)
  | SocketDisconnected (s : Socket)
  | AddObject (serviceId : Z) (o : BoundObjectPtr)
  | RemoveObject (serviceId : Z)
  | SetFactory (f : Factory)
  | Close
  | Open.

Definition handle (e : event) : Server -> bool * Server :=
  match e with
  | AddOutgoing s => addOutgoingSocket s
  | AddIncoming s => addIncomingSocket s
  | ServerMsg s m => serverMessageHandler s m
  | SocketDisconnected s => Server_removeSocket s
  | AddObject serviceId o => Server_addObject serviceId o
  | RemoveObject serviceId => Server_removeObject serviceId
  | SetFactory f => setAuthProviderFactory f
  | Close => closeImpl
  | Open => Server_open
  end.

(** An object is made for one service and is bound by the server only. *)
Definition event_ok (e : event) (x : Server) : Prop :=
  match e with
  | AddObject _ o => o ∉ object_set (binder x)
  | _ => True
  end.

Inductive reachable (f : Factory) : Server -> Prop :=
  | reachable_new : reachable f (Server_new f (mkObjects ∅ false))
  | reachable_step x e : reachable f x -> event_ok e x -> reachable f (snd (handle e x)).

End server.

(** ** The bindings and the connections *)

Section invariant.
Context {Provider : Type}.
Implicit Types (b : Binder (Provider := Provider)) (i : SocketInfo (Provider := Provider)).

Record bind_ok (b : Binder (Provider := Provider)) : Prop := {
  ok_nodup : NoDup (_bindings b);
  ok_connections x : x ∈ _bindings b <-> x ∈ connections (objects b);
  ok_failed : failed (objects b) = false;
}.

Lemma make_bindings_spec l : forall b, bind_ok b ->
  bind_ok (make_bindings l b) /\ _boundObjects (make_bindings l b) = _boundObjects b /\ _socketsInfo (make_bindings l b) = _socketsInfo b /\
  forall x, x ∈ _bindings (make_bindings l b) <-> x ∈ _bindings b \/ x ∈ l.
Proof.
  induction l as [|y l IH]; intros b [N C F]; cbn [make_bindings].
  - split; [by split|]. split; [done|]. split; [done|]. intros x. split; [by left|]. intros [H|H]; [done|by apply elem_of_nil in H].
  - unfold SocketBinding_make, bindToSocket. destruct (decide (y ∈ connections (objects b))) as [Hy|Hy].
    + destruct (IH (mkBinder (_boundObjects b) (_socketsInfo b) (_bindings b) (objects b))) as (I1 & I2 & I3 & I4); [by split|].
      split; [exact I1|]. split; [exact I2|]. split; [exact I3|]. intros x. rewrite I4, elem_of_cons. cbn. specialize (C y). naive_solver.
    + match goal with |- context [make_bindings l ?b'] => destruct (IH b') as (I1 & I2 & I3 & I4) end.
      * split; cbn; [|intros x; rewrite elem_of_app, list_elem_of_singleton, C; set_solver|done].
        apply NoDup_app. split; [done|]. split; [|apply NoDup_singleton]. intros x Hx ->%list_elem_of_singleton. by apply C in Hx.
      * split; [exact I1|]. split; [exact I2|]. split; [exact I3|]. intros x. rewrite I4, elem_of_cons. cbn. rewrite elem_of_app, list_elem_of_singleton. tauto.
Qed.

Lemma resets_spec l : forall w, NoDup l -> (forall x, x ∈ l -> x ∈ connections w) ->
  let w' := foldl (fun w x => SocketBinding_reset x w) w l in
  failed w' = failed w /\ forall x, x ∈ connections w' <-> x ∈ connections w /\ x ∉ l.
Proof.
  induction l as [|y l IH]; intros w N H; cbn [foldl].
  - split; [done|]. intros x. split; [|by intros []]. intros Hx. split; [done|]. apply not_elem_of_nil.
  - apply NoDup_cons in N as [Hy N]. assert (y ∈ connections w) as Hyw by (apply H; by left).
    unfold SocketBinding_reset at 2 4, unbindFromSocket. rewrite decide_True by done.
    destruct (IH (mkObjects (connections w ∖ {[y]}) (failed w)) N) as [I1 I2].
    { intros x Hx. cbn. assert (x <> y) by congruence. assert (x ∈ connections w) by (apply H; by right). set_solver. }
    split; [exact I1|]. intros x. rewrite I2, elem_of_cons. cbn. set_solver.
Qed.

Lemma remove_bindings_spec p b : bind_ok b ->
  bind_ok (remove_bindings p b) /\ forall x, x ∈ _bindings (remove_bindings p b) <-> x ∈ _bindings b /\ p x = false.
Proof.
  intros [N C F]. unfold remove_bindings.
  destruct (resets_spec (filter (fun x => p x = true) (_bindings b)) (objects b)) as [R1 R2].
  { by apply NoDup_filter. }
  { intros x [_ Hx]%list_elem_of_filter. by apply C. }
  split; [|cbn; intros x; rewrite list_elem_of_filter; tauto].
  split; cbn.
  - by apply NoDup_filter.
  - intros x. rewrite R2, !list_elem_of_filter, C. destruct (p x); naive_solver.
  - by rewrite R1.
Qed.

(** ** The invariant *)

Record server_inv (b : Binder (Provider := Provider)) : Prop := {
  inv_bind : bind_ok b;
  inv_sockets : NoDup (map si_socket (_socketsInfo b));
  inv_objects id1 id2 o : _boundObjects b !! id1 = Some o -> _boundObjects b !! id2 = Some o -> id1 = id2;
  inv_before i : i ∈ _socketsInfo b -> si_before i ⊆ object_set b;
  inv_bound o s : (o, s) ∈ _bindings b <->
    o ∈ object_set b /\ exists i, i ∈ _socketsInfo b /\ si_socket i = s /\ (si_authenticated i = true \/ o ∉ si_before i);
}.

Lemma elem_object_set o b : o ∈ object_set b <-> exists id, _boundObjects b !! id = Some o.
Proof.
  unfold object_set. rewrite elem_of_list_to_set, list_elem_of_fmap. split.
  - intros ([id o'] & -> & H%elem_of_map_to_list). eauto.
  - intros [id H]. exists (id, o). split; [done|]. by apply elem_of_map_to_list.
Qed.

Lemma object_set_same b b' : _boundObjects b' = _boundObjects b -> object_set b' = object_set b.
Proof. unfold object_set. by intros ->. Qed.

Lemma find_info_Some s b i : find_info s b = Some i -> i ∈ _socketsInfo b /\ si_socket i = s.
Proof. unfold find_info. intros [H1 H2]%find_some. apply bool_decide_eq_true in H2. split; [by apply list_elem_of_In|done]. Qed.

Lemma find_info_None s b : find_info s b = None -> forall i, i ∈ _socketsInfo b -> si_socket i <> s.
Proof.
  unfold find_info. intros H i Hi E. apply list_elem_of_In in Hi. apply (find_none _ _ H) in Hi. apply bool_decide_eq_false in Hi. done.
Qed.

(** One information for each socket. *)
Lemma info_unique b i j : server_inv b -> i ∈ _socketsInfo b -> j ∈ _socketsInfo b -> si_socket i = si_socket j -> i = j.
Proof.
  intros I [n Hn]%list_elem_of_lookup [k Hk]%list_elem_of_lookup E. pose proof (inv_sockets _ I) as N.
  assert (n = k) as ->; [|congruence]. apply (NoDup_lookup _ n k (si_socket i) N).
  - rewrite list_lookup_fmap, Hn. done.
  - rewrite list_lookup_fmap, Hk, E. done.
Qed.

Lemma binder_new_inv : server_inv (Binder_new (mkObjects ∅ false)).
Proof.
  split; cbn; [split; cbn; [constructor|intros x; split; [by intros ?%elem_of_nil|set_solver]|done]|constructor|by intros|by intros i ?%elem_of_nil|].
  intros o s. split; [by intros ?%elem_of_nil|]. intros (_ & i & H%elem_of_nil & _). done.
Qed.

(** A change of the information of a socket that keeps what the bindings depend on. *)
Lemma map_info_inv b f : server_inv b -> (forall i, si_socket (f i) = si_socket i) -> (forall i, si_authenticated (f i) = si_authenticated i) ->
  (forall i, si_before (f i) = si_before i) -> server_inv (mkBinder (_boundObjects b) (map f (_socketsInfo b)) (_bindings b) (objects b)).
Proof.
  intros [B S O Bf Bo] F1 F2 F3. split; cbn.
  - destruct B. by split.
  - rewrite map_map. erewrite map_ext; [exact S|]. exact F1.
  - exact O.
  - intros i (j & -> & Hj)%list_elem_of_fmap. rewrite F3. by apply Bf.
  - intros o s. rewrite (Bo o s). apply and_iff_compat_l. split.
    + intros (i & Hi & Hs & Ha). exists (f i). rewrite F1, F2, F3. split; [|done]. apply list_elem_of_fmap. eauto.
    + intros (i & (j & -> & Hj)%list_elem_of_fmap & Hs & Ha). rewrite F1 in Hs. rewrite F2, F3 in Ha. eauto.
Qed.

Lemma update_info_inv {V Factory} s f (x : Server (V := V) (Factory := Factory) (Provider := Provider)) : server_inv (binder x) -> (forall i, si_socket (f i) = si_socket i) -> (forall i, si_authenticated (f i) = si_authenticated i) ->
  (forall i, si_before (f i) = si_before i) -> server_inv (binder (update_info s f x)).
Proof. intros I F1 F2 F3. apply map_info_inv; [done|intros i; by destruct (decide _)..]. Qed.

Lemma add_socket_inv s b b' : server_inv b -> addSocketPendingValidation s b = Some b' -> server_inv b'.
Proof.
  intros [B S O Bf Bo] E. unfold addSocketPendingValidation in E. destruct (find_info s b) eqn:Ef; [done|]. injection E as <-.
  pose proof (find_info_None _ _ Ef) as Hn. split; cbn.
  - destruct B. by split.
  - rewrite map_app. apply NoDup_app. split; [done|]. split; [|apply NoDup_singleton].
    intros y (i & -> & Hi)%list_elem_of_fmap H%list_elem_of_singleton. by destruct (Hn _ Hi).
  - exact O.
  - intros i [Hi | ->%list_elem_of_singleton]%elem_of_app; [by apply Bf|done].
  - intros o t. rewrite (Bo o t). setoid_rewrite elem_of_app. split.
    + intros [Ho (i & Hi & H)]. split; [exact Ho|]. exists i. auto.
    + intros [Ho (i & [Hi | ->%list_elem_of_singleton] & Ht & Ha)]; [by eauto|]. cbn in Ha. by destruct Ha.
Qed.

Lemma unbind_socket_inv s b : server_inv b ->
  server_inv (unbindSocket s (mkBinder (_boundObjects b) (filter (fun i => si_socket i <> s) (_socketsInfo b)) (_bindings b) (objects b))).
Proof.
  intros [B S O Bf Bo]. unfold unbindSocket. set (b1 := mkBinder _ _ _ _).
  destruct (remove_bindings_spec (fun x => bool_decide (snd x = s)) b1) as [R1 R2]; [destruct B; by split|].
  split.
  - exact R1.
  - cbn. clear -S. induction (_socketsInfo b) as [|i l IH]; [done|]. cbn in S. apply NoDup_cons in S as [H1 H2].
    rewrite filter_cons. destruct (decide _); [|by apply IH]. cbn. apply NoDup_cons. split; [|by apply IH].
    intros (j & E & [_ Hj]%list_elem_of_filter)%list_elem_of_fmap. apply H1. apply list_elem_of_fmap. eauto.
  - exact O.
  - cbn. intros i [_ Hi]%list_elem_of_filter. by apply Bf.
  - intros o t. rewrite R2. cbn. rewrite (Bo o t), bool_decide_eq_false. setoid_rewrite list_elem_of_filter. split.
    + intros [[Ho (i & Hi & Ht & Ha)] Hn]. split; [done|]. exists i. split; [|done]. split; [congruence|done].
    + intros [Ho (i & [Hn Hi] & Ht & Ha)]. split; [|congruence]. split; [done|]. eauto.
Qed.

Lemma clear_inv b : server_inv b -> server_inv (snd (clearSockets b)).
Proof.
  intros [B S O Bf Bo]. cbn. set (b1 := mkBinder _ _ _ _).
  destruct (remove_bindings_spec (fun _ => true) b1) as [R1 R2]; [destruct B; by split|].
  split; [exact R1|constructor|exact O|cbn; by intros i ?%elem_of_nil|].
  intros o t. rewrite R2. split; [by intros []|]. intros (_ & i & H%elem_of_nil & _). done.
Qed.

Lemma remove_socket_inv s b : server_inv b -> server_inv (snd (Binder_removeSocket s b)).
Proof. intros I. unfold Binder_removeSocket. destruct (find_info s b); [by apply unbind_socket_inv|done]. Qed.

Lemma add_object_inv id o b : server_inv b -> o ∉ object_set b -> server_inv (snd (Binder_addObject id o b)).
Proof.
  intros [B S O Bf Bo] Ho. unfold Binder_addObject. destruct (_boundObjects b !! id) eqn:Eid; [by split|]. cbn.
  set (b1 := mkBinder _ _ _ _). assert (forall o', o' ∈ object_set b1 <-> o' = o \/ o' ∈ object_set b) as Hset.
  { intros o'. rewrite !elem_object_set. cbn. setoid_rewrite lookup_insert_Some. split.
    - intros (id' & [[_ ->] | [_ H]]); eauto.
    - intros [-> | [id' H]]; [exists id; by left|]. exists id'. right. split; [congruence|done]. }
  destruct (make_bindings_spec (map (fun i => (o, si_socket i)) (_socketsInfo b)) b1) as (M1 & M2 & M3 & M4); [destruct B; by split|].
  unfold bindObject. split.
  - exact M1.
  - by rewrite M3.
  - rewrite M2. cbn. intros id1 id2 o' [[-> <-] | [N1 H1]]%lookup_insert_Some [[-> E] | [N2 H2]]%lookup_insert_Some; [done|..|by eapply O].
    + destruct Ho. apply elem_object_set. eauto.
    + subst o'. destruct Ho. apply elem_object_set. eauto.
  - rewrite M3. intros i Hi o' Ho'. rewrite (object_set_same _ _ M2). apply Hset. right. by apply (Bf i).
  - intros o' t. rewrite M4, M3, (object_set_same _ _ M2), Hset, list_elem_of_fmap. change (_bindings b1) with (_bindings b). rewrite (Bo o' t). split.
    + intros [[H1 H2] | (i & [= -> ->] & Hi)]; [by auto|]. split; [by left|]. exists i. split; [done|]. split; [done|]. right.
      intros Hb. apply Ho. by apply (Bf i).
    + intros [[-> | H1] H2]; [|by auto]. right. destruct H2 as (i & Hi & <- & _). by exists i.
Qed.

Lemma remove_object_inv id b : server_inv b -> server_inv (snd (Binder_removeObject id b)).
Proof.
  intros [B S O Bf Bo]. unfold Binder_removeObject. destruct (_boundObjects b !! id) as [o|] eqn:Eid; [|by split]. cbn.
  set (b1 := mkBinder _ _ _ _). assert (forall o', o' ∈ object_set b1 <-> o' <> o /\ o' ∈ object_set b) as Hset.
  { intros o'. rewrite !elem_object_set. cbn. setoid_rewrite lookup_delete_Some. split.
    - intros (id' & Hn & H). split; [|by eauto]. intros ->. destruct Hn. by eapply O.
    - intros [Hn [id' H]]. exists id'. split; [congruence|done]. }
  destruct (remove_bindings_spec (fun x => bool_decide (fst x = o)) b1) as [R1 R2]; [destruct B; by split|].
  unfold unbindObject. split.
  - exact R1.
  - cbn. rewrite map_map. exact S.
  - cbn. intros id1 id2 o' [_ H1]%lookup_delete_Some [_ H2]%lookup_delete_Some. by eapply O.
  - cbn. intros i (j & -> & Hj)%list_elem_of_fmap o' Ho'. apply Hset. cbn in Ho'. specialize (Bf _ Hj). set_solver.
  - intros o' t. rewrite R2. change (_bindings b1) with (_bindings b). change (o' ∈ object_set _) with (o' ∈ object_set b1). rewrite Hset, (Bo o' t), bool_decide_eq_false. cbn. split.
    + intros [[H1 (i & Hi & Ht & Ha)] Hn]. split; [done|]. exists (forget o i). split; [apply list_elem_of_fmap; eauto|]. split; [done|]. cbn. set_solver.
    + intros [[Hn H1] (i & (j & -> & Hj)%list_elem_of_fmap & Ht & Ha)]. split; [|done]. split; [done|]. exists j. cbn in *. set_solver.
Qed.

Lemma finalize_inv {V Factory} i (x : Server (V := V) (Factory := Factory) (Provider := Provider)) : server_inv (binder x) -> (exists j, j ∈ _socketsInfo (binder x) /\ si_socket j = si_socket i) -> server_inv (binder (finalizeSocketAuthentication i x)).
Proof.
  intros I (i0 & Hi & Ei). pose proof I as [B S O Bf Bo]. unfold finalizeSocketAuthentication, validateSocket, bindSocket. set (s := si_socket i). set (b := binder x) in *.
  destruct (make_bindings_spec (map (fun o => (o, s)) (map_to_list (_boundObjects b)).*2) b B) as (M1 & M2 & M3 & M4).
  set (b1 := make_bindings _ b) in *. cbn. unfold object_set in *. split; cbn; rewrite ?M2, ?M3; unfold object_set; cbn; rewrite ?M2.
  - destruct M1. by split.
  - rewrite map_map. erewrite map_ext; [exact S|]. intros j. by destruct (decide _).
  - exact O.
  - intros j (k & -> & Hk)%list_elem_of_fmap. destruct (decide (si_socket k = s)); exact (Bf k Hk).
  - intros o t. rewrite M4, (Bo o t), list_elem_of_fmap. rewrite elem_of_list_to_set. split.
    + intros [[Ho (j & Hj & Ht & Ha)] | (o' & [= -> ->] & Ho)].
      * split; [done|]. exists (if decide (si_socket j = s) then setAuthenticated j else j). split; [apply list_elem_of_fmap; eauto|].
        destruct (decide _); cbn; auto.
      * split; [done|]. exists (setAuthenticated i0). split; [|cbn; auto]. apply list_elem_of_fmap. exists i0. by rewrite decide_True.
    + intros [Ho (j & (k & -> & Hk)%list_elem_of_fmap & Ht & Ha)]. destruct (decide (si_socket k = s)) as [E|E].
      * right. exists o. cbn in Ht. split; [congruence|done].
      * left. split; [done|]. eauto.
Qed.
End invariant.

Section handlers.
Context {V Factory Provider : Type}.
Variable to_uint : V -> option Z.
Variable of_uint : Z -> V.
Variable newProvider : Factory -> option Provider.
Variable _processAuth : Provider -> gmap bytes V -> Provider * option (gmap bytes V).
Variable localCapabilities : Socket -> gmap bytes V.
Variable remoteEndpoint : Socket -> option V.
Variable _enforceAuth : bool.
Abbreviation Srv := (Server (V := V) (Factory := Factory) (Provider := Provider)).
Abbreviation handle := (Server.handle to_uint of_uint newProvider _processAuth localCapabilities remoteEndpoint _enforceAuth).
Implicit Types (x : Srv) (i : SocketInfo (Provider := Provider)) (m : ServerMessage (V := V)).

Lemma reply_inv r i a x : server_inv (binder x) -> server_inv (binder (sendAuthReply localCapabilities r i a x)).
Proof. intros I. by apply update_info_inv. Qed.

Lemma sendCapabilities_inv i x : server_inv (binder x) -> server_inv (binder (sendCapabilitiesMessage localCapabilities i x)).
Proof. intros I. by apply update_info_inv. Qed.

(** The information of a socket is still there after a change. *)
Lemma update_info_known s f i x : i ∈ _socketsInfo (binder x) -> (forall j, si_socket (f j) = si_socket j) ->
  exists j, j ∈ _socketsInfo (binder (update_info s f x)) /\ si_socket j = si_socket i.
Proof.
  intros Hi Hf. exists (if decide (si_socket i = s) then f i else i). split; [apply list_elem_of_fmap; eauto|]. by destruct (decide _).
Qed.

Lemma authenticate_inv m i x : server_inv (binder x) -> i ∈ _socketsInfo (binder x) ->
  server_inv (binder (snd (authenticateSocket to_uint _processAuth localCapabilities remoteEndpoint m i x))).
Proof.
  intros I Hi. unfold authenticateSocket. destruct (msg_value m) as [d|], (si_authProvider i) as [p|]; try exact I.
  destruct (processAuth _ _ _) as [p' r]. assert (server_inv (binder (update_info (si_socket i) (setAuthProvider p') x))) as I' by (by apply update_info_inv).
  destruct r as [r|]; [|exact I']. destruct (r !! State_Key) as [v|]; [|exact I']. destruct (to_uint v) as [state|]; [|exact I'].
  destruct (state =? State_Cont)%Z; [by apply reply_inv|]. destruct (state =? State_Done)%Z; [|exact I'].
  apply reply_inv, finalize_inv; [exact I'|]. by apply update_info_known.
Qed.

Lemma message_inv m i x : server_inv (binder x) -> i ∈ _socketsInfo (binder x) ->
  server_inv (binder (snd (handleServerMessage to_uint of_uint _processAuth localCapabilities remoteEndpoint _enforceAuth m i x))).
Proof.
  intros I Hi. unfold handleServerMessage, handleServerMessageAuth, handleServerMessageNoAuth.
  destruct (si_authenticated i); [cbn; destruct (isAuthRequest m); [by apply reply_inv|done]|].
  destruct _enforceAuth; [destruct (negb _); [exact I|by apply authenticate_inv]|].
  assert (server_inv (binder (finalizeSocketAuthentication i x))) as I' by (apply finalize_inv; eauto).
  cbn. destruct (isAuthRequest m); [by apply reply_inv|by apply sendCapabilities_inv].
Qed.

Lemma handle_inv e x : server_inv (binder x) -> event_ok e x -> server_inv (binder (snd (handle e x))).
Proof.
  intros I Ok. destruct e as [s|s|s m|s|id o|id|f| |]; cbn [Server.handle];
    unfold addOutgoingSocket, addIncomingSocket, serverMessageHandler, Server_removeSocket, Server_addObject, Server_removeObject, setAuthProviderFactory, closeImpl, safeCall;
    try (destruct (opened x); [|exact I]).
  - unfold addSocket. destruct (addSocketPendingValidation s (binder x)) as [b|] eqn:E; [|exact I]. by eapply add_socket_inv.
  - unfold addSocket. destruct (addSocketPendingValidation s (binder x)) as [b|] eqn:E; [|exact I]. apply add_socket_inv in E; [|done].
    destruct (newProvider _) as [p|]; [|exact E]. cbn [snd binder]. by apply update_info_inv; [apply update_info_inv|..].
  - destruct (find_info s (binder x)) as [i|] eqn:E; [|exact I]. destruct (si_handler i); [|exact I]. apply message_inv; [done|]. by apply find_info_Some in E as [E _].
  - pose proof (remove_socket_inv s _ I) as H. destruct (Binder_removeSocket s (binder x)) as [[r l] b]. exact H.
  - pose proof (add_object_inv id o _ I Ok) as H. destruct (Binder_addObject id o (binder x)) as [r b]. exact H.
  - pose proof (remove_object_inv id _ I) as H. destruct (Binder_removeObject id (binder x)) as [r b]. exact H.
  - exact I.
  - exact (clear_inv _ I).
  - exact I.
Qed.

Lemma server_reachable_inv f x : reachable to_uint of_uint newProvider _processAuth localCapabilities remoteEndpoint _enforceAuth f x -> server_inv (binder x).
Proof. induction 1 as [|x e _ IH Ok]; [exact binder_new_inv|by apply handle_inv]. Qed.

(** ** Who is authenticated *)

Definition authenticated (s : Socket) x : Prop := exists i, i ∈ _socketsInfo (binder x) /\ si_socket i = s /\ si_authenticated i = true.

Lemma same_infos_authenticated s x x' : (forall i, i ∈ _socketsInfo (binder x') -> si_authenticated i = true ->
    exists j, j ∈ _socketsInfo (binder x) /\ si_socket j = si_socket i /\ si_authenticated j = true) ->
  authenticated s x' -> authenticated s x.
Proof. intros H (i & Hi & Hs & Ha). destruct (H _ Hi Ha) as (j & Hj & Ej & Aj). exists j. split; [done|]. split; [congruence|done]. Qed.

Lemma update_info_authenticated t s f x : (forall i, si_socket (f i) = si_socket i) -> (forall i, si_authenticated (f i) = si_authenticated i) ->
  authenticated t (update_info s f x) -> authenticated t x.
Proof.
  intros F1 F2. apply same_infos_authenticated. intros i (j & -> & Hj)%list_elem_of_fmap Ha. exists j. split; [done|].
  destruct (decide _); rewrite ?F1, ?F2 in *; done.
Qed.

Lemma make_bindings_infos l b : _socketsInfo (make_bindings (Provider := Provider) l b) = _socketsInfo b.
Proof. revert b. induction l as [|y l IH]; intros b; [done|]. cbn. destruct (SocketBinding_make _ _) as [[z|] w]; by rewrite IH. Qed.

Lemma finalize_authenticated t i x : authenticated t (finalizeSocketAuthentication i x) -> t = si_socket i \/ authenticated t x.
Proof.
  intros (j & (k & -> & Hk)%list_elem_of_fmap & Hs & Ha). cbn in Hk. unfold validateSocket, bindSocket in Hk. rewrite make_bindings_infos in Hk.
  destruct (decide (si_socket k = si_socket i)) as [E|E]; cbn in Hs; [left; congruence|right; by exists k].
Qed.

(** A provider accepts what the client sent. *)
Definition accepts (p : Provider) (d : gmap bytes V) : Prop :=
  exists p' r v, _processAuth p d = (p', Some r) /\ r !! State_Key = Some v /\ to_uint v = Some State_Done.

Lemma authenticate_authenticated t m i x :
  authenticated t (snd (authenticateSocket to_uint _processAuth localCapabilities remoteEndpoint m i x)) -> ~ authenticated t x ->
  t = si_socket i /\ exists d p, msg_value m = Some d /\ si_authProvider i = Some p /\ accepts p (extractAuthData (with_endpoint remoteEndpoint t d)).
Proof.
  unfold authenticateSocket. destruct (msg_value m) as [d|]; [|by intros]. destruct (si_authProvider i) as [p|]; [|by intros].
  unfold processAuth. destruct (_processAuth p _) as [p' r] eqn:Ep.
  assert (authenticated t (update_info (si_socket i) (setAuthProvider p') x) -> authenticated t x) as Hup by (by apply update_info_authenticated).
  destruct r as [r|]; [|intros H N; destruct N; by apply Hup]. rewrite prepare_state. destruct (r !! State_Key) as [v|] eqn:Ev; [|intros H N; destruct N; by apply Hup].
  destruct (to_uint v) as [state|] eqn:Eu; [|intros H N; destruct N; by apply Hup].
  assert (forall r' y, authenticated t (sendAuthReply localCapabilities r' i (msg_address m) y) -> authenticated t y) as Hr by (intros r' y; by apply update_info_authenticated).
  destruct (state =? State_Cont)%Z; [intros H%Hr N; destruct N; by apply Hup|].
  destruct (state =? State_Done)%Z eqn:Es; [|intros H N; destruct N; by apply Hup].
  intros H%Hr N. apply finalize_authenticated in H as [Ht|H]; [|destruct N; by apply Hup]. split; [done|]. exists d, p. split; [done|]. split; [done|].
  apply Z.eqb_eq in Es. rewrite Es in Eu. exists p', r, v. rewrite Ht. done.
Qed.

Lemma message_authenticated t m i x : _enforceAuth = true ->
  authenticated t (snd (handleServerMessage to_uint of_uint _processAuth localCapabilities remoteEndpoint _enforceAuth m i x)) -> ~ authenticated t x ->
  t = si_socket i /\ isAuthRequest m = true /\
  exists d p, msg_value m = Some d /\ si_authProvider i = Some p /\ accepts p (extractAuthData (with_endpoint remoteEndpoint t d)).
Proof.
  unfold handleServerMessage, handleServerMessageAuth. intros ->.
  destruct (si_authenticated i).
  - cbn. destruct (isAuthRequest m); [|by intros]. intros H N. destruct N. revert H. by apply update_info_authenticated.
  - destruct (isAuthRequest m); cbn [negb]; [|by intros]. intros H N. by destruct (authenticate_authenticated _ _ _ _ H N) as (E & ?).
Qed.

Lemma handle_authenticated t e x : _enforceAuth = true -> authenticated t (snd (handle e x)) -> ~ authenticated t x ->
  exists m i d p, e = ServerMsg t m /\ isAuthRequest m = true /\ find_info t (binder x) = Some i /\ msg_value m = Some d /\
    si_authProvider i = Some p /\ accepts p (extractAuthData (with_endpoint remoteEndpoint t d)).
Proof.
  intros He H N. destruct e as [s|s|s m|s|id o|id|f| |]; cbn [Server.handle] in H;
    unfold addOutgoingSocket, addIncomingSocket, serverMessageHandler, Server_removeSocket, Server_addObject, Server_removeObject, setAuthProviderFactory, closeImpl, safeCall in H;
    try (destruct (opened x); [|done]).
  all: try (destruct N; done).
  - destruct N. revert H. unfold addSocket, addSocketPendingValidation. destruct (find_info s (binder x)); [done|]. apply same_infos_authenticated.
    cbn. intros i [Hi | ->%list_elem_of_singleton]%elem_of_app Ha; [by eauto|done].
  - destruct N. revert H. unfold addSocket, addSocketPendingValidation. destruct (find_info s (binder x)); [done|].
    match goal with |- context [set_binder ?b x] => assert (authenticated t (set_binder b x) -> authenticated t x) as Ha end.
    { apply same_infos_authenticated. cbn. intros i [Hi | ->%list_elem_of_singleton]%elem_of_app Ha; [by eauto|done]. }
    destruct (newProvider _) as [p|]; [|exact Ha]. intros H. apply Ha. revert H. cbn [snd].
    intros H. apply (update_info_authenticated t s (setAuthProvider p)), (update_info_authenticated t s setServerMessageHandler); done.
  - destruct (find_info s (binder x)) as [i|] eqn:Ei; [|done]. destruct (si_handler i); [|done].
    destruct (message_authenticated _ _ _ _ He H N) as (Et & Em & d & p & Ed & Ep & Hacc). apply find_info_Some in Ei as Ei'. destruct Ei' as [_ Es].
    rewrite Es in Et. subst s. exists m, i, d, p. done.
  - destruct N. revert H. unfold Binder_removeSocket. destruct (find_info s (binder x)); [|done]. apply same_infos_authenticated. cbn.
    intros i [_ Hi]%list_elem_of_filter Ha. eauto.
  - destruct N. revert H. unfold Binder_addObject. destruct (_boundObjects (binder x) !! id); [done|]. apply same_infos_authenticated. cbn. unfold bindObject.
    rewrite make_bindings_infos. cbn. eauto.
  - destruct N. revert H. unfold Binder_removeObject. destruct (_boundObjects (binder x) !! id); [|done]. apply same_infos_authenticated. cbn.
    intros i (j & -> & Hj)%list_elem_of_fmap Ha. eauto.
  - destruct H as (i & Hi & _). cbn in Hi. by apply elem_of_nil in Hi.
Qed.

(** ** Properties *)

(** C28. The bindings of a server. In every state that any sequence of calls and messages leads to, when every object is made for one
    service, an object is bound to a socket once, exactly when it accepts the messages of the socket, and no assertion of a binding fails.
    It is so exactly when the object is registered, the
    socket is known, and the socket is authenticated or the object was added after the socket.
    So an authenticated socket is bound to every object, and nothing is left of a socket or an object that was removed. *)
Theorem server_bindings f x o s : reachable to_uint of_uint newProvider _processAuth localCapabilities remoteEndpoint _enforceAuth f x ->
  NoDup (_bindings (binder x)) /\ failed (objects (binder x)) = false /\
  ((o, s) ∈ connections (objects (binder x)) <-> (o, s) ∈ _bindings (binder x)) /\
  ((o, s) ∈ connections (objects (binder x)) <->
    o ∈ object_set (binder x) /\ exists i, i ∈ _socketsInfo (binder x) /\ si_socket i = s /\ (si_authenticated i = true \/ o ∉ si_before i)) /\
  (authenticated s x -> o ∈ object_set (binder x) -> (o, s) ∈ connections (objects (binder x))).
Proof.
  intros R%server_reachable_inv. destruct (inv_bind _ R) as [N C F]. split; [exact N|]. split; [exact F|]. split; [symmetry; apply C|].
  rewrite <- (C (o, s)). split; [apply R|]. intros (i & Hi & Hs & Ha) Ho. apply (inv_bound _ R). split; [exact Ho|]. exists i. auto.
Qed.

(** C29. With authentication, no socket becomes authenticated but by a request of its own that the provider made for it accepts: the provider is
    given what the client prepared, with the address of the remote end, and it answers that the authentication is done. *)
Theorem server_authenticates x e s : _enforceAuth = true -> authenticated s (snd (handle e x)) -> ~ authenticated s x ->
  exists m i p d, e = ServerMsg s m /\ isAuthRequest m = true /\ find_info s (binder x) = Some i /\ si_authProvider i = Some p /\ msg_value m = Some d /\
    accepts p (extractAuthData (with_endpoint remoteEndpoint s d)) /\
    (forall data, d = prepareAuthCaps data -> remoteEndpoint s = None -> accepts p data).
Proof.
  intros He H N. destruct (handle_authenticated _ _ _ He H N) as (m & i & d & p & -> & Em & Ei & Ed & Ep & Hacc).
  exists m, i, p, d. do 6 (split; [done|]). intros data -> Hn. unfold with_endpoint in Hacc. rewrite Hn, extract_prepare in Hacc. exact Hacc.
Qed.
End handlers.

(** ** Runs of a server whose provider asks for a user *)

Section examples.
Definition user : bytes := lit "user".
Definition check_user (p : unit) (d : gmap bytes Z) : unit * option (gmap bytes Z) :=
  (tt, Some {[State_Key := if decide (d !! user = Some 7%Z) then State_Done else State_Error]}).
(** A provider that also gives something back. *)
Definition check_nothing (state : option Z) (p : unit) (d : gmap bytes Z) : unit * option (gmap bytes Z) :=
  (tt, Some (match state with Some n => {[State_Key := n; user := 7%Z]} | None => {[user := 7%Z]} end)).

Definition example_handle (_processAuth : unit -> gmap bytes Z -> unit * option (gmap bytes Z)) (e : event) (x : Server) : bool * Server :=
  handle Some (fun z : Z => z) (fun _ : unit => Some tt) _processAuth (fun _ => ∅) (fun _ => None) true e x.
Definition run (_processAuth : unit -> gmap bytes Z -> unit * option (gmap bytes Z)) (l : list (event (V := Z) (Factory := unit))) : Server (V := Z) :=
  foldl (fun x e => snd (example_handle _processAuth e x)) (Server_new tt (mkObjects ∅ false)) l.

Definition login (n : Z) : ServerMessage := mkServerMessage Type_Call ServerFunction_Authenticate 5 (Some (prepareAuthCaps {[user := n]})).

(** An object, a socket, an object and the authentication of the socket. *)
Definition served : list (event (V := Z) (Factory := unit)) := [AddObject 2 8; AddIncoming 1; AddObject 3 9; ServerMsg 1 (login 7)].

Lemma found_authenticated {V Factory Provider} s (x : Server (V := V) (Factory := Factory) (Provider := Provider)) :
  si_authenticated <$> find_info s (binder x) = Some true -> authenticated s x.
Proof. destruct (find_info s (binder x)) as [i|] eqn:E; [|done]. intros [= H]. apply find_info_Some in E as [E1 E2]. by exists i. Qed.

Lemma server_bindings_witness :
  let x := run check_user served in (8, 1) ∈ connections (objects (binder x)) /\ (9, 1) ∈ connections (objects (binder x)).
Proof.
  intros x. assert (reachable Some (fun z : Z => z) (fun _ : unit => Some tt) check_user (fun _ => ∅) (fun _ => None) true tt x) as R.
  { unfold x, run, served. cbn [foldl]. repeat apply reachable_step; [constructor|..]; cbn [event_ok]; try exact I; apply (bool_decide_unpack _); vm_compute; exact I. }
  assert (authenticated 1 x) as A by (apply found_authenticated; vm_compute; reflexivity).
  split.
  - apply (server_bindings Some (fun z : Z => z) (fun _ : unit => Some tt) check_user (fun _ => ∅) (fun _ => None) true tt x 8 1 R); [exact A|].
    apply (bool_decide_unpack _). vm_compute. exact I.
  - apply (server_bindings Some (fun z : Z => z) (fun _ : unit => Some tt) check_user (fun _ => ∅) (fun _ => None) true tt x 9 1 R); [exact A|].
    apply (bool_decide_unpack _). vm_compute. exact I.
Defined.

Lemma server_authenticates_witness :
  let x := run check_user [AddIncoming 1] in
  exists i p d, find_info 1 (binder x) = Some i /\ si_authProvider i = Some p /\ accepts Some check_user p (extractAuthData d).
Proof.
  intros x. destruct (server_authenticates Some (fun z : Z => z) (fun _ : unit => Some tt) check_user (fun _ => ∅) (fun _ => None) true x (ServerMsg 1 (login 7)) 1)
    as (m & i & p & d & _ & _ & Hi & Hp & _ & Ha & _).
  - reflexivity.
  - apply found_authenticated. vm_compute. reflexivity.
  - intros (j & Hj & _ & Aj). vm_compute in Hj. apply list_elem_of_In in Hj. destruct Hj as [<-|[]]. discriminate.
  - exists i, p, d. split; [exact Hi|]. split; [exact Hp|exact Ha].
Defined.

(** A wrong user is refused and the socket is disconnected. *)
Example wrong_user_refused :
  let x := run check_user [AddObject 2 8; AddIncoming 1; ServerMsg 1 (login 6)] in
  sent x = [(1, SError 5)] /\ disconnected x = [1] /\ bool_decide ((8, 1) ∈ connections (objects (binder x))) = false.
Proof. vm_compute. done. Qed.

(** A socket that is not authenticated is bound to an object that is added after it. *)
Example pending_socket_bound :
  let x := run check_user [AddIncoming 1; AddObject 2 8] in
  map si_authenticated (_socketsInfo (binder x)) = [false] /\ bool_decide ((8, 1) ∈ connections (objects (binder x))) = true.
Proof. vm_compute. done. Qed.

(** A socket to another server is not bound to the objects that are there already. *)
Example outgoing_not_bound :
  bool_decide ((8, 1) ∈ connections (objects (binder (run check_user [AddObject 2 8; AddOutgoing 1])))) = false /\
  bool_decide ((8, 1) ∈ connections (objects (binder (run check_user [AddOutgoing 1; AddObject 2 8])))) = true.
Proof. vm_compute. done. Qed.

(** Without the state in what the provider gives, the client gets nothing and stays connected. *)
Example state_missing_ignored :
  let x := run (check_nothing None) [AddIncoming 1; ServerMsg 1 (login 7)] in sent x = [] /\ disconnected x = [].
Proof. vm_compute. done. Qed.

(** What the provider gives with the end of the authentication is sent to the client. *)
Example done_data_sent :
  match sent (run (check_nothing (Some State_Done)) [AddIncoming 1; ServerMsg 1 (login 7)]) with
  | [(1, SReply 5 r)] => bool_decide (r !! (UserAuthPrefix ++ user) = Some 7%Z)
  | _ => false
  end = true.
Proof. vm_compute. done. Qed.
End examples.
