(* ===== verification/SessionService.v ===== *)
(** * SessionService: the requests of services of a session

    Model of [src/messaging/sessionservice.cpp]: from [Session_Service::service] to the
    object of the service, through the directory, the cache of sockets, the authentication
    and the remote object. The parts that the requests wait for are outside: a continuation
    that waits is in a list, and an event gives it its result. Each continuation holds the
    mutex of the requests, so it is a function of the whole state. *)
From S2P Require Import Prelude CString Message Authentication.
Open Scope nat_scope.

(** ** The data *)

Inductive promise_state := PRunning | PValue (o : nat) | PError | PCanceled.

Record ServiceRequest := mkServiceRequest {
  sr_promise : nat;
  sr_name : bytes;
  (** a remote object, by its number *)
  sr_remoteObject : option nat;
}.

Inductive wait :=
  | WInfo (requestId : nat) (protocol : bytes)
  | WSocket (requestId : nat)
  | WListener (requestId : nat)
  | WMetaObject (requestId : nat)
  (** the two steps of the function of cancellation *)
  | WCancel (requestId p : nat)
  | WSetCanceled (p : nat).

Record Session_Service := mkSession_Service {
  promises : list promise_state;
  requests : gmap nat ServiceRequest;
  requestsIndex : nat;
  remoteObjects : gmap bytes nat;
  (** the remote objects that were made *)
  remotes : nat;
  waits : list wait;
  (** the promises whose cancellation was asked for *)
  canceled : gset nat;
  (** a promise was set twice out of a cancellation, and in one *)
  failed : bool;
  cancel_failed : bool;
  (** for the theorems: what was asked for with each promise, and the objects that were added *)
  asked : list bytes;
  added : list (bytes * nat);
}.

Definition Session_Service_new : Session_Service := mkSession_Service [] ∅ 0 ∅ 0 [] ∅ false false [] [].

Definition set_promises l x := mkSession_Service l (requests x) (requestsIndex x) (remoteObjects x) (remotes x) (waits x) (canceled x) (failed x) (cancel_failed x) (asked x) (added x).
Definition set_requests r x := mkSession_Service (promises x) r (requestsIndex x) (remoteObjects x) (remotes x) (waits x) (canceled x) (failed x) (cancel_failed x) (asked x) (added x).
Definition set_remotes n x := mkSession_Service (promises x) (requests x) (requestsIndex x) (remoteObjects x) n (waits x) (canceled x) (failed x) (cancel_failed x) (asked x) (added x).
Definition set_remoteObjects m a x := mkSession_Service (promises x) (requests x) (requestsIndex x) m (remotes x) (waits x) (canceled x) (failed x) (cancel_failed x) (asked x) a.
Definition set_waits l x := mkSession_Service (promises x) (requests x) (requestsIndex x) (remoteObjects x) (remotes x) l (canceled x) (failed x) (cancel_failed x) (asked x) (added x).
Definition set_failed b c x := mkSession_Service (promises x) (requests x) (requestsIndex x) (remoteObjects x) (remotes x) (waits x) (canceled x) b c (asked x) (added x).
Definition set_canceled s x := mkSession_Service (promises x) (requests x) (requestsIndex x) (remoteObjects x) (remotes x) (waits x) s (failed x) (cancel_failed x) (asked x) (added x).
Definition await (w : wait) x := set_waits (waits x ++ [w]) x.

(** A promise is set; false when it was set already, which throws. *)
Definition set_promise (p : nat) (st : promise_state) (x : Session_Service) : bool * Session_Service :=
  match promises x !! p with
  | Some PRunning => (true, set_promises (<[p := st]> (promises x)) x)
  | _ => (false, x)
  end.

Definition serviceRequest (requestId : nat) (x : Session_Service) : option ServiceRequest := requests x !! requestId.
Definition removeRequest (requestId : nat) (x : Session_Service) : Session_Service := set_requests (delete requestId (requests x)) x.

(** The exception of a promise that is set is caught. *)
Definition setErrorAndRemoveRequest (p requestId : nat) (x : Session_Service) : Session_Service :=
  removeRequest requestId (snd (set_promise p PError x)).

(** The guard at the end of a continuation, when it must set the promise. *)
Definition SetPromiseInError (p requestId : nat) (x : Session_Service) : Session_Service :=
  match promises x !! p with
  | Some PRunning => setErrorAndRemoveRequest p requestId x
  | _ => x
  end.

(** ** The continuations *)

(** The end of the cases in which the remote object is made. *)
Definition fetchMetaObject (requestId : nat) (sr : ServiceRequest) (x : Session_Service) : Session_Service :=
  let n := remotes x in
  await (WMetaObject requestId)
    (set_requests (<[requestId := mkServiceRequest (sr_promise sr) (sr_name sr) (Some n)]> (requests x)) (set_remotes (S n) x)).

(** The message that is forged for a socket that is authenticated. *)
Definition dummy_done : auth_message := mkAuthMessage Type_Reply 0 ServerFunction_Authenticate (Some (Some State_Done)).

Section session.
Variable _enforceAuth : bool.

(** [onAuthentication]; true when the listener goes on. [uid] is false when
    the identifier of the object is not one, which throws. *)
Definition onAuthentication (data : socket_event) (requestId : nat) (uid : bool) (x : Session_Service) : bool * Session_Service :=
  match serviceRequest requestId x with
  | None => (true, x)
  | Some sr =>
      let p := sr_promise sr in
      let made := if uid then fetchMetaObject requestId sr x else SetPromiseInError p requestId x in
      match data with
      | EventError => (false, setErrorAndRemoveRequest p requestId x)
      | EventMessage m =>
          if is_failure m then
            if _enforceAuth then (false, setErrorAndRemoveRequest p requestId x) else (false, made)
          else
            match am_state m with
            | None => (true, SetPromiseInError p requestId x)
            | Some None => (false, setErrorAndRemoveRequest p requestId x)
            | Some (Some state) =>
                if (state <? State_Error)%Z || (State_Done <? state)%Z then (false, setErrorAndRemoveRequest p requestId x)
                else if (state =? State_Done)%Z then (false, made)
                else
                  (* the authenticator throws, or the next message is sent; the guard sets the promise *)
                  (true, SetPromiseInError p requestId x)
            end
      end
  end.

Inductive socket_result :=
  | SocketFailed
  (** a socket that has the capabilities of the other end, or not; an authenticator may throw *)
  | SocketKnown (uid : bool)
  | SocketNew (authenticates : bool).

Definition onTransportSocketResult (value : socket_result) (requestId : nat) (x : Session_Service) : Session_Service :=
  match serviceRequest requestId x with
  | None => x
  | Some sr =>
      match value with
      | SocketFailed => setErrorAndRemoveRequest (sr_promise sr) requestId x
      | SocketKnown uid => snd (onAuthentication (EventMessage dummy_done) requestId uid x)
      | SocketNew true => await (WListener requestId) x
      | SocketNew false => SetPromiseInError (sr_promise sr) requestId x
      end
  end.

Definition addService (name : bytes) (o : nat) (x : Session_Service) : option Session_Service :=
  match remoteObjects x !! name with
  | Some _ => None
  | None => Some (set_remoteObjects (<[name := o]> (remoteObjects x)) (added x ++ [(name, o)]) x)
  end.

(** A promise that was set already would throw; the guard would then find it set. *)
Definition set_value (p o : nat) (x : Session_Service) : Session_Service :=
  match set_promise p (PValue o) x with (true, x) => x | (false, x) => set_failed true (cancel_failed x) x end.

Definition onRemoteObjectComplete (ok : bool) (requestId : nat) (x : Session_Service) : Session_Service :=
  match serviceRequest requestId x with
  | None => x
  | Some sr =>
      if negb ok then setErrorAndRemoveRequest (sr_promise sr) requestId x
      else
        match remoteObjects x !! sr_name sr, sr_remoteObject sr with
        | Some o, _ => removeRequest requestId (set_value (sr_promise sr) o x)
        | None, Some o =>
            match addService (sr_name sr) o x with
            | Some x => removeRequest requestId (set_value (sr_promise sr) o x)
            | None => SetPromiseInError (sr_promise sr) requestId x
            end
        | None, None => set_failed true (cancel_failed x) x
        end
  end.

(** What the directory answers: the name of the service, whether there are endpoints, and the
    protocols that they have; for a local directory, what is known of the socket of the service. *)
Inductive local_socket := NotLocal | LocalThrows | LocalSocket (r : socket_result) | LocalOther.
Record service_info := mkServiceInfo { info_name : bytes; info_endpoints : list bytes; info_local : local_socket }.

Definition onServiceInfo (fut : option service_info) (requestId : nat) (protocol : bytes) (x : Session_Service) : Session_Service :=
  match serviceRequest requestId x with
  | None => x
  | Some sr =>
      let p := sr_promise sr in
      match fut with
      | None => setErrorAndRemoveRequest p requestId x
      | Some si =>
          let x := set_requests (<[requestId := mkServiceRequest p (info_name si) (sr_remoteObject sr)]> (requests x)) x in
          match info_local si with
          | LocalThrows => SetPromiseInError p requestId x
          | LocalSocket r => onTransportSocketResult r requestId x
          | _ =>
              match info_endpoints si with
              | [] => setErrorAndRemoveRequest p requestId x
              | l =>
                  let x := if bool_decide (protocol <> [] /\ protocol ∉ l) then setErrorAndRemoveRequest p requestId x else x in
                  await (WSocket requestId) x
              end
          end
      end
  end.

(** ** The operations *)

Inductive service_result := Immediate (o : nat) | NoLocalObject | Pending (p : nat).

Definition find_request (service : bytes) (x : Session_Service) : option ServiceRequest :=
  snd <$> find (fun e => bool_decide (sr_name (snd e) = service)) (map_to_list (requests x)).

(** [service]; [local] is the object that the session registered under the name, if any. *)
Definition service (name protocol : bytes) (local : option nat) (x : Session_Service) : service_result * Session_Service :=
  match (if bool_decide (protocol = [] \/ protocol = lit "local") then local else None) with
  | Some o => (Immediate o, x)
  | None =>
      if bool_decide (protocol = lit "local") then (NoLocalObject, x)
      else
        match remoteObjects x !! name with
        | Some o => (Immediate o, x)
        | None =>
            match find_request name x with
            | Some sr => (Pending (sr_promise sr), x)
            | None =>
                let requestId := S (requestsIndex x) in
                let p := length (promises x) in
                (Pending p,
                 mkSession_Service (promises x ++ [PRunning]) (<[requestId := mkServiceRequest p name None]> (requests x)) requestId
                   (remoteObjects x) (remotes x) (waits x ++ [WInfo requestId protocol]) (canceled x) (failed x) (cancel_failed x)
                   (asked x ++ [name]) (added x))
            end
        end
  end.

Definition removeService (service : bytes) (x : Session_Service) : Session_Service :=
  set_remoteObjects (delete service (remoteObjects x)) (added x) x.
Definition close (x : Session_Service) : Session_Service := set_remoteObjects ∅ (added x) x.

(** The future of a request is cancelled: the function of cancellation is called once, while the promise runs. *)
Definition cancel (requestId p : nat) (x : Session_Service) : option Session_Service :=
  match promises x !! p with
  | Some PRunning => if decide (p ∈ canceled x) then None else Some (await (WCancel requestId p) (set_canceled (canceled x ∪ {[p]}) x))
  | _ => None
  end.

(** ** Steps *)

Inductive result :=
  | RInfo (fut : option service_info)
  | RSocket (value : socket_result)
  | REvent (data : socket_event) (uid : bool)
  | RMetaObject (ok : bool)
  | RCancel.

Inductive event :=
  | Service (name protocol : bytes) (local : option nat)
  | RemoveService (name : bytes)
  | Close
  | Cancel (requestId p : nat)
  | Resume (n : nat) (r : result).

(** The directory answers with the service that it was asked for. *)
Definition info_ok (requestId : nat) (fut : option service_info) (x : Session_Service) : bool :=
  match fut, serviceRequest requestId x with
  | Some si, Some sr => bool_decide (info_name si = sr_name sr)
  | _, _ => true
  end.

Definition resume (w : wait) (r : result) (x : Session_Service) : option Session_Service :=
  match w, r with
  | WInfo requestId protocol, RInfo fut => if info_ok requestId fut x then Some (onServiceInfo fut requestId protocol x) else None
  | WSocket requestId, RSocket value => Some (onTransportSocketResult value requestId x)
  | WListener requestId, REvent data uid =>
      match onAuthentication data requestId uid x with
      | (true, x) => Some (await (WListener requestId) x)
      | (false, x) => Some x
      end
  | WMetaObject requestId, RMetaObject ok => Some (onRemoteObjectComplete ok requestId x)
  | WCancel requestId p, RCancel => Some (await (WSetCanceled p) (removeRequest requestId x))
  | WSetCanceled p, RCancel =>
      match set_promise p PCanceled x with
      | (true, x) => Some x
      | (false, x) => Some (set_failed (failed x) true x)
      end
  | _, _ => None
  end.

Definition step (e : event) (x : Session_Service) : option Session_Service :=
  match e with
  | Service name protocol local => Some (snd (service name protocol local x))
  | RemoveService name => Some (removeService name x)
  | Close => Some (close x)
  | Cancel requestId p =>
      (* the function of cancellation knows the identifier of its request *)
      match serviceRequest requestId x with
      | Some sr => if decide (sr_promise sr = p) then cancel requestId p x else None
      | None => None
      end
  | Resume n r =>
      w ← waits x !! n;
      resume w r (set_waits (take n (waits x) ++ drop (S n) (waits x)) x)
  end.

Inductive reachable : Session_Service -> Prop :=
  | reachable_new : reachable Session_Service_new
  | reachable_step x e x' : reachable x -> step e x = Some x' -> reachable x'.
End session.

(** ** The invariant *)

(** The request that a continuation is for. *)
Definition wait_request (w : wait) : option nat :=
  match w with WInfo r _ | WSocket r | WListener r | WMetaObject r => Some r | _ => None end.

Definition known_wait (n k : nat) (w : wait) : Prop :=
  match w with WInfo r _ | WSocket r | WListener r | WMetaObject r => r <= n | WCancel r p => r <= n /\ p < k | WSetCanceled p => p < k end.

Section inv.
Context (ps : list promise_state) (rs : gmap nat ServiceRequest) (idx : nat) (ro : gmap bytes nat) (ws : list wait).
Context (ask : list bytes) (add : list (bytes * nat)).

Record session_inv : Prop := {
  inv_running rid r : rs !! rid = Some r -> ps !! sr_promise r = Some PRunning;
  inv_asked rid r : rs !! rid = Some r -> ask !! sr_promise r = Some (sr_name r);
  inv_index rid r : rs !! rid = Some r -> rid <= idx;
  inv_waited rid r : rs !! rid = Some r -> exists w, w ∈ ws /\ wait_request w = Some rid;
  inv_promise rid1 rid2 r1 r2 : rs !! rid1 = Some r1 -> rs !! rid2 = Some r2 -> sr_promise r1 = sr_promise r2 -> rid1 = rid2;
  inv_name rid1 rid2 r1 r2 : rs !! rid1 = Some r1 -> rs !! rid2 = Some r2 -> sr_name r1 = sr_name r2 -> rid1 = rid2;
  inv_pending p : ps !! p = Some PRunning -> (exists rid r, rs !! rid = Some r /\ sr_promise r = p) \/ WSetCanceled p ∈ ws;
  inv_known : Forall (known_wait idx (length ps)) ws;
  inv_meta rid r : WMetaObject rid ∈ ws -> rs !! rid = Some r -> is_Some (sr_remoteObject r);
  inv_cancel rid p rid' r : WCancel rid p ∈ ws -> rs !! rid' = Some r -> (rid' = rid <-> sr_promise r = p);
  inv_canceled p rid r : WSetCanceled p ∈ ws -> rs !! rid = Some r -> sr_promise r <> p;
  inv_length : length ask = length ps;
  inv_value p o n : ps !! p = Some (PValue o) -> ask !! p = Some n -> (n, o) ∈ add;
  inv_cache n o : ro !! n = Some o -> (n, o) ∈ add;
}.
End inv.

Lemma session_inv_perm ps rs idx ro ws ws' ask add : ws ≡ₚ ws' -> session_inv ps rs idx ro ws ask add -> session_inv ps rs idx ro ws' ask add.
Proof.
  intros P []. split; try done; try (setoid_rewrite <- P; done).
Qed.

(** The continuation [w] is over, its request is not there. *)
Lemma inv_drop ps rs idx ro w ws ask add : (forall rid, wait_request w = Some rid -> rs !! rid = None) -> (forall p, w = WSetCanceled p -> ps !! p <> Some PRunning) ->
  session_inv ps rs idx ro (w :: ws) ask add -> session_inv ps rs idx ro ws ask add.
Proof.
  intros Hw Hc []. split; try done.
  - intros rid r Hr. destruct (inv_waited0 _ _ Hr) as (w' & [->|Hin]%elem_of_cons & Ew); [|by eauto]. rewrite (Hw _ Ew) in Hr. done.
  - intros p Hp. destruct (inv_pending0 _ Hp) as [H|[<-|H]%elem_of_cons]; [by left| |by right]. by destruct (Hc p).
  - by apply Forall_cons in inv_known0 as [_ ?].
  - intros rid r H. apply inv_meta0. by right.
  - intros rid p rid' r H. apply inv_cancel0. by right.
  - intros p rid r H. apply inv_canceled0. by right.
Qed.

(** The request ends, with its promise. *)
Lemma session_inv_finish ps rs idx ro ws ask add rid r st : rs !! rid = Some r -> st <> PRunning ->
  (forall o, st = PValue o -> (sr_name r, o) ∈ add) ->
  session_inv ps rs idx ro ws ask add -> session_inv (<[sr_promise r := st]> ps) (delete rid rs) idx ro ws ask add.
Proof.
  intros Hr Hst Hv I. pose proof (inv_running _ _ _ _ _ _ _ I _ _ Hr) as Hp. pose proof (inv_asked _ _ _ _ _ _ _ I _ _ Hr) as Ha.
  destruct I. split; try (by intros rid1 r1 [? ?]%lookup_delete_Some; eauto).
  - intros rid1 r1 [Hne H1]%lookup_delete_Some. rewrite list_lookup_insert_ne; [by eapply inv_running0|]. intros E. apply Hne. by eapply inv_promise0.
  - intros rid1 rid2 r1 r2 [_ H1]%lookup_delete_Some [_ H2]%lookup_delete_Some. by eapply inv_promise0.
  - intros rid1 rid2 r1 r2 [_ H1]%lookup_delete_Some [_ H2]%lookup_delete_Some. by eapply inv_name0.
  - intros p [(<- & E & _)|[Hne H]]%list_lookup_insert_Some; [congruence|]. destruct (inv_pending0 _ H) as [(rid1 & r1 & H1 & E)|H1]; [left|by right].
    exists rid1, r1. split; [|done]. apply lookup_delete_Some. split; [|done]. intros <-. congruence.
  - by rewrite length_insert.
  - intros rid1 r1 H [_ H1]%lookup_delete_Some. by eapply inv_meta0.
  - intros rid1 p rid2 r1 H [_ H1]%lookup_delete_Some. by eapply inv_cancel0.
  - intros p rid1 r1 H [_ H1]%lookup_delete_Some. by eapply inv_canceled0.
  - by rewrite length_insert.
  - intros p o n [(<- & E & _)|[Hne H]]%list_lookup_insert_Some Hn; [|by eauto]. rewrite Ha in Hn. injection Hn as <-. by apply Hv.
  - done.
Qed.

(** A continuation is replaced by another one of the same request. *)
Lemma inv_await ps rs idx ro w w' ws ask add rid : wait_request w = Some rid -> wait_request w' = Some rid ->
  (w' = WMetaObject rid -> forall r, rs !! rid = Some r -> is_Some (sr_remoteObject r)) ->
  session_inv ps rs idx ro (w :: ws) ask add -> session_inv ps rs idx ro (ws ++ [w']) ask add.
Proof.
  intros Ew Ew' Hm I. apply (session_inv_perm _ _ _ _ (w' :: ws)); [apply Permutation_cons_append|].
  destruct I. split; try done.
  - intros rid1 r1 H1. destruct (inv_waited0 _ _ H1) as (w1 & [->|Hin]%elem_of_cons & E1).
    + exists w'. split; [by left|congruence].
    + exists w1. split; [by right|done].
  - intros p Hp. destruct (inv_pending0 _ Hp) as [H|[<-|H]%elem_of_cons]; [by left|done|right; by right].
  - apply Forall_cons in inv_known0 as [K1 K2]. constructor; [|done]. destruct w; try done; destruct w'; try done; injection Ew as ->; injection Ew' as ->; exact K1.
  - intros rid1 r1 [E|H]%elem_of_cons H1; [|by eapply inv_meta0; [right|]]. subst w'. injection Ew' as ->. by apply Hm.
  - intros rid1 p rid2 r1 [E|H]%elem_of_cons; [by subst w'|]. apply inv_cancel0. by right.
  - intros p rid1 r1 [E|H]%elem_of_cons; [by subst w'|]. apply inv_canceled0. by right.
Qed.

(** The request gets its remote object. *)
Lemma inv_remote ps rs idx ro ws ask add rid r o : rs !! rid = Some r ->
  session_inv ps rs idx ro ws ask add -> session_inv ps (<[rid := mkServiceRequest (sr_promise r) (sr_name r) (Some o)]> rs) idx ro ws ask add.
Proof.
  intros Hr []. assert (forall rid1 r1, <[rid := mkServiceRequest (sr_promise r) (sr_name r) (Some o)]> rs !! rid1 = Some r1 ->
    exists r0, rs !! rid1 = Some r0 /\ sr_promise r0 = sr_promise r1 /\ sr_name r0 = sr_name r1 /\ (is_Some (sr_remoteObject r0) -> is_Some (sr_remoteObject r1))) as Hold.
  { intros rid1 r1 [[<- <-]|[_ H]]%lookup_insert_Some; [|by exists r1]. exists r. repeat split; try done. }
  split; try done.
  - intros rid1 r1 (r0 & H0 & <- & _)%Hold. by eapply inv_running0.
  - intros rid1 r1 (r0 & H0 & <- & <- & _)%Hold. by eapply inv_asked0.
  - intros rid1 r1 (r0 & H0 & _)%Hold. by eapply inv_index0.
  - intros rid1 r1 (r0 & H0 & _)%Hold. by eapply inv_waited0.
  - intros rid1 rid2 r1 r2 (r3 & H3 & <- & _)%Hold (r4 & H4 & <- & _)%Hold. by eapply inv_promise0.
  - intros rid1 rid2 r1 r2 (r3 & H3 & _ & <- & _)%Hold (r4 & H4 & _ & <- & _)%Hold. by eapply inv_name0.
  - intros p Hp. destruct (inv_pending0 _ Hp) as [(rid1 & r1 & H1 & E)|H]; [left|by right]. destruct (decide (rid1 = rid)) as [->|Hne].
    + eexists rid, _. split; [apply lookup_insert_eq|]. cbn. congruence.
    + exists rid1, r1. by rewrite lookup_insert_ne.
  - intros rid1 r1 H (r0 & H0 & _ & _ & Hi)%Hold. apply Hi. by eapply inv_meta0.
  - intros rid1 p rid2 r1 H (r0 & H0 & <- & _)%Hold. by eapply inv_cancel0.
  - intros p rid1 r1 H (r0 & H0 & <- & _)%Hold. by eapply inv_canceled0.
Qed.

Lemma inv_cancel_step ps rs idx ro ws ask add rid p :
  session_inv ps rs idx ro (WCancel rid p :: ws) ask add -> session_inv ps (delete rid rs) idx ro (ws ++ [WSetCanceled p]) ask add.
Proof.
  intros I. apply (session_inv_perm _ _ _ _ (WSetCanceled p :: ws)); [apply Permutation_cons_append|].
  assert (forall rid' r, rs !! rid' = Some r -> (rid' = rid <-> sr_promise r = p)) as Hc by (intros rid' r; apply (inv_cancel _ _ _ _ _ _ _ I); by left).
  destruct I. split; try done; try (by intros rid1 r1 [? ?]%lookup_delete_Some; eauto).
  - intros rid1 r1 [Hne H1]%lookup_delete_Some. destruct (inv_waited0 _ _ H1) as (w1 & [->|Hin]%elem_of_cons & E1); [done|].
    exists w1. split; [by right|done].
  - intros rid1 rid2 r1 r2 [_ H1]%lookup_delete_Some [_ H2]%lookup_delete_Some. by eapply inv_promise0.
  - intros rid1 rid2 r1 r2 [_ H1]%lookup_delete_Some [_ H2]%lookup_delete_Some. by eapply inv_name0.
  - intros p1 H1. destruct (inv_pending0 _ H1) as [(rid1 & r1 & H2 & E)|[E|H]%elem_of_cons]; [|done|right; by right].
    destruct (decide (rid1 = rid)) as [->|Hne].
    + right. apply elem_of_cons. left. f_equal. rewrite <- E. by apply (Hc _ _ H2).
    + left. exists rid1, r1. split; [|done]. by apply lookup_delete_Some.
  - apply Forall_cons in inv_known0 as [[K1 K2] K3]. by constructor.
  - intros rid1 r1 [E|H]%elem_of_cons [_ H1]%lookup_delete_Some; [done|]. eapply inv_meta0; [by right|done].
  - intros rid1 p1 rid2 r1 [E|H]%elem_of_cons [_ H1]%lookup_delete_Some; [done|]. eapply inv_cancel0; [by right|done].
  - intros p1 rid1 r1 [E|H]%elem_of_cons [Hne H1]%lookup_delete_Some.
    + injection E as ->. intros E1. apply Hne. symmetry. by apply (Hc _ _ H1).
    + eapply inv_canceled0; [by right|done].
Qed.

Lemma inv_set_canceled ps rs idx ro ws ask add p :
  session_inv ps rs idx ro (WSetCanceled p :: ws) ask add -> session_inv (<[p := PCanceled]> ps) rs idx ro ws ask add.
Proof.
  intros I. assert (forall rid r, rs !! rid = Some r -> sr_promise r <> p) as Hc by (intros rid r; apply (inv_canceled _ _ _ _ _ _ _ I); by left).
  destruct I. split; try done.
  - intros rid r H. rewrite list_lookup_insert_ne; [by eapply inv_running0|]. intros E. by apply (Hc _ _ H).
  - intros rid1 r1 H1. destruct (inv_waited0 _ _ H1) as (w1 & [->|Hin]%elem_of_cons & E1); [done|by eauto].
  - intros p1 [(<- & E & _)|[Hne H]]%list_lookup_insert_Some; [done|]. destruct (inv_pending0 _ H) as [H1|[E|H1]%elem_of_cons]; [by left| |by right].
    injection E as ->. done.
  - rewrite length_insert. by apply Forall_cons in inv_known0 as [_ ?].
  - intros rid r H. apply inv_meta0. by right.
  - intros rid p1 rid' r H. apply inv_cancel0. by right.
  - intros p1 rid r H. apply inv_canceled0. by right.
  - by rewrite length_insert.
  - intros p1 o n [(<- & E & _)|[Hne H]]%list_lookup_insert_Some Hn; [done|by eauto].
Qed.

Lemma inv_start_cancel ps rs idx ro ws ask add rid r : rs !! rid = Some r ->
  session_inv ps rs idx ro ws ask add -> session_inv ps rs idx ro (ws ++ [WCancel rid (sr_promise r)]) ask add.
Proof.
  intros Hr I. apply (session_inv_perm _ _ _ _ (WCancel rid (sr_promise r) :: ws)); [apply Permutation_cons_append|].
  destruct I. split; try done.
  - intros rid1 r1 H1. destruct (inv_waited0 _ _ H1) as (w1 & Hin & E1). exists w1. split; [by right|done].
  - intros p Hp. destruct (inv_pending0 _ Hp) as [H|H]; [by left|right; by right].
  - constructor; [|done]. split; [by eapply inv_index0|]. eapply lookup_lt_Some. by eapply inv_running0.
  - intros rid1 r1 [E|H]%elem_of_cons; [done|by apply inv_meta0].
  - intros rid1 p rid2 r1 [E|H]%elem_of_cons H1; [|by eapply inv_cancel0]. injection E as -> ->. split; [intros ->; congruence|].
    intros E. by eapply inv_promise0.
  - intros p rid1 r1 [E|H]%elem_of_cons; [done|by apply inv_canceled0].
Qed.

Lemma session_inv_new ps rs idx ro ws ask add n protocol : (forall rid r, rs !! rid = Some r -> sr_name r <> n) ->
  session_inv ps rs idx ro ws ask add ->
  session_inv (ps ++ [PRunning]) (<[S idx := mkServiceRequest (length ps) n None]> rs) (S idx) ro (ws ++ [WInfo (S idx) protocol]) (ask ++ [n]) add.
Proof.
  intros Hn I. apply (session_inv_perm _ _ _ _ (WInfo (S idx) protocol :: ws)); [apply Permutation_cons_append|].
  assert (forall rid r, rs !! rid = Some r -> sr_promise r < length ps /\ rid <> S idx) as Hold.
  { intros rid r Hr. split; [eapply lookup_lt_Some; by eapply (inv_running _ _ _ _ _ _ _ I)|]. apply (inv_index _ _ _ _ _ _ _ I) in Hr. lia. }
  destruct I. split.
  - intros rid r [[<- <-]|[_ H]]%lookup_insert_Some; cbn; [by apply list_lookup_middle|]. apply lookup_app_l_Some. by eapply inv_running0.
  - intros rid r [[<- <-]|[_ H]]%lookup_insert_Some; cbn; [by apply list_lookup_middle|]. apply lookup_app_l_Some. by eapply inv_asked0.
  - intros rid r [[<- <-]|[_ H]]%lookup_insert_Some; [done|]. apply inv_index0 in H. lia.
  - intros rid r [[<- <-]|[_ H]]%lookup_insert_Some; [by eexists; split; [left|]|]. destruct (inv_waited0 _ _ H) as (w & Hw & E). exists w. split; [by right|done].
  - intros rid1 rid2 r1 r2 [[<- <-]|[_ H1]]%lookup_insert_Some [[<- <-]|[_ H2]]%lookup_insert_Some E; cbn in E; [done|..|by eapply inv_promise0].
    + apply Hold in H2. lia.
    + apply Hold in H1. lia.
  - intros rid1 rid2 r1 r2 [[<- <-]|[_ H1]]%lookup_insert_Some [[<- <-]|[_ H2]]%lookup_insert_Some E; cbn in E; [done|..|by eapply inv_name0].
    + by destruct (Hn _ _ H2).
    + by destruct (Hn _ _ H1).
  - intros p [H | (H & E)]%lookup_app_Some.
    + destruct (inv_pending0 _ H) as [(rid & r & Hr & E)|H1]; [left|right; by right]. exists rid, r. split; [|done]. rewrite lookup_insert_ne; [done|].
      intros <-. by apply Hold in Hr as [_ ?].
    + left. eexists (S idx), _. split; [apply lookup_insert_eq|]. cbn. apply list_lookup_singleton_Some in E as [E _]. lia.
  - constructor; [cbn; lia|]. eapply Forall_impl; [exact inv_known0|]. rewrite length_app. cbn. intros w. destruct w; cbn; lia.
  - intros rid r [E|H]%elem_of_cons; [done|]. intros [[<- <-]|[_ H1]]%lookup_insert_Some; [|by eapply inv_meta0].
    rewrite Forall_forall in inv_known0. apply inv_known0 in H. cbn in H. lia.
  - intros rid p rid' r [E|H]%elem_of_cons; [done|]. intros [[<- <-]|[_ H1]]%lookup_insert_Some; [|by eapply inv_cancel0].
    rewrite Forall_forall in inv_known0. apply inv_known0 in H. cbn in *. lia.
  - intros p rid r [E|H]%elem_of_cons; [done|]. intros [[<- <-]|[_ H1]]%lookup_insert_Some; [|by eapply inv_canceled0].
    rewrite Forall_forall in inv_known0. apply inv_known0 in H. cbn in *. lia.
  - rewrite !length_app. cbn. lia.
  - intros p o n' [H | (H & E)]%lookup_app_Some Ha; [|by apply list_lookup_singleton_Some in E as [_ E]].
    apply (inv_value0 _ _ _ H). apply lookup_app_Some in Ha as [Ha|[Hl _]]; [done|]. apply lookup_lt_Some in H. lia.
  - done.
Qed.

Lemma inv_caches ps rs idx ro ro' ws ask add add' : (forall e, e ∈ add -> e ∈ add') -> (forall n o, ro' !! n = Some o -> (n, o) ∈ add') ->
  session_inv ps rs idx ro ws ask add -> session_inv ps rs idx ro' ws ask add'.
Proof. intros H1 H2 []. split; try done. intros p o n Hp Hn. apply H1. by eapply inv_value0. Qed.

(** ** The steps keep the invariant *)

Definition Inv (x : Session_Service) : Prop :=
  session_inv (promises x) (requests x) (requestsIndex x) (remoteObjects x) (waits x) (asked x) (added x) /\ failed x = false.

(** The continuation [w] runs. *)
Definition running (w : wait) (x : Session_Service) : Prop := Inv (set_waits (w :: waits x) x).

Lemma running_promise w x rid sr : running w x -> requests x !! rid = Some sr -> promises x !! sr_promise sr = Some PRunning.
Proof. intros [I _] H. eapply (inv_running _ _ _ _ _ _ _ I); exact H. Qed.

(** The two ways to end a request in error are the same for a request that is there. *)
Lemma guard_finishes w x rid sr : running w x -> requests x !! rid = Some sr ->
  SetPromiseInError (sr_promise sr) rid x = setErrorAndRemoveRequest (sr_promise sr) rid x.
Proof. intros I H. unfold SetPromiseInError. by rewrite (running_promise _ _ _ _ I H). Qed.

Lemma session_finish_running w x rid sr : running w x -> requests x !! rid = Some sr -> running w (setErrorAndRemoveRequest (sr_promise sr) rid x).
Proof.
  intros [I F] H. unfold setErrorAndRemoveRequest, set_promise. rewrite (running_promise w _ _ _ (conj I F) H). split; [|exact F].
  by apply (session_inv_finish _ _ _ _ _ _ _ rid sr).
Qed.

(** The request of a continuation that runs is not there any more. *)
Lemma gone_Inv w x rid : running w x -> wait_request w = Some rid -> requests x !! rid = None -> Inv x.
Proof.
  intros [I F] Hw H. split; [|exact F]. eapply inv_drop; [| |exact I]; [intros rid' E; cbn; congruence|]. intros p ->. done.
Qed.

Lemma gone_await w x : running w x -> Inv (await w x).
Proof. intros [I F]. split; [|exact F]. eapply session_inv_perm; [|exact I]. apply Permutation_cons_append. Qed.

Lemma finish_Inv w x rid sr : running w x -> requests x !! rid = Some sr -> wait_request w = Some rid ->
  Inv (setErrorAndRemoveRequest (sr_promise sr) rid x).
Proof. intros I H Hw. eapply gone_Inv; [by apply session_finish_running|exact Hw|]. apply lookup_delete_eq. Qed.

Lemma await_Inv w w' x rid : running w x -> wait_request w = Some rid -> wait_request w' = Some rid -> w' <> WMetaObject rid -> Inv (await w' x).
Proof. intros [I F] Hw Hw' Hn. split; [|exact F]. eapply inv_await; [exact Hw|exact Hw'|intros E; by destruct Hn|exact I]. Qed.

Lemma fetch_Inv w x rid sr : running w x -> requests x !! rid = Some sr -> wait_request w = Some rid -> Inv (fetchMetaObject rid sr x).
Proof.
  intros [I F] H Hw. split; [|exact F]. eapply (inv_await _ _ _ _ w); [exact Hw|done| |].
  - intros _ r. cbn. rewrite lookup_insert_eq. intros [= <-]. by eexists.
  - by apply inv_remote.
Qed.

Section steps.
Variable _enforceAuth : bool.

Lemma onAuthentication_Inv w x rid data uid : running w x -> wait_request w = Some rid ->
  match onAuthentication _enforceAuth data rid uid x with (true, x') => Inv (await w x') | (false, x') => Inv x' end.
Proof.
  intros I Hw. unfold onAuthentication, serviceRequest. destruct (requests x !! rid) as [sr|] eqn:H; [|by apply gone_await].
  assert (Inv (setErrorAndRemoveRequest (sr_promise sr) rid x)) as H1 by (by eapply finish_Inv).
  assert (Inv (await w (setErrorAndRemoveRequest (sr_promise sr) rid x))) as H2 by (apply gone_await; by apply session_finish_running).
  assert (Inv (if uid then fetchMetaObject rid sr x else setErrorAndRemoveRequest (sr_promise sr) rid x)) as H3 by (destruct uid; [by eapply fetch_Inv|done]).
  rewrite (guard_finishes _ _ _ _ I H). destruct data as [|m]; [done|]. destruct (is_failure m); [by destruct _enforceAuth|].
  destruct (am_state m) as [[state|]|]; [|done..]. destruct (_ || _); [done|]. by destruct (state =? State_Done)%Z.
Qed.

(** A socket that has the capabilities of the other end does not need its listener. *)
Lemma dummy_over rid uid x : fst (onAuthentication _enforceAuth (EventMessage dummy_done) rid uid x) = false \/ requests x !! rid = None.
Proof. unfold onAuthentication, serviceRequest. destruct (requests x !! rid); [left|by right]. done. Qed.

Lemma onTransportSocketResult_Inv w x rid value : running w x -> wait_request w = Some rid ->
  Inv (onTransportSocketResult _enforceAuth value rid x).
Proof.
  intros I Hw. unfold onTransportSocketResult, serviceRequest. destruct (requests x !! rid) as [sr|] eqn:H; [|by eapply gone_Inv].
  destruct value as [|uid|authenticates].
  - by eapply finish_Inv.
  - pose proof (onAuthentication_Inv w x rid (EventMessage dummy_done) uid I Hw) as H1.
    destruct (dummy_over rid uid x) as [E|E]; [|congruence]. destruct (onAuthentication _ _ _ _ _) as [[] x']; [done|exact H1].
  - destruct authenticates; [by eapply await_Inv|]. rewrite (guard_finishes _ _ _ _ I H). by eapply finish_Inv.
Qed.

(** The promise of a request is set to an object of the cache. *)
Lemma value_Inv w x rid sr o : running w x -> requests x !! rid = Some sr -> wait_request w = Some rid -> (sr_name sr, o) ∈ added x ->
  Inv (removeRequest rid (set_value (sr_promise sr) o x)).
Proof.
  intros [I F] H Hw Ha. unfold set_value, set_promise. rewrite (running_promise w _ _ _ (conj I F) H).
  eapply (gone_Inv w); [split; [|exact F]|exact Hw|apply lookup_delete_eq]. apply (session_inv_finish _ _ _ _ _ _ _ rid sr); [done|done| |exact I]. by intros o' [= <-].
Qed.

Lemma onRemoteObjectComplete_Inv x rid ok : running (WMetaObject rid) x -> Inv (onRemoteObjectComplete ok rid x).
Proof.
  intros I. unfold onRemoteObjectComplete, serviceRequest. destruct (requests x !! rid) as [sr|] eqn:H; [|by eapply gone_Inv].
  destruct ok; cbn [negb]; [|by eapply finish_Inv]. destruct (remoteObjects x !! sr_name sr) as [o|] eqn:Eo.
  - eapply value_Inv; [exact I|done|done|]. destruct I as [I _]. by eapply (inv_cache _ _ _ _ _ _ _ I).
  - assert (is_Some (sr_remoteObject sr)) as [o Ero]. { destruct I as [I _]. eapply (inv_meta _ _ _ _ _ _ _ I); [by left|exact H]. }
    rewrite Ero. unfold addService. rewrite Eo. eapply (value_Inv (WMetaObject rid)); [|exact H|done|].
    + destruct I as [I F]. split; [|exact F]. eapply inv_caches; [| |exact I]; cbn.
      * intros e He. apply elem_of_app. by left.
      * intros n o' [[<- <-]|[_ Hn]]%lookup_insert_Some; apply elem_of_app; [right; by left|left]. by eapply (inv_cache _ _ _ _ _ _ _ I).
    + cbn. apply elem_of_app. right. by left.
Qed.

Lemma onServiceInfo_Inv x rid fut protocol : running (WInfo rid protocol) x -> info_ok rid fut x = true ->
  Inv (onServiceInfo _enforceAuth fut rid protocol x).
Proof.
  intros I Ok. unfold onServiceInfo, info_ok, serviceRequest in *. destruct (requests x !! rid) as [sr|] eqn:H; [|by eapply gone_Inv].
  destruct fut as [si|]; [|by eapply finish_Inv]. apply bool_decide_eq_true in Ok.
  set (x1 := set_requests _ x). assert (x1 = x) as ->.
  { unfold x1, set_requests. rewrite Ok, insert_id; [by destruct x|]. rewrite H. by destruct sr. }
  assert (Inv (match info_endpoints si with
    | [] => setErrorAndRemoveRequest (sr_promise sr) rid x
    | l => let x := if bool_decide (protocol <> [] /\ protocol ∉ l) then setErrorAndRemoveRequest (sr_promise sr) rid x else x in await (WSocket rid) x
    end)) as Hend.
  { destruct (info_endpoints si) as [|e l]; [by eapply finish_Inv|]. cbv zeta.
    destruct (bool_decide _); (eapply (await_Inv (WInfo rid protocol)); [|done|done|done]); [by apply session_finish_running|exact I]. }
  destruct (info_local si); [exact Hend| | |exact Hend].
  - rewrite (guard_finishes _ _ _ _ I H). by eapply finish_Inv.
  - by eapply onTransportSocketResult_Inv.
Qed.

Lemma resume_Inv w r x x' : running w x -> resume _enforceAuth w r x = Some x' -> Inv x'.
Proof.
  intros I E. destruct w as [rid protocol|rid|rid|rid|rid p|p], r as [fut|value|data uid|ok|]; try done; cbn in E.
  - destruct (info_ok rid fut x) eqn:Ok; [|done]. injection E as <-. by apply onServiceInfo_Inv.
  - injection E as <-. by eapply onTransportSocketResult_Inv.
  - pose proof (onAuthentication_Inv _ x rid data uid I eq_refl) as H. destruct (onAuthentication _ _ _ _ _) as [[] x1]; by injection E as <-.
  - injection E as <-. by apply onRemoteObjectComplete_Inv.
  - injection E as <-. destruct I as [I F]. split; [|exact F]. by apply inv_cancel_step.
  - destruct I as [I F]. unfold set_promise in E. destruct (promises x !! p) as [[]|] eqn:Hp; injection E as <-; (split; [|exact F]);
      first [by apply inv_set_canceled | (eapply inv_drop; [| |exact I]; [by intros|intros p' [= <-]; cbn; congruence])].
Qed.

Lemma find_request_None name x : find_request name x = None -> forall rid r, requests x !! rid = Some r -> sr_name r <> name.
Proof.
  unfold find_request. destruct (find _ _) as [e|] eqn:E; [done|]. intros _ rid r H Hn.
  assert (In (rid, r) (map_to_list (requests x))) as Hin by (by apply list_elem_of_In, elem_of_map_to_list).
  apply (find_none _ _ E) in Hin. by apply bool_decide_eq_false in Hin.
Qed.

Lemma service_Inv name protocol local x : Inv x -> Inv (snd (service name protocol local x)).
Proof.
  intros [I F]. unfold service. destruct (if bool_decide _ then local else None); [done|]. destruct (bool_decide _); [done|].
  destruct (remoteObjects x !! name); [done|]. destruct (find_request name x) eqn:E; [done|]. split; [|exact F].
  apply session_inv_new; [|exact I]. by apply find_request_None.
Qed.

Lemma session_step_Inv e x x' : Inv x -> step _enforceAuth e x = Some x' -> Inv x'.
Proof.
  intros [I F] E. destruct e as [name protocol local|name| |rid p|n r]; cbn in E.
  - injection E as <-. by apply service_Inv.
  - injection E as <-. split; [|exact F]. eapply inv_caches; [done| |exact I]. cbn. intros n o [_ H]%lookup_delete_Some. by eapply (inv_cache _ _ _ _ _ _ _ I).
  - injection E as <-. split; [|exact F]. eapply inv_caches; [done| |exact I]. cbn. intros n o H. by rewrite lookup_empty in H.
  - unfold serviceRequest in E. destruct (requests x !! rid) as [sr|] eqn:H; [|done]. destruct (decide _) as [<-|]; [|done]. unfold cancel in E.
    destruct (promises x !! sr_promise sr) as [[]|]; try done. destruct (decide _); [done|]. injection E as <-. split; [|exact F]. by apply inv_start_cancel.
  - destruct (waits x !! n) as [w|] eqn:H; [|done]. cbn in E. eapply resume_Inv; [|exact E]. split; [|exact F].
    eapply session_inv_perm; [|exact I]. cbn. by apply take_task.
Qed.

Lemma session_reachable_Inv x : reachable _enforceAuth x -> Inv x.
Proof.
  induction 1 as [|x e x' _ IH E]; [|by eapply session_step_Inv]. split; [|done]. split; cbn; try done; try (by intros ? ? ? ?; rewrite lookup_empty);
    try (by intros; rewrite lookup_empty in *); try (by intros ? ? ?%elem_of_nil); try constructor.
Qed.
End steps.

(** ** Requests come to an end *)

Definition wait_weight (w : wait) : nat :=
  match w with WInfo _ _ => 5 | WSocket _ => 4 | WListener _ => 3 | WMetaObject _ => 2 | WCancel _ _ => 2 | WSetCanceled _ => 1 end.
Definition session_measure (x : Session_Service) : nat := sum_list_with wait_weight (waits x) + base.size (requests x).

Lemma measure_await w x : session_measure (await w x) = session_measure x + wait_weight w.
Proof. unfold session_measure. cbn. rewrite sum_list_with_app. cbn. lia. Qed.

Lemma measure_remove rid x : session_measure (removeRequest rid x) + match requests x !! rid with Some _ => 1 | None => 0 end = session_measure x.
Proof.
  unfold session_measure. cbn. rewrite map_size_delete. destruct (requests x !! rid) as [r|] eqn:E; [|unfold Datatypes.id; lia].
  assert (base.size (requests x) <> 0); [|lia]. apply map_size_ne_0_lookup. eauto.
Qed.

Lemma measure_set_promise p st x : session_measure (snd (set_promise p st x)) = session_measure x /\ requests (snd (set_promise p st x)) = requests x.
Proof. unfold set_promise. by destruct (promises x !! p) as [[]|]. Qed.

Lemma measure_finish p rid x sr : requests x !! rid = Some sr -> S (session_measure (setErrorAndRemoveRequest p rid x)) = session_measure x.
Proof.
  intros H. unfold setErrorAndRemoveRequest. destruct (measure_set_promise p PError x) as [E1 E2].
  pose proof (measure_remove rid (snd (set_promise p PError x))) as E. rewrite E2, H in E. lia.
Qed.

Lemma measure_value p o rid x sr : requests x !! rid = Some sr -> S (session_measure (removeRequest rid (set_value p o x))) = session_measure x.
Proof.
  intros H. unfold set_value. destruct (measure_set_promise p (PValue o) x) as [E1 E2]. destruct (set_promise p (PValue o) x) as [[] x1]; cbn [snd] in *.
  - pose proof (measure_remove rid x1) as E. rewrite E2, H in E. lia.
  - pose proof (measure_remove rid (set_failed true (cancel_failed x1) x1)) as E. set (x2 := set_failed _ _ x1) in *.
    change (requests x2) with (requests x1) in E. change (session_measure x2) with (session_measure x1) in E. rewrite E2, H in E. lia.
Qed.

Lemma measure_fetch rid sr x r : requests x !! rid = Some r -> session_measure (fetchMetaObject rid sr x) = session_measure x + 2.
Proof. intros H. unfold fetchMetaObject. rewrite measure_await. unfold session_measure. cbn. rewrite map_size_insert, H. unfold Datatypes.id. lia. Qed.

Section settle.
Variable _enforceAuth : bool.

Lemma onAuthentication_measure w x rid data uid sr : running w x -> requests x !! rid = Some sr -> 2 < wait_weight w ->
  match onAuthentication _enforceAuth data rid uid x with
  | (true, x') => session_measure (await w x') < wait_weight w + session_measure x
  | (false, x') => session_measure x' < wait_weight w + session_measure x
  end.
Proof.
  intros I H Hw. unfold onAuthentication, serviceRequest. rewrite H, (guard_finishes _ _ _ _ I H).
  pose proof (measure_finish (sr_promise sr) rid x sr H) as H1. pose proof (measure_fetch rid sr x sr H) as H2.
  assert (session_measure (if uid then fetchMetaObject rid sr x else setErrorAndRemoveRequest (sr_promise sr) rid x) < wait_weight w + session_measure x) as H3 by (destruct uid; lia).
  destruct data as [|m]; [lia|]. destruct (is_failure m); [destruct _enforceAuth; lia|].
  destruct (am_state m) as [[state|]|]; [|lia|rewrite measure_await; lia]. destruct (_ || _); [lia|]. destruct (state =? State_Done)%Z; [lia|rewrite measure_await; lia].
Qed.

Lemma onTransportSocketResult_measure w x rid value sr : running w x -> requests x !! rid = Some sr -> 3 < wait_weight w ->
  session_measure (onTransportSocketResult _enforceAuth value rid x) < wait_weight w + session_measure x.
Proof.
  intros I H Hw. unfold onTransportSocketResult, serviceRequest. rewrite H. pose proof (measure_finish (sr_promise sr) rid x sr H) as H1.
  destruct value as [|uid|[]].
  - lia.
  - pose proof (onAuthentication_measure w x rid (EventMessage dummy_done) uid sr I H) as H2.
    destruct (onAuthentication _ _ _ _ _) as [[] x1]; cbn; [rewrite measure_await in H2|]; lia.
  - rewrite measure_await. cbn. lia.
  - rewrite (guard_finishes _ _ _ _ I H). lia.
Qed.

Lemma onRemoteObjectComplete_measure x rid ok sr : requests x !! rid = Some sr -> session_measure (onRemoteObjectComplete ok rid x) < 2 + session_measure x.
Proof.
  intros H. unfold onRemoteObjectComplete, serviceRequest. rewrite H. pose proof (measure_finish (sr_promise sr) rid x sr H) as H1.
  destruct ok; cbn [negb]; [|lia]. destruct (remoteObjects x !! sr_name sr) as [o|] eqn:Eo; [pose proof (measure_value (sr_promise sr) o rid x sr H); lia|].
  destruct (sr_remoteObject sr) as [o|]; [|unfold session_measure; cbn; lia]. unfold addService. rewrite Eo.
  match goal with |- context [set_value _ o ?y] => pose proof (measure_value (sr_promise sr) o rid y sr H) as H2 end. unfold session_measure in *. cbn in *. lia.
Qed.

Lemma onServiceInfo_measure x rid fut protocol sr : running (WInfo rid protocol) x -> requests x !! rid = Some sr -> info_ok rid fut x = true ->
  session_measure (onServiceInfo _enforceAuth fut rid protocol x) < 5 + session_measure x.
Proof.
  intros I H Ok. unfold onServiceInfo, info_ok, serviceRequest in *. rewrite H in *. pose proof (measure_finish (sr_promise sr) rid x sr H) as H1.
  destruct fut as [si|]; [|lia]. apply bool_decide_eq_true in Ok.
  set (x1 := set_requests _ x). assert (x1 = x) as ->.
  { unfold x1, set_requests. rewrite Ok, insert_id; [by destruct x|]. rewrite H. by destruct sr. }
  assert (session_measure (match info_endpoints si with
    | [] => setErrorAndRemoveRequest (sr_promise sr) rid x
    | l => let x := if bool_decide (protocol <> [] /\ protocol ∉ l) then setErrorAndRemoveRequest (sr_promise sr) rid x else x in await (WSocket rid) x
    end) < 5 + session_measure x) as Hend.
  { destruct (info_endpoints si) as [|e l]; [lia|]. cbv zeta. rewrite measure_await. cbn. destruct (bool_decide _); lia. }
  destruct (info_local si); [exact Hend| | |exact Hend].
  - rewrite (guard_finishes _ _ _ _ I H). lia.
  - by apply (onTransportSocketResult_measure (WInfo rid protocol) x rid r sr I H); cbn; lia.
Qed.

Lemma resume_measure w r x x' : running w x -> (forall rid, wait_request w = Some rid -> is_Some (requests x !! rid)) ->
  resume _enforceAuth w r x = Some x' -> session_measure x' < wait_weight w + session_measure x.
Proof.
  intros I Hp E. destruct w as [rid protocol|rid|rid|rid|rid p|p], r as [fut|value|data uid|ok|]; try done; cbn in E; cbn [wait_weight].
  - destruct (Hp rid eq_refl) as [sr H]. destruct (info_ok rid fut x) eqn:Ok; [|done]. injection E as <-. by eapply onServiceInfo_measure.
  - destruct (Hp rid eq_refl) as [sr H]. injection E as <-. apply (onTransportSocketResult_measure (WSocket rid) x rid value sr I H). cbn. lia.
  - destruct (Hp rid eq_refl) as [sr H]. pose proof (onAuthentication_measure _ x rid data uid sr I H) as H1. cbn in H1.
    destruct (onAuthentication _ _ _ _ _) as [[] x1]; injection E as <-; apply H1; lia.
  - destruct (Hp rid eq_refl) as [sr H]. injection E as <-. by eapply onRemoteObjectComplete_measure.
  - injection E as <-. rewrite measure_await. cbn [wait_weight]. pose proof (measure_remove rid x) as H. destruct (requests x !! rid); lia.
  - unfold set_promise in E. destruct (promises x !! p) as [[]|]; injection E as <-; unfold session_measure; cbn; lia.
Qed.
End settle.

(** ** Properties *)


(** C31. Requests settle. When a continuation of a pending request or of a cancellation gets its result, whatever it is, a measure decreases, so a
    request gets a bounded number of results; and when no such continuation is left, every future that [service] returned is finished. *)
Theorem service_settles _enforceAuth x : reachable _enforceAuth x ->
  (forall n r w x', waits x !! n = Some w -> (forall rid, wait_request w = Some rid -> is_Some (requests x !! rid)) ->
    step _enforceAuth (Resume n r) x = Some x' -> session_measure x' < session_measure x) /\
  ((forall w, w ∈ waits x -> exists rid, wait_request w = Some rid /\ requests x !! rid = None) ->
    forall p st, promises x !! p = Some st -> st <> PRunning).
Proof.
  intros [I F]%session_reachable_Inv. split.
  - intros n r w x' Hn Hw E. cbn in E. rewrite Hn in E. cbn in E.
    assert (session_measure x = wait_weight w + session_measure (set_waits (take n (waits x) ++ drop (S n) (waits x)) x)) as ->.
    { unfold session_measure. cbn. rewrite (take_task _ _ _ Hn) at 1. cbn. lia. }
    eapply resume_measure; [|exact Hw|exact E]. split; [|exact F]. eapply session_inv_perm; [|exact I]. cbn. by apply take_task.
  - intros Hw p st Hp ->. destruct (inv_pending _ _ _ _ _ _ _ I _ Hp) as [(rid & r & H & _)|H].
    + destruct (inv_waited _ _ _ _ _ _ _ I _ _ H) as (w & Hin & E). destruct (Hw _ Hin) as (rid' & E' & H'). congruence.
    + destruct (Hw _ H) as (rid' & E' & _). done.
Qed.

(** ** Examples *)

Section examples.
Fixpoint session_run (_enforceAuth : bool) (l : list event) (x : Session_Service) : option Session_Service :=
  match l with
  | [] => Some x
  | e :: l => match step _enforceAuth e x with Some x' => session_run _enforceAuth l x' | None => None end
  end.

Lemma session_run_reachable _enforceAuth l : forall x x', reachable _enforceAuth x -> session_run _enforceAuth l x = Some x' -> reachable _enforceAuth x'.
Proof.
  induction l as [|e l IH]; intros x x' R E; cbn [session_run] in E; [by injection E as <-|].
  destruct (step _ e x) as [x1|] eqn:E1; [|done]. eapply IH; [|exact E]. by eapply reachable_step.
Qed.

Definition after (_enforceAuth : bool) (l : list event) : Session_Service := default Session_Service_new (session_run _enforceAuth l Session_Service_new).

Lemma after_reachable _enforceAuth l : reachable _enforceAuth (after _enforceAuth l).
Proof.
  unfold after. destruct (session_run _ l _) as [x|] eqn:E; cbn; [|constructor]. eapply session_run_reachable; [|exact E]. constructor.
Qed.

Definition toto : bytes := lit "toto".
Definition found : option service_info := Some (mkServiceInfo toto [lit "tcp"] NotLocal).
Definition auth_reply (state : Z) : result := REvent (EventMessage (mkAuthMessage Type_Reply 0 ServerFunction_Authenticate (Some (Some state)))) true.

(** The service is found, its socket is new, and the server has one step. *)
Definition one_step : list event :=
  [Service toto [] None; Resume 0 (RInfo found); Resume 0 (RSocket (SocketNew true)); Resume 0 (auth_reply State_Done)].


Lemma service_settles_witness :
  let x := after true one_step in exists x', step true (Resume 0 (RMetaObject true)) x = Some x' /\ session_measure x' < session_measure x.
Proof.
  intros x. destruct (step true (Resume 0 (RMetaObject true)) x) as [x'|] eqn:E; [|vm_compute in E; discriminate].
  exists x'. split; [reflexivity|]. destruct (service_settles true x (after_reachable _ _)) as [H _].
  apply (H 0 (RMetaObject true) (WMetaObject 1) x'); [vm_compute; reflexivity| |exact E]. intros rid [= <-]. vm_compute. eexists. reflexivity.
Defined.

(** The second step of an authentication: the guard sets the promise in error. *)
Example two_steps_fail :
  let x := after true [Service toto [] None; Resume 0 (RInfo found); Resume 0 (RSocket (SocketNew true)); Resume 0 (auth_reply State_Cont)] in
  promises x = [PError] /\ requests x = ∅ /\ waits x = [WListener 1].
Proof. vm_compute. done. Qed.

(** A protocol that the service does not have: the future is in error, and a socket is asked for nevertheless. *)
Example other_protocol_connects :
  let x := after true [Service toto (lit "tcps") None; Resume 0 (RInfo found)] in promises x = [PError] /\ waits x = [WSocket 1].
Proof. vm_compute. done. Qed.

(** A cancellation that begins before the request fails: its promise is set twice. *)
Example cancel_sets_twice :
  let x := after true [Service toto [] None; Cancel 1 0; Resume 0 (RInfo None); Resume 0 RCancel; Resume 0 RCancel] in
  promises x = [PError] /\ cancel_failed x = true /\ failed x = false.
Proof. vm_compute. done. Qed.
End examples.
