(* ===== verification/RemoteObject.v ===== *)
(** * RemoteObject: the calls of a remote object, and its links

    Model of [src/messaging/remoteobject.cpp]: the promises of the calls, from [metaCall]
    to the message that ends them, to [close] and to a cancellation; and the table that maps
    the local links of a signal to the one that is registered at the other end. The steps of
    functions that run out of the locks are tasks of a list, which go on in any order; what
    the socket and the conversions give is chosen by the step. *)
From S2P Require Import Prelude.
Open Scope nat_scope.

(** ** The calls *)

Inductive promise_state := PRunning | PValue | PError | PCanceled.
#[export] Instance promise_state_eq_dec : EqDecision promise_state.
Proof. solve_decision. Defined.
Definition Socket := nat.

(** What the object asks a socket to send. *)
Inductive sent_message := SCall (id : Z) | SCancel (id : Z).

(** What the message that ends a call gives: a value, an error, which a value that does not convert
    or an unknown function is too, or the cancellation. *)
Inductive reply := RValue | RError | RCanceled.
Definition reply_state (r : reply) : promise_state := match r with RValue => PValue | RError => PError | RCanceled => PCanceled end.

(** The functions in progress; each one but the last holds promises. *)
Inductive task :=
  (** [metaCall], before the arguments are converted, before the message is sent, and before
      a promise that failed is removed *)
  | TConvert (p : nat) (id : Z) (s : Socket)
  | TSend (p : nat) (id : Z) (s : Socket)
  | TErase (p : nat) (id : Z)
  (** [onMessagePending], with the promise that it took *)
  | TReply (p : nat) (r : reply)
  (** [close], before it takes the promises, and with those that it sets *)
  | TCloseTake
  | TCloseSet (l : list nat).

Record RemoteObject := mkRemoteObject {
  _socket : option Socket;
  connected : gset Socket;
  promises : list promise_state;
  _promises : gmap Z nat;
  (** the promises that have a function of cancellation *)
  cancelable : gset nat;
  tasks : list task;
  sent : list (Socket * sent_message);
  (** a promise was set twice; for the theorems: the promises of the calls that could not be sent *)
  set_twice : bool;
  unsent : gset nat;
  (** the identifiers of messages, each with its promise *)
  used : gmap Z nat;
}.

Definition RemoteObject_new (sockets : gset Socket) : RemoteObject := mkRemoteObject None sockets [] ∅ ∅ [] [] false ∅ ∅.

Definition set_promises l x := mkRemoteObject (_socket x) (connected x) l (_promises x) (cancelable x) (tasks x) (sent x) (set_twice x) (unsent x) (used x).
Definition set_table m x := mkRemoteObject (_socket x) (connected x) (promises x) m (cancelable x) (tasks x) (sent x) (set_twice x) (unsent x) (used x).
Definition set_tasks l x := mkRemoteObject (_socket x) (connected x) (promises x) (_promises x) (cancelable x) l (sent x) (set_twice x) (unsent x) (used x).
Definition set_socket s x := mkRemoteObject s (connected x) (promises x) (_promises x) (cancelable x) (tasks x) (sent x) (set_twice x) (unsent x) (used x).
Definition set_set_twice x := mkRemoteObject (_socket x) (connected x) (promises x) (_promises x) (cancelable x) (tasks x) (sent x) true (unsent x) (used x).
Definition set_unsent u x := mkRemoteObject (_socket x) (connected x) (promises x) (_promises x) (cancelable x) (tasks x) (sent x) (set_twice x) u (used x).
Definition set_cancelable c x := mkRemoteObject (_socket x) (connected x) (promises x) (_promises x) c (tasks x) (sent x) (set_twice x) (unsent x) (used x).
Definition set_used_ids u x := mkRemoteObject (_socket x) (connected x) (promises x) (_promises x) (cancelable x) (tasks x) (sent x) (set_twice x) (unsent x) u.
Definition send s m x := mkRemoteObject (_socket x) (connected x) (promises x) (_promises x) (cancelable x) (tasks x) (sent x ++ [(s, m)]) (set_twice x) (unsent x) (used x).
Definition post (t : task) x := set_tasks (tasks x ++ [t]) x.

(** A promise that is set already throws. *)
Definition set_promise (p : nat) (st : promise_state) (x : RemoteObject) : bool * RemoteObject :=
  match promises x !! p with
  | Some PRunning => (true, set_promises (<[p := st]> (promises x)) x)
  | _ => (false, set_set_twice x)
  end.

Definition task_promises (t : task) : list nat :=
  match t with TConvert p _ _ | TSend p _ _ | TErase p _ | TReply p _ => [p] | TCloseTake => [] | TCloseSet l => l end.

(** Who has a copy of the promise: the table or a function in progress. *)
Definition held (p : nat) (x : RemoteObject) : Prop := map_Exists (fun _ q => q = p) (_promises x) \/ Exists (fun t => p ∈ task_promises t) (tasks x).
#[export] Instance held_dec p x : Decision (held p x).
Proof. unfold held. apply _. Defined.

(** A function drops its copy: a promise that nobody has any more is broken, which is an error. *)
Definition release_promise (p : nat) (x : RemoteObject) : RemoteObject :=
  match promises x !! p with
  | Some PRunning => if decide (held p x) then x else set_promises (<[p := PError]> (promises x)) x
  | _ => x
  end.

(** [metaCall]: the answer is none when it is a future in error, which is not in the table. [known] is
    whether the method exists and its result converts. *)
Definition metaCall (id : Z) (known : bool) (x : RemoteObject) : option nat * RemoteObject :=
  if negb known then (None, x)
  else
    match _socket x with
    | Some s =>
        if bool_decide (s ∈ connected x) then
          let p := length (promises x) in
          (Some p, post (TConvert p id s) (set_used_ids (<[id := p]> (used x)) (set_table (<[id := p]> (_promises x)) (set_promises (promises x ++ [PRunning]) x))))
        else (None, x)
    | None => (None, x)
    end.

(** The conversion of the arguments, which may throw: the promise stays in the table. *)
Definition metaCall_convert (converts : bool) (p : nat) (id : Z) (s : Socket) (x : RemoteObject) : RemoteObject :=
  if converts then post (TSend p id s) x else release_promise p x.

Definition metaCall_send (accepted : bool) (p : nat) (id : Z) (s : Socket) (x : RemoteObject) : RemoteObject :=
  if bool_decide (s ∈ connected x) && accepted then
    release_promise p (set_cancelable (cancelable x ∪ {[p]}) (send s (SCall id) x))
  else
    match set_promise p PError (set_unsent (unsent x ∪ {[p]}) x) with
    | (true, x) => post (TErase p id) x
    | (false, x) => release_promise p x
    end.

Definition metaCall_erase (p : nat) (id : Z) (x : RemoteObject) : RemoteObject := release_promise p (set_table (delete id (_promises x)) x).

(** [onMessagePending] for the messages that end a call. *)
Definition onMessagePending (id : Z) (r : reply) (x : RemoteObject) : RemoteObject :=
  match _promises x !! id with
  | Some p => post (TReply p r) (set_table (delete id (_promises x)) x)
  | None => x
  end.

Definition onMessage_set (p : nat) (r : reply) (x : RemoteObject) : RemoteObject := snd (set_promise p (reply_state r) x).

Definition close (x : RemoteObject) : RemoteObject := post TCloseTake (set_socket None x).

Definition close_take (x : RemoteObject) : RemoteObject := post (TCloseSet (map_to_list (_promises x)).*2) (set_table ∅ x).

(** The loop of [close]; an exception ends it and drops the other promises. *)
Definition close_set (l : list nat) (x : RemoteObject) : RemoteObject :=
  match l with
  | [] => x
  | p :: l =>
      match set_promise p PError x with
      | (true, x) => post (TCloseSet l) x
      | (false, x) => foldl (fun x p => release_promise p x) x l
      end
  end.

Definition setTransportSocket (s : Socket) (x : RemoteObject) : RemoteObject := set_socket (Some s) x.

Definition onFutureCancelled (shared : bool) (id : Z) (x : RemoteObject) : RemoteObject :=
  match _socket x with
  | Some s => if shared then send s (SCancel id) x else x
  | None => x
  end.

Inductive event :=
  | Call (id : Z) (known : bool)
  | Message (id : Z) (r : reply)
  | CloseObject
  | SetSocket (s : Socket)
  | Disconnect (s : Socket)
  | CancelCall (p : nat) (id : Z) (shared : bool)
  | RunTask (n : nat) (ok : bool).

(** Identifiers of messages are not used twice: the counter of 32 bits does not wrap. *)
Definition step (e : event) (x : RemoteObject) : option RemoteObject :=
  match e with
  | Call id known => match used x !! id with Some _ => None | None => Some (snd (metaCall id known x)) end
  | Message id r => Some (onMessagePending id r x)
  | CloseObject => Some (close x)
  | SetSocket s => match _socket x with None => Some (setTransportSocket s x) | Some _ => None end
  | Disconnect s => Some (mkRemoteObject (_socket x) (connected x ∖ {[s]}) (promises x) (_promises x) (cancelable x) (tasks x) (sent x) (set_twice x) (unsent x) (used x))
  | CancelCall p id shared => if decide (p ∈ cancelable x) then Some (onFutureCancelled shared id x) else None
  | RunTask n ok =>
      t ← tasks x !! n;
      let x := set_tasks (take n (tasks x) ++ drop (S n) (tasks x)) x in
      Some match t with
           | TConvert p id s => metaCall_convert ok p id s x
           | TSend p id s => metaCall_send ok p id s x
           | TErase p id => metaCall_erase p id x
           | TReply p r => onMessage_set p r x
           | TCloseTake => close_take x
           | TCloseSet l => close_set l x
           end
  end.

Inductive reachable (sockets : gset Socket) : RemoteObject -> Prop :=
  | reachable_new : reachable sockets (RemoteObject_new sockets)
  | reachable_step x e x' : reachable sockets x -> step e x = Some x' -> reachable sockets x'.

(** ** Who has a promise *)

Definition occ (p : nat) (l : list nat) : nat := sum_list_with (fun q => if decide (q = p) then 1 else 0) l.

(** The promises that the task sets because they were in the table. *)
Definition task_sets (t : task) : list nat := match t with TReply p _ => [p] | TCloseSet l => l | _ => [] end.

Definition in_table (p : nat) (m : gmap Z nat) : nat := occ p (map_to_list m).*2.
Definition tokens (p : nat) (x : RemoteObject) : nat := in_table p (_promises x) + sum_list_with (fun t => occ p (task_sets t)) (tasks x).
Definition holders (p : nat) (x : RemoteObject) : nat := in_table p (_promises x) + sum_list_with (fun t => occ p (task_promises t)) (tasks x).

Arguments occ : simpl never.

Lemma occ_cons p q l : occ p (q :: l) = (if decide (q = p) then 1 else 0) + occ p l.
Proof. done. Qed.

Lemma occ_one p q : occ p [q] = if decide (q = p) then 1 else 0.
Proof. unfold occ. cbn. lia. Qed.

Lemma occ_perm p l l' : l ≡ₚ l' -> occ p l = occ p l'.
Proof. unfold occ. by intros ->. Qed.

Lemma occ_pos p l : 0 < occ p l <-> p ∈ l.
Proof.
  induction l as [|q l IH]; [split; [unfold occ; cbn; lia|by intros ?%elem_of_nil]|]. rewrite occ_cons, elem_of_cons, <- IH.
  destruct (decide (q = p)) as [->|]; [split; [by left|lia]|]. split; [intros H; right; lia|intros [->|]; [done|lia]].
Qed.

Lemma in_table_insert p id q m : m !! id = None -> in_table p (<[id := q]> m) = (if decide (q = p) then 1 else 0) + in_table p m.
Proof. intros H. unfold in_table. rewrite (occ_perm p _ ((id, q) :: map_to_list m).*2); [by rewrite fmap_cons, occ_cons|]. by rewrite map_to_list_insert. Qed.

Lemma in_table_delete p id q m : m !! id = Some q -> in_table p m = (if decide (q = p) then 1 else 0) + in_table p (delete id m).
Proof. intros H. rewrite <- (insert_delete_id m id q H) at 1. apply in_table_insert, lookup_delete_eq. Qed.

Lemma in_table_pos p m : 0 < in_table p m <-> exists id, m !! id = Some p.
Proof.
  unfold in_table. rewrite occ_pos, list_elem_of_fmap. split.
  - intros ([id q] & -> & H%elem_of_map_to_list). eauto.
  - intros [id H]. exists (id, p). split; [done|]. by apply elem_of_map_to_list.
Qed.

Lemma held_holders p x : held p x <-> 0 < holders p x.
Proof.
  unfold held, holders. assert (Exists (fun t => p ∈ task_promises t) (tasks x) <-> 0 < sum_list_with (fun t => occ p (task_promises t)) (tasks x)) as Ht.
  { induction (tasks x) as [|t l IH]; [split; [by intros ?%Exists_nil|cbn; lia]|]. rewrite Exists_cons, IH. cbn. rewrite <- occ_pos. lia. }
  assert (map_Exists (fun _ q => q = p) (_promises x) <-> 0 < in_table p (_promises x)) as Hm.
  { rewrite in_table_pos. unfold map_Exists. naive_solver. }
  rewrite Ht, Hm. lia.
Qed.

Lemma tokens_holders p x : tokens p x <= holders p x.
Proof.
  unfold tokens, holders. assert (forall t, occ p (task_sets t) <= occ p (task_promises t)) as H by (intros []; cbn; unfold occ; cbn; lia).
  pose proof (sum_le _ _ (tasks x) H). lia.
Qed.

(** ** The invariant *)

(** The promises of [D] were dropped by the function that runs. *)
Record remote_inv (D : list nat) (x : RemoteObject) : Prop := {
  inv_tokens p : tokens p x <= 1;
  inv_done p : p ∉ unsent x -> promises x !! p <> Some PRunning -> tokens p x = 0;
  inv_twice : set_twice x = true -> exists p, p ∈ unsent x;
  inv_held p : promises x !! p = Some PRunning -> p ∉ D -> 0 < holders p x;
  inv_close : _socket x = None -> _promises x = ∅ \/ TCloseTake ∈ tasks x;
  inv_used id p : _promises x !! id = Some p -> used x !! id = Some p;
  inv_erase p id : (TErase p id ∈ tasks x \/ exists s, TSend p id s ∈ tasks x \/ TConvert p id s ∈ tasks x) -> used x !! id = Some p;
  inv_erase_done p id : TErase p id ∈ tasks x -> p ∈ unsent x /\ promises x !! p <> Some PRunning;
  inv_unsent p : p ∈ unsent x -> p < length (promises x);
  inv_bound id p : used x !! id = Some p -> p < length (promises x);
}.

(** A function drops the promises of [D]. *)
Lemma release_promise_inv p D x : remote_inv (p :: D) x -> remote_inv D (release_promise p x).
Proof.
  intros I. unfold release_promise. destruct (promises x !! p) as [st|] eqn:Hp.
  2: { destruct I. split; try done. intros q Hq Hd. apply inv_held0; [done|]. intros [->|H]%elem_of_cons; [congruence|done]. }
  destruct (decide (st = PRunning)) as [->|Hst].
  2: { assert (remote_inv D x) as H by (destruct I; split; try done; intros q Hq Hd; apply inv_held0; [done|]; intros [->|H]%elem_of_cons; [congruence|done]).
       by destruct st. }
  destruct (decide (held p x)) as [H|H].
  - destruct I. split; try done. intros q Hq Hd. destruct (decide (q = p)) as [->|Hne]; [by apply held_holders|]. apply inv_held0; [done|].
    by intros [->|?]%elem_of_cons.
  - rewrite held_holders in H. pose proof (tokens_holders p x) as Ht. destruct I. split; try done.
    + intros q Hu. cbn. intros Hq. destruct (decide (q = p)) as [->|Hne]; [change (tokens p x = 0); lia|].
      rewrite list_lookup_insert_ne in Hq by done. by apply inv_done0.
    + intros q [(<- & E & _)|[Hne Hq]]%list_lookup_insert_Some Hd; [done|]. apply inv_held0; [done|]. by intros [->|?]%elem_of_cons.
    + intros q id Hq. destruct (inv_erase_done0 _ _ Hq) as [H1 H2]. split; [done|]. cbn. intros [(<- & E & _)|[Hne E]]%list_lookup_insert_Some; done.
    + intros q Hq. cbn. rewrite length_insert. by apply inv_unsent0.
    + intros id q Hq. cbn. rewrite length_insert. by eapply inv_bound0.
Qed.

Lemma releases_inv l : forall D x, remote_inv (l ++ D) x -> remote_inv D (foldl (fun x p => release_promise p x) x l).
Proof. induction l as [|p l IH]; intros D x I; [done|]. cbn. apply IH. by apply release_promise_inv. Qed.

(** ** The steps keep the invariant *)

(** The task [t] runs. *)
Definition running (t : task) (x : RemoteObject) : Prop := remote_inv [] (set_tasks (t :: tasks x) x).

Lemma tokens_post p t x : tokens p (post t x) = tokens p x + occ p (task_sets t).
Proof. unfold tokens, post. cbn. rewrite sum_list_with_app. cbn. lia. Qed.
Lemma holders_post p t x : holders p (post t x) = holders p x + occ p (task_promises t).
Proof. unfold holders, post. cbn. rewrite sum_list_with_app. cbn. lia. Qed.
Lemma tokens_running p t x : tokens p (set_tasks (t :: tasks x) x) = occ p (task_sets t) + tokens p x.
Proof. unfold tokens. cbn. lia. Qed.
Lemma holders_running p t x : holders p (set_tasks (t :: tasks x) x) = occ p (task_promises t) + holders p x.
Proof. unfold holders. cbn. lia. Qed.

(** A task is done; its promises are dropped. *)
Lemma run_drop t x : running t x -> t <> TCloseTake -> remote_inv (task_promises t) x.
Proof.
  intros I Ht. split.
  - intros p. pose proof (inv_tokens _ _ I p) as H. rewrite tokens_running in H. lia.
  - intros p Hu Hp. pose proof (inv_done _ _ I p Hu Hp) as H. rewrite tokens_running in H. lia.
  - exact (inv_twice _ _ I).
  - intros p Hp Hd. pose proof (inv_held _ _ I p Hp) as H. rewrite holders_running in H. rewrite <- occ_pos in Hd.
    assert (p ∉ []) as Hn by apply not_elem_of_nil. specialize (H Hn). lia.
  - intros Hs. destruct (inv_close _ _ I Hs) as [H|[E|H]%elem_of_cons]; [by left|congruence|by right].
  - exact (inv_used _ _ I).
  - intros p id H. apply (inv_erase _ _ I). destruct H as [H|(s & [H|H])]; [left; by right|right; exists s; left; by right|right; exists s; right; by right].
  - intros p id H. apply (inv_erase_done _ _ I p id). by right.
  - exact (inv_unsent _ _ I).
  - exact (inv_bound _ _ I).
Qed.

(** A task that sets nothing is posted. *)
Lemma post_inv D t x : remote_inv D x -> task_sets t = [] ->
  (forall p id s, t = TErase p id \/ t = TSend p id s \/ t = TConvert p id s -> used x !! id = Some p) ->
  (forall p id, t = TErase p id -> p ∈ unsent x /\ promises x !! p <> Some PRunning) ->
  remote_inv (filter (fun p => p ∉ task_promises t) D) (post t x).
Proof.
  intros [] Ht Hu He. split; try done.
  - intros p. rewrite tokens_post, Ht. specialize (inv_tokens0 p). unfold occ. cbn. lia.
  - intros p H1 H2. rewrite tokens_post, Ht. specialize (inv_done0 p H1 H2). unfold occ. cbn. lia.
  - intros p Hp Hd. rewrite holders_post. destruct (decide (p ∈ task_promises t)) as [H|H]; [apply occ_pos in H; lia|].
    assert (p ∉ D) as Hd'. { intros H'. apply Hd. by apply list_elem_of_filter. } specialize (inv_held0 p Hp Hd'). lia.
  - intros Hs. destruct (inv_close0 Hs) as [H|H]; [by left|right]. apply elem_of_app. by left.
  - intros p id H. cbn in H. setoid_rewrite elem_of_app in H. setoid_rewrite list_elem_of_singleton in H. destruct H as [[H|H]|(s & [[H|H]|[H|H]])].
    + apply inv_erase0. by left.
    + by apply (Hu p id 0); left.
    + apply inv_erase0. right. exists s. by left.
    + apply (Hu p id s). right. by left.
    + apply inv_erase0. right. exists s. by right.
    + apply (Hu p id s). right. by right.
  - intros p id [H|H%list_elem_of_singleton]%elem_of_app; [by eapply inv_erase_done0|by eapply He].
Qed.

(** A promise that only the running function sets is set. *)
Lemma set_inv D p st x : remote_inv D x -> promises x !! p = Some PRunning -> st <> PRunning -> p ∈ unsent x \/ tokens p x = 0 ->
  remote_inv (filter (fun q => q <> p) D) (set_promises (<[p := st]> (promises x)) x).
Proof.
  intros [] Hp Hst Ht. split; try done; cbn.
  - intros q Hu Hq. destruct (decide (q = p)) as [->|Hne]; [destruct Ht; [done|]; done|]. rewrite list_lookup_insert_ne in Hq by done. by apply inv_done0.
  - intros q [(<- & E & _)|[Hne Hq]]%list_lookup_insert_Some Hd; [done|]. apply inv_held0; [done|]. intros H. apply Hd. by apply list_elem_of_filter.
  - intros q id H. destruct (inv_erase_done0 _ _ H) as [H1 H2]. split; [done|]. intros [(<- & E & _)|[Hne E]]%list_lookup_insert_Some; done.
  - intros q Hq. rewrite length_insert. by apply inv_unsent0.
  - intros id q Hq. rewrite length_insert. by eapply inv_bound0.
Qed.

(** A promise that was set already was one of a call that could not be sent. *)
Lemma set_twice_inv D p x : remote_inv D x -> p ∈ unsent x -> remote_inv D (set_set_twice x).
Proof. intros [] H. split; try done. intros _. by exists p. Qed.

Lemma inv_weaken D D' x : (forall p, p ∈ D -> p ∈ D') -> remote_inv D x -> remote_inv D' x.
Proof. intros H []. split; try done. intros p Hp Hd. apply inv_held0; [done|]. intros Hin. by apply Hd, H. Qed.

Lemma inv_filter_nil D P `{forall p, Decision (P p)} x : remote_inv (filter P D) x -> (forall p, p ∈ D -> ~ P p) -> remote_inv [] x.
Proof. intros I Hn. eapply inv_weaken; [|exact I]. intros p [H1 H2]%list_elem_of_filter. by destruct (Hn p). Qed.

(** An entry leaves the table. *)
Lemma table_delete_inv D id p x : remote_inv D x -> _promises x !! id = Some p -> remote_inv (p :: D) (set_table (delete id (_promises x)) x).
Proof.
  intros [] H. assert (forall q, tokens q x = (if decide (p = q) then 1 else 0) + tokens q (set_table (delete id (_promises x)) x)) as Ht.
  { intros q. unfold tokens. cbn. rewrite (in_table_delete q id p _ H). lia. }
  assert (forall q, holders q x = (if decide (p = q) then 1 else 0) + holders q (set_table (delete id (_promises x)) x)) as Hh.
  { intros q. unfold holders. cbn. rewrite (in_table_delete q id p _ H). lia. }
  split; try done.
  - intros q. specialize (inv_tokens0 q). rewrite Ht in inv_tokens0. lia.
  - intros q H1 H2. specialize (inv_done0 q H1 H2). rewrite Ht in inv_done0. lia.
  - intros q Hq [Hd1 Hd2]%not_elem_of_cons. specialize (inv_held0 q Hq Hd2). rewrite Hh, decide_False in inv_held0 by congruence. exact inv_held0.
  - intros Hs. destruct (inv_close0 Hs) as [E|E]; [|by right]. rewrite E in H. done.
  - intros id' q. cbn. intros [_ H']%lookup_delete_Some. by apply inv_used0.
Qed.

Lemma convert_inv ok p id s x : running (TConvert p id s) x -> remote_inv [] (metaCall_convert ok p id s x).
Proof.
  intros I. pose proof (run_drop _ _ I) as H. cbn in H. unfold metaCall_convert. destruct ok; [|by apply release_promise_inv, H].
  assert (used x !! id = Some p) as Hu by (apply (inv_erase _ _ I); right; exists s; right; by left).
  eapply inv_filter_nil; [apply (post_inv [p]); [by apply H|done| |done]|].
  - intros q id' s' [E|[E|E]]; try done. injection E as -> -> ->. exact Hu.
  - intros q ->%list_elem_of_singleton Hn. apply Hn. cbn. by left.
Qed.

Lemma send_inv ok p id s x : running (TSend p id s) x -> remote_inv [] (metaCall_send ok p id s x).
Proof.
  intros I. pose proof (run_drop _ _ I) as H. specialize (H ltac:(done)). cbn in H. unfold metaCall_send.
  destruct (bool_decide _ && ok); [apply release_promise_inv; destruct H; by split|].
  assert (used x !! id = Some p) as Hu by (apply (inv_erase _ _ I); right; exists s; left; by left).
  set (x1 := set_unsent _ x). assert (remote_inv [p] x1) as H1.
  { destruct H. split; try done; cbn.
    - intros q [Hq _]%not_elem_of_union. by apply inv_done0.
    - intros Ht. destruct (inv_twice0 Ht) as [q Hq]. exists q. set_solver.
    - intros q id' Hq. destruct (inv_erase_done0 _ _ Hq). split; [set_solver|done].
    - intros q [Hq | ->%elem_of_singleton]%elem_of_union; [by apply inv_unsent0|by eapply inv_bound0]. }
  assert (p ∈ unsent x1) as Hp by (unfold x1; cbn; set_solver). unfold set_promise. change (promises x1) with (promises x).
  assert (remote_inv [] (release_promise p (set_set_twice x1))) as Htw by (apply release_promise_inv; by eapply set_twice_inv).
  destruct (promises x !! p) as [[]|] eqn:Ep; try exact Htw.
  assert (remote_inv (filter (fun q => q <> p) [p]) (set_promises (<[p := PError]> (promises x1)) x1)) as H2 by (by apply set_inv; [| |done|left]).
  eapply inv_filter_nil; [apply (post_inv [p]); [eapply inv_weaken; [|exact H2]; by intros q [_ ?]%list_elem_of_filter|done| |]|].
  - intros q id' s' [E|[E|E]]; try done. injection E as -> ->. exact Hu.
  - intros q id' E. injection E as -> ->. split; [exact Hp|]. cbn. by rewrite list_lookup_insert_eq by (by eapply lookup_lt_Some).
  - intros q ->%list_elem_of_singleton Hn. apply Hn. cbn. by left.
Qed.

Lemma erase_inv p id x : running (TErase p id) x -> remote_inv [] (metaCall_erase p id x).
Proof.
  intros I. pose proof (run_drop _ _ I) as H. specialize (H ltac:(done)). cbn in H. unfold metaCall_erase. apply release_promise_inv.
  destruct (_promises x !! id) as [q|] eqn:Eq.
  - assert (q = p) as ->. { pose proof (inv_used _ _ H _ _ Eq) as H1. pose proof (inv_erase _ _ I p id) as H2. cbn in H2. rewrite H1 in H2.
      specialize (H2 (or_introl (list_elem_of_here _ _))). congruence. }
    eapply inv_weaken; [|apply (table_delete_inv [p] id p x H Eq)]. by intros q [->|?]%elem_of_cons; [left|].
  - rewrite delete_id by done. by destruct x.
Qed.

Lemma remote_message_inv id r x : remote_inv [] x -> remote_inv [] (onMessagePending id r x).
Proof.
  intros I. unfold onMessagePending. destruct (_promises x !! id) as [p|] eqn:Ep; [|done].
  pose proof (table_delete_inv [] id p x I Ep) as H. set (x1 := set_table _ x) in *.
  assert (forall q, tokens q (post (TReply p r) x1) = tokens q x) as Ht.
  { intros q. rewrite tokens_post. cbn. rewrite occ_one. unfold tokens, x1. cbn. rewrite (in_table_delete q id p _ Ep). lia. }
  destruct H. split; try done.
  - intros q. rewrite Ht. by apply (inv_tokens _ _ I).
  - intros q H1 H2. rewrite Ht. by apply (inv_done _ _ I).
  - intros q Hq Hd. rewrite holders_post. cbn. rewrite occ_one. destruct (decide (p = q)) as [->|Hne]; [lia|].
    assert (q ∉ [p]) as Hq' by (intros ->%list_elem_of_singleton; done). specialize (inv_held0 q Hq Hq'). lia.
  - intros Hs. destruct (inv_close0 Hs) as [E|E]; [by left|right]. apply elem_of_app. by left.
  - intros q id' H. apply (inv_erase0 q id'). setoid_rewrite elem_of_app in H. setoid_rewrite list_elem_of_singleton in H. naive_solver.
  - intros q id' [H|H%list_elem_of_singleton]%elem_of_app; [by eapply inv_erase_done0|done].
Qed.

(** What a function that sets a promise of the table finds. *)
Lemma sets_facts t p x : running t x -> p ∈ task_sets t -> tokens p x = 0 /\ (p ∈ unsent x \/ promises x !! p = Some PRunning).
Proof.
  intros I Hp. apply occ_pos in Hp. pose proof (inv_tokens _ _ I p) as H. rewrite tokens_running in H. split; [lia|].
  destruct (decide (p ∈ unsent x)) as [Hu|Hu]; [by left|right]. destruct (decide (promises x !! p = Some PRunning)) as [E|E]; [done|].
  pose proof (inv_done _ _ I p Hu E) as H'. rewrite tokens_running in H'. lia.
Qed.

Lemma remote_reply_inv p r x : running (TReply p r) x -> remote_inv [] (onMessage_set p r x).
Proof.
  intros I. assert (reply_state r <> PRunning) as Hst by (by destruct r). pose proof (run_drop _ _ I) as H. specialize (H ltac:(done)). cbn in H.
  destruct (sets_facts _ p _ I) as [Ht Hp]; [by left|]. unfold onMessage_set, set_promise.
  assert (promises x !! p <> Some PRunning -> remote_inv [] (set_set_twice x)) as Htw.
  { intros Hn. destruct Hp as [Hp|Hp]; [|done]. apply (set_twice_inv _ p); [|done]. destruct H. split; try done.
    intros q Hq _. apply inv_held0; [done|]. intros ->%list_elem_of_singleton. done. }
  destruct (promises x !! p) as [[]|] eqn:Ep; try (by apply Htw).
  eapply inv_filter_nil; [apply (set_inv [p]); [exact H|done|done|by right]|]. intros q ->%list_elem_of_singleton Hn. by apply Hn.
Qed.

Lemma take_inv x : running TCloseTake x -> remote_inv [] (close_take x).
Proof.
  intros I. unfold close_take. set (l := (map_to_list (_promises x)).*2). set (x1 := set_table ∅ x).
  assert (forall p, tokens p (post (TCloseSet l) x1) = tokens p x) as Ht.
  { intros p. rewrite tokens_post. unfold tokens, x1. cbn. unfold in_table. rewrite map_to_list_empty. cbn. fold l. unfold occ at 1. cbn. lia. }
  assert (forall p, holders p (post (TCloseSet l) x1) = holders p x) as Hh.
  { intros p. rewrite holders_post. unfold holders, x1. cbn. unfold in_table. rewrite map_to_list_empty. cbn. fold l. unfold occ at 1. cbn. lia. }
  split.
  - intros p. rewrite Ht. pose proof (inv_tokens _ _ I p) as H. rewrite tokens_running in H. lia.
  - intros p H1 H2. rewrite Ht. pose proof (inv_done _ _ I p H1 H2) as H. rewrite tokens_running in H. lia.
  - exact (inv_twice _ _ I).
  - intros p Hp Hd. rewrite Hh. pose proof (inv_held _ _ I p Hp Hd) as H. rewrite holders_running in H. exact H.
  - intros _. by left.
  - intros id p H. cbn in H. by rewrite lookup_empty in H.
  - intros p id H. apply (inv_erase _ _ I). cbn in *. setoid_rewrite elem_of_app in H. setoid_rewrite list_elem_of_singleton in H. setoid_rewrite elem_of_cons. naive_solver.
  - intros p id [H|H%list_elem_of_singleton]%elem_of_app; [|done]. apply (inv_erase_done _ _ I p id). by right.
  - exact (inv_unsent _ _ I).
  - exact (inv_bound _ _ I).
Qed.

Lemma close_set_inv l x : running (TCloseSet l) x -> remote_inv [] (close_set l x).
Proof.
  intros I. pose proof (run_drop _ _ I) as H. specialize (H ltac:(done)). cbn in H. destruct l as [|p l]; [exact H|].
  destruct (sets_facts _ p _ I) as [Ht Hp]; [by left|]. unfold close_set, set_promise.
  assert (promises x !! p <> Some PRunning -> remote_inv [] (foldl (fun x p => release_promise p x) (set_set_twice x) l)) as Htw.
  { intros Hn. apply releases_inv. rewrite app_nil_r. destruct Hp as [Hp|Hp]; [|done]. apply (set_twice_inv _ p); [|done]. destruct H. split; try done.
    intros q Hq Hd. apply inv_held0; [done|]. intros [->|?]%elem_of_cons; done. }
  destruct (promises x !! p) as [[]|] eqn:Ep; try (by apply Htw). set (x1 := set_promises _ x).
  assert (remote_inv (filter (fun q => q <> p) (p :: l)) x1) as H1 by (by apply set_inv; [| |done|right]).
  assert (forall q, occ q (p :: l) + tokens q x <= 1) as Hone. { intros q. pose proof (inv_tokens _ _ I q) as H'. by rewrite tokens_running in H'. }
  destruct H1. split; try done.
  - intros q. rewrite tokens_post. specialize (Hone q). rewrite occ_cons in Hone. change (tokens q x1) with (tokens q x). cbn [task_sets]. lia.
  - intros q Hu Hq. rewrite tokens_post. change (tokens q x1) with (tokens q x). cbn [task_sets]. destruct (decide (p = q)) as [->|Hne].
    + specialize (Hone q). rewrite occ_cons, decide_True in Hone by done. lia.
    + unfold x1 in Hq. cbn in Hq. rewrite list_lookup_insert_ne in Hq by done. pose proof (inv_done _ _ I q Hu Hq) as H'. rewrite tokens_running in H'.
      cbn [task_sets] in H'. rewrite occ_cons, decide_False in H' by done. lia.
  - intros q Hq Hd. rewrite holders_post. cbn [task_promises]. destruct (decide (q ∈ l)) as [Hl|Hl]; [apply occ_pos in Hl; lia|].
    assert (q ∉ filter (fun q => q <> p) (p :: l)) as Hd'.
    { intros [Hne [->|Hin]%elem_of_cons]%list_elem_of_filter; done. }
    specialize (inv_held0 q Hq Hd'). lia.
  - intros Hs. destruct (inv_close0 Hs) as [E|E]; [by left|right]. apply elem_of_app. by left.
  - intros q id' H'. apply (inv_erase0 q id'). setoid_rewrite elem_of_app in H'. setoid_rewrite list_elem_of_singleton in H'. naive_solver.
  - intros q id' [H'|H'%list_elem_of_singleton]%elem_of_app; [by eapply inv_erase_done0|done].
Qed.

Lemma call_inv id known x : remote_inv [] x -> used x !! id = None -> remote_inv [] (snd (metaCall id known x)).
Proof.
  intros I Hf. unfold metaCall. destruct known; cbn [negb]; [|done]. destruct (_socket x) as [s|] eqn:Es; [|done]. destruct (bool_decide _); [|done]. cbn [snd].
  set (n := length (promises x)). set (x1 := set_used_ids _ _). assert (_promises x !! id = None) as Hid.
  { destruct (_promises x !! id) as [q|] eqn:E; [|done]. apply (inv_used _ _ I) in E. congruence. }
  assert (promises x !! n = None) as Hn by (apply lookup_ge_None; unfold n; lia).
  assert (n ∉ unsent x) as Hu. { intros H%(inv_unsent _ _ I). unfold n in H. lia. }
  assert (forall q, tokens q x1 = (if decide (n = q) then 1 else 0) + tokens q x) as Ht.
  { intros q. unfold tokens, x1. cbn. rewrite in_table_insert by done. fold n. lia. }
  assert (forall q, holders q x1 = (if decide (n = q) then 1 else 0) + holders q x) as Hh.
  { intros q. unfold holders, x1. cbn. rewrite in_table_insert by done. fold n. lia. }
  assert (tokens n x = 0) as Hn0 by (apply (inv_done _ _ I); [done|congruence]).
  assert (used x1 !! id = Some n) as Hid1 by (unfold x1; cbn; apply lookup_insert_eq).
  assert (forall q id', used x !! id' = Some q -> used x1 !! id' = Some q) as Hold.
  { intros q id' H. unfold x1. cbn. rewrite lookup_insert_ne; [done|congruence]. }
  eapply inv_weaken; [|apply (post_inv []); [|done| |done]].
  - by intros q [_ H]%list_elem_of_filter.
  - split.
    + intros q. rewrite Ht. destruct (decide (n = q)) as [<-|]; [lia|]. apply (inv_tokens _ _ I).
    + intros q H1 H2. rewrite Ht. unfold x1 in H2. cbn in H2. destruct (decide (n = q)) as [<-|Hne]; [by rewrite list_lookup_middle in H2 by done|].
      apply (inv_done _ _ I); [done|]. intros E. apply H2. by apply lookup_app_l_Some.
    + exact (inv_twice _ _ I).
    + intros q Hq Hd. rewrite Hh. destruct (decide (n = q)) as [<-|Hne]; [lia|]. apply (inv_held _ _ I); [|done]. unfold x1 in Hq. cbn in Hq.
      apply lookup_app_Some in Hq as [Hq|[Hl Hq]]; [done|]. apply list_lookup_singleton_Some in Hq as [Hq _]. unfold n in Hne. lia.
    + cbn. congruence.
    + intros id' q. unfold x1. cbn. intros [[<- <-]|[Hne H]]%lookup_insert_Some; [apply lookup_insert_eq|]. rewrite lookup_insert_ne by done. by apply (inv_used _ _ I).
    + intros q id' H. by apply Hold, (inv_erase _ _ I).
    + intros q id' H. destruct (inv_erase_done _ _ I q id' H) as [H1 H2]. split; [exact H1|]. unfold x1. cbn. intros [E|[Hl _]]%lookup_app_Some; [done|].
      apply (inv_unsent _ _ I) in H1. lia.
    + intros q H%(inv_unsent _ _ I). unfold x1. cbn. rewrite length_app. lia.
    + intros id' q. unfold x1. cbn. rewrite length_app. cbn. intros [[<- <-]|[Hne H]]%lookup_insert_Some; [unfold n; lia|]. apply (inv_bound _ _ I) in H. lia.
  - intros q id' s' [E|[E|E]]; try done. injection E as -> -> ->. exact Hid1.
Qed.

Lemma close_inv x : remote_inv [] x -> remote_inv [] (close x).
Proof.
  intros []. unfold close.
  assert (forall p, tokens p (post TCloseTake (set_socket None x)) = tokens p x) as Ht.
  { intros p. rewrite tokens_post. change (tokens p (set_socket None x)) with (tokens p x). unfold occ. cbn. lia. }
  assert (forall p, holders p (post TCloseTake (set_socket None x)) = holders p x) as Hh.
  { intros p. rewrite holders_post. change (holders p (set_socket None x)) with (holders p x). unfold occ. cbn. lia. }
  split; try done.
  - intros p. by rewrite Ht.
  - intros p. rewrite Ht. apply inv_done0.
  - intros p. rewrite Hh. apply inv_held0.
  - intros _. right. apply elem_of_app. right. by left.
  - intros p id H. apply inv_erase0. cbn in H. setoid_rewrite elem_of_app in H. setoid_rewrite list_elem_of_singleton in H. naive_solver.
  - intros p id [H|H%list_elem_of_singleton]%elem_of_app; [by eapply inv_erase_done0|done].
Qed.

Lemma remote_inv_perm D x l l' : l ≡ₚ l' -> remote_inv D (set_tasks l x) -> remote_inv D (set_tasks l' x).
Proof.
  intros P []. assert (forall f, sum_list_with f l' = sum_list_with f l) as Hs by (intros f; by rewrite P).
  split; try done; cbn in *; unfold tokens, holders in *; cbn in *; try (setoid_rewrite <- P; done); intros; rewrite Hs; auto.
Qed.

Lemma remote_step_inv e x x' : remote_inv [] x -> step e x = Some x' -> remote_inv [] x'.
Proof.
  intros I E. destruct e as [id known|id r| |s|s|p id shared|n ok]; cbn in E.
  - destruct (used x !! id) eqn:Hu; [done|]. injection E as <-. by apply call_inv.
  - injection E as <-. by apply remote_message_inv.
  - injection E as <-. by apply close_inv.
  - destruct (_socket x) eqn:Es; [done|]. injection E as <-. destruct I. by split.
  - injection E as <-. destruct I. by split.
  - destruct (decide _); [|done]. injection E as <-. unfold onFutureCancelled. destruct (_socket x); [|done]. destruct shared; [|done]. destruct I. by split.
  - destruct (tasks x !! n) as [t|] eqn:Ht; [|done]. cbn in E. set (x1 := set_tasks _ x) in E.
    assert (running t x1) as R. { apply (remote_inv_perm _ _ (tasks x)); [by apply take_task|]. by destruct x. }
    destruct t as [p id s|p id s|p id|p r| |l]; injection E as <-.
    + by apply convert_inv.
    + by apply send_inv.
    + by apply erase_inv.
    + by apply remote_reply_inv.
    + by apply take_inv.
    + by apply close_set_inv.
Qed.

Lemma remote_reachable_inv sockets x : reachable sockets x -> remote_inv [] x.
Proof.
  induction 1 as [|x e x' _ IH E]; [|by eapply remote_step_inv]. split; cbn; try done; try (by intros ? ? ?%lookup_empty_Some); try (by intros ? ?%elem_of_empty);
    try (by intros ? ? ?%elem_of_nil).
  - intros p. unfold tokens, in_table. cbn. rewrite map_to_list_empty. unfold occ. cbn. lia.
  - intros _. by left.
  - intros p id [H|(s & [H|H])]; by apply elem_of_nil in H.
Qed.

(** ** The tasks run *)

Definition task_weight (t : task) : nat :=
  match t with TConvert _ _ _ => 3 | TSend _ _ _ => 2 | TErase _ _ => 1 | TReply _ _ => 1 | TCloseTake => 2 | TCloseSet l => 1 + length l end.
Definition remote_measure (x : RemoteObject) : nat := sum_list_with task_weight (tasks x) + base.size (_promises x).

Lemma release_same p x : tasks (release_promise p x) = tasks x /\ _promises (release_promise p x) = _promises x.
Proof. unfold release_promise. destruct (promises x !! p) as [[]|]; try done. by destruct (decide _). Qed.

Lemma releases_same l : forall x, tasks (foldl (fun x p => release_promise p x) x l) = tasks x /\ _promises (foldl (fun x p => release_promise p x) x l) = _promises x.
Proof. induction l as [|p l IH]; intros x; [done|]. cbn. destruct (IH (release_promise p x)) as [-> ->]. apply release_same. Qed.

Lemma release_measure p x : remote_measure (release_promise p x) = remote_measure x.
Proof. unfold remote_measure. by destruct (release_same p x) as [-> ->]. Qed.

Lemma post_measure t x : remote_measure (post t x) = remote_measure x + task_weight t.
Proof. unfold remote_measure. cbn. rewrite sum_list_with_app. cbn. lia. Qed.

Lemma set_promise_measure p st x : remote_measure (snd (set_promise p st x)) = remote_measure x.
Proof. unfold set_promise. by destruct (promises x !! p) as [[]|]. Qed.

Lemma run_measure n ok x x' : step (RunTask n ok) x = Some x' -> remote_measure x' < remote_measure x.
Proof.
  cbn. destruct (tasks x !! n) as [t|] eqn:Ht; [|done]. cbn. set (x1 := set_tasks _ x).
  assert (remote_measure x = task_weight t + remote_measure x1) as Hm.
  { unfold remote_measure, x1. cbn. rewrite (take_task _ _ _ Ht) at 1. cbn. lia. }
  intros E. rewrite Hm. destruct t as [p id s|p id s|p id|p r| |l]; injection E as <-; cbn [task_weight].
  - unfold metaCall_convert. destruct ok; [rewrite post_measure; cbn [task_weight]; lia|rewrite release_measure; lia].
  - unfold metaCall_send. destruct (_ && _); [rewrite release_measure; change (2 + remote_measure x1) with (S (S (remote_measure x1))); unfold remote_measure; cbn; lia|].
    pose proof (set_promise_measure p PError (set_unsent (unsent x1 ∪ {[p]}) x1)) as H. change (remote_measure (set_unsent _ x1)) with (remote_measure x1) in H.
    destruct (set_promise _ _ _) as [[] x2]; cbn [snd] in H; [rewrite post_measure; cbn [task_weight]|rewrite release_measure]; lia.
  - unfold metaCall_erase. rewrite release_measure. unfold remote_measure. cbn. rewrite map_size_delete.
    destruct (_promises x !! id); unfold Datatypes.id; lia.
  - unfold onMessage_set. rewrite set_promise_measure. lia.
  - unfold close_take. rewrite post_measure. unfold remote_measure. cbn. rewrite length_fmap, length_map_to_list, map_size_empty. lia.
  - destruct l as [|p l]; cbn [close_set length]; [lia|]. pose proof (set_promise_measure p PError x1) as H.
    destruct (set_promise _ _ _) as [[] x2]; cbn [snd] in H; [rewrite post_measure; cbn [task_weight]; lia|].
    unfold remote_measure. destruct (releases_same l x2) as [-> ->]. unfold remote_measure in H. lia.
Qed.

(** The tasks of the list run, in its order. *)
Fixpoint run_tasks (l : list (nat * bool)) (x : RemoteObject) : option RemoteObject :=
  match l with
  | [] => Some x
  | (n, ok) :: l => match step (RunTask n ok) x with Some x' => run_tasks l x' | None => None end
  end.

Lemma run_socket n ok x x' : step (RunTask n ok) x = Some x' -> _socket x' = _socket x.
Proof.
  assert (forall p y, _socket (release_promise p y) = _socket y) as Hr. { intros p y. unfold release_promise. destruct (promises y !! p) as [[]|]; try done. by destruct (decide _). }
  assert (forall l y, _socket (foldl (fun x p => release_promise p x) y l) = _socket y) as Hrs. { induction l as [|p l IH]; intros y; [done|]. cbn. by rewrite IH, Hr. }
  assert (forall p st y, _socket (snd (set_promise p st y)) = _socket y) as Hs. { intros p st y. unfold set_promise. by destruct (promises y !! p) as [[]|]. }
  cbn. destruct (tasks x !! n) as [t|]; [|done]. cbn. set (x1 := set_tasks _ x). change (_socket x) with (_socket x1). intros E.
  destruct t as [p id s|p id s|p id|p r| |l]; injection E as <-.
  - unfold metaCall_convert. destruct ok; [done|apply Hr].
  - unfold metaCall_send. destruct (_ && _); [by rewrite Hr|]. pose proof (Hs p PError (set_unsent (unsent x1 ∪ {[p]}) x1)) as H.
    destruct (set_promise _ _ _) as [[] x2]; [exact H|by rewrite Hr].
  - unfold metaCall_erase. by rewrite Hr.
  - apply Hs.
  - done.
  - destruct l as [|p l]; [done|]. cbn [close_set]. pose proof (Hs p PError x1) as H. destruct (set_promise _ _ _) as [[] x2]; [exact H|by rewrite Hrs].
Qed.

Lemma run_tasks_facts l : forall x x', remote_inv [] x -> run_tasks l x = Some x' ->
  remote_inv [] x' /\ _socket x' = _socket x /\ length l + remote_measure x' <= remote_measure x.
Proof.
  induction l as [|[n ok] l IH]; intros x x' I E; cbn [run_tasks] in E; [injection E as <-; split; [done|]; split; [done|cbn; lia]|].
  destruct (step _ x) as [x1|] eqn:E1; [|done]. pose proof (run_measure _ _ _ _ E1). pose proof (run_socket _ _ _ _ E1) as Hs.
  apply IH in E as (I' & Hs' & Hl); [|by eapply remote_step_inv]. split; [done|]. split; [congruence|]. cbn [length]. lia.
Qed.

(** ** Properties of the calls *)

(** The promise of a remote call. In every interleaving of calls, messages, cancellations, disconnections and closings, a promise that is not
    finished is held by the table of the calls or by a function in progress. No promise is set twice, unless the message of a call
    could not be sent after its promise was put in the table, and the table never has a promise that is set, but for such calls. *)
Theorem remote_calls_safe sockets x : reachable sockets x ->
  (set_twice x = true -> exists p, p ∈ unsent x) /\
  (forall p, promises x !! p = Some PRunning -> held p x) /\
  (forall id p, _promises x !! id = Some p -> p ∉ unsent x -> promises x !! p = Some PRunning).
Proof.
  intros I%remote_reachable_inv. split; [exact (inv_twice _ _ I)|]. split.
  - intros p Hp. apply held_holders, (inv_held _ _ I p Hp), not_elem_of_nil.
  - intros id p Hid Hu. destruct (decide (promises x !! p = Some PRunning)) as [E|E]; [done|].
    pose proof (inv_done _ _ I p Hu E) as H. assert (0 < in_table p (_promises x)) by (apply in_table_pos; eauto). unfold tokens in H. lia.
Qed.

(** C32. A remote object that was closed leaves no call. The functions in progress come to an end within a bound, in any order and
    whatever the conversions and the sockets give, and then, when the object has no socket, the table is empty and the future of every call is finished: no
    call is added behind the back of close. *)
Theorem remote_close_finishes sockets x l x' : reachable sockets x -> _socket x = None -> run_tasks l x = Some x' ->
  length l <= remote_measure x /\
  (tasks x' = [] -> _promises x' = ∅ /\ forall p st, promises x' !! p = Some st -> st <> PRunning).
Proof.
  intros I%remote_reachable_inv Hs E. destruct (run_tasks_facts _ _ _ I E) as (I' & Hs' & Hl). split; [lia|]. intros Ht. rewrite Hs in Hs'.
  destruct (inv_close _ _ I' Hs') as [Hm|H]; [|rewrite Ht in H; by apply elem_of_nil in H]. split; [done|]. intros p st Hp ->.
  assert (0 < holders p x') as H by (apply (inv_held _ _ I' p Hp), not_elem_of_nil). unfold holders in H. rewrite Ht in H. cbn in H.
  assert (0 < in_table p (_promises x')) as H' by lia. apply in_table_pos in H' as [id H']. by rewrite Hm in H'.
Qed.

(** ** The links of signals *)

Module Links.
(** A link is the number of its signal and another number. *)
Definition SignalLink : Type := nat * nat.

Record RemoteSignalLinks := mkRemoteSignalLinks {
  localSignalLink : list SignalLink;
  remoteSignalLink : option SignalLink;
}.

(** What the other end is asked, or what could not be asked any more. *)
Inductive request := Register (event : nat) (link : SignalLink) | Unregister (event : nat) (link : SignalLink) | Unsent (event : nat) (link : SignalLink).

Record Links := mkLinks {
  _localToRemoteSignalLink : gmap nat RemoteSignalLinks;
  (** the local links of the dynamic object, and how many it made *)
  subscribers : gset SignalLink;
  made : nat;
  (** the continuations of [metaDisconnect] *)
  removed : list SignalLink;
  requests : list request;
  (** for the theorems: the links that [metaConnect] did not refuse *)
  accepted : gset SignalLink;
}.

Definition Links_new : Links := mkLinks ∅ ∅ 0 [] [] ∅.

Definition default_links : RemoteSignalLinks := mkRemoteSignalLinks [] None.

(** [metaConnect] for a signal of the object; [compatible] is whether the subscriber fits the signal. *)
Definition metaConnect (event : nat) (compatible : bool) (x : Links) : option SignalLink * Links :=
  let uid := (event, made x) in
  let rsl := default default_links (_localToRemoteSignalLink x !! event) in
  let locals := localSignalLink rsl ++ [uid] in
  match remoteSignalLink rsl with
  | Some r =>
      (Some uid, mkLinks (<[event := mkRemoteSignalLinks locals (Some r)]> (_localToRemoteSignalLink x)) (subscribers x ∪ {[uid]}) (S (made x)) (removed x)
        (requests x) (accepted x ∪ {[uid]}))
  | None =>
      if compatible then
        (Some uid, mkLinks (<[event := mkRemoteSignalLinks locals (Some uid)]> (_localToRemoteSignalLink x)) (subscribers x ∪ {[uid]}) (S (made x)) (removed x)
          (requests x ++ [Register event uid]) (accepted x ∪ {[uid]}))
      else
        (None, mkLinks (<[event := mkRemoteSignalLinks locals None]> (_localToRemoteSignalLink x)) (subscribers x ∪ {[uid]}) (S (made x)) (removed x)
          (requests x) (accepted x))
  end.

(** [metaDisconnect]: the local link is disconnected, which fails when there is none. *)
Definition metaDisconnect (link : SignalLink) (x : Links) : Links :=
  if decide (link ∈ subscribers x)
  then mkLinks (_localToRemoteSignalLink x) (subscribers x ∖ {[link]}) (made x) (removed x ++ [link]) (requests x) (accepted x)
  else x.

(** The first link that is the one that is looked for is erased. *)
Fixpoint erase_link (link : SignalLink) (l : list SignalLink) : list SignalLink :=
  match l with [] => [] | k :: l => if decide (k = link) then l else k :: erase_link link l end.

(** The continuation of [metaDisconnect]. *)
Definition metaDisconnect_then (link : SignalLink) (socket_connected : bool) (x : Links) : Links :=
  match _localToRemoteSignalLink x !! fst link with
  | None => x
  | Some rsl =>
      match erase_link link (localSignalLink rsl) with
      | [] =>
          mkLinks (delete (fst link) (_localToRemoteSignalLink x)) (subscribers x) (made x) (removed x)
            (requests x ++ match remoteSignalLink rsl with
                           | Some r => [if socket_connected then Unregister (fst link) r else Unsent (fst link) r]
                           | None => []
                           end) (accepted x)
      | l => mkLinks (<[fst link := mkRemoteSignalLinks l (remoteSignalLink rsl)]> (_localToRemoteSignalLink x)) (subscribers x) (made x) (removed x) (requests x) (accepted x)
      end
  end.

Inductive event := Connect (event : nat) (compatible : bool) | Disconnect (link : SignalLink) | Continue (n : nat) (socket_connected : bool).

Definition step (e : event) (x : Links) : option Links :=
  match e with
  | Connect event compatible => Some (snd (metaConnect event compatible x))
  | Disconnect link => Some (metaDisconnect link x)
  | Continue n socket_connected =>
      link ← removed x !! n;
      Some (metaDisconnect_then link socket_connected
        (mkLinks (_localToRemoteSignalLink x) (subscribers x) (made x) (take n (removed x) ++ drop (S n) (removed x)) (requests x) (accepted x)))
  end.

Inductive reachable : Links -> Prop :=
  | reachable_new : reachable Links_new
  | reachable_step x e x' : reachable x -> step e x = Some x' -> reachable x'.












End Links.

(** ** Examples *)

Section examples.
Fixpoint run (l : list event) (x : RemoteObject) : option RemoteObject :=
  match l with
  | [] => Some x
  | e :: l => match step e x with Some x' => run l x' | None => None end
  end.

Lemma remote_run_reachable sockets l : forall x x', reachable sockets x -> run l x = Some x' -> reachable sockets x'.
Proof.
  induction l as [|e l IH]; intros x x' R E; cbn [run] in E; [by injection E as <-|].
  destruct (step e x) as [x1|] eqn:E1; [|done]. eapply IH; [|exact E]. by eapply reachable_step.
Qed.

Definition after (l : list event) : RemoteObject := default (RemoteObject_new {[1]}) (run l (RemoteObject_new {[1]})).

Lemma remote_after_reachable l : reachable {[1]} (after l).
Proof.
  unfold after. destruct (run l _) as [x|] eqn:E; cbn; [|constructor]. eapply remote_run_reachable; [|exact E]. constructor.
Qed.

(** Two calls, one of which was sent, and the object is closed. *)
Definition closed : list event := [SetSocket 1; Call 5 true; RunTask 0 true; RunTask 0 true; Call 6 true; RunTask 0 true; CloseObject].

Lemma remote_close_finishes_witness :
  exists x', run_tasks [(1, true); (1, true); (1, true); (1, true); (0, true)] (after closed) = Some x' /\ promises x' = [PError; PError] /\
    5 <= remote_measure (after closed) /\ _promises x' = ∅.
Proof.
  destruct (run_tasks [(1, true); (1, true); (1, true); (1, true); (0, true)] (after closed)) as [x'|] eqn:E; [|vm_compute in E; discriminate].
  exists x'. split; [reflexivity|]. destruct (remote_close_finishes {[1]} (after closed) [(1, true); (1, true); (1, true); (1, true); (0, true)] x' (remote_after_reachable _)) as [H1 H2]; [vm_compute; reflexivity|exact E|].
  assert (promises x' = [PError; PError] /\ tasks x' = []) as [Hp Ht] by (vm_compute in E; injection E as <-; split; reflexivity).
  split; [exact Hp|]. split; [exact H1|]. apply H2. exact Ht.
Defined.

(** A call whose message cannot be sent because the object is closed meanwhile: its promise was set by [close]. *)
Example closed_while_calling :
  let x := after [SetSocket 1; Call 5 true; RunTask 0 true; CloseObject; RunTask 1 true; RunTask 1 true; Disconnect 1; RunTask 0 true] in
  set_twice x = true /\ promises x = [PError].
Proof. vm_compute. done. Qed.

(** A call whose arguments do not convert leaves its promise in the table. *)
Example not_converted_stays :
  let x := after [SetSocket 1; Call 5 true; RunTask 0 false] in promises x = [PRunning] /\ map_to_list (_promises x) = [(5%Z, 0)] /\ tasks x = [].
Proof. vm_compute. done. Qed.

Fixpoint run_links (l : list Links.event) (x : Links.Links) : option Links.Links :=
  match l with
  | [] => Some x
  | e :: l => match Links.step e x with Some x' => run_links l x' | None => None end
  end.
Definition links_after (l : list Links.event) : Links.Links := default Links.Links_new (run_links l Links.Links_new).



(** A subscriber that is refused stays: the signal is not unregistered when the others have gone. *)
Example refused_link_stays :
  let x := links_after [Links.Connect 3 false; Links.Connect 3 true; Links.Disconnect (3, 1); Links.Continue 0 true] in
  Links.requests x = [Links.Register 3 (3, 1)] /\ elements (Links.subscribers x) = [(3, 0)] /\ elements (Links.accepted x) = [(3, 1)].
Proof. vm_compute. done. Qed.
End examples.
