(* ===== verification/ObjectHost.v ===== *)
(** * ObjectHost: the objects of a process and the sockets that they are bound to

    Model of [src/messaging/objecthost.cpp] and of the part of
    [src/messaging/boundobject.cpp] that binds objects to sockets: a bound object is a host
    of the objects that were made in the context of a message, each one with the socket of
    the message. When an object is unbound from a socket, what it has of the socket is
    removed, and so are the objects that it hosts for the socket, and theirs. The calls that
    can be cancelled are those of [BoundCalls]; here is whether there are any. *)
From S2P Require Import Prelude.
Open Scope nat_scope.

(** ** The data *)

Definition Socket := nat.
(** A bound object, by its identifier. *)
Definition BoundObject := nat.
Definition SocketBinding : Type := BoundObject * Socket.

(** A link of a signal that a client asked for: the future of the local link, none when it is in error. *)
Record RemoteSignalLink := mkRemoteSignalLink { remoteLink : Z; localSignalLinkId : option nat }.

(** The hosts are the bound objects, and the server for the services. *)
Definition Host := option BoundObject.

Record World := mkWorld {
  _objSockBindings : gmap Host (list SocketBinding);
  (** the bindings that [addObject] has made and not added yet *)
  adding : list (Host * SocketBinding);
  connections : gset SocketBinding;
  cancelables : gset SocketBinding;
  _links : gmap SocketBinding (list RemoteSignalLink);
  (** the local links that were disconnected, and the calls of the callbacks *)
  disconnected : list nat;
  unbound : list SocketBinding;
  (** an exception left a function that is [noexcept]; an assertion failed *)
  terminated : bool;
  failed : bool;
}.

Definition World_new : World := mkWorld ∅ [] ∅ ∅ ∅ [] [] false false.

Definition bindings (h : Host) (w : World) : list SocketBinding := default [] (_objSockBindings w !! h).
Definition links (b : SocketBinding) (w : World) : list RemoteSignalLink := default [] (_links w !! b).

Definition set_bindings (h : Host) (l : list SocketBinding) (w : World) : World :=
  mkWorld (<[h := l]> (_objSockBindings w)) (adding w) (connections w) (cancelables w) (_links w) (disconnected w) (unbound w) (terminated w) (failed w).
Definition set_adding (l : list (Host * SocketBinding)) (w : World) : World :=
  mkWorld (_objSockBindings w) l (connections w) (cancelables w) (_links w) (disconnected w) (unbound w) (terminated w) (failed w).
Definition set_connections (c : gset SocketBinding) (w : World) : World :=
  mkWorld (_objSockBindings w) (adding w) c (cancelables w) (_links w) (disconnected w) (unbound w) (terminated w) (failed w).
Definition set_cancelables (c : gset SocketBinding) (w : World) : World :=
  mkWorld (_objSockBindings w) (adding w) (connections w) c (_links w) (disconnected w) (unbound w) (terminated w) (failed w).
Definition set_links (l : gmap SocketBinding (list RemoteSignalLink)) (w : World) : World :=
  mkWorld (_objSockBindings w) (adding w) (connections w) (cancelables w) l (disconnected w) (unbound w) (terminated w) (failed w).
Definition set_disconnected (l : list nat) (t : bool) (w : World) : World :=
  mkWorld (_objSockBindings w) (adding w) (connections w) (cancelables w) (_links w) l (unbound w) t (failed w).
Definition call_unbound (b : SocketBinding) (w : World) : World :=
  mkWorld (_objSockBindings w) (adding w) (connections w) (cancelables w) (_links w) (disconnected w) (unbound w ++ [b]) (terminated w) (failed w).
Definition fail_unless (c : bool) (w : World) : World :=
  mkWorld (_objSockBindings w) (adding w) (connections w) (cancelables w) (_links w) (disconnected w) (unbound w) (terminated w) (failed w || negb c).

(** ** Binding *)

Definition bindToSocket (b : SocketBinding) (w : World) : bool * World :=
  if decide (b ∈ connections w) then (false, w) else (true, set_connections (connections w ∪ {[b]}) w).

(** [SocketBinding::make] *)
Definition SocketBinding_make (b : SocketBinding) (w : World) : option SocketBinding * World :=
  match bindToSocket b w with (true, w) => (Some b, w) | (false, w) => (None, w) end.

(** ** Unbinding *)

(** Each function gives whether it removed something. *)
Definition removeConnections (b : SocketBinding) (w : World) : bool * World :=
  (bool_decide (b ∈ connections w), set_connections (connections w ∖ {[b]}) w).
Definition removeCancelables (b : SocketBinding) (w : World) : bool * World :=
  (bool_decide (b ∈ cancelables w), set_cancelables (cancelables w ∖ {[b]}) w).

(** [value] throws for a future in error, out of a function that is [noexcept]. *)
Fixpoint disconnect_links (l : list RemoteSignalLink) (w : World) : World :=
  match l with
  | [] => w
  | k :: l =>
      match localSignalLinkId k with
      | Some n => disconnect_links l (set_disconnected (disconnected w ++ [n]) (terminated w) w)
      | None => set_disconnected (disconnected w) true w
      end
  end.
Definition removeLinks (b : SocketBinding) (w : World) : bool * World :=
  match _links w !! b with
  | Some l => (negb (bool_decide (l = [])), set_links (delete b (_links w)) (disconnect_links l w))
  | None => (false, w)
  end.

(** The first part of [unbindFromSocket]. *)
Definition remove_own (b : SocketBinding) (w : World) : bool * World :=
  let (removedConnections, w) := removeConnections b w in
  let (removedCancelables, w) := removeCancelables b w in
  let (removedLinks, w) := removeLinks b w in
  (removedConnections || removedCancelables || removedLinks, w).

(** [removeObjectsFromSocket], up to the destruction of the bindings, which are given. *)
Definition take_from_socket (h : Host) (s : Socket) (w : World) : list SocketBinding * World :=
  (filter (fun x => snd x = s) (bindings h w), set_bindings h (filter (fun x => snd x <> s) (bindings h w)) w).

(** What is left to do: bindings are destroyed one after the other, each with the objects that
    it hosts before its callback. *)
Inductive work := Destroy (b : SocketBinding) | Callback (b : SocketBinding).

(** One step of the destruction of a binding: [SocketBinding::reset] and [unbindFromSocket]. *)
Definition work_step (j : work) (w : World) : list work * World :=
  match j with
  | Destroy b =>
      let (removed, w) := remove_own b w in
      let (objects, w) := take_from_socket (Some (fst b)) (snd b) w in
      (map Destroy objects ++ [Callback b], fail_unless (removed || negb (bool_decide (objects = []))) w)
  | Callback b => ([], call_unbound b w)
  end.

Fixpoint run_work (fuel : nat) (l : list work) (w : World) : option World :=
  match l, fuel with
  | [], _ => Some w
  | j :: l, S fuel => let (l', w) := work_step j w in run_work fuel (l' ++ l) w
  | _ :: _, O => None
  end.

Definition all_bindings (w : World) : list SocketBinding := concat (map_to_list (_objSockBindings w)).*2.

(** Each binding is destroyed once. *)
Definition work_fuel (l : list work) (w : World) : nat := 2 * length l + 2 * length (all_bindings w).

Definition destroy (l : list SocketBinding) (w : World) : World :=
  default w (run_work (work_fuel (map Destroy l) w) (map Destroy l) w).

(** ** The operations of a host *)

(** It throws when the host has the object; the binding is made out of the lock, and added later. *)
Definition addObject (h : Host) (o : BoundObject) (s : Socket) (w : World) : option World :=
  if existsb (fun x => bool_decide (fst x = o)) (bindings h w) then None
  else match SocketBinding_make (o, s) w with
       | (Some b, w) => Some (set_adding (adding w ++ [(h, b)]) w)
       | (None, w) => Some w
       end.

Definition addObject_emplace (n : nat) (w : World) : World :=
  match adding w !! n with
  | Some (h, b) =>
      let w := set_adding (take n (adding w) ++ drop (S n) (adding w)) w in set_bindings h (bindings h w ++ [b]) w
  | None => w
  end.

Fixpoint take_first (o : BoundObject) (l : list SocketBinding) : option (SocketBinding * list SocketBinding) :=
  match l with
  | [] => None
  | x :: l => if decide (fst x = o) then Some (x, l) else match take_first o l with Some (y, l) => Some (y, x :: l) | None => None end
  end.

Definition removeObject (h : Host) (o : BoundObject) (w : World) : bool * World :=
  match take_first o (bindings h w) with
  | Some (b, l) => (true, destroy [b] (set_bindings h l w))
  | None => (false, w)
  end.

Definition removeObjectsFromSocket (h : Host) (s : Socket) (w : World) : nat * World :=
  let (l, w) := take_from_socket h s w in (length l, destroy l w).

Definition clear (h : Host) (w : World) : nat * World :=
  let l := bindings h w in (length l, destroy l (set_bindings h [] w)).

(** ** The links of signals *)

(** The map of the links of a socket is sorted by the remote link. *)
Fixpoint insert_link (k : RemoteSignalLink) (l : list RemoteSignalLink) : list RemoteSignalLink :=
  match l with
  | [] => [k]
  | x :: l => if (remoteLink k <? remoteLink x)%Z then k :: x :: l else if (remoteLink k =? remoteLink x)%Z then k :: l else x :: insert_link k l
  end.

Definition invalid_link : Z := 2 ^ 64 - 1.

(** [registerEvent], for a signal of the object: [local] is what its connection gives. *)
Definition registerEvent (b : SocketBinding) (remoteSignalLinkId : Z) (local : option nat) (w : World) : World :=
  set_links (<[b := insert_link (mkRemoteSignalLink remoteSignalLinkId local) (links b w)]> (_links w)) w.

(** [unregisterEvent], false when it throws. *)
Definition unregisterEvent (b : SocketBinding) (remoteSignalLinkId : Z) (w : World) : bool * World :=
  if (remoteSignalLinkId =? invalid_link)%Z then (true, w) else
  match find (fun k => (remoteLink k =? remoteSignalLinkId)%Z) (links b w) with
  | None => (false, set_links (<[b := links b w]> (_links w)) w)
  | Some k =>
      let l := filter (fun x => remoteLink x <> remoteSignalLinkId) (links b w) in
      let w := set_links (match l with [] => delete b (_links w) | _ => <[b := l]> (_links w) end) w in
      (true, match localSignalLinkId k with Some n => set_disconnected (disconnected w ++ [n]) (terminated w) w | None => w end)
  end.

(** ** Runs *)

Inductive event :=
  | Add (h : Host) (o : BoundObject) (s : Socket)
  | Emplace (n : nat)
  | Remove (h : Host) (o : BoundObject)
  | RemoveSocket (h : Host) (s : Socket)
  | Clear (h : Host)
  | StartCall (b : SocketBinding)
  | EndCalls (b : SocketBinding)
  | Register (b : SocketBinding) (remoteSignalLinkId : Z) (local : option nat)
  | Unregister (b : SocketBinding) (remoteSignalLinkId : Z).

Definition handle (e : event) (w : World) : World :=
  match e with
  | Add h o s => default w (addObject h o s w)
  | Emplace n => addObject_emplace n w
  | Remove h o => snd (removeObject h o w)
  | RemoveSocket h s => snd (removeObjectsFromSocket h s w)
  | Clear h => snd (clear h w)
  | StartCall b => set_cancelables (cancelables w ∪ {[b]}) w
  | EndCalls b => set_cancelables (cancelables w ∖ {[b]}) w
  | Register b r local => registerEvent b r local w
  | Unregister b r => snd (unregisterEvent b r w)
  end.

Definition runs (l : list event) (w : World) : World := foldl (fun w e => handle e w) w l.

Example child_removed :
  let w := runs [Add None 2 1; Emplace 0; Add (Some 2) 5 1; Emplace 0; Register (5, 1) 7 (Some 70); RemoveSocket None 1] World_new in
  bool_decide (connections w = ∅) = true /\ unbound w = [(5, 1); (2, 1)] /\ disconnected w = [70] /\ failed w = false.
Proof. vm_compute. done. Qed.

(** ** The bindings of the hosts *)

Definition other_bindings (h : Host) (w : World) : list SocketBinding := concat (map_to_list (delete h (_objSockBindings w))).*2.

Lemma all_split h w : all_bindings w ≡ₚ bindings h w ++ other_bindings h w.
Proof.
  unfold all_bindings, other_bindings, bindings. destruct (_objSockBindings w !! h) as [l|] eqn:E; cbn.
  - rewrite <- (insert_delete_id _ h l E) at 1. rewrite map_to_list_insert by apply lookup_delete_eq. done.
  - by rewrite delete_id.
Qed.

Lemma all_set h l w : all_bindings (set_bindings h l w) ≡ₚ l ++ other_bindings h w.
Proof.
  rewrite (all_split h). unfold bindings, other_bindings. cbn. rewrite lookup_insert_eq. cbn. by rewrite delete_insert_eq.
Qed.

Lemma filter_split {A} (P : A -> Prop) `{forall x, Decision (P x)} (l : list A) : l ≡ₚ filter P l ++ filter (fun x => ~ P x) l.
Proof.
  induction l as [|x l IH]; [done|]. rewrite !filter_cons. repeat case_decide; try done; cbn; [by rewrite <- IH|].
  rewrite IH at 1. apply Permutation_middle.
Qed.

(** The bindings that are destroyed by the work. *)
Definition destroyed (l : list work) : list SocketBinding := omap (fun j => match j with Destroy b => Some b | Callback _ => None end) l.

Lemma destroyed_app l l' : destroyed (l ++ l') = destroyed l ++ destroyed l'.
Proof. apply omap_app. Qed.

Lemma destroyed_map l : destroyed (map Destroy l) = l.
Proof. induction l as [|b l IH]; [done|]. cbn. by f_equal. Qed.

(** The bindings of the process, with those that are being destroyed. *)
Definition live (l : list work) (w : World) : list SocketBinding := destroyed l ++ all_bindings w ++ (adding w).*2.

Record world_inv (l : list work) (w : World) : Prop := {
  inv_nodup : NoDup (live l w);
  inv_connections b : b ∈ connections w <-> b ∈ live l w;
  inv_failed : failed w = false;
}.

Lemma world_perm l w l' w' : live l w ≡ₚ live l' w' -> connections w' = connections w -> failed w' = failed w -> world_inv l w -> world_inv l' w'.
Proof. intros P Hc Hf [N C F]. split; [by rewrite <- P|intros b; by rewrite Hc, <- P|congruence]. Qed.

Lemma disconnect_links_same l : forall w, connections (disconnect_links l w) = connections w /\ cancelables (disconnect_links l w) = cancelables w /\
  _links (disconnect_links l w) = _links w /\ _objSockBindings (disconnect_links l w) = _objSockBindings w /\ adding (disconnect_links l w) = adding w /\ failed (disconnect_links l w) = failed w.
Proof. induction l as [|[r [n|]] l IH]; intros w; cbn; [done| |done]. destruct (IH (set_disconnected (disconnected w ++ [n]) (terminated w) w)) as (? & ? & ? & ? & ? & ?). done. Qed.

(** What an object has of a socket is removed. *)
Lemma remove_own_spec b w r w' : remove_own b w = (r, w') ->
  connections w' = connections w ∖ {[b]} /\ cancelables w' = cancelables w ∖ {[b]} /\ _links w' = delete b (_links w) /\
  _objSockBindings w' = _objSockBindings w /\ adding w' = adding w /\ failed w' = failed w /\ (b ∈ connections w -> r = true).
Proof.
  unfold remove_own, removeConnections, removeCancelables, removeLinks. cbn.
  destruct (_links w !! b) as [l|] eqn:E; intros [= <- <-]; cbn.
  - set (w0 := set_cancelables _ _). destruct (disconnect_links_same l w0) as (-> & -> & _ & -> & -> & ->).
    do 6 (split; [done|]). intros H. by rewrite bool_decide_eq_true_2.
  - rewrite delete_id by done. do 6 (split; [done|]). intros H. by rewrite bool_decide_eq_true_2.
Qed.

Definition hosted_for (b : SocketBinding) (w : World) : list SocketBinding := filter (fun x => snd x = snd b) (bindings (Some (fst b)) w).

Lemma all_children b w :
  all_bindings w ≡ₚ hosted_for b w ++ filter (fun x => snd x <> snd b) (bindings (Some (fst b)) w) ++ other_bindings (Some (fst b)) w.
Proof.
  rewrite (all_split (Some (fst b)) w), app_assoc. apply Permutation_app_tail. exact (filter_split (fun x => snd x = snd b) _).
Qed.

(** One step of the work, as one equation for each part of the state. *)
Lemma destroy_step b w l' w' : work_step (Destroy b) w = (l', w') ->
  l' = map Destroy (hosted_for b w) ++ [Callback b] /\
  connections w' = connections w ∖ {[b]} /\ cancelables w' = cancelables w ∖ {[b]} /\ _links w' = delete b (_links w) /\
  _objSockBindings w' = <[Some (fst b) := filter (fun x => snd x <> snd b) (bindings (Some (fst b)) w)]> (_objSockBindings w) /\
  adding w' = adding w /\ (b ∈ connections w -> failed w' = failed w).
Proof.
  cbn [work_step]. destruct (remove_own b w) as [r w1] eqn:E. apply remove_own_spec in E as (E1 & E2 & E3 & E4 & E5 & E6 & E7).
  unfold take_from_socket. cbn. intros [= <- <-]. cbn. unfold hosted_for, bindings. rewrite E1, E2, E3, E4, E5, E6.
  do 6 (split; [done|]). intros H. rewrite (E7 H). cbn. by destruct (failed w).
Qed.

Lemma callback_step b w : work_step (Callback b) w = ([], call_unbound b w).
Proof. done. Qed.

(** The bindings that are hosted and destroyed are the same after a step, without the one of the step. *)
Lemma live_step b l w w' :
  _objSockBindings w' = <[Some (fst b) := filter (fun x => snd x <> snd b) (bindings (Some (fst b)) w)]> (_objSockBindings w) -> adding w' = adding w ->
  live ((map Destroy (hosted_for b w) ++ [Callback b]) ++ l) w' ≡ₚ live l w.
Proof.
  intros E4 E5. unfold live. rewrite !destroyed_app, destroyed_map, E5. cbn. rewrite app_nil_r, <- !app_assoc.
  assert (all_bindings w' ≡ₚ filter (fun x => snd x <> snd b) (bindings (Some (fst b)) w) ++ other_bindings (Some (fst b)) w) as ->.
  { rewrite <- all_set. unfold all_bindings. by rewrite E4. }
  rewrite (all_children b w), <- !app_assoc. apply Permutation_app_swap_app.
Qed.

Lemma work_step_inv j l w l' w' : work_step j w = (l', w') -> world_inv (j :: l) w -> world_inv (l' ++ l) w'.
Proof.
  intros E [N C F]. destruct j as [b|b].
  2: { injection E as <- <-. by split. }
  apply destroy_step in E as (-> & E1 & _ & _ & E4 & E5 & E6). assert (live (Destroy b :: l) w = b :: live l w) as El by done. rewrite El in N, C.
  apply NoDup_cons in N as [Nb N]. pose proof (live_step b l w w' E4 E5) as P.
  split.
  - by rewrite P.
  - intros x. rewrite P, E1. specialize (C x). rewrite elem_of_cons in C. set_solver.
  - rewrite E6; [done|]. apply C. by left.
Qed.

(** ** The work comes to an end *)

Definition work_weight (j : work) : nat := match j with Destroy _ => 2 | Callback _ => 1 end.
Definition work_measure (l : list work) (w : World) : nat := sum_list_with work_weight l + 2 * length (all_bindings w).

Lemma work_step_measure j w l l' w' : work_step j w = (l', w') -> work_measure (l' ++ l) w' < work_measure (j :: l) w.
Proof.
  intros E. unfold work_measure. rewrite sum_list_with_app. destruct j as [b|b].
  2: { injection E as <- <-. change (all_bindings (call_unbound b w)) with (all_bindings w). change (sum_list_with work_weight []) with 0. change (sum_list_with work_weight (Callback b :: l)) with (1 + sum_list_with work_weight l). lia. }
  apply destroy_step in E as (-> & _ & _ & _ & E4 & _). rewrite sum_list_with_app.
  assert (forall l : list SocketBinding, sum_list_with work_weight (map Destroy l) = 2 * length l) as Hs by (clear; intros l; induction l as [|x l IH]; cbn; lia).
  assert (length (all_bindings w) = length (hosted_for b w) + length (all_bindings w')) as Ha.
  2: { rewrite Hs, Ha. change (sum_list_with work_weight [Callback b]) with 1. change (sum_list_with work_weight (Destroy b :: l)) with (2 + sum_list_with work_weight l). lia. }
  rewrite (all_children b w).
  assert (all_bindings w' ≡ₚ filter (fun x => snd x <> snd b) (bindings (Some (fst b)) w) ++ other_bindings (Some (fst b)) w) as ->.
  { rewrite <- all_set. unfold all_bindings. by rewrite E4. }
  rewrite !length_app. lia.
Qed.

Lemma run_work_some fuel : forall l w, work_measure l w <= fuel -> exists w', run_work fuel l w = Some w'.
Proof.
  induction fuel as [|fuel IH]; intros [|j l] w H; cbn [run_work]; eauto.
  - unfold work_measure in H. destruct j; cbn in H; lia.
  - destruct (work_step j w) as [l' w1] eqn:E. apply IH. pose proof (work_step_measure _ _ l _ _ E). lia.
Qed.

Lemma work_fuel_enough l w : work_measure (map Destroy l) w <= work_fuel (map Destroy l) w.
Proof. unfold work_measure, work_fuel. rewrite length_map. assert (sum_list_with work_weight (map Destroy l) = 2 * length l) by (induction l as [|x l IH]; cbn; lia). lia. Qed.

Lemma run_work_inv fuel : forall l w w', run_work fuel l w = Some w' -> world_inv l w -> world_inv [] w'.
Proof.
  induction fuel as [|fuel IH]; intros [|j l] w w' E I; cbn [run_work] in E; try done; try (by injection E as <-).
  destruct (work_step j w) as [l' w1] eqn:E1. eapply IH; [exact E|]. by eapply work_step_inv.
Qed.

Lemma destroy_inv l w : world_inv (map Destroy l) w -> world_inv [] (destroy l w).
Proof.
  intros I. unfold destroy. destruct (run_work_some _ _ _ (work_fuel_enough l w)) as [w' E]. rewrite E. cbn. by eapply run_work_inv.
Qed.

(** ** What is removed *)

(** The objects under an object for a socket. *)
Inductive under (w : World) (s : Socket) (o : BoundObject) : BoundObject -> Prop :=
  | under_refl : under w s o o
  | under_step o1 o2 : under w s o o1 -> (o2, s) ∈ bindings (Some o1) w -> under w s o o2.














(** ** Each binding is destroyed once, with a call of its callback *)








(** ** The other sockets *)






(** ** Unbinding a socket *)

Lemma work_nil_live w : live [] w = all_bindings w ++ (adding w).*2.
Proof. done. Qed.

Lemma elem_of_all b w : b ∈ all_bindings w <-> exists h, b ∈ bindings h w.
Proof.
  unfold all_bindings, bindings. rewrite list_elem_of_In, in_concat. split.
  - intros (l & Hl & Hb). apply list_elem_of_In in Hl, Hb. apply list_elem_of_fmap in Hl as ([h l'] & -> & H). apply elem_of_map_to_list in H. exists h. by rewrite H.
  - intros [h Hb]. destruct (_objSockBindings w !! h) as [l|] eqn:E; [|by apply elem_of_nil in Hb]. exists l. split; [|by apply list_elem_of_In].
    apply list_elem_of_In, list_elem_of_fmap. exists (h, l). split; [done|]. by apply elem_of_map_to_list.
Qed.

(** An object under one that is hosted is hosted, or the same. *)
Lemma under_connected w s o o' : world_inv [] w -> (o, s) ∈ connections w -> under w s o o' -> (o', s) ∈ connections w.
Proof.
  intros [_ C _] Ho. destruct 1 as [|o1 o2 _ H]; [done|]. apply C. rewrite work_nil_live, elem_of_app. left. apply elem_of_all. by exists (Some o1).
Qed.


(** The state in which the bindings of [l] are taken out of a host. *)
Lemma take_bindings_inv h l l' w : bindings h w ≡ₚ l ++ l' -> world_inv [] w -> world_inv (map Destroy l) (set_bindings h l' w).
Proof.
  intros P. apply world_perm; [|done|done]. unfold live. rewrite destroyed_map, all_set, (all_split h), P. change (adding (set_bindings h l' w)) with (adding w).
  cbn [destroyed omap list_omap app]. by rewrite <- !app_assoc.
Qed.

Lemma take_first_perm o l : forall b l', take_first o l = Some (b, l') -> l ≡ₚ b :: l' /\ fst b = o.
Proof.
  induction l as [|x l IH]; intros b l' E; cbn in E; [done|]. case_decide; [by injection E as <- <-|].
  destruct (take_first o l) as [[y l1]|]; [|done]. injection E as <- <-. destruct (IH _ _ eq_refl) as [P ?]. split; [|done]. rewrite P. apply Permutation_swap.
Qed.

(** ** Every event keeps the invariant *)

Lemma add_inv h o s w : world_inv [] w -> world_inv [] (default w (addObject h o s w)).
Proof.
  intros I. unfold addObject, SocketBinding_make, bindToSocket. destruct (existsb _ _); [done|]. case_decide as Hc; [done|]. cbn.
  destruct I as [N C F]. assert (live [] (set_adding (adding w ++ [(h, (o, s))]) (set_connections (connections w ∪ {[(o, s)]}) w)) ≡ₚ (o, s) :: live [] w) as P.
  { rewrite !work_nil_live. change (all_bindings (set_adding _ _)) with (all_bindings w). cbn [adding set_adding]. rewrite fmap_app. cbn.
    rewrite app_assoc, Permutation_app_comm. done. }
  split; [|intros b; rewrite P, elem_of_cons, <- C; cbn; set_solver|done].
  rewrite P. apply NoDup_cons. split; [by rewrite <- C|done].
Qed.

Lemma emplace_inv n w : world_inv [] w -> world_inv [] (addObject_emplace n w).
Proof.
  unfold addObject_emplace. destruct (adding w !! n) as [[h b]|] eqn:E; [|done]. apply world_perm; [|done|done]. rewrite !work_nil_live.
  rewrite (all_set h), (all_split h w). cbn [adding set_adding set_bindings]. change (bindings h (set_adding _ w)) with (bindings h w).
  change (other_bindings h (set_adding _ w)) with (other_bindings h w). rewrite <- (take_drop_middle _ _ _ E) at 1. rewrite !fmap_app, fmap_cons. cbn. solve_Permutation.
Qed.

Lemma host_handle_inv e w : world_inv [] w -> world_inv [] (handle e w).
Proof.
  intros I. destruct e; cbn [handle].
  - by apply add_inv.
  - by apply emplace_inv.
  - unfold removeObject. destruct (take_first o (bindings h w)) as [[b l]|] eqn:E; [|done]. apply destroy_inv, take_bindings_inv; [|done].
    by apply take_first_perm in E as [-> _].
  - unfold removeObjectsFromSocket, take_from_socket. apply destroy_inv, take_bindings_inv; [|done]. exact (filter_split (fun x => snd x = s) _).
  - apply destroy_inv, take_bindings_inv; [by rewrite app_nil_r|done].
  - by apply (world_perm [] w).
  - by apply (world_perm [] w).
  - by apply (world_perm [] w).
  - apply (world_perm [] w); try done; unfold unregisterEvent; destruct (_ =? _)%Z; try done; destruct (find _ _) as [k|]; try done; by destruct (localSignalLinkId k).
Qed.

Lemma runs_inv l : forall w, world_inv [] w -> world_inv [] (runs l w).
Proof. induction l as [|e l IH]; intros w I; [done|]. by apply IH, host_handle_inv. Qed.

Lemma World_new_inv : world_inv [] World_new.
Proof. split; [apply NoDup_nil_2|intros b; cbn; set_solver|done]. Qed.

(** C34. Whatever the objects that are added, removed, cleared and unbound, for every host: an
    object is connected to the messages of a socket exactly when there is one binding of the two,
    in one host (or one that is being added), so that a socket is never bound twice; and the assertion
    of [SocketBinding::reset], that the unbinding has removed something, never fails. *)
Theorem host_bindings l : let w := runs l World_new in
  NoDup (all_bindings w ++ (adding w).*2) /\
  (forall b, b ∈ connections w <-> (exists h, b ∈ bindings h w) \/ exists h, (h, b) ∈ adding w) /\
  failed w = false.
Proof.
  intros w. destruct (runs_inv l _ World_new_inv) as [N C F]. fold w in N, C, F. split; [done|]. split; [|done].
  intros b. rewrite C, work_nil_live, elem_of_app, elem_of_all, list_elem_of_fmap. split.
  - intros [H|([h b'] & -> & H)]; [by left|right; by exists h].
  - intros [H|[h H]]; [by left|right]. by exists (h, b).
Qed.


(** ** What the code does in the limits *)

(** A client registers to a signal and the connection of the local link fails: when its socket is
    unbound, [removeLinks] reads the value of the future, which throws out of a [noexcept] function. *)
Lemma link_in_error_terminates :
  let w := runs [Add None 2 1; Emplace 0; Register (2, 1) 7 None; RemoveSocket None 1] World_new in terminated w = true.
Proof. by vm_compute. Qed.

(** A remote link that is registered twice loses the first local link: it is never disconnected. *)
Lemma second_registration_leaks :
  let w := runs [Add None 2 1; Emplace 0; Register (2, 1) 7 (Some 70); Register (2, 1) 7 (Some 71); RemoveSocket None 1] World_new in
  disconnected w = [71] /\ bool_decide (_links w = ∅) = true.
Proof. by vm_compute. Qed.

(** To unregister an unknown link throws and leaves an entry without links for the socket. *)
Lemma unknown_link_leaves_entry :
  let w := runs [Add None 2 1; Emplace 0; Unregister (2, 1) 7] World_new in _links w !! (2, 1) = Some [] /\ fst (unregisterEvent (2, 1) 7 w) = false.
Proof. by vm_compute. Qed.

(** An object that is being added while its socket is unbound stays bound. *)
Lemma late_add_stays_bound :
  let w := runs [Add None 2 1; RemoveSocket None 1; Emplace 0] World_new in bindings None w = [(2, 1)] /\ bool_decide ((2, 1) ∈ connections w) = true.
Proof. by vm_compute. Qed.
