(* ===== verification/Signal.v ===== *)
(** * Signal: signals, their subscribers and emissions

    Model of [src/type/signal.cpp], with the parts of [qi/signal.hpp] and
    [qi/type/detail/signal.hxx] that it needs, for one signal. Subscribers have entity
    semantics: they are in a table, and the map of the signal has pointers to them. An emission, a
    disconnection and what an execution context was given are threads: lists of instructions, which
    run one at a time, interleaved with the calls of any other thread. *)
From S2P Require Import Prelude SortedMap CString Bytes Signature Float32 SignatureConvert.
From Stdlib Require Import Sorting.Sorted.
Open Scope nat_scope.

(** ** The data *)

Inductive MetaCallType := MetaCallType_Auto | MetaCallType_Direct | MetaCallType_Queued.
#[export] Instance MetaCallType_eq_dec : EqDecision MetaCallType.
Proof. solve_decision. Defined.

Notation SignalLink := Z (only parsing).
Definition invalidSignalLink : SignalLink := (2 ^ 64 - 1)%Z.
Definition isValidSignalLink (l : SignalLink) : bool := negb (l =? invalidSignalLink)%Z.

(** What a subscriber calls: a function, with the signature of its parameters unless it is
    dynamic, or a method of an object. *)
Inductive callee :=
  | Handler (f : nat) (params : option Signature)
  | Target (o method : nat)
  | NoCallee.

Record SignalSubscriberPrivate := mkSubscriber {
  linkId : SignalLink;
  source : bool;
  target : callee;
  threadingModel : MetaCallType;
  enabled : bool;
  executionContext : option nat;
}.

Notation SubscriberPtr := nat (only parsing).
Notation Args := nat (only parsing).

(** What a thread has to do next. *)
Inductive instr :=
  | ICall (s : SubscriberPtr) (args : Args) (callType : MetaCallType)
  | ICallImpl (s : SubscriberPtr) (args : Args)
  | IRun (s : SubscriberPtr) (args : Args)
  | IReturn (s : SubscriberPtr)
  | IDisconnect (l : SignalLink)
  | IOnSubscribers (l : SignalLink)
  | IDisconnectAll.

(** The end of a handler. *)
Inductive outcome := Returns | Throws | PointerLockFails.

(** The future of a disconnection: a value, or the value true after that of a call of [onSubscribers]. *)
Inductive disconnection := DValue (b : bool) | DAfter (call : nat).

Record Signal := mkSignal {
  onSubscribers : bool;
  subscriberMap : list (SignalLink * SubscriberPtr);
  trackMap : list (Z * SignalLink);
  trackId : Z;
  signature : Signature;
  defaultCallType : MetaCallType;
  triggerOverride : bool;
  execContext : option nat;
  (** the world around the signal: subscribers, links, objects with the signatures of their methods, the event loop *)
  subscribers : list SignalSubscriberPrivate;
  linkUid : SignalLink;
  objects : gmap nat (gmap nat Signature);
  eventLoop : bool;
  requireSameName : bool;
  threads : list (list instr);
  (** what happened: calls of handlers, posts to objects, calls of [onSubscribers], of the override, and
      the results of connections and disconnections *)
  handled : list (SubscriberPtr * Args);
  posts : list (nat * nat * Args);
  on_calls : list bool;
  overridden : list (Args * MetaCallType);
  connections : list (option (SubscriberPtr * option nat));
  disconnections : list (SignalLink * disconnection);
}.

Definition set_map (m : list (SignalLink * SubscriberPtr)) (x : Signal) : Signal :=
  mkSignal (onSubscribers x) m (trackMap x) (trackId x) (signature x) (defaultCallType x) (triggerOverride x) (execContext x) (subscribers x) (linkUid x) (objects x)
    (eventLoop x) (requireSameName x) (threads x) (handled x) (posts x) (on_calls x) (overridden x) (connections x) (disconnections x).
Definition set_track (m : list (Z * SignalLink)) (i : Z) (x : Signal) : Signal :=
  mkSignal (onSubscribers x) (subscriberMap x) m i (signature x) (defaultCallType x) (triggerOverride x) (execContext x) (subscribers x) (linkUid x) (objects x)
    (eventLoop x) (requireSameName x) (threads x) (handled x) (posts x) (on_calls x) (overridden x) (connections x) (disconnections x).
Definition configure (on : bool) (sig : Signature) (ct : MetaCallType) (override : bool) (ec : option nat) (x : Signal) : Signal :=
  mkSignal on (subscriberMap x) (trackMap x) (trackId x) sig ct override ec (subscribers x) (linkUid x) (objects x)
    (eventLoop x) (requireSameName x) (threads x) (handled x) (posts x) (on_calls x) (overridden x) (connections x) (disconnections x).
Definition set_subscribers (l : list SignalSubscriberPrivate) (uid : SignalLink) (x : Signal) : Signal :=
  mkSignal (onSubscribers x) (subscriberMap x) (trackMap x) (trackId x) (signature x) (defaultCallType x) (triggerOverride x) (execContext x) l uid (objects x)
    (eventLoop x) (requireSameName x) (threads x) (handled x) (posts x) (on_calls x) (overridden x) (connections x) (disconnections x).
Definition set_world (o : gmap nat (gmap nat Signature)) (loop : bool) (x : Signal) : Signal :=
  mkSignal (onSubscribers x) (subscriberMap x) (trackMap x) (trackId x) (signature x) (defaultCallType x) (triggerOverride x) (execContext x) (subscribers x) (linkUid x) o
    loop (requireSameName x) (threads x) (handled x) (posts x) (on_calls x) (overridden x) (connections x) (disconnections x).
Definition set_threads (l : list (list instr)) (x : Signal) : Signal :=
  mkSignal (onSubscribers x) (subscriberMap x) (trackMap x) (trackId x) (signature x) (defaultCallType x) (triggerOverride x) (execContext x) (subscribers x) (linkUid x) (objects x)
    (eventLoop x) (requireSameName x) l (handled x) (posts x) (on_calls x) (overridden x) (connections x) (disconnections x).
Definition log_handled (s : SubscriberPtr) (a : Args) (x : Signal) : Signal :=
  mkSignal (onSubscribers x) (subscriberMap x) (trackMap x) (trackId x) (signature x) (defaultCallType x) (triggerOverride x) (execContext x) (subscribers x) (linkUid x) (objects x)
    (eventLoop x) (requireSameName x) (threads x) (handled x ++ [(s, a)]) (posts x) (on_calls x) (overridden x) (connections x) (disconnections x).
Definition log_post (o m : nat) (a : Args) (x : Signal) : Signal :=
  mkSignal (onSubscribers x) (subscriberMap x) (trackMap x) (trackId x) (signature x) (defaultCallType x) (triggerOverride x) (execContext x) (subscribers x) (linkUid x) (objects x)
    (eventLoop x) (requireSameName x) (threads x) (handled x) (posts x ++ [(o, m, a)]) (on_calls x) (overridden x) (connections x) (disconnections x).
Definition log_on (b : bool) (x : Signal) : Signal :=
  mkSignal (onSubscribers x) (subscriberMap x) (trackMap x) (trackId x) (signature x) (defaultCallType x) (triggerOverride x) (execContext x) (subscribers x) (linkUid x) (objects x)
    (eventLoop x) (requireSameName x) (threads x) (handled x) (posts x) (on_calls x ++ [b]) (overridden x) (connections x) (disconnections x).
Definition log_override (a : Args) (ct : MetaCallType) (x : Signal) : Signal :=
  mkSignal (onSubscribers x) (subscriberMap x) (trackMap x) (trackId x) (signature x) (defaultCallType x) (triggerOverride x) (execContext x) (subscribers x) (linkUid x) (objects x)
    (eventLoop x) (requireSameName x) (threads x) (handled x) (posts x) (on_calls x) (overridden x ++ [(a, ct)]) (connections x) (disconnections x).
Definition log_connection (c : option (SubscriberPtr * option nat)) (x : Signal) : Signal :=
  mkSignal (onSubscribers x) (subscriberMap x) (trackMap x) (trackId x) (signature x) (defaultCallType x) (triggerOverride x) (execContext x) (subscribers x) (linkUid x) (objects x)
    (eventLoop x) (requireSameName x) (threads x) (handled x) (posts x) (on_calls x) (overridden x) (connections x ++ [c]) (disconnections x).
Definition log_disconnection (l : SignalLink) (d : disconnection) (x : Signal) : Signal :=
  mkSignal (onSubscribers x) (subscriberMap x) (trackMap x) (trackId x) (signature x) (defaultCallType x) (triggerOverride x) (execContext x) (subscribers x) (linkUid x) (objects x)
    (eventLoop x) (requireSameName x) (threads x) (handled x) (posts x) (on_calls x) (overridden x) (connections x) (disconnections x ++ [(l, d)]).

Definition spawn (t : list instr) (x : Signal) : Signal := set_threads (threads x ++ [t]) x.

Definition Signal_init (sig : Signature) (ec : option nat) (on rsn : bool) : Signal :=
  mkSignal on [] [] 0 sig MetaCallType_Auto false ec [] 1%Z ∅ true rsn [] [] [] [] [] [] [].

(** The constructor throws unless the signature is a tuple or dynamic. *)
Definition Signal_new (sig : Signature) (ec : option nat) (on rsn : bool) : option Signal :=
  if bool_decide (type sig = Type_Dynamic) || bool_decide (type sig = Type_Tuple) then Some (Signal_init sig ec on rsn) else None.

(** ** Subscribers *)

Definition new_subscriber (t : callee) (ct : MetaCallType) (ec : option nat) (x : Signal) : SubscriberPtr * Signal :=
  (length (subscribers x), set_subscribers (subscribers x ++ [mkSubscriber invalidSignalLink false t ct true ec]) (linkUid x) x).

Definition update_subscriber (s : SubscriberPtr) (f : SignalSubscriberPrivate -> SignalSubscriberPrivate) (x : Signal) : Signal :=
  set_subscribers (alter f s (subscribers x)) (linkUid x) x.

Definition setCallType (ct : MetaCallType) (p : SignalSubscriberPrivate) : SignalSubscriberPrivate :=
  mkSubscriber (linkId p) (source p) (target p) ct (enabled p) (executionContext p).
Definition disable (p : SignalSubscriberPrivate) : SignalSubscriberPrivate :=
  mkSubscriber (linkId p) (source p) (target p) (threadingModel p) false (executionContext p).
Definition attach (l : SignalLink) (p : SignalSubscriberPrivate) : SignalSubscriberPrivate :=
  mkSubscriber l true (target p) (threadingModel p) (enabled p) (executionContext p).

(** [SignalSubscriber::signature] *)
Definition subscriber_signature (t : callee) (x : Signal) : Signature :=
  match t with
  | Handler _ (Some sig) => sig
  | Handler _ None => Signature_empty
  | Target o m => match objects x !! o with Some methods => default Signature_empty (methods !! m) | None => Signature_empty end
  | NoCallee => Signature_empty
  end.

(** [executionContextFor]: nothing for a call in the thread of the emission, else the context, none for the event loop. *)
Definition executionContextFor (p : SignalSubscriberPrivate) (callType : MetaCallType) : option (option nat) :=
  match target p with
  | Handler _ _ =>
      let async := match threadingModel p, callType with
                   | MetaCallType_Auto, MetaCallType_Auto => true
                   | MetaCallType_Auto, ct => bool_decide (ct = MetaCallType_Queued)
                   | ct, _ => bool_decide (ct = MetaCallType_Queued)
                   end in
      match executionContext p with
      | None => if async then Some None else None
      | Some e => Some (Some e)
      end
  | _ => None
  end.

(** ** Connections *)

Definition signature_m : Signature := Sig (lit "m") [].

(** The tests of [connectAsync], false when it throws. *)
Definition accepts (t : callee) (x : Signal) : bool :=
  let sub := subscriber_signature t x in
  if negb (sig_eq (signature x) signature_m) && isValid sub then
    bool_decide (length (children (signature x)) = length (children sub)) &&
    match isConvertibleTo (requireSameName x) (signature x) sub with Some r => negb (f32_eqb r f32_zero) | None => false end
  else true.

(** [connectAsync]; the result has the call of [onSubscribers] that it waits for. *)
Definition connectAsync (s : SubscriberPtr) (x : Signal) : Signal :=
  match subscribers x !! s with
  | None => x
  | Some p =>
      if negb (accepts (target p) x) then log_connection None x
      else
        let first := bool_decide (subscriberMap x = []) in
        let res := wrap64 (linkUid x + 1) in
        let x := set_subscribers (subscribers x) res x in
        let x := set_map (map_set Z.compare res s (subscriberMap x)) x in
        let x := update_subscriber s (attach res) x in
        if first && onSubscribers x then log_connection (Some (s, Some (length (on_calls x)))) (log_on true x)
        else log_connection (Some (s, None)) x
  end.

(** [SignalF::connect] of a function. *)
Definition connect_function (f : nat) (params : option Signature) (x : Signal) : Signal :=
  let (s, x) := match execContext x with
                | Some e => new_subscriber (Handler f params) MetaCallType_Direct (Some e) x
                | None => new_subscriber (Handler f params) MetaCallType_Auto None x
                end in
  connectAsync s x.

(** [SignalBasePrivate::disconnect], up to the call of [onSubscribers], which is made out of the lock. *)
Definition disconnect (l : SignalLink) (x : Signal) : list instr * Signal :=
  if negb (isValidSignalLink l) then ([], log_disconnection l (DValue true) x)
  else
    match map_find Z.compare l (subscriberMap x) with
    | None => ([], log_disconnection l (DValue false) x)
    | Some s =>
        let x := set_map (map_erase Z.compare l (subscriberMap x)) x in
        let on := bool_decide (subscriberMap x = []) && onSubscribers x in
        let x := update_subscriber s disable x in
        if on then ([IOnSubscribers l], x) else ([], log_disconnection l (DValue true) x)
    end.

(** [createNewTrackLink], the writing of the link, false when the entry is not there any more,
    and [disconnectTrackLink]. *)
Definition createNewTrackLink (x : Signal) : Signal :=
  let id := (trackId x + 1)%Z in set_track (map_set Z.compare id 0%Z (trackMap x)) id x.
Definition write_track_link (id : Z) (l : SignalLink) (x : Signal) : bool * Signal :=
  match map_find Z.compare id (trackMap x) with
  | Some _ => (true, set_track (map_set Z.compare id l (trackMap x)) (trackId x) x)
  | None => (false, x)
  end.
Definition disconnectTrackLink (id : Z) (x : Signal) : Signal :=
  match map_find Z.compare id (trackMap x) with
  | Some l => set_track (map_erase Z.compare id (trackMap x)) (trackId x) (set_map (map_erase Z.compare l (subscriberMap x)) x)
  | None => x
  end.

(** ** Emissions *)

(** [callSubscribers]: the thread goes through a copy of the map. *)
Definition callSubscribers (args : Args) (callType : MetaCallType) (x : Signal) : Signal :=
  let mct := if decide (callType = MetaCallType_Auto) then defaultCallType x else callType in
  spawn (map (fun p => ICall (snd p) args mct) (subscriberMap x)) x.

Definition trigger (args : Args) (callType : MetaCallType) (x : Signal) : Signal :=
  if triggerOverride x then log_override args callType x else callSubscribers args callType x.

(** [operator()], for arguments with a signature. *)
Definition emit (sig : Signature) (args : Args) (x : Signal) : Signal :=
  let mct := if sig_eq sig (signature x) then defaultCallType x else MetaCallType_Auto in trigger args mct x.

(** [SignalSubscriber::call]: what the thread does next, none when it throws. *)
Definition call (p : SignalSubscriberPrivate) (s : SubscriberPtr) (args : Args) (callType : MetaCallType) (x : Signal) : option (list instr) * Signal :=
  match target p with
  | Handler _ _ =>
      match executionContextFor p callType with
      | Some e => if bool_decide (e = None) && negb (eventLoop x) then (None, x) else (Some [], spawn [ICallImpl s args] x)
      | None => (Some [ICallImpl s args], x)
      end
  | Target o m =>
      match objects x !! o with
      | Some _ => (Some [], log_post o m args x)
      | None => (Some (if enabled p && source p then [IDisconnect (linkId p)] else []), x)
      end
  | NoCallee => (Some [], x)
  end.

(** [callImpl], before the call of the handler and after it. *)
Definition callImpl (s : SubscriberPtr) (args : Args) (x : Signal) : list instr :=
  match subscribers x !! s with Some p => if enabled p then [IRun s args] else [] | None => [] end.
Definition callImpl_end (s : SubscriberPtr) (o : outcome) (x : Signal) : list instr :=
  match o, subscribers x !! s with
  | PointerLockFails, Some p => if enabled p && source p then [IDisconnect (linkId p)] else []
  | _, _ => []
  end.

(** One turn of the loop of [disconnectAllStep]. *)
Definition disconnectAllStep (x : Signal) : list instr :=
  match subscriberMap x with
  | [] => []
  | (l, _) :: _ => if isValidSignalLink l then [IDisconnect l; IDisconnectAll] else [IDisconnectAll]
  end.

(** The destructor. *)
Definition Signal_destroy (x : Signal) : Signal :=
  spawn [IDisconnectAll] (configure false (signature x) (defaultCallType x) (triggerOverride x) (execContext x) x).

(** One instruction of a thread: what replaces it, none when an exception ends the thread. *)
Definition exec (i : instr) (o : outcome) (x : Signal) : option (list instr) * Signal :=
  match i with
  | ICall s args ct => match subscribers x !! s with Some p => call p s args ct x | None => (Some [], x) end
  | ICallImpl s args => (Some (callImpl s args x), x)
  | IRun s args => (Some [IReturn s], log_handled s args x)
  | IReturn s => (Some (callImpl_end s o x), x)
  | IDisconnect l => let (t, x) := disconnect l x in (Some t, x)
  | IOnSubscribers l => (Some [], log_disconnection l (DAfter (length (on_calls x))) (log_on false x))
  | IDisconnectAll => (Some (disconnectAllStep x), x)
  end.

Definition step (k : nat) (o : outcome) (x : Signal) : Signal :=
  match threads x !! k with
  | Some (i :: t) =>
      let (r, x) := exec i o x in
      set_threads (<[k := match r with Some u => u ++ t | None => [] end]> (threads x)) x
  | _ => x
  end.

(** ** Runs *)

Inductive event :=
  | New (t : callee) (ct : MetaCallType) (ec : option nat)
  | SubscriberCallType (s : SubscriberPtr) (ct : MetaCallType)
  | Connect (s : SubscriberPtr)
  | ConnectFunction (f : nat) (params : option Signature)
  | Disconnect (l : SignalLink)
  | DisconnectAll
  | Trigger (args : Args) (ct : MetaCallType)
  | Emit (sig : Signature) (args : Args)
  | Step (k : nat) (o : outcome)
  | Track
  | WriteTrack (id : Z) (l : SignalLink)
  | TrackLost (id : Z)
  | SetSignature (sig : Signature)
  | SetCallType (ct : MetaCallType)
  | SetTriggerOverride (b : bool)
  | ClearExecutionContext
  | SetOnSubscribers (b : bool)
  | Destroy
  | ObjectMade (o : nat) (methods : gmap nat Signature)
  | ObjectDestroyed (o : nat)
  | EventLoopDestroyed.

Definition handle (e : event) (x : Signal) : Signal :=
  match e with
  | New t ct ec => snd (new_subscriber t ct ec x)
  | SubscriberCallType s ct => update_subscriber s (setCallType ct) x
  | Connect s => connectAsync s x
  | ConnectFunction f params => connect_function f params x
  | Disconnect l => spawn [IDisconnect l] x
  | DisconnectAll => spawn [IDisconnectAll] x
  | Trigger args ct => trigger args ct x
  | Emit sig args => emit sig args x
  | Step k o => step k o x
  | Track => createNewTrackLink x
  | WriteTrack id l => snd (write_track_link id l x)
  | TrackLost id => disconnectTrackLink id x
  | SetSignature sig => configure (onSubscribers x) sig (defaultCallType x) (triggerOverride x) (execContext x) x
  | SetCallType ct => configure (onSubscribers x) (signature x) ct (triggerOverride x) (execContext x) x
  | SetTriggerOverride b => configure (onSubscribers x) (signature x) (defaultCallType x) b (execContext x) x
  | ClearExecutionContext => configure (onSubscribers x) (signature x) (defaultCallType x) (triggerOverride x) None x
  | SetOnSubscribers b => configure b (signature x) (defaultCallType x) (triggerOverride x) (execContext x) x
  | Destroy => Signal_destroy x
  | ObjectMade o methods => set_world (<[o := methods]> (objects x)) (eventLoop x) x
  | ObjectDestroyed o => set_world (delete o (objects x)) (eventLoop x) x
  | EventLoopDestroyed => set_world (objects x) false x
  end.

Definition runs (l : list event) (x : Signal) : Signal := foldl (fun x e => handle e x) x l.

(** A signal without parameters, with a callback for the number of subscribers. *)
Definition demo : Signal := Signal_init (Sig (lit "()") []) None true true.

Example emission :
  let x := runs [ConnectFunction 1 (Some (Sig (lit "()") [])); New (Handler 2 None) MetaCallType_Direct None; Connect 1; Trigger 5 MetaCallType_Auto;
                 Step 0 Returns; Step 0 Returns; Step 0 Returns; Step 0 Returns; Step 0 Returns; Step 1 Returns; Step 1 Returns; Step 1 Returns] demo in
  handled x = [(1, 5); (0, 5)] /\ on_calls x = [true] /\ (subscriberMap x).*2 = [0; 1] /\ threads x = [[]; []].
Proof. vm_compute. done. Qed.

(** ** Threads *)

Lemma sum_insert {A} (f : A -> nat) (l : list A) k t u : l !! k = Some t -> sum_list_with f (<[k := u]> l) + f t = sum_list_with f l + f u.
Proof. revert k. induction l as [|a l IH]; intros [|k] H; [done|done|injection H as ->; simpl; lia|]. specialize (IH k H). simpl. lia. Qed.

Lemma sum_one {A} (f : A -> nat) l a : sum_list_with f (l ++ [a]) = sum_list_with f l + f a.
Proof. rewrite sum_list_with_app. cbn. lia. Qed.

(** What an instruction leaves of the threads: they are the same, or there is one more. *)
Lemma disconnect_threads l x t x' : disconnect l x = (t, x') ->
  threads x' = threads x /\ handled x' = handled x /\ (t = [] \/ t = [IOnSubscribers l]).
Proof.
  unfold disconnect. destruct (negb _); [intros [= <- <-]; auto|]. destruct (map_find _ _ _) as [s|]; [|intros [= <- <-]; auto].
  destruct (_ && _); intros [= <- <-]; cbn; auto.
Qed.

Lemma exec_threads i o x r x' : exec i o x = (r, x') -> exists l, threads x' = threads x ++ l.
Proof.
  intros E. destruct i as [s' a ct|s' a|s' a|s'|l|l|]; cbn [exec] in E; unfold callImpl, callImpl_end, disconnectAllStep in E; try (injection E as <- <-; exists []; by rewrite app_nil_r).
  - destruct (subscribers x !! s') as [p|]; [|injection E as <- <-; exists []; by rewrite app_nil_r]. unfold call in E.
    destruct (target p); [destruct (executionContextFor p ct); [destruct (_ && _)|]|destruct (objects x !! _)|]; injection E as <- <-;
      try (exists []; by rewrite app_nil_r). by eexists.
  - destruct (disconnect l x) as [t x1] eqn:E1. injection E as <- <-. exists []. rewrite app_nil_r. by apply disconnect_threads in E1 as [-> _].
Qed.

(** ** A subscriber that is disabled *)

Definition disabled (s : SubscriberPtr) (x : Signal) : Prop := exists p, subscribers x !! s = Some p /\ enabled p = false.

(** The calls of the handler that began, and those of which the test of [enabled] is over. *)
Definition started (s : SubscriberPtr) (x : Signal) : nat := sum_list_with (fun c => if decide (fst c = s) then 1 else 0) (handled x).
Definition about_to_run (s : SubscriberPtr) (i : instr) : nat := match i with IRun s' _ => if decide (s' = s) then 1 else 0 | _ => 0 end.
Definition checked (s : SubscriberPtr) (x : Signal) : nat := sum_list_with (sum_list_with (about_to_run s)) (threads x).

Lemma update_disabled s s' f x : (forall p, enabled p = false -> enabled (f p) = false) -> disabled s x -> disabled s (update_subscriber s' f x).
Proof.
  intros Hf (p & Hp & He). unfold disabled. cbn. destruct (decide (s' = s)) as [->|Hne].
  - exists (f p). rewrite list_lookup_alter_eq, Hp. auto.
  - exists p. by rewrite list_lookup_alter_ne.
Qed.

Lemma disconnect_disabled s l x t x' : disconnect l x = (t, x') -> disabled s x -> disabled s x'.
Proof.
  intros E Hd. unfold disconnect in E. destruct (negb _); [by injection E as <- <-|]. destruct (map_find _ _ _) as [s'|]; [|by injection E as <- <-].
  pose proof (update_disabled s s' disable _ (fun p _ => eq_refl) (Hd : disabled s (set_map (map_erase Z.compare l (subscriberMap x)) x))) as Hd'.
  destruct (_ && _); injection E as <- <-; exact Hd'.
Qed.

Lemma exec_disabled s i o x r x' : exec i o x = (r, x') -> disabled s x ->
  disabled s x' /\ started s x' + sum_list_with (about_to_run s) (default [] r) + checked s x' <= started s x + about_to_run s i + checked s x.
Proof.
  intros E Hd. pose proof Hd as (p0 & Hp0 & He0). destruct i as [s' a ct|s' a|s' a|s'|l|l|]; cbn [exec] in E; unfold callImpl, callImpl_end, disconnectAllStep in E.
  - destruct (subscribers x !! s') as [p|]; [|injection E as <- <-; cbn; split; [done|lia]]. unfold call in E.
    destruct (target p); [|destruct (objects x !! _); [|destruct (_ && _)]; injection E as <- <-; cbn; split; try done; unfold started, checked; cbn; lia|injection E as <- <-; cbn; split; [done|lia]].
    destruct (executionContextFor p ct) as [e|]; [|injection E as <- <-; cbn; split; [done|lia]].
    destruct (_ && _); injection E as <- <-; cbn [default]; (split; [done|]); [cbn; lia|]. unfold checked, spawn. cbn [threads set_threads]. rewrite sum_one. unfold started. cbn. lia.
  - injection E as <- <-. split; [done|]. cbn [default about_to_run]. destruct (subscribers x !! s') as [p|] eqn:Ep; [|cbn; lia].
    destruct (enabled p) eqn:Ee; [|cbn; lia]. cbn. case_decide as Hs; [|lia]. subst s'. congruence.
  - injection E as <- <-. split; [done|]. unfold started, checked. cbn [handled threads log_handled about_to_run default]. rewrite sum_one. cbn. lia.
  - injection E as <- <-. split; [done|]. cbn [default]. destruct o, (subscribers x !! s') as [p|]; cbn; try lia. destruct (_ && _); cbn; lia.
  - destruct (disconnect l x) as [t x1] eqn:E1. injection E as <- <-. split; [by eapply disconnect_disabled|].
    apply disconnect_threads in E1 as (Et & Eh & Hr). unfold started, checked. rewrite Et, Eh. cbn [default]. destruct Hr as [-> | ->]; cbn; lia.
  - injection E as <- <-. split; [done|]. cbn. unfold started, checked. cbn. lia.
  - injection E as <- <-. split; [done|]. cbn [default]. destruct (subscriberMap x) as [|[l s1] m]; cbn; [lia|]. destruct (isValidSignalLink l); cbn; lia.
Qed.

Lemma step_disabled s k o x : disabled s x -> disabled s (step k o x) /\ started s (step k o x) + checked s (step k o x) <= started s x + checked s x.
Proof.
  intros Hd. unfold step. destruct (threads x !! k) as [[|i t]|] eqn:Ek; [split; [done|lia]| |split; [done|lia]].
  destruct (exec i o x) as [r x1] eqn:E. pose proof (exec_threads _ _ _ _ _ E) as (n & Et). destruct (exec_disabled s _ _ _ _ _ E Hd) as [Hd1 H].
  split; [exact Hd1|]. assert (threads x1 !! k = Some (i :: t)) as Ek1 by (rewrite Et; by apply lookup_app_l_Some).
  pose proof (sum_insert (sum_list_with (about_to_run s)) (threads x1) k _ (match r with Some u => u ++ t | None => [] end) Ek1) as Hs.
  unfold checked at 1. cbn [threads set_threads]. unfold started at 1. cbn [handled set_threads]. fold (started s x1).
  assert (sum_list_with (about_to_run s) (match r with Some u => u ++ t | None => [] end) <= sum_list_with (about_to_run s) (default [] r) + sum_list_with (about_to_run s) t) as Hr.
  { destruct r as [u|]; cbn [default]; [by rewrite sum_list_with_app|cbn; lia]. }
  cbn [sum_list_with] in Hs. fold (checked s x1) in Hs. lia.
Qed.

Lemma connect_cases s x :
  connectAsync s x = x \/ connectAsync s x = log_connection None x \/
  exists p, subscribers x !! s = Some p /\ accepts (target p) x = true /\
    let x1 := set_subscribers (alter (attach (wrap64 (linkUid x + 1))) s (subscribers x)) (wrap64 (linkUid x + 1))
                (set_map (map_set Z.compare (wrap64 (linkUid x + 1)) s (subscriberMap x)) x) in
    connectAsync s x = if bool_decide (subscriberMap x = []) && onSubscribers x then log_connection (Some (s, Some (length (on_calls x)))) (log_on true x1)
                       else log_connection (Some (s, None)) x1.
Proof.
  unfold connectAsync. destruct (subscribers x !! s) as [p|] eqn:Ep; [|by left]. destruct (accepts (target p) x) eqn:Ea; cbn [negb]; [|by right; left].
  right; right. exists p. split; [done|]. split; [done|]. done.
Qed.

(** A call changes neither the calls of handlers nor the threads that there are. *)
Definition quiet (x x' : Signal) : Prop := handled x' = handled x /\ threads x' = threads x /\ forall s, disabled s x -> disabled s x'.

Lemma connect_quiet s x : quiet x (connectAsync s x).
Proof.
  destruct (connect_cases s x) as [-> |[-> |(p & Hp & _ & E)]]; [done..|]. cbv zeta in E. rewrite E.
  assert (forall s0, disabled s0 x -> exists p0, alter (attach (wrap64 (linkUid x + 1))) s (subscribers x) !! s0 = Some p0 /\ enabled p0 = false) as H.
  { intros s0 Hd. exact (update_disabled s0 s (attach _) x (fun p H => H) Hd). }
  destruct (_ && _); done.
Qed.

Lemma new_quiet t ct ec x : quiet x (snd (new_subscriber t ct ec x)).
Proof. split; [done|]. split; [done|]. intros s (p & Hp & He). exists p. split; [|done]. cbn. by apply lookup_app_l_Some. Qed.

Lemma quiet_trans x1 x2 x3 : quiet x1 x2 -> quiet x2 x3 -> quiet x1 x3.
Proof. intros (H1 & T1 & D1) (H2 & T2 & D2). split; [congruence|]. split; [congruence|]. auto. Qed.

Lemma connect_function_quiet f params x : quiet x (connect_function f params x).
Proof.
  unfold connect_function. destruct (execContext x) as [e|].
  - exact (quiet_trans _ _ _ (new_quiet _ MetaCallType_Direct (Some e) x) (connect_quiet _ _)).
  - exact (quiet_trans _ _ _ (new_quiet _ MetaCallType_Auto None x) (connect_quiet _ _)).
Qed.

Lemma quiet_bound s x x' : quiet x x' -> disabled s x -> disabled s x' /\ started s x' + checked s x' <= started s x + checked s x.
Proof. intros (H & T & D) Hd. split; [by apply D|]. unfold started, checked. by rewrite H, T. Qed.

(** A thread that begins has tested nothing. *)
Lemma spawn_bound s t x : sum_list_with (about_to_run s) t = 0 -> disabled s x ->
  disabled s (spawn t x) /\ started s (spawn t x) + checked s (spawn t x) <= started s x + checked s x.
Proof. intros H Hd. split; [exact Hd|]. unfold started, checked, spawn. cbn [threads handled set_threads]. rewrite sum_one, H. lia. Qed.

Lemma calls_no_run s l args ct : sum_list_with (about_to_run s) (map (fun p : SignalLink * SubscriberPtr => ICall (snd p) args ct) l) = 0.
Proof. by induction l. Qed.

Lemma trigger_bound s args ct x : disabled s x ->
  disabled s (trigger args ct x) /\ started s (trigger args ct x) + checked s (trigger args ct x) <= started s x + checked s x.
Proof. intros Hd. unfold trigger. destruct (triggerOverride x); [by apply quiet_bound|]. apply spawn_bound; [apply calls_no_run|done]. Qed.

Lemma handle_disabled s e x : disabled s x -> disabled s (handle e x) /\ started s (handle e x) + checked s (handle e x) <= started s x + checked s x.
Proof.
  intros Hd. destruct e; cbn [handle]; try (by apply quiet_bound).
  - apply quiet_bound; [apply new_quiet|done].
  - apply quiet_bound; [|done]. split; [done|]. split; [done|]. intros s1. by apply update_disabled.
  - apply quiet_bound; [apply connect_quiet|done].
  - apply quiet_bound; [apply connect_function_quiet|done].
  - by apply spawn_bound.
  - by apply spawn_bound.
  - by apply trigger_bound.
  - by apply trigger_bound.
  - by apply step_disabled.
  - apply quiet_bound; [|done]. unfold write_track_link. destruct (map_find _ _ _); done.
  - apply quiet_bound; [|done]. unfold disconnectTrackLink. destruct (map_find _ _ _); done.
  - by apply (spawn_bound s [IDisconnectAll] (configure false (signature x) (defaultCallType x) (triggerOverride x) (execContext x) x)).
Qed.

Lemma runs_disabled s l : forall x, disabled s x -> disabled s (runs l x) /\ started s (runs l x) + checked s (runs l x) <= started s x + checked s x.
Proof.
  induction l as [|e l IH]; intros x Hd; [split; [done|cbn; lia]|]. destruct (handle_disabled s e x Hd) as [Hd1 H1].
  destruct (IH _ Hd1) as [Hd2 H2]. split; [exact Hd2|]. change (runs (e :: l) x) with (runs l (handle e x)). lia.
Qed.

(** ** The map of the subscribers *)

(** The subscribers of the map exist, and their links are those that were given. *)
Record map_inv (n : nat) (x : Signal) : Prop := {
  inv_sorted : sorted_map Z.compare (subscriberMap x);
  inv_pointers : Forall (fun p => snd p < length (subscribers x)) (subscriberMap x);
  inv_links : Forall (fun p => 0 < fst p <= linkUid x)%Z (subscriberMap x);
  inv_uid : (0 < linkUid x <= Z.of_nat n + 1)%Z;
}.

Lemma Forall_subset {A} (P : A -> Prop) l l' : (forall p, p ∈ l' -> p ∈ l) -> Forall P l -> Forall P l'.
Proof. rewrite !Forall_forall. auto. Qed.

(** The map may lose entries, and subscribers may come. *)
Lemma map_inv_le n m x x' : n <= m -> map_inv n x -> sorted_map Z.compare (subscriberMap x') -> (forall p, p ∈ subscriberMap x' -> p ∈ subscriberMap x) ->
  length (subscribers x) <= length (subscribers x') -> linkUid x' = linkUid x -> map_inv m x'.
Proof.
  intros Hnm [I1 I2 I3 I4] Hs Hsub Hl Hu. split; [done| | |rewrite Hu; lia]; apply (Forall_subset _ _ _ Hsub).
  - eapply Forall_impl; [exact I2|]. intros p Hp. cbn in *. lia.
  - by rewrite Hu.
Qed.

Lemma disconnect_map l x t x' : disconnect l x = (t, x') ->
  (subscriberMap x' = subscriberMap x \/ subscriberMap x' = map_erase Z.compare l (subscriberMap x)) /\ length (subscribers x') = length (subscribers x) /\ linkUid x' = linkUid x.
Proof.
  unfold disconnect. destruct (negb _); [intros [= <- <-]; auto|]. destruct (map_find _ _ _) as [s|]; [|intros [= <- <-]; auto].
  destruct (_ && _); intros [= <- <-]; cbn; rewrite length_alter; auto.
Qed.

Lemma exec_map i o x r x' : exec i o x = (r, x') ->
  (subscriberMap x' = subscriberMap x \/ exists l, subscriberMap x' = map_erase Z.compare l (subscriberMap x)) /\ length (subscribers x') = length (subscribers x) /\ linkUid x' = linkUid x.
Proof.
  intros E. destruct i as [s' a ct|s' a|s' a|s'|l|l|]; cbn [exec] in E; unfold callImpl, callImpl_end, disconnectAllStep in E; try (by injection E as <- <-; auto).
  - destruct (subscribers x !! s') as [p|]; [|by injection E as <- <-; auto]. unfold call in E.
    destruct (target p); [destruct (executionContextFor p ct); [destruct (_ && _)|]|destruct (objects x !! _)|]; injection E as <- <-; auto.
  - destruct (disconnect l x) as [t x1] eqn:E1. injection E as <- <-. apply disconnect_map in E1 as ([E1|E1] & E2 & E3); eauto 6.
Qed.

Lemma map_erase_inv n l x x' : map_inv n x -> (subscriberMap x' = subscriberMap x \/ subscriberMap x' = map_erase Z.compare l (subscriberMap x)) ->
  length (subscribers x) <= length (subscribers x') -> linkUid x' = linkUid x -> map_inv (S n) x'.
Proof.
  intros I Hm. pose proof (inv_sorted _ _ I) as Hs. apply (map_inv_le n _ x); [lia|done|destruct Hm as [-> | ->]; [done|by apply (map_erase_sorted Z.compare)]|].
  destruct Hm as [-> | ->]; [done|apply (map_erase_In Z.compare)].
Qed.

Lemma same_map_inv n x x' : map_inv n x -> subscriberMap x' = subscriberMap x -> length (subscribers x) <= length (subscribers x') -> linkUid x' = linkUid x -> map_inv (S n) x'.
Proof. intros I Hm. apply (map_erase_inv n 0%Z x x' I). by left. Qed.

Lemma signal_connect_inv n s x : map_inv n x -> (Z.of_nat n < 2 ^ 64 - 2)%Z -> map_inv (S n) (connectAsync s x).
Proof.
  intros I Hn. pose proof I as [I1 I2 I3 I4]. destruct (connect_cases s x) as [-> |[-> |(p & Hp & _ & E)]]; [by apply (same_map_inv n x)..|].
  cbv zeta in E. rewrite wrap64_small in E by lia. apply lookup_lt_Some in Hp.
  assert (forall x', subscriberMap x' = map_set Z.compare (linkUid x + 1)%Z s (subscriberMap x) -> length (subscribers x') = length (subscribers x) ->
    linkUid x' = (linkUid x + 1)%Z -> map_inv (S n) x') as H.
  { intros x' Em El Eu. split.
    - rewrite Em. by apply (map_set_sorted Z.compare).
    - rewrite Em, El. apply Forall_forall. intros q Hq%(map_set_In Z.compare). destruct Hq as [-> |Hq]; [done|]. by apply (proj1 (Forall_forall _ _) I2).
    - rewrite Em, Eu. apply Forall_forall. intros q Hq%(map_set_In Z.compare). destruct Hq as [-> |Hq]; [cbn; lia|]. apply (proj1 (Forall_forall _ _) I3) in Hq. lia.
    - rewrite Eu. lia. }
  rewrite E. destruct (_ && _); apply H; cbn; rewrite ?length_alter; done.
Qed.

Lemma subscriber_new_inv n t ct ec x : map_inv n x -> map_inv n (snd (new_subscriber t ct ec x)).
Proof. intros I. apply (map_inv_le n n x); try done; [exact (inv_sorted _ _ I)|]. cbn. rewrite length_app. lia. Qed.

Lemma trigger_map a ct x : subscriberMap (trigger a ct x) = subscriberMap x /\ subscribers (trigger a ct x) = subscribers x /\ linkUid (trigger a ct x) = linkUid x.
Proof. unfold trigger. by destruct (triggerOverride x). Qed.

Lemma handle_map_inv n e x : map_inv n x -> (Z.of_nat n < 2 ^ 64 - 2)%Z -> map_inv (S n) (handle e x).
Proof.
  intros I Hn. destruct e; cbn [handle]; try (by apply (same_map_inv n x)).
  - apply (same_map_inv n x); try done. cbn. rewrite length_app. lia.
  - apply (same_map_inv n x); try done. cbn. by rewrite length_alter.
  - by apply signal_connect_inv.
  - unfold connect_function. destruct (execContext x) as [ec|]; [pose proof (subscriber_new_inv n (Handler f params) MetaCallType_Direct (Some ec) x I) as I'
      |pose proof (subscriber_new_inv n (Handler f params) MetaCallType_Auto None x I) as I'];
      destruct (new_subscriber _ _ _ _) as [s x1]; by apply signal_connect_inv.
  - destruct (trigger_map args ct x) as (Em & Es & Eu). apply (same_map_inv n x); [done..|by rewrite Es|done].
  - unfold emit. destruct (trigger_map args (if sig_eq sig (signature x) then defaultCallType x else MetaCallType_Auto) x) as (Em & Es & Eu).
    apply (same_map_inv n x); [done..|by rewrite Es|done].
  - unfold step. destruct (threads x !! k) as [[|i t]|]; [by apply (same_map_inv n x)| |by apply (same_map_inv n x)]. destruct (exec i o x) as [r x1] eqn:E.
    apply exec_map in E as (Hm & El & Eu). destruct Hm as [Hm|[l Hm]]; [apply (map_erase_inv n 0%Z x)|apply (map_erase_inv n l x)]; cbn; auto; lia.
  - unfold write_track_link. destruct (map_find _ _ _); by apply (same_map_inv n x).
  - unfold disconnectTrackLink. destruct (map_find _ _ _) as [l|]; [|by apply (same_map_inv n x)]. apply (map_erase_inv n l x); [done|by right|done|done].
Qed.

Lemma runs_map_inv l : forall n x, map_inv n x -> (Z.of_nat (n + length l) < 2 ^ 64 - 1)%Z -> map_inv (n + length l) (runs l x).
Proof.
  induction l as [|e l IH]; intros n x I Hn; cbn [length] in *; [by rewrite Nat.add_0_r|].
  replace (n + S (length l)) with (S n + length l) by lia. apply IH; [apply handle_map_inv; [done|lia]|lia].
Qed.

Lemma init_map_inv sig ec on rsn : map_inv 0 (Signal_init sig ec on rsn).
Proof. by repeat constructor. Qed.

(** C36. Once a disconnection has removed a link from the map of the signal, the handler of its subscriber is never
    called again, whatever the threads do, but for the calls whose test of [enabled] was over when the
    disconnection took effect; and the link is not found again, so that a second disconnection of it gives false. *)
Theorem signal_disconnect_silences sig ec on rsn l k o link t s evs :
  let x := runs l (Signal_init sig ec on rsn) in (Z.of_nat (length l) < 2 ^ 64 - 2)%Z ->
  threads x !! k = Some (IDisconnect link :: t) -> isValidSignalLink link = true -> map_find Z.compare link (subscriberMap x) = Some s ->
  let x1 := step k o x in let x2 := runs evs x1 in
  map_find Z.compare link (subscriberMap x1) = None /\ disabled s x2 /\ started s x2 <= started s x + checked s x.
Proof.
  intros x Hl Ek Hv Hf x1 x2. pose proof (runs_map_inv l 0 _ (init_map_inv sig ec on rsn) ltac:(cbn; lia)) as I. fold x in I.
  assert (map_find Z.compare link (subscriberMap x1) = None /\ disabled s x1 /\ started s x1 + checked s x1 <= started s x + checked s x) as (H1 & H2 & H3).
  { pose proof (map_find_In Z.compare _ _ _ Hf) as Hin. apply (proj1 (Forall_forall _ _) (inv_pointers _ _ I)) in Hin. cbn in Hin.
    apply lookup_lt_is_Some in Hin as [p Hp]. unfold x1, step. rewrite Ek. cbn [exec].
    assert (disabled s (snd (disconnect link x)) /\ subscriberMap (snd (disconnect link x)) = map_erase Z.compare link (subscriberMap x)) as [Hd Hm].
    { unfold disconnect. rewrite Hv, Hf. cbn [negb]. unfold disabled.
      assert (alter disable s (subscribers x) !! s = Some (disable p)) as Hq by (rewrite list_lookup_alter_eq, Hp; done).
      destruct (_ && _); (split; [exists (disable p)|]; done). }
    destruct (disconnect link x) as [u x3] eqn:E. cbn [snd] in Hd, Hm. split; [cbn; rewrite Hm, (map_find_erase Z.compare); by rewrite decide_True|]. split; [exact Hd|].
    apply disconnect_threads in E as (Et & Eh & Hu). rewrite <- Et in Ek.
    pose proof (sum_insert (sum_list_with (about_to_run s)) (threads x3) k _ (u ++ t) Ek) as Hs. unfold started, checked. cbn [handled threads set_threads]. rewrite Eh.
    rewrite sum_list_with_app in Hs. rewrite <- Et. destruct Hu as [-> | ->]; cbn in Hs |- *; lia. }
  split; [done|]. destruct (runs_disabled s evs x1 H2) as [H4 H5]. split; [exact H4|]. fold x2 in H5. lia.
Qed.

Lemma signal_disconnect_silences_witness :
  let x := runs [ConnectFunction 1 None; Disconnect 2] (Signal_init (Sig (lit "()") []) None true true) in
  let x1 := step 0 Returns x in let x2 := runs [Trigger 5 MetaCallType_Direct; Step 1 Returns; Step 0 Returns] x1 in
  map_find Z.compare 2%Z (subscriberMap x1) = None /\ disabled 0 x2 /\ started 0 x2 <= started 0 x + checked 0 x.
Proof.
  apply (signal_disconnect_silences (Sig (lit "()") []) None true true [ConnectFunction 1 None; Disconnect 2] 0 Returns 2%Z [] 0
    [Trigger 5 MetaCallType_Direct; Step 1 Returns; Step 0 Returns]); vm_compute; reflexivity.
Defined.

(** ** The callback for the number of subscribers *)














(** ** An emission *)

(** The thread [k] runs alone, and the handlers return. *)
Definition alone (k n : nat) (x : Signal) : Signal := Nat.iter n (step k Returns) x.

Lemma alone_S k n x : alone k (S n) x = alone k n (step k Returns x).
Proof. unfold alone. by rewrite Nat.iter_succ_r. Qed.

Lemma alone_add k n m x : alone k (n + m) x = alone k m (alone k n x).
Proof. unfold alone. rewrite Nat.add_comm. apply Nat.iter_add. Qed.

Lemma step_exec k i t x : threads x !! k = Some (i :: t) ->
  step k Returns x = let (r, x) := exec i Returns x in set_threads (<[k := match r with Some u => u ++ t | None => [] end]> (threads x)) x.
Proof. intros E. unfold step. by rewrite E. Qed.









(** ** The disconnection of all subscribers *)

Lemma erase_first l (s : SubscriberPtr) m : sorted_map Z.compare ((l, s) :: m) -> map_erase Z.compare l ((l, s) :: m) = m.
Proof.
  intros H. apply StronglySorted_inv in H as [Hs Hf]. cbn [map_erase]. rewrite Z.compare_refl.
  assert (Forall (fun p : Z * nat => l < fst p)%Z m) as Hl.
  { apply Forall_forall. intros p Hp. apply list_elem_of_In in Hp. apply (proj1 (List.Forall_forall _ _) Hf) in Hp. exact Hp. }
  clear Hs Hf. induction Hl as [|[l' s'] m H _ IH]; [done|]. cbn in *. destruct (Z.compare_spec l l'); [lia|by f_equal|lia].
Qed.

(** One link is disconnected, with the call of the callback if it was the last one. *)
Lemma disconnect_one k l s m t x : threads x !! k = Some (IDisconnect l :: t) -> subscriberMap x = (l, s) :: m -> sorted_map Z.compare (subscriberMap x) ->
  isValidSignalLink l = true -> s < length (subscribers x) ->
  exists n r, 0 < n <= 2 /\ r <> DValue false /\ let x' := alone k n x in
    threads x' = <[k := t]> (threads x) /\ subscriberMap x' = m /\ disconnections x' = disconnections x ++ [(l, r)] /\ disabled s x' /\
    length (subscribers x') = length (subscribers x) /\ onSubscribers x' = onSubscribers x /\ (forall s', disabled s' x -> disabled s' x').
Proof.
  intros Ek Em Hs Hv Hp. pose proof (lookup_lt_Some _ _ _ Ek) as Hk. pose proof (step_exec _ _ _ _ Ek) as E1. cbn [exec] in E1; unfold callImpl, callImpl_end, disconnectAllStep in E1; cbn [app] in E1.
  apply lookup_lt_is_Some in Hp as [p Hp].
  assert (map_find Z.compare l (subscriberMap x) = Some s) as Hf by (rewrite Em; cbn; by rewrite Z.compare_refl).
  assert (map_erase Z.compare l (subscriberMap x) = m) as He by (rewrite Em in Hs |- *; by apply erase_first).
  assert (disabled s (snd (disconnect l x)) /\ (forall s', disabled s' x -> disabled s' (snd (disconnect l x)))) as [Hd Hd'].
  { split; [|destruct (disconnect l x) as [u x1] eqn:E; intros s'; by apply (disconnect_disabled s' l x u)].
    unfold disconnect. rewrite Hv, Hf. cbn [negb]. unfold disabled.
    assert (alter disable s (subscribers x) !! s = Some (disable p)) as Hq by (rewrite list_lookup_alter_eq, Hp; done).
    destruct (_ && _); by exists (disable p). }
  unfold disconnect in E1, Hd, Hd'. rewrite Hv, Hf in E1, Hd, Hd'. cbn [negb] in E1, Hd, Hd'. rewrite He in E1, Hd, Hd'.
  cbn [subscriberMap set_map onSubscribers] in E1, Hd, Hd'. destruct (_ && _); cbn [app snd] in E1, Hd, Hd'.
  - set (x1 := step k Returns x) in *. assert (threads x1 !! k = Some (IOnSubscribers l :: t)) as Ek1 by (rewrite E1; cbn; by rewrite list_lookup_insert_eq).
    pose proof (step_exec _ _ _ _ Ek1) as E2. cbn [exec app] in E2; unfold callImpl, callImpl_end, disconnectAllStep in E2; cbn [app] in E2. exists 2, (DAfter (length (on_calls x1))). split; [lia|]. split; [done|].
    rewrite !alone_S. fold x1. change (alone k 0 ?y) with y. rewrite E2, E1. cbn. rewrite list_insert_insert_eq, length_alter. by repeat split.
  - exists 1, (DValue true). split; [lia|]. split; [done|]. rewrite !alone_S. change (alone k 0 ?y) with y. rewrite E1. cbn. rewrite length_alter. by repeat split.
Qed.

Lemma disconnect_all_alone k m : forall x, threads x !! k = Some [IDisconnectAll] -> subscriberMap x = m -> sorted_map Z.compare m ->
  Forall (fun p => isValidSignalLink (fst p) = true /\ snd p < length (subscribers x)) m ->
  exists n ds, n <= 3 * length m + 1 /\ let x' := alone k n x in
    threads x' = <[k := []]> (threads x) /\ subscriberMap x' = [] /\ disconnections x' = disconnections x ++ ds /\ ds.*1 = m.*1 /\
    Forall (fun d => snd d <> DValue false) ds /\ (forall s, s ∈ m.*2 \/ disabled s x -> disabled s x').
Proof.
  induction m as [|[l s] m IH]; intros x Ek Em Hs Hf; pose proof (step_exec _ _ _ _ Ek) as E1; cbn [exec] in E1; unfold callImpl, callImpl_end, disconnectAllStep in E1; cbn [app] in E1; rewrite Em in E1.
  - exists 1, []. split; [cbn; lia|]. rewrite alone_S. change (alone k 0 ?y) with y. rewrite E1. cbn. rewrite app_nil_r. do 5 (split; [done|]).
    intros s [H|H]; [by apply elem_of_nil in H|exact H].
  - apply Forall_cons in Hf as [[Hv Hp] Hf]. cbn in Hv, Hp. rewrite Hv in E1. cbn [app] in E1. set (x1 := step k Returns x) in *.
    pose proof (lookup_lt_Some _ _ _ Ek) as Hk.
    assert (threads x1 !! k = Some [IDisconnect l; IDisconnectAll]) as Ek1 by (rewrite E1; cbn; by rewrite list_lookup_insert_eq).
    destruct (disconnect_one k l s m _ x1 Ek1) as (n1 & r & Hn1 & Hr & At & Am & Ad & As & Al & _ & Ao); [by rewrite E1|by rewrite E1; cbn; rewrite Em|done|by rewrite E1|].
    set (x2 := alone k n1 x1) in *. assert (threads x2 = <[k:=[IDisconnectAll]]> (threads x)) as At' by (rewrite At, E1; cbn; by rewrite list_insert_insert_eq).
    destruct (IH x2) as (n2 & ds & Hn2 & Bt & Bm & Bd & Bl & Br & Bo).
    + rewrite At'. by rewrite list_lookup_insert_eq.
    + done.
    + by apply StronglySorted_inv in Hs as [Hs _].
    + rewrite Al, E1. exact Hf.
    + exists (S (n1 + n2)), ((l, r) :: ds). split; [cbn; lia|]. rewrite alone_S, alone_add. fold x1. fold x2. cbv zeta.
      rewrite Bt, Bm, Bd, Ad, At', E1. cbn. rewrite list_insert_insert_eq, <- app_assoc, Bl. do 4 (split; [done|]). split; [by constructor|].
      intros s' [H|H]; [apply elem_of_cons in H as [-> |H]; apply Bo; [by right|by left]|apply Bo; right]. apply Ao. by rewrite E1.
Qed.

(** C0. [disconnectAll] comes to an end when it is not disturbed: within three steps for each subscriber it removes every
    link, each disconnection has found its link, and every subscriber that was connected is disabled. *)
Theorem signal_disconnect_all sig ec on rsn l : let x := runs l (Signal_init sig ec on rsn) in let k := length (threads x) in
  (Z.of_nat (length l) < 2 ^ 64 - 2)%Z ->
  exists n ds, n <= 3 * length (subscriberMap x) + 1 /\ let x' := alone k n (spawn [IDisconnectAll] x) in
    threads x' = threads x ++ [[]] /\ subscriberMap x' = [] /\ disconnections x' = disconnections x ++ ds /\ ds.*1 = (subscriberMap x).*1 /\
    Forall (fun d => snd d <> DValue false) ds /\ (forall s, s ∈ (subscriberMap x).*2 -> disabled s x').
Proof.
  intros x k Hl. pose proof (runs_map_inv l 0 _ (init_map_inv sig ec on rsn) ltac:(cbn; lia)) as I. fold x in I. destruct I as [I1 I2 I3 I4].
  destruct (disconnect_all_alone k (subscriberMap x) (spawn [IDisconnectAll] x)) as (n & ds & Hn & At & Am & Ad & Al & Ar & As).
  - cbn. by apply list_lookup_middle.
  - done.
  - done.
  - apply Forall_forall. intros p Hp. split; [|by apply (proj1 (Forall_forall _ _) I2 p)]. apply (proj1 (Forall_forall _ _) I3) in Hp.
    unfold isValidSignalLink, invalidSignalLink. apply negb_true_iff, Z.eqb_neq. cbn in I4. lia.
  - exists n, ds. split; [done|]. cbv zeta. rewrite At, Am, Ad. cbn [threads spawn set_threads disconnections]. split; [|by eauto 10].
    unfold k. rewrite insert_app_r_alt by lia. by rewrite Nat.sub_diag.
Qed.

Lemma signal_disconnect_all_witness :
  let x := runs [ConnectFunction 1 None; ConnectFunction 2 None] demo in let k := length (threads x) in
  exists n ds, n <= 3 * length (subscriberMap x) + 1 /\ let x' := alone k n (spawn [IDisconnectAll] x) in
    threads x' = threads x ++ [[]] /\ subscriberMap x' = [] /\ disconnections x' = disconnections x ++ ds /\ ds.*1 = (subscriberMap x).*1 /\
    Forall (fun d => snd d <> DValue false) ds /\ (forall s, s ∈ (subscriberMap x).*2 -> disabled s x').
Proof. apply (signal_disconnect_all (Sig (lit "()") []) None true true [ConnectFunction 1 None; ConnectFunction 2 None]). by vm_compute. Defined.

(** ** What signals do not promise *)

(** The callback is called out of the mutex by a disconnection: it may be told of an end after
    it was told of the next beginning, and is then left with the end while a subscriber is there. *)
Lemma on_subscribers_out_of_order :
  let x := runs [ConnectFunction 1 None; Disconnect 2; Step 0 Returns; ConnectFunction 2 None; Step 0 Returns] demo in
  on_calls x = [true; true; false] /\ length (subscriberMap x) = 1.
Proof. by vm_compute. Qed.

(** A subscriber that was disconnected and is connected again stays disabled. *)
Lemma reconnected_never_called :
  let x := runs [New (Handler 1 None) MetaCallType_Direct None; Connect 0; Disconnect 2; Step 0 Returns; Step 0 Returns; Connect 0;
                 Trigger 5 MetaCallType_Auto; Step 1 Returns; Step 1 Returns] demo in
  (subscriberMap x).*2 = [0] /\ handled x = [] /\ threads x = [[]; []].
Proof. by vm_compute. Qed.

(** The disconnection of an object does not stop an emission in progress from calling it. *)
Lemma object_called_after_disconnection :
  let x := runs [ObjectMade 7 ∅; New (Target 7 3) MetaCallType_Direct None; Connect 0; Trigger 5 MetaCallType_Auto; Disconnect 2; Step 1 Returns; Step 1 Returns] demo in
  disconnections x = [(2%Z, DAfter 1)] /\ posts x = [] /\ posts (step 0 Returns x) = [(7, 3, 5)].
Proof. by vm_compute. Qed.

(** An emission with other arguments than the signature of the signal is not dropped. *)
Lemma mismatch_not_dropped :
  let x := runs [New (Handler 1 None) MetaCallType_Direct None; Connect 0; Emit (Sig (lit "(i)") [Sig (lit "i") []]) 5;
                 Step 0 Returns; Step 0 Returns; Step 0 Returns] demo in
  sig_eq (Sig (lit "(i)") [Sig (lit "i") []]) (signature x) = false /\ handled x = [(0, 5)].
Proof. by vm_compute. Qed.

(** A subscriber is called before the future of its connection is set. *)
Lemma called_before_connected :
  let x := runs [New (Handler 1 None) MetaCallType_Direct None; Connect 0; Trigger 5 MetaCallType_Auto; Step 0 Returns; Step 0 Returns; Step 0 Returns] demo in
  connections x = [Some (0, Some 0)] /\ handled x = [(0, 5)].
Proof. by vm_compute. Qed.

(** An emission to which the event loop is missing stops at the first asynchronous subscriber. *)
Lemma emission_stops_without_event_loop :
  let x := runs [ConnectFunction 1 None; New (Handler 2 None) MetaCallType_Direct None; Connect 1; EventLoopDestroyed; Trigger 5 MetaCallType_Auto; Step 0 Returns] demo in
  threads x = [[]] /\ handled x = [].
Proof. by vm_compute. Qed.

(** The link of a signal that is lost is removed without a word to the callback, and when it
    is lost while it is being connected its entry is written after it was erased. *)
Lemma lost_signal_untold :
  let x := runs [Track; ConnectFunction 1 None; WriteTrack 1 2; TrackLost 1] demo in
  subscriberMap x = [] /\ on_calls x = [true] /\ fst (write_track_link 1 2 x) = false.
Proof. by vm_compute. Qed.

(** A disconnection does not wait for the handler that runs, and the call of a handler whose test of
    [enabled] is over begins after it. *)
Lemma disconnect_does_not_wait :
  let x := runs [New (Handler 1 None) MetaCallType_Direct None; Connect 0; SetOnSubscribers false; Trigger 5 MetaCallType_Auto; Step 0 Returns; Step 0 Returns; Disconnect 2; Step 1 Returns] demo in
  disconnections x = [(2%Z, DValue true)] /\ handled x = [] /\ handled (step 0 Returns x) = [(0, 5)] /\ threads (step 0 Returns x) = [[IReturn 0]; []].
Proof. by vm_compute. Qed.
