(* ===== verification/ServiceDirectoryClient.v ===== *)
(** * ServiceDirectoryClient: the connection of a session to the service directory

    Model of [src/messaging/servicedirectoryclient.cpp]: the connection of a socket, the
    authentication, the meta object of the directory and the registration to its two events, with
    the closings and the losses of sockets in between. The n-th call of [connect] makes the n-th
    socket and the n-th promise. A handler is one step; what it waits for is an operation, which
    ends at any time. *)
From S2P Require Import Prelude CString Message Authentication.
Open Scope nat_scope.

(** ** The data *)

Inductive promise := Unset | PValue | PError.
#[export] Instance promise_eq_dec : EqDecision promise.
Proof. solve_decision. Defined.

(** The operations in progress, and the continuations of their futures. *)
Inductive op :=
  | OConnecting (c : nat)
  | OConnected (c : nat) (ok : bool)
  | OFetch (c : nat)
  | OEvent (c : nat) (isAdd : bool)
  | OSetError (c : nat)
  | OSetIfRunning (c : nat)
  | ODown (c : nat).
#[export] Instance op_eq_dec : EqDecision op.
Proof. solve_decision. Defined.

Record Client := mkClient {
  (** [_stateData]; the links of events are there or not *)
  sdSocket : option nat;
  addSignalLink : bool;
  removeSignalLink : bool;
  localSd : bool;
  (** [_object] is the local directory *)
  object_local : bool;
  promises : list promise;
  ops : list op;
  (** the sockets that are connected, those that were told to disconnect, the subscriptions to their two signals *)
  up : gset nat;
  asked : gset nat;
  on_disconnected : gset nat;
  on_event : gset nat;
  connected_calls : nat;
  disconnected_calls : nat;
  (** a promise was set twice: the setting throws *)
  twice : bool;
  (** for the theorems: the sockets whose authentication has succeeded, and the connections in progress that something else has closed *)
  authenticated : gset nat;
  closed : gset nat;
}.

Definition Client_new : Client := mkClient None false false false false [] [] ∅ ∅ ∅ ∅ 0 0 false ∅ ∅.

Definition set_state (s : option nat) (a r l : bool) (x : Client) : Client :=
  mkClient s a r l (object_local x) (promises x) (ops x) (up x) (asked x) (on_disconnected x) (on_event x) (connected_calls x) (disconnected_calls x) (twice x) (authenticated x) (closed x).
Definition set_object (b : bool) (x : Client) : Client :=
  mkClient (sdSocket x) (addSignalLink x) (removeSignalLink x) (localSd x) b (promises x) (ops x) (up x) (asked x) (on_disconnected x) (on_event x) (connected_calls x) (disconnected_calls x) (twice x) (authenticated x) (closed x).
Definition set_promises (l : list promise) (t : bool) (x : Client) : Client :=
  mkClient (sdSocket x) (addSignalLink x) (removeSignalLink x) (localSd x) (object_local x) l (ops x) (up x) (asked x) (on_disconnected x) (on_event x) (connected_calls x) (disconnected_calls x) t (authenticated x) (closed x).
Definition set_ops (l : list op) (x : Client) : Client :=
  mkClient (sdSocket x) (addSignalLink x) (removeSignalLink x) (localSd x) (object_local x) (promises x) l (up x) (asked x) (on_disconnected x) (on_event x) (connected_calls x) (disconnected_calls x) (twice x) (authenticated x) (closed x).
Definition set_sockets (u a : gset nat) (x : Client) : Client :=
  mkClient (sdSocket x) (addSignalLink x) (removeSignalLink x) (localSd x) (object_local x) (promises x) (ops x) u a (on_disconnected x) (on_event x) (connected_calls x) (disconnected_calls x) (twice x) (authenticated x) (closed x).
Definition set_links (d e : gset nat) (x : Client) : Client :=
  mkClient (sdSocket x) (addSignalLink x) (removeSignalLink x) (localSd x) (object_local x) (promises x) (ops x) (up x) (asked x) d e (connected_calls x) (disconnected_calls x) (twice x) (authenticated x) (closed x).
Definition set_calls (n m : nat) (x : Client) : Client :=
  mkClient (sdSocket x) (addSignalLink x) (removeSignalLink x) (localSd x) (object_local x) (promises x) (ops x) (up x) (asked x) (on_disconnected x) (on_event x) n m (twice x) (authenticated x) (closed x).
Definition set_ghosts (a c : gset nat) (x : Client) : Client :=
  mkClient (sdSocket x) (addSignalLink x) (removeSignalLink x) (localSd x) (object_local x) (promises x) (ops x) (up x) (asked x) (on_disconnected x) (on_event x) (connected_calls x) (disconnected_calls x) (twice x) a c.

Definition post (o : op) (x : Client) : Client := set_ops (ops x ++ [o]) x.
Definition promise_of (c : nat) (x : Client) : promise := default PError (promises x !! c).
Definition set_promise (c : nat) (p : promise) (x : Client) : Client :=
  if decide (promise_of c x = Unset) then set_promises (<[c := p]> (promises x)) (twice x) x else set_promises (promises x) true x.

(** [MessageSocket::disconnect]. *)
Definition disconnect_socket (s : option nat) (x : Client) : Client :=
  match s with Some c => set_sockets (up x) (asked x ∪ {[c]}) x | None => x end.

(** ** Closing *)

Definition isConnected (x : Client) : bool :=
  if localSd x then true else match sdSocket x with Some c => bool_decide (c ∈ up x) | None => false end.

Definition isPreviousSdSocket (s : option nat) (x : Client) : bool := negb (bool_decide (s = sdSocket x)).

(** [cleanupPreviousSdSocket], for the promise of a connection, or one of no use. *)
Definition cleanupPreviousSdSocket (s : option nat) (c : option nat) (x : Client) : Client :=
  let x := disconnect_socket s x in match c with Some c => set_promise c PError x | None => x end.

(** [closeImpl]; [by_] is the connection on behalf of which it is called, for the theorems. *)
Definition closeImpl (sendSignalDisconnected : bool) (by_ : option nat) (x : Client) : Client :=
  let s := sdSocket x in let local := localSd x in
  let x := set_state None false false false x in
  let x := match s with
           | Some c =>
               let x := set_ghosts (authenticated x) (if decide (by_ = s) then closed x else closed x ∪ {[c]}) x in
               let x := set_links (on_disconnected x ∖ {[c]}) (on_event x ∖ {[c]}) x in
               let x := disconnect_socket s x in
               if sendSignalDisconnected then set_calls (connected_calls x) (S (disconnected_calls x)) x else x
           | None => x
           end in
  if local then set_object false x else x.

Definition onSocketFailure (s : option nat) (sendSignalDisconnected : bool) (by_ : option nat) (x : Client) : Client :=
  if isPreviousSdSocket s x then cleanupPreviousSdSocket s None x else closeImpl sendSignalDisconnected by_ x.

(** A failure of a connection: its promise is set once the socket is closed. *)
Definition fail_connection (s : option nat) (sendSignalDisconnected : bool) (c : nat) (x : Client) : Client :=
  post (OSetError c) (onSocketFailure s sendSignalDisconnected (Some c) x).

Definition close (x : Client) : Client := closeImpl true None x.

(** ** The continuations *)

Definition onSDEventConnected (ok : bool) (c : nat) (isAdd : bool) (x : Client) : Client :=
  if negb (bool_decide (promise_of c x = Unset)) then x
  else if negb ok then fail_connection (sdSocket x) true c x
  else
    let x := set_state (sdSocket x) (isAdd || addSignalLink x) (negb isAdd || removeSignalLink x) (localSd x) x in
    if addSignalLink x && removeSignalLink x then
      let x := set_promise c PValue x in set_calls (S (connected_calls x)) (disconnected_calls x) x
    else x.

Definition onMetaObjectFetched (s : option nat) (ok : bool) (c : nat) (x : Client) : Client :=
  if isPreviousSdSocket s x then cleanupPreviousSdSocket s (Some c) x
  else if negb ok then fail_connection s true c x
  else post (OEvent c false) (post (OEvent c true) x).

(** The link of the state is that of the socket. *)
Definition disconnect_event (s : option nat) (x : Client) : Client :=
  match s with Some c => set_links (on_disconnected x) (on_event x ∖ {[c]}) x | None => x end.

Section client.
Variable _enforceAuth : bool.

Definition onAuthentication (s : option nat) (data : socket_event) (c : nat) (x : Client) : Client :=
  if isPreviousSdSocket s x then cleanupPreviousSdSocket s (Some c) x
  else
    let x1 := disconnect_event s x in
    match data with
    | EventError => fail_connection s true c x1
    | EventMessage msg =>
        if is_failure msg then if _enforceAuth then fail_connection s true c x1 else post (OFetch c) x1
        else
          match am_state msg with
          | None => x
          | Some None => fail_connection s true c x1
          | Some (Some state) =>
              if (state <? State_Error)%Z || (State_Done <? state)%Z then fail_connection s true c x1
              else if (state =? State_Done)%Z then post (OFetch c) (set_ghosts (authenticated x1 ∪ {[c]}) (closed x1) x1)
              else x
          end
    end.

(** [s] is the socket that the continuation was given. *)
Definition onSocketConnected (s : option nat) (ok : bool) (c : nat) (x : Client) : Client :=
  if isPreviousSdSocket s x then cleanupPreviousSdSocket s (Some c) x
  else if negb ok then fail_connection s false c x
  else match s with Some n => set_links (on_disconnected x) (on_event x ∪ {[n]}) x | None => x end.

(** The signal [disconnected] of a socket. *)
Definition onDisconnected (c : nat) (x : Client) : Client :=
  if bool_decide (c ∈ on_disconnected x) then post (OSetIfRunning c) (onSocketFailure (Some c) true (Some c) x) else x.

(** [connect], under the mutex; the continuation of the connection is attached after it, to the socket
    that the state has then. *)
Definition connect (x : Client) : Client :=
  let c := length (promises x) in
  if isConnected x then set_promises (promises x ++ [PError]) (twice x) x
  else
    let x := disconnect_socket (sdSocket x) x in
    let x := set_promises (promises x ++ [Unset]) (twice x) x in
    let x := set_state (Some c) (addSignalLink x) (removeSignalLink x) (localSd x) x in
    post (OConnecting c) (set_links (on_disconnected x ∪ {[c]}) (on_event x) x).

Definition setServiceDirectory (x : Client) : Client :=
  let x := set_object true x in
  let x := set_state (sdSocket x) true true true x in set_calls (S (connected_calls x)) (disconnected_calls x) x.

(** The end of an operation. *)
Definition run_op (o : op) (ok : bool) (x : Client) : Client :=
  match o with
  | OConnecting c => post (OConnected c ok) (set_sockets (if ok then up x ∪ {[c]} else up x) (asked x) x)
  | OConnected c ok => onSocketConnected (Some c) ok c x
  | OFetch c => onMetaObjectFetched (Some c) ok c x
  | OEvent c isAdd => onSDEventConnected ok c isAdd x
  | OSetError c => set_promise c PError x
  | OSetIfRunning c => if decide (promise_of c x = Unset) then set_promise c PError x else x
  | ODown c => onDisconnected c x
  end.

(** ** Runs *)

Inductive event :=
  | Connect
  | Close
  | SetServiceDirectory
  | Finish (k : nat) (ok : bool)
  | SocketEvent (c : nat) (data : socket_event)
  | SocketDown (c : nat).

Definition finish (k : nat) (ok : bool) (x : Client) : Client :=
  match ops x !! k with Some o => run_op o ok (set_ops (take k (ops x) ++ drop (S k) (ops x)) x) | None => x end.

Definition handle (e : event) (x : Client) : Client :=
  match e with
  | Connect => connect x
  | Close => close x
  | SetServiceDirectory => setServiceDirectory x
  | Finish k ok => finish k ok x
  | SocketEvent c data => if bool_decide (c ∈ on_event x) then onAuthentication (Some c) data c x else x
  | SocketDown c => if bool_decide (c ∈ up x) then post (ODown c) (set_sockets (up x ∖ {[c]}) (asked x) x) else x
  end.

Definition runs (l : list event) (x : Client) : Client := foldl (fun x e => handle e x) x l.
End client.

Definition reply (state : Z) : socket_event := EventMessage (mkAuthMessage Type_Reply 0 ServerFunction_Authenticate (Some (Some state))).

Example connection :
  let x := runs true [Connect; Finish 0 true; Finish 0 true; SocketEvent 0 (reply State_Cont); SocketEvent 0 (reply State_Done); Finish 0 true; Finish 0 true; Finish 0 true] Client_new in
  promises x = [PValue] /\ connected_calls x = 1 /\ twice x = false /\ ops x = [] /\ isConnected x = true.
Proof. by vm_compute. Qed.

(** ** A connection is never forgotten *)
















(** ** Closing *)














(** ** The continuations *)











(** ** Every event *)










(** ** The operations come to an end *)








(** ** Authentication, and the sockets that are left *)





























(** ** What the client does not do *)

(** A client that is closed while it waits for the server never finishes the future of its connection: the
    two signals of the socket that would do it are disconnected. *)
Lemma close_while_authenticating :
  let x := runs true [Connect; Finish 0 true; Finish 0 true; Close; SocketDown 0; Finish 0 true] Client_new in
  ops x = [] /\ promises x = [Unset] /\ sdSocket x = None /\ bool_decide (on_event x = ∅) = true /\ bool_decide (on_disconnected x = ∅) = true.
Proof. by vm_compute. Qed.

(** A client that is closed before the continuation of [connect] is attached gives it no socket, and it returns
    without a word. *)
Lemma close_before_continuation :
  let x := close (connect Client_new) in promise_of 0 x = Unset /\ onSocketConnected (sdSocket x) true 0 x = x.
Proof. by vm_compute. Qed.

(** The registrations to the two events fail, and the promise is set in error twice. *)
Lemma two_events_fail :
  let x := runs true [Connect; Finish 0 true; Finish 0 true; SocketEvent 0 (reply State_Done); Finish 0 true; Finish 0 false; Finish 0 false; Finish 0 true; Finish 0 true] Client_new in
  promises x = [PError] /\ twice x = true.
Proof. by vm_compute. Qed.

(** The late failure of a connection that was lost closes the next one, whose future is not finished. *)
Lemma late_failure_closes_next :
  let x := runs true [Connect; Finish 0 true; Finish 0 true; SocketEvent 0 (reply State_Done); Finish 0 true; SocketDown 0; Connect; Finish 3 true; Finish 3 true;
                      Finish 0 false; Finish 0 false; Finish 0 true; Finish 0 true; Finish 0 true] Client_new in
  sdSocket x = None /\ promises x = [PError; Unset] /\ bool_decide (1 ∈ asked x) = true.
Proof. by vm_compute. Qed.

(** A registration that ends after its connection was closed counts for the next connection, which is connected
    before its own registration is there. *)
Lemma connected_without_event :
  let x := runs true [Connect; Finish 0 true; Finish 0 true; SocketEvent 0 (reply State_Done); Finish 0 true; Close; Finish 0 true;
                      Connect; Finish 1 true; Finish 1 true; SocketEvent 1 (reply State_Done); Finish 1 true; Finish 2 true] Client_new in
  promise_of 1 x = PValue /\ connected_calls x = 1 /\ bool_decide (OEvent 1 true ∈ ops x) = true.
Proof. by vm_compute. Qed.

(** The loss of a socket while the meta object is fetched sets the promise twice: the client is told of the
    loss, then the fetch fails and finds another socket. *)
Lemma lost_while_fetching :
  let x := runs true [Connect; Finish 0 true; Finish 0 true; SocketEvent 0 (reply State_Done); SocketDown 0; Finish 1 true; Finish 1 true; Finish 0 false] Client_new in
  promises x = [PError] /\ twice x = true.
Proof. by vm_compute. Qed.
